(* ===== verification/_CoqProject ===== *)
-Q . S2P
Prelude.v
Utf8.v
CoreTypes.v
CoreLlm.v
CoreLlmProtocol.v
CoreEvent.v
ProjViews.v
ProjContext.v
ProjReducer.v
ProjReplay.v
ProjInvariants.v
StoreTypes.v
StoreConsumers.v
StoreLog.v
StoreScan.v
StoreRecovery.v
StoreRepo.v
StoreJournal.v
TurnFinalize.v
TurnRepair.v
LaneModel.v
LaneProofs.v
LaneJournal.v
LanePublication.v
StdPath.v
StdStr.v
CoreAccess.v
PermPolicy.v
PermChain.v
ToolRepair.v
ToolPrepare.v
ToolExecute.v
ToolSettle.v
ToolStep.v
AiStream.v
AiRetry.v
TurnStream.v
AiAnthropic.v
AiPipeline.v
SchedGates.v
SchedDelivery.v
CtxText.v
CtxTokens.v
CtxCompact.v
SessBreaker.v
TurnWorld.v
SessCompact.v
TurnLoop.v
TurnFrame.v
TurnProofs.v
TurnSettle.v
TurnIngress.v
S5rWire.v
S5rPeer.v
S5rDriver.v
S5rAccounts.v
S5rCalls.v
S5rStreams.v
ExtDeps.v
ExtDepsProofs.v
ExtCatalog.v
ExtFiles.v
ExtPatch.v
ExtInvoke.v
ExtFilesProofs.v
ExtPatchProofs.v
ExtInvokeProofs.v
ExtEdits.v
ExtPages.v
ExtHunks.v
ExtRoutes.v
ExtRegister.v
ExtRegistry.v
ExtHooks.v
ExtHooksProofs.v
ExtAdmission.v
ExtDelivery.v
ExtDeliveryProofs.v
SessLineage.v
ExtHistory.v
