(* ===== verification/Prelude.v ===== *)
(** * AstrCode: a verification development

    AstrCode is a coding agent.  A session is an append-only log of durable events; all state a client sees is a
    projection of that log, and the messages sent to the model provider are derived from it.  A turn sends such
    requests, consumes the provider's stream, runs the tools the model asks for under a permission policy, compacts
    the context when it grows too long, and records what it does as events.  Extensions run as processes of their own:
    they speak the S5R protocol with the host, register tools, hooks, routes and subscriptions, and call back into the
    host for files, history and events.

    This development models the event-sourced kernel (events, projections, log files, journal, the lane of a session),
    the turn from end to end (provider stream, tools, permissions, compaction, finalisation, repair), the scheduler
    that starts, queues and closes turns, and the side of the extensions (peers, registration, hooks, host calls, the
    workspace, delivery of events, history).

    ** The parts and where they are modelled

    All paths are below [src/crates/].

    Shared definitions.
    - [Prelude]: results with the [?] operator, machine-width checked arithmetic, [usize]/[u64] limits, list searches
      ([rposition], [update_first], [find_first]), fallible folds, JSON values, and the automation shared by the files.
    - [Utf8], [StdPath], [StdStr]: what the code uses of [str], paths and string searches.

    Events and projections.
    - [CoreTypes]: [astrcode-core/src/types.rs], [message_attachment.rs], [user_input.rs], [permission.rs], [tool.rs]
      (results), [tool/selection.rs].
    - [CoreLlm], [CoreLlmProtocol]: [astrcode-core/src/llm.rs] and [compaction.rs]: messages, token accounting, the
      events and errors of a provider, and the normalisation every provider request passes
      ([provider_visible_entries]); the trait over owned and shared messages is the class [ProviderVisibleEntry].
    - [CoreEvent]: [astrcode-core/src/event.rs] and [event/]: payloads, envelopes, stored events, fingerprints.
    - [ProjViews], [ProjContext], [ProjReducer]: [astrcode-session-projection/src/]: one module per component reducer
      ([execution], [presentation], [agents], [model_context]), the read model that fans an event out to them
      ([apply_validated_event]), validation, batch preparation and the incremental projections.
    - [ProjReplay], [ProjInvariants]: theorems about replay.

    Storage.
    - [StoreTypes], [StoreConsumers]: [astrcode-storage/src/error.rs], [traits.rs], [session_repo/store.rs],
      [consumer_state.rs]: errors and the durable event consumers with their audit record.
    - [StoreLog], [StoreScan], [StoreRecovery]: [astrcode-storage/src/event_log.rs] and [event_log/]: one JSONL file
      per session as a list of bytes; scans in both directions, recovery of a torn tail, appends with rollback.
    - [StoreRepo], [StoreJournal]: [astrcode-storage/src/session_repo/]: an opened session (writer, projection,
      durability marker) and its operations, as functions on [SessionMeta]; a run is a sequence of such steps.

    The lane of a session ([astrcode-session/src/session_event_sink.rs]).
    - [LaneModel], [LaneProofs], [LaneJournal]: the task that serves the commands of a session one by one, as a
      function on [LaneState] and the relation [reach] of a lane and its requesters, over the class
      [SessionEventJournal] with the laws [LawfulJournal]; [LaneJournal] discharges them for a stored session.
    - [LanePublication]: deferral of publication, as a step system of threads on the shared tables, with every lock
      section one step.

    Permissions, tools and the provider.
    - [CoreAccess]: [astrcode-core/src/tool/access.rs], [hostpaths.rs]: the resources a tool declares, leases, and the
      containment of paths.
    - [PermPolicy], [PermChain]: [astrcode-session/src/permission/]: the twelve policies, the remembered decisions with
      their file, the default chain.
    - [ToolRepair], [ToolPrepare], [ToolExecute], [ToolSettle], [ToolStep]: [astrcode-session/src/tool_json_repair.rs],
      [tool_deduplicator.rs], [tool_pipeline/], [tool_results.rs], [tool_exec.rs]: the calls of a step, from the
      arguments the model wrote to their terminal events.
    - [AiStream], [AiRetry], [AiAnthropic], [AiPipeline]: decoding of a byte stream into lines, requests with retries,
      the Anthropic stream parser, and their composition ([astrcode-ai/src/stream_decoder.rs], [common.rs],
      [retry.rs], [wire/anthropic/stream.rs]).
    - [TurnStream]: [astrcode-session/src/llm_stream.rs], the consumption of a stream.

    Context and turns.
    - [CtxText], [CtxTokens], [CtxCompact]: [astrcode-context/src/]: compact summaries as text, token estimates,
      budgets and snapshots, the compaction of a context.
    - [SessBreaker], [SessCompact]: [astrcode-session/src/compaction/], [projection_context.rs],
      [astrcode-context/src/context_assembler.rs]: the circuit breaker, and the pipeline from the hooks to the
      committed rewrite, automatic, reactive and manual.
    - [TurnWorld], [TurnLoop]: [astrcode-session/src/turn_stages.rs], [deferred_tools.rs], [steer.rs],
      [turn_runner.rs]: the state of a turn, the environment that answers it (the record [TurnEnv]) with a monad over
      the record [TurnWorld], and the loop, stage by stage.  The trace of a world lists what the turn did, in order.
    - [TurnFrame], [TurnProofs], [TurnSettle]: what every operation of a step leaves alone, that it ends, and the
      theorems about whole turns.
    - [TurnFinalize], [TurnRepair]: [astrcode-session/src/session_turn.rs], [payload.rs], [session_error.rs] and the
      repair half of [astrcode-server/src/turn_scheduler/lifecycle.rs], against the class [SessionPort] (append an
      event, read the model, sync) with its laws [LawfulPort]; [TurnRepair] shows that a stored session is such a port.
    - [TurnIngress]: [astrcode-session/src/turn_publish.rs]: the queue and the worker through which hooks and tools
      publish events, as a step system.
    - [SchedGates], [SchedDelivery]: [astrcode-server/src/turn_scheduler.rs] and [turn_scheduler/]: the registry of
      turns, the gates of sessions that close, delivery and queueing of inputs, completion of turns, as step systems.
    - [SessLineage]: [astrcode-session-projection/src/session_lineage.rs] and the access checks of
      [astrcode-server/src/child_session.rs], [session_operations.rs].

    Extensions.
    - [S5rWire], [S5rPeer]: [astrcode-extension-sdk/src/wire/], [astrcode-s5r-runtime/src/peer.rs]: frames, messages,
      negotiation of features, the handshake.
    - [S5rDriver], [S5rAccounts], [S5rCalls], [S5rStreams]: [astrcode-s5r-runtime/src/peer_runtime.rs]: the driver of a
      connection as a step system, the books of its calls, what it promises, and streams between two drivers.
    - [ExtDeps], [ExtDepsProofs]: [astrcode-extensions/src/runner/dependency.rs]: the order in which extensions start.
    - [ExtRoutes], [ExtRegister], [ExtRegistry]: what an extension registers and the conflicts between extensions
      ([astrcode-extension-sdk/src/extension/], [astrcode-extensions/src/runner/registration.rs], [http.rs]).
    - [ExtHooks], [ExtHooksProofs]: [astrcode-extensions/src/runner/index.rs], [mod.rs]: dispatch of hooks.
    - [ExtAdmission]: [astrcode-extensions/src/runner/supervisor.rs]: admission and draining, as a step system.
    - [ExtDelivery], [ExtDeliveryProofs]: [runner/custom_event_delivery.rs], [custom_event_control.rs]: lanes that
      deliver events to a handler, their checkpoint and its controls, as a step system over [StoreConsumers].
    - [ExtCatalog], [ExtInvoke], [ExtInvokeProofs]: [astrcode-extensions/src/host_router.rs],
      [host_router/capability.rs]: the operations of the host and what a call has to pass.
    - [ExtFiles], [ExtFilesProofs], [ExtEdits], [ExtPages]: [host_router/workspace.rs]: reading, writing and editing
      files over the class [FileSystem] with the laws [FileSystemLaws], discharged by a file system in memory.
    - [ExtPatch], [ExtPatchProofs], [ExtHunks]: [host_router/workspace_patch.rs]: unified diffs.
    - [ExtHistory]: [host_router/session.rs]: the sessions an extension may see, and their events page by page.

    ** How the parts interact

    The scheduler accepts an input and starts a turn or queues it.  The turn loop prepares a request from the
    projection, compacting if it must, consumes the stream, and hands the calls to the tool pipeline, which asks the
    permission chain.  All of them call [emit_durable] of the sink, which sends a command to the lane of the session; the lane hands
    batches to the journal; the journal prepares a batch against the projection ([prepare]), writes it through the log's
    writer, and only then applies it to the projection.  After an append with fsync whose outcome is unknown the batch
    stays invisible behind a sticky marker until a retry confirms it.  The lane publishes what became visible to the
    observer, or to a buffer while publication is deferred.  Opening a session recovers the file, replays it and
    rebuilds the projection.  The provider context is one of the projections, normalised on every request.

    Extensions start in the order of their dependencies, each behind a driver that carries the calls of both sides.  The
    hooks of the turn loop are dispatched to them through the index of handlers, each call under a permit of the
    extension's admission.  Their own calls pass the guards of the host router before they reach the workspace or the
    history; which sessions they see is decided by the lineage that also decides the access of sessions to each other.
    Custom events go from the log through the consumers of the storage to the lanes of delivery.

    ** What the theorems show

    - Event sourcing: preparing and applying a batch is reducing its events one by one; the in-memory model is the
      replay of the log; replay accepts exactly the well-formed logs; the summary listing is a refinement of the read
      model; pending inputs, context order, transcript rewrites and idleness are what the log says.
    - Provider requests: rounds of tool calls and results are complete, every result is owned by the round before it,
      nothing is invented, a settled transcript is sent unchanged; and the one shape of transcript for which a call is
      sent without results.
    - Storage: scans agree with their references for every chunking; a file cut at any byte opens to its complete
      records; an append commits, rolls back or poisons the writer, whose file reopens to the old log and at most a
      prefix of the batch; consumers keep a readable audit record.
    - The journal: in every reachable state the projection is the replay of the visible log, and a replay of the file is
      refused, reads that log, or, behind a poisoned writer, that log and records of the failed write; uncertainty
      blocks and is resolved exactly once; a crash reopens to an extension of what was visible.
    - The lane: observers see exactly the visible log, in the order it was requested; every request is answered once
      and the lane drains; deferral loses and reorders nothing.
    - Permission: the default chain decides what its policies say, in order; remembered decisions are durable; a lease
      confines a tool to what it declared.
    - Tools: repaired arguments are closed; every call of a step gets one terminal event, in order; what runs was
      permitted.
    - Providers: lines do not depend on the chunks; a message comes from one attempt; retries end; a provider's calls
      are well formed and never replayed.
    - Turns: consecutive steps, one request each, that fits; one recovery; one record of a failure; every declared call
      settled; a cancelled turn ends; aborting settles every call; repair converges, and what a single repair of an
      idle session leaves open; the ingress serves in order and drains.
    - The scheduler: no turn starts in a session that is closing, unless an earlier closing was given up; inputs are
      delivered once and in order, and submitted as the answer says; a completed turn is published and the next input
      started.
    - Context: the text of a summary can be taken back; a compaction is total and cuts between turns; requests fit the
      window; the committed rewrite is accepted by the projection, and its summary is that of what it removes.
    - Peers: frames are read back; calls are settled once, by the answers of the peer; streams are ordered and arrive
      as they were sent to a consumer that keeps up; queues and sets are bounded.
    - Extensions: providers start before those that need them; routes answer at most once and tools have distinct names;
      hooks are asked in a fixed order, their answers composed, observers change nothing; a drained extension is idle; no
      event is passed over, and no handler blocks the round of a lane that is not paused.
    - Host calls: nothing reaches a backend that the guards refuse; a call changes only files that leased paths lead to
      in the file system of the call; writes are atomic, stale edits are refused, edits
      and patches change what they say; an extension sees the sessions below its own, may read what it sees, and reads
      every event once.

    ** Parameters, bounds and fuel

    [to_json] is [serde_json::to_string] on a message (used only by fingerprints), [to_rfc3339] is [chrono]'s rendering,
    [EventCodec] is serde's encoding of an event, whose documented behaviour (a line of valid UTF-8 without a newline
    that decodes to the event) is the hypothesis [codec_ok] of the theorems about files.  What the operating system
    answers to a write, truncation or fsync is an argument of the operation ([WriteOutcome], [SyncOutcome]), so theorems
    hold for all answers.  Ids and clocks are arguments.  Integers keep the source's checked, saturating or wrapping
    operations at 64 bits.

    The answers of everything a turn, a hook dispatch or a delivery talks to (handlers, provider, journal, tools, users,
    file system, random numbers, clocks) are functions of the number of the interaction: the theorems hold for all of
    them.  Parameters are also: glob matching, the searches of the workspace, digests, base64 and the text diff, the
    reading of requests from JSON and the writing of responses, the [Debug] form of strings, the iteration order of hash
    tables, prompt templates, the backends of the host that are not modelled, and the three functions of the context
    assembler that use floating point.

    Fuel: the backward searches [find_committed] and [reverse_chunks] take the length of the file plus one, loops over
    bytes ([finish_loop], [drain_lines], [strip_fence_loop], [find_opening_loop]) the number of bytes, [adjust_loop] the
    number of messages, [retry_loop] and [compact_loop] the configured attempts, [durable_retry] two retries, the work
    lists of [ExtDeps] the extensions and their edges, [resolve_loop] and [visible_loop] the number of sessions; that these
    are enough is proved with each, so the theorems state results, not results-if-any.  [lane_run] runs at most a given
    number of rounds; one per waiting command and one more are enough ([lane_answers_everything]).  [walk_loop] needs
    the number of sessions that have a parent, the [drive] of [ExtDeliveryProofs] some number that
    [handlers_cannot_block] gives.  [turn_steps] takes the number of steps: the source has no bound, and
    [cancelled_turn_ends] says when one exists.  All other recursion is structural.

    ** What is not modelled

    The OpenAI wire formats and request bodies; the loader, the worker and the publication of generations of extensions;
    the backends of the host for models, processes and the network; the HTTP server, the clients and the user
    interfaces; session management of the server beyond the scheduler and the access checks; prompt assembly; the
    in-memory store; and what only moves data to the file system or the network.  Tasks and channels appear as the
    sequence of operations they serialise; in the files about finalisation, live notifications have no durable effect
    and are left out. *)

From stdpp Require Export prelude gmap strings list numbers pretty.
From Stdlib Require Export Ascii Sorted.

Declare Scope astr_scope.
Delimit Scope astr_scope with astr.
Open Scope astr_scope.

(** ** Results

    Rust's [Result<A, E>], with the [?] operator as a binding notation. *)

Inductive result (A E : Type) : Type :=
| Ok (a : A)
| Err (e : E).

Arguments Ok {A E} a.
Arguments Err {A E} e.

Notation "'let?' x ':=' e 'in' k" :=
  (match e with Ok x => k | Err err => Err err end)
  (at level 10, x pattern, e at level 200, k at level 200) : astr_scope.

(** [Result::map_err]. *)
Definition map_err {A E F} (f : E → F) (r : result A E) : result A F :=
  match r with Ok a => Ok a | Err e => Err (f e) end.

(** [Option::ok_or]. *)
Definition ok_or {A E} (o : option A) (e : E) : result A E :=
  match o with Some a => Ok a | None => Err e end.

(** A [for] loop over [l] whose body threads [s] and may leave with [?]. *)
Fixpoint try_fold {A S E} (f : S → A → result S E) (s : S) (l : list A) : result S E :=
  match l with
  | [] => Ok s
  | a :: l => let? s := f s a in try_fold f s l
  end.

(** [iter().map(f).collect::<Result<Vec<_>, _>>()]. *)
Fixpoint try_map {A B E} (f : A → result B E) (l : list A) : result (list B) E :=
  match l with
  | [] => Ok []
  | a :: l => let? b := f a in let? bs := try_map f l in Ok (b :: bs)
  end.

Lemma try_fold_app {A S E} (f : S → A → result S E) s l1 l2 :
  try_fold f s (l1 ++ l2) = let? s := try_fold f s l1 in try_fold f s l2.
Proof.
  revert s; induction l1 as [|a l1 IH]; intros s; simpl; [done|].
  destruct (f s a); [apply IH|done].
Qed.

(** An invariant of the loop body is an invariant of the loop. *)
Lemma try_fold_ind {A S E} (P : S → Prop) (f : S → A → result S E) l s s' :
  (∀ s a s', a ∈ l → P s → f s a = Ok s' → P s') →
  P s → try_fold f s l = Ok s' → P s'.
Proof.
  revert s; induction l as [|a l IH]; intros s Hstep Hs; simpl.
  { by intros [= ->]. }
  destruct (f s a) eqn:Hf; [|done].
  apply IH; [set_solver|]. eapply Hstep; [|done..]. set_solver.
Qed.

(** ** Machine integers

    Unsigned integers are [N]; the operations the source uses write their
    behaviour at the width's limit out.  [usize] is 64 bits wide. *)

Definition u64_max : N := 18446744073709551615.
Definition usize_max : N := 18446744073709551615.
Definition u32_max : N := 4294967295.

Definition checked_add (w a b : N) : option N :=
  if bool_decide (a + b ≤ w)%N then Some (a + b)%N else None.
Definition saturating_add (w a b : N) : N := N.min w (a + b).
Definition saturating_sub (a b : N) : N := (a - b)%N.
Definition wrapping_add (w a b : N) : N := ((a + b) mod (w + 1))%N.
Definition wrapping_mul (w a b : N) : N := ((a * b) mod (w + 1))%N.

(** [usize::try_from] on a [u64] (and back): the widths agree. *)
Definition usize_try_from (n : N) : option N :=
  if bool_decide (n ≤ usize_max)%N then Some n else None.
Definition u64_try_from (n : N) : option N :=
  if bool_decide (n ≤ u64_max)%N then Some n else None.

Lemma checked_add_Some w a b c :
  checked_add w a b = Some c ↔ c = (a + b)%N ∧ (a + b ≤ w)%N.
Proof. unfold checked_add; case_bool_decide; naive_solver. Qed.

Lemma checked_add_None w a b : checked_add w a b = None ↔ (w < a + b)%N.
Proof. unfold checked_add; case_bool_decide; naive_solver lia. Qed.

Lemma saturating_add_le w a b : (saturating_add w a b ≤ w)%N.
Proof. unfold saturating_add; lia. Qed.

Lemma wrapping_add_small w a b : (a + b ≤ w)%N → wrapping_add w a b = (a + b)%N.
Proof. intros H; unfold wrapping_add. apply N.mod_small. lia. Qed.

(** ** Strings

    A Rust [str] is its sequence of UTF-8 bytes, one [ascii] per byte. *)

Definition byte_in (c : ascii) (lo hi : N) : bool :=
  bool_decide (lo ≤ N_of_ascii c)%N && bool_decide (N_of_ascii c ≤ hi)%N.

(** The characters of Unicode's White_Space property (what [char::is_whitespace]
    and [str::trim] use), by the length of their UTF-8 encoding. *)
Definition ws1 (a : ascii) : bool := byte_in a 9 13 || byte_in a 32 32.
Definition ws2 (a b : ascii) : bool :=
  byte_in a 194 194 && (byte_in b 133 133 || byte_in b 160 160).
Definition ws3 (a b c : ascii) : bool :=
  (byte_in a 225 225 && byte_in b 154 154 && byte_in c 128 128)
  || (byte_in a 226 226 && byte_in b 128 128
      && (byte_in c 128 138 || byte_in c 168 169 || byte_in c 175 175))
  || (byte_in a 226 226 && byte_in b 129 129 && byte_in c 159 159)
  || (byte_in a 227 227 && byte_in b 128 128 && byte_in c 128 128).

Fixpoint strip_ws (w2 : ascii → ascii → bool) (w3 : ascii → ascii → ascii → bool)
    (s : list ascii) : list ascii :=
  match s with
  | [] => []
  | a :: r =>
    if ws1 a then strip_ws w2 w3 r
    else match r with
    | [] => s
    | b :: r =>
      if w2 a b then strip_ws w2 w3 r
      else match r with
      | [] => s
      | c :: r => if w3 a b c then strip_ws w2 w3 r else s
      end
    end
  end.

(** [str::trim_start], [str::trim_end], [str::trim]. *)
Definition trim_start (s : string) : string :=
  String.string_of_list_ascii (strip_ws ws2 ws3 (String.list_ascii_of_string s)).
Definition trim_end (s : string) : string :=
  String.string_of_list_ascii
    (rev (strip_ws (λ a b, ws2 b a) (λ a b c, ws3 c b a)
      (rev (String.list_ascii_of_string s)))).
Definition trim (s : string) : string := trim_end (trim_start s).

(** [str::is_empty], [str::starts_with], [str::ends_with]. *)
Definition is_empty (s : string) : bool :=
  match s with EmptyString => true | _ => false end.
Definition starts_with (s pre : string) : bool := String.prefix pre s.
Definition ends_with (s suf : string) : bool :=
  let n := String.length s in let k := String.length suf in
  Nat.leb k n && bool_decide (String.substring (n - k) k s = suf).

(** [str::to_ascii_lowercase] and [str::replace] with a one-byte pattern. *)
Definition ascii_lower (c : ascii) : ascii :=
  if byte_in c 65 90 then ascii_of_N (N_of_ascii c + 32) else c.
Fixpoint to_ascii_lowercase (s : string) : string :=
  match s with
  | EmptyString => EmptyString
  | String c s => String (ascii_lower c) (to_ascii_lowercase s)
  end.
Fixpoint replace_byte (s : string) (c : ascii) (by_ : string) : string :=
  match s with
  | EmptyString => EmptyString
  | String d s =>
    if bool_decide (d = c) then by_ +:+ replace_byte s c by_
    else String d (replace_byte s c by_)
  end.

(** [[T]::join] on strings. *)
Fixpoint join (sep : string) (l : list string) : string :=
  match l with
  | [] => ""
  | [s] => s
  | s :: l => s +:+ sep +:+ join sep l
  end.

(** The one-byte string of a double quote. *)
Definition dquote : string := String (ascii_of_N 34) EmptyString.
(** The one-byte string of a line feed. *)
Definition newline : string := String (ascii_of_N 10) EmptyString.

Lemma string_of_list_ascii_nil l : String.string_of_list_ascii l = "" ↔ l = [].
Proof. by destruct l. Qed.

Lemma list_ascii_of_string_app s1 s2 :
  String.list_ascii_of_string (s1 +:+ s2)
  = String.list_ascii_of_string s1 ++ String.list_ascii_of_string s2.
Proof. induction s1 as [|c s1 IH]; simpl; [done|by rewrite IH]. Qed.

Lemma is_empty_spec s : is_empty s = true ↔ s = "".
Proof. by destruct s. Qed.

(** ** Ordered sets of strings

    [collect::<BTreeSet<String>>().into_iter().collect::<Vec<_>>()]: the
    elements once each, in the byte order of [str]. *)

Definition str_lt (a b : string) : Prop := String.le a b ∧ a ≠ b.

Fixpoint btree_insert (x : string) (l : list string) : list string :=
  match l with
  | [] => [x]
  | y :: l' =>
    if decide (x = y) then l
    else if decide (String.le x y) then x :: l
    else y :: btree_insert x l'
  end.

Definition btree_collect (l : list string) : list string := foldr btree_insert [] l.

#[export] Instance str_lt_trans : Transitive str_lt.
Proof.
  intros a b c [Hab Nab] [Hbc Nbc]; split; [by etrans|].
  intros ->. apply Nab. by apply (anti_symm String.le).
Qed.

#[export] Instance str_lt_irrefl : Irreflexive str_lt.
Proof. by intros a [_ []]. Qed.

Lemma elem_of_btree_insert x y l : y ∈ btree_insert x l ↔ y = x ∨ y ∈ l.
Proof. induction l as [|z l IH]; simpl; repeat case_decide; set_solver. Qed.

Lemma elem_of_btree_collect x l : x ∈ btree_collect l ↔ x ∈ l.
Proof.
  induction l as [|y l IH]; simpl; [done|].
  rewrite elem_of_btree_insert, IH. set_solver.
Qed.

Lemma btree_insert_sorted x l :
  StronglySorted str_lt l → StronglySorted str_lt (btree_insert x l).
Proof.
  induction 1 as [|y l Hl IH Hy]; simpl; [by repeat constructor|].
  case_decide as Hxy; [by constructor|]. case_decide as Hle.
  - constructor; [by constructor|]. constructor; [by split|].
    eapply Forall_impl; [done|]. intros z ?. by transitivity y.
  - constructor; [done|]. apply Forall_forall. intros z.
    rewrite elem_of_btree_insert. intros [->|Hz].
    + split; [|done]. by destruct (total String.le x y).
    + by eapply Forall_forall in Hy.
Qed.

Lemma btree_collect_sorted l : StronglySorted str_lt (btree_collect l).
Proof. induction l; simpl; [constructor|by apply btree_insert_sorted]. Qed.

(** A strictly increasing list is determined by its elements. *)
Lemma str_sorted_unique l1 l2 :
  StronglySorted str_lt l1 → StronglySorted str_lt l2 →
  (∀ x, x ∈ l1 ↔ x ∈ l2) → l1 = l2.
Proof.
  intros H1; revert l2; induction H1 as [|x l1 H1 IH Hx]; intros l2 H2 Heq.
  { destruct l2 as [|y l2]; [done|]. specialize (Heq y). set_solver. }
  destruct H2 as [|y l2 H2 Hy]; [specialize (Heq x); set_solver|].
  rewrite Forall_forall in Hx, Hy.
  assert (x = y) as ->.
  { destruct (decide (x = y)) as [|Hne]; [done|].
    assert (x ∈ l2) by (specialize (Heq x); set_solver).
    assert (y ∈ l1) by (specialize (Heq y); set_solver).
    exfalso. apply (irreflexivity str_lt x). transitivity y; auto. }
  f_equal. apply IH; [done|]. intros z. specialize (Heq z). split; intros Hz.
  - assert (z ≠ y) by (intros ->; by apply (irreflexivity str_lt y); auto). set_solver.
  - assert (z ≠ y) by (intros ->; by apply (irreflexivity str_lt y); auto). set_solver.
Qed.

Lemma btree_collect_ext l1 l2 :
  (∀ x, x ∈ l1 ↔ x ∈ l2) → btree_collect l1 = btree_collect l2.
Proof.
  intros H. apply str_sorted_unique; [apply btree_collect_sorted..|].
  intros x. by rewrite !elem_of_btree_collect.
Qed.

Lemma btree_collect_idemp l : btree_collect (btree_collect l) = btree_collect l.
Proof. apply btree_collect_ext. intros x. apply elem_of_btree_collect. Qed.

(** ** Lists *)

(** [iter().rposition(p)]: the index of the last element that satisfies [p]. *)
Fixpoint rposition {A} (p : A → bool) (l : list A) : option nat :=
  match l with
  | [] => None
  | a :: l =>
    match rposition p l with
    | Some i => Some (S i)
    | None => if p a then Some 0%nat else None
    end
  end.

(** [iter().find(p)]. *)
Fixpoint find_first {A} (p : A → bool) (l : list A) : option A :=
  match l with
  | [] => None
  | a :: l => if p a then Some a else find_first p l
  end.

(** [iter_mut().find(p)] followed by an assignment through the reference. *)
Fixpoint update_first {A} (p : A → bool) (f : A → A) (l : list A) : list A :=
  match l with
  | [] => []
  | a :: l => if p a then f a :: l else a :: update_first p f l
  end.

Lemma rposition_Some {A} (p : A → bool) l i :
  rposition p l = Some i ↔
  ∃ a, l !! i = Some a ∧ p a = true ∧ Forall (λ b, p b = false) (drop (S i) l).
Proof.
  revert i; induction l as [|a l IH]; intros i; simpl; [naive_solver|].
  destruct (rposition p l) as [j|] eqn:Hj.
  - pose proof (proj1 (IH j) eq_refl) as (b & Hb & Hpb & Hd). split.
    + intros [= <-]. eauto.
    + intros (c & Hc & Hpc & Hdc). f_equal. destruct i as [|i]; simpl in *.
      * rewrite drop_0 in Hdc. rewrite Forall_forall in Hdc.
        rewrite (Hdc b) in Hpb; [done|]. by eapply list_elem_of_lookup_2.
      * assert (Some j = Some i) as [= ->] by (apply IH; naive_solver). done.
  - assert (Forall (λ b, p b = false) l) as Hall.
    { clear -Hj. induction l as [|b l IHl]; simpl in *; [done|].
      destruct (rposition p l); [done|]. destruct (p b) eqn:?; [done|].
      constructor; [done|by apply IHl]. }
    destruct (p a) eqn:Hpa.
    + split.
      * intros [= <-]. exists a. split_and!; [done..|]. by rewrite drop_0.
      * intros (c & Hc & Hpc & _). destruct i as [|i]; [done|]. simpl in Hc.
        apply list_elem_of_lookup_2 in Hc. rewrite Forall_forall in Hall.
        by rewrite (Hall c Hc) in Hpc.
    + split; [done|]. intros (c & Hc & Hpc & _). destruct i as [|i]; simpl in Hc.
      * simplify_eq. congruence.
      * apply list_elem_of_lookup_2 in Hc. rewrite Forall_forall in Hall.
        by rewrite (Hall c Hc) in Hpc.
Qed.

Lemma rposition_None {A} (p : A → bool) l :
  rposition p l = None ↔ Forall (λ b, p b = false) l.
Proof.
  induction l as [|a l IH]; simpl; [done|].
  rewrite Forall_cons, <-IH. destruct (rposition p l), (p a); naive_solver.
Qed.

Lemma rposition_app {A} (p : A → bool) l1 l2 :
  rposition p (l1 ++ l2)
  = match rposition p l2 with
    | Some i => Some (length l1 + i)
    | None => rposition p l1
    end.
Proof.
  induction l1 as [|a l1 IH]; simpl; [by destruct (rposition p l2)|].
  rewrite IH. by destruct (rposition p l2).
Qed.

Lemma find_first_Some {A} (p : A → bool) l a : find_first p l = Some a → a ∈ l ∧ p a = true.
Proof.
  induction l as [|b l IH]; simpl; [done|]. destruct (p b) eqn:Hb; [intros [= ->]; by split; [left|]|].
  intros [? ?]%IH. by split; [right|].
Qed.

Lemma forallb_Forall {A} (p : A → bool) l : forallb p l = true ↔ Forall (λ a, p a = true) l.
Proof. induction l; simpl; [done|]. rewrite andb_true_iff, Forall_cons. naive_solver. Qed.

Lemma existsb_false_Forall {A} (p : A → bool) l :
  existsb p l = false ↔ Forall (λ a, p a = false) l.
Proof. induction l; simpl; [done|]. rewrite orb_false_iff, Forall_cons. naive_solver. Qed.

Lemma filter_all {A} (P : A → Prop) `{!∀ x, Decision (P x)} (l : list A) :
  (∀ x, x ∈ l → P x) → filter P l = l.
Proof.
  induction l as [|a l IH]; intros Hall; [done|].
  rewrite filter_cons_True by (apply Hall; set_solver).
  f_equal. apply IH. intros x Hx. apply Hall. set_solver.
Qed.

Lemma filter_none {A} (P : A → Prop) `{!∀ x, Decision (P x)} (l : list A) :
  (∀ x, x ∈ l → ¬ P x) → filter P l = [].
Proof.
  induction l as [|a l IH]; intros Hall; [done|].
  rewrite filter_cons_False by (apply Hall; set_solver).
  apply IH. intros x Hx. apply Hall. set_solver.
Qed.

(** ** JSON values

    [serde_json::Value] as data: the code stores such values in events and
    messages, and inspects their constructors.  A [Number] is an unsigned or a
    negative 64-bit integer, or a finite [f64] given by its bit pattern. *)

Inductive Number : Type :=
| PosInt (n : N)
| NegInt (z : Z)
| Float (bits : N).

Inductive Value : Type :=
| JNull
| JBool (b : bool)
| JNumber (n : Number)
| JString (s : string)
| JArray (l : list Value)
| JObject (m : list (string * Value)).

#[export] Instance Number_eq_dec : EqDecision Number.
Proof. solve_decision. Defined.

(** The equality of values goes through the lists inside them. *)
#[export] Instance Value_eq_dec : EqDecision Value.
Proof.
  refine (fix go (v w : Value) : {v = w} + {v ≠ w} :=
    match v, w with
    | JNull, JNull => left eq_refl
    | JBool a, JBool b => cast_if (decide (a = b))
    | JNumber a, JNumber b => cast_if (decide (a = b))
    | JString a, JString b => cast_if (decide (a = b))
    | JArray a, JArray b => cast_if (@list_eq_dec _ go a b)
    | JObject a, JObject b => cast_if (@list_eq_dec _ (@prod_eq_dec _ _ _ go) a b)
    | _, _ => right _
    end); abstract congruence.
Defined.

(** [Value::as_str], [Value::as_u64]. *)
Definition as_str (v : Value) : option string :=
  match v with JString s => Some s | _ => None end.

Definition as_u64 (v : Value) : option N :=
  match v with JNumber (PosInt n) => Some n | _ => None end.

(** [Value::get] with a string index. *)
Definition value_get (v : Value) (field : string) : option Value :=
  match v with
  | JObject m => snd <$> find_first (λ kv, bool_decide (kv.1 = field)) m
  | _ => None
  end.

(** [Value::pointer] for a path through objects. *)
Fixpoint pointer (v : Value) (path : list string) : option Value :=
  match path with
  | [] => Some v
  | field :: path => value_get v field ≫= λ v, pointer v path
  end.

(** [str::contains]. *)
Fixpoint str_contains (s pat : string) : bool :=
  String.prefix pat s || match s with String _ r => str_contains r pat | EmptyString => false end.

(** ** Automation *)

Create HintDb astr discriminated.
#[export] Hint Resolve sublist_inserts_l sublist_inserts_r sublist_app sublist_nil_l : astr.
#[export] Hint Extern 1 (_ `sublist_of` _) => reflexivity : astr.

(** Case analysis on every [match]/[if] whose scrutinee is closed in the goal or
    in a hypothesis, with the equations recorded and the results simplified. *)
Ltac cases :=
  repeat first
    [ progress simplify_eq/=
    | case_decide
    | case_bool_decide
    | case_match ].

(** Split a conjunction of boolean tests. *)
Ltac bools :=
  repeat match goal with
  | H : _ && _ = true |- _ => apply andb_true_iff in H; destruct H
  | H : _ || _ = false |- _ => apply orb_false_iff in H; destruct H
  | H : negb _ = true |- _ => apply negb_true_iff in H
  | H : negb _ = false |- _ => apply negb_false_iff in H
  | H : bool_decide _ = true |- _ => apply bool_decide_eq_true_1 in H
  | H : bool_decide _ = false |- _ => apply bool_decide_eq_false_1 in H
  end.
