(* ===== verification/Utf8.v ===== *)
(** * UTF-8 byte strings

    What the storage crates use of [str] at the byte level: validity of an encoding,
    character boundaries and slicing at them.  A [str] is its list of bytes. *)

From S2P Require Import Prelude.

Abbreviation bytes := (list ascii).

(** A continuation byte, [0b10xxxxxx]. *)
Definition is_cont (c : ascii) : bool := byte_in c 128 191.

(** The second byte a three-byte or four-byte lead admits. *)
Definition lead3 (a b : ascii) : bool :=
  (byte_in a 224 224 && byte_in b 160 191) || (byte_in a 225 236 && is_cont b)
  || (byte_in a 237 237 && byte_in b 128 159) || (byte_in a 238 239 && is_cont b).
Definition lead4 (a b : ascii) : bool :=
  (byte_in a 240 240 && byte_in b 144 191) || (byte_in a 241 243 && is_cont b)
  || (byte_in a 244 244 && byte_in b 128 143).

(** [str::from_utf8(s).is_ok()]. *)
Fixpoint utf8_valid (s : bytes) : bool :=
  match s with
  | [] => true
  | a :: r =>
    if byte_in a 0 127 then utf8_valid r
    else match r with
    | [] => false
    | b :: r =>
      if byte_in a 194 223 && is_cont b then utf8_valid r
      else match r with
      | [] => false
      | c :: r =>
        if lead3 a b && is_cont c then utf8_valid r
        else match r with
        | [] => false
        | d :: r => lead4 a b && is_cont c && is_cont d && utf8_valid r
        end
      end
    end
  end.

(** [str::from_utf8]'s error: the length of the valid prefix, and the number of bytes of
    the invalid sequence ([None] when the input ends inside a character). *)
Fixpoint utf8_error (valid_up_to : N) (s : bytes) : option (N * option N) :=
  match s with
  | [] => None
  | a :: r =>
    if byte_in a 0 127 then utf8_error (valid_up_to + 1) r
    else if negb (byte_in a 194 244) then Some (valid_up_to, Some 1%N)
    else match r with
    | [] => Some (valid_up_to, None)
    | b :: r =>
      if byte_in a 194 223 then
        if is_cont b then utf8_error (valid_up_to + 2) r else Some (valid_up_to, Some 1%N)
      else if negb (lead3 a b || lead4 a b) then Some (valid_up_to, Some 1%N)
      else match r with
      | [] => Some (valid_up_to, None)
      | c :: r =>
        if negb (is_cont c) then Some (valid_up_to, Some 2%N)
        else if lead3 a b then utf8_error (valid_up_to + 3) r
        else match r with
        | [] => Some (valid_up_to, None)
        | d :: r => if is_cont d then utf8_error (valid_up_to + 4) r
                    else Some (valid_up_to, Some 3%N)
        end
      end
    end
  end.

(** [Display for Utf8Error]. *)
Definition utf8_error_to_string (e : N * option N) : string :=
  match e with
  | (valid_up_to, Some len) =>
    "invalid utf-8 sequence of " +:+ pretty len +:+ " bytes from index " +:+ pretty valid_up_to
  | (valid_up_to, None) => "incomplete utf-8 byte sequence from index " +:+ pretty valid_up_to
  end.

(** [str::is_char_boundary]. *)
Definition is_char_boundary (s : bytes) (i : nat) : bool :=
  Nat.eqb i 0 || Nat.eqb i (length s)
  || match s !! i with Some c => negb (is_cont c) | None => false end.

(** [while !s.is_char_boundary(end) { end -= 1 }]; position 0 is a boundary. *)
Fixpoint floor_boundary (s : bytes) (end_ : nat) : nat :=
  match end_ with
  | O => O
  | S e => if is_char_boundary s end_ then end_ else floor_boundary s e
  end.

(** ** Characters *)

(** The encoding of one character: a lead byte and up to three continuation bytes,
    accepted in front of anything. *)
Definition utf8_char (c : bytes) : Prop :=
  (∀ t, utf8_valid (c ++ t) = utf8_valid t) ∧
  ∃ a k, c = a :: k ∧ is_cont a = false ∧ Forall (λ b, is_cont b = true) k ∧ length k ≤ 3.

Lemma byte_in_spec c lo hi : byte_in c lo hi = true ↔ (lo ≤ N_of_ascii c ≤ hi)%N.
Proof. unfold byte_in. rewrite andb_true_iff, !bool_decide_eq_true. lia. Qed.

Lemma byte_in_disjoint c lo hi lo' hi' :
  byte_in c lo hi = true → (hi < lo' ∨ hi' < lo)%N → byte_in c lo' hi' = false.
Proof.
  intros H%byte_in_spec Hd. apply not_true_iff_false. rewrite byte_in_spec. lia.
Qed.

Lemma byte_in_weaken c lo hi lo' hi' :
  byte_in c lo hi = true → (lo' ≤ lo ∧ hi ≤ hi')%N → byte_in c lo' hi' = true.
Proof. rewrite !byte_in_spec. lia. Qed.

Ltac byte_range :=
  unfold lead3, lead4, is_cont in *;
  repeat match goal with
  | H : _ || _ = true |- _ => apply orb_true_iff in H; destruct H
  | H : _ && _ = true |- _ => apply andb_true_iff in H; destruct H
  end;
  solve [ eapply byte_in_disjoint; [eassumption|lia]
        | eapply byte_in_weaken; [eassumption|lia] ].

(** A valid string is empty or a character followed by a valid string. *)
Lemma utf8_valid_inv s :
  utf8_valid s = true → s = [] ∨ ∃ c r, s = c ++ r ∧ utf8_char c ∧ utf8_valid r = true.
Proof.
  destruct s as [|a r]; [by left|]. simpl. destruct (byte_in a 0 127) eqn:Ha.
  { intros Hr. right. exists [a], r. split_and!; [done| |done].
    split; [intros t; simpl; by rewrite Ha|].
    exists a, []. split_and!; [done|byte_range|constructor|simpl; lia]. }
  destruct r as [|b r]; [done|]. destruct (byte_in a 194 223 && is_cont b) eqn:H2.
  { intros Hr. right. exists [a; b], r. split_and!; [done| |done].
    split; [intros t; simpl; by rewrite Ha, H2|].
    exists a, [b]. split_and!; [done|byte_range| |simpl; lia].
    apply andb_true_iff in H2 as [_ ?]. by repeat constructor. }
  destruct r as [|c r]; [done|]. destruct (lead3 a b && is_cont c) eqn:H3.
  { intros Hr. right. exists [a; b; c], r. split_and!; [done| |done].
    split; [intros t; simpl; by rewrite Ha, H2, H3|].
    apply andb_true_iff in H3 as [H3 Hc]. exists a, [b; c].
    split_and!; [done|byte_range| |simpl; lia]. repeat constructor; [byte_range|done]. }
  destruct r as [|d r]; [done|]. intros Hr. apply andb_true_iff in Hr as [Hr Hv].
  right. exists [a; b; c; d], r. split_and!; [done| |done].
  split; [intros t; simpl; by rewrite Ha, H2, H3, Hr|].
  apply andb_true_iff in Hr as [Hr Hd]. apply andb_true_iff in Hr as [H4 Hc].
  exists a, [b; c; d].
  split_and!; [done|byte_range| |simpl; lia]. repeat constructor; [byte_range|done..].
Qed.

(** Induction over the characters of a valid string. *)
Lemma utf8_valid_ind (P : bytes → Prop) :
  P [] →
  (∀ c r, utf8_char c → utf8_valid r = true → P r → P (c ++ r)) →
  ∀ s, utf8_valid s = true → P s.
Proof.
  intros Hnil Hcons s. remember (length s) as n eqn:Hn. revert s Hn.
  induction n as [n IH] using lt_wf_ind. intros s ->.
  intros [->|(c & r & -> & Hc & Hr)]%utf8_valid_inv; [done|].
  apply Hcons; [done..|]. eapply IH; [|done|done].
  destruct Hc as [_ (a & k & -> & _)]. rewrite length_app. simpl. lia.
Qed.

Lemma utf8_valid_app s1 s2 :
  utf8_valid s1 = true → utf8_valid (s1 ++ s2) = utf8_valid s2.
Proof.
  revert s1. apply (utf8_valid_ind (λ s1, utf8_valid (s1 ++ s2) = utf8_valid s2)); [done|].
  intros c r [Hc _] _ IH. by rewrite <-(assoc_L (++)), Hc.
Qed.

(** ** Boundaries *)

Lemma boundary_inside_char c r i :
  utf8_char c → 0 < i < length c → is_char_boundary (c ++ r) i = false.
Proof.
  intros [_ (a & k & -> & _ & Hk & _)] Hi. unfold is_char_boundary.
  destruct i as [|i]; [lia|]. rewrite lookup_app_l by lia.
  rewrite (proj2 (Nat.eqb_neq (S i) 0)), (proj2 (Nat.eqb_neq (S i) (length _))) by (simpl in *; rewrite ?length_app; lia).
  simpl in *.
  destruct (lookup_lt_is_Some_2 k i ltac:(lia)) as [b Hb]. rewrite Hb. simpl.
  rewrite Forall_forall in Hk. by rewrite (Hk b) by (by eapply list_elem_of_lookup_2).
Qed.

Lemma boundary_after_char c r i :
  utf8_char c → length c < i → is_char_boundary (c ++ r) i = is_char_boundary r (i - length c).
Proof.
  intros _ Hi. unfold is_char_boundary. rewrite length_app, lookup_app_r by lia.
  rewrite (proj2 (Nat.eqb_neq i 0)), (proj2 (Nat.eqb_neq (i - length c) 0)) by lia.
  f_equal. simpl. destruct (Nat.eqb_spec i (length c + length r)),
    (Nat.eqb_spec (i - length c) (length r)); try done; lia.
Qed.

(** A valid string cut at a boundary gives two valid strings. *)
Lemma utf8_valid_take s i :
  utf8_valid s = true → is_char_boundary s i = true → utf8_valid (take i s) = true.
Proof.
  intros Hs. revert s Hs i. apply (utf8_valid_ind (λ s, ∀ i, is_char_boundary s i = true →
    utf8_valid (take i s) = true)); [by intros []|].
  intros c r Hc Hr IH i Hi. destruct (decide (i = 0)) as [->|H0]; [done|].
  destruct (decide (i < length c)) as [Hlt|Hge].
  { by rewrite boundary_inside_char in Hi by (done || lia). }
  rewrite take_app_ge by lia. destruct Hc as [Hc Hshape]. rewrite Hc.
  destruct (decide (i = length c)) as [->|Hne]; [by rewrite Nat.sub_diag|].
  apply IH. rewrite <-boundary_after_char; [done|by split|lia].
Qed.

Lemma utf8_valid_drop s i :
  utf8_valid s = true → is_char_boundary s i = true → utf8_valid (drop i s) = true.
Proof.
  intros Hs Hi. rewrite <-(utf8_valid_app (take i s)); [by rewrite take_drop|].
  by apply utf8_valid_take.
Qed.

Lemma floor_boundary_le s e : floor_boundary s e ≤ e.
Proof. induction e as [|e IH]; cbn [floor_boundary]; [done|]. case_match; lia. Qed.

Lemma floor_boundary_boundary s e : is_char_boundary s (floor_boundary s e) = true.
Proof. induction e as [|e IH]; cbn [floor_boundary]; [done|]. by case_match. Qed.

(** The last boundary at or before [e]. *)
Lemma floor_boundary_max s e i :
  i ≤ e → is_char_boundary s i = true → i ≤ floor_boundary s e.
Proof.
  induction e as [|e IH]; cbn [floor_boundary]; intros Hi Hb; [done|].
  destruct (is_char_boundary s (S e)) eqn:He; [done|].
  apply IH; [|done]. destruct (decide (i = S e)) as [->|]; [congruence|lia].
Qed.

(** Characters are at most four bytes long: at most three bytes are given up. *)
Lemma floor_boundary_near s e :
  utf8_valid s = true → e ≤ length s → e ≤ floor_boundary s e + 3.
Proof.
  intros Hs. revert s Hs e. apply (utf8_valid_ind (λ s, ∀ e, e ≤ length s →
    e ≤ floor_boundary s e + 3)); [intros e; simpl; lia|].
  intros c r Hc Hr IH e He. rewrite length_app in He.
  pose proof Hc as [_ (a & k & Hck & _ & _ & Hk)].
  assert (length c ≤ 4) as Hc4 by (rewrite Hck; simpl; lia).
  destruct (decide (e < length c)) as [Hlt|Hge]; [lia|].
  specialize (IH (e - length c) ltac:(lia)).
  destruct (decide (floor_boundary r (e - length c) = 0)) as [H0|H0].
  - assert (length c ≤ floor_boundary (c ++ r) e); [|lia].
    apply floor_boundary_max; [lia|]. unfold is_char_boundary.
    destruct r as [|b r'].
    { rewrite app_nil_r, Nat.eqb_refl. by rewrite orb_true_r. }
    rewrite lookup_app_r, Nat.sub_diag by lia. simpl.
    apply utf8_valid_inv in Hr as [?|(c' & r'' & Heq & [_ (a' & k' & -> & Ha' & _)] & _)];
      [done|]. injection Heq as -> _. rewrite Ha'. by rewrite !orb_true_r.
  - assert (length c + floor_boundary r (e - length c) ≤ floor_boundary (c ++ r) e); [|lia].
    pose proof (floor_boundary_le r (e - length c)).
    apply floor_boundary_max; [lia|]. rewrite boundary_after_char by (done || lia).
    replace (length c + _ - length c) with (floor_boundary r (e - length c)) by lia.
    apply floor_boundary_boundary.
Qed.

(** ** The error of an invalid string *)

Lemma lead34_disjoint a b : lead3 a b = true → lead4 a b = true → False.
Proof.
  unfold lead3, lead4. intros H3 H4.
  repeat match goal with
  | H : _ || _ = true |- _ => apply orb_true_iff in H; destruct H
  | H : _ && _ = true |- _ => apply andb_true_iff in H; destruct H
  end; unfold is_cont in *; rewrite byte_in_spec in *; lia.
Qed.

Lemma utf8_error_None n s : utf8_error n s = None ↔ utf8_valid s = true.
Proof.
  remember (length s) as k eqn:Hk. revert n s Hk.
  induction k as [k IH] using lt_wf_ind. intros n s ->.
  destruct s as [|a r]; [done|]. simpl. destruct (byte_in a 0 127) eqn:Ha.
  { eapply IH; [|done]. simpl. lia. }
  destruct (byte_in a 194 244) eqn:Hlead; simpl.
  2:{ split; [done|]. assert (∀ lo hi, (194 ≤ lo ∧ hi ≤ 244)%N → byte_in a lo hi = false) as Hno.
      { intros lo hi Hb. apply not_true_iff_false. intros H%byte_in_spec.
        apply not_true_iff_false in Hlead. apply Hlead, byte_in_spec. lia. }
      assert (∀ b, lead3 a b = false ∧ lead4 a b = false) as Hl.
      { intros b. unfold lead3, lead4. rewrite !Hno by lia. done. }
      destruct r as [|b [|c [|d r]]]; rewrite ?Hno by lia; simpl; try done;
        destruct (Hl b) as [H3 H4]; rewrite ?H3, ?H4; done. }
  destruct r as [|b r]; [done|]. destruct (byte_in a 194 223) eqn:H2; simpl.
  { assert (lead3 a b = false ∧ lead4 a b = false) as [H3 H4].
    { unfold lead3, lead4.
      split; repeat (rewrite (byte_in_disjoint a 194 223) by (done || lia); simpl); done. }
    destruct (is_cont b); [eapply IH; [|done]; simpl; lia|].
    destruct r as [|c [|d r]]; rewrite ?H3, ?H4; done. }
  destruct (lead3 a b) eqn:H3; simpl.
  { destruct r as [|c r]; [done|]. destruct (is_cont c) eqn:Hc; simpl.
    - eapply IH; [|done]. simpl. lia.
    - destruct r as [|d r]; [done|]. rewrite andb_false_r. done. }
  destruct (lead4 a b) eqn:H4; simpl.
  - destruct r as [|c r]; [done|]. destruct (is_cont c) eqn:Hc; simpl;
      destruct r as [|d r]; try done. destruct (is_cont d); simpl; [|done].
    eapply IH; [|done]. simpl. lia.
  - destruct r as [|c [|d r]]; done.
Qed.
