(* ===== verification/CoreTypes.v ===== *)
(** * Shared domain types of [astrcode-core]

    Identifiers ([types.rs]), message attachments and user input
    ([message_attachment.rs], [user_input.rs]), the approval types
    ([permission.rs]), tool results ([tool.rs]) and the session's tool selection
    ([tool/selection.rs]). *)

From S2P Require Import Prelude.

(** ** Identifiers: newtypes over strings, with the derived equality. *)

Record SessionId := SessionId_new { SessionId_str : string }.
Record EventId := EventId_new { EventId_str : string }.
Record TurnId := TurnId_new { TurnId_str : string }.
Record MessageId := MessageId_new { MessageId_str : string }.
Record ToolCallId := ToolCallId_new { ToolCallId_str : string }.

(** [Cursor] is the decimal text of a sequence number. *)
Definition Cursor : Type := string.

#[export] Instance SessionId_eq_dec : EqDecision SessionId.
Proof. solve_decision. Defined.
#[export] Instance EventId_eq_dec : EqDecision EventId.
Proof. solve_decision. Defined.
#[export] Instance TurnId_eq_dec : EqDecision TurnId.
Proof. solve_decision. Defined.
#[export] Instance MessageId_eq_dec : EqDecision MessageId.
Proof. solve_decision. Defined.
#[export] Instance ToolCallId_eq_dec : EqDecision ToolCallId.
Proof. solve_decision. Defined.
#[export] Program Instance SessionId_countable : Countable SessionId :=
  inj_countable' SessionId_str SessionId_new _.
Next Obligation. by intros []. Qed.
#[export] Program Instance TurnId_countable : Countable TurnId :=
  inj_countable' TurnId_str TurnId_new _.
Next Obligation. by intros []. Qed.
#[export] Program Instance ToolCallId_countable : Countable ToolCallId :=
  inj_countable' ToolCallId_str ToolCallId_new _.
Next Obligation. by intros []. Qed.

(** A [chrono::DateTime<Utc>]: an instant, in nanoseconds since the epoch. *)
Definition DateTime : Type := Z.

(** ** Attachments and user input *)

Record MessageAttachment := {
  att_filename : string;
  att_content : string;
  att_media_type : string;
}.

Definition MAX_ATTACHMENT_CONTENT_BYTES : N := 4 * 1024 * 1024.
Definition MAX_ATTACHMENTS : N := 4.

Inductive AttachmentValidationError :=
| TooMany (max : N)
| ContentTooLarge (index max_bytes : N).

(** [MessageAttachment::is_image]. *)
Definition is_image (a : MessageAttachment) : bool :=
  starts_with (att_media_type a) "image/".

(** The loop of [validate_attachments], from index [i] on. *)
Fixpoint validate_attachment_sizes (i : N) (atts : list MessageAttachment)
    : result () AttachmentValidationError :=
  match atts with
  | [] => Ok ()
  | a :: atts =>
    if bool_decide (MAX_ATTACHMENT_CONTENT_BYTES < N.of_nat (String.length (att_content a)))%N
    then Err (ContentTooLarge i MAX_ATTACHMENT_CONTENT_BYTES)
    else validate_attachment_sizes (i + 1) atts
  end.

Definition validate_attachments (atts : list MessageAttachment)
    : result () AttachmentValidationError :=
  if bool_decide (MAX_ATTACHMENTS < N.of_nat (length atts))%N
  then Err (TooMany MAX_ATTACHMENTS)
  else validate_attachment_sizes 0 atts.

Record UserInput := {
  ui_text : string;
  ui_attachments : list MessageAttachment;
}.

(** [UserInput::text_only]. *)
Definition text_only (text : string) : UserInput :=
  {| ui_text := text; ui_attachments := [] |}.

(** [UserInput::can_submit]. *)
Definition can_submit (i : UserInput) : bool :=
  negb (is_empty (trim (ui_text i))) || negb (Nat.eqb (length (ui_attachments i)) 0).

(** ** Approvals *)

Inductive ApprovalMode := ApprovalMode_Manual | ApprovalMode_Yolo.

Definition ApprovalMode_default : ApprovalMode := ApprovalMode_Manual.

Definition ApprovalMode_as_str (m : ApprovalMode) : string :=
  match m with ApprovalMode_Manual => "manual" | ApprovalMode_Yolo => "yolo" end.

(** [ApprovalMode::from_str], which [ApprovalMode::parse] calls. *)
Definition ApprovalMode_parse (raw : string) : option ApprovalMode :=
  let s := to_ascii_lowercase (trim raw) in
  if bool_decide (s = "manual") then Some ApprovalMode_Manual
  else if bool_decide (s = "yolo") then Some ApprovalMode_Yolo
  else None.

Inductive ApprovalDecision := AllowOnce | DenyOnce | AllowAlways | DenyAlways.

Definition ApprovalDecision_allows (d : ApprovalDecision) : bool :=
  match d with AllowOnce | AllowAlways => true | _ => false end.

Inductive ApprovalSource := ApprovalSource_Extension | ApprovalSource_Core.

Record PermissionRule := {
  pr_tool : string;
  pr_pattern : option string;
  pr_path : option string;
}.

Record PermissionsSection := {
  ps_deny : list PermissionRule;
  ps_ask : list PermissionRule;
  ps_allow : list PermissionRule;
}.

#[export] Instance ApprovalMode_eq_dec : EqDecision ApprovalMode.
Proof. solve_decision. Defined.
#[export] Instance ApprovalDecision_eq_dec : EqDecision ApprovalDecision.
Proof. solve_decision. Defined.

(** ** Tool results *)

Record ToolResult := {
  tr_content : string;
  tr_is_error : bool;
  tr_error : option string;
  tr_metadata : gmap string Value;
  tr_duration_ms : option N;
}.

(** ** Session tool selection *)

Inductive SessionToolSelection :=
| Selection_All (except : list string)
| Selection_Only (names : list string).

Definition Selection_default : SessionToolSelection := Selection_All [].

Definition allows (s : SessionToolSelection) (tool_name : string) : bool :=
  match s with
  | Selection_All except => negb (existsb (λ name, bool_decide (name = tool_name)) except)
  | Selection_Only names => existsb (λ name, bool_decide (name = tool_name)) names
  end.

Definition normalized_tool_names (tools : list string) : list string := btree_collect tools.

Definition normalized (s : SessionToolSelection) : SessionToolSelection :=
  match s with
  | Selection_All except => Selection_All (normalized_tool_names except)
  | Selection_Only names => Selection_Only (normalized_tool_names names)
  end.

Definition intersection (s o : SessionToolSelection) : SessionToolSelection :=
  match s, o with
  | Selection_All current, Selection_All other => Selection_All (btree_collect (current ++ other))
  | Selection_All except, Selection_Only names
  | Selection_Only names, Selection_All except =>
    Selection_Only (btree_collect (filter (λ name, name ∉ btree_collect except) names))
  | Selection_Only current, Selection_Only other =>
    Selection_Only (btree_collect (filter (λ name, name ∈ btree_collect other) current))
  end.

Definition restrict (parent : option SessionToolSelection) (requested : SessionToolSelection)
    : SessionToolSelection :=
  match parent with
  | None => normalized requested
  | Some parent => intersection parent requested
  end.

Definition intersect (parent requested : option SessionToolSelection)
    : option SessionToolSelection :=
  match parent, requested with
  | None, None => None
  | Some parent, None => Some (normalized parent)
  | parent, Some requested => Some (restrict parent requested)
  end.

Inductive EmptyToolNameError := EmptyToolName.

Definition validated_tool_names (tools : list string) : result (list string) EmptyToolNameError :=
  let? names := try_map (λ tool,
      let tool := trim tool in
      if is_empty tool then Err EmptyToolName else Ok tool) tools in
  Ok (btree_collect names).

(** *** Lemmas *)

Lemma existsb_eq_spec (x : string) l : existsb (λ y, bool_decide (y = x)) l = true ↔ x ∈ l.
Proof.
  rewrite existsb_exists. split.
  - intros (y & Hy & ->%bool_decide_eq_true). by apply list_elem_of_In.
  - intros Hx. exists x. split; [by apply list_elem_of_In|by apply bool_decide_eq_true].
Qed.

Lemma allows_spec s t :
  allows s t = true ↔
  match s with Selection_All except => t ∉ except | Selection_Only names => t ∈ names end.
Proof.
  destruct s as [l|l]; simpl; [|apply existsb_eq_spec].
  rewrite negb_true_iff, <-not_true_iff_false. by rewrite existsb_eq_spec.
Qed.

Lemma allows_normalized s t : allows (normalized s) t = allows s t.
Proof.
  apply eq_true_iff_eq. rewrite !allows_spec.
  destruct s; simpl; unfold normalized_tool_names; by rewrite elem_of_btree_collect.
Qed.

Lemma allows_intersection s o t : allows (intersection s o) t = allows s t && allows o t.
Proof.
  apply eq_true_iff_eq. rewrite andb_true_iff, !allows_spec.
  destruct s, o; simpl;
    rewrite ?elem_of_btree_collect, ?list_elem_of_filter, ?elem_of_btree_collect; set_solver.
Qed.

Lemma btree_collect_filter (P Q : string → Prop) `{!∀ x, Decision (P x), !∀ x, Decision (Q x)}
    l1 l2 :
  (∀ x, (P x ∧ x ∈ l1) ↔ (Q x ∧ x ∈ l2)) →
  btree_collect (filter P l1) = btree_collect (filter Q l2).
Proof. intros Hiff. apply btree_collect_ext. intros x. by rewrite !list_elem_of_filter. Qed.

Lemma try_map_Ok {A B E} (f : A → result B E) l bs :
  try_map f l = Ok bs ↔ Forall2 (λ a b, f a = Ok b) l bs.
Proof.
  revert bs; induction l as [|a l IH]; intros bs; simpl.
  { split; [intros [= <-]; constructor|by inversion 1]. }
  destruct (f a) as [b|e] eqn:Hf.
  - destruct (try_map f l) as [bs'|e] eqn:Hm.
    + split; [intros [= <-]; constructor; [done|by apply IH]|].
      inversion 1 as [|?? ? bs2 Hb Hbs]; subst. apply IH in Hbs. congruence.
    + split; [done|]. inversion 1 as [|?? ? bs2 Hb Hbs]; subst. by apply IH in Hbs.
  - split; [done|]. inversion 1; congruence.
Qed.

Lemma try_map_Err {A B E} (f : A → result B E) l e :
  try_map f l = Err e → ∃ a, a ∈ l ∧ f a = Err e.
Proof.
  induction l as [|a l IH]; simpl; [done|].
  destruct (f a) as [b|e'] eqn:Hf.
  - destruct (try_map f l); [done|]. intros [= ->].
    destruct (IH eq_refl) as (x & ? & ?). exists x. split; [set_solver|done].
  - intros [= ->]. exists a. split; [set_solver|done].
Qed.

(** What an optional selection allows: no selection restricts nothing. *)
Definition opt_allows (s : option SessionToolSelection) (t : string) : bool :=
  match s with None => true | Some s => allows s t end.

(** ** Properties *)

(** [SessionToolSelection::intersect] is exactly the conjunction of the parent's
    and the requested selection: a tool is allowed in the child when both allow it
    (a missing side restricts nothing), and no selection results only from no
    selection.  In particular a child never gains a tool its parent withholds. *)
Theorem intersect_exact parent requested :
  match intersect parent requested with
  | None => parent = None ∧ requested = None
  | Some sel => ∀ t, allows sel t = opt_allows parent t && opt_allows requested t
  end.
Proof.
  destruct parent as [p|], requested as [r|]; simpl; [| | |done]; intros t.
  - apply allows_intersection.
  - by rewrite allows_normalized, andb_true_r.
  - by rewrite allows_normalized.
Qed.

(** Nested restrictions commute and associate as values, not only in what they
    allow: the resulting name lists are the same sorted, duplicate-free lists, so
    the order in which a chain of parent sessions restricts a child is
    unobservable. *)
Theorem intersection_comm_assoc a b c :
  intersection a b = intersection b a ∧
  intersection a (intersection b c) = intersection (intersection a b) c.
Proof.
  split.
  - destruct a as [x|x], b as [y|y]; simpl; f_equal; try done.
    + apply btree_collect_ext. set_solver.
    + apply btree_collect_filter. intros n. rewrite !elem_of_btree_collect. tauto.
  - destruct a as [x|x], b as [y|y], c as [z|z]; simpl; f_equal;
      first [ apply btree_collect_filter | apply btree_collect_ext ];
      intros n; rewrite ?elem_of_app, ?elem_of_btree_collect, ?list_elem_of_filter,
        ?elem_of_btree_collect, ?elem_of_app, ?list_elem_of_filter, ?elem_of_btree_collect;
      tauto.
Qed.

(** [validated_tool_names] accepts an input exactly when no name is blank after
    trimming; what it returns is the strictly sorted set of the trimmed names. *)
Theorem validated_tool_names_spec tools :
  match validated_tool_names tools with
  | Ok names =>
    StronglySorted str_lt names ∧
    (∀ n, n ∈ names ↔ ∃ t, t ∈ tools ∧ trim t = n) ∧
    (∀ t, t ∈ tools → trim t ≠ "")
  | Err _ => ∃ t, t ∈ tools ∧ trim t = ""
  end.
Proof.
  unfold validated_tool_names.
  destruct (try_map _ tools) as [names|e] eqn:Hm.
  - apply try_map_Ok in Hm.
    assert (names = map trim tools ∧ ∀ t, t ∈ tools → trim t ≠ "") as [-> Hne].
    { induction Hm as [|t n tools names Hf Hm [-> IH]]; simpl; [set_solver|].
      destruct (is_empty (trim t)) eqn:He; [done|]. injection Hf as <-.
      split; [done|]. intros t' [->|Ht]%elem_of_cons; [|by apply IH].
      intros Heq. rewrite Heq in He. done. }
    split_and!; [apply btree_collect_sorted| |done].
    intros n. rewrite elem_of_btree_collect, list_elem_of_fmap. naive_solver.
  - apply try_map_Err in Hm as (t & Ht & Hf). exists t. split; [done|].
    destruct (is_empty (trim t)) eqn:He; [|done]. by apply is_empty_spec.
Qed.
