(* ===== verification/CoreLlm.v ===== *)
(** * Provider messages of [astrcode-core] ([llm.rs], [compaction.rs])

    Messages and their constructors, the normalisation every provider request
    goes through ([provider_visible_*]), token accounting and the compaction
    markers.  Theorems about the normalisation are in [CoreLlmProtocol].

    The second chapter: errors and events of a provider. *)

From S2P Require Import Prelude CoreTypes.

(** ** Messages *)

Inductive LlmRole := Role_System | Role_User | Role_Assistant | Role_Tool.

#[export] Instance LlmRole_eq_dec : EqDecision LlmRole.
Proof. solve_decision. Defined.

Definition LlmRole_as_str (r : LlmRole) : string :=
  match r with
  | Role_System => "system" | Role_User => "user"
  | Role_Assistant => "assistant" | Role_Tool => "tool"
  end.

Inductive LlmContent :=
| Content_Text (text : string)
| Content_Image (base64 media_type : string) (filename : option string)
| Content_ToolCall (call_id name : string) (arguments : Value) (raw_arguments : option string)
| Content_ToolResult (tool_call_id content : string) (is_error : bool).

#[export] Instance LlmContent_eq_dec : EqDecision LlmContent.
Proof. solve_decision. Defined.

(** [LlmContent::as_text]. *)
Definition as_text (c : LlmContent) : option string :=
  match c with Content_Text text => Some text | _ => None end.

(** [LlmContent::join_text]. *)
Definition join_text (contents : list LlmContent) (separator : string) : string :=
  join separator (omap as_text contents).

(** [LlmContent::to_display_text]. *)
Definition to_display_text (c : LlmContent) : string :=
  match c with
  | Content_Text text => text
  | Content_Image _ _ _ => "[image]"
  | Content_ToolCall _ name _ _ => "tool call: " +:+ name
  | Content_ToolResult _ content _ => content
  end.

Record LlmMessage := {
  role : LlmRole;
  content : list LlmContent;
  name : option string;
  reasoning_content : option string;
}.

Inductive TranscriptMessageOrigin :=
| Origin_TurnAborted
| Origin_ToolCallFailed
| Origin_ToolCallCancelled.

#[export] Instance TranscriptMessageOrigin_eq_dec : EqDecision TranscriptMessageOrigin.
Proof. solve_decision. Defined.

#[export] Instance LlmMessage_eq_dec : EqDecision LlmMessage.
Proof. solve_decision. Defined.

Record TranscriptMessage := {
  tm_message : LlmMessage;
  tm_origin : option TranscriptMessageOrigin;
}.

Definition TranscriptMessage_plain (m : LlmMessage) : TranscriptMessage :=
  {| tm_message := m; tm_origin := None |}.

(** [Arc<T>]: a shared immutable value; [Arc::make_mut] followed by a mutation is
    copy-on-write, so the other owners keep the old value. *)
Record Arc (T : Type) := Arc_new { arc_get : T }.
Arguments Arc_new {T} _.
Arguments arc_get {T} _.

#[export] Instance Arc_eq_dec {T} `{EqDecision T} : EqDecision (Arc T).
Proof. solve_decision. Defined.

Record SharedTranscriptMessage := {
  stm_message : Arc LlmMessage;
  stm_origin : option TranscriptMessageOrigin;
}.

(** ** Constructors *)

Definition LlmMessage_user (text : string) : LlmMessage :=
  {| role := Role_User; content := [Content_Text text];
     name := None; reasoning_content := None |}.

Definition LlmMessage_assistant (text : string) : LlmMessage :=
  {| role := Role_Assistant; content := [Content_Text text];
     name := None; reasoning_content := None |}.

Definition LlmMessage_system (text : string) : LlmMessage :=
  {| role := Role_System; content := [Content_Text text];
     name := None; reasoning_content := None |}.

Definition LlmMessage_tool (nm tool_call_id text : string) (is_error : bool) : LlmMessage :=
  {| role := Role_Tool; content := [Content_ToolResult tool_call_id text is_error];
     name := Some nm; reasoning_content := None |}.

Definition xml_escape_attr (value : string) : string :=
  replace_byte (replace_byte value "&"%char "&amp;") (ascii_of_N 34) "&quot;".

(** The body of the loop of [user_with_attachments]. *)
Definition attachment_content (att : MessageAttachment) : LlmContent :=
  if is_image att
  then Content_Image (att_content att) (att_media_type att) (Some (att_filename att))
  else Content_Text
    ("<attachment filename=" +:+ dquote +:+ xml_escape_attr (att_filename att) +:+ dquote
      +:+ " media_type=" +:+ dquote +:+ xml_escape_attr (att_media_type att) +:+ dquote
      +:+ ">" +:+ newline +:+ att_content att +:+ newline +:+ "</attachment>").

Definition user_with_attachments (text : string) (attachments : list MessageAttachment)
    : LlmMessage :=
  let c := map attachment_content attachments in
  let c := if is_empty text then c else c ++ [Content_Text text] in
  let c := match c with [] => [Content_Text ""] | _ => c end in
  {| role := Role_User; content := c; name := None; reasoning_content := None |}.

(** The [filter_map] of [attachments_from_user_message], from index [i] on. *)
Fixpoint attachments_of_contents (i : N) (cs : list LlmContent) : list MessageAttachment :=
  match cs with
  | [] => []
  | Content_Image base64 media_type filename :: cs =>
    {| att_filename := default ("image-" +:+ pretty (i + 1)%N +:+ ".png") filename;
       att_content := base64; att_media_type := media_type |}
    :: attachments_of_contents (i + 1) cs
  | _ :: cs => attachments_of_contents (i + 1) cs
  end.

Definition attachments_from_user_message (m : LlmMessage) : list MessageAttachment :=
  attachments_of_contents 0 (content m).

Definition joined_display_text (m : LlmMessage) (separator : string) : string :=
  join separator (map to_display_text (content m)).

Definition joined_text (m : LlmMessage) (separator : string) : string :=
  join_text (content m) separator.

Definition content_visible (c : LlmContent) : bool :=
  match c with
  | Content_Text text => negb (is_empty (trim text))
  | _ => true
  end.

Definition has_provider_visible_content (m : LlmMessage) : bool :=
  existsb content_visible (content m)
  || match reasoning_content m with
     | Some r => negb (is_empty (trim r))
     | None => false
     end.

Definition TURN_ABORTED_GUIDANCE : string :=
  "The user interrupted the previous turn on purpose. "
  +:+ "Any running tools/commands may still be running in the background. "
  +:+ "If any tools/commands were aborted, they may have partially executed.".

Definition turn_aborted_context_message : LlmMessage :=
  LlmMessage_user
    ("<turn_aborted>" +:+ newline +:+ TURN_ABORTED_GUIDANCE +:+ newline +:+ "</turn_aborted>").

(** ** Provider-visible normalisation *)

(** The trait [ProviderVisibleEntry] and its four implementations. *)
Class ProviderVisibleEntry (E : Type) := {
  entry_message : E → LlmMessage;
  absorb_assistant : E → E → E;
}.

(** [LlmMessage::append]. *)
Definition LlmMessage_append (self other : LlmMessage) : LlmMessage :=
  {| role := role self;
     content := content self ++ content other;
     name := name self;
     reasoning_content :=
       match reasoning_content self with
       | None => reasoning_content other
       | Some r => Some r
       end |}.

(** [Option::or]. *)
Definition option_or {A} (a b : option A) : option A :=
  match a with Some _ => a | None => b end.

#[export] Instance LlmMessage_entry : ProviderVisibleEntry LlmMessage := {|
  entry_message := id;
  absorb_assistant self other := LlmMessage_append self other;
|}.

#[export] Instance TranscriptMessage_entry : ProviderVisibleEntry TranscriptMessage := {|
  entry_message := tm_message;
  absorb_assistant self other :=
    {| tm_message := LlmMessage_append (tm_message self) (tm_message other);
       tm_origin := option_or (tm_origin self) (tm_origin other) |};
|}.

#[export] Instance ArcMessage_entry : ProviderVisibleEntry (Arc LlmMessage) := {|
  entry_message := arc_get;
  absorb_assistant self other :=
    Arc_new (LlmMessage_append (arc_get self) (arc_get other));
|}.

#[export] Instance SharedTranscriptMessage_entry :
    ProviderVisibleEntry SharedTranscriptMessage := {|
  entry_message e := arc_get (stm_message e);
  absorb_assistant self other :=
    {| stm_message :=
         Arc_new (LlmMessage_append (arc_get (stm_message self)) (arc_get (stm_message other)));
       stm_origin := option_or (stm_origin self) (stm_origin other) |};
|}.

Definition tool_call_id_of (c : LlmContent) : option string :=
  match c with Content_ToolCall call_id _ _ _ => Some call_id | _ => None end.

Definition tool_result_id_of (c : LlmContent) : option string :=
  match c with Content_ToolResult tool_call_id _ _ => Some tool_call_id | _ => None end.

Definition is_tool_call (c : LlmContent) : bool :=
  match c with Content_ToolCall _ _ _ _ => true | _ => false end.

Section provider_visible.
Context {E : Type} `{!ProviderVisibleEntry E}.

Definition has_tool_calls (entry : E) : bool :=
  bool_decide (role (entry_message entry) = Role_Assistant)
  && existsb is_tool_call (content (entry_message entry)).

(** One iteration of [normalize_tool_call_entries]; [merged] is built in order. *)
Definition normalize_step (merged : list E) (entry : E) : list E :=
  match last merged with
  | Some l =>
    if has_tool_calls entry && bool_decide (role (entry_message l) = Role_Assistant)
    then take (length merged - 1) merged ++ [absorb_assistant l entry]
    else merged ++ [entry]
  | None => merged ++ [entry]
  end.

Definition normalize_tool_call_entries (messages : list E) : list E :=
  foldl normalize_step [] messages.

(** The open tool round: where its assistant message is in [out], its call ids,
    and the ids answered so far. *)
Definition PendingRound : Type := nat * gset string * gset string.

Definition tool_result_ids (entry : E) : list string :=
  omap tool_result_id_of (content (entry_message entry)).

Definition tool_call_ids (entry : E) : gset string :=
  list_to_set (omap tool_call_id_of (content (entry_message entry))).

(** The loop of [truncate_incomplete_tool_entries], with its early return. *)
Fixpoint truncate_loop (entries : list E) (out : list E) (pending : option PendingRound)
    (buffered : list E) : list E :=
  match entries with
  | [] =>
    match pending with
    | Some (start, _, _) => take start out
    | None => out
    end
  | entry :: rest =>
    if decide (role (entry_message entry) = Role_Tool) then
      let ids := tool_result_ids entry in
      match pending with
      | Some (start, call_ids, answered) =>
        if negb (Nat.eqb (length ids) 0)
           && forallb (λ id, bool_decide (id ∈ call_ids) && negb (bool_decide (id ∈ answered))) ids
        then
          let answered := list_to_set ids ∪ answered in
          let out := out ++ [entry] in
          if decide (call_ids ⊆ answered)
          then truncate_loop rest (out ++ buffered) None []
          else truncate_loop rest out (Some (start, call_ids, answered)) buffered
        else take start out
      | None => out
      end
    else
      match pending with
      | Some _ => truncate_loop rest out pending (buffered ++ [entry])
      | None =>
        let call_ids := tool_call_ids entry in
        let pending :=
          if decide (role (entry_message entry) = Role_Assistant ∧ call_ids ≠ ∅)
          then Some (length out, call_ids, ∅) else None in
        truncate_loop rest (out ++ [entry]) pending buffered
      end
  end.

Definition truncate_incomplete_tool_entries (messages : list E) : list E :=
  truncate_loop messages [] None [].

Definition entry_visible (entry : E) : bool :=
  has_provider_visible_content (entry_message entry).

(** The [filter] of [provider_visible_entries]. *)
Definition visible_entries (messages : list E) : list E :=
  filter (λ e : E, entry_visible e = true) messages.

Definition provider_visible_entries (messages : list E) : list E :=
  truncate_incomplete_tool_entries
    (normalize_tool_call_entries (visible_entries messages)).
End provider_visible.

Definition provider_visible_messages (messages : list LlmMessage) : list LlmMessage :=
  provider_visible_entries messages.

Definition provider_visible_shared_messages (messages : list (Arc LlmMessage))
    : list (Arc LlmMessage) :=
  provider_visible_entries messages.

Definition provider_transcript_messages (messages : list TranscriptMessage)
    : list TranscriptMessage :=
  filter (λ e, role (tm_message e) ≠ Role_System) (provider_visible_entries messages).

Definition provider_transcript_shared_messages (messages : list SharedTranscriptMessage)
    : list SharedTranscriptMessage :=
  filter (λ e, role (arc_get (stm_message e)) ≠ Role_System) (provider_visible_entries messages).

Definition provider_transcript (messages : list LlmMessage) : list LlmMessage :=
  map tm_message (provider_transcript_messages (map TranscriptMessage_plain messages)).

(** ** Token accounting *)

Inductive LlmInputTokenAccounting := Accounting_Inclusive | Accounting_Components.

Inductive LlmTokenUsageSource :=
| ProviderUsage | ProviderCount | ProviderCountFallback | LocalEstimateFallback.

Record LlmTokenUsage := {
  input_tokens : option N;
  cached_input_tokens : option N;
  cache_creation_input_tokens : option N;
  input_accounting : option LlmInputTokenAccounting;
  output_tokens : option N;
  reasoning_output_tokens : option N;
  total_tokens : option N;
  usage_source : option LlmTokenUsageSource;
}.

Definition u64_sat_add : N → N → N := saturating_add u64_max.

Definition component_accounting (u : LlmTokenUsage) : bool :=
  match input_accounting u with
  | Some Accounting_Components => true
  | Some Accounting_Inclusive => false
  | None => match cache_creation_input_tokens u with Some _ => true | None => false end
  end.

Definition non_cached_tokens (u : LlmTokenUsage) : option N :=
  let cached := default 0%N (cached_input_tokens u) in
  if component_accounting u then
    let input := u64_sat_add (default 0%N (input_tokens u))
                             (default 0%N (cache_creation_input_tokens u)) in
    match input_tokens u, cache_creation_input_tokens u, output_tokens u with
    | None, None, None => None
    | _, _, _ => Some (u64_sat_add input (default 0%N (output_tokens u)))
    end
  else
    match total_tokens u with
    | Some total => Some (saturating_sub total cached)
    | None =>
      let input := (λ i, saturating_sub i cached) <$> input_tokens u in
      match input, output_tokens u with
      | None, None => None
      | _, _ => Some (u64_sat_add (default 0%N input) (default 0%N (output_tokens u)))
      end
    end.

(** [context_tokens_after_response]. *)
Definition context_tokens_after_response (u : LlmTokenUsage) : option N :=
  let estimate :=
    input ← input_tokens u;
    output ← output_tokens u;
    Some (match input_accounting u with
          | Some Accounting_Inclusive => u64_sat_add input output
          | _ =>
            u64_sat_add
              (u64_sat_add (u64_sat_add input (default 0%N (cached_input_tokens u)))
                           (default 0%N (cache_creation_input_tokens u)))
              output
          end) in
  match total_tokens u with
  | Some total => if bool_decide (0 < total)%N then Some total else estimate
  | None => estimate
  end.

(** ** Compaction markers and strategies ([compaction.rs]) *)

Definition COMPACT_SUMMARY_MARKER : string := "<compact_summary>".
Definition POST_COMPACT_CONTEXT_MARKER : string := "<post_compact_context>".

Definition is_compact_summary_text (text : string) : bool :=
  starts_with (trim_start text) COMPACT_SUMMARY_MARKER.

Definition is_compact_summary_message (m : LlmMessage) : bool :=
  bool_decide (role m = Role_User)
  && existsb is_compact_summary_text (omap as_text (content m)).

Definition is_synthetic_context_message (m : LlmMessage) : bool :=
  is_compact_summary_message m
  || (bool_decide (role m = Role_User)
      && existsb (λ text, starts_with (trim_start text) POST_COMPACT_CONTEXT_MARKER)
           (omap as_text (content m))).

Inductive CompactTrigger :=
| Trigger_AutoThreshold | Trigger_ManualCommand | Trigger_ReactivePromptTooLong.

Definition CompactTrigger_as_str (t : CompactTrigger) : string :=
  match t with
  | Trigger_AutoThreshold => "auto_threshold"
  | Trigger_ManualCommand => "manual_command"
  | Trigger_ReactivePromptTooLong => "reactive_prompt_too_long"
  end.

Inductive CompactStrategy :=
| Strategy_Auto
| Strategy_Manual (keep_recent_turns : option N)
| Strategy_ReactivePromptTooLong.

Definition CompactStrategy_trigger (s : CompactStrategy) : CompactTrigger :=
  match s with
  | Strategy_Auto => Trigger_AutoThreshold
  | Strategy_Manual _ => Trigger_ManualCommand
  | Strategy_ReactivePromptTooLong => Trigger_ReactivePromptTooLong
  end.

Definition CompactStrategy_keep_recent_turns (s : CompactStrategy) : option N :=
  match s with
  | Strategy_Manual keep_recent_turns => keep_recent_turns
  | _ => None
  end.

(** * Errors and events of a provider

    [LlmError] and [LlmEvent] of [astrcode-core/src/llm.rs], and the recognition of
    context-length messages of [astrcode-context/src/context.rs]. *)

Inductive LlmError :=
| InvalidApiKey (status : N) (message : string)
| ModelNotFound (status : N) (message : string)
| InvalidParameter (status : N) (message : string)
| QuotaExceeded (status : N) (message : string)
| ContextWindowExceeded (message : string)
| RateLimited (status : N) (retry_after_ms : option N) (message : string)
| ClientError (status : N) (message : string)
| ServerError (status : N) (message : string)
| Transport (message : string)
| StreamDisconnected (message : string)
| StreamParse (message : string)
| ContentFilter (message : string)
| TokenLimit (message : string)
| EmptyResponse
| Interrupted
| Unsupported (message : string).

(** The [Display] of the error attributes. *)
Definition LlmError_to_string (e : LlmError) : string :=
  match e with
  | InvalidApiKey status message => "invalid api key (" +:+ pretty status +:+ "): " +:+ message
  | ModelNotFound status message => "model not found (" +:+ pretty status +:+ "): " +:+ message
  | InvalidParameter status message => "invalid parameter (" +:+ pretty status +:+ "): " +:+ message
  | QuotaExceeded status message => "quota exceeded (" +:+ pretty status +:+ "): " +:+ message
  | ContextWindowExceeded message => "context window exceeded: " +:+ message
  | RateLimited status _ message => "rate limited (" +:+ pretty status +:+ "): " +:+ message
  | ClientError status message => "client error (" +:+ pretty status +:+ "): " +:+ message
  | ServerError status message => "server error (" +:+ pretty status +:+ "): " +:+ message
  | Transport message => "transport error: " +:+ message
  | StreamDisconnected message => "stream disconnected: " +:+ message
  | StreamParse message => "stream parse error: " +:+ message
  | ContentFilter message => "content filtered: " +:+ message
  | TokenLimit message => "output token limit: " +:+ message
  | EmptyResponse => "empty response"
  | Interrupted => "request interrupted"
  | Unsupported message => "unsupported LLM operation: " +:+ message
  end.

(** [LlmError::is_retryable]. *)
Definition is_retryable (e : LlmError) : bool :=
  match e with
  | RateLimited _ _ _ | Transport _ => true
  | ServerError status _ => bool_decide (status ∈ [408; 500; 502; 503; 504]%N)
  | _ => false
  end.

Inductive LlmEvent :=
| Retrying (status : option N) (attempt max_retries delay_ms : N)
| RetryRecovered
| ContentDelta (delta : string)
| ThinkingDelta (delta : string)
| ToolCallStart (call_id name arguments : string)
| ToolCallDelta (call_id delta : string)
| ToolCallCompleted (call_id : string)
| Usage (usage : LlmTokenUsage)
| Done (finish_reason : string)
| Error (message : string).

(** [is_prompt_too_long_message]. *)
Definition is_prompt_too_long_message (message : string) : bool :=
  let lower := to_ascii_lowercase message in
  let positive := existsb (str_contains lower)
    ["prompt too long"; "context length"; "maximum context"; "too many tokens";
     "input is too long"] in
  let negative := existsb (str_contains lower) ["rate limit"; "quota"; "throttle"; "timeout"] in
  positive && negb negative.

(** [collect_stream_text] on the events of a receiver; a closed channel ends it. *)
Fixpoint collect_stream_text (text : string) (events : list LlmEvent) : result string LlmError :=
  match events with
  | [] => Ok text
  | ContentDelta delta :: events => collect_stream_text (text +:+ delta) events
  | Done _ :: _ => Ok text
  | Error message :: _ => Err (StreamParse message)
  | _ :: events => collect_stream_text text events
  end.
