(* ===== verification/CoreLlmProtocol.v ===== *)
(** * What the provider-visible normalisation guarantees

    The provider protocol (an assistant message with tool calls is directly
    followed by tool messages that answer exactly those calls) as a grammar of
    message lists, and the theorems relating [provider_visible_entries] of
    [CoreLlm] to it, for every implementation of [ProviderVisibleEntry]. *)

From S2P Require Import Prelude CoreTypes CoreLlm.

(** ** The protocol grammar *)

Section grammar.
Context {E : Type} `{!ProviderVisibleEntry E}.

Definition is_tool (e : E) : Prop := role (entry_message e) = Role_Tool.

(** The calls an entry opens a round with. *)
Definition opened_calls (e : E) : gset string :=
  if decide (role (entry_message e) = Role_Assistant) then tool_call_ids e else ∅.

(** [answering C A ts A']: the tool messages [ts], starting with the calls [A]
    answered, answer further calls of [C], each once, up to [A']. *)
Inductive answering (C A : gset string) : list E → gset string → Prop :=
| answering_nil : answering C A [] A
| answering_snoc ts A' t :
    answering C A ts A' →
    is_tool t →
    tool_result_ids t ≠ [] →
    Forall (λ i, i ∈ C ∧ i ∉ A') (tool_result_ids t) →
    answering C A (ts ++ [t]) (list_to_set (tool_result_ids t) ∪ A').

(** A settled round: the assistant message and the results of all its calls. *)
Definition settled_round (s : list E) : Prop :=
  ∃ a ts A, s = a :: ts ∧ opened_calls a ≠ ∅ ∧
    answering (opened_calls a) ∅ ts A ∧ opened_calls a ⊆ A.

(** A message outside any round that opens none. *)
Definition plain_entry (e : E) : Prop := ¬ is_tool e ∧ opened_calls e = ∅.

(** Lists the provider accepts: plain messages and settled rounds. *)
Definition protocol_ok (l : list E) : Prop :=
  ∃ segments, l = concat segments ∧
    Forall (λ s, (∃ e, s = [e] ∧ plain_entry e) ∨ settled_round s) segments.

(** The weaker contract without the requirement that every round is settled:
    every tool result still belongs to the round directly before it. *)
Definition results_owned (l : list E) : Prop :=
  ∃ segments, l = concat segments ∧
    Forall (λ s, (∃ e, s = [e] ∧ ¬ is_tool e) ∨ settled_round s) segments.

(** No tool-calling assistant message arrives while a round is open ([open]: its
    calls and the answered ones).  A tool message that does not fit ends the scan,
    as it ends the loop. *)
Fixpoint rounds_sequential (open : option (gset string * gset string)) (l : list E) : bool :=
  match l with
  | [] => true
  | e :: l =>
    if decide (is_tool e) then
      match open with
      | Some (C, A) =>
        if decide (tool_result_ids e ≠ [] ∧ Forall (λ i, i ∈ C ∧ i ∉ A) (tool_result_ids e)) then
          let A := list_to_set (tool_result_ids e) ∪ A in
          rounds_sequential (if decide (C ⊆ A) then None else Some (C, A)) l
        else true
      | None => true
      end
    else
      match open with
      | Some _ => bool_decide (opened_calls e = ∅) && rounds_sequential open l
      | None =>
        rounds_sequential
          (if decide (opened_calls e = ∅) then None else Some (opened_calls e, ∅)) l
      end
  end.

(** *** Lemmas *)

(** The two grammars differ only in what a single message may be. *)
Definition segmented (P : E → Prop) (l : list E) : Prop :=
  ∃ segments, l = concat segments ∧
    Forall (λ s, (∃ e, s = [e] ∧ P e) ∨ settled_round s) segments.

Lemma segmented_nil P : segmented P [].
Proof. by exists []. Qed.

Lemma segmented_app P l1 l2 : segmented P l1 → segmented P l2 → segmented P (l1 ++ l2).
Proof.
  intros (s1 & -> & H1) (s2 & -> & H2). exists (s1 ++ s2).
  rewrite concat_app. by rewrite Forall_app.
Qed.

Lemma segmented_plain (P : E → Prop) l : Forall P l → segmented P l.
Proof.
  intros HP. exists ((λ e, [e]) <$> l). split.
  - clear HP. induction l as [|a l IH]; [done|]. by rewrite fmap_cons, concat_cons, <-IH.
  - induction HP; constructor; eauto.
Qed.

Lemma segmented_round P s : settled_round s → segmented P s.
Proof. intros Hs. exists [s]. simpl. rewrite app_nil_r. eauto. Qed.

(** The loop's test on a tool message is the grammar's condition. *)
Lemma accepts_ids (ids : list string) (C A : gset string) :
  negb (Nat.eqb (length ids) 0)
  && forallb (λ i, bool_decide (i ∈ C) && negb (bool_decide (i ∈ A))) ids = true
  ↔ ids ≠ [] ∧ Forall (λ i, i ∈ C ∧ i ∉ A) ids.
Proof.
  rewrite andb_true_iff, forallb_Forall. f_equiv.
  - destruct ids; naive_solver.
  - apply Forall_iff. intros i.
    rewrite andb_true_iff, negb_true_iff, bool_decide_eq_true, bool_decide_eq_false. done.
Qed.

Lemma opened_calls_spec e :
  (role (entry_message e) = Role_Assistant ∧ tool_call_ids e ≠ ∅) ↔ opened_calls e ≠ ∅.
Proof. unfold opened_calls. case_decide; naive_solver. Qed.

Lemma opened_calls_Assistant e :
  role (entry_message e) = Role_Assistant → opened_calls e = tool_call_ids e.
Proof. unfold opened_calls. by case_decide. Qed.

Lemma opened_calls_not_tool e : opened_calls e ≠ ∅ → ¬ is_tool e.
Proof. unfold opened_calls, is_tool. case_decide; congruence. Qed.

(** The state of the loop: [out] is a segmented prefix followed, when a round is
    open, by its assistant message and the answers so far. *)
Definition loop_inv (P : E → Prop) (out : list E) (pending : option PendingRound)
    (buffered : list E) : Prop :=
  match pending with
  | None => segmented P out ∧ buffered = []
  | Some (start, C, A) =>
    ∃ pre a ts, out = pre ++ a :: ts ∧ start = length pre ∧ segmented P pre ∧
      C = opened_calls a ∧ C ≠ ∅ ∧ answering C ∅ ts A ∧ Forall P buffered
  end.

(** The part of the loop's pending state the sequencing scan tracks. *)
Definition open_of (pending : option PendingRound) : option (gset string * gset string) :=
  match pending with Some (_, C, A) => Some (C, A) | None => None end.

Lemma loop_inv_take P out start C A buffered :
  loop_inv P out (Some (start, C, A)) buffered → segmented P (take start out).
Proof.
  intros (pre & a & ts & -> & -> & Hpre & _). by rewrite take_app_length.
Qed.

Lemma loop_inv_tool P out start C A buffered t (ids := tool_result_ids t) :
  loop_inv P out (Some (start, C, A)) buffered →
  is_tool t → ids ≠ [] → Forall (λ i, i ∈ C ∧ i ∉ A) ids →
  if decide (C ⊆ list_to_set ids ∪ A)
  then loop_inv P ((out ++ [t]) ++ buffered) None []
  else loop_inv P (out ++ [t]) (Some (start, C, list_to_set ids ∪ A)) buffered.
Proof.
  intros (pre & a & ts & -> & -> & Hpre & -> & Hne & Hans & Hbuf) Ht Hids Hall.
  assert (answering (opened_calls a) ∅ (ts ++ [t]) (list_to_set ids ∪ A))
    by by constructor.
  case_decide as Hsub.
  - split; [|done].
    replace (((pre ++ a :: ts) ++ [t]) ++ buffered)
      with (pre ++ (a :: ts ++ [t]) ++ buffered) by (simpl; by rewrite <-!app_assoc).
    apply segmented_app; [done|].
    apply segmented_app; [|by apply segmented_plain].
    apply segmented_round. by exists a, (ts ++ [t]), (list_to_set ids ∪ A).
  - exists pre, a, (ts ++ [t]). split_and!; try done. by rewrite <-app_assoc.
Qed.

Lemma loop_inv_open P out e :
  (opened_calls e = ∅ → P e) →
  loop_inv P out None [] →
  loop_inv P (out ++ [e])
    (if decide (opened_calls e = ∅) then None
     else Some (length out, opened_calls e, ∅)) [].
Proof.
  intros HP [Hout _]. case_decide as Hc.
  - split; [|done]. apply segmented_app; [done|]. apply segmented_plain. auto.
  - exists out, e, []. split_and!; try done. constructor.
Qed.

Lemma open_step (e : E) (n : nat) :
  (if decide (role (entry_message e) = Role_Assistant ∧ tool_call_ids e ≠ ∅)
   then Some (n, tool_call_ids e, (∅ : gset string)) else None)
  = (if decide (opened_calls e = ∅) then None else Some (n, opened_calls e, ∅)).
Proof.
  pose proof (opened_calls_spec e) as Hspec.
  destruct (decide (_ ∧ _)) as [Hd|Hd]; case_decide as Hc; try tauto.
  by rewrite opened_calls_Assistant by tauto.
Qed.

(** What a message outside the rounds satisfies, under the strict and the weak
    contract. *)
Definition single_ok (strict : bool) (e : E) : Prop :=
  ¬ is_tool e ∧ (strict = true → opened_calls e = ∅).

Lemma truncate_loop_segmented strict l out pending buffered :
  loop_inv (single_ok strict) out pending buffered →
  (strict = true → rounds_sequential (open_of pending) l = true) →
  segmented (single_ok strict) (truncate_loop l out pending buffered).
Proof.
  revert out pending buffered; induction l as [|e l IH]; intros out pending buffered Hinv Hseq.
  { destruct pending as [[[start C] A]|]; simpl; [by eapply loop_inv_take|apply Hinv]. }
  simpl. destruct (decide (role (entry_message e) = Role_Tool)) as [Ht|Ht].
  - destruct pending as [[[start C] A]|]; [|apply Hinv].
    destruct (negb _ && _) eqn:Hacc; [|by eapply loop_inv_take].
    apply accepts_ids in Hacc as [Hids Hall].
    pose proof (loop_inv_tool _ _ _ _ _ _ _ Hinv Ht Hids Hall) as Hnext.
    assert (strict = true → rounds_sequential
      (if decide (C ⊆ list_to_set (tool_result_ids e) ∪ A) then None
       else Some (C, list_to_set (tool_result_ids e) ∪ A)) l = true) as Hrest.
    { intros Hs. specialize (Hseq Hs). simpl in Hseq.
      rewrite decide_True in Hseq by done. by rewrite decide_True in Hseq by done. }
    case_decide; by apply IH.
  - destruct pending as [[[start C] A]|].
    + apply IH.
      * destruct Hinv as (pre & a & ts & ? & ? & ? & ? & ? & ? & Hbuf).
        exists pre, a, ts. split_and!; try done.
        apply Forall_app; split; [done|]. constructor; [|done]. split; [done|].
        intros Hs. specialize (Hseq Hs). simpl in Hseq.
        rewrite decide_False in Hseq by done. by bools.
      * intros Hs. specialize (Hseq Hs). simpl in Hseq.
        rewrite decide_False in Hseq by done. by bools.
    + assert (buffered = []) as -> by apply Hinv.
      rewrite open_step. apply IH.
      * apply loop_inv_open; [|done]. by split.
      * intros Hs. specialize (Hseq Hs). simpl in Hseq.
        rewrite decide_False in Hseq by done. by case_decide.
Qed.

(** A settled round passes through the loop unchanged. *)
Lemma truncate_loop_answering out a ts A l :
  opened_calls a ≠ ∅ →
  answering (opened_calls a) ∅ ts A →
  truncate_loop (ts ++ l) (out ++ [a]) (Some (length out, opened_calls a, ∅)) []
  = truncate_loop l (out ++ a :: ts)
      (if decide (opened_calls a ⊆ A) then None
       else Some (length out, opened_calls a, A)) [].
Proof.
  intros Hne Hans. revert l. induction Hans as [|ts A t Hans IH Ht Hids Hall]; intros l.
  { simpl. rewrite decide_False; [done|]. set_solver. }
  rewrite <-app_assoc, IH.
  rewrite (decide_False (P := opened_calls a ⊆ A)).
  2:{ intros Hsub. destruct (tool_result_ids t) as [|i ids]; [done|].
      apply Forall_cons in Hall as [[? Hni] _]. by apply Hni, Hsub. }
  simpl. rewrite decide_True by done.
  rewrite (proj2 (accepts_ids _ _ _)) by done.
  clear IH. rewrite ?app_nil_r, <-app_assoc. by case_decide.
Qed.

Lemma truncate_loop_segment s out l :
  (∃ e, s = [e] ∧ plain_entry e) ∨ settled_round s →
  truncate_loop (s ++ l) out None [] = truncate_loop l (out ++ s) None [].
Proof.
  intros [(e & -> & Ht & Hc)|(a & ts & A & -> & Hne & Hans & Hsub)]; simpl.
  - rewrite decide_False by done. rewrite open_step. by rewrite decide_True.
  - rewrite decide_False by by apply opened_calls_not_tool.
    rewrite open_step, decide_False by done.
    rewrite (truncate_loop_answering out a ts A) by done. by rewrite decide_True.
Qed.

Lemma truncate_protocol_ok l : protocol_ok l → truncate_incomplete_tool_entries l = l.
Proof.
  intros (segments & -> & Hall). unfold truncate_incomplete_tool_entries.
  change (concat segments) with ([] ++ concat segments) at 2. generalize (@nil E) at 1 3.
  induction Hall as [|s segments Hs _ IH]; intros out; simpl; [by rewrite app_nil_r|].
  rewrite truncate_loop_segment by done. rewrite IH. by rewrite app_assoc.
Qed.

(** The loop neither invents nor duplicates messages. *)
Lemma truncate_loop_submseteq l out pending buffered :
  truncate_loop l out pending buffered ⊆+ out ++ buffered ++ l.
Proof.
  revert out pending buffered; induction l as [|e l IH]; intros out pending buffered; simpl.
  { destruct pending as [[[start C] A]|]; apply submseteq_inserts_r; [apply submseteq_take|done]. }
  assert (out ⊆+ out ++ buffered ++ e :: l) by by apply submseteq_inserts_r.
  case_decide.
  - destruct pending as [[[start C] A]|]; [|done].
    destruct (negb _ && _); [|by etrans; [apply submseteq_take|]].
    case_decide; (etrans; [apply IH|]); apply Permutation_submseteq;
      rewrite <-!app_assoc; simpl; by rewrite Permutation_middle.
  - destruct pending as [[[start C] A]|]; (etrans; [apply IH|]); apply Permutation_submseteq;
      rewrite <-!app_assoc; simpl; [done|]. by rewrite Permutation_middle.
Qed.

End grammar.

(** ** The interface the normalisation relies on

    Every implementation of the trait absorbs a message the way
    [LlmMessage::append] does. *)

Class LawfulEntry (E : Type) `{!ProviderVisibleEntry E} := {
  absorb_message (x y : E) :
    entry_message (absorb_assistant x y) = LlmMessage_append (entry_message x) (entry_message y);
}.

#[export] Instance LlmMessage_lawful : LawfulEntry LlmMessage.
Proof. by split. Qed.
#[export] Instance TranscriptMessage_lawful : LawfulEntry TranscriptMessage.
Proof. by split. Qed.
#[export] Instance ArcMessage_lawful : LawfulEntry (Arc LlmMessage).
Proof. by split. Qed.
#[export] Instance SharedTranscriptMessage_lawful : LawfulEntry SharedTranscriptMessage.
Proof. by split. Qed.

Section lawful.
Context {E : Type} `{LawfulEntry E}.

(** All content blocks of a message list, in order. *)
Definition blocks (l : list E) : list LlmContent :=
  concat ((λ e, content (entry_message e)) <$> l).

Lemma blocks_app l1 l2 : blocks (l1 ++ l2) = blocks l1 ++ blocks l2.
Proof. unfold blocks. by rewrite fmap_app, concat_app. Qed.

Lemma blocks_cons e l : blocks (e :: l) = content (entry_message e) ++ blocks l.
Proof. done. Qed.

Lemma normalize_step_blocks merged e :
  blocks (normalize_step merged e) = blocks merged ++ content (entry_message e).
Proof.
  unfold normalize_step. destruct (last merged) as [x|] eqn:Hl.
  - apply last_Some in Hl as [init ->]. rewrite length_app, Nat.add_sub, take_app_length.
    destruct (_ && _); rewrite !blocks_app, !blocks_cons, ?absorb_message; simpl;
      by rewrite ?app_nil_r, ?app_assoc.
  - apply last_None in Hl as ->. unfold blocks. simpl. by rewrite app_nil_r.
Qed.

Lemma normalize_blocks l : blocks (normalize_tool_call_entries l) = blocks l.
Proof.
  unfold normalize_tool_call_entries.
  assert (∀ m, blocks (foldl normalize_step m l) = blocks m ++ blocks l) as ->; [|done].
  induction l as [|e l IH]; intros m; simpl; [by rewrite app_nil_r|].
  by rewrite IH, normalize_step_blocks, blocks_cons, app_assoc.
Qed.
End lawful.

(** ** Morphisms between entry types

    A map that keeps the message and commutes with absorption commutes with the
    whole normalisation: the owned and the [Arc]-shared paths agree. *)

Class EntryMorphism {E F : Type} `{!ProviderVisibleEntry E, !ProviderVisibleEntry F}
    (f : E → F) := {
  morphism_message e : entry_message (f e) = entry_message e;
  morphism_absorb x y : f (absorb_assistant x y) = absorb_assistant (f x) (f y);
}.

#[export] Instance arc_get_morphism : EntryMorphism (@arc_get LlmMessage).
Proof. by split. Qed.
#[export] Instance tm_message_morphism : EntryMorphism tm_message.
Proof. by split. Qed.

(** Forget the sharing of a transcript message. *)
Definition unshare (e : SharedTranscriptMessage) : TranscriptMessage :=
  {| tm_message := arc_get (stm_message e); tm_origin := stm_origin e |}.

#[export] Instance unshare_morphism : EntryMorphism unshare.
Proof. by split. Qed.

Lemma fmap_filter_comm {A B} (f : A → B) (P : A → Prop) (Q : B → Prop)
    `{!∀ a, Decision (P a), !∀ b, Decision (Q b)} (l : list A) :
  (∀ a, P a ↔ Q (f a)) → f <$> filter P l = filter Q (f <$> l).
Proof.
  intros HPQ. induction l as [|a l IH]; [done|]. rewrite fmap_cons, !filter_cons.
  do 2 case_decide; rewrite ?fmap_cons, ?IH; naive_solver.
Qed.

Section morphism.
Context {E F : Type} `{!ProviderVisibleEntry E, !ProviderVisibleEntry F}.
Context (f : E → F) `{!EntryMorphism f}.

Lemma fmap_normalize_step m e :
  f <$> normalize_step m e = normalize_step (f <$> m) (f e).
Proof.
  unfold normalize_step, has_tool_calls. rewrite fmap_last, length_fmap.
  destruct (last m) as [x|]; simpl; [|by rewrite fmap_app].
  rewrite !morphism_message.
  destruct (_ && _); by rewrite fmap_app, ?fmap_take, ?fmap_cons, ?morphism_absorb.
Qed.

Lemma fmap_normalize l :
  f <$> normalize_tool_call_entries l = normalize_tool_call_entries (f <$> l).
Proof.
  unfold normalize_tool_call_entries. change (@nil F) with (f <$> @nil E).
  generalize (@nil E). induction l as [|e l IH]; intros m; simpl; [done|].
  by rewrite IH, fmap_normalize_step.
Qed.

Lemma fmap_truncate_loop l out pending buffered :
  f <$> truncate_loop l out pending buffered
  = truncate_loop (f <$> l) (f <$> out) pending (f <$> buffered).
Proof.
  revert out pending buffered.
  induction l as [|e l IH]; intros out [[[start C] A]|] buffered; simpl; try done.
  - apply fmap_take.
  - unfold tool_result_ids, tool_call_ids. rewrite morphism_message. case_decide.
    + destruct (_ && _); [|apply fmap_take]. case_decide; by rewrite IH, ?fmap_app.
    + by rewrite IH, fmap_app.
  - unfold tool_call_ids. rewrite morphism_message, length_fmap.
    case_decide; [done|]. case_decide; by rewrite IH, fmap_app.
Qed.


Lemma fmap_provider_visible l :
  f <$> provider_visible_entries l = provider_visible_entries (f <$> l).
Proof.
  unfold provider_visible_entries, truncate_incomplete_tool_entries.
  rewrite fmap_truncate_loop. simpl. rewrite fmap_normalize. do 2 f_equal.
  apply fmap_filter_comm. intros e. unfold entry_visible. by rewrite morphism_message.
Qed.
End morphism.

(** [provider_transcript] is the visible messages without the system ones. *)
Lemma provider_transcript_eq l :
  provider_transcript l = filter (λ m, role m ≠ Role_System) (provider_visible_messages l).
Proof.
  unfold provider_transcript, provider_transcript_messages, provider_visible_messages.
  change (map tm_message ?x) with (tm_message <$> x).
  rewrite (fmap_filter_comm _ _ (λ m, role m ≠ Role_System)) by done.
  rewrite fmap_provider_visible by apply _. f_equal. f_equal.
  rewrite <-list_fmap_compose. by apply list_fmap_id.
Qed.

(** ** Properties *)

(** Whatever the transcript, in the provider-visible list every tool result belongs
    to a round whose assistant message stands directly before it, the results of a
    round answer each of its calls exactly once, and no result is left without its
    round. *)
Theorem provider_visible_results_owned {E} `{!ProviderVisibleEntry E} (messages : list E) :
  results_owned (provider_visible_entries messages).
Proof.
  destruct (truncate_loop_segmented false
    (normalize_tool_call_entries (visible_entries messages)) [] None [])
    as (segments & Heq & Hall).
  - split; [apply segmented_nil|done].
  - done.
  - exists segments. split; [done|]. eapply Forall_impl; [done|].
    intros s [(e & -> & Ht & _)|Hs]; [left|right]; eauto.
Qed.

(** C38. When no tool-calling assistant message arrives inside an open round, the
    provider-visible list satisfies the provider's tool protocol in full: every
    assistant message with calls is directly followed by results answering exactly
    those calls. *)
Theorem provider_visible_protocol_ok {E} `{!ProviderVisibleEntry E} (messages : list E) :
  rounds_sequential None
    (normalize_tool_call_entries (visible_entries messages)) = true →
  protocol_ok (provider_visible_entries messages).
Proof.
  intros Hseq.
  destruct (truncate_loop_segmented true
    (normalize_tool_call_entries (visible_entries messages)) [] None [])
    as (segments & Heq & Hall).
  - split; [apply segmented_nil|done].
  - done.
  - exists segments. split; [done|]. eapply Forall_impl; [done|].
    intros s [(e & -> & Ht & Hc)|Hs]; [left|by right]. exists e. split; [done|]. split; auto.
Qed.

(** A transcript with one settled round and a user message sent while the tool ran. *)
Definition call_message (call_id : string) : LlmMessage :=
  {| role := Role_Assistant;
     content := [Content_ToolCall call_id "shell" (JObject []) None];
     name := None; reasoning_content := None |}.
Definition sample_transcript : list LlmMessage :=
  [LlmMessage_user "run it"; call_message "a"; LlmMessage_user "hurry";
   LlmMessage_tool "shell" "a" "done" false; LlmMessage_assistant "finished"].

Lemma provider_visible_protocol_ok_witness :
  protocol_ok (provider_visible_entries sample_transcript).
Proof. apply provider_visible_protocol_ok. vm_compute. reflexivity. Defined.

(** Without that condition the protocol can fail: a tool-calling assistant message
    that arrives while a round is open is buffered and re-emitted after the round
    settles, as a call without results at the end of the provider's list. *)
Theorem provider_visible_dangling_call :
  let l := [call_message "a"; LlmMessage_user "also"; call_message "b";
            LlmMessage_tool "shell" "a" "done" false] in
  provider_visible_messages l =
    [call_message "a"; LlmMessage_tool "shell" "a" "done" false;
     LlmMessage_user "also"; call_message "b"]
  ∧ ¬ protocol_ok (provider_visible_messages l).
Proof.
  intros l. assert (provider_visible_messages l =
    [call_message "a"; LlmMessage_tool "shell" "a" "done" false;
     LlmMessage_user "also"; call_message "b"]) as Heq by (vm_compute; reflexivity).
  split; [done|]. intros Hok%truncate_protocol_ok. rewrite Heq in Hok.
  apply (f_equal length) in Hok. vm_compute in Hok. done.
Qed.

(** The [Arc]-shared normalisations compute the same messages as the owned ones, and
    the transcript used for fingerprints is the visible list without system
    messages. *)
Theorem provider_visible_shared_agrees :
  (∀ l, arc_get <$> provider_visible_shared_messages l
        = provider_visible_messages (arc_get <$> l)) ∧
  (∀ l, unshare <$> provider_transcript_shared_messages l
        = provider_transcript_messages (unshare <$> l)) ∧
  (∀ l, tm_message <$> provider_transcript_messages l = provider_transcript (tm_message <$> l)).
Proof.
  split_and!; intros l.
  - by apply (fmap_provider_visible arc_get).
  - unfold provider_transcript_shared_messages, provider_transcript_messages.
    rewrite (fmap_filter_comm _ _ (λ e, role (tm_message e) ≠ Role_System)) by done.
    by rewrite (fmap_provider_visible unshare).
  - rewrite provider_transcript_eq. unfold provider_transcript_messages.
    rewrite (fmap_filter_comm _ _ (λ m, role m ≠ Role_System)) by done.
    by rewrite (fmap_provider_visible tm_message).
Qed.

(** A settled transcript loses nothing: if the merged visible messages satisfy the
    protocol, they are sent unchanged, and every content block of every visible
    message is sent, in order. *)
Theorem settled_transcript_lossless {E} `{LawfulEntry E} (messages : list E)
    (visible := visible_entries messages) :
  protocol_ok (normalize_tool_call_entries visible) →
  provider_visible_entries messages = normalize_tool_call_entries visible ∧
  blocks (provider_visible_entries messages) = blocks visible.
Proof.
  intros Hok. unfold provider_visible_entries. rewrite truncate_protocol_ok by done.
  split; [done|apply normalize_blocks].
Qed.

Lemma settled_transcript_lossless_witness :
  let l := [LlmMessage_user "run it"; LlmMessage_assistant "ok"; call_message "a";
            LlmMessage_tool "shell" "a" "done" false] in
  provider_visible_entries l = normalize_tool_call_entries (visible_entries l)
  ∧ blocks (provider_visible_entries l) = blocks (visible_entries l).
Proof.
  intros l. apply (settled_transcript_lossless l).
  exists [[LlmMessage_user "run it"];
          [LlmMessage_append (LlmMessage_assistant "ok") (call_message "a");
           LlmMessage_tool "shell" "a" "done" false]].
  split; [vm_compute; reflexivity|]. constructor.
  { left. exists (LlmMessage_user "run it"). by split. }
  constructor; [right|constructor].
  eexists _, [LlmMessage_tool "shell" "a" "done" false], _. split_and!; [done| | |].
  - vm_compute. intros [=].
  - apply (answering_snoc _ _ []); [constructor|done|done|].
    constructor; [|constructor]. split; [|set_solver].
    by apply (bool_decide_unpack _).
  - by apply (bool_decide_unpack _).
Defined.

(** The normalisation only drops and reorders: every message it emits is one of the
    merged visible messages, none more often than it occurs there. *)
Theorem provider_visible_no_invention {E} `{!ProviderVisibleEntry E} (messages : list E) :
  provider_visible_entries messages
  ⊆+ normalize_tool_call_entries (visible_entries messages).
Proof. apply (truncate_loop_submseteq _ [] None []). Qed.

Lemma attachments_of_contents_app i c1 c2 :
  attachments_of_contents i (c1 ++ c2)
  = attachments_of_contents i c1
    ++ attachments_of_contents (i + N.of_nat (length c1)) c2.
Proof.
  revert i; induction c1 as [|c c1 IH]; intros i; simpl; [by rewrite N.add_0_r|].
  destruct c; simpl; rewrite IH; by replace (i + 1 + N.of_nat (length c1))%N
    with (i + N.pos (Pos.of_succ_nat (length c1)))%N by lia.
Qed.

Lemma attachments_of_attachment_contents i atts :
  attachments_of_contents i (map attachment_content atts)
  = filter (λ a, is_image a = true) atts.
Proof.
  revert i; induction atts as [|a atts IH]; intros i; [done|].
  simpl map. unfold attachment_content at 1. destruct (is_image a) eqn:Ha; simpl; rewrite IH.
  - rewrite filter_cons_True by done. by destruct a.
  - by rewrite filter_cons_False by congruence.
Qed.

(** Attachments round-trip through the user message: exactly the image attachments
    come back, in order, with their file name, media type and content. *)
Theorem attachments_round_trip text atts :
  attachments_from_user_message (user_with_attachments text atts)
  = filter (λ a, is_image a = true) atts.
Proof.
  unfold attachments_from_user_message, user_with_attachments. simpl.
  rewrite <-(attachments_of_attachment_contents 0 atts).
  set (c := map attachment_content atts).
  assert (attachments_of_contents 0 (if is_empty text then c else c ++ [Content_Text text])
          = attachments_of_contents 0 c) as <-.
  { destruct (is_empty text); [done|]. rewrite attachments_of_contents_app.
    simpl. by rewrite app_nil_r. }
  by destruct (if is_empty text then c else c ++ [Content_Text text]).
Qed.
