(* ===== verification/CoreEvent.v ===== *)
(** * Durable events of [astrcode-core] ([event.rs], [event/*.rs])

    The facts a session's event log records, their envelopes, and the stable
    FNV-1a fingerprints that guard transcript rewrites.  [serde_json::to_string]
    on a message is a parameter of the fingerprint. *)

From S2P Require Import Prelude CoreTypes CoreLlm.

(** ** Payload data *)

Inductive SystemPromptSource := Prompt_Native | Prompt_Inherited.

Record PersistedSystemPrompt := {
  psp_text : string;
  psp_fingerprint : string;
  psp_extra_system_prompt : option string;
  psp_source : SystemPromptSource;
}.

Record ParentSessionRef := { parent_session_id : SessionId }.

Record SessionStarted := {
  st_working_dir : string;
  st_model_id : string;
  st_parent : option ParentSessionRef;
  st_tool_selection : SessionToolSelection;
  st_source_extension : option string;
  st_initial_system_prompt : PersistedSystemPrompt;
}.

Inductive CustomEventAudience := Audience_Session | Audience_Global.

#[export] Instance CustomEventAudience_eq_dec : EqDecision CustomEventAudience.
Proof. solve_decision. Defined.

Record CustomEventData := {
  ce_extension_id : string;
  ce_event_type : string;
  ce_schema_version : N;
  ce_audience : CustomEventAudience;
  ce_causation_id : option EventId;
  ce_cascade_depth : N;
  ce_payload : Value;
}.

Record CompactionDetails := {
  cd_trigger : string;
  cd_pre_tokens : N;
  cd_post_tokens : N;
  cd_summary : string;
  cd_transcript_path : option string;
  cd_strategy : CompactStrategy;
}.

Inductive TranscriptRewriteReason :=
| Rewrite_Compaction (details : CompactionDetails).

(** The durable facts, constructor by constructor. *)
Inductive DurableEventPayload :=
| P_SessionStarted (started : SessionStarted)
| P_ModelIdChanged (model_id : string)
| P_SessionToolsConfigured (selection : SessionToolSelection)
| P_SystemPromptConfigured (text fingerprint : string) (extra_system_prompt : option string)
    (source : SystemPromptSource)
| P_AgentSessionSpawned (child_session_id : SessionId) (agent_name task : string)
    (tool_selection : option SessionToolSelection) (tool_call_id : option ToolCallId)
| P_AgentSessionCompleted (child_session_id final_session_id : SessionId) (summary : string)
| P_AgentSessionFailed (child_session_id final_session_id : SessionId) (error : string)
| P_AgentSessionRecycled (child_session_id : SessionId)
| P_TurnStarted
| P_StepStarted (step_index attempt : N)
| P_StepCompleted (step_index attempt : N) (finish_reason : option string)
| P_TurnCompleted (finish_reason : string)
| P_TurnAbortedContext
| P_UserInputAccepted (input : UserInput)
| P_UserMessage (message_id : MessageId) (text : string)
    (attachments : list MessageAttachment) (accepted_seq : option N)
| P_RecapGenerated (text source : string)
| P_AssistantMessageCompleted (message_id : MessageId) (text : string)
    (reasoning_content : option string)
| P_TokenUsageRecorded (usage : LlmTokenUsage) (model_context_window : N)
| P_ToolCallRequested (call_id : ToolCallId) (tool_name : string) (arguments : Value)
    (raw_arguments : option string)
| P_ToolApprovalRequested (call_id : ToolCallId) (tool_name prompt : string)
    (rule_key : option string) (source : ApprovalSource) (arguments : Value)
| P_ToolApprovalResolved (call_id : ToolCallId) (decision : ApprovalDecision)
    (detail : option string)
| P_ToolCallCompleted (call_id : ToolCallId) (tool_name : string) (result_ : ToolResult)
    (arguments : string) (arguments_json : option Value)
| P_ToolCallFailed (call_id : ToolCallId) (tool_name error : string)
    (metadata : gmap string Value) (duration_ms : option N) (arguments : string)
    (arguments_json : option Value)
| P_ToolCallCancelled (call_id : ToolCallId) (tool_name reason : string)
    (duration_ms : option N) (arguments : string) (arguments_json : option Value)
| P_TranscriptRewritten (source_seq : N) (source_fingerprint : string)
    (messages : list TranscriptMessage) (reason : TranscriptRewriteReason)
| P_SessionForked (source_session_id : SessionId) (source_cursor : Cursor)
    (first_user_message : option string) (messages : list TranscriptMessage)
| P_ErrorOccurred (code : Z) (message : string) (recoverable : bool)
| P_CustomEvent (event : CustomEventData).

(** ** Envelopes *)

Inductive Phase :=
| Phase_Idle | Phase_Thinking | Phase_Streaming | Phase_CallingTool
| Phase_Compacting | Phase_Error.

#[export] Instance Phase_eq_dec : EqDecision Phase.
Proof. solve_decision. Defined.

Record EventEnvelope (P : Type) := {
  ev_id : EventId;
  ev_session_id : SessionId;
  ev_turn_id : option TurnId;
  ev_timestamp : DateTime;
  ev_payload : P;
}.
Arguments ev_id {P} _.
Arguments ev_session_id {P} _.
Arguments ev_turn_id {P} _.
Arguments ev_timestamp {P} _.
Arguments ev_payload {P} _.
Arguments Build_EventEnvelope {P} _ _ _ _ _.

(** [EventEnvelope::new]; the generated id and the clock are arguments. *)
Definition EventEnvelope_new {P} (new_event_id : EventId) (now : DateTime)
    (session_id : SessionId) (turn_id : option TurnId) (payload : P) : EventEnvelope P :=
  Build_EventEnvelope new_event_id session_id turn_id now payload.

Definition DurableEvent : Type := EventEnvelope DurableEventPayload.

Record StoredEvent := StoredEvent_new {
  se_seq : N;
  se_event : DurableEvent;
}.

(** Field access through [Deref for StoredEvent]. *)
Definition se_id (e : StoredEvent) : EventId := ev_id (se_event e).
Definition se_session_id (e : StoredEvent) : SessionId := ev_session_id (se_event e).
Definition se_turn_id (e : StoredEvent) : option TurnId := ev_turn_id (se_event e).
Definition se_timestamp (e : StoredEvent) : DateTime := ev_timestamp (se_event e).
Definition se_payload (e : StoredEvent) : DurableEventPayload := ev_payload (se_event e).

(** The payload tests the reducers make with [matches!]. *)
Definition is_transcript_rewrite (p : DurableEventPayload) : bool :=
  match p with P_TranscriptRewritten _ _ _ _ => true | _ => false end.
Definition is_session_started (p : DurableEventPayload) : bool :=
  match p with P_SessionStarted _ => true | _ => false end.

(** ** Fingerprints *)

Definition FNV1A64_OFFSET : N := 0xcbf29ce484222325.
Definition FNV1A64_PRIME : N := 0x100000001b3.
Definition SEGMENT_SEPARATOR : N := 0xff.

Fixpoint fnv1a_update (hash : N) (bytes : list N) : N :=
  match bytes with
  | [] => hash
  | b :: bytes => fnv1a_update (wrapping_mul u64_max (N.lxor hash b) FNV1A64_PRIME) bytes
  end.

Definition as_bytes (s : string) : list N := map N_of_ascii (String.list_ascii_of_string s).

Definition hex_digit (n : N) : ascii :=
  if bool_decide (n < 10)%N then ascii_of_N (48 + n) else ascii_of_N (87 + n).

(** [k] hexadecimal digits of [n], most significant first. *)
Fixpoint hex_digits (k : nat) (n : N) : string :=
  match k with
  | O => ""
  | S k => hex_digits k (n / 16) +:+ String (hex_digit (n mod 16)) ""
  end.

(** [format!("{hash:016x}")] of a [u64]. *)
Definition hex16 (n : N) : string := hex_digits 16 n.

Definition stable_hash_hex (parts : list string) : string :=
  hex16 (foldl (λ hash part,
    fnv1a_update (fnv1a_update hash (as_bytes part)) [SEGMENT_SEPARATOR]) FNV1A64_OFFSET parts).

Definition system_prompt_fingerprint (system_prompt : string) : string :=
  hex16 (fnv1a_update FNV1A64_OFFSET (as_bytes system_prompt)).

Definition transcript_prefix_fingerprint (to_json : LlmMessage → result string string)
    (system_prompt : string) (messages : list LlmMessage) : result string string :=
  let? serialized := try_map to_json messages in
  Ok (stable_hash_hex (system_prompt :: serialized)).

(** The reference values the source's tests lock. *)
Example system_prompt_fingerprint_empty : system_prompt_fingerprint "" = "cbf29ce484222325".
Proof. vm_compute. reflexivity. Qed.
Example system_prompt_fingerprint_hello : system_prompt_fingerprint "hello" = "a430d84680aabd0b".
Proof. vm_compute. reflexivity. Qed.

(** The JSON text [serde_json] writes for [LlmMessage::user("hello")]. *)
Definition hello_json : string :=
  let q := dquote in
  "{" +:+ q +:+ "role" +:+ q +:+ ":" +:+ q +:+ "user" +:+ q +:+ "," +:+ q +:+ "content" +:+ q
  +:+ ":[{" +:+ q +:+ "type" +:+ q +:+ ":" +:+ q +:+ "text" +:+ q +:+ "," +:+ q +:+ "text" +:+ q
  +:+ ":" +:+ q +:+ "hello" +:+ q +:+ "}]}".
Example transcript_prefix_fingerprint_locked :
  transcript_prefix_fingerprint (λ _, Ok hello_json) "system" [LlmMessage_user "hello"]
  = Ok "8cadff38c396770a".
Proof. vm_compute. reflexivity. Qed.

(** *** The hash stays a 64-bit word and splits over concatenation. *)

Lemma wrapping_mul_le a b : (wrapping_mul u64_max a b ≤ u64_max)%N.
Proof.
  unfold wrapping_mul. assert (u64_max + 1 ≠ 0)%N as Hne by done.
  pose proof (N.mod_lt (a * b) (u64_max + 1) Hne). lia.
Qed.

Lemma fnv1a_update_le hash bytes : (hash ≤ u64_max → fnv1a_update hash bytes ≤ u64_max)%N.
Proof.
  revert hash; induction bytes as [|b bytes IH]; intros hash Hh; simpl; [done|].
  apply IH, wrapping_mul_le.
Qed.

Lemma fnv1a_update_app hash b1 b2 :
  fnv1a_update hash (b1 ++ b2) = fnv1a_update (fnv1a_update hash b1) b2.
Proof. revert hash; induction b1 as [|b b1 IH]; intros hash; simpl; [done|apply IH]. Qed.
