(* ===== verification/ProjViews.v ===== *)
(** * Execution state projection ([session-projection/src/execution.rs])

    Turn, step, queued input, tool call and approval state, folded from durable
    events.

    The second chapter: presentation and child agents ([presentation.rs], [agents.rs]). *)

From S2P Require Import Prelude CoreTypes CoreLlm CoreEvent.

Module execution.

Record PendingToolApprovalView := {
  pta_prompt : string;
  pta_rule_key : option string;
}.

Record PendingInput := {
  accepted_seq : N;
  input : UserInput;
  turn_id : option TurnId;
}.

Record ActiveStepView := {
  step_index : N;
  attempt : N;
  completed : bool;
  finish_reason : option string;
}.

Record SessionExecutionState := {
  phase : Phase;
  unsettled_turn_id : option TurnId;
  pending_inputs : list PendingInput;
  pending_tool_calls : gset ToolCallId;
  pending_tool_approvals : gmap ToolCallId PendingToolApprovalView;
  active_step : option ActiveStepView;
}.

(** [SessionExecutionState::default()]. *)
Definition default_state : SessionExecutionState := {|
  phase := Phase_Idle;
  unsettled_turn_id := None;
  pending_inputs := [];
  pending_tool_calls := ∅;
  pending_tool_approvals := ∅;
  active_step := None;
|}.

(** Field assignments. *)
Definition set_phase (p : Phase) (s : SessionExecutionState) : SessionExecutionState :=
  {| phase := p; unsettled_turn_id := unsettled_turn_id s; pending_inputs := pending_inputs s;
     pending_tool_calls := pending_tool_calls s;
     pending_tool_approvals := pending_tool_approvals s; active_step := active_step s |}.
Definition set_unsettled_turn_id (t : option TurnId) (s : SessionExecutionState) :=
  {| phase := phase s; unsettled_turn_id := t; pending_inputs := pending_inputs s;
     pending_tool_calls := pending_tool_calls s;
     pending_tool_approvals := pending_tool_approvals s; active_step := active_step s |}.
Definition set_pending_inputs (l : list PendingInput) (s : SessionExecutionState) :=
  {| phase := phase s; unsettled_turn_id := unsettled_turn_id s; pending_inputs := l;
     pending_tool_calls := pending_tool_calls s;
     pending_tool_approvals := pending_tool_approvals s; active_step := active_step s |}.
Definition set_pending_tool_calls (c : gset ToolCallId) (s : SessionExecutionState) :=
  {| phase := phase s; unsettled_turn_id := unsettled_turn_id s;
     pending_inputs := pending_inputs s; pending_tool_calls := c;
     pending_tool_approvals := pending_tool_approvals s; active_step := active_step s |}.
Definition set_pending_tool_approvals (m : gmap ToolCallId PendingToolApprovalView)
    (s : SessionExecutionState) :=
  {| phase := phase s; unsettled_turn_id := unsettled_turn_id s;
     pending_inputs := pending_inputs s; pending_tool_calls := pending_tool_calls s;
     pending_tool_approvals := m; active_step := active_step s |}.
Definition set_active_step (a : option ActiveStepView) (s : SessionExecutionState) :=
  {| phase := phase s; unsettled_turn_id := unsettled_turn_id s;
     pending_inputs := pending_inputs s; pending_tool_calls := pending_tool_calls s;
     pending_tool_approvals := pending_tool_approvals s; active_step := a |}.

Definition settle (s : SessionExecutionState) (p : Phase) : SessionExecutionState :=
  set_active_step None (set_pending_tool_approvals ∅ (set_pending_tool_calls ∅
    (set_unsettled_turn_id None (set_phase p s)))).

(** The shared branch of the three terminal tool events. *)
Definition apply_tool_terminal (call_id : ToolCallId) (s : SessionExecutionState) :=
  let s := set_pending_tool_calls (pending_tool_calls s ∖ {[call_id]}) s in
  let s := set_pending_tool_approvals (delete call_id (pending_tool_approvals s)) s in
  set_phase (if decide (pending_tool_calls s = ∅) then Phase_Thinking else Phase_CallingTool) s.

(** The guard of the [TurnCompleted] branch. *)
Definition settles_turn (event_turn unsettled : option TurnId) : bool :=
  bool_decide (event_turn = None) || bool_decide (unsettled = None)
  || bool_decide (event_turn = unsettled).

Definition apply_event (event : StoredEvent) (s : SessionExecutionState)
    : SessionExecutionState :=
  match se_payload event with
  | P_TurnStarted => set_unsettled_turn_id (se_turn_id event) (set_phase Phase_Thinking s)
  | P_StepStarted step_index attempt =>
    set_active_step (Some {| step_index := step_index; attempt := attempt;
                             completed := false; finish_reason := None |}) s
  | P_StepCompleted step_index' attempt' finish_reason' =>
    match active_step s with
    | Some step =>
      if bool_decide (step_index step = step_index') && bool_decide (attempt step = attempt')
      then set_active_step (Some {| step_index := step_index step; attempt := attempt step;
                                    completed := true; finish_reason := finish_reason' |}) s
      else s
    | None => s
    end
  | P_UserInputAccepted input =>
    set_pending_inputs (pending_inputs s ++
      [{| accepted_seq := se_seq event; input := input; turn_id := se_turn_id event |}]) s
  | P_UserMessage _ _ _ accepted =>
    let s := match accepted with
             | Some a => set_pending_inputs
                 (filter (λ i, accepted_seq i ≠ a) (pending_inputs s)) s
             | None => s
             end in
    set_phase Phase_Thinking s
  | P_AssistantMessageCompleted _ _ _ => set_phase Phase_Thinking s
  | P_ToolCallRequested call_id _ _ _ =>
    set_phase Phase_CallingTool (set_pending_tool_calls ({[call_id]} ∪ pending_tool_calls s) s)
  | P_ToolApprovalRequested call_id _ prompt rule_key _ _ =>
    set_phase Phase_CallingTool (set_pending_tool_approvals
      (<[call_id := {| pta_prompt := prompt; pta_rule_key := rule_key |}]>
         (pending_tool_approvals s)) s)
  | P_ToolApprovalResolved call_id _ _ =>
    set_pending_tool_approvals (delete call_id (pending_tool_approvals s)) s
  | P_ToolCallCompleted call_id _ _ _ _
  | P_ToolCallFailed call_id _ _ _ _ _ _
  | P_ToolCallCancelled call_id _ _ _ _ _ => apply_tool_terminal call_id s
  | P_TurnCompleted _ =>
    if settles_turn (se_turn_id event) (unsettled_turn_id s) then settle s Phase_Idle else s
  | P_SessionForked _ _ _ _ => settle s Phase_Idle
  | P_ErrorOccurred _ _ _ => set_phase Phase_Error s
  | _ => s
  end.

End execution.

(** * Presentation and child-agent projections
    ([session-projection/src/presentation.rs], [session-projection/src/agents.rs]) *)

Module presentation.

Inductive SessionArtifactView :=
| Artifact_Error (id message : string) (seq : N)
| Artifact_Recap (id text source : string) (seq : N).

(** [SessionArtifactView::seq]. *)
Definition artifact_seq (a : SessionArtifactView) : N :=
  match a with Artifact_Error _ _ seq | Artifact_Recap _ _ _ seq => seq end.

Record SessionPresentation := {
  first_user_message : option string;
  artifacts : list SessionArtifactView;
}.

Definition default_presentation : SessionPresentation :=
  {| first_user_message := None; artifacts := [] |}.

Definition apply_event (event : StoredEvent) (p : SessionPresentation) : SessionPresentation :=
  match se_payload event with
  | P_UserMessage _ text _ _ =>
    match first_user_message p with
    | None => {| first_user_message := Some text; artifacts := artifacts p |}
    | Some _ => p
    end
  | P_TranscriptRewritten source_seq _ _ _ =>
    {| first_user_message := first_user_message p;
       artifacts := filter (λ a, source_seq < artifact_seq a)%N (artifacts p) |}
  | P_SessionForked _ _ first _ =>
    {| first_user_message := first; artifacts := artifacts p |}
  | P_ErrorOccurred _ message _ =>
    {| first_user_message := first_user_message p;
       artifacts := artifacts p ++
         [Artifact_Error (EventId_str (se_id event)) message (se_seq event)] |}
  | P_RecapGenerated text source =>
    {| first_user_message := first_user_message p;
       artifacts := artifacts p ++
         [Artifact_Recap (EventId_str (se_id event)) text source (se_seq event)] |}
  | _ => p
  end.

End presentation.

Module agents.

Inductive AgentSessionStatus := Agent_Running | Agent_Completed | Agent_Failed.

Record AgentSessionLinkView := {
  child_session_id : SessionId;
  tool_call_id : option ToolCallId;
  agent_name : string;
  task : string;
  status : AgentSessionStatus;
  final_session_id : option SessionId;
  summary : option string;
  error : option string;
}.

(** The predicate of [find_link]. *)
Definition is_link (child : SessionId) (l : AgentSessionLinkView) : bool :=
  bool_decide (child_session_id l = child).

Definition complete_link (final : SessionId) (text : string) (l : AgentSessionLinkView) :=
  {| child_session_id := child_session_id l; tool_call_id := tool_call_id l;
     agent_name := agent_name l; task := task l; status := Agent_Completed;
     final_session_id := Some final; summary := Some text; error := None |}.

Definition fail_link (final : SessionId) (text : string) (l : AgentSessionLinkView) :=
  {| child_session_id := child_session_id l; tool_call_id := tool_call_id l;
     agent_name := agent_name l; task := task l; status := Agent_Failed;
     final_session_id := Some final; summary := None; error := Some text |}.

Definition apply_event (event : StoredEvent) (links : list AgentSessionLinkView)
    : list AgentSessionLinkView :=
  match se_payload event with
  | P_AgentSessionSpawned child name task _ call =>
    links ++ [{| child_session_id := child; tool_call_id := call; agent_name := name;
                 task := task; status := Agent_Running; final_session_id := None;
                 summary := None; error := None |}]
  | P_AgentSessionCompleted child final summary =>
    update_first (is_link child) (complete_link final summary) links
  | P_AgentSessionFailed child final error =>
    update_first (is_link child) (fail_link final error) links
  | P_AgentSessionRecycled child => filter (λ l, child_session_id l ≠ child) links
  | _ => links
  end.

End agents.
