(* ===== verification/ProjContext.v ===== *)
(** * Model context projection ([session-projection/src/model_context.rs])

    The ordered provider context, the system prompt, usage and compaction
    metadata, and the fingerprint check of transcript rewrites.  The JSON
    serialiser behind the fingerprint is the parameter [to_json]. *)

From S2P Require Import Prelude CoreTypes CoreLlm CoreEvent.

(** [ProjectionError] ([session-projection/src/error.rs]). *)
Inductive ProjectionError :=
| EmptyBatch
| SequenceOverflow
| MissingSessionStarted (session_id : SessionId)
| SessionMismatch (expected actual : SessionId)
| InvalidFirstSequence (seq : N)
| InvalidFirstEvent
| SessionStartedHasTurn
| DuplicateSessionStarted (seq : N)
| InvalidDurableCustomEventAudience (seq : N)
| NonContiguousSequence (expected actual : N)
| InvalidTranscriptRewriteSource (source_seq current_seq : N)
| TranscriptRewriteSourceFingerprintMismatch (source_seq : N) (expected actual : string)
| TranscriptFingerprintSerialization (error : string).

Module model_context.

Record CompactionView := {
  trigger : string;
  pre_tokens : N;
  post_tokens : N;
  cv_summary : string;
  transcript_path : option string;
  cv_seq : N;
  cv_source_seq : N;
  strategy : CompactStrategy;
}.

(** A provider message with the sequence number that last touched it.  The [Arc]
    is transparent here: [make_mut] gives the updated copy. *)
Record SequencedLlmMessage := {
  message : LlmMessage;
  updated_seq : N;
  origin : option TranscriptMessageOrigin;
}.

Definition plain (m : LlmMessage) (seq : N) : SequencedLlmMessage :=
  {| message := m; updated_seq := seq; origin := None |}.

Record UnansweredToolCall := {
  call_id : string;
  tool_name : string;
}.

Record ContextUsageView := {
  context_tokens : N;
  model_context_window : N;
  covered_message_count : N;
}.

Record SessionSystemPrompt := {
  text : string;
  extra : option string;
  fingerprint : string;
  source : SystemPromptSource;
}.

Record SessionModelContext := {
  messages : list SequencedLlmMessage;
  usage : option ContextUsageView;
  compactions : list CompactionView;
}.

Definition default_context : SessionModelContext :=
  {| messages := []; usage := None; compactions := [] |}.

Definition apply_tool_terminal (msgs : list SequencedLlmMessage) (id : ToolCallId)
    (name content : string) (is_error : bool) (org : option TranscriptMessageOrigin) (seq : N)
    : list SequencedLlmMessage :=
  msgs ++ [{| message := LlmMessage_tool name (ToolCallId_str id) content is_error;
              updated_seq := seq; origin := org |}].

Definition rewritten_entry (seq : N) (entry : TranscriptMessage) : SequencedLlmMessage :=
  {| message := tm_message entry; updated_seq := seq; origin := tm_origin entry |}.

Definition apply_transcript_rewrite (current : list SequencedLlmMessage)
    (rewritten : list TranscriptMessage) (source_seq : N) : list SequencedLlmMessage :=
  map (rewritten_entry source_seq) rewritten
  ++ filter (λ m, source_seq < updated_seq m)%N current.

(** The [ToolCallRequested] branch: extend the last assistant message, or start one. *)
Definition push_tool_call (msgs : list SequencedLlmMessage) (c : LlmContent) (seq : N)
    : list SequencedLlmMessage :=
  match last msgs with
  | Some l =>
    if decide (role (message l) = Role_Assistant) then
      take (length msgs - 1) msgs ++
        [{| message := {| role := role (message l); content := content (message l) ++ [c];
                          name := name (message l);
                          reasoning_content := reasoning_content (message l) |};
            updated_seq := seq; origin := origin l |}]
    else msgs ++ [plain {| role := Role_Assistant; content := [c];
                           name := None; reasoning_content := None |} seq]
  | None => msgs ++ [plain {| role := Role_Assistant; content := [c];
                              name := None; reasoning_content := None |} seq]
  end.

(** [apply_provider_event] on the pair of the system prompt text and the messages. *)
Definition apply_provider_event (event : StoredEvent)
    (st : string * list SequencedLlmMessage) : string * list SequencedLlmMessage :=
  let '(system_prompt, msgs) := st in
  let seq := se_seq event in
  match se_payload event with
  | P_SystemPromptConfigured text _ _ _ => (text, msgs)
  | P_UserMessage _ text attachments _ =>
    (system_prompt, msgs ++ [plain (user_with_attachments text attachments) seq])
  | P_TurnAbortedContext =>
    (system_prompt, msgs ++ [{| message := turn_aborted_context_message; updated_seq := seq;
                                origin := Some Origin_TurnAborted |}])
  | P_AssistantMessageCompleted _ text reasoning =>
    (system_prompt, msgs ++ [plain {| role := Role_Assistant; content := [Content_Text text];
                                      name := None; reasoning_content := reasoning |} seq])
  | P_ToolCallRequested id nm arguments raw =>
    (system_prompt,
     push_tool_call msgs (Content_ToolCall (ToolCallId_str id) nm arguments raw) seq)
  | P_ToolCallCompleted id nm result _ _ =>
    (system_prompt,
     apply_tool_terminal msgs id nm (tr_content result) (tr_is_error result) None seq)
  | P_ToolCallFailed id nm error _ _ _ _ =>
    (system_prompt, apply_tool_terminal msgs id nm error true (Some Origin_ToolCallFailed) seq)
  | P_ToolCallCancelled id nm reason _ _ _ =>
    (system_prompt, apply_tool_terminal msgs id nm ("Tool cancelled: " +:+ reason) true
                      (Some Origin_ToolCallCancelled) seq)
  | P_TranscriptRewritten source_seq _ rewritten _ =>
    (system_prompt, apply_transcript_rewrite msgs rewritten source_seq)
  | P_SessionForked _ _ _ forked => (system_prompt, map (rewritten_entry seq) forked)
  | _ => (system_prompt, msgs)
  end.

Definition compaction_view (seq source_seq : N) (d : CompactionDetails) : CompactionView :=
  {| trigger := cd_trigger d; pre_tokens := cd_pre_tokens d; post_tokens := cd_post_tokens d;
     cv_summary := cd_summary d; transcript_path := cd_transcript_path d;
     cv_seq := seq; cv_source_seq := source_seq; strategy := cd_strategy d |}.

(** [model_context::apply_event]. *)
Definition apply_event (event : StoredEvent) (st : SessionSystemPrompt * SessionModelContext)
    : SessionSystemPrompt * SessionModelContext :=
  let '(prompt, context) := st in
  let '(prompt_text, msgs) := apply_provider_event event (text prompt, messages context) in
  let prompt := {| text := prompt_text; extra := extra prompt;
                   fingerprint := fingerprint prompt; source := source prompt |} in
  let context := {| messages := msgs; usage := usage context;
                    compactions := compactions context |} in
  let no_usage := {| messages := messages context; usage := None;
                     compactions := compactions context |} in
  match se_payload event with
  | P_ModelIdChanged _ | P_SessionToolsConfigured _ | P_SessionForked _ _ _ _ =>
    (prompt, no_usage)
  | P_SystemPromptConfigured _ fp ex src =>
    ({| text := text prompt; extra := ex; fingerprint := fp; source := src |}, no_usage)
  | P_TranscriptRewritten source_seq _ _ (Rewrite_Compaction details) =>
    (prompt, {| messages := messages context; usage := None;
                compactions := compactions context
                  ++ [compaction_view (se_seq event) source_seq details] |})
  | P_TokenUsageRecorded u window =>
    match context_tokens_after_response u ≫= usize_try_from with
    | Some tokens =>
      (prompt, {| messages := messages context;
                  usage := Some {| context_tokens := tokens; model_context_window := window;
                                   covered_message_count :=
                                     N.of_nat (length (messages context)) |};
                  compactions := compactions context |})
    | None => (prompt, context)
    end
  | _ => (prompt, context)
  end.

(** *** Fingerprint validation *)

Section fingerprint.
Context (to_json : LlmMessage → result string string).

Definition validate_rewrite_fingerprint_against (event : DurableEvent) (system_prompt : string)
    (msgs : list SequencedLlmMessage) : result () ProjectionError :=
  match ev_payload event with
  | P_TranscriptRewritten source_seq expected _ _ =>
    let prefix := provider_transcript
      (map message (filter (λ m, updated_seq m ≤ source_seq)%N msgs)) in
    let? actual := map_err TranscriptFingerprintSerialization
      (transcript_prefix_fingerprint to_json system_prompt prefix) in
    if bool_decide (actual = expected) then Ok ()
    else Err (TranscriptRewriteSourceFingerprintMismatch source_seq expected actual)
  | _ => Ok ()
  end.

Definition validate_rewrite_fingerprint (event : DurableEvent)
    (st : SessionSystemPrompt * SessionModelContext) : result () ProjectionError :=
  validate_rewrite_fingerprint_against event (text (fst st)) (messages (snd st)).

(** [ModelContextValidationState]: the narrow state a batch is validated on. *)
Definition ModelContextValidationState : Type := string * list SequencedLlmMessage.

Definition validation_state_new (st : SessionSystemPrompt * SessionModelContext)
    : ModelContextValidationState :=
  (text (fst st), messages (snd st)).

Definition validate_and_apply (st : ModelContextValidationState) (event : StoredEvent)
    : result ModelContextValidationState ProjectionError :=
  let? _ := validate_rewrite_fingerprint_against (se_event event) (fst st) (snd st) in
  Ok (apply_provider_event event st).
End fingerprint.

(** *** Queries *)

(** The scan of [requested_tool_calls] over the content blocks of assistant
    messages; [seen] holds the ids already reported. *)
Fixpoint requested_in_blocks (ids : gset ToolCallId) (seen : gset string)
    (cs : list LlmContent) : list UnansweredToolCall :=
  match cs with
  | [] => []
  | Content_ToolCall id nm _ _ :: cs =>
    if bool_decide (ToolCallId_new id ∈ ids) && negb (bool_decide (id ∈ seen))
    then {| call_id := id; tool_name := nm |} :: requested_in_blocks ids ({[id]} ∪ seen) cs
    else requested_in_blocks ids seen cs
  | _ :: cs => requested_in_blocks ids seen cs
  end.

Definition assistant_blocks (msgs : list SequencedLlmMessage) : list LlmContent :=
  concat (map (λ m, content (message m))
    (filter (λ m, role (message m) = Role_Assistant) msgs)).

Definition requested_tool_calls (c : SessionModelContext) (ids : gset ToolCallId)
    : list UnansweredToolCall :=
  requested_in_blocks ids ∅ (assistant_blocks (messages c)).

Definition calls_tools (m : SequencedLlmMessage) : bool :=
  bool_decide (role (message m) = Role_Assistant)
  && existsb is_tool_call (content (message m)).

(** The [filter_map] with its [seen] set. *)
Fixpoint unanswered_in_blocks (answered seen : gset string) (cs : list LlmContent)
    : list UnansweredToolCall :=
  match cs with
  | [] => []
  | Content_ToolCall id nm _ _ :: cs =>
    if negb (bool_decide (id ∈ answered)) && negb (bool_decide (id ∈ seen))
    then {| call_id := id; tool_name := nm |}
         :: unanswered_in_blocks answered ({[id]} ∪ seen) cs
    else unanswered_in_blocks answered seen cs
  | _ :: cs => unanswered_in_blocks answered seen cs
  end.

(** The ids answered by the messages after the last calling assistant message; [None]
    when one of them is not a tool message. *)
Fixpoint answered_ids (msgs : list SequencedLlmMessage) : option (gset string) :=
  match msgs with
  | [] => Some ∅
  | m :: msgs =>
    if decide (role (message m) = Role_Tool) then
      rest ← answered_ids msgs;
      Some (list_to_set (omap tool_result_id_of (content (message m))) ∪ rest)
    else None
  end.

Definition tail_unanswered_tool_calls (c : SessionModelContext) : list UnansweredToolCall :=
  match rposition calls_tools (messages c) with
  | None => []
  | Some i =>
    match messages c !! i, answered_ids (drop (S i) (messages c)) with
    | Some assistant, Some answered =>
      unanswered_in_blocks answered ∅ (content (message assistant))
    | _, _ => []
    end
  end.

End model_context.
