(* ===== verification/ProjReducer.v ===== *)
(** * Session read model and reducer
    ([session-projection/src/model.rs], [session-projection/src/reducer.rs])

    Event validation, the read model and its fan-out to the component
    projections, batch preparation, the incremental projections and replay.
    Parameters: [to_json] ([serde_json::to_string] on a message) and [to_rfc3339]
    ([chrono]'s rendering of an instant). *)

From S2P Require Import Prelude CoreTypes CoreLlm CoreEvent ProjViews ProjContext.

(** ** Read model *)

Record ForkSourceRef := {
  fork_session_id : SessionId;
  fork_cursor : Cursor;
}.

Record SessionIdentity := {
  session_id : SessionId;
  working_dir : string;
  model_id : string;
  parent : option ParentSessionRef;
  forked_from : option ForkSourceRef;
  tool_selection : SessionToolSelection;
  source_extension : option string;
}.

Record SessionEventStats := {
  created_at : DateTime;
  updated_at : DateTime;
  last_seq : N;
  event_count : N;
}.

Record SessionReadModel := {
  identity : SessionIdentity;
  stats : SessionEventStats;
  system_prompt : model_context.SessionSystemPrompt;
  model_ctx : model_context.SessionModelContext;
  presentation_ : presentation.SessionPresentation;
  execution_ : execution.SessionExecutionState;
  agent_sessions : list agents.AgentSessionLinkView;
}.

(** [SessionReadModel::from_started]. *)
Definition from_started (sid : SessionId) (started : SessionStarted) (timestamp : DateTime)
    : SessionReadModel :=
  let prompt := st_initial_system_prompt started in
  {| identity := {| session_id := sid; working_dir := st_working_dir started;
                    model_id := st_model_id started; parent := st_parent started;
                    forked_from := None; tool_selection := st_tool_selection started;
                    source_extension := st_source_extension started |};
     stats := {| created_at := timestamp; updated_at := timestamp;
                 last_seq := 0; event_count := 1 |};
     system_prompt := {| model_context.text := psp_text prompt;
                         model_context.extra := psp_extra_system_prompt prompt;
                         model_context.fingerprint := psp_fingerprint prompt;
                         model_context.source := psp_source prompt |};
     model_ctx := model_context.default_context;
     presentation_ := presentation.default_presentation;
     execution_ := execution.default_state;
     agent_sessions := [] |}.

Definition has_messages (m : SessionReadModel) : bool :=
  negb (Nat.eqb (length (model_context.messages (model_ctx m))) 0).

(** [u64::to_string]. *)
Definition u64_to_string (n : N) : string := pretty n.

Definition cursor (m : SessionReadModel) : Cursor := u64_to_string (last_seq (stats m)).

Definition first_user_message (m : SessionReadModel) : option string :=
  presentation.first_user_message (presentation_ m).

(** The second loop of [tool_calls_needing_interruption]. *)
Fixpoint push_unseen (seen : gset string) (calls : list model_context.UnansweredToolCall)
    : list model_context.UnansweredToolCall :=
  match calls with
  | [] => []
  | c :: calls =>
    if bool_decide (model_context.call_id c ∈ seen) then push_unseen seen calls
    else c :: push_unseen ({[model_context.call_id c]} ∪ seen) calls
  end.

Definition tool_calls_needing_interruption (m : SessionReadModel)
    : list model_context.UnansweredToolCall :=
  let calls := model_context.requested_tool_calls (model_ctx m)
                 (execution.pending_tool_calls (execution_ m)) in
  calls ++ push_unseen (list_to_set (map model_context.call_id calls))
             (model_context.tail_unanswered_tool_calls (model_ctx m)).

Record SessionSummary := {
  sum_session_id : SessionId;
  sum_created_at : string;
  sum_updated_at : string;
  sum_working_dir : string;
  sum_model_id : string;
  sum_parent_session_id : option SessionId;
  sum_phase : Phase;
  sum_latest_cursor : Cursor;
  sum_first_user_message : option string;
  sum_source_extension : option string;
}.

(** ** Validation *)

Definition validate_next_event_details (seq : N) (event : DurableEvent)
    (expected_session_id : SessionId) (current_seq : N) : result () ProjectionError :=
  if bool_decide (ev_session_id event ≠ expected_session_id) then
    Err (SessionMismatch expected_session_id (ev_session_id event))
  else if is_session_started (ev_payload event) then
    Err (DuplicateSessionStarted seq)
  else if match ev_payload event with
          | P_CustomEvent e => bool_decide (ce_audience e ≠ Audience_Session)
          | _ => false
          end then
    Err (InvalidDurableCustomEventAudience seq)
  else
    let? _ := match ev_payload event with
              | P_TranscriptRewritten source_seq _ _ _ =>
                if bool_decide (current_seq < source_seq)%N
                then Err (InvalidTranscriptRewriteSource source_seq current_seq)
                else Ok ()
              | _ => Ok ()
              end in
    let? expected_seq := ok_or (checked_add u64_max current_seq 1) SequenceOverflow in
    if bool_decide (seq ≠ expected_seq) then Err (NonContiguousSequence expected_seq seq)
    else Ok ().

Definition validate_first_event (event : StoredEvent) : result () ProjectionError :=
  if bool_decide (se_seq event ≠ 0%N) then Err (InvalidFirstSequence (se_seq event))
  else if match se_turn_id event with Some _ => true | None => false end
  then Err SessionStartedHasTurn
  else if negb (is_session_started (se_payload event)) then Err InvalidFirstEvent
  else Ok ().

(** ** Reduction *)

(** The identity updates of [apply_validated_event]. *)
Definition apply_identity (p : DurableEventPayload) (i : SessionIdentity) : SessionIdentity :=
  match p with
  | P_ModelIdChanged m =>
    {| session_id := session_id i; working_dir := working_dir i; model_id := m;
       parent := parent i; forked_from := forked_from i; tool_selection := tool_selection i;
       source_extension := source_extension i |}
  | P_SessionToolsConfigured sel =>
    {| session_id := session_id i; working_dir := working_dir i; model_id := model_id i;
       parent := parent i; forked_from := forked_from i; tool_selection := sel;
       source_extension := source_extension i |}
  | P_SessionForked src cur _ _ =>
    {| session_id := session_id i; working_dir := working_dir i; model_id := model_id i;
       parent := parent i;
       forked_from := Some {| fork_session_id := src; fork_cursor := cur |};
       tool_selection := tool_selection i; source_extension := source_extension i |}
  | _ => i
  end.

Definition apply_validated_event (event : StoredEvent) (m : SessionReadModel)
    : SessionReadModel :=
  let pc := model_context.apply_event event (system_prompt m, model_ctx m) in
  {| identity := apply_identity (se_payload event) (identity m);
     stats := {| created_at := created_at (stats m); updated_at := se_timestamp event;
                 last_seq := se_seq event;
                 event_count := wrapping_add usize_max (event_count (stats m)) 1 |};
     system_prompt := fst pc;
     model_ctx := snd pc;
     presentation_ := presentation.apply_event event (presentation_ m);
     execution_ := execution.apply_event event (execution_ m);
     agent_sessions := agents.apply_event event (agent_sessions m) |}.

Section reducer.
Context (to_json : LlmMessage → result string string) (to_rfc3339 : DateTime → string).

Definition to_summary (m : SessionReadModel) : SessionSummary :=
  {| sum_session_id := session_id (identity m);
     sum_created_at := to_rfc3339 (created_at (stats m));
     sum_updated_at := to_rfc3339 (updated_at (stats m));
     sum_working_dir := working_dir (identity m);
     sum_model_id := model_id (identity m);
     sum_parent_session_id := parent_session_id <$> parent (identity m);
     sum_phase := execution.phase (execution_ m);
     sum_latest_cursor := cursor m;
     sum_first_user_message := first_user_message m;
     sum_source_extension := source_extension (identity m) |}.

Definition validate_next_event (seq : N) (event : DurableEvent) (m : SessionReadModel)
    : result () ProjectionError :=
  let? _ := validate_next_event_details seq event (session_id (identity m))
              (last_seq (stats m)) in
  model_context.validate_rewrite_fingerprint to_json event (system_prompt m, model_ctx m).

Definition reduce (m : SessionReadModel) (event : StoredEvent)
    : result SessionReadModel ProjectionError :=
  let? _ := validate_next_event (se_seq event) (se_event event) m in
  Ok (apply_validated_event event m).

(** ** Batches *)

Record PreparedProjectionBatch := {
  first_seq : N;
  batch_events : list StoredEvent;
}.

(** The numbering loop: [index] is the event's position in the batch. *)
Fixpoint number_events (first index : N) (events : list DurableEvent)
    : result (list StoredEvent) ProjectionError :=
  match events with
  | [] => Ok []
  | e :: events =>
    let? offset := ok_or (u64_try_from index) SequenceOverflow in
    let? seq := ok_or (checked_add u64_max first offset) SequenceOverflow in
    let? rest := number_events first (index + 1) events in
    Ok (StoredEvent_new seq e :: rest)
  end.

(** One iteration of the validation loop: the current sequence number and, when
    the batch rewrites the transcript, the narrow context state. *)
Definition prepare_step (sid : SessionId)
    (st : N * option model_context.ModelContextValidationState) (event : StoredEvent)
    : result (N * option model_context.ModelContextValidationState) ProjectionError :=
  let? _ := validate_next_event_details (se_seq event) (se_event event) sid (fst st) in
  match snd st with
  | Some c =>
    let? c := model_context.validate_and_apply to_json c event in
    Ok (se_seq event, Some c)
  | None => Ok (se_seq event, None)
  end.

Definition prepare (m : SessionReadModel) (events : list DurableEvent)
    : result PreparedProjectionBatch ProjectionError :=
  if Nat.eqb (length events) 0 then Err EmptyBatch
  else
    let? first := ok_or (checked_add u64_max (last_seq (stats m)) 1) SequenceOverflow in
    let? stored := number_events first 0 events in
    let ctx := if existsb (λ e, is_transcript_rewrite (se_payload e)) stored
               then Some (model_context.validation_state_new (system_prompt m, model_ctx m))
               else None in
    let? _ := try_fold (prepare_step (session_id (identity m)))
                (last_seq (stats m), ctx) stored in
    Ok {| first_seq := first; batch_events := stored |}.

(** [PreparedProjectionBatch::apply_to_model]: the new model and the events. *)
Definition apply_to_model (b : PreparedProjectionBatch) (m : SessionReadModel)
    : SessionReadModel * list StoredEvent :=
  (foldl (λ m e, apply_validated_event e m) m (batch_events b), batch_events b).

(** ** Incremental projections *)

Record SessionReadModelProjection := {
  rp_session_id : SessionId;
  rp_model : option SessionReadModel;
}.

Definition read_projection_new (sid : SessionId) : SessionReadModelProjection :=
  {| rp_session_id := sid; rp_model := None |}.

Definition read_projection_apply (p : SessionReadModelProjection) (event : StoredEvent)
    : result SessionReadModelProjection ProjectionError :=
  if bool_decide (se_session_id event ≠ rp_session_id p) then
    Err (SessionMismatch (rp_session_id p) (se_session_id event))
  else
    match rp_model p with
    | Some m =>
      let? m := reduce m event in
      Ok {| rp_session_id := rp_session_id p; rp_model := Some m |}
    | None =>
      let? _ := validate_first_event event in
      match se_payload event with
      | P_SessionStarted started =>
        Ok {| rp_session_id := rp_session_id p;
              rp_model := Some (from_started (rp_session_id p) started (se_timestamp event)) |}
      | _ => Err InvalidFirstEvent
      end
    end.

Definition read_projection_snapshot (p : SessionReadModelProjection)
    : result SessionReadModel ProjectionError :=
  ok_or (rp_model p) (MissingSessionStarted (rp_session_id p)).

Record SessionSummaryProjection := {
  sp_session_id : SessionId;
  sp_summary : option SessionSummary;
  sp_execution : execution.SessionExecutionState;
  sp_last_seq : N;
}.

Definition summary_projection_new (sid : SessionId) : SessionSummaryProjection :=
  {| sp_session_id := sid; sp_summary := None;
     sp_execution := execution.default_state; sp_last_seq := 0 |}.

(** The field updates of [SessionSummaryProjection::apply] after validation. *)
Definition update_summary (event : StoredEvent) (phase : Phase) (s : SessionSummary)
    : SessionSummary :=
  {| sum_session_id := sum_session_id s;
     sum_created_at := sum_created_at s;
     sum_updated_at := to_rfc3339 (se_timestamp event);
     sum_working_dir := sum_working_dir s;
     sum_model_id := match se_payload event with
                     | P_ModelIdChanged m => m
                     | _ => sum_model_id s
                     end;
     sum_parent_session_id := sum_parent_session_id s;
     sum_phase := phase;
     sum_latest_cursor := u64_to_string (se_seq event);
     sum_first_user_message :=
       match se_payload event with
       | P_UserMessage _ text _ _ =>
         match sum_first_user_message s with None => Some text | Some t => Some t end
       | P_SessionForked _ _ first _ => first
       | _ => sum_first_user_message s
       end;
     sum_source_extension := sum_source_extension s |}.

Definition summary_projection_apply (p : SessionSummaryProjection) (event : StoredEvent)
    : result SessionSummaryProjection ProjectionError :=
  if bool_decide (se_session_id event ≠ sp_session_id p) then
    Err (SessionMismatch (sp_session_id p) (se_session_id event))
  else
    match sp_summary p with
    | None =>
      let? _ := validate_first_event event in
      match se_payload event with
      | P_SessionStarted started =>
        Ok {| sp_session_id := sp_session_id p;
              sp_summary := Some (to_summary
                (from_started (sp_session_id p) started (se_timestamp event)));
              sp_execution := sp_execution p;
              sp_last_seq := se_seq event |}
      | _ => Err InvalidFirstEvent
      end
    | Some s =>
      let? _ := validate_next_event_details (se_seq event) (se_event event)
                  (sp_session_id p) (sp_last_seq p) in
      let ex := execution.apply_event event (sp_execution p) in
      Ok {| sp_session_id := sp_session_id p;
            sp_summary := Some (update_summary event (execution.phase ex) s);
            sp_execution := ex;
            sp_last_seq := se_seq event |}
    end.

Definition summary_projection_snapshot (p : SessionSummaryProjection)
    : result SessionSummary ProjectionError :=
  ok_or (sp_summary p) (MissingSessionStarted (sp_session_id p)).

Definition replay (sid : SessionId) (events : list StoredEvent)
    : result SessionReadModel ProjectionError :=
  let? p := try_fold read_projection_apply (read_projection_new sid) events in
  read_projection_snapshot p.
End reducer.
