(* ===== verification/ProjReplay.v ===== *)
(** * Event-sourcing theorems of the session projection

    Batch preparation is equivalent to reducing the events one by one, and appending a
    prepared batch keeps the log replayable, with the in-memory model as its replay.

    The second chapter: which logs replay, and the summary projection. *)

From S2P Require Import Prelude CoreTypes CoreLlm CoreEvent ProjViews ProjContext ProjReducer.

(** ** Specifications *)

(** Consecutive numbering from [n]. *)
Fixpoint numbered (n : N) (events : list DurableEvent) : list StoredEvent :=
  match events with
  | [] => []
  | e :: events => StoredEvent_new n e :: numbered (n + 1) events
  end.

(** A payload a session may record after its first event (apart from the rewrite
    conditions): not a second [SessionStarted], and custom events only for the
    session. *)
Definition recordable (p : DurableEventPayload) : bool :=
  match p with
  | P_SessionStarted _ => false
  | P_CustomEvent e => bool_decide (ce_audience e = Audience_Session)
  | _ => true
  end.

(** A well-formed log: a session-level [SessionStarted] with number 0, then
    recordable events of the same session with consecutive numbers. *)
Definition well_formed_log (sid : SessionId) (events : list StoredEvent) : Prop :=
  ∃ e0 rest started, events = e0 :: rest ∧
    se_payload e0 = P_SessionStarted started ∧ se_turn_id e0 = None ∧
    map se_seq events = map N.of_nat (seq 0 (length events)) ∧
    (N.of_nat (length rest) ≤ u64_max)%N ∧
    Forall (λ e, se_session_id e = sid) events ∧
    Forall (λ e, recordable (se_payload e) = true) rest.

(** ** Lemmas *)

Lemma numbered_app n l1 l2 :
  numbered n (l1 ++ l2) = numbered n l1 ++ numbered (n + N.of_nat (length l1)) l2.
Proof.
  revert n; induction l1 as [|e l1 IH]; intros n; simpl; [by rewrite N.add_0_r|].
  rewrite IH. by replace (n + 1 + N.of_nat (length l1))%N
    with (n + N.pos (Pos.of_succ_nat (length l1)))%N by lia.
Qed.

Lemma number_events_Ok first index events :
  (first + index + N.of_nat (length events) ≤ u64_max + 1)%N → (index ≤ u64_max)%N →
  number_events first index events = Ok (numbered (first + index) events).
Proof.
  revert index; induction events as [|e events IH]; intros index Hle Hi; simpl; [done|].
  simpl in Hle. unfold u64_try_from. rewrite bool_decide_true by done. simpl.
  unfold checked_add. rewrite bool_decide_true by lia. simpl.
  destruct events as [|e' events]; [done|].
  rewrite IH by (simpl in *; lia). by rewrite N.add_assoc.
Qed.

Lemma number_events_inv first index events stored :
  number_events first index events = Ok stored →
  stored = numbered (first + index) events ∧
  (events ≠ [] → first + index + N.of_nat (length events) ≤ u64_max + 1)%N.
Proof.
  revert index stored; induction events as [|e events IH]; intros index stored; simpl.
  { by intros [= <-]. }
  destruct (u64_try_from index) as [o|] eqn:Ho; simpl; [|done].
  destruct (checked_add u64_max first o) as [s|] eqn:Hs; simpl; [|done].
  destruct (number_events first (index + 1) events) as [rest|] eqn:Hr; [|done].
  intros [= <-]. apply IH in Hr as [-> Hle].
  unfold u64_try_from in Ho. case_bool_decide; [|done]. injection Ho as <-.
  apply checked_add_Some in Hs as [-> Hle'].
  split; [by rewrite N.add_assoc|]. intros _.
  destruct events; simpl in *; [lia|]. specialize (Hle ltac:(done)). lia.
Qed.

(** What an accepted event does to the parts of the model validation reads. *)

Lemma apply_session_id e m :
  session_id (identity (apply_validated_event e m)) = session_id (identity m).
Proof. unfold apply_validated_event, apply_identity. simpl. by destruct (se_payload e). Qed.

Lemma apply_last_seq e m : last_seq (stats (apply_validated_event e m)) = se_seq e.
Proof. done. Qed.

(** [model_context.apply_event] acts on the provider state as
    [apply_provider_event]. *)
Lemma context_provider_state e st :
  let st' := model_context.apply_event e st in
  (model_context.text (fst st'), model_context.messages (snd st'))
  = model_context.apply_provider_event e
      (model_context.text (fst st), model_context.messages (snd st)).
Proof.
  destruct st as [p c]. unfold model_context.apply_event. simpl.
  destruct (model_context.apply_provider_event e
    (model_context.text p, model_context.messages c)) as [t msgs].
  destruct (se_payload e); simpl; try done; repeat case_match; done.
Qed.

Lemma not_rewrite_fingerprint to_json e t msgs :
  is_transcript_rewrite (ev_payload e) = false →
  model_context.validate_rewrite_fingerprint_against to_json e t msgs = Ok ().
Proof. unfold model_context.validate_rewrite_fingerprint_against. by destruct (ev_payload e). Qed.

(** Success of the structural validation. *)
Lemma validate_details_Ok seq e sid cur :
  validate_next_event_details seq e sid cur = Ok () ↔
  ev_session_id e = sid ∧ recordable (ev_payload e) = true ∧
  seq = (cur + 1)%N ∧ (cur + 1 ≤ u64_max)%N ∧
  match ev_payload e with P_TranscriptRewritten s _ _ _ => (s ≤ cur)%N | _ => True end.
Proof.
  unfold validate_next_event_details, recordable, is_session_started.
  destruct (decide (ev_session_id e = sid)) as [Hs|Hs].
  2:{ rewrite bool_decide_true by done. naive_solver. }
  rewrite bool_decide_false by (intros ?; done).
  assert ((let? expected_seq := ok_or (checked_add u64_max cur 1) SequenceOverflow in
      if bool_decide (seq ≠ expected_seq) then Err (NonContiguousSequence expected_seq seq)
      else Ok ()) = Ok ()
     ↔ seq = (cur + 1)%N ∧ (cur + 1 ≤ u64_max)%N) as Hseq.
  { unfold ok_or, checked_add.
    case_bool_decide; [|naive_solver lia]. case_bool_decide; naive_solver. }
  destruct (ev_payload e) eqn:Hp; simpl; try (rewrite Hseq; naive_solver).
  - naive_solver.
  - case_bool_decide; [naive_solver lia|]. rewrite Hseq. naive_solver lia.
  - destruct (decide (ce_audience event = Audience_Session)) as [Ha|Ha].
    + rewrite (bool_decide_false (ce_audience event ≠ _)) by (intros ?; done).
      rewrite (bool_decide_true (ce_audience event = _)) by done.
      rewrite Hseq. naive_solver.
    + rewrite (bool_decide_true (ce_audience event ≠ _)) by done.
      rewrite (bool_decide_false (ce_audience event = _)) by done. naive_solver.
Qed.

Section replay.
Context (to_json : LlmMessage → result string string).

Lemma reduce_Ok m e m' :
  reduce to_json m e = Ok m' ↔
  validate_next_event_details (se_seq e) (se_event e) (session_id (identity m))
    (last_seq (stats m)) = Ok () ∧
  model_context.validate_rewrite_fingerprint to_json (se_event e) (system_prompt m, model_ctx m)
    = Ok () ∧
  m' = apply_validated_event e m.
Proof.
  unfold reduce, validate_next_event.
  destruct (validate_next_event_details _ _ _ _) as [[]|]; [|naive_solver].
  destruct (model_context.validate_rewrite_fingerprint _ _ _) as [[]|]; naive_solver.
Qed.

Lemma reduce_session_id m e m' :
  reduce to_json m e = Ok m' → session_id (identity m') = session_id (identity m).
Proof. intros (_ & _ & ->)%reduce_Ok. apply apply_session_id. Qed.

(** Reducing a list of accepted events is applying them. *)
Lemma reduce_all_foldl m es m' :
  try_fold (reduce to_json) m es = Ok m' →
  m' = foldl (λ m e, apply_validated_event e m) m es.
Proof.
  revert m; induction es as [|e es IH]; intros m; simpl; [by intros [= ->]|].
  destruct (reduce to_json m e) as [m1|] eqn:Hr; [|done].
  apply reduce_Ok in Hr as (_ & _ & ->). apply IH.
Qed.

(** The narrow validation state agrees with the model. *)
Definition narrow_agrees (ctx : option model_context.ModelContextValidationState)
    (m : SessionReadModel) (es : list StoredEvent) : Prop :=
  match ctx with
  | Some c => c = model_context.validation_state_new (system_prompt m, model_ctx m)
  | None => existsb (λ e, is_transcript_rewrite (se_payload e)) es = false
  end.

Lemma prepare_loop_reduce m es ctx :
  narrow_agrees ctx m es →
  match try_fold (reduce to_json) m es with
  | Ok m' => ∃ ctx', try_fold (prepare_step to_json (session_id (identity m)))
      (last_seq (stats m), ctx) es = Ok (last_seq (stats m'), ctx')
  | Err err => try_fold (prepare_step to_json (session_id (identity m)))
      (last_seq (stats m), ctx) es = Err err
  end.
Proof.
  revert m ctx; induction es as [|e es IH]; intros m ctx Hctx; simpl; [eauto|].
  unfold reduce at 1, validate_next_event, prepare_step at 1. simpl.
  unfold prepare_step at 2. simpl.
  destruct (validate_next_event_details (se_seq e) (se_event e) (session_id (identity m))
    (last_seq (stats m))) as [[]|err]; [|done].
  rewrite <-(apply_session_id e m).
  change (se_seq e) with (last_seq (stats (apply_validated_event e m))).
  destruct ctx as [c|]; simpl in Hctx.
  - subst c. unfold model_context.validate_and_apply, model_context.validate_rewrite_fingerprint.
    simpl. destruct (model_context.validate_rewrite_fingerprint_against _ _ _ _) as [[]|err];
      [|done].
    apply IH. unfold narrow_agrees, model_context.validation_state_new.
    symmetry. apply (context_provider_state e (system_prompt m, model_ctx m)).
  - apply orb_false_iff in Hctx as [He Hes].
    unfold model_context.validate_rewrite_fingerprint.
    rewrite not_rewrite_fingerprint by done. by apply IH.
Qed.

(** A prepared batch is the consecutive numbering of its events. *)
Lemma prepare_Ok m events b :
  prepare to_json m events = Ok b →
  events ≠ [] ∧ first_seq b = (last_seq (stats m) + 1)%N ∧
  batch_events b = numbered (first_seq b) events ∧
  try_fold (reduce to_json) m (batch_events b) = Ok (fst (apply_to_model b m)).
Proof.
  unfold prepare. destruct events as [|e0 events]; [done|]. simpl Nat.eqb. cbv iota.
  destruct (checked_add u64_max (last_seq (stats m)) 1) as [first|] eqn:Hf; simpl ok_or; [|done].
  cbv iota beta. apply checked_add_Some in Hf as [-> Hle].
  destruct (number_events _ 0 (e0 :: events)) as [stored|] eqn:Hn; [|done].
  apply number_events_inv in Hn as [-> _]. rewrite N.add_0_r.
  set (stored := numbered _ _).
  pose proof (prepare_loop_reduce m stored
    (if existsb (λ e, is_transcript_rewrite (se_payload e)) stored
     then Some (model_context.validation_state_new (system_prompt m, model_ctx m))
     else None)) as Hloop.
  destruct (try_fold (prepare_step _ _) _ stored) as [[cur ctx']|err] eqn:Hp; [|done].
  intros [= <-]. split_and!; [done..|]. unfold apply_to_model. cbn [fst batch_events].
  destruct (try_fold (reduce to_json) m stored) as [m'|err] eqn:Hr.
  - f_equal. by apply reduce_all_foldl.
  - discriminate Hloop. unfold narrow_agrees. by destruct (existsb _ stored) eqn:?.
Qed.

(** Once a model exists, the read projection is [reduce]. *)
Lemma read_projection_reduce sid m es :
  session_id (identity m) = sid →
  try_fold (read_projection_apply to_json)
    {| rp_session_id := sid; rp_model := Some m |} es
  = let? m' := try_fold (reduce to_json) m es in
    Ok {| rp_session_id := sid; rp_model := Some m' |}.
Proof.
  revert m; induction es as [|e es IH]; intros m Hsid; simpl; [done|].
  unfold read_projection_apply at 1. simpl.
  destruct (decide (se_session_id e = sid)) as [He|He].
  - rewrite bool_decide_false by (intros ?; done).
    destruct (reduce to_json m e) as [m1|err] eqn:Hr; [|done].
    apply IH. by rewrite (reduce_session_id _ _ _ Hr).
  - rewrite bool_decide_true by done.
    unfold reduce, validate_next_event, validate_next_event_details.
    rewrite bool_decide_true by (rewrite Hsid; done). by rewrite Hsid.
Qed.

Lemma replay_cons_Ok sid e0 es m :
  replay to_json sid (e0 :: es) = Ok m ↔
  ∃ started, se_payload e0 = P_SessionStarted started ∧ se_seq e0 = 0%N ∧
    se_turn_id e0 = None ∧ se_session_id e0 = sid ∧
    try_fold (reduce to_json) (from_started sid started (se_timestamp e0)) es = Ok m.
Proof.
  unfold replay. simpl. unfold read_projection_apply at 1, validate_first_event. simpl.
  destruct (decide (se_session_id e0 = sid)) as [He|He].
  2:{ rewrite bool_decide_true by done. naive_solver. }
  rewrite bool_decide_false by (intros ?; done).
  destruct (decide (se_seq e0 = 0%N)) as [Hq|Hq].
  2:{ rewrite bool_decide_true by done. naive_solver. }
  rewrite (bool_decide_false (se_seq e0 ≠ 0%N)) by (intros ?; done).
  destruct (se_turn_id e0) eqn:Ht; [naive_solver|].
  destruct (se_payload e0) eqn:Hp; simpl; try naive_solver.
  rewrite read_projection_reduce by done.
  destruct (try_fold (reduce to_json) _ es) eqn:Hf; simpl.
  - split; [intros [= ->]; by eauto 10|]. intros (st & [= <-] & _ & _ & _ & Hm). by rewrite Hf in Hm.
  - split; [done|]. intros (st & [= <-] & _ & _ & _ & Hm). congruence.
Qed.

(** Replaying more events continues from the replayed model. *)
Lemma replay_app sid log m tail :
  replay to_json sid log = Ok m →
  replay to_json sid (log ++ tail) = try_fold (reduce to_json) m tail.
Proof.
  destruct log as [|e0 log]; [done|]. intros Hlog.
  assert (session_id (identity m) = sid) as Hsid.
  { apply replay_cons_Ok in Hlog as (st & _ & _ & _ & _ & Hf).
    eapply (try_fold_ind (λ m, session_id (identity m) = sid)); [| |exact Hf]; [|done].
    intros s a s' _ Hs Hr. by rewrite (reduce_session_id _ _ _ Hr). }
  revert Hlog. unfold replay. rewrite try_fold_app.
  destruct (try_fold _ (read_projection_new sid) (e0 :: log)) as [p|] eqn:Hp; [|done].
  unfold read_projection_snapshot.
  destruct p as [psid [pm|]]; simpl; [|done]. intros [= ->].
  assert (psid = sid) as ->.
  { eapply (try_fold_ind (λ p, rp_session_id p = sid)) in Hp; [exact Hp| |done].
    intros s a s' _ Hs. unfold read_projection_apply. repeat case_match; naive_solver. }
  rewrite read_projection_reduce by done.
  by destruct (try_fold (reduce to_json) m tail).
Qed.
End replay.

(** ** Properties *)

(** A small log: the session starts and a user message follows. *)
Definition sample_sid : SessionId := SessionId_new "s".
Definition sample_started : SessionStarted := {|
  st_working_dir := "/w"; st_model_id := "m"; st_parent := None;
  st_tool_selection := Selection_default; st_source_extension := None;
  st_initial_system_prompt := {| psp_text := "sys"; psp_fingerprint := "f";
    psp_extra_system_prompt := None; psp_source := Prompt_Native |};
|}.
Definition sample_event (p : DurableEventPayload) : DurableEvent :=
  Build_EventEnvelope (EventId_new "e") sample_sid None 0%Z p.
Definition sample_log : list StoredEvent :=
  numbered 0 [sample_event (P_SessionStarted sample_started);
              sample_event (P_UserMessage (MessageId_new "u") "hi" [] None)].
Definition sample_json (_ : LlmMessage) : result string string := Ok "{}".
Definition sample_model : SessionReadModel :=
  match replay sample_json sample_sid sample_log with
  | Ok m => m
  | Err _ => from_started sample_sid sample_started 0%Z
  end.

(** C37. Preparing a batch is equivalent to reducing its events one by one.  For a
    non-empty batch whose numbers fit in 64 bits, [prepare] succeeds exactly when the
    sequential reduction of the consecutively numbered events does, applying the
    batch gives the sequentially reduced model, and otherwise both report the same
    error, although [prepare] validates rewrites on the narrow provider state only,
    and only in batches that contain one. *)
Theorem prepare_equiv_reduce to_json m events
    (stored := numbered (last_seq (stats m) + 1) events) :
  events ≠ [] →
  (last_seq (stats m) + N.of_nat (length events) ≤ u64_max)%N →
  match try_fold (reduce to_json) m stored with
  | Ok m' => ∃ b, prepare to_json m events = Ok b ∧ batch_events b = stored ∧
      apply_to_model b m = (m', stored)
  | Err err => prepare to_json m events = Err err
  end.
Proof.
  intros Hne Hle. unfold prepare. destruct events as [|e0 events]; [done|].
  simpl length in Hle. cbn [length Nat.eqb].
  assert (checked_add u64_max (last_seq (stats m)) 1 = Some (last_seq (stats m) + 1)%N) as ->
    by (apply checked_add_Some; lia). cbn [ok_or].
  rewrite number_events_Ok by (simpl length; unfold u64_max in *; lia).
  rewrite N.add_0_r. fold stored.
  pose proof (prepare_loop_reduce to_json m stored
    (if existsb (λ e, is_transcript_rewrite (se_payload e)) stored
     then Some (model_context.validation_state_new (system_prompt m, model_ctx m))
     else None)) as Hloop.
  assert (∀ P : Prop, (narrow_agrees (if existsb (λ e, is_transcript_rewrite (se_payload e)) stored
     then Some (model_context.validation_state_new (system_prompt m, model_ctx m))
     else None) m stored → P) → P) as Hna.
  { intros P HP. apply HP. unfold narrow_agrees. by destruct (existsb _ stored) eqn:?. }
  destruct (try_fold (reduce to_json) m stored) as [m'|err] eqn:Hr.
  - apply Hna in Hloop as [ctx' ->]. eexists. split_and!; [done..|].
    unfold apply_to_model. cbn [batch_events]. f_equal. symmetry. by apply (reduce_all_foldl to_json).
  - by rewrite (Hna _ Hloop).
Qed.

Lemma prepare_equiv_reduce_witness :
  let events := [sample_event P_TurnStarted] in
  match try_fold (reduce sample_json) sample_model (numbered 2 events) with
  | Ok m' => ∃ b, prepare sample_json sample_model events = Ok b ∧
      batch_events b = numbered 2 events ∧
      apply_to_model b sample_model = (m', numbered 2 events)
  | Err err => prepare sample_json sample_model events = Err err
  end.
Proof.
  intros events. apply (prepare_equiv_reduce sample_json sample_model events); [done|].
  vm_compute. intros [=].
Defined.

(** Event sourcing is consistent: after a batch that was prepared against the
    replayed model is appended to the log, replaying the longer log gives exactly the
    model the batch was applied to in memory. *)
Theorem append_batch_replayable to_json sid log m events b :
  replay to_json sid log = Ok m →
  prepare to_json m events = Ok b →
  replay to_json sid (log ++ batch_events b) = Ok (fst (apply_to_model b m)).
Proof.
  intros Hlog (_ & _ & _ & Hr)%prepare_Ok. by rewrite (replay_app _ _ _ m).
Qed.

Lemma append_batch_replayable_witness :
  ∃ b, prepare sample_json sample_model [sample_event P_TurnStarted] = Ok b ∧
    replay sample_json sample_sid (sample_log ++ batch_events b)
    = Ok (fst (apply_to_model b sample_model)).
Proof.
  eexists. split; [vm_compute; reflexivity|].
  apply (append_batch_replayable sample_json sample_sid sample_log sample_model
    [sample_event P_TurnStarted]); vm_compute; reflexivity.
Defined.

(** * Which logs replay, and the summary projection

    Replay succeeds exactly on well-formed logs, and the summary projection of a
    log is the summary of its read model. *)

(** ** Lemmas *)

Section log.
Context (to_json : LlmMessage → result string string).

(** The shape of a list of accepted events, from the model they were reduced on. *)
Lemma reduce_all_shape m es m' :
  try_fold (reduce to_json) m es = Ok m' →
  map se_seq es = (λ i, last_seq (stats m) + 1 + N.of_nat i)%N <$> seq 0 (length es) ∧
  last_seq (stats m') = (last_seq (stats m) + N.of_nat (length es))%N ∧
  (es ≠ [] → last_seq (stats m') ≤ u64_max)%N ∧
  event_count (stats m')
    = (if es is [] then event_count (stats m)
       else (event_count (stats m) + N.of_nat (length es)) mod (usize_max + 1))%N ∧
  Forall (λ e, se_session_id e = session_id (identity m)) es ∧
  Forall (λ e, recordable (se_payload e) = true) es.
Proof.
  revert m; induction es as [|e es IH]; intros m; simpl.
  { intros [= <-]. split_and!; try done. lia. }
  destruct (reduce to_json m e) as [m1|] eqn:Hr; [|done]. intros Hes.
  apply IH in Hes as (Hseq & Hlast & Hmax & Hcount & Hsid & Hrec). clear IH.
  apply reduce_Ok in Hr as (Hd & _ & ->).
  apply validate_details_Ok in Hd as (He & Hre & Hq & Hle & _).
  rewrite apply_session_id, ?apply_last_seq in *. rewrite Hq in *.
  split_and!; [| |intros _| |by constructor..].
  - f_equal; [lia|]. rewrite Hseq, <-seq_shift. change (map S ?l) with (S <$> l).
    rewrite <-list_fmap_compose. apply list_fmap_ext. intros i x _. simpl. lia.
  - rewrite Hlast. lia.
  - destruct es; [simpl in *; lia|]. by apply Hmax.
  - destruct es as [|e' es]; simpl in *; [done|].
    rewrite Hcount. unfold wrapping_add. rewrite N.Div0.add_mod_idemp_l. f_equal. lia.
Qed.

Lemma seq_of_nat_shift n (k : N) :
  (λ i, k + 1 + N.of_nat i)%N <$> seq 0 n = (λ i, k + N.of_nat i)%N <$> seq 1 n.
Proof.
  rewrite <-seq_shift. change (map S ?l) with (S <$> l). rewrite <-list_fmap_compose.
  apply list_fmap_ext. intros i x _. simpl. lia.
Qed.

Lemma replay_shape sid events m :
  replay to_json sid events = Ok m →
  well_formed_log sid events ∧
  last_seq (stats m) = (N.of_nat (length events) - 1)%N ∧
  event_count (stats m) = (N.of_nat (length events) mod (usize_max + 1))%N.
Proof.
  destruct events as [|e0 es]; [done|].
  intros (started & Hp & Hq & Ht & Hs & Hf)%replay_cons_Ok.
  apply reduce_all_shape in Hf as (Hseq & Hlast & Hmax & Hcount & Hsid & Hrec).
  simpl in *. rewrite N.add_0_l in *. split_and!.
  - exists e0, es, started. split_and!; [done..| | |by constructor|done].
    + simpl. rewrite Hq, Hseq. f_equal. change (map N.of_nat ?l) with (N.of_nat <$> l).
      rewrite (seq_of_nat_shift _ 0). done.
    + destruct es; [simpl; lia|]. rewrite <-Hlast. by apply Hmax.
  - rewrite Hlast. lia.
  - rewrite Hcount. destruct es as [|e' es]; [done|]. f_equal. lia.
Qed.

(** Without rewrites the structural conditions are all there is to check. *)
Lemma reduce_all_accepts m es :
  map se_seq es = (λ i, last_seq (stats m) + 1 + N.of_nat i)%N <$> seq 0 (length es) →
  (es ≠ [] → last_seq (stats m) + N.of_nat (length es) ≤ u64_max)%N →
  Forall (λ e, se_session_id e = session_id (identity m)) es →
  Forall (λ e, recordable (se_payload e) = true) es →
  Forall (λ e, is_transcript_rewrite (se_payload e) = false) es →
  ∃ m', try_fold (reduce to_json) m es = Ok m'.
Proof.
  revert m; induction es as [|e es IH]; intros m Hseq Hle Hsid Hrec Hnr; simpl; [eauto|].
  apply Forall_cons in Hsid as [He Hsid], Hrec as [Hr Hrec], Hnr as [Hn Hnr].
  simpl in Hseq, Hle. injection Hseq as Hq Hseq. specialize (Hle ltac:(done)).
  assert (reduce to_json m e = Ok (apply_validated_event e m)) as ->.
  { apply reduce_Ok. split_and!; [|by apply not_rewrite_fingerprint|done].
    apply validate_details_Ok. split_and!; [done..|lia|lia|].
    unfold se_payload in Hn. by destruct (ev_payload (se_event e)). }
  apply IH; rewrite ?apply_session_id, ?apply_last_seq; [| |done..].
  - rewrite Hseq, <-seq_shift. change (map S ?l) with (S <$> l).
    rewrite <-list_fmap_compose. apply list_fmap_ext. intros i x _. simpl. lia.
  - intros _. lia.
Qed.
End log.

(** The relation between the two incremental projections of a session. *)
Definition summary_matches (to_rfc3339 : DateTime → string)
    (p : SessionReadModelProjection) (q : SessionSummaryProjection) : Prop :=
  rp_session_id p = sp_session_id q ∧
  sp_summary q = to_summary to_rfc3339 <$> rp_model p ∧
  match rp_model p with
  | Some m => session_id (identity m) = rp_session_id p ∧
      sp_execution q = execution_ m ∧ sp_last_seq q = last_seq (stats m)
  | None => sp_execution q = execution.default_state
  end.

Lemma update_summary_apply to_rfc3339 e m :
  update_summary to_rfc3339 e (execution.phase (execution.apply_event e (execution_ m)))
    (to_summary to_rfc3339 m)
  = to_summary to_rfc3339 (apply_validated_event e m).
Proof.
  unfold update_summary, to_summary, apply_validated_event, apply_identity, cursor,
    first_user_message, presentation.apply_event. simpl.
  destruct (se_payload e); simpl; try done.
  destruct (presentation.first_user_message (presentation_ m)) eqn:Hf; simpl; by rewrite ?Hf.
Qed.

Lemma summary_step to_json to_rfc3339 p q e p' :
  summary_matches to_rfc3339 p q →
  read_projection_apply to_json p e = Ok p' →
  ∃ q', summary_projection_apply to_rfc3339 q e = Ok q' ∧ summary_matches to_rfc3339 p' q'.
Proof.
  intros (Hid & Hsum & Hrest). unfold read_projection_apply, summary_projection_apply.
  rewrite <-Hid, Hsum. case_bool_decide; [done|].
  destruct (rp_model p) as [m|]; simpl.
  - destruct Hrest as (Hm & -> & ->). rewrite <-Hm.
    destruct (reduce to_json m e) as [m'|] eqn:Hr; [|done]. intros [= <-].
    apply reduce_Ok in Hr as (-> & _ & ->). eexists. split; [done|].
    split; [done|]. split; [|split; [apply apply_session_id|done]].
    cbn [sp_summary rp_model]. by rewrite update_summary_apply.
  - destruct (validate_first_event e) as [[]|] eqn:Hv; [|done].
    assert (se_seq e = 0%N) as Hq.
    { revert Hv. unfold validate_first_event. case_bool_decide as Hq; [done|].
      intros _. by destruct (decide (se_seq e = 0%N)). }
    destruct (se_payload e); try done. intros [= <-]. eexists. split; [done|].
    by rewrite Hq, Hrest.
Qed.

Lemma summary_fold to_json to_rfc3339 es p q p' :
  summary_matches to_rfc3339 p q →
  try_fold (read_projection_apply to_json) p es = Ok p' →
  ∃ q', try_fold (summary_projection_apply to_rfc3339) q es = Ok q' ∧
    summary_matches to_rfc3339 p' q'.
Proof.
  revert p q; induction es as [|e es IH]; intros p q Hpq; simpl.
  { intros [= <-]. eauto. }
  destruct (read_projection_apply to_json p e) as [p1|] eqn:Hp; [|done].
  eapply summary_step in Hp as (q1 & -> & Hq1); [|done]. by apply IH.
Qed.

(** ** Properties *)

(** Replay accepts only well-formed logs: a session-level [SessionStarted] with
    number 0, then events of the same session, numbered consecutively without
    overflow, none of them a second start or a global custom event.  The model's last
    sequence number and its event count (modulo the width of [usize]) are determined
    by the length of the log. *)
Theorem replay_well_formed to_json sid events m :
  replay to_json sid events = Ok m →
  well_formed_log sid events ∧
  last_seq (stats m) = (N.of_nat (length events) - 1)%N ∧
  event_count (stats m) = (N.of_nat (length events) mod (usize_max + 1))%N.
Proof. apply replay_shape. Qed.

Lemma replay_well_formed_witness :
  well_formed_log sample_sid sample_log ∧
  last_seq (stats sample_model) = (N.of_nat (length sample_log) - 1)%N ∧
  event_count (stats sample_model) = (N.of_nat (length sample_log) mod (usize_max + 1))%N.
Proof.
  apply (replay_well_formed sample_json sample_sid sample_log sample_model).
  vm_compute. reflexivity.
Defined.

(** Replay is total on well-formed logs: a log without transcript rewrites replays
    to a model exactly when it is well-formed (rewrites add the fingerprint check). *)
Theorem replay_accepts_iff to_json sid events :
  Forall (λ e, is_transcript_rewrite (se_payload e) = false) events →
  (∃ m, replay to_json sid events = Ok m) ↔ well_formed_log sid events.
Proof.
  intros Hnr. split; [intros [m Hm]; by apply replay_shape in Hm as [? _]|].
  intros (e0 & es & started & -> & Hp & Ht & Hseq & Hle & Hsid & Hrec).
  apply Forall_cons in Hsid as [Hs Hsid], Hnr as [_ Hnr].
  simpl in Hseq. injection Hseq as Hq Hseq.
  destruct (reduce_all_accepts to_json (from_started sid started (se_timestamp e0)) es)
    as [m Hm]; [| |done..|].
  - simpl. rewrite N.add_0_l, Hseq. change (map N.of_nat ?l) with (N.of_nat <$> l).
    rewrite (seq_of_nat_shift _ 0). done.
  - intros _. by simpl.
  - exists m. apply replay_cons_Ok. by exists started.
Qed.

Lemma replay_accepts_iff_witness :
  (∃ m, replay sample_json sample_sid sample_log = Ok m) ↔ well_formed_log sample_sid sample_log.
Proof.
  apply (replay_accepts_iff sample_json sample_sid sample_log). by repeat constructor.
Defined.

(** C39. The summary projection refines the read model: on every log that replays, the
    incremental summary projection succeeds too and its snapshot is the summary of
    the replayed read model, although it keeps neither messages nor the model. *)
Theorem summary_refines_read_model to_json to_rfc3339 sid events m :
  replay to_json sid events = Ok m →
  ∃ q, try_fold (summary_projection_apply to_rfc3339) (summary_projection_new sid) events = Ok q ∧
    summary_projection_snapshot q = Ok (to_summary to_rfc3339 m).
Proof.
  unfold replay. destruct (try_fold _ _ events) as [p|] eqn:Hp; [|done]. intros Hm.
  eapply (summary_fold _ to_rfc3339 _ _ (summary_projection_new sid)) in Hp
    as (q & Hq & Hid & Hsum & _); [|by split].
  exists q. split; [done|]. unfold summary_projection_snapshot. rewrite Hsum.
  unfold read_projection_snapshot in Hm. destruct (rp_model p); naive_solver.
Qed.

Lemma summary_refines_read_model_witness :
  ∃ q, try_fold (summary_projection_apply (λ _, "t")) (summary_projection_new sample_sid)
         sample_log = Ok q ∧
    summary_projection_snapshot q = Ok (to_summary (λ _, "t") sample_model).
Proof.
  apply (summary_refines_read_model sample_json (λ _, "t") sample_sid sample_log sample_model).
  vm_compute. reflexivity.
Defined.
