(* ===== verification/ProjInvariants.v ===== *)
(** * Invariants of replayed models

    What holds of every read model that is the replay of a log: which inputs are
    pending, how provider messages are ordered, what a transcript rewrite replaces
    and what usage figures cover. *)

From S2P Require Import Prelude CoreTypes CoreLlm CoreEvent ProjViews ProjContext ProjReducer ProjReplay.

(** ** Induction over replayed logs *)

(** An event the model accepts as its next one. *)
Definition accepts (to_json : LlmMessage → result string string) (m : SessionReadModel)
    (e : StoredEvent) : Prop :=
  validate_next_event_details (se_seq e) (se_event e) (session_id (identity m))
    (last_seq (stats m)) = Ok () ∧
  model_context.validate_rewrite_fingerprint to_json (se_event e) (system_prompt m, model_ctx m)
    = Ok ().

Lemma try_fold_snoc {A S E} (f : S → A → result S E) s l a :
  try_fold f s (l ++ [a]) = let? s := try_fold f s l in f s a.
Proof.
  rewrite try_fold_app. destruct (try_fold f s l) as [s1|]; [|done]. simpl. by destruct (f s1 a).
Qed.

Lemma replay_log_ind to_json sid (P : list StoredEvent → SessionReadModel → Prop) :
  (∀ e0 started, se_payload e0 = P_SessionStarted started → se_seq e0 = 0%N →
     P [e0] (from_started sid started (se_timestamp e0))) →
  (∀ log m e, P log m → accepts to_json m e → P (log ++ [e]) (apply_validated_event e m)) →
  ∀ log m, replay to_json sid log = Ok m → P log m.
Proof.
  intros Hbase Hstep [|e0 es] m; [done|].
  intros (started & Hp & Hq & _ & _ & Hf)%replay_cons_Ok.
  revert m Hf. induction es as [|e es IH] using rev_ind; intros m.
  { intros [= <-]. by apply Hbase. }
  rewrite try_fold_snoc. destruct (try_fold _ _ es) as [m1|] eqn:Hm1; [|done].
  intros (Hd & Hfp & ->)%reduce_Ok. change (e0 :: es ++ [e]) with ((e0 :: es) ++ [e]).
  apply Hstep; [by apply IH|by split].
Qed.

Lemma accepts_seq to_json m e : accepts to_json m e → se_seq e = (last_seq (stats m) + 1)%N.
Proof. by intros [(_ & _ & -> & _)%validate_details_Ok _]. Qed.

(** ** Pending inputs *)

(** The input an event accepts, and the acceptance an event consumes. *)
Definition accepted_input (e : StoredEvent) : option execution.PendingInput :=
  match se_payload e with
  | P_UserInputAccepted input =>
    Some {| execution.accepted_seq := se_seq e; execution.input := input;
            execution.turn_id := se_turn_id e |}
  | _ => None
  end.

Definition consumed_seq (e : StoredEvent) : option N :=
  match se_payload e with P_UserMessage _ _ _ accepted => accepted | _ => None end.

(** The inputs of a log no later user message consumes, in the order of acceptance. *)
Fixpoint unconsumed (log : list StoredEvent) : list execution.PendingInput :=
  match log with
  | [] => []
  | e :: log =>
    match accepted_input e with
    | Some i =>
      if decide (Some (execution.accepted_seq i) ∈ map consumed_seq log)
      then unconsumed log else i :: unconsumed log
    | None => unconsumed log
    end
  end.

Lemma unconsumed_snoc log e :
  unconsumed (log ++ [e])
  = filter (λ i, Some (execution.accepted_seq i) ≠ consumed_seq e) (unconsumed log)
    ++ option_list (accepted_input e).
Proof.
  induction log as [|x log IH]; simpl.
  { by destruct (accepted_input e). }
  destruct (accepted_input x) as [i|]; [|done]. rewrite map_app, IH. simpl.
  destruct (decide (Some (execution.accepted_seq i) ∈ map consumed_seq log)) as [Hin|Hin].
  - by rewrite decide_True by set_solver.
  - rewrite filter_cons. destruct (decide (Some _ ≠ consumed_seq e)) as [He|He].
    + rewrite decide_False by set_solver. done.
    + rewrite decide_True; [done|]. apply elem_of_app. right.
      apply list_elem_of_singleton. by apply dec_stable.
Qed.

Lemma apply_pending_inputs e s :
  execution.pending_inputs (execution.apply_event e s)
  = filter (λ i, Some (execution.accepted_seq i) ≠ consumed_seq e) (execution.pending_inputs s)
    ++ option_list (accepted_input e).
Proof.
  unfold execution.apply_event, accepted_input, consumed_seq.
  destruct (se_payload e) eqn:Hp; simpl;
    try (rewrite filter_all, ?app_nil_r by done; by repeat case_match).
  rewrite app_nil_r. destruct accepted_seq as [a|]; simpl; [|by rewrite filter_all].
  apply list_filter_iff. intros i. split; congruence.
Qed.

(** ** Ordering of provider messages *)

Definition seqs_sorted (l : list model_context.SequencedLlmMessage) : Prop :=
  StronglySorted (λ a b, model_context.updated_seq a ≤ model_context.updated_seq b)%N l.

(** The messages are ordered by their sequence numbers, none beyond [last]; usage
    covers a prefix of them. *)
Definition context_ok (last : N) (c : model_context.SessionModelContext) : Prop :=
  seqs_sorted (model_context.messages c) ∧
  Forall (λ m, model_context.updated_seq m ≤ last)%N (model_context.messages c) ∧
  match model_context.usage c with
  | Some u => (model_context.covered_message_count u
               ≤ N.of_nat (length (model_context.messages c)))%N
  | None => True
  end.

Lemma seqs_sorted_snoc l x last :
  seqs_sorted l → Forall (λ m, model_context.updated_seq m ≤ last)%N l →
  (last ≤ model_context.updated_seq x)%N → seqs_sorted (l ++ [x]).
Proof.
  induction 1 as [|a l Hl IH Ha]; intros Hle Hx; simpl.
  { repeat constructor. }
  apply Forall_cons in Hle as [Hal Hle]. constructor; [by apply IH|].
  apply Forall_app. split; [done|]. constructor; [|constructor]. lia.
Qed.

Lemma seqs_sorted_const n (l : list TranscriptMessage) :
  seqs_sorted (map (model_context.rewritten_entry n) l).
Proof.
  induction l as [|a l IH]; simpl; constructor; [done|].
  apply Forall_forall. intros x Hx. apply list_elem_of_fmap in Hx as (y & -> & _). done.
Qed.

Lemma seqs_sorted_app l1 l2 :
  seqs_sorted l1 → seqs_sorted l2 →
  (∀ a b, a ∈ l1 → b ∈ l2 →
     model_context.updated_seq a ≤ model_context.updated_seq b)%N →
  seqs_sorted (l1 ++ l2).
Proof.
  induction 1 as [|a l1 Hl IH Ha]; intros H2 Hab; simpl; [done|].
  constructor; [apply IH; [done|]; intros; apply Hab; set_solver|].
  apply Forall_app. split; [done|]. apply Forall_forall. intros b Hb. apply Hab; set_solver.
Qed.

Lemma seqs_sorted_filter (P : model_context.SequencedLlmMessage → Prop)
    `{!∀ x, Decision (P x)} l : seqs_sorted l → seqs_sorted (filter P l).
Proof.
  induction 1 as [|a l Hl IH Ha]; [constructor|]. rewrite filter_cons. case_decide; [|done].
  constructor; [done|]. apply Forall_forall. intros b [_ Hb]%list_elem_of_filter.
  by eapply Forall_forall in Ha.
Qed.

(** In an ordered list the messages up to [n] are a prefix. *)
Lemma seqs_sorted_split l n :
  seqs_sorted l →
  l = filter (λ m, model_context.updated_seq m ≤ n)%N l
      ++ filter (λ m, n < model_context.updated_seq m)%N l.
Proof.
  induction 1 as [|a l Hl IH Ha]; [done|]. rewrite !filter_cons.
  destruct (decide (model_context.updated_seq a ≤ n)%N) as [Hn|Hn].
  - rewrite (decide_False (P := (n < _)%N)) by lia. simpl. by rewrite <-IH.
  - rewrite (decide_True (P := (n < _)%N)) by lia.
    assert (filter (λ m, model_context.updated_seq m ≤ n)%N l = []) as Hnil.
    { apply filter_none. intros b Hb. rewrite Forall_forall in Ha. specialize (Ha b Hb). lia. }
    rewrite Hnil in *. simpl in *. by rewrite <-IH.
Qed.

Definition msgs_ok (last : N) (l : list model_context.SequencedLlmMessage) : Prop :=
  seqs_sorted l ∧ Forall (λ m, model_context.updated_seq m ≤ last)%N l.

Lemma msgs_ok_weaken last last' l : (last ≤ last')%N → msgs_ok last l → msgs_ok last' l.
Proof. intros Hle [Hs Hf]. split; [done|]. eapply Forall_impl; [done|]. simpl. lia. Qed.

Lemma msgs_ok_snoc last l x :
  msgs_ok last l → (last ≤ model_context.updated_seq x)%N →
  msgs_ok (model_context.updated_seq x) (l ++ [x]).
Proof.
  intros [Hs Hf] Hx. split; [by eapply seqs_sorted_snoc|].
  apply Forall_app. split; [|constructor; [lia|constructor]].
  eapply Forall_impl; [done|]. simpl. lia.
Qed.

Lemma msgs_ok_init last l x : msgs_ok last (l ++ [x]) → msgs_ok last l.
Proof.
  intros [Hs Hf]. apply Forall_app in Hf as [Hf _]. split; [|done].
  clear Hf. induction l as [|a l IH]; [constructor|].
  inversion Hs as [|? ? Hl Ha]; subst. apply Forall_app in Ha as [Ha _].
  constructor; [by apply IH|done].
Qed.

Lemma msgs_ok_push last l c seq :
  msgs_ok last l → (last ≤ seq)%N → msgs_ok seq (model_context.push_tool_call l c seq).
Proof.
  intros Hl Hle. unfold model_context.push_tool_call.
  destruct (list.last l) as [x|] eqn:Hx; [case_decide|].
  - apply last_Some in Hx as [init ->]. rewrite length_app, Nat.add_sub, take_app_length.
    apply msgs_ok_init in Hl. by eapply (msgs_ok_snoc last).
  - by eapply (msgs_ok_snoc last).
  - by eapply (msgs_ok_snoc last).
Qed.

Lemma msgs_ok_rewrite last l rewritten src :
  msgs_ok last l → (src ≤ last)%N →
  msgs_ok last (model_context.apply_transcript_rewrite l rewritten src).
Proof.
  intros [Hs Hf] Hsrc. unfold model_context.apply_transcript_rewrite. split.
  - apply seqs_sorted_app; [apply seqs_sorted_const|by apply seqs_sorted_filter|].
    intros a b Ha Hb. apply list_elem_of_fmap in Ha as (y & -> & _).
    apply list_elem_of_filter in Hb as [Hb _]. simpl. lia.
  - apply Forall_app. split.
    + apply Forall_forall. intros x Hx. apply list_elem_of_fmap in Hx as (y & -> & _). done.
    + apply Forall_forall. intros x [_ Hx]%list_elem_of_filter. by eapply Forall_forall in Hf.
Qed.

Lemma apply_provider_ok last e t l :
  msgs_ok last l → (last ≤ se_seq e)%N →
  match se_payload e with P_TranscriptRewritten s _ _ _ => (s ≤ last)%N | _ => True end →
  msgs_ok (se_seq e) (snd (model_context.apply_provider_event e (t, l))).
Proof.
  intros Hl Hle Hrw. unfold model_context.apply_provider_event, model_context.apply_tool_terminal.
  destruct (se_payload e); simpl; try (by eapply msgs_ok_weaken); try (by eapply (msgs_ok_snoc last)).
  - by eapply msgs_ok_push.
  - eapply msgs_ok_weaken; [done|]. by apply msgs_ok_rewrite.
  - split; [apply seqs_sorted_const|]. apply Forall_forall. intros x Hx.
    apply list_elem_of_fmap in Hx as (y & -> & _). done.
Qed.

(** Only rewrites and forks, which reset the usage, can shorten the context. *)
Lemma apply_provider_length e t l :
  match se_payload e with
  | P_TranscriptRewritten _ _ _ _ | P_SessionForked _ _ _ _ => True
  | _ => length l ≤ length (snd (model_context.apply_provider_event e (t, l)))
  end.
Proof.
  unfold model_context.apply_provider_event, model_context.apply_tool_terminal,
    model_context.push_tool_call.
  destruct (se_payload e); simpl; try done; rewrite ?length_app; try lia.
  destruct (last l) as [x|] eqn:Hx; [case_decide|]; rewrite ?length_app; simpl; try lia.
  rewrite length_take. apply last_Some in Hx as [init ->]. rewrite length_app. simpl. lia.
Qed.

Lemma apply_context_ok to_json m e :
  context_ok (last_seq (stats m)) (model_ctx m) → accepts to_json m e →
  context_ok (se_seq e) (model_ctx (apply_validated_event e m)).
Proof.
  intros (Hs & Hf & Hu) [(_ & _ & Hq & _ & Hrw)%validate_details_Ok _].
  assert (msgs_ok (last_seq (stats m)) (model_context.messages (model_ctx m))) as Hm by done.
  eapply (apply_provider_ok _ e (model_context.text (system_prompt m))) in Hm; [|lia|done].
  pose proof (context_provider_state e (system_prompt m, model_ctx m)) as Heq.
  cbv zeta in Heq. cbn [fst snd] in Heq.
  pose proof (apply_provider_length e (model_context.text (system_prompt m))
    (model_context.messages (model_ctx m))) as Hlen.
  unfold context_ok. cbn [model_ctx apply_validated_event]. split_and!.
  1,2: rewrite <-Heq in Hm; apply Hm.
  clear Hm Heq. unfold model_context.apply_event.
  destruct (model_context.apply_provider_event e _) as [t msgs]. cbn [snd] in Hlen.
  destruct (se_payload e); simpl; try done; repeat case_match; simplify_eq/=; try done; try lia.
Qed.

(** ** Settled turns *)

(** An idle session has no unsettled turn, tool call or approval. *)
Definition idle_settled (s : execution.SessionExecutionState) : Prop :=
  execution.phase s = Phase_Idle →
  execution.unsettled_turn_id s = None ∧ execution.pending_tool_calls s = ∅ ∧
  execution.pending_tool_approvals s = ∅.

Lemma apply_idle_settled e s : idle_settled s → idle_settled (execution.apply_event e s).
Proof.
  unfold idle_settled, execution.apply_event, execution.apply_tool_terminal. intros Hs.
  destruct (se_payload e); simpl; try done; repeat case_match; simpl in *; try done.
  intros (-> & -> & ->)%Hs. by rewrite delete_empty.
Qed.

Section replayed.
Context (to_json : LlmMessage → result string string).
Variables (sid : SessionId) (log : list StoredEvent) (m : SessionReadModel).
Hypothesis replayed : replay to_json sid log = Ok m.

Lemma replay_context_ok : context_ok (last_seq (stats m)) (model_ctx m).
Proof using replayed.
  revert replayed. apply (replay_log_ind to_json sid
    (λ _ m, context_ok (last_seq (stats m)) (model_ctx m))).
  - intros e0 started _ _. split_and!; constructor.
  - intros log1 m1 e IH He. by eapply apply_context_ok.
Qed.

Lemma replay_idle_settled : idle_settled (execution_ m).
Proof using replayed.
  revert replayed. apply (replay_log_ind to_json sid (λ _ m, idle_settled (execution_ m))).
  - by intros e0 started _ _ _.
  - intros log1 m1 e IH _. by apply apply_idle_settled.
Qed.
End replayed.

(** ** Properties *)

(** The pending inputs of a replayed session are exactly the inputs its log
    accepted and no later user message consumed, in the order of acceptance. *)
Theorem pending_inputs_exact to_json sid log m :
  replay to_json sid log = Ok m →
  execution.pending_inputs (execution_ m) = unconsumed log.
Proof.
  apply (replay_log_ind to_json sid
    (λ log m, execution.pending_inputs (execution_ m) = unconsumed log)).
  - intros e0 started Hp _. simpl. unfold accepted_input. by rewrite Hp.
  - intros log1 m1 e IH _. rewrite unconsumed_snoc, <-IH. apply apply_pending_inputs.
Qed.

(** A log with three accepted inputs, the second of which a message consumes. *)
Definition inputs_log : list StoredEvent :=
  sample_log ++ numbered 2 [
    sample_event (P_UserInputAccepted (text_only "a"));
    sample_event (P_UserInputAccepted (text_only "b"));
    sample_event (P_UserInputAccepted (text_only "c"));
    sample_event (P_UserMessage (MessageId_new "m") "b" [] (Some 3%N))].

Lemma pending_inputs_exact_witness :
  ∃ m, replay sample_json sample_sid inputs_log = Ok m ∧
    execution.pending_inputs (execution_ m) = unconsumed inputs_log ∧
    map execution.accepted_seq (unconsumed inputs_log) = [2; 4]%N.
Proof.
  eexists. split; [vm_compute; reflexivity|]. split; [|vm_compute; reflexivity].
  apply (pending_inputs_exact sample_json sample_sid inputs_log). vm_compute. reflexivity.
Defined.

(** In every replayed model the provider messages are ordered by the sequence
    number that last touched them, none is beyond the log, and a recorded usage covers
    no more messages than there are. *)
Theorem context_invariant to_json sid log m :
  replay to_json sid log = Ok m → context_ok (last_seq (stats m)) (model_ctx m).
Proof. apply replay_context_ok. Qed.

Lemma context_invariant_witness :
  context_ok (last_seq (stats sample_model)) (model_ctx sample_model).
Proof.
  apply (context_invariant sample_json sample_sid sample_log). vm_compute. reflexivity.
Defined.

(** A rewrite accepted after a replayed log replaces a prefix and nothing else:
    the messages split into a prefix up to the source sequence number, whose
    fingerprint is the one the event carries, and a tail after it; the rewritten
    messages take the place of the prefix, the tail is kept in order. *)
Theorem rewrite_replaces_prefix to_json sid log m e m' src fp rewritten reason :
  replay to_json sid log = Ok m →
  reduce to_json m e = Ok m' →
  se_payload e = P_TranscriptRewritten src fp rewritten reason →
  ∃ prefix tail,
    model_context.messages (model_ctx m) = prefix ++ tail ∧
    Forall (λ x, model_context.updated_seq x ≤ src)%N prefix ∧
    Forall (λ x, src < model_context.updated_seq x)%N tail ∧
    transcript_prefix_fingerprint to_json (model_context.text (system_prompt m))
      (provider_transcript (map model_context.message prefix)) = Ok fp ∧
    model_context.messages (model_ctx m')
      = map (model_context.rewritten_entry src) rewritten ++ tail.
Proof.
  intros Hm (_ & Hfp & ->)%reduce_Ok Hp.
  apply replay_context_ok in Hm as [Hs _].
  eexists _, _. split; [by apply (seqs_sorted_split _ src)|].
  split_and!; [by apply Forall_forall; intros ? []%list_elem_of_filter..| |].
  - unfold model_context.validate_rewrite_fingerprint,
      model_context.validate_rewrite_fingerprint_against in Hfp.
    unfold se_payload in Hp. rewrite Hp in Hfp. simpl in Hfp.
    destruct (transcript_prefix_fingerprint _ _ _) as [actual|]; simpl in Hfp; [|done].
    case_bool_decide; by simplify_eq.
  - cbn [model_ctx apply_validated_event].
    unfold model_context.apply_event, model_context.apply_provider_event.
    rewrite Hp. by destruct reason.
Qed.

(** A compaction of the sample session: one summary message in place of the
    transcript up to sequence number 1. *)
Definition rewrite_fingerprint : string :=
  match transcript_prefix_fingerprint sample_json "sys" (provider_transcript
          (map model_context.message (model_context.messages (model_ctx sample_model)))) with
  | Ok fp => fp
  | Err _ => ""
  end.
Definition sample_rewrite : list TranscriptMessage :=
  [{| tm_message := LlmMessage_user "summary"; tm_origin := None |}].
Definition rewrite_event : StoredEvent :=
  StoredEvent_new 2 (sample_event (P_TranscriptRewritten 1 rewrite_fingerprint sample_rewrite
    (Rewrite_Compaction {| cd_trigger := "auto"; cd_pre_tokens := 1; cd_post_tokens := 1;
       cd_summary := "summary"; cd_transcript_path := None;
       cd_strategy := Strategy_Auto |}))).

Lemma rewrite_replaces_prefix_witness :
  ∃ m', reduce sample_json sample_model rewrite_event = Ok m' ∧
  ∃ prefix tail,
    model_context.messages (model_ctx sample_model) = prefix ++ tail ∧
    Forall (λ x, model_context.updated_seq x ≤ 1)%N prefix ∧
    Forall (λ x, 1 < model_context.updated_seq x)%N tail ∧
    transcript_prefix_fingerprint sample_json
      (model_context.text (system_prompt sample_model))
      (provider_transcript (map model_context.message prefix)) = Ok rewrite_fingerprint ∧
    model_context.messages (model_ctx m')
      = map (model_context.rewritten_entry 1) sample_rewrite ++ tail.
Proof.
  eexists. split; [vm_compute; reflexivity|].
  eapply (rewrite_replaces_prefix sample_json sample_sid sample_log sample_model rewrite_event);
    vm_compute; reflexivity.
Defined.

(** A session whose phase is idle has nothing in flight: no unsettled turn, no
    pending tool call and no pending approval. *)
Theorem idle_is_settled to_json sid log m :
  replay to_json sid log = Ok m →
  execution.phase (execution_ m) = Phase_Idle →
  execution.unsettled_turn_id (execution_ m) = None ∧
  execution.pending_tool_calls (execution_ m) = ∅ ∧
  execution.pending_tool_approvals (execution_ m) = ∅.
Proof. apply replay_idle_settled. Qed.

Lemma idle_is_settled_witness :
  let log := sample_log ++ numbered 2 [
    sample_event P_TurnStarted;
    sample_event (P_ToolCallRequested (ToolCallId_new "t") "ls" JNull None);
    sample_event (P_TurnCompleted "aborted")] in
  ∃ m, replay sample_json sample_sid log = Ok m ∧
    execution.unsettled_turn_id (execution_ m) = None ∧
    execution.pending_tool_calls (execution_ m) = ∅ ∧
    execution.pending_tool_approvals (execution_ m) = ∅.
Proof.
  intros log. eexists. split; [vm_compute; reflexivity|].
  apply (idle_is_settled sample_json sample_sid log); vm_compute; reflexivity.
Defined.
