(* ===== verification/StoreTypes.v ===== *)
(** * Storage contracts ([storage/src/error.rs], [storage/src/traits.rs])

    Storage errors, the audited state of an event consumer and the edits a repository
    makes to it, identifier checks and byte-bounded truncation. *)

From S2P Require Import Prelude Utf8 CoreTypes CoreLlm CoreEvent ProjViews ProjContext ProjReducer.

(** ** Errors *)

(** The [std::io::ErrorKind]s the crate distinguishes. *)
Inductive ErrorKind :=
| Kind_NotFound | Kind_PermissionDenied | Kind_AlreadyExists | Kind_InvalidInput
| Kind_InvalidData | Kind_UnexpectedEof | Kind_Interrupted | Kind_WouldBlock | Kind_TimedOut
| Kind_ConnectionAborted | Kind_ConnectionReset | Kind_NotConnected | Kind_Other.

Record IoError := { io_kind : ErrorKind; io_message : string }.

(** [std::io::Error::other]. *)
Definition io_other (m : string) : IoError := {| io_kind := Kind_Other; io_message := m |}.

Inductive StorageError :=
| NotFound (session_id : SessionId)
| AlreadyExists (session_id : SessionId)
| Io (error : IoError)
| Serialization (error : string)
| InvalidId (message : string)
| InvalidEvent (message : string)
| DurabilityUncertain (session_id : SessionId) (through_seq : N) (reason : string)
| CorruptLog (message : string)
| LockError (message : string)
| Unsupported (message : string).

Definition short_batch_result : StorageError :=
  InvalidEvent "batch append returned fewer events than submitted".

Definition StorageError_is_retryable (e : StorageError) : bool :=
  match e with
  | Io e =>
    match io_kind e with
    | Kind_Interrupted | Kind_WouldBlock | Kind_TimedOut | Kind_ConnectionAborted
    | Kind_ConnectionReset | Kind_NotConnected => true
    | _ => false
    end
  | _ => false
  end.

Definition StorageError_uncertain_through_seq (e : StorageError) : option N :=
  match e with DurabilityUncertain _ through_seq _ => Some through_seq | _ => None end.

(** The messages [thiserror] derives for [ProjectionError]. *)
Definition ProjectionError_to_string (e : ProjectionError) : string :=
  match e with
  | EmptyBatch => "projection batch cannot be empty"
  | SequenceOverflow => "session event sequence overflow"
  | MissingSessionStarted s =>
    "session " +:+ SessionId_str s +:+ " has no SessionStarted event"
  | SessionMismatch expected actual =>
    "event belongs to session " +:+ SessionId_str actual +:+ ", expected "
      +:+ SessionId_str expected
  | InvalidFirstSequence n => "first event must have seq 0, got " +:+ u64_to_string n
  | InvalidFirstEvent => "first event must be SessionStarted"
  | SessionStartedHasTurn => "SessionStarted must be a session-level event"
  | DuplicateSessionStarted n => "duplicate SessionStarted at seq " +:+ u64_to_string n
  | InvalidDurableCustomEventAudience n =>
    "durable custom event at seq " +:+ u64_to_string n +:+ " must have session audience"
  | NonContiguousSequence expected actual =>
    "expected event seq " +:+ u64_to_string expected +:+ ", got " +:+ u64_to_string actual
  | InvalidTranscriptRewriteSource source_seq current_seq =>
    "transcript rewrite source seq " +:+ u64_to_string source_seq +:+ " exceeds current seq "
      +:+ u64_to_string current_seq
  | TranscriptRewriteSourceFingerprintMismatch source_seq expected actual =>
    "transcript rewrite source fingerprint mismatch at seq " +:+ u64_to_string source_seq
      +:+ ": event expects " +:+ expected +:+ ", current prefix hashes to " +:+ actual
  | TranscriptFingerprintSerialization e =>
    "transcript fingerprint could not be computed: " +:+ e
  end.

(** [invalid_event] and [corrupt_projection] ([session_repo/mod.rs]). *)
Definition invalid_event (e : ProjectionError) : StorageError :=
  InvalidEvent (ProjectionError_to_string e).
Definition corrupt_projection (e : ProjectionError) : StorageError :=
  CorruptLog (ProjectionError_to_string e).

(** ** Byte-bounded truncation *)

Definition to_bytes (s : string) : bytes := String.list_ascii_of_string s.
Definition of_bytes (b : bytes) : string := String.string_of_list_ascii b.

Lemma of_to_bytes s : of_bytes (to_bytes s) = s.
Proof. apply String.string_of_list_ascii_of_string. Qed.
Lemma to_of_bytes b : to_bytes (of_bytes b) = b.
Proof. apply String.list_ascii_of_string_of_list_ascii. Qed.

(** [str::len]. *)
Definition str_len (s : string) : N := N.of_nat (length (to_bytes s)).

Definition truncate_utf8 (value : string) (max_bytes : N) : string :=
  if bool_decide (str_len value ≤ max_bytes)%N then value
  else of_bytes (take (floor_boundary (to_bytes value) (N.to_nat max_bytes)) (to_bytes value)).

Definition validate_event_consumer_id (consumer_id : string) : result () StorageError :=
  if is_empty consumer_id then Err (InvalidId "event consumer id cannot be empty") else Ok ().

(** ** Event consumers *)

Definition EVENT_CONSUMER_AUDIT_RECORD_LIMIT : N := 128.
Definition EVENT_CONSUMER_ERROR_MAX_BYTES : N := 4 * 1024.

Record EventConsumerQuarantine := {
  q_seq : N;
  q_revision : N;
  q_attempts : N;
  q_last_error : string;
}.

Record EventConsumerSkip := {
  sk_from_seq : option N;
  sk_to_seq : option N;
  sk_revision : N;
}.

Record EventConsumerState := {
  checkpoint : option N;
  paused : bool;
  revision : N;
  consecutive_failures : N;
  quarantined_count : N;
  skipped_count : N;
  quarantined : list EventConsumerQuarantine;
  skips : list EventConsumerSkip;
}.

(** [EventConsumerState::default()]. *)
Definition consumer_default : EventConsumerState := {|
  checkpoint := None; paused := false; revision := 0; consecutive_failures := 0;
  quarantined_count := 0; skipped_count := 0; quarantined := []; skips := [] |}.

Inductive EventConsumerCheckpointReset := Reset_Beginning | Reset_StreamHead.
Inductive EventConsumerCheckpointOutcome := Checkpoint_Accepted | Checkpoint_StaleRevision.
Inductive EventConsumerFailureOutcome :=
| Failure_Recorded (attempts : N)
| Failure_Quarantined (attempts : N)
| Failure_AlreadyConsumed
| Failure_StaleRevision.

(** Field assignments. *)
Definition set_checkpoint (c : option N) (s : EventConsumerState) : EventConsumerState :=
  {| checkpoint := c; paused := paused s; revision := revision s;
     consecutive_failures := consecutive_failures s;
     quarantined_count := quarantined_count s; skipped_count := skipped_count s;
     quarantined := quarantined s; skips := skips s |}.
Definition set_paused (p : bool) (s : EventConsumerState) : EventConsumerState :=
  {| checkpoint := checkpoint s; paused := p; revision := revision s;
     consecutive_failures := consecutive_failures s;
     quarantined_count := quarantined_count s; skipped_count := skipped_count s;
     quarantined := quarantined s; skips := skips s |}.
Definition set_revision (r : N) (s : EventConsumerState) : EventConsumerState :=
  {| checkpoint := checkpoint s; paused := paused s; revision := r;
     consecutive_failures := consecutive_failures s;
     quarantined_count := quarantined_count s; skipped_count := skipped_count s;
     quarantined := quarantined s; skips := skips s |}.
Definition set_consecutive_failures (n : N) (s : EventConsumerState) : EventConsumerState :=
  {| checkpoint := checkpoint s; paused := paused s; revision := revision s;
     consecutive_failures := n;
     quarantined_count := quarantined_count s; skipped_count := skipped_count s;
     quarantined := quarantined s; skips := skips s |}.
Definition set_quarantine (n : N) (l : list EventConsumerQuarantine) (s : EventConsumerState)
    : EventConsumerState :=
  {| checkpoint := checkpoint s; paused := paused s; revision := revision s;
     consecutive_failures := consecutive_failures s;
     quarantined_count := n; skipped_count := skipped_count s;
     quarantined := l; skips := skips s |}.
Definition set_skips (n : N) (l : list EventConsumerSkip) (s : EventConsumerState)
    : EventConsumerState :=
  {| checkpoint := checkpoint s; paused := paused s; revision := revision s;
     consecutive_failures := consecutive_failures s;
     quarantined_count := quarantined_count s; skipped_count := n;
     quarantined := quarantined s; skips := l |}.

Definition push_recent {T} (records : list T) (record : T) : list T :=
  (if bool_decide (N.of_nat (length records) = EVENT_CONSUMER_AUDIT_RECORD_LIMIT)
   then drop 1 records else records) ++ [record].

(** The methods below return before their first assignment when they fail, so an error
    leaves the state as it was. *)
Definition record_quarantine (seq attempts : N) (error : string) (s : EventConsumerState)
    : result EventConsumerState StorageError :=
  if existsb (λ r, bool_decide (q_seq r = seq) && bool_decide (q_revision r = revision s))
       (quarantined s)
  then Ok s
  else
    let? n := ok_or (checked_add u64_max (quarantined_count s) 1)
                (CorruptLog "consumer quarantine count overflow") in
    Ok (set_quarantine n (push_recent (quarantined s)
          {| q_seq := seq; q_revision := revision s; q_attempts := attempts;
             q_last_error := truncate_utf8 error EVENT_CONSUMER_ERROR_MAX_BYTES |}) s).

Definition record_skip (from_seq to_seq : option N) (s : EventConsumerState)
    : result EventConsumerState StorageError :=
  let? n := ok_or (checked_add u64_max (skipped_count s) 1)
              (CorruptLog "consumer skip count overflow") in
  Ok (set_skips n (push_recent (skips s)
        {| sk_from_seq := from_seq; sk_to_seq := to_seq; sk_revision := revision s |}) s).

Definition validate_audit_bounds (s : EventConsumerState) : result () StorageError :=
  if bool_decide (EVENT_CONSUMER_AUDIT_RECORD_LIMIT < N.of_nat (length (quarantined s)))%N then
    Err (CorruptLog "consumer quarantine audit exceeds its persisted record limit")
  else if bool_decide (EVENT_CONSUMER_AUDIT_RECORD_LIMIT < N.of_nat (length (skips s)))%N then
    Err (CorruptLog "consumer skip audit exceeds its persisted record limit")
  else
    let? quarantined_records := ok_or (u64_try_from (N.of_nat (length (quarantined s))))
      (CorruptLog "consumer quarantine audit is too large") in
    let? skip_records := ok_or (u64_try_from (N.of_nat (length (skips s))))
      (CorruptLog "consumer skip audit is too large") in
    if bool_decide (quarantined_count s < quarantined_records)%N then
      Err (CorruptLog "consumer quarantine count is smaller than its persisted audit")
    else if bool_decide (skipped_count s < skip_records)%N then
      Err (CorruptLog "consumer skip count is smaller than its persisted audit")
    else if existsb (λ r, bool_decide (EVENT_CONSUMER_ERROR_MAX_BYTES
                            < str_len (q_last_error r))%N) (quarantined s) then
      Err (CorruptLog "consumer quarantine error exceeds its persisted byte limit")
    else Ok ().

(** *** Edits of a persisted consumer ([session_repo/store.rs])

    The closures [edit_consumer_state] runs: the new state and the outcome, marked as
    changed (to be written) or unchanged. *)

Inductive ConsumerStateEdit (T : Type) :=
| Changed (value : T)
| Unchanged (value : T).
Arguments Changed {T} value.
Arguments Unchanged {T} value.

Definition consumed (s : EventConsumerState) (seq : N) : bool :=
  match checkpoint s with Some c => bool_decide (seq ≤ c)%N | None => false end.

Definition checkpoint_edit (expected_revision seq : N) (s : EventConsumerState) (_ : N)
    : result (EventConsumerState * ConsumerStateEdit EventConsumerCheckpointOutcome)
        StorageError :=
  if bool_decide (revision s ≠ expected_revision) then
    Ok (s, Unchanged Checkpoint_StaleRevision)
  else if consumed s seq then Ok (s, Unchanged Checkpoint_Accepted)
  else Ok (set_consecutive_failures 0 (set_checkpoint (Some seq) s),
           Changed Checkpoint_Accepted).

Definition failure_edit (expected_revision seq : N) (error : string) (quarantine_after : N)
    (s : EventConsumerState) (_ : N)
    : result (EventConsumerState * ConsumerStateEdit EventConsumerFailureOutcome)
        StorageError :=
  if bool_decide (revision s ≠ expected_revision) then
    Ok (s, Unchanged Failure_StaleRevision)
  else if consumed s seq then Ok (s, Unchanged Failure_AlreadyConsumed)
  else
    let? attempts := ok_or (checked_add u32_max (consecutive_failures s) 1)
                       (CorruptLog "consumer failure count overflow") in
    let s := set_consecutive_failures attempts s in
    if bool_decide (quarantine_after ≤ attempts)%N then
      let? s := record_quarantine seq attempts error s in
      Ok (set_consecutive_failures 0 (set_checkpoint (Some seq) s),
          Changed (Failure_Quarantined attempts))
    else Ok (s, Changed (Failure_Recorded attempts)).

Definition pause_edit (p : bool) (s : EventConsumerState) (_ : N)
    : result (EventConsumerState * ConsumerStateEdit EventConsumerState) StorageError :=
  if bool_decide (paused s = p) then Ok (s, Unchanged s)
  else let s := set_paused p s in Ok (s, Changed s).

Definition checked_sub (a b : N) : option N :=
  if bool_decide (b ≤ a)%N then Some (a - b)%N else None.

Definition reset_edit (reset : EventConsumerCheckpointReset) (s : EventConsumerState)
    (event_count : N)
    : result (EventConsumerState * ConsumerStateEdit EventConsumerState) StorageError :=
  let previous_checkpoint := checkpoint s in
  let s := set_checkpoint (match reset with
                           | Reset_Beginning => None
                           | Reset_StreamHead => checked_sub event_count 1
                           end) s in
  let? r := ok_or (checked_add u64_max (revision s) 1)
              (CorruptLog "event consumer revision overflow") in
  let s := set_consecutive_failures 0 (set_revision r s) in
  match reset with
  | Reset_StreamHead =>
    if bool_decide (checkpoint s ≠ previous_checkpoint) then
      let? s := record_skip previous_checkpoint (checkpoint s) s in Ok (s, Changed s)
    else Ok (s, Changed s)
  | Reset_Beginning => Ok (s, Changed s)
  end.

(** *** The persisted consumer state ([session_repo/consumer_state.rs])

    The state file holds one [PersistedEventConsumerState]; its JSON encoding and the
    atomic replacement of the file are below this model. *)

Definition EVENT_CONSUMER_STATE_VERSION : N := 3.

Record PersistedEventConsumerState := {
  p_version : N;
  p_cursor : option N;
  p_paused : bool;
  p_revision : N;
  p_consecutive_failures : N;
  p_quarantined_count : N;
  p_skipped_count : N;
  p_quarantined : list EventConsumerQuarantine;
  p_skips : list EventConsumerSkip;
}.

Definition persisted_from (s : EventConsumerState) : PersistedEventConsumerState := {|
  p_version := EVENT_CONSUMER_STATE_VERSION; p_cursor := checkpoint s; p_paused := paused s;
  p_revision := revision s; p_consecutive_failures := consecutive_failures s;
  p_quarantined_count := quarantined_count s; p_skipped_count := skipped_count s;
  p_quarantined := quarantined s; p_skips := skips s |}.

Definition persisted_try_into (p : PersistedEventConsumerState)
    : result EventConsumerState StorageError :=
  let s := {| checkpoint := p_cursor p; paused := p_paused p; revision := p_revision p;
              consecutive_failures := p_consecutive_failures p;
              quarantined_count := p_quarantined_count p; skipped_count := p_skipped_count p;
              quarantined := p_quarantined p; skips := p_skips p |} in
  let? _ := validate_audit_bounds s in
  Ok s.

(** A missing file reads as the default state; [path] only shows in messages. *)
Definition read_event_consumer_state (path : string) (file : option PersistedEventConsumerState)
    : result EventConsumerState StorageError :=
  match file with
  | None => Ok consumer_default
  | Some p =>
    if bool_decide (p_version p ≠ EVENT_CONSUMER_STATE_VERSION) then
      Err (CorruptLog ("unsupported event consumer state version "
             +:+ u64_to_string (p_version p) +:+ " in " +:+ path))
    else persisted_try_into p
  end.

Definition write_event_consumer_state (s : EventConsumerState)
    : result PersistedEventConsumerState StorageError :=
  let? _ := validate_audit_bounds s in
  Ok (persisted_from s).

(** [SessionMeta::edit_consumer_state] under its lanes: the file afterwards and the
    result.  [seq_bound] is the noun of the message and the bounded sequence number. *)
Definition edit_consumer_state {T} (path : string) (file : option PersistedEventConsumerState)
    (event_count : N) (consumer_id : string) (seq_bound : option (string * N))
    (edit : EventConsumerState → N
              → result (EventConsumerState * ConsumerStateEdit T) StorageError)
    : option PersistedEventConsumerState * result T StorageError :=
  let outcome :=
    let? _ := match seq_bound with
              | Some (noun, seq) =>
                if bool_decide (event_count ≤ seq)%N then
                  Err (InvalidId ("event consumer " +:+ noun +:+ " " +:+ u64_to_string seq
                                  +:+ " is beyond the session event log"))
                else Ok ()
              | None => Ok ()
              end in
    let? _ := validate_event_consumer_id consumer_id in
    let? s := read_event_consumer_state path file in
    let? sv := edit s event_count in
    match sv with
    | (s, Changed v) => let? p := write_event_consumer_state s in Ok (Some p, v)
    | (_, Unchanged v) => Ok (file, v)
    end in
  match outcome with Ok (file, v) => (file, Ok v) | Err e => (file, Err e) end.
