(* ===== verification/StoreConsumers.v ===== *)
(** * Event consumers ([storage/src/session_repo/store.rs], [consumer_state.rs])

    The four operations on a durable event consumer, and what they preserve: the audit
    bounds the reader checks, checkpoints inside the log, progress that is never taken
    back within a revision, and quarantine after the configured number of failures. *)

From stdpp Require Import sorting.
From S2P Require Import Prelude Utf8 CoreTypes CoreLlm CoreEvent ProjViews ProjContext ProjReducer StoreTypes.

(** ** Operations

    The consumer operations of [SessionStore for FileSystemSessionRepository], on an
    opened session with [event_count] recorded events. *)

Section ops.
Context (path consumer_id : string) (event_count : N) (file : option PersistedEventConsumerState).

Definition event_consumer_state : result EventConsumerState StorageError :=
  let? _ := validate_event_consumer_id consumer_id in
  read_event_consumer_state path file.

Definition checkpoint_event_consumer (expected_revision seq : N) :=
  edit_consumer_state path file event_count consumer_id (Some ("checkpoint", seq))
    (checkpoint_edit expected_revision seq).

Definition record_event_consumer_failure (expected_revision seq : N) (error : string)
    (quarantine_after : N) :=
  if bool_decide (quarantine_after = 0)%N then
    (file, Err (InvalidId "event consumer quarantine limit must be greater than zero"))
  else
    edit_consumer_state path file event_count consumer_id (Some ("failure seq", seq))
      (failure_edit expected_revision seq error quarantine_after).

Definition set_event_consumer_paused (p : bool) :=
  edit_consumer_state path file event_count consumer_id None (pause_edit p).

Definition reset_event_consumer_checkpoint (reset : EventConsumerCheckpointReset) :=
  edit_consumer_state path file event_count consumer_id None (reset_edit reset).
End ops.

(** One call, and the file it leaves. *)
Inductive ConsumerOp :=
| Op_Checkpoint (expected_revision seq : N)
| Op_Failure (expected_revision seq : N) (error : string) (quarantine_after : N)
| Op_Paused (p : bool)
| Op_Reset (reset : EventConsumerCheckpointReset).

Definition run_consumer_op (path consumer_id : string) (event_count : N)
    (file : option PersistedEventConsumerState) (op : ConsumerOp)
    : option PersistedEventConsumerState :=
  match op with
  | Op_Checkpoint rev seq =>
    fst (checkpoint_event_consumer path consumer_id event_count file rev seq)
  | Op_Failure rev seq error limit =>
    fst (record_event_consumer_failure path consumer_id event_count file rev seq error limit)
  | Op_Paused p => fst (set_event_consumer_paused path consumer_id event_count file p)
  | Op_Reset reset => fst (reset_event_consumer_checkpoint path consumer_id event_count file reset)
  end.

(** ** Truncation *)

Lemma str_len_of_bytes b : str_len (of_bytes b) = N.of_nat (length b).
Proof. unfold str_len. by rewrite to_of_bytes. Qed.

Lemma truncate_utf8_len value max : (str_len (truncate_utf8 value max) ≤ max)%N.
Proof.
  unfold truncate_utf8. case_bool_decide; [done|]. rewrite str_len_of_bytes, length_take.
  pose proof (floor_boundary_le (to_bytes value) (N.to_nat max)). lia.
Qed.

(** ** Well-formed consumers *)

(** The conditions [validate_audit_bounds] checks, and a checkpoint inside the log. *)
Definition audit_ok (s : EventConsumerState) : Prop :=
  (N.of_nat (length (quarantined s)) ≤ EVENT_CONSUMER_AUDIT_RECORD_LIMIT)%N ∧
  (N.of_nat (length (skips s)) ≤ EVENT_CONSUMER_AUDIT_RECORD_LIMIT)%N ∧
  (N.of_nat (length (quarantined s)) ≤ quarantined_count s)%N ∧
  (N.of_nat (length (skips s)) ≤ skipped_count s)%N ∧
  Forall (λ r, str_len (q_last_error r) ≤ EVENT_CONSUMER_ERROR_MAX_BYTES)%N (quarantined s).

Definition in_log (event_count : N) (s : EventConsumerState) : Prop :=
  match checkpoint s with Some c => (c < event_count)%N | None => True end.

Lemma validate_audit_bounds_iff s : validate_audit_bounds s = Ok () ↔ audit_ok s.
Proof.
  unfold validate_audit_bounds, audit_ok, u64_try_from, EVENT_CONSUMER_AUDIT_RECORD_LIMIT.
  assert (existsb (λ r, bool_decide (EVENT_CONSUMER_ERROR_MAX_BYTES
      < str_len (q_last_error r))%N) (quarantined s) = false
    ↔ Forall (λ r, str_len (q_last_error r) ≤ EVENT_CONSUMER_ERROR_MAX_BYTES)%N
        (quarantined s)) as <-.
  { rewrite existsb_false_Forall. apply Forall_iff. intros r.
    rewrite bool_decide_eq_false. lia. }
  case_bool_decide; [naive_solver lia|]. case_bool_decide; [naive_solver lia|].
  rewrite !bool_decide_true by (unfold u64_max; lia). simpl.
  case_bool_decide; [naive_solver lia|]. case_bool_decide; [naive_solver lia|].
  destruct (existsb _ _); [naive_solver|]. split; [|done]. intros _. split_and!; lia || done.
Qed.

Lemma push_recent_length {T} (l : list T) x n :
  (N.of_nat (length l) ≤ EVENT_CONSUMER_AUDIT_RECORD_LIMIT)%N →
  (N.of_nat (length l) ≤ n)%N →
  (N.of_nat (length (push_recent l x)) ≤ EVENT_CONSUMER_AUDIT_RECORD_LIMIT)%N ∧
  (N.of_nat (length (push_recent l x)) ≤ n + 1)%N.
Proof.
  unfold push_recent, EVENT_CONSUMER_AUDIT_RECORD_LIMIT.
  case_bool_decide; rewrite length_app, ?length_drop; simpl; lia.
Qed.

Lemma push_recent_Forall {T} (P : T → Prop) l x :
  Forall P l → P x → Forall P (push_recent l x).
Proof.
  intros Hl Hx. unfold push_recent. apply Forall_app. split; [|by constructor].
  case_bool_decide; [by apply Forall_drop|done].
Qed.

Lemma record_quarantine_Ok seq attempts error s s' :
  record_quarantine seq attempts error s = Ok s' →
  audit_ok s → audit_ok s' ∧ revision s' = revision s ∧ checkpoint s' = checkpoint s.
Proof.
  unfold record_quarantine. destruct (existsb _ _); [by intros [= <-]|].
  destruct (checked_add _ _ _) as [n|] eqn:Hn; [|done]. intros [= <-] (H1 & H2 & H3 & H4 & H5).
  apply checked_add_Some in Hn as [-> _]. split; [|done].
  edestruct (push_recent_length (quarantined s)) as [Hl Hc]; [done..|].
  split_and!; [exact Hl|done|exact Hc|done|]. simpl.
  apply push_recent_Forall; [done|]. apply truncate_utf8_len.
Qed.

Lemma record_skip_Ok from to s s' :
  record_skip from to s = Ok s' →
  audit_ok s → audit_ok s' ∧ revision s' = revision s ∧ checkpoint s' = checkpoint s.
Proof.
  unfold record_skip. destruct (checked_add _ _ _) as [n|] eqn:Hn; [|done].
  intros [= <-] (H1 & H2 & H3 & H4 & H5). apply checked_add_Some in Hn as [-> _].
  split; [|done]. edestruct (push_recent_length (skips s)) as [Hl Hc]; [done..|].
  split_and!; [done|exact Hl|done|exact Hc|done].
Qed.

(** Progress: a checkpoint at least as far as another. *)
Definition reaches (c' c : option N) : Prop :=
  match c, c' with
  | None, _ => True
  | Some c, Some c' => (c ≤ c')%N
  | Some _, None => False
  end.

Lemma reaches_refl c : reaches c c.
Proof. by destruct c as [c|]; simpl. Qed.

(** What an edit does when its result is written. *)
Definition edit_sound {T} (cnt : N)
    (edit : EventConsumerState → N
              → result (EventConsumerState * ConsumerStateEdit T) StorageError)
    (rel : EventConsumerState → EventConsumerState → Prop) : Prop :=
  ∀ s s' v, edit s cnt = Ok (s', Changed v) → audit_ok s → in_log cnt s →
    audit_ok s' ∧ in_log cnt s' ∧ rel s s'.

(** The edits other than resets keep the revision and never take progress back. *)
Definition advances (s s' : EventConsumerState) : Prop :=
  revision s' = revision s ∧ reaches (checkpoint s') (checkpoint s).
Definition restarts (s s' : EventConsumerState) : Prop := revision s' = (revision s + 1)%N.

Lemma consumed_false s seq : consumed s seq = false → reaches (Some seq) (checkpoint s).
Proof. unfold consumed. destruct (checkpoint s); [|done]. intros H. bools. simpl. lia. Qed.

Lemma checkpoint_edit_sound cnt rev seq :
  (seq < cnt)%N → edit_sound cnt (checkpoint_edit rev seq) advances.
Proof.
  intros Hseq s s' v. unfold checkpoint_edit. case_bool_decide; [done|].
  destruct (consumed s seq) eqn:Hc; [done|]. intros [= <- _] Ha Hl.
  split_and!; [done..|]. split; [done|]. by apply consumed_false.
Qed.

Lemma failure_edit_sound cnt rev seq error limit :
  (seq < cnt)%N → edit_sound cnt (failure_edit rev seq error limit) advances.
Proof.
  intros Hseq s s' v. unfold failure_edit. case_bool_decide; [done|].
  destruct (consumed s seq) eqn:Hc; [done|].
  destruct (checked_add _ _ _) as [n|]; [|done]. simpl. case_bool_decide.
  - destruct (record_quarantine _ _ _ _) as [s1|] eqn:Hq; [|done]. intros [= <- _] Ha Hl.
    apply record_quarantine_Ok in Hq as (Ha1 & Hr & Hck); [|done].
    split_and!; [done..|]. split; [done|]. simpl. by apply consumed_false.
  - intros [= <- _] Ha Hl. split_and!; [done..|]. split; [done|]. apply reaches_refl.
Qed.

Lemma pause_edit_sound cnt p : edit_sound cnt (pause_edit p) advances.
Proof.
  intros s s' v. unfold pause_edit. case_bool_decide; [done|]. intros [= <- _] Ha Hl.
  split_and!; [done..|]. split; [done|]. apply reaches_refl.
Qed.

Lemma reset_edit_sound cnt reset : edit_sound cnt (reset_edit reset) restarts.
Proof.
  intros s s' v. unfold reset_edit, restarts.
  destruct (checked_add _ _ _) as [r|] eqn:Hr; [|done]. apply checked_add_Some in Hr as [-> _].
  simpl. destruct reset; [intros [= <- _] Ha Hl; by split_and!|].
  assert (∀ s0, checkpoint s0 = checked_sub cnt 1 → in_log cnt s0) as Hin.
  { intros s0 Hs0. unfold in_log. rewrite Hs0. unfold checked_sub. case_bool_decide; lia. }
  case_bool_decide.
  - destruct (record_skip _ _ _) as [s1|] eqn:Hs; [|done]. intros [= <- _] Ha Hl.
    apply record_skip_Ok in Hs as (Ha1 & Hr1 & Hc1); [|done].
    split_and!; [done| |done]. apply Hin. by rewrite Hc1.
  - intros [= <- _] Ha Hl. split_and!; [done| |done]. by apply Hin.
Qed.

(** ** Files *)

(** The file reads back as [s], a well-formed state. *)
Definition holds (path : string) (cnt : N) (file : option PersistedEventConsumerState)
    (s : EventConsumerState) : Prop :=
  read_event_consumer_state path file = Ok s ∧ audit_ok s ∧ in_log cnt s.

Lemma holds_default path cnt : holds path cnt None consumer_default.
Proof. split; [done|]. split; [|done]. unfold audit_ok. simpl. split_and!; done. Qed.

Lemma read_persisted path s :
  audit_ok s → read_event_consumer_state path (Some (persisted_from s)) = Ok s.
Proof.
  intros Ha. unfold read_event_consumer_state, persisted_try_into. simpl.
  destruct s as [ck p rev cf qc sc q sk]. simpl.
  apply validate_audit_bounds_iff in Ha. by rewrite Ha.
Qed.

(** An edit leaves the file, or a file that reads back as a well-formed state the
    edit's relation leads to. *)
Lemma edit_consumer_state_holds {T} path cnt file s id bound (edit : EventConsumerState → N
    → result (EventConsumerState * ConsumerStateEdit T) StorageError) rel :
  holds path cnt file s →
  (match bound with Some (_, seq) => (seq < cnt)%N | None => True end →
   edit_sound cnt edit rel) →
  let file' := fst (edit_consumer_state path file cnt id bound edit) in
  file' = file ∨ ∃ s', holds path cnt file' s' ∧ rel s s'.
Proof.
  intros (Hr & Ha & Hl) Hedit. unfold edit_consumer_state. rewrite Hr.
  destruct (match bound with Some (noun, seq) => _ | None => _ end) as [[]|] eqn:Hb; [|by left].
  destruct (validate_event_consumer_id id) as [[]|]; [|by left]. cbn [fst].
  destruct (edit s cnt) as [[s' [v|v]]|] eqn:He; [|by left..].
  destruct (Hedit ltac:(destruct bound as [[noun seq]|]; [case_bool_decide; [done|lia]|done])
    s s' v He Ha Hl) as (Ha' & Hl' & Hrel).
  unfold write_event_consumer_state. rewrite (proj2 (validate_audit_bounds_iff s') Ha').
  right. exists s'. split; [|done]. split; [by apply read_persisted|done].
Qed.

Lemma run_consumer_op_holds path id cnt file s op :
  holds path cnt file s →
  let file' := run_consumer_op path id cnt file op in
  file' = file ∨
  ∃ s', holds path cnt file' s' ∧
    match op with Op_Reset _ => restarts s s' | _ => advances s s' end.
Proof.
  intros Hf. destruct op; cbn [run_consumer_op].
  - eapply edit_consumer_state_holds; [done|]. apply checkpoint_edit_sound.
  - unfold record_event_consumer_failure. case_bool_decide; [by left|].
    eapply edit_consumer_state_holds; [done|]. apply failure_edit_sound.
  - eapply edit_consumer_state_holds; [done|]. intros _. apply pause_edit_sound.
  - eapply edit_consumer_state_holds; [done|]. intros _. apply reset_edit_sound.
Qed.

Lemma holds_weaken path cnt cnt' file s :
  (cnt ≤ cnt')%N → holds path cnt file s → holds path cnt' file s.
Proof.
  intros Hle (Hr & Ha & Hl). split_and!; [done..|]. unfold in_log in *.
  destruct (checkpoint s); [lia|done].
Qed.

(** Calls in sequence, each with the length of the log at its time. *)
Definition run_consumer_ops (path id : string) (file : option PersistedEventConsumerState)
    (calls : list (N * ConsumerOp)) : option PersistedEventConsumerState :=
  foldl (λ file c, run_consumer_op path id (fst c) file (snd c)) file calls.

(** A call for another revision leaves the file. *)
Lemma stale_unchanged path id cnt file s op :
  holds path cnt file s →
  match op with
  | Op_Checkpoint rev _ | Op_Failure rev _ _ _ => rev ≠ revision s
  | _ => False
  end →
  run_consumer_op path id cnt file op = file.
Proof.
  intros (Hr & _ & _) Hrev. destruct op; [| |done..]; cbn [run_consumer_op];
    unfold checkpoint_event_consumer, record_event_consumer_failure.
  2: case_bool_decide; [done|].
  all: unfold edit_consumer_state; rewrite Hr; case_bool_decide; [done|].
  all: destruct (validate_event_consumer_id id) as [[]|]; [|done].
  all: unfold checkpoint_edit, failure_edit; by rewrite bool_decide_true by done.
Qed.

(** ** Properties *)

(** The state of a consumer stays readable: after any sequence of calls against a
    growing log, whatever failed in between, the state file reads back without an error,
    within the audit bounds the reader checks and with its checkpoint inside the log. *)
Theorem consumer_state_readable path id calls cnt :
  StronglySorted N.le (map fst calls) → Forall (λ c, fst c ≤ cnt)%N calls →
  ∃ s, holds path cnt (run_consumer_ops path id None calls) s.
Proof.
  intros Hs. revert cnt. induction calls as [|[n op] calls IH] using rev_ind; intros cnt Hle.
  { exists consumer_default. apply holds_default. }
  rewrite map_app in Hs.
  assert (Hlast := λ x1 x2, StronglySorted_app_1_elem_of _ _ _ x1 x2 Hs).
  apply StronglySorted_app_1_l in Hs.
  apply Forall_app in Hle as [_ [Hn _]%Forall_cons]. simpl in Hn.
  destruct (IH Hs n) as [s Hf].
  { apply Forall_forall. intros c Hc. apply (Hlast (fst c) n); [|set_solver].
    apply list_elem_of_fmap. by exists c. }
  unfold run_consumer_ops. rewrite foldl_app. cbn [foldl fst snd].
  change (foldl _ None calls) with (run_consumer_ops path id None calls).
  apply (run_consumer_op_holds path id n _ s op) in Hf as Hop.
  destruct Hop as [->|(s' & Hf' & _)].
  - exists s. by eapply holds_weaken.
  - exists s'. by eapply holds_weaken.
Qed.

Lemma consumer_state_readable_witness :
  let calls := [(1%N, Op_Failure 0 0 "boom" 1); (3%N, Op_Reset Reset_StreamHead);
                (3%N, Op_Checkpoint 1 7); (4%N, Op_Checkpoint 1 3)] in
  ∃ s, holds "p" 4 (run_consumer_ops "p" "c" None calls) s ∧ checkpoint s = Some 3%N.
Proof.
  intros calls. destruct (consumer_state_readable "p" "c" calls 4) as [s Hs].
  - repeat constructor; simpl; lia.
  - repeat constructor; simpl; lia.
  - exists s. split; [done|]. destruct Hs as [Hs _]. vm_compute in Hs. by injection Hs as <-.
Defined.

(** At-least-once delivery never goes backwards: checkpoints, failures and pauses
    keep the revision and never move the checkpoint back, a reset starts a new revision,
    and a call that names another revision than the stored one changes nothing. *)
Theorem consumer_progress path id cnt file s op :
  holds path cnt file s →
  ∃ s', holds path cnt (run_consumer_op path id cnt file op) s' ∧
    match op with
    | Op_Reset _ => s' = s ∨ revision s' = (revision s + 1)%N
    | Op_Checkpoint rev _ | Op_Failure rev _ _ _ =>
      revision s' = revision s ∧ reaches (checkpoint s') (checkpoint s) ∧
      (rev ≠ revision s → s' = s)
    | Op_Paused _ => revision s' = revision s ∧ reaches (checkpoint s') (checkpoint s)
    end.
Proof.
  intros Hf.
  assert (∃ s', holds path cnt (run_consumer_op path id cnt file op) s' ∧
    match op with Op_Reset _ => s' = s ∨ restarts s s' | _ => advances s s' end)
    as (s' & Hf' & Hrel).
  { pose proof (run_consumer_op_holds path id cnt file s op Hf)
      as [->|(s' & Hf' & Hrel)].
    - exists s. split; [done|]. destruct op; [split..|by left]; done || apply reaches_refl.
    - exists s'. split; [done|]. destruct op; [done..|by right]. }
  exists s'. split; [done|]. destruct op; [| |done..].
  all: destruct Hrel as [Hrev Hck]; split_and!; [done..|]; intros Hne.
  all: destruct Hf as (Hr & Ha & Hl), Hf' as (Hr' & _ & _).
  all: rewrite (stale_unchanged path id cnt file s) in Hr' by (by split_and! || done); congruence.
Qed.

Lemma consumer_progress_witness :
  holds "p" 2 None consumer_default ∧
  ∃ s', holds "p" 2 (run_consumer_op "p" "c" 2 None (Op_Checkpoint 0 1)) s' ∧
    revision s' = 0%N ∧ reaches (checkpoint s') None ∧ (0%N ≠ 0%N → s' = consumer_default).
Proof.
  split; [apply holds_default|].
  apply (consumer_progress "p" "c" 2 None consumer_default (Op_Checkpoint 0 1)).
  apply holds_default.
Defined.

(** The outcomes of delivering one event [n] times, each attempt failing. *)
Fixpoint fail_repeatedly (n : nat) (path id : string) (cnt : N)
    (file : option PersistedEventConsumerState) (rev seq : N) (error : string) (limit : N)
    : list (result EventConsumerFailureOutcome StorageError)
      * option PersistedEventConsumerState :=
  match n with
  | O => ([], file)
  | S n =>
    let '(file, r) := record_event_consumer_failure path id cnt file rev seq error limit in
    let '(rs, file) := fail_repeatedly n path id cnt file rev seq error limit in
    (r :: rs, file)
  end.

Lemma record_failure_step path id cnt file s seq error limit :
  holds path cnt file s → is_empty id = false → (seq < cnt)%N → consumed s seq = false →
  (consecutive_failures s + 1 < limit ≤ u32_max)%N →
  let r := record_event_consumer_failure path id cnt file (revision s) seq error limit in
  let s' := set_consecutive_failures (consecutive_failures s + 1) s in
  snd r = Ok (Failure_Recorded (consecutive_failures s + 1)) ∧ holds path cnt (fst r) s'.
Proof.
  intros (Hr & Ha & Hl) Hid Hseq Hc Hlim.
  unfold record_event_consumer_failure. rewrite bool_decide_false by lia.
  unfold edit_consumer_state, validate_event_consumer_id. rewrite Hr, Hid.
  rewrite (bool_decide_false (cnt ≤ seq)%N) by lia. unfold failure_edit.
  rewrite bool_decide_false by (intros ?; done). rewrite Hc.
  unfold checked_add. rewrite bool_decide_true by lia. cbn [ok_or].
  rewrite bool_decide_false by lia. unfold write_event_consumer_state.
  set (s' := set_consecutive_failures _ s). assert (audit_ok s') as Ha' by done.
  rewrite (proj2 (validate_audit_bounds_iff s') Ha'). cbn [fst snd].
  split; [done|]. split; [by apply read_persisted|done].
Qed.

Lemma record_failure_quarantines path id cnt file s seq error limit :
  holds path cnt file s → is_empty id = false → (seq < cnt)%N → consumed s seq = false →
  (quarantined_count s < u64_max)%N → (0 < limit ≤ consecutive_failures s + 1)%N →
  (consecutive_failures s + 1 ≤ u32_max)%N →
  let r := record_event_consumer_failure path id cnt file (revision s) seq error limit in
  snd r = Ok (Failure_Quarantined (consecutive_failures s + 1)) ∧
  ∃ s', holds path cnt (fst r) s' ∧ checkpoint s' = Some seq ∧ consecutive_failures s' = 0%N ∧
    revision s' = revision s ∧ paused s' = paused s ∧ (quarantined_count s' ≤ quarantined_count s + 1)%N.
Proof.
  intros (Hr & Ha & Hl) Hid Hseq Hc Hq Hlim Hmax.
  unfold record_event_consumer_failure. rewrite bool_decide_false by lia.
  unfold edit_consumer_state, validate_event_consumer_id. rewrite Hr, Hid.
  rewrite (bool_decide_false (cnt ≤ seq)%N) by lia. unfold failure_edit.
  rewrite bool_decide_false by (intros ?; done). rewrite Hc.
  unfold checked_add. rewrite bool_decide_true by lia. cbn [ok_or].
  rewrite bool_decide_true by lia. set (s1 := set_consecutive_failures _ s).
  destruct (record_quarantine _ _ _ s1) as [s2|] eqn:Hrq.
  2:{ unfold record_quarantine, checked_add in Hrq. destruct (existsb _ _); [done|].
      by rewrite bool_decide_true in Hrq by (simpl; lia). }
  assert (paused s2 = paused s ∧ quarantined_count s2 ≤ quarantined_count s + 1)%N as [Hp Hq2].
  { unfold record_quarantine in Hrq. destruct (existsb _ _); [injection Hrq as <-; simpl; split; [done|lia]|].
    destruct (checked_add _ _ _) as [n|] eqn:Hn; [|done]. apply checked_add_Some in Hn as [-> _]. injection Hrq as <-.
    split; [done|]. simpl. lia. }
  apply record_quarantine_Ok in Hrq as (Ha2 & Hrev & _); [|done].
  unfold write_event_consumer_state.
  set (s3 := set_consecutive_failures 0 _). assert (audit_ok s3) as Ha3 by done.
  rewrite (proj2 (validate_audit_bounds_iff s3) Ha3). cbn [fst snd].
  split; [done|]. exists s3. split; [|done]. split; [by apply read_persisted|]. done.
Qed.

Lemma record_failure_limit path id cnt file s seq error :
  holds path cnt file s → is_empty id = false → (seq < cnt)%N → consumed s seq = false →
  (quarantined_count s < u64_max)%N → (consecutive_failures s + 1 ≤ u32_max)%N →
  let limit := (consecutive_failures s + 1)%N in
  let r := record_event_consumer_failure path id cnt file (revision s) seq error limit in
  snd r = Ok (Failure_Quarantined limit) ∧
  ∃ s', holds path cnt (fst r) s' ∧ checkpoint s' = Some seq ∧ consecutive_failures s' = 0%N.
Proof.
  intros Hf Hid Hseq Hc Hq Hlim limit.
  destruct (record_failure_quarantines path id cnt file s seq error limit) as (Hr & s' & H1 & H2 & H3 & _); [done..|lia|done|].
  split; [done|]. by exists s'.
Qed.

Lemma fail_repeatedly_spec path id cnt sq error n k file s :
  holds path cnt file s → is_empty id = false → (sq < cnt)%N → consumed s sq = false →
  consecutive_failures s = N.of_nat k → (quarantined_count s < u64_max)%N →
  (N.of_nat (k + S n) ≤ u32_max)%N →
  let r := fail_repeatedly (S n) path id cnt file (revision s) sq error (N.of_nat (k + S n)) in
  fst r = map (λ i, Ok (Failure_Recorded (N.of_nat i))) (seq (S k) n)
            ++ [Ok (Failure_Quarantined (N.of_nat (k + S n)))] ∧
  ∃ s', holds path cnt (snd r) s' ∧ checkpoint s' = Some sq ∧ consecutive_failures s' = 0%N.
Proof.
  intros Hf Hid Hsq. revert k file s Hf. induction n as [|n IH]; intros k file s Hf Hc Hk Hq Hlim.
  - edestruct (record_failure_limit path id cnt file s sq error) as [Hr Hs];
      [done..|rewrite Hk; lia|].
    replace (consecutive_failures s + 1)%N with (N.of_nat (k + 1)) in * by lia.
    cbn [fail_repeatedly]. destruct (record_event_consumer_failure _ _ _ _ _ _ _ _) as [f' r].
    cbn [fst snd] in *. by rewrite Hr.
  - edestruct (record_failure_step path id cnt file s sq error (N.of_nat (k + S (S n))))
      as [Hr Hs]; [done..|rewrite Hk; lia|].
    remember (S n) as n1. cbn [fail_repeatedly].
    destruct (record_event_consumer_failure _ _ _ _ _ _ _ _) as [f' r]. cbn [fst snd] in *.
    rewrite <-Nat.add_succ_comm. rewrite Hr, Hk. clear Hr.
    eapply (IH (S k)) in Hs; [|done|simpl; rewrite Hk; lia|done|lia]. cbn [revision] in Hs.
    change (revision (set_consecutive_failures _ s)) with (revision s) in Hs.
    subst n1. destruct (fail_repeatedly (S n) _ _ _ f' _ _ _ _) as [rs f'']. cbn [fst snd] in *.
    destruct Hs as [-> Hs]. split; [|done].
    replace (N.of_nat k + 1)%N with (N.of_nat (S k)) by lia. done.
Qed.

(** An event that keeps failing is quarantined at the limit and not before: with a
    limit of [n], the first [n - 1] failed deliveries are counted and the [n]-th one
    quarantines the event, moves the checkpoint past it and clears the count, so that the
    consumer never blocks on it. *)
Theorem quarantine_at_limit path id cnt file s sq error n :
  holds path cnt file s → is_empty id = false → (sq < cnt)%N → consumed s sq = false →
  consecutive_failures s = 0%N → (quarantined_count s < u64_max)%N →
  (N.of_nat (S n) ≤ u32_max)%N →
  let r := fail_repeatedly (S n) path id cnt file (revision s) sq error (N.of_nat (S n)) in
  fst r = map (λ i, Ok (Failure_Recorded (N.of_nat i))) (seq 1 n)
            ++ [Ok (Failure_Quarantined (N.of_nat (S n)))] ∧
  ∃ s', holds path cnt (snd r) s' ∧ checkpoint s' = Some sq ∧ consecutive_failures s' = 0%N.
Proof. intros. by apply (fail_repeatedly_spec path id cnt sq error n 0). Qed.

Lemma quarantine_at_limit_witness :
  let r := fail_repeatedly 3 "p" "c" 5 None 0 4 "boom" 3 in
  fst r = [Ok (Failure_Recorded 1); Ok (Failure_Recorded 2); Ok (Failure_Quarantined 3)] ∧
  ∃ s', holds "p" 5 (snd r) s' ∧ checkpoint s' = Some 4%N ∧ consecutive_failures s' = 0%N.
Proof.
  apply (quarantine_at_limit "p" "c" 5 None consumer_default 4 "boom" 2); try done.
Defined.
