(* ===== verification/StoreLog.v ===== *)
(** * The append-only event log ([storage/src/event_log.rs])

    One JSONL file per session: stream validation, forward and reverse scans, recovery of
    a torn tail, and the writer with its rollback.  A file is its list of bytes.  [serde]'s
    encoding of an event is the parameter [EventCodec]; what a write, a truncation or an
    fsync of the operating system does is an argument of the operation that makes it.

    The second chapter: the writer of the log. *)

From S2P Require Import Prelude Utf8 CoreTypes CoreLlm CoreEvent ProjViews ProjContext ProjReducer StoreTypes.

(** [serde_json::to_writer] and [serde_json::from_str] on [StoredEvent]. *)
Class EventCodec := {
  event_to_json : StoredEvent → result string string;
  event_from_str : string → result StoredEvent string;
}.

Definition newline_byte : ascii := ascii_of_N 10.

(** ** Messages *)

Definition enhance_open_error (path : string) (e : IoError) : string :=
  match io_kind e with
  | Kind_PermissionDenied =>
    "permission denied: cannot open session file '" +:+ path
      +:+ "'. Check file permissions or if another process has locked it."
  | Kind_NotFound =>
    "session file '" +:+ path +:+ "' not found. The session may have been deleted."
  | _ => "failed to open session file '" +:+ path +:+ "'"
  end.

Definition enhance_read_error (path : string) (e : IoError) : string :=
  match io_kind e with
  | Kind_InvalidData =>
    "session file '" +:+ path +:+ "' contains invalid UTF-8 data. The file may be corrupted. "
      +:+ "Consider deleting this session."
  | Kind_UnexpectedEof =>
    "unexpected end of session file '" +:+ path
      +:+ "'. The file may be truncated or still being written."
  | _ => "failed to read session file '" +:+ path +:+ "' (I/O error: " +:+ io_message e +:+ ")"
  end.

Definition enhance_flush_error (path : string) (e : IoError) : string :=
  "failed to flush event log '" +:+ path +:+ "': " +:+ io_message e.
Definition enhance_sync_error (path : string) (e : IoError) : string :=
  "failed to sync event log '" +:+ path +:+ "' to disk: " +:+ io_message e.

(** [StorageError::Io(Error::new(e.kind(), enhance(path, e)))]. *)
Definition enhanced (enhance : string → IoError → string) (path : string) (e : IoError)
    : StorageError :=
  Io {| io_kind := io_kind e; io_message := enhance path e |}.

Definition corrupt_log (path : string) (line_number : N) (message : string) : StorageError :=
  CorruptLog (path +:+ ":" +:+ u64_to_string line_number +:+ ": " +:+ message).

(** ** Stream validation *)

Record EventStreamValidator := {
  v_session_id : option SessionId;
  v_next_seq : N;
}.

Definition validator_default : EventStreamValidator :=
  {| v_session_id := None; v_next_seq := 0 |}.

(** The check of an event's own fields; the warning on an epoch timestamp has no effect. *)
Definition validate_event (event : StoredEvent) (line_number : N) (path : string)
    : result () StorageError :=
  if is_empty (SessionId_str (se_session_id event)) then
    Err (InvalidId ("event at " +:+ path +:+ ":" +:+ u64_to_string line_number
                    +:+ " has empty session_id"))
  else Ok ().

Definition has_turn (e : DurableEvent) : bool :=
  match ev_turn_id e with Some _ => true | None => false end.

Definition observe (v : EventStreamValidator) (event : StoredEvent) (line_number : N)
    (path : string) : result EventStreamValidator StorageError :=
  if bool_decide (se_seq event ≠ v_next_seq v) then
    Err (corrupt_log path line_number
      ("expected seq " +:+ u64_to_string (v_next_seq v) +:+ ", got "
       +:+ u64_to_string (se_seq event)))
  else
    let? session_id :=
      match v_session_id v with
      | None =>
        if has_turn (se_event event) then
          Err (corrupt_log path line_number "SessionStarted must be a session-level event")
        else if negb (is_session_started (se_payload event)) then
          Err (corrupt_log path line_number "first event must be SessionStarted")
        else Ok (se_session_id event)
      | Some sid =>
        if bool_decide (se_session_id event ≠ sid) then
          Err (corrupt_log path line_number
            ("event belongs to session " +:+ SessionId_str (se_session_id event)
             +:+ ", expected " +:+ SessionId_str sid))
        else if is_session_started (se_payload event) then
          Err (corrupt_log path line_number "SessionStarted may only appear at seq 0")
        else Ok sid
      end in
    Ok {| v_session_id := Some session_id;
          v_next_seq := wrapping_add u64_max (v_next_seq v) 1 |}.

Definition validator_finish (v : EventStreamValidator) (path : string)
    : result () StorageError :=
  match v_session_id v with
  | None => Err (CorruptLog (path +:+ " is empty"))
  | Some _ => Ok ()
  end.

Section scan.
Context `{EventCodec} (path : string).

Definition parse_event_line (line_number : N) (line : string)
    : result StoredEvent StorageError :=
  let trimmed := trim line in
  let? event := map_err (λ error,
    let preview := if bool_decide (100 < str_len trimmed)%N
                   then truncate_utf8 trimmed 100 +:+ "..." else trimmed in
    CorruptLog ("failed to parse event at " +:+ path +:+ ":" +:+ u64_to_string line_number
      +:+ " (content: '" +:+ preview +:+ "'): " +:+ error)) (event_from_str trimmed) in
  let? _ := validate_event event line_number path in
  Ok event.

(** ** Forward scan *)

(** The lines of a file with their terminators, as successive [read_line] calls return
    them; only the last can lack its newline. *)
Fixpoint read_lines (b : bytes) : list bytes :=
  match b with
  | [] => []
  | c :: b =>
    if decide (c = newline_byte) then [c] :: read_lines b
    else match read_lines b with
         | [] => [[c]]
         | l :: ls => (c :: l) :: ls
         end
  end.

Definition ends_with_newline (l : bytes) : bool := bool_decide (last l = Some newline_byte).

(** The loop of [scan_events_at_path]; [visit] threads the state of the caller and says
    whether to go on. *)
Fixpoint scan_lines {S} (visit : S → StoredEvent → result (S * bool) StorageError)
    (v : EventStreamValidator) (line_number : N) (s : S) (lines : list bytes)
    : result S StorageError :=
  match lines with
  | [] => let? _ := validator_finish v path in Ok s
  | line :: lines =>
    if negb (utf8_valid line) then
      Err (enhanced enhance_read_error path
        {| io_kind := Kind_InvalidData; io_message := "stream did not contain valid UTF-8" |})
    else if negb (ends_with_newline line) then
      let? _ := validator_finish v path in Ok s
    else if is_empty (trim (of_bytes line)) then scan_lines visit v line_number s lines
    else
      let line_number := (line_number + 1)%N in
      let? event := parse_event_line line_number (of_bytes line) in
      let? v := observe v event line_number path in
      let? sc := visit s event in
      if snd sc then scan_lines visit v line_number (fst sc) lines else Ok (fst sc)
  end.

Definition limit_bytes (max_bytes : option N) (file : bytes) : bytes :=
  match max_bytes with Some n => take (N.to_nat n) file | None => file end.

Definition scan_events_at_path {S} (file : bytes) (max_bytes : option N)
    (visit : S → StoredEvent → result (S * bool) StorageError) (s : S)
    : result S StorageError :=
  scan_lines visit validator_default 0 s (read_lines (limit_bytes max_bytes file)).

(** The visitor of [replay_events_at_path]. *)
Definition collect_event (after_seq : option N) (max_events : option N)
    (events : list StoredEvent) (event : StoredEvent)
    : result (list StoredEvent * bool) StorageError :=
  let events := match after_seq with
                | Some seq => if bool_decide (seq < se_seq event)%N
                              then events ++ [event] else events
                | None => events ++ [event]
                end in
  Ok (events, match max_events with
              | Some limit => negb (bool_decide (limit ≤ N.of_nat (length events))%N)
              | None => true
              end).

Definition replay_events_at_path (file : bytes) (max_bytes after_seq max_events : option N)
    : result (list StoredEvent) StorageError :=
  if bool_decide (max_events = Some 0%N) then Ok []
  else scan_events_at_path file max_bytes (collect_event after_seq max_events) [].

(** [read_summary_at_path] on an existing file. *)
Definition read_summary_at_path (to_rfc3339 : DateTime → string) (session_id : SessionId)
    (file : bytes) (max_bytes : option N) : result SessionSummary StorageError :=
  let failed e := CorruptLog (path +:+ ": " +:+ ProjectionError_to_string e) in
  let? p := scan_events_at_path file max_bytes (λ p event,
    let? p := map_err failed (summary_projection_apply to_rfc3339 p event) in Ok (p, true))
    (summary_projection_new session_id) in
  map_err failed (summary_projection_snapshot p).

(** ** Backward search for the commit marker *)

(** The chunked search both [last_committed_offset] and [recover_incomplete_tail] make
    from the end of the file: the offset behind the last newline before [position]. *)
Fixpoint find_committed (chunk : N) (fuel : nat) (file : bytes) (position : N) : option N :=
  match fuel with
  | O => None
  | S fuel =>
    if bool_decide (position = 0)%N then None
    else
      let start := saturating_sub position chunk in
      let window := take (N.to_nat (position - start)) (drop (N.to_nat start) file) in
      match rposition (λ c, bool_decide (c = newline_byte)) window with
      | Some i => Some (start + N.of_nat i + 1)%N
      | None => find_committed chunk fuel file start
      end
  end.

Definition file_len (file : bytes) : N := N.of_nat (length file).

Definition TAIL_SCAN_BYTES : N := 8 * 1024.
Definition last_committed_offset (file : bytes) : option N :=
  find_committed TAIL_SCAN_BYTES (S (length file)) file (file_len file).

Definition SCAN_CHUNK_SIZE : N := 8 * 1024.

(** The file after recovery and the result; [sync] is what fsync reports. *)
Definition recover_incomplete_tail (file : bytes) (sync : result () IoError)
    : bytes * result () StorageError :=
  if bool_decide (file_len file = 0)%N then (file, Ok ())
  else if bool_decide (last file = Some newline_byte) then (file, Ok ())
  else
    match find_committed SCAN_CHUNK_SIZE (S (length file)) file (file_len file) with
    | Some committed_len => (take (N.to_nat committed_len) file, map_err Io sync)
    | None =>
      (file, Err (Io {| io_kind := Kind_InvalidData;
         io_message := "event log '" +:+ path
           +:+ "' has no committed newline-terminated record" |}))
    end.

(** ** Reverse scan *)

Definition REVERSE_SCAN_CHUNK_BYTES : N := 64 * 1024.

(** [u8::is_ascii_whitespace]. *)
Definition is_ascii_whitespace (c : ascii) : bool :=
  byte_in c 32 32 || byte_in c 9 10 || byte_in c 12 13.

(** [slice.split(|byte| *byte == b'\n')]; [rsplit] gives the same pieces from the end. *)
Fixpoint split_newline (b : bytes) : list bytes :=
  match b with
  | [] => [[]]
  | c :: b =>
    if decide (c = newline_byte) then [] :: split_newline b
    else match split_newline b with
         | [] => [[c]]
         | l :: ls => (c :: l) :: ls
         end
  end.
Definition rsplit_newline (b : bytes) : list bytes := rev (split_newline b).

(** The loop-carried variables of [replay_events_before_at_path]. *)
Record ReverseScan := {
  rs_events : list StoredEvent;
  rs_newer_seq : option N;
  rs_session_id : option SessionId;
}.

(** The loop over the lines of one chunk, leaving early once [max_events] are found. *)
Fixpoint reverse_lines (before_seq : option N) (max_events : N) (st : ReverseScan)
    (lines : list bytes) : result ReverseScan StorageError :=
  match lines with
  | [] => Ok st
  | line :: lines =>
    if forallb is_ascii_whitespace line then reverse_lines before_seq max_events st lines
    else
      let? _ := match utf8_error 0 line with
                | Some error => Err (CorruptLog ("event at " +:+ path +:+ " is not valid UTF-8: "
                                                 +:+ utf8_error_to_string error))
                | None => Ok ()
                end in
      let? event := parse_event_line 0 (of_bytes line) in
      let? _ := match rs_newer_seq st with
                | Some expected_newer =>
                  if bool_decide (checked_add u64_max (se_seq event) 1 ≠ Some expected_newer)
                  then Err (corrupt_log path 0
                    ("expected reverse seq " +:+ u64_to_string (saturating_sub expected_newer 1)
                     +:+ ", got " +:+ u64_to_string (se_seq event)))
                  else Ok ()
                | None => Ok ()
                end in
      let? session_id := match rs_session_id st with
                | Some expected_session =>
                  if bool_decide (se_session_id event ≠ expected_session)
                  then Err (corrupt_log path 0
                    ("event belongs to session " +:+ SessionId_str (se_session_id event)
                     +:+ ", expected " +:+ SessionId_str expected_session))
                  else Ok expected_session
                | None => Ok (se_session_id event)
                end in
      let wanted := match before_seq with
                    | Some before => bool_decide (se_seq event < before)%N
                    | None => true
                    end in
      let st := {| rs_events := if wanted then rs_events st ++ [event] else rs_events st;
                   rs_newer_seq := Some (se_seq event);
                   rs_session_id := Some session_id |} in
      if wanted && bool_decide (N.of_nat (length (rs_events st)) = max_events)
      then Ok st
      else reverse_lines before_seq max_events st lines
  end.

(** The complete lines of a chunk and the fragment that starts before it. *)
Definition split_chunk (start : N) (chunk : bytes) : bytes * bytes :=
  if bool_decide (start = 0)%N then (chunk, [])
  else match list_find (eq newline_byte) chunk with
       | Some (first_newline, _) => (drop (S first_newline) chunk, take first_newline chunk)
       | None => ([], chunk)
       end.

Fixpoint reverse_chunks (chunk_bytes : N) (fuel : nat) (file : bytes) (before_seq : option N)
    (max_events : N) (position : N) (leading_fragment : bytes) (st : ReverseScan)
    : result ReverseScan StorageError :=
  match fuel with
  | O => Ok st
  | S fuel =>
    if bool_decide (position = 0)%N || negb (bool_decide (N.of_nat (length (rs_events st))
                                                          < max_events)%N)
    then Ok st
    else
      let start := saturating_sub position chunk_bytes in
      let chunk := take (N.to_nat (position - start)) (drop (N.to_nat start) file)
                   ++ leading_fragment in
      let '(complete, next_fragment) := split_chunk start chunk in
      let? st := reverse_lines before_seq max_events st (rsplit_newline complete) in
      reverse_chunks chunk_bytes fuel file before_seq max_events start next_fragment st
  end.

Definition replay_events_before_at_path (file : bytes) (before_seq : option N) (max_events : N)
    : result (list StoredEvent) StorageError :=
  if bool_decide (max_events = 0)%N then Ok []
  else
    match last_committed_offset file with
    | None => Ok []
    | Some position =>
      let? st := reverse_chunks REVERSE_SCAN_CHUNK_BYTES (S (length file)) file before_seq
                   max_events position []
                   {| rs_events := []; rs_newer_seq := None; rs_session_id := None |} in
      Ok (rev (rs_events st))
    end.
End scan.

(** * The writer of the event log ([storage/src/event_log.rs])

    Creation, recovery on open, batched appends with rollback of partial writes, and
    fsync.  The writer's channel carries one request at a time, so an operation is a
    function from the writer's state to its next state and reply. *)

(** ** What the operating system does *)

(** [set_len] and [seek] of the rollback. *)
Inductive RollbackOutcome :=
| Rollback_Ok
| Rollback_SetLenFailed (e : IoError)
| Rollback_SeekFailed (e : IoError).

(** [write_all] and [flush]: all bytes, or a failure after [written] of them. *)
Inductive WriteOutcome :=
| Write_Ok
| Write_Failed (written : nat) (e : IoError) (rollback : RollbackOutcome).

Inductive SyncOutcome :=
| Sync_Ok
| Sync_FlushFailed (e : IoError)
| Sync_Failed (e : IoError).

(** ** State *)

(** The file is the one the handle has open; both ways to open it leave the position at
    the end of the committed records while the writer is not poisoned. *)
Record WriterState := {
  w_file : bytes;
  w_session_id : SessionId;
  w_next_seq : N;
  w_committed_len : N;
  w_path : string;
  w_dirty : bool;
  w_poisoned : option string;
}.

Definition set_file (f : bytes) (st : WriterState) : WriterState :=
  {| w_file := f; w_session_id := w_session_id st; w_next_seq := w_next_seq st;
     w_committed_len := w_committed_len st; w_path := w_path st; w_dirty := w_dirty st;
     w_poisoned := w_poisoned st |}.
Definition set_committed_len (n : N) (st : WriterState) : WriterState :=
  {| w_file := w_file st; w_session_id := w_session_id st; w_next_seq := w_next_seq st;
     w_committed_len := n; w_path := w_path st; w_dirty := w_dirty st;
     w_poisoned := w_poisoned st |}.
Definition set_poisoned (reason : string) (st : WriterState) : WriterState :=
  {| w_file := w_file st; w_session_id := w_session_id st; w_next_seq := w_next_seq st;
     w_committed_len := w_committed_len st; w_path := w_path st; w_dirty := w_dirty st;
     w_poisoned := Some reason |}.
Definition set_next_seq (n : N) (st : WriterState) : WriterState :=
  {| w_file := w_file st; w_session_id := w_session_id st; w_next_seq := n;
     w_committed_len := w_committed_len st; w_path := w_path st; w_dirty := w_dirty st;
     w_poisoned := w_poisoned st |}.
Definition set_dirty (d : bool) (st : WriterState) : WriterState :=
  {| w_file := w_file st; w_session_id := w_session_id st; w_next_seq := w_next_seq st;
     w_committed_len := w_committed_len st; w_path := w_path st; w_dirty := d;
     w_poisoned := w_poisoned st |}.

(** [set_len] shortens or zero-extends the file. *)
Definition set_len (n : N) (file : bytes) : bytes :=
  take (N.to_nat n) file ++ replicate (N.to_nat n - length file) (ascii_of_N 0).

Definition rollback_partial_write (committed_len : N) (outcome : RollbackOutcome)
    (st : WriterState) : WriterState * result () IoError :=
  match outcome with
  | Rollback_SetLenFailed e => (st, Err e)
  | Rollback_SeekFailed e => (set_file (set_len committed_len (w_file st)) st, Err e)
  | Rollback_Ok =>
    (set_committed_len committed_len (set_file (set_len committed_len (w_file st)) st), Ok ())
  end.

Definition write_committed_record (encoded : bytes) (outcome : WriteOutcome) (st : WriterState)
    : WriterState * result () StorageError :=
  match w_poisoned st with
  | Some reason =>
    (st, Err (Io (io_other
      ("event log writer is unavailable after failed recovery: " +:+ reason))))
  | None =>
    let committed_len := w_committed_len st in
    match outcome with
    | Write_Ok =>
      (set_committed_len (saturating_add u64_max (w_committed_len st) (file_len encoded))
         (set_file (w_file st ++ encoded) st), Ok ())
    | Write_Failed written write_error rollback =>
      let st := set_file (w_file st ++ take written encoded) st in
      match rollback_partial_write committed_len rollback st with
      | (st, Err rollback_error) =>
        let reason := "write failed: " +:+ io_message write_error +:+ "; rollback to "
          +:+ u64_to_string committed_len +:+ " bytes failed: " +:+ io_message rollback_error in
        (set_poisoned reason st,
         Err (Io {| io_kind := io_kind write_error; io_message := reason |}))
      | (st, Ok _) =>
        (st, Err (Io {| io_kind := io_kind write_error;
           io_message := "failed to append event log '" +:+ w_path st
             +:+ "'; partial write was rolled back: " +:+ io_message write_error |}))
      end
    end
  end.

Section writer.
Context `{EventCodec}.

(** The record of one event: its JSON text and the newline that commits it. *)
Definition encode_record (e : StoredEvent) : result bytes StorageError :=
  let? json := map_err Serialization (event_to_json e) in
  Ok (to_bytes json ++ [newline_byte]).

(** The loop of [append_stored_batch]: the encoded batch and the next number. *)
Fixpoint encode_batch (session_id : SessionId) (next_seq : N) (events : list StoredEvent)
    : result (bytes * N) StorageError :=
  match events with
  | [] => Ok ([], next_seq)
  | event :: events =>
    if bool_decide (se_seq event ≠ next_seq) then
      Err (InvalidEvent ("event log expected seq " +:+ u64_to_string next_seq +:+ ", got "
                         +:+ u64_to_string (se_seq event)))
    else if bool_decide (se_session_id event ≠ session_id) then
      Err (InvalidEvent ("cannot append event for session "
        +:+ SessionId_str (se_session_id event) +:+ " to log for " +:+ SessionId_str session_id))
    else if is_session_started (se_payload event) then
      Err (InvalidEvent "SessionStarted may only be written while creating a log")
    else
      let? record := encode_record event in
      let? next_seq := ok_or (checked_add u64_max next_seq 1)
                         (CorruptLog "session event sequence overflow") in
      let? rest := encode_batch session_id next_seq events in
      Ok (record ++ fst rest, snd rest)
  end.

Definition append_stored_batch (events : list StoredEvent) (outcome : WriteOutcome)
    (st : WriterState) : WriterState * result () StorageError :=
  if Nat.eqb (length events) 0 then
    (st, Err (InvalidEvent "event log batch cannot be empty"))
  else
    match encode_batch (w_session_id st) (w_next_seq st) events with
    | Err e => (st, Err e)
    | Ok (encoded, next_seq) =>
      match write_committed_record encoded outcome st with
      | (st, Err e) => (st, Err e)
      | (st, Ok _) => (set_dirty true (set_next_seq next_seq st), Ok ())
      end
    end.

Definition flush_and_sync (outcome : SyncOutcome) (st : WriterState)
    : WriterState * result () StorageError :=
  if negb (w_dirty st) then (st, Ok ())
  else
    match outcome with
    | Sync_FlushFailed e => (st, Err (enhanced enhance_flush_error (w_path st) e))
    | Sync_Failed e => (st, Err (enhanced enhance_sync_error (w_path st) e))
    | Sync_Ok => (set_dirty false st, Ok ())
    end.

(** What creating a file may run into, in the order of the calls. *)
Inductive CreateOutcome :=
| Create_Ok
| Create_OpenFailed (e : IoError)
| Create_WriteFailed (written : nat) (e : IoError)
| Create_FlushFailed (e : IoError)
| Create_SyncFailed (e : IoError).

(** [create_at_path]: the file afterwards and the result; [create_new] refuses an
    existing file. *)
Definition create_at_path (path : string) (initial_event : DurableEvent)
    (existing : option bytes) (outcome : CreateOutcome)
    : option bytes * result (WriterState * StoredEvent) StorageError :=
  if has_turn initial_event || negb (is_session_started (ev_payload initial_event)) then
    (existing, Err (InvalidEvent
      "event log creation requires a session-level SessionStarted event"))
  else
    let stored_event := StoredEvent_new 0 initial_event in
    match existing, outcome with
    | Some _, _ =>
      (existing, Err (enhanced enhance_open_error path
         {| io_kind := Kind_AlreadyExists; io_message := "File exists" |}))
    | None, Create_OpenFailed e => (None, Err (enhanced enhance_open_error path e))
    | None, _ =>
      match encode_record stored_event with
      | Err e => (Some [], Err e)
      | Ok encoded =>
        match outcome with
        | Create_WriteFailed written e => (Some (take written encoded), Err (Io e))
        | Create_FlushFailed e =>
          (Some encoded, Err (enhanced enhance_flush_error path e))
        | Create_SyncFailed e => (Some encoded, Err (enhanced enhance_sync_error path e))
        | _ =>
          (Some encoded,
           Ok ({| w_file := encoded; w_session_id := ev_session_id initial_event;
                  w_next_seq := 1; w_committed_len := file_len encoded; w_path := path;
                  w_dirty := false; w_poisoned := None |}, stored_event))
        end
      end
    end.

(** [sync_existing_log]: the length to trust once fsync has confirmed it. *)
Definition sync_existing_log (path : string) (file : bytes) (sync : result () IoError)
    : result N StorageError :=
  let? _ := map_err (enhanced enhance_sync_error path) sync in
  Ok (file_len file).

(** [open_at_path]: the file afterwards, the writer and the validated events.
    [recover_sync] and [confirm_sync] are what the two fsyncs report. *)
Definition open_at_path (path : string) (file : option bytes)
    (recover_sync confirm_sync : result () IoError)
    : option bytes * result (WriterState * list StoredEvent) StorageError :=
  match file with
  | None =>
    (None, Err (Io {| io_kind := Kind_NotFound;
                      io_message := "Event log not found: " +:+ path |}))
  | Some file =>
    let '(file, recovered) := recover_incomplete_tail path file recover_sync in
    (Some file,
     let? _ := recovered in
     let? confirmed_len := sync_existing_log path file confirm_sync in
     let? events := replay_events_at_path path file (Some confirmed_len) None None in
     let? first := ok_or (head events) (CorruptLog (path +:+ " is empty")) in
     let? next_seq := ok_or (last events ≫= λ e, checked_add u64_max (se_seq e) 1)
                        (CorruptLog "session event sequence overflow") in
     Ok ({| w_file := file; w_session_id := se_session_id first; w_next_seq := next_seq;
            w_committed_len := file_len file; w_path := path; w_dirty := false;
            w_poisoned := None |}, events))
  end.
End writer.
