(* ===== verification/StoreScan.v ===== *)
(** * Scans of the event log

    What the forward and the reverse scans of [event_log.rs] return on a file of encoded
    records: the chunk-wise searches are independent of the chunk size, and both scans
    agree with their reference on the recorded events. *)

From S2P Require Import Prelude Utf8 CoreTypes CoreLlm CoreEvent ProjViews ProjContext ProjReducer ProjReplay StoreTypes StoreLog.

(** ** Records *)

(** What the encoding of an event promises: [serde_json] writes a struct as one line of
    UTF-8 text, an object in braces with control characters escaped, that parses back. *)
Definition codec_ok `{EventCodec} (e : StoredEvent) : Prop :=
  ∀ json, event_to_json e = Ok json →
    event_from_str json = Ok e ∧ utf8_valid (to_bytes json) = true ∧
    (newline_byte ∉ to_bytes json) ∧
    ∃ mid, to_bytes json = ascii_of_N 123 :: mid ++ [ascii_of_N 125].

(** The file of a list of events: their records, one after the other. *)
Definition records `{EventCodec} (events : list StoredEvent) (bs : list bytes) : Prop :=
  Forall2 (λ e b, encode_record e = Ok b ∧ codec_ok e) events bs.

(** The stream a validator in state [v] accepts, and the state it ends in. *)
Fixpoint stream_from (v : EventStreamValidator) (events : list StoredEvent) : Prop :=
  match events with
  | [] => True
  | e :: events =>
    is_empty (SessionId_str (se_session_id e)) = false ∧
    ∃ v', (∀ line path, observe v e line path = Ok v') ∧ stream_from v' events
  end.

(** ** Lists of bytes *)

Lemma rposition_newline_None (l : bytes) :
  rposition (λ c, bool_decide (c = newline_byte)) l = None ↔ newline_byte ∉ l.
Proof.
  rewrite rposition_None, Forall_forall. split.
  - intros H Hin. specialize (H _ Hin). by rewrite bool_decide_true in H.
  - intros H c Hc. rewrite bool_decide_false; [done|]. congruence.
Qed.

Lemma find_committed_spec chunk fuel file pos :
  (0 < chunk)%N → N.to_nat pos < fuel → (pos ≤ file_len file)%N →
  find_committed chunk fuel file pos
  = match rposition (λ c, bool_decide (c = newline_byte)) (take (N.to_nat pos) file) with
    | Some i => Some (N.of_nat i + 1)%N
    | None => None
    end.
Proof.
  intros Hchunk. revert pos. induction fuel as [|fuel IH]; intros pos Hf Hle; [lia|]. simpl.
  case_bool_decide as H0; [by subst|]. unfold saturating_sub, file_len in *.
  set (start := (pos - chunk)%N).
  assert (take (N.to_nat pos) file = take (N.to_nat start) file
    ++ take (N.to_nat (pos - start)) (drop (N.to_nat start) file)) as ->.
  { rewrite take_take_drop. f_equal. lia. }
  rewrite rposition_app. destruct (rposition _ (take _ (drop _ file))) as [i|].
  - f_equal. rewrite length_take. lia.
  - apply IH; lia.
Qed.

Lemma read_lines_record l rest :
  newline_byte ∉ l → read_lines (l ++ newline_byte :: rest) = (l ++ [newline_byte]) :: read_lines rest.
Proof.
  induction l as [|c l IH]; intros Hl; cbn [read_lines app].
  - by rewrite decide_True.
  - rewrite decide_False by set_solver. rewrite IH by set_solver. done.
Qed.

Lemma read_lines_torn t : newline_byte ∉ t → t ≠ [] → read_lines t = [t].
Proof.
  induction t as [|c t IH]; intros Ht Hne; [done|]. cbn [read_lines].
  rewrite decide_False by set_solver. destruct t as [|d t]; [done|].
  rewrite IH by set_solver. done.
Qed.

(** The first newline cuts [split_newline]. *)
Lemma split_newline_nonempty b : split_newline b ≠ [].
Proof. destruct b as [|c b]; simpl; repeat case_match; done. Qed.

Lemma split_newline_app a b :
  split_newline (a ++ newline_byte :: b) = split_newline a ++ split_newline b.
Proof.
  induction a as [|c a IH]; cbn [split_newline app].
  - by rewrite decide_True.
  - rewrite IH. case_decide; [done|].
    destruct (split_newline a) eqn:Ha; [by apply split_newline_nonempty in Ha|done].
Qed.

Lemma split_newline_single l : newline_byte ∉ l → split_newline l = [l].
Proof.
  induction l as [|c l IH]; intros Hl; cbn [split_newline]; [done|].
  rewrite decide_False by set_solver. by rewrite IH by set_solver.
Qed.

Lemma rsplit_newline_app a b :
  rsplit_newline (a ++ newline_byte :: b) = rsplit_newline b ++ rsplit_newline a.
Proof. unfold rsplit_newline. by rewrite split_newline_app, rev_app_distr. Qed.

(** ** Lines of encoded events *)

Section codec.
Context `{EventCodec}.

Lemma records_app e1 e2 bs :
  records (e1 ++ e2) bs ↔ ∃ b1 b2, bs = b1 ++ b2 ∧ records e1 b1 ∧ records e2 b2.
Proof.
  unfold records. split.
  - intros (b1 & b2 & ? & ? & ->)%Forall2_app_inv_l. eauto.
  - intros (b1 & b2 & -> & ? & ?). by apply Forall2_app.
Qed.

Lemma record_shape e b :
  encode_record e = Ok b → codec_ok e →
  ∃ json, b = to_bytes json ++ [newline_byte] ∧ event_from_str json = Ok e ∧
    utf8_valid (to_bytes json) = true ∧ (newline_byte ∉ to_bytes json) ∧
    ∃ mid, to_bytes json = ascii_of_N 123 :: mid ++ [ascii_of_N 125].
Proof.
  unfold encode_record. intros He Hc. destruct (event_to_json e) as [json|] eqn:Hj; [|done].
  simpl in He. injection He as <-. exists json. split; [done|]. by apply Hc.
Qed.

(** Braces stop [trim] on both sides. *)
Lemma trim_object mid suffix :
  Forall (λ c, ws1 c = true) suffix →
  trim (of_bytes (ascii_of_N 123 :: mid ++ [ascii_of_N 125] ++ suffix))
  = of_bytes (ascii_of_N 123 :: mid ++ [ascii_of_N 125]).
Proof.
  intros Hs. unfold trim, trim_start, of_bytes.
  rewrite String.list_ascii_of_string_of_list_ascii.
  assert (∀ l, strip_ws ws2 ws3 (ascii_of_N 123 :: l) = ascii_of_N 123 :: l) as ->
    by (by intros [|b [|c l]]).
  unfold trim_end. rewrite String.list_ascii_of_string_of_list_ascii. f_equal.
  rewrite app_comm_cons, (assoc_L (++)), rev_app_distr.
  assert (∀ l r, Forall (λ c, ws1 c = true) l →
    strip_ws (λ a b, ws2 b a) (λ a b c, ws3 c b a) (l ++ r)
    = strip_ws (λ a b, ws2 b a) (λ a b c, ws3 c b a) r) as Hstrip.
  { intros l r Hl. induction Hl as [|c l Hc Hl IH]; [done|]. simpl. by rewrite Hc. }
  rewrite Hstrip by (by apply Forall_rev). rewrite (app_comm_cons mid), rev_unit.
  assert (∀ l, strip_ws (λ a b, ws2 b a) (λ a b c, ws3 c b a) (ascii_of_N 125 :: l)
    = ascii_of_N 125 :: l) as ->.
  { intros [|b [|c l]]; [done|..]; simpl; unfold ws2, ws3; simpl;
      rewrite ?andb_false_r; done. }
  change (ascii_of_N 125 :: rev (ascii_of_N 123 :: mid))
    with ([ascii_of_N 125] ++ rev (ascii_of_N 123 :: mid)).
  by rewrite rev_app_distr, rev_involutive.
Qed.

Lemma parse_record path line e json :
  event_from_str json = Ok e → is_empty (SessionId_str (se_session_id e)) = false →
  (∃ mid, to_bytes json = ascii_of_N 123 :: mid ++ [ascii_of_N 125]) →
  ∀ suffix, Forall (λ c, ws1 c = true) suffix →
  parse_event_line path line (of_bytes (to_bytes json ++ suffix)) = Ok e ∧
  trim (of_bytes (to_bytes json ++ suffix)) = json.
Proof.
  intros Hj Hsid [mid Hmid] suffix Hs.
  assert (trim (of_bytes (to_bytes json ++ suffix)) = json) as Ht.
  { rewrite <-(of_to_bytes json) at 2. rewrite Hmid. simpl. rewrite <-(assoc_L (++)).
    by apply trim_object. }
  split; [|done]. unfold parse_event_line. rewrite Ht, Hj. simpl.
  unfold validate_event. by rewrite Hsid.
Qed.

(** ** The forward scan *)

(** The visitor over the events themselves. *)
Fixpoint visit_all {S} (visit : S → StoredEvent → result (S * bool) StorageError) (s : S)
    (events : list StoredEvent) : result S StorageError :=
  match events with
  | [] => Ok s
  | e :: events =>
    let? sc := visit s e in
    if snd sc then visit_all visit (fst sc) events else Ok (fst sc)
  end.

Lemma observe_session v e v' line path :
  observe v e line path = Ok v' → v_session_id v' = Some (se_session_id e).
Proof.
  unfold observe. case_bool_decide; [done|]. destruct (v_session_id v) as [sid|].
  - case_bool_decide as Hs; [done|]. destruct (is_session_started _); [done|].
    intros [= <-]. simpl. f_equal. by destruct (decide (se_session_id e = sid)).
  - destruct (has_turn _); [done|]. destruct (is_session_started _); [|done].
    by intros [= <-].
Qed.

(** On a file of records with a torn tail, the scan visits exactly the records. *)
Lemma scan_records {S} path (visit : S → StoredEvent → result (S * bool) StorageError)
    events bs t v line s :
  records events bs → stream_from v events → events ≠ [] ∨ v_session_id v ≠ None →
  newline_byte ∉ t → utf8_valid t = true →
  scan_lines path visit v line s (read_lines (concat bs ++ t)) = visit_all visit s events.
Proof.
  intros Hr. revert v line s.
  induction Hr as [|e b events bs [He Hc] Hr IH]; intros v line s Hst Hne Ht Hu; simpl.
  { assert (validator_finish v path = Ok ()) as Hfin.
    { unfold validator_finish. destruct (v_session_id v); [done|naive_solver]. }
    destruct t as [|c t]; [simpl; by rewrite Hfin|].
    rewrite read_lines_torn by done. cbn [scan_lines]. rewrite Hu. simpl negb. cbv iota.
    unfold ends_with_newline. rewrite bool_decide_false; [simpl; by rewrite Hfin|].
    intros Hlast. apply Ht. apply last_Some in Hlast as [l ->]. set_solver. }
  destruct Hst as (Hsid & v' & Hobs & Hst).
  destruct (record_shape e b He Hc) as (json & -> & Hfrom & Hutf & Hnl & Hmid).
  rewrite <-!(assoc_L (++)). simpl app. rewrite read_lines_record by done.
  cbn [scan_lines].
  assert (utf8_valid (to_bytes json ++ [newline_byte]) = true) as -> by (by rewrite utf8_valid_app).
  assert (ends_with_newline (to_bytes json ++ [newline_byte]) = true) as ->.
  { unfold ends_with_newline. apply bool_decide_eq_true. by rewrite last_snoc. }
  destruct (parse_record path (line + 1) e json Hfrom Hsid Hmid [newline_byte]) as [-> ->];
    [by repeat constructor|].
  assert (is_empty json = false) as ->.
  { destruct Hmid as [mid Hmid]. destruct json; [done|done]. }
  simpl negb. cbv iota. rewrite Hobs. destruct (visit s e) as [[s' []]|]; simpl; [|done..].
  apply IH; [done| |done..]. right. by rewrite (observe_session _ _ _ _ _ (Hobs 0%N path)).
Qed.

(** ** The reverse scan *)

Section reverse.
Context (path : string) (before_seq : option N) (max_events : N).

Definition room (st : ReverseScan) : Prop := (N.of_nat (length (rs_events st)) < max_events)%N.

Lemma reverse_lines_app st l1 l2 :
  room st →
  reverse_lines path before_seq max_events st (l1 ++ l2)
  = let? st1 := reverse_lines path before_seq max_events st l1 in
    if bool_decide (room st1) then reverse_lines path before_seq max_events st1 l2 else Ok st1.
Proof.
  revert st; induction l1 as [|l l1 IH]; intros st Hst; cbn [reverse_lines app].
  { by rewrite bool_decide_true. }
  destruct (forallb is_ascii_whitespace l); [by apply IH|].
  destruct (utf8_error 0 l); [done|]. destruct (parse_event_line path 0 (of_bytes l)) as [e|]; [|done].
  destruct (match rs_newer_seq st with Some _ => _ | None => _ end) as [[]|]; [|done].
  destruct (match rs_session_id st with Some _ => _ | None => _ end) as [sid|]; [|done].
  destruct (match before_seq with Some _ => _ | None => _ end) eqn:Hw; simpl; [|by apply IH].
  case_bool_decide as Hmax.
  - rewrite bool_decide_false; [done|]. unfold room. simpl. lia.
  - apply IH. unfold room in *. simpl in *. rewrite length_app in *. simpl in *. lia.
Qed.

Lemma reverse_chunks_done chunk fuel file pos frag st :
  ¬ room st →
  reverse_chunks path chunk fuel file before_seq max_events pos frag st = Ok st.
Proof.
  intros Hst. destruct fuel as [|fuel]; [done|]. cbn [reverse_chunks].
  rewrite (bool_decide_false (_ < max_events)%N) by done. by rewrite orb_true_r.
Qed.

(** The chunk size does not matter: the scan is a scan of the lines in reverse. *)
Lemma reverse_chunks_spec chunk fuel file pos frag st :
  (0 < chunk)%N → N.to_nat pos < fuel → (pos ≤ file_len file)%N →
  newline_byte ∉ frag → (pos = 0%N → frag = []) → room st →
  reverse_chunks path chunk fuel file before_seq max_events pos frag st
  = reverse_lines path before_seq max_events st
      (rsplit_newline (take (N.to_nat pos) file ++ frag)).
Proof.
  intros Hchunk. revert pos frag st.
  induction fuel as [|fuel IH]; intros pos frag st Hf Hle Hfrag H0 Hst; [lia|].
  cbn [reverse_chunks]. rewrite (bool_decide_true (_ < max_events)%N) by done.
  rewrite orb_false_r. case_bool_decide as Hp.
  { rewrite (H0 Hp), Hp. done. }
  unfold saturating_sub, file_len in *. set (start := (pos - chunk)%N).
  assert (take (N.to_nat pos) file = take (N.to_nat start) file
    ++ take (N.to_nat (pos - start)) (drop (N.to_nat start) file)) as ->.
  { rewrite take_take_drop. f_equal. lia. }
  set (window := take (N.to_nat (pos - start)) (drop (N.to_nat start) file)).
  unfold split_chunk. case_bool_decide as Hs0.
  { rewrite Hs0. simpl. destruct (reverse_lines _ _ _ st _) as [st1|] eqn:Hl; [|done].
    destruct fuel; [done|]. simpl. done. }
  destruct (list_find (eq newline_byte) (window ++ frag)) as [[i c]|] eqn:Hfind.
  - apply list_find_Some in Hfind as (Hi & <- & Hfirst).
    assert (newline_byte ∉ take i (window ++ frag)) as Hni.
    { intros [j Hj]%list_elem_of_lookup_1. pose proof (lookup_lt_Some _ _ _ Hj) as Hlt.
      rewrite length_take in Hlt. rewrite lookup_take_lt in Hj by lia.
      by eapply (Hfirst j); [|lia|]. }
    replace ((take (N.to_nat start) file ++ window) ++ frag)
      with ((take (N.to_nat start) file ++ take i (window ++ frag))
            ++ newline_byte :: drop (S i) (window ++ frag))
      by (rewrite <-!(assoc_L (++)); by rewrite (take_drop_middle (window ++ frag))).
    rewrite rsplit_newline_app, reverse_lines_app by done.
    destruct (reverse_lines _ _ _ st _) as [st1|]; [|done].
    case_bool_decide as Hroom; [|by apply reverse_chunks_done].
    apply IH; [lia|lia|done|lia|done].
  - rewrite <-(assoc_L (++)). simpl.
    apply IH; [lia|lia| |lia|done].
    apply list_find_None in Hfind. intros Hin. rewrite Forall_forall in Hfind.
    by apply (Hfind newline_byte).
Qed.
End reverse.
End codec.

(** ** Logs *)

Fixpoint contiguous (n : N) (events : list StoredEvent) : Prop :=
  match events with
  | [] => True
  | e :: events => se_seq e = n ∧ contiguous (n + 1) events
  end.

(** A well-formed log of a named session whose next sequence number still fits. *)
Definition log_ok (sid : SessionId) (events : list StoredEvent) : Prop :=
  well_formed_log sid events ∧ is_empty (SessionId_str sid) = false ∧
  (N.of_nat (length events) ≤ u64_max)%N.

Lemma contiguous_seq k events :
  map se_seq events = map N.of_nat (seq k (length events)) ↔ contiguous (N.of_nat k) events.
Proof.
  revert k; induction events as [|e events IH]; intros k; simpl; [done|].
  replace (N.of_nat k + 1)%N with (N.of_nat (S k)) by lia. rewrite <-IH.
  split; [by intros [= -> ->]|by intros [-> ->]].
Qed.

Lemma contiguous_snoc n events e :
  contiguous n (events ++ [e]) ↔
  contiguous n events ∧ se_seq e = (n + N.of_nat (length events))%N.
Proof.
  revert n; induction events as [|x events IH]; intros n; simpl.
  { rewrite N.add_0_r. naive_solver. }
  rewrite IH. replace (n + 1 + N.of_nat (length events))%N
    with (n + N.pos (Pos.of_succ_nat (length events)))%N by lia. naive_solver.
Qed.

Lemma contiguous_app n l1 l2 :
  contiguous n (l1 ++ l2) ↔
  contiguous n l1 ∧ contiguous (n + N.of_nat (length l1)) l2.
Proof.
  revert n; induction l1 as [|x l1 IH]; intros n; simpl; [rewrite N.add_0_r; naive_solver|].
  rewrite IH. replace (n + 1 + N.of_nat (length l1))%N
    with (n + N.pos (Pos.of_succ_nat (length l1)))%N by lia. naive_solver.
Qed.

Section logs.
Context (sid : SessionId).

Lemma log_ok_inv events :
  log_ok sid events →
  contiguous 0 events ∧ Forall (λ e, se_session_id e = sid) events ∧ events ≠ [].
Proof.
  intros [(e0 & rest & started & -> & _ & _ & Hseq & _ & Hsid & _) _].
  split_and!; [|done|done]. by apply (contiguous_seq 0).
Qed.

Lemma stream_from_tail n events :
  is_empty (SessionId_str sid) = false →
  contiguous n events → (n + N.of_nat (length events) ≤ u64_max)%N →
  Forall (λ e, se_session_id e = sid) events →
  Forall (λ e, recordable (se_payload e) = true) events →
  stream_from {| v_session_id := Some sid; v_next_seq := n |} events.
Proof.
  intros Hne. revert n; induction events as [|e events IH]; intros n; [done|].
  intros [Hq Hc] Hle [Hs Hsid]%Forall_cons [Hr Hrec]%Forall_cons. split; [by rewrite Hs|].
  exists {| v_session_id := Some sid; v_next_seq := n + 1 |}. split.
  - intros line path. unfold observe. simpl. rewrite bool_decide_false by (intros ?; done).
    rewrite bool_decide_false by (intros ?; done).
    assert (is_session_started (se_payload e) = false) as ->.
    { by destruct (se_payload e). }
    simpl in Hle. rewrite wrapping_add_small by lia. done.
  - apply IH; [done|simpl in Hle; lia|done..].
Qed.

Lemma log_ok_stream events : log_ok sid events → stream_from validator_default events.
Proof.
  intros [(e0 & rest & started & -> & Hp & Ht & Hseq & Hle & Hsid & Hrec) [Hne Hlen]].
  apply (contiguous_seq 0) in Hseq as [Hq Hc]. apply Forall_cons in Hsid as [Hs Hsid].
  split; [by rewrite Hs|]. exists {| v_session_id := Some sid; v_next_seq := 1 |}. split.
  - intros line path. unfold observe. simpl. rewrite bool_decide_false by (intros ?; done).
    unfold has_turn. unfold se_turn_id in Ht. rewrite Ht, Hp. simpl. by rewrite Hs.
  - apply stream_from_tail; [done|done|simpl in Hlen; lia|done..].
Qed.

Lemma log_ok_take events n : log_ok sid events → 0 < n → log_ok sid (take n events).
Proof.
  intros [(e0 & rest & started & -> & Hp & Ht & Hseq & Hle & Hsid & Hrec) [Hne Hlen]] Hn.
  destruct n as [|n]; [lia|]. simpl take. split; [|split; [done|]].
  - apply (contiguous_seq 0) in Hseq as [Hq Hc]. exists e0, (take n rest), started.
    apply Forall_cons in Hsid as [Hs Hsid]. split_and!; [done..| | | |].
    + apply (contiguous_seq 0). split; [done|].
      rewrite <-(take_drop n rest) in Hc. by apply contiguous_app in Hc as [Hc _].
    + rewrite length_take. lia.
    + constructor; [done|]. by apply Forall_take.
    + by apply Forall_take.
  - simpl in *. rewrite length_take. lia.
Qed.
End logs.

(** ** References *)

(** [replay_from_limited] and [replay_before_limited] of [EventReader] on the events. *)
Definition after_limited (events : list StoredEvent) (after_seq max_events : option N)
    : list StoredEvent :=
  let es := match after_seq with
            | Some seq => filter (λ e, seq < se_seq e)%N events
            | None => events
            end in
  match max_events with Some n => take (N.to_nat n) es | None => es end.

Definition before_limited (events : list StoredEvent) (before_seq : option N) (max_events : N)
    : list StoredEvent :=
  let es := match before_seq with
            | Some seq => filter (λ e, se_seq e < seq)%N events
            | None => events
            end in
  drop (length es - N.to_nat max_events) es.

Lemma take_rev {A} (l : list A) n : rev (take n (rev l)) = drop (length l - n) l.
Proof.
  rewrite <-(take_drop (length l - n) l) at 1. rewrite rev_app_distr.
  destruct (decide (n ≤ length l)).
  - rewrite take_app_length'; [by rewrite rev_involutive|].
    rewrite length_rev, length_drop. lia.
  - replace (length l - n) with 0 by lia. rewrite drop_0. simpl. rewrite app_nil_r.
    rewrite take_ge by (rewrite length_rev; lia). by rewrite rev_involutive.
Qed.

Lemma filter_rev {A} (P : A → Prop) `{!∀ x, Decision (P x)} (l : list A) :
  filter P (rev l) = rev (filter P l).
Proof.
  induction l as [|a l IH]; [done|]. simpl rev. rewrite filter_app, IH, filter_cons.
  rewrite filter_cons, filter_nil. case_decide; [done|]. by rewrite app_nil_r.
Qed.

Lemma collect_all after_seq max_events acc events :
  max_events ≠ Some 0%N →
  match max_events with Some n => (N.of_nat (length acc) < n)%N | None => True end →
  visit_all (collect_event after_seq max_events) acc events
  = Ok (acc ++ after_limited events after_seq
          (match max_events with
           | Some n => Some (n - N.of_nat (length acc))%N | None => None end)).
Proof.
  intros Hmax. revert acc; induction events as [|e events IH]; intros acc Hacc; cbn [visit_all].
  { unfold after_limited. destruct after_seq, max_events; simpl;
      rewrite ?filter_nil, ?take_nil, ?app_nil_r; done. }
  set (kept := match after_seq with
               | Some seq => if bool_decide (seq < se_seq e)%N then [e] else []
               | None => [e] end).
  assert (collect_event after_seq max_events acc e
    = Ok (acc ++ kept, match max_events with
        | Some limit => negb (bool_decide (limit ≤ N.of_nat (length (acc ++ kept)))%N)
        | None => true end)) as ->.
  { unfold collect_event, kept. destruct after_seq; [case_bool_decide|]; by rewrite ?app_nil_r. }
  simpl fst. simpl snd. cbv iota.
  assert (∀ m, after_limited (e :: events) after_seq m
    = match m with Some n => take (N.to_nat n) (kept ++ after_limited events after_seq None)
      | None => kept ++ after_limited events after_seq None end) as Hal.
  { intros m. unfold after_limited, kept.
    destruct after_seq; [rewrite filter_cons; case_bool_decide as Hb|];
      [rewrite decide_True by done|rewrite decide_False by done|]; done. }
  rewrite Hal. clear Hal.
  assert (length kept ≤ 1) as Hk by (unfold kept; repeat case_match; simpl; lia).
  destruct max_events as [n|]; [|rewrite IH by done; by rewrite (assoc_L (++))].
  rewrite length_app. destruct (decide (n ≤ N.of_nat (length acc + length kept))%N) as [Hn|Hn].
  - rewrite bool_decide_true by done. simpl. f_equal. f_equal.
    rewrite take_app_le by lia. by rewrite take_ge by lia.
  - rewrite bool_decide_false by done. simpl. rewrite IH by (rewrite length_app; lia).
    rewrite <-(assoc_L (++)). f_equal. f_equal. rewrite take_app_ge by lia. f_equal.
    rewrite length_app. unfold after_limited. destruct after_seq; f_equal; lia.
Qed.
