(* ===== verification/StoreRecovery.v ===== *)
(** * Replay and recovery of the event log

    The scans agree with their references on every file of records; opening a log after
    a crash at any byte recovers exactly the complete records; appends either commit or
    leave a file that recovers to the log before. *)

From S2P Require Import Prelude Utf8 CoreTypes CoreLlm CoreEvent ProjViews ProjContext ProjReducer ProjReplay StoreTypes StoreLog StoreScan.

Section recovery.
Context `{EventCodec}.

(** ** The reverse scan on records *)

Definition wanted (before_seq : option N) (e : StoredEvent) : Prop :=
  match before_seq with Some before => (se_seq e < before)%N | None => True end.
#[local] Instance wanted_dec before_seq e : Decision (wanted before_seq e).
Proof. unfold wanted. destruct before_seq; apply _. Defined.

Lemma ws_newline_line json mid :
  to_bytes json = ascii_of_N 123 :: mid → forallb is_ascii_whitespace (to_bytes json) = false.
Proof. by intros ->. Qed.

(** The text of a record without its newline. *)
Definition line_of (b : bytes) : bytes := take (length b - 1) b.

Lemma line_of_record (l : bytes) : line_of (l ++ [newline_byte]) = l.
Proof.
  unfold line_of. rewrite length_app. simpl. rewrite Nat.add_sub. by rewrite take_app_length.
Qed.

Lemma reverse_records path before_seq max_events sid n events bs st :
  records events bs → contiguous n events → (n + N.of_nat (length events) ≤ u64_max)%N →
  Forall (λ e, se_session_id e = sid) events → is_empty (SessionId_str sid) = false →
  (rs_newer_seq st = None ∨ rs_newer_seq st = Some (n + N.of_nat (length events))%N) →
  (rs_session_id st = None ∨ rs_session_id st = Some sid) →
  room max_events st →
  ∃ st', reverse_lines path before_seq max_events st (rev (map line_of bs)) = Ok st' ∧
    rs_events st' = rs_events st
      ++ take (N.to_nat max_events - length (rs_events st)) (filter (wanted before_seq) (rev events)).
Proof.
  intros Hrec. revert bs Hrec st.
  induction events as [|e events IH] using rev_ind; intros bs Hrec st Hc Hle Hsid Hne Hnew Hses Hroom.
  { apply Forall2_nil_inv_l in Hrec as ->. exists st. split; [done|].
    simpl rev. by rewrite filter_nil, take_nil, app_nil_r. }
  apply records_app in Hrec as (bs1 & b2 & -> & Hrec & Hb).
  apply Forall2_cons_inv_l in Hb as (b & [] & [He Hco] & Hnil & ->); [|by inversion Hnil].
  apply contiguous_snoc in Hc as [Hc Hq]. apply Forall_app in Hsid as [Hsid [Hs _]%Forall_cons].
  rewrite length_app in Hle, Hnew. simpl length in *.
  destruct (record_shape e b He Hco) as (json & -> & Hfrom & Hutf & Hnl & mid & Hmid).
  rewrite map_app, !rev_app_distr. simpl. rewrite line_of_record.
  rewrite (ws_newline_line json (mid ++ [ascii_of_N 125])) by done.
  rewrite (proj2 (utf8_error_None 0 (to_bytes json)) Hutf).
  destruct (parse_record path 0 e json Hfrom) with (suffix := @nil ascii) as [Hparse _];
    [by rewrite Hs|by exists mid|constructor|]. rewrite app_nil_r in Hparse. rewrite Hparse.
  assert ((match rs_newer_seq st with
    | Some expected_newer =>
      if bool_decide (checked_add u64_max (se_seq e) 1 ≠ Some expected_newer)
      then Err (corrupt_log path 0 ("expected reverse seq "
             +:+ u64_to_string (saturating_sub expected_newer 1)
             +:+ ", got " +:+ u64_to_string (se_seq e)))
      else Ok ()
    | None => Ok () end) = @Ok () StorageError ()) as ->.
  { destruct Hnew as [->| ->]; [done|]. rewrite bool_decide_false; [done|].
    intros Hadd. apply Hadd. apply checked_add_Some. lia. }
  assert ((match rs_session_id st with
    | Some expected_session =>
      if bool_decide (se_session_id e ≠ expected_session)
      then Err (corrupt_log path 0 ("event belongs to session "
             +:+ SessionId_str (se_session_id e) +:+ ", expected "
             +:+ SessionId_str expected_session))
      else Ok expected_session
    | None => Ok (se_session_id e) end) = @Ok SessionId StorageError sid) as ->.
  { destruct Hses as [->| ->]; [by rewrite Hs|]. rewrite bool_decide_false; [done|].
    intros Hx. by apply Hx. }
  assert ((match before_seq with Some before => bool_decide (se_seq e < before)%N
    | None => true end) = bool_decide (wanted before_seq e)) as ->.
  { unfold wanted. destruct before_seq; [|by rewrite bool_decide_true].
    by apply bool_decide_ext. }
  rewrite filter_cons. unfold room in *.
  assert (∀ evs, (N.of_nat (length evs) < max_events)%N →
    ∃ st', reverse_lines path before_seq max_events
        {| rs_events := evs; rs_newer_seq := Some (se_seq e); rs_session_id := Some sid |}
        (rev (map line_of bs1)) = Ok st' ∧
      rs_events st' = evs ++ take (N.to_nat max_events - length evs)
        (filter (wanted before_seq) (rev events))) as Hrest.
  { intros evs Hevs. apply (IH bs1 Hrec {| rs_events := evs; rs_newer_seq := Some (se_seq e);
      rs_session_id := Some sid |}); simpl; [done|lia|done|done| |by right|done].
    right. by rewrite Hq. }
  destruct (decide (wanted before_seq e)) as [Hw|Hw].
  - rewrite bool_decide_true by done. simpl. rewrite length_app. simpl.
    case_bool_decide as Hmax.
    + eexists. split; [done|]. simpl. f_equal.
      replace (N.to_nat max_events - length (rs_events st)) with 1 by lia. done.
    + destruct (Hrest (rs_events st ++ [e])) as (st' & -> & Hst').
      { rewrite length_app. simpl. lia. }
      eexists. split; [done|]. rewrite Hst', <-(assoc_L (++)). f_equal. rewrite length_app. simpl.
      replace (N.to_nat max_events - length (rs_events st))
        with (S (N.to_nat max_events - (length (rs_events st) + 1))) by lia. done.
  - rewrite bool_decide_false by done. simpl. by apply Hrest.
Qed.

Lemma rsplit_records events bs :
  records events bs → rsplit_newline (concat bs) = [] :: rev (map line_of bs).
Proof.
  induction 1 as [|e b events bs [He Hco] Hrec IH]; [done|].
  destruct (record_shape e b He Hco) as (json & -> & _ & _ & Hnl & _).
  simpl. rewrite <-(assoc_L (++)). simpl. rewrite rsplit_newline_app, IH. simpl.
  rewrite line_of_record. unfold rsplit_newline. by rewrite split_newline_single.
Qed.

(** ** Commit markers *)

Lemma concat_records_last events bs :
  records events bs → events ≠ [] → ∃ l, concat bs = l ++ [newline_byte].
Proof.
  intros Hrec. destruct events as [|e events _] using rev_ind; [done|]. intros _.
  apply records_app in Hrec as (bs1 & b2 & -> & _ & Hb).
  apply Forall2_cons_inv_l in Hb as (b & [] & [He Hco] & Hnil & ->); [|by inversion Hnil].
  destruct (record_shape e b He Hco) as (json & -> & _). exists (concat bs1 ++ to_bytes json).
  rewrite concat_app. simpl. by rewrite app_nil_r, (assoc_L (++)).
Qed.

Lemma rposition_torn (l t : bytes) :
  newline_byte ∉ t →
  rposition (λ c, bool_decide (c = newline_byte)) ((l ++ [newline_byte]) ++ t) = Some (length l).
Proof.
  intros Ht. rewrite rposition_app, (proj2 (rposition_newline_None t) Ht).
  rewrite rposition_app. simpl. f_equal. lia.
Qed.

(** The marker the backward search finds is the end of the records. *)
Lemma find_committed_records chunk events bs t :
  (0 < chunk)%N → records events bs → events ≠ [] → newline_byte ∉ t →
  find_committed chunk (S (length (concat bs ++ t))) (concat bs ++ t) (file_len (concat bs ++ t))
  = Some (file_len (concat bs)).
Proof.
  intros Hchunk Hrec Hne Ht. rewrite find_committed_spec by (done || unfold file_len; lia).
  unfold file_len. rewrite Nat2N.id, firstn_all.
  destruct (concat_records_last events bs Hrec Hne) as [l ->].
  rewrite rposition_torn by done. rewrite length_app. simpl. f_equal. lia.
Qed.

Lemma find_committed_none chunk t :
  (0 < chunk)%N → newline_byte ∉ t → find_committed chunk (S (length t)) t (file_len t) = None.
Proof.
  intros Hchunk Ht. rewrite find_committed_spec by (done || unfold file_len; lia).
  unfold file_len. by rewrite Nat2N.id, firstn_all, (proj2 (rposition_newline_None t) Ht).
Qed.

(** A file of records cut at any byte: complete records and a torn one. *)
Lemma cut_records events bs k :
  records events bs →
  ∃ n t, take k (concat bs) = concat (take n bs) ++ t ∧ (newline_byte ∉ t) ∧
    n ≤ length bs ∧ length (concat (take n bs)) ≤ k ∧
    (n < length bs → k < length (concat (take (S n) bs))).
Proof.
  intros Hrec. revert k. induction Hrec as [|e b events bs [He Hco] Hrec IH]; intros k.
  { exists 0, []. simpl. rewrite take_nil. split_and!; [done|set_solver|lia..]. }
  destruct (record_shape e b He Hco) as (json & -> & _ & _ & Hnl & _).
  set (b := to_bytes json ++ [newline_byte]).
  destruct (decide (k < length b)) as [Hk|Hk].
  - exists 0, (take k b). simpl. split_and!; [by rewrite take_app_le by lia| |lia|lia|].
    + intros Hin. apply Hnl. unfold b in *. rewrite length_app in Hk. simpl in Hk.
      rewrite take_app_le in Hin by lia. by eapply elem_of_take in Hin as (? & ? & ?);
        eapply list_elem_of_lookup_2.
    + intros _. rewrite app_nil_r. done.
  - destruct (IH (k - length b)) as (n & t & Heq & Ht & Hn & Hl & Hm).
    exists (S n), t. simpl. rewrite take_app_ge by lia. rewrite Heq.
    split_and!; [by rewrite (assoc_L (++))|done|lia| |].
    + rewrite length_app. lia.
    + intros Hlt. specialize (Hm ltac:(lia)). rewrite length_app in *. simpl in Hm. lia.
Qed.

(** ** Replay of a whole file *)

Lemma replay_records path sid events bs t max_bytes after_seq max_events :
  log_ok sid events → records events bs → newline_byte ∉ t → utf8_valid t = true →
  limit_bytes max_bytes (concat bs ++ t) = concat bs ++ t →
  replay_events_at_path path (concat bs ++ t) max_bytes after_seq max_events
  = Ok (after_limited events after_seq max_events).
Proof.
  intros Hlog Hrec Ht Hu Hlim. unfold replay_events_at_path.
  destruct (decide (max_events = Some 0%N)) as [->|Hmax].
  { rewrite bool_decide_true by done. unfold after_limited. by destruct after_seq. }
  rewrite bool_decide_false by done. unfold scan_events_at_path. rewrite Hlim.
  rewrite (scan_records path _ events) by
    (done || by eapply log_ok_stream || (left; by eapply log_ok_inv)).
  rewrite collect_all; [|done|destruct max_events; simpl; [|done]].
  - simpl. f_equal. f_equal. destruct max_events; [|done]. f_equal. lia.
  - destruct n; [done|lia].
Qed.

Lemma limit_bytes_len (file : bytes) : limit_bytes (Some (file_len file)) file = file.
Proof. unfold limit_bytes, file_len. by rewrite Nat2N.id, firstn_all. Qed.

(** Opening a file of records with a torn tail drops the tail and returns the records. *)
Lemma open_records path sid events bs t :
  log_ok sid events → records events bs → newline_byte ∉ t →
  open_at_path path (Some (concat bs ++ t)) (Ok ()) (Ok ())
  = (Some (concat bs),
     Ok ({| w_file := concat bs; w_session_id := sid; w_next_seq := N.of_nat (length events);
            w_committed_len := file_len (concat bs); w_path := path; w_dirty := false;
            w_poisoned := None |}, events)).
Proof.
  intros Hlog Hrec Ht. destruct (log_ok_inv sid events Hlog) as (Hc & Hsid & Hne).
  destruct (concat_records_last events bs Hrec Hne) as [l Hl].
  assert (recover_incomplete_tail path (concat bs ++ t) (Ok ()) = (concat bs, Ok ())) as Hrecover.
  { unfold recover_incomplete_tail. rewrite bool_decide_false
      by (unfold file_len; rewrite Hl, !length_app; simpl; lia).
    case_bool_decide as Hlast.
    - destruct t as [|c t]; [by rewrite app_nil_r|]. exfalso. apply Ht.
      rewrite last_app_cons in Hlast. apply last_Some in Hlast as [x ->]. set_solver.
    - rewrite (find_committed_records _ events) by done. simpl.
      unfold file_len. by rewrite Nat2N.id, take_app_length. }
  unfold open_at_path. rewrite Hrecover. unfold sync_existing_log. simpl.
  pose proof (replay_records path sid events bs [] (Some (file_len (concat bs))) None None Hlog Hrec
    ltac:(set_solver) eq_refl) as Hreplay.
  rewrite app_nil_r in Hreplay. rewrite Hreplay by apply limit_bytes_len.
  unfold after_limited. destruct events as [|e0 events]; [done|].
  apply Forall_cons in Hsid as [Hs0 _]. simpl head. simpl ok_or.
  destruct (last (e0 :: events)) as [e|] eqn:He; [|by apply last_None in He].
  apply last_Some in He as [init He]. rewrite He in Hc |- *.
  apply contiguous_snoc in Hc as [_ Hq]. destruct Hlog as (_ & _ & Hlen).
  rewrite He, length_app in Hlen. simpl in Hlen. simpl mbind. cbn [option_bind mbind].
  unfold checked_add. rewrite bool_decide_true by lia. simpl. rewrite Hs0, <-He, Hq.
  repeat f_equal. rewrite He, length_app. simpl. lia.
Qed.

(** A tail that is cut inside a character stops a scan that did not recover first. *)
Lemma scan_invalid_tail {S} path (f : S → StoredEvent → result S StorageError) events bs t v line s :
  records events bs → stream_from v events → newline_byte ∉ t → utf8_valid t = false →
  scan_lines path (λ s e, let? s := f s e in Ok (s, true)) v line s (read_lines (concat bs ++ t))
  = let? _ := try_fold f s events in
    Err (enhanced enhance_read_error path
      {| io_kind := Kind_InvalidData; io_message := "stream did not contain valid UTF-8" |}).
Proof.
  intros Hr. revert v line s.
  induction Hr as [|e b events bs [He Hc] Hr IH]; intros v line s Hst Ht Hu; simpl.
  { destruct t as [|c t]; [done|]. rewrite read_lines_torn by done. cbn [scan_lines].
    by rewrite Hu. }
  destruct Hst as (Hsid & v' & Hobs & Hst).
  destruct (record_shape e b He Hc) as (json & -> & Hfrom & Hutf & Hnl & Hmid).
  rewrite <-!(assoc_L (++)). simpl app. rewrite read_lines_record by done.
  cbn [scan_lines].
  assert (utf8_valid (to_bytes json ++ [newline_byte]) = true) as -> by (by rewrite utf8_valid_app).
  assert (ends_with_newline (to_bytes json ++ [newline_byte]) = true) as ->.
  { unfold ends_with_newline. apply bool_decide_eq_true. by rewrite last_snoc. }
  destruct (parse_record path (line + 1) e json Hfrom Hsid Hmid [newline_byte]) as [-> ->];
    [by repeat constructor|].
  assert (is_empty json = false) as ->.
  { destruct Hmid as [mid Hmid]. by destruct json. }
  simpl negb. cbv iota. rewrite Hobs. destruct (f s e) as [s'|]; simpl; [|done]. by apply IH.
Qed.

(** So the replay of a file that is not recovered first reads the records, or fails. *)
Lemma replay_invalid_tail path sid events bs t :
  log_ok sid events → records events bs → newline_byte ∉ t → utf8_valid t = false →
  replay_events_at_path path (concat bs ++ t) None None None
  = Err (enhanced enhance_read_error path
      {| io_kind := Kind_InvalidData; io_message := "stream did not contain valid UTF-8" |}).
Proof.
  intros Hlog Hrec Ht Hu. unfold replay_events_at_path, scan_events_at_path. simpl.
  rewrite (scan_invalid_tail path (λ es e, Ok (es ++ [e])) events);
    [|done|by eapply log_ok_stream|done..].
  assert (∀ es acc, try_fold (λ es e, Ok (es ++ [e])) acc es = @Ok _ StorageError (acc ++ es))
    as ->; [|done].
  induction es as [|e es IH]; intros acc; simpl; [by rewrite app_nil_r|].
  rewrite IH. by rewrite <-(assoc_L (++)).
Qed.

(** ** The writer *)

(** The writer of a log: its file holds the records of [events]; after a rollback that
    failed, also some bytes of the records of [extra], which could follow. *)
Definition writer_with (sid : SessionId) (events extra : list StoredEvent) (st : WriterState)
    : Prop :=
  log_ok sid events ∧ w_session_id st = sid ∧
  w_next_seq st = N.of_nat (length events) ∧
  ∃ bs bs' k, records events bs ∧ records extra bs' ∧ log_ok sid (events ++ extra) ∧
    w_committed_len st = file_len (concat bs) ∧
    w_file st = concat bs ++ take k (concat bs') ∧
    (w_poisoned st = None → take k (concat bs') = []).
Definition writer_ok (sid : SessionId) (events : list StoredEvent) (st : WriterState) : Prop :=
  ∃ extra, writer_with sid events extra st.

Lemma encode_batch_Ok sid n events encoded n' :
  encode_batch sid n events = Ok (encoded, n') →
  Forall codec_ok events →
  ∃ bs, records events bs ∧ encoded = concat bs ∧ contiguous n events ∧
    Forall (λ e, se_session_id e = sid) events ∧
    n' = (n + N.of_nat (length events))%N ∧ (events ≠ [] → n' ≤ u64_max)%N.
Proof.
  revert n encoded n'; induction events as [|e events IH]; intros n encoded n'; cbn [encode_batch].
  { intros [= <- <-] _. exists []. split_and!; [constructor|done|done|constructor|simpl; lia|done]. }
  case_bool_decide as Hq; [done|]. case_bool_decide as Hs; [done|].
  destruct (is_session_started _); [done|].
  destruct (encode_record e) as [b|] eqn:Hb; [|done].
  destruct (checked_add u64_max n 1) as [n1|] eqn:Hn1; [|done]. simpl.
  apply checked_add_Some in Hn1 as [-> Hle].
  destruct (encode_batch sid (n + 1) events) as [[enc n2]|] eqn:Hrest; [|done]. simpl.
  intros [= <- <-] [Hco Hcos]%Forall_cons.
  destruct (IH _ _ _ Hrest Hcos) as (bs & Hrec & -> & Hc & Hsid & -> & Hmax).
  exists (b :: bs). split_and!; [by constructor|done| |done|constructor; [|done]| |].
  - by destruct (decide (se_seq e = n)).
  - by destruct (decide (se_session_id e = sid)).
  - simpl. lia.
  - intros _. destruct events; [simpl; lia|]. apply Hmax. done.
Qed.

(** The records of a batch extend the log. *)
Lemma log_ok_extend sid events batch :
  log_ok sid events → contiguous (N.of_nat (length events)) batch →
  Forall (λ e, se_session_id e = sid) batch →
  Forall (λ e, recordable (se_payload e) = true) batch →
  (N.of_nat (length (events ++ batch)) ≤ u64_max)%N → log_ok sid (events ++ batch).
Proof.
  intros [(e0 & rest & started & -> & Hp & Ht & Hseq & Hle & Hsid & Hrec) [Hne Hlen]] Hc Hs Hr Hmax.
  split; [|done]. exists e0, (rest ++ batch), started.
  split_and!; [done..| | |by apply Forall_app|by apply Forall_app].
  - apply (contiguous_seq 0). apply (contiguous_seq 0) in Hseq.
    apply (contiguous_app 0 (e0 :: rest) batch). split; [done|]. by rewrite N.add_0_l.
  - simpl in Hmax. lia.
Qed.

Lemma set_len_app (a b : bytes) : set_len (file_len a) (a ++ b) = a.
Proof.
  unfold set_len, file_len. rewrite Nat2N.id, take_app_length, length_app.
  replace (length a - (length a + length b)) with 0 by lia. apply app_nil_r.
Qed.

(** A usable writer holds nothing but its log. *)
Lemma writer_with_unpoisoned sid events extra st :
  writer_with sid events extra st → w_poisoned st = None → writer_with sid events [] st.
Proof.
  intros (Hlog & Hs & Hn & bs & bs' & k & Hbs & _ & _ & Hlen & Hfile & Hpois) Hp.
  split_and!; [done..|]. exists bs, [], 0. rewrite Hfile, (Hpois Hp), !app_nil_r.
  split_and!; [done|constructor|done..].
Qed.

(** What a writer left on disk: its log, some whole records of what could follow, and a
    torn one. *)
Lemma writer_with_cut sid events extra st :
  writer_with sid events extra st →
  ∃ n bs t, records (events ++ take n extra) bs ∧ log_ok sid (events ++ take n extra) ∧
    (newline_byte ∉ t) ∧ w_file st = concat bs ++ t.
Proof.
  intros (Hlog & _ & _ & bs & bs' & k & Hbs & Hbs' & Hlog' & _ & -> & _).
  destruct (cut_records extra bs' k Hbs') as (n & t & -> & Ht & _).
  exists n, (bs ++ take n bs'), t. rewrite concat_app, <-(assoc_L (++)).
  split_and!; [by apply Forall2_app; [|apply Forall2_take]| |done|done].
  rewrite <-(take_app_add events). apply log_ok_take; [done|].
  destruct (log_ok_inv sid events Hlog) as (_ & _ & Hne). destruct events; [done|simpl; lia].
Qed.

(** So the file reopens to the log and at most a prefix of what could follow. *)
Lemma writer_with_reopens path sid events extra st :
  writer_with sid events extra st →
  ∃ n file st', open_at_path path (Some (w_file st)) (Ok ()) (Ok ())
    = (Some file, Ok (st', events ++ take n extra)).
Proof.
  intros (n & bs & t & Hrec & Hlog & Ht & ->)%writer_with_cut. exists n.
  eexists _, _. by apply (open_records path sid (events ++ take n extra)).
Qed.

(** A poisoned writer refuses every append and stays as it is. *)
Lemma poisoned_append batch outcome st reason :
  w_poisoned st = Some reason → ∃ e, append_stored_batch batch outcome st = (st, Err e).
Proof.
  intros Hpo. unfold append_stored_batch. destruct (Nat.eqb _ 0); [by eexists|].
  destruct (encode_batch (w_session_id st) _ _) as [[enc n]|]; [|by eexists].
  unfold write_committed_record. rewrite Hpo. by eexists.
Qed.

(** An append commits the whole batch, or it fails and the log is what it was. *)
Lemma append_stored_batch_with sid events extra st batch outcome :
  writer_with sid events extra st →
  Forall (λ e, recordable (se_payload e) = true) batch → Forall codec_ok batch →
  (∀ encoded n, encode_batch sid (w_next_seq st) batch = Ok (encoded, n) →
     w_committed_len st + file_len encoded ≤ u64_max)%N →
  match append_stored_batch batch outcome st with
  | (st', Ok _) =>
    writer_with sid (events ++ batch) [] st' ∧ w_poisoned st = None ∧ w_poisoned st' = None ∧
    batch ≠ [] ∧ w_dirty st' = true
  | (st', Err _) =>
    (∃ extra', writer_with sid events extra' st' ∧ (extra' = extra ∨ extra' = [] ∨ extra' = batch)) ∧
    w_dirty st' = w_dirty st ∧ (w_poisoned st' = None → st' = st)
  end.
Proof.
  intros Hok Hrec Hco Hfit. pose proof Hok as (Hlog & Hs & Hn & bs & bs' & k &
    Hbs & Hbs' & Hlog' & Hlen & Hfile & Hpois).
  unfold append_stored_batch.
  destruct (Nat.eqb_spec (length batch) 0) as [Hz|Hz]; [by eauto 10|].
  rewrite Hs. destruct (encode_batch sid (w_next_seq st) batch) as [[enc n']|] eqn:He;
    [|by eauto 10].
  specialize (Hfit enc n' eq_refl).
  apply encode_batch_Ok in He as (bb & Hbb & -> & Hc & Hsid & -> & Hmax); [|done].
  assert (batch ≠ []) as Hbne by (by intros ->). specialize (Hmax Hbne). rewrite Hn in Hc, Hmax.
  assert (log_ok sid (events ++ batch)) as Hext.
  { apply log_ok_extend; [done..|]. rewrite length_app. lia. }
  unfold write_committed_record. destruct (w_poisoned st) as [reason|] eqn:Hpo; [by eauto 10|].
  rewrite (Hpois eq_refl), app_nil_r in Hfile.
  destruct outcome as [|written err rb].
  - split_and!; [|done..]. split_and!; [done..| |].
    { simpl. rewrite Hn, length_app. lia. }
    exists (bs ++ bb), [], 0. simpl. rewrite app_nil_r, concat_app.
    split_and!; [by apply Forall2_app|constructor|done| |by rewrite Hfile, app_nil_r|done].
    unfold saturating_add, file_len in *. rewrite Hlen, length_app. lia.
  - unfold rollback_partial_write. destruct rb as [|e1|e1].
    + assert (set_committed_len (w_committed_len st) (set_file
        (set_len (w_committed_len st)
           (w_file (set_file (w_file st ++ take written (concat bb)) st)))
        (set_file (w_file st ++ take written (concat bb)) st)) = st) as ->; [|by eauto 10].
      destruct st; unfold set_committed_len, set_file; simpl in *. subst w_file w_committed_len.
      by rewrite set_len_app.
    + split_and!; [|done..]. exists batch. split; [|by right; right]. split_and!; [done..|].
      exists bs, bb, written. simpl. split_and!; [done..|by rewrite Hfile|done].
    + split_and!; [|done..]. exists []. split; [|by right; left]. split_and!; [done..|].
      exists bs, [], 0. simpl.
      rewrite Hfile, Hlen, set_len_app, !app_nil_r. split_and!; [done|constructor|done..].
Qed.
End recovery.

(** ** Properties *)

(** The forward scan returns what its contract says: on a file of records followed
    by an incomplete one, [replay_events_at_path] returns the events after [after_seq], at
    most [max_events] of them, in order, and ignores the incomplete tail. *)
Theorem forward_scan_reference `{EventCodec} path sid events bs t after_seq max_events :
  log_ok sid events → records events bs → newline_byte ∉ t → utf8_valid t = true →
  replay_events_at_path path (concat bs ++ t) None after_seq max_events
  = Ok (after_limited events after_seq max_events).
Proof. intros. by apply (replay_records path sid). Qed.

(** The reverse scan, which reads the file backwards in chunks, returns exactly the
    newest events before the cursor that a full replay and a filter would give, whatever
    lies behind the last committed record. *)
Theorem reverse_scan_reference `{EventCodec} path sid events bs t before_seq max_events :
  log_ok sid events → records events bs → newline_byte ∉ t →
  replay_events_before_at_path path (concat bs ++ t) before_seq max_events
  = Ok (before_limited events before_seq max_events).
Proof.
  intros Hlog Hrec Ht. destruct (log_ok_inv sid events Hlog) as (Hc & Hsid & Hne).
  unfold replay_events_before_at_path. case_bool_decide as Hmax.
  { subst. unfold before_limited. rewrite Nat.sub_0_r.
    by destruct before_seq; rewrite drop_all. }
  unfold last_committed_offset. rewrite (find_committed_records _ events) by done.
  rewrite reverse_chunks_spec;
    [|done|unfold file_len; rewrite length_app; lia|unfold file_len; rewrite length_app; lia
     |set_solver|done|unfold room; simpl; lia].
  unfold file_len. rewrite Nat2N.id, take_app_length, app_nil_r, (rsplit_records events) by done.
  cbn [reverse_lines forallb]. destruct Hlog as (_ & Hsne & Hlen).
  edestruct (reverse_records path before_seq max_events sid 0 events bs
    {| rs_events := []; rs_newer_seq := None; rs_session_id := None |}) as (st' & -> & ->);
    [done|done|lia|done|done|by left|by left|unfold room; simpl; lia|].
  simpl. rewrite Nat.sub_0_r, filter_rev, take_rev. unfold before_limited, wanted.
  destruct before_seq; [done|]. by rewrite filter_all by done.
Qed.

(** Crash recovery: a log file cut at any byte behind its first record opens to
    exactly the records that are complete in it.  The torn record is removed from the
    file, and the writer continues with the number of recovered events. *)
Theorem open_after_crash `{EventCodec} path sid events b0 bs k :
  log_ok sid events → records events (b0 :: bs) → length b0 ≤ k →
  ∃ n, 0 < n ≤ length events ∧
    length (concat (take n (b0 :: bs))) ≤ k ∧
    (n < length events → k < length (concat (take (S n) (b0 :: bs)))) ∧
    open_at_path path (Some (take k (concat (b0 :: bs)))) (Ok ()) (Ok ())
    = (Some (concat (take n (b0 :: bs))),
       Ok ({| w_file := concat (take n (b0 :: bs)); w_session_id := sid;
              w_next_seq := N.of_nat n;
              w_committed_len := file_len (concat (take n (b0 :: bs)));
              w_path := path; w_dirty := false; w_poisoned := None |}, take n events)).
Proof.
  intros Hlog Hrec Hk. pose proof (Forall2_length _ _ _ Hrec) as Hlen.
  destruct (cut_records events (b0 :: bs) k Hrec) as (n & t & Hcut & Ht & Hn & Hle & Hlt).
  exists n. rewrite Hlen.
  assert (0 < n) as Hn0.
  { destruct n; [|lia]. specialize (Hlt ltac:(simpl; lia)). simpl in Hlt.
    rewrite app_nil_r in Hlt. lia. }
  split_and!; [done..|]. rewrite Hcut.
  assert (records (take n events) (take n (b0 :: bs))) as Hrec' by (by apply Forall2_take).
  rewrite (open_records path sid (take n events)) by (done || by apply log_ok_take).
  rewrite length_take, Nat.min_l by lia. done.
Qed.

(** C40. An append commits or rolls back: on success the log is the old one and the
    whole batch; after a failed write that could be rolled back the writer is exactly as
    before; when the rollback fails too, the writer keeps the old log, refuses every later
    append, and the file it left reopens to the old log and at most a prefix of the batch. *)
Theorem append_commits_or_rolls_back `{EventCodec} sid events st batch outcome :
  writer_ok sid events st → w_poisoned st = None →
  Forall (λ e, recordable (se_payload e) = true) batch → Forall codec_ok batch →
  (∀ encoded n, encode_batch sid (w_next_seq st) batch = Ok (encoded, n) →
     w_committed_len st + file_len encoded ≤ u64_max)%N →
  match append_stored_batch batch outcome st with
  | (st', Ok _) => writer_ok sid (events ++ batch) st' ∧ w_poisoned st' = None
  | (st', Err _) =>
    st' = st ∨
    (writer_ok sid events st' ∧ w_poisoned st' ≠ None ∧
     (∀ batch' outcome', ∃ e, append_stored_batch batch' outcome' st' = (st', Err e)) ∧
     (∀ path, ∃ n file st'', open_at_path path (Some (w_file st')) (Ok ()) (Ok ())
        = (Some file, Ok (st'', events ++ take n batch))))
  end.
Proof.
  intros [extra Hok] Hp Hrec Hco Hfit. apply writer_with_unpoisoned in Hok; [|done].
  pose proof (append_stored_batch_with sid events [] st batch outcome Hok Hrec Hco Hfit) as Happ.
  destruct (append_stored_batch batch outcome st) as [st' [[]|e]].
  { destruct Happ as (Hok' & _ & Hp' & _). split; [by eexists|done]. }
  destruct Happ as ((extra' & Hok' & Hcase) & _ & Hsame).
  destruct (w_poisoned st') as [reason|] eqn:Hpo; [right|left; by apply Hsame].
  split_and!; [by eexists|done|intros; by eapply poisoned_append|]. intros path.
  destruct (writer_with_reopens path sid events extra' st' Hok') as (n & file & st'' & ->).
  destruct Hcase as [-> | [-> | ->]]; [exists 0|exists 0|exists n]; eexists _, _; [..|done];
    by rewrite take_nil.
Qed.

(** A crash can split a batch: when the process dies inside the single write of a
    batch, the records that reached the disk whole survive, so reopening can return the
    old log and a proper prefix of the batch. *)
Theorem crash_splits_batch `{EventCodec} path sid events st b1 b2 encoded n :
  writer_ok sid events st → w_poisoned st = None →
  Forall (λ e, recordable (se_payload e) = true) b1 → Forall codec_ok (b1 ++ b2) →
  encode_batch sid (w_next_seq st) (b1 ++ b2) = Ok (encoded, n) →
  ∃ written file st', written ≤ length encoded ∧
    open_at_path path (Some (w_file st ++ take written encoded)) (Ok ()) (Ok ())
    = (Some file, Ok (st', events ++ b1)).
Proof.
  intros [extra (Hlog & _ & Hn & bs & bs' & k & Hbs & _ & _ & _ & Hfile & Hpois)] Hp Hrec Hco He.
  apply encode_batch_Ok in He as (bb & Hbb & -> & Hc & Hsid & -> & Hmax); [|done].
  apply records_app in Hbb as (bb1 & bb2 & -> & Hb1 & Hb2).
  apply contiguous_app in Hc as [Hc _]. apply Forall_app in Hsid as [Hsid _].
  rewrite Hn in Hc, Hmax. rewrite (Hpois Hp), app_nil_r in Hfile.
  assert (log_ok sid (events ++ b1)) as Hext.
  { destruct b1 as [|x b1]; [by rewrite app_nil_r|]. apply log_ok_extend; [done..|].
    specialize (Hmax ltac:(done)). rewrite !length_app in *. lia. }
  exists (length (concat bb1)).
  eexists (concat (bs ++ bb1)), _. split; [rewrite concat_app, length_app; lia|].
  rewrite Hfile, (concat_app bb1), take_app_length, <-concat_app.
  rewrite <-(app_nil_r (concat (bs ++ bb1))) at 1.
  apply (open_records path sid (events ++ b1)); [done|by apply Forall2_app|set_solver].
Qed.

(** A scan that does not recover the file first does not ignore every incomplete
    tail: when the tail is cut inside a multi-byte character, the line reader fails on it
    and the whole scan is an error, although opening the same file succeeds. *)
Theorem scan_rejects_torn_character `{EventCodec} path sid events bs t :
  log_ok sid events → records events bs → newline_byte ∉ t → utf8_valid t = false →
  replay_events_at_path path (concat bs ++ t) None None None
  = Err (enhanced enhance_read_error path
      {| io_kind := Kind_InvalidData; io_message := "stream did not contain valid UTF-8" |}) ∧
  ∃ file st, open_at_path path (Some (concat bs ++ t)) (Ok ()) (Ok ())
    = (Some file, Ok (st, events)).
Proof.
  intros Hlog Hrec Ht Hu. split; [by apply (replay_invalid_tail path sid events)|].
  eexists _, _. by apply (open_records path sid events).
Qed.

(** ** Witnesses: the sample session with its events encoded by their numbers *)

Definition sample_turn : StoredEvent := StoredEvent_new 2 (sample_event P_TurnStarted).
Definition sample_turn2 : StoredEvent := StoredEvent_new 3 (sample_event P_TurnStarted).

#[local] Instance sample_codec : EventCodec := {|
  event_to_json e := Ok ("{" +:+ u64_to_string (se_seq e) +:+ "}");
  event_from_str s :=
    ok_or (find_first (λ e, bool_decide ("{" +:+ u64_to_string (se_seq e) +:+ "}" = s))
             (sample_log ++ [sample_turn; sample_turn2])) "unknown event";
|}.

Definition sample_records : list bytes :=
  map (λ e, to_bytes ("{" +:+ u64_to_string (se_seq e) +:+ "}") ++ [newline_byte]) sample_log.

Lemma one_char_codec_ok e c :
  Ascii.eqb c newline_byte = false →
  event_to_json e = Ok (of_bytes [ascii_of_N 123; c; ascii_of_N 125]) →
  event_from_str (of_bytes [ascii_of_N 123; c; ascii_of_N 125]) = Ok e →
  utf8_valid [ascii_of_N 123; c; ascii_of_N 125] = true → codec_ok e.
Proof.
  intros Hc Hto Hfrom Hu json Hj. rewrite Hto in Hj.
  assert (of_bytes [ascii_of_N 123; c; ascii_of_N 125] = json) as <- by congruence.
  split_and!; [done|by rewrite to_of_bytes| |by exists [c]; rewrite to_of_bytes].
  rewrite to_of_bytes. apply Ascii.eqb_neq in Hc. rewrite !not_elem_of_cons. split_and!; done || set_solver.
Qed.

Lemma sample_codec_ok : Forall codec_ok (sample_log ++ [sample_turn; sample_turn2]).
Proof.
  constructor; [|constructor; [|constructor; [|constructor; [|constructor]]]].
  - apply (one_char_codec_ok _ "0"); vm_compute; reflexivity.
  - apply (one_char_codec_ok _ "1"); vm_compute; reflexivity.
  - apply (one_char_codec_ok _ "2"); vm_compute; reflexivity.
  - apply (one_char_codec_ok _ "3"); vm_compute; reflexivity.
Qed.

Lemma sample_records_ok : records sample_log sample_records.
Proof.
  pose proof sample_codec_ok as [H0 [H1 _]%Forall_cons]%Forall_cons.
  constructor; [|constructor; [|constructor]].
  all: split; [vm_compute; reflexivity|assumption].
Qed.

Lemma sample_log_ok : log_ok sample_sid sample_log.
Proof.
  split; [|done]. eexists _, _, _. split_and!; try (vm_compute; reflexivity).
  - vm_compute. intros [=].
  - repeat constructor.
  - repeat constructor.
Qed.

Definition sample_writer : WriterState :=
  {| w_file := concat sample_records; w_session_id := sample_sid; w_next_seq := 2;
     w_committed_len := file_len (concat sample_records); w_path := "p"; w_dirty := false;
     w_poisoned := None |}.

Lemma sample_writer_ok : writer_ok sample_sid sample_log sample_writer.
Proof.
  exists []. split_and!; [apply sample_log_ok|done|done|]. exists sample_records, [], 0.
  rewrite !app_nil_r. split_and!; try done; [apply sample_records_ok|constructor|apply sample_log_ok].
Qed.

(** An incomplete record, and one cut inside a character. *)
Definition torn_record : bytes := to_bytes "{2".
Definition torn_character : bytes := [ascii_of_N 123; ascii_of_N 228].

Lemma no_newline_dec (t : bytes) : bool_decide (newline_byte ∉ t) = true → newline_byte ∉ t.
Proof. apply bool_decide_eq_true_1. Qed.

Lemma forward_scan_reference_witness :
  replay_events_at_path "p" (concat sample_records ++ torn_record) None (Some 0%N) (Some 5%N)
  = Ok (after_limited sample_log (Some 0%N) (Some 5%N)).
Proof.
  apply (forward_scan_reference "p" sample_sid sample_log sample_records torn_record);
    [apply sample_log_ok|apply sample_records_ok|apply no_newline_dec; vm_compute; reflexivity
    |vm_compute; reflexivity].
Defined.

Lemma reverse_scan_reference_witness :
  replay_events_before_at_path "p" (concat sample_records ++ torn_character) (Some 1%N) 7
  = Ok (before_limited sample_log (Some 1%N) 7).
Proof.
  apply (reverse_scan_reference "p" sample_sid sample_log sample_records torn_character);
    [apply sample_log_ok|apply sample_records_ok|apply no_newline_dec; vm_compute; reflexivity].
Defined.

Lemma open_after_crash_witness :
  ∃ n, 0 < n ≤ 2 ∧ length (concat (take n sample_records)) ≤ 6 ∧
    (n < 2 → 6 < length (concat (take (S n) sample_records))) ∧
    open_at_path "p" (Some (take 6 (concat sample_records))) (Ok ()) (Ok ())
    = (Some (concat (take n sample_records)),
       Ok ({| w_file := concat (take n sample_records); w_session_id := sample_sid;
              w_next_seq := N.of_nat n;
              w_committed_len := file_len (concat (take n sample_records));
              w_path := "p"; w_dirty := false; w_poisoned := None |}, take n sample_log)).
Proof.
  apply (open_after_crash "p" sample_sid sample_log
    (to_bytes "{0}" ++ [newline_byte]) [to_bytes "{1}" ++ [newline_byte]] 6);
    [apply sample_log_ok|apply sample_records_ok|simpl; lia].
Defined.

Lemma sample_turns_codec_ok : Forall codec_ok [sample_turn; sample_turn2].
Proof. pose proof sample_codec_ok as Hc. by apply Forall_app in Hc as [_ Hc]. Qed.

Lemma append_commits_or_rolls_back_witness :
  let out := Write_Failed 6 (io_other "disk full") (Rollback_SetLenFailed (io_other "stuck")) in
  match append_stored_batch [sample_turn; sample_turn2] out sample_writer with
  | (st', Ok _) =>
    writer_ok sample_sid (sample_log ++ [sample_turn; sample_turn2]) st' ∧ w_poisoned st' = None
  | (st', Err _) =>
    st' = sample_writer ∨
    (writer_ok sample_sid sample_log st' ∧ w_poisoned st' ≠ None ∧
     (∀ batch' outcome', ∃ e, append_stored_batch batch' outcome' st' = (st', Err e)) ∧
     (∀ path, ∃ n file st'', open_at_path path (Some (w_file st')) (Ok ()) (Ok ())
        = (Some file, Ok (st'', sample_log ++ take n [sample_turn; sample_turn2]))))
  end.
Proof.
  intros out.
  apply (append_commits_or_rolls_back sample_sid sample_log sample_writer
    [sample_turn; sample_turn2] out); [apply sample_writer_ok|done|by repeat constructor
    |apply sample_turns_codec_ok|].
  intros encoded n He. vm_compute in He. injection He as <- <-. vm_compute. intros [=].
Defined.

Lemma crash_splits_batch_witness :
  ∃ encoded n, encode_batch sample_sid 2 [sample_turn; sample_turn2] = Ok (encoded, n) ∧
  ∃ written file st', written ≤ length encoded ∧
    open_at_path "p" (Some (w_file sample_writer ++ take written encoded)) (Ok ()) (Ok ())
    = (Some file, Ok (st', sample_log ++ [sample_turn])).
Proof.
  eexists _, _. split; [vm_compute; reflexivity|].
  eapply (crash_splits_batch "p" sample_sid sample_log sample_writer [sample_turn] [sample_turn2]);
    [apply sample_writer_ok|done|by repeat constructor|apply sample_turns_codec_ok
    |vm_compute; reflexivity].
Defined.

Lemma scan_rejects_torn_character_witness :
  replay_events_at_path "p" (concat sample_records ++ torn_character) None None None
  = Err (enhanced enhance_read_error "p"
      {| io_kind := Kind_InvalidData; io_message := "stream did not contain valid UTF-8" |}) ∧
  ∃ file st, open_at_path "p" (Some (concat sample_records ++ torn_character)) (Ok ()) (Ok ())
    = (Some file, Ok (st, sample_log)).
Proof.
  apply (scan_rejects_torn_character "p" sample_sid sample_log sample_records torn_character);
    [apply sample_log_ok|apply sample_records_ok|apply no_newline_dec; vm_compute; reflexivity
    |vm_compute; reflexivity].
Defined.
