(* ===== verification/StoreRepo.v ===== *)
(** * The session repository ([storage/src/session_repo/*.rs])

    An opened session keeps its event log, the projection of the visible log and, after an
    fsync whose outcome is unknown, a sticky durability marker.  Every operation runs
    under the commit lane of the session, so it is a function on this state.  The calls
    into the file system take what it does as an argument. *)

From S2P Require Import Prelude Utf8 CoreTypes CoreLlm CoreEvent ProjViews ProjContext ProjReducer ProjReplay StoreTypes StoreLog.

(** ** Session identifiers ([session_id.rs]) *)

Inductive IdError :=
| InvalidCharacters (message : string)
| PathTraversal (id : string).

Definition IdError_to_string (e : IdError) : string :=
  match e with
  | InvalidCharacters m => "Invalid characters in ID: " +:+ m
  | PathTraversal id => "Path traversal attempt in ID: " +:+ id
  end.

Definition is_ascii_alphanumeric (c : ascii) : bool :=
  byte_in c 48 57 || byte_in c 65 90 || byte_in c 97 122.

Definition safe_id_byte (c : ascii) : bool :=
  is_ascii_alphanumeric c || bool_decide (c = "-"%char) || bool_decide (c = "_"%char).

(** [str::contains] with a string and with a one-byte pattern. *)
Fixpoint contains_bytes (b pat : bytes) : bool :=
  match b with
  | [] => bool_decide (pat = [])
  | _ :: b' => bool_decide (take (length pat) b = pat) || contains_bytes b' pat
  end.

(** The bytes of the first character of a string. *)
Definition first_char (b : bytes) : bytes :=
  match b with
  | [] => []
  | c :: r => c :: take (match list_find (λ d, is_cont d = false) r with
                         | Some (i, _) => i
                         | None => length r
                         end) r
  end.

(** The loop over the characters of the id.  A character outside ASCII is never safe, so
    the first byte decides. *)
Fixpoint check_id_chars (b : bytes) : result () IdError :=
  match b with
  | [] => Ok ()
  | c :: r =>
    if negb (safe_id_byte c) then
      Err (InvalidCharacters ("character '" +:+ of_bytes (first_char b)
                              +:+ "' not allowed in ID"))
    else check_id_chars r
  end.

Definition validate_session_id (id : string) : result () IdError :=
  let b := to_bytes id in
  if is_empty id then Err (InvalidCharacters "empty ID")
  else if contains_bytes b ["."%char; "."%char] || contains_bytes b ["/"%char]
          || contains_bytes b [ascii_of_N 92]
  then Err (PathTraversal id)
  else check_id_chars b.

Definition validate_storage_session_id (id : SessionId) : result () StorageError :=
  map_err (λ e, InvalidId (IdError_to_string e)) (validate_session_id (SessionId_str id)).

(** ** Uncertain durability ([durability.rs]) *)

Definition FSYNC_CONFIRMATION_PENDING : string := "fsync confirmation is pending".

Inductive UncertainDurability :=
| PendingProjection (batch : PreparedProjectionBatch) (through_seq : N) (reason : string)
| Published (through_seq : N) (reason : string).

Definition ud_through_seq (u : UncertainDurability) : N :=
  match u with PendingProjection _ t _ | Published t _ => t end.
Definition ud_reason (u : UncertainDurability) : string :=
  match u with PendingProjection _ _ r | Published _ r => r end.
Definition ud_set_reason (reason : string) (u : UncertainDurability) : UncertainDurability :=
  match u with
  | PendingProjection b t _ => PendingProjection b t reason
  | Published t _ => Published t reason
  end.
Definition ud_error (session_id : SessionId) (u : UncertainDurability) : StorageError :=
  DurabilityUncertain session_id (ud_through_seq u) (ud_reason u).

Definition uncertain_seq_mismatch (expected actual : N) : StorageError :=
  InvalidEvent ("durability confirmation expected pending seq " +:+ u64_to_string expected
                +:+ ", found " +:+ u64_to_string actual).
Definition sequence_overflow : StorageError := CorruptLog "session event sequence overflow".

(** ** Opened sessions *)

Record SessionMeta := {
  log : WriterState;
  projection : SessionReadModel;
  uncertain_durability : option UncertainDurability;
}.

Definition set_log (l : WriterState) (m : SessionMeta) : SessionMeta :=
  {| log := l; projection := projection m; uncertain_durability := uncertain_durability m |}.
Definition set_projection (p : SessionReadModel) (m : SessionMeta) : SessionMeta :=
  {| log := log m; projection := p; uncertain_durability := uncertain_durability m |}.
Definition put_uncertain (u : option UncertainDurability) (m : SessionMeta) : SessionMeta :=
  {| log := log m; projection := projection m; uncertain_durability := u |}.

Definition set_uncertain (u : UncertainDurability) (m : SessionMeta) : SessionMeta :=
  put_uncertain (Some u) m.

Definition pending_through_seq (m : SessionMeta) : option N :=
  ud_through_seq <$> uncertain_durability m.

(** [EventLog::count]: the published copy of the writer's next number. *)
Definition log_count (m : SessionMeta) : N := w_next_seq (log m).

Definition fail_uncertain (session_id : SessionId) (expected_through_seq : N) (reason : string)
    (m : SessionMeta) : SessionMeta * StorageError :=
  match uncertain_durability m with
  | None => (m, CorruptLog "durability marker disappeared before fsync completed")
  | Some u =>
    if bool_decide (ud_through_seq u ≠ expected_through_seq) then
      (m, uncertain_seq_mismatch expected_through_seq (ud_through_seq u))
    else
      let u := ud_set_reason reason u in
      (set_uncertain u m, ud_error session_id u)
  end.

Definition take_uncertain (expected_through_seq : N) (m : SessionMeta)
    : SessionMeta * result UncertainDurability StorageError :=
  match uncertain_durability m with
  | Some u =>
    if bool_decide (ud_through_seq u = expected_through_seq)
    then (put_uncertain None m, Ok u)
    else (m, Err (uncertain_seq_mismatch expected_through_seq (ud_through_seq u)))
  | None => (m, Err (CorruptLog "durability marker disappeared before confirmation completed"))
  end.

Definition ensure_log_positioned_for (prepared : PreparedProjectionBatch) (m : SessionMeta)
    : result () StorageError :=
  let expected_seq := first_seq prepared in
  let log_next_seq := log_count m in
  if bool_decide (log_next_seq ≠ expected_seq) then
    Err (CorruptLog ("event log next seq " +:+ u64_to_string log_next_seq
      +:+ " does not match projection next seq " +:+ u64_to_string expected_seq))
  else Ok ().

(** [SessionProjection::apply_committed]. *)
Definition apply_committed (batch : PreparedProjectionBatch) (m : SessionMeta)
    : SessionMeta * list StoredEvent :=
  (set_projection (fst (apply_to_model batch (projection m))) m,
   snd (apply_to_model batch (projection m))).

Definition apply_confirmed_projection (expected_through_seq : N) (m : SessionMeta)
    : SessionMeta * result (list StoredEvent) StorageError :=
  match take_uncertain expected_through_seq m with
  | (m, Err e) => (m, Err e)
  | (m, Ok (Published _ _)) => (m, Ok [])
  | (m, Ok (PendingProjection batch through_seq reason)) =>
    let log_next_seq := log_count m in
    match checked_add u64_max through_seq 1 with
    | None => (m, Err sequence_overflow)
    | Some expected_next_seq =>
      if bool_decide (log_next_seq ≠ expected_next_seq) then
        (set_uncertain (PendingProjection batch through_seq reason) m,
         Err (CorruptLog ("event log next seq " +:+ u64_to_string log_next_seq
           +:+ " does not match pending durability boundary "
           +:+ u64_to_string expected_next_seq)))
      else
        match checked_add u64_max (last_seq (stats (projection m))) 1 with
        | None => (m, Err sequence_overflow)
        | Some projection_next_seq =>
          if bool_decide (projection_next_seq ≠ first_seq batch) then
            (set_uncertain (PendingProjection batch through_seq reason) m,
             Err (CorruptLog ("projection next seq " +:+ u64_to_string projection_next_seq
               +:+ " does not match pending batch start " +:+ u64_to_string (first_seq batch))))
          else
            let '(m, stored) := apply_committed batch m in (m, Ok stored)
        end
    end
  end.

Definition ensure_no_uncertain_durability (session_id : SessionId) (m : SessionMeta)
    : result () StorageError :=
  match uncertain_durability m with
  | Some u => Err (ud_error session_id u)
  | None => Ok ()
  end.

(** ** The journal ([journal.rs]) *)

Section journal.
Context `{EventCodec} (to_json : LlmMessage → result string string).

Definition append_session_id (events : list DurableEvent) : result SessionId StorageError :=
  ok_or (ev_session_id <$> head events) (InvalidEvent "event batch cannot be empty").

(** [SessionProjection::prepare_batch]. *)
Definition prepare_batch (events : list DurableEvent) (m : SessionMeta)
    : result PreparedProjectionBatch StorageError :=
  map_err (λ e, match e with
                | SequenceOverflow => CorruptLog (ProjectionError_to_string e)
                | e => invalid_event e
                end) (prepare to_json (projection m) events).

(** [EventLog::append_prepared_batch]. *)
Definition append_prepared_batch (batch : PreparedProjectionBatch) (outcome : WriteOutcome)
    (m : SessionMeta) : SessionMeta * result PreparedProjectionBatch StorageError :=
  match append_stored_batch (batch_events batch) outcome (log m) with
  | (l, Ok _) => (set_log l m, Ok batch)
  | (l, Err e) => (set_log l m, Err e)
  end.

(** [EventLog::force_sync]. *)
Definition force_sync (outcome : SyncOutcome) (m : SessionMeta)
    : SessionMeta * result () StorageError :=
  let '(l, r) := flush_and_sync outcome (log m) in (set_log l m, r).

(** The prefix [append_events] and [append_events_and_sync] share, under the confirmed
    commit lane: the prepared batch, in position. *)
Definition admit_batch (session_id : SessionId) (events : list DurableEvent) (m : SessionMeta)
    : result PreparedProjectionBatch StorageError :=
  let? _ := ensure_no_uncertain_durability session_id m in
  let? prepared := prepare_batch events m in
  let? _ := ensure_log_positioned_for prepared m in
  Ok prepared.

Definition append_events (session_id : SessionId) (events : list DurableEvent)
    (write : WriteOutcome) (m : SessionMeta)
    : SessionMeta * result (list StoredEvent) StorageError :=
  match admit_batch session_id events m with
  | Err e => (m, Err e)
  | Ok prepared =>
    match append_prepared_batch prepared write m with
    | (m, Err e) => (m, Err e)
    | (m, Ok committed) => let '(m, stored) := apply_committed committed m in (m, Ok stored)
    end
  end.

(** [error.to_string()] of what a force-sync returns, an [Io] error. *)
Definition StorageError_to_string (e : StorageError) : string :=
  match e with
  | NotFound s => "Session not found: " +:+ SessionId_str s
  | AlreadyExists s => "Session already exists: " +:+ SessionId_str s
  | Io e => "IO error: " +:+ io_message e
  | Serialization e => "Serialization error: " +:+ e
  | InvalidId m => "Invalid session ID: " +:+ m
  | InvalidEvent m => "Invalid durable event: " +:+ m
  | DurabilityUncertain s n r =>
    "Durability is uncertain for session " +:+ SessionId_str s +:+ " through seq "
      +:+ u64_to_string n +:+ ": " +:+ r
  | CorruptLog m => "Corrupt session event log: " +:+ m
  | LockError m => "Lock error: " +:+ m
  | Unsupported m => "Unsupported storage operation: " +:+ m
  end.

Definition append_events_and_sync (session_id : SessionId) (events : list DurableEvent)
    (write : WriteOutcome) (sync : SyncOutcome) (m : SessionMeta)
    : SessionMeta * result (list StoredEvent) StorageError :=
  match admit_batch session_id events m with
  | Err e => (m, Err e)
  | Ok prepared =>
    match append_prepared_batch prepared write m with
    | (m, Err e) => (m, Err e)
    | (m, Ok committed) =>
      match se_seq <$> last (batch_events committed) with
      | None => (m, Err short_batch_result)
      | Some through_seq =>
        let m := set_uncertain
          (PendingProjection committed through_seq FSYNC_CONFIRMATION_PENDING) m in
        match force_sync sync m with
        | (m, Err e) =>
          let '(m, e) := fail_uncertain session_id through_seq (StorageError_to_string e) m in
          (m, Err e)
        | (m, Ok _) => apply_confirmed_projection through_seq m
        end
      end
    end
  end.

Definition sync_durable_events (session_id : SessionId) (sync : SyncOutcome) (m : SessionMeta)
    : SessionMeta * result () StorageError :=
  match ensure_no_uncertain_durability session_id m with
  | Err e => (m, Err e)
  | Ok _ =>
    match checked_sub (log_count m) 1 with
    | None => (m, Err (CorruptLog "created session has an empty event log"))
    | Some through_seq =>
      let m := set_uncertain (Published through_seq FSYNC_CONFIRMATION_PENDING) m in
      match force_sync sync m with
      | (m, Err e) =>
        let '(m, e) := fail_uncertain session_id through_seq (StorageError_to_string e) m in
        (m, Err e)
      | (m, Ok _) =>
        match take_uncertain through_seq m with
        | (m, Ok _) => (m, Ok ())
        | (m, Err e) => (m, Err e)
        end
      end
    end
  end.

Definition retry_uncertain_sync (session_id : SessionId) (expected_through_seq : N)
    (sync : SyncOutcome) (m : SessionMeta)
    : SessionMeta * result (list StoredEvent) StorageError :=
  match pending_through_seq m with
  | Some actual_through_seq =>
    if bool_decide (actual_through_seq ≠ expected_through_seq) then
      (m, Err (uncertain_seq_mismatch expected_through_seq actual_through_seq))
    else
      match force_sync sync m with
      | (m, Err e) =>
        let '(m, e) := fail_uncertain session_id expected_through_seq
                         (StorageError_to_string e) m in
        (m, Err e)
      | (m, Ok _) => apply_confirmed_projection expected_through_seq m
      end
  | None =>
    match checked_add u64_max expected_through_seq 1 with
    | None => (m, Err sequence_overflow)
    | Some expected_next_seq =>
      if bool_decide (log_count m = expected_next_seq)
         && bool_decide (last_seq (stats (projection m)) = expected_through_seq)
      then (m, Ok [])
      else (m, Err (InvalidEvent ("session " +:+ SessionId_str session_id
             +:+ " has no pending durability confirmation for seq "
             +:+ u64_to_string expected_through_seq)))
    end
  end.

(** [create_session] once its directory is chosen and leased: [existing] is the file
    found at its path. *)
Definition create_session (path : string) (event : DurableEvent) (existing : option bytes)
    (outcome : CreateOutcome)
    : option bytes * result (SessionMeta * StoredEvent) StorageError :=
  match validate_storage_session_id (ev_session_id event) with
  | Err e => (existing, Err e)
  | Ok _ =>
    if has_turn event then
      (existing, Err (InvalidId "SessionStarted must be a session-level event"))
    else if negb (is_session_started (ev_payload event)) then
      (existing, Err (InvalidId "create_session requires SessionStarted"))
    else
      match create_at_path path event existing outcome with
      | (file, Err e) => (file, Err e)
      | (file, Ok (l, stored)) =>
        (file,
         let? p := map_err invalid_event (replay to_json (ev_session_id event) [stored]) in
         Ok ({| log := l; projection := p; uncertain_durability := None |}, stored))
      end
  end.

(** The cold path of [get_or_open_meta]: open the log and rebuild the projection. *)
Definition open_meta (path : string) (session_id : SessionId) (file : option bytes)
    (recover_sync confirm_sync : result () IoError)
    : option bytes * result SessionMeta StorageError :=
  match validate_storage_session_id session_id with
  | Err e => (file, Err e)
  | Ok _ =>
    let '(file, opened) := open_at_path path file recover_sync confirm_sync in
    (file,
     let? le := opened in
     let? p := map_err corrupt_projection (replay to_json session_id (snd le)) in
     Ok {| log := fst le; projection := p; uncertain_durability := None |})
  end.

(** ** Readers ([reader.rs]) *)

Definition replay_events (session_id : SessionId) (m : SessionMeta)
    : result (list StoredEvent) StorageError :=
  let? _ := ensure_no_uncertain_durability session_id m in
  replay_events_at_path (w_path (log m)) (w_file (log m)) None None None.

Definition replay_after_limited (session_id : SessionId) (seq : N) (max_events : option N)
    (m : SessionMeta) : result (list StoredEvent) StorageError :=
  let? _ := ensure_no_uncertain_durability session_id m in
  replay_events_at_path (w_path (log m)) (w_file (log m)) None (Some seq) max_events.

Definition replay_before_limited (session_id : SessionId) (before_seq : option N)
    (max_events : N) (m : SessionMeta) : result (list StoredEvent) StorageError :=
  let? _ := ensure_no_uncertain_durability session_id m in
  replay_events_before_at_path (w_path (log m)) (w_file (log m)) before_seq max_events.

Definition session_read_model (m : SessionMeta) : SessionReadModel := projection m.
Definition latest_cursor (m : SessionMeta) : option Cursor := Some (cursor (projection m)).

(** The joined outcomes of [read_summaries_from_logs], in the order the readers finish. *)
Fixpoint collect_summaries (outcomes : list (result (option SessionSummary) StorageError))
    : result (list SessionSummary) StorageError :=
  match outcomes with
  | [] => Ok []
  | Ok (Some s) :: outcomes => let? rest := collect_summaries outcomes in Ok (s :: rest)
  | Ok None :: outcomes => collect_summaries outcomes
  | Err (CorruptLog _) :: outcomes | Err (Serialization _) :: outcomes =>
    collect_summaries outcomes
  | Err e :: _ => Err e
  end.

(** [EventLog::read_summary] of a session that is not open. *)
Definition read_summary (to_rfc3339 : DateTime → string) (path : string)
    (session_id : SessionId) (file : bytes) (sync : result () IoError)
    : result (option SessionSummary) StorageError :=
  let? confirmed_len := sync_existing_log path file sync in
  let? s := read_summary_at_path path to_rfc3339 session_id file (Some confirmed_len) in
  Ok (Some s).
End journal.
