(* ===== verification/StoreJournal.v ===== *)
(** * Correctness of the session journal

    In every reachable state of an opened session the projection is the replay of the
    visible log and the file holds the visible log, the batch that awaits its fsync and, after
    a rollback that failed, bytes of the failed write; uncertainty is sticky and is resolved exactly once; a crash at any byte reopens to a
    session that extends what was visible. *)

From S2P Require Import Prelude Utf8 CoreTypes CoreLlm CoreEvent ProjViews ProjContext ProjReducer ProjReplay StoreTypes StoreLog StoreScan StoreRecovery StoreRepo.

Section journal.
Context `{EventCodec} (to_json : LlmMessage → result string string) (sid : SessionId).

(** ** The invariant *)

(** The events behind the visible log that are written but not yet confirmed. *)
Definition pending_events (m : SessionMeta) : list StoredEvent :=
  match uncertain_durability m with
  | Some (PendingProjection b _ _) => batch_events b
  | _ => []
  end.

(** What the marker says about the log: its boundary is the end of the log, and a pending
    batch is the next one of the projection. *)
Definition marker_ok (visible : list StoredEvent) (m : SessionMeta) : Prop :=
  match uncertain_durability m with
  | None => True
  | Some u =>
    (ud_through_seq u + 1)%N = N.of_nat (length (visible ++ pending_events m)) ∧
    match u with
    | PendingProjection b _ _ =>
      first_seq b = N.of_nat (length visible) ∧
      try_fold (reduce to_json) (projection m) (batch_events b)
        = Ok (fst (apply_to_model b (projection m)))
    | Published _ _ => True
    end
  end.

(** The state of a session whose readers see [visible].  [extra] are the events of a
    failed append whose rollback failed, of which the file may hold some bytes. *)
Definition meta_with (visible extra : list StoredEvent) (m : SessionMeta) : Prop :=
  replay to_json sid visible = Ok (projection m) ∧
  writer_with sid (visible ++ pending_events m) extra (log m) ∧
  marker_ok visible m ∧
  (∃ p, replay to_json sid (visible ++ pending_events m ++ extra) = Ok p).
Definition meta_ok (visible : list StoredEvent) (m : SessionMeta) : Prop :=
  ∃ extra, meta_with visible extra m.

(** Events the codec handles, in a file whose size still fits. *)
Definition admissible (m : SessionMeta) (events : list DurableEvent) : Prop :=
  ∀ b, prepare to_json (projection m) events = Ok b →
    Forall codec_ok (batch_events b) ∧
    (∀ encoded n, encode_batch sid (w_next_seq (log m)) (batch_events b) = Ok (encoded, n) →
       w_committed_len (log m) + file_len encoded ≤ u64_max)%N.

(** ** Lemmas *)

Lemma replay_last_seq log m :
  replay to_json sid log = Ok m →
  (last_seq (stats m) + 1)%N = N.of_nat (length log) ∧ session_id (identity m) = sid.
Proof.
  intros Hr. pose proof (replay_shape to_json sid log m Hr) as (Hwf & Hl & _).
  destruct log as [|e0 log]; [done|]. split; [rewrite Hl; simpl; lia|].
  apply replay_cons_Ok in Hr as (st & _ & _ & _ & _ & Hf).
  eapply (try_fold_ind (λ m, session_id (identity m) = sid)); [| |exact Hf]; [|done].
  intros s a s' _ Hs Hred. by rewrite (reduce_session_id _ _ _ _ Hred).
Qed.

(** A batch admitted on the projection is positioned at the end of the log, and its
    events extend it. *)
Lemma prepared_batch visible m events b :
  replay to_json sid visible = Ok m → prepare to_json m events = Ok b →
  first_seq b = N.of_nat (length visible) ∧ batch_events b ≠ [] ∧
  contiguous (N.of_nat (length visible)) (batch_events b) ∧
  Forall (λ e, se_session_id e = sid) (batch_events b) ∧
  Forall (λ e, recordable (se_payload e) = true) (batch_events b) ∧
  try_fold (reduce to_json) m (batch_events b) = Ok (fst (apply_to_model b m)) ∧
  replay to_json sid (visible ++ batch_events b) = Ok (fst (apply_to_model b m)).
Proof.
  intros Hr Hp. destruct (replay_last_seq visible m Hr) as [Hlast Hsid].
  apply prepare_Ok in Hp as (Hne & Hfirst & Hev & Hf).
  rewrite Hlast in Hfirst.
  pose proof (reduce_all_shape to_json _ _ _ Hf) as (_ & _ & _ & _ & Hs & Hrec).
  rewrite Hsid in Hs. rewrite Hfirst in Hev.
  split_and!; try done.
  - rewrite Hev. by destruct events.
  - rewrite Hev. clear. generalize (N.of_nat (length visible)) as n.
    induction events as [|e events IH]; intros n; simpl; [done|]. by split.
  - by rewrite (replay_app to_json sid visible m).
Qed.

Lemma admit_batch_Ok m events b :
  admit_batch to_json sid events m = Ok b →
  uncertain_durability m = None ∧ prepare to_json (projection m) events = Ok b.
Proof.
  unfold admit_batch, ensure_no_uncertain_durability, prepare_batch.
  destruct (uncertain_durability m); [done|].
  destruct (prepare to_json (projection m) events) as [b'|]; [|done]. simpl.
  destruct (ensure_log_positioned_for b' m); [|done]. by intros [= ->].
Qed.

Lemma replay_prefix l1 l2 p :
  l1 ≠ [] → replay to_json sid (l1 ++ l2) = Ok p → ∃ q, replay to_json sid l1 = Ok q.
Proof.
  destruct l1 as [|e0 l1]; [done|]. intros _. simpl.
  intros (st & Hp & Hq & Ht & Hs & Hf)%replay_cons_Ok. rewrite try_fold_app in Hf.
  destruct (try_fold (reduce to_json) _ l1) as [q|] eqn:Hq1; [|done].
  exists q. apply replay_cons_Ok. by exists st.
Qed.

(** A write of an admitted batch: committed behind the visible log, or not at all. *)
Lemma append_prepared_batch_ok visible extra m events b write :
  meta_with visible extra m → uncertain_durability m = None →
  prepare to_json (projection m) events = Ok b → admissible m events →
  match append_prepared_batch b write m with
  | (m', Ok b') =>
    b' = b ∧ projection m' = projection m ∧ uncertain_durability m' = None ∧
    writer_with sid (visible ++ batch_events b) [] (log m') ∧ w_dirty (log m') = true
  | (m', Err _) => meta_ok visible m' ∧ uncertain_durability m' = None ∧
      projection m' = projection m
  end.
Proof.
  intros (Hr & Hw & Hmk & Hx) Hu Hp Hadm.
  destruct (prepared_batch visible _ events b Hr Hp) as (_ & _ & _ & _ & Hrec & _ & Hrb).
  destruct (Hadm b Hp) as [Hco Hfit]. unfold append_prepared_batch.
  unfold meta_ok, meta_with, pending_events in *. rewrite Hu in *. simpl in *.
  rewrite app_nil_r in Hw.
  pose proof (append_stored_batch_with sid visible extra (log m) (batch_events b) write Hw Hrec Hco
    Hfit) as Happ.
  destruct (append_stored_batch (batch_events b) write (log m)) as [l [[]|e]].
  - destruct Happ as (Hw' & _ & _ & _ & Hd). by split_and!.
  - destruct Happ as ((extra' & Hw' & Hcase) & _ & _). simpl. rewrite Hu. split_and!; [|done..].
    exists extra'. unfold marker_ok. simpl. rewrite Hu, app_nil_r.
    split_and!; [done..|]. destruct Hcase as [-> | [-> | ->]]; [done| |by eexists].
    rewrite app_nil_r. by eexists.
Qed.

Lemma force_sync_ok visible extra m sync :
  meta_with visible extra m →
  let m' := fst (force_sync sync m) in
  meta_with visible extra m' ∧ uncertain_durability m' = uncertain_durability m ∧
  projection m' = projection m ∧ log_count m' = log_count m.
Proof.
  unfold force_sync, flush_and_sync. intros Hm.
  destruct (negb (w_dirty (log m))); [by destruct m|].
  destruct sync; by destruct m.
Qed.

(** ** The operations *)

(** The confirmation of a marker: none of its corruption checks can fire. *)
Lemma apply_confirmed_eq visible extra m u :
  meta_with visible extra m → uncertain_durability m = Some u →
  apply_confirmed_projection (ud_through_seq u) m
  = match u with
    | Published _ _ => (put_uncertain None m, Ok [])
    | PendingProjection b _ _ =>
      (set_projection (fst (apply_to_model b (projection m))) (put_uncertain None m),
       Ok (batch_events b))
    end.
Proof.
  intros (Hr & Hw & Hmk & _) Hu. unfold apply_confirmed_projection, take_uncertain.
  unfold marker_ok in Hmk. rewrite Hu in *. rewrite bool_decide_true by done.
  destruct u as [b t r|t r]; [|done]. destruct Hmk as (Hend & Hfirst & _).
  destruct Hw as ((_ & _ & Hle) & _ & Hn & _). simpl in Hend.
  destruct (replay_last_seq visible _ Hr) as [Hlast _].
  unfold pending_events in *. rewrite Hu in *. rewrite length_app in *.
  unfold checked_add. rewrite bool_decide_true by lia.
  unfold log_count. cbn [log put_uncertain]. rewrite Hn.
  rewrite (bool_decide_false (_ ≠ _)) by lia. cbn [projection put_uncertain].
  rewrite bool_decide_true by lia. rewrite (bool_decide_false (_ ≠ _)) by lia. done.
Qed.

Lemma apply_confirmed_ok visible extra m u :
  meta_with visible extra m → uncertain_durability m = Some u →
  let r := apply_confirmed_projection (ud_through_seq u) m in
  snd r = Ok (pending_events m) ∧ meta_ok (visible ++ pending_events m) (fst r) ∧
  uncertain_durability (fst r) = None.
Proof.
  intros Hm Hu. rewrite (apply_confirmed_eq visible extra m u Hm Hu). cbv zeta.
  destruct Hm as (Hr & Hw & Hmk & Hx). unfold marker_ok, pending_events in *. rewrite Hu in *.
  destruct u as [b t r|t r]; simpl; split_and!; try done; exists extra.
  - destruct Hmk as (_ & _ & Hf). split_and!.
    + simpl. by rewrite (replay_app to_json sid visible _ _ Hr).
    + unfold pending_events. simpl. by rewrite app_nil_r.
    + done.
    + unfold pending_events. simpl. by rewrite <-(assoc_L (++)).
  - rewrite !app_nil_r in *. split_and!; [done| |done|].
    + unfold pending_events. simpl. by rewrite app_nil_r.
    + by unfold pending_events.
Qed.

Lemma fail_uncertain_ok visible extra m u reason :
  meta_with visible extra m → uncertain_durability m = Some u →
  let r := fail_uncertain sid (ud_through_seq u) reason m in
  meta_with visible extra (fst r) ∧
  uncertain_durability (fst r) = Some (ud_set_reason reason u) ∧
  snd r = DurabilityUncertain sid (ud_through_seq u) reason.
Proof.
  intros (Hr & Hw & Hmk & Hx) Hu. unfold fail_uncertain. rewrite Hu.
  rewrite bool_decide_false by (intros ?; done). cbv zeta. simpl.
  unfold meta_with, marker_ok, pending_events in *. simpl. rewrite Hu in *.
  destruct u as [b t r|t r]; simpl in *; destruct Hmk as (Hend & Hmk); split_and!; naive_solver.
Qed.

Lemma append_events_ok visible m events write :
  meta_ok visible m → admissible m events →
  match append_events to_json sid events write m with
  | (m', Ok stored) =>
    ∃ b, prepare to_json (projection m) events = Ok b ∧ stored = batch_events b ∧
      meta_ok (visible ++ stored) m' ∧ uncertain_durability m' = None
  | (m', Err _) => meta_ok visible m'
  end.
Proof.
  intros [extra Hm] Hadm. unfold append_events.
  destruct (admit_batch to_json sid events m) as [b|] eqn:Hb; [|by eexists].
  destruct (admit_batch_Ok m events b Hb) as [Hu Hp].
  pose proof (append_prepared_batch_ok visible extra m events b write Hm Hu Hp Hadm) as Happ.
  destruct (append_prepared_batch b write m) as [m' [b'|]]; [|by destruct Happ].
  destruct Happ as (-> & Hpr & Hu' & Hw & _). simpl. exists b. split_and!; [done..| |done].
  destruct Hm as (Hr & _). 
  destruct (prepared_batch visible _ events b Hr Hp) as (_ & _ & _ & _ & _ & _ & Hrb).
  exists []. unfold meta_with, marker_ok, pending_events. simpl. rewrite Hu', Hpr, !app_nil_r.
  split_and!; [done..|by eexists].
Qed.

Lemma last_contiguous n (l : list StoredEvent) e :
  contiguous n l → last l = Some e → (se_seq e + 1)%N = (n + N.of_nat (length l))%N.
Proof.
  intros Hc (init & ->)%last_Some. apply contiguous_snoc in Hc as [_ Hq].
  rewrite length_app. simpl. lia.
Qed.

Lemma append_events_and_sync_ok visible m events write sync :
  meta_ok visible m → admissible m events →
  match append_events_and_sync to_json sid events write sync m with
  | (m', Ok stored) =>
    ∃ b, prepare to_json (projection m) events = Ok b ∧ stored = batch_events b ∧
      meta_ok (visible ++ stored) m' ∧ uncertain_durability m' = None
  | (m', Err _) => meta_ok visible m'
  end.
Proof.
  intros [extra Hm] Hadm. unfold append_events_and_sync.
  destruct (admit_batch to_json sid events m) as [b|] eqn:Hb; [|by eexists].
  destruct (admit_batch_Ok m events b Hb) as [Hu Hp].
  pose proof (append_prepared_batch_ok visible extra m events b write Hm Hu Hp Hadm) as Happ.
  destruct (append_prepared_batch b write m) as [m1 [b'|]]; [|by destruct Happ].
  destruct Happ as (-> & Hpr & Hu' & Hw & _). destruct Hm as (Hr & _).
  destruct (prepared_batch visible _ events b Hr Hp) as (Hfirst & Hne & Hc & _ & _ & Hf & Hrb).
  destruct (last (batch_events b)) as [e|] eqn:Hlast; [|by apply last_None in Hlast].
  simpl. pose proof (last_contiguous _ _ _ Hc Hlast) as Hthrough.
  set (u := PendingProjection b (se_seq e) FSYNC_CONFIRMATION_PENDING).
  assert (meta_with visible [] (set_uncertain u m1)) as Hm2.
  { unfold meta_with, marker_ok, pending_events. simpl. rewrite Hpr, app_nil_r, length_app.
    split_and!; [done..|lia|done|done|by eexists]. }
  pose proof (force_sync_ok visible [] (set_uncertain u m1) sync Hm2) as (Hm3 & Hu3 & Hp3 & _).
  destruct (force_sync sync (set_uncertain u m1)) as [m3 [[]|err]]; simpl in Hm3, Hu3, Hp3.
  - destruct (apply_confirmed_ok visible [] m3 u Hm3 Hu3) as (Hres & Hok & Hnone).
    unfold pending_events in Hres, Hok. rewrite Hu3 in Hres, Hok. simpl in Hres, Hok.
    change (ud_through_seq u) with (se_seq e) in *.
    destruct (apply_confirmed_projection (se_seq e) m3) as [m4 r]. simpl in *. subst r.
    by exists b.
  - destruct (fail_uncertain_ok visible [] m3 u (StorageError_to_string err) Hm3 Hu3)
      as (Hok & _ & _). change (ud_through_seq u) with (se_seq e) in *.
    destruct (fail_uncertain sid (se_seq e) _ m3) as [m4 r]. simpl in *. by eexists.
Qed.

Lemma sync_durable_events_ok visible m sync :
  meta_ok visible m → meta_ok visible (fst (sync_durable_events sid sync m)).
Proof.
  intros [extra Hm]. unfold sync_durable_events, ensure_no_uncertain_durability.
  destruct (uncertain_durability m) as [u|] eqn:Hu; [by eexists|].
  destruct (checked_sub (log_count m) 1) as [t|] eqn:Ht; [|by eexists].
  set (u := Published t FSYNC_CONFIRMATION_PENDING).
  assert (meta_with visible extra (set_uncertain u m)) as Hm2.
  { destruct Hm as (Hr & Hw & Hmk & Hx). unfold meta_with, marker_ok, pending_events in *.
    rewrite Hu in *. simpl. split_and!; [done..| |done|done].
    destruct Hw as (_ & _ & Hn & _). unfold checked_sub, log_count in Ht.
    case_bool_decide; [|done]. rewrite <-Hn. injection Ht as <-. lia. }
  pose proof (force_sync_ok visible extra (set_uncertain u m) sync Hm2) as (Hm3 & Hu3 & _ & _).
  destruct (force_sync sync (set_uncertain u m)) as [m3 [[]|err]]; simpl in Hm3, Hu3.
  - unfold take_uncertain. rewrite Hu3, bool_decide_true by done. simpl.
    destruct Hm3 as (Hr & Hw & Hmk & Hx). exists extra.
    unfold meta_with, marker_ok, pending_events in *. rewrite Hu3 in *. by split_and!.
  - destruct (fail_uncertain_ok visible extra m3 u (StorageError_to_string err) Hm3 Hu3)
      as (Hok & _ & _). change (ud_through_seq u) with t in *.
    destruct (fail_uncertain sid t _ m3) as [m4 r]. simpl in *. by eexists.
Qed.

Lemma retry_uncertain_sync_ok visible m expected sync :
  meta_ok visible m →
  match retry_uncertain_sync sid expected sync m with
  | (m', Ok stored) =>
    stored = pending_events m ∧ meta_ok (visible ++ stored) m' ∧ uncertain_durability m' = None
  | (m', Err _) => meta_ok visible m' ∧ pending_events m' = pending_events m
  end.
Proof.
  intros [extra Hm]. unfold retry_uncertain_sync, pending_through_seq.
  destruct (uncertain_durability m) as [u|] eqn:Hu; simpl.
  - case_bool_decide as Ht; [by split; [eexists|]|].
    assert (expected = ud_through_seq u) as -> by (by destruct (decide (expected = ud_through_seq u))).
    pose proof (force_sync_ok visible extra m sync Hm) as (Hm3 & Hu3 & _ & _).
    destruct (force_sync sync m) as [m3 [[]|err]]; simpl in Hm3, Hu3; rewrite Hu in Hu3.
    + destruct (apply_confirmed_ok visible extra m3 u Hm3 Hu3) as (Hres & Hok & Hnone).
      assert (pending_events m3 = pending_events m) as Hpe
        by (unfold pending_events; by rewrite Hu3, Hu).
      rewrite Hpe in *. destruct (apply_confirmed_projection _ m3) as [m4 r]. simpl in *.
      by subst r.
    + destruct (fail_uncertain_ok visible extra m3 u (StorageError_to_string err) Hm3 Hu3)
        as (Hok & Hu4 & _).
      destruct (fail_uncertain sid _ _ m3) as [m4 r]. simpl in *. split; [by eexists|].
      unfold pending_events. rewrite Hu4, Hu. by destruct u.
  - destruct (checked_add _ _ _) as [n|]; [|by split; [eexists|]].
    destruct (_ && _); [|by split; [eexists|]].
    unfold pending_events. rewrite Hu. rewrite app_nil_r. by split_and!; [|eexists|].
Qed.

(** ** Reachable states *)

Inductive journal_step : SessionMeta → SessionMeta → Prop :=
| step_append events write m :
    admissible m events → journal_step m (fst (append_events to_json sid events write m))
| step_append_and_sync events write sync m :
    admissible m events →
    journal_step m (fst (append_events_and_sync to_json sid events write sync m))
| step_sync sync m : journal_step m (fst (sync_durable_events sid sync m))
| step_retry expected sync m :
    journal_step m (fst (retry_uncertain_sync sid expected sync m)).

Lemma journal_step_ok visible m m' :
  meta_ok visible m → journal_step m m' →
  ∃ visible', meta_ok visible' m' ∧ visible `prefix_of` visible'.
Proof.
  intros Hm Hs. destruct Hs as [events write m Hadm|events write sync m Hadm|sync m|expected sync m].
  - pose proof (append_events_ok visible m events write Hm Hadm) as Hok.
    destruct (append_events _ _ _ _ _) as [m' [st|]]; simpl; [|by eauto].
    destruct Hok as (b & _ & _ & Hok & _). eexists. split; [done|]. by apply prefix_app_r.
  - pose proof (append_events_and_sync_ok visible m events write sync Hm Hadm) as Hok.
    destruct (append_events_and_sync _ _ _ _ _ _) as [m' [st|]]; simpl; [|by eauto].
    destruct Hok as (b & _ & _ & Hok & _). eexists. split; [done|]. by apply prefix_app_r.
  - exists visible. split; [by apply sync_durable_events_ok|done].
  - pose proof (retry_uncertain_sync_ok visible m expected sync Hm) as Hok.
    destruct (retry_uncertain_sync _ _ _ _) as [m' [st|]]; simpl; [|naive_solver].
    destruct Hok as (_ & Hok & _). eexists. split; [done|]. by apply prefix_app_r.
Qed.

Lemma journal_reachable_ok visible m m' :
  meta_ok visible m → rtc journal_step m m' →
  ∃ visible', meta_ok visible' m' ∧ visible `prefix_of` visible'.
Proof.
  intros Hm Hs. revert visible Hm. induction Hs as [m|m m1 m2 Hs _ IH]; intros visible Hm; [by eauto|].
  destruct (journal_step_ok visible m m1 Hm Hs) as (v1 & Hm1 & Hp1).
  destruct (IH v1 Hm1) as (v2 & Hm2 & Hp2). exists v2. split; [done|]. by etrans.
Qed.

(** ** Reopening *)

Lemma records_det events b1 b2 : records events b1 → records events b2 → b1 = b2.
Proof.
  intros H1. revert b2. induction H1 as [|e b events bs [He _] _ IH]; intros b2 H2.
  { by apply Forall2_nil_inv_l in H2. }
  apply Forall2_cons_inv_l in H2 as (b' & bs' & [He' _] & H2 & ->).
  rewrite He in He'. injection He' as ->. f_equal. by apply IH.
Qed.

Lemma records_take events bs n : records events bs → records (take n events) (take n bs).
Proof. apply Forall2_take. Qed.

(** The file of a session is a cut of the records of everything it may hold. *)
Lemma writer_with_file events extra st :
  writer_with sid events extra st →
  ∃ bs k, records (events ++ extra) bs ∧ w_file st = take k (concat bs) ∧
    log_ok sid (events ++ extra) ∧
    ∀ bs0, records events bs0 → length (concat bs0) ≤ k.
Proof.
  intros (_ & _ & _ & bs & bs' & k & Hbs & Hbs' & Hlog & _ & Hfile & _).
  exists (bs ++ bs'), (length (concat bs) + k). split_and!; [by apply Forall2_app| |done|].
  - rewrite Hfile, concat_app. by rewrite take_app_add.
  - intros bs0 Hbs0. rewrite (records_det _ _ _ Hbs0 Hbs). lia.
Qed.

Lemma open_meta_ok path events bs t p :
  validate_storage_session_id sid = Ok () → log_ok sid events → records events bs →
  newline_byte ∉ t → replay to_json sid events = Ok p →
  ∃ m, open_meta to_json path sid (Some (concat bs ++ t)) (Ok ()) (Ok ())
       = (Some (concat bs), Ok m) ∧
    meta_ok events m ∧ uncertain_durability m = None ∧ w_poisoned (log m) = None.
Proof.
  intros Hid Hlog Hrec Ht Hr. unfold open_meta. rewrite Hid.
  rewrite (open_records path sid events) by done. simpl. rewrite Hr. simpl.
  eexists. split; [done|]. split; [|done]. exists [].
  unfold meta_with, marker_ok, pending_events, writer_with. simpl. rewrite !app_nil_r.
  split_and!; try done; [|by eexists].
  exists bs, [], 0. simpl. rewrite app_nil_r. split_and!; done || constructor.
Qed.
(** A retry whose fsync fails keeps the marker and records the reason. *)
Lemma retry_failing m b t r e :
  uncertain_durability m = Some (PendingProjection b t r) → w_dirty (log m) = true →
  let reason := StorageError_to_string (enhanced enhance_sync_error (w_path (log m)) e) in
  retry_uncertain_sync sid t (Sync_Failed e) m
  = (put_uncertain (Some (PendingProjection b t reason)) m, Err (DurabilityUncertain sid t reason)).
Proof.
  intros Hu Hd. unfold retry_uncertain_sync, pending_through_seq, force_sync, flush_and_sync.
  rewrite Hu, Hd. simpl. rewrite (bool_decide_false (t ≠ t)) by (intros ?; done).
  unfold fail_uncertain. simpl. rewrite Hu. simpl.
  by rewrite (bool_decide_false (t ≠ t)) by (intros ?; done).
Qed.

(** One whose fsync succeeds publishes the batch. *)
Lemma retry_succeeding visible m b t r :
  meta_ok visible m → uncertain_durability m = Some (PendingProjection b t r) →
  ∃ m', retry_uncertain_sync sid t Sync_Ok m = (m', Ok (batch_events b)) ∧
    meta_ok (visible ++ batch_events b) m' ∧ uncertain_durability m' = None ∧
    (t + 1)%N = N.of_nat (length (visible ++ batch_events b)).
Proof.
  intros [extra Hm] Hu.
  pose proof (force_sync_ok visible extra m Sync_Ok Hm) as (Hm3 & Hu3 & _).
  assert (snd (force_sync Sync_Ok m) = Ok ()) as Hsync.
  { unfold force_sync, flush_and_sync. by destruct (negb (w_dirty (log m))). }
  unfold retry_uncertain_sync, pending_through_seq. rewrite Hu. simpl.
  rewrite (bool_decide_false (t ≠ t)) by (intros ?; done).
  destruct (force_sync Sync_Ok m) as [m3 r3]. simpl in *. subst r3. rewrite Hu in Hu3.
  destruct (apply_confirmed_ok visible extra m3 _ Hm3 Hu3) as (Hres & Hok & Hnone).
  unfold pending_events in *. rewrite Hu3 in *. simpl in *.
  destruct (apply_confirmed_projection t m3) as [m4 r4]. simpl in *. subst r4.
  exists m4. split_and!; [done..|]. destruct Hm as (_ & _ & Hmk & _).
  unfold marker_ok, pending_events in Hmk. rewrite Hu in Hmk. by destruct Hmk.
Qed.

(** With the log confirmed through its end, a retry for the end has nothing to do. *)
Lemma retry_nothing visible m t sync :
  meta_ok visible m → uncertain_durability m = None →
  (t + 1)%N = N.of_nat (length visible) →
  retry_uncertain_sync sid t sync m = (m, Ok []).
Proof.
  intros (extra & Hr & Hw & _) Hu Ht. unfold retry_uncertain_sync, pending_through_seq.
  rewrite Hu. simpl. destruct (replay_last_seq _ _ Hr) as [Hlast _].
  destruct Hw as ((_ & _ & Hle) & _ & Hn & _). unfold pending_events in *. rewrite Hu in *.
  rewrite app_nil_r in *. unfold checked_add, log_count. rewrite bool_decide_true by lia.
  by rewrite Hn, !bool_decide_true by lia.
Qed.

(** *** Reading the file of a session nothing is uncertain about *)

(** What a replay answers when the file ends inside a character. *)
Definition torn_character_error (path : string) : StorageError :=
  enhanced enhance_read_error path
    {| io_kind := Kind_InvalidData; io_message := "stream did not contain valid UTF-8" |}.

Lemma usable_replay visible extra m :
  uncertain_durability m = None → w_poisoned (log m) = None →
  writer_with sid visible extra (log m) → replay_events sid m = Ok visible.
Proof.
  intros Hu Hpo (Hlog & _ & _ & bs & bs' & k & Hbs & _ & _ & _ & Hfile & Hnil).
  unfold replay_events, ensure_no_uncertain_durability. rewrite Hu, Hfile, (Hnil Hpo). simpl.
  by rewrite (replay_records _ sid visible) by (done || set_solver).
Qed.

Lemma poisoned_replay visible extra m :
  uncertain_durability m = None → writer_with sid visible extra (log m) →
  (∃ left, replay_events sid m = Ok (visible ++ left)) ∨
  replay_events sid m = Err (torn_character_error (w_path (log m))).
Proof.
  intros Hu (n & bs & t & Hrec & Hlog & Ht & Hfile)%writer_with_cut.
  unfold replay_events, ensure_no_uncertain_durability. rewrite Hu, Hfile. simpl.
  destruct (utf8_valid t) eqn:Hutf; [left; exists (take n extra)|right].
  - by rewrite (replay_records _ sid (visible ++ take n extra)).
  - by apply (replay_invalid_tail _ sid (visible ++ take n extra) bs t).
Qed.

Lemma poisoned_session_refuses m reason events write sync :
  w_poisoned (log m) = Some reason →
  (∃ e, append_events to_json sid events write m = (m, Err e)) ∧
  (∃ e, append_events_and_sync to_json sid events write sync m = (m, Err e)).
Proof.
  intros Hpo. unfold append_events, append_events_and_sync, append_prepared_batch.
  destruct (admit_batch to_json sid events m) as [b|e]; [|by split; eexists].
  destruct (poisoned_append (batch_events b) write (log m) reason Hpo) as [e ->].
  replace (set_log (log m) m) with m by (by destruct m). by split; eexists.
Qed.
End journal.

(** ** Properties *)

(** C1. The journal is consistent in every reachable state: whatever sequence of appends,
    synced appends, syncs and retries ran since the session was opened, and whatever the
    file system did, the visible log only grew and the projection is its replay.  While
    something is uncertain a replay is refused with the marker's error.  While nothing is
    uncertain and the writer is usable, a replay reads exactly the visible log.  After a
    rollback that failed, a replay reads the visible log and whatever whole records the
    failed write left behind it, or fails on a torn character, and every later append is
    refused and changes nothing. *)
Theorem journal_consistent `{EventCodec} to_json sid path events bs t p m0 m file :
  validate_storage_session_id sid = Ok () → log_ok sid events → records events bs →
  newline_byte ∉ t → replay to_json sid events = Ok p →
  open_meta to_json path sid (Some (concat bs ++ t)) (Ok ()) (Ok ()) = (file, Ok m0) →
  rtc (journal_step to_json sid) m0 m →
  ∃ visible, events `prefix_of` visible ∧
    replay to_json sid visible = Ok (projection m) ∧
    match uncertain_durability m, w_poisoned (log m) with
    | Some u, _ => replay_events sid m = Err (ud_error sid u)
    | None, None => replay_events sid m = Ok visible
    | None, Some _ =>
      ((∃ left, replay_events sid m = Ok (visible ++ left)) ∨
       replay_events sid m = Err (torn_character_error (w_path (log m)))) ∧
      (∀ events write, ∃ e, append_events to_json sid events write m = (m, Err e)) ∧
      (∀ events write sync, ∃ e,
         append_events_and_sync to_json sid events write sync m = (m, Err e))
    end.
Proof.
  intros Hid Hlog Hrec Ht Hr Hopen Hs.
  destruct (open_meta_ok to_json sid path events bs t p Hid Hlog Hrec Ht Hr)
    as (m1 & Hopen' & Hm & _).
  rewrite Hopen in Hopen'. injection Hopen' as -> ->.
  destruct (journal_reachable_ok to_json sid events m1 m Hm Hs) as (visible & Hm' & Hpre).
  exists visible. split; [done|]. destruct Hm' as (extra & Hv & Hw & _ & _). split; [done|].
  unfold pending_events in Hw. destruct (uncertain_durability m) as [u|] eqn:Hu.
  { unfold replay_events, ensure_no_uncertain_durability. by rewrite Hu. }
  rewrite app_nil_r in Hw. destruct (w_poisoned (log m)) as [reason|] eqn:Hpo.
  - split; [by apply (poisoned_replay sid visible extra)|].
    split; intros; [apply (poisoned_session_refuses to_json sid m reason _ _ Sync_Ok)
      |eapply poisoned_session_refuses]; done.
  - by apply (usable_replay sid visible extra).
Qed.

(** Uncertain durability is sticky: while a marker is set, appends, synced appends,
    syncs and replays of the log are refused with the marker's error and change
    nothing, and a retry for another boundary is refused too. *)
Theorem uncertainty_is_sticky `{EventCodec} to_json sid m u :
  uncertain_durability m = Some u →
  (∀ events write, append_events to_json sid events write m = (m, Err (ud_error sid u))) ∧
  (∀ events write sync,
     append_events_and_sync to_json sid events write sync m = (m, Err (ud_error sid u))) ∧
  (∀ sync, sync_durable_events sid sync m = (m, Err (ud_error sid u))) ∧
  replay_events sid m = Err (ud_error sid u) ∧
  (∀ expected sync, expected ≠ ud_through_seq u →
     retry_uncertain_sync sid expected sync m
     = (m, Err (uncertain_seq_mismatch expected (ud_through_seq u)))).
Proof.
  intros Hu. unfold append_events, append_events_and_sync, sync_durable_events, replay_events,
    admit_batch, ensure_no_uncertain_durability, retry_uncertain_sync, pending_through_seq.
  rewrite Hu. split_and!; try done. intros expected sync Hne. simpl.
  by rewrite bool_decide_true by (intros ?; congruence).
Qed.

(** An uncertain batch is confirmed exactly once: after a synced append whose fsync
    failed, any number of failing retries leave the batch pending and invisible; the
    first retry whose fsync succeeds returns exactly the batch, makes it visible, and
    clears the marker; a further retry for the same boundary returns nothing. *)
Theorem uncertain_batch_confirmed_once `{EventCodec} to_json sid visible m b t r syncs e :
  meta_ok to_json sid visible m →
  uncertain_durability m = Some (PendingProjection b t r) → w_dirty (log m) = true →
  let failing := foldl (λ m (_ : unit), fst (retry_uncertain_sync sid t (Sync_Failed e) m)) m syncs in
  projection failing = projection m ∧
  ∃ m', retry_uncertain_sync sid t Sync_Ok failing = (m', Ok (batch_events b)) ∧
    meta_ok to_json sid (visible ++ batch_events b) m' ∧
    uncertain_durability m' = None ∧
    ∀ sync, retry_uncertain_sync sid t sync m' = (m', Ok []).
Proof.
  intros Hm Hu Hd failing.
  assert (meta_ok to_json sid visible failing ∧ projection failing = projection m ∧
    ∃ r', uncertain_durability failing = Some (PendingProjection b t r')) as (Hm' & Hp & r' & Hu').
  { unfold failing. clear failing. revert m r Hm Hu Hd.
    induction syncs as [|x syncs IH]; intros m r Hm Hu Hd; [by eauto|]. simpl.
    pose proof (retry_uncertain_sync_ok to_json sid visible m t (Sync_Failed e) Hm) as Hok.
    rewrite (retry_failing sid m b t r e Hu Hd) in Hok |- *. destruct Hok as [Hok _].
    edestruct IH as (H1 & H2 & H3); [exact Hok|done|done|]. by split_and!. }
  split; [done|].
  destruct (retry_succeeding to_json sid visible failing b t r' Hm' Hu')
    as (m' & Hretry & Hok & Hnone & Ht).
  exists m'. split_and!; [done..|]. intros sync.
  by apply (retry_nothing to_json sid (visible ++ batch_events b)).
Qed.

(** C9. Crash safety of the whole session: when the process dies and the file survives up
    to any byte behind the records of the visible log, the session reopens, with a log
    that extends the visible one and is a prefix of what had been written, and with the
    replay of that log as its projection. *)
Theorem crash_reopens_session `{EventCodec} to_json sid path visible extra m bs k :
  validate_storage_session_id sid = Ok () → meta_with to_json sid visible extra m →
  records visible bs → length (concat bs) ≤ k →
  ∃ file m' visible',
    open_meta to_json path sid (Some (take k (w_file (log m)))) (Ok ()) (Ok ())
      = (Some file, Ok m') ∧
    meta_ok to_json sid visible' m' ∧ uncertain_durability m' = None ∧
    visible `prefix_of` visible' ∧ visible' `prefix_of` visible ++ pending_events m ++ extra.
Proof.
  intros Hid (Hr & Hw & _ & [p Hp]) Hbs Hk.
  destruct (writer_with_file sid _ _ _ Hw) as (bb & K & Hbb & -> & Hlog & HK).
  rewrite <-(assoc_L (++)) in Hbb, Hlog. set (all := visible ++ pending_events m ++ extra) in *.
  rewrite take_take.
  apply records_app in Hbb as Hsplit. destruct Hsplit as (bv & br & Hbbe & Hbv & Hbr).
  rewrite (records_det _ _ _ Hbv Hbs) in Hbbe. subst bb.
  assert (length (concat bs) ≤ K) as HbK.
  { apply records_app in Hbr as (bp & bx & -> & Hbp & _).
    etrans; [|apply (HK (bs ++ bp)); by apply Forall2_app]. rewrite concat_app, length_app. lia. }
  destruct (cut_records all (bs ++ br) (k `min` K) Hbb) as (n & t & Hcut & Ht & Hn & _ & Hlt).
  pose proof (Forall2_length _ _ _ Hbs) as Hlen.
  assert (length visible ≤ n) as Hvn.
  { destruct (decide (length visible ≤ n)) as [|Hgt]; [done|]. exfalso.
    rewrite length_app in Hlt. specialize (Hlt ltac:(lia)).
    rewrite take_app_le in Hlt by lia.
    assert (length (concat (take (S n) bs)) ≤ length (concat bs)); [|lia].
    rewrite <-(take_drop (S n) bs) at 2. rewrite concat_app, length_app. lia. }
  assert (visible ≠ []) as Hvne by (by intros ->).
  assert (take n all = visible ++ take (n - length visible) (pending_events m ++ extra)) as Htake
    by (unfold all; by rewrite take_app_ge by lia).
  destruct (replay_prefix to_json sid (take n all) (drop n all) p) as [q Hq];
    [rewrite Htake; by destruct visible|by rewrite take_drop|].
  rewrite Hcut.
  destruct (open_meta_ok to_json sid path (take n all) (take n (bs ++ br)) t q)
    as (m' & Hopen & Hm' & Hnone & _); [done| |by apply records_take|done|done|].
  { apply log_ok_take; [done|]. destruct visible; simpl in *; [done|lia]. }
  eexists _, m', (take n all). split_and!; [done..| |].
  - rewrite Htake. by apply prefix_app_r.
  - apply prefix_take.
Qed.

(** One interrupted write can hide every session: when the torn tail of a closed
    session's log is cut inside a multi-byte character, reading its summary is an I/O
    error, which the listing passes on instead of skipping the session. *)
Theorem torn_character_fails_listing `{EventCodec} to_json to_rfc3339 sid path events bs t p pre post :
  log_ok sid events → records events bs → newline_byte ∉ t → utf8_valid t = false →
  replay to_json sid events = Ok p →
  ∃ e, collect_summaries (pre ++ read_summary to_rfc3339 path sid (concat bs ++ t) (Ok ()) :: post)
       = Err e.
Proof.
  intros Hlog Hrec Ht Hu Hr.
  assert (∃ io, read_summary to_rfc3339 path sid (concat bs ++ t) (Ok ()) = Err (Io io)) as [io ->].
  { unfold read_summary, sync_existing_log, read_summary_at_path, scan_events_at_path.
    cbn [map_err]. rewrite limit_bytes_len.
    rewrite (scan_invalid_tail path (λ q event, map_err (λ e, CorruptLog (path +:+ ": "
      +:+ ProjectionError_to_string e)) (summary_projection_apply to_rfc3339 q event)) events);
      [|done|by eapply log_ok_stream|done..].
    unfold replay in Hr.
    destruct (try_fold (read_projection_apply to_json) _ events) as [rp|] eqn:Hrp; [|done].
    eapply (summary_fold _ to_rfc3339 _ _ (summary_projection_new sid)) in Hrp
      as (q & Hq & _); [|by split].
    assert (∀ es s s', try_fold (summary_projection_apply to_rfc3339) s es = Ok s' →
      try_fold (λ q event, map_err (λ e, CorruptLog (path +:+ ": "
        +:+ ProjectionError_to_string e)) (summary_projection_apply to_rfc3339 q event)) s es
      = Ok s') as Hmap.
    { induction es as [|e es IH]; intros s s'; simpl; [by intros [= ->]|].
      destruct (summary_projection_apply to_rfc3339 s e); [apply IH|done]. }
    rewrite (Hmap _ _ _ Hq). by eexists. }
  induction pre as [|[[x|]|e] pre IH]; simpl; [by eexists| |done|].
  - destruct IH as [e ->]. by eexists.
  - destruct e; by eauto.
Qed.

(** ** Witnesses *)

#[local] Existing Instance sample_codec.

(** The sample session, opened, and after a synced append whose fsync failed. *)
Definition opened_meta : SessionMeta :=
  {| log := sample_writer; projection := sample_model; uncertain_durability := None |}.
Definition fsync_error : IoError := io_other "fsync failed".
Definition stuck_meta : SessionMeta :=
  fst (append_events_and_sync sample_json sample_sid [sample_event P_TurnStarted] Write_Ok
         (Sync_Failed fsync_error) opened_meta).

Lemma sample_replay : replay sample_json sample_sid sample_log = Ok sample_model.
Proof. vm_compute. reflexivity. Qed.

Lemma opened_meta_ok : meta_ok sample_json sample_sid sample_log opened_meta.
Proof.
  exists []. unfold meta_with, marker_ok, pending_events.
  cbn [uncertain_durability opened_meta log projection]. rewrite !app_nil_r.
  split_and!; [apply sample_replay| |done|exists sample_model; apply sample_replay].
  split_and!; [apply sample_log_ok|done|done|]. exists sample_records, [], 0.
  rewrite !app_nil_r. split_and!; try done; [apply sample_records_ok|constructor|apply sample_log_ok].
Qed.

Lemma sample_admissible : admissible sample_json sample_sid opened_meta [sample_event P_TurnStarted].
Proof.
  intros b Hb. vm_compute in Hb. injection Hb as <-. split.
  - pose proof sample_turns_codec_ok as [Ht _]%Forall_cons.
    apply Forall_cons. split; [exact Ht|]. apply List.Forall_nil.
  - intros encoded n He. vm_compute in He. injection He as <- <-. vm_compute. intros [=].
Qed.

Lemma stuck_meta_ok : meta_ok sample_json sample_sid sample_log stuck_meta.
Proof.
  pose proof (append_events_and_sync_ok sample_json sample_sid sample_log opened_meta
    [sample_event P_TurnStarted] Write_Ok (Sync_Failed fsync_error) opened_meta_ok
    sample_admissible) as Hok.
  unfold stuck_meta. destruct (append_events_and_sync _ _ _ _ _ _) as [m' [st|]] eqn:He; [|done].
  exfalso. vm_compute in He. discriminate He.
Qed.

(** A write that failed after its record reached the file, and could not be rolled back. *)
Definition poisoned_meta : SessionMeta :=
  fst (append_events sample_json sample_sid [sample_event P_TurnStarted]
         (Write_Failed 4 (io_other "disk full") (Rollback_SetLenFailed (io_other "stuck")))
         opened_meta).

(** In that state the log a reader is given is ahead of the projection: the refused event
    is replayed, while the read model stands before it. *)
Lemma refused_event_is_replayed :
  replay_events sample_sid poisoned_meta = Ok (sample_log ++ [sample_turn]) ∧
  projection poisoned_meta = sample_model ∧ uncertain_durability poisoned_meta = None.
Proof. vm_compute. split_and!; reflexivity. Qed.

Lemma journal_consistent_witness :
  ∃ visible, sample_log `prefix_of` visible ∧
    replay sample_json sample_sid visible = Ok (projection poisoned_meta) ∧
    ((∃ left, replay_events sample_sid poisoned_meta = Ok (visible ++ left)) ∨
     replay_events sample_sid poisoned_meta
     = Err (torn_character_error (w_path (log poisoned_meta)))) ∧
    (∀ events write, ∃ e,
       append_events sample_json sample_sid events write poisoned_meta = (poisoned_meta, Err e)) ∧
    (∀ events write sync, ∃ e,
       append_events_and_sync sample_json sample_sid events write sync poisoned_meta
       = (poisoned_meta, Err e)).
Proof.
  apply (journal_consistent sample_json sample_sid "p" sample_log sample_records torn_record
    sample_model opened_meta poisoned_meta (Some (concat sample_records)));
    [vm_compute; reflexivity|apply sample_log_ok|apply sample_records_ok
    |apply no_newline_dec; vm_compute; reflexivity|apply sample_replay|vm_compute; reflexivity|].
  apply rtc_once. apply step_append. apply sample_admissible.
Defined.

Lemma uncertainty_is_sticky_witness :
  ∃ u, uncertain_durability stuck_meta = Some u ∧ ud_through_seq u = 2%N ∧
  (∀ events write,
     append_events sample_json sample_sid events write stuck_meta
     = (stuck_meta, Err (ud_error sample_sid u))) ∧
  (∀ events write sync,
     append_events_and_sync sample_json sample_sid events write sync stuck_meta
     = (stuck_meta, Err (ud_error sample_sid u))) ∧
  (∀ sync, sync_durable_events sample_sid sync stuck_meta
     = (stuck_meta, Err (ud_error sample_sid u))) ∧
  replay_events sample_sid stuck_meta = Err (ud_error sample_sid u) ∧
  (∀ expected sync, expected ≠ ud_through_seq u →
     retry_uncertain_sync sample_sid expected sync stuck_meta
     = (stuck_meta, Err (uncertain_seq_mismatch expected (ud_through_seq u)))).
Proof.
  eexists. split; [vm_compute; reflexivity|]. split; [reflexivity|].
  apply (uncertainty_is_sticky sample_json sample_sid stuck_meta). vm_compute. reflexivity.
Defined.

Lemma uncertain_batch_confirmed_once_witness :
  let failing := foldl (λ m (_ : unit),
    fst (retry_uncertain_sync sample_sid 2 (Sync_Failed fsync_error) m)) stuck_meta [tt; tt] in
  projection failing = projection stuck_meta ∧
  ∃ m', retry_uncertain_sync sample_sid 2 Sync_Ok failing = (m', Ok [sample_turn]) ∧
    meta_ok sample_json sample_sid (sample_log ++ [sample_turn]) m' ∧
    uncertain_durability m' = None ∧
    ∀ sync, retry_uncertain_sync sample_sid 2 sync m' = (m', Ok []).
Proof.
  refine (uncertain_batch_confirmed_once sample_json sample_sid sample_log stuck_meta
    {| first_seq := 2; batch_events := [sample_turn] |} 2 _ [tt; tt] fsync_error _ _ _);
    [apply stuck_meta_ok|vm_compute; reflexivity|vm_compute; reflexivity].
Defined.

Lemma crash_reopens_session_witness :
  ∃ extra, meta_with sample_json sample_sid sample_log extra stuck_meta ∧
  ∃ file m' visible',
    open_meta sample_json "p" sample_sid (Some (take 9 (w_file (log stuck_meta)))) (Ok ()) (Ok ())
      = (Some file, Ok m') ∧
    meta_ok sample_json sample_sid visible' m' ∧ uncertain_durability m' = None ∧
    sample_log `prefix_of` visible' ∧
    visible' `prefix_of` sample_log ++ pending_events stuck_meta ++ extra.
Proof.
  destruct stuck_meta_ok as [extra Hm]. exists extra. split; [done|].
  apply (crash_reopens_session sample_json sample_sid "p" sample_log extra stuck_meta
    sample_records 9); [vm_compute; reflexivity|done|apply sample_records_ok|vm_compute; lia].
Defined.

Lemma torn_character_fails_listing_witness :
  ∃ e, collect_summaries
    ([Ok None] ++ read_summary (λ _, "t") "p" sample_sid (concat sample_records ++ torn_character)
                    (Ok ()) :: []) = Err e.
Proof.
  apply (torn_character_fails_listing sample_json (λ _, "t") sample_sid "p" sample_log
    sample_records torn_character sample_model [Ok None] []);
    [apply sample_log_ok|apply sample_records_ok|apply no_newline_dec; vm_compute; reflexivity
    |vm_compute; reflexivity|apply sample_replay].
Defined.
