(* ===== verification/TurnFinalize.v ===== *)
(** * Turn finalisation and repair
    ([session/src/session_turn.rs], [session/src/payload.rs],
     [server/src/turn_scheduler/lifecycle.rs])

    How a turn is brought to its terminal event, how tool calls without a result are
    settled, and how a session left behind by a crash is repaired.  The session is seen
    through the port [SessionPort]: appending a durable event and reading the model.
    Live notifications have no durable effect and are left out. *)

From S2P Require Import Prelude Utf8 CoreTypes CoreLlm CoreEvent ProjViews ProjContext ProjReducer StoreTypes.

(** ** Errors *)

Inductive SessionEventPublishError :=
| Publish_Closed
| Publish_Task (message : string)
| Publish_AlreadyDeferred (session_id : SessionId)
| Publish_Storage (e : StorageError).

Inductive SessionError :=
| Session_Storage (e : StorageError)
| Session_EventPublish (e : SessionEventPublishError)
| Session_Extension (message : string)
| Session_RuntimeUnstable (attempts : N)
| Session_ParentCycle (session_id : SessionId)
| Session_CreationTask (message : string)
| Session_UnsettledToolCalls (turn_id : TurnId) (call_ids : list ToolCallId).

Definition SessionEventPublishError_is_retryable (e : SessionEventPublishError) : bool :=
  match e with Publish_Storage e => StorageError_is_retryable e | _ => false end.
Definition SessionEventPublishError_uncertain_through_seq (e : SessionEventPublishError)
    : option N :=
  match e with Publish_Storage e => StorageError_uncertain_through_seq e | _ => None end.
Definition SessionError_is_retryable (e : SessionError) : bool :=
  match e with
  | Session_EventPublish e => SessionEventPublishError_is_retryable e
  | _ => false
  end.
Definition SessionError_uncertain_through_seq (e : SessionError) : option N :=
  match e with
  | Session_Storage e => StorageError_uncertain_through_seq e
  | Session_EventPublish e => SessionEventPublishError_uncertain_through_seq e
  | _ => None
  end.

(** ** The port *)

(** [Session::emit_durable], [Session::read_model] and the sync of the session's durable
    events. *)
Class SessionPort (S : Type) := {
  emit_durable : option TurnId → DurableEventPayload → S → S * result StoredEvent SessionError;
  read_model : S → result SessionReadModel SessionError;
  sync_events : S → S * result () SessionError;
}.

(** What the port promises: an accepted event is the next one of the model, with the
    given turn and payload; a refused one changes nothing readable. *)
Class LawfulPort (S : Type) `{SessionPort S} := {
  emit_durable_ok s t p s' e :
    emit_durable t p s = (s', Ok e) →
    se_turn_id e = t ∧ se_payload e = p ∧
    ∃ m, read_model s = Ok m ∧ read_model s' = Ok (apply_validated_event e m);
  emit_durable_err s t p s' err :
    emit_durable t p s = (s', Err err) →
    read_model s' = read_model s ∧ ∃ e, err = Session_EventPublish e;
  sync_events_model s : read_model (fst (sync_events s)) = read_model s;
}.

(** Computations on a session that may fail with an [E]; a failure keeps what was
    appended. *)
Definition M (S E A : Type) : Type := S → S * result A E.

#[export] Instance M_ret S E : MRet (M S E) := λ A a s, (s, Ok a).
#[export] Instance M_bind S E : MBind (M S E) := λ A B k m s,
  match m s with (s, Ok a) => k a s | (s, Err e) => (s, Err e) end.

(** [session.read_model().await?]. *)
Definition get_model {S} `{SessionPort S} : M S SessionError SessionReadModel :=
  λ s, (s, read_model s).
(** [return Err(e)]. *)
Definition fail {S E A} (e : E) : M S E A := λ s, (s, Err e).
(** [.map_err(f)]. *)
Definition with_err {S E F A} (f : E → F) (m : M S E A) : M S F A :=
  λ s, let '(s, r) := m s in (s, map_err f r).

(** A [for] loop. *)
Fixpoint for_each {S E A} (body : A → M S E ()) (l : list A) : M S E () :=
  match l with
  | [] => mret ()
  | a :: l => body a ≫= λ _, for_each body l
  end.

(** ** Payloads ([payload.rs]) *)

Definition TURN_FINISH_ABORTED : string := "aborted".
Definition TURN_FINISH_INTERRUPTED : string := "interrupted".
Definition TURN_FINISH_ERROR : string := "error".
Definition JSON_RPC_INTERNAL_ERROR : Z := -32603.

Definition turn_completed_payload (reason : string) : DurableEventPayload :=
  P_TurnCompleted reason.

Definition agent_session_final_ids (child_session_id : SessionId) : SessionId * SessionId :=
  (child_session_id, child_session_id).
Definition agent_session_completed_payload (child_session_id : SessionId) (summary : string)
    : DurableEventPayload :=
  let '(child, final) := agent_session_final_ids child_session_id in
  P_AgentSessionCompleted child final summary.
Definition agent_session_failed_payload (child_session_id : SessionId) (error : string)
    : DurableEventPayload :=
  let '(child, final) := agent_session_final_ids child_session_id in
  P_AgentSessionFailed child final error.

(** What [transcript_rewritten_payload] reads of a [CompactResult]. *)
Record CompactResult := {
  cr_pre_tokens : N;
  cr_post_tokens : N;
  cr_summary : string;
  cr_messages_removed : N;
  cr_summary_messages : list LlmMessage;
  cr_retained_messages : list LlmMessage;
  cr_transcript_path : option string;
}.

Definition transcript_rewritten_payload (compaction : CompactResult)
    (retained_messages : list TranscriptMessage) (source_seq : N) (source_fingerprint : string)
    (strategy : CompactStrategy) : DurableEventPayload :=
  P_TranscriptRewritten source_seq source_fingerprint
    (map TranscriptMessage_plain (cr_summary_messages compaction) ++ retained_messages)
    (Rewrite_Compaction {|
       cd_trigger := CompactTrigger_as_str (CompactStrategy_trigger strategy);
       cd_pre_tokens := cr_pre_tokens compaction; cd_post_tokens := cr_post_tokens compaction;
       cd_summary := cr_summary compaction;
       cd_transcript_path := cr_transcript_path compaction; cd_strategy := strategy |}).

(** ** Finalisation ([session_turn.rs]) *)

Record TurnFinalization := {
  tf_finish_reason : string;
  tf_pending_error : option string;
  tf_aborted : bool;
  tf_terminal_persisted : bool;
}.

Inductive InterruptedToolOutcome := Interrupted_Failed | Interrupted_Cancelled.

(** The terminal event of a tool call without a result. *)
Definition interrupted_payload (outcome : InterruptedToolOutcome)
    (pending : model_context.UnansweredToolCall) : DurableEventPayload :=
  let call_id := ToolCallId_new (model_context.call_id pending) in
  let tool_name := model_context.tool_name pending in
  match outcome with
  | Interrupted_Failed =>
    P_ToolCallFailed call_id tool_name "tool execution interrupted before completion" ∅ None ""
      None
  | Interrupted_Cancelled => P_ToolCallCancelled call_id tool_name "turn aborted" None "" None
  end.

Section session.
Context {S : Type} `{SessionPort S}.

Definition emit (turn_id : option TurnId) (p : DurableEventPayload) : M S SessionError () :=
  emit_durable turn_id p ≫= λ _, mret ().

Definition emit_interrupted_tool_results (state : SessionReadModel) (turn_id : option TurnId)
    (outcome : InterruptedToolOutcome) : M S SessionError N :=
  let calls := tool_calls_needing_interruption state in
  for_each (λ pending, emit turn_id (interrupted_payload outcome pending)) calls ≫= λ _,
  mret (N.of_nat (length calls)).

Definition emit_turn_aborted_context (turn_id : option TurnId) : M S SessionError () :=
  emit turn_id P_TurnAbortedContext.

Definition emit_turn_completed (turn_id : TurnId) (finish_reason : string) : M S SessionError () :=
  get_model ≫= λ state,
  let unsettled := map (λ c, ToolCallId_new (model_context.call_id c))
                     (tool_calls_needing_interruption state) in
  if negb (Nat.eqb (length unsettled) 0) then
    fail (Session_UnsettledToolCalls turn_id unsettled)
  else emit (Some turn_id) (turn_completed_payload finish_reason).

Definition has_aborted_context (state : SessionReadModel) : bool :=
  match last (model_context.messages (model_ctx state)) with
  | Some message => bool_decide (model_context.origin message = Some Origin_TurnAborted)
  | None => false
  end.

Definition finalize_aborted_turn (turn_id : TurnId) : M S SessionError () :=
  get_model ≫= λ state,
  if bool_decide (execution.phase (execution_ state) = Phase_Idle) then mret ()
  else
    emit_interrupted_tool_results state (Some turn_id) Interrupted_Cancelled ≫= λ _,
    (if negb (has_aborted_context state) then emit_turn_aborted_context (Some turn_id)
     else mret ()) ≫= λ _,
    emit_turn_completed turn_id TURN_FINISH_ABORTED.

Definition finalize_turn (turn_id : TurnId) (finalization : TurnFinalization) : M S SessionError () :=
  if tf_aborted finalization then finalize_aborted_turn turn_id
  else
    get_model ≫= λ state,
    if bool_decide (execution.phase (execution_ state) = Phase_Idle) then mret ()
    else
      (match tf_pending_error finalization with
       | Some message =>
         if bool_decide (execution.phase (execution_ state) ≠ Phase_Error) then
           emit (Some turn_id) (P_ErrorOccurred JSON_RPC_INTERNAL_ERROR message false)
         else mret ()
       | None => mret ()
       end) ≫= λ _,
      emit_turn_completed turn_id (tf_finish_reason finalization).

(** [settle_failed_turn_setup]: both events are tried, failures are only logged. *)
Definition settle_failed_turn_setup (turn_id : TurnId) (error : string) (s : S) : S :=
  let s := fst (emit (Some turn_id) (P_ErrorOccurred JSON_RPC_INTERNAL_ERROR error false) s) in
  fst (emit (Some turn_id) (turn_completed_payload TURN_FINISH_ERROR) s).

(** [emit_turn_start_events]; the generated message id is an argument. *)
Definition emit_turn_start_events (message_id : MessageId) (text : string)
    (attachments : list MessageAttachment) (turn_id : TurnId) (accepted_seq : option N)
    : M S SessionError () :=
  emit (Some turn_id) P_TurnStarted ≫= λ _,
  emit (Some turn_id) (P_UserMessage message_id text attachments accepted_seq).

(** ** Repair ([turn_scheduler/lifecycle.rs]) *)

Definition is_running (l : agents.AgentSessionLinkView) : bool :=
  match agents.status l with agents.Agent_Running => true | _ => false end.

Definition idle_or_error (p : Phase) : bool :=
  match p with Phase_Idle | Phase_Error => true | _ => false end.

Definition needs_stale_repair (state : SessionReadModel) : bool :=
  negb (idle_or_error (execution.phase (execution_ state)))
  || match execution.active_step (execution_ state) with Some _ => true | None => false end
  || negb (Nat.eqb (length (tool_calls_needing_interruption state)) 0)
  || existsb is_running (agent_sessions state)
  || negb (Nat.eqb (length (execution.pending_inputs (execution_ state))) 0).

(** The variants of the scheduler error the repair functions return; the session manager's
    error is the one of the sync it forwards. *)
Inductive TurnScheduleError :=
| Schedule_NoActiveTurn
| Schedule_Session (e : SessionError)
| Schedule_SessionManager (e : SessionError)
| Schedule_EventEmit (e : SessionError).

Definition repair_stale_phase_for_state (state : SessionReadModel)
    : M S TurnScheduleError () :=
  if idle_or_error (execution.phase (execution_ state)) then fail Schedule_NoActiveTurn
  else
    with_err Schedule_EventEmit (emit_interrupted_tool_results state None Interrupted_Failed)
      ≫= λ _,
    with_err Schedule_EventEmit (emit_turn_aborted_context None) ≫= λ _,
    with_err Schedule_EventEmit (emit None (turn_completed_payload TURN_FINISH_INTERRUPTED)).

Definition repair_incomplete_tool_protocol_for_state (state : SessionReadModel)
    : M S TurnScheduleError () :=
  with_err Schedule_EventEmit (emit_interrupted_tool_results state None Interrupted_Failed)
    ≫= λ interrupted,
  if bool_decide (0 < interrupted)%N
  then with_err Schedule_EventEmit (emit_turn_aborted_context None) else mret ().

(** [repair_turn_protocol_state] on the opened session: the state it read. *)
Definition repair_turn_protocol_state : M S TurnScheduleError SessionReadModel :=
  with_err Schedule_Session get_model ≫= λ state,
  (if idle_or_error (execution.phase (execution_ state))
   then repair_incomplete_tool_protocol_for_state state
   else repair_stale_phase_for_state state) ≫= λ _,
  mret state.

(** [repair_stale_runs_for_state]; [has_active] is the registry, [cleanup] what the
    scheduler does to a child that is still registered. *)
Definition repair_stale_runs_for_state (has_active : SessionId → bool)
    (cleanup : SessionId → S → S) (state : SessionReadModel) : M S TurnScheduleError () :=
  for_each (λ link,
    let child := agents.child_session_id link in
    if has_active child then λ s, (cleanup child s, Ok ())
    else with_err Schedule_EventEmit
           (emit None (agent_session_failed_payload child "interrupted")))
    (filter (λ l, is_running l = true) (agent_sessions state)).

Definition repair_stale_locked (has_active : SessionId → bool) (cleanup : SessionId → S → S)
    (session_id : SessionId) : M S TurnScheduleError () :=
  if has_active session_id then mret ()
  else
    repair_turn_protocol_state ≫= λ state,
    repair_stale_runs_for_state has_active cleanup state ≫= λ _,
    with_err Schedule_SessionManager sync_events.

Definition repair_finished_turn_state : M S TurnScheduleError () :=
  repair_turn_protocol_state ≫= λ _,
  with_err Schedule_SessionManager sync_events.
End session.
