(* ===== verification/TurnRepair.v ===== *)
(** * The journal behind the session port

    [Session::emit_durable] builds an event for the session and hands it to the journal;
    [Session::read_model] reads the journal's projection.  This file runs the port on an
    opened session of the repository and proves the port's laws for it, so that what
    [TurnRepair] proves of every lawful port holds of the stored session.  The ids, the
    clock and what the operating system answers are given per call by an environment.

    The second chapter: finalisation and repair against the port. *)

From S2P Require Import Prelude Utf8 CoreTypes CoreLlm CoreEvent ProjViews ProjContext ProjReducer ProjReplay StoreTypes StoreLog StoreRecovery StoreRepo StoreJournal TurnFinalize.

(** What one call gets from outside: the new event's id and time, and the outcomes of a
    write and of a sync. *)
Record CallEnv := {
  env_event_id : EventId;
  env_now : DateTime;
  env_write : WriteOutcome;
  env_sync : SyncOutcome;
}.

Section journal_port.
Context `{EventCodec} (to_json : LlmMessage → result string string) (sid : SessionId).

(** An opened session, the calls made so far and the environment of all calls. *)
Record JournalSession := {
  js_meta : SessionMeta;
  js_calls : nat;
  js_env : nat → CallEnv;
}.

Definition js_next (m : SessionMeta) (s : JournalSession) : JournalSession :=
  {| js_meta := m; js_calls := Datatypes.S (js_calls s); js_env := js_env s |}.

(** The event published for an append of one event. *)
Definition published (r : result (list StoredEvent) StorageError) : result StoredEvent SessionError :=
  match r with
  | Ok (e :: _) => Ok e
  | Ok [] => Err (Session_EventPublish (Publish_Storage short_batch_result))
  | Err e => Err (Session_EventPublish (Publish_Storage e))
  end.

#[local] Instance journal_port : SessionPort JournalSession := {|
  emit_durable turn_id p s :=
    let env := js_env s (js_calls s) in
    let event := EventEnvelope_new (env_event_id env) (env_now env) sid turn_id p in
    let '(m, r) := append_events to_json sid [event] (env_write env) (js_meta s) in
    (js_next m s, published r);
  read_model s := Ok (session_read_model (js_meta s));
  sync_events s :=
    let '(m, r) := sync_durable_events sid (env_sync (js_env s (js_calls s))) (js_meta s) in
    (js_next m s, map_err Session_Storage r);
|}.

(** ** The laws *)

Lemma append_prepared_projection b w m :
  projection (fst (append_prepared_batch b w m)) = projection m.
Proof. unfold append_prepared_batch. by destruct (append_stored_batch _ _ _) as [l [u|e]]. Qed.

(** An append of one event: the stored event is that event under the next number, and
    the projection has applied it; a refused one left the projection alone. *)
Lemma append_one e w m m' r :
  append_events to_json sid [e] w m = (m', r) →
  match r with
  | Ok stored => ∃ n, stored = [StoredEvent_new n e] ∧
      projection m' = apply_validated_event (StoredEvent_new n e) (projection m)
  | Err _ => projection m' = projection m
  end.
Proof.
  unfold append_events, admit_batch. destruct (ensure_no_uncertain_durability _ _); simpl;
    [|by intros [= <- <-]].
  destruct (prepare_batch to_json [e] m) as [b|] eqn:Hb; simpl; [|by intros [= <- <-]].
  destruct (ensure_log_positioned_for b m); simpl; [|by intros [= <- <-]].
  pose proof (append_prepared_projection b w m) as Hp.
  destruct (append_prepared_batch b w m) as [m1 [c|err]] eqn:Ha; simpl in Hp;
    [|by intros [= <- <-]].
  assert (c = b) as ->.
  { unfold append_prepared_batch in Ha. destruct (append_stored_batch _ _ _) as [l [u|]];
      congruence. }
  intros [= <- <-]. unfold prepare_batch, prepare in Hb. simpl in Hb.
  destruct (ok_or (checked_add u64_max (last_seq (stats (projection m))) 1) SequenceOverflow)
    as [first|]; simpl in Hb; [|done].
  destruct (ok_or (checked_add u64_max first 0) SequenceOverflow) as [n|]; simpl in Hb; [|done].
  destruct (prepare_step _ _ _ _) in Hb; simpl in Hb; [|done].
  injection Hb as <-. exists n. split; [done|]. simpl. by rewrite Hp.
Qed.

Lemma sync_projection sync m : projection (fst (sync_durable_events sid sync m)) = projection m.
Proof.
  unfold sync_durable_events. destruct (ensure_no_uncertain_durability _ _); [|done].
  destruct (checked_sub _ _); [|done]. unfold force_sync.
  destruct (flush_and_sync _ _) as [l [u|e]]; simpl.
  - unfold take_uncertain. by repeat case_match; simplify_eq.
  - unfold fail_uncertain. by repeat case_match; simplify_eq.
Qed.

#[local] Instance journal_lawful : LawfulPort JournalSession.
Proof.
  split.
  - intros s t p s' e. simpl.
    destruct (append_events _ _ _ _ _) as [m r] eqn:Ha. apply append_one in Ha.
    destruct r as [stored|]; [|done]. destruct Ha as (n & -> & Hp). intros [= <- <-].
    split_and!; [done..|]. exists (projection (js_meta s)). split; [done|].
    simpl. unfold session_read_model. by rewrite Hp.
  - intros s t p s' err. simpl.
    destruct (append_events _ _ _ _ _) as [m r] eqn:Ha. apply append_one in Ha.
    destruct r as [stored|e0]; [destruct Ha as (n & -> & _); done|]. intros [= <- <-].
    split; [simpl; unfold session_read_model; by rewrite Ha|by eexists].
  - intros s. simpl. pose proof (sync_projection (env_sync (js_env s (js_calls s))) (js_meta s)) as Hp.
    destruct (sync_durable_events _ _ _) as [m r]. simpl in *. unfold session_read_model. by rewrite Hp.
Qed.
End journal_port.

(** * Correctness of finalisation and repair

    Proved against the session port and its laws: interrupting the unanswered tool calls
    of a session leaves none, so an aborted turn always reaches its terminal event; what
    repair leaves behind; and the journal as an implementation of the port. *)

(** ** Which calls need an interruption *)

Definition call_ids (cs : list model_context.UnansweredToolCall) : list string :=
  map model_context.call_id cs.

(** The scans report every call they do not skip. *)
Lemma requested_in_blocks_complete ids seen cs id nm args raw :
  Content_ToolCall id nm args raw ∈ cs → ToolCallId_new id ∈ ids → id ∉ seen →
  id ∈ call_ids (model_context.requested_in_blocks ids seen cs).
Proof.
  revert seen; induction cs as [|c cs IH]; intros seen Hin Hid Hseen; [set_solver|].
  apply elem_of_cons in Hin as [<-|Hin]; simpl.
  { rewrite bool_decide_true, bool_decide_false by done. simpl. set_solver. }
  destruct c as [| |id' nm' a' r'|]; try by apply IH.
  destruct (bool_decide (ToolCallId_new id' ∈ ids) && negb (bool_decide (id' ∈ seen))) eqn:Hb;
    [|by apply IH].
  simpl. destruct (decide (id = id')) as [->|Hne]; [set_solver|].
  apply elem_of_cons. right. apply IH; [done..|set_solver].
Qed.

Lemma requested_in_blocks_none ids seen cs :
  (∀ id nm args raw, Content_ToolCall id nm args raw ∈ cs → ToolCallId_new id ∉ ids) →
  model_context.requested_in_blocks ids seen cs = [].
Proof.
  revert seen; induction cs as [|c cs IH]; intros seen Hcs; [done|]. simpl.
  assert (∀ id nm args raw, Content_ToolCall id nm args raw ∈ cs → ToolCallId_new id ∉ ids)
    as Hcs' by (intros id nm args raw Hin; apply (Hcs id nm args raw); set_solver).
  destruct c as [| |id nm args raw|]; try by apply IH.
  rewrite bool_decide_false by (apply (Hcs id nm args raw); set_solver). by apply IH.
Qed.

Lemma unanswered_in_blocks_complete answered seen cs id nm args raw :
  Content_ToolCall id nm args raw ∈ cs → id ∉ answered → id ∉ seen →
  id ∈ call_ids (model_context.unanswered_in_blocks answered seen cs).
Proof.
  revert seen; induction cs as [|c cs IH]; intros seen Hin Hid Hseen; [set_solver|].
  apply elem_of_cons in Hin as [<-|Hin]; simpl.
  { rewrite !bool_decide_false by done. simpl. set_solver. }
  destruct c as [| |id' nm' a' r'|]; try by apply IH.
  destruct (negb (bool_decide (id' ∈ answered)) && negb (bool_decide (id' ∈ seen))) eqn:Hb;
    [|by apply IH].
  simpl. destruct (decide (id = id')) as [->|Hne]; [set_solver|].
  apply elem_of_cons. right. apply IH; [done..|set_solver].
Qed.

Lemma unanswered_in_blocks_none answered seen cs :
  (∀ id nm args raw, Content_ToolCall id nm args raw ∈ cs → id ∈ answered) →
  model_context.unanswered_in_blocks answered seen cs = [].
Proof.
  revert seen; induction cs as [|c cs IH]; intros seen Hcs; [done|]. simpl.
  assert (∀ id nm args raw, Content_ToolCall id nm args raw ∈ cs → id ∈ answered)
    as Hcs' by (intros id nm args raw Hin; apply (Hcs id nm args raw); set_solver).
  destruct c as [| |id nm args raw|]; try by apply IH.
  rewrite bool_decide_true by (apply (Hcs id nm args raw); set_solver). by apply IH.
Qed.

Lemma push_unseen_complete seen cs c :
  c ∈ cs → model_context.call_id c ∈ seen ∨ model_context.call_id c ∈ call_ids (push_unseen seen cs).
Proof.
  revert seen; induction cs as [|x cs IH]; intros seen Hin; [set_solver|].
  apply elem_of_cons in Hin as [<-|Hin]; simpl.
  { case_bool_decide; [by left|]. right. set_solver. }
  case_bool_decide; [by apply IH|].
  destruct (IH ({[model_context.call_id x]} ∪ seen) Hin) as [Hc|Hc]; simpl; set_solver.
Qed.

Lemma answered_ids_app l1 l2 a1 a2 :
  model_context.answered_ids l1 = Some a1 → model_context.answered_ids l2 = Some a2 →
  model_context.answered_ids (l1 ++ l2) = Some (a1 ∪ a2).
Proof.
  revert a1; induction l1 as [|m l1 IH]; intros a1; simpl.
  { intros [= <-] ->. by rewrite (left_id_L ∅ (∪)). }
  case_decide; [|done]. destruct (model_context.answered_ids l1) as [a|]; [|done]. simpl.
  intros [= <-] H2. rewrite (IH a) by done. simpl. by rewrite (assoc_L (∪)).
Qed.

Lemma answered_ids_app_None l1 l2 :
  model_context.answered_ids l1 = None → model_context.answered_ids (l1 ++ l2) = None.
Proof.
  induction l1 as [|m l1 IH]; simpl; [done|]. case_decide; [|done].
  destruct (model_context.answered_ids l1); [done|]. intros _. by rewrite IH.
Qed.

(** ** Terminal events *)

(** A message that answers the call [id] and nothing else. *)
Definition answers (id : string) (m : model_context.SequencedLlmMessage) : Prop :=
  role (model_context.message m) = Role_Tool ∧
  omap tool_result_id_of (content (model_context.message m)) = [id].

(** What terminal events for [cs] do to a model. *)
Definition settled_by (cs : list model_context.UnansweredToolCall) (m m' : SessionReadModel)
    : Prop :=
  (∃ ts, model_context.messages (model_ctx m') = model_context.messages (model_ctx m) ++ ts ∧
     Forall2 answers (call_ids cs) ts) ∧
  execution.pending_tool_calls (execution_ m')
    = execution.pending_tool_calls (execution_ m) ∖ list_to_set (map ToolCallId_new (call_ids cs)) ∧
  execution.unsettled_turn_id (execution_ m') = execution.unsettled_turn_id (execution_ m) ∧
  execution.active_step (execution_ m') = execution.active_step (execution_ m) ∧
  execution.pending_inputs (execution_ m') = execution.pending_inputs (execution_ m) ∧
  agent_sessions m' = agent_sessions m ∧
  (if Nat.eqb (length cs) 0 then execution.phase (execution_ m') = execution.phase (execution_ m)
   else idle_or_error (execution.phase (execution_ m')) = false).

Lemma settled_by_nil m : settled_by [] m m.
Proof.
  split_and!; try done; [exists []; split; [by rewrite app_nil_r|constructor]|].
  simpl. by rewrite (difference_empty_L _).
Qed.

Lemma settled_by_terminal outcome c e m :
  se_payload e = interrupted_payload outcome c →
  settled_by [c] m (apply_validated_event e m).
Proof.
  intros Hp. unfold settled_by, apply_validated_event. cbn [model_ctx execution_ agent_sessions].
  unfold model_context.apply_event, model_context.apply_provider_event, execution.apply_event,
    agents.apply_event. rewrite Hp.
  destruct outcome; simpl; (split_and!; try done;
    [eexists; split; [done|]; repeat constructor|set_solver|by case_decide]).
Qed.

Lemma settled_by_trans c cs m m1 m2 :
  settled_by [c] m m1 → settled_by cs m1 m2 → settled_by (c :: cs) m m2.
Proof.
  intros ((ts1 & Hm1 & Ha1) & Hp1 & Hu1 & Hs1 & Hi1 & Hg1 & Hph1)
         ((ts2 & Hm2 & Ha2) & Hp2 & Hu2 & Hs2 & Hi2 & Hg2 & Hph2).
  split_and!; try congruence.
  - exists (ts1 ++ ts2). rewrite Hm2, Hm1, (assoc_L (++)). split; [done|].
    change (call_ids (c :: cs)) with (call_ids [c] ++ call_ids cs). by apply Forall2_app.
  - rewrite Hp2, Hp1. simpl. set_solver.
  - simpl in *. destruct (Nat.eqb (length cs) 0); [congruence|done].
Qed.

#[export] Hint Resolve settled_by_nil settled_by_terminal settled_by_trans : astr.

Lemma answers_tool ids ts :
  Forall2 answers ids ts →
  Forall (λ x, role (model_context.message x) = Role_Tool) ts ∧
  model_context.answered_ids ts = Some (list_to_set ids).
Proof.
  induction 1 as [|id t ids ts [Hr Hid] _ [IH1 IH2]]; [done|]. split; [by constructor|].
  simpl. rewrite decide_True by done. rewrite IH2. simpl. rewrite Hid. simpl.
  by rewrite (right_id_L ∅ (∪)).
Qed.

(** The last message that calls tools is not affected by tool messages behind it. *)
Lemma rposition_tools l ts :
  Forall (λ x, role (model_context.message x) = Role_Tool) ts →
  rposition model_context.calls_tools (l ++ ts) = rposition model_context.calls_tools l.
Proof.
  intros Ht. rewrite rposition_app.
  assert (rposition model_context.calls_tools ts = None) as ->; [|done].
  apply rposition_None. eapply Forall_impl; [exact Ht|]. intros x Hx.
  unfold model_context.calls_tools. by rewrite Hx.
Qed.

(** The calls at the tail are answered by messages that answer all of them. *)
Lemma tail_answered c c' ids ts :
  model_context.messages c' = model_context.messages c ++ ts → Forall2 answers ids ts →
  (∀ x, x ∈ model_context.tail_unanswered_tool_calls c → model_context.call_id x ∈ ids) →
  model_context.tail_unanswered_tool_calls c' = [].
Proof.
  intros Hms Ha. destruct (answers_tool ids ts Ha) as [Htool Hans].
  unfold model_context.tail_unanswered_tool_calls. rewrite Hms, rposition_tools by done.
  destruct (rposition _ (model_context.messages c)) as [i|] eqn:Hi; [|done].
  apply rposition_Some in Hi as (a & Hlook & _ & _).
  pose proof (lookup_lt_Some _ _ _ Hlook) as Hlt.
  rewrite lookup_app_l, Hlook by done. rewrite drop_app_le by lia.
  destruct (model_context.answered_ids (drop (S i) (model_context.messages c))) as [an|] eqn:Hd.
  - rewrite (answered_ids_app _ _ an (list_to_set ids)) by done. intros Hall.
    apply unanswered_in_blocks_none. intros id nm args raw Hin.
    destruct (decide (id ∈ an)) as [|Hno]; [set_solver|]. apply elem_of_union. right.
    eapply unanswered_in_blocks_complete in Hin; [|exact Hno|apply not_elem_of_empty].
    apply list_elem_of_fmap in Hin as (x & -> & Hx). apply elem_of_list_to_set. by apply Hall.
  - by rewrite answered_ids_app_None.
Qed.

(** Interrupting exactly the calls that need it leaves none. *)
Lemma settled_needs_none m m' :
  settled_by (tool_calls_needing_interruption m) m m' → tool_calls_needing_interruption m' = [].
Proof.
  intros ((ts & Hms & Ha) & Hpend & _). destruct (answers_tool _ _ Ha) as [Htool _].
  unfold tool_calls_needing_interruption in *.
  set (R := model_context.requested_tool_calls (model_ctx m) _) in *.
  set (T := model_context.tail_unanswered_tool_calls (model_ctx m)) in *.
  assert (model_context.assistant_blocks (model_context.messages (model_ctx m'))
    = model_context.assistant_blocks (model_context.messages (model_ctx m))) as Hblocks.
  { unfold model_context.assistant_blocks. rewrite Hms, filter_app.
    rewrite (filter_none _ ts), app_nil_r; [done|]. intros x Hx Hr.
    rewrite Forall_forall in Htool. by rewrite (Htool x Hx) in Hr. }
  assert (model_context.requested_tool_calls (model_ctx m')
    (execution.pending_tool_calls (execution_ m')) = []) as ->.
  { unfold model_context.requested_tool_calls. rewrite Hblocks.
    apply requested_in_blocks_none. intros id nm args raw Hin. rewrite Hpend.
    intros [Hid Hnot]%elem_of_difference. apply Hnot, elem_of_list_to_set, list_elem_of_fmap.
    exists id. split; [done|]. unfold call_ids. rewrite map_app. apply elem_of_app. left.
    eapply requested_in_blocks_complete; [exact Hin|exact Hid|apply not_elem_of_empty]. }
  simpl. rewrite (tail_answered (model_ctx m) (model_ctx m') _ ts Hms Ha); [done|].
  intros x Hx. unfold call_ids. rewrite map_app. apply elem_of_app.
  destruct (push_unseen_complete (list_to_set (map model_context.call_id R)) T x Hx) as [Hs|Hs];
    [left; by apply elem_of_list_to_set in Hs|by right].
Qed.

(** No call needs an interruption when none did and only user messages were added. *)
Lemma needs_none_user m m' us :
  tool_calls_needing_interruption m = [] →
  model_context.messages (model_ctx m') = model_context.messages (model_ctx m) ++ us →
  Forall (λ x, role (model_context.message x) = Role_User) us →
  execution.pending_tool_calls (execution_ m') ⊆ execution.pending_tool_calls (execution_ m) →
  tool_calls_needing_interruption m' = [].
Proof.
  unfold tool_calls_needing_interruption. intros [HR HT]%app_nil Hms Hus Hsub.
  assert (model_context.requested_tool_calls (model_ctx m')
    (execution.pending_tool_calls (execution_ m')) = []) as ->.
  { unfold model_context.requested_tool_calls, model_context.assistant_blocks in *.
    rewrite Hms, filter_app, (filter_none _ us), app_nil_r.
    - apply requested_in_blocks_none. intros id nm args raw Hin Hid.
      eapply requested_in_blocks_complete in Hin; [|apply Hsub, Hid|apply not_elem_of_empty].
      rewrite HR in Hin. set_solver.
    - intros x Hx Hr. rewrite Forall_forall in Hus. by rewrite (Hus x Hx) in Hr. }
  rewrite HR in HT. simpl. assert (model_context.tail_unanswered_tool_calls (model_ctx m') = []) as ->;
    [|done].
  assert (model_context.tail_unanswered_tool_calls (model_ctx m) = []) as Htail.
  { destruct (model_context.tail_unanswered_tool_calls (model_ctx m)) as [|x l]; [done|].
    simpl in HT. by rewrite bool_decide_false in HT by set_solver. }
  unfold model_context.tail_unanswered_tool_calls in *. rewrite Hms, rposition_app.
  assert (rposition model_context.calls_tools us = None) as ->.
  { apply rposition_None. eapply Forall_impl; [exact Hus|]. intros x Hx.
    unfold model_context.calls_tools. by rewrite Hx. }
  destruct (rposition _ (model_context.messages (model_ctx m))) as [i|] eqn:Hi; [|done].
  apply rposition_Some in Hi as (a & Hlook & _ & _).
  pose proof (lookup_lt_Some _ _ _ Hlook) as Hlt. rewrite lookup_app_l, Hlook by done.
  rewrite Hlook in Htail. rewrite drop_app_le by lia.
  destruct us as [|u us]; [by rewrite app_nil_r|]. apply Forall_cons in Hus as [Hu _].
  assert (model_context.answered_ids (drop (S i) (model_context.messages (model_ctx m)) ++ u :: us)
    = None) as ->; [|done].
  generalize (drop (S i) (model_context.messages (model_ctx m))) as l.
  induction l as [|x l IH]; simpl; [by rewrite decide_False by congruence|].
  case_decide; [|done]. by rewrite IH.
Qed.

(** ** Computations on a port *)

Lemma bind_Ok {S E A B} (m : M S E A) (k : A → M S E B) s s' b :
  (m ≫= k) s = (s', Ok b) → ∃ s1 a, m s = (s1, Ok a) ∧ k a s1 = (s', Ok b).
Proof. unfold mbind, M_bind. destruct (m s) as [s1 [a|]]; [eauto|done]. Qed.

Lemma bind_Err {S E A B} (m : M S E A) (k : A → M S E B) s s' e :
  (m ≫= k) s = (s', Err e) →
  m s = (s', Err e) ∨ ∃ s1 a, m s = (s1, Ok a) ∧ k a s1 = (s', Err e).
Proof. unfold mbind, M_bind. destruct (m s) as [s1 [a|]]; [eauto|]. intros [= <- <-]. by left. Qed.

Lemma with_err_Ok {S E F A} (f : E → F) (m : M S E A) s s' a :
  with_err f m s = (s', Ok a) → m s = (s', Ok a).
Proof. unfold with_err. destruct (m s) as [s1 [x|]]; simpl; [by intros [= -> ->]|done]. Qed.

Section port.
Context {S : Type} `{LawfulPort S}.

Lemma emit_Ok t p s s' :
  emit t p s = (s', Ok ()) →
  ∃ m e, read_model s = Ok m ∧ se_turn_id e = t ∧ se_payload e = p ∧
    read_model s' = Ok (apply_validated_event e m).
Proof.
  intros (s1 & e & He & [= <-])%bind_Ok.
  apply emit_durable_ok in He as (Ht & Hp & m & Hm & Hm'). by exists m, e.
Qed.

Lemma emit_Err t p s s' err :
  emit t p s = (s', Err err) → read_model s' = read_model s ∧ ∃ e, err = Session_EventPublish e.
Proof. intros [He|(s1 & e & _ & [=])]%bind_Err. by apply emit_durable_err in He. Qed.

Lemma interruptions_Ok t outcome cs s s' :
  for_each (λ c, emit t (interrupted_payload outcome c)) cs s = (s', Ok ()) →
  ∀ m, read_model s = Ok m → ∃ m', read_model s' = Ok m' ∧ settled_by cs m m'.
Proof.
  revert s; induction cs as [|c cs IH]; intros s.
  { intros [= <-] m Hm. eauto with astr. }
  intros (s1 & [] & He & Hrest)%bind_Ok m Hm.
  apply emit_Ok in He as (m0 & e & Hm0 & _ & Hp & Hm1). rewrite Hm in Hm0. injection Hm0 as <-.
  destruct (IH s1 Hrest _ Hm1) as (m' & Hm' & Hset). eauto with astr.
Qed.

Lemma interruptions_Err t outcome cs s s' err :
  for_each (λ c, emit t (interrupted_payload outcome c)) cs s = (s', Err err) →
  ∃ e, err = Session_EventPublish e.
Proof.
  revert s; induction cs as [|c cs IH]; intros s; [done|].
  intros [He|(s1 & [] & _ & Hrest)]%bind_Err; [by apply emit_Err in He as [_ ?]|by eapply IH].
Qed.

Lemma emit_interrupted_Ok state t outcome s s' n :
  emit_interrupted_tool_results state t outcome s = (s', Ok n) → read_model s = Ok state →
  n = N.of_nat (length (tool_calls_needing_interruption state)) ∧
  ∃ m', read_model s' = Ok m' ∧ settled_by (tool_calls_needing_interruption state) state m' ∧
    tool_calls_needing_interruption m' = [].
Proof.
  intros (s1 & [] & He & [= -> <-])%bind_Ok Hm. split; [done|].
  destruct (interruptions_Ok _ _ _ _ _ He _ Hm) as (m' & Hm' & Hset).
  exists m'. split_and!; [done..|]. by eapply settled_needs_none.
Qed.

(** What the aborted-context event does. *)
Lemma aborted_context_Ok t s s' m :
  emit_turn_aborted_context t s = (s', Ok ()) → read_model s = Ok m →
  ∃ m' x, read_model s' = Ok m' ∧ role (model_context.message x) = Role_User ∧
    model_context.origin x = Some Origin_TurnAborted ∧
    model_context.messages (model_ctx m') = model_context.messages (model_ctx m) ++ [x] ∧
    execution_ m' = execution_ m ∧ agent_sessions m' = agent_sessions m.
Proof.
  intros (m0 & e & Hm0 & _ & Hp & Hm')%emit_Ok Hm. rewrite Hm in Hm0. injection Hm0 as <-.
  exists (apply_validated_event e m), {| model_context.message := turn_aborted_context_message;
    model_context.updated_seq := se_seq e; model_context.origin := Some Origin_TurnAborted |}.
  split_and!; [done|done|done|..]; cbn [apply_validated_event model_ctx execution_ agent_sessions].
  - unfold model_context.apply_event, model_context.apply_provider_event. by rewrite Hp.
  - unfold execution.apply_event. by rewrite Hp.
  - unfold agents.apply_event. by rewrite Hp.
Qed.

(** And the terminal event, when it belongs to the unsettled turn. *)
Lemma turn_completed_Ok t reason s s' m :
  emit t (turn_completed_payload reason) s = (s', Ok ()) → read_model s = Ok m →
  execution.settles_turn t (execution.unsettled_turn_id (execution_ m)) = true →
  ∃ m', read_model s' = Ok m' ∧
    model_context.messages (model_ctx m') = model_context.messages (model_ctx m) ∧
    execution_ m' = execution.settle (execution_ m) Phase_Idle ∧
    agent_sessions m' = agent_sessions m.
Proof.
  intros (m0 & e & Hm0 & Ht & Hp & Hm')%emit_Ok Hm Hset. rewrite Hm in Hm0. injection Hm0 as <-.
  exists (apply_validated_event e m).
  split_and!; [done|..]; cbn [apply_validated_event model_ctx execution_ agent_sessions].
  - unfold model_context.apply_event, model_context.apply_provider_event. by rewrite Hp.
  - unfold execution.apply_event. by rewrite Hp, Ht; simpl; rewrite Hset.
  - unfold agents.apply_event. by rewrite Hp.
Qed.

(** A session with nothing left of its last turn. *)
Definition settled (m : SessionReadModel) : Prop :=
  execution.phase (execution_ m) = Phase_Idle ∧
  execution.unsettled_turn_id (execution_ m) = None ∧
  execution.pending_tool_calls (execution_ m) = ∅ ∧
  execution.pending_tool_approvals (execution_ m) = ∅ ∧
  execution.active_step (execution_ m) = None ∧
  tool_calls_needing_interruption m = [].

Lemma completed_settled m m' :
  tool_calls_needing_interruption m = [] →
  model_context.messages (model_ctx m') = model_context.messages (model_ctx m) →
  execution_ m' = execution.settle (execution_ m) Phase_Idle → settled m'.
Proof.
  intros Hneed Hms Hx. unfold settled. rewrite Hx. split_and!; try done.
  apply (needs_none_user m m' []); [done|by rewrite app_nil_r|constructor|].
  rewrite Hx. simpl. set_solver.
Qed.

Lemma emit_turn_completed_Ok t reason s s' m :
  emit_turn_completed t reason s = (s', Ok ()) → read_model s = Ok m →
  tool_calls_needing_interruption m = [] ∧ emit (Some t) (turn_completed_payload reason) s = (s', Ok ()).
Proof.
  intros (s1 & m1 & [= <- Hr] & Hk)%bind_Ok Hm. rewrite Hm in Hr. injection Hr as <-.
  destruct (tool_calls_needing_interruption m); [done|]. by simpl in Hk.
Qed.

(** The terminal event is refused for unsettled calls only when there are some. *)
Lemma emit_turn_completed_Err t reason s s' m err :
  emit_turn_completed t reason s = (s', Err err) → read_model s = Ok m →
  tool_calls_needing_interruption m = [] → ∃ e, err = Session_EventPublish e.
Proof.
  intros Hb Hm Hn. apply bind_Err in Hb as [[= <- Hr]|(s1 & m1 & [= <- Hr] & Hk)]; [congruence|].
  rewrite Hm in Hr. injection Hr as <-. rewrite Hn in Hk. simpl in Hk.
  by apply emit_Err in Hk as [_ ?].
Qed.

(** ** Finalisation and repair as a whole *)

Lemma get_model_bind {A} (k : SessionReadModel → M S SessionError A) s m :
  read_model s = Ok m → (get_model ≫= k) s = k m s.
Proof. intros Hm. unfold mbind, M_bind, get_model. by rewrite Hm. Qed.

(** Interrupting the calls and recording the abort, as [finalize_aborted_turn] does. *)
Lemma abort_context_step (skip : bool) t s s' m :
  (if negb skip then emit_turn_aborted_context t else mret ()) s = (s', Ok ()) →
  read_model s = Ok m → tool_calls_needing_interruption m = [] →
  ∃ m' us, read_model s' = Ok m' ∧ tool_calls_needing_interruption m' = [] ∧
    map model_context.origin us = (if skip then [] else [Some Origin_TurnAborted]) ∧
    model_context.messages (model_ctx m') = model_context.messages (model_ctx m) ++ us ∧
    execution_ m' = execution_ m ∧ agent_sessions m' = agent_sessions m.
Proof.
  destruct skip; simpl.
  { intros [= <-] Hm Hn. exists m, []. by rewrite app_nil_r. }
  intros Hc Hm Hn.
  destruct (aborted_context_Ok _ _ _ _ Hc Hm) as (m' & x & Hm' & Hr & Ho & Hms & Hx & Ha).
  exists m', [x]. split_and!; try done; [|simpl; by rewrite Ho].
  apply (needs_none_user m m' [x]); [done..|by repeat constructor|by rewrite Hx].
Qed.

Lemma abort_context_step_Err (skip : bool) t s s' err :
  (if negb skip then emit_turn_aborted_context t else mret ()) s = (s', Err err) →
  ∃ e, err = Session_EventPublish e.
Proof. destruct skip; [done|]. simpl. by intros [_ ?]%emit_Err. Qed.

(** What a successful protocol repair leaves, by the phase it found. *)
Lemma repair_phase_Ok m s s' :
  repair_stale_phase_for_state m s = (s', Ok ()) → read_model s = Ok m →
  idle_or_error (execution.phase (execution_ m)) = false ∧
  ∃ m', read_model s' = Ok m' ∧ settled m' ∧ agent_sessions m' = agent_sessions m ∧
    execution.pending_inputs (execution_ m') = execution.pending_inputs (execution_ m).
Proof.
  unfold repair_stale_phase_for_state. destruct (idle_or_error _); [done|]. intros Hrun Hm.
  split; [done|]. apply bind_Ok in Hrun as (s1 & n & He%with_err_Ok & Hrun).
  apply bind_Ok in Hrun as (s2 & [] & Hc%with_err_Ok & Ht%with_err_Ok).
  destruct (emit_interrupted_Ok _ _ _ _ _ _ He Hm) as (_ & m1 & Hm1 & Hset & Hn1).
  destruct (abort_context_step false _ _ _ _ Hc Hm1 Hn1)
    as (m2 & us & Hm2 & Hn2 & _ & Hms2 & Hx2 & Ha2).
  destruct (turn_completed_Ok _ _ _ _ _ Ht Hm2) as (m3 & Hm3 & Hms3 & Hx3 & Ha3); [done|].
  destruct Hset as (_ & _ & _ & _ & Hi & Hg & _).
  exists m3. split_and!; [done|by eapply completed_settled|congruence|].
  rewrite Hx3. simpl. by rewrite Hx2, Hi.
Qed.

Lemma repair_protocol_Ok m s s' :
  repair_incomplete_tool_protocol_for_state m s = (s', Ok ()) → read_model s = Ok m →
  ∃ m', read_model s' = Ok m' ∧ tool_calls_needing_interruption m' = [] ∧
    agent_sessions m' = agent_sessions m ∧
    execution.pending_inputs (execution_ m') = execution.pending_inputs (execution_ m) ∧
    (if Nat.eqb (length (tool_calls_needing_interruption m)) 0 then m' = m
     else idle_or_error (execution.phase (execution_ m')) = false).
Proof.
  intros Hrun Hm. apply bind_Ok in Hrun as (s1 & n & He%with_err_Ok & Hrun).
  pose proof (emit_interrupted_Ok _ _ _ _ _ _ He Hm) as (-> & m1 & Hm1 & Hset & Hn1).
  destruct (tool_calls_needing_interruption m) as [|c cs] eqn:Hneed; simpl.
  { injection Hrun as <-. unfold emit_interrupted_tool_results in He. rewrite Hneed in He.
    injection He as <-. by exists m. }
  case_bool_decide; [|simpl in *; lia]. apply with_err_Ok in Hrun.
  destruct (abort_context_step false _ _ _ _ Hrun Hm1 Hn1)
    as (m2 & us & Hm2 & Hn2 & _ & Hms2 & Hx2 & Ha2).
  destruct Hset as (_ & _ & _ & _ & Hi & Hg & Hph).
  exists m2. rewrite Hx2, Ha2. by split_and!.
Qed.

Lemma repair_state_Ok s s' m st :
  repair_turn_protocol_state s = (s', Ok st) → read_model s = Ok m →
  st = m ∧
  ∃ m', read_model s' = Ok m' ∧ tool_calls_needing_interruption m' = [] ∧
    agent_sessions m' = agent_sessions m ∧
    execution.pending_inputs (execution_ m') = execution.pending_inputs (execution_ m) ∧
    (if idle_or_error (execution.phase (execution_ m)) then
       if Nat.eqb (length (tool_calls_needing_interruption m)) 0 then m' = m
       else idle_or_error (execution.phase (execution_ m')) = false
     else settled m').
Proof.
  intros Hrun Hm. apply bind_Ok in Hrun as (s1 & m0 & Hg%with_err_Ok & Hrun).
  injection Hg as <- Hm0. rewrite Hm in Hm0. injection Hm0 as <-.
  apply bind_Ok in Hrun as (s2 & [] & Hrun & [= -> ->]). split; [done|].
  destruct (idle_or_error _) eqn:Hph; [by apply (repair_protocol_Ok st s)|].
  apply repair_phase_Ok in Hrun as (_ & m' & Hm' & Hset & Ha & Hi); [|done].
  exists m'. split_and!; try done. by destruct Hset as (_ & _ & _ & _ & _ & ?).
Qed.

(** ** Running children *)

(** Failing a link: the ids stay, and the failed child does not run any more. *)
Lemma update_first_fail_ids c final text links :
  map agents.child_session_id (update_first (agents.is_link c) (agents.fail_link final text) links)
    = map agents.child_session_id links.
Proof. induction links as [|l links IH]; simpl; [done|]. by destruct (agents.is_link c l); simpl; rewrite ?IH. Qed.

Lemma update_first_fail_running c final text links l :
  NoDup (map agents.child_session_id links) →
  l ∈ update_first (agents.is_link c) (agents.fail_link final text) links → is_running l = true →
  l ∈ links ∧ agents.child_session_id l ≠ c.
Proof.
  induction links as [|x links IH]; simpl; [set_solver|]. intros [Hx Hnd]%NoDup_cons Hin Hrun.
  unfold agents.is_link in *. case_bool_decide as Hc; apply elem_of_cons in Hin as [->|Hin].
  - by simpl in Hrun.
  - split; [set_solver|]. intros Heq. apply Hx. rewrite Hc, <- Heq. by apply list_elem_of_fmap_2.
  - split; [set_solver|done].
  - destruct (IH Hnd Hin Hrun). split; [set_solver|done].
Qed.

Lemma agent_failed_Ok c s s' m :
  emit None (agent_session_failed_payload c "interrupted") s = (s', Ok ()) → read_model s = Ok m →
  ∃ m', read_model s' = Ok m' ∧ model_context.messages (model_ctx m') = model_context.messages (model_ctx m) ∧
    execution_ m' = execution_ m ∧
    agent_sessions m' = update_first (agents.is_link c) (agents.fail_link c "interrupted") (agent_sessions m).
Proof.
  intros (m0 & e & Hm0 & _ & Hp & Hm')%emit_Ok Hm. rewrite Hm in Hm0. injection Hm0 as <-.
  exists (apply_validated_event e m).
  split_and!; [done|..]; cbn [apply_validated_event model_ctx execution_ agent_sessions].
  - unfold model_context.apply_event, model_context.apply_provider_event. by rewrite Hp.
  - unfold execution.apply_event. by rewrite Hp.
  - unfold agents.apply_event. by rewrite Hp.
Qed.

Lemma stale_runs_Ok links s s' m :
  for_each (λ link, with_err Schedule_EventEmit
    (emit None (agent_session_failed_payload (agents.child_session_id link) "interrupted"))) links s
    = (s', Ok ()) →
  read_model s = Ok m → NoDup (map agents.child_session_id (agent_sessions m)) →
  (∀ l, l ∈ agent_sessions m → is_running l = true → l ∈ links) →
  ∃ m', read_model s' = Ok m' ∧ model_context.messages (model_ctx m') = model_context.messages (model_ctx m) ∧
    execution_ m' = execution_ m ∧
    map agents.child_session_id (agent_sessions m') = map agents.child_session_id (agent_sessions m) ∧
    existsb is_running (agent_sessions m') = false.
Proof.
  revert s m; induction links as [|link links IH]; intros s m Hrun Hm Hnd Hall.
  { injection Hrun as <-. exists m. split_and!; try done. apply not_true_iff_false.
    intros (l & Hin & Hr)%existsb_exists. apply list_elem_of_In in Hin.
    specialize (Hall l Hin Hr). set_solver. }
  apply bind_Ok in Hrun as (s1 & [] & He%with_err_Ok & Hrun).
  destruct (agent_failed_Ok _ _ _ _ He Hm) as (m1 & Hm1 & Hms1 & Hx1 & Ha1).
  destruct (IH s1 m1 Hrun Hm1) as (m' & Hm' & Hms & Hx & Hids & Hno).
  - by rewrite Ha1, update_first_fail_ids.
  - intros l Hin Hr. rewrite Ha1 in Hin. apply update_first_fail_running in Hin as [Hin Hc]; [|done..].
    specialize (Hall l Hin Hr). apply elem_of_cons in Hall as [->|]; done.
  - exists m'. split_and!; try congruence. by rewrite Hids, Ha1, update_first_fail_ids.
Qed.

Lemma for_each_ext {E A} (f g : A → M S E ()) l s :
  (∀ a s, a ∈ l → f a s = g a s) → for_each f l s = for_each g l s.
Proof.
  revert s; induction l as [|a l IH]; intros s Hfg; [done|]. simpl. unfold mbind, M_bind.
  rewrite Hfg by set_solver. destruct (g a s) as [s1 [x|e]]; [|done].
  apply IH. set_solver.
Qed.

(** One locked repair of a session that is registered neither itself nor with a child. *)
Lemma repair_locked_Ok has_active cleanup sid s s' m :
  (∀ c, has_active c = false) →
  repair_stale_locked has_active cleanup sid s = (s', Ok ()) → read_model s = Ok m →
  NoDup (map agents.child_session_id (agent_sessions m)) →
  ∃ m', read_model s' = Ok m' ∧ tool_calls_needing_interruption m' = [] ∧
    map agents.child_session_id (agent_sessions m') = map agents.child_session_id (agent_sessions m) ∧
    existsb is_running (agent_sessions m') = false ∧
    execution.pending_inputs (execution_ m') = execution.pending_inputs (execution_ m) ∧
    (if idle_or_error (execution.phase (execution_ m)) then
       if Nat.eqb (length (tool_calls_needing_interruption m)) 0 then execution_ m' = execution_ m
       else idle_or_error (execution.phase (execution_ m')) = false
     else settled m').
Proof.
  intros Hact. unfold repair_stale_locked. rewrite Hact. intros Hrun Hm Hnd.
  apply bind_Ok in Hrun as (s1 & st & Hrep & Hrun). apply bind_Ok in Hrun as (s2 & [] & Hch & Hsy).
  apply with_err_Ok in Hsy.
  destruct (repair_state_Ok _ _ _ _ Hrep Hm) as (-> & m1 & Hm1 & Hn1 & Ha1 & Hi1 & Hph1).
  unfold repair_stale_runs_for_state in Hch. erewrite for_each_ext in Hch;
    [apply (stale_runs_Ok _ _ _ m1) in Hch as (m2 & Hm2 & Hms & Hx & Hids & Hno)|]; [|done|..].
  - exists m2. assert (tool_calls_needing_interruption m2 = []) as Hn2.
    { apply (needs_none_user m1 m2 []); [done|by rewrite app_nil_r|constructor|by rewrite Hx]. }
    split_and!; [|done|congruence|done|congruence|].
    + pose proof (sync_events_model s2) as Hr. rewrite Hsy in Hr. simpl in Hr. congruence.
    + unfold settled in *. rewrite Hx. repeat case_match; subst; try done. naive_solver.
  - by rewrite Ha1.
  - intros l Hin Hr. rewrite Ha1 in Hin. by apply list_elem_of_filter.
  - intros l s0 _. simpl. by rewrite Hact.
Qed.

(** ** Properties *)

(** The abort of a turn always reaches its terminal event or a publishing failure:
    when the turn is the unsettled one (or none is) and the session is not idle,
    [finalize_aborted_turn] never refuses with unsettled tool calls; on success the
    session is settled, every call that had no result got exactly one, in order, and the
    abort is recorded in the model context unless it already was. *)
Theorem aborted_turn_settles turn_id s s' r m :
  read_model s = Ok m → execution.phase (execution_ m) ≠ Phase_Idle →
  execution.settles_turn (Some turn_id) (execution.unsettled_turn_id (execution_ m)) = true →
  finalize_aborted_turn turn_id s = (s', r) →
  match r with
  | Err e => ∃ p, e = Session_EventPublish p
  | Ok _ => ∃ m' ts us,
      read_model s' = Ok m' ∧ settled m' ∧
      model_context.messages (model_ctx m') = model_context.messages (model_ctx m) ++ ts ++ us ∧
      Forall2 answers (call_ids (tool_calls_needing_interruption m)) ts ∧
      map model_context.origin us =
        if has_aborted_context m then [] else [Some Origin_TurnAborted]
  end.
Proof.
  intros Hm Hph Hturn. unfold finalize_aborted_turn. rewrite (get_model_bind _ _ m) by done.
  rewrite bool_decide_false by done. intros Hrun. destruct r as [[]|err].
  - apply bind_Ok in Hrun as (s1 & n & He & Hrun). apply bind_Ok in Hrun as (s2 & [] & Hc & Ht).
    destruct (emit_interrupted_Ok _ _ _ _ _ _ He Hm) as (_ & m1 & Hm1 & Hset & Hn1).
    destruct (abort_context_step _ _ _ _ _ Hc Hm1 Hn1) as (m2 & us & Hm2 & Hn2 & Ho & Hms2 & Hx2 & _).
    apply (emit_turn_completed_Ok _ _ _ _ m2) in Ht as [_ Ht]; [|done].
    destruct Hset as ((ts & Hms1 & Hans) & _ & Hu & _).
    destruct (turn_completed_Ok _ _ _ _ _ Ht Hm2) as (m3 & Hm3 & Hms3 & Hx3 & _);
      [by rewrite Hx2, Hu|].
    exists m3, ts, us. split_and!; [done|by eapply completed_settled| |done|done].
    by rewrite Hms3, Hms2, Hms1, (assoc_L (++)).
  - apply bind_Err in Hrun as [He|(s1 & n & He & Hrun)].
    { apply bind_Err in He as [He|(? & ? & _ & [=])]. by eapply interruptions_Err. }
    destruct (emit_interrupted_Ok _ _ _ _ _ _ He Hm) as (_ & m1 & Hm1 & _ & Hn1).
    apply bind_Err in Hrun as [Hc|(s2 & [] & Hc & Ht)]; [by eapply abort_context_step_Err|].
    destruct (abort_context_step _ _ _ _ _ Hc Hm1 Hn1) as (m2 & us & Hm2 & Hn2 & _).
    by eapply emit_turn_completed_Err.
Qed.

(** Repair converges: when a session without a registered turn or child is repaired
    twice without failure, no tool call is left without a result, no child is left
    running and no accepted input is lost; what can still ask for a repair is an input
    waiting to run or the step record of a turn that ended in an error. *)
Theorem repair_converges has_active cleanup sid s s1 s2 m :
  (∀ c, has_active c = false) → read_model s = Ok m →
  NoDup (map agents.child_session_id (agent_sessions m)) →
  repair_stale_locked has_active cleanup sid s = (s1, Ok ()) →
  repair_stale_locked has_active cleanup sid s1 = (s2, Ok ()) →
  ∃ m', read_model s2 = Ok m' ∧ tool_calls_needing_interruption m' = [] ∧
    idle_or_error (execution.phase (execution_ m')) = true ∧
    existsb is_running (agent_sessions m') = false ∧
    execution.pending_inputs (execution_ m') = execution.pending_inputs (execution_ m) ∧
    (execution.active_step (execution_ m') = None ∨ execution_ m' = execution_ m).
Proof.
  intros Hact Hm Hnd H1 H2.
  destruct (repair_locked_Ok _ _ _ _ _ _ Hact H1 Hm Hnd) as (m1 & Hm1 & Hn1 & Hids1 & Hr1 & Hi1 & Hp1).
  destruct (repair_locked_Ok _ _ _ _ _ _ Hact H2 Hm1) as (m2 & Hm2 & Hn2 & Hids2 & Hr2 & Hi2 & Hp2);
    [by rewrite Hids1|].
  exists m2. split; [done|]. split; [done|]. rewrite Hn1 in Hp2. simpl in Hp2.
  destruct (idle_or_error (execution.phase (execution_ m))) eqn:Hph;
    [destruct (Nat.eqb _ _)|]; [..|destruct Hp1 as (Hi & _ & _ & _ & Hst & _)].
  - rewrite Hp1, Hph in Hp2. rewrite Hp2. split_and!; auto.
  - rewrite Hp1 in Hp2. destruct Hp2 as (-> & _ & _ & _ & -> & _). split_and!; auto; congruence.
  - rewrite Hi in Hp2. simpl in Hp2. rewrite Hp2, Hi. split_and!; auto; congruence.
Qed.

(** One repair of an idle session with calls without a result is not enough: the
    results it appends move the phase to thinking or calling, no terminal event follows,
    and the session reports that it needs repair again. *)
Theorem repair_idle_leaves_turn_open s s' m st :
  read_model s = Ok m → idle_or_error (execution.phase (execution_ m)) = true →
  tool_calls_needing_interruption m ≠ [] →
  repair_turn_protocol_state s = (s', Ok st) →
  ∃ m', read_model s' = Ok m' ∧ tool_calls_needing_interruption m' = [] ∧
    idle_or_error (execution.phase (execution_ m')) = false ∧ needs_stale_repair m' = true.
Proof.
  intros Hm Hph Hneed Hrun. destruct (repair_state_Ok _ _ _ _ Hrun Hm) as (_ & m' & Hm' & Hn & _ & _ & Hp).
  rewrite Hph in Hp. destruct (tool_calls_needing_interruption m) as [|c cs]; [done|]. simpl in Hp.
  exists m'. split_and!; try done. unfold needs_stale_repair. by rewrite Hp.
Qed.
End port.

(** ** Witnesses: the sample session behind the journal port *)

#[local] Existing Instance sample_codec.
#[local] Instance sample_port : SessionPort JournalSession := journal_port sample_json sample_sid.
#[local] Instance sample_lawful : LawfulPort JournalSession := journal_lawful sample_json sample_sid.

Definition sample_turn_id : TurnId := TurnId_new "t".

(** A session that accepts every append, after the given events of the sample turn. *)
Definition session_after (ps : list DurableEventPayload) : JournalSession :=
  foldl (λ s p, fst (emit_durable (Some sample_turn_id) p s))
    {| js_meta := opened_meta; js_calls := 0;
       js_env _ := {| env_event_id := EventId_new "e"; env_now := 0%Z; env_write := Write_Ok;
                      env_sync := Sync_Ok |} |} ps.

(** Two calls were requested and a child was spawned; the turn is still open. *)
Definition calling_events : list DurableEventPayload :=
  [P_TurnStarted; P_ToolCallRequested (ToolCallId_new "a") "ls" JNull None;
   P_AgentSessionSpawned (SessionId_new "c") "helper" "task" None None;
   P_ToolCallRequested (ToolCallId_new "b") "cat" JNull None].
(** The same, and the turn completed although its calls have no result. *)
Definition torn_events : list DurableEventPayload := calling_events ++ [P_TurnCompleted "error"].

Definition model_of (s : JournalSession) : SessionReadModel := session_read_model (js_meta s).

Lemma read_model_of s : read_model s = Ok (model_of s).
Proof. reflexivity. Qed.

Lemma aborted_turn_settles_witness :
  ∃ s' m' ts us,
    finalize_aborted_turn sample_turn_id (session_after calling_events) = (s', Ok ()) ∧
    read_model s' = Ok m' ∧ settled m' ∧
    model_context.messages (model_ctx m')
      = model_context.messages (model_ctx (model_of (session_after calling_events))) ++ ts ++ us ∧
    Forall2 answers ["a"; "b"] ts ∧ map model_context.origin us = [Some Origin_TurnAborted].
Proof.
  destruct (finalize_aborted_turn sample_turn_id (session_after calling_events)) as [s' r] eqn:He.
  assert (r = Ok ()) as ->.
  { transitivity (snd (finalize_aborted_turn sample_turn_id (session_after calling_events)));
      [by rewrite He|vm_compute; reflexivity]. }
  destruct (aborted_turn_settles sample_turn_id (session_after calling_events) s' (Ok ())
    (model_of (session_after calling_events))) as (m' & ts & us & Hm' & Hset & Hms & Ha & Ho);
    [apply read_model_of|vm_compute; intros [=]|vm_compute; reflexivity|exact He|].
  exists s', m', ts, us. split_and!; [reflexivity|exact Hm'|exact Hset|exact Hms|exact Ha|exact Ho].
Defined.

Lemma repair_converges_witness :
  ∃ s1 s2 m', repair_stale_locked (λ _, false) (λ _ s, s) sample_sid (session_after torn_events)
      = (s1, Ok ()) ∧
    repair_stale_locked (λ _, false) (λ _ s, s) sample_sid s1 = (s2, Ok ()) ∧
    read_model s2 = Ok m' ∧ tool_calls_needing_interruption m' = [] ∧
    idle_or_error (execution.phase (execution_ m')) = true ∧
    existsb is_running (agent_sessions m') = false.
Proof.
  set (repair := repair_stale_locked (λ _, false) (λ _ s, s) sample_sid).
  destruct (repair (session_after torn_events)) as [s1 r1] eqn:H1.
  destruct (repair s1) as [s2 r2] eqn:H2.
  assert (r1 = Ok ()) as ->.
  { transitivity (snd (repair (session_after torn_events))); [by rewrite H1|vm_compute; reflexivity]. }
  assert (r2 = Ok ()) as ->.
  { transitivity (snd (repair (fst (repair (session_after torn_events)))));
      [by rewrite H1; simpl; rewrite H2|vm_compute; reflexivity]. }
  destruct (repair_converges (λ _, false) (λ _ s, s) sample_sid (session_after torn_events) s1 s2
    (model_of (session_after torn_events))) as (m' & Hm' & Hn & Hp & Hr & _);
    [reflexivity|apply read_model_of|apply (bool_decide_unpack _); vm_compute; exact I|exact H1|exact H2|].
  exists s1, s2, m'. split_and!; [reflexivity|exact H2|assumption..].
Defined.

Lemma repair_idle_leaves_turn_open_witness :
  ∃ s' m m', read_model (session_after torn_events) = Ok m ∧
    execution.phase (execution_ m) = Phase_Idle ∧
    repair_turn_protocol_state (session_after torn_events) = (s', Ok m) ∧
    read_model s' = Ok m' ∧ tool_calls_needing_interruption m' = [] ∧
    idle_or_error (execution.phase (execution_ m')) = false ∧ needs_stale_repair m' = true.
Proof.
  destruct (repair_turn_protocol_state (session_after torn_events)) as [s' r] eqn:He.
  assert (r = Ok (model_of (session_after torn_events))) as ->.
  { transitivity (snd (repair_turn_protocol_state (session_after torn_events)));
      [by rewrite He|vm_compute; reflexivity]. }
  destruct (repair_idle_leaves_turn_open (session_after torn_events) s'
    (model_of (session_after torn_events)) (model_of (session_after torn_events)))
    as (m' & Hm' & Hn & Hp & Hr); [apply read_model_of|vm_compute; reflexivity|vm_compute; intros [=]
    |exact He|].
  exists s', (model_of (session_after torn_events)), m'.
  split_and!; [apply read_model_of|vm_compute; reflexivity|reflexivity|assumption..].
Defined.
