(* ===== verification/LaneModel.v ===== *)
(** * The event lane of a session ([session/src/session_event_sink.rs])

    Every durable event of a session goes through one lane: a bounded channel of commands
    and a task that serves them in order, coalescing neighbouring appends into one batch
    of the journal and publishing what became visible to the observer.  The journal is
    the class [SessionEventJournal]; live payloads are only passed on and are a type
    parameter.  A oneshot reply channel is a number; dropping it unanswered is answering
    [Closed], which is what its receiver gets. *)

From S2P Require Import Prelude CoreTypes CoreLlm CoreEvent StoreTypes TurnFinalize.

(** ** Events at the fan-out boundary ([event/envelope.rs]) *)

Inductive EventPayload (LP : Type) :=
| Payload_Durable (p : DurableEventPayload)
| Payload_Live (p : LP).
Arguments Payload_Durable {LP} p.
Arguments Payload_Live {LP} p.

Record Event (LP : Type) := {
  e_seq : option N;
  e_id : EventId;
  e_session_id : SessionId;
  e_turn_id : option TurnId;
  e_timestamp : DateTime;
  e_payload : EventPayload LP;
}.
Arguments e_seq {LP} _.
Arguments e_id {LP} _.
Arguments e_session_id {LP} _.
Arguments e_turn_id {LP} _.
Arguments e_timestamp {LP} _.
Arguments e_payload {LP} _.

Definition Event_from_stored {LP} (stored : StoredEvent) : Event LP :=
  {| e_seq := Some (se_seq stored); e_id := se_id stored; e_session_id := se_session_id stored;
     e_turn_id := se_turn_id stored; e_timestamp := se_timestamp stored;
     e_payload := Payload_Durable (se_payload stored) |}.

Definition Event_from_live {LP} (event : EventEnvelope LP) : Event LP :=
  {| e_seq := None; e_id := ev_id event; e_session_id := ev_session_id event;
     e_turn_id := ev_turn_id event; e_timestamp := ev_timestamp event;
     e_payload := Payload_Live (ev_payload event) |}.

(** ** The journal ([storage/src/traits.rs]) *)

Class SessionEventJournal (J : Type) := {
  jn_create_session : DurableEvent → J → J * result StoredEvent StorageError;
  jn_append_events : list DurableEvent → J → J * result (list StoredEvent) StorageError;
  jn_append_events_and_sync :
    list DurableEvent → J → J * result (list StoredEvent) StorageError;
  jn_sync_durable_events : SessionId → J → J * result () StorageError;
  jn_retry_uncertain_sync :
    SessionId → N → J → J * result (list StoredEvent) StorageError;
}.

(** ** Commands *)

Definition EVENT_PUBLISH_CAPACITY : nat := 1024.
Definition MAX_DURABLE_BATCH_SIZE : nat := 32.

Inductive DurableCommit := Commit_Create | Commit_Append | Commit_AppendAndSync.
#[export] Instance DurableCommit_eq_dec : EqDecision DurableCommit.
Proof. solve_decision. Defined.

(** A oneshot reply channel. *)
Definition ReplyId : Type := nat.

Inductive PublishCommand (LP : Type) :=
| Cmd_Durable (kind : DurableCommit) (event : DurableEvent) (reply : ReplyId)
| Cmd_Live (event : EventEnvelope LP)
| Cmd_Sync (reply : ReplyId)
| Cmd_RetryUncertainSync (expected_through_seq : N) (reply : ReplyId)
| Cmd_Shutdown (reply : ReplyId).
Arguments Cmd_Durable {LP} kind event reply.
Arguments Cmd_Live {LP} event.
Arguments Cmd_Sync {LP} reply.
Arguments Cmd_RetryUncertainSync {LP} expected_through_seq reply.
Arguments Cmd_Shutdown {LP} reply.

(** What was sent on a reply channel. *)
Inductive Reply :=
| Reply_Stored (r : result StoredEvent SessionEventPublishError)
| Reply_Unit (r : result () SessionEventPublishError).

(** ** The lane *)

Record LaneState (LP J : Type) := {
  ln_journal : J;
  (** the channel, oldest first, and whether it still accepts *)
  ln_queue : list (PublishCommand LP);
  ln_open : bool;
  (** the locals [pending] and [shutdown_reply] of [run_lane] *)
  ln_pending : option (PublishCommand LP);
  ln_shutdown_reply : option ReplyId;
  ln_running : bool;
  (** what the observer and the reply channels got, oldest first *)
  ln_published : list (Event LP);
  ln_replies : list (ReplyId * Reply);
}.
Arguments ln_journal {LP J} _.
Arguments ln_queue {LP J} _.
Arguments ln_open {LP J} _.
Arguments ln_pending {LP J} _.
Arguments ln_shutdown_reply {LP J} _.
Arguments ln_running {LP J} _.
Arguments ln_published {LP J} _.
Arguments ln_replies {LP J} _.

Section lane.
Context {LP J : Type} `{SessionEventJournal J} (session_id : SessionId).
Implicit Types st : LaneState LP J.
Implicit Types c : PublishCommand LP.

(** [SessionEventLane::start]. *)
Definition lane_start (j : J) : LaneState LP J :=
  {| ln_journal := j; ln_queue := []; ln_open := true; ln_pending := None;
     ln_shutdown_reply := None; ln_running := true; ln_published := []; ln_replies := [] |}.

Definition set_journal (j : J) st : LaneState LP J :=
  {| ln_journal := j; ln_queue := ln_queue st; ln_open := ln_open st;
     ln_pending := ln_pending st; ln_shutdown_reply := ln_shutdown_reply st;
     ln_running := ln_running st; ln_published := ln_published st; ln_replies := ln_replies st |}.
Definition set_queue (q : list (PublishCommand LP)) (p : option (PublishCommand LP)) st
    : LaneState LP J :=
  {| ln_journal := ln_journal st; ln_queue := q; ln_open := ln_open st; ln_pending := p;
     ln_shutdown_reply := ln_shutdown_reply st; ln_running := ln_running st;
     ln_published := ln_published st; ln_replies := ln_replies st |}.
(** [observer.publish] and [reply.send]. *)
Definition publish (e : Event LP) st : LaneState LP J :=
  {| ln_journal := ln_journal st; ln_queue := ln_queue st; ln_open := ln_open st;
     ln_pending := ln_pending st; ln_shutdown_reply := ln_shutdown_reply st;
     ln_running := ln_running st; ln_published := ln_published st ++ [e];
     ln_replies := ln_replies st |}.
Definition send_reply (r : ReplyId) (x : Reply) st : LaneState LP J :=
  {| ln_journal := ln_journal st; ln_queue := ln_queue st; ln_open := ln_open st;
     ln_pending := ln_pending st; ln_shutdown_reply := ln_shutdown_reply st;
     ln_running := ln_running st; ln_published := ln_published st;
     ln_replies := ln_replies st ++ [(r, x)] |}.
(** [commands.close()] and the assignment of the shutdown reply. *)
Definition close_channel (reply : option ReplyId) st : LaneState LP J :=
  {| ln_journal := ln_journal st; ln_queue := ln_queue st; ln_open := false;
     ln_pending := ln_pending st; ln_shutdown_reply := reply;
     ln_running := ln_running st; ln_published := ln_published st; ln_replies := ln_replies st |}.
Definition stop_lane st : LaneState LP J :=
  {| ln_journal := ln_journal st; ln_queue := ln_queue st; ln_open := ln_open st;
     ln_pending := ln_pending st; ln_shutdown_reply := None;
     ln_running := false; ln_published := ln_published st; ln_replies := ln_replies st |}.

(** [publish_durable]; the profiling capture is left out. *)
Definition publish_durable (stored : StoredEvent) st : LaneState LP J :=
  publish (Event_from_stored stored) st.

(** [map_err(SessionEventPublishError::from)]. *)
Definition publish_error {A} (r : result A StorageError) : result A SessionEventPublishError :=
  map_err Publish_Storage r.

(** The [while] loop that coalesces appends of one kind: the batch with its replies, the
    rest of the channel, and the command that ended it. *)
Fixpoint gather (room : nat) (kind : DurableCommit) (q : list (PublishCommand LP))
    : list (DurableEvent * ReplyId) * list (PublishCommand LP) * option (PublishCommand LP) :=
  match room, q with
  | S room, Cmd_Durable next_kind event reply :: q' =>
    if decide (next_kind = kind) then
      let '(batch, rest, pending) := gather room kind q' in
      ((event, reply) :: batch, rest, pending)
    else ([], q', Some (Cmd_Durable next_kind event reply))
  | S _, c :: q' => ([], q', Some c)
  | _, _ => ([], q, None)
  end.

(** [stored_events.into_iter().zip(replies)]: publish, then answer. *)
Fixpoint deliver (stored : list StoredEvent) (replies : list ReplyId) st : LaneState LP J :=
  match stored, replies with
  | e :: stored, r :: replies =>
    deliver stored replies (send_reply r (Reply_Stored (Ok e)) (publish_durable e st))
  | _, _ => st
  end.

Fixpoint refuse (error : SessionEventPublishError) (replies : list ReplyId) st : LaneState LP J :=
  match replies with
  | [] => st
  | r :: replies => refuse error replies (send_reply r (Reply_Stored (Err error)) st)
  end.

Definition wrong_batch_length (stored replies : nat) : SessionEventPublishError :=
  Publish_Task ("event journal returned " +:+ pretty stored +:+ " records for a batch of "
    +:+ pretty replies).

Definition sync_lane (reply : ReplyId) st : LaneState LP J :=
  let '(j, r) := jn_sync_durable_events session_id (ln_journal st) in
  send_reply reply (Reply_Unit (publish_error r)) (set_journal j st).

(** [retry_uncertain_sync] of the sink: confirmed events are published. *)
Definition lane_retry_uncertain_sync (expected_through_seq : N) st
    : LaneState LP J * result () SessionEventPublishError :=
  let '(j, r) := jn_retry_uncertain_sync session_id expected_through_seq (ln_journal st) in
  let st := set_journal j st in
  match publish_error r with
  | Err e => (st, Err e)
  | Ok confirmed => (foldl (λ st e, publish_durable e st) st confirmed, Ok ())
  end.

(** The body of the loop of [run_lane] for one command. *)
Definition lane_command (c : PublishCommand LP) st : LaneState LP J :=
  match c with
  | Cmd_Durable Commit_Create event reply =>
    let '(j, r) := jn_create_session event (ln_journal st) in
    let st := set_journal j st in
    match publish_error r with
    | Ok stored => send_reply reply (Reply_Stored (Ok stored)) (publish_durable stored st)
    | Err e => send_reply reply (Reply_Stored (Err e)) st
    end
  | Cmd_Durable kind event reply =>
    let '(more, rest, pending) := gather (MAX_DURABLE_BATCH_SIZE - 1) kind (ln_queue st) in
    let st := set_queue rest pending st in
    let events := event :: map fst more in
    let replies := reply :: map snd more in
    let '(j, r) := match kind with
                   | Commit_AppendAndSync => jn_append_events_and_sync events (ln_journal st)
                   | _ => jn_append_events events (ln_journal st)
                   end in
    let st := set_journal j st in
    match publish_error r with
    | Ok stored =>
      if Nat.eqb (length stored) (length replies) then deliver stored replies st
      else refuse (wrong_batch_length (length stored) (length replies)) replies st
    | Err e => refuse e replies st
    end
  | Cmd_Live event => publish (Event_from_live event) st
  | Cmd_Sync reply => sync_lane reply st
  | Cmd_RetryUncertainSync expected reply =>
    let '(st, r) := lane_retry_uncertain_sync expected st in
    send_reply reply (Reply_Unit r) st
  | Cmd_Shutdown reply =>
    let st := match ln_shutdown_reply st with
              | Some dropped => send_reply dropped (Reply_Unit (Err Publish_Closed)) st
              | None => st
              end in
    close_channel (Some reply) st
  end.

(** One round of the loop of [run_lane]; [None] when the task waits or has ended. *)
Definition lane_iteration st : option (LaneState LP J) :=
  if negb (ln_running st) then None
  else
    match ln_pending st, ln_queue st with
    | Some c, q => Some (lane_command c (set_queue q None st))
    | None, c :: q => Some (lane_command c (set_queue q None st))
    | None, [] =>
      if ln_open st then None
      else
        match ln_shutdown_reply st with
        | Some reply => Some (stop_lane (sync_lane reply st))
        | None => Some (stop_lane st)
        end
    end.

(** The requester's side: [commands.send] while the channel accepts, [Closed] after. *)
Definition reply_of (c : PublishCommand LP) : list ReplyId :=
  match c with
  | Cmd_Durable _ _ r | Cmd_Sync r | Cmd_RetryUncertainSync _ r | Cmd_Shutdown r => [r]
  | Cmd_Live _ => []
  end.
Definition closed_reply (c : PublishCommand LP) (r : ReplyId) : ReplyId * Reply :=
  (r, match c with
      | Cmd_Durable _ _ _ => Reply_Stored (Err Publish_Closed)
      | _ => Reply_Unit (Err Publish_Closed)
      end).
Definition refuse_command (c : PublishCommand LP) st : LaneState LP J :=
  foldl (λ st r, send_reply r (snd (closed_reply c r)) st) st (reply_of c).

(** [SessionEventLane::request] up to its reply: the command is queued, or refused. *)
Definition offer (c : PublishCommand LP) st : LaneState LP J :=
  if ln_open st then set_queue (ln_queue st ++ [c]) (ln_pending st) st else refuse_command c st.

(** A lane and its requesters: [reach j sent st] when the lane started on the journal [j]
    got to [st] and [sent] are the commands requesters offered it, in order.  A round of
    the task is one step: a command that arrives during a round has the same effect as
    one that arrives before or after it. *)
Inductive reach (j : J) : list (PublishCommand LP) → LaneState LP J → Prop :=
| reach_start : reach j [] (lane_start j)
| reach_send sent st c :
    reach j sent st → length (ln_queue st) < EVENT_PUBLISH_CAPACITY →
    reach j (sent ++ [c]) (offer c st)
| reach_dropped sent st :
    (** every sender is gone *)
    reach j sent st → reach j sent (close_channel (ln_shutdown_reply st) st)
| reach_iterate sent st st' :
    reach j sent st → lane_iteration st = Some st' → reach j sent st'.
End lane.
