(* ===== verification/LaneProofs.v ===== *)
(** * Correctness of the event lane

    For every journal that keeps the promises of its trait: the observer sees exactly the
    events that became visible, in the order the requesters sent them; every request is
    answered exactly once; and the lane always drains. *)

From S2P Require Import Prelude CoreTypes CoreLlm CoreEvent StoreTypes TurnFinalize LaneModel.

(** ** What a journal promises

    [view j l p]: readers of [j] see the events [l], and [p] is the batch whose fsync is
    not confirmed. *)
Class LawfulJournal (J : Type) `{SessionEventJournal J} := {
  view : J → list StoredEvent → list StoredEvent → Prop;
  create_ok j l p e j' s :
    view j l p → jn_create_session e j = (j', Ok s) →
    l = [] ∧ p = [] ∧ se_event s = e ∧ view j' [s] [];
  create_err j l p e j' err :
    view j l p → jn_create_session e j = (j', Err err) → view j' l p;
  append_ok j l p es j' ss :
    view j l p → jn_append_events es j = (j', Ok ss) →
    p = [] ∧ map se_event ss = es ∧ view j' (l ++ ss) [];
  append_err j l p es j' err :
    view j l p → jn_append_events es j = (j', Err err) → view j' l p;
  append_and_sync_ok j l p es j' ss :
    view j l p → jn_append_events_and_sync es j = (j', Ok ss) →
    p = [] ∧ map se_event ss = es ∧ view j' (l ++ ss) [];
  append_and_sync_err j l p es j' err :
    view j l p → jn_append_events_and_sync es j = (j', Err err) →
    view j' l p ∨ p = [] ∧ ∃ b, map se_event b = es ∧ view j' l b;
  sync_view j l p sid : view j l p → view (fst (jn_sync_durable_events sid j)) l p;
  retry_ok j l p sid n j' ss :
    view j l p → jn_retry_uncertain_sync sid n j = (j', Ok ss) → ss = p ∧ view j' (l ++ p) [];
  retry_err j l p sid n j' err :
    view j l p → jn_retry_uncertain_sync sid n j = (j', Err err) → view j' l p ∨ view j' l [];
}.

Section lane.
Context {LP J : Type} `{LawfulJournal J} (session_id : SessionId).
Implicit Types st : LaneState LP J.
Implicit Types c : PublishCommand LP.

(** ** Projections of a state *)

(** Commands the task has not served yet, oldest first. *)
Definition waiting st : list (PublishCommand LP) := option_list (ln_pending st) ++ ln_queue st.

(** The durable events among the published ones. *)
Definition durable_only (es : list (Event LP)) : list (Event LP) :=
  filter (λ e, e_seq e ≠ None) es.

(** The durable events commands ask to store. *)
Definition requested (cs : list (PublishCommand LP)) : list DurableEvent :=
  concat (map (λ c, match c with Cmd_Durable _ e _ => [e] | _ => [] end) cs).

(** Replies a state still owes. *)
Definition owed st : list ReplyId :=
  concat (map reply_of (waiting st)) ++ option_list (ln_shutdown_reply st).

Lemma durable_only_app es es' : durable_only (es ++ es') = durable_only es ++ durable_only es'.
Proof. apply filter_app. Qed.

Lemma durable_only_stored ss :
  durable_only (map Event_from_stored ss) = map Event_from_stored ss.
Proof. induction ss as [|s ss IH]; [done|]. cbn [map]. unfold durable_only in *. rewrite filter_cons_True by done. by rewrite IH. Qed.

(** ** The parts of a round *)

Lemma gather_split room kind (q : list (PublishCommand LP)) batch rest pending :
  gather room kind q = (batch, rest, pending) →
  q = map (λ x, Cmd_Durable kind (fst x) (snd x)) batch ++ option_list pending ++ rest.
Proof.
  revert q batch; induction room as [|room IH]; intros q batch; simpl; [by intros [= <- <- <-]|].
  destruct q as [|[k e r|e|r|n r|r] q]; try by intros [= <- <- <-].
  case_decide as Hk; [|by intros [= <- <- <-]].
  destruct (gather room kind q) as [[b1 r1] p1] eqn:Hg. intros [= <- <- <-].
  simpl. by rewrite Hk, <- (IH q b1 Hg).
Qed.

Lemma deliver_spec ss rs st :
  length ss = length rs →
  deliver ss rs st =
    {| ln_journal := ln_journal st; ln_queue := ln_queue st; ln_open := ln_open st;
       ln_pending := ln_pending st; ln_shutdown_reply := ln_shutdown_reply st;
       ln_running := ln_running st;
       ln_published := ln_published st ++ map Event_from_stored ss;
       ln_replies := ln_replies st ++ zip rs (map (λ e, Reply_Stored (Ok e)) ss) |}.
Proof.
  revert rs st; induction ss as [|s ss IH]; intros [|r rs] st Hlen; simpl; try done.
  { rewrite !app_nil_r. by destruct st. }
  rewrite IH by (simpl in Hlen; lia). cbn. by rewrite <- !(assoc_L (++)).
Qed.

Lemma refuse_spec err rs st :
  refuse err rs st =
    {| ln_journal := ln_journal st; ln_queue := ln_queue st; ln_open := ln_open st;
       ln_pending := ln_pending st; ln_shutdown_reply := ln_shutdown_reply st;
       ln_running := ln_running st; ln_published := ln_published st;
       ln_replies := ln_replies st ++ map (λ r, (r, Reply_Stored (Err err))) rs |}.
Proof.
  revert st; induction rs as [|r rs IH]; intros st; simpl.
  { rewrite app_nil_r. by destruct st. }
  rewrite IH. cbn. by rewrite <- !(assoc_L (++)).
Qed.

Lemma publish_all_spec ss st :
  foldl (λ st e, publish_durable e st) st ss =
    {| ln_journal := ln_journal st; ln_queue := ln_queue st; ln_open := ln_open st;
       ln_pending := ln_pending st; ln_shutdown_reply := ln_shutdown_reply st;
       ln_running := ln_running st;
       ln_published := ln_published st ++ map Event_from_stored ss;
       ln_replies := ln_replies st |}.
Proof.
  revert st; induction ss as [|s ss IH]; intros st; simpl.
  { rewrite app_nil_r. by destruct st. }
  rewrite IH. cbn. by rewrite <- !(assoc_L (++)).
Qed.

(** ** One round *)

(** What a round does to a lane whose journal shows [l] with [p] unconfirmed: it serves
    [taken], [new] becomes visible and is published, and the replies it sends are
    [answers]. *)
Definition round st st' l p taken new p' (answers : list (ReplyId * Reply)) : Prop :=
  waiting st = taken ++ waiting st' ∧
  view (ln_journal st') (l ++ new) p' ∧
  durable_only (ln_published st') = durable_only (ln_published st) ++ map Event_from_stored new ∧
  map se_event (new ++ p') `sublist_of` map se_event p ++ requested taken ∧
  ln_replies st' = ln_replies st ++ answers ∧
  (∀ r e, (r, Reply_Stored (Ok e)) ∈ answers →
     e ∈ new ∧ ∃ kind, Cmd_Durable kind (se_event e) r ∈ taken) ∧
  map fst answers ++ option_list (ln_shutdown_reply st')
    ≡ₚ concat (map reply_of taken) ++ option_list (ln_shutdown_reply st).

(** The commands of a batch. *)
Definition batch_commands kind (items : list (DurableEvent * ReplyId)) : list (PublishCommand LP) :=
  map (λ x, Cmd_Durable kind (fst x) (snd x)) items.

Lemma batch_requested kind items : requested (batch_commands kind items) = map fst items.
Proof. induction items as [|x items IH]; [done|]. unfold requested in *. simpl. by rewrite IH. Qed.

Lemma batch_replies kind items :
  concat (map reply_of (batch_commands kind items)) = map snd items.
Proof. induction items as [|x items IH]; [done|]. simpl. by rewrite IH. Qed.

(** Answering a batch with the events stored for it. *)
Lemma batch_answers kind items stored r e :
  map se_event stored = map fst items →
  (r, Reply_Stored (Ok e)) ∈ zip (map snd items) (map (λ e, Reply_Stored (Ok e)) stored) →
  e ∈ stored ∧ Cmd_Durable kind (se_event e) r ∈ batch_commands kind items.
Proof.
  revert stored; induction items as [|[ev r0] items IH]; intros [|s stored]; simpl; try done;
    [set_solver|].
  intros [= Hev Hes] [[= -> ->]|Hin]%elem_of_cons; [rewrite Hev; set_solver|].
  destruct (IH stored Hes Hin). set_solver.
Qed.

(** Outcome of an append of a batch, by what the journal returned. *)
Definition finish_batch (r : result (list StoredEvent) StorageError) (replies : list ReplyId) st :=
  match publish_error r with
  | Ok stored =>
    if Nat.eqb (length stored) (length replies) then deliver stored replies st
    else refuse (wrong_batch_length (length stored) (length replies)) replies st
  | Err e => refuse e replies st
  end.

Lemma batch_round st kind items rest pending l p j r :
  view (ln_journal st) l p →
  waiting st = batch_commands kind items ++ option_list pending ++ rest →
  jn_append_events_and_sync (map fst items) (ln_journal st) = (j, r) ∨
  jn_append_events (map fst items) (ln_journal st) = (j, r) →
  ∃ new p' answers,
    round st (finish_batch r (map snd items) (set_journal j (set_queue rest pending st)))
      l p (batch_commands kind items) new p' answers.
Proof.
  intros Hv Hw Hj. unfold finish_batch. destruct r as [stored|err]; cbn [publish_error map_err].
  - assert (p = [] ∧ map se_event stored = map fst items ∧ view j (l ++ stored) [])
      as (-> & Hes & Hv')
      by (destruct Hj as [Hj|Hj]; [by eapply append_and_sync_ok|by eapply append_ok]).
    assert (length stored = length (map snd items)) as Hlen.
    { pose proof (f_equal length Hes) as Hl. by rewrite !length_map in *. }
    rewrite (proj2 (Nat.eqb_eq _ _) Hlen), deliver_spec by done.
    exists stored, [], (zip (map snd items) (map (λ e, Reply_Stored (Ok e)) stored)).
    unfold round. cbn. rewrite batch_requested, batch_replies, app_nil_r, Hes, durable_only_app,
      durable_only_stored.
    split_and!; try done.
    + intros r e Hin. eapply batch_answers in Hin as [? ?]; [|done]. eauto.
    + change (map fst (zip ?a ?b)) with ((zip a b).*1). rewrite fst_zip; [done|].
      rewrite !length_map in *. lia.
  - rewrite refuse_spec.
    assert (∃ p', view j l p' ∧ map se_event p' `sublist_of` map se_event p ++ map fst items)
      as (p' & Hv' & Hsub).
    { destruct Hj as [Hj|Hj]; [|exists p; split; [by eapply (append_err (ln_journal st))|auto with astr]].
      destruct (append_and_sync_err _ _ _ _ _ _ Hv Hj) as [Hv'|(-> & b & Hb & Hv')].
      - exists p. split; [done|auto with astr].
      - exists b. by rewrite Hb. }
    exists [], p', (map (λ r, (r, Reply_Stored (Err (Publish_Storage err)))) (map snd items)).
    unfold round. cbn. rewrite batch_requested, batch_replies, !app_nil_r.
    split_and!; try done.
    + intros r e (? & [=] & _)%list_elem_of_fmap.
    + by rewrite map_map, map_id.
Qed.

(** The other commands. *)
Lemma create_round st event reply q l p :
  view (ln_journal st) l p → waiting st = Cmd_Durable Commit_Create event reply :: q →
  ∃ new p' answers,
    round st (lane_command session_id (Cmd_Durable Commit_Create event reply)
                (set_queue q None st))
      l p [Cmd_Durable Commit_Create event reply] new p' answers.
Proof.
  intros Hv Hw. cbn. destruct (jn_create_session event (ln_journal st)) as [j [s|err]] eqn:Hj; cbn.
  - destruct (create_ok _ _ _ _ _ _ Hv Hj) as (-> & -> & Hs & Hv').
    exists [s], [], [(reply, Reply_Stored (Ok s))]. unfold round. cbn.
    rewrite Hs, durable_only_app. split_and!; try done.
    intros r e [= -> ->]%list_elem_of_singleton. rewrite Hs. set_solver.
  - pose proof (create_err _ _ _ _ _ _ Hv Hj) as Hv'.
    exists [], p, [(reply, Reply_Stored (Err (Publish_Storage err)))]. unfold round. cbn.
    rewrite !app_nil_r. split_and!; try done; [auto with astr|].
    intros r e [=]%list_elem_of_singleton.
Qed.

Lemma sync_round st reply l p st0 taken :
  view (ln_journal st) l p → waiting st = taken ++ waiting st0 →
  ln_journal st0 = ln_journal st → ln_published st0 = ln_published st →
  ln_replies st0 = ln_replies st →
  reply :: option_list (ln_shutdown_reply st0)
    ≡ₚ concat (map reply_of taken) ++ option_list (ln_shutdown_reply st) →
  ∃ answers, round st (sync_lane session_id reply st0) l p taken [] p answers.
Proof.
  intros Hv Hw Hj Hp Hr Hids. unfold sync_lane. pose proof (sync_view _ l p session_id Hv) as Hs.
  rewrite Hj. destruct (jn_sync_durable_events session_id (ln_journal st)) as [j r].
  exists [(reply, Reply_Unit (publish_error r))]. unfold round. cbn.
  rewrite !app_nil_r, Hp, Hr. split_and!; try done; [auto with astr|].
  intros ? ? [=]%list_elem_of_singleton.
Qed.

Lemma retry_round st n reply q l p :
  view (ln_journal st) l p → waiting st = Cmd_RetryUncertainSync n reply :: q →
  ∃ new p' answers,
    round st (lane_command session_id (Cmd_RetryUncertainSync n reply)
                (set_queue q None st))
      l p [Cmd_RetryUncertainSync n reply] new p' answers.
Proof.
  intros Hv Hw. cbn. unfold lane_retry_uncertain_sync. cbn.
  destruct (jn_retry_uncertain_sync session_id n (ln_journal st)) as [j [ss|err]] eqn:Hj; cbn.
  - destruct (retry_ok _ _ _ _ _ _ _ Hv Hj) as (-> & Hv'). rewrite publish_all_spec.
    exists p, [], [(reply, Reply_Unit (Ok ()))]. unfold round. cbn.
    rewrite !app_nil_r, durable_only_app, durable_only_stored. split_and!; try done.
    intros ? ? [=]%list_elem_of_singleton.
  - pose proof (retry_err _ _ _ _ _ _ _ Hv Hj) as He.
    assert (∃ p', view j l p' ∧ map se_event p' `sublist_of` map se_event p) as (p' & Hv' & Hs).
    { destruct He; [by exists p|exists []; auto with astr]. }
    exists [], p', [(reply, Reply_Unit (Err (Publish_Storage err)))]. unfold round. cbn.
    rewrite !app_nil_r. split_and!; try done. intros ? ? [=]%list_elem_of_singleton.
Qed.

Lemma live_round st event q l p :
  view (ln_journal st) l p → waiting st = Cmd_Live event :: q →
  round st (lane_command session_id (Cmd_Live event) (set_queue q None st))
    l p [Cmd_Live event] [] p [].
Proof.
  intros Hv Hw. unfold round. cbn. rewrite !app_nil_r, durable_only_app, app_nil_r.
  split_and!; try done. set_solver.
Qed.

Lemma shutdown_round st reply q l p :
  view (ln_journal st) l p → waiting st = Cmd_Shutdown reply :: q →
  ∃ answers,
    round st (lane_command session_id (Cmd_Shutdown reply) (set_queue q None st))
      l p [Cmd_Shutdown reply] [] p answers.
Proof.
  intros Hv Hw. unfold round. cbn. destruct (ln_shutdown_reply st) as [old|]; cbn.
  - exists [(old, Reply_Unit (Err Publish_Closed))]. rewrite !app_nil_r. cbn.
    split_and!; try done; [|by apply Permutation_swap]. intros ? ? [=]%list_elem_of_singleton.
  - exists []. rewrite !app_nil_r. split_and!; try done. set_solver.
Qed.

(** A durable command that is not a creation, in terms of its batch. *)
Lemma append_command kind event reply q st :
  kind ≠ Commit_Create →
  ∃ items rest pending j r, 0 < length items ∧
    lane_command session_id (Cmd_Durable kind event reply) (set_queue q None st)
      = finish_batch r (map snd items) (set_journal j (set_queue rest pending st)) ∧
    Cmd_Durable kind event reply :: q = batch_commands kind items ++ option_list pending ++ rest ∧
    (jn_append_events_and_sync (map fst items) (ln_journal st) = (j, r) ∨
     jn_append_events (map fst items) (ln_journal st) = (j, r)).
Proof.
  intros Hk.
  destruct (gather (MAX_DURABLE_BATCH_SIZE - 1) kind q) as [[more rest] pending] eqn:Hg.
  destruct (match kind with
            | Commit_AppendAndSync =>
              jn_append_events_and_sync (event :: map fst more) (ln_journal st)
            | _ => jn_append_events (event :: map fst more) (ln_journal st)
            end) as [j r] eqn:Hj.
  exists ((event, reply) :: more), rest, pending, j, r. split_and!; [simpl; lia|..].
  - unfold lane_command. destruct kind; [done|..]; cbn [ln_queue set_queue]; rewrite Hg;
      cbn [ln_journal set_queue]; by rewrite Hj.
  - apply gather_split in Hg. by rewrite Hg.
  - destruct kind; [done|by right|by left].
Qed.

Lemma append_round st kind event reply q l p :
  kind ≠ Commit_Create → view (ln_journal st) l p →
  waiting st = Cmd_Durable kind event reply :: q →
  ∃ taken new p' answers,
    round st (lane_command session_id (Cmd_Durable kind event reply) (set_queue q None st))
      l p taken new p' answers.
Proof.
  intros Hk Hv Hw.
  destruct (append_command kind event reply q st Hk) as (items & rest & pending & j & r & _ & -> & Hq & Hj).
  eexists. apply (batch_round st kind items rest pending l p j r Hv); [|done]. by rewrite Hw.
Qed.

(** Every round of the task serves a command, or is the last one. *)
Lemma iteration_round st st' l p :
  lane_iteration session_id st = Some st' → view (ln_journal st) l p →
  ∃ taken new p' answers, round st st' l p taken new p' answers.
Proof.
  unfold lane_iteration. destruct (negb (ln_running st)); [done|]. intros Hit Hv.
  assert (∀ c q, waiting st = c :: q → Some (lane_command session_id c (set_queue q None st)) = Some st' →
    ∃ taken new p' answers, round st st' l p taken new p' answers) as Hcmd.
  { intros c q Hw [= <-]. destruct c as [kind e r|e|r|n r|r].
    - destruct (decide (kind = Commit_Create)) as [->|]; [|by apply append_round].
      eexists. by apply create_round.
    - eexists _, _, _, _. by apply live_round.
    - eexists [Cmd_Sync r], [], p. by apply sync_round.
    - eexists. by apply retry_round.
    - eexists _, _, _. by apply shutdown_round. }
  destruct (ln_pending st) as [c|] eqn:Hp; [|destruct (ln_queue st) as [|c q] eqn:Hq].
  - apply (Hcmd c (ln_queue st)); [|done]. unfold waiting. by rewrite Hp.
  - destruct (ln_open st); [done|].
    destruct (ln_shutdown_reply st) as [reply|] eqn:Hr; injection Hit as <-.
    + assert (stop_lane (sync_lane session_id reply st) = sync_lane session_id reply (stop_lane st))
        as -> by (unfold sync_lane; cbn; by destruct (jn_sync_durable_events _ _)).
      eexists [], [], p. apply sync_round; try done. by rewrite Hr.
    + exists [], [], p, []. unfold round. cbn. rewrite !app_nil_r, Hr. split_and!; try done. set_solver.
  - apply (Hcmd c q); [|done]. unfold waiting. by rewrite Hp, Hq.
Qed.

(** ** The invariant *)

Definition lane_inv (l0 p0 : list StoredEvent) (sent : list (PublishCommand LP)) st : Prop :=
  ∃ l p done rest,
    view (ln_journal st) (l0 ++ l) p ∧
    durable_only (ln_published st) = map Event_from_stored l ∧
    sent = done ++ rest ∧ waiting st `sublist_of` rest ∧
    map se_event (l ++ p) `sublist_of` map se_event p0 ++ requested done ∧
    (∀ r e, (r, Reply_Stored (Ok e)) ∈ ln_replies st →
       e ∈ l ∧ ∃ kind, Cmd_Durable kind (se_event e) r ∈ done) ∧
    map fst (ln_replies st) ++ owed st ≡ₚ concat (map reply_of sent).

Lemma requested_app cs cs' : requested (cs ++ cs') = requested cs ++ requested cs'.
Proof. unfold requested. by rewrite map_app, concat_app. Qed.

Lemma requested_sublist cs cs' : cs `sublist_of` cs' → requested cs `sublist_of` requested cs'.
Proof.
  induction 1 as [|c cs cs' _ IH|c cs cs' _ IH]; [done|by apply sublist_app|].
  by apply sublist_inserts_l.
Qed.

Lemma lane_inv_iterate l0 p0 sent st st' :
  lane_inv l0 p0 sent st → lane_iteration session_id st = Some st' → lane_inv l0 p0 sent st'.
Proof.
  intros (l & p & dn & rest & Hv & Hpub & -> & Hsub & Hord & Hok & Hids) Hit.
  destruct (iteration_round _ _ _ _ Hit Hv)
    as (taken & new & p' & answers & Hw & Hv' & Hpub' & Hord' & Hrep & Hok' & Hids').
  rewrite Hw in Hsub. apply sublist_app_l in Hsub as (r1 & r2 & -> & Hs1 & Hs2).
  exists (l ++ new), p', (dn ++ r1), r2. split_and!.
  - by rewrite (assoc_L (++)).
  - by rewrite Hpub', Hpub, map_app.
  - by rewrite (assoc_L (++)).
  - done.
  - rewrite <- (assoc_L (++)), map_app, requested_app. rewrite map_app in Hord.
    etrans; [apply sublist_app; [reflexivity|exact Hord']|]. rewrite !(assoc_L (++)).
    apply sublist_app; [done|by apply requested_sublist].
  - intros r e. rewrite Hrep. intros [Hin|Hin]%elem_of_app.
    + destruct (Hok r e Hin) as (? & k & ?). split; [set_solver|exists k; set_solver].
    + destruct (Hok' r e Hin) as (? & k & Hk). split; [set_solver|]. exists k.
      apply elem_of_app. right. by eapply elem_of_sublist.
  - rewrite <- Hids. unfold owed in *. rewrite Hrep, map_app, Hw, map_app, concat_app.
    rewrite <- !(assoc_L (++)). f_equiv.
    rewrite (Permutation_app_swap_app (map fst answers)), Hids'.
    by rewrite Permutation_app_swap_app.
Qed.

Lemma perm_send {A} (a w c sh : list A) : a ++ (w ++ c) ++ sh ≡ₚ (a ++ w ++ sh) ++ c.
Proof. rewrite <- !(assoc_L (++)). by rewrite (Permutation_app_comm c sh). Qed.
Lemma perm_refuse {A} (a c o : list A) : (a ++ c) ++ o ≡ₚ (a ++ o) ++ c.
Proof. rewrite <- !(assoc_L (++)). by rewrite (Permutation_app_comm c o). Qed.

(** Refusing a command answers it. *)
Lemma refuse_command_spec c st :
  refuse_command c st =
    {| ln_journal := ln_journal st; ln_queue := ln_queue st; ln_open := ln_open st;
       ln_pending := ln_pending st; ln_shutdown_reply := ln_shutdown_reply st;
       ln_running := ln_running st; ln_published := ln_published st;
       ln_replies := ln_replies st ++ map (closed_reply c) (reply_of c) |}.
Proof. destruct c; simpl; by rewrite ?app_nil_r; destruct st. Qed.

Lemma reach_inv j sent st l0 p0 :
  reach session_id j sent st → view j l0 p0 → lane_inv l0 p0 sent st.
Proof.
  intros Hr Hv. induction Hr as [|sent st c Hr IH Hcap|sent st Hr IH|sent st st' Hr IH Hit];
    [|unfold offer; destruct (ln_open st)| |by eapply lane_inv_iterate].
  - exists [], p0, [], []. rewrite app_nil_r. cbn. split_and!; try done; [auto with astr|].
    set_solver.
  - destruct IH as (l & p & dn & rest & Hv' & Hpub & -> & Hsub & Hord & Hok & Hids).
    exists l, p, dn, (rest ++ [c]). unfold waiting, owed in *. cbn.
    split_and!; try done; [by rewrite (assoc_L (++))| |].
    + rewrite (assoc_L (++)). by apply sublist_app.
    + rewrite (map_app _ (dn ++ rest)), concat_app, <- Hids.
      unfold waiting at 1. cbn. rewrite (assoc_L (++) (option_list _)), (map_app _ (_ ++ _) [c]),
        concat_app. apply perm_send.
  - destruct IH as (l & p & dn & rest & Hv' & Hpub & -> & Hsub & Hord & Hok & Hids).
    rewrite refuse_command_spec. exists l, p, dn, (rest ++ [c]). unfold waiting, owed in *. cbn.
    split_and!; try done; [by rewrite (assoc_L (++))|auto with astr| |].
    + intros r e [Hin|Hin]%elem_of_app; [by apply Hok|]. by destruct c; set_solver.
    + rewrite (map_app _ (dn ++ rest)), concat_app, <- Hids, map_app.
      assert (map fst (map (closed_reply c) (reply_of c)) = concat (map reply_of [c])) as ->
        by (by destruct c).
      apply perm_refuse.
  - done.
Qed.

(** ** Progress *)

Lemma finish_batch_frame r rs st :
  ln_running (finish_batch r rs st) = ln_running st ∧ waiting (finish_batch r rs st) = waiting st.
Proof.
  unfold finish_batch. destruct (publish_error r) as [stored|]; [|by rewrite refuse_spec].
  destruct (Nat.eqb (length stored) (length rs)) eqn:Hl; [|by rewrite refuse_spec].
  apply Nat.eqb_eq in Hl. by rewrite deliver_spec.
Qed.

(** The parts of the state a command leaves alone. *)
Lemma command_frame c q st :
  let st' := lane_command session_id c (set_queue q None st) in
  ln_running st' = ln_running st ∧ length (waiting st') ≤ length q.
Proof.
  destruct c as [kind e r|e|r|n r|r]; [|done|..|cbn; by destruct (ln_shutdown_reply st)].
  - destruct (decide (kind = Commit_Create)) as [->|Hk].
    { cbn. by destruct (jn_create_session _ _) as [j [s|]]. }
    destruct (append_command kind e r q st Hk) as (items & rest & pending & j & r' & Hlen & -> & Hq & _).
    intros st'. destruct (finish_batch_frame r' (map snd items)
      (set_journal j (set_queue rest pending st))) as (Hrun & Hw).
    subst st'. rewrite Hrun, Hw. apply (f_equal length) in Hq.
    rewrite length_app in Hq. unfold batch_commands in Hq. rewrite length_map in Hq.
    unfold waiting. cbn in *. split; [done|lia].
  - cbn. unfold sync_lane. by destruct (jn_sync_durable_events _ _).
  - cbn. unfold lane_retry_uncertain_sync.
    destruct (jn_retry_uncertain_sync _ _ _) as [j [ss|]]; cbn; [by rewrite publish_all_spec|done].
Qed.

(** A stopped lane owes nothing. *)
Lemma stopped_inv j sent st :
  reach session_id j sent st → ln_running st = false →
  waiting st = [] ∧ ln_shutdown_reply st = None ∧ ln_open st = false.
Proof.
  induction 1 as [|sent st c Hr IH Hcap|sent st Hr IH|sent st st' Hr IH Hit];
    [done|unfold offer; destruct (ln_open st) eqn:Hopen|..].
  - cbn. intros Hrun. destruct (IH Hrun) as (_ & _ & Hc). congruence.
  - rewrite refuse_command_spec. cbn. intros Hrun. by destruct (IH Hrun) as (? & ? & _).
  - cbn. intros Hrun. by destruct (IH Hrun) as (? & -> & _).
  - unfold lane_iteration in Hit. destruct (ln_running st) eqn:Hrun; [|done]. cbn in Hit.
    destruct (ln_pending st) as [c|] eqn:Hp; [|destruct (ln_queue st) as [|c q] eqn:Hq];
      [injection Hit as <-; rewrite (proj1 (command_frame _ _ _)); congruence
      | |injection Hit as <-; rewrite (proj1 (command_frame _ _ _)); congruence].
    intros _. destruct (ln_open st) eqn:Ho; [done|].
    destruct (ln_shutdown_reply st); injection Hit as <-; unfold waiting, sync_lane; cbn;
      [destruct (jn_sync_durable_events _ _); cbn|]; by rewrite Hp, Hq, Ho.
Qed.

(** Rounds of the task until it waits, at most [n]. *)
Fixpoint lane_run (n : nat) st : LaneState LP J :=
  match n with
  | 0 => st
  | S n =>
    match lane_iteration session_id st with
    | Some st' => lane_run n st'
    | None => st
    end
  end.

Lemma lane_run_reach n j sent st : reach session_id j sent st → reach session_id j sent (lane_run n st).
Proof.
  revert st; induction n as [|n IH]; intros st Hr; [done|]. simpl.
  destruct (lane_iteration session_id st) eqn:Hi; [|done]. apply IH. by eapply reach_iterate.
Qed.

(** A round shortens what waits, or ends the task. *)
Lemma iteration_progress st st' :
  lane_iteration session_id st = Some st' →
  length (waiting st') < length (waiting st) ∨ waiting st' = [] ∧ ln_running st' = false.
Proof.
  unfold lane_iteration. destruct (negb (ln_running st)); [done|].
  destruct (ln_pending st) as [c|] eqn:Hp; [|destruct (ln_queue st) as [|c q] eqn:Hq].
  - intros [= <-]. destruct (command_frame c (ln_queue st) st) as (_ & Hw).
    left. unfold waiting at 2. rewrite Hp. simpl. lia.
  - destruct (ln_open st) eqn:Ho; [done|].
    destruct (ln_shutdown_reply st); intros [= <-]; unfold waiting, sync_lane; cbn;
      [destruct (jn_sync_durable_events _ _); cbn|]; rewrite Hp, Hq; auto.
  - intros [= <-]. destruct (command_frame c q st) as (_ & Hw).
    left. unfold waiting at 2. rewrite Hp, Hq. simpl. lia.
Qed.

(** A task that waits has nothing to serve. *)
Lemma iteration_waits j sent st :
  reach session_id j sent st → lane_iteration session_id st = None →
  waiting st = [] ∧ (ln_open st = false → ln_running st = false).
Proof.
  intros Hr. unfold lane_iteration. destruct (ln_running st) eqn:Hrun; simpl.
  - destruct (ln_pending st) eqn:Hp, (ln_queue st) eqn:Hq; try done.
    destruct (ln_open st) eqn:Ho; [|by destruct (ln_shutdown_reply st)].
    intros _. unfold waiting. by rewrite Hp, Hq.
  - intros _. by destruct (stopped_inv _ _ _ Hr Hrun) as (-> & _ & _).
Qed.

Lemma lane_run_waits n j sent st :
  reach session_id j sent st → length (waiting st) < n →
  lane_iteration session_id (lane_run n st) = None.
Proof.
  revert st; induction n as [|n IH]; intros st Hr Hn; [lia|]. simpl.
  destruct (lane_iteration session_id st) as [st'|] eqn:Hi; [|done].
  pose proof (reach_iterate _ _ _ _ _ Hr Hi) as Hr'.
  destruct (iteration_progress _ _ Hi) as [Hlt|[Hw Hstop]].
  - apply IH; [done|lia].
  - assert (lane_iteration session_id st' = None) as Hnone
      by (unfold lane_iteration; by rewrite Hstop).
    assert (lane_run n st' = st') as -> by (destruct n; simpl; by rewrite ?Hnone).
    done.
Qed.

(** ** Properties *)

(** C10. The observer sees the visible log: whatever requesters send and however their
    appends are coalesced, the durable events a lane publishes are exactly the events
    that became visible in the journal since it started, in the journal's order and in
    the order requesters sent them; an append is answered with success only when its own
    event, as stored, is visible and published. *)
Theorem lane_publishes_visible_log j sent st l0 p0 :
  reach session_id j sent st → view j l0 p0 →
  ∃ l p, view (ln_journal st) (l0 ++ l) p ∧
    durable_only (ln_published st) = map Event_from_stored l ∧
    map se_event (l ++ p) `sublist_of` map se_event p0 ++ requested sent ∧
    ∀ r e, (r, Reply_Stored (Ok e)) ∈ ln_replies st →
      e ∈ l ∧ ∃ kind, Cmd_Durable kind (se_event e) r ∈ sent.
Proof.
  intros Hr Hv.
  destruct (reach_inv _ _ _ _ _ Hr Hv) as (l & p & dn & rest & Hv' & Hpub & -> & _ & Hord & Hok & _).
  exists l, p. split_and!; [done..| |].
  - rewrite requested_app, (assoc_L (++)). auto with astr.
  - intros r e Hin. destruct (Hok r e Hin) as (? & k & ?). split; [done|]. exists k. set_solver.
Qed.

(** Every request is answered exactly once and the lane drains: the answers sent and
    the ones still owed are the reply channels of the requests; the task serves
    everything that waits in at most one round per waiting command and one more; and
    when the channel is closed it then stops, and every request was answered. *)
Theorem lane_answers_everything j sent st l0 p0 :
  reach session_id j sent st → view j l0 p0 →
  map fst (ln_replies st) ++ owed st ≡ₚ concat (map reply_of sent) ∧
  let st' := lane_run (S (length (waiting st))) st in
  reach session_id j sent st' ∧ lane_iteration session_id st' = None ∧ waiting st' = [] ∧
  (ln_open st' = false →
   ln_running st' = false ∧ map fst (ln_replies st') ≡ₚ concat (map reply_of sent)).
Proof.
  intros Hr Hv. split.
  { by destruct (reach_inv _ _ _ _ _ Hr Hv) as (l & p & dn & rest & _ & _ & _ & _ & _ & _ & Hids). }
  intros st'. pose proof (lane_run_reach (S (length (waiting st))) _ _ _ Hr) as Hr'.
  pose proof (lane_run_waits (S (length (waiting st))) _ _ _ Hr ltac:(lia)) as Hnone.
  destruct (iteration_waits _ _ _ Hr' Hnone) as [Hw Hstop].
  split_and!; [done..|]. intros Hclosed. specialize (Hstop Hclosed). split; [done|].
  destruct (stopped_inv _ _ _ Hr' Hstop) as (_ & Hsh & _).
  destruct (reach_inv _ _ _ _ _ Hr' Hv) as (l & p & dn & rest & _ & _ & _ & _ & _ & _ & Hids).
  unfold owed in Hids. by rewrite Hw, Hsh, app_nil_r in Hids.
Qed.
End lane.
