(* ===== verification/LaneJournal.v ===== *)
(** * The journal behind the lane

    The operations of an opened session, as the repository implements the trait
    [SessionEventJournal] for it, keep the promises the lane relies on; so what the
    observer of a stored session sees is its visible log. *)

From S2P Require Import Prelude Utf8 CoreTypes CoreLlm CoreEvent ProjViews ProjContext ProjReducer ProjReplay StoreTypes StoreLog StoreRecovery StoreRepo StoreJournal TurnFinalize TurnRepair LaneModel LaneProofs.

Section lane_journal.
Context `{EventCodec} (to_json : LlmMessage → result string string) (sid : SessionId).

(** The environment answers call number [js_calls]; creating a session that is open finds
    its file. *)
#[local] Instance journal_operations : SessionEventJournal JournalSession := {|
  jn_create_session event s :=
    match snd (create_session to_json (w_path (log (js_meta s))) event
                 (Some (w_file (log (js_meta s)))) Create_Ok) with
    | Ok (m, e) => (js_next m s, Ok e)
    | Err err => (js_next (js_meta s) s, Err err)
    end;
  jn_append_events events s :=
    match append_session_id events with
    | Err err => (js_next (js_meta s) s, Err err)
    | Ok _ =>
      let '(m, r) := append_events to_json sid events (env_write (js_env s (js_calls s)))
                       (js_meta s) in
      (js_next m s, r)
    end;
  jn_append_events_and_sync events s :=
    match append_session_id events with
    | Err err => (js_next (js_meta s) s, Err err)
    | Ok _ =>
      let '(m, r) := append_events_and_sync to_json sid events
                       (env_write (js_env s (js_calls s))) (env_sync (js_env s (js_calls s)))
                       (js_meta s) in
      (js_next m s, r)
    end;
  jn_sync_durable_events session_id s :=
    let '(m, r) := sync_durable_events session_id (env_sync (js_env s (js_calls s)))
                     (js_meta s) in
    (js_next m s, r);
  jn_retry_uncertain_sync session_id n s :=
    let '(m, r) := retry_uncertain_sync session_id n (env_sync (js_env s (js_calls s)))
                     (js_meta s) in
    (js_next m s, r);
|}.

(** Readers see [l]: the projection is its replay.  A pending batch was prepared on it. *)
Definition meta_view (m : SessionMeta) (l p : list StoredEvent) : Prop :=
  replay to_json sid l = Ok (projection m) ∧ p = pending_events m ∧
  match uncertain_durability m with
  | Some (PendingProjection b _ _) => ∃ events, prepare to_json (projection m) events = Ok b
  | _ => True
  end.

Lemma meta_view_same m m' l p :
  meta_view m l p → projection m' = projection m →
  uncertain_durability m' = uncertain_durability m → meta_view m' l p.
Proof. unfold meta_view, pending_events. by intros ? -> ->. Qed.

(** A batch prepared on the projection extends what readers see once it is applied. *)
Lemma applied_view m m' l events b :
  replay to_json sid l = Ok (projection m) → prepare to_json (projection m) events = Ok b →
  projection m' = fst (apply_to_model b (projection m)) → uncertain_durability m' = None →
  meta_view m' (l ++ batch_events b) [].
Proof.
  intros Hr Hp Hproj Hu. unfold meta_view, pending_events. rewrite Hproj, Hu.
  by destruct (prepared_batch to_json sid l (projection m) events b Hr Hp)
    as (_ & _ & _ & _ & _ & _ & ?).
Qed.

Lemma prepared_events m events b :
  prepare to_json m events = Ok b → map se_event (batch_events b) = events.
Proof.
  intros (_ & _ & -> & _)%prepare_Ok. generalize (first_seq b) as n.
  induction events as [|e events IH]; intros n; simpl; [done|]. by rewrite IH.
Qed.

(** Writing and syncing touch only the log. *)
Lemma append_prepared_frame b w m m' r :
  append_prepared_batch b w m = (m', r) →
  projection m' = projection m ∧ uncertain_durability m' = uncertain_durability m ∧
  match r with Ok c => c = b | Err _ => True end.
Proof.
  unfold append_prepared_batch. destruct (append_stored_batch _ _ _) as [l [u|e]];
    by intros [= <- <-].
Qed.

Lemma force_sync_frame sync m m' r :
  force_sync sync m = (m', r) →
  projection m' = projection m ∧ uncertain_durability m' = uncertain_durability m.
Proof. unfold force_sync. destruct (flush_and_sync sync (log m)). by intros [= <- <-]. Qed.

Lemma fail_uncertain_view session_id n reason m l p :
  meta_view m l p → meta_view (fst (fail_uncertain session_id n reason m)) l p.
Proof.
  unfold fail_uncertain, meta_view, pending_events.
  intros Hv. destruct (uncertain_durability m) as [u|] eqn:Hu; [|simpl; by rewrite Hu].
  destruct (bool_decide _); simpl; [by rewrite Hu|]. by destruct u.
Qed.

Lemma confirmed_view n m m' r l p :
  meta_view m l p → apply_confirmed_projection n m = (m', r) →
  match r with
  | Ok ss => ss = p ∧ meta_view m' (l ++ p) []
  | Err _ => meta_view m' l p ∨ meta_view m' l []
  end.
Proof.
  intros Hv. pose proof Hv as (Hr & Hp & Hm). unfold apply_confirmed_projection, take_uncertain.
  destruct (uncertain_durability m) as [u|] eqn:Hu; [|by intros [= <- <-]; left].
  destruct (bool_decide (ud_through_seq u = n)); [|by intros [= <- <-]; left].
  assert (meta_view (put_uncertain None m) l []) as Hcleared by done.
  destruct u as [b k reason|k reason]; unfold pending_events in Hp; rewrite Hu in Hp; subst p.
  2: { intros [= <- <-]. by rewrite app_nil_r. }
  assert (meta_view (set_uncertain (PendingProjection b k reason) (put_uncertain None m)) l
    (batch_events b)) as Hkept by done.
  destruct Hm as [events Hprep].
  destruct (checked_add u64_max k 1); [|intros [= <- <-]; by right].
  destruct (bool_decide _); [intros [= <- <-]; by left|].
  destruct (checked_add u64_max _ 1); [|intros [= <- <-]; by right].
  destruct (bool_decide _); [intros [= <- <-]; by left|].
  intros [= <- <-]. split; [done|]. by apply (applied_view m _ l events b).
Qed.

(** ** The operations *)

Lemma append_events_view events w m m' r l p :
  meta_view m l p → append_events to_json sid events w m = (m', r) →
  match r with
  | Ok ss => p = [] ∧ map se_event ss = events ∧ meta_view m' (l ++ ss) []
  | Err _ => meta_view m' l p
  end.
Proof.
  intros Hv. unfold append_events.
  destruct (admit_batch to_json sid events m) as [b|] eqn:Ha; [|by intros [= <- <-]].
  apply admit_batch_Ok in Ha as [Hu Hprep]. pose proof Hv as (Hr & -> & _).
  destruct (append_prepared_batch b w m) as [m1 r1] eqn:Hw.
  apply append_prepared_frame in Hw as (Hproj & Hu1 & Hb).
  destruct r1 as [c|]; intros [= <- <-]; [subst c|by eapply meta_view_same].
  split_and!; [unfold pending_events; by rewrite Hu|by eapply prepared_events|].
  eapply (applied_view m); [done..| |]; simpl; [by rewrite Hproj|congruence].
Qed.

Lemma append_and_sync_view events w sync m m' r l p :
  meta_view m l p → append_events_and_sync to_json sid events w sync m = (m', r) →
  match r with
  | Ok ss => p = [] ∧ map se_event ss = events ∧ meta_view m' (l ++ ss) []
  | Err _ => meta_view m' l p ∨ p = [] ∧ ∃ b, map se_event b = events ∧ meta_view m' l b
  end.
Proof.
  intros Hv. unfold append_events_and_sync.
  destruct (admit_batch to_json sid events m) as [b|] eqn:Ha; [|by intros [= <- <-]; left].
  apply admit_batch_Ok in Ha as [Hu Hprep]. pose proof Hv as (Hr & -> & _).
  destruct (append_prepared_batch b w m) as [m1 r1] eqn:Hw.
  apply append_prepared_frame in Hw as (Hproj & Hu1 & Hb).
  destruct r1 as [c|]; [subst c|intros [= <- <-]; left; by eapply meta_view_same].
  destruct (se_seq <$> last (batch_events b)) as [n|];
    [|intros [= <- <-]; left; by eapply meta_view_same].
  set (m2 := set_uncertain (PendingProjection b n FSYNC_CONFIRMATION_PENDING) m1).
  assert (meta_view m2 l (batch_events b)) as Hv2.
  { unfold meta_view, pending_events. cbn. rewrite Hproj. by eauto. }
  assert (pending_events m = []) as -> by (unfold pending_events; by rewrite Hu).
  pose proof (prepared_events _ _ _ Hprep) as Hev.
  destruct (force_sync sync m2) as [m3 [u|e]] eqn:Hs; apply force_sync_frame in Hs as [Hp3 Hu3];
    pose proof (meta_view_same m2 m3 l _ Hv2 Hp3 Hu3) as Hv3.
  - intros Hc. pose proof (confirmed_view _ _ _ _ _ _ Hv3 Hc) as Hres. destruct r as [ss|].
    + destruct Hres as [-> ?]. done.
    + destruct Hres; [right; eauto|by left].
  - pose proof (fail_uncertain_view sid n (StorageError_to_string e) m3 l _ Hv3) as Hv4.
    destruct (fail_uncertain sid n (StorageError_to_string e) m3) as [m4 e4]. intros [= <- <-].
    right. eauto.
Qed.

Lemma sync_durable_view session_id sync m l p :
  meta_view m l p → meta_view (fst (sync_durable_events session_id sync m)) l p.
Proof.
  intros Hv. unfold sync_durable_events, ensure_no_uncertain_durability.
  destruct (uncertain_durability m) as [u|] eqn:Hu; [done|].
  destruct (checked_sub _ 1) as [n|]; [|done].
  set (m1 := set_uncertain (Published n FSYNC_CONFIRMATION_PENDING) m).
  assert (meta_view m1 l p) as Hv1.
  { destruct Hv as (Hr & -> & _). unfold meta_view, pending_events. cbn. by rewrite Hu. }
  destruct (force_sync sync m1) as [m2 [u|e]] eqn:Hs; apply force_sync_frame in Hs as [Hp2 Hu2];
    pose proof (meta_view_same m1 m2 l _ Hv1 Hp2 Hu2) as Hv2.
  - unfold take_uncertain. rewrite Hu2. cbn. rewrite bool_decide_true by done. cbn.
    destruct Hv2 as (Hr2 & -> & _). unfold meta_view, pending_events. cbn. by rewrite Hu2.
  - pose proof (fail_uncertain_view session_id n (StorageError_to_string e) m2 l _ Hv2) as Hv3.
    by destruct (fail_uncertain _ _ _ _).
Qed.

Lemma retry_view session_id n sync m m' r l p :
  meta_view m l p → retry_uncertain_sync session_id n sync m = (m', r) →
  match r with
  | Ok ss => ss = p ∧ meta_view m' (l ++ p) []
  | Err _ => meta_view m' l p ∨ meta_view m' l []
  end.
Proof.
  intros Hv. unfold retry_uncertain_sync, pending_through_seq.
  destruct (uncertain_durability m) as [u|] eqn:Hu; simpl.
  - destruct (bool_decide _); [intros [= <- <-]; by left|].
    destruct (force_sync sync m) as [m2 [x|e]] eqn:Hs; apply force_sync_frame in Hs as [Hp2 Hu2];
      pose proof (meta_view_same m m2 l _ Hv Hp2 Hu2) as Hv2; [by apply confirmed_view|].
    pose proof (fail_uncertain_view session_id n (StorageError_to_string e) m2 l _ Hv2) as Hv3.
    destruct (fail_uncertain _ _ _ _). intros [= <- <-]. by left.
  - assert (p = []) as -> by (destruct Hv as (_ & -> & _); unfold pending_events; by rewrite Hu).
    destruct (checked_add u64_max n 1); [|intros [= <- <-]; by left].
    destruct (_ && _); intros [= <- <-]; [by rewrite app_nil_r|by left].
Qed.

(** An open session exists: it cannot be created again. *)
Lemma create_existing path event file outcome :
  ∃ e, snd (create_session to_json path event (Some file) outcome) = Err e.
Proof.
  unfold create_session. destruct (validate_storage_session_id _); [|by eexists].
  destruct (has_turn event); [by eexists|].
  destruct (is_session_started _); simpl; [|by eexists].
  unfold create_at_path. destruct (_ || _); [by eexists|]. by eexists.
Qed.

Definition lane_view (s : JournalSession) (l p : list StoredEvent) : Prop := meta_view (js_meta s) l p.

#[local] Instance journal_lawful_lane : LawfulJournal JournalSession.
Proof.
  refine {| view := lane_view |}; unfold lane_view; cbn.
  - intros s l p e s' st Hv. destruct (create_existing (w_path (log (js_meta s))) e
      (w_file (log (js_meta s))) Create_Ok) as [err ->]. done.
  - intros s l p e s' err Hv. destruct (create_existing (w_path (log (js_meta s))) e
      (w_file (log (js_meta s))) Create_Ok) as [err' ->]. by intros [= <- _].
  - intros s l p es s' ss Hv. destruct (append_session_id es); [|done].
    destruct (append_events _ _ _ _ _) as [m r] eqn:Ha. intros [= <- ->].
    by apply (append_events_view _ _ _ _ _ _ _ Hv Ha).
  - intros s l p es s' err Hv. destruct (append_session_id es); [|by intros [= <- _]].
    destruct (append_events _ _ _ _ _) as [m r] eqn:Ha. intros [= <- ->].
    by apply (append_events_view _ _ _ _ _ _ _ Hv Ha).
  - intros s l p es s' ss Hv. destruct (append_session_id es); [|done].
    destruct (append_events_and_sync _ _ _ _ _ _) as [m r] eqn:Ha. intros [= <- ->].
    by apply (append_and_sync_view _ _ _ _ _ _ _ _ Hv Ha).
  - intros s l p es s' err Hv. destruct (append_session_id es); [|intros [= <- _]; by left].
    destruct (append_events_and_sync _ _ _ _ _ _) as [m r] eqn:Ha. intros [= <- ->].
    by apply (append_and_sync_view _ _ _ _ _ _ _ _ Hv Ha).
  - intros s l p session_id Hv.
    pose proof (sync_durable_view session_id (env_sync (js_env s (js_calls s))) _ _ _ Hv) as Hs.
    by destruct (sync_durable_events _ _ _).
  - intros s l p session_id n s' ss Hv.
    destruct (retry_uncertain_sync _ _ _ _) as [m r] eqn:Ha. intros [= <- ->].
    by apply (retry_view _ _ _ _ _ _ _ _ Hv Ha).
  - intros s l p session_id n s' err Hv.
    destruct (retry_uncertain_sync _ _ _ _) as [m r] eqn:Ha. intros [= <- ->].
    by apply (retry_view _ _ _ _ _ _ _ _ Hv Ha).
Defined.
End lane_journal.

(** ** Witnesses: a synced append whose fsync fails, its retry, and a shutdown *)

#[local] Existing Instance sample_codec.
#[local] Instance sample_operations : SessionEventJournal JournalSession :=
  journal_operations sample_json sample_sid.
#[local] Instance sample_lawful_lane : LawfulJournal JournalSession :=
  journal_lawful_lane sample_json sample_sid.

(** The fsync of the second call fails. *)
Definition lane_session : JournalSession :=
  {| js_meta := opened_meta; js_calls := 0;
     js_env n := {| env_event_id := EventId_new "e"; env_now := 0%Z; env_write := Write_Ok;
                    env_sync := if Nat.eqb n 1 then Sync_Failed fsync_error else Sync_Ok |} |}.

Definition lane_commands : list (PublishCommand ()) :=
  [Cmd_Durable Commit_Append (sample_event P_TurnStarted) 0;
   Cmd_Durable Commit_AppendAndSync (sample_event (P_TurnCompleted "stop")) 1;
   Cmd_Durable Commit_Append (sample_event P_TurnStarted) 2;
   Cmd_RetryUncertainSync 3 3;
   Cmd_Durable Commit_Append (sample_event P_TurnStarted) 4;
   Cmd_Durable Commit_Append (sample_event P_TurnAbortedContext) 5;
   Cmd_Shutdown 6].

(** All commands wait; and the state once they are served. *)
Definition lane_full : LaneState () JournalSession :=
  foldl (λ st c, offer c st) (lane_start lane_session) lane_commands.
Definition lane_done : LaneState () JournalSession := lane_run sample_sid 8 lane_full.

Lemma lane_full_reach : reach sample_sid lane_session lane_commands lane_full.
Proof.
  unfold lane_full, lane_commands. cbn [foldl].
  repeat (apply (reach_send _ _ [_; _; _; _; _; _]) || apply (reach_send _ _ [_; _; _; _; _])
    || apply (reach_send _ _ [_; _; _; _]) || apply (reach_send _ _ [_; _; _])
    || apply (reach_send _ _ [_; _]) || apply (reach_send _ _ [_]) || apply (reach_send _ _ []));
    try apply reach_start; vm_compute; lia.
Qed.

Lemma lane_session_view : view lane_session sample_log [].
Proof. split_and!; [apply sample_replay|done..]. Qed.

(** The refused append between the failed fsync and its retry leaves no trace. *)
Lemma lane_publishes_visible_log_witness :
  (∃ l p, view (ln_journal lane_done) (sample_log ++ l) p ∧
     durable_only (ln_published lane_done) = map Event_from_stored l ∧
     map se_event (l ++ p) `sublist_of` requested lane_commands ∧
     ∀ r e, (r, Reply_Stored (Ok e)) ∈ ln_replies lane_done →
       e ∈ l ∧ ∃ kind, Cmd_Durable kind (se_event e) r ∈ lane_commands) ∧
  map e_seq (ln_published lane_done) = [Some 2; Some 3; Some 4; Some 5]%N ∧
  ln_open lane_done = false.
Proof.
  split; [|vm_compute; by split].
  apply (lane_publishes_visible_log sample_sid lane_session lane_commands lane_done sample_log []).
  - apply lane_run_reach, lane_full_reach.
  - apply lane_session_view.
Defined.

Lemma lane_answers_everything_witness :
  map fst (ln_replies lane_full) ++ owed lane_full ≡ₚ [0; 1; 2; 3; 4; 5; 6] ∧
  let st' := lane_run sample_sid (S (length (waiting lane_full))) lane_full in
  reach sample_sid lane_session lane_commands st' ∧
  lane_iteration sample_sid st' = None ∧ waiting st' = [] ∧
  (ln_open st' = false →
   ln_running st' = false ∧ map fst (ln_replies st') ≡ₚ [0; 1; 2; 3; 4; 5; 6]).
Proof.
  apply (lane_answers_everything sample_sid lane_session lane_commands lane_full sample_log []).
  - apply lane_full_reach.
  - apply lane_session_view.
Defined.
