(* ===== verification/LanePublication.v ===== *)
(** * Deferred publication ([session/src/session_event_sink.rs])

    While a guard defers a session, its events are collected instead of being observed;
    committing the guard hands them over in a loop that releases the lock between taking
    the collected events and publishing them, so other threads publish in between.  The
    shared tables are a store of buffers (an [Arc] is its address); every access under
    the lock is one step, and so is every call of the observer.  The theorem is that no
    interleaving loses, duplicates or reorders the events of a session. *)

From S2P Require Import Prelude CoreTypes CoreLlm CoreEvent StoreTypes TurnFinalize LaneModel.

Section publication.
Context {LP : Type}.
Implicit Types e : Event LP.

(** The address of a [DeferredEvents]. *)
Abbreviation BufferId := nat.

Record PublicationState := {
  deferred : gmap SessionId BufferId;
  buffers : gmap BufferId (list (Event LP));
  next_buffer : BufferId;
  (** guards that are neither committed nor dropped *)
  guards : gset (SessionId * BufferId);
  (** running calls of [commit_deferred], with the events they have taken and not yet
      published *)
  committing : gmap BufferId (SessionId * list (Event LP));
  (** events found not deferred, between the release of the lock and the observer *)
  direct : list (Event LP);
  (** what the observer got, oldest first *)
  observed : list (Event LP);
}.

Definition publication_new : PublicationState :=
  {| deferred := ∅; buffers := ∅; next_buffer := 0; guards := ∅; committing := ∅;
     direct := []; observed := [] |}.

Definition observe_event e (st : PublicationState) : PublicationState :=
  {| deferred := deferred st; buffers := buffers st; next_buffer := next_buffer st;
     guards := guards st; committing := committing st; direct := direct st;
     observed := observed st ++ [e] |}.
Definition set_buffer (b : BufferId) (es : list (Event LP)) (st : PublicationState) :=
  {| deferred := deferred st; buffers := <[b := es]> (buffers st);
     next_buffer := next_buffer st; guards := guards st; committing := committing st;
     direct := direct st; observed := observed st |}.
Definition remove_deferred (s : SessionId) (st : PublicationState) :=
  {| deferred := delete s (deferred st); buffers := buffers st;
     next_buffer := next_buffer st; guards := guards st; committing := committing st;
     direct := direct st; observed := observed st |}.
Definition set_guards (g : gset (SessionId * BufferId)) (st : PublicationState) :=
  {| deferred := deferred st; buffers := buffers st; next_buffer := next_buffer st;
     guards := g; committing := committing st; direct := direct st; observed := observed st |}.
Definition set_committing (c : gmap BufferId (SessionId * list (Event LP)))
    (st : PublicationState) :=
  {| deferred := deferred st; buffers := buffers st; next_buffer := next_buffer st;
     guards := guards st; committing := c; direct := direct st; observed := observed st |}.

Definition set_direct (es : list (Event LP)) (st : PublicationState) :=
  {| deferred := deferred st; buffers := buffers st; next_buffer := next_buffer st;
     guards := guards st; committing := committing st; direct := es; observed := observed st |}.

(** [PublicationState::publish] under the lock; an event that is not deferred goes on to
    the observer after the lock is released. *)
Definition publication_publish e (st : PublicationState) : PublicationState :=
  match deferred st !! e_session_id e with
  | Some b => set_buffer b (default [] (buffers st !! b) ++ [e]) st
  | None => set_direct (direct st ++ [e]) st
  end.

(** [SessionEventSink::defer_publication]. *)
Definition defer_publication (s : SessionId) (st : PublicationState)
    : PublicationState * result (SessionId * BufferId) SessionEventPublishError :=
  match deferred st !! s with
  | Some _ => (st, Err (Publish_AlreadyDeferred s))
  | None =>
    let b := next_buffer st in
    ({| deferred := <[s := b]> (deferred st); buffers := <[b := []]> (buffers st);
        next_buffer := S b; guards := {[(s, b)]} ∪ guards st; committing := committing st;
        direct := direct st; observed := observed st |}, Ok (s, b))
  end.

(** One pass of the loop of [commit_deferred] under the lock: the call goes on with the
    events it took, or returns. *)
Definition commit_take (s : SessionId) (b : BufferId) (st : PublicationState)
    : PublicationState :=
  match deferred st !! s with
  | Some current =>
    if bool_decide (current = b) then
      let pending := default [] (buffers st !! b) in
      let st := set_buffer b [] st in
      match pending with
      | [] => set_committing (delete b (committing st)) (remove_deferred s st)
      | _ => set_committing (<[b := (s, pending)]> (committing st)) st
      end
    else set_committing (delete b (committing st)) st
  | None => set_committing (delete b (committing st)) st
  end.

(** [discard_deferred]. *)
Definition discard_deferred (s : SessionId) (b : BufferId) (st : PublicationState)
    : PublicationState :=
  match deferred st !! s with
  | Some current => if bool_decide (current = b) then remove_deferred s st else st
  | None => st
  end.

(** ** Threads *)

Inductive Action :=
| Act_Publish (e : Event LP)
| Act_Deliver (i : nat)
| Act_Defer (s : SessionId)
| Act_Commit (s : SessionId) (b : BufferId)
| Act_Take (b : BufferId)
| Act_Emit (b : BufferId)
| Act_Discard (s : SessionId) (b : BufferId).

(** What a thread may do next, and its effect.  A guard is used up by its commit or its
    drop; a committing thread alternates between taking and publishing.  The events of a
    session are published by one thread, its lane: it publishes the next one when the
    observer has returned from the one before. *)
Inductive action_step : Action → PublicationState → PublicationState → Prop :=
| step_publish e st :
    Forall (λ e', e_session_id e' ≠ e_session_id e) (direct st) →
    action_step (Act_Publish e) st (publication_publish e st)
| step_deliver e l1 l2 st :
    direct st = l1 ++ e :: l2 →
    action_step (Act_Deliver (length l1)) st (observe_event e (set_direct (l1 ++ l2) st))
| step_defer s st : action_step (Act_Defer s) st (fst (defer_publication s st))
| step_commit s b st :
    (s, b) ∈ guards st →
    action_step (Act_Commit s b) st
      (set_committing (<[b := (s, [])]> (committing st)) (set_guards (guards st ∖ {[(s, b)]}) st))
| step_take s b st :
    committing st !! b = Some (s, []) → action_step (Act_Take b) st (commit_take s b st)
| step_emit s b e es st :
    committing st !! b = Some (s, e :: es) →
    action_step (Act_Emit b) st
      (observe_event e (set_committing (<[b := (s, es)]> (committing st)) st))
| step_discard s b st :
    (s, b) ∈ guards st →
    action_step (Act_Discard s b) st
      (discard_deferred s b (set_guards (guards st ∖ {[(s, b)]}) st)).

(** The same as a function. *)
Definition do_action (a : Action) (st : PublicationState) : option PublicationState :=
  match a with
  | Act_Publish e =>
    if forallb (λ e', negb (bool_decide (e_session_id e' = e_session_id e))) (direct st)
    then Some (publication_publish e st) else None
  | Act_Deliver i =>
    e ← direct st !! i;
    Some (observe_event e (set_direct (take i (direct st) ++ drop (S i) (direct st)) st))
  | Act_Defer s => Some (fst (defer_publication s st))
  | Act_Commit s b =>
    if bool_decide ((s, b) ∈ guards st) then
      Some (set_committing (<[b := (s, [])]> (committing st))
              (set_guards (guards st ∖ {[(s, b)]}) st))
    else None
  | Act_Take b =>
    match committing st !! b with
    | Some (s, []) => Some (commit_take s b st)
    | _ => None
    end
  | Act_Emit b =>
    match committing st !! b with
    | Some (s, e :: es) =>
      Some (observe_event e (set_committing (<[b := (s, es)]> (committing st)) st))
    | _ => None
    end
  | Act_Discard s b =>
    if bool_decide ((s, b) ∈ guards st)
    then Some (discard_deferred s b (set_guards (guards st ∖ {[(s, b)]}) st)) else None
  end.

(** Runs, with their actions. *)
Inductive publication_run : list Action → PublicationState → Prop :=
| run_start : publication_run [] publication_new
| run_step acts a st st' :
    publication_run acts st → action_step a st st' → publication_run (acts ++ [a]) st'.

(** ** Lemmas *)

(** The events of a session. *)
Definition of_session (s : SessionId) (es : list (Event LP)) : list (Event LP) :=
  filter (λ e, e_session_id e = s) es.

(** Events of the session on their way to the observer behind its deferral. *)
Definition held (s : SessionId) (st : PublicationState) : list (Event LP) :=
  match deferred st !! s with
  | Some b =>
    (match committing st !! b with Some (_, es) => es | None => [] end)
      ++ default [] (buffers st !! b)
  | None => []
  end.

#[local] Arguments of_session : simpl never.
#[local] Arguments held : simpl never.

(** The events of a session that were published, and whether a guard of it was dropped. *)
Definition published_events (acts : list (Action)) : list (Event LP) :=
  omap (λ a, match a with Act_Publish e => Some e | _ => None end) acts.
Definition discards (s : SessionId) (a : Action) : bool :=
  match a with Act_Discard s' _ => bool_decide (s' = s) | _ => false end.

(** Every buffer belongs to the session it was made for; taken events keep the entry of
    their session in place; and an event on its way to the observer overtakes nothing. *)
Record publication_ok (owner : BufferId → SessionId) (st : PublicationState) : Prop := {
  ok_entry s b : deferred st !! s = Some b → b < next_buffer st ∧ owner b = s ∧
    Forall (λ e, e_session_id e = s) (default [] (buffers st !! b));
  ok_commit b s es : committing st !! b = Some (s, es) →
    b < next_buffer st ∧ owner b = s ∧ ((s, b) ∉ guards st) ∧
    (es ≠ [] → deferred st !! s = Some b) ∧ Forall (λ e, e_session_id e = s) es;
  ok_guard s b : (s, b) ∈ guards st → b < next_buffer st ∧ owner b = s;
  ok_direct s : of_session s (direct st) ≠ [] → held s st = [];
}.

Definition in_order (acts : list Action) (s : SessionId) (st : PublicationState) : Prop :=
  of_session s (observed st) ++ of_session s (direct st) ++ held s st
    = of_session s (published_events acts).

Lemma of_session_app s es es' : of_session s (es ++ es') = of_session s es ++ of_session s es'.
Proof. apply filter_app. Qed.

Lemma of_session_none s es : Forall (λ e, e_session_id e ≠ s) es → of_session s es = [].
Proof. intros Hes. apply filter_none. intros e He. by apply (proj1 (Forall_forall _ _) Hes). Qed.

Lemma published_snoc acts a :
  published_events (acts ++ [a]) = published_events acts
    ++ (match a with Act_Publish e => [e] | _ => [] end).
Proof. unfold published_events. rewrite omap_app. by destruct a. Qed.

(** Steps that publish nothing new keep the order when they keep the three parts. *)
Lemma in_order_same acts a s st st' :
  (∀ e, a ≠ Act_Publish e) → in_order acts s st →
  of_session s (observed st') ++ of_session s (direct st') ++ held s st'
    = of_session s (observed st) ++ of_session s (direct st) ++ held s st →
  in_order (acts ++ [a]) s st'.
Proof.
  unfold in_order. intros Ha Ho ->. rewrite published_snoc. destruct a; try (by rewrite app_nil_r).
  by destruct (Ha e).
Qed.

Lemma publish_ok owner acts e st :
  publication_ok owner st → Forall (λ e', e_session_id e' ≠ e_session_id e) (direct st) →
  publication_ok owner (publication_publish e st) ∧
  ∀ s, in_order acts s st → in_order (acts ++ [Act_Publish e]) s (publication_publish e st).
Proof.
  intros Hok Hd. unfold publication_publish.
  destruct (deferred st !! e_session_id e) as [b|] eqn:Hb.
  - destruct (ok_entry _ _ Hok _ _ Hb) as (Hlt & Hown & Hbuf).
    assert (∀ s, held s (set_buffer b (default [] (buffers st !! b) ++ [e]) st)
      = held s st ++ of_session s [e]) as Hheld.
    { intros s. unfold held, of_session. cbn. destruct (deferred st !! s) as [b'|] eqn:Hs.
      - destruct (decide (b' = b)) as [->|Hne].
        + rewrite lookup_insert_eq. cbn. destruct (ok_entry _ _ Hok _ _ Hs) as (_ & Hs' & _).
          rewrite decide_True by congruence. by rewrite (assoc_L (++)).
        + rewrite lookup_insert_ne by done. rewrite decide_False by congruence. by rewrite app_nil_r.
      - by rewrite decide_False by congruence. }
    split.
    + split; cbn; [|apply (ok_commit _ _ Hok)|apply (ok_guard _ _ Hok)|].
      * intros s b' Hs. destruct (ok_entry _ _ Hok _ _ Hs) as (? & Hs' & ?). split_and!; [done..|].
        destruct (decide (b' = b)) as [->|Hne]; [|by rewrite lookup_insert_ne].
        rewrite lookup_insert_eq. cbn. apply Forall_app. split; [done|]. repeat constructor. congruence.
      * intros s Hs. rewrite Hheld. rewrite (ok_direct _ _ Hok s Hs). unfold of_session. cbn.
        rewrite decide_False; [done|]. intros He. apply Hs. apply of_session_none. by rewrite He in Hd.
    + intros s Ho. unfold in_order. rewrite Hheld, published_snoc, of_session_app, <- Ho. cbn.
      by rewrite !(assoc_L (++)).
  - split.
    + split; cbn; [apply (ok_entry _ _ Hok)|apply (ok_commit _ _ Hok)|apply (ok_guard _ _ Hok)|].
      intros s Hs. change (held s (set_direct _ st)) with (held s st).
      rewrite of_session_app in Hs. destruct (decide (s = e_session_id e)) as [->|Hne].
      * unfold held. by rewrite Hb.
      * apply (ok_direct _ _ Hok). intros Hnil. apply Hs. rewrite Hnil. cbn. unfold of_session. cbn.
        by rewrite decide_False by congruence.
    + intros s Ho. unfold in_order. cbn. change (held s (set_direct _ st)) with (held s st).
      rewrite published_snoc, !of_session_app, <- Ho.
      destruct (decide (s = e_session_id e)) as [->|Hne].
      * assert (held (e_session_id e) st = []) as -> by (unfold held; by rewrite Hb).
        by rewrite !app_nil_r, (assoc_L (++)).
      * assert (of_session s [e] = []) as -> by (unfold of_session; cbn; by rewrite decide_False by congruence).
        by rewrite !app_nil_r.
Qed.

Lemma of_session_cons s e es :
  of_session s (e :: es) = (if decide (e_session_id e = s) then [e] else []) ++ of_session s es.
Proof. unfold of_session. rewrite filter_cons. by case_decide. Qed.

Lemma of_session_one s e :
  of_session s [e] = if decide (e_session_id e = s) then [e] else [].
Proof. rewrite of_session_cons. apply app_nil_r. Qed.

Lemma deliver_ok owner acts e l1 l2 st :
  publication_ok owner st → direct st = l1 ++ e :: l2 →
  (∀ s, length (of_session s (direct st)) ≤ 1) →
  publication_ok owner (observe_event e (set_direct (l1 ++ l2) st)) ∧
  ∀ s, in_order acts s st →
    in_order (acts ++ [Act_Deliver (length l1)]) s (observe_event e (set_direct (l1 ++ l2) st)).
Proof.
  intros Hok Hd Hone. split.
  - split; cbn; [apply (ok_entry _ _ Hok)|apply (ok_commit _ _ Hok)|apply (ok_guard _ _ Hok)|].
    intros s Hs. apply (ok_direct _ _ Hok). rewrite Hd. rewrite of_session_app in *.
    rewrite of_session_cons. intros [H1 [_ H2]%app_nil]%app_nil.
    apply Hs. by rewrite H1, H2.
  - intros s Ho. eapply in_order_same; [done|exact Ho|]. cbn.
    change (held s (observe_event e _)) with (held s st). specialize (Hone s). revert Hone.
    rewrite Hd, !of_session_app, of_session_cons.
    rewrite of_session_one.
    case_decide; [|by rewrite app_nil_r]. rewrite !length_app. cbn.
    destruct (of_session s l1), (of_session s l2); cbn; try lia. by rewrite <- (assoc_L (++)).
Qed.

(** The entry of a session determines what is held for it. *)
Lemma held_eq s st st' :
  deferred st' !! s = deferred st !! s →
  (∀ b, deferred st !! s = Some b →
     default [] (snd <$> committing st' !! b) ++ default [] (buffers st' !! b)
     = default [] (snd <$> committing st !! b) ++ default [] (buffers st !! b)) →
  held s st' = held s st.
Proof.
  unfold held. intros -> Hb. destruct (deferred st !! s) as [b|]; [|done]. specialize (Hb b eq_refl).
  by destruct (committing st' !! b) as [[]|], (committing st !! b) as [[]|].
Qed.

Lemma defer_ok owner acts s0 st :
  publication_ok owner st →
  ∃ owner', publication_ok owner' (fst (defer_publication s0 st)) ∧
  ∀ s, in_order acts s st → in_order (acts ++ [Act_Defer s0]) s (fst (defer_publication s0 st)).
Proof.
  intros Hok. unfold defer_publication. destruct (deferred st !! s0) as [b0|] eqn:H0.
  { exists owner. split; [done|]. intros s Ho. by eapply in_order_same. }
  set (b := next_buffer st). exists (λ x, if decide (x = b) then s0 else owner x). cbn.
  set (st' := Build_PublicationState _ _ _ _ _ _ _).
  assert (committing st !! b = None) as Hc.
  { destruct (committing st !! b) as [[s es]|] eqn:Hc; [|done].
    destruct (ok_commit _ _ Hok _ _ _ Hc) as [Hlt _]. unfold b in Hlt. lia. }
  assert (∀ s, held s st' = held s st) as Hheld.
  { intros s. destruct (decide (s = s0)) as [->|Hne].
    - unfold held, st'. cbn. rewrite lookup_insert_eq, H0, Hc, lookup_insert_eq. done.
    - apply held_eq; cbn; [by rewrite lookup_insert_ne|]. intros b' Hb'.
      destruct (ok_entry _ _ Hok _ _ Hb') as [Hlt _]. rewrite lookup_insert_ne; [done|].
      unfold b. lia. }
  split; [split|].
  - intros s b'. cbn. intros [[<- <-]|[Hne Hs]]%lookup_insert_Some.
    + rewrite decide_True, lookup_insert_eq by done. split_and!; [lia|done|constructor].
    + destruct (ok_entry _ _ Hok _ _ Hs) as (Hlt & Hown & Hbuf). fold b in Hlt.
      rewrite decide_False, lookup_insert_ne by lia. split_and!; [lia|done|done].
  - cbn. intros b' s es Hs. destruct (ok_commit _ _ Hok _ _ _ Hs) as (Hlt & Hown & Hg & Hd & Hf).
    fold b in Hlt. rewrite decide_False by lia. split_and!; [lia|done| | |done].
    + intros [[= _ ->]%elem_of_singleton|Hin]%elem_of_union; [lia|done].
    + intros Hes. rewrite lookup_insert_ne; [by apply Hd|]. specialize (Hd Hes). intros Heq. rewrite <- Heq, H0 in Hd. done.
  - cbn. intros s b' [[= -> ->]%elem_of_singleton|Hin]%elem_of_union.
    + rewrite decide_True by done. split; [lia|done].
    + destruct (ok_guard _ _ Hok _ _ Hin) as [Hlt Hown]. fold b in Hlt.
      rewrite decide_False by lia. split; [lia|done].
  - intros s Hs. rewrite Hheld. by apply (ok_direct _ _ Hok).
  - intros s Ho. eapply in_order_same; [done|exact Ho|]. by rewrite Hheld.
Qed.

Lemma commit_ok owner acts s0 b st :
  publication_ok owner st → (s0, b) ∈ guards st → committing st !! b = None →
  let st' := set_committing (<[b := (s0, [])]> (committing st))
               (set_guards (guards st ∖ {[(s0, b)]}) st) in
  publication_ok owner st' ∧
  ∀ s, in_order acts s st → in_order (acts ++ [Act_Commit s0 b]) s st'.
Proof.
  intros Hok Hg Hc st'. destruct (ok_guard _ _ Hok _ _ Hg) as [Hlt Hown].
  assert (∀ s, held s st' = held s st) as Hheld.
  { intros s. apply held_eq; [done|]. intros b' _. cbn. destruct (decide (b' = b)) as [->|Hne].
    - by rewrite lookup_insert_eq, Hc.
    - by rewrite lookup_insert_ne. }
  split; [split|].
  - apply (ok_entry _ _ Hok).
  - intros b' s es. cbn. intros [[<- [= <- <-]]|[Hne Hs]]%lookup_insert_Some.
    + split_and!; [done|done|set_solver|done|constructor].
    + destruct (ok_commit _ _ Hok _ _ _ Hs) as (? & ? & ? & ? & ?). split_and!; try done. set_solver.
  - intros s b' Hin. apply (ok_guard _ _ Hok). cbn in Hin. set_solver.
  - intros s Hs. rewrite Hheld. by apply (ok_direct _ _ Hok).
  - intros s Ho. eapply in_order_same; [done|exact Ho|]. by rewrite Hheld.
Qed.

(** Two sessions do not share a buffer. *)
Lemma entry_other owner st s s' b b' :
  publication_ok owner st → deferred st !! s = Some b → deferred st !! s' = Some b' → s ≠ s' → b' ≠ b.
Proof.
  intros Hok Hs Hs' Hne ->. destruct (ok_entry _ _ Hok _ _ Hs) as (_ & <- & _).
  by destruct (ok_entry _ _ Hok _ _ Hs') as (_ & <- & _).
Qed.

(** Dropping the entry of a finished call. *)
Lemma uncommit_ok owner acts b s0 st :
  publication_ok owner st → committing st !! b = Some (s0, []) →
  let st' := set_committing (delete b (committing st)) st in
  publication_ok owner st' ∧ ∀ s, in_order acts s st → in_order (acts ++ [Act_Take b]) s st'.
Proof.
  intros Hok Hc st'. assert (∀ s, held s st' = held s st) as Hheld.
  { intros s. apply held_eq; [done|]. intros b' _. cbn. destruct (decide (b' = b)) as [->|Hne].
    - by rewrite lookup_delete_eq, Hc.
    - by rewrite lookup_delete_ne. }
  split; [split|].
  - apply (ok_entry _ _ Hok).
  - intros b' s es. cbn. intros [_ Hs]%lookup_delete_Some. by apply (ok_commit _ _ Hok).
  - apply (ok_guard _ _ Hok).
  - intros s Hs. rewrite Hheld. by apply (ok_direct _ _ Hok).
  - intros s Ho. eapply in_order_same; [done|exact Ho|]. by rewrite Hheld.
Qed.

(** Removing the entry of a session that holds nothing; other sessions keep theirs. *)
Lemma remove_ok owner s0 b st :
  publication_ok owner st → deferred st !! s0 = Some b →
  (∀ es, committing st !! b = Some (s0, es) → es = []) →
  publication_ok owner (remove_deferred s0 st) ∧
  ∀ s, s ≠ s0 ∨ held s0 st = [] → held s (remove_deferred s0 st) = held s st.
Proof.
  intros Hok Hb Hc.
  assert (∀ s, s ≠ s0 ∨ held s0 st = [] → held s (remove_deferred s0 st) = held s st) as Hheld.
  { intros s Hs. unfold held at 1. cbn. destruct (decide (s = s0)) as [->|Hne].
    - rewrite lookup_delete_eq. by destruct Hs.
    - rewrite lookup_delete_ne by done. done. }
  split; [split|done]; cbn.
  - intros s b' [_ Hs]%lookup_delete_Some. by apply (ok_entry _ _ Hok).
  - intros b' s es Hs. destruct (ok_commit _ _ Hok _ _ _ Hs) as (? & ? & ? & Hd & ?).
    split_and!; try done. intros Hes. apply lookup_delete_Some. split; [|by apply Hd].
    intros ->. specialize (Hd Hes). rewrite Hb in Hd. injection Hd as ->. by apply Hes, Hc.
  - apply (ok_guard _ _ Hok).
  - intros s Hs. destruct (decide (s = s0)) as [->|Hne].
    + unfold held. cbn. by rewrite lookup_delete_eq.
    + rewrite Hheld by auto. by apply (ok_direct _ _ Hok).
Qed.

Lemma empty_buffer_ok owner b st :
  publication_ok owner st → default [] (buffers st !! b) = [] →
  publication_ok owner (set_buffer b [] st) ∧ ∀ s, held s (set_buffer b [] st) = held s st.
Proof.
  intros Hok Hb. assert (∀ b', default [] (<[b := []]> (buffers st) !! b') = default [] (buffers st !! b'))
    as Hbuf.
  { intros b'. destruct (decide (b' = b)) as [->|]; [by rewrite lookup_insert_eq, Hb|by rewrite lookup_insert_ne]. }
  assert (∀ s, held s (set_buffer b [] st) = held s st) as Hheld.
  { intros s. apply held_eq; [done|]. intros b' _. cbn [committing set_buffer buffers]. by rewrite Hbuf. }
  split; [split|done]; cbn [deferred buffers next_buffer guards committing direct set_buffer].
  - intros s b'. rewrite Hbuf. apply (ok_entry _ _ Hok).
  - apply (ok_commit _ _ Hok).
  - apply (ok_guard _ _ Hok).
  - intros s Hs. rewrite Hheld. by apply (ok_direct _ _ Hok).
Qed.

Lemma take_ok owner acts s0 b st :
  publication_ok owner st → committing st !! b = Some (s0, []) →
  publication_ok owner (commit_take s0 b st) ∧
  ∀ s, in_order acts s st → in_order (acts ++ [Act_Take b]) s (commit_take s0 b st).
Proof.
  intros Hok Hc. unfold commit_take.
  destruct (deferred st !! s0) as [b0|] eqn:Hd; [|by eapply uncommit_ok].
  case_bool_decide; [subst b0|by eapply uncommit_ok].
  destruct (default [] (buffers st !! b)) as [|e pending] eqn:Hbuf.
  - destruct (empty_buffer_ok owner b st Hok Hbuf) as [Hok1 Hheld1].
    destruct (uncommit_ok owner acts b s0 _ Hok1 Hc) as [Hok2 Hord2].
    assert (held s0 (set_committing (delete b (committing st)) (set_buffer b [] st)) = []) as Hnil.
    { unfold held. cbn. by rewrite Hd, lookup_delete_eq, lookup_insert_eq. }
    destruct (remove_ok owner s0 b _ Hok2 Hd) as [Hok3 Hheld3].
    { intros es. cbn. by rewrite lookup_delete_eq. }
    split; [exact Hok3|]. intros s Ho. specialize (Hord2 s). unfold in_order in *.
    rewrite <- Hord2 by (cbn; by rewrite Hheld1). rewrite <- Hheld3 by auto. done.
  - destruct (ok_entry _ _ Hok _ _ Hd) as (Hlt & Hown & Hall). rewrite Hbuf in Hall.
    destruct (ok_commit _ _ Hok _ _ _ Hc) as (_ & _ & Hg & _ & _).
    set (st' := set_committing _ _).
    assert (∀ s, held s st' = held s st) as Hheld.
    { intros s. apply held_eq; [done|]. intros b' _. cbn. destruct (decide (b' = b)) as [->|Hne].
      - rewrite !lookup_insert_eq, Hc, Hbuf. cbn. by rewrite app_nil_r.
      - by rewrite !lookup_insert_ne. }
    split; [split|].
    + intros s b' Hs. destruct (ok_entry _ _ Hok _ _ Hs) as (? & ? & ?). split_and!; [done..|]. cbn.
      destruct (decide (b' = b)) as [->|]; [rewrite lookup_insert_eq; constructor|by rewrite lookup_insert_ne].
    + intros b' s es. cbn. intros [[<- [= <- <-]]|[Hne Hs]]%lookup_insert_Some;
        [done|by apply (ok_commit _ _ Hok)].
    + apply (ok_guard _ _ Hok).
    + intros s Hs. rewrite Hheld. by apply (ok_direct _ _ Hok).
    + intros s Ho. eapply in_order_same; [done|exact Ho|]. by rewrite Hheld.
Qed.

Lemma emit_ok owner acts s0 b e es st :
  publication_ok owner st → committing st !! b = Some (s0, e :: es) →
  let st' := observe_event e (set_committing (<[b := (s0, es)]> (committing st)) st) in
  publication_ok owner st' ∧ ∀ s, in_order acts s st → in_order (acts ++ [Act_Emit b]) s st'.
Proof.
  intros Hok Hc st'. destruct (ok_commit _ _ Hok _ _ _ Hc) as (Hlt & Hown & Hg & Hd & Hall).
  specialize (Hd ltac:(done)). apply Forall_cons in Hall as [He Hes].
  assert (held s0 st = e :: held s0 st') as Hheld0.
  { unfold held. cbn. by rewrite Hd, Hc, lookup_insert_eq. }
  assert (∀ s, s ≠ s0 → held s st' = held s st) as Hheld.
  { intros s Hne. apply held_eq; [done|]. intros b' Hb'. cbn.
    rewrite lookup_insert_ne; [done|]. eapply not_eq_sym, (entry_other owner st s0 s); done. }
  assert (of_session s0 (direct st) = []) as Hdir.
  { destruct (of_session s0 (direct st)) eqn:Hx; [done|].
    rewrite (ok_direct _ _ Hok s0) in Hheld0 by (by rewrite Hx). done. }
  split; [split|].
  - apply (ok_entry _ _ Hok).
  - intros b' s es'. cbn. intros [[<- [= <- <-]]|[Hne Hs]]%lookup_insert_Some;
      [done|by apply (ok_commit _ _ Hok)].
  - apply (ok_guard _ _ Hok).
  - intros s Hs. destruct (decide (s = s0)) as [->|]; [by destruct Hs|].
    rewrite Hheld by done. by apply (ok_direct _ _ Hok).
  - intros s Ho. eapply in_order_same; [done|exact Ho|]. cbn. rewrite of_session_app.
    destruct (decide (s = s0)) as [->|Hne].
    + rewrite Hheld0, Hdir, of_session_one, decide_True by done. cbn. by rewrite <- (assoc_L (++)).
    + rewrite Hheld, of_session_one, decide_False by congruence. by rewrite !app_nil_r.
Qed.

Lemma discard_ok owner acts s0 b st :
  publication_ok owner st → (s0, b) ∈ guards st →
  let st' := discard_deferred s0 b (set_guards (guards st ∖ {[(s0, b)]}) st) in
  publication_ok owner st' ∧
  ∀ s, s ≠ s0 → in_order acts s st → in_order (acts ++ [Act_Discard s0 b]) s st'.
Proof.
  intros Hok Hg. set (st1 := set_guards _ st).
  assert (publication_ok owner st1) as Hok1.
  { split; [apply (ok_entry _ _ Hok)| | |apply (ok_direct _ _ Hok)]; cbn.
    - intros b' s es Hs. destruct (ok_commit _ _ Hok _ _ _ Hs) as (? & ? & ? & ? & ?).
      split_and!; try done. set_solver.
    - intros s b' Hin. apply (ok_guard _ _ Hok). set_solver. }
  unfold discard_deferred. destruct (deferred st1 !! s0) as [b0|] eqn:Hd;
    [case_bool_decide; [subst b0|]|].
  - destruct (remove_ok owner s0 b st1 Hok1 Hd) as [Hok2 Hheld].
    { intros es Hs. destruct (ok_commit _ _ Hok _ _ _ Hs) as (_ & _ & Hn & _). done. }
    split; [done|]. intros s Hne Ho. eapply in_order_same; [done|exact Ho|]. by rewrite Hheld by auto.
  - split; [done|]. intros s _ Ho. by eapply in_order_same.
  - split; [done|]. intros s _ Ho. by eapply in_order_same.
Qed.

(** A session has at most one event between the lock and the observer. *)
Lemma single_direct acts st s : publication_run acts st → length (of_session s (direct st)) ≤ 1.
Proof.
  induction 1 as [|acts a st st' _ IH Hs]; [unfold of_session; simpl; lia|]. destruct Hs as [e st Hd|e l1 l2 st Hd| | | | |].
  - unfold publication_publish. destruct (deferred st !! e_session_id e); [done|]. cbn.
    rewrite of_session_app, length_app, of_session_one. case_decide as He; cbn; [|lia].
    rewrite of_session_none by (by rewrite <- He). done.
  - cbn. rewrite Hd in IH. rewrite of_session_app, of_session_cons in *.
    rewrite !length_app in *. lia.
  - unfold defer_publication. by destruct (deferred st !! _).
  - done.
  - unfold commit_take. destruct (deferred st !! s0); [|done]. destruct (bool_decide _); [|done].
    by destruct (default [] (buffers st !! b)).
  - done.
  - unfold discard_deferred. destruct (deferred _ !! s0); [|done]. by destruct (bool_decide _).
Qed.

Lemma run_ok acts st :
  publication_run acts st →
  ∃ owner, publication_ok owner st ∧
    ∀ s, Forall (λ a, discards s a = false) acts → in_order acts s st.
Proof.
  induction 1 as [|acts a st st' Hrun (owner & Hok & Hord) Hs].
  { exists (λ _, SessionId_new ""). split; [split; done || set_solver|done]. }
  assert (∀ s, Forall (λ a, discards s a = false) (acts ++ [a]) → in_order acts s st ∧ discards s a = false)
    as Hord'
    by (intros s [Hf [Ha _]%Forall_cons]%Forall_app; split; [by apply Hord|exact Ha]).
  assert (∀ owner', publication_ok owner' st' ∧
    (∀ s, discards s a = false → in_order acts s st → in_order (acts ++ [a]) s st') →
    ∃ owner, publication_ok owner st' ∧
      ∀ s, Forall (λ a, discards s a = false) (acts ++ [a]) → in_order (acts ++ [a]) s st') as Hwrap.
  { intros owner' [? Hin]. exists owner'. split; [done|]. intros s Hf.
    destruct (Hord' s Hf). by apply Hin. }
  destruct Hs as [e st Hd|e l1 l2 st Hd|s0 st|s0 b st Hg|s0 b st Hc|s0 b e es st Hc|s0 b st Hg].
  - apply (Hwrap owner). destruct (publish_ok owner acts e st Hok Hd). auto.
  - apply (Hwrap owner). destruct (deliver_ok owner acts e l1 l2 st Hok Hd); [|by auto].
    intros s. by eapply single_direct.
  - destruct (defer_ok owner acts s0 st Hok) as (owner' & ? & ?). apply (Hwrap owner'). auto.
  - apply (Hwrap owner). destruct (commit_ok owner acts s0 b st Hok Hg); [|by auto].
    destruct (committing st !! b) as [[s es]|] eqn:Hc; [|done].
    destruct (ok_guard _ _ Hok _ _ Hg) as [_ Hown].
    destruct (ok_commit _ _ Hok _ _ _ Hc) as (_ & Hown' & Hn & _). congruence.
  - apply (Hwrap owner). destruct (take_ok owner acts s0 b st Hok Hc). auto.
  - apply (Hwrap owner). destruct (emit_ok owner acts s0 b e es st Hok Hc). auto.
  - apply (Hwrap owner). destruct (discard_ok owner acts s0 b st Hok Hg) as [? Hin]. split; [done|].
    intros s Hs. apply Hin. cbn in Hs. apply bool_decide_eq_false_1 in Hs. congruence.
Qed.

(** The function takes steps. *)
Lemma do_action_step a st st' : do_action a st = Some st' → action_step a st st'.
Proof.
  destruct a as [e|i|s|s b|b|b|s b]; simpl.
  - destruct (forallb _ _) eqn:Hf; [|done]. intros [= <-]. constructor.
    apply Forall_forall. intros e' He'. rewrite forallb_forall in Hf.
    specialize (Hf e' (proj1 (list_elem_of_In _ _) He')). bools. done.
  - destruct (direct st !! i) as [e|] eqn:Hi; [|done]. intros [= <-].
    pose proof (take_drop_middle _ _ _ Hi) as Hd. apply lookup_lt_Some in Hi.
    assert (i = length (take i (direct st))) as Hlen by (rewrite length_take; lia).
    rewrite Hlen at 1. by apply step_deliver.
  - intros [= <-]. constructor.
  - case_bool_decide; [|done]. intros [= <-]. by constructor.
  - destruct (committing st !! b) as [[s [|e es]]|] eqn:Hc; try done. intros [= <-]. by constructor.
  - destruct (committing st !! b) as [[s [|e es]]|] eqn:Hc; try done. intros [= <-]. by constructor.
  - case_bool_decide; [|done]. intros [= <-]. by constructor.
Qed.

Lemma do_actions_run acts acts' st st' :
  publication_run acts st → foldl (λ o a, o ≫= do_action a) (Some st) acts' = Some st' →
  publication_run (acts ++ acts') st'.
Proof.
  revert acts st; induction acts' as [|a acts' IH]; intros acts st Hr; simpl.
  { intros [= <-]. by rewrite app_nil_r. }
  destruct (do_action a st) as [st1|] eqn:Ha.
  - intros Hf. change (a :: acts') with ([a] ++ acts'). rewrite (assoc_L (++)).
    apply (IH _ st1); [|done]. eapply run_step; [done|by apply do_action_step].
  - intros Hf. exfalso. clear -Hf. induction acts'; simpl in *; [done|auto].
Qed.

(** ** Property *)

(** Deferring publication loses, duplicates and reorders nothing: in every
    interleaving of the lane of a session with threads that defer and commit, and as long
    as no guard of the session is dropped, the events of the session the observer got,
    the one it is about to get, and the held back ones are the events published, in
    order; in particular, when the session is not deferred and no event is in flight, the
    observer got every event in order. *)
Theorem deferred_publication_in_order acts st s :
  publication_run acts st → Forall (λ a, discards s a = false) acts →
  of_session s (observed st) ++ of_session s (direct st) ++ held s st
    = of_session s (published_events acts) ∧
  (deferred st !! s = None → of_session s (direct st) = [] →
   of_session s (observed st) = of_session s (published_events acts)).
Proof.
  intros Hrun Hf. destruct (run_ok acts st Hrun) as (owner & _ & Hord). specialize (Hord s Hf).
  split; [done|]. unfold in_order, held. intros Hd Hdir. unfold in_order, held in Hord.
  by rewrite Hd, Hdir, !app_nil_r in Hord.
Qed.
End publication.
Arguments PublicationState LP : clear implicits.
Arguments Action LP : clear implicits.

(** ** Witness: the lane publishes while a guard is committed *)

Definition sample_live (id : string) : Event () :=
  Event_from_live (EventEnvelope_new (EventId_new id) 0%Z (SessionId_new "s") None ()).

Definition deferred_actions : list (Action ()) :=
  [Act_Publish (sample_live "a"); Act_Deliver 0; Act_Defer (SessionId_new "s");
   Act_Publish (sample_live "b"); Act_Commit (SessionId_new "s") 0; Act_Take 0;
   Act_Publish (sample_live "c"); Act_Emit 0; Act_Take 0; Act_Emit 0; Act_Take 0;
   Act_Publish (sample_live "d"); Act_Deliver 0].

Definition deferred_final : PublicationState () :=
  default publication_new
    (foldl (λ o a, o ≫= do_action a) (Some publication_new) deferred_actions).

Lemma deferred_publication_in_order_witness :
  of_session (SessionId_new "s") (observed deferred_final)
    = map sample_live ["a"; "b"; "c"; "d"].
Proof.
  destruct (deferred_publication_in_order deferred_actions deferred_final (SessionId_new "s"))
    as [_ Hall].
  - apply (do_actions_run [] deferred_actions publication_new); [constructor|].
    vm_compute. reflexivity.
  - repeat constructor.
  - rewrite Hall; vm_compute; reflexivity.
Defined.
