(* ===== verification/StdPath.v ===== *)
(** * Paths as [std::path] reads them on Unix

    What the permission and lease code uses of [Path] and [PathBuf]: components,
    [starts_with], [strip_prefix], [parent], [push], [pop], and the order of paths.  A path
    is its string; [to_string_lossy] and [display] are the identity on it. *)

From S2P Require Import Prelude.

Abbreviation slash := "/"%char.

(** ** Segments between separators *)

(** [str::split(c)]. *)
Fixpoint split_byte (c : ascii) (s : string) : list string :=
  match s with
  | EmptyString => [""]
  | String d r =>
    if bool_decide (d = c) then "" :: split_byte c r
    else match split_byte c r with
    | x :: xs => String d x :: xs
    | [] => [String d ""]
    end
  end.

Definition has_byte (c : ascii) (s : string) : bool :=
  existsb (λ d, bool_decide (d = c)) (String.list_ascii_of_string s).

(** [Path::has_root]; on Unix also [Path::is_absolute]. *)
Definition has_root (p : string) : bool :=
  match p with String c _ => bool_decide (c = slash) | _ => false end.

Definition is_absolute (p : string) : bool := has_root p.

Definition segments (p : string) : list string :=
  match p with
  | String c r => if bool_decide (c = slash) then split_byte slash r else split_byte slash p
  | EmptyString => [""]
  end.

(** The string of a path with or without a root and with the given segments. *)
Definition of_segments (root : bool) (segs : list string) : string :=
  (if root then "/" else "") +:+ join "/" segs.

(** ** Components *)

Inductive Component :=
| RootDir
| CurDir
| ParentDir
| Normal (name : string).

#[export] Instance Component_eq_dec : EqDecision Component.
Proof. solve_decision. Defined.

(** A segment that [Components] passes over. *)
Definition is_skipped (seg : string) : bool := bool_decide (seg = "") || bool_decide (seg = ".").

Definition to_component (seg : string) : option Component :=
  if is_skipped seg then None
  else if bool_decide (seg = "..") then Some ParentDir else Some (Normal seg).

(** A leading [.] of a relative path is a component. *)
Definition include_cur_dir (p : string) : bool :=
  negb (has_root p) && bool_decide (head (segments p) = Some ".").

(** [Path::components]. *)
Definition components (p : string) : list Component :=
  (if has_root p then [RootDir] else if include_cur_dir p then [CurDir] else [])
  ++ omap to_component (segments p).

(** [iter_after]: what is left of [l] after the prefix [pre]. *)
Fixpoint iter_after (l pre : list Component) : option (list Component) :=
  match pre, l with
  | [], _ => Some l
  | c :: pre, d :: l => if bool_decide (c = d) then iter_after l pre else None
  | _ :: _, [] => None
  end.

(** [Path::starts_with] and the equality of paths. *)
Definition path_starts_with (p base : string) : bool :=
  bool_decide (is_Some (iter_after (components p) (components base))).
Definition path_eq (p q : string) : bool := bool_decide (components p = components q).

(** [Components::as_path] trims the segments it would skip at either open end. *)
Fixpoint trim_left (segs : list string) : list string :=
  match segs with
  | s :: r => if is_skipped s then trim_left r else segs
  | [] => []
  end.
Definition trim_right (segs : list string) : list string := reverse (trim_left (reverse segs)).

(** The segments left when [n] components have been taken from the front. *)
Fixpoint drop_components (n : nat) (segs : list string) : list string :=
  match n, segs with
  | S k, s :: r => drop_components (if is_skipped s then n else k) r
  | _, _ => segs
  end.

(** The segments before the body: a leading [.] that counts as a component. *)
Definition before_body (p : string) : list string := if include_cur_dir p then ["."] else [].
Definition body (p : string) : list string :=
  if include_cur_dir p then tail (segments p) else segments p.

(** [Components::as_path] after [n] calls of [next]. *)
Definition rest_path (n : nat) (p : string) : string :=
  match n with
  | O => of_segments (has_root p) (before_body p ++ trim_right (body p))
  | S k =>
    let n := if has_root p || include_cur_dir p then k else n in
    of_segments false (trim_right (trim_left (drop_components n (segments p))))
  end.

(** [Path::strip_prefix], [None] standing for its error. *)
Definition strip_prefix (p base : string) : option string :=
  match iter_after (components p) (components base) with
  | Some _ => Some (rest_path (length (components base)) p)
  | None => None
  end.

(** [Path::parent]. *)
Definition parent (p : string) : option string :=
  match reverse (trim_right (body p)) with
  | _ :: r => Some (of_segments (has_root p) (before_body p ++ trim_right (reverse r)))
  | [] => if include_cur_dir p then Some "" else None
  end.

(** [Path::ancestors]; every step shortens the path. *)
Fixpoint ancestors_fuel (fuel : nat) (p : string) : list string :=
  match fuel with
  | O => []
  | S fuel =>
    p :: match parent p with Some q => ancestors_fuel fuel q | None => [] end
  end.
Definition ancestors (p : string) : list string := ancestors_fuel (S (String.length p)) p.

(** [PathBuf::push] and [Path::join]. *)
Definition path_push (p q : string) : string :=
  if has_root q then q
  else if is_empty p || ends_with p "/" then p +:+ q
  else p +:+ "/" +:+ q.
Abbreviation path_join := path_push.

(** [PathBuf::pop]: the path stays as it is when it has no parent. *)
Definition path_pop (p : string) : string := default p (parent p).

(** [normalized.push(component)]. *)
Definition component_str (c : Component) : string :=
  match c with RootDir => "/" | CurDir => "." | ParentDir => ".." | Normal s => s end.

(** ** The order of paths *)

Definition component_rank (c : Component) : N :=
  match c with RootDir => 0 | CurDir => 1 | ParentDir => 2 | Normal _ => 3 end.

(** [Ord for Component]. *)
Definition component_cmp (c d : Component) : comparison :=
  match c, d with
  | Normal a, Normal b => String.compare a b
  | _, _ => N.compare (component_rank c) (component_rank d)
  end.

Fixpoint components_cmp (l m : list Component) : comparison :=
  match l, m with
  | [], [] => Eq
  | [], _ :: _ => Lt
  | _ :: _, [] => Gt
  | c :: l, d :: m => match component_cmp c d with Eq => components_cmp l m | r => r end
  end.

Definition path_cmp (p q : string) : comparison := components_cmp (components p) (components q).

(** [Vec::sort] on paths is stable; so is insertion in front of the equal elements, from the last element on. *)
Fixpoint path_insert (p : string) (l : list string) : list string :=
  match l with
  | [] => [p]
  | q :: r => match path_cmp p q with Gt => q :: path_insert p r | _ => p :: l end
  end.
Definition path_sort (l : list string) : list string := foldr path_insert [] l.

(** [Vec::dedup]: the first of each run of equal elements stays. *)
Fixpoint path_dedup_from (last : string) (l : list string) : list string :=
  match l with
  | [] => []
  | q :: r => if path_eq q last then path_dedup_from last r else q :: path_dedup_from q r
  end.
Definition path_dedup (l : list string) : list string :=
  match l with [] => [] | p :: r => p :: path_dedup_from p r end.

(** ** Strings and segments *)

Lemma str_app_cons d a b : String d a +:+ b = String d (a +:+ b).
Proof. done. Qed.

Lemma str_app_nil_l a : "" +:+ a = a.
Proof. done. Qed.

Lemma str_app_assoc a b c : a +:+ (b +:+ c) = (a +:+ b) +:+ c.
Proof. induction a as [|d a IH]; [done|]. by rewrite !str_app_cons, IH. Qed.

Lemma str_app_nil_r a : a +:+ "" = a.
Proof. induction a as [|d a IH]; [done|]. by rewrite !str_app_cons, IH. Qed.

Lemma str_length_app a b : String.length (a +:+ b) = String.length a + String.length b.
Proof. induction a as [|d a IH]; [done|]. rewrite str_app_cons. simpl. by rewrite IH. Qed.

Lemma split_byte_nonempty c s : split_byte c s ≠ [].
Proof. induction s as [|d s IH]; simpl; [done|]. case_bool_decide; [done|]. by case_match. Qed.

Lemma join_cons sep s l : l ≠ [] → join sep (s :: l) = s +:+ sep +:+ join sep l.
Proof. by destruct l. Qed.

Lemma has_byte_cons c d s : has_byte c (String d s) = bool_decide (d = c) || has_byte c s.
Proof. done. Qed.

(** Joining the segments gives the string back. *)
Lemma join_split_byte s : join "/" (split_byte slash s) = s.
Proof.
  induction s as [|d s IH]; [done|]. cbn [split_byte].
  pose proof (split_byte_nonempty slash s) as Hne. case_bool_decide as Hd.
  - rewrite join_cons by done. rewrite IH. by subst.
  - destruct (split_byte slash s) as [|x xs]; [done|]. rewrite <-IH.
    by destruct xs.
Qed.

Lemma split_byte_app_sep c a b :
  has_byte c a = false → split_byte c (a +:+ String c b) = a :: split_byte c b.
Proof.
  induction a as [|d a IH]; simpl; [by rewrite bool_decide_true|].
  rewrite has_byte_cons. intros [Hd Ha]%orb_false_iff. rewrite Hd, IH by done. done.
Qed.

Lemma split_byte_none c a : has_byte c a = false → split_byte c a = [a].
Proof.
  induction a as [|d a IH]; simpl; [done|].
  rewrite has_byte_cons. intros [Hd Ha]%orb_false_iff. by rewrite Hd, IH.
Qed.

(** Segments without a separator are found again. *)
Lemma split_byte_join l :
  l ≠ [] → Forall (λ s, has_byte slash s = false) l → split_byte slash (join "/" l) = l.
Proof.
  induction l as [|s l IH]; [done|]. intros _ [Hs Hl]%Forall_cons.
  destruct l as [|t l]; [by apply split_byte_none|].
  rewrite join_cons by done.
  change (s +:+ "/" +:+ join "/" (t :: l)) with (s +:+ String slash (join "/" (t :: l))).
  rewrite split_byte_app_sep by done. by rewrite IH.
Qed.

(** ** Canonical strings

    A name a path can consist of, and paths made of names. *)

Definition plain (s : string) : Prop :=
  s ≠ "" ∧ s ≠ "." ∧ s ≠ ".." ∧ has_byte slash s = false.

Lemma plain_component s : plain s → to_component s = Some (Normal s).
Proof.
  intros (? & ? & ? & _). unfold to_component, is_skipped.
  by rewrite !bool_decide_false by done.
Qed.

Lemma plain_not_skipped s : plain s → is_skipped s = false.
Proof. intros (? & ? & _). unfold is_skipped. by rewrite !bool_decide_false. Qed.

Lemma plain_no_sep names : Forall plain names → Forall (λ s, has_byte slash s = false) names.
Proof. intros H. eapply Forall_impl; [exact H|]. by intros s (_ & _ & _ & ?). Qed.

Lemma join_app_r sep l s : l ≠ [] → join sep (l ++ [s]) = join sep l +:+ sep +:+ s.
Proof.
  induction l as [|x l IH]; [done|]. intros _. destruct l as [|y l]; [done|].
  change ((x :: y :: l) ++ [s]) with (x :: ((y :: l) ++ [s])).
  rewrite (join_cons sep x ((y :: l) ++ [s])) by done. rewrite IH by done.
  rewrite (join_cons sep x (y :: l)) by done. by rewrite !str_app_assoc.
Qed.

Lemma plain_head_no_root s r : plain s → has_root (s +:+ r) = false.
Proof.
  intros (Hne & _ & _ & Hs). destruct s as [|c s]; [done|]. simpl.
  rewrite has_byte_cons in Hs. by apply orb_false_iff in Hs as [-> _].
Qed.

Lemma plain_no_root s : plain s → has_root s = false.
Proof. intros Hs. pose proof (plain_head_no_root s "" Hs) as H. by rewrite str_app_nil_r in H. Qed.

Lemma has_root_of_segments root names :
  Forall plain names → has_root (of_segments root names) = root.
Proof.
  intros Hn. destruct root; [done|]. unfold of_segments.
  destruct names as [|s names]; [done|]. apply Forall_cons in Hn as [Hs _].
  rewrite str_app_nil_l. destruct names as [|t names]; [by apply plain_no_root|].
  rewrite join_cons by done. by apply plain_head_no_root.
Qed.

Lemma segments_of_segments root names :
  Forall plain names →
  segments (of_segments root names) = if decide (names = []) then [""] else names.
Proof.
  intros Hn. pose proof (has_root_of_segments false names Hn) as Hr.
  assert (split_byte slash (join "/" names) = if decide (names = []) then [""] else names) as Hs.
  { case_decide; [by subst|]. apply split_byte_join; [done|by apply plain_no_sep]. }
  destruct root; [done|]. unfold of_segments in *. rewrite str_app_nil_l in *.
  destruct (join "/" names) as [|c r]; [exact Hs|].
  unfold segments. unfold has_root in Hr. by rewrite Hr.
Qed.

Lemma omap_plain names : Forall plain names → omap to_component names = Normal <$> names.
Proof.
  induction 1 as [|s l Hs _ IH]; [done|]. csimpl. rewrite (plain_component s Hs).
  csimpl. by rewrite IH.
Qed.

Lemma include_cur_dir_plain root names :
  Forall plain names → include_cur_dir (of_segments root names) = false.
Proof.
  intros Hn. unfold include_cur_dir. rewrite segments_of_segments by done.
  apply andb_false_iff. right. apply bool_decide_eq_false.
  case_decide; [done|]. destruct Hn as [|s ? (_ & ? & _)]; [done|]. simpl. congruence.
Qed.

Lemma components_of_segments root names :
  Forall plain names →
  components (of_segments root names) = (if root then [RootDir] else []) ++ (Normal <$> names).
Proof.
  intros Hn. unfold components.
  rewrite has_root_of_segments, include_cur_dir_plain, segments_of_segments by done.
  f_equal. case_decide; [by subst|by apply omap_plain].
Qed.

Lemma ends_with_cons c p : p ≠ "" → ends_with (String c p) "/" = ends_with p "/".
Proof.
  destruct p as [|d p]; [done|]. intros _. unfold ends_with. simpl String.length.
  rewrite Nat.sub_1_r. simpl Nat.pred. rewrite Nat.sub_1_r. done.
Qed.

Lemma ends_with_slash p s : plain s → ends_with (p +:+ s) "/" = false.
Proof.
  intros (Hne & _ & _ & Hs). induction p as [|c p IH].
  - rewrite str_app_nil_l. induction s as [|c s IHs]; [done|]. rewrite has_byte_cons in Hs.
    apply orb_false_iff in Hs as [Hc Hs]. destruct (decide (s = "")) as [->|].
    + unfold ends_with. simpl. apply bool_decide_eq_false in Hc.
      apply bool_decide_eq_false. congruence.
    + rewrite ends_with_cons by done. by apply IHs.
  - rewrite str_app_cons, ends_with_cons; [done|]. destruct p, s; done.
Qed.

Lemma Forall_snoc_inv {A} (P : A → Prop) l x : Forall P (l ++ [x]) → Forall P l ∧ P x.
Proof. by rewrite Forall_app, Forall_singleton. Qed.

Lemma ends_with_segments root names :
  Forall plain names → names ≠ [] → ends_with (of_segments root names) "/" = false.
Proof.
  intros Hn Hne. destruct (exists_last Hne) as (l & s & ->).
  apply Forall_snoc_inv in Hn as [_ Hs]. unfold of_segments.
  destruct l as [|x l]; [by apply ends_with_slash|].
  rewrite join_app_r by done. rewrite !str_app_assoc. by apply ends_with_slash.
Qed.

(** Pushing a name appends it. *)
Lemma path_push_plain root names s :
  Forall plain names → plain s →
  path_push (of_segments root names) s = of_segments root (names ++ [s]).
Proof.
  intros Hn Hs. unfold path_push.
  rewrite plain_no_root by done.
  destruct (decide (names = [])) as [->|Hne]; [by destruct root|].
  rewrite ends_with_segments by done. unfold of_segments. rewrite join_app_r by done.
  assert (join "/" names ≠ "") as Hj.
  { destruct Hn as [|t l (Ht & _) _]; [done|]. destruct l; [done|].
    rewrite join_cons by done. by destruct t. }
  destruct root, (join "/" names); try done; rewrite ?str_app_nil_l, ?str_app_assoc; done.
Qed.

Lemma trim_right_plain l s : plain s → trim_right (l ++ [s]) = l ++ [s].
Proof.
  intros Hs. unfold trim_right. rewrite reverse_snoc. simpl.
  rewrite plain_not_skipped by done. by rewrite reverse_cons, reverse_involutive.
Qed.

Lemma trim_right_all names : Forall plain names → trim_right names = names.
Proof.
  destruct (decide (names = [])) as [->|Hne]; [done|]. intros Hn.
  destruct (exists_last Hne) as (l & s & ->). apply trim_right_plain.
  by apply Forall_snoc_inv in Hn as [_ ?].
Qed.

(** Popping drops the last name; without names nothing changes. *)
Lemma path_pop_plain root names :
  Forall plain names → path_pop (of_segments root names) = of_segments root (take (pred (length names)) names).
Proof.
  intros Hn. unfold path_pop, parent, body, before_body.
  rewrite include_cur_dir_plain, segments_of_segments, has_root_of_segments by done.
  case_decide as Hd; [by subst|]. destruct (exists_last Hd) as (l & s & ->).
  pose proof Hn as [Hl Hs]%Forall_snoc_inv.
  rewrite trim_right_plain, reverse_snoc by done. simpl.
  rewrite length_app, Nat.add_1_r. simpl.
  by rewrite reverse_involutive, trim_right_all, take_app_length by done.
Qed.

Lemma split_byte_no_sep c s : Forall (λ x, has_byte c x = false) (split_byte c s).
Proof.
  induction s as [|d s IH]; simpl; [by repeat constructor|].
  case_bool_decide as Hd; [by constructor|]. destruct (split_byte c s) as [|x xs].
  - constructor; [|constructor]. rewrite has_byte_cons. by rewrite bool_decide_false.
  - apply Forall_cons in IH as [Hx Hxs]. constructor; [|done].
    rewrite has_byte_cons. by rewrite bool_decide_false.
Qed.

Lemma segments_no_sep p : Forall (λ x, has_byte slash x = false) (segments p).
Proof.
  destruct p as [|c r]; [by repeat constructor|]. unfold segments.
  case_bool_decide; apply split_byte_no_sep.
Qed.

(** The names among the components of any path are plain, and a root comes first only. *)
Lemma components_plain p s : Normal s ∈ components p → plain s.
Proof.
  unfold components. rewrite elem_of_app. intros [H|H].
  { destruct (has_root p), (include_cur_dir p); set_solver. }
  apply list_elem_of_omap in H as (x & Hx & Hc).
  pose proof (segments_no_sep p) as Hsep. rewrite Forall_forall in Hsep.
  specialize (Hsep x Hx). unfold to_component, is_skipped in Hc.
  destruct (bool_decide_reflect (x = "")); [done|].
  destruct (bool_decide_reflect (x = ".")); [done|]. simpl in Hc.
  destruct (bool_decide_reflect (x = "..")); [done|]. by simplify_eq.
Qed.

Lemma components_root p :
  ∃ l, components p = (if has_root p then [RootDir] else []) ++ l ∧ RootDir ∉ l.
Proof.
  unfold components. destruct (has_root p) eqn:Hr; simpl.
  - eexists; split; [done|]. intros (x & _ & Hx)%list_elem_of_omap.
    unfold to_component in Hx. cases.
  - eexists; split; [done|]. rewrite elem_of_app. intros [H|(x & _ & Hx)%list_elem_of_omap].
    + destruct (include_cur_dir p); set_solver.
    + unfold to_component in Hx. cases.
Qed.

(** ** Lexical meaning

    The directory a path names when [..] undoes the name before it and stops at the root:
    a stack of names. *)

Definition lexical_step (names : list string) (c : Component) : list string :=
  match c with
  | RootDir | CurDir => names
  | ParentDir => take (pred (length names)) names
  | Normal s => names ++ [s]
  end.
Definition lexical (p : string) : list string := foldl lexical_step [] (components p).

Lemma lexical_step_plain names c :
  Forall plain names → (∀ s, c = Normal s → plain s) → Forall plain (lexical_step names c).
Proof.
  intros Hn Hc. destruct c as [| | |s]; simpl; [done..|by apply Forall_take|].
  apply Forall_app; split; [done|]. constructor; [by apply Hc|constructor].
Qed.

Lemma foldl_lexical_plain l names :
  Forall plain names → (∀ s, Normal s ∈ l → plain s) → Forall plain (foldl lexical_step names l).
Proof.
  revert names; induction l as [|c l IH]; intros names Hn Hl; simpl; [done|].
  apply IH; [|set_solver]. apply lexical_step_plain; [done|]. intros s ->. apply Hl. set_solver.
Qed.

Lemma lexical_plain p : Forall plain (lexical p).
Proof. apply foldl_lexical_plain; [constructor|apply components_plain]. Qed.

Lemma iter_after_prefix l pre : is_Some (iter_after l pre) ↔ pre `prefix_of` l.
Proof.
  revert l; induction pre as [|c pre IH]; intros [|d l]; simpl.
  - split; [intros _; by exists []|by eexists].
  - split; [intros _; apply prefix_nil|by eexists].
  - split; [by intros []|]. by intros [? [=]].
  - case_bool_decide as Hc; [subst; rewrite IH; split|split].
    + apply prefix_cons.
    + apply prefix_cons_inv_2.
    + by intros [].
    + intros ->%prefix_cons_inv_1. done.
Qed.

Lemma path_starts_with_spec p base :
  path_starts_with p base = true ↔ components base `prefix_of` components p.
Proof. unfold path_starts_with. rewrite bool_decide_eq_true. apply iter_after_prefix. Qed.

#[export] Hint Resolve lexical_plain : astr.
