(* ===== verification/StdStr.v ===== *)
(** * Strings as [std::str] cuts them

    What the compaction code uses of [str] beyond the prelude: characters, lines, words,
    searching, stripping and replacing, with the lemmas on lengths and on trimming a text
    that is wrapped in others. *)

From S2P Require Import Prelude Utf8 StdPath.

Abbreviation lf := (ascii_of_N 10).

(** ** Characters *)

(** [str::chars]: a character starts at every byte that does not continue one. *)
Fixpoint chars (s : string) : list string :=
  match s with
  | EmptyString => []
  | String a r =>
    let cs := chars r in
    match cs with
    | c :: rest =>
      if (match r with String b _ => is_cont b | EmptyString => false end)
      then String a c :: rest else String a "" :: cs
    | [] => [String a ""]
    end
  end.

(** [char::is_whitespace] and [char::is_ascii_whitespace]. *)
Definition is_whitespace (c : string) : bool :=
  match String.list_ascii_of_string c with
  | [a] => ws1 a
  | [a; b] => ws2 a b
  | [a; b; c] => ws3 a b c
  | _ => false
  end.

Definition is_ascii_whitespace (a : ascii) : bool := byte_in a 9 10 || byte_in a 12 13 || byte_in a 32 32.

(** [s.chars().count()] and [s.chars().take(n).collect::<String>()]. *)
Definition char_count (s : string) : N := N.of_nat (length (chars s)).
Definition concat_str (l : list string) : string := foldr String.append "" l.
Definition chars_take (n : N) (s : string) : string := concat_str (take (N.to_nat n) (chars s)).

(** ** Searching and stripping *)

(** [str::find] with a string. *)
Fixpoint str_find (s pat : string) : option nat :=
  if starts_with s pat then Some 0
  else match s with
  | EmptyString => None
  | String _ r => S <$> str_find r pat
  end.

(** [&s[n..]] and [&s[..n]] at a boundary. *)
Fixpoint str_drop (n : nat) (s : string) : string :=
  match n, s with
  | O, _ => s
  | S n, String _ r => str_drop n r
  | S _, EmptyString => EmptyString
  end.
Fixpoint str_take (n : nat) (s : string) : string :=
  match n, s with
  | S n, String c r => String c (str_take n r)
  | _, _ => EmptyString
  end.

Definition str_strip_prefix (s pre : string) : option string :=
  if starts_with s pre then Some (str_drop (String.length pre) s) else None.
Definition str_strip_suffix (s suf : string) : option string :=
  if ends_with s suf then Some (str_take (String.length s - String.length suf) s) else None.

(** [str::rsplit_once] at a one-byte character. *)
Definition rsplit_once (c : ascii) (s : string) : option (string * string) :=
  let parts := split_byte c s in
  match parts, last parts with
  | _ :: _ :: _, Some l => Some (join (String c "") (removelast parts), l)
  | _, _ => None
  end.

(** [str::trim_matches] for a set of ASCII characters. *)
Fixpoint strip_bytes (p : ascii → bool) (l : list ascii) : list ascii :=
  match l with
  | a :: r => if p a then strip_bytes p r else l
  | [] => []
  end.
Definition trim_matches (p : ascii → bool) (s : string) : string :=
  String.string_of_list_ascii
    (rev (strip_bytes p (rev (strip_bytes p (String.list_ascii_of_string s))))).

Definition eq_ignore_ascii_case (a b : string) : bool :=
  bool_decide (to_ascii_lowercase a = to_ascii_lowercase b).

(** [str::replace] with a pattern that is not empty; [skip] bytes belong to the occurrence
    that was just replaced. *)
Fixpoint replace_from (skip : nat) (s pat by_ : string) : string :=
  match s with
  | EmptyString => EmptyString
  | String c r =>
    match skip with
    | S skip => replace_from skip r pat by_
    | O =>
      if starts_with s pat then by_ +:+ replace_from (pred (String.length pat)) r pat by_
      else String c (replace_from 0 r pat by_)
    end
  end.
Definition str_replace (s pat by_ : string) : string := replace_from 0 s pat by_.

(** ** Lines and words *)

Definition strip_cr_end (s : string) : string :=
  default s (str_strip_suffix s (String (ascii_of_N 13) "")).

(** [str::lines]: every line but the last was ended by a line feed, with the carriage return
    before it. *)
Definition lines (s : string) : list string :=
  let parts := split_byte lf s in
  (strip_cr_end <$> removelast parts)
  ++ match last parts with
     | Some l => if is_empty l then [] else [l]
     | None => []
     end.

Fixpoint words_from (token : string) (cs : list string) : list string :=
  match cs with
  | [] => if is_empty token then [] else [token]
  | c :: cs =>
    if is_whitespace c then (if is_empty token then [] else [token]) ++ words_from "" cs
    else words_from (token +:+ c) cs
  end.

(** [str::split_whitespace]. *)
Definition split_whitespace (s : string) : list string := words_from "" (chars s).

(** ** Lengths *)

Abbreviation len := String.length.

Lemma length_list_ascii s : length (String.list_ascii_of_string s) = len s.
Proof. induction s; simpl; congruence. Qed.

Lemma length_string_of_list l : len (String.string_of_list_ascii l) = length l.
Proof. induction l; simpl; congruence. Qed.

Lemma strip_ws_length w2 w3 l : length (strip_ws w2 w3 l) ≤ length l.
Proof.
  induction l as [l IH] using (induction_ltof1 _ (@length ascii)). unfold ltof in IH.
  destruct l as [|a [|b [|c r]]]; simpl; repeat case_match; simpl; try lia.
  all: try (etrans; [apply IH; simpl; lia|simpl; lia]).
Qed.

Lemma strip_ws_shorter w2 w3 l : strip_ws w2 w3 l = l ∨ length (strip_ws w2 w3 l) < length l.
Proof.
  destruct l as [|a r]; [by left|]. pose proof (strip_ws_length w2 w3 r) as H1.
  destruct (ws1 a) eqn:Ha; [right; simpl; rewrite Ha; simpl; lia|].
  destruct r as [|b r]; [left; simpl; by rewrite Ha|]. pose proof (strip_ws_length w2 w3 r) as H2.
  destruct (w2 a b) eqn:Hb; [right; simpl; rewrite Ha, Hb; simpl; lia|].
  destruct r as [|c r]; [left; simpl; by rewrite Ha, Hb|]. pose proof (strip_ws_length w2 w3 r) as H3.
  destruct (w3 a b c) eqn:Hc; [right|left]; simpl; rewrite Ha, Hb, Hc; simpl; [lia|done].
Qed.

Lemma trim_start_length s : len (trim_start s) ≤ len s.
Proof. unfold trim_start. rewrite length_string_of_list, <-(length_list_ascii s). apply strip_ws_length. Qed.

Lemma trim_end_length s : len (trim_end s) ≤ len s.
Proof.
  unfold trim_end. rewrite length_string_of_list, length_rev.
  etrans; [apply strip_ws_length|]. by rewrite length_rev, length_list_ascii.
Qed.

Lemma trim_length s : len (trim s) ≤ len s.
Proof. unfold trim. etrans; [apply trim_end_length|apply trim_start_length]. Qed.

Lemma trim_start_shorter s : trim_start s = s ∨ len (trim_start s) < len s.
Proof.
  unfold trim_start. rewrite length_string_of_list.
  destruct (strip_ws_shorter ws2 ws3 (String.list_ascii_of_string s)) as [->|H].
  - left. apply String.string_of_list_ascii_of_string.
  - right. by rewrite length_list_ascii in H.
Qed.

Lemma trim_end_shorter s : trim_end s = s ∨ len (trim_end s) < len s.
Proof.
  unfold trim_end. rewrite length_string_of_list, length_rev.
  destruct (strip_ws_shorter (λ a b, ws2 b a) (λ a b c, ws3 c b a) (rev (String.list_ascii_of_string s))) as [->|H].
  - left. rewrite rev_involutive. apply String.string_of_list_ascii_of_string.
  - right. by rewrite length_rev, length_list_ascii in H.
Qed.

Lemma trim_shorter s : trim s = s ∨ len (trim s) < len s.
Proof.
  unfold trim. destruct (trim_start_shorter s) as [->|H]; [apply trim_end_shorter|].
  right. eapply Nat.le_lt_trans; [apply trim_end_length|done].
Qed.

Lemma str_take_length n s : len (str_take n s) ≤ len s.
Proof. revert s. induction n as [|n IH]; intros [|c s]; simpl; try lia. specialize (IH s). lia. Qed.

Lemma str_drop_length n s : len (str_drop n s) = len s - n.
Proof. revert s. induction n as [|n IH]; intros [|c s]; simpl; auto. Qed.

Lemma strip_suffix_length s suf r : str_strip_suffix s suf = Some r → len r ≤ len s.
Proof. unfold str_strip_suffix. case_match; [|done]. intros [= <-]. apply str_take_length. Qed.

Lemma strip_cr_length s : len (strip_cr_end s) ≤ len s.
Proof.
  unfold strip_cr_end. destruct (str_strip_suffix s _) eqn:E; simpl; [|done]. by apply strip_suffix_length in E.
Qed.

(** The length of lines joined again. *)
Definition joined_len (l : list string) : nat := sum_list_with (S ∘ len) l.

Lemma join_length sep l : len sep = 1 → l ≠ [] → S (len (join sep l)) = joined_len l.
Proof.
  intros Hsep. induction l as [|s l IH]; [done|]. intros _. destruct l as [|t l]; [unfold joined_len; simpl; lia|].
  rewrite join_cons by done. rewrite !str_length_app, Hsep. specialize (IH ltac:(done)).
  unfold joined_len in *. simpl in *. lia.
Qed.

Lemma split_byte_joined c s : joined_len (split_byte c s) = S (len s).
Proof.
  induction s as [|d s IH]; [done|]. simpl. case_bool_decide.
  - unfold joined_len in *. simpl. lia.
  - destruct (split_byte c s) eqn:E; [by apply split_byte_nonempty in E|]. unfold joined_len in *. simpl in *. lia.
Qed.

Lemma joined_len_app l1 l2 : joined_len (l1 ++ l2) = joined_len l1 + joined_len l2.
Proof. unfold joined_len. by rewrite sum_list_with_app. Qed.

(** Dropping the first line makes a text shorter. *)
Lemma lines_joined s : joined_len (lines s) ≤ S (len s).
Proof.
  unfold lines. rewrite <-(split_byte_joined lf s).
  pose proof (split_byte_nonempty lf s) as Hne.
  destruct (last (split_byte lf s)) as [l|] eqn:Hl; [|by apply last_None in Hl].
  apply last_Some in Hl as [parts ->]. rewrite removelast_last, !joined_len_app.
  assert (joined_len (strip_cr_end <$> parts) ≤ joined_len parts).
  { clear. induction parts as [|p parts IH]; [done|]. rewrite fmap_cons. unfold joined_len in *. cbn [sum_list_with].
    pose proof (strip_cr_length p). unfold compose in *. lia. }
  destruct l; unfold joined_len in *; simpl; lia.
Qed.

Lemma rest_shorter s first rest :
  s ≠ "" → lines s = first :: rest → len (join newline rest) < len s.
Proof.
  intros Hs Hl. pose proof (lines_joined s) as H. rewrite Hl in H. unfold joined_len in H. simpl in H.
  destruct rest as [|x rest]; [destruct s; [done|simpl; lia]|].
  pose proof (join_length newline (x :: rest) eq_refl ltac:(done)) as Hj. unfold joined_len in Hj. simpl in *. lia.
Qed.

(** ** Trimming inside a text *)

(** An ASCII character that is not white space. *)
Definition solid (a : ascii) : bool := byte_in a 0 127 && negb (ws1 a).

Definition plain_ascii (a : ascii) : Prop := (N_of_ascii a < 128)%N.

Lemma byte_in_false a lo hi : (N_of_ascii a < lo)%N → byte_in a lo hi = false.
Proof.
  intros H. destruct (byte_in a lo hi) eqn:E; [|done]. apply byte_in_spec in E. lia.
Qed.

Lemma ascii_not_ws2 a b : plain_ascii a ∨ plain_ascii b → ws2 a b = false.
Proof.
  unfold plain_ascii, ws2. intros [H|H].
  - by rewrite (byte_in_false a) by lia.
  - rewrite !(byte_in_false b) by lia. by rewrite andb_false_r.
Qed.

Lemma ascii_not_ws3 a b c : plain_ascii a ∨ plain_ascii b ∨ plain_ascii c → ws3 a b c = false.
Proof.
  unfold plain_ascii, ws3. intros [H|[H|H]].
  - rewrite !(byte_in_false a) by lia. done.
  - rewrite !(byte_in_false b) by lia. by rewrite !andb_false_r.
  - rewrite !(byte_in_false c) by lia. by rewrite !andb_false_r.
Qed.

Lemma solid_spec a : solid a = true → plain_ascii a ∧ ws1 a = false.
Proof.
  unfold solid. intros [H1%byte_in_spec H2%negb_true_iff]%andb_true_iff. split; [unfold plain_ascii; lia|done].
Qed.

Lemma strip_ws_stop w2 w3 a l :
  ws1 a = false → (∀ b, w2 a b = false) → (∀ b c, w3 a b c = false) → strip_ws w2 w3 (a :: l) = a :: l.
Proof. intros H1 H2 H3. destruct l as [|b [|c l]]; simpl; by rewrite H1, ?H2, ?H3. Qed.

(** What stops inside [l] stops there in a longer text whose next byte belongs to no white
    space of several bytes. *)
Lemma strip_ws_app w2 w3 l m0 m :
  l ≠ [] → strip_ws w2 w3 l = l →
  (∀ x, w2 x m0 = false) → (∀ x y, w3 x y m0 = false) → (∀ x y, w3 x m0 y = false) →
  strip_ws w2 w3 (l ++ m0 :: m) = l ++ m0 :: m.
Proof.
  intros Hne Hl H2 H3 H3'.
  assert (∀ a k, strip_ws w2 w3 k ≠ a :: k) as Hlen.
  { intros a k E. pose proof (strip_ws_length w2 w3 k) as H. rewrite E in H. simpl in H. lia. }
  destruct l as [|a [|b [|c l]]]; [done|..]; simpl in *.
  - destruct (ws1 a); [done|]. rewrite H2. destruct m; [done|]. by rewrite H3'.
  - destruct (ws1 a); [by destruct (ws1 b)|]. destruct (w2 a b); [done|]. by rewrite H3.
  - destruct (ws1 a); [by apply (Hlen a (b :: c :: l)) in Hl|]. destruct (w2 a b).
    { pose proof (strip_ws_length w2 w3 (c :: l)) as H. cbn [strip_ws] in H. rewrite Hl in H. simpl in H. lia. }
    destruct (w3 a b c); [|done].
    pose proof (strip_ws_length w2 w3 l) as H. rewrite Hl in H. simpl in H. lia.
Qed.

Lemma string_of_list_of_string s : String.string_of_list_ascii (String.list_ascii_of_string s) = s.
Proof. apply String.string_of_list_ascii_of_string. Qed.

Lemma trim_start_solid a s : solid a = true → trim_start (String a s) = String a s.
Proof.
  intros [Ha Hw]%solid_spec. unfold trim_start. cbn [String.list_ascii_of_string].
  rewrite strip_ws_stop; [cbn; by rewrite string_of_list_of_string|done|..]; intros.
  - apply ascii_not_ws2. by left.
  - apply ascii_not_ws3. by left.
Qed.

Lemma trim_start_ws a s : ws1 a = true → trim_start (String a s) = trim_start s.
Proof. intros H. unfold trim_start. simpl. by rewrite H. Qed.

Lemma rev_list_snoc s a :
  rev (String.list_ascii_of_string (s +:+ String a "")) = a :: rev (String.list_ascii_of_string s).
Proof. rewrite list_ascii_of_string_app. apply rev_app_distr. Qed.

Lemma trim_end_solid s a : solid a = true → trim_end (s +:+ String a "") = s +:+ String a "".
Proof.
  intros [Ha Hw]%solid_spec. unfold trim_end. rewrite rev_list_snoc, strip_ws_stop; [|done|..]; intros.
  - cbn [rev]. rewrite rev_involutive. rewrite <-(string_of_list_of_string (s +:+ _)). by rewrite list_ascii_of_string_app.
  - apply ascii_not_ws2. by right.
  - apply ascii_not_ws3. by right; right.
Qed.

Lemma trim_end_ws s a : ws1 a = true → trim_end (s +:+ String a "") = trim_end s.
Proof. intros H. unfold trim_end. rewrite rev_list_snoc. simpl. by rewrite H. Qed.

(** Nothing to trim at the end of [t], so nothing at the end of a text that ends with it. *)
Lemma trim_end_app s a t :
  plain_ascii a → t ≠ "" → trim_end t = t → trim_end (s +:+ String a t) = s +:+ String a t.
Proof.
  intros Ha Hne Ht. unfold trim_end. rewrite list_ascii_of_string_app. cbn [String.list_ascii_of_string].
  rewrite rev_app_distr. cbn [rev]. rewrite <-app_assoc. cbn [app].
  rewrite strip_ws_app.
  - rewrite rev_app_distr. cbn [rev]. rewrite !rev_involutive, <-app_assoc. cbn [app].
    rewrite <-(string_of_list_of_string (s +:+ String a t)). by rewrite list_ascii_of_string_app.
  - intros H. apply (f_equal (@rev ascii)) in H. rewrite rev_involutive in H. by destruct t.
  - unfold trim_end in Ht. apply (f_equal String.list_ascii_of_string) in Ht.
    rewrite String.list_ascii_of_string_of_list_ascii in Ht. apply (f_equal (@rev ascii)) in Ht.
    by rewrite rev_involutive in Ht.
  - intros. apply ascii_not_ws2. by left.
  - intros. apply ascii_not_ws3. by left.
  - intros. apply ascii_not_ws3. by right; left.
Qed.

Lemma trim_of_trimmed s : trim_start s = s → trim_end s = s → trim s = s.
Proof. intros H1 H2. unfold trim. by rewrite H1. Qed.

(** ** Stripping and splitting what was put together *)

Lemma str_drop_app s t : str_drop (len s) (s +:+ t) = t.
Proof. induction s; [done|]. by rewrite str_app_cons. Qed.

Lemma str_take_app s t : str_take (len s) (s +:+ t) = s.
Proof. induction s as [|c s IH]; [by destruct t|]. rewrite str_app_cons. simpl. by rewrite IH. Qed.

Lemma starts_with_app s t : starts_with (s +:+ t) s = true.
Proof. unfold starts_with. induction s as [|c s IH]; [by destruct t|]. rewrite str_app_cons. simpl. by case_match. Qed.

Lemma strip_prefix_app s t : str_strip_prefix (s +:+ t) s = Some t.
Proof. unfold str_strip_prefix. by rewrite starts_with_app, str_drop_app. Qed.

Lemma substring_app s t n : String.substring (len s) n (s +:+ t) = String.substring 0 n t.
Proof. induction s; [done|]. by rewrite str_app_cons. Qed.

Lemma substring_all t : String.substring 0 (len t) t = t.
Proof. induction t as [|c t IH]; [done|]. simpl. by rewrite IH. Qed.

Lemma ends_with_app s t : ends_with (s +:+ t) t = true.
Proof.
  unfold ends_with. rewrite str_length_app.
  rewrite (proj2 (Nat.leb_le _ _)) by lia. simpl.
  replace (len s + len t - len t) with (len s) by lia. rewrite substring_app, substring_all.
  by apply bool_decide_eq_true.
Qed.

Lemma strip_suffix_app s t : str_strip_suffix (s +:+ t) t = Some s.
Proof.
  unfold str_strip_suffix. rewrite ends_with_app, str_length_app.
  replace (len s + len t - len t) with (len s) by lia. by rewrite str_take_app.
Qed.

Lemma join_split_any c s : join (String c "") (split_byte c s) = s.
Proof.
  induction s as [|d s IH]; [done|]. cbn [split_byte].
  pose proof (split_byte_nonempty c s) as Hne. case_bool_decide as Hd.
  - rewrite join_cons by done. rewrite IH. by subst.
  - destruct (split_byte c s) as [|x xs]; [done|]. rewrite <-IH. by destruct xs.
Qed.

Lemma split_byte_app c s t :
  has_byte c t = false → split_byte c (s +:+ String c t) = split_byte c s ++ [t].
Proof.
  intros Ht. induction s as [|d s IH]; [simpl; by rewrite bool_decide_true, split_byte_none|].
  rewrite str_app_cons. simpl. rewrite IH. case_bool_decide; [done|].
  destruct (split_byte c s) eqn:E; [by apply split_byte_nonempty in E|]. done.
Qed.

Lemma rsplit_once_app c s t : has_byte c t = false → rsplit_once c (s +:+ String c t) = Some (s, t).
Proof.
  intros Ht. unfold rsplit_once. cbv zeta. rewrite split_byte_app by done. rewrite removelast_last, join_split_any.
  pose proof (last_snoc t (split_byte c s)) as Hl. pose proof (split_byte_nonempty c s).
  destruct (split_byte c s ++ [t]) as [|x [|y l]] eqn:E; [done| |by rewrite Hl].
  by destruct (split_byte c s) as [|? []].
Qed.

(** ** Finding what was put in *)

Lemma starts_with_cases a b p :
  starts_with (a +:+ b) p = true → starts_with a p = true ∨ ∃ q, p = a +:+ q ∧ starts_with b q = true.
Proof.
  unfold starts_with. revert p. induction a as [|c a IH]; intros p H; [right; by exists p|].
  destruct p as [|d p]; [by left|]. rewrite str_app_cons in H. simpl in *.
  destruct (ascii_dec d c) as [->|]; [|done].
  destruct (IH p H) as [?|(q & -> & ?)]; [by left|right]. exists q. by rewrite str_app_cons.
Qed.

Lemma has_byte_app c a b : has_byte c (a +:+ b) = has_byte c a || has_byte c b.
Proof. unfold has_byte. by rewrite list_ascii_of_string_app, existsb_app. Qed.

(** A pattern whose first byte does not occur in it again is found where it was put, behind a
    text that does not contain it. *)
Lemma str_find_put c n pre rest :
  has_byte c n = false → str_contains pre (String c n) = false →
  str_find (pre +:+ String c n +:+ rest) (String c n) = Some (len pre).
Proof.
  intros Hn. induction pre as [|d pre IH]; intros Hc.
  - change ("" +:+ String c n +:+ rest) with (String c n +:+ rest).
    pose proof (starts_with_app (String c n) rest) as H.
    destruct (String c n +:+ rest) eqn:E; cbn [str_find]; by rewrite H.
  - simpl in Hc. apply orb_false_iff in Hc as [H1 H2]. rewrite str_app_cons. cbn [str_find].
    destruct (starts_with (String d (pre +:+ String c n +:+ rest)) (String c n)) eqn:E; [exfalso|by rewrite IH].
    change (String d (pre +:+ ?x)) with (String d pre +:+ x) in E.
    apply starts_with_cases in E as [E|(q & Hq & E)]; [unfold starts_with in E; simpl in E; congruence|].
    rewrite str_app_cons in Hq. injection Hq as -> ->. rewrite has_byte_app in Hn.
    apply orb_false_iff in Hn as [_ Hn]. destruct q as [|e q].
    + rewrite str_app_nil_r in H1. unfold starts_with in *. pose proof (starts_with_app (String d pre) "") as Hs.
      rewrite str_app_nil_r in Hs. unfold starts_with in Hs. simpl in *. congruence.
    + unfold starts_with in E. rewrite str_app_cons in E. simpl in E.
      destruct (ascii_dec e d) as [->|]; [|done]. rewrite has_byte_cons, bool_decide_true in Hn by done. done.
Qed.

Lemma lowercase_app a b : to_ascii_lowercase (a +:+ b) = to_ascii_lowercase a +:+ to_ascii_lowercase b.
Proof. induction a as [|c a IH]; [done|]. rewrite str_app_cons. simpl. by rewrite IH. Qed.

Lemma lowercase_length a : len (to_ascii_lowercase a) = len a.
Proof. induction a; simpl; congruence. Qed.

Lemma str_drop_app_more a b n : str_drop (len a + n) (a +:+ b) = str_drop n b.
Proof. induction a; [done|]. by rewrite str_app_cons. Qed.

Lemma str_contains_byte c s : str_contains s (String c "") = has_byte c s.
Proof.
  induction s as [|d s IH]; [done|]. rewrite has_byte_cons. cbn [str_contains]. rewrite IH. f_equal. simpl.
  destruct (ascii_dec c d) as [->|]; [by rewrite bool_decide_true; destruct s|by rewrite bool_decide_false].
Qed.

Lemma str_find_byte c a b : has_byte c a = false → str_find (a +:+ String c b) (String c "") = Some (len a).
Proof.
  intros H. change (String c b) with (String c "" +:+ b). apply str_find_put; [done|]. by rewrite str_contains_byte.
Qed.

(** ** Characters of what characters make up *)

Definition starts_char (s : string) : bool :=
  match s with String b _ => negb (is_cont b) | EmptyString => true end.

(** One character: a byte and the bytes that continue it. *)
Definition one_char (c : string) : Prop :=
  match c with
  | String _ r => Forall (λ b, is_cont b = true) (String.list_ascii_of_string r)
  | EmptyString => False
  end.

Definition char_list (l : list string) : Prop :=
  Forall one_char l ∧ Forall (λ c, starts_char c = true) (tail l).

Lemma chars_empty s : chars s = [] ↔ s = "".
Proof. destruct s; simpl; [done|]. split; [|done]. by repeat case_match. Qed.

(** Bytes that continue the character before them belong to it. *)
Lemma chars_cons a s :
  chars (String a s) = if starts_char s then String a "" :: chars s
                       else match chars s with c :: cs => String a c :: cs | [] => [String a ""] end.
Proof.
  simpl. destruct s as [|b s]; [done|]. cbn [starts_char].
  destruct (chars (String b s)) as [|c cs] eqn:E; [by apply chars_empty in E|]. by destruct (is_cont b).
Qed.

Lemma chars_app a b : starts_char b = true → chars (a +:+ b) = chars a ++ chars b.
Proof.
  intros Hb. induction a as [|x a IH]; [done|]. rewrite str_app_cons, !chars_cons, IH.
  destruct a as [|y a]; [change ("" +:+ b) with b; by rewrite Hb|]. change (starts_char (String y a +:+ b)) with (starts_char (String y a)).
  destruct (starts_char (String y a)); [done|].
  destruct (chars (String y a)) as [|c cs] eqn:E; [by apply chars_empty in E|done].
Qed.

Lemma chars_one c : one_char c → chars c = [c].
Proof.
  destruct c as [|a r]; [done|]. simpl one_char. revert a. induction r as [|b r IH]; intros a Hr; [done|].
  simpl in Hr. apply Forall_cons in Hr as [Hb Hr]. rewrite chars_cons. cbn [starts_char]. rewrite Hb.
  cbn [negb]. by rewrite IH.
Qed.

Lemma chars_head_starts s c cs : chars s = c :: cs → starts_char c = starts_char s.
Proof.
  destruct s as [|a s]; [done|]. rewrite chars_cons. destruct (starts_char s); [by intros [= <- _]|].
  destruct (chars s); by intros [= <- _].
Qed.

Lemma chars_char_list s : char_list (chars s).
Proof.
  induction s as [|a s [IH1 IH2]]; [by split|]. rewrite chars_cons.
  destruct (starts_char s) eqn:Hs.
  - split; [by constructor; [constructor|]|]. simpl. destruct (chars s) as [|c cs] eqn:E; [done|].
    constructor; [by rewrite (chars_head_starts _ _ _ E)|done].
  - destruct (chars s) as [|c cs] eqn:E; [by split; [repeat constructor|]|].
    apply Forall_cons in IH1 as [Hc IH1]. split; [constructor; [|done]|done].
    pose proof (chars_head_starts _ _ _ E) as Hst. rewrite Hs in Hst.
    destruct c as [|b r]; [done|]. simpl in *. constructor; [by apply negb_false_iff in Hst|done].
Qed.

Lemma char_list_chars l : char_list l → chars (concat_str l) = l.
Proof.
  intros [H1 H2]. destruct l as [|c l]; [done|]. simpl in H2. apply Forall_cons in H1 as [Hc H1].
  assert (∀ k, Forall one_char k → Forall (λ c, starts_char c = true) k →
    starts_char (concat_str k) = true ∧ chars (concat_str k) = k) as Hk.
  { induction k as [|d k IH]; [done|]. intros [Hd Hk]%Forall_cons [Sd Sk]%Forall_cons.
    destruct (IH Hk Sk) as [IHs IHc]. cbn [concat_str foldr]. fold (concat_str k).
    split; [by destruct d|]. by rewrite chars_app, IHc, chars_one. }
  destruct (Hk l H1 H2) as [Hs Hl]. cbn [concat_str foldr]. fold (concat_str l).
  by rewrite chars_app, Hl, chars_one.
Qed.

Lemma char_list_take n l : char_list l → char_list (take n l).
Proof.
  intros [H1 H2]. split; [by apply Forall_take|]. destruct l, n; try done. simpl in *. by apply Forall_take.
Qed.

Lemma char_count_take n s m :
  starts_char m = true → char_count (chars_take n s +:+ m) = (N.min n (char_count s) + char_count m)%N.
Proof.
  intros Hm. unfold char_count, chars_take. rewrite chars_app by done.
  rewrite char_list_chars by (apply char_list_take, chars_char_list).
  rewrite length_app, length_take. lia.
Qed.

(** ** Trimming keeps what is not white space *)

Definition keeps_solid (w2 : ascii → ascii → bool) (w3 : ascii → ascii → ascii → bool) : Prop :=
  (∀ a b, w2 a b = true → solid a = false ∧ solid b = false) ∧
  (∀ a b c, w3 a b c = true → solid a = false ∧ solid b = false ∧ solid c = false).

Lemma strip_ws_keeps w2 w3 l x :
  keeps_solid w2 w3 → solid x = true → x ∈ l → x ∈ strip_ws w2 w3 l.
Proof.
  intros [K2 K3] Hx. induction l as [l IH] using (induction_ltof1 _ (@length ascii)). unfold ltof in IH.
  assert (∀ a, ws1 a = true → x ≠ a) as Hws.
  { intros a Ha ->. apply solid_spec in Hx as [_ ?]. congruence. }
  destruct l as [|a r]; [done|]. intros Hin. destruct (ws1 a) eqn:Ha.
  { simpl. rewrite Ha. apply IH; [simpl; lia|]. apply elem_of_cons in Hin as [->|]; [by destruct (Hws a)|done]. }
  destruct r as [|b r]; [simpl; by rewrite Ha|]. destruct (w2 a b) eqn:Hb.
  { simpl. rewrite Ha, Hb. apply IH; [simpl; lia|]. apply K2 in Hb as [Sa Sb].
    apply elem_of_cons in Hin as [->|Hin]; [congruence|].
    apply elem_of_cons in Hin as [->|Hin]; [congruence|done]. }
  destruct r as [|c r]; [simpl; by rewrite Ha, Hb|]. destruct (w3 a b c) eqn:Hc.
  { simpl. rewrite Ha, Hb, Hc. apply IH; [simpl; lia|]. apply K3 in Hc as (Sa & Sb & Sc).
    apply elem_of_cons in Hin as [->|Hin]; [congruence|].
    apply elem_of_cons in Hin as [->|Hin]; [congruence|].
    apply elem_of_cons in Hin as [->|Hin]; [congruence|done]. }
  simpl. by rewrite Ha, Hb, Hc.
Qed.

Lemma keeps_forward : keeps_solid ws2 ws3.
Proof.
  split; intros.
  - split; apply not_true_is_false; intros [Hp _]%solid_spec; rewrite ascii_not_ws2 in H by auto; done.
  - split_and!; apply not_true_is_false; intros [Hp _]%solid_spec; rewrite ascii_not_ws3 in H by auto; done.
Qed.

Lemma keeps_backward : keeps_solid (λ a b, ws2 b a) (λ a b c, ws3 c b a).
Proof.
  destruct keeps_forward as [K2 K3]. split; intros.
  - apply K2 in H. tauto.
  - apply K3 in H. tauto.
Qed.

Lemma trim_keeps_solid s x :
  solid x = true → x ∈ String.list_ascii_of_string s → x ∈ String.list_ascii_of_string (trim s).
Proof.
  intros Hx Hin. unfold trim, trim_end, trim_start. rewrite !String.list_ascii_of_string_of_list_ascii.
  assert (∀ l, x ∈ l → x ∈ rev l) as Hrev by (intros l; by rewrite !list_elem_of_In, <-in_rev).
  apply Hrev, strip_ws_keeps, Hrev, strip_ws_keeps; [apply keeps_backward|done|apply keeps_forward|done|done].
Qed.

Lemma has_byte_elem c s : has_byte c s = true ↔ c ∈ String.list_ascii_of_string s.
Proof.
  unfold has_byte. rewrite existsb_exists. split.
  - intros (d & Hd & Heq). apply bool_decide_eq_true in Heq as ->. by apply list_elem_of_In.
  - intros H. exists c. split; [by apply list_elem_of_In|by apply bool_decide_eq_true].
Qed.

(** A text with a character that is not white space is not blank. *)
Lemma trim_not_empty c s : solid c = true → has_byte c s = true → is_empty (trim s) = false.
Proof.
  intros Hc Hs%has_byte_elem. apply (trim_keeps_solid _ _ Hc) in Hs. by destruct (trim s); [set_solver|].
Qed.

Lemma str_find_has_byte c s e : str_find s (String c "") = Some e → has_byte c s = true.
Proof.
  revert e. induction s as [|d s IH]; intros e; [done|]. rewrite has_byte_cons.
  cbn [str_find]. unfold starts_with. cbn [String.prefix].
  destruct (ascii_dec c d) as [->|]; [by rewrite bool_decide_true|].
  destruct (str_find s (String c "")); [|done]. intros _. by rewrite (IH n0), orb_true_r.
Qed.
