(* ===== verification/CoreAccess.v ===== *)
(** * Resource plans, leases and path containment

    [astrcode-core/src/tool/access.rs]: what a tool call declares it will touch and the
    lease every host operation is checked against; and the path tests of
    [astrcode-core/src/hostpaths.rs].  The target is Unix ([cfg!(windows)] is false). *)

From S2P Require Import Prelude StdPath StdStr.

(** ** Accesses *)

Inductive FileOperation := Op_Read | Op_Search | Op_Write | Op_ReadWrite.

Inductive HostResource :=
| Host_Process | Host_ToolResultArtifact | Host_Session | Host_Model | Host_Network
| Host_Event | Host_ExtensionHttp | Host_ExtensionService.

Inductive ResourceAccess :=
| Access_File (operation : FileOperation) (path : string) (recursive : bool)
| Access_Host (r : HostResource)
| Access_Opaque.

#[export] Instance FileOperation_eq_dec : EqDecision FileOperation.
Proof. solve_decision. Defined.
#[export] Instance HostResource_eq_dec : EqDecision HostResource.
Proof. solve_decision. Defined.
#[export] Instance ResourceAccess_eq_dec : EqDecision ResourceAccess.
Proof. solve_decision. Defined.

Abbreviation backslash := "\"%char.

(** [str::contains] and [str::replace] for the two-byte pattern of a doubled separator. *)
Fixpoint contains_double (s : string) : bool :=
  match s with
  | String c r =>
    match r with
    | String d _ => (bool_decide (c = slash) && bool_decide (d = slash)) || contains_double r
    | EmptyString => false
    end
  | EmptyString => false
  end.

Fixpoint replace_double (s : string) : string :=
  match s with
  | String c r =>
    match r with
    | String d r' =>
      if bool_decide (c = slash) && bool_decide (d = slash) then String slash (replace_double r')
      else String c (replace_double r)
    | EmptyString => s
    end
  | EmptyString => EmptyString
  end.

(** [while path.contains(..) { path = path.replace(..) }]; every round shortens the path, so
    its length bounds the rounds. *)
Fixpoint collapse_double (fuel : nat) (s : string) : string :=
  match fuel with
  | O => s
  | S fuel => if contains_double s then collapse_double fuel (replace_double s) else s
  end.

(** The loop over [path.components()] that [path_to_access_string] and [normalize_path]
    share. *)
Definition normalize_component (normalized : string) (c : Component) : string :=
  match c with
  | ParentDir => path_pop normalized
  | CurDir => normalized
  | other => path_push normalized (component_str other)
  end.
Definition normalize_path (path : string) : string :=
  foldl normalize_component "" (components path).

Definition path_to_access_string (path : string) : string :=
  let path := replace_byte (normalize_path path) backslash "/" in
  collapse_double (String.length path) path.

Definition read_file (path : string) : ResourceAccess :=
  Access_File Op_Read (path_to_access_string path) false.
Definition search_file (path : string) (recursive : bool) : ResourceAccess :=
  Access_File Op_Search (path_to_access_string path) recursive.
Definition file_write (path : string) (recursive : bool) : ResourceAccess :=
  Access_File Op_Write (path_to_access_string path) recursive.
Definition write_file (path : string) : ResourceAccess := file_write path false.
Definition write_file_recursive (path : string) : ResourceAccess := file_write path true.
Definition read_write_file (path : string) : ResourceAccess :=
  Access_File Op_ReadWrite (path_to_access_string path) false.

(** ** Plans and leases *)

Record ToolPlan := { tp_resources : list ResourceAccess }.

Definition ToolPlan_opaque : ToolPlan := {| tp_resources := [Access_Opaque] |}.
Definition ToolPlan_host (r : HostResource) : ToolPlan := {| tp_resources := [Access_Host r] |}.
Definition ToolPlan_default : ToolPlan := {| tp_resources := [] |}.

Record ResourceLease := { rl_resources : list ResourceAccess }.

Definition from_plan (plan : ToolPlan) : ResourceLease :=
  {| rl_resources := tp_resources plan |}.

Definition file_operation_covers (granted required : FileOperation) : bool :=
  match granted, required with
  | Op_ReadWrite, (Op_Read | Op_Write | Op_ReadWrite) => true
  | _, _ => bool_decide (granted = required)
  end.

Definition path_covers (granted : string) (granted_recursive : bool)
    (required : string) (required_recursive : bool) : bool :=
  if bool_decide (granted = required) then granted_recursive || negb required_recursive
  else granted_recursive && path_starts_with required granted.

Definition resource_covers (granted required : ResourceAccess) : bool :=
  match granted, required with
  | Access_Opaque, Access_Opaque => true
  | Access_Host granted, Access_Host required => bool_decide (granted = required)
  | Access_File granted_operation granted_path recursive,
    Access_File required_operation required_path required_recursive =>
    file_operation_covers granted_operation required_operation
    && path_covers granted_path recursive required_path required_recursive
  | _, _ => false
  end.

Definition permits (l : ResourceLease) (required : ResourceAccess) : bool :=
  existsb (λ granted, resource_covers granted required) (rl_resources l).

(** ** Containment of paths

    What the file system answers is a parameter: [canonicalize] resolves a path that exists,
    [exists_] tests for existence. *)

Section containment.
  Context (canonicalize : string → option string) (exists_ : string → bool).

Definition resolve_path (base_dir path : string) : string :=
  if is_absolute path then path else path_join base_dir path.

Definition nearest_existing_ancestor (path : string) : option string :=
  find_first exists_ (ancestors path).

Definition is_path_within (candidate root : string) : bool :=
  match canonicalize root with
  | None => path_starts_with (normalize_path candidate) (normalize_path root)
  | Some root =>
    match canonicalize candidate with
    | Some candidate => path_starts_with candidate root
    | None =>
      match nearest_existing_ancestor candidate ≫= canonicalize with
      | Some ancestor => path_starts_with ancestor root
      | None => false
      end
    end
  end.

End containment.

(** ** Normal forms *)

(** The loop computes the lexical meaning of the path. *)
Lemma normalize_components root l names :
  Forall plain names → RootDir ∉ l → (∀ s, Normal s ∈ l → plain s) →
  foldl normalize_component (of_segments root names) l
  = of_segments root (foldl lexical_step names l).
Proof.
  revert names; induction l as [|c l IH]; intros names Hn Hr Hl; [done|].
  assert (foldl normalize_component (of_segments root (lexical_step names c)) l
          = of_segments root (foldl lexical_step names (c :: l))) as <-.
  { apply IH; [|set_solver|set_solver].
    apply lexical_step_plain; [done|]. intros s ->. apply Hl. set_solver. }
  simpl. f_equal. destruct c as [| | |s]; simpl.
  - set_solver.
  - done.
  - by apply path_pop_plain.
  - apply path_push_plain; [done|]. apply Hl. set_solver.
Qed.

Lemma normalize_path_spec p : normalize_path p = of_segments (has_root p) (lexical p).
Proof.
  unfold normalize_path, lexical. pose proof (components_plain p) as Hp.
  destruct (components_root p) as (l & Hl & Hr). rewrite Hl in *.
  destruct (has_root p); simpl.
  - change (path_push "" "/") with (of_segments true []).
    apply normalize_components; [constructor|done|set_solver].
  - change "" with (of_segments false []) at 1.
    apply normalize_components; [constructor|done|set_solver].
Qed.

Lemma replace_byte_none s c t : has_byte c s = false → replace_byte s c t = s.
Proof.
  induction s as [|d s IH]; [done|]. rewrite has_byte_cons.
  intros [Hd Hs]%orb_false_iff. simpl. by rewrite Hd, IH.
Qed.

Lemma has_byte_split c d s x : x ∈ split_byte d s → has_byte c s = false → has_byte c x = false.
Proof.
  revert x; induction s as [|e s IH]; intros x; simpl; [set_solver|].
  rewrite has_byte_cons. intros Hx [He Hs]%orb_false_iff.
  destruct (bool_decide (e = d)); [set_solver|].
  pose proof (split_byte_nonempty d s). destruct (split_byte d s) as [|y ys]; [done|].
  apply elem_of_cons in Hx as [->|Hx]; [|apply IH; set_solver].
  rewrite has_byte_cons, He. apply IH; set_solver.
Qed.

Lemma has_byte_segments c p x : x ∈ segments p → has_byte c p = false → has_byte c x = false.
Proof.
  destruct p as [|d r]; [set_solver|]. unfold segments. case_bool_decide.
  - rewrite has_byte_cons. intros Hx [_ ?]%orb_false_iff. by eapply has_byte_split.
  - by apply has_byte_split.
Qed.

Lemma has_byte_components c p s :
  Normal s ∈ components p → has_byte c p = false → has_byte c s = false.
Proof.
  unfold components. rewrite elem_of_app. intros [H|(x & Hx & Hc)%list_elem_of_omap] Hp.
  { destruct (has_root p), (include_cur_dir p); set_solver. }
  assert (x = s) as <- by (unfold to_component in Hc; cases; done).
  by eapply has_byte_segments.
Qed.

(** A property of the names of a path holds of its lexical meaning. *)
Lemma lexical_Forall (P : string → Prop) p :
  (∀ s, Normal s ∈ components p → P s) → Forall P (lexical p).
Proof.
  unfold lexical. generalize (components p). intros l.
  assert (Forall P []) as Hn by constructor. revert Hn. generalize (@nil string).
  induction l as [|c l IH]; intros names Hn Hl; simpl; [done|].
  apply IH; [|set_solver]. destruct c as [| | |s]; simpl; [done..|by apply Forall_take|].
  apply Forall_app; split; [done|]. constructor; [apply Hl; set_solver|constructor].
Qed.

Lemma has_byte_join c names :
  c ≠ slash → Forall (λ s, has_byte c s = false) names → has_byte c (join "/" names) = false.
Proof.
  intros Hc. induction 1 as [|s l Hs Hl IH]; [done|]. destruct l as [|t l]; [done|].
  rewrite join_cons by done. rewrite !has_byte_app, Hs, IH.
  unfold has_byte; simpl. by rewrite bool_decide_false.
Qed.

Lemma contains_double_cons c d s :
  contains_double (String c (String d s))
  = (bool_decide (c = slash) && bool_decide (d = slash)) || contains_double (String d s).
Proof. done. Qed.

Lemma replace_double_cons c d s :
  replace_double (String c (String d s))
  = if bool_decide (c = slash) && bool_decide (d = slash) then String slash (replace_double s)
    else String c (replace_double (String d s)).
Proof. done. Qed.

Lemma contains_double_sep s r :
  s ≠ "" → has_byte slash s = false → has_root r = false →
  contains_double (s +:+ "/" +:+ r) = contains_double r.
Proof.
  intros Hne Hs Hr. induction s as [|c s IH]; [done|].
  rewrite has_byte_cons in Hs. apply orb_false_iff in Hs as [Hc Hs].
  rewrite str_app_cons. destruct (decide (s = "")) as [->|Hs'].
  - rewrite str_app_nil_l. simpl. rewrite Hc. simpl. destruct r as [|d r]; [done|].
    simpl in Hr. simpl. by rewrite Hr.
  - destruct s as [|d s]; [done|]. rewrite <-IH by done. rewrite str_app_cons.
    rewrite contains_double_cons. by rewrite Hc.
Qed.

Lemma contains_double_none s : has_byte slash s = false → contains_double s = false.
Proof.
  induction s as [|c s IH]; [done|]. rewrite has_byte_cons. intros [Hc Hs]%orb_false_iff.
  destruct s as [|d s]; [done|]. rewrite contains_double_cons, Hc, IH by done. done.
Qed.

Lemma contains_double_join names :
  Forall plain names → contains_double (join "/" names) = false.
Proof.
  induction 1 as [|s l (Hne & _ & _ & Hs) Hl IH]; [done|]. destruct l as [|t l].
  { by apply contains_double_none. }
  rewrite join_cons, contains_double_sep; try done.
  by apply (has_root_of_segments false (t :: l)).
Qed.

Lemma contains_double_of_segments root names :
  Forall plain names → contains_double (of_segments root names) = false.
Proof.
  intros Hn. destruct root; [|by apply contains_double_join].
  unfold of_segments. rewrite str_app_cons, str_app_nil_l. simpl.
  pose proof (has_root_of_segments false names Hn) as Hr. unfold of_segments in Hr.
  rewrite str_app_nil_l in Hr. pose proof (contains_double_join names Hn) as Hd.
  destruct (join "/" names) as [|d r]; [done|]. unfold has_root in Hr. by rewrite Hr.
Qed.

Lemma collapse_double_done fuel s : contains_double s = false → collapse_double fuel s = s.
Proof. destruct fuel; simpl; [done|]. by intros ->. Qed.

Definition no_backslash (p : string) : Prop := has_byte backslash p = false.

(** Without backslashes the access string is the canonical spelling of the lexical
    meaning. *)
Lemma access_string_spec p :
  no_backslash p → path_to_access_string p = of_segments (has_root p) (lexical p).
Proof.
  intros Hb. unfold path_to_access_string. rewrite normalize_path_spec.
  rewrite replace_byte_none; [apply collapse_double_done, contains_double_of_segments, lexical_plain|].
  unfold of_segments. rewrite has_byte_app, has_byte_join; [by destruct (has_root p)|done|].
  apply lexical_Forall. intros s Hs. by eapply has_byte_components.
Qed.

Lemma replace_double_length s :
  contains_double s = true → String.length (replace_double s) < String.length s.
Proof.
  assert (∀ n s, String.length s ≤ n → String.length (replace_double s) ≤ String.length s
    ∧ (contains_double s = true → String.length (replace_double s) < String.length s)) as Hall.
  { induction n as [|n IH]; intros [|c [|d r]] Hn; simpl in Hn; try lia; try (split; [done|done]).
    rewrite contains_double_cons, replace_double_cons.
    destruct (bool_decide (c = slash) && bool_decide (d = slash)) eqn:Hcd; simpl String.length.
    - destruct (IH r ltac:(lia)) as [? _]. split; [lia|]. intros _. lia.
    - destruct (IH (String d r) ltac:(simpl; lia)) as [H1 H2]. simpl in H1, H2.
      split; [simpl; lia|]. intros Hc. simpl in Hc. specialize (H2 Hc). simpl. lia. }
  by apply (Hall (String.length s)).
Qed.

(** The rounds given suffice: the loop ends with its condition false. *)
Lemma collapse_double_terminates fuel s :
  String.length s ≤ fuel → contains_double (collapse_double fuel s) = false.
Proof.
  revert s; induction fuel as [|fuel IH]; intros s Hs; simpl.
  { by destruct s; [|simpl in Hs; lia]. }
  destruct (contains_double s) eqn:Hd; [|done]. apply IH.
  pose proof (replace_double_length s Hd). lia.
Qed.

(** ** What a lease confines a call to *)

#[export] Instance Normal_inj : Inj (=) (=) Normal.
Proof. by intros ?? [=]. Qed.

Lemma fmap_Normal_inj (l l' : list string) : Normal <$> l = Normal <$> l' → l = l'.
Proof. apply (inj (fmap (M:=list) Normal)). Qed.

Lemma of_segments_inj root names names' :
  Forall plain names → Forall plain names' →
  of_segments root names = of_segments root names' → names = names'.
Proof.
  intros Hn Hn' Heq. pose proof (components_of_segments root names Hn) as H1.
  rewrite Heq, components_of_segments in H1 by done. apply app_inv_head in H1.
  symmetry. by apply fmap_Normal_inj.
Qed.

Lemma prefix_of_segments root names names' :
  Forall plain names → Forall plain names' →
  path_starts_with (of_segments root names') (of_segments root names) = true
  ↔ names `prefix_of` names'.
Proof.
  intros Hn Hn'. rewrite path_starts_with_spec, !components_of_segments by done. split.
  - intros H%prefix_app_inv. destruct H as [k Hk].
    apply fmap_app_inv in Hk as (l1 & l2 & H1 & H2 & ->).
    apply fmap_Normal_inj in H1 as <-. by exists l2.
  - intros [k ->]. rewrite fmap_app. apply prefix_app. by exists (Normal <$> k).
Qed.

(** The access of a file operation on [path], as the constructors build it. *)
Definition file_access (op : FileOperation) (path : string) (recursive : bool) : ResourceAccess :=
  Access_File op (path_to_access_string path) recursive.

(** What it means that a grant on [g] reaches [p]: the same place, or below it when the
    grant is recursive. *)
Definition reaches (g : string) (recursive : bool) (p : string) (required_recursive : bool) : Prop :=
  if recursive then lexical g `prefix_of` lexical p
  else lexical g = lexical p ∧ required_recursive = false.

Lemma path_covers_spec g r p r' :
  no_backslash g → no_backslash p → is_absolute g = true → is_absolute p = true →
  path_covers (path_to_access_string g) r (path_to_access_string p) r' = true
  ↔ reaches g r p r'.
Proof.
  unfold is_absolute. intros Hg Hp Hrg Hrp. unfold path_covers, reaches.
  rewrite !access_string_spec, Hrg, Hrp by done.
  pose proof (lexical_plain g) as Lg. pose proof (lexical_plain p) as Lp.
  destruct (bool_decide_reflect (of_segments true (lexical g) = of_segments true (lexical p)))
    as [Heq|Hne].
  - apply of_segments_inj in Heq; [|done..]. rewrite Heq. destruct r, r'; simpl; naive_solver.
  - assert (lexical g ≠ lexical p) by congruence. destruct r; simpl.
    + by apply prefix_of_segments.
    + naive_solver.
Qed.

(** A lease is exactly its plan: an access to an absolute path is permitted if and only
    if the plan grants an operation that covers it on a path whose lexical meaning is the
    same place, or a directory above it when the grant is recursive.  Whatever mixture of
    [..], [.] and repeated separators spells the path, it is the place it names that
    counts, so no spelling leaves a granted directory. *)
Theorem lease_confines plan op p r :
  no_backslash p → is_absolute p = true →
  (∀ op' g r', Access_File op' g r' ∈ tp_resources plan →
     ∃ path, g = path_to_access_string path ∧ no_backslash path ∧ is_absolute path = true) →
  permits (from_plan plan) (file_access op p r) = true ↔
  ∃ op' g r', file_access op' g r' ∈ tp_resources plan ∧ no_backslash g ∧ is_absolute g = true
    ∧ file_operation_covers op' op = true ∧ reaches g r' p r.
Proof.
  intros Hp Ha Hplan. unfold permits. rewrite existsb_exists. split.
  - intros ([op' g r'| |] & Hin%list_elem_of_In & Hc); [|done..]. simpl in Hc.
    apply andb_true_iff in Hc as [Hop Hc].
    destruct (Hplan _ _ _ Hin) as (path & -> & Hb & Hab).
    exists op', path, r'. split_and!; try done. by apply path_covers_spec in Hc.
  - intros (op' & g & r' & Hin & Hb & Hab & Hop & Hr).
    exists (file_access op' g r'). split; [by apply list_elem_of_In|]. simpl.
    apply andb_true_iff. split; [done|]. by apply path_covers_spec.
Qed.

(** The lease of a recursive write below [/ws/src] answers a path that climbs out of it. *)
Lemma lease_confines_witness :
  let plan := {| tp_resources := [write_file_recursive "/ws/./lib/../src"] |} in
  permits (from_plan plan) (write_file "/ws/src//a.rs") = true
  ∧ permits (from_plan plan) (write_file "/ws/src/../Cargo.toml") = false.
Proof.
  intros plan. assert (∀ op' g r', Access_File op' g r' ∈ tp_resources plan →
     ∃ path, g = path_to_access_string path ∧ no_backslash path ∧ is_absolute path = true) as Hp.
  { intros op' g r' H. simpl in H. apply list_elem_of_singleton in H.
    exists "/ws/./lib/../src". unfold write_file_recursive, file_write in H. by simplify_eq. }
  split.
  - apply (lease_confines plan Op_Write "/ws/src//a.rs" false); [done|done|exact Hp|].
    exists Op_Write, "/ws/./lib/../src", true. split_and!; try done; [by left|].
    by exists ["a.rs"].
  - by vm_compute.
Defined.

(** ** A file system without links

    The directories of a tree, and how the system resolves an absolute path in it: every
    name on the way has to exist, also before a [..]. *)

Module Tree.

Fixpoint walk (dirs : list (list string)) (names : list string) (l : list Component)
    : option (list string) :=
  match l with
  | [] => Some names
  | ParentDir :: l => walk dirs (take (pred (length names)) names) l
  | Normal s :: l =>
    if bool_decide (names ++ [s] ∈ dirs) then walk dirs (names ++ [s]) l else None
  | (RootDir | CurDir) :: l => walk dirs names l
  end.

Definition canonicalize (dirs : list (list string)) (p : string) : option string :=
  of_segments true <$> walk dirs [] (components p).
Definition exists_ (dirs : list (list string)) (p : string) : bool :=
  bool_decide (is_Some (canonicalize dirs p)).

Lemma walk_lexical dirs names l names' :
  walk dirs names l = Some names' → names' = foldl lexical_step names l.
Proof.
  revert names. induction l as [|[| | |s] l IH]; intros names; simpl; try (by apply IH).
  - by intros [= <-].
  - case_bool_decide; [|done]. by apply IH.
Qed.

End Tree.

(** For a candidate that exists below an existing root the test is exact. *)
Lemma is_path_within_existing dirs candidate root :
  is_absolute root = true →
  is_Some (Tree.canonicalize dirs root) → is_Some (Tree.canonicalize dirs candidate) →
  is_path_within (Tree.canonicalize dirs) (Tree.exists_ dirs) candidate root = true
  ↔ lexical root `prefix_of` lexical candidate.
Proof.
  intros _ [r Hr] [c Hc]. unfold is_path_within. rewrite Hr, Hc.
  unfold Tree.canonicalize in *.
  apply fmap_Some in Hr as (rn & Hr%Tree.walk_lexical & ->).
  apply fmap_Some in Hc as (cn & Hc%Tree.walk_lexical & ->). subst.
  by apply prefix_of_segments; apply lexical_plain.
Qed.

(** [is_path_within] promises that the candidate stays inside the root.  For a path that does
    not exist it looks at the nearest existing ancestor, whose [..] components it has thereby
    dropped: with a fresh directory name in front, a path that leads out of the root is
    accepted. *)
Theorem is_path_within_accepts_escape :
  let dirs := [["ws"]; ["etc"]] in
  is_path_within (Tree.canonicalize dirs) (Tree.exists_ dirs) "/ws/new/../../etc/cron" "/ws" = true
  ∧ lexical "/ws/new/../../etc/cron" = ["etc"; "cron"]
  ∧ ¬ lexical "/ws" `prefix_of` lexical "/ws/new/../../etc/cron".
Proof.
  split_and!; [by vm_compute|by vm_compute|].
  change (lexical "/ws") with ["ws"].
  change (lexical "/ws/new/../../etc/cron") with ["etc"; "cron"].
  by intros [? [=]].
Qed.
