(* ===== verification/PermPolicy.v ===== *)
(** * Permission policies of a tool call

    [astrcode-session/src/permission/]: the policies, the chain that evaluates them in
    order, and the default chain.  The glob matcher of the crate [globset] (building a set
    of patterns, matching a path), the text of a JSON value and the file system are
    parameters.

    The second chapter: the approval memory of a session. *)

From S2P Require Import Prelude CoreTypes StdPath CoreAccess.

(** ** Decisions *)

Inductive PolicyDecision :=
| Decision_Allow
| Decision_Deny (reason : string)
| Decision_Ask (prompt : string) (rule_key : option string)
| Decision_Pass.

Record PermissionRequirement := {
  req_prompt : string;
  req_rule_key : option string;
}.

Inductive PermissionResolution :=
| Resolution_Allow
| Resolution_Deny (reason : string)
| Resolution_Ask (requirements : list PermissionRequirement).

Record PermissionContext := {
  pc_tool_name : string;
  pc_tool_input : Value;
  pc_working_dir : string;
  pc_resource_accesses : list ResourceAccess;
  pc_approval_mode : ApprovalMode;
  pc_tool_selection : option SessionToolSelection;
}.

Abbreviation PermissionPolicy := (PermissionContext → PolicyDecision).

(** What the chain asks of the session's memory, [ApprovalHistoryStore]. *)
Record ApprovalMemory := {
  is_denied_always : string → bool;
  is_allowed_always : string → bool;
}.

(** ** The chain *)

Fixpoint decide_loop (policies : list PermissionPolicy) (ctx : PermissionContext)
    (history : ApprovalMemory) (requirements : list PermissionRequirement)
    : PermissionResolution :=
  match policies with
  | [] => Resolution_Deny "permission chain has no terminal allow policy"
  | policy :: policies =>
    match policy ctx with
    | Decision_Ask prompt (Some rule_key) =>
      if is_denied_always history rule_key then
        Resolution_Deny ("Denied by session approval memory (" +:+ rule_key +:+ ")")
      else if is_allowed_always history rule_key then
        decide_loop policies ctx history requirements
      else
        decide_loop policies ctx history
          (requirements ++ [{| req_prompt := prompt; req_rule_key := Some rule_key |}])
    | Decision_Ask prompt None =>
      decide_loop policies ctx history
        (requirements ++ [{| req_prompt := prompt; req_rule_key := None |}])
    | Decision_Deny reason => Resolution_Deny reason
    | Decision_Allow =>
      match requirements with [] => Resolution_Allow | _ => Resolution_Ask requirements end
    | Decision_Pass => decide_loop policies ctx history requirements
    end
  end.

(** [PermissionChain::decide]. *)
Definition chain_decide (policies : list PermissionPolicy) (ctx : PermissionContext)
    (history : ApprovalMemory) : PermissionResolution :=
  decide_loop policies ctx history [].

(** ** Paths among the arguments of a tool *)

Definition PATH_KEYS : list string := ["path"; "file"; "filePath"; "target"; "directory"; "dir"].

Definition push_path_value (value : Value) (out : list string) : list string :=
  match as_str value with
  | Some text => if is_empty text then out else out ++ [text]
  | None => out
  end.

Fixpoint collect_paths (value : Value) (out : list string) : list string :=
  match value with
  | JObject m =>
    (fix entries (m : list (string * Value)) (out : list string) : list string :=
      match m with
      | [] => out
      | (key, val) :: m =>
        entries m
          (if bool_decide (key ∈ PATH_KEYS) then push_path_value val out
           else if bool_decide (key = "paths") || bool_decide (key = "files") then
             match val with
             | JArray items => foldl (λ out item, push_path_value item out) out items
             | _ => out
             end
           else collect_paths val out)
      end) m out
  | JArray items =>
    (fix elements (items : list Value) (out : list string) : list string :=
      match items with
      | [] => out
      | item :: items => elements items (collect_paths item out)
      end) items out
  | _ => out
  end.

Definition extract_tool_paths (input : Value) : list string :=
  path_dedup (path_sort (collect_paths input [])).

Definition path_for_matching (path working_dir : string) : string :=
  replace_byte (default path (strip_prefix path working_dir)) backslash "/".

(** ** Policies *)

Section policies.
  Context {GlobSet : Type}.
  (** [GlobSetBuilder] over [Glob::new] of each pattern, [None] when one is malformed. *)
  Context (globset_build : list string → option GlobSet).
  Context (is_match : GlobSet → string → bool).
  (** [Display for serde_json::Value]. *)
  Context (value_to_string : Value → string).
  Context (canonicalize : string → option string) (exists_ : string → bool).

Definition path_matches_glob (path working_dir : string) (globset : GlobSet) : bool :=
  is_match globset (path_for_matching path working_dir) || is_match globset path.

(** *** Configured rules *)

Inductive ConfiguredEffect := Effect_Deny | Effect_Allow | Effect_Ask.

Record CompiledRule := {
  cr_tool : string;
  cr_pattern : option string;
  cr_path_glob : option GlobSet;
}.

Record ConfiguredPolicy := {
  cp_rules : list CompiledRule;
  cp_effect : ConfiguredEffect;
}.

Definition build_globset (pattern : string) : option GlobSet := globset_build [pattern].

Definition compile_rules (rules : list PermissionRule) : list CompiledRule :=
  (λ rule, {| cr_tool := pr_tool rule; cr_pattern := pr_pattern rule;
              cr_path_glob := pr_path rule ≫= build_globset |}) <$> rules.

Definition ConfiguredPolicy_new (rules : list PermissionRule) (effect : ConfiguredEffect)
    : ConfiguredPolicy :=
  {| cp_rules := compile_rules rules; cp_effect := effect |}.

Definition rule_matches (rule : CompiledRule) (ctx : PermissionContext) : bool :=
  if negb (bool_decide (cr_tool rule = pc_tool_name ctx)) && negb (bool_decide (cr_tool rule = "*"))
  then false
  else if match cr_pattern rule with
          | Some pattern => negb (str_contains (value_to_string (pc_tool_input ctx)) pattern)
          | None => false
          end
  then false
  else match cr_path_glob rule with
  | Some globset =>
    let paths := extract_tool_paths (pc_tool_input ctx) in
    match paths with
    | [] => false
    | _ => existsb (λ path, path_matches_glob path (pc_working_dir ctx) globset) paths
    end
  | None => true
  end.

Definition configured_evaluate (p : ConfiguredPolicy) : PermissionPolicy := λ ctx,
  match find_first (λ rule, rule_matches rule ctx) (cp_rules p) with
  | Some rule =>
    match cp_effect p with
    | Effect_Deny => Decision_Deny ("Denied by user rule for tool `" +:+ pc_tool_name ctx +:+ "`")
    | Effect_Allow => Decision_Allow
    | Effect_Ask =>
      Decision_Ask ("User rule requires approval for tool `" +:+ pc_tool_name ctx +:+ "`")
        (Some ("configured:" +:+ cr_tool rule))
    end
  | None => Decision_Pass
  end.

(** *** Selection and mode *)

Definition session_tool_selection_evaluate : PermissionPolicy := λ ctx,
  match pc_tool_selection ctx with
  | None => Decision_Pass
  | Some selection =>
    if allows selection (pc_tool_name ctx) then Decision_Pass
    else Decision_Deny
      ("Tool '" +:+ pc_tool_name ctx +:+ "' is outside this session's selection")
  end.

Definition yolo_mode_approve_evaluate : PermissionPolicy := λ ctx,
  if bool_decide (pc_approval_mode ctx = ApprovalMode_Yolo) then Decision_Allow
  else Decision_Pass.

(** *** Sensitive files *)

Definition SENSITIVE_PATTERNS : list string :=
  [".env"; ".env.*"; "**/.ssh/**"; "**/.git/**"; "**/.aws/**"; "**/.azure/**"; "**/.gcloud/**";
   "**/.gitconfig"; "**/.npmrc"; "**/credentials*"; "**/secret*"; "**/*.pem"; "**/*.key";
   "**/id_rsa*"; "**/id_ed25519*"].

Definition build_sensitive_globset : option GlobSet := globset_build SENSITIVE_PATTERNS.

(** The loop over [pattern.chars()]; the characters it tests for are ASCII, so it runs on
    the bytes: after a backslash it passes over one character, of which the first byte
    decides and the rest are not ASCII. *)
Fixpoint glob_meta_loop (escaped : bool) (pattern : string) : bool :=
  match pattern with
  | EmptyString => false
  | String c r =>
    if escaped then glob_meta_loop false r
    else if bool_decide (c = backslash) then glob_meta_loop true r
    else if bool_decide (c ∈ ["*"%char; "?"%char; "["%char; "{"%char]) then true
    else glob_meta_loop false r
  end.
Definition has_unescaped_glob_meta (pattern : string) : bool := glob_meta_loop false pattern.

Definition sensitive_search_pattern (ctx : PermissionContext) (globset : option GlobSet)
    : option string :=
  let field :=
    if bool_decide (pc_tool_name ctx = "grep") then Some "glob"
    else if bool_decide (pc_tool_name ctx = "glob") then Some "pattern" else None in
  match (field ≫= (λ field, value_get (pc_tool_input ctx) field)) ≫= as_str with
  | Some raw =>
    let pattern := trim raw in
    if negb (is_empty pattern)
       && match globset with
          | None => true
          | Some globset => has_unescaped_glob_meta pattern || is_match globset pattern
          end
    then Some pattern else None
  | None => None
  end.

Definition sensitive_file_ask_evaluate (globset : option GlobSet) : PermissionPolicy := λ ctx,
  let is_sensitive path :=
    match globset with
    | None => true
    | Some globset => path_matches_glob path (pc_working_dir ctx) globset
    end in
  match find_first is_sensitive (extract_tool_paths (pc_tool_input ctx)) with
  | Some path =>
    Decision_Ask
      (match globset with
       | Some _ => "Access sensitive path `" +:+ path +:+ "`?"
       | None => "Sensitive-file policy is unavailable; allow access to `" +:+ path +:+ "`?"
       end)
      (Some ("sensitive:" +:+ path_for_matching path (pc_working_dir ctx)))
  | None =>
    match sensitive_search_pattern ctx globset with
    | Some pattern =>
      Decision_Ask ("Search sensitive path pattern `" +:+ pattern +:+ "`?")
        (Some ("sensitive:" +:+ pattern))
    | None => Decision_Pass
    end
  end.

(** *** Git metadata *)

Definition is_git_metadata_path (path working_dir : string) : bool :=
  let rel := path_for_matching path working_dir in
  str_contains rel ".git/" || starts_with rel ".git" || bool_decide (rel = ".git").

Definition git_path_ask_evaluate : PermissionPolicy := λ ctx,
  match find_first (λ path, is_git_metadata_path path (pc_working_dir ctx))
          (extract_tool_paths (pc_tool_input ctx)) with
  | Some path =>
    Decision_Ask ("Access git metadata at `" +:+ path +:+ "`?") (Some "git-path")
  | None => Decision_Pass
  end.

(** *** Resources *)

Definition process_rule_key (tool_name : string) : string :=
  "process-resource:" +:+ (if bool_decide (tool_name = "shell_poll") then "shell" else tool_name).

Definition process_resource_ask_evaluate : PermissionPolicy := λ ctx,
  if negb (existsb (λ access, bool_decide (access = Access_Host Host_Process))
             (pc_resource_accesses ctx))
  then Decision_Pass
  else
    let found :=
      match value_get (pc_tool_input ctx) "command" with
      | Some v => Some v
      | None => value_get (pc_tool_input ctx) "cmd"
      end in
    let command :=
      match found ≫= as_str with
      | Some command => if is_empty command then None else Some command
      | None => None
      end in
    let prompt :=
      match command with
      | Some command =>
        "Allow tool `" +:+ pc_tool_name ctx +:+ "` to run a process?" +:+ newline +:+ command
      | None => "Allow tool `" +:+ pc_tool_name ctx +:+ "` to control a process?"
      end in
    Decision_Ask prompt (Some (process_rule_key (pc_tool_name ctx))).

Definition opaque_rule_key (tool_name : string) : string := "opaque-resource:" +:+ tool_name.

Definition opaque_resource_ask_evaluate : PermissionPolicy := λ ctx,
  if existsb (λ access, bool_decide (access = Access_Opaque)) (pc_resource_accesses ctx) then
    Decision_Ask
      ("Tool `" +:+ pc_tool_name ctx
       +:+ "` may perform external side effects that AstrCode cannot scope")
      (Some (opaque_rule_key (pc_tool_name ctx)))
  else Decision_Pass.

(** *** Default approvals *)

Definition default_read_approve_evaluate : PermissionPolicy := λ ctx,
  if bool_decide (pc_tool_name ctx ∈ ["read"; "grep"; "glob"]) then Decision_Allow
  else Decision_Pass.

Definition resolve_relative (working_dir raw : string) : string :=
  if is_absolute raw then raw else path_join working_dir raw.

Definition git_cwd_write_approve_evaluate : PermissionPolicy := λ ctx,
  if negb (bool_decide (pc_tool_name ctx ∈ ["write"; "edit"; "patch"])) then Decision_Pass
  else match extract_tool_paths (pc_tool_input ctx) with
  | [] => Decision_Pass
  | paths =>
    if forallb (λ p, is_path_within canonicalize exists_
                       (resolve_relative (pc_working_dir ctx) p) (pc_working_dir ctx)) paths
    then Decision_Allow else Decision_Pass
  end.

Definition fallback_allow_evaluate : PermissionPolicy := λ _, Decision_Allow.

(** ** The default chain, from the [permissions] section of the effective configuration *)

Definition build_default_chain (permissions : PermissionsSection) : list PermissionPolicy :=
  [ configured_evaluate (ConfiguredPolicy_new (ps_deny permissions) Effect_Deny);
    session_tool_selection_evaluate;
    yolo_mode_approve_evaluate;
    configured_evaluate (ConfiguredPolicy_new (ps_allow permissions) Effect_Allow);
    configured_evaluate (ConfiguredPolicy_new (ps_ask permissions) Effect_Ask);
    sensitive_file_ask_evaluate build_sensitive_globset;
    git_path_ask_evaluate;
    process_resource_ask_evaluate;
    opaque_resource_ask_evaluate;
    default_read_approve_evaluate;
    git_cwd_write_approve_evaluate;
    fallback_allow_evaluate ].

End policies.

(** * The approval memory of a session, and what the default chain decides with it

    [astrcode-session/src/permission/session_approval_history.rs]: the answers "always allow"
    and "always deny" a session remembers, in memory and in one file.  The file's content is
    part of the state; what the operating system answers is an argument of each operation.
    Then the theorems about the default chain of [PermPolicy]. *)

(** ** Data *)

Record ApprovalHistoryFile := {
  allowed_always : gset string;
  denied_always : gset string;
}.

Definition ApprovalHistoryFile_default : ApprovalHistoryFile :=
  {| allowed_always := ∅; denied_always := ∅ |}.

(** [ApprovalHistoryError] is its message. *)
Abbreviation ApprovalHistoryError := string (only parsing).

Inductive ApprovalHistoryPersistence :=
| Persistence_Uninitialized
| Persistence_Ready (path : option string)
| Persistence_Failed (error : ApprovalHistoryError).

Record ApprovalHistoryStore := {
  ah_inner : ApprovalHistoryFile;
  ah_persistence : ApprovalHistoryPersistence;
}.

Definition ApprovalHistoryStore_default : ApprovalHistoryStore :=
  {| ah_inner := ApprovalHistoryFile_default; ah_persistence := Persistence_Uninitialized |}.

Definition ApprovalHistoryError_new (operation path error : string) : ApprovalHistoryError :=
  "failed to " +:+ operation +:+ " session approval history at " +:+ path +:+ ": " +:+ error.

Definition display_optional_path (path : option string) : string := default "<memory>" path.

Definition path_changed (previous current : option string) : ApprovalHistoryError :=
  "session approval history path changed from " +:+ display_optional_path previous
  +:+ " to " +:+ display_optional_path current.

Definition uninitialized : ApprovalHistoryError :=
  "session approval history was used before initialization".

(** ** Operations *)

(** What [tokio::fs::read_to_string] answers: the text, no file, or another error. *)
Inductive ReadAnswer := Read_done | Read_failed (error : string).

(** What the steps of [persist_history] answer.  A failure names its step; only when the
    blocking task itself is lost may the file already be replaced. *)
Inductive PersistAnswer :=
| Persist_done
| Persist_failed (operation error : string)
| Persist_join_failed (error : string) (replaced : bool).

(** [ApprovalHistoryFile::record_decision]. *)
Definition file_record_decision (f : ApprovalHistoryFile) (key : string)
    (decision : ApprovalDecision) : ApprovalHistoryFile :=
  match decision with
  | AllowAlways =>
    {| allowed_always := {[key]} ∪ allowed_always f; denied_always := denied_always f ∖ {[key]} |}
  | DenyAlways =>
    {| allowed_always := allowed_always f ∖ {[key]}; denied_always := {[key]} ∪ denied_always f |}
  | AllowOnce | DenyOnce => f
  end.

Section store.
  (** serde's text of a history file. *)
  Context (encode : ApprovalHistoryFile → string)
          (decode : string → result ApprovalHistoryFile string).

  (** The files of the machine, by path. *)
  Abbreviation Disk := (gmap string string).

Definition ensure_loaded (s : ApprovalHistoryStore) (disk : Disk) (path : option string)
    (answer : ReadAnswer) : result unit ApprovalHistoryError * ApprovalHistoryStore :=
  match ah_persistence s with
  | Persistence_Ready previous =>
    if bool_decide (previous = path) then (Ok tt, s) else (Err (path_changed previous path), s)
  | Persistence_Failed error => (Err error, s)
  | Persistence_Uninitialized =>
    let loaded :=
      match path with
      | Some path =>
        match answer with
        | Read_failed error => Err (ApprovalHistoryError_new "read" path error)
        | Read_done =>
          match disk !! path with
          | None => Ok ApprovalHistoryFile_default
          | Some text => map_err (ApprovalHistoryError_new "parse" path) (decode text)
          end
        end
      | None => Ok ApprovalHistoryFile_default
      end in
    match loaded with
    | Ok history => (Ok tt, {| ah_inner := history; ah_persistence := Persistence_Ready path |})
    | Err error =>
      (Err error, {| ah_inner := ah_inner s; ah_persistence := Persistence_Failed error |})
    end
  end.

(** [replace_history_file]: the new content goes to a temporary sibling that replaces the
    file in one step. *)
Definition replace_history_file (disk : Disk) (path content : string) (answer : PersistAnswer)
    : result unit ApprovalHistoryError * Disk :=
  match parent path with
  | None =>
    (Err (ApprovalHistoryError_new "resolve parent directory for" path
            "path has no parent directory"), disk)
  | Some _ =>
    match answer with
    | Persist_done => (Ok tt, <[path := content]> disk)
    | Persist_failed operation error =>
      (Err (ApprovalHistoryError_new operation path error), disk)
    | Persist_join_failed error replaced =>
      (Err (ApprovalHistoryError_new "join persistence task for" path error),
       if replaced then <[path := content]> disk else disk)
    end
  end.

Definition persist_history (disk : Disk) (path : string) (history : ApprovalHistoryFile)
    (answer : PersistAnswer) : result unit ApprovalHistoryError * Disk :=
  replace_history_file disk path (encode history) answer.

(** [ApprovalHistoryStore::record_decision]. *)
Definition record_decision (s : ApprovalHistoryStore) (disk : Disk) (rule_key : option string)
    (decision : ApprovalDecision) (answer : PersistAnswer)
    : result unit ApprovalHistoryError * ApprovalHistoryStore * Disk :=
  match rule_key with
  | None | Some EmptyString => (Ok tt, s, disk)
  | Some key =>
    match decision with
    | AllowOnce | DenyOnce => (Ok tt, s, disk)
    | AllowAlways | DenyAlways =>
      match ah_persistence s with
      | Persistence_Failed error => (Err error, s, disk)
      | Persistence_Uninitialized => (Err uninitialized, s, disk)
      | Persistence_Ready path =>
        let candidate := file_record_decision (ah_inner s) key decision in
        let '(persisted, disk) :=
          match path with
          | Some path => persist_history disk path candidate answer
          | None => (Ok tt, disk)
          end in
        match persisted with
        | Err error =>
          (Err error, {| ah_inner := ah_inner s; ah_persistence := Persistence_Failed error |}, disk)
        | Ok _ =>
          (Ok tt, {| ah_inner := candidate; ah_persistence := ah_persistence s |}, disk)
        end
      end
    end
  end.

(** [is_allowed_always] and [is_denied_always]. *)
Definition memory_of (s : ApprovalHistoryStore) : ApprovalMemory :=
  {| is_denied_always := λ k, bool_decide (k ∈ denied_always (ah_inner s));
     is_allowed_always := λ k, bool_decide (k ∈ allowed_always (ah_inner s)) |}.

(** ** Runs of one session's store *)

Inductive HistoryOp :=
| HistoryLoad (path : option string) (answer : ReadAnswer)
| HistoryRecord (rule_key : option string) (decision : ApprovalDecision) (answer : PersistAnswer).

Definition history_step (st : ApprovalHistoryStore * Disk) (op : HistoryOp)
    : ApprovalHistoryStore * Disk :=
  match op with
  | HistoryLoad path answer => ((ensure_loaded st.1 st.2 path answer).2, st.2)
  | HistoryRecord key decision answer =>
    let '(_, s, disk) := record_decision st.1 st.2 key decision answer in (s, disk)
  end.

Definition history_run (disk : Disk) (ops : list HistoryOp) : ApprovalHistoryStore * Disk :=
  foldl history_step (ApprovalHistoryStore_default, disk) ops.

(** serde reads back what it wrote. *)
Definition history_codec_ok : Prop := ∀ f, decode (encode f) = Ok f.

(** A store in use is what its file says: the content decodes to the memory, and no file
    means an empty memory. *)
Definition in_sync (s : ApprovalHistoryStore) (disk : Disk) : Prop :=
  match ah_persistence s with
  | Persistence_Ready (Some path) =>
    match disk !! path with
    | Some text => decode text = Ok (ah_inner s)
    | None => ah_inner s = ApprovalHistoryFile_default
    end
  | _ => True
  end.

Lemma history_step_in_sync s disk op :
  history_codec_ok → in_sync s disk →
  in_sync (history_step (s, disk) op).1 (history_step (s, disk) op).2.
Proof.
  intros Hc Hs. destruct op as [path answer|[[|c k]|] decision answer]; simpl; try done.
  - unfold ensure_loaded, in_sync in *. destruct (ah_persistence s) as [|previous|e] eqn:Hp; simpl.
    + destruct path as [path|]; [|done]. destruct answer; [|done].
      destruct (disk !! path) as [text|] eqn:Hd; [|simpl; by rewrite Hd].
      destruct (decode text) as [f|e] eqn:Hdec; simpl; [by rewrite Hd|done].
    + case_bool_decide; simpl; by rewrite Hp.
    + by rewrite Hp.
  - unfold in_sync in *. destruct decision; simpl; try done;
      destruct (ah_persistence s) as [|[path|]|e] eqn:Hp; simpl; rewrite ?Hp; try done;
      unfold persist_history, replace_history_file;
      destruct (parent path), answer; simpl; try done; rewrite ?Hp, lookup_insert_eq; apply Hc.
Qed.

Lemma history_run_in_sync disk ops :
  history_codec_ok → in_sync (history_run disk ops).1 (history_run disk ops).2.
Proof.
  intros Hc. unfold history_run.
  assert (in_sync (ApprovalHistoryStore_default, disk).1 (ApprovalHistoryStore_default, disk).2) as H
    by done.
  revert H. generalize (ApprovalHistoryStore_default, disk). induction ops as [|op ops IH];
    intros [s d] Hs; simpl; [done|]. destruct (history_step (s, d) op) as [s' d'] eqn:Hst.
  apply IH. pose proof (history_step_in_sync s d op Hc Hs) as H. by rewrite Hst in H.
Qed.

(** A failed store answers with its failure and never changes again. *)
Lemma failed_sticky s disk op e :
  ah_persistence s = Persistence_Failed e → history_step (s, disk) op = (s, disk).
Proof.
  intros Hp. destruct op as [path answer|[[|c k]|] decision answer]; simpl;
    unfold ensure_loaded; rewrite ?Hp; try done. by destruct decision.
Qed.

(** The memory a session decides with is never ahead of what is stored: after any
    sequence of loads and answers, whatever the operating system reported, a store that is
    still in use equals the content of its file, so a restart that reads the file decides
    every later call the same way; and once an operation failed the store refuses to be
    changed. *)
Theorem approval_memory_durable disk ops :
  history_codec_ok →
  let s := (history_run disk ops).1 in let d := (history_run disk ops).2 in
  match ah_persistence s with
  | Persistence_Ready (Some path) =>
    (ensure_loaded ApprovalHistoryStore_default d (Some path) Read_done).2 = s
  | Persistence_Ready None | Persistence_Uninitialized => True
  | Persistence_Failed e => ∀ op, history_step (s, d) op = (s, d)
  end.
Proof.
  intros Hc s d. pose proof (history_run_in_sync disk ops Hc) as Hs. fold s in Hs. fold d in Hs.
  unfold in_sync in Hs. destruct (ah_persistence s) as [|[path|]|e] eqn:Hp; try done.
  - unfold ensure_loaded; simpl. destruct s as [inner pers]; simpl in *; subst.
    destruct (d !! path) as [text|] eqn:Hd; simpl; [by rewrite Hs|by subst].
  - intros op. by eapply failed_sticky.
Qed.

End store.

(** A codec, to run the operations with: the two sets as a number in binary. *)
Fixpoint binary (p : positive) : string :=
  match p with
  | xH => EmptyString
  | xO p => String "0" (binary p)
  | xI p => String "1" (binary p)
  end.
Fixpoint from_binary (s : string) : positive :=
  match s with
  | EmptyString => xH
  | String c s => if bool_decide (c = "0"%char) then xO (from_binary s) else xI (from_binary s)
  end.
Definition sample_encode (f : ApprovalHistoryFile) : string :=
  binary (encode (allowed_always f, denied_always f)).
Definition sample_decode (s : string) : result ApprovalHistoryFile string :=
  match decode (from_binary s) with
  | Some (a, d) => Ok {| allowed_always := a; denied_always := d |}
  | None => Err "not a history"
  end.

Lemma from_binary_binary p : from_binary (binary p) = p.
Proof. by induction p; simpl; f_equal. Qed.

Lemma history_sample_codec_ok : history_codec_ok sample_encode sample_decode.
Proof.
  intros [a d]. unfold sample_decode, sample_encode.
  by rewrite from_binary_binary, decode_encode.
Qed.

Lemma approval_memory_durable_witness :
  let s := (history_run sample_encode sample_decode ∅
      [HistoryLoad (Some "/d/h.json") Read_done;
       HistoryRecord (Some "git-path") AllowAlways Persist_done;
       HistoryRecord (Some "sensitive:.env") DenyAlways Persist_done]).1 in
  (ensure_loaded sample_decode ApprovalHistoryStore_default
     (history_run sample_encode sample_decode ∅
       [HistoryLoad (Some "/d/h.json") Read_done;
        HistoryRecord (Some "git-path") AllowAlways Persist_done;
        HistoryRecord (Some "sensitive:.env") DenyAlways Persist_done]).2
     (Some "/d/h.json") Read_done).2 = s.
Proof.
  intros s. exact (approval_memory_durable sample_encode sample_decode ∅
    [HistoryLoad (Some "/d/h.json") Read_done;
     HistoryRecord (Some "git-path") AllowAlways Persist_done;
     HistoryRecord (Some "sensitive:.env") DenyAlways Persist_done] history_sample_codec_ok).
Defined.
