(* ===== verification/PermChain.v ===== *)
(** * What the default permission chain decides

    The chain of [PermPolicy.build_default_chain] against a direct description of its
    outcome, and how the answers of the user change it through the approval memory of
    [PermPolicy].  The prepared disposition of a call ([tool_pipeline/prepare.rs]) is in
    [ToolPrepare]. *)

From S2P Require Import Prelude StdPath CoreTypes CoreAccess PermPolicy.

(** ** Settling a list of questions against the memory *)

(** A remembered refusal wins, a remembered approval removes its question. *)
Fixpoint settle (h : ApprovalMemory) (asks : list PermissionRequirement)
    : result (list PermissionRequirement) string :=
  match asks with
  | [] => Ok []
  | r :: asks =>
    match req_rule_key r with
    | Some key =>
      if is_denied_always h key then Err key
      else let? rest := settle h asks in
           Ok (if is_allowed_always h key then rest else r :: rest)
    | None => let? rest := settle h asks in Ok (r :: rest)
    end
  end.

(** The question a policy raises. *)
Definition ask_of (d : PolicyDecision) : option PermissionRequirement :=
  match d with
  | Decision_Ask prompt key => Some {| req_prompt := prompt; req_rule_key := key |}
  | _ => None
  end.

Definition ask_or_pass (ctx : PermissionContext) (p : PermissionPolicy) : Prop :=
  match p ctx with Decision_Ask _ _ | Decision_Pass => True | _ => False end.

Definition memory_refusal (key : string) : PermissionResolution :=
  Resolution_Deny ("Denied by session approval memory (" +:+ key +:+ ")").

Lemma decide_loop_asks asks rest ctx h reqs :
  Forall (ask_or_pass ctx) asks →
  decide_loop (asks ++ rest) ctx h reqs
  = match settle h (omap (λ p, ask_of (p ctx)) asks) with
    | Err key => memory_refusal key
    | Ok pending => decide_loop rest ctx h (reqs ++ pending)
    end.
Proof.
  intros Ha. revert reqs. induction Ha as [|p asks Hp _ IH]; intros reqs.
  { simpl. by rewrite app_nil_r. }
  csimpl. unfold ask_or_pass in Hp. destruct (p ctx) as [|reason|prompt [key|]|]; try done; csimpl.
  - destruct (is_denied_always h key); [done|]. destruct (is_allowed_always h key); rewrite IH.
    + by destruct (settle h _).
    + destruct (settle h _); [|done]. by rewrite <-app_assoc.
  - rewrite IH. destruct (settle h _); [|done]. by rewrite <-app_assoc.
Qed.

(** Allowing policies in front of a final allow change nothing. *)
Lemma decide_loop_allows allows ctx h reqs :
  Forall (λ p : PermissionPolicy, p ctx = Decision_Allow ∨ p ctx = Decision_Pass) allows →
  decide_loop (allows ++ [fallback_allow_evaluate]) ctx h reqs
  = match reqs with [] => Resolution_Allow | _ => Resolution_Ask reqs end.
Proof.
  induction 1 as [|p l [Hp|Hp] _ IH]; simpl; [done|by rewrite Hp|by rewrite Hp].
Qed.

Lemma settle_Err_iff h asks :
  (∃ key, settle h asks = Err key) ↔
  Exists (λ r, match req_rule_key r with
               | Some key => is_denied_always h key = true | None => False end) asks.
Proof.
  induction asks as [|[pr [key|]] asks IH]; simpl.
  - split; [by intros [? [=]]|by intros ?%Exists_nil].
  - rewrite Exists_cons, <-IH. simpl. destruct (is_denied_always h key); [naive_solver|].
    destruct (settle h asks); naive_solver.
  - rewrite Exists_cons, <-IH. simpl. destruct (settle h asks); naive_solver.
Qed.

(** The question is not answered by a remembered approval. *)
Definition unanswered (h : ApprovalMemory) (r : PermissionRequirement) : bool :=
  match req_rule_key r with Some key => negb (is_allowed_always h key) | None => true end.

Lemma settle_Ok h asks pending :
  settle h asks = Ok pending → pending = filter (λ r, unanswered h r = true) asks.
Proof.
  revert pending. induction asks as [|[pr [key|]] asks IH]; intros pending; simpl.
  { by intros [= <-]. }
  - destruct (is_denied_always h key); [done|]. destruct (settle h asks) as [rest|]; [|done].
    intros [= <-]. rewrite (IH rest) by done. destruct (is_allowed_always h key) eqn:Ha.
    + rewrite filter_cons_False; [done|]. unfold unanswered; simpl. by rewrite Ha.
    + rewrite filter_cons_True; [done|]. unfold unanswered; simpl. by rewrite Ha.
  - destruct (settle h asks) as [rest|]; [|done]. intros [= <-].
    rewrite filter_cons_True by done. by rewrite (IH rest).
Qed.

(** ** The default chain *)

Section default_chain.
  Context {GlobSet : Type} (globset_build : list string → option GlobSet)
    (is_match : GlobSet → string → bool) (value_to_string : Value → string)
    (canonicalize : string → option string) (exists_ : string → bool).

  Abbreviation default_chain := (build_default_chain globset_build is_match value_to_string
    canonicalize exists_).
  Abbreviation matching := (rule_matches is_match value_to_string).
  Abbreviation compiled := (compile_rules globset_build).

(** Some configured rule of the list matches the call. *)
Definition some_rule (rules : list PermissionRule) (ctx : PermissionContext) : bool :=
  existsb (λ rule, matching rule ctx) (compiled rules).

(** The questions the default chain can raise about a call, in its order. *)
Definition default_asks (permissions : PermissionsSection) (ctx : PermissionContext)
    : list PermissionRequirement :=
  omap (λ p : PermissionPolicy, ask_of (p ctx))
    [ configured_evaluate is_match value_to_string
        (ConfiguredPolicy_new globset_build (ps_ask permissions) Effect_Ask);
      sensitive_file_ask_evaluate is_match (build_sensitive_globset globset_build);
      git_path_ask_evaluate; process_resource_ask_evaluate; opaque_resource_ask_evaluate ].

(** The outcome, without a chain: refusals first, then blanket approvals, then what is left
    of the questions. *)
Definition default_resolution (permissions : PermissionsSection) (ctx : PermissionContext)
    (h : ApprovalMemory) : PermissionResolution :=
  if some_rule (ps_deny permissions) ctx then
    Resolution_Deny ("Denied by user rule for tool `" +:+ pc_tool_name ctx +:+ "`")
  else if negb (opt_allows (pc_tool_selection ctx) (pc_tool_name ctx)) then
    Resolution_Deny ("Tool '" +:+ pc_tool_name ctx +:+ "' is outside this session's selection")
  else if bool_decide (pc_approval_mode ctx = ApprovalMode_Yolo)
       || some_rule (ps_allow permissions) ctx then Resolution_Allow
  else match settle h (default_asks permissions ctx) with
  | Err key => memory_refusal key
  | Ok [] => Resolution_Allow
  | Ok pending => Resolution_Ask pending
  end.

Lemma find_first_existsb {A} (p : A → bool) l :
  existsb p l = match find_first p l with Some _ => true | None => false end.
Proof. induction l as [|a l IH]; simpl; [done|]. by destruct (p a). Qed.

Lemma configured_deny rules ctx :
  configured_evaluate is_match value_to_string (ConfiguredPolicy_new globset_build rules Effect_Deny) ctx
  = if some_rule rules ctx then
      Decision_Deny ("Denied by user rule for tool `" +:+ pc_tool_name ctx +:+ "`")
    else Decision_Pass.
Proof.
  unfold configured_evaluate, some_rule. simpl. rewrite find_first_existsb.
  by destruct (find_first _ _).
Qed.

Lemma configured_allow rules ctx :
  configured_evaluate is_match value_to_string (ConfiguredPolicy_new globset_build rules Effect_Allow) ctx
  = if some_rule rules ctx then Decision_Allow else Decision_Pass.
Proof.
  unfold configured_evaluate, some_rule. simpl. rewrite find_first_existsb.
  by destruct (find_first _ _).
Qed.

Lemma selection_decision ctx :
  session_tool_selection_evaluate ctx
  = if opt_allows (pc_tool_selection ctx) (pc_tool_name ctx) then Decision_Pass
    else Decision_Deny
      ("Tool '" +:+ pc_tool_name ctx +:+ "' is outside this session's selection").
Proof. unfold session_tool_selection_evaluate. by destruct (pc_tool_selection ctx). Qed.

Lemma ask_policies permissions ctx :
  Forall (ask_or_pass ctx)
    [ configured_evaluate is_match value_to_string
        (ConfiguredPolicy_new globset_build (ps_ask permissions) Effect_Ask);
      sensitive_file_ask_evaluate is_match (build_sensitive_globset globset_build);
      git_path_ask_evaluate; process_resource_ask_evaluate; opaque_resource_ask_evaluate ].
Proof.
  repeat constructor; unfold ask_or_pass.
  - unfold configured_evaluate. simpl. by destruct (find_first _ _).
  - unfold sensitive_file_ask_evaluate. destruct (find_first _ _); [done|].
    by destruct (sensitive_search_pattern _ _ _).
  - unfold git_path_ask_evaluate. by destruct (find_first _ _).
  - unfold process_resource_ask_evaluate. by destruct (negb _).
  - unfold opaque_resource_ask_evaluate. by destruct (existsb _ _).
Qed.

Lemma approve_policies ctx :
  Forall (λ p : PermissionPolicy, p ctx = Decision_Allow ∨ p ctx = Decision_Pass)
    [default_read_approve_evaluate; git_cwd_write_approve_evaluate canonicalize exists_].
Proof.
  apply Forall_cons; split; [|apply Forall_cons; split; [|constructor]].
  - unfold default_read_approve_evaluate. case_bool_decide; auto.
  - unfold git_cwd_write_approve_evaluate. case_match; [auto|].
    destruct (extract_tool_paths _); [auto|]. case_match; auto.
Qed.

(** A question with a key that is not empty, which is what the memory records. *)
Definition keyed (d : PolicyDecision) : Prop :=
  match d with Decision_Ask _ key => ∃ c k, key = Some (String c k) | _ => True end.

Lemma ask_policies_keyed permissions ctx :
  Forall (λ p : PermissionPolicy, keyed (p ctx))
    [ configured_evaluate is_match value_to_string
        (ConfiguredPolicy_new globset_build (ps_ask permissions) Effect_Ask);
      sensitive_file_ask_evaluate is_match (build_sensitive_globset globset_build);
      git_path_ask_evaluate; process_resource_ask_evaluate; opaque_resource_ask_evaluate ].
Proof.
  repeat apply Forall_cons_2; [..|apply Forall_nil_2].
  - unfold configured_evaluate. simpl. destruct (find_first _ _); simpl; eauto.
  - unfold sensitive_file_ask_evaluate. destruct (find_first _ _); simpl; eauto.
    destruct (sensitive_search_pattern _ _ _); simpl; eauto.
  - unfold git_path_ask_evaluate. destruct (find_first _ _); simpl; eauto.
  - unfold process_resource_ask_evaluate. destruct (negb _); simpl; eauto.
  - unfold opaque_resource_ask_evaluate. destruct (existsb _ _); simpl; eauto.
Qed.

Lemma default_asks_keyed permissions ctx r :
  r ∈ default_asks permissions ctx → ∃ c k, req_rule_key r = Some (String c k).
Proof.
  intros (p & Hp & Hr)%list_elem_of_omap.
  pose proof (ask_policies_keyed permissions ctx) as Hk. rewrite Forall_forall in Hk.
  specialize (Hk p Hp). simpl in Hk. by destruct (p ctx); simplify_eq/=.
Qed.

Lemma default_chain_resolution permissions ctx h :
  chain_decide (default_chain permissions) ctx h = default_resolution permissions ctx h.
Proof.
  unfold chain_decide, default_resolution.
  pose proof (decide_loop_asks _ ([default_read_approve_evaluate;
    git_cwd_write_approve_evaluate canonicalize exists_] ++ [fallback_allow_evaluate]) ctx h []
    (ask_policies permissions ctx)) as Hasks.
  fold (default_asks permissions ctx) in Hasks.
  set (rest := [configured_evaluate is_match value_to_string
      (ConfiguredPolicy_new globset_build (ps_ask permissions) Effect_Ask);
      sensitive_file_ask_evaluate is_match (build_sensitive_globset globset_build);
      git_path_ask_evaluate; process_resource_ask_evaluate; opaque_resource_ask_evaluate]
    ++ ([default_read_approve_evaluate; git_cwd_write_approve_evaluate canonicalize exists_]
    ++ [fallback_allow_evaluate])) in *.
  change (default_chain permissions) with
    ([configured_evaluate is_match value_to_string
       (ConfiguredPolicy_new globset_build (ps_deny permissions) Effect_Deny);
      session_tool_selection_evaluate; yolo_mode_approve_evaluate;
      configured_evaluate is_match value_to_string
       (ConfiguredPolicy_new globset_build (ps_allow permissions) Effect_Allow)] ++ rest).
  cbn [decide_loop app].
  rewrite configured_deny. destruct (some_rule (ps_deny permissions) ctx); [done|].
  rewrite selection_decision. destruct (opt_allows _ _); [|done].
  unfold yolo_mode_approve_evaluate. destruct (bool_decide _); [done|].
  rewrite configured_allow. destruct (some_rule (ps_allow permissions) ctx); [done|].
  simpl negb. simpl orb. cbv iota. rewrite Hasks.
  destruct (settle h _) as [pending|key]; [|done].
  rewrite decide_loop_allows by apply approve_policies. simpl. by destruct pending.
Qed.

(** C13. The default chain refuses a call that a deny rule matches or that the session's
    selection excludes, whatever the approval mode and the memory; else it approves it in
    yolo mode or when an allow rule matches; else it refuses it when the memory refuses one
    of the questions about it, and otherwise asks exactly the questions the memory does not
    answer, in order, approving when none is left.  In particular neither the file system
    nor the policies behind the questions have a say. *)
Theorem default_chain_decides permissions ctx h :
  chain_decide (default_chain permissions) ctx h =
  if some_rule (ps_deny permissions) ctx then
    Resolution_Deny ("Denied by user rule for tool `" +:+ pc_tool_name ctx +:+ "`")
  else if negb (opt_allows (pc_tool_selection ctx) (pc_tool_name ctx)) then
    Resolution_Deny ("Tool '" +:+ pc_tool_name ctx +:+ "' is outside this session's selection")
  else if bool_decide (pc_approval_mode ctx = ApprovalMode_Yolo)
       || some_rule (ps_allow permissions) ctx then Resolution_Allow
  else match settle h (default_asks permissions ctx) with
  | Err key => memory_refusal key
  | Ok [] => Resolution_Allow
  | Ok pending => Resolution_Ask pending
  end.
Proof. apply default_chain_resolution. Qed.

(** ** Answers of the user *)

Lemma Ask_inv permissions ctx h reqs :
  chain_decide (default_chain permissions) ctx h = Resolution_Ask reqs →
  settle h (default_asks permissions ctx) = Ok reqs ∧
  ∀ h', chain_decide (default_chain permissions) ctx h'
        = match settle h' (default_asks permissions ctx) with
          | Err key => memory_refusal key
          | Ok [] => Resolution_Allow
          | Ok pending => Resolution_Ask pending
          end.
Proof.
  intros H. rewrite default_chain_resolution in H.
  setoid_rewrite default_chain_resolution. unfold default_resolution in *.
  destruct (some_rule (ps_deny permissions) ctx); [done|].
  destruct (negb _); [done|]. destruct (_ || _); [done|]. split; [|done].
  destruct (settle h _) as [[|r l]|]; by simplify_eq.
Qed.

Lemma settle_answered h h' asks pending :
  settle h asks = Ok pending →
  (∀ k, is_denied_always h' k = true → is_denied_always h k = true) →
  (∀ k, is_allowed_always h k = true → is_allowed_always h' k = true) →
  (∀ r, r ∈ pending → unanswered h' r = false) →
  settle h' asks = Ok [].
Proof.
  intros Hs Hd Ha Hp. destruct (settle h' asks) as [l|key] eqn:Hs'.
  - apply settle_Ok in Hs as ->. apply settle_Ok in Hs' as ->. f_equal.
    apply filter_none. intros r Hr Hu.
    destruct (unanswered h r) eqn:Hur.
    { rewrite Hp in Hu; [done|]. by apply list_elem_of_filter. }
    unfold unanswered in *. destruct (req_rule_key r) as [k|]; [|done].
    rewrite negb_false_iff in Hur. rewrite Ha in Hu by done. done.
  - exfalso. assert (∃ key, settle h asks = Err key) as [? ?]; [|congruence].
    apply settle_Err_iff. assert (∃ key, settle h' asks = Err key) as He by eauto.
    apply settle_Err_iff in He. eapply Exists_impl; [exact He|].
    intros r. simpl. destruct (req_rule_key r); auto.
Qed.

Context (encode : ApprovalHistoryFile → string)
  (decode : string → result ApprovalHistoryFile string).

(** The answer [d] to a question, recorded in a working store. *)
Definition answer (d : ApprovalDecision) (st : ApprovalHistoryStore * gmap string string)
    (r : PermissionRequirement) : ApprovalHistoryStore * gmap string string :=
  history_step encode decode st (HistoryRecord (req_rule_key r) d Persist_done).

(** A store that can record: initialised, and in memory or with a file in a directory. *)
Definition usable (s : ApprovalHistoryStore) : Prop :=
  match ah_persistence s with
  | Persistence_Ready None => True
  | Persistence_Ready (Some path) => is_Some (parent path)
  | _ => False
  end.

Lemma answer_spec d st r c k :
  usable st.1 → req_rule_key r = Some (String c k) → d = AllowAlways ∨ d = DenyAlways →
  usable (answer d st r).1 ∧
  ah_inner (answer d st r).1 = file_record_decision (ah_inner st.1) (String c k) d.
Proof.
  intros Hu Hr Hd. destruct st as [s disk]. unfold answer, usable in *. simpl in *. rewrite Hr.
  destruct Hd as [-> | ->]; simpl;
    destruct (ah_persistence s) as [|[path|]|e] eqn:Hp; try done; simpl; rewrite ?Hp; try done;
    unfold persist_history, replace_history_file; destruct Hu as [q Hq]; rewrite Hq; simpl;
    rewrite ?Hp, ?Hq; eauto.
Qed.

Lemma answer_allow_all reqs st :
  usable st.1 → (∀ r, r ∈ reqs → ∃ c k, req_rule_key r = Some (String c k)) →
  let st' := foldl (answer AllowAlways) st reqs in
  denied_always (ah_inner st'.1) ⊆ denied_always (ah_inner st.1) ∧
  allowed_always (ah_inner st.1) ⊆ allowed_always (ah_inner st'.1) ∧
  ∀ r, r ∈ reqs → ∃ k, req_rule_key r = Some k ∧ k ∈ allowed_always (ah_inner st'.1).
Proof.
  revert st. induction reqs as [|r reqs IH]; intros st Hu Hk; simpl; [set_solver|].
  destruct (Hk r) as (c & k & Hr); [set_solver|].
  destruct (answer_spec AllowAlways st r c k Hu Hr (or_introl eq_refl)) as [Hu' Hin].
  destruct (IH (answer AllowAlways st r) Hu') as (H1 & H2 & H3); [set_solver|].
  rewrite Hin in H1, H2. simpl in H1, H2.
  split_and!; [set_solver|set_solver|]. intros x [->|Hx]%elem_of_cons; [|by apply H3].
  exists (String c k). split; [done|]. set_solver.
Qed.

(** What the user answers is what later calls get: when the chain asks about a call, then
    after "always allow" to every question the same call is approved, and after "always
    deny" to any one of them it is refused. *)
Theorem answers_are_final permissions ctx st reqs :
  usable st.1 →
  chain_decide (default_chain permissions) ctx (memory_of st.1) = Resolution_Ask reqs →
  chain_decide (default_chain permissions) ctx
    (memory_of (foldl (answer AllowAlways) st reqs).1) = Resolution_Allow ∧
  (∀ r, r ∈ reqs → ∃ key, chain_decide (default_chain permissions) ctx
    (memory_of (answer DenyAlways st r).1) = memory_refusal key).
Proof.
  intros Hu H. apply Ask_inv in H as [Hs Hrest].
  assert (∀ r, r ∈ reqs → ∃ c k, req_rule_key r = Some (String c k)) as Hk.
  { intros r Hr. apply (default_asks_keyed permissions ctx).
    apply settle_Ok in Hs as ->. by apply list_elem_of_filter in Hr as [_ ?]. }
  split.
  - rewrite Hrest. destruct (answer_allow_all reqs st Hu Hk) as (H1 & H2 & H3).
    rewrite (settle_answered _ _ _ _ Hs); [done|..]; simpl.
    + intros k. rewrite !bool_decide_eq_true. set_solver.
    + intros k. rewrite !bool_decide_eq_true. set_solver.
    + intros r Hr. destruct (H3 r Hr) as (k & Hrk & Hin). unfold unanswered. rewrite Hrk.
      simpl. by rewrite bool_decide_true.
  - intros r Hr. destruct (Hk r Hr) as (c & k & Hrk). rewrite Hrest.
    destruct (answer_spec DenyAlways st r c k Hu Hrk (or_intror eq_refl)) as [_ Hin].
    assert (∃ key, settle (memory_of (answer DenyAlways st r).1) (default_asks permissions ctx)
      = Err key) as [key ->]; [|eauto].
    apply settle_Err_iff, Exists_exists. exists r. rewrite Hrk. simpl. rewrite Hin. simpl. split.
    + apply settle_Ok in Hs as ->. by apply list_elem_of_filter in Hr as [_ ?].
    + apply bool_decide_eq_true. set_solver.
Qed.

(** Without a blanket approval (manual mode, no allow rule that matches) a call whose
    plan controls a process, or has effects that cannot be scoped, is approved silently only
    if the user said "always allow" to exactly this kind of effect for this tool. *)
Theorem unscoped_effects_are_approved permissions ctx h :
  pc_approval_mode ctx = ApprovalMode_Manual →
  some_rule (ps_allow permissions) ctx = false →
  chain_decide (default_chain permissions) ctx h = Resolution_Allow →
  (Access_Host Host_Process ∈ pc_resource_accesses ctx →
     is_allowed_always h (process_rule_key (pc_tool_name ctx)) = true) ∧
  (Access_Opaque ∈ pc_resource_accesses ctx →
     is_allowed_always h (opaque_rule_key (pc_tool_name ctx)) = true).
Proof.
  intros Hm Ha Hd. rewrite default_chain_resolution in Hd. unfold default_resolution in Hd.
  rewrite Ha, Hm in Hd. destruct (some_rule (ps_deny permissions) ctx); [done|].
  destruct (negb _); [done|]. simpl orb in Hd. cbv iota in Hd.
  destruct (settle h _) as [[|r l]|] eqn:Hs; try done.
  apply settle_Ok in Hs. assert (∀ r, r ∈ default_asks permissions ctx → unanswered h r = false) as Hall.
  { intros r Hr. apply not_true_iff_false. intros Hu.
    assert (r ∈ filter (λ r, unanswered h r = true) (default_asks permissions ctx)) as Hin
      by (by apply list_elem_of_filter). rewrite <-Hs in Hin. by apply not_elem_of_nil in Hin. }
  assert (∀ p prompt key, p ∈ [process_resource_ask_evaluate; opaque_resource_ask_evaluate] →
    p ctx = Decision_Ask prompt (Some key) → is_allowed_always h key = true) as Hpol.
  { intros p prompt key Hp Hask.
    specialize (Hall {| req_prompt := prompt; req_rule_key := Some key |}).
    unfold unanswered in Hall. simpl in Hall. apply negb_false_iff, Hall.
    apply list_elem_of_omap. exists p. rewrite Hask. split; [|done].
    apply elem_of_cons; right. apply elem_of_cons; right. apply elem_of_cons; right. exact Hp. }
  split; intros Hr.
  - eapply (Hpol process_resource_ask_evaluate); [set_solver|].
    unfold process_resource_ask_evaluate. rewrite (proj2 (existsb_exists _ _)); [done|].
    exists (Access_Host Host_Process). split; [by apply list_elem_of_In|by apply bool_decide_eq_true].
  - eapply (Hpol opaque_resource_ask_evaluate); [set_solver|].
    unfold opaque_resource_ask_evaluate. rewrite (proj2 (existsb_exists _ _)); [done|].
    exists Access_Opaque. split; [by apply list_elem_of_In|by apply bool_decide_eq_true].
Qed.

(** A path pattern that does not compile is dropped from its rule, so an allow rule with a
    malformed path approves the tool on every path (a deny or ask rule errs on the safe
    side). *)
Theorem malformed_allow_rule_allows_everything permissions rule pattern ctx h :
  rule ∈ ps_allow permissions → pr_path rule = Some pattern →
  globset_build [pattern] = None → pr_pattern rule = None →
  pr_tool rule = pc_tool_name ctx →
  some_rule (ps_deny permissions) ctx = false →
  opt_allows (pc_tool_selection ctx) (pc_tool_name ctx) = true →
  chain_decide (default_chain permissions) ctx h = Resolution_Allow.
Proof.
  intros Hin Hp Hg Hpat Ht Hdeny Hsel. rewrite default_chain_resolution.
  unfold default_resolution. rewrite Hdeny, Hsel. simpl negb. cbv iota.
  assert (some_rule (ps_allow permissions) ctx = true) as ->; [|by rewrite orb_true_r].
  unfold some_rule. apply existsb_exists. eexists. split.
  - apply list_elem_of_In. unfold compile_rules. apply list_elem_of_fmap. by exists rule.
  - unfold rule_matches. simpl. rewrite Hp, Hpat. simpl. unfold build_globset. rewrite Hg, Ht.
    by rewrite bool_decide_true.
Qed.

End default_chain.

(** ** Runs on a concrete call *)

Module Sample.

(** A matcher that knows one sensitive file. *)
Definition build (patterns : list string) : option (list string) := Some patterns.
Definition matches (_ : list string) (path : string) : bool := bool_decide (path = ".env").
Definition text (_ : Value) : string := "".
Definition canonicalize (_ : string) : option string := None.
Definition exists_ (_ : string) : bool := false.
Definition permissions : PermissionsSection := {| ps_deny := []; ps_ask := []; ps_allow := [] |}.

(** A shell call that reads a sensitive file. *)
Definition ctx : PermissionContext :=
  {| pc_tool_name := "shell"; pc_tool_input := JObject [("command", JString "cat .env"); ("path", JString ".env")];
     pc_working_dir := "/project"; pc_resource_accesses := [Access_Host Host_Process];
     pc_approval_mode := ApprovalMode_Manual; pc_tool_selection := None |}.

Definition store : ApprovalHistoryStore :=
  {| ah_inner := ApprovalHistoryFile_default; ah_persistence := Persistence_Ready None |}.

Definition requirements : list PermissionRequirement :=
  [{| req_prompt := "Access sensitive path `.env`?"; req_rule_key := Some "sensitive:.env" |};
   {| req_prompt := "Allow tool `shell` to run a process?" +:+ newline +:+ "cat .env";
      req_rule_key := Some "process-resource:shell" |}].

(** A store that remembers both approvals. *)
Definition approved : ApprovalHistoryStore :=
  {| ah_inner := {| allowed_always := {["sensitive:.env"; "process-resource:shell"]};
                    denied_always := ∅ |};
     ah_persistence := Persistence_Ready None |}.

End Sample.

Lemma answers_are_final_witness :
  chain_decide (build_default_chain Sample.build Sample.matches Sample.text Sample.canonicalize
      Sample.exists_ Sample.permissions) Sample.ctx
    (memory_of (foldl (answer sample_encode sample_decode AllowAlways) (Sample.store, ∅)
                  Sample.requirements).1) = Resolution_Allow.
Proof.
  apply (answers_are_final Sample.build Sample.matches Sample.text Sample.canonicalize
    Sample.exists_ sample_encode sample_decode Sample.permissions Sample.ctx (Sample.store, ∅)
    Sample.requirements); [exact I|]. by vm_compute.
Defined.

Lemma unscoped_effects_are_approved_witness :
  is_allowed_always (memory_of Sample.approved) "process-resource:shell" = true.
Proof.
  apply (unscoped_effects_are_approved Sample.build Sample.matches Sample.text
    Sample.canonicalize Sample.exists_ Sample.permissions Sample.ctx (memory_of Sample.approved));
    [done|done|by vm_compute|by left].
Defined.

(** A malformed pattern in an allow rule for [write] approves a write outside the tree. *)
Lemma malformed_allow_rule_witness :
  chain_decide (build_default_chain (λ _, None : option (list string)) Sample.matches Sample.text
      Sample.canonicalize Sample.exists_
      {| ps_deny := []; ps_ask := [];
         ps_allow := [{| pr_tool := "write"; pr_pattern := None; pr_path := Some "src/[" |}] |})
    {| pc_tool_name := "write"; pc_tool_input := JObject [("path", JString "/etc/passwd")];
       pc_working_dir := "/project"; pc_resource_accesses := [Access_Opaque];
       pc_approval_mode := ApprovalMode_Manual; pc_tool_selection := None |}
    (memory_of Sample.store) = Resolution_Allow.
Proof.
  eapply (malformed_allow_rule_allows_everything _ _ _ _ _ _
    {| pr_tool := "write"; pr_pattern := None; pr_path := Some "src/[" |} "src/[");
    [by left|done..].
Defined.
