(* ===== verification/ToolRepair.v ===== *)
(** * Repair of tool arguments ([astrcode-session/src/tool_json_repair.rs])

    One scan over almost valid JSON escapes control characters in strings, drops commas and closes what is open.  A
    [&str] is the list of its characters, as numbers; parsing of JSON ([serde_json::from_str]) is an argument. *)

From S2P Require Import Prelude.

Local Open Scope N_scope.

(** ** Characters *)

(** [char::is_control] and [char::is_whitespace]. *)
Definition is_control (c : N) : bool := bool_decide (c < 32) || bool_decide (127 ≤ c < 160).
Definition is_whitespace (c : N) : bool :=
  bool_decide (9 ≤ c ≤ 13)
  || bool_decide (c ∈ [32; 133; 160; 5760; 8232; 8233; 8239; 8287; 12288])
  || bool_decide (8192 ≤ c ≤ 8202).
Definition is_ascii_alphabetic (c : N) : bool := bool_decide (65 ≤ c ≤ 90) || bool_decide (97 ≤ c ≤ 122).

Definition QUOTE : N := 34.
Definition COMMA : N := 44.
Definition BACKSLASH : N := 92.
Definition LBRACKET : N := 91.
Definition RBRACKET : N := 93.
Definition LBRACE : N := 123.
Definition RBRACE : N := 125.

(** The characters of an ASCII literal. *)
Definition chars (s : string) : list N := N_of_ascii <$> String.list_ascii_of_string s.

(** ** The scan *)

Inductive OpenContainer := Container_Object | Container_Array.

#[export] Instance OpenContainer_eq_dec : EqDecision OpenContainer.
Proof. solve_decision. Defined.

(** The locals of the loop; the innermost container is the head of [open_containers]. *)
Record Repair := {
  repaired : list N;
  open_containers : list OpenContainer;
  comma_pending : bool;
  whitespace_after_comma : list N;
  in_string : bool;
  escaped : bool;
  changed : bool;
}.

Definition hex_digit (n : N) : N := if bool_decide (n < 10) then 48 + n else 87 + n.

Definition escaped_control_char (c : N) (include_backslash : bool) : list N :=
  (if include_backslash then [BACKSLASH] else [])
  ++ (if bool_decide (c = 10) then [110]
      else if bool_decide (c = 13) then [114]
      else if bool_decide (c = 9) then [116]
      else if bool_decide (c = 8) then [98]
      else if bool_decide (c = 12) then [102]
      else 117 :: ((λ shift, hex_digit (N.land (N.shiftr c shift) 15)) <$> [12; 8; 4; 0])).

(** [output.push] and the fields the branches set. *)
Definition push (cs : list N) (st : Repair) : Repair :=
  {| repaired := repaired st ++ cs; open_containers := open_containers st; comma_pending := comma_pending st;
     whitespace_after_comma := whitespace_after_comma st; in_string := in_string st; escaped := escaped st;
     changed := changed st |}.
Definition set_in_string (b : bool) (st : Repair) : Repair :=
  {| repaired := repaired st; open_containers := open_containers st; comma_pending := comma_pending st;
     whitespace_after_comma := whitespace_after_comma st; in_string := b; escaped := escaped st;
     changed := changed st |}.
Definition set_escaped (b : bool) (st : Repair) : Repair :=
  {| repaired := repaired st; open_containers := open_containers st; comma_pending := comma_pending st;
     whitespace_after_comma := whitespace_after_comma st; in_string := in_string st; escaped := b;
     changed := changed st |}.
Definition set_changed (st : Repair) : Repair :=
  {| repaired := repaired st; open_containers := open_containers st; comma_pending := comma_pending st;
     whitespace_after_comma := whitespace_after_comma st; in_string := in_string st; escaped := escaped st;
     changed := true |}.
Definition set_open (l : list OpenContainer) (st : Repair) : Repair :=
  {| repaired := repaired st; open_containers := l; comma_pending := comma_pending st;
     whitespace_after_comma := whitespace_after_comma st; in_string := in_string st; escaped := escaped st;
     changed := changed st |}.
Definition set_comma (pending : bool) (whitespace : list N) (st : Repair) : Repair :=
  {| repaired := repaired st; open_containers := open_containers st; comma_pending := pending;
     whitespace_after_comma := whitespace; in_string := in_string st; escaped := escaped st;
     changed := changed st |}.

Definition repair_new : Repair :=
  {| repaired := []; open_containers := []; comma_pending := false; whitespace_after_comma := [];
     in_string := false; escaped := false; changed := false |}.

(** The branch inside a string. *)
Definition string_step (st : Repair) (c : N) : Repair :=
  if escaped st then
    let st := set_escaped false st in
    if is_control c then push (escaped_control_char c false) (set_changed st) else push [c] st
  else if bool_decide (c = BACKSLASH) then push [c] (set_escaped true st)
  else if bool_decide (c = QUOTE) then push [c] (set_in_string false st)
  else if is_control c then push (escaped_control_char c true) (set_changed st)
  else push [c] st.

(** The first character behind a comma that is not white space decides about it. *)
Definition settle_comma (st : Repair) (c : N) : Repair :=
  set_comma false []
    (if bool_decide (c = RBRACE) || bool_decide (c = RBRACKET)
     then set_changed (push (whitespace_after_comma st) st)
     else push (COMMA :: whitespace_after_comma st) st).

(** The branch outside strings. *)
Definition plain_step (st : Repair) (c : N) : Repair :=
  if bool_decide (c = QUOTE) then push [c] (set_in_string true st)
  else if bool_decide (c = LBRACE) then push [c] (set_open (Container_Object :: open_containers st) st)
  else if bool_decide (c = LBRACKET) then push [c] (set_open (Container_Array :: open_containers st) st)
  else if bool_decide (c = RBRACE) && bool_decide (head (open_containers st) = Some Container_Object)
  then push [c] (set_open (tail (open_containers st)) st)
  else if bool_decide (c = RBRACKET) && bool_decide (head (open_containers st) = Some Container_Array)
  then push [c] (set_open (tail (open_containers st)) st)
  else if bool_decide (c = COMMA) then set_comma true (whitespace_after_comma st) st
  else push [c] st.

Definition scan_step (st : Repair) (c : N) : Repair :=
  if in_string st then string_step st c
  else if comma_pending st then
    if is_whitespace c then set_comma true (whitespace_after_comma st ++ [c]) st
    else plain_step (settle_comma st c) c
  else plain_step st c.

Definition scan (arguments : list N) : Repair := foldl scan_step repair_new arguments.

(** ** What is left open at the end *)

(** [str::trim_end] and the token at the end of a text. *)
Fixpoint drop_while (p : N → bool) (l : list N) : list N :=
  match l with [] => [] | c :: l' => if p c then drop_while p l' else l end.
Fixpoint take_while (p : N → bool) (l : list N) : list N :=
  match l with [] => [] | c :: l' => if p c then c :: take_while p l' else [] end.
Definition trim_end (l : list N) : list N := reverse (drop_while is_whitespace (reverse l)).
Definition before_token (l : list N) : list N := reverse (drop_while is_ascii_alphabetic (reverse l)).
Definition end_token (l : list N) : list N := reverse (take_while is_ascii_alphabetic (reverse l)).

Definition full_literal (token : list N) : option (list N) :=
  if bool_decide (token ∈ [chars "t"; chars "tr"; chars "tru"]) then Some (chars "true")
  else if bool_decide (token ∈ [chars "f"; chars "fa"; chars "fal"; chars "fals"]) then Some (chars "false")
  else if bool_decide (token ∈ [chars "n"; chars "nu"; chars "nul"]) then Some (chars "null")
  else None.

Definition in_value_position (before : list N) (open : list OpenContainer) : bool :=
  match last (trim_end before) with
  | None => true
  | Some c =>
    if bool_decide (c = 58) then true
    else if bool_decide (c = LBRACKET) then true
    else if bool_decide (c = COMMA) then bool_decide (head open = Some Container_Array)
    else false
  end.

(** [None] when the text stays as it is. *)
Definition complete_truncated_literal (output : list N) (open : list OpenContainer) : option (list N) :=
  let trimmed := trim_end output in
  match last trimmed with
  | None => None
  | Some c =>
    if negb (is_ascii_alphabetic c) then None
    else
      full ← full_literal (end_token trimmed);
      if in_value_position (before_token trimmed) open then Some (before_token trimmed ++ full) else None
  end.

Definition closer (c : OpenContainer) : N := match c with Container_Object => RBRACE | Container_Array => RBRACKET end.

(** The statements behind the loop, one after the other. *)
Definition flush_comma (st : Repair) : Repair :=
  if comma_pending st then
    match open_containers st with
    | [] => set_changed st
    | _ => push (COMMA :: whitespace_after_comma st) st
    end
  else st.

Definition drop_escape (st : Repair) : Repair :=
  if escaped st then
    {| repaired := take (length (repaired st) - 1) (repaired st); open_containers := open_containers st;
       comma_pending := comma_pending st; whitespace_after_comma := whitespace_after_comma st;
       in_string := in_string st; escaped := escaped st; changed := true |}
  else st.

Definition close_string (st : Repair) : Repair := if in_string st then set_changed (push [QUOTE] st) else st.

Definition repair_tool_arguments (arguments : list N) : option (list N) :=
  let st := close_string (drop_escape (flush_comma (scan arguments))) in
  let '(output, changed) :=
    match complete_truncated_literal (repaired st) (open_containers st) with
    | Some output => (output, true)
    | None => (repaired st, changed st)
    end in
  match open_containers st with
  | [] => if changed then Some output else None
  | open => Some (output ++ (closer <$> open))
  end.

(** [str::trim], and the whole of [parse_and_repair_json]; the logs are left out. *)
Definition trim (l : list N) : list N := trim_end (drop_while is_whitespace l).

Definition parse_and_repair_json {V E} (from_str : list N → result V E) (arguments : list N) : result V E :=
  match from_str arguments with
  | Ok value => Ok value
  | Err original_error =>
    match repair_tool_arguments (trim arguments) with
    | None => Err original_error
    | Some repaired => match from_str repaired with Ok value => Ok value | Err _ => Err original_error end
    end
  end.

(** ** The shape of a text

    What is open behind a text: whether a string is, whether the next character is escaped, and the containers. *)

Record Shape := { sh_string : bool; sh_escaped : bool; sh_open : list OpenContainer }.

Definition shape_step (s : Shape) (c : N) : Shape :=
  if sh_string s then
    if sh_escaped s then {| sh_string := true; sh_escaped := false; sh_open := sh_open s |}
    else if bool_decide (c = BACKSLASH) then {| sh_string := true; sh_escaped := true; sh_open := sh_open s |}
    else if bool_decide (c = QUOTE) then {| sh_string := false; sh_escaped := false; sh_open := sh_open s |}
    else s
  else if bool_decide (c = QUOTE) then {| sh_string := true; sh_escaped := sh_escaped s; sh_open := sh_open s |}
  else if bool_decide (c = LBRACE) then
    {| sh_string := false; sh_escaped := sh_escaped s; sh_open := Container_Object :: sh_open s |}
  else if bool_decide (c = LBRACKET) then
    {| sh_string := false; sh_escaped := sh_escaped s; sh_open := Container_Array :: sh_open s |}
  else if bool_decide (c = RBRACE) && bool_decide (head (sh_open s) = Some Container_Object) then
    {| sh_string := false; sh_escaped := sh_escaped s; sh_open := tail (sh_open s) |}
  else if bool_decide (c = RBRACKET) && bool_decide (head (sh_open s) = Some Container_Array) then
    {| sh_string := false; sh_escaped := sh_escaped s; sh_open := tail (sh_open s) |}
  else s.

Definition closed_shape : Shape := {| sh_string := false; sh_escaped := false; sh_open := [] |}.
Definition shape (l : list N) : Shape := foldl shape_step closed_shape l.
#[local] Arguments shape : simpl never.

(** A character that changes nothing outside strings. *)
Definition neutral (c : N) : bool :=
  negb (bool_decide (c ∈ [QUOTE; LBRACE; LBRACKET; RBRACE; RBRACKET])).

Lemma neutral_step s c : sh_string s = false → neutral c = true → shape_step s c = s.
Proof.
  unfold neutral, shape_step. intros -> Hc%negb_true_iff. rewrite bool_decide_eq_false in Hc.
  by rewrite !(bool_decide_false (c = _)) by set_solver.
Qed.

Lemma neutral_shape s l :
  sh_string s = false → Forall (λ c, neutral c = true) l → foldl shape_step s l = s.
Proof. intros Hs. induction 1 as [|c l Hc Hl IH]; [done|]. simpl. by rewrite neutral_step. Qed.

Ltac solve_char := unfold neutral, is_whitespace, is_ascii_alphabetic, is_control, QUOTE, COMMA, BACKSLASH, LBRACKET, RBRACKET, LBRACE, RBRACE in *;
  rewrite ?orb_true_iff, ?negb_true_iff, ?bool_decide_eq_true, ?bool_decide_eq_false in *;
  rewrite ?elem_of_cons, ?elem_of_nil in *; lia.

Lemma whitespace_neutral c : is_whitespace c = true → neutral c = true.
Proof. intros. solve_char. Qed.
Lemma alphabetic_neutral c : is_ascii_alphabetic c = true → neutral c = true.
Proof. intros. solve_char. Qed.

(** ** The scan writes a text of its own shape *)

(** Escapes are plain characters of a string. *)
Lemma escape_shape o c :
  foldl shape_step {| sh_string := true; sh_escaped := true; sh_open := o |} (escaped_control_char c false)
  = {| sh_string := true; sh_escaped := false; sh_open := o |}.
Proof.
  assert (∀ n, hex_digit (N.land n 15) ≠ BACKSLASH ∧ hex_digit (N.land n 15) ≠ QUOTE) as Hhex.
  { intros n. assert (N.land n 15 < 16) as Hn.
    { change 15 with (N.ones 4). rewrite N.land_ones. by apply N.mod_lt. }
    unfold hex_digit, BACKSLASH, QUOTE. case_bool_decide; lia. }
  unfold escaped_control_char. simpl. repeat (case_bool_decide; [done|]).
  cbn [foldl fmap list_fmap]. unfold shape_step at 5. simpl.
  assert (∀ n, shape_step {| sh_string := true; sh_escaped := false; sh_open := o |} (hex_digit (N.land n 15))
    = {| sh_string := true; sh_escaped := false; sh_open := o |}) as Hstep.
  { intros n. destruct (Hhex n). unfold shape_step. simpl. by rewrite !bool_decide_false. }
  by rewrite !Hstep.
Qed.

Record scanned (st : Repair) : Prop := {
  sc_shape : shape (repaired st)
    = {| sh_string := in_string st; sh_escaped := escaped st; sh_open := open_containers st |};
  sc_string : escaped st = true → in_string st = true ∧
    ∃ l, repaired st = l ++ [BACKSLASH]
      ∧ shape l = {| sh_string := true; sh_escaped := false; sh_open := open_containers st |};
  sc_space : Forall (λ c, neutral c = true) (whitespace_after_comma st);
  sc_comma : comma_pending st = true → in_string st = false;
}.

Lemma shape_app a b : shape (a ++ b) = foldl shape_step (shape a) b.
Proof. apply foldl_app. Qed.

Lemma scanned_outside st : scanned st → in_string st = false → escaped st = false.
Proof. intros H Hs. destruct (escaped st) eqn:He; [|done]. destruct (sc_string _ H He). congruence. Qed.

Lemma string_step_ok st c : scanned st → in_string st = true → scanned (string_step st c).
Proof.
  intros [Hsh Hstr Hsp Hc] Hin. rewrite Hin in *. assert (comma_pending st = false) as Hcp.
  { destruct (comma_pending st); [|done]. by specialize (Hc eq_refl). }
  unfold string_step. destruct (escaped st) eqn:He.
  - destruct (is_control c); split; cbn; try rewrite shape_app, Hsh; rewrite ?Hin, ?Hcp; try done.
    apply escape_shape.
  - case_bool_decide as Hb; [|case_bool_decide as Hq; [|destruct (is_control c)]];
      split; cbn; rewrite ?shape_app, ?Hsh, ?Hin, ?He, ?Hcp; try done.
    + subst. done.
    + intros _. split; [done|]. exists (repaired st). subst. by rewrite Hsh.
    + subst. done.
    + change (escaped_control_char c true) with (BACKSLASH :: escaped_control_char c false). apply escape_shape.
    + cbn. unfold shape_step. simpl. by rewrite !bool_decide_false.
Qed.

Lemma plain_step_ok st c :
  scanned st → in_string st = false → comma_pending st = false → whitespace_after_comma st = [] →
  scanned (plain_step st c).
Proof.
  intros H Hin Hcp Hw. pose proof (scanned_outside _ H Hin) as He. destruct H as [Hsh _ _ _].
  rewrite Hin, He in Hsh. unfold plain_step.
  repeat case_match; split; cbn; rewrite ?shape_app, ?Hsh, ?Hin, ?He, ?Hcp, ?Hw; cbn; try done.
  all: unfold shape_step; cbn.
  all: repeat match goal with H : _ = _ |- _ => rewrite H end; done.
Qed.

Lemma settle_comma_ok st c :
  scanned st → in_string st = false →
  scanned (settle_comma st c) ∧ in_string (settle_comma st c) = false
  ∧ comma_pending (settle_comma st c) = false ∧ whitespace_after_comma (settle_comma st c) = [].
Proof.
  intros H Hin. pose proof (scanned_outside _ H Hin) as He. destruct H as [Hsh _ Hsp _].
  rewrite Hin, He in Hsh.
  assert (shape (repaired st ++ whitespace_after_comma st) = shape (repaired st)) as H1.
  { rewrite shape_app. apply neutral_shape; [by rewrite Hsh|done]. }
  assert (shape (repaired st ++ COMMA :: whitespace_after_comma st) = shape (repaired st)) as H2.
  { rewrite shape_app. apply neutral_shape; [by rewrite Hsh|by constructor]. }
  unfold settle_comma. destruct (_ || _); split_and!; try done; split; cbn; by rewrite ?H1, ?H2, ?Hsh, ?Hin, ?He.
Qed.

Lemma scan_step_ok st c :
  scanned st → (comma_pending st = false → whitespace_after_comma st = []) →
  scanned (scan_step st c) ∧ (comma_pending (scan_step st c) = false → whitespace_after_comma (scan_step st c) = []).
Proof.
  intros H Hw. unfold scan_step. destruct (in_string st) eqn:Hin.
  { split; [by apply string_step_ok|]. unfold string_step. by repeat case_match. }
  assert (∀ st, in_string st = false → comma_pending st = false → whitespace_after_comma st = [] →
    comma_pending (plain_step st c) = false → whitespace_after_comma (plain_step st c) = []) as Hplain.
  { intros st0 H1 H2 H3. unfold plain_step. by repeat case_match. }
  destruct (comma_pending st) eqn:Hcp.
  - destruct (is_whitespace c) eqn:Hc.
    + split; [|done]. pose proof (scanned_outside _ H Hin) as He. destruct H as [Hsh Hstr Hsp Hcm].
      split; cbn; try done. apply Forall_app. split; [done|]. constructor; [by apply whitespace_neutral|done].
    + destruct (settle_comma_ok st c H Hin) as (H1 & H2 & H3 & H4). split; [by apply plain_step_ok|by apply Hplain].
  - split; [apply plain_step_ok; auto|apply Hplain; auto].
Qed.

Lemma scan_ok arguments : scanned (scan arguments) ∧ (comma_pending (scan arguments) = false → whitespace_after_comma (scan arguments) = []).
Proof.
  unfold scan. assert (scanned repair_new) as H0 by (by split).
  assert (comma_pending repair_new = false → whitespace_after_comma repair_new = []) as Hw by done.
  revert H0 Hw. generalize repair_new. induction arguments as [|c l IH]; intros st H Hw; [done|]. simpl.
  destruct (scan_step_ok st c H Hw). by apply IH.
Qed.

(** ** The text that is returned *)

Definition outside (o : list OpenContainer) : Shape := {| sh_string := false; sh_escaped := false; sh_open := o |}.

Lemma shape_snoc_neutral l c o : shape (l ++ [c]) = outside o → neutral c = true → shape l = outside o.
Proof.
  rewrite shape_app. simpl. intros Hs Hc. destruct (sh_string (shape l)) eqn:Hl.
  - exfalso. revert Hs. unfold shape_step. rewrite Hl.
    destruct (sh_escaped (shape l)); [done|]. case_bool_decide; [done|].
    assert (c ≠ QUOTE) as Hq.
    { intros ->. by vm_compute in Hc. }
    rewrite bool_decide_false by done. intros Hs. by rewrite Hs in Hl.
  - by rewrite (neutral_step _ _ Hl Hc) in Hs.
Qed.

Lemma drop_neutral (p : N → bool) r o :
  (∀ c, p c = true → neutral c = true) → shape (reverse r) = outside o → shape (reverse (drop_while p r)) = outside o.
Proof.
  intros Hp. induction r as [|c r IH]; [done|]. simpl. destruct (p c) eqn:Hc; [|done].
  rewrite reverse_cons. intros Hs. apply IH. by eapply shape_snoc_neutral; [|apply Hp].
Qed.

Lemma trim_end_shape l o : shape l = outside o → shape (trim_end l) = outside o.
Proof.
  intros Hl. apply drop_neutral; [by apply whitespace_neutral|by rewrite reverse_involutive].
Qed.

Lemma before_token_shape l o : shape l = outside o → shape (before_token l) = outside o.
Proof.
  intros Hl. apply drop_neutral; [by apply alphabetic_neutral|by rewrite reverse_involutive].
Qed.

Lemma full_literal_neutral token full : full_literal token = Some full → Forall (λ c, neutral c = true) full.
Proof.
  unfold full_literal. repeat case_bool_decide; intros [= <-]; repeat constructor.
Qed.

Lemma complete_shape output open o output' :
  complete_truncated_literal output open = Some output' → shape output = outside o → shape output' = outside o.
Proof.
  unfold complete_truncated_literal. destruct (last (trim_end output)); [|done].
  destruct (negb _); [done|]. destruct (full_literal _) as [full|] eqn:Hfull; [|done]. simpl.
  destruct (in_value_position _ _); [|done]. intros [= <-] Ho%trim_end_shape%before_token_shape.
  rewrite shape_app, Ho. apply neutral_shape; [done|by eapply full_literal_neutral].
Qed.

Lemma closers_shape o : foldl shape_step (outside o) (closer <$> o) = closed_shape.
Proof. induction o as [|c o IH]; [done|]. simpl. by destruct c. Qed.

(** The statements behind the loop close a string. *)
Lemma finished_shape arguments :
  let st := close_string (drop_escape (flush_comma (scan arguments))) in
  shape (repaired st) = outside (open_containers st).
Proof.
  destruct (scan_ok arguments) as [H _]. revert H. generalize (scan arguments). intros st [Hsh Hstr Hsp Hc].
  unfold flush_comma. destruct (comma_pending st) eqn:Hcp.
  - specialize (Hc eq_refl). rewrite Hc in *. assert (escaped st = false) as He.
    { destruct (escaped st); [|done]. by destruct (Hstr eq_refl). }
    assert (shape (repaired st ++ COMMA :: whitespace_after_comma st) = outside (open_containers st)) as Hflush.
    { rewrite shape_app, Hsh, He. apply neutral_shape; [done|by constructor]. }
    destruct (open_containers st) eqn:Ho; unfold drop_escape, close_string; cbn; rewrite He; cbn; rewrite Hc; cbn.
    + by rewrite Hsh, He, Ho.
    + by rewrite Ho.
  - unfold drop_escape. destruct (escaped st) eqn:He.
    + destruct (Hstr eq_refl) as [Hin (l & Hl & Hshl)]. unfold close_string. cbn. rewrite Hin. cbn.
      rewrite Hl, length_app, Nat.add_sub, take_app_length, shape_app, Hshl. done.
    + unfold close_string. destruct (in_string st) eqn:Hin; cbn; [|by rewrite Hsh].
      by rewrite shape_app, Hsh.
Qed.

Lemma scan_shape arguments :
  shape arguments = {| sh_string := in_string (scan arguments); sh_escaped := escaped (scan arguments);
                       sh_open := open_containers (scan arguments) |}.
Proof.
  assert (∀ l, scan l = foldl scan_step repair_new l) as Hscan by done.
  induction arguments as [|c l IH] using rev_ind; [done|].
  destruct (scan_ok l) as [Hok _]. rewrite shape_app, IH. unfold scan. rewrite foldl_app. simpl. fold (scan l).
  revert Hok. generalize (scan l). intros st Hok.
  assert (∀ st, in_string st = false →
    shape_step {| sh_string := false; sh_escaped := escaped st; sh_open := open_containers st |} c
    = {| sh_string := in_string (plain_step st c); sh_escaped := escaped (plain_step st c);
         sh_open := open_containers (plain_step st c) |}) as Hplain.
  { intros st0 Hin. unfold plain_step, shape_step. cbn. repeat case_match; cbn; congruence. }
  unfold scan_step. destruct (in_string st) eqn:Hin.
  - unfold string_step, shape_step. cbn. destruct (escaped st) eqn:He; repeat case_match; cbn; congruence.
  - destruct (comma_pending st); [|by apply Hplain]. destruct (is_whitespace c) eqn:Hc.
    + rewrite neutral_step; [by cbn; rewrite Hin|done|by apply whitespace_neutral].
    + destruct (settle_comma_ok st c Hok Hin) as [_ [Hin' _]]. rewrite <-(Hplain _ Hin').
      unfold settle_comma. by destruct (_ || _).
Qed.

(** What [repair_tool_arguments] returns is closed: it ends outside strings, with no container open.  It returns
    nothing only for a text that is closed. *)
Theorem repaired_text_is_closed arguments :
  shape (default arguments (repair_tool_arguments arguments)) = closed_shape.
Proof.
  pose proof (finished_shape arguments) as Hst. unfold repair_tool_arguments. cbv zeta in *.
  set (st := close_string _) in *.
  assert (shape (match complete_truncated_literal (repaired st) (open_containers st) with
                 | Some output => (output, true) | None => (repaired st, changed st) end).1
          = outside (open_containers st)) as Hout.
  { destruct (complete_truncated_literal _ _) eqn:Hc; [by eapply complete_shape|done]. }
  destruct (match complete_truncated_literal _ _ with Some _ => _ | None => _ end) as [output ch] eqn:Hres.
  simpl in Hout. destruct (open_containers st) as [|c o] eqn:Ho.
  - destruct ch; [done|]. simpl. rewrite scan_shape.
    assert (changed st = false) as Hch.
    { destruct (complete_truncated_literal _ _); congruence. }
    revert Hch Ho. subst st. generalize (scan arguments). intros st. unfold close_string, drop_escape, flush_comma.
    destruct (comma_pending st), (open_containers st) eqn:Ho', (escaped st) eqn:He; cbn; rewrite ?He; cbn;
      destruct (in_string st); cbn; done || congruence.
  - simpl. rewrite shape_app, Hout. apply closers_shape.
Qed.

(** ** Examples (the tests of the file) *)

Definition repair_text (s : string) : option (list N) := repair_tool_arguments (chars s).
(** A JSON text written with single quotes. *)
Definition json (s : string) : list N := (λ c, if bool_decide (c = 39) then QUOTE else c) <$> chars s.

Lemma repairs :
  repair_tool_arguments (json "{'detail':true}") = None
  ∧ repair_tool_arguments (json "{'detail':true},") = Some (json "{'detail':true}")
  ∧ repair_tool_arguments (json "{'items':[1,2, ],'nested':{'ready':true, },}")
    = Some (json "{'items':[1,2 ],'nested':{'ready':true }}")
  ∧ repair_tool_arguments (json "{'todos':[{'status':'com") = Some (json "{'todos':[{'status':'com'}]}")
  ∧ repair_tool_arguments (json "{'text':'abc\") = Some (json "{'text':'abc'}")
  ∧ repair_tool_arguments (json "{'text':'" ++ [10; 1] ++ json "'}") = Some (json "{'text':'\n\u0001'}")
  ∧ repair_tool_arguments (json "{'ok': fals") = Some (json "{'ok': false}")
  ∧ repair_tool_arguments (json "[1, tru") = Some (json "[1, true]")
  ∧ repair_tool_arguments (json "{'a': 1, tru") = Some (json "{'a': 1, tru}").
Proof. split_and!; vm_compute; reflexivity. Qed.

(** A comma at the end of the text is kept when a container is open, so the result is no JSON; a second repair would
    drop it. *)
Lemma trailing_comma_is_kept :
  repair_text "[1," = Some (chars "[1,]") ∧ repair_text "[1,]" = Some (chars "[1]").
Proof. split; vm_compute; reflexivity. Qed.
