(* ===== verification/ToolPrepare.v ===== *)
(** * Tool calls of a step: their data and their deduplication

    [astrcode-session/src/tool_types.rs] and [tool_deduplicator.rs]: the records of a call
    from the provider's stream to its outcome, the registry that lets equal calls of a step
    share one outcome, and the count of repetitions across steps.  The text of a JSON value
    is a parameter.

    The second chapter: preparing the calls of a step. *)

From S2P Require Import Prelude CoreTypes StoreTypes TurnFinalize StdPath CoreAccess PermPolicy PermChain CoreLlm.

(** ** Calls *)

Inductive ExecutionMode := Mode_Sequential | Mode_Parallel.

#[export] Instance ExecutionMode_eq_dec : EqDecision ExecutionMode.
Proof. solve_decision. Defined.

Record StreamedToolCall := {
  st_call_id : string;
  st_name : string;
  st_arguments : string;
}.

Record PreparedToolApproval := {
  pa_prompt : string;
  pa_rule_key : option string;
  pa_source : ApprovalSource;
}.

Inductive PreparedToolDisposition :=
| Disposition_Execute
| Disposition_Rejected (error : string)
| Disposition_ReuseSameStep
| Disposition_AwaitApprovals (approvals : list PreparedToolApproval).

Record PreparedToolInvocation := {
  pi_index : N;
  pi_call_id : string;
  pi_name : string;
  pi_tool_input : Value;
  pi_raw_arguments : option string;
  pi_plan : ToolPlan;
  pi_mode : ExecutionMode;
  pi_discovery_gate : option string;
  pi_disposition : PreparedToolDisposition;
}.

Record ExecutableToolInvocation := {
  ei_index : N;
  ei_call_id : string;
  ei_name : string;
  ei_tool_input : Value;
  ei_plan : ToolPlan;
}.

Definition to_executable (c : PreparedToolInvocation) : ExecutableToolInvocation :=
  {| ei_index := pi_index c; ei_call_id := pi_call_id c; ei_name := pi_name c;
     ei_tool_input := pi_tool_input c; ei_plan := pi_plan c |}.

(** ** Outcomes *)

Inductive ToolResultArtifactState := Artifact_Inline | Artifact_Persisted.

#[export] Instance ToolResultArtifactState_eq_dec : EqDecision ToolResultArtifactState.
Proof. solve_decision. Defined.

Record ToolResultCommit := {
  rc_result : ToolResult;
  rc_discovered_tool_names : list string;
  rc_artifact_state : ToolResultArtifactState;
}.

Inductive ToolExecutionOutcome :=
| Outcome_Completed (result_ : ToolResultCommit)
| Outcome_Failed (error : string) (metadata : gmap string Value) (duration_ms : option N)
| Outcome_Cancelled (reason : string) (duration_ms : option N).

Definition outcome_failed (error : string) : ToolExecutionOutcome := Outcome_Failed error ∅ None.
Definition outcome_cancelled (reason : string) (duration_ms : option N) : ToolExecutionOutcome :=
  Outcome_Cancelled reason duration_ms.

Section arguments.
  Context (value_to_string : Value → string).

(** [tool_call_completion_arguments]: the text of the arguments and their JSON. *)
Definition tool_call_completion_arguments (tool_input : Value) (raw_arguments : option string)
    : string * option Value :=
  match raw_arguments with
  | Some raw => (raw, None)
  | None => (value_to_string tool_input, Some tool_input)
  end.

(** ** Keys *)

(** Insertion into a map ordered by key, as [serde_json::Map] is; a later entry for the
    same key replaces the earlier one. *)
Fixpoint map_insert (key : string) (v : Value) (m : list (string * Value))
    : list (string * Value) :=
  match m with
  | [] => [(key, v)]
  | (k, w) :: m' =>
    if decide (key = k) then (key, v) :: m'
    else if decide (String.le key k) then (key, v) :: m
    else (k, w) :: map_insert key v m'
  end.

Fixpoint normalize_json_value (value : Value) : Value :=
  match value with
  | JObject m =>
    JObject
      ((fix entries (m sorted : list (string * Value)) : list (string * Value) :=
          match m with
          | [] => sorted
          | (key, v) :: m => entries m (map_insert key (normalize_json_value v) sorted)
          end) m [])
  | JArray items =>
    JArray
      ((fix elements (items : list Value) : list Value :=
          match items with
          | [] => []
          | v :: items => normalize_json_value v :: elements items
          end) items)
  | other => other
  end.

Definition make_call_key (tool_name : string) (args : Value) : string :=
  tool_name +:+ ":" +:+ value_to_string (normalize_json_value args).

(** [split_once] at the first colon. *)
Definition parse_call_key (key : string) : string * string :=
  match split_byte ":" key with
  | a :: b :: rest => (a, join ":" (b :: rest))
  | _ => (key, "{}")
  end.

(** ** The registry *)

Inductive SameStepCheck := Check_Primary | Check_Duplicate.

(** An entry with the value of its [watch] channel. *)
Record SameStepInFlight := {
  sf_primary_call_id : string;
  sf_outcome : option ToolExecutionOutcome;
}.

Record ToolCallDeduplicator := {
  td_same_step_in_flight : gmap string SameStepInFlight;
  td_call_key_by_call_id : gmap string string;
  td_step_call_keys : list string;
  td_consecutive_key : option string;
  td_consecutive_count : N;
}.

Definition ToolCallDeduplicator_new : ToolCallDeduplicator :=
  {| td_same_step_in_flight := ∅; td_call_key_by_call_id := ∅; td_step_call_keys := [];
     td_consecutive_key := None; td_consecutive_count := 0 |}.

(** [ToolCallDeduplicator::begin_step]. *)
Definition dedup_begin_step (d : ToolCallDeduplicator) : ToolCallDeduplicator :=
  {| td_same_step_in_flight := ∅; td_call_key_by_call_id := ∅; td_step_call_keys := [];
     td_consecutive_key := td_consecutive_key d;
     td_consecutive_count := td_consecutive_count d |}.

Definition check_same_step (d : ToolCallDeduplicator) (call_id tool_name : string) (args : Value)
    : SameStepCheck * ToolCallDeduplicator :=
  let key := make_call_key tool_name args in
  let by_id := <[call_id := key]> (td_call_key_by_call_id d) in
  let with_flight flight :=
    {| td_same_step_in_flight := flight; td_call_key_by_call_id := by_id;
       td_step_call_keys := td_step_call_keys d; td_consecutive_key := td_consecutive_key d;
       td_consecutive_count := td_consecutive_count d |} in
  match td_same_step_in_flight d !! key with
  | None =>
    (Check_Primary, with_flight
      (<[key := {| sf_primary_call_id := call_id; sf_outcome := None |}]>
         (td_same_step_in_flight d)))
  | Some _ => (Check_Duplicate, with_flight (td_same_step_in_flight d))
  end.

(** Sending to the channel sets its value; the entry keeps a receiver alive. *)
Definition finalize_outcome (d : ToolCallDeduplicator) (call_id : string)
    (outcome : ToolExecutionOutcome) : ToolCallDeduplicator :=
  match td_call_key_by_call_id d !! call_id with
  | None => d
  | Some key =>
    let flight :=
      match td_same_step_in_flight d !! key with
      | Some entry =>
        if bool_decide (sf_primary_call_id entry = call_id) then
          <[key := {| sf_primary_call_id := sf_primary_call_id entry;
                      sf_outcome := Some outcome |}]> (td_same_step_in_flight d)
        else td_same_step_in_flight d
      | None => td_same_step_in_flight d
      end in
    {| td_same_step_in_flight := flight; td_call_key_by_call_id := td_call_key_by_call_id d;
       td_step_call_keys := td_step_call_keys d ++ [key];
       td_consecutive_key := td_consecutive_key d;
       td_consecutive_count := td_consecutive_count d |}
  end.

Definition deduplication_error (reason : string) : ToolExecutionOutcome :=
  outcome_failed ("Tool deduplication failed: " +:+ reason).

(** [await_same_step_outcome]: the outcome, or [None] when the call has to wait.  The
    deduplicator owns the sender, so the channel does not close while it waits. *)
Definition await_same_step_outcome (d : ToolCallDeduplicator) (duplicate_call_id : string)
    : option ToolExecutionOutcome :=
  match td_call_key_by_call_id d !! duplicate_call_id with
  | None => Some (deduplication_error "duplicate call was not registered in the current step")
  | Some key =>
    match td_same_step_in_flight d !! key with
    | None => Some (deduplication_error "primary call is missing from the current step")
    | Some entry => sf_outcome entry
    end
  end.

(** The loop of [end_step] over the keys of the step. *)
Definition end_step_key (d : ToolCallDeduplicator) (key : string) : ToolCallDeduplicator :=
  if bool_decide (td_consecutive_key d = Some key) then
    {| td_same_step_in_flight := td_same_step_in_flight d;
       td_call_key_by_call_id := td_call_key_by_call_id d;
       td_step_call_keys := td_step_call_keys d; td_consecutive_key := td_consecutive_key d;
       td_consecutive_count := wrapping_add u32_max (td_consecutive_count d) 1 |}
  else
    {| td_same_step_in_flight := td_same_step_in_flight d;
       td_call_key_by_call_id := td_call_key_by_call_id d;
       td_step_call_keys := td_step_call_keys d; td_consecutive_key := Some key;
       td_consecutive_count := 1 |}.

Definition end_step (d : ToolCallDeduplicator) : ToolCallDeduplicator :=
  let d' := foldl end_step_key d (td_step_call_keys d) in
  {| td_same_step_in_flight := td_same_step_in_flight d';
     td_call_key_by_call_id := td_call_key_by_call_id d';
     td_step_call_keys := []; td_consecutive_key := td_consecutive_key d';
     td_consecutive_count := td_consecutive_count d' |}.

Definition check_reminder (d : ToolCallDeduplicator) : option string :=
  let count := td_consecutive_count d in
  match td_consecutive_key d with
  | None => None
  | Some key =>
    let '(tool_name, args_json) := parse_call_key key in
    if bool_decide (count = 3)%N then
      Some ("<system-reminder>You appear to be repeating the same tool call across multiple "
            +:+ "steps. Consider trying a different approach.</system-reminder>")
    else if bool_decide (count = 5)%N then
      Some ("<system-reminder>Warning: you have called `" +:+ tool_name
            +:+ "` with identical arguments " +:+ pretty count
            +:+ " times in recent steps. Vary your strategy.</system-reminder>")
    else if bool_decide (8 ≤ count)%N then
      Some ("<system-reminder>Critical: `" +:+ tool_name +:+ "` has been invoked " +:+ pretty count
            +:+ " consecutive times with the same arguments: " +:+ args_json
            +:+ ". Stop repeating this call and change your approach.</system-reminder>")
    else None
  end.

End arguments.

(** ** Registration *)

(** Every registered call has an entry, and the entry of a key is owned by a registered call
    with that key. *)
Definition dedup_wf (d : ToolCallDeduplicator) : Prop :=
  (∀ id key, td_call_key_by_call_id d !! id = Some key →
     is_Some (td_same_step_in_flight d !! key)) ∧
  (∀ key e, td_same_step_in_flight d !! key = Some e →
     td_call_key_by_call_id d !! sf_primary_call_id e = Some key).

Lemma dedup_begin_wf d : dedup_wf (dedup_begin_step d).
Proof. split; intros ??; simpl; by rewrite lookup_empty. Qed.

Lemma check_same_step_wf render d id name args :
  dedup_wf d → td_call_key_by_call_id d !! id = None →
  dedup_wf (check_same_step render d id name args).2.
Proof.
  intros [H1 H2] Hid. unfold check_same_step.
  set (key := make_call_key render name args).
  destruct (td_same_step_in_flight d !! key) as [e|] eqn:Hk; split; simpl.
  - intros i k. rewrite lookup_insert_Some. intros [[<- <-]|[_ Hi]]; [by rewrite Hk|eauto].
  - intros k e' He. rewrite lookup_insert_ne; [eauto|].
    intros ->. apply H2 in He. congruence.
  - intros i k. rewrite lookup_insert_Some. intros [[<- <-]|[_ Hi]].
    + by rewrite lookup_insert_eq.
    + destruct (H1 i k Hi). destruct (decide (key = k)) as [->|];
        [by rewrite lookup_insert_eq|rewrite lookup_insert_ne by done; eauto].
  - intros k e'. rewrite lookup_insert_Some. intros [[<- <-]|[_ He]]; simpl.
    + by rewrite lookup_insert_eq.
    + rewrite lookup_insert_ne; [eauto|]. intros ->. apply H2 in He. congruence.
Qed.

(** * Preparing the tool calls of a step

    [astrcode-session/src/tool_pipeline/prepare.rs] with what it uses of
    [deferred_tools.rs], [turn_context.rs] and [tool_registry.rs].  Extension hooks, the
    tools themselves and JSON repair are parameters. *)

(** ** Errors of a turn; the messages of tools and extensions are text. *)

Inductive TurnError :=
| Turn_Llm (e : LlmError)
| Turn_Tool (message : string)
| Turn_Extension (message : string)
| Turn_Session (e : SessionError)
| Turn_Projection (message : string)
| Turn_ApprovalRegistration (message : string)
| Turn_ApprovalHistory (message : string)
| Turn_CompactExhausted
| Turn_StreamEndedUnexpectedly
| Turn_Aborted
| Turn_InputBlocked (reason : string)
| Turn_ProviderBlocked (reason : string)
| Turn_TaskJoin (message : string)
| Turn_ModelCacheEmpty
| Turn_EventIngress (message : string).

(** ** Tools that cannot be called *)

(** [str::eq_ignore_ascii_case]. *)
Definition eq_ignore_ascii_case (a b : string) : bool :=
  bool_decide (to_ascii_lowercase a = to_ascii_lowercase b).

Definition tool_is_visible (tools : list string) (name : string) : bool :=
  existsb (λ tool, bool_decide (tool = name)) tools.

Definition TOOL_ALIASES : list (string * string) :=
  [("find", "glob"); ("glob_file_search", "glob"); ("list_files", "glob"); ("read_file", "read");
   ("readfile", "read"); ("write_file", "write"); ("writefile", "write")].

Definition suggest_tool_alias (requested : string) : option string :=
  snd <$> find_first (λ entry, eq_ignore_ascii_case requested entry.1) TOOL_ALIASES.

Definition visible_tool_names_hint (names : list string) : string :=
  match names with
  | [] => ""
  | _ =>
    if bool_decide (length names ≤ 12) then " Available tools: " +:+ join ", " names +:+ "."
    else " Available tools include: " +:+ join ", " (take 10 names) +:+ " ("
         +:+ pretty (N.of_nat (length names)) +:+ " total)."
  end.

Definition unavailable_tool_guidance (requested : string)
    (visible_tools registered_tools : list string) : string :=
  let registered := tool_is_visible registered_tools requested in
  let visible := tool_is_visible visible_tools requested in
  if registered && negb visible then
    "Tool `" +:+ requested +:+ "` is registered but not loaded for this turn yet. For external MCP "
    +:+ "tools, call `tool_search_tool` with a keyword from the tool name, then call the "
    +:+ "matching `mcp__...` tool using the returned schema."
  else match suggest_tool_alias requested with
  | Some alias =>
    "Tool `" +:+ requested +:+ "` does not exist in this session. Use `" +:+ alias
    +:+ "` instead and read its schema from the provider tool list."
  | None =>
    "Tool `" +:+ requested +:+ "` is not available in this session."
    +:+ visible_tool_names_hint visible_tools
    +:+ " Use exact tool names from the provider tool list."
  end.

(** ** Preparation *)

Record PreToolUseRequirement := {
  pt_prompt : string;
  pt_rule_key : option string;
}.

Inductive PreToolUseAdmission :=
| Admission_Allow
| Admission_Ask (requirements : list PreToolUseRequirement)
| Admission_Block (reason : string).

(** The fields of [SharedTurnContext] the preparation reads. *)
Record SharedTurnContext := {
  tc_working_dir : string;
  tc_approval_mode : ApprovalMode;
  tc_tool_selection : option SessionToolSelection;
  tc_permission_chain : list PermissionPolicy;
}.

(** What a call is prepared against: the registry of tools, the hooks of the extensions and
    the repair of malformed JSON. *)
Record ToolServices := {
  parse_and_repair_json : string → string → result Value string;
  list_definitions : list string;
  transform_tool_input : string → string → Value → result Value TurnError;
  (** the arguments after normalisation, and the error it stopped with *)
  normalize_final_arguments : string → Value → Value * option string;
  emit_pre_tool_use : string → string → Value → result PreToolUseAdmission TurnError;
  plan_tool : string → string → Value → result ToolPlan string;
  execution_mode : string → ExecutionMode;
  deferred_discovery_gate : string → option string;
  deferred_discovery_group : string → option string;
}.

Definition compose_permission_resolution (approvals : list PreparedToolApproval)
    (resolution : PermissionResolution) : PreparedToolDisposition :=
  match resolution with
  | Resolution_Allow =>
    match approvals with
    | [] => Disposition_Execute
    | _ => Disposition_AwaitApprovals approvals
    end
  | Resolution_Deny reason => Disposition_Rejected reason
  | Resolution_Ask requirements =>
    Disposition_AwaitApprovals
      (approvals ++
       ((λ r, {| pa_prompt := req_prompt r; pa_rule_key := req_rule_key r;
                 pa_source := ApprovalSource_Core |}) <$> requirements))
  end.

(** The loop over the requirements of the hooks; a remembered refusal leaves it. *)
Fixpoint hook_requirements (memory : ApprovalMemory) (approvals : list PreparedToolApproval)
    (requirements : list PreToolUseRequirement)
    : list PreparedToolApproval * option PreparedToolDisposition :=
  match requirements with
  | [] => (approvals, None)
  | r :: requirements =>
    let pending :=
      hook_requirements memory
        (approvals ++ [{| pa_prompt := pt_prompt r; pa_rule_key := pt_rule_key r;
                          pa_source := ApprovalSource_Extension |}]) requirements in
    match pt_rule_key r with
    | Some key =>
      if is_denied_always memory key then
        (approvals, Some (Disposition_Rejected
          ("Denied by session approval memory for extension rule `" +:+ key +:+ "`")))
      else if is_allowed_always memory key then hook_requirements memory approvals requirements
      else pending
    | None => pending
    end
  end.

Definition reject_malformed_tool_call (tc : StreamedToolCall) (index : N) (error : string)
    : PreparedToolInvocation :=
  {| pi_index := index; pi_call_id := st_call_id tc; pi_name := st_name tc;
     pi_tool_input := JString (st_arguments tc); pi_raw_arguments := Some (st_arguments tc);
     pi_plan := ToolPlan_default; pi_mode := Mode_Sequential; pi_discovery_gate := None;
     pi_disposition := Disposition_Rejected
       ("tool call arguments are invalid JSON: " +:+ error +:+ ". Generate a new `" +:+ st_name tc
        +:+ "` call with valid JSON matching its schema") |}.

Section prepare.
  Context (value_to_string : Value → string) (env : ToolServices) (shared : SharedTurnContext).

Definition evaluate_permission_chain (tool_name : string) (tool_input : Value) (plan : ToolPlan)
    (memory : ApprovalMemory) : PermissionResolution :=
  chain_decide (tc_permission_chain shared)
    {| pc_tool_name := tool_name; pc_tool_input := tool_input;
       pc_working_dir := tc_working_dir shared; pc_resource_accesses := tp_resources plan;
       pc_approval_mode := tc_approval_mode shared;
       pc_tool_selection := tc_tool_selection shared |} memory.

(** The admission by hooks, the plan and the permission chain for final arguments: the plan
    and the disposition. *)
Definition admit_call (tc : StreamedToolCall) (tool_input : Value) (memory : ApprovalMemory)
    : result (ToolPlan * PreparedToolDisposition) TurnError :=
  let? admission := emit_pre_tool_use env (st_call_id tc) (st_name tc) tool_input in
  let '(approvals, rejected) :=
    match admission with
    | Admission_Allow => ([], None)
    | Admission_Block reason =>
      ([], Some (Disposition_Rejected ("Tool execution blocked by hook: " +:+ reason)))
    | Admission_Ask requirements => hook_requirements memory [] requirements
    end in
  match rejected with
  | Some disposition => Ok (ToolPlan_default, disposition)
  | None =>
    match plan_tool env (st_call_id tc) (st_name tc) tool_input with
    | Err error =>
      Ok (ToolPlan_default, Disposition_Rejected ("failed to plan tool resources: " +:+ error))
    | Ok plan =>
      Ok (plan, compose_permission_resolution approvals
                  (evaluate_permission_chain (st_name tc) tool_input plan memory))
    end
  end.

Definition prepare_single_tool_call (tc : StreamedToolCall) (index : N) (tools : list string)
    (memory : ApprovalMemory) (d : ToolCallDeduplicator)
    : result PreparedToolInvocation TurnError * ToolCallDeduplicator :=
  match parse_and_repair_json env (st_arguments tc) (st_name tc) with
  | Err error => (Ok (reject_malformed_tool_call tc index error), d)
  | Ok args =>
    if negb (tool_is_visible tools (st_name tc)) then
      (Ok {| pi_index := index; pi_call_id := st_call_id tc; pi_name := st_name tc;
             pi_tool_input := args; pi_raw_arguments := None; pi_plan := ToolPlan_default;
             pi_mode := Mode_Sequential; pi_discovery_gate := None;
             pi_disposition := Disposition_Rejected
               (unavailable_tool_guidance (st_name tc) tools (list_definitions env)) |}, d)
    else match transform_tool_input env (st_call_id tc) (st_name tc) args with
    | Err error => (Err error, d)
    | Ok transformed =>
      let '(tool_input, failure) := normalize_final_arguments env (st_name tc) transformed in
      let admitted :=
        match failure with
        | Some error =>
          Ok (ToolPlan_default,
              Disposition_Rejected ("failed to normalize final tool arguments: " +:+ error))
        | None => admit_call tc tool_input memory
        end in
      match admitted with
      | Err error => (Err error, d)
      | Ok (plan, disposition) =>
        let '(same_step, d) :=
          check_same_step value_to_string d (st_call_id tc) (st_name tc) tool_input in
        let disposition :=
          match same_step with
          | Check_Duplicate => Disposition_ReuseSameStep
          | Check_Primary => disposition
          end in
        (Ok {| pi_index := index; pi_call_id := st_call_id tc; pi_name := st_name tc;
               pi_tool_input := tool_input; pi_raw_arguments := None; pi_plan := plan;
               pi_mode := match disposition with
                          | Disposition_Execute => execution_mode env (st_name tc)
                          | _ => Mode_Sequential
                          end;
               pi_discovery_gate := deferred_discovery_gate env (st_name tc);
               pi_disposition := disposition |}, d)
      end
    end
  end.

(** The loop of [prepare_tool_batch]. *)
Fixpoint prepare_calls (index : N) (tool_calls : list StreamedToolCall) (tools : list string)
    (memory : ApprovalMemory) (d : ToolCallDeduplicator)
    : result (list PreparedToolInvocation) TurnError * ToolCallDeduplicator :=
  match tool_calls with
  | [] => (Ok [], d)
  | tc :: tool_calls =>
    match prepare_single_tool_call tc index tools memory d with
    | (Err error, d) => (Err error, d)
    | (Ok call, d) =>
      match prepare_calls (index + 1) tool_calls tools memory d with
      | (Err error, d) => (Err error, d)
      | (Ok calls, d) => (Ok (call :: calls), d)
      end
    end
  end.

Definition prepare_tool_batch (tool_calls : list StreamedToolCall) (tools : list string)
    (memory : ApprovalMemory) (d : ToolCallDeduplicator)
    : result (list PreparedToolInvocation) TurnError * ToolCallDeduplicator :=
  prepare_calls 0 tool_calls tools memory d.

End prepare.
