(* ===== verification/ToolExecute.v ===== *)
(** * Executing and committing the tool calls of a step

    [astrcode-session/src/tool_pipeline/execute.rs], [commit.rs], [events.rs],
    [tool_results.rs] and the entry of [tool_exec.rs].  The state of a step is one record;
    its environment (publisher, hooks, tools, user, scheduler) answers each interaction, in
    the order they happen: a clock in the state numbers them, and an arbitrary function of
    that number gives the answer. *)

From S2P Require Import Prelude Utf8 StdPath CoreTypes CoreAccess CoreLlm CoreEvent PermPolicy PermChain ToolPrepare.

(** ** The environment *)

Inductive PostToolUseResult :=
| Post_Allow
| Post_Block (reason : string)
| Post_ModifyResult (content : string).

(** How the wait for the user ended. *)
Inductive ApprovalAnswer :=
| Answer_Cancelled
| Answer_Decision (d : ApprovalDecision)
| Answer_Dropped
| Answer_TimedOut.

Record ToolResultArtifactRef := {
  ar_bytes : N;
  ar_artifact_id : string;
}.

Record Environment := {
  (** [TurnEvents::durable] *)
  env_publish : nat → DurableEventPayload → result unit TurnError;
  env_cancelled : nat → bool;
  env_register_approval : nat → string → result unit TurnError;
  env_approval_answer : nat → ApprovalAnswer;
  env_history_answer : nat → PersistAnswer;
  (** the tool of a call, run until it ends or the turn is cancelled *)
  env_run_tool : nat → ExecutableToolInvocation → ToolExecutionOutcome;
  (** which of the running tasks ends next, and whether it panicked *)
  env_next_task : nat → nat;
  env_join : nat → result unit TurnError;
  env_post_tool_use : nat → PreparedToolInvocation → ToolResult → result PostToolUseResult TurnError;
  env_write_artifact : nat → string → string → string → result ToolResultArtifactRef TurnError;
}.

(** ** State and effects *)

Record StepState := {
  ss_clock : nat;
  ss_log : list DurableEventPayload;
  ss_dedup : ToolCallDeduplicator;
  ss_history : ApprovalHistoryStore;
  ss_disk : gmap string string;
  ss_executed : list ExecutableToolInvocation;
  ss_uncommitted : gset string;
}.

(** How an operation ends; [Exec_blocked] is a wait that nothing ends. *)
Inductive exec (A : Type) :=
| Exec_ok (a : A)
| Exec_err (e : TurnError)
| Exec_blocked.
Arguments Exec_ok {A} a.
Arguments Exec_err {A} e.
Arguments Exec_blocked {A}.

Definition M (A : Type) : Type := StepState → exec A * StepState.

Definition mret {A} (a : A) : M A := λ s, (Exec_ok a, s).
Definition mthen {A B} (m : M A) (f : A → M B) : M B := λ s,
  match m s with
  | (Exec_ok a, s) => f a s
  | (Exec_err e, s) => (Exec_err e, s)
  | (Exec_blocked, s) => (Exec_blocked, s)
  end.
Definition mfail {A} (e : TurnError) : M A := λ s, (Exec_err e, s).
Definition mblock {A} : M A := λ s, (Exec_blocked, s).
Definition mget {A} (f : StepState → A) : M A := λ s, (Exec_ok (f s), s).
Definition mmodify (f : StepState → StepState) : M unit := λ s, (Exec_ok tt, f s).
Definition mlift {A} (r : result A TurnError) : M A :=
  match r with Ok a => mret a | Err e => mfail e end.

Declare Scope step_scope.
Delimit Scope step_scope with step.
Notation "'let!' x ':=' m 'in' k" := (mthen m (λ x, k))
  (at level 10, x pattern, m at level 200, k at level 200) : step_scope.
Notation "'run!' m 'in' k" := (mthen m (λ _, k))
  (at level 10, m at level 200, k at level 200) : step_scope.
Local Open Scope step_scope.

(** One interaction: the number it has. *)
Definition tick : M nat := λ s,
  (Exec_ok (ss_clock s),
   {| ss_clock := S (ss_clock s); ss_log := ss_log s; ss_dedup := ss_dedup s;
      ss_history := ss_history s; ss_disk := ss_disk s; ss_executed := ss_executed s;
      ss_uncommitted := ss_uncommitted s |}).

Definition append_log (p : DurableEventPayload) (s : StepState) : StepState :=
  {| ss_clock := ss_clock s; ss_log := ss_log s ++ [p]; ss_dedup := ss_dedup s;
     ss_history := ss_history s; ss_disk := ss_disk s; ss_executed := ss_executed s;
     ss_uncommitted := ss_uncommitted s |}.
Definition set_dedup (d : ToolCallDeduplicator) (s : StepState) : StepState :=
  {| ss_clock := ss_clock s; ss_log := ss_log s; ss_dedup := d; ss_history := ss_history s;
     ss_disk := ss_disk s; ss_executed := ss_executed s; ss_uncommitted := ss_uncommitted s |}.
Definition set_history (h : ApprovalHistoryStore) (disk : gmap string string) (s : StepState)
    : StepState :=
  {| ss_clock := ss_clock s; ss_log := ss_log s; ss_dedup := ss_dedup s; ss_history := h;
     ss_disk := disk; ss_executed := ss_executed s; ss_uncommitted := ss_uncommitted s |}.
Definition start_tool (call : ExecutableToolInvocation) (s : StepState) : StepState :=
  {| ss_clock := ss_clock s; ss_log := ss_log s; ss_dedup := ss_dedup s;
     ss_history := ss_history s; ss_disk := ss_disk s; ss_executed := ss_executed s ++ [call];
     ss_uncommitted := ss_uncommitted s |}.
Definition set_uncommitted (u : gset string) (s : StepState) : StepState :=
  {| ss_clock := ss_clock s; ss_log := ss_log s; ss_dedup := ss_dedup s;
     ss_history := ss_history s; ss_disk := ss_disk s; ss_executed := ss_executed s;
     ss_uncommitted := u |}.

(** ** Results that are too large *)

Definition TOOL_RESULT_INLINE_LIMIT_BYTES : N := 30000.
Definition TOOL_RESULT_PREVIEW_CHARS : nat := 2000.
Definition APPROVAL_TIMEOUT_SECS : N := 300.

Record ToolResultPreview := {
  rp_content : string;
  rp_has_more : bool;
}.

(** The first [n] characters of a UTF-8 text and the bytes behind them. *)
Fixpoint take_chars (n : nat) (l : list ascii) : list ascii * list ascii :=
  match l with
  | [] => ([], [])
  | b :: r =>
    if is_cont b then let '(a, rest) := take_chars n r in (b :: a, rest)
    else match n with
    | O => ([], l)
    | S n => let '(a, rest) := take_chars n r in (b :: a, rest)
    end
  end.

Definition tool_result_preview (content : string) (max_chars : nat) : ToolResultPreview :=
  let '(preview, rest) := take_chars max_chars (String.list_ascii_of_string content) in
  {| rp_content := String.string_of_list_ascii preview;
     rp_has_more := match rest with [] => false | _ => true end |}.

Section execute.
  Context (value_to_string : Value → string) (debug_str : string → string)
    (encode_history : ApprovalHistoryFile → string)
    (turn_error_to_string : TurnError → string) (parses_as_image : string → bool).
  Context (services : ToolServices) (env : Environment) (max_parallel : N).

Definition should_auto_persist_tool_result (r : ToolResult) : bool :=
  bool_decide (TOOL_RESULT_INLINE_LIMIT_BYTES < N.of_nat (String.length (tr_content r)))%N
  && (tr_is_error r || negb (parses_as_image (tr_content r))).

Definition persisted_tool_result_summary (reference : ToolResultArtifactRef)
    (preview : ToolResultPreview) : string :=
  let more :=
    if rp_has_more preview then
      newline +:+ newline +:+ "More output is available in the saved artifact."
    else "" in
  "Tool result was persisted because it is large (" +:+ pretty (ar_bytes reference) +:+ " bytes)."
  +:+ newline +:+ "Artifact ID: " +:+ ar_artifact_id reference +:+ newline
  +:+ "Use read_tool_result with artifactId " +:+ debug_str (ar_artifact_id reference)
  +:+ ", byteOffset, and maxBytes to paginate through the saved result. Do not expect the full "
  +:+ "content inline — increase byteOffset on each read until hasMore is false."
  +:+ newline +:+ newline +:+ "Preview:" +:+ newline +:+ rp_content preview +:+ more.

(** ** Events *)

Definition durable (p : DurableEventPayload) : M unit :=
  let! n := tick in
  run! mlift (env_publish env n p) in
  mmodify (append_log p).

Definition declare_tool_call (call : PreparedToolInvocation) : M unit :=
  durable (P_ToolCallRequested (ToolCallId_new (pi_call_id call)) (pi_name call)
             (pi_tool_input call) (pi_raw_arguments call)).

Fixpoint declare_tool_batch (calls : list PreparedToolInvocation) : M unit :=
  match calls with
  | [] => mret tt
  | call :: calls => run! declare_tool_call call in declare_tool_batch calls
  end.

Definition finish_tool_call (call : PreparedToolInvocation) (outcome : ToolExecutionOutcome)
    : M unit :=
  let id := ToolCallId_new (pi_call_id call) in
  let '(arguments, arguments_json) :=
    tool_call_completion_arguments value_to_string (pi_tool_input call) (pi_raw_arguments call) in
  durable
    match outcome with
    | Outcome_Completed r =>
      P_ToolCallCompleted id (pi_name call) (rc_result r) arguments arguments_json
    | Outcome_Failed error metadata duration_ms =>
      P_ToolCallFailed id (pi_name call) error metadata duration_ms arguments arguments_json
    | Outcome_Cancelled reason duration_ms =>
      P_ToolCallCancelled id (pi_name call) reason duration_ms arguments arguments_json
    end.

Definition missing_tool_outcome (call : PreparedToolInvocation) : ToolExecutionOutcome :=
  outcome_failed ("Tool '" +:+ pi_name call +:+ "' did not produce an outcome").

(** ** Commit *)

(** [ToolRegistry::validate_discovered_tools]; [seen] are the names met before. *)
Fixpoint validate_names (source_tool gate : string) (seen : gset string) (names : list string)
    : result unit string :=
  match names with
  | [] => Ok tt
  | name :: names =>
    if negb (bool_decide (deferred_discovery_group services name = Some gate)) then
      Err ("tool `" +:+ source_tool +:+ "` cannot activate unknown or unauthorized deferred tool `"
           +:+ name +:+ "`")
    else if bool_decide (name ∈ seen) then
      Err ("tool `" +:+ source_tool +:+ "` returned duplicate deferred tool `" +:+ name +:+ "`")
    else validate_names source_tool gate ({[name]} ∪ seen) names
  end.

Definition registry_validate_discovered_tools (source_tool : string) (gate : option string)
    (names : list string) : result unit string :=
  match names, gate with
  | [], _ => Ok tt
  | _, None =>
    Err ("tool `" +:+ source_tool
         +:+ "` returned discovered tools without declaring a discovery gate")
  | _, Some gate => validate_names source_tool gate ∅ names
  end.

Definition validate_discovered_tools (call : PreparedToolInvocation)
    (outcome : ToolExecutionOutcome) : ToolExecutionOutcome :=
  match outcome with
  | Outcome_Completed commit =>
    match rc_discovered_tool_names commit with
    | [] => outcome
    | names =>
      match registry_validate_discovered_tools (pi_name call) (pi_discovery_gate call) names with
      | Ok _ => outcome
      | Err error => outcome_failed error
      end
    end
  | _ => outcome
  end.

Definition with_content (r : ToolResult) (content : string) (is_error : bool)
    (error : option string) : ToolResult :=
  {| tr_content := content; tr_is_error := is_error; tr_error := error;
     tr_metadata := tr_metadata r; tr_duration_ms := tr_duration_ms r |}.

(** What the answer of the hooks makes of a result. *)
Definition post_tool_use_result (r : ToolResultCommit) (answer : PostToolUseResult)
    : ToolResultCommit :=
  let res := rc_result r in
  match answer with
  | Post_ModifyResult content =>
    {| rc_result := with_content res content (tr_is_error res)
         (if tr_is_error res then Some content else None);
       rc_discovered_tool_names := rc_discovered_tool_names r;
       rc_artifact_state := rc_artifact_state r |}
  | Post_Block reason =>
    {| rc_result := with_content res ("Tool result blocked by hook: " +:+ reason) true (Some reason);
       rc_discovered_tool_names := []; rc_artifact_state := rc_artifact_state r |}
  | Post_Allow => r
  end.

Definition apply_post_tool_use (call : PreparedToolInvocation) (outcome : ToolExecutionOutcome)
    : M ToolExecutionOutcome :=
  match pi_disposition call, outcome with
  | Disposition_ReuseSameStep, _ => mret outcome
  | _, Outcome_Completed r =>
    let res := rc_result r in
    let r :=
      if tr_is_error res && bool_decide (tr_error res = None) then
        {| rc_result := with_content res (tr_content res) (tr_is_error res) (Some (tr_content res));
           rc_discovered_tool_names := rc_discovered_tool_names r;
           rc_artifact_state := rc_artifact_state r |}
      else r in
    let! n := tick in
    let! answer := mlift (env_post_tool_use env n call (rc_result r)) in
    mret (Outcome_Completed (post_tool_use_result r answer))
  | _, _ => mret outcome
  end.

Definition persist_tool_result (tool_name call_id : string) (r : ToolResultCommit)
    : M ToolResultCommit :=
  let res := rc_result r in
  let preview := tool_result_preview (tr_content res) TOOL_RESULT_PREVIEW_CHARS in
  let! n := tick in
  let! reference := mlift (env_write_artifact env n call_id tool_name (tr_content res)) in
  let content := persisted_tool_result_summary reference preview in
  mret {| rc_result :=
            {| tr_content := content; tr_is_error := tr_is_error res;
               tr_error := if tr_is_error res then Some content else tr_error res;
               tr_metadata :=
                 <["artifactId" := JString (ar_artifact_id reference)]>
                   (<["artifactBytes" := JNumber (PosInt (ar_bytes reference))]> (tr_metadata res));
               tr_duration_ms := tr_duration_ms res |};
          rc_discovered_tool_names := rc_discovered_tool_names r;
          rc_artifact_state := Artifact_Persisted |}.

Definition persist_large_tool_result (tool_name call_id : string) (r : ToolResultCommit)
    : M ToolResultCommit :=
  if bool_decide (rc_artifact_state r = Artifact_Persisted)
     || negb (should_auto_persist_tool_result (rc_result r))
  then mret r
  else persist_tool_result tool_name call_id r.

(** The three loops of [commit_tool_outcomes]. *)
Fixpoint settle_outcomes (calls : list PreparedToolInvocation)
    (outcomes : gmap N ToolExecutionOutcome)
    : M (list (PreparedToolInvocation * ToolExecutionOutcome)) :=
  match calls with
  | [] => mret []
  | call :: calls =>
    let outcome := default (missing_tool_outcome call) (outcomes !! pi_index call) in
    let! outcome := apply_post_tool_use call (validate_discovered_tools call outcome) in
    run! (match pi_disposition call with
         | Disposition_ReuseSameStep => mret tt
         | _ => mmodify (λ s, set_dedup (finalize_outcome (ss_dedup s) (pi_call_id call) outcome) s)
         end) in
    let! pending := settle_outcomes calls (delete (pi_index call) outcomes) in
    mret ((call, outcome) :: pending)
  end.

Fixpoint persist_outcomes (pending : list (PreparedToolInvocation * ToolExecutionOutcome))
    : M (list (PreparedToolInvocation * ToolExecutionOutcome)) :=
  match pending with
  | [] => mret []
  | (call, outcome) :: pending =>
    let! outcome :=
      match outcome with
      | Outcome_Completed r =>
        let! r := persist_large_tool_result (pi_name call) (pi_call_id call) r in
        mret (Outcome_Completed r)
      | other => mret other
      end in
    let! rest := persist_outcomes pending in
    mret ((call, outcome) :: rest)
  end.

Fixpoint finish_outcomes (pending : list (PreparedToolInvocation * ToolExecutionOutcome))
    : M (list string) :=
  match pending with
  | [] => mret []
  | (call, outcome) :: pending =>
    let discovered :=
      match outcome with
      | Outcome_Completed r => rc_discovered_tool_names r
      | _ => []
      end in
    run! finish_tool_call call outcome in
    run! mmodify (λ s, set_uncommitted (ss_uncommitted s ∖ {[pi_call_id call]}) s) in
    let! rest := finish_outcomes pending in
    mret (discovered ++ rest)
  end.

Definition commit_tool_outcomes (prepared : list PreparedToolInvocation)
    (outcomes : gmap N ToolExecutionOutcome) : M (list string) :=
  let! pending := settle_outcomes prepared outcomes in
  let! pending := persist_outcomes pending in
  finish_outcomes pending.

(** ** Execution *)

Definition is_cancelled : M bool := let! n := tick in mret (env_cancelled env n).

(** [execute_tool_call]. *)
Definition execute_tool_call (call : ExecutableToolInvocation) : M (N * ToolExecutionOutcome) :=
  let! cancelled := is_cancelled in
  if cancelled then
    mret (ei_index call, outcome_cancelled "tool execution cancelled" (Some 0%N))
  else
    run! mmodify (start_tool call) in
    let! n := tick in
    mret (ei_index call, env_run_tool env n call).

Definition execute_single_tool (call : ExecutableToolInvocation) : M ToolExecutionOutcome :=
  let! result_ := execute_tool_call call in mret result_.2.

(** [flush_parallel_batch]: up to [max_parallel] tasks run; whichever ends makes room for the
    next call. *)
Fixpoint spawn_first (n : nat) (pending : list ExecutableToolInvocation)
    (running : list (N * ToolExecutionOutcome))
    : M (list (N * ToolExecutionOutcome) * list ExecutableToolInvocation) :=
  match n, pending with
  | S n, call :: pending =>
    let! task := execute_tool_call call in spawn_first n pending (running ++ [task])
  | _, _ => mret (running, pending)
  end.

Fixpoint join_loop (fuel : nat) (running : list (N * ToolExecutionOutcome))
    (pending : list ExecutableToolInvocation) (outcomes : gmap N ToolExecutionOutcome)
    : M (gmap N ToolExecutionOutcome) :=
  match fuel with
  | O => mret outcomes
  | S fuel =>
    match running with
    | [] => mret outcomes
    | task0 :: _ =>
      let! n := tick in
      let i := env_next_task env n mod length running in
      let task := default task0 (running !! i) in
      run! mlift (env_join env n) in
      let outcomes := <[task.1 := task.2]> outcomes in
      let running := take i running ++ drop (S i) running in
      match pending with
      | [] => join_loop fuel running [] outcomes
      | call :: pending =>
        let! task := execute_tool_call call in
        join_loop fuel (running ++ [task]) pending outcomes
      end
    end
  end.

Definition flush_parallel_batch (batch : list ExecutableToolInvocation)
    : M (gmap N ToolExecutionOutcome) :=
  match batch with
  | [] => mret ∅
  | _ =>
    let! (running, pending) := spawn_first (N.to_nat max_parallel) batch [] in
    join_loop (length batch) running pending ∅
  end.

(** [flush_and_commit_parallel_batch] on the calls of the batch. *)
Definition flush_and_commit (batch : list PreparedToolInvocation) : M (list string) :=
  match batch with
  | [] => mret []
  | _ =>
    let! outcomes := flush_parallel_batch (to_executable <$> batch) in
    commit_tool_outcomes batch outcomes
  end.

Definition commit_single_outcome (call : PreparedToolInvocation) (outcome : ToolExecutionOutcome)
    : M (list string) :=
  commit_tool_outcomes [call] {[pi_index call := outcome]}.

(** [{source:?}]. *)
Definition source_debug (source : ApprovalSource) : string :=
  match source with
  | ApprovalSource_Extension => "Extension"
  | ApprovalSource_Core => "Core"
  end.

Definition record_history (key : option string) (d : ApprovalDecision) : M unit :=
  match d with
  | AllowAlways | DenyAlways =>
    let! n := tick in
    let! s := mget id in
    let '(recorded, history, disk) :=
      record_decision encode_history (ss_history s) (ss_disk s) key d (env_history_answer env n) in
    run! mmodify (set_history history disk) in
    match recorded with
    | Ok _ => mret tt
    | Err error => mfail (Turn_ApprovalHistory error)
    end
  | _ => mret tt
  end.

Fixpoint request_approvals_and_resolve (call : PreparedToolInvocation)
    (approvals : list PreparedToolApproval) : M ToolExecutionOutcome :=
  match approvals with
  | [] => execute_single_tool (to_executable call)
  | a :: approvals =>
    let id := ToolCallId_new (pi_call_id call) in
    let! n := tick in
    run! mlift (env_register_approval env n (pi_call_id call)) in
    run! durable (P_ToolApprovalRequested id (pi_name call) (pa_prompt a) (pa_rule_key a)
                   (pa_source a) (pi_tool_input call)) in
    let! n := tick in
    let! (decision, detail) :=
      match env_approval_answer env n with
      | Answer_Cancelled => mfail Turn_Aborted
      | Answer_Decision d => mret (d, None)
      | Answer_Dropped => mret (DenyOnce, Some "approval receiver dropped")
      | Answer_TimedOut =>
        mret (DenyOnce, Some ("approval timed out after " +:+ pretty APPROVAL_TIMEOUT_SECS +:+ "s"))
      end in
    run! durable (P_ToolApprovalResolved id decision detail) in
    run! record_history (pa_rule_key a) decision in
    if negb (ApprovalDecision_allows decision) then
      mret (outcome_failed
        match detail with
        | Some detail =>
          "Tool execution denied (" +:+ detail +:+ ", " +:+ source_debug (pa_source a) +:+ "): "
          +:+ pa_prompt a
        | None =>
          "Tool execution denied by user (" +:+ source_debug (pa_source a) +:+ "): " +:+ pa_prompt a
        end)
    else request_approvals_and_resolve call approvals
  end.

Definition await_duplicate (call_id : string) : M ToolExecutionOutcome :=
  let! d := mget ss_dedup in
  match await_same_step_outcome d call_id with
  | Some outcome => mret outcome
  | None => mblock
  end.

Definition joins_parallel (call : PreparedToolInvocation) : bool :=
  match pi_disposition call with
  | Disposition_Execute => bool_decide (pi_mode call = Mode_Parallel)
  | _ => false
  end.

(** What the [match] on the disposition does for a call outside the parallel batch. *)
Definition resolve_call (call : PreparedToolInvocation) : M ToolExecutionOutcome :=
  match pi_disposition call with
  | Disposition_Rejected error => mret (outcome_failed error)
  | Disposition_ReuseSameStep => await_duplicate (pi_call_id call)
  | Disposition_AwaitApprovals approvals => request_approvals_and_resolve call approvals
  | Disposition_Execute => execute_single_tool (to_executable call)
  end.

(** The loop of [execute_declared_batch]; [batch] are the calls of the parallel batch, a
    contiguous range in front of [calls]. *)
Fixpoint execute_loop (batch calls : list PreparedToolInvocation) : M (list string) :=
  match calls with
  | [] => flush_and_commit batch
  | call :: calls =>
    let! cancelled := is_cancelled in
    if cancelled then mfail Turn_Aborted
    else if joins_parallel call then execute_loop (batch ++ [call]) calls
    else
      let! flushed := flush_and_commit batch in
      let! outcome := resolve_call call in
      let! committed := commit_single_outcome call outcome in
      let! rest := execute_loop [] calls in
      mret (flushed ++ committed ++ rest)
  end.

Definition execute_declared_batch (calls : list PreparedToolInvocation) : M (list string) :=
  execute_loop [] calls.

(** The calls that have no terminal event get one; a publisher that refuses is passed over. *)
Fixpoint complete_pending (error : TurnError) (calls : list PreparedToolInvocation) : M unit :=
  match calls with
  | [] => mret tt
  | call :: calls =>
    let! uncommitted := mget ss_uncommitted in
    if bool_decide (pi_call_id call ∉ uncommitted) then complete_pending error calls
    else
      let outcome :=
        match error with
        | Turn_Aborted => outcome_cancelled "turn aborted before tool completion" None
        | other =>
          outcome_failed ("tool orchestration failed before completion: "
                          +:+ turn_error_to_string other)
        end in
      λ s,
      match finish_tool_call call outcome s with
      | (Exec_ok _, s) =>
        (run! mmodify (λ s, set_uncommitted (ss_uncommitted s ∖ {[pi_call_id call]}) s) in
         complete_pending error calls) s
      | (Exec_err _, s) => complete_pending error calls s
      | (Exec_blocked, s) => (Exec_blocked, s)
      end
  end.

Definition execute_and_commit (calls : list PreparedToolInvocation) : M (list string) := λ s,
  let s := set_uncommitted (list_to_set (pi_call_id <$> calls)) s in
  match execute_declared_batch calls s with
  | (Exec_err error, s) =>
    match complete_pending error calls s with
    | (Exec_blocked, s) => (Exec_blocked, s)
    | (_, s) => (Exec_err error, s)
    end
  | r => r
  end.

End execute.
