(* ===== verification/ToolSettle.v ===== *)
(** * Every tool call of a step is settled once, and runs only with permission

    Theorems about [ToolPrepare] and [ToolExecute]: the terminal events a step publishes, the
    calls it runs, and that it never waits for an outcome nobody produces. *)

From S2P Require Import Prelude Utf8 StdPath CoreTypes CoreAccess CoreLlm CoreEvent PermPolicy PermChain ToolPrepare ToolExecute.

(** ** Reasoning about operations *)

(** [m] from [s] ends well in [Q] or with an error in [E], and does not block. *)
Definition ends {A} (m : M A) (s : StepState) (Q : A → StepState → Prop) (E : StepState → Prop)
    : Prop :=
  match m s with
  | (Exec_ok a, s') => Q a s'
  | (Exec_err _, s') => E s'
  | (Exec_blocked, _) => False
  end.

Lemma ends_then {A B} (m : M A) (f : A → M B) s Q E :
  ends m s (λ a s', ends (f a) s' Q E) E → ends (mthen m f) s Q E.
Proof. unfold ends, mthen. by destruct (m s) as [[a|e|] s']. Qed.

Lemma ends_weaken {A} (m : M A) s (Q Q' : A → StepState → Prop) (E E' : StepState → Prop) :
  ends m s Q E → (∀ a s', Q a s' → Q' a s') → (∀ s', E s' → E' s') → ends m s Q' E'.
Proof. unfold ends. destruct (m s) as [[a|e|] s']; auto. Qed.

Lemma ends_ret {A} (a : A) s (Q : A → StepState → Prop) E : Q a s → ends (mret a) s Q E.
Proof. done. Qed.

Lemma ends_fail {A} e s (Q : A → StepState → Prop) (E : StepState → Prop) :
  E s → ends (mfail e) s Q E.
Proof. done. Qed.

Lemma ends_lift {A} (r : result A TurnError) s (Q : A → StepState → Prop) (E : StepState → Prop) :
  (∀ a, r = Ok a → Q a s) → E s → ends (mlift r) s Q E.
Proof. destruct r; unfold ends; simpl; auto. Qed.

(** The state with its clock advanced. *)
Definition ticked (s : StepState) : StepState := (tick s).2.

Lemma ends_tick s (Q : nat → StepState → Prop) E : Q (ss_clock s) (ticked s) → ends tick s Q E.
Proof. done. Qed.

#[export] Hint Resolve ends_ret ends_fail : astr.

(** ** What the log says about calls *)

Definition terminal_id (p : DurableEventPayload) : option string :=
  match p with
  | P_ToolCallCompleted id _ _ _ _ | P_ToolCallFailed id _ _ _ _ _ _
  | P_ToolCallCancelled id _ _ _ _ _ => Some (ToolCallId_str id)
  | _ => None
  end.

Definition resolved_decision (id : string) (p : DurableEventPayload) : option ApprovalDecision :=
  match p with
  | P_ToolApprovalResolved i d _ => if bool_decide (ToolCallId_str i = id) then Some d else None
  | _ => None
  end.

(** The call may run: it needs no approval, or the log holds an approving decision for every
    question about it. *)
Definition authorised (c : PreparedToolInvocation) (log : list DurableEventPayload) : Prop :=
  match pi_disposition c with
  | Disposition_Execute => True
  | Disposition_AwaitApprovals l =>
    ∃ pre, pre `prefix_of` log
      ∧ length (omap (resolved_decision (pi_call_id c)) pre) = length l
      ∧ Forall (λ d, ApprovalDecision_allows d = true) (omap (resolved_decision (pi_call_id c)) pre)
  | _ => False
  end.

Lemma authorised_app c log log' : authorised c log → authorised c (log ++ log').
Proof.
  unfold authorised. destruct (pi_disposition c); try done.
  intros (pre & [k ->] & ? & ?). exists pre. split; [|done]. exists (k ++ log'). by rewrite app_assoc.
Qed.

(** The outcome of a primary call is in its channel. *)
Definition settled (d : ToolCallDeduplicator) (id : string) : Prop :=
  ∀ key e, td_call_key_by_call_id d !! id = Some key →
    td_same_step_in_flight d !! key = Some e → sf_primary_call_id e = id → is_Some (sf_outcome e).

(** Finalising keeps the registration: the keys of the calls and the owners of the keys. *)
Definition same_registration (d d' : ToolCallDeduplicator) : Prop :=
  td_call_key_by_call_id d' = td_call_key_by_call_id d ∧
  ∀ key, sf_primary_call_id <$> td_same_step_in_flight d' !! key
         = sf_primary_call_id <$> td_same_step_in_flight d !! key.

#[export] Instance same_registration_preorder : PreOrder same_registration.
Proof.
  split; [by intros d|]. intros d1 d2 d3 [H1 H2] [H3 H4].
  split; [congruence|]. intros key. by rewrite H4.
Qed.

Lemma finalize_same d id o : same_registration d (finalize_outcome d id o).
Proof.
  unfold finalize_outcome. destruct (td_call_key_by_call_id d !! id) as [key|]; [|done].
  split; [done|]. intros key'. simpl.
  destruct (td_same_step_in_flight d !! key) as [e|] eqn:He; [|done].
  case_bool_decide; [|done]. destruct (decide (key = key')) as [<-|Hne].
  - by rewrite lookup_insert_eq, He.
  - by rewrite lookup_insert_ne.
Qed.

Lemma finalize_settled d id o : settled (finalize_outcome d id o) id.
Proof.
  intros key e. unfold finalize_outcome.
  destruct (td_call_key_by_call_id d !! id) as [k|] eqn:Hk; [|congruence]. simpl.
  intros Hk' He Hp. rewrite Hk in Hk'. simplify_eq.
  destruct (td_same_step_in_flight d !! key) as [e0|] eqn:He0; [|congruence].
  case_bool_decide as Hb.
  - rewrite lookup_insert_eq in He. simplify_eq. by eexists.
  - rewrite He0 in He. simplify_eq.
Qed.

Lemma finalize_mono d id o id' : settled d id' → settled (finalize_outcome d id o) id'.
Proof.
  intros Hs key e. unfold finalize_outcome.
  destruct (td_call_key_by_call_id d !! id) as [k|] eqn:Hk; [|apply Hs]. simpl.
  destruct (td_same_step_in_flight d !! k) as [e0|] eqn:He0; [|apply Hs].
  case_bool_decide; [|apply Hs]. destruct (decide (k = key)) as [->|Hne].
  - rewrite lookup_insert_eq. intros Hk' [= <-] _. simpl. by eexists.
  - rewrite lookup_insert_ne by done. apply Hs.
Qed.

(** ** A prepared batch *)

Definition reuses (c : PreparedToolInvocation) : bool :=
  match pi_disposition c with Disposition_ReuseSameStep => true | _ => false end.

(** What the preparation guarantees about a batch and the registration it leaves. *)
Record batch_ok (calls : list PreparedToolInvocation) (d : ToolCallDeduplicator) : Prop := {
  bo_ids : NoDup (pi_call_id <$> calls);
  bo_dups : ∀ i c, calls !! i = Some c → reuses c = true →
    ∃ key e j c', td_call_key_by_call_id d !! pi_call_id c = Some key
      ∧ td_same_step_in_flight d !! key = Some e
      ∧ calls !! j = Some c' ∧ j < i ∧ reuses c' = false
      ∧ sf_primary_call_id e = pi_call_id c'
      ∧ td_call_key_by_call_id d !! pi_call_id c' = Some key;
}.

Section settle.
  Context (value_to_string : Value → string) (debug_str : string → string)
    (encode_history : ApprovalHistoryFile → string)
    (turn_error_to_string : TurnError → string) (parses_as_image : string → bool).
  Context (services : ToolServices) (env : Environment) (max_parallel : N).
  Context (calls : list PreparedToolInvocation) (s0 : StepState).
  Hypothesis Hbatch : batch_ok calls (ss_dedup s0).

  Abbreviation ids := (pi_call_id <$> calls).

(** The events and executions since the start of the batch. *)
Definition new_log (s : StepState) : list DurableEventPayload := drop (length (ss_log s0)) (ss_log s).
Definition new_executed (s : StepState) : list ExecutableToolInvocation :=
  drop (length (ss_executed s0)) (ss_executed s).

(** The state between two steps of the batch: the first [k] calls have their terminal event,
    only calls before [m] may have run, and no call from [p] on has been decided. *)
Record Inv (k m p : nat) (s : StepState) : Prop := {
  inv_log : ss_log s = ss_log s0 ++ new_log s;
  inv_terminal : omap terminal_id (new_log s) = take k ids;
  inv_uncommitted : ss_uncommitted s = list_to_set (drop k ids);
  inv_executed : ss_executed s = ss_executed s0 ++ new_executed s;
  inv_ran : ei_call_id <$> new_executed s `sublist_of` take m ids;
  inv_authorised : ∀ x, x ∈ new_executed s →
    ∃ c, c ∈ calls ∧ x = to_executable c ∧ authorised c (new_log s);
  inv_fresh : ∀ i id, p ≤ i → ids !! i = Some id → omap (resolved_decision id) (new_log s) = [];
  inv_registration : same_registration (ss_dedup s0) (ss_dedup s);
  inv_settled : ∀ i c, i < k → calls !! i = Some c → reuses c = false →
    settled (ss_dedup s) (pi_call_id c);
}.

(** [Inv] reads nothing of the clock, the memory or the disk. *)
Lemma Inv_ext k m p s s' :
  ss_log s' = ss_log s → ss_dedup s' = ss_dedup s → ss_executed s' = ss_executed s →
  ss_uncommitted s' = ss_uncommitted s → Inv k m p s → Inv k m p s'.
Proof.
  intros Hl Hd He Hu []. assert (new_log s' = new_log s) as Hn by (unfold new_log; by rewrite Hl).
  assert (new_executed s' = new_executed s) as Hx by (unfold new_executed; by rewrite He).
  constructor; rewrite ?Hn, ?Hx, ?Hl, ?Hd, ?He, ?Hu; auto.
Qed.

Lemma Inv_tick k m p s : Inv k m p s → Inv k m p (ticked s).
Proof. by apply Inv_ext. Qed.

Lemma Inv_history k m p h disk s : Inv k m p s → Inv k m p (set_history h disk s).
Proof. by apply Inv_ext. Qed.

Lemma sublist_take_mono {A} (l l' : list A) m m' :
  m ≤ m' → l `sublist_of` take m l' → l `sublist_of` take m' l'.
Proof.
  intros Hm Hl. etrans; [exact Hl|]. rewrite <-(take_drop m (take m' l')).
  rewrite take_take, Nat.min_l by lia. apply sublist_inserts_r. done.
Qed.

Lemma Inv_weaken k m m' p p' s : m ≤ m' → p ≤ p' → Inv k m p s → Inv k m' p' s.
Proof.
  intros Hm Hp []. constructor; auto; [by eapply sublist_take_mono|].
  intros i id Hi. apply inv_fresh0. lia.
Qed.

(** The error states of the loop. *)
Definition Broken (s : StepState) : Prop := ∃ k m p, Inv k m p s.

Lemma Inv_Broken k m p s : Inv k m p s → Broken s.
Proof. by exists k, m, p. Qed.

#[local] Hint Resolve Inv_tick Inv_history Inv_Broken : astr.

(** *** Publishing *)

Lemma new_log_append e s : ss_log s = ss_log s0 ++ new_log s → new_log (append_log e s) = new_log s ++ [e].
Proof. intros H. unfold new_log at 1. simpl. rewrite H, <-app_assoc, drop_app_length. done. Qed.

Lemma ends_durable e s (Q : unit → StepState → Prop) (E : StepState → Prop) :
  Q tt (append_log e (ticked s)) → E (ticked s) → ends (durable env e) s Q E.
Proof.
  intros HQ HE. unfold durable. apply ends_then, ends_tick, ends_then, ends_lift; [|done].
  by intros [] _.
Qed.

(** An event about a call of the batch that is neither terminal nor a decision. *)
Lemma Inv_append k m p e s :
  terminal_id e = None → (∀ id, resolved_decision id e = None) →
  Inv k m p s → Inv k m p (append_log e s).
Proof.
  intros Ht Hr []. pose proof (new_log_append e s inv_log0) as Hn.
  constructor; rewrite ?Hn; simpl; auto.
  - by rewrite inv_log0 at 1; rewrite <-app_assoc.
  - rewrite omap_app. simpl. rewrite Ht. by rewrite app_nil_r.
  - intros x Hx. destruct (inv_authorised0 x Hx) as (c & ? & ? & ?).
    exists c. split_and!; [done..|by apply authorised_app].
  - intros i id Hi Hid. rewrite omap_app, (inv_fresh0 i id Hi Hid). simpl. by rewrite Hr.
Qed.

(** *** Committing *)

Lemma apply_post_ends c o k m p s :
  Inv k m p s →
  ends (apply_post_tool_use env c o) s (λ _ s', Inv k m p s' ∧ ss_dedup s' = ss_dedup s)
    (Inv k m p).
Proof.
  intros Hi. unfold apply_post_tool_use.
  destruct (pi_disposition c), o; try (by apply ends_ret);
    (apply ends_then, ends_tick, ends_then, ends_lift; [|by apply Inv_tick]; intros a _;
     apply ends_ret; split; [by apply Inv_tick|done]).
Qed.

Lemma Inv_finalize k m p id o s :
  Inv k m p s → Inv k m p (set_dedup (finalize_outcome (ss_dedup s) id o) s).
Proof.
  intros []. constructor; auto.
  - simpl. etrans; [done|]. apply finalize_same.
  - intros i c Hi Hc Hr. simpl. apply finalize_mono. eauto.
Qed.

Lemma settle_ends cs outcomes k m p s :
  Inv k m p s →
  ends (settle_outcomes services env cs outcomes) s
    (λ pending s', Inv k m p s' ∧ pending.*1 = cs ∧
       (∀ c, c ∈ cs → reuses c = false → settled (ss_dedup s') (pi_call_id c)) ∧
       (∀ id, settled (ss_dedup s) id → settled (ss_dedup s') id))
    (Inv k m p).
Proof.
  revert outcomes s. induction cs as [|c cs IH]; intros outcomes s Hi; simpl.
  { apply ends_ret. split_and!; [done..|by intros ? ?%not_elem_of_nil|done]. }
  apply ends_then. set (o := validate_discovered_tools _ _ _).
  eapply ends_weaken; [by apply apply_post_ends| |done]. intros o' s1 [Hi1 Hd1]. apply ends_then.
  set (s2 := if reuses c then s1 else
    set_dedup (finalize_outcome (ss_dedup s1) (pi_call_id c) o') s1).
  assert (Inv k m p s2) as Hi2 by (unfold s2; destruct (reuses c); [done|by apply Inv_finalize]).
  assert (∀ id, settled (ss_dedup s) id → settled (ss_dedup s2) id) as Hmono.
  { intros id. unfold s2. rewrite <-Hd1. destruct (reuses c); [done|]. simpl. apply finalize_mono. }
  assert (reuses c = false → settled (ss_dedup s2) (pi_call_id c)) as Hsc.
  { intros Hr. unfold s2. rewrite Hr. simpl. apply finalize_settled. }
  assert (∀ Q : unit → StepState → Prop, Q tt s2 → ends
    (match pi_disposition c with
     | Disposition_ReuseSameStep => mret tt
     | _ => mmodify (λ s, set_dedup (finalize_outcome (ss_dedup s) (pi_call_id c) o') s)
     end) s1 Q (Inv k m p)) as Hfin.
  { intros Q HQ. unfold s2, reuses in HQ. by destruct (pi_disposition c). }
  apply Hfin. apply ends_then. eapply ends_weaken; [by apply IH| |done].
  intros pending s3 (Hi3 & Hp & Hset & Hm3). apply ends_ret. split_and!.
  - done.
  - by rewrite fmap_cons, Hp.
  - intros c' [->|Hc]%elem_of_cons Hr; auto.
  - auto.
Qed.

Lemma persist_ends pending k m p s :
  Inv k m p s →
  ends (persist_outcomes debug_str parses_as_image env pending) s
    (λ pending' s', Inv k m p s' ∧ pending'.*1 = pending.*1 ∧ ss_dedup s' = ss_dedup s)
    (Inv k m p).
Proof.
  revert s. induction pending as [|[c o] pending IH]; intros s Hi; simpl; [by apply ends_ret|].
  apply ends_then.
  assert (∀ s o, Inv k m p s → ends
     match o with
     | Outcome_Completed r =>
       mthen (persist_large_tool_result debug_str parses_as_image env (pi_name c) (pi_call_id c) r)
         (λ r, mret (Outcome_Completed r))
     | other => mret other
     end s (λ _ s', Inv k m p s' ∧ ss_dedup s' = ss_dedup s) (Inv k m p)) as Ho.
  { clear. intros s o Hi. destruct o as [r| |]; [|by apply ends_ret..].
    apply ends_then. unfold persist_large_tool_result.
    destruct (_ || _); [by apply ends_ret, ends_ret|]. unfold persist_tool_result.
    apply ends_then, ends_tick, ends_then, ends_lift; [|by apply Inv_tick].
    intros reference _. apply ends_ret, ends_ret. split; [by apply Inv_tick|done]. }
  eapply ends_weaken; [by apply Ho| |done]. intros o' s1 [Hi1 Hd1]. apply ends_then.
  eapply ends_weaken; [by apply IH| |done]. intros pending' s2 (Hi2 & Hp & Hd2).
  apply ends_ret. rewrite !fmap_cons, Hp, Hd2. done.
Qed.

Lemma id_notin_drop k id : ids !! k = Some id → id ∉ drop (S k) ids.
Proof.
  intros Hk Hin. apply list_elem_of_lookup in Hin as [i Hi]. rewrite lookup_drop in Hi.
  pose proof (NoDup_lookup ids k (S k + i) id (bo_ids _ _ Hbatch) Hk Hi). lia.
Qed.

(** Publishing the terminal event of call [k]. *)
Lemma Inv_finish k m p c e s :
  calls !! k = Some c → terminal_id e = Some (pi_call_id c) →
  (∀ id, resolved_decision id e = None) →
  (reuses c = false → settled (ss_dedup s) (pi_call_id c)) →
  Inv k m p s →
  Inv (S k) m p (set_uncommitted (ss_uncommitted s ∖ {[pi_call_id c]}) (append_log e s)).
Proof.
  intros Hc Ht Hr Hset []. pose proof (new_log_append e s inv_log0) as Hn.
  assert (ids !! k = Some (pi_call_id c)) as Hid by (by rewrite list_lookup_fmap, Hc).
  assert (∀ u s, new_log (set_uncommitted u s) = new_log s) as Hu by done.
  constructor; rewrite ?Hu, ?Hn; simpl; auto.
  - by rewrite inv_log0 at 1; rewrite <-app_assoc.
  - rewrite omap_app. simpl. rewrite Ht, inv_terminal0. symmetry. by apply take_S_r.
  - rewrite inv_uncommitted0. rewrite (drop_S _ _ _ Hid). simpl.
    pose proof (id_notin_drop k _ Hid). set_solver.
  - intros x Hx. destruct (inv_authorised0 x Hx) as (c' & ? & ? & ?).
    exists c'. split_and!; [done..|by apply authorised_app].
  - intros i id Hi Hidi. rewrite omap_app, (inv_fresh0 i id Hi Hidi). simpl. by rewrite Hr.
  - intros i c' Hi Hc' Hru. destruct (decide (i = k)) as [->|].
    + simplify_eq. auto.
    + eapply inv_settled0; [|done..]. lia.
Qed.

(** The terminal event of an outcome. *)
Lemma finish_ends c o s (Q : unit → StepState → Prop) (E : StepState → Prop) :
  (∀ e, terminal_id e = Some (pi_call_id c) → (∀ id, resolved_decision id e = None) →
     Q tt (append_log e (ticked s))) →
  E (ticked s) →
  ends (finish_tool_call value_to_string env c o) s Q E.
Proof.
  intros HQ HE. unfold finish_tool_call.
  destruct (tool_call_completion_arguments _ _ _) as [arguments json].
  apply ends_durable; [|done]. destruct o; apply HQ; done.
Qed.

Lemma finish_outcomes_ends pending k m p s n :
  Inv k m p s → pending.*1 = take n (drop k calls) →
  (∀ c, c ∈ pending.*1 → reuses c = false → settled (ss_dedup s) (pi_call_id c)) →
  ends (finish_outcomes value_to_string env pending) s
    (λ _ s', Inv (k + length pending) m p s') (λ s', ∃ k', Inv k' m p s').
Proof.
  revert k n s. induction pending as [|[c o] pending IH]; intros k n s Hi Hp Hset; simpl.
  { rewrite Nat.add_0_r. by apply ends_ret. }
  destruct n as [|n]; [done|]. simpl in Hp.
  destruct (calls !! k) as [c'|] eqn:Hc; [|by rewrite drop_ge in Hp by (by apply lookup_ge_None)].
  rewrite (drop_S _ _ _ Hc) in Hp. simpl in Hp. simplify_eq.
  apply ends_then, finish_ends; [|by exists k; apply Inv_tick].
  intros e Ht Hr. apply ends_then. unfold ends at 1. simpl.
  set (s1 := set_uncommitted _ _).
  assert (Inv (S k) m p s1) as Hi1.
  { apply (Inv_finish k m p c' e (ticked s)); auto; [|by apply Inv_tick].
    intros Hru. apply Hset; [rewrite fmap_cons; by left|done]. }
  apply ends_then. eapply ends_weaken; [apply (IH (S k) n s1 Hi1); [done|]| |done].
  - intros c1 Hc1 Hru. apply Hset; [rewrite fmap_cons; by right|done].
  - intros rest s' Hs'. apply ends_ret. by rewrite Nat.add_succ_r.
Qed.

(** Committing the calls [k .. k + n) gives each its terminal event. *)
Lemma commit_ends outcomes k m p n s :
  Inv k m p s → k + n ≤ length calls →
  ends (commit_tool_outcomes value_to_string debug_str parses_as_image services env
          (take n (drop k calls)) outcomes) s
    (λ _ s', Inv (k + n) m p s') (λ s', ∃ k', Inv k' m p s').
Proof.
  intros Hi Hn. unfold commit_tool_outcomes. apply ends_then.
  eapply ends_weaken; [by apply settle_ends| |by eauto].
  intros pending s1 (Hi1 & Hp1 & Hset1 & _). apply ends_then.
  eapply ends_weaken; [by apply persist_ends| |by eauto].
  intros pending2 s2 (Hi2 & Hp2 & Hd2).
  assert (length pending2 = n) as Hlen.
  { rewrite <-(length_fmap fst), Hp2, Hp1, length_take, length_drop. lia. }
  rewrite <-Hlen.
  apply (finish_outcomes_ends _ _ _ _ _ (length pending2)); [done|congruence|].
  intros c Hc Hr. rewrite Hd2. apply Hset1; [|done]. congruence.
Qed.

(** *** Running tools *)

(** The calls from [m] up to [b]. *)
Definition slice (m b : nat) : list PreparedToolInvocation := take (b - m) (drop m calls).

Lemma slice_cons m b c : m < b → calls !! m = Some c → slice m b = c :: slice (S m) b.
Proof.
  intros Hm Hc. unfold slice. rewrite (drop_S _ _ _ Hc).
  replace (b - m) with (S (b - S m)) by lia. done.
Qed.

Lemma slice_nil m b : b ≤ m → slice m b = [].
Proof. intros H. unfold slice. by replace (b - m) with 0 by lia. Qed.

Lemma slice_lookup m b : m < b → b ≤ length calls → ∃ c, calls !! m = Some c.
Proof. intros. apply lookup_lt_is_Some_2. lia. Qed.

Lemma execute_tool_ends c k m p s E :
  Inv k m p s → calls !! m = Some c → authorised c (new_log s) →
  ends (execute_tool_call env (to_executable c)) s (λ _ s', Inv k (S m) p s') E.
Proof.
  intros Hi Hc Ha. unfold execute_tool_call, is_cancelled. apply ends_then, ends_then, ends_tick, ends_ret.
  destruct (env_cancelled env _).
  { apply ends_ret. eapply Inv_weaken; [| |by apply Inv_tick]; lia. }
  apply ends_then. unfold ends at 1; simpl. apply ends_then, ends_tick, ends_ret.
  apply Inv_tick. destruct Hi.
  assert (new_executed (start_tool (to_executable c) (ticked s)) = new_executed s ++ [to_executable c]) as Hx.
  { unfold new_executed at 1. simpl. rewrite inv_executed0, <-app_assoc, drop_app_length. done. }
  constructor; rewrite ?Hx; auto.
  - simpl. by rewrite inv_executed0 at 1; rewrite <-app_assoc.
  - rewrite fmap_app. rewrite (take_S_r _ _ (pi_call_id c)); [by apply sublist_app|].
    by rewrite list_lookup_fmap, Hc.
  - intros x [Hx'|Hx']%elem_of_app; [by apply inv_authorised0|].
    apply list_elem_of_singleton in Hx' as ->. exists c. split_and!; [|done|done].
    by eapply list_elem_of_lookup_2.
Qed.

(** The calls of a parallel batch need no approval. *)
Definition all_execute (k b : nat) : Prop :=
  ∀ i c, k ≤ i < b → calls !! i = Some c → pi_disposition c = Disposition_Execute.

Lemma authorised_execute c log : pi_disposition c = Disposition_Execute → authorised c log.
Proof. unfold authorised. by intros ->. Qed.

Lemma spawn_ends n k m b p running s E :
  Inv k m p s → k ≤ m → m ≤ b → b ≤ length calls → all_execute k b →
  ends (spawn_first env n (to_executable <$> slice m b) running) s
    (λ r s', ∃ m', Inv k m' p s' ∧ m ≤ m' ≤ b ∧ r.2 = to_executable <$> slice m' b) E.
Proof.
  revert m running s. induction n as [|n IH]; intros m running s Hi Hk Hm Hb Hall.
  { apply ends_ret. exists m. done. }
  destruct (decide (m = b)) as [->|].
  { rewrite slice_nil by lia. apply ends_ret. exists b. rewrite slice_nil by lia. done. }
  destruct (slice_lookup m b) as [c Hc]; [lia..|].
  rewrite (slice_cons m b c) by (done || lia). simpl. apply ends_then.
  eapply ends_weaken; [apply (execute_tool_ends c k m p s E Hi Hc)| |done].
  { apply authorised_execute. eapply Hall; [|done]. lia. }
  intros task s1 Hi1. eapply ends_weaken; [apply (IH (S m)); (done || lia)| |done].
  intros r s2 (m' & ? & ? & ?). exists m'. split_and!; [done|lia|lia|done].
Qed.

Lemma join_ends fuel k m b p running outcomes s :
  Inv k m p s → k ≤ m → m ≤ b → b ≤ length calls → all_execute k b →
  ends (join_loop env fuel running (to_executable <$> slice m b) outcomes) s
    (λ _ s', Inv k b p s') (Inv k b p).
Proof.
  revert m running outcomes s. induction fuel as [|fuel IH];
    intros m running outcomes s Hi Hk Hm Hb Hall.
  { apply ends_ret. eapply Inv_weaken; [| |done]; lia. }
  cbn [join_loop]. destruct running as [|task0 running].
  { apply ends_ret. eapply Inv_weaken; [| |done]; lia. }
  apply ends_then, ends_tick, ends_then, ends_lift; [|eapply Inv_weaken; [| |by apply Inv_tick]; lia].
  intros [] _. destruct (decide (m = b)) as [->|].
  { rewrite slice_nil by lia. cbn [fmap list_fmap].
    epose proof (IH b _ _ _ (Inv_tick _ _ _ _ Hi) Hk Hm Hb Hall) as H.
    rewrite slice_nil in H by lia. apply H. }
  destruct (slice_lookup m b) as [c Hc]; [lia..|].
  rewrite (slice_cons m b c) by (done || lia). cbn [fmap list_fmap]. apply ends_then.
  eapply ends_weaken; [apply (execute_tool_ends c k m p _ (Inv k b p))|..|done]; [by apply Inv_tick|done| |].
  { apply authorised_execute. eapply Hall; [|done]. lia. }
  intros task s1 Hi1. apply (IH (S m)); (done || lia).
Qed.

Lemma flush_ends k b p s :
  Inv k k p s → k ≤ b → b ≤ length calls → all_execute k b →
  ends (flush_and_commit value_to_string debug_str parses_as_image services env max_parallel
          (slice k b)) s (λ _ s', Inv b b p s') Broken.
Proof.
  intros Hi Hk Hb Hall. destruct (decide (k = b)) as [->|].
  { rewrite slice_nil by lia. by apply ends_ret. }
  destruct (slice_lookup k b) as [c Hc]; [lia..|].
  pose proof (slice_cons k b c ltac:(lia) Hc) as Hs.
  unfold flush_and_commit. rewrite Hs at 1. apply ends_then. unfold flush_parallel_batch.
  rewrite Hs at 1. cbn [fmap list_fmap]. apply ends_then.
  eapply ends_weaken; [apply (spawn_ends _ k k b p [] s Broken); (done || lia)| |done].
  intros [running pending] s1 (m' & Hi1 & Hm' & Hp). simpl in Hp. subst pending.
  eapply ends_weaken; [apply (join_ends _ k m' b p); (done || lia)| |by eauto with astr].
  intros outcomes s2 Hi2.
  eapply ends_weaken; [apply (commit_ends outcomes k b p (b - k) s2 Hi2); lia| |].
  - intros d s3 H3. replace (k + (b - k)) with b in H3 by lia. exact H3.
  - intros s3 [k' ?]. by eapply Inv_Broken.
Qed.

(** *** Approvals *)

(** A decision about call [p] leaves the later calls undecided. *)
Lemma Inv_decision k m p c d detail s :
  calls !! p = Some c → Inv k m (S p) s →
  Inv k m (S p)
    (append_log (P_ToolApprovalResolved (ToolCallId_new (pi_call_id c)) d detail) s).
Proof.
  intros Hc []. set (e := P_ToolApprovalResolved _ _ _).
  pose proof (new_log_append e s inv_log0) as Hn.
  constructor; rewrite ?Hn; simpl; auto.
  - by rewrite inv_log0 at 1; rewrite <-app_assoc.
  - rewrite omap_app. simpl. by rewrite app_nil_r.
  - intros x Hx. destruct (inv_authorised0 x Hx) as (c' & ? & ? & ?).
    exists c'. split_and!; [done..|by apply authorised_app].
  - intros i id Hi Hid. rewrite omap_app, (inv_fresh0 i id Hi Hid). simpl.
    rewrite bool_decide_false; [done|]. simpl. intros <-.
    assert (ids !! p = Some (pi_call_id c)) as Hp by (by rewrite list_lookup_fmap, Hc).
    pose proof (NoDup_lookup ids p i _ (bo_ids _ _ Hbatch) Hp Hid). lia.
Qed.

Lemma record_history_ends key d k m p s :
  Inv k m p s →
  ends (record_history encode_history env key d) s
    (λ _ s', Inv k m p s' ∧ new_log s' = new_log s) (Inv k m p).
Proof.
  intros Hi. unfold record_history.
  destruct d; try (by apply ends_ret);
    (apply ends_then, ends_tick, ends_then; unfold ends at 1; simpl;
     destruct (record_decision _ _ _ _ _ _) as [[r h] disk]; apply ends_then; unfold ends at 1; simpl;
     destruct r; [apply ends_ret|apply ends_fail]; [split; [|done]|];
     by apply Inv_history, Inv_tick).
Qed.

Definition decided (c : PreparedToolInvocation) (s : StepState) (n : nat) : Prop :=
  length (omap (resolved_decision (pi_call_id c)) (new_log s)) = n ∧
  Forall (λ d, ApprovalDecision_allows d = true)
    (omap (resolved_decision (pi_call_id c)) (new_log s)).

Lemma approvals_ends c l all p s n :
  calls !! p = Some c → pi_disposition c = Disposition_AwaitApprovals all →
  n + length l = length all → Inv p p (S p) s → decided c s n →
  ends (request_approvals_and_resolve encode_history env c l) s
    (λ _ s', Inv p (S p) (S p) s') Broken.
Proof.
  intros Hc Hd. revert n s. induction l as [|a l IH]; intros n s Hn Hi [Hlen Hall]; simpl.
  - unfold execute_single_tool. apply ends_then.
    eapply ends_weaken; [apply (execute_tool_ends c p p (S p) s Broken Hi Hc)|..|done].
    + unfold authorised. rewrite Hd. exists (new_log s). simpl in Hn.
      split_and!; [done|lia|done].
    + intros r s' Hs'. by apply ends_ret.
  - apply ends_then, ends_tick, ends_then, ends_lift; [|by eapply Inv_Broken, Inv_tick].
    intros [] _. apply ends_then, ends_durable; [|by eapply Inv_Broken, Inv_tick, Inv_tick].
    set (s1 := append_log _ _).
    assert (Inv p p (S p) s1) as Hi1 by (apply Inv_append; [done|done|by apply Inv_tick, Inv_tick]).
    assert (omap (resolved_decision (pi_call_id c)) (new_log s1)
            = omap (resolved_decision (pi_call_id c)) (new_log s)) as Hl1.
    { unfold s1. rewrite new_log_append by apply (inv_log _ _ _ _ (Inv_tick _ _ _ _ (Inv_tick _ _ _ _ Hi))).
      rewrite omap_app. simpl. by rewrite app_nil_r. }
    apply ends_then, ends_tick. apply ends_then.
    set (s2 := ticked s1). assert (Inv p p (S p) s2) as Hi2 by by apply Inv_tick.
    assert (∀ (d : ApprovalDecision) (detail : option string),
      ends (run! durable env (P_ToolApprovalResolved (ToolCallId_new (pi_call_id c)) d detail) in
            run! record_history encode_history env (pa_rule_key a) d in
            if negb (ApprovalDecision_allows d) then
              mret (outcome_failed
                match detail with
                | Some detail =>
                  "Tool execution denied (" +:+ detail +:+ ", " +:+ source_debug (pa_source a)
                  +:+ "): " +:+ pa_prompt a
                | None =>
                  "Tool execution denied by user (" +:+ source_debug (pa_source a) +:+ "): "
                  +:+ pa_prompt a
                end)
            else request_approvals_and_resolve encode_history env c l)%step s2
        (λ _ s', Inv p (S p) (S p) s') Broken) as Hdec.
    { intros d detail. apply ends_then, ends_durable; [|by eapply Inv_Broken, Inv_tick].
      set (s3 := append_log _ _).
      assert (Inv p p (S p) s3) as Hi3 by (apply Inv_decision; [done|by apply Inv_tick]).
      apply ends_then. eapply ends_weaken; [by apply record_history_ends| |by eauto with astr].
      intros _ s4 [Hi4 Hl4]. destruct (ApprovalDecision_allows d) eqn:Ha; simpl.
      - apply (IH (S n)); [simpl in Hn; lia|done|]. unfold decided. rewrite Hl4.
        unfold s3. rewrite new_log_append by apply (inv_log _ _ _ _ (Inv_tick _ _ _ _ Hi2)).
        change (new_log (ticked s2)) with (new_log s1). rewrite omap_app, Hl1. simpl.
        rewrite bool_decide_true by done. simpl. rewrite length_app, Forall_app. simpl.
        split; [lia|]. split; [done|]. by repeat constructor.
      - apply ends_ret. eapply Inv_weaken; [| |done]; lia. }
    destruct (env_approval_answer env _); [by eapply ends_fail, Inv_Broken|..];
      apply ends_ret; apply Hdec.
Qed.

(** *** The loop *)

(** A duplicate finds the outcome of its primary call, which was committed before it. *)
Lemma await_ends c p m q s E :
  calls !! p = Some c → pi_disposition c = Disposition_ReuseSameStep → Inv p m q s →
  ends (await_duplicate (pi_call_id c)) s (λ _ s', s' = s) E.
Proof.
  intros Hc Hd Hi. unfold await_duplicate. apply ends_then. unfold ends at 1; simpl.
  destruct (bo_dups _ _ Hbatch p c Hc) as (key & e & j & c' & Hk & He & Hj & Hlt & Hr & Hp & Hk');
    [unfold reuses; by rewrite Hd|].
  destruct Hi as [_ _ _ _ _ _ _ [Hreg1 Hreg2] Hset].
  unfold await_same_step_outcome. rewrite Hreg1, Hk.
  specialize (Hreg2 key). rewrite He in Hreg2.
  destruct (td_same_step_in_flight (ss_dedup s) !! key) as [e'|] eqn:He'; [|done]. simpl in Hreg2.
  destruct (Hset j c' Hlt Hj Hr key e') as [o Ho]; [congruence|done|congruence|].
  rewrite Ho. by apply ends_ret.
Qed.

Lemma resolve_ends c p s :
  calls !! p = Some c → Inv p p p s →
  ends (resolve_call encode_history env c) s (λ _ s', Inv p (S p) (S p) s') Broken.
Proof.
  intros Hc Hi. unfold resolve_call. destruct (pi_disposition c) as [|error| |approvals] eqn:Hd.
  - unfold execute_single_tool. apply ends_then.
    eapply ends_weaken; [apply (execute_tool_ends c p p p s Broken Hi Hc); by apply authorised_execute| |done].
    intros r s' Hs'. apply ends_ret. eapply Inv_weaken; [| |exact Hs']; lia.
  - apply ends_ret. eapply Inv_weaken; [| |done]; lia.
  - eapply ends_weaken; [by eapply await_ends| |done]. intros o s' ->.
    eapply Inv_weaken; [| |done]; lia.
  - apply (approvals_ends c approvals approvals p s 0); [done..|eapply Inv_weaken; [| |done]; lia|].
    unfold decided. rewrite (inv_fresh _ _ _ _ Hi p); [done|lia|by rewrite list_lookup_fmap, Hc].
Qed.

Lemma loop_ends k b s :
  Inv k k b s → k ≤ b → b ≤ length calls → all_execute k b →
  ends (execute_loop value_to_string debug_str encode_history parses_as_image services env
          max_parallel (slice k b) (drop b calls)) s
    (λ _ s', Inv (length calls) (length calls) (length calls) s') Broken.
Proof.
  remember (length calls - b) as n eqn:Hn. revert k b s Hn.
  induction n as [|n IH]; intros k b s Hn Hi Hk Hb Hall.
  { assert (b = length calls) as -> by lia. rewrite drop_all.
    by apply flush_ends. }
  destruct (lookup_lt_is_Some_2 calls b) as [c Hc]; [lia|]. rewrite (drop_S _ _ _ Hc).
  cbn [execute_loop]. unfold is_cancelled. apply ends_then, ends_then, ends_tick, ends_ret.
  destruct (env_cancelled env _); [by eapply ends_fail, Inv_Broken, Inv_tick|].
  destruct (joins_parallel c) eqn:Hj.
  - assert (slice k b ++ [c] = slice k (S b)) as ->.
    { unfold slice. replace (S b - k) with (S (b - k)) by lia.
      symmetry. apply take_S_r. rewrite lookup_drop. by replace (k + (b - k)) with b by lia. }
    apply IH; [lia| |lia|lia|].
    + apply (Inv_weaken k k k b (S b)); [lia|lia|by apply Inv_tick].
    + intros i c' Hi' Hc'. destruct (decide (i = b)) as [->|]; [|apply (Hall i c'); [lia|done]].
      rewrite Hc in Hc'. injection Hc' as <-. unfold joins_parallel in Hj. by destruct (pi_disposition c).
  - apply ends_then. eapply ends_weaken; [apply (flush_ends k b b); [by apply Inv_tick|lia|lia|done]| |done].
    intros flushed s1 Hi1. apply ends_then.
    eapply ends_weaken; [by apply resolve_ends| |done].
    intros o s2 Hi2. apply ends_then. unfold commit_single_outcome.
    assert ([c] = take 1 (drop b calls)) as -> by (rewrite (drop_S _ _ _ Hc); done).
    eapply ends_weaken; [apply (commit_ends _ b (S b) (S b) 1 s2 Hi2); lia| |].
    2: { intros s3 [k' ?]. by eapply Inv_Broken. }
    intros committed s3 Hi3. rewrite Nat.add_1_r in Hi3. apply ends_then.
    assert (all_execute (S b) (S b)) as Hall' by (intros i ? ?; lia).
    pose proof (IH (S b) (S b) s3 ltac:(lia) Hi3 ltac:(lia) ltac:(lia) Hall') as Hrest.
    rewrite slice_nil in Hrest by lia.
    eapply ends_weaken; [exact Hrest| |done]. intros rest s4 H4. apply ends_ret. exact H4.
Qed.

(** *** After an error *)

Definition publish_total : Prop := ∀ n e, env_publish env n e = Ok tt.

(** The state while the calls from [i] on are still to be completed; the first [k] were
    committed before the error. *)
Record Tail (k i : nat) (s : StepState) : Prop := {
  tl_log : ss_log s = ss_log s0 ++ new_log s;
  tl_sublist : omap terminal_id (new_log s) `sublist_of` take (k `max` i) ids;
  tl_total : publish_total → omap terminal_id (new_log s) = take (k `max` i) ids;
  tl_uncommitted : ∀ j id, i ≤ j → ids !! j = Some id → id ∈ ss_uncommitted s ↔ k ≤ j;
  tl_executed : ss_executed s = ss_executed s0 ++ new_executed s;
  tl_ran : ei_call_id <$> new_executed s `sublist_of` ids;
  tl_authorised : ∀ x, x ∈ new_executed s →
    ∃ c, c ∈ calls ∧ x = to_executable c ∧ authorised c (new_log s);
}.

Lemma Inv_Tail k m p s : Inv k m p s → Tail k 0 s.
Proof.
  intros []. constructor; rewrite ?Nat.max_0_r; auto.
  - by rewrite inv_terminal0.
  - intros j id _ Hj. rewrite inv_uncommitted0, elem_of_list_to_set. split.
    + intros (i & Hi)%list_elem_of_lookup. rewrite lookup_drop in Hi.
      pose proof (NoDup_lookup ids j (k + i) id (bo_ids _ _ Hbatch) Hj Hi). lia.
    + intros Hk. apply list_elem_of_lookup. exists (j - k). rewrite lookup_drop.
      by replace (k + (j - k)) with j by lia.
  - etrans; [done|]. rewrite <-(take_drop m ids) at 2. by apply sublist_inserts_r.
Qed.

(** Publishing a terminal event succeeds, or changes nothing but the clock. *)
Lemma finish_cases c o s :
  (∃ e, finish_tool_call value_to_string env c o s = (Exec_ok tt, append_log e (ticked s))
     ∧ terminal_id e = Some (pi_call_id c)) ∨
  (∃ err, finish_tool_call value_to_string env c o s = (Exec_err err, ticked s) ∧ ¬ publish_total).
Proof.
  unfold finish_tool_call. destruct (tool_call_completion_arguments _ _ _) as [args json].
  unfold durable, mthen. simpl.
  set (e := match o with Outcome_Completed _ => _ | Outcome_Failed _ _ _ => _
            | Outcome_Cancelled _ _ => _ end).
  assert (terminal_id e = Some (pi_call_id c)) by (by destruct o).
  destruct (env_publish env (ss_clock s) e) as [[]|err] eqn:Hp; simpl; [left|right].
  - by exists e.
  - exists err. split; [done|]. intros Ht. by rewrite (Ht (ss_clock s) e) in Hp.
Qed.

Lemma Tail_skip k i s s' :
  ss_log s' = ss_log s → ss_executed s' = ss_executed s → ss_uncommitted s' = ss_uncommitted s →
  (k `max` i = k `max` S i ∨ ¬ publish_total) → Tail k i s → Tail k (S i) s'.
Proof.
  intros Hl He Hu Hki []. assert (new_log s' = new_log s) as Hn by (unfold new_log; by rewrite Hl).
  assert (new_executed s' = new_executed s) as Hx by (unfold new_executed; by rewrite He).
  constructor; rewrite ?Hn, ?Hx, ?Hl, ?He, ?Hu; auto.
  - eapply sublist_take_mono; [|done]. lia.
  - intros Ht. destruct Hki as [<-|?]; [auto|done].
  - intros j id Hj. apply tl_uncommitted0. lia.
Qed.

Lemma Tail_finish k i c e s :
  calls !! i = Some c → k ≤ i → terminal_id e = Some (pi_call_id c) →
  Tail k i s →
  Tail k (S i) (set_uncommitted (ss_uncommitted s ∖ {[pi_call_id c]}) (append_log e s)).
Proof.
  intros Hc Hk Ht []. pose proof (new_log_append e s tl_log0) as Hn.
  assert (ids !! i = Some (pi_call_id c)) as Hid by (by rewrite list_lookup_fmap, Hc).
  assert (∀ u s, new_log (set_uncommitted u s) = new_log s) as Hu by done.
  assert (k `max` S i = S (k `max` i)) as HS by lia. assert (k `max` i = i) as Hm by lia.
  constructor; rewrite ?Hu, ?Hn, ?HS; simpl; auto.
  - by rewrite tl_log0 at 1; rewrite <-app_assoc.
  - rewrite omap_app. simpl. rewrite Ht.
    rewrite (take_S_r _ _ (pi_call_id c)) by (by rewrite Hm). by apply sublist_app.
  - intros Hp. rewrite omap_app. simpl. rewrite Ht, (tl_total0 Hp).
    symmetry. apply take_S_r. by rewrite Hm.
  - intros j id Hj Hidj. rewrite elem_of_difference, (tl_uncommitted0 j id) by (done || lia).
    split; [by intros [? _]|]. intros Hkj. split; [done|]. rewrite elem_of_singleton. intros ->.
    pose proof (NoDup_lookup ids i j _ (bo_ids _ _ Hbatch) Hid Hidj). lia.
  - intros x Hx. destruct (tl_authorised0 x Hx) as (c' & ? & ? & ?).
    exists c'. split_and!; [done..|by apply authorised_app].
Qed.

Lemma complete_ends error k i s :
  Tail k i s → i ≤ length calls →
  ends (complete_pending value_to_string turn_error_to_string env error (drop i calls)) s
    (λ _ s', Tail k (length calls) s') (λ _, False).
Proof.
  remember (length calls - i) as n eqn:Hn. revert i s Hn.
  induction n as [|n IH]; intros i s Hn Ht Hi.
  { assert (i = length calls) as -> by lia. rewrite drop_all. by apply ends_ret. }
  destruct (lookup_lt_is_Some_2 calls i) as [c Hc]; [lia|]. rewrite (drop_S _ _ _ Hc).
  assert (ids !! i = Some (pi_call_id c)) as Hid by (by rewrite list_lookup_fmap, Hc).
  cbn [complete_pending]. apply ends_then. unfold ends at 1; simpl.
  pose proof (tl_uncommitted _ _ _ Ht i _ (le_n i) Hid) as Hu.
  case_bool_decide as Hin.
  { apply IH; [lia| |lia]. apply (Tail_skip k i s s); [done..| |done]. left.
    assert (i < k) by (destruct (decide (i < k)); [done|]; exfalso; apply Hin, Hu; lia). lia. }
  apply Hu in Hin as Hk.
  unfold ends at 1.
  set (o := match error with Turn_Aborted => _ | _ => _ end).
  destruct (finish_cases c o s) as [(e & Hf & He)|(err & Hf & He)]; rewrite Hf.
  - apply (IH (S i)); [lia| |lia]. apply (Tail_finish k i c e (ticked s)); [done..|].
    destruct Ht. constructor; done.
  - apply (IH (S i)); [lia| |lia]. apply (Tail_skip k i s (ticked s)); [done..| |done]. by right.
Qed.

(** The whole of [execute_and_commit]. *)
Lemma execute_and_commit_ends :
  ends (execute_and_commit value_to_string debug_str encode_history turn_error_to_string
          parses_as_image services env max_parallel calls) s0
    (λ _ s', Inv (length calls) (length calls) (length calls) s')
    (λ s', ∃ k, Tail k (length calls) s').
Proof.
  unfold execute_and_commit, ends. simpl.
  set (s1 := set_uncommitted (list_to_set ids) s0).
  assert (Inv 0 0 0 s1) as Hi.
  { assert (new_log s1 = []) as Hn by apply drop_all.
    assert (new_executed s1 = []) as Hx by apply drop_all.
    constructor; rewrite ?Hn, ?Hx, ?app_nil_r; try done; [by intros ? ?%not_elem_of_nil|].
    intros i c Hi. lia. }
  pose proof (loop_ends 0 0 s1 Hi (le_n 0) ltac:(lia) ltac:(intros ???; lia)) as Hl.
  unfold execute_declared_batch. rewrite slice_nil, drop_0 in Hl by lia.
  unfold ends in Hl. revert Hl.
  destruct (execute_loop _ _ _ _ _ _ _ [] calls s1) as [[a|e|] s2]; intros Hl; [done| |done].
  destruct Hl as (k & m & p & Hi2).
  pose proof (complete_ends e k 0 s2 (Inv_Tail _ _ _ _ Hi2) ltac:(lia)) as Ht.
  rewrite drop_0 in Ht. unfold ends in Ht. revert Ht.
  destruct (complete_pending _ _ _ _ _ _) as [[a|e'|] s3]; intros Ht; [by exists k|done..].
Qed.

End settle.

(** ** The preparation registers every batch properly *)

Section prepared.
  Context (value_to_string : Value → string) (services : ToolServices) (shared : SharedTurnContext).

Lemma admit_not_reuse tc input memory plan disposition :
  admit_call services shared tc input memory = Ok (plan, disposition) →
  disposition ≠ Disposition_ReuseSameStep.
Proof.
  unfold admit_call. destruct (emit_pre_tool_use _ _ _ _) as [admission|]; [|done].
  assert (∀ l a d, (hook_requirements memory a l).2 = Some d → d ≠ Disposition_ReuseSameStep) as Hh.
  { induction l as [|r l IH]; intros a d; simpl; [done|].
    destruct (pt_rule_key r); [|apply IH]. destruct (is_denied_always _ _); [by intros [= <-]|].
    destruct (is_allowed_always _ _); apply IH. }
  assert (∀ a r, compose_permission_resolution a r ≠ Disposition_ReuseSameStep) as Hc.
  { intros a []; simpl; [by destruct a|done|done]. }
  destruct admission as [|l|reason]; simpl; try (by intros [= <- <-]).
  - destruct (plan_tool _ _ _ _); intros [= <- <-]; [apply Hc|done].
  - specialize (Hh l []). destruct (hook_requirements memory [] l) as [a [d|]]; simpl in *.
    + intros [= <- <-]. by apply Hh.
    + destruct (plan_tool _ _ _ _); intros [= <- <-]; [apply Hc|done].
Qed.

(** One preparation leaves the registry alone, or registers the call. *)
Lemma prepare_single_cases tc index tools memory d c d' :
  prepare_single_tool_call value_to_string services shared tc index tools memory d = (Ok c, d') →
  pi_call_id c = st_call_id tc ∧
  ((d' = d ∧ reuses c = false) ∨
   ∃ input, check_same_step value_to_string d (st_call_id tc) (st_name tc) input
            = (if reuses c then Check_Duplicate else Check_Primary, d')).
Proof.
  unfold prepare_single_tool_call.
  destruct (parse_and_repair_json _ _ _) as [args|error]; [|intros [= <- <-]; auto].
  destruct (negb _); [intros [= <- <-]; auto|].
  destruct (transform_tool_input _ _ _ _) as [input0|]; [|done].
  destruct (normalize_final_arguments _ _ _) as [input failure].
  assert (∀ plan disposition,
    (match failure with
     | Some error => Ok (ToolPlan_default,
         Disposition_Rejected ("failed to normalize final tool arguments: " +:+ error))
     | None => admit_call services shared tc input memory
     end) = Ok (plan, disposition) → disposition ≠ Disposition_ReuseSameStep) as Hnr.
  { intros plan disposition. destruct failure; [by intros [= <- <-]|]. apply admit_not_reuse. }
  destruct (match failure with Some _ => _ | None => _ end) as [[plan disposition]|]; [|done].
  specialize (Hnr plan disposition eq_refl).
  destruct (check_same_step _ _ _ _ _) as [chk d1] eqn:Hchk. intros [= <- <-]. simpl.
  split; [done|]. right. exists input. rewrite Hchk. unfold reuses; simpl.
  destruct chk; [|done]. by destruct disposition.
Qed.

(** What holds of the calls prepared so far and the registry. *)
Record prep_inv (calls : list PreparedToolInvocation) (d : ToolCallDeduplicator) : Prop := {
  pv_known : ∀ id key, td_call_key_by_call_id d !! id = Some key → id ∈ pi_call_id <$> calls;
  pv_owner : ∀ key e, td_same_step_in_flight d !! key = Some e →
    ∃ j c, calls !! j = Some c ∧ reuses c = false ∧ sf_primary_call_id e = pi_call_id c
      ∧ td_call_key_by_call_id d !! pi_call_id c = Some key;
  pv_dups : ∀ i c, calls !! i = Some c → reuses c = true →
    ∃ key e j c', td_call_key_by_call_id d !! pi_call_id c = Some key
      ∧ td_same_step_in_flight d !! key = Some e
      ∧ calls !! j = Some c' ∧ j < i ∧ reuses c' = false
      ∧ sf_primary_call_id e = pi_call_id c'
      ∧ td_call_key_by_call_id d !! pi_call_id c' = Some key;
}.

Lemma prep_inv_begin d : prep_inv [] (dedup_begin_step d).
Proof. split; simpl; [by intros ?? ?%lookup_empty_Some..|done]. Qed.

(** A registry that only grows keeps what was known. *)
Lemma prep_inv_grow calls c d d' :
  prep_inv calls d →
  (∀ id key, td_call_key_by_call_id d !! id = Some key → td_call_key_by_call_id d' !! id = Some key) →
  (∀ key e, td_same_step_in_flight d !! key = Some e → td_same_step_in_flight d' !! key = Some e) →
  (∀ id key, td_call_key_by_call_id d' !! id = Some key →
     id = pi_call_id c ∨ td_call_key_by_call_id d !! id = Some key) →
  (∀ key e, td_same_step_in_flight d' !! key = Some e → td_same_step_in_flight d !! key = Some e ∨
     (reuses c = false ∧ sf_primary_call_id e = pi_call_id c
      ∧ td_call_key_by_call_id d' !! pi_call_id c = Some key)) →
  (reuses c = true → ∃ key, td_call_key_by_call_id d' !! pi_call_id c = Some key
     ∧ is_Some (td_same_step_in_flight d !! key)) →
  prep_inv (calls ++ [c]) d'.
Proof.
  intros [Hknown Howner Hdups] Hid Hfl Hid' Hfl' Hre. split.
  - intros id key Hk. rewrite fmap_app, elem_of_app. destruct (Hid' id key Hk) as [->|Hk'].
    + right. simpl. by left.
    + left. by eapply Hknown.
  - intros key e He. destruct (Hfl' key e He) as [He'|(Hr & Hp & Hk)].
    + destruct (Howner key e He') as (j & c' & Hj & ? & ? & ?).
      exists j, c'. split_and!; auto. by apply lookup_app_l_Some.
    + exists (length calls), c. split_and!; auto. by rewrite lookup_app_r, Nat.sub_diag by lia.
  - intros i c0 Hi Hr. apply lookup_app_Some in Hi as [Hi|[Hlen Hi]].
    + destruct (Hdups i c0 Hi Hr) as (key & e & j & c' & ? & ? & Hj & ? & ? & ? & ?).
      exists key, e, j, c'. split_and!; auto. by apply lookup_app_l_Some.
    + destruct (i - length calls) as [|n] eqn:Hn; [|done]. simpl in Hi. simplify_eq.
      destruct (Hre Hr) as (key & Hk & e & He).
      destruct (Howner key e He) as (j & c' & Hj & ? & ? & ?).
      exists key, e, j, c'. split_and!; auto.
      * by apply lookup_app_l_Some.
      * apply lookup_lt_Some in Hj. lia.
Qed.

Lemma prepare_single_inv tc index tools memory calls d c d' :
  prep_inv calls d → st_call_id tc ∉ pi_call_id <$> calls →
  prepare_single_tool_call value_to_string services shared tc index tools memory d = (Ok c, d') →
  prep_inv (calls ++ [c]) d'.
Proof.
  intros Hinv Hnew Hp. apply prepare_single_cases in Hp as [Hid [[-> Hr]|[input Hc]]].
  { apply (prep_inv_grow calls c d d Hinv); auto. congruence. }
  assert (td_call_key_by_call_id d !! pi_call_id c = None) as Hnone.
  { apply eq_None_not_Some. intros [k Hk%(pv_known _ _ Hinv)]. congruence. }
  unfold check_same_step in Hc. rewrite <-Hid in Hc.
  set (key := make_call_key value_to_string (st_name tc) input) in *.
  assert (∀ id k, td_call_key_by_call_id d !! id = Some k → pi_call_id c ≠ id) as Hne
    by (intros; congruence).
  destruct (td_same_step_in_flight d !! key) as [e|] eqn:He; destruct (reuses c) eqn:Hr;
    simplify_eq/=; apply (prep_inv_grow calls c d _ Hinv); simpl; auto.
  - intros id k Hk. by rewrite lookup_insert_ne by eauto.
  - intros id k. rewrite lookup_insert_Some. naive_solver.
  - intros _. exists key. rewrite lookup_insert_eq, He. split; [done|by eexists].
  - intros id k Hk. by rewrite lookup_insert_ne by eauto.
  - intros k e Hk. rewrite lookup_insert_ne; [done|]. congruence.
  - intros id k. rewrite lookup_insert_Some. naive_solver.
  - intros k e. rewrite lookup_insert_Some. intros [[<- <-]|[_ ?]]; [|by left]. right.
    by rewrite lookup_insert_eq.
  - congruence.
Qed.

Lemma prepare_calls_inv tcs index tools memory done_ d calls d' :
  prep_inv done_ d → NoDup ((pi_call_id <$> done_) ++ (st_call_id <$> tcs)) →
  prepare_calls value_to_string services shared index tcs tools memory d = (Ok calls, d') →
  prep_inv (done_ ++ calls) d' ∧ pi_call_id <$> calls = st_call_id <$> tcs.
Proof.
  revert index done_ d calls d'. induction tcs as [|tc tcs IH]; intros index done_ d calls d' Hinv Hnd.
  { intros [= <- <-]. rewrite app_nil_r. done. }
  simpl. destruct (prepare_single_tool_call _ _ _ _ _ _ _ _) as [[c|] d1] eqn:Hp; [|done].
  destruct (prepare_calls _ _ _ _ _ _ _ _) as [[cs|] d2] eqn:Hps; [|done]. intros [= <- <-].
  assert (pi_call_id c = st_call_id tc) as Hid by (by apply prepare_single_cases in Hp as [? _]).
  rewrite fmap_cons in Hnd. pose proof Hnd as (_ & Hdis & _)%NoDup_app.
  assert (st_call_id tc ∉ pi_call_id <$> done_) as Hnew.
  { intros Hin. apply (Hdis _ Hin). by left. }
  destruct (IH (index + 1)%N (done_ ++ [c]) d1 cs d2) as [Hinv2 Hids].
  - by eapply prepare_single_inv.
  - rewrite fmap_app. change (pi_call_id <$> [c]) with [pi_call_id c]. rewrite Hid, <-app_assoc. done.
  - done.
  - rewrite <-app_assoc in Hinv2. split; [done|]. simpl. f_equal; [exact Hid|exact Hids].
Qed.

(** A step's calls with different ids give a well-registered batch. *)
Lemma prepare_batch_ok tcs tools memory d calls d' :
  NoDup (st_call_id <$> tcs) →
  prepare_tool_batch value_to_string services shared tcs tools memory (dedup_begin_step d)
    = (Ok calls, d') →
  batch_ok calls d' ∧ pi_call_id <$> calls = st_call_id <$> tcs.
Proof.
  intros Hnd Hp. destruct (prepare_calls_inv tcs 0 tools memory [] (dedup_begin_step d) calls d'
    (prep_inv_begin d) Hnd Hp) as [[_ _ Hdups] Hids].
  split; [|done]. split; [by rewrite Hids|done].
Qed.

End prepared.
