(* ===== verification/ToolStep.v ===== *)
(** * The tool calls of a step, from the provider's stream to their events

    The properties of the pipeline as a whole: [ToolPrepare.prepare_tool_batch] followed by
    [ToolExecute.execute_and_commit], and the repetition counter of [ToolPrepare]. *)

From S2P Require Import Prelude Utf8 StdPath CoreTypes CoreAccess CoreLlm CoreEvent PermPolicy PermChain ToolPrepare ToolExecute ToolSettle.

(** ** What permission a prepared call has *)

Section step.
  Context (value_to_string : Value → string) (debug_str : string → string)
    (encode_history : ApprovalHistoryFile → string)
    (turn_error_to_string : TurnError → string) (parses_as_image : string → bool).
  Context (services : ToolServices) (shared : SharedTurnContext) (env : Environment)
    (max_parallel : N).

  Abbreviation prepare := (prepare_tool_batch value_to_string services shared).
  Abbreviation run := (execute_and_commit value_to_string debug_str encode_history
    turn_error_to_string parses_as_image services env max_parallel).

(** The permission chain did not refuse the call, and if it asked, the log holds an approving
    decision for each of its questions. *)
Definition cleared (memory : ApprovalMemory) (c : PreparedToolInvocation)
    (log : list DurableEventPayload) : Prop :=
  match evaluate_permission_chain shared (pi_name c) (pi_tool_input c) (pi_plan c) memory with
  | Resolution_Deny _ => False
  | Resolution_Allow => True
  | Resolution_Ask requirements =>
    ∃ pre, pre `prefix_of` log
      ∧ length requirements ≤ length (omap (resolved_decision (pi_call_id c)) pre)
      ∧ Forall (λ d, ApprovalDecision_allows d = true) (omap (resolved_decision (pi_call_id c)) pre)
  end.

(** How the disposition of an admitted call follows from the chain. *)
Definition chain_backed (memory : ApprovalMemory) (c : PreparedToolInvocation) : Prop :=
  let resolution :=
    evaluate_permission_chain shared (pi_name c) (pi_tool_input c) (pi_plan c) memory in
  match pi_disposition c with
  | Disposition_Execute => resolution = Resolution_Allow
  | Disposition_AwaitApprovals l =>
    resolution = Resolution_Allow ∨
    ∃ requirements, resolution = Resolution_Ask requirements ∧ length requirements ≤ length l
  | _ => True
  end.

Lemma admit_backed tc input memory plan disposition :
  admit_call services shared tc input memory = Ok (plan, disposition) →
  let resolution := evaluate_permission_chain shared (st_name tc) input plan memory in
  match disposition with
  | Disposition_Execute => resolution = Resolution_Allow
  | Disposition_AwaitApprovals l =>
    resolution = Resolution_Allow ∨
    ∃ requirements, resolution = Resolution_Ask requirements ∧ length requirements ≤ length l
  | _ => True
  end.
Proof.
  unfold admit_call. destruct (emit_pre_tool_use _ _ _ _) as [admission|]; [|done].
  assert (∀ l a d, (hook_requirements memory a l).2 = Some d → ∃ e, d = Disposition_Rejected e) as Hh.
  { induction l as [|r l IH]; intros a d; simpl; [done|].
    destruct (pt_rule_key r); [|apply IH]. destruct (is_denied_always _ _); [intros [= <-]; eauto|].
    destruct (is_allowed_always _ _); apply IH. }
  assert (∀ approvals, match compose_permission_resolution approvals
      (evaluate_permission_chain shared (st_name tc) input plan memory) with
    | Disposition_Execute =>
      evaluate_permission_chain shared (st_name tc) input plan memory = Resolution_Allow
    | Disposition_AwaitApprovals l =>
      evaluate_permission_chain shared (st_name tc) input plan memory = Resolution_Allow ∨
      ∃ requirements, evaluate_permission_chain shared (st_name tc) input plan memory
        = Resolution_Ask requirements ∧ length requirements ≤ length l
    | _ => True
    end) as Hc.
  { intros approvals. destruct (evaluate_permission_chain _ _ _ _ _) as [|reason|reqs]; simpl.
    - destruct approvals; auto.
    - done.
    - right. exists reqs. split; [done|]. rewrite length_app, length_fmap. lia. }
  destruct admission as [|l|reason]; simpl; try (by intros [= <- <-]).
  - destruct (plan_tool _ _ _ _) as [pl|]; [|by intros [= <- <-]]. intros [= -> <-]. apply Hc.
  - specialize (Hh l []). destruct (hook_requirements memory [] l) as [a [d|]]; simpl in *.
    + intros [= <- <-]. by destruct (Hh d eq_refl) as [e ->].
    + destruct (plan_tool _ _ _ _) as [pl|]; [|by intros [= <- <-]]. intros [= -> <-]. apply Hc.
Qed.

Lemma prepare_single_backed tc index tools memory d c d' :
  prepare_single_tool_call value_to_string services shared tc index tools memory d = (Ok c, d') →
  chain_backed memory c ∧
  (pi_name c ∈ tools ∨ ∃ e, pi_disposition c = Disposition_Rejected e).
Proof.
  unfold prepare_single_tool_call.
  destruct (parse_and_repair_json _ _ _) as [args|error];
    [|intros [= <- <-]; split; [done|right; eexists; reflexivity]].
  destruct (tool_is_visible tools (st_name tc)) eqn:Hvis; simpl;
    [|intros [= <- <-]; split; [done|right; eexists; reflexivity]].
  destruct (transform_tool_input _ _ _ _) as [input0|]; [|done].
  destruct (normalize_final_arguments _ _ _) as [input failure].
  destruct (match failure with Some _ => _ | None => _ end) as [[plan disposition]|] eqn:Hadm; [|done].
  destruct (check_same_step _ _ _ _ _) as [chk d1]. intros [= <- <-]. split.
  - unfold chain_backed; simpl. destruct chk; [|done].
    destruct failure; [by simplify_eq|]. by apply admit_backed in Hadm.
  - left. simpl. unfold tool_is_visible in Hvis. by apply existsb_eq_spec.
Qed.

Lemma prepare_calls_backed tcs index tools memory d calls d' c :
  prepare_calls value_to_string services shared index tcs tools memory d = (Ok calls, d') →
  c ∈ calls →
  chain_backed memory c ∧
  (pi_name c ∈ tools ∨ ∃ e, pi_disposition c = Disposition_Rejected e).
Proof.
  revert index d calls d'. induction tcs as [|tc tcs IH]; intros index d calls d'; simpl.
  { intros [= <- <-] ?%not_elem_of_nil. done. }
  destruct (prepare_single_tool_call _ _ _ _ _ _ _ _) as [[c0|] d1] eqn:Hp; [|done].
  destruct (prepare_calls _ _ _ _ _ _ _ _) as [[cs|] d2] eqn:Hps; [|done].
  intros [= <- <-] [->|Hc]%elem_of_cons; [by eapply prepare_single_backed|by eapply IH].
Qed.

Lemma authorised_cleared memory c log :
  chain_backed memory c → authorised c log → cleared memory c log.
Proof.
  unfold chain_backed, authorised, cleared. destruct (pi_disposition c); try done; [by intros ->|].
  intros [->|(reqs & -> & Hlen)] (pre & ? & ? & ?); [done|].
  exists pre. split_and!; [done|lia|done].
Qed.


(** C3. A tool runs only with permission: whatever a step runs, it runs once, it is a call of
    the batch to a tool the provider was offered, the permission chain did not refuse it, and
    when the chain asked, the user approved every one of its questions, on record before the
    step went on. *)
Theorem tools_run_with_permission tcs tools memory d calls s :
  NoDup (st_call_id <$> tcs) →
  prepare tcs tools memory (dedup_begin_step d) = (Ok calls, ss_dedup s) →
  let s' := (run calls s).2 in
  ∃ ran new, ss_executed s' = ss_executed s ++ ran ∧ ss_log s' = ss_log s ++ new
    ∧ NoDup (ei_call_id <$> ran)
    ∧ ∀ x, x ∈ ran → ∃ c, c ∈ calls ∧ x = to_executable c ∧ pi_name c ∈ tools
        ∧ cleared memory c new.
Proof.
  intros Hnd Hp s'. pose proof Hp as Hback. apply prepare_batch_ok in Hp as [Hok _]; [|done].
  assert (∃ ran new, ss_executed s' = ss_executed s ++ ran ∧ ss_log s' = ss_log s ++ new
    ∧ ei_call_id <$> ran `sublist_of` pi_call_id <$> calls
    ∧ ∀ x, x ∈ ran → ∃ c, c ∈ calls ∧ x = to_executable c ∧ authorised c new)
    as (ran & new & Hx & Hl & Hsub & Hauth).
  { pose proof (execute_and_commit_ends value_to_string debug_str encode_history
      turn_error_to_string parses_as_image services env max_parallel calls s Hok) as H.
    unfold ends in H. unfold s'. revert H. destruct (run calls s) as [[a|e|] s1]; [|..|done].
    - intros []. eexists _, _. split_and!; [exact inv_executed|exact inv_log| |done].
      rewrite <-(take_ge (pi_call_id <$> calls) (length calls)); [done|by rewrite length_fmap].
    - intros [k []]. eexists _, _. split_and!; [exact tl_executed|exact tl_log|done|done]. }
  exists ran, new. split_and!; [done..| |].
  - eapply sublist_NoDup; [apply (bo_ids _ _ Hok)|exact Hsub].
  - intros x Hin. destruct (Hauth x Hin) as (c & Hc & -> & Ha). exists c.
    destruct (prepare_calls_backed _ _ _ _ _ _ _ _ Hback Hc) as [Hcb Hvis].
    split_and!; [done..| |by eapply authorised_cleared].
    destruct Hvis as [?|[e He]]; [done|]. unfold authorised in Ha. by rewrite He in Ha.
Qed.

End step.

(** ** A concrete step *)

Module StepSample.

Definition text (v : Value) : string := match v with JString s => s | _ => "{}" end.

(** A registry of two tools; reading may run in parallel, the shell controls a process. *)
Definition services : ToolServices :=
  {| parse_and_repair_json := λ raw _, Ok (JString raw);
     list_definitions := ["read"; "shell"];
     transform_tool_input := λ _ _ v, Ok v;
     normalize_final_arguments := λ _ v, (v, None);
     emit_pre_tool_use := λ _ _ _, Ok Admission_Allow;
     plan_tool := λ _ name _,
       Ok {| tp_resources := if bool_decide (name = "shell") then [Access_Host Host_Process] else [] |};
     execution_mode := λ name, if bool_decide (name = "read") then Mode_Parallel else Mode_Sequential;
     deferred_discovery_gate := λ _, None;
     deferred_discovery_group := λ _, None |}.

Definition shared : SharedTurnContext :=
  {| tc_working_dir := "/project"; tc_approval_mode := ApprovalMode_Manual;
     tc_tool_selection := None;
     tc_permission_chain := build_default_chain Sample.build Sample.matches Sample.text
       Sample.canonicalize Sample.exists_ Sample.permissions |}.

(** Tools complete, the user approves once, nothing is cancelled. *)
Definition result_of (x : ExecutableToolInvocation) : ToolExecutionOutcome :=
  Outcome_Completed
    {| rc_result := {| tr_content := ei_name x; tr_is_error := false; tr_error := None;
                       tr_metadata := ∅; tr_duration_ms := Some 1%N |};
       rc_discovered_tool_names := []; rc_artifact_state := Artifact_Inline |}.
Definition env : Environment :=
  {| env_publish := λ _ _, Ok tt; env_cancelled := λ _, false;
     env_register_approval := λ _ _, Ok tt;
     env_approval_answer := λ _, Answer_Decision AllowOnce;
     env_history_answer := λ _, Persist_done;
     env_run_tool := λ _ x, result_of x; env_next_task := λ n, n; env_join := λ _, Ok tt;
     env_post_tool_use := λ _ _ _, Ok Post_Allow;
     env_write_artifact := λ _ _ _ _, Ok {| ar_bytes := 0; ar_artifact_id := "a" |} |}.

(** Two reads, the first one repeated, and a shell command. *)
Definition streamed : list StreamedToolCall :=
  [{| st_call_id := "c1"; st_name := "read"; st_arguments := "x" |};
   {| st_call_id := "c2"; st_name := "read"; st_arguments := "y" |};
   {| st_call_id := "c3"; st_name := "read"; st_arguments := "x" |};
   {| st_call_id := "c4"; st_name := "shell"; st_arguments := "ls" |}].

Definition prepared := prepare_tool_batch text services shared streamed ["read"; "shell"]
  (memory_of Sample.store) (dedup_begin_step ToolCallDeduplicator_new).
Definition calls : list PreparedToolInvocation :=
  match prepared with (Ok calls, _) => calls | _ => [] end.
Definition state : StepState :=
  {| ss_clock := 0; ss_log := []; ss_dedup := prepared.2; ss_history := Sample.store;
     ss_disk := ∅; ss_executed := []; ss_uncommitted := ∅ |}.

Definition run := execute_and_commit text (λ s, s) sample_encode (λ _, "error") (λ _, false)
  services env 2 calls state.

(** The repeated read shares the outcome of the first one and does not run. *)
Example run_executes : ei_call_id <$> ss_executed run.2 = ["c1"; "c2"; "c4"].
Proof. by vm_compute. Qed.

End StepSample.


Lemma tools_run_with_permission_witness :
  ∃ ran new, ss_executed StepSample.run.2 = [] ++ ran ∧ ss_log StepSample.run.2 = [] ++ new
    ∧ NoDup (ei_call_id <$> ran)
    ∧ ∀ x, x ∈ ran → ∃ c, c ∈ StepSample.calls ∧ x = to_executable c ∧ pi_name c ∈ ["read"; "shell"]
        ∧ cleared StepSample.shared (memory_of Sample.store) c new.
Proof.
  apply (tools_run_with_permission StepSample.text (λ s, s) sample_encode (λ _, "error")
    (λ _, false) StepSample.services StepSample.shared StepSample.env 2 StepSample.streamed
    ["read"; "shell"] (memory_of Sample.store) ToolCallDeduplicator_new StepSample.calls
    StepSample.state).
  - apply (bool_decide_unpack _). by vm_compute.
  - by vm_compute.
Defined.

(** ** Hooks and results *)

(** The contract of [PostToolUseResult::ModifyResult] is that only the text changes and the
    other fields, [error] among them, stay; the code rewrites [error] too. *)
Theorem modify_result_rewrites_error :
  ∃ r content,
    tr_error (rc_result (post_tool_use_result r (Post_ModifyResult content)))
    ≠ tr_error (rc_result r).
Proof.
  exists {| rc_result := {| tr_content := "exit 1"; tr_is_error := true;
                            tr_error := Some "command failed"; tr_metadata := ∅;
                            tr_duration_ms := None |};
            rc_discovered_tool_names := []; rc_artifact_state := Artifact_Inline |},
         "redacted".
  by vm_compute.
Qed.

(** ** Repetition across steps *)

(** The run of equal keys at the end of a list, the newest first. *)
Fixpoint last_run (newest_first : list string) : option (string * N) :=
  match newest_first with
  | [] => None
  | key :: l =>
    match last_run l with
    | Some (key', n) => if bool_decide (key' = key) then Some (key, (n + 1)%N) else Some (key, 1%N)
    | None => Some (key, 1%N)
    end
  end.

(** The keys of a step reach the counter when it ends. *)
Definition step_ends (d : ToolCallDeduplicator) (keys : list string) : ToolCallDeduplicator :=
  end_step {| td_same_step_in_flight := td_same_step_in_flight d;
              td_call_key_by_call_id := td_call_key_by_call_id d; td_step_call_keys := keys;
              td_consecutive_key := td_consecutive_key d;
              td_consecutive_count := td_consecutive_count d |}.

Definition counts (d : ToolCallDeduplicator) (r : option (string * N)) : Prop :=
  match r with
  | Some (key, n) => td_consecutive_key d = Some key ∧ td_consecutive_count d = n
  | None => td_consecutive_key d = None ∧ td_consecutive_count d = 0%N
  end.

Lemma last_run_bound l key n : last_run l = Some (key, n) → (n ≤ N.of_nat (length l))%N.
Proof.
  revert key n. induction l as [|k l IH]; intros key n; simpl; [done|].
  destruct (last_run l) as [[k' m]|]; [|intros; simplify_eq; lia].
  specialize (IH k' m eq_refl). case_bool_decide; intros; simplify_eq; lia.
Qed.

Lemma end_step_key_counts d l key :
  (N.of_nat (length (key :: l)) ≤ u32_max)%N →
  counts d (last_run l) → counts (end_step_key d key) (last_run (key :: l)).
Proof.
  intros Hlen Hc. unfold end_step_key. simpl last_run.
  destruct (last_run l) as [[k' n]|] eqn:Hl; simpl in Hc; destruct Hc as [Hk Hn].
  - apply last_run_bound in Hl. rewrite Hk, Hn. destruct (decide (k' = key)) as [->|Hne].
    + rewrite !bool_decide_true by done. split; simpl; [done|].
      rewrite wrapping_add_small; [done|]. simpl length in Hlen. lia.
    + rewrite !bool_decide_false by congruence. done.
  - rewrite Hk, bool_decide_false by done. done.
Qed.

Lemma end_step_keys_counts keys d l :
  (N.of_nat (length (rev keys ++ l)) ≤ u32_max)%N →
  counts d (last_run l) → counts (foldl end_step_key d keys) (last_run (rev keys ++ l)).
Proof.
  revert d l. induction keys as [|key keys IH]; intros d l Hlen Hc; simpl; [done|].
  rewrite <-app_assoc. simpl in *. rewrite <-app_assoc in Hlen.
  apply (IH _ (key :: l)); [done|]. apply end_step_key_counts; [|done].
  rewrite length_app in Hlen. simpl in *. lia.
Qed.

(** The reminder counts the calls that repeat at the end of the whole sequence of calls:
    after any steps the counter is the length of the run of equal keys at the end of all keys
    of all steps, not of the last call of each step. *)
Theorem repetition_counts_trailing_run steps :
  (N.of_nat (length (concat steps)) ≤ u32_max)%N →
  counts (foldl step_ends ToolCallDeduplicator_new steps) (last_run (rev (concat steps))).
Proof.
  assert (∀ steps d l, (N.of_nat (length (rev (concat steps) ++ l)) ≤ u32_max)%N →
    counts d (last_run l) →
    counts (foldl step_ends d steps) (last_run (rev (concat steps) ++ l))) as Hgen.
  { clear. induction steps as [|keys steps IH]; intros d l Hlen Hc; simpl; [done|].
    rewrite rev_app_distr, <-app_assoc. simpl in Hlen. rewrite rev_app_distr, <-app_assoc in Hlen.
    apply IH; [done|].
    assert (counts (foldl end_step_key
      {| td_same_step_in_flight := td_same_step_in_flight d;
         td_call_key_by_call_id := td_call_key_by_call_id d; td_step_call_keys := keys;
         td_consecutive_key := td_consecutive_key d;
         td_consecutive_count := td_consecutive_count d |} keys) (last_run (rev keys ++ l))) as H.
    { apply end_step_keys_counts; [rewrite length_app in Hlen; lia|].
      destruct (last_run l) as [[??]|]; exact Hc. }
    unfold counts in *. by destruct (last_run (rev keys ++ l)) as [[??]|]. }
  intros Hlen. rewrite <-(app_nil_r (rev (concat steps))). apply Hgen; [|done].
  by rewrite app_nil_r, length_rev.
Qed.

Lemma repetition_counts_trailing_run_witness :
  counts (foldl step_ends ToolCallDeduplicator_new [["a"]; ["b"; "a"]; ["c"; "a"]])
    (Some ("a", 1%N)).
Proof. by apply (repetition_counts_trailing_run [["a"]; ["b"; "a"]; ["c"; "a"]]). Defined.
