(* ===== verification/AiStream.v ===== *)
(** * Decoding the byte stream of a provider

    [astrcode-ai/src/stream_decoder.rs] and the text accumulator and end-of-stream guard of
    [common.rs]: bytes arrive in chunks of any size, become text, and text becomes lines.
    Text is its UTF-8 bytes; log output is left out. *)

From S2P Require Import Prelude Utf8 StdPath StdStr.

Definition MAX_STREAM_BUFFER_BYTES : N := 16 * 1024 * 1024.

Inductive StreamDecoderError := BufferOverflow.

Definition overflows (buffered text : bytes) : bool :=
  bool_decide (MAX_STREAM_BUFFER_BYTES
               < saturating_add usize_max (N.of_nat (length buffered)) (N.of_nat (length text)))%N.

(** ** Lines *)

Abbreviation lf := (ascii_of_N 10).
Abbreviation cr := (ascii_of_N 13).

(** [trim_end_matches] for carriage returns. *)
Fixpoint strip_cr (reversed : bytes) : bytes :=
  match reversed with
  | c :: r => if bool_decide (c = cr) then strip_cr r else reversed
  | [] => []
  end.
Definition trim_end_cr (line : bytes) : bytes := reverse (strip_cr (reverse line)).

(** [buffer.find] of a newline, with the text before and behind it. *)
Fixpoint find_newline (buffer : bytes) : option (bytes * bytes) :=
  match buffer with
  | [] => None
  | c :: r =>
    if bool_decide (c = lf) then Some ([], r)
    else match find_newline r with
    | Some (line, rest) => Some (c :: line, rest)
    | None => None
    end
  end.

(** The loop that takes lines from the buffer; each takes at least the newline. *)
Fixpoint drain_lines (fuel : nat) (buffer : bytes) : list bytes * bytes :=
  match fuel with
  | O => ([], buffer)
  | S fuel =>
    match find_newline buffer with
    | Some (line, rest) =>
      let '(lines, buffer) := drain_lines fuel rest in (trim_end_cr line :: lines, buffer)
    | None => ([], buffer)
    end
  end.

(** [SseLineReader::push_chunk] on the buffer: the lines and the new buffer. *)
Definition push_chunk (buffer text : bytes) : result (list bytes) StreamDecoderError * bytes :=
  if overflows buffer text then (Err BufferOverflow, buffer)
  else
    let '(lines, buffer) := drain_lines (length (buffer ++ text)) (buffer ++ text) in
    (Ok lines, buffer).

(** [SseLineReader::flush]: the trimmed rest, if any; the buffer is empty afterwards. *)
Definition line_reader_flush (buffer : bytes) : option bytes :=
  let trimmed := String.list_ascii_of_string (trim (String.string_of_list_ascii buffer)) in
  match trimmed with [] => None | _ => Some trimmed end.

(** ** Text *)

(** U+FFFD. *)
Definition REPLACEMENT_CHARACTER : bytes := [ascii_of_N 239; ascii_of_N 191; ascii_of_N 189].

(** [valid_utf8_prefix]. *)
Definition valid_utf8_prefix (b : bytes) : bytes := if utf8_valid b then b else [].

(** The loop of [decode_available]: the text and what stays pending.  Each round but the last
    consumes the invalid sequence it replaces. *)
Fixpoint decode_available (fuel : nat) (decoded pending : bytes) : bytes * bytes :=
  match fuel with
  | O => (decoded, pending)
  | S fuel =>
    match utf8_error 0 pending with
    | None => (decoded ++ pending, [])
    | Some (valid_up_to, error_len) =>
      let v := N.to_nat valid_up_to in
      let decoded := decoded ++ valid_utf8_prefix (take v pending) in
      match error_len with
      | None =>
        match decoded with
        | [] => ([], pending)
        | _ => (decoded, drop v pending)
        end
      | Some invalid_len =>
        let decoded := decoded ++ REPLACEMENT_CHARACTER in
        let pending := drop (v + N.to_nat invalid_len) pending in
        match pending with
        | [] => (decoded, [])
        | _ => decode_available fuel decoded pending
        end
      end
    end
  end.

(** [Utf8StreamDecoder::push]. *)
Definition decoder_push (pending chunk : bytes)
    : result (option bytes) StreamDecoderError * bytes :=
  match chunk with
  | [] => (Ok None, pending)
  | _ =>
    if overflows pending chunk then (Err BufferOverflow, pending)
    else
      let all := pending ++ chunk in
      let '(decoded, pending) := decode_available (S (length all)) [] all in
      (Ok (match decoded with [] => None | _ => Some decoded end), pending)
  end.

(** The loop of [finish]: an incomplete tail is replaced too. *)
Fixpoint finish_loop (fuel : nat) (decoded pending : bytes) : bytes :=
  match fuel with
  | O => decoded
  | S fuel =>
    match utf8_error 0 pending with
    | None => decoded ++ pending
    | Some (valid_up_to, error_len) =>
      let v := N.to_nat valid_up_to in
      let decoded := decoded ++ valid_utf8_prefix (take v pending) ++ REPLACEMENT_CHARACTER in
      match error_len with
      | None => decoded
      | Some invalid_len =>
        match drop (v + N.to_nat invalid_len) pending with
        | [] => decoded
        | pending => finish_loop fuel decoded pending
        end
      end
    end
  end.

(** [Utf8StreamDecoder::finish]; nothing is pending afterwards. *)
Definition decoder_finish (pending : bytes) : option bytes :=
  match pending with
  | [] => None
  | _ =>
    match finish_loop (S (length pending)) [] pending with
    | [] => None
    | decoded => Some decoded
    end
  end.

(** ** Text fragments that may be cumulative *)

Record TextDeltaAccumulator := {
  accumulated : string;
  incremental_confirmed : bool;
}.

Definition TextDeltaAccumulator_default : TextDeltaAccumulator :=
  {| accumulated := ""; incremental_confirmed := false |}.

(** [TextDeltaAccumulator::push]. *)
Definition accumulator_push (a : TextDeltaAccumulator) (fragment : string)
    : option string * TextDeltaAccumulator :=
  if is_empty fragment then (None, a)
  else if is_empty (accumulated a) || incremental_confirmed a then
    (Some fragment,
     {| accumulated := accumulated a +:+ fragment;
        incremental_confirmed := incremental_confirmed a |})
  else if starts_with fragment (accumulated a) then
    if Nat.leb (String.length fragment) (String.length (accumulated a)) then (None, a)
    else
      (Some (String.substring (String.length (accumulated a))
               (String.length fragment - String.length (accumulated a)) fragment),
       {| accumulated := fragment; incremental_confirmed := incremental_confirmed a |})
  else if starts_with (accumulated a) fragment then (None, a)
  else
    (Some fragment,
     {| accumulated := accumulated a +:+ fragment; incremental_confirmed := true |}).

(** [DoneOnce::emit]: whether the event is sent, and the guard. *)
Definition done_emit (sent : bool) : bool * bool := (negb sent, true).

(** ** Chunks *)

(** What pushing chunks one after another produces. *)
Fixpoint push_chunks (buffer : bytes) (chunks : list bytes)
    : result (list bytes) StreamDecoderError * bytes :=
  match chunks with
  | [] => (Ok [], buffer)
  | c :: chunks =>
    match push_chunk buffer c with
    | (Ok lines, buffer) =>
      match push_chunks buffer chunks with
      | (Ok more, buffer) => (Ok (lines ++ more), buffer)
      | e => e
      end
    | e => e
    end
  end.

Fixpoint decode_chunks (pending : bytes) (chunks : list bytes)
    : result bytes StreamDecoderError * bytes :=
  match chunks with
  | [] => (Ok [], pending)
  | c :: chunks =>
    match decoder_push pending c with
    | (Ok text, pending) =>
      match decode_chunks pending chunks with
      | (Ok more, pending) => (Ok (default [] text ++ more), pending)
      | e => e
      end
    | (Err e, pending) => (Err e, pending)
    end
  end.

(** The text of a whole stream. *)
Definition decode_stream (chunks : list bytes) : result bytes StreamDecoderError :=
  match decode_chunks [] chunks with
  | (Ok text, pending) => Ok (text ++ default [] (decoder_finish pending))
  | (Err e, _) => Err e
  end.

(** ** The error of a UTF-8 prefix *)

(** What an error at [v] says: the bytes before it are valid; an invalid sequence is there
    whatever follows; an incomplete one is at most three bytes long. *)
Definition error_shape (n : N) (s : bytes) (v : N) (e : option N) : Prop :=
  ∃ k, v = (n + N.of_nat k)%N ∧ utf8_valid (take k s) = true ∧
  match e with
  | Some l => (1 ≤ l ≤ 3)%N ∧ k + N.to_nat l ≤ length s
              ∧ ∀ t, utf8_error n (s ++ t) = Some (v, Some l)
  | None => k < length s ≤ k + 3
  end.

(** A character in front moves the error. *)
Lemma error_shape_char n c s v e :
  (∀ t, utf8_error n (c ++ t) = utf8_error (n + N.of_nat (length c)) t) →
  (∀ t, utf8_valid (c ++ t) = utf8_valid t) →
  error_shape (n + N.of_nat (length c)) s v e → error_shape n (c ++ s) v e.
Proof.
  intros Herr Hval (k & -> & Hk & He). exists (length c + k). split; [lia|].
  rewrite take_app_add, Hval. split; [done|]. rewrite length_app.
  destruct e as [l|]; [|lia]. destruct He as (? & ? & Hst). split; [done|]. split; [lia|].
  intros t. by rewrite <-app_assoc, Herr, Hst.
Qed.

Lemma error_shape_here n s v e :
  v = n →
  match e with
  | Some l => (1 ≤ l ≤ 3)%N ∧ N.to_nat l ≤ length s ∧ ∀ t, utf8_error n (s ++ t) = Some (n, Some l)
  | None => 0 < length s ≤ 3
  end → error_shape n s v e.
Proof. intros -> He. exists 0. split; [lia|]. split; [done|]. destruct e; simpl; done || lia. Qed.

Lemma utf8_error_shape s n v e : utf8_error n s = Some (v, e) → error_shape n s v e.
Proof.
  remember (length s) as k eqn:Hk. revert s n Hk.
  induction k as [k IH] using lt_wf_ind. intros s n ->.
  destruct s as [|a r]; [done|]. cbn [utf8_error]. destruct (byte_in a 0 127) eqn:Ha.
  { intros H. apply (error_shape_char n [a] r); [intros t; simpl; by rewrite Ha..|].
    eapply IH; [|done|exact H]. simpl. lia. }
  destruct (byte_in a 194 244) eqn:Hlead; simpl negb; cbv iota.
  2:{ intros [= <- <-]. apply error_shape_here; [done|]. split; [lia|]. split; [simpl; lia|].
      intros t. simpl. by rewrite Ha, Hlead. }
  destruct r as [|b r].
  { intros [= <- <-]. apply error_shape_here; [done|simpl; lia]. }
  destruct (byte_in a 194 223) eqn:H2.
  { destruct (is_cont b) eqn:Hb.
    - intros H. apply (error_shape_char n [a; b] r).
      + intros t. simpl. by rewrite Ha, Hlead, H2, Hb.
      + intros t. simpl. by rewrite Ha, H2, Hb.
      + eapply IH; [|done|exact H]. simpl. lia.
    - intros [= <- <-]. apply error_shape_here; [done|]. split; [lia|]. split; [simpl; lia|].
      intros t. simpl. by rewrite Ha, Hlead, H2, Hb. }
  destruct (lead3 a b || lead4 a b) eqn:H34; simpl negb; cbv iota.
  2:{ intros [= <- <-]. apply error_shape_here; [done|]. split; [lia|]. split; [simpl; lia|].
      intros t. simpl. by rewrite Ha, Hlead, H2, H34. }
  destruct r as [|c r].
  { intros [= <- <-]. apply error_shape_here; [done|simpl; lia]. }
  destruct (is_cont c) eqn:Hc; simpl negb; cbv iota.
  2:{ intros [= <- <-]. apply error_shape_here; [done|]. split; [lia|]. split; [simpl; lia|].
      intros t. simpl. by rewrite Ha, Hlead, H2, H34, Hc. }
  destruct (lead3 a b) eqn:H3.
  { intros H. apply (error_shape_char n [a; b; c] r).
    - intros t. simpl. by rewrite Ha, Hlead, H2, H3, Hc.
    - intros t. simpl. by rewrite Ha, H2, H3, Hc.
    - eapply IH; [|done|exact H]. simpl. lia. }
  destruct r as [|d r].
  { intros [= <- <-]. apply error_shape_here; [done|simpl; lia]. }
  simpl in H34. destruct (is_cont d) eqn:Hd.
  - intros H. apply (error_shape_char n [a; b; c; d] r).
    + intros t. simpl. by rewrite Ha, Hlead, H2, H3, H34, Hc, Hd.
    + intros t. simpl. by rewrite Ha, H2, H3, H34, Hc, Hd.
    + eapply IH; [|done|exact H]. simpl. lia.
  - intros [= <- <-]. apply error_shape_here; [done|]. split; [lia|]. split; [simpl; lia|].
    intros t. simpl. by rewrite Ha, Hlead, H2, H3, H34, Hc, Hd.
Qed.

Lemma utf8_error_shift s n m :
  utf8_error (n + m) s = (λ x : N * option N, ((n + x.1)%N, x.2)) <$> utf8_error m s.
Proof.
  remember (length s) as k eqn:Hk. revert s m Hk.
  induction k as [k IH] using lt_wf_ind. intros s m ->.
  assert (∀ r j, length r < length s → utf8_error (n + m + j) r
    = (λ x : N * option N, ((n + x.1)%N, x.2)) <$> utf8_error (m + j) r) as Hrec.
  { intros r j Hr. rewrite <-N.add_assoc. by eapply IH. }
  destruct s as [|a r]; [done|]. cbn [utf8_error].
  destruct (byte_in a 0 127); [apply Hrec; simpl; lia|].
  destruct (negb (byte_in a 194 244)); [done|]. destruct r as [|b r]; [done|].
  destruct (byte_in a 194 223); [destruct (is_cont b); [apply Hrec; simpl; lia|done]|].
  destruct (negb (lead3 a b || lead4 a b)); [done|]. destruct r as [|c r]; [done|].
  destruct (negb (is_cont c)); [done|]. destruct (lead3 a b); [apply Hrec; simpl; lia|].
  destruct r as [|d r]; [done|]. destruct (is_cont d); [apply Hrec; simpl; lia|done].
Qed.

(** Valid text in front only moves the error. *)
Lemma utf8_error_app x y n :
  utf8_valid x = true → utf8_error n (x ++ y) = utf8_error (n + N.of_nat (length x)) y.
Proof.
  remember (length x) as k eqn:Hk. revert x n Hk.
  induction k as [k IH] using lt_wf_ind. intros x n ->.
  assert (∀ r j m, length r < length x → m = (n + N.of_nat j)%N → j + length r = length x →
    utf8_valid r = true → utf8_error m (r ++ y) = utf8_error (n + N.of_nat (length x)) y) as Hrec.
  { intros r j m Hlt -> Hlen Hv. rewrite (IH (length r) Hlt r _ eq_refl Hv). f_equal. lia. }
  destruct x as [|a r]; [intros _; simpl; f_equal; lia|]. cbn [utf8_valid app utf8_error].
  destruct (byte_in a 0 127) eqn:Ha; [apply (Hrec r 1); simpl; lia|].
  destruct r as [|b r]; [done|]. destruct (byte_in a 194 223 && is_cont b) eqn:H2.
  { apply andb_true_iff in H2 as [H2 Hb].
    assert (byte_in a 194 244 = true) as -> by byte_range. simpl. rewrite H2, Hb.
    apply (Hrec r 2); simpl; lia. }
  destruct r as [|c r]; [done|]. destruct (lead3 a b && is_cont c) eqn:H3.
  { apply andb_true_iff in H3 as [H3 Hc].
    assert (byte_in a 194 244 = true) as -> by byte_range.
    assert (byte_in a 194 223 = false) as -> by byte_range. simpl. rewrite H3, Hc. simpl.
    apply (Hrec r 3); simpl; lia. }
  destruct r as [|d r]; [done|]. intros Hv. apply andb_true_iff in Hv as [H4 Hv].
  apply andb_true_iff in H4 as [H4 Hd]. apply andb_true_iff in H4 as [H4 Hc].
  assert (byte_in a 194 244 = true) as -> by byte_range.
  assert (byte_in a 194 223 = false) as -> by byte_range. simpl. rewrite H4, Hc, Hd.
  assert (lead3 a b = false) as -> by (apply not_true_iff_false; intros ?; by eapply lead34_disjoint).
  simpl. apply (Hrec r 4); simpl; (done || lia).
Qed.

(** ** Lossy decoding of a whole string *)

Definition lossy (s : bytes) : bytes := finish_loop (S (length s)) [] s.

Lemma finish_loop_acc fuel d p : finish_loop fuel d p = d ++ finish_loop fuel [] p.
Proof.
  revert d p. induction fuel as [|fuel IH]; intros d p; cbn [finish_loop]; [by rewrite app_nil_r|].
  destruct (utf8_error 0 p) as [[v [l|]]|]; [| |done].
  - destruct (drop _ p); [done|]. rewrite IH, (IH ([] ++ _)). by rewrite <-app_assoc.
  - done.
Qed.

Lemma finish_loop_fuel fuel fuel' p :
  length p < fuel → length p < fuel' → finish_loop fuel [] p = finish_loop fuel' [] p.
Proof.
  revert fuel' p. induction fuel as [|fuel IH]; intros fuel' p Hf Hf'; [lia|].
  destruct fuel' as [|fuel']; [lia|]. cbn [finish_loop].
  destruct (utf8_error 0 p) as [[v [l|]]|] eqn:He; [|done..].
  apply utf8_error_shape in He as (k & Hv & _ & Hl & Hlen & _).
  destruct (drop _ p) as [|x q] eqn:Hd; [done|].
  rewrite (finish_loop_acc fuel), (finish_loop_acc fuel'). f_equal.
  assert (length (x :: q) < length p) by (rewrite <-Hd, length_drop; lia).
  apply IH; lia.
Qed.

Lemma lossy_eq s :
  lossy s = match utf8_error 0 s with
            | None => s
            | Some (v, None) => take (N.to_nat v) s ++ REPLACEMENT_CHARACTER
            | Some (v, Some l) =>
              take (N.to_nat v) s ++ REPLACEMENT_CHARACTER
              ++ lossy (drop (N.to_nat v + N.to_nat l) s)
            end.
Proof.
  unfold lossy at 1. cbn [finish_loop].
  destruct (utf8_error 0 s) as [[v e]|] eqn:He; [|done].
  apply utf8_error_shape in He as (k & -> & Hk & He). rewrite N.add_0_l, Nat2N.id.
  unfold valid_utf8_prefix. rewrite Hk. destruct e as [l|]; [|done].
  destruct (drop _ s) as [|x q] eqn:Hd.
  - by rewrite app_nil_r.
  - rewrite finish_loop_acc. simpl app at 1. rewrite <-app_assoc. do 2 f_equal.
    unfold lossy. apply finish_loop_fuel; [|lia]. rewrite <-Hd, length_drop. lia.
Qed.

Lemma lossy_nil : lossy [] = [].
Proof. done. Qed.

Lemma lossy_valid_app x y : utf8_valid x = true → lossy (x ++ y) = x ++ lossy y.
Proof.
  intros Hx. rewrite lossy_eq, utf8_error_app by done. rewrite N.add_0_l.
  rewrite <-(N.add_0_r (N.of_nat _)), utf8_error_shift. rewrite (lossy_eq y).
  destruct (utf8_error 0 y) as [[v [l|]]|]; simpl; [| |done].
  - rewrite N2Nat.inj_add, Nat2N.id, take_app_add, <-Nat.add_assoc, drop_app_add.
    by rewrite <-app_assoc.
  - rewrite N2Nat.inj_add, Nat2N.id, take_app_add. by rewrite <-app_assoc.
Qed.

(** Valid text is unchanged. *)
Lemma lossy_valid s : utf8_valid s = true → lossy s = s.
Proof. intros Hs. rewrite <-(app_nil_r s), lossy_valid_app by done. by rewrite lossy_nil. Qed.

(** The result is valid text. *)
Lemma lossy_is_valid s : utf8_valid (lossy s) = true.
Proof.
  remember (length s) as k eqn:Hk. revert s Hk. induction k as [k IH] using lt_wf_ind.
  intros s ->. rewrite lossy_eq. destruct (utf8_error 0 s) as [[v e]|] eqn:He.
  - apply utf8_error_shape in He as (j & -> & Hj & He). rewrite N.add_0_l, Nat2N.id.
    destruct e as [l|].
    + rewrite utf8_valid_app by done. rewrite utf8_valid_app by done.
      eapply IH; [|done]. rewrite length_drop. lia.
    + by rewrite utf8_valid_app.
  - by apply utf8_error_None in He.
Qed.

(** ** Decoding what is available *)

Lemma decode_available_acc fuel d p :
  length p < fuel → d ≠ [] →
  decode_available fuel d p
  = ((d ++ (decode_available fuel [] p).1), (decode_available fuel [] p).2).
Proof.
  revert d p. induction fuel as [|fuel IH]; intros d p Hf Hd; [lia|]. cbn [decode_available].
  destruct (utf8_error 0 p) as [[v [l|]]|] eqn:He; [| |done].
  - destruct (drop _ p) as [|x q] eqn:Hdr; [simpl; by rewrite <-app_assoc|].
    apply utf8_error_shape in He as (k & -> & _ & Hl & Hlen & _).
    assert (length (x :: q) < fuel) by (rewrite <-Hdr, length_drop; lia).
    rewrite IH; [|done|by destruct d]. rewrite (IH (([] ++ _) ++ _)); [|done|by destruct (valid_utf8_prefix _)].
    simpl. by rewrite !app_assoc.
  - destruct d as [|c d]; [done|]. simpl.
    apply utf8_error_shape in He as (k & -> & Hk & Hlen). rewrite N.add_0_l, Nat2N.id.
    unfold valid_utf8_prefix. rewrite Hk. destruct (take k p) as [|x q] eqn:Ht; simpl; [|done].
    rewrite app_nil_r. destruct k; [done|]. by destruct p.
Qed.

(** Decoding commutes with what arrives later, and keeps at most three bytes back. *)
Lemma decode_available_spec s t :
  let '(out, pending) := decode_available (S (length s)) [] s in
  lossy (s ++ t) = out ++ lossy (pending ++ t) ∧ length pending ≤ 3.
Proof.
  remember (S (length s)) as fuel eqn:Hf.
  assert (length s < fuel) as Hlt by lia. clear Hf.
  revert s Hlt. induction fuel as [|fuel IH]; intros s Hlt; [lia|]. cbn [decode_available].
  destruct (utf8_error 0 s) as [[v [l|]]|] eqn:He.
  - pose proof (utf8_error_shape _ _ _ _ He) as (k & -> & Hk & Hl & Hlen & Hst).
    rewrite N.add_0_l, Nat2N.id in *. unfold valid_utf8_prefix. rewrite Hk.
    assert (lossy (s ++ t) = take k s ++ REPLACEMENT_CHARACTER
              ++ lossy (drop (k + N.to_nat l) s ++ t)) as Hloss.
    { rewrite lossy_eq, Hst. rewrite Nat2N.id.
      rewrite take_app_le, drop_app_le by lia. done. }
    destruct (drop (k + N.to_nat l) s) as [|x q] eqn:Hd.
    + rewrite Hloss. simpl. split; [by rewrite <-app_assoc|lia].
    + rewrite decode_available_acc; [| |by destruct (take k s)].
      2: { rewrite <-Hd, length_drop. lia. }
      specialize (IH (x :: q)). destruct (decode_available fuel [] (x :: q)) as [out pending].
      destruct IH as [IH1 IH2]; [rewrite <-Hd, length_drop; lia|]. simpl. split; [|done].
      rewrite Hloss, IH1. by rewrite !app_assoc.
  - apply utf8_error_shape in He as (k & -> & Hk & Hlen).
    rewrite N.add_0_l, Nat2N.id. unfold valid_utf8_prefix. rewrite Hk. simpl.
    assert (lossy (s ++ t) = take k s ++ lossy (drop k s ++ t)) as Hloss.
    { rewrite <-(take_drop k s) at 1. rewrite <-app_assoc. by apply lossy_valid_app. }
    destruct (take k s) as [|x q] eqn:Ht.
    + assert (k = 0) as -> by (destruct k, s; simpl in *; [done..|lia|done]). simpl in *. split; [done|lia].
    + split; [done|]. rewrite length_drop. lia.
  - apply utf8_error_None in He. split; [|simpl; lia]. simpl. by apply lossy_valid_app.
Qed.

(** ** Consuming a response *)

Inductive SseError :=
| Sse_Body (message : string)
| Sse_Decoder (e : StreamDecoderError).

(** The callback sees the lines before and the line, and says whether to go on. *)
Fixpoint deliver_lines (on_line : list bytes → bytes → bool) (seen lines : list bytes)
    : bool * list bytes :=
  match lines with
  | [] => (true, seen)
  | line :: lines =>
    if on_line seen line then deliver_lines on_line (seen ++ [line]) lines else (false, seen ++ [line])
  end.

(** [consume_decoded_lines]: whether to go on, the buffer and the lines seen. *)
Definition consume_decoded_lines (on_line : list bytes → bytes → bool) (buffer text : bytes)
    (seen : list bytes) : result bool SseError * bytes * list bytes :=
  match push_chunk buffer text with
  | (Err e, buffer) => (Err (Sse_Decoder e), buffer, seen)
  | (Ok lines, buffer) =>
    let '(go_on, seen) := deliver_lines on_line seen lines in (Ok go_on, buffer, seen)
  end.

(** [consume_sse_lines] over the chunks of the body, each with whether the receiver was
    closed when it arrived.  The answer is the number of bytes read, or [None] when the
    receiver or the callback stopped. *)
Fixpoint consume_sse_lines (on_line : list bytes → bytes → bool)
    (pending buffer : bytes) (seen : list bytes) (bytes_read : N)
    (stream : list (bool * result bytes string)) : result (option N) SseError * list bytes :=
  match stream with
  | (closed, chunk) :: stream =>
    if closed then (Ok None, seen)
    else match chunk with
    | Err e => (Err (Sse_Body e), seen)
    | Ok bytes =>
      let bytes_read := (bytes_read + N.of_nat (length bytes))%N in
      match decoder_push pending bytes with
      | (Err e, _) => (Err (Sse_Decoder e), seen)
      | (Ok None, pending) => consume_sse_lines on_line pending buffer seen bytes_read stream
      | (Ok (Some text), pending) =>
        match consume_decoded_lines on_line buffer text seen with
        | (Err e, _, seen) => (Err e, seen)
        | (Ok false, _, seen) => (Ok None, seen)
        | (Ok true, buffer, seen) =>
          consume_sse_lines on_line pending buffer seen bytes_read stream
        end
      end
    end
  | [] =>
    let after_tail :=
      match decoder_finish pending with
      | Some tail => consume_decoded_lines on_line buffer tail seen
      | None => (Ok true, buffer, seen)
      end in
    match after_tail with
    | (Err e, _, seen) => (Err e, seen)
    | (Ok false, _, seen) => (Ok None, seen)
    | (Ok true, buffer, seen) =>
      match line_reader_flush buffer with
      | Some line =>
        if on_line seen line then (Ok (Some bytes_read), seen ++ [line])
        else (Ok None, seen ++ [line])
      | None => (Ok (Some bytes_read), seen)
      end
    end
  end.

(** ** Lines do not depend on chunks *)

Definition split_lines (s : bytes) : list bytes * bytes := drain_lines (length s) s.

Lemma find_newline_length s line rest :
  find_newline s = Some (line, rest) → length rest < length s.
Proof.
  revert line rest. induction s as [|c s IH]; intros line rest; simpl; [done|].
  case_bool_decide; [intros [= <- <-]; lia|].
  destruct (find_newline s) as [[l r]|]; [|done]. intros [= <- <-].
  specialize (IH l r eq_refl). lia.
Qed.

Lemma find_newline_app s t line rest :
  find_newline s = Some (line, rest) → find_newline (s ++ t) = Some (line, rest ++ t).
Proof.
  revert line rest. induction s as [|c s IH]; intros line rest; simpl; [done|].
  case_bool_decide; [by intros [= <- <-]|].
  destruct (find_newline s) as [[l r]|]; [|done]. intros [= <- <-]. by rewrite (IH l r).
Qed.

Lemma drain_lines_fuel fuel fuel' s :
  length s ≤ fuel → length s ≤ fuel' → drain_lines fuel s = drain_lines fuel' s.
Proof.
  revert fuel' s. induction fuel as [|fuel IH]; intros fuel' s Hf Hf'.
  { destruct s; [|simpl in Hf; lia]. by destruct fuel'. }
  destruct fuel' as [|fuel'].
  { destruct s; [|simpl in Hf'; lia]. done. }
  cbn [drain_lines]. destruct (find_newline s) as [[line rest]|] eqn:Hn; [|done].
  apply find_newline_length in Hn. rewrite (IH fuel') by lia. done.
Qed.

Lemma split_lines_eq s :
  split_lines s
  = match find_newline s with
    | Some (line, rest) =>
      let '(lines, buffer) := split_lines rest in (trim_end_cr line :: lines, buffer)
    | None => ([], s)
    end.
Proof.
  unfold split_lines at 1. destruct s as [|c s]; [done|]. cbn [length drain_lines].
  destruct (find_newline (c :: s)) as [[line rest]|] eqn:Hn; [|done].
  apply find_newline_length in Hn. simpl in Hn. unfold split_lines.
  by rewrite (drain_lines_fuel (length s) (length rest)) by lia.
Qed.

Lemma split_lines_app s t :
  let '(lines, rest) := split_lines s in
  split_lines (s ++ t)
  = (lines ++ (split_lines (rest ++ t)).1, (split_lines (rest ++ t)).2).
Proof.
  remember (length s) as n eqn:Hn. revert s Hn. induction n as [n IH] using lt_wf_ind.
  intros s ->. rewrite (split_lines_eq s).
  destruct (find_newline s) as [[line rest]|] eqn:Hf; [|by destruct (split_lines (s ++ t))].
  pose proof (find_newline_length _ _ _ Hf) as Hlt. specialize (IH _ Hlt rest eq_refl).
  rewrite (split_lines_eq (s ++ t)), (find_newline_app _ t _ _ Hf).
  destruct (split_lines rest) as [lines buffer]. by rewrite IH.
Qed.

(** All lines of a text, the unterminated last one included. *)
Definition all_lines (s : bytes) : list bytes :=
  let '(lines, rest) := split_lines s in
  lines ++ match line_reader_flush rest with Some line => [line] | None => [] end.

Lemma all_lines_app s t :
  all_lines (s ++ t) = (split_lines s).1 ++ all_lines ((split_lines s).2 ++ t).
Proof.
  unfold all_lines. pose proof (split_lines_app s t) as H.
  destruct (split_lines s) as [lines rest]. rewrite H. simpl.
  destruct (split_lines (rest ++ t)) as [l2 r2]. simpl. by rewrite app_assoc.
Qed.

Lemma split_lines_length s : length (split_lines s).2 ≤ length s.
Proof.
  remember (length s) as n eqn:Hn. revert s Hn. induction n as [n IH] using lt_wf_ind.
  intros s ->. rewrite split_lines_eq. destruct (find_newline s) as [[line rest]|] eqn:Hf; [|done].
  apply find_newline_length in Hf. specialize (IH _ Hf rest eq_refl).
  destruct (split_lines rest). simpl in *. lia.
Qed.

Lemma deliver_app on_line seen l1 l2 :
  deliver_lines on_line seen (l1 ++ l2)
  = let '(go_on, seen) := deliver_lines on_line seen l1 in
    if go_on then deliver_lines on_line seen l2 else (false, seen).
Proof.
  revert seen. induction l1 as [|l l1 IH]; intros seen; simpl; [done|].
  destruct (on_line seen l); [apply IH|done].
Qed.

Lemma overflows_false a b :
  (N.of_nat (length a + length b) ≤ MAX_STREAM_BUFFER_BYTES)%N → overflows a b = false.
Proof.
  intros H. apply bool_decide_eq_false. unfold saturating_add, MAX_STREAM_BUFFER_BYTES, usize_max in *.
  lia.
Qed.

Lemma consume_decoded_ok on_line buffer text seen :
  (N.of_nat (length buffer + length text) ≤ MAX_STREAM_BUFFER_BYTES)%N →
  consume_decoded_lines on_line buffer text seen
  = let '(go_on, seen) := deliver_lines on_line seen (split_lines (buffer ++ text)).1 in
    (Ok go_on, (split_lines (buffer ++ text)).2, seen).
Proof.
  intros H. unfold consume_decoded_lines, push_chunk. rewrite overflows_false by done.
  fold (split_lines (buffer ++ text)). by destruct (split_lines (buffer ++ text)).
Qed.

Lemma decoder_finish_lossy pending : default [] (decoder_finish pending) = lossy pending.
Proof.
  destruct pending as [|c p]; [done|]. unfold decoder_finish, lossy.
  by destruct (finish_loop _ _ _).
Qed.

(** What stays in the buffer is one unterminated line. *)
Lemma split_lines_rest s : split_lines (split_lines s).2 = ([], (split_lines s).2).
Proof.
  remember (length s) as n eqn:Hn. revert s Hn. induction n as [n IH] using lt_wf_ind.
  intros s ->. rewrite (split_lines_eq s).
  destruct (find_newline s) as [[line rest]|] eqn:Hf; simpl.
  - pose proof (find_newline_length _ _ _ Hf) as Hlt. specialize (IH _ Hlt rest eq_refl).
    by destruct (split_lines rest).
  - by rewrite split_lines_eq, Hf.
Qed.

(** The end of the run: the flush delivers the unterminated line. *)
Definition finish_lines (on_line : list bytes → bytes → bool) (bytes_read : N)
    (r : result bool SseError * bytes * list bytes) : result (option N) SseError * list bytes :=
  match r with
  | (Err e, _, seen) => (Err e, seen)
  | (Ok false, _, seen) => (Ok None, seen)
  | (Ok true, buffer, seen) =>
    match line_reader_flush buffer with
    | Some line =>
      if on_line seen line then (Ok (Some bytes_read), seen ++ [line])
      else (Ok None, seen ++ [line])
    | None => (Ok (Some bytes_read), seen)
    end
  end.

(** The answer after delivering [lines]. *)
Definition answer (on_line : list bytes → bytes → bool) (total : N) (seen lines : list bytes)
    : result (option N) SseError * list bytes :=
  let '(go_on, seen) := deliver_lines on_line seen lines in
  (Ok (if go_on then Some total else None), seen).

Lemma answer_app on_line total seen l1 l2 :
  answer on_line total seen (l1 ++ l2)
  = let '(go_on, seen) := deliver_lines on_line seen l1 in
    if go_on then answer on_line total seen l2 else (Ok None, seen).
Proof. unfold answer. rewrite deliver_app. by destruct (deliver_lines on_line seen l1) as [[] ?]. Qed.

Lemma finish_lines_answer on_line total seen s :
  finish_lines on_line total
    (let '(go_on, seen) := deliver_lines on_line seen (split_lines s).1 in
     (Ok go_on, (split_lines s).2, seen))
  = answer on_line total seen (all_lines s).
Proof.
  unfold all_lines. destruct (split_lines s) as [lines rest]. simpl. rewrite answer_app.
  destruct (deliver_lines on_line seen lines) as [[] seen1]; simpl; [|done].
  destruct (line_reader_flush rest) as [line|]; [|done]. unfold answer. simpl.
  by destruct (on_line seen1 line).
Qed.

Lemma consume_end on_line pending buffer seen bytes_read :
  split_lines buffer = ([], buffer) →
  (N.of_nat (length (buffer ++ lossy pending)) ≤ MAX_STREAM_BUFFER_BYTES)%N →
  consume_sse_lines on_line pending buffer seen bytes_read []
  = answer on_line bytes_read seen (all_lines (buffer ++ lossy pending)).
Proof.
  intros Hline Hbuf. rewrite <-finish_lines_answer. cbn [consume_sse_lines].
  pose proof (decoder_finish_lossy pending) as Hfin.
  destruct (decoder_finish pending) as [tail|]; simpl in Hfin.
  - subst tail. by rewrite consume_decoded_ok by by rewrite <-length_app.
  - rewrite <-Hfin, app_nil_r, Hline. done.
Qed.

(** What is pending, buffered and still to come decides the rest of the run. *)
Lemma consume_spec on_line chunks pending buffer seen bytes_read :
  length pending ≤ 3 → split_lines buffer = ([], buffer) →
  (N.of_nat (3 + length (concat chunks)) ≤ MAX_STREAM_BUFFER_BYTES)%N →
  (N.of_nat (length (buffer ++ lossy (pending ++ concat chunks))) ≤ MAX_STREAM_BUFFER_BYTES)%N →
  consume_sse_lines on_line pending buffer seen bytes_read ((λ c, (false, Ok c)) <$> chunks)
  = answer on_line (bytes_read + N.of_nat (length (concat chunks))) seen
      (all_lines (buffer ++ lossy (pending ++ concat chunks))).
Proof.
  revert pending buffer seen bytes_read. induction chunks as [|c chunks IH];
    intros pending buffer seen bytes_read Hp Hline Hsmall Hbuf; simpl concat in *.
  { rewrite app_nil_r in *. simpl fmap. rewrite consume_end by done. by rewrite N.add_0_r. }
  rewrite length_app in Hsmall |- *. cbn [fmap list_fmap consume_sse_lines].
  replace (bytes_read + N.of_nat (length c + length (concat chunks)))%N
    with (bytes_read + N.of_nat (length c) + N.of_nat (length (concat chunks)))%N by lia.
  destruct c as [|x c]; [simpl decoder_push; cbv iota; apply IH; auto; cbn [length] in *; lia|].
  unfold decoder_push. rewrite overflows_false by (cbn [length] in *; lia).
  rewrite app_assoc in *. set (all := pending ++ x :: c) in *.
  pose proof (decode_available_spec all (concat chunks)) as Hspec.
  destruct (decode_available (S (length all)) [] all) as [out p'] eqn:Hda.
  destruct Hspec as [Hl Hp']. rewrite Hl in *.
  destruct out as [|o out].
  { apply IH; auto; cbn [length] in *; lia. }
  rewrite (app_assoc buffer) in *. rewrite !length_app in Hbuf.
  rewrite consume_decoded_ok by lia. set (text := buffer ++ o :: out) in *.
  rewrite all_lines_app, answer_app.
  destruct (deliver_lines on_line seen (split_lines text).1) as [[] seen1]; [|done].
  apply IH; [done|apply split_lines_rest|cbn [length] in *; lia|].
  pose proof (split_lines_length text) as Hle. rewrite length_app.
  assert (length text = length buffer + length (o :: out)) by apply length_app. lia.
Qed.

(** The lines the callback sees do not depend on how the bytes were cut into chunks: a
    body within the buffer limit is delivered as the lines of the text its bytes decode to,
    the unterminated last line included, in order until the callback stops, and the answer
    counts every byte; text that is valid UTF-8 is delivered unchanged. *)
Theorem sse_lines_independent_of_chunks on_line chunks :
  (N.of_nat (3 + length (concat chunks)) ≤ MAX_STREAM_BUFFER_BYTES)%N →
  (N.of_nat (length (lossy (concat chunks))) ≤ MAX_STREAM_BUFFER_BYTES)%N →
  consume_sse_lines on_line [] [] [] 0 ((λ c, (false, Ok c)) <$> chunks)
  = answer on_line (N.of_nat (length (concat chunks))) [] (all_lines (lossy (concat chunks)))
  ∧ utf8_valid (lossy (concat chunks)) = true
  ∧ (utf8_valid (concat chunks) = true → lossy (concat chunks) = concat chunks).
Proof.
  intros Hs Hl. split; [|split; [apply lossy_is_valid|apply lossy_valid]].
  apply consume_spec; simpl; [lia|done|exact Hs|exact Hl].
Qed.

(** Three chunks that cut a two-byte character and a line end; the second line is stopped. *)
Lemma sse_lines_independent_of_chunks_witness :
  let body := [[ascii_of_N 195]; [ascii_of_N 169; cr]; [lf; ascii_of_N 255; lf; ascii_of_N 97]] in
  let on_line (seen : list bytes) (line : bytes) := Nat.ltb (length seen) 1 in
  consume_sse_lines on_line [] [] [] 0 ((λ c, (false, Ok c)) <$> body)
  = (Ok None, [[ascii_of_N 195; ascii_of_N 169]; REPLACEMENT_CHARACTER]).
Proof.
  intros body on_line.
  destruct (sse_lines_independent_of_chunks on_line body) as (-> & _); [vm_compute; discriminate..|].
  vm_compute. reflexivity.
Defined.

Lemma decoder_push_pending pending c :
  length pending ≤ 3 → length (decoder_push pending c).2 ≤ 3.
Proof.
  intros Hp. destruct c as [|x c]; [done|]. unfold decoder_push.
  destruct (overflows _ _); [done|].
  pose proof (decode_available_spec (pending ++ x :: c) []) as H.
  by destruct (decode_available _ _ _) as [out p]; destruct H.
Qed.

Lemma push_chunk_buffer buffer c :
  (N.of_nat (length buffer) ≤ MAX_STREAM_BUFFER_BYTES)%N →
  (N.of_nat (length (push_chunk buffer c).2) ≤ MAX_STREAM_BUFFER_BYTES)%N.
Proof.
  intros Hb. unfold push_chunk. destruct (overflows buffer c) eqn:Ho; [done|].
  pose proof (split_lines_length (buffer ++ c)) as Hl. unfold split_lines in Hl.
  destruct (drain_lines _ _) as [lines rest]. simpl in *.
  apply bool_decide_eq_false in Ho. rewrite length_app in Hl.
  unfold saturating_add, MAX_STREAM_BUFFER_BYTES, usize_max in *. lia.
Qed.

(** Whatever arrives, and whether or not a chunk is refused, the decoder holds back at
    most three bytes between chunks and the line buffer stays within its limit. *)
Theorem stream_buffers_bounded chunks :
  length (decode_chunks [] chunks).2 ≤ 3
  ∧ (N.of_nat (length (push_chunks [] chunks).2) ≤ MAX_STREAM_BUFFER_BYTES)%N.
Proof.
  split.
  - assert (length ([] : bytes) ≤ 3) as H by (simpl; lia). revert H. generalize ([] : bytes).
    induction chunks as [|c chunks IH]; intros p Hp; simpl; [done|].
    pose proof (decoder_push_pending p c Hp) as Hd.
    destruct (decoder_push p c) as [[t|e] p']; simpl in *; [|done].
    specialize (IH p' Hd). by destruct (decode_chunks p' chunks) as [[]].
  - assert (N.of_nat (length ([] : bytes)) ≤ MAX_STREAM_BUFFER_BYTES)%N as H by done.
    revert H. generalize ([] : bytes).
    induction chunks as [|c chunks IH]; intros p Hp; simpl; [done|].
    pose proof (push_chunk_buffer p c Hp) as Hd.
    destruct (push_chunk p c) as [[t|e] p']; simpl in *; [|done].
    specialize (IH p' Hd). by destruct (push_chunks p' chunks) as [[]].
Qed.

(** ** Cumulative fragments *)

(** The text sent downstream for a sequence of fragments. *)
Fixpoint push_fragments (a : TextDeltaAccumulator) (fragments : list string)
    : string * TextDeltaAccumulator :=
  match fragments with
  | [] => ("", a)
  | f :: fragments =>
    let '(out, a) := accumulator_push a f in
    let '(more, a) := push_fragments a fragments in (default "" out +:+ more, a)
  end.

(** Every fragment repeats the text so far and may extend it. *)
Fixpoint cumulative (so_far : string) (fragments : list string) : Prop :=
  match fragments with
  | [] => True
  | f :: fragments => (∃ d, f = so_far +:+ d) ∧ cumulative f fragments
  end.

Lemma substring_put s d : String.substring (len s) (len d) (s +:+ d) = d.
Proof. by rewrite substring_app, substring_all. Qed.

Lemma accumulator_push_extends a d :
  incremental_confirmed a = false →
  let '(out, a') := accumulator_push a (accumulated a +:+ d) in
  default "" out = d ∧ accumulated a' = accumulated a +:+ d ∧ incremental_confirmed a' = false.
Proof.
  destruct a as [acc conf]. simpl. intros ->. unfold accumulator_push. cbn [accumulated incremental_confirmed].
  destruct acc as [|c acc].
  { rewrite str_app_nil_l. destruct d as [|x d]; [done|]. simpl. by rewrite str_app_nil_l. }
  assert (is_empty (String c acc +:+ d) = false) as -> by (rewrite str_app_cons; done).
  rewrite starts_with_app. simpl is_empty. cbv iota. cbn [orb].
  rewrite str_length_app. destruct (Nat.leb _ _) eqn:Hle; cbn [default].
  - apply Nat.leb_le in Hle. destruct d; [|simpl in Hle; lia]. by rewrite str_app_nil_r.
  - replace (String.length (String c acc) + String.length d - String.length (String c acc))
      with (String.length d) by lia.
    by rewrite substring_put.
Qed.

(** Fragments that each repeat the whole text so far, extended or not, send exactly the
    final text downstream, each part of it once. *)
Theorem cumulative_fragments_sent_once fragments :
  cumulative "" fragments →
  (push_fragments TextDeltaAccumulator_default fragments).1 = default "" (last fragments)
  ∧ accumulated (push_fragments TextDeltaAccumulator_default fragments).2
    = default "" (last fragments).
Proof.
  intros H. assert (∀ a, incremental_confirmed a = false → cumulative (accumulated a) fragments →
    accumulated a +:+ (push_fragments a fragments).1 = default (accumulated a) (last fragments)
    ∧ accumulated (push_fragments a fragments).2 = default (accumulated a) (last fragments)) as Hgen.
  { clear H. induction fragments as [|f fragments IH]; intros a Ha H; simpl in *.
    { by rewrite str_app_nil_r. }
    destruct H as ((d & ->) & H). pose proof (accumulator_push_extends a d Ha) as Hp.
    destruct (accumulator_push a _) as [out a']. destruct Hp as (Ho & Hacc & Hc).
    rewrite <-Hacc in H. specialize (IH a' Hc H). rewrite Ho.
    destruct (push_fragments a' fragments) as [more a'']. simpl in *.
    rewrite Hacc in IH. rewrite str_app_assoc.
    destruct fragments; simpl in *; [done|]. destruct (last _) eqn:E; [done|].
    by apply last_None in E. }
  specialize (Hgen TextDeltaAccumulator_default eq_refl H). simpl in Hgen.
  by rewrite str_app_nil_l in Hgen.
Qed.

Lemma cumulative_fragments_sent_once_witness :
  (push_fragments TextDeltaAccumulator_default ["He"; "Hello"; "Hello"; "Hello you"]).1
  = "Hello you".
Proof.
  destruct (cumulative_fragments_sent_once ["He"; "Hello"; "Hello"; "Hello you"]) as [-> _]; [|done].
  simpl. repeat split; [exists "He"|exists "llo"|exists ""|exists " you"]; reflexivity.
Defined.

(** Incremental fragments are not all sent: until a fragment has been seen that does not
    repeat the text, a fragment equal to the beginning of the text is taken for a
    repetition, and one that begins with the text for an extension of it. *)
Theorem incremental_fragments_lost :
  (push_fragments TextDeltaAccumulator_default ["ha"; "ha"; "!"]).1 = "ha!"
  ∧ (push_fragments TextDeltaAccumulator_default ["1"; "10"; " items"]).1 = "10 items".
Proof. split; vm_compute; reflexivity. Qed.
