(* ===== verification/AiRetry.v ===== *)
(** * Requests with retries

    [astrcode-ai/src/retry.rs] and the request loop and error classification of [common.rs].
    What a server answers, what handling a response yields and the random bytes are arguments
    indexed by the request; the count of requests, which is only logged, is left out.  An event is recorded when it is sent; one sent after the receiver
    is gone reaches nobody.  Arithmetic is that of a build without overflow checks. *)

From S2P Require Import Prelude CoreLlm.

(** ** Retry policy *)

Definition DEFAULT_MAX_DELAY_MS : N := 30000.

Record RetryPolicy := {
  max_retries : N;
  base_delay_ms : N;
  max_delay_ms : N;
  max_transport_retries : N;
}.

Definition RetryPolicy_default : RetryPolicy :=
  {| max_retries := 5; base_delay_ms := 1000; max_delay_ms := DEFAULT_MAX_DELAY_MS;
     max_transport_retries := 2 |}.

(** [retry_policy_from_config] on the two fields it reads. *)
Definition retry_policy_from_config (config_max_retries retry_base_delay_ms : N) : RetryPolicy :=
  {| max_retries := config_max_retries; base_delay_ms := retry_base_delay_ms;
     max_delay_ms := DEFAULT_MAX_DELAY_MS; max_transport_retries := config_max_retries |}.

Definition should_retry_transport (p : RetryPolicy) (attempt : N) : bool :=
  bool_decide (attempt ≤ max_transport_retries p)%N.

(** [random_jitter], with the eight random bytes as a number, if they could be had. *)
Definition random_jitter (random : option N) (span : N) : N :=
  if bool_decide (span = 0%N) then 0%N
  else match random with
  | None => (span / 2)%N
  | Some bytes => (bytes mod wrapping_add u64_max span 1)%N
  end.

(** [2u64.pow]. *)
Definition pow2_u64 (n : N) : N := (2 ^ n mod (u64_max + 1))%N.

(** [RetryPolicy::delay], in milliseconds. *)
Definition delay (p : RetryPolicy) (random : option N) (attempt : N) : N :=
  let exponential := wrapping_mul u64_max (base_delay_ms p) (pow2_u64 (saturating_sub attempt 1)) in
  let base := N.min exponential (max_delay_ms p) in
  let jitter := (base / 4)%N in
  let span := N.min u64_max (jitter * 2) in
  let offset := random_jitter random span in
  wrapping_add u64_max (saturating_sub base jitter) offset.

(** ** Errors of a response *)

(** The decision before the body is read. *)
Definition retry_classification (status : N) : LlmError :=
  if bool_decide (status = 429%N) then RateLimited status None ""
  else if bool_decide (500 ≤ status < 600)%N || bool_decide (status = 408%N) then
    ServerError status ""
  else ClientError status "".

(** [str::parse] for [u64]: digits behind an optional plus sign, at most [u64::MAX]. *)
Fixpoint parse_digits (acc : N) (s : string) : option N :=
  match s with
  | EmptyString => Some acc
  | String c s =>
    if byte_in c 48 57 then
      let acc := (acc * 10 + (N_of_ascii c - 48))%N in
      if bool_decide (acc ≤ u64_max)%N then parse_digits acc s else None
    else None
  end.
Definition parse_u64 (s : string) : option N :=
  let digits := match s with
                | String c s' => if bool_decide (c = "+"%char) then s' else s
                | EmptyString => s
                end in
  if is_empty digits then None else parse_digits 0 digits.

(** [parse_retry_after_ms] on the header, if it is there and is text. *)
Definition parse_retry_after_ms (header : option string) : option N :=
  header ≫= λ value, parse_u64 (trim value) ≫= λ seconds,
    let ms := (seconds * 1000)%N in
    if bool_decide (ms ≤ u64_max)%N then Some ms else None.

Section Classify.
  Context (from_json : string → option Value).

(** [classify_error]. *)
Definition classify_error (status : N) (retry_after_ms : option N) (body : string) : LlmError :=
  let parsed := from_json body in
  let error_value :=
    match parsed ≫= (λ v, value_get v "error") with
    | Some e => Some e
    | None => parsed
    end in
  let field (key : string) : option string :=
    (error_value ≫= (λ e, value_get e key)) ≫= as_str in
  let message := default body (field "message") in
  let code := match field "code" with Some c => c | None => default "" (field "type") end in
  let haystack := to_ascii_lowercase (code +:+ " " +:+ message) in
  let has := str_contains haystack in
  if bool_decide (status ∈ [401; 403]%N) then InvalidApiKey status message
  else if bool_decide (status = 404%N) then ModelNotFound status message
  else if bool_decide (status = 400%N)
          && (has "context window" || has "context length" || has "context_length"
              || has "prompt too long" || has "maximum context") then
    ContextWindowExceeded message
  else if bool_decide (status ∈ [400; 422]%N)
          && (has "content_filter" || has "content filter") then ContentFilter message
  else if bool_decide (status ∈ [400; 422]%N) then InvalidParameter status message
  else if bool_decide (status = 429%N) && (has "quota" || has "billing") then
    QuotaExceeded status message
  else if bool_decide (status = 402%N) then QuotaExceeded status message
  else if bool_decide (status = 429%N) then RateLimited status retry_after_ms message
  else if bool_decide (500 ≤ status < 600)%N || bool_decide (status = 408%N) then
    ServerError status message
  else ClientError status message.

(** ** The loop *)

Record Response := {
  resp_status : N;
  resp_retry_after : option string;
  resp_text : option string;
}.

(** [StatusCode::is_success]. *)
Definition is_success (r : Response) : bool := bool_decide (200 ≤ resp_status r < 300)%N.

(** [read_http_error_body]: a body that cannot be read is empty. *)
Definition read_http_error_body (r : Response) : string := default "" (resp_text r).

(** Whether the stream has started, and whether it may be replayed. *)
Record ReplayFlags := { stream_started : bool; stream_replay_safe : bool }.

Record Handled (A : Type) := {
  handled_result : result A LlmError;
  handled_flags : ReplayFlags;
  handled_events : list LlmEvent;
}.
#[global] Arguments handled_result {_} _.
#[global] Arguments handled_flags {_} _.
#[global] Arguments handled_events {_} _.

Record RetryState := {
  http_retry_attempt : N;
  transport_retry_attempt : N;
  retry_reported : bool;
  flags : ReplayFlags;
}.

Definition u32_incr (n : N) : N := wrapping_add u32_max n 1.

Inductive Iteration (A : Type) :=
| Continue (s : RetryState)
| Return (r : result A LlmError).
#[global] Arguments Continue {_} _.
#[global] Arguments Return {_} _.

Section Loop.
  Context {A : Type} (policy : RetryPolicy).
  (** whether the caller takes events, and whether it can replay the stream *)
  Context (events stream_replay : bool).
  Context (send_once : nat → result Response LlmError).
  Context (on_success : nat → Response → ReplayFlags → Handled A).
  Context (random : nat → option N).

Definition send_retrying_event (status : option N) (attempt max_retries delay_ms : N)
    : list LlmEvent :=
  if events then [Retrying status attempt max_retries delay_ms] else [].

(** One pass of the loop of [request_with_retries]; [i] numbers the requests. *)
Definition retry_step (i : nat) (s : RetryState) : Iteration A * list LlmEvent :=
  match send_once i with
  | Err error =>
    let attempt := u32_incr (transport_retry_attempt s) in
    if should_retry_transport policy attempt then
      (Continue {| http_retry_attempt := http_retry_attempt s;
                   transport_retry_attempt := attempt; retry_reported := true;
                   flags := flags s |},
       send_retrying_event None attempt (max_transport_retries policy)
         (delay policy (random i) attempt))
    else (Return (Err error), [])
  | Ok response =>
    if is_success response then
      let recovered := if retry_reported s && events then [RetryRecovered] else [] in
      let h := on_success i response (flags s) in
      let sent := recovered ++ handled_events h in
      match handled_result h with
      | Ok value => (Return (Ok value), sent)
      | Err error =>
        match error with
        | Transport message =>
          if stream_replay
             && (negb (stream_started (handled_flags h))
                 || stream_replay_safe (handled_flags h)) then
            let attempt := u32_incr (transport_retry_attempt s) in
            if should_retry_transport policy attempt then
              (Continue {| http_retry_attempt := http_retry_attempt s;
                           transport_retry_attempt := attempt; retry_reported := true;
                           flags := {| stream_started := false; stream_replay_safe := true |} |},
               sent ++ send_retrying_event None attempt (max_transport_retries policy)
                         (delay policy (random i) attempt))
            else (Return (Err error), sent)
          else (Return (Err error), sent)
        | _ => (Return (Err error), sent)
        end
      end
    else
      let attempt := u32_incr (http_retry_attempt s) in
      if bool_decide (attempt ≤ max_retries policy)%N
         && is_retryable (retry_classification (resp_status response)) then
        (Continue {| http_retry_attempt := attempt;
                     transport_retry_attempt := transport_retry_attempt s;
                     retry_reported := true; flags := flags s |},
         send_retrying_event (Some (resp_status response)) attempt (max_retries policy)
           (delay policy (random i) attempt))
      else
        (Return (Err (classify_error (resp_status response)
                        (parse_retry_after_ms (resp_retry_after response))
                        (read_http_error_body response))), [])
  end.

(** The loop: the answer, the events and the number of requests sent. *)
Fixpoint retry_loop (fuel i : nat) (s : RetryState)
    : option (result A LlmError * list LlmEvent * nat) :=
  match fuel with
  | O => None
  | S fuel =>
    match retry_step i s with
    | (Return r, sent) => Some (r, sent, S i)
    | (Continue s, sent) =>
      match retry_loop fuel (S i) s with
      | Some (r, more, n) => Some (r, sent ++ more, n)
      | None => None
      end
    end
  end.

Definition retry_start : RetryState :=
  {| http_retry_attempt := 0; transport_retry_attempt := 0;
     retry_reported := false;
     flags := {| stream_started := false; stream_replay_safe := true |} |}.

(** The most requests a call can send. *)
Definition request_limit : nat := S (N.to_nat (max_retries policy + max_transport_retries policy)).

Definition request_with_retries : option (result A LlmError * list LlmEvent * nat) :=
  retry_loop request_limit 0 retry_start.

(** ** The loop ends *)

Lemma u32_incr_small n : (n < u32_max)%N → u32_incr n = (n + 1)%N.
Proof. intros H. apply wrapping_add_small. lia. Qed.

(** Every retry uses one of the two allowances. *)
Lemma retry_step_counts i s s' sent :
  (max_retries policy < u32_max)%N → (max_transport_retries policy < u32_max)%N →
  (http_retry_attempt s ≤ max_retries policy)%N →
  (transport_retry_attempt s ≤ max_transport_retries policy)%N →
  retry_step i s = (Continue s', sent) →
  (http_retry_attempt s' ≤ max_retries policy)%N
  ∧ (transport_retry_attempt s' ≤ max_transport_retries policy)%N
  ∧ (http_retry_attempt s' + transport_retry_attempt s'
     = http_retry_attempt s + transport_retry_attempt s + 1)%N.
Proof.
  intros Hr Ht Hh Htr. unfold retry_step, should_retry_transport.
  rewrite !u32_incr_small by lia.
  destruct (send_once i) as [response|error]; [destruct (is_success response)|].
  - destruct (handled_result _) as [|[]]; try done.
    destruct (stream_replay && _); [|done].
    case_bool_decide; intros [= <- <-]; simpl; lia.
  - destruct (bool_decide _ && _) eqn:Hb; [|done]. bools. intros [= <- <-]. simpl. lia.
  - case_bool_decide; intros [= <- <-]; simpl; lia.
Qed.

Lemma retry_loop_ends fuel i s :
  (max_retries policy < u32_max)%N → (max_transport_retries policy < u32_max)%N →
  (http_retry_attempt s ≤ max_retries policy)%N →
  (transport_retry_attempt s ≤ max_transport_retries policy)%N →
  N.to_nat (max_retries policy + max_transport_retries policy
            - http_retry_attempt s - transport_retry_attempt s) < fuel →
  ∃ r sent n, retry_loop fuel i s = Some (r, sent, n) ∧ i < n ≤ i + fuel.
Proof.
  intros Hr Ht. revert i s. induction fuel as [|fuel IH]; intros i s Hh Htr Hf; [lia|].
  cbn [retry_loop]. destruct (retry_step i s) as [[s'|r] sent] eqn:Hs.
  - apply retry_step_counts in Hs as (Hh' & Ht' & Hsum); [|done..].
    destruct (IH (S i) s') as (r & more & n & -> & Hn); [done..|lia|].
    exists r, (sent ++ more), n. split; [done|lia].
  - exists r, sent, (S i). split; [done|lia].
Qed.

End Loop.
End Classify.

(** A request always answers: below [u32::MAX] retries of either kind the loop returns,
    whatever the server does, after at most one request more than the two allowances
    together. *)
Theorem request_terminates {A} from_json policy events stream_replay send_once
    (on_success : nat → Response → ReplayFlags → Handled A) random :
  (max_retries policy < u32_max)%N → (max_transport_retries policy < u32_max)%N →
  ∃ r sent n,
    request_with_retries from_json policy events stream_replay send_once on_success random
    = Some (r, sent, n)
    ∧ (N.of_nat n ≤ 1 + max_retries policy + max_transport_retries policy)%N.
Proof.
  intros Hr Ht. unfold request_with_retries, request_limit.
  edestruct (retry_loop_ends from_json policy events stream_replay send_once on_success random)
    as (r & sent & n & Heq & Hn); [done|done| | | |exists r, sent, n; split; [exact Heq|lia]];
    simpl; lia.
Qed.

(** A server that is unreachable twice, overloaded once and then answers. *)
Lemma request_terminates_witness :
  let send_once (i : nat) : result Response LlmError :=
    if Nat.ltb i 2 then Err (Transport "reset")
    else Ok {| resp_status := (if Nat.ltb i 3 then 503 else 200)%N; resp_retry_after := None;
               resp_text := Some "" |} in
  let on_success (_ : nat) (_ : Response) f :=
    {| handled_result := Ok tt; handled_flags := f; handled_events := [Done "stop"] |} in
  (∃ r sent n,
    request_with_retries (λ _, None) RetryPolicy_default true true send_once on_success (λ _, None)
    = Some (r, sent, n) ∧ (N.of_nat n ≤ 1 + 5 + 2)%N)
  ∧ (λ x, x.2) <$> request_with_retries (λ _, None) RetryPolicy_default true true send_once
                     on_success (λ _, None) = Some 4.
Proof.
  split; [|vm_compute; reflexivity].
  apply (request_terminates (λ _, None) RetryPolicy_default true true); vm_compute; reflexivity.
Defined.

(** ** Delays *)

Lemma jitter_bounds random base :
  (base ≤ u64_max)%N →
  (random_jitter random (N.min u64_max (base / 4 * 2)) ≤ base / 4 * 2)%N.
Proof.
  intros Hb. assert (base / 4 * 2 < u64_max)%N.
  { pose proof (N.Div0.mul_div_le base 4). unfold u64_max in *. lia. }
  rewrite N.min_r by lia. unfold random_jitter. case_bool_decide; [lia|].
  destruct random as [bytes|].
  - rewrite wrapping_add_small by lia. pose proof (N.mod_lt bytes (base / 4 * 2 + 1)). lia.
  - generalize (base / 4 * 2)%N. intros q. rewrite <-(N.div_1_r q) at 2. apply N.div_le_compat_l. lia.
Qed.

(** Whatever the random bytes, a delay is within a quarter of the capped exponential
    back-off: never more than five quarters of the cap, and while the exponential fits
    [u64] never less than three quarters of the smaller of it and the cap. *)
Theorem delay_within_quarter p random attempt :
  (max_delay_ms p < 2 ^ 63)%N → (1 ≤ attempt)%N →
  (delay p random attempt ≤ max_delay_ms p + max_delay_ms p / 4)%N
  ∧ ((base_delay_ms p * 2 ^ (attempt - 1) ≤ u64_max)%N → (2 ^ (attempt - 1) ≤ u64_max)%N →
     let m := N.min (base_delay_ms p * 2 ^ (attempt - 1)) (max_delay_ms p) in
     (m - m / 4 ≤ delay p random attempt ≤ m + m / 4)%N).
Proof.
  intros Hmax Ha. unfold delay, saturating_sub.
  set (e := wrapping_mul _ _ _). set (base := N.min e (max_delay_ms p)).
  assert (base ≤ max_delay_ms p)%N as Hbase by lia.
  assert (base / 4 * 4 ≤ base)%N as Hq by (pose proof (N.Div0.mul_div_le base 4); lia).
  pose proof (jitter_bounds random base) as Hj.
  assert (2 ^ 63 = 9223372036854775808)%N as H63 by done. rewrite H63 in Hmax.
  assert (2 * base ≤ u64_max)%N as Hu by (unfold u64_max; lia).
  specialize (Hj ltac:(lia)). rewrite wrapping_add_small by lia. split.
  - pose proof (N.Div0.div_le_mono base (max_delay_ms p) 4 Hbase). lia.
  - intros He Hp. cbv zeta. replace (N.min _ (max_delay_ms p)) with base; [lia|].
    unfold base, e, wrapping_mul, pow2_u64. unfold u64_max in *.
    rewrite (N.mod_small (2 ^ (attempt - 1))) by lia. rewrite N.mod_small by lia. done.
Qed.

Lemma delay_within_quarter_witness :
  (delay RetryPolicy_default (Some 12345%N) 3 ≤ 37500)%N
  ∧ (3000 ≤ delay RetryPolicy_default (Some 12345%N) 3 ≤ 5000)%N.
Proof.
  destruct (delay_within_quarter RetryPolicy_default (Some 12345%N) 3) as [H1 H2];
    [vm_compute; (reflexivity || discriminate)..|].
  split; [exact H1|apply H2; vm_compute; discriminate].
Defined.

(** The back-off does not stay at its cap: from the sixty-second retry on, the product of the
    default base delay and the power is zero in 64 bits, and requests follow each other without
    any delay. *)
Theorem backoff_vanishes random attempt :
  (62 ≤ attempt)%N → delay RetryPolicy_default random attempt = 0%N.
Proof.
  intros Ha. unfold delay.
  assert (wrapping_mul u64_max 1000 (pow2_u64 (saturating_sub attempt 1)) = 0%N) as Hz.
  { unfold wrapping_mul, pow2_u64, saturating_sub, u64_max. rewrite N.Div0.mul_mod_idemp_r.
    replace (attempt - 1)%N with (61 + (attempt - 62))%N by lia. rewrite N.pow_add_r.
    replace (1000 * (2 ^ 61 * 2 ^ (attempt - 62)))%N
      with (125 * 2 ^ (attempt - 62) * (18446744073709551615 + 1))%N.
    - apply N.Div0.mod_mul.
    - change (2 ^ 61)%N with 2305843009213693952%N. lia. }
  simpl base_delay_ms. rewrite Hz. reflexivity.
Qed.

Lemma backoff_vanishes_witness : delay RetryPolicy_default None 62 = 0%N.
Proof. apply (backoff_vanishes None 62). vm_compute. discriminate. Defined.
