(* ===== verification/TurnStream.v ===== *)
(** * Consuming a provider stream

    [astrcode-session/src/llm_stream.rs]: the events of one response become an outcome and
    live events.  The scheduler's choices between cancellation and the next event are the
    input; the channel is closed where the input ends.  Log output is left out. *)

From S2P Require Import Prelude StdPath CoreTypes CoreLlm StoreTypes TurnFinalize ToolPrepare.

Definition MAX_TOOL_CALLS_PER_RESPONSE : N := 64.
Definition MAX_TOOL_CALL_ARGUMENTS_BYTES : N := 4 * 1024 * 1024.

Definition stream_parse_limit_error (message : string) : TurnError := Turn_Llm (StreamParse message).

Definition ensure_tool_call_args_limit (size : N) : result unit TurnError :=
  if bool_decide (MAX_TOOL_CALL_ARGUMENTS_BYTES < size)%N then
    Err (stream_parse_limit_error
           ("tool call arguments exceed limit (" +:+ pretty MAX_TOOL_CALL_ARGUMENTS_BYTES
            +:+ " bytes)"))
  else Ok tt.

Inductive StreamOutcome :=
| Complete (text reasoning_content finish_reason message_id : string) (message_started : bool)
           (usage : option LlmTokenUsage)
| ToolCalls (text : option string) (reasoning_content : string)
            (tool_calls : list StreamedToolCall) (message_id : string)
            (message_started : bool) (usage : option LlmTokenUsage).

(** The live events a response is shown with. *)
Inductive LiveEventPayload :=
| Live_LlmRetrying (status : option N) (attempt max_retries delay_ms : N)
| Live_LlmRetryRecovered
| Live_AssistantMessageStarted (message_id : string)
| Live_AssistantMessageReset (message_id : string)
| Live_AssistantTextDelta (message_id delta : string)
| Live_ThinkingDelta (message_id delta : string)
| Live_ToolCallStarted (call_id tool_name : string)
| Live_ToolCallArgumentsDelta (call_id delta : string)
| Live_ErrorOccurred (code : Z) (message : string) (recoverable : bool).

Record StreamConsumer := {
  sc_message_id : string;
  current_text : string;
  reasoning_content : string;
  tool_calls : list StreamedToolCall;
  message_started : bool;
  captured_usage : option LlmTokenUsage;
}.

Definition StreamConsumer_new (message_id : string) : StreamConsumer :=
  {| sc_message_id := message_id; current_text := ""; reasoning_content := ""; tool_calls := [];
     message_started := false; captured_usage := None |}.

(** The live event of the first output; the message has started afterwards. *)
Definition ensure_assistant_message_started (c : StreamConsumer) : list LiveEventPayload :=
  if message_started c then [] else [Live_AssistantMessageStarted (sc_message_id c)].

Definition handle_content_delta (c : StreamConsumer) (delta : string)
    : StreamConsumer * list LiveEventPayload :=
  ({| sc_message_id := sc_message_id c; current_text := current_text c +:+ delta;
      reasoning_content := reasoning_content c; tool_calls := tool_calls c;
      message_started := true; captured_usage := captured_usage c |},
   ensure_assistant_message_started c ++ [Live_AssistantTextDelta (sc_message_id c) delta]).

Definition reset_for_retry (c : StreamConsumer) : StreamConsumer * list LiveEventPayload :=
  ({| sc_message_id := sc_message_id c; current_text := ""; reasoning_content := "";
      tool_calls := []; message_started := false; captured_usage := None |},
   if message_started c then [Live_AssistantMessageReset (sc_message_id c)] else []).

Definition handle_thinking_delta (c : StreamConsumer) (delta : string)
    : StreamConsumer * list LiveEventPayload :=
  ({| sc_message_id := sc_message_id c; current_text := current_text c;
      reasoning_content := reasoning_content c +:+ delta; tool_calls := tool_calls c;
      message_started := true; captured_usage := captured_usage c |},
   ensure_assistant_message_started c ++ [Live_ThinkingDelta (sc_message_id c) delta]).

Definition with_tool_calls (c : StreamConsumer) (calls : list StreamedToolCall) : StreamConsumer :=
  {| sc_message_id := sc_message_id c; current_text := current_text c;
     reasoning_content := reasoning_content c; tool_calls := calls;
     message_started := message_started c; captured_usage := captured_usage c |}.

(** Whether a call is the one with this id. *)
Definition has_call_id (call_id : string) (t : StreamedToolCall) : bool :=
  bool_decide (st_call_id t = call_id).

Definition handle_tool_call_start (c : StreamConsumer) (call_id name arguments : string)
    : result (StreamConsumer * list LiveEventPayload) TurnError :=
  match find_first (has_call_id call_id) (tool_calls c) with
  | Some existing =>
    let? _ := ensure_tool_call_args_limit (str_len arguments) in
    Ok (with_tool_calls c
          (update_first (has_call_id call_id)
             (λ t, {| st_call_id := st_call_id t; st_name := name; st_arguments := arguments |})
             (tool_calls c)), [])
  | None =>
    if bool_decide (MAX_TOOL_CALLS_PER_RESPONSE ≤ N.of_nat (length (tool_calls c)))%N then
      Err (stream_parse_limit_error
             ("tool call count exceeds limit (" +:+ pretty MAX_TOOL_CALLS_PER_RESPONSE +:+ ")"))
    else
      let? _ := ensure_tool_call_args_limit (str_len arguments) in
      Ok (with_tool_calls c
            (tool_calls c ++ [{| st_call_id := call_id; st_name := name; st_arguments := arguments |}]),
          Live_ToolCallStarted call_id name ::
          (if is_empty arguments then [] else [Live_ToolCallArgumentsDelta call_id arguments]))
  end.

Definition handle_tool_call_delta (c : StreamConsumer) (call_id delta : string)
    : result (StreamConsumer * list LiveEventPayload) TurnError :=
  let? c :=
    match find_first (has_call_id call_id) (tool_calls c) with
    | Some tc =>
      let? _ := ensure_tool_call_args_limit
                  (saturating_add usize_max (str_len (st_arguments tc)) (str_len delta)) in
      Ok (with_tool_calls c
            (update_first (has_call_id call_id)
               (λ t, {| st_call_id := st_call_id t; st_name := st_name t;
                        st_arguments := st_arguments t +:+ delta |})
               (tool_calls c)))
    | None => Ok c
    end in
  Ok (c, [Live_ToolCallArgumentsDelta call_id delta]).

Definition handle_usage (c : StreamConsumer) (usage : LlmTokenUsage) : StreamConsumer :=
  {| sc_message_id := sc_message_id c; current_text := current_text c;
     reasoning_content := reasoning_content c; tool_calls := tool_calls c;
     message_started := message_started c; captured_usage := Some usage |}.

Definition consumer_finish (c : StreamConsumer) (finish_reason : string) : StreamOutcome :=
  match tool_calls c with
  | [] =>
    Complete (current_text c) (reasoning_content c) finish_reason (sc_message_id c)
      (message_started c) (captured_usage c)
  | _ =>
    ToolCalls (if is_empty (current_text c) then None else Some (current_text c))
      (reasoning_content c) (tool_calls c) (sc_message_id c) (message_started c)
      (captured_usage c)
  end.

(** What the loop sees next. *)
Inductive StreamInput := Cancelled | Received (event : LlmEvent).

Section Consume.
  Context (turn_error_to_string : TurnError → string).
  (** what persisting a durable error event answers *)
  Context (durable_error : string → result unit TurnError).

(** [StreamConsumer::handle_error]; a failed durable event is shown as a live error. *)
Definition handle_error (message : string) : TurnError * list LiveEventPayload :=
  if is_prompt_too_long_message message then
    (Turn_Llm (ContextWindowExceeded message),
     [Live_ErrorOccurred JSON_RPC_INTERNAL_ERROR message true])
  else
    match durable_error message with
    | Ok _ => (Turn_Llm (StreamParse message), [])
    | Err e => (e, [Live_ErrorOccurred JSON_RPC_INTERNAL_ERROR (turn_error_to_string e) false])
    end.

(** One event: the next state with its live events, or the end of the loop. *)
Definition consume_event (c : StreamConsumer) (event : LlmEvent)
    : (StreamConsumer + result StreamOutcome TurnError) * list LiveEventPayload :=
  match event with
  | Retrying status attempt max_retries delay_ms =>
    let '(c, live) := reset_for_retry c in
    (inl c, live ++ [Live_LlmRetrying status attempt max_retries delay_ms])
  | RetryRecovered => (inl c, [Live_LlmRetryRecovered])
  | ContentDelta delta => let '(c, live) := handle_content_delta c delta in (inl c, live)
  | ThinkingDelta delta => let '(c, live) := handle_thinking_delta c delta in (inl c, live)
  | ToolCallStart call_id name arguments =>
    match handle_tool_call_start c call_id name arguments with
    | Ok (c, live) => (inl c, live)
    | Err e => (inr (Err e), [])
    end
  | ToolCallDelta call_id delta =>
    match handle_tool_call_delta c call_id delta with
    | Ok (c, live) => (inl c, live)
    | Err e => (inr (Err e), [])
    end
  | Usage usage => (inl (handle_usage c usage), [])
  | Done finish_reason => (inr (Ok (consumer_finish c finish_reason)), [])
  | Error message => let '(e, live) := handle_error message in (inr (Err e), live)
  | ToolCallCompleted _ => (inl c, [])
  end.

Fixpoint consume_loop (c : StreamConsumer) (input : list StreamInput)
    : result StreamOutcome TurnError * list LiveEventPayload :=
  match input with
  | [] => (Err Turn_StreamEndedUnexpectedly, [])
  | Cancelled :: _ => (Err Turn_Aborted, [])
  | Received event :: input =>
    match consume_event c event with
    | (inl c, live) => let '(r, more) := consume_loop c input in (r, live ++ more)
    | (inr r, live) => (r, live)
    end
  end.

Definition consume_llm_stream (message_id : string) (input : list StreamInput)
    : result StreamOutcome TurnError * list LiveEventPayload :=
  consume_loop (StreamConsumer_new message_id) input.

End Consume.

(** ** The calls of an outcome *)

Definition call_ok (t : StreamedToolCall) : Prop :=
  (str_len (st_arguments t) ≤ MAX_TOOL_CALL_ARGUMENTS_BYTES)%N.

Record calls_ok (calls : list StreamedToolCall) : Prop := {
  calls_unique : NoDup (st_call_id <$> calls);
  calls_few : (N.of_nat (length calls) ≤ MAX_TOOL_CALLS_PER_RESPONSE)%N;
  calls_small : Forall call_ok calls;
}.

Lemma ensure_limit_ok size r :
  ensure_tool_call_args_limit size = Ok r → (size ≤ MAX_TOOL_CALL_ARGUMENTS_BYTES)%N.
Proof. unfold ensure_tool_call_args_limit. case_bool_decide; [done|lia]. Qed.

Lemma str_len_app a b : str_len (a +:+ b) = (str_len a + str_len b)%N.
Proof.
  unfold str_len, to_bytes. rewrite list_ascii_of_string_app, length_app. lia.
Qed.

(** Changing a call keeps the ids when the change keeps its id. *)
Lemma update_first_ids p f l :
  (∀ t, st_call_id (f t) = st_call_id t) →
  st_call_id <$> update_first p f l = st_call_id <$> l.
Proof.
  intros Hf. induction l as [|t l IH]; simpl; [done|].
  destruct (p t); csimpl; [by rewrite Hf|by rewrite IH].
Qed.

Lemma update_first_Forall {A} (P : A → Prop) p f l :
  Forall P l → (∀ t, find_first p l = Some t → P (f t)) → Forall P (update_first p f l).
Proof.
  induction 1 as [|t l Ht Hl IH]; intros Hf; simpl in *; [constructor|].
  destruct (p t); constructor; auto.
Qed.

Lemma find_first_none_ids call_id calls :
  find_first (has_call_id call_id) calls = None → call_id ∉ st_call_id <$> calls.
Proof.
  induction calls as [|t calls IH]; simpl; [by intros _ ?%elem_of_nil|].
  unfold has_call_id at 1. case_bool_decide as Hid; [done|]. intros H.
  rewrite not_elem_of_cons. split; [congruence|by apply IH].
Qed.

Lemma update_calls_ok p f calls :
  calls_ok calls → (∀ t, st_call_id (f t) = st_call_id t) →
  (∀ t, find_first p calls = Some t → call_ok (f t)) → calls_ok (update_first p f calls).
Proof.
  intros [Hu Hf Hs] Hid Hok. pose proof (update_first_ids p f calls Hid) as Hids.
  split; [by rewrite Hids| |by apply update_first_Forall].
  by rewrite <-(length_fmap st_call_id), Hids, length_fmap.
Qed.

Lemma handle_tool_call_start_ok c call_id name arguments c' live :
  calls_ok (tool_calls c) →
  handle_tool_call_start c call_id name arguments = Ok (c', live) → calls_ok (tool_calls c').
Proof.
  intros Hok. unfold handle_tool_call_start.
  destruct (find_first _ _) as [t|] eqn:Hfind.
  - destruct (ensure_tool_call_args_limit _) eqn:Hl; [|done]. apply ensure_limit_ok in Hl.
    intros [= <- <-]. simpl. by apply update_calls_ok.
  - case_bool_decide as Hfew; [done|].
    destruct (ensure_tool_call_args_limit _) eqn:Hl; [|done]. apply ensure_limit_ok in Hl.
    intros [= <- <-]. simpl. destruct Hok as [Hu Hf Hs]. split.
    + rewrite fmap_app. apply NoDup_app. split; [done|].
      split; [|apply NoDup_singleton]. intros x Hx ->%list_elem_of_singleton.
      by apply find_first_none_ids in Hfind.
    + rewrite length_app. unfold MAX_TOOL_CALLS_PER_RESPONSE in *. simpl. lia.
    + apply Forall_app_2; [done|]. by apply Forall_singleton.
Qed.

Lemma handle_tool_call_delta_ok c call_id delta c' live :
  calls_ok (tool_calls c) →
  handle_tool_call_delta c call_id delta = Ok (c', live) → calls_ok (tool_calls c').
Proof.
  intros Hok. unfold handle_tool_call_delta.
  destruct (find_first _ _) as [t|] eqn:Hfind; [|by intros [= <- <-]].
  destruct (ensure_tool_call_args_limit _) eqn:Hl; [|done]. apply ensure_limit_ok in Hl.
  intros [= <- <-]. simpl. apply update_calls_ok; [done..|].
  intros t' Ht'. assert (t' = t) as -> by congruence. unfold call_ok. simpl.
  rewrite str_len_app. unfold saturating_add, usize_max, MAX_TOOL_CALL_ARGUMENTS_BYTES in *. lia.
Qed.

Lemma consume_event_ok tes de c event c' live :
  calls_ok (tool_calls c) → consume_event tes de c event = (inl c', live) →
  calls_ok (tool_calls c').
Proof.
  intros Hok. destruct event; simpl; try (intros [= <- <-]; simpl; done).
  - intros [= <- <-]. simpl. split; [constructor|done|constructor].
  - destruct (handle_tool_call_start _ _ _ _) as [[c'' l]|e] eqn:H; [|done]. intros [= <- <-].
    by eapply handle_tool_call_start_ok.
  - destruct (handle_tool_call_delta _ _ _) as [[c'' l]|e] eqn:H; [|done]. intros [= <- <-].
    by eapply handle_tool_call_delta_ok.
  - by destruct (handle_error _ _ _).
Qed.

Lemma consume_calls_ok tes de message_id input text reasoning calls mid started usage live :
  consume_llm_stream tes de message_id input
  = (Ok (ToolCalls text reasoning calls mid started usage), live) →
  calls ≠ [] ∧ NoDup (st_call_id <$> calls)
  ∧ (N.of_nat (length calls) ≤ 64)%N
  ∧ Forall (λ t, (str_len (st_arguments t) ≤ 4194304)%N) calls.
Proof.
  unfold consume_llm_stream.
  assert (calls_ok (tool_calls (StreamConsumer_new message_id))) as Hok
    by (split; [constructor|done|constructor]).
  revert Hok live. generalize (StreamConsumer_new message_id).
  induction input as [|[|event] input IH]; intros c Hok live; simpl; [done..|].
  destruct (consume_event tes de c event) as [[c'|r] l] eqn:He.
  - apply consume_event_ok in He; [|done]. specialize (IH c' He).
    destruct (consume_loop tes de c' input) as [r more]. intros [= -> <-]. by eapply IH.
  - intros [= -> <-]. destruct event; simpl in He; try discriminate; try (by destruct (handle_error _ _ _)).
    + by destruct (handle_tool_call_start _ _ _ _) as [[]|].
    + by destruct (handle_tool_call_delta _ _ _) as [[]|].
    + unfold consumer_finish in He. destruct (tool_calls c) as [|t ts] eqn:Hc; [done|].
      injection He as _ _ <- _ _ _ _. destruct Hok as [Hu Hf Hs]. split_and!; [done|exact Hu|exact Hf|exact Hs].
Qed.

(** Whatever a provider streams, a response that asks for tools asks for between one and
    sixty-four calls with distinct ids, each with at most four mebibytes of arguments: what
    executing a step relies on. *)
Theorem streamed_calls_well_formed tes de message_id input text reasoning calls mid started usage live :
  consume_llm_stream tes de message_id input
  = (Ok (ToolCalls text reasoning calls mid started usage), live) →
  calls ≠ [] ∧ NoDup (st_call_id <$> calls)
  ∧ (N.of_nat (length calls) ≤ 64)%N
  ∧ Forall (λ t, (str_len (st_arguments t) ≤ 4194304)%N) calls.
Proof. apply consume_calls_ok. Qed.

Lemma streamed_calls_well_formed_witness :
  let input := Received <$>
    [ContentDelta "Let me look."; ToolCallStart "c1" "read" ""; ToolCallDelta "c1" "{}";
     ToolCallStart "c1" "grep" "{}"; ToolCallStart "c2" "ls" ""; Done "tool_use"] in
  ∃ calls live,
    consume_llm_stream (λ _, "") (λ _, Ok tt) "m" input
    = (Ok (ToolCalls (Some "Let me look.") "" calls "m" true None), live)
    ∧ st_call_id <$> calls = ["c1"; "c2"] ∧ NoDup (st_call_id <$> calls).
Proof.
  intros input. do 2 eexists. split; [vm_compute; reflexivity|]. split; [reflexivity|].
  refine (proj1 (proj2 (streamed_calls_well_formed (λ _, "") (λ _, Ok tt) "m" input _ _ _ _ _ _ _ _))).
  vm_compute. reflexivity.
Defined.

(** ** What a client is shown *)

(** The text and the reasoning of the message, as the live events show them. *)
Definition live_step (view : string * string) (live : LiveEventPayload) : string * string :=
  match live with
  | Live_AssistantMessageReset _ => ("", "")
  | Live_AssistantTextDelta _ delta => (view.1 +:+ delta, view.2)
  | Live_ThinkingDelta _ delta => (view.1, view.2 +:+ delta)
  | _ => view
  end.
Definition live_view (view : string * string) (live : list LiveEventPayload) : string * string :=
  foldl live_step view live.

(** The text and the reasoning of an outcome. *)
Definition outcome_view (o : StreamOutcome) : string * string :=
  match o with
  | Complete text reasoning _ _ _ _ => (text, reasoning)
  | ToolCalls text reasoning _ _ _ _ => (default "" text, reasoning)
  end.

(** The view agrees with the consumer, which holds no text before the message has started. *)
Definition view_ok (view : string * string) (c : StreamConsumer) : Prop :=
  view = (current_text c, reasoning_content c) ∧ (message_started c = false → view = ("", "")).

Lemma consume_event_view tes de view c event c' live :
  view_ok view c → consume_event tes de c event = (inl c', live) → view_ok (live_view view live) c'.
Proof.
  intros [-> Hs]. unfold view_ok, live_view.
  destruct event; simpl.
  - intros [= <- <-]. simpl. destruct (message_started c); simpl; [done|].
    split; [by apply Hs|done].
  - by intros [= <- <-].
  - intros [= <- <-]. simpl. split; [|done]. unfold ensure_assistant_message_started.
    by destruct (message_started c).
  - intros [= <- <-]. simpl. split; [|done]. unfold ensure_assistant_message_started.
    by destruct (message_started c).
  - destruct (handle_tool_call_start _ _ _ _) as [[c'' l]|] eqn:H; [|done]. intros [= <- <-].
    unfold handle_tool_call_start in H. cases; done.
  - destruct (handle_tool_call_delta _ _ _) as [[c'' l]|] eqn:H; [|done]. intros [= <- <-].
    unfold handle_tool_call_delta in H. cases; done.
  - by intros [= <- <-].
  - by intros [= <- <-].
  - done.
  - by destruct (handle_error _ _ _).
Qed.

Lemma consume_event_end_view tes de c event o live :
  consume_event tes de c event = (inr (Ok o), live) →
  live = [] ∧ outcome_view o = (current_text c, reasoning_content c).
Proof.
  destruct event; simpl; try done.
  - by destruct (handle_tool_call_start _ _ _ _) as [[]|].
  - by destruct (handle_tool_call_delta _ _ _) as [[]|].
  - intros [= <- <-]. split; [done|]. unfold consumer_finish. destruct (tool_calls c); [done|].
    simpl. by destruct (current_text c).
  - by destruct (handle_error _ _ _).
Qed.

(** The message a client has been shown when a response ends is the message of the
    outcome: text and reasoning, whatever was retried, started twice or left out. *)
Theorem live_message_is_outcome tes de message_id input o live :
  consume_llm_stream tes de message_id input = (Ok o, live) →
  live_view ("", "") live = outcome_view o.
Proof.
  unfold consume_llm_stream.
  assert (view_ok ("", "") (StreamConsumer_new message_id)) as Hv by done.
  revert Hv live. generalize (StreamConsumer_new message_id) ("", "").
  induction input as [|[|event] input IH]; intros c view Hv live; simpl; [done..|].
  destruct (consume_event tes de c event) as [[c'|r] l] eqn:He.
  - pose proof (consume_event_view _ _ _ _ _ _ _ Hv He) as Hv'. specialize (IH c' _ Hv').
    destruct (consume_loop tes de c' input) as [r more]. intros [= -> <-].
    unfold live_view. rewrite foldl_app. by apply IH.
  - intros [= -> <-]. apply consume_event_end_view in He as [-> ->]. by destruct Hv as [-> _].
Qed.

Lemma live_message_is_outcome_witness :
  let input := Received <$>
    [ThinkingDelta "hm"; ContentDelta "stale"; Retrying None 1 2 1000; RetryRecovered;
     ContentDelta "fresh"; Done "stop"] in
  live_view ("", "") (consume_llm_stream (λ _, "") (λ _, Ok tt) "m" input).2 = ("fresh", "").
Proof.
  intros input.
  rewrite (live_message_is_outcome (λ _, "") (λ _, Ok tt) "m" input
             (Complete "fresh" "" "stop" "m" true None) _); [reflexivity|].
  vm_compute. reflexivity.
Defined.

(** ** Running a part of the stream *)

Section Run.
  Context (tes : TurnError → string) (de : string → result unit TurnError).

(** The state after some events, or the answer they end the loop with. *)
Fixpoint run_events (c : StreamConsumer) (events : list LlmEvent)
    : StreamConsumer + result StreamOutcome TurnError :=
  match events with
  | [] => inl c
  | event :: events =>
    match (consume_event tes de c event).1 with
    | inl c => run_events c events
    | inr r => inr r
    end
  end.

Lemma consume_loop_run c a b :
  (consume_loop tes de c ((Received <$> a) ++ b)).1
  = match run_events c a with
    | inl c => (consume_loop tes de c b).1
    | inr r => r
    end.
Proof.
  revert c. induction a as [|e a IH]; intros c; simpl; [done|].
  destruct (consume_event tes de c e) as [[c'|r] l]; [|done]. simpl. rewrite <-IH.
  by destruct (consume_loop tes de c' _).
Qed.

Lemma run_events_app c a b :
  run_events c (a ++ b)
  = match run_events c a with inl c => run_events c b | inr r => inr r end.
Proof.
  revert c. induction a as [|e a IH]; intros c; simpl; [done|].
  destruct (consume_event tes de c e) as [[c'|r] l]; simpl; [apply IH|done].
Qed.

Lemma consume_event_message_id c event c' live :
  consume_event tes de c event = (inl c', live) → sc_message_id c' = sc_message_id c.
Proof.
  destruct event; simpl; try (by intros [= <- <-]); try done.
  - destruct (handle_tool_call_start _ _ _ _) as [[c'' l]|] eqn:H; [|done]. intros [= <- <-].
    unfold handle_tool_call_start in H. cases; done.
  - destruct (handle_tool_call_delta _ _ _) as [[c'' l]|] eqn:H; [|done]. intros [= <- <-].
    unfold handle_tool_call_delta in H. cases; done.
  - by destruct (handle_error _ _ _).
Qed.

Lemma run_events_message_id c events c' :
  run_events c events = inl c' → sc_message_id c' = sc_message_id c.
Proof.
  revert c. induction events as [|e events IH]; intros c; simpl; [by intros [= <-]|].
  destruct (consume_event tes de c e) as [[c''|r] l] eqn:He; [|done]. simpl.
  intros H. rewrite (IH _ H). by eapply consume_event_message_id.
Qed.

(** A retry starts over. *)
Lemma run_events_retrying c s a m d events :
  run_events c (Retrying s a m d :: events)
  = run_events (StreamConsumer_new (sc_message_id c)) events.
Proof. done. Qed.

End Run.
