(* ===== verification/AiAnthropic.v ===== *)
(** * The Anthropic stream parser

    [astrcode-ai/src/wire/anthropic/parser.rs] and [parse_stream] of [transport.rs], with the
    end-of-stream guard and the event channel of [common.rs].  JSON text and the iteration
    order of a hash set are parameters; log output is left out. *)

From S2P Require Import Prelude Utf8 StdPath CoreLlm StoreTypes AiStream AiRetry.

(** ** The event channel *)

(** Whether the receiver is still there is asked again and again; each question has its own
    number. *)
Record Channel := { sent : list LlmEvent; tick : nat }.

Definition Channel_new : Channel := {| sent := []; tick := 0 |}.

Section Parser.
  Context (receiver_open : nat → bool).
  Context (from_json : string → option Value) (value_to_string : Value → string).
  Context (hash_order : gset string → list string).

Definition is_closed (ch : Channel) : bool * Channel :=
  (negb (receiver_open (tick ch)), {| sent := sent ch; tick := S (tick ch) |}).

(** [send_event]. *)
Definition send_event (ch : Channel) (event : LlmEvent) : bool * Channel :=
  if receiver_open (tick ch) then
    (true, {| sent := sent ch ++ [event]; tick := S (tick ch) |})
  else (false, {| sent := sent ch; tick := S (tick ch) |}).

(** [DoneOnce::emit] on a channel: whether the channel is open, the guard and the channel. *)
Definition sink_emit (sink : bool) (ch : Channel) (finish_reason : string)
    : bool * (bool * Channel) :=
  if sink then (true, (true, ch))
  else let '(ok, ch) := send_event ch (Done finish_reason) in (ok, (true, ch)).

(** ** State *)

Record BlockStreamState := { bs_text : TextDeltaAccumulator; bs_thinking : TextDeltaAccumulator }.

Definition BlockStreamState_default : BlockStreamState :=
  {| bs_text := TextDeltaAccumulator_default; bs_thinking := TextDeltaAccumulator_default |}.

Record AnthropicStreamState := {
  sink : bool;
  usage_reported : bool;
  usage : option LlmTokenUsage;
  index_to_call_id : gmap N string;
  block_stream_state : gmap N BlockStreamState;
  started_tool_call_ids : gset string;
  saw_tool_call : bool;
}.

Definition AnthropicStreamState_default : AnthropicStreamState :=
  {| sink := false; usage_reported := false; usage := None; index_to_call_id := ∅;
     block_stream_state := ∅; started_tool_call_ids := ∅; saw_tool_call := false |}.

Definition with_sink (s : AnthropicStreamState) (b : bool) : AnthropicStreamState :=
  {| sink := b; usage_reported := usage_reported s; usage := usage s;
     index_to_call_id := index_to_call_id s; block_stream_state := block_stream_state s;
     started_tool_call_ids := started_tool_call_ids s; saw_tool_call := saw_tool_call s |}.
Definition with_usage (s : AnthropicStreamState) (reported : bool) (u : option LlmTokenUsage)
    : AnthropicStreamState :=
  {| sink := sink s; usage_reported := reported; usage := u;
     index_to_call_id := index_to_call_id s; block_stream_state := block_stream_state s;
     started_tool_call_ids := started_tool_call_ids s; saw_tool_call := saw_tool_call s |}.
Definition with_blocks (s : AnthropicStreamState) (m : gmap N BlockStreamState)
    : AnthropicStreamState :=
  {| sink := sink s; usage_reported := usage_reported s; usage := usage s;
     index_to_call_id := index_to_call_id s; block_stream_state := m;
     started_tool_call_ids := started_tool_call_ids s; saw_tool_call := saw_tool_call s |}.
Definition with_started (s : AnthropicStreamState) (ids : gset string) : AnthropicStreamState :=
  {| sink := sink s; usage_reported := usage_reported s; usage := usage s;
     index_to_call_id := index_to_call_id s; block_stream_state := block_stream_state s;
     started_tool_call_ids := ids; saw_tool_call := saw_tool_call s |}.

(** A started tool call, with the index of its block if the event has one. *)
Definition start_tool_call (s : AnthropicStreamState) (index : option N) (call_id : string)
    : AnthropicStreamState :=
  {| sink := sink s; usage_reported := usage_reported s; usage := usage s;
     index_to_call_id := match index with
                         | Some i => <[i := call_id]> (index_to_call_id s)
                         | None => index_to_call_id s
                         end;
     block_stream_state := block_stream_state s;
     started_tool_call_ids := {[ call_id ]} ∪ started_tool_call_ids s; saw_tool_call := true |}.

Definition has_started_tool_call (s : AnthropicStreamState) : bool := saw_tool_call s.

(** The loop of [emit_pending_tool_completions]; draining empties the set even when it stops. *)
Fixpoint send_completions (ch : Channel) (ids : list string) : bool * Channel :=
  match ids with
  | [] => (true, ch)
  | call_id :: ids =>
    let '(ok, ch) := send_event ch (ToolCallCompleted call_id) in
    if ok then send_completions ch ids else (false, ch)
  end.
Definition emit_pending_tool_completions (s : AnthropicStreamState) (ch : Channel)
    : bool * (AnthropicStreamState * Channel) :=
  let '(ok, ch) := send_completions ch (hash_order (started_tool_call_ids s)) in
  (ok, (with_started s ∅, ch)).

Definition block_index (event : Value) : option N := value_get event "index" ≫= as_u64.

(** [emit_block_stream_delta]. *)
Definition emit_block_stream_delta (b : BlockStreamState) (ch : Channel) (fragment : string)
    (is_thinking : bool) : bool * (BlockStreamState * Channel) :=
  let '(incremental, accumulator) :=
    accumulator_push (if is_thinking then bs_thinking b else bs_text b) fragment in
  let b := if is_thinking then {| bs_text := bs_text b; bs_thinking := accumulator |}
           else {| bs_text := accumulator; bs_thinking := bs_thinking b |} in
  match incremental with
  | None => (true, (b, ch))
  | Some delta =>
    let '(ok, ch) :=
      send_event ch (if is_thinking then ThinkingDelta delta else ContentDelta delta) in
    (ok, (b, ch))
  end.

Definition str_field (v : Value) (field : string) : option string := value_get v field ≫= as_str.
Definition u64_field (v : Value) (field : string) : option N := value_get v field ≫= as_u64.

(** [token_usage_has_value]. *)
Definition token_usage_has_value (u : LlmTokenUsage) : bool :=
  bool_decide (is_Some (input_tokens u)) || bool_decide (is_Some (cached_input_tokens u))
  || bool_decide (is_Some (cache_creation_input_tokens u))
  || bool_decide (is_Some (output_tokens u)) || bool_decide (is_Some (reasoning_output_tokens u))
  || bool_decide (is_Some (total_tokens u)).

Definition LlmTokenUsage_default : LlmTokenUsage :=
  {| input_tokens := None; cached_input_tokens := None; cache_creation_input_tokens := None;
     input_accounting := None; output_tokens := None; reasoning_output_tokens := None;
     total_tokens := None; usage_source := None |}.

(** [merge_anthropic_token_usage]: a field that is given replaces the accumulated one. *)
Definition merge_anthropic_token_usage (acc : option LlmTokenUsage) (v : Value)
    : option LlmTokenUsage :=
  let input := u64_field v "input_tokens" in
  let cached := u64_field v "cache_read_input_tokens" in
  let creation := u64_field v "cache_creation_input_tokens" in
  let output := u64_field v "output_tokens" in
  let token_usage :=
    {| input_tokens := input; cached_input_tokens := cached;
       cache_creation_input_tokens := creation;
       input_accounting := Some Accounting_Components; output_tokens := output;
       reasoning_output_tokens := None; total_tokens := None;
       usage_source := Some ProviderUsage |} in
  if token_usage_has_value token_usage then
    let a := default LlmTokenUsage_default acc in
    let replace (given old : option N) := match given with Some _ => given | None => old end in
    Some {| input_tokens := replace input (input_tokens a);
            cached_input_tokens := replace cached (cached_input_tokens a);
            cache_creation_input_tokens := replace creation (cache_creation_input_tokens a);
            input_accounting := input_accounting token_usage;
            output_tokens := replace output (output_tokens a);
            reasoning_output_tokens := reasoning_output_tokens a;
            total_tokens := total_tokens a;
            usage_source := usage_source token_usage |}
  else acc.

(** [emit_anthropic_token_usage]. *)
Definition emit_anthropic_token_usage (s : AnthropicStreamState) (ch : Channel)
    : bool * (AnthropicStreamState * Channel) :=
  if usage_reported s then (true, (s, ch))
  else match usage s with
  | None => (true, (s, ch))
  | Some u =>
    let '(ok, ch) := send_event ch (Usage u) in
    if ok then (true, (with_usage s true (usage s), ch)) else (false, (s, ch))
  end.

(** ** Events *)

(** A text or thinking block that starts. *)
Definition start_block (event block : Value) (s : AnthropicStreamState) (ch : Channel)
    (field : string) (is_thinking : bool) : bool * (AnthropicStreamState * Channel) :=
  match block_index event with
  | None => (true, (s, ch))
  | Some index =>
    match str_field block field with
    | Some text =>
      if is_empty text then
        (true, (with_blocks s (<[index := BlockStreamState_default]> (block_stream_state s)), ch))
      else
        let '(ok, (b, ch)) := emit_block_stream_delta BlockStreamState_default ch text is_thinking in
        (ok, (with_blocks s (<[index := b]> (block_stream_state s)), ch))
    | None =>
      (true, (with_blocks s (<[index := BlockStreamState_default]> (block_stream_state s)), ch))
    end
  end.

(** A text or thinking delta. *)
Definition block_delta (event delta : Value) (s : AnthropicStreamState) (ch : Channel)
    (field : string) (is_thinking : bool) : bool * (AnthropicStreamState * Channel) :=
  match block_index event with
  | None => (true, (s, ch))
  | Some index =>
    match str_field delta field with
    | Some text =>
      let b := default BlockStreamState_default (block_stream_state s !! index) in
      let '(ok, (b, ch)) := emit_block_stream_delta b ch text is_thinking in
      (ok, (with_blocks s (<[index := b]> (block_stream_state s)), ch))
    | None => (true, (s, ch))
    end
  end.

(** The tool use of a [content_block_start]. *)
Definition start_tool_use (event block : Value) (s : AnthropicStreamState) (ch : Channel)
    : bool * (AnthropicStreamState * Channel) :=
  match str_field block "id" with
  | None => (true, (s, ch))
  | Some call_id =>
    let name := default "" (str_field block "name") in
    let s := start_tool_call s (u64_field event "index") call_id in
    let initial_args :=
      match value_get block "input" with
      | Some (JObject (kv :: m)) => value_to_string (JObject (kv :: m))
      | _ => ""
      end in
    let '(ok, ch) := send_event ch (ToolCallStart call_id name initial_args) in
    (ok, (s, ch))
  end.

(** [handle_anthropic_event]. *)
Definition handle_anthropic_event (event_type : string) (event : Value)
    (s : AnthropicStreamState) (ch : Channel) : bool * (AnthropicStreamState * Channel) :=
  if bool_decide (event_type = "message_start") then
    match pointer event ["message"; "usage"] with
    | Some u => (true, (with_usage s (usage_reported s) (merge_anthropic_token_usage (usage s) u), ch))
    | None => (true, (s, ch))
    end
  else if bool_decide (event_type = "content_block_start") then
    match value_get event "content_block" with
    | None => (true, (s, ch))
    | Some block =>
      let kind := str_field block "type" in
      if bool_decide (kind = Some "tool_use") then start_tool_use event block s ch
      else if bool_decide (kind = Some "thinking") then start_block event block s ch "thinking" true
      else if bool_decide (kind = Some "text") then start_block event block s ch "text" false
      else (true, (s, ch))
    end
  else if bool_decide (event_type = "content_block_delta") then
    match value_get event "delta" with
    | None => (true, (s, ch))
    | Some delta =>
      let kind := str_field delta "type" in
      if bool_decide (kind = Some "text_delta") then block_delta event delta s ch "text" false
      else if bool_decide (kind = Some "thinking_delta") then
        block_delta event delta s ch "thinking" true
      else if bool_decide (kind = Some "input_json_delta") then
        match block_index event with
        | None => (true, (s, ch))
        | Some index =>
          let call_id := default (pretty index) (index_to_call_id s !! index) in
          match str_field delta "partial_json" with
          | Some partial =>
            let '(ok, ch) := send_event ch (ToolCallDelta call_id partial) in (ok, (s, ch))
          | None => (true, (s, ch))
          end
        end
      else (true, (s, ch))
    end
  else if bool_decide (event_type = "content_block_stop") then
    match u64_field event "index" with
    | None => (true, (s, ch))
    | Some index =>
      match index_to_call_id s !! index with
      | Some call_id =>
        let s := with_started s (started_tool_call_ids s ∖ {[ call_id ]}) in
        let '(ok, ch) := send_event ch (ToolCallCompleted call_id) in (ok, (s, ch))
      | None => (true, (s, ch))
      end
    end
  else if bool_decide (event_type = "message_delta") then
    let s := match value_get event "usage" with
             | Some u => with_usage s (usage_reported s) (merge_anthropic_token_usage (usage s) u)
             | None => s
             end in
    match pointer event ["delta"; "stop_reason"] ≫= as_str with
    | Some stop_reason =>
      let '(ok, (s, ch)) := emit_anthropic_token_usage s ch in
      if ok then
        let '(ok, (b, ch)) := sink_emit (sink s) ch stop_reason in (ok, (with_sink s b, ch))
      else (false, (s, ch))
    | None => (true, (s, ch))
    end
  else if bool_decide (event_type = "message_stop") then
    let '(ok, (s, ch)) := emit_anthropic_token_usage s ch in
    if ok then
      let '(ok, (b, ch)) := sink_emit (sink s) ch "stop" in (ok, (with_sink s b, ch))
    else (false, (s, ch))
  else if bool_decide (event_type = "error") then
    let message := default "unknown Anthropic error"
                     (pointer event ["error"; "message"] ≫= as_str) in
    let '(ok, ch) := send_event ch (Error message) in (ok, (s, ch))
  else (true, (s, ch)).

(** ** Lines *)

(** [str::strip_prefix]. *)
Definition str_strip_prefix (s pre : string) : option string :=
  if starts_with s pre then
    Some (String.substring (String.length pre) (String.length s - String.length pre) s)
  else None.

Record ParserState := {
  ps_state : AnthropicStreamState;
  ps_channel : Channel;
  current_event_type : string;
  has_data_line : bool;
}.

Definition ParserState_new : ParserState :=
  {| ps_state := AnthropicStreamState_default; ps_channel := Channel_new;
     current_event_type := ""; has_data_line := false |}.

(** [process_sse_line]. *)
Definition process_sse_line (line : string) (p : ParserState) : bool * ParserState :=
  match str_strip_prefix line "event:" with
  | Some ev_type =>
    (true, {| ps_state := ps_state p; ps_channel := ps_channel p;
              current_event_type := trim ev_type; has_data_line := has_data_line p |})
  | None =>
    match str_strip_prefix line "data:" with
    | None => (true, p)
    | Some data =>
      let data := trim data in
      let same := {| ps_state := ps_state p; ps_channel := ps_channel p;
                     current_event_type := current_event_type p; has_data_line := true |} in
      if is_empty data || bool_decide (data = "[DONE]") then (true, same)
      else
        let '(closed, ch) := is_closed (ps_channel p) in
        if closed then
          (false, {| ps_state := ps_state p; ps_channel := ch;
                     current_event_type := current_event_type p; has_data_line := true |})
        else match from_json data with
        | Some event =>
          let '(ok, (s, ch)) :=
            handle_anthropic_event (current_event_type p) event (ps_state p) ch in
          if ok then
            (true, {| ps_state := s; ps_channel := ch; current_event_type := "";
                      has_data_line := true |})
          else
            (false, {| ps_state := s; ps_channel := ch;
                       current_event_type := current_event_type p; has_data_line := true |})
        | None =>
          (true, {| ps_state := ps_state p; ps_channel := ch; current_event_type := "";
                    has_data_line := true |})
        end
    end
  end.

(** The parser after the lines seen so far, and the callback of [parse_stream]: what it
    answers for the next line. *)
Definition after_lines (seen : list bytes) : ParserState :=
  foldl (λ p line, (process_sse_line (of_bytes line) p).2) ParserState_new seen.
Definition on_line (seen : list bytes) (line : bytes) : bool :=
  (process_sse_line (of_bytes line) (after_lines seen)).1.

(** ** A response *)

Record SseStreamSummary := {
  summary_content_type : option string;
  bytes_read : N;
  body_preview : string;
}.

(** The beginning of the first chunk that is not empty. *)
Fixpoint stream_preview (stream : list (bool * result bytes string)) : string :=
  match stream with
  | (_, Ok (b :: bs)) :: _ => of_bytes (lossy (take 512 (b :: bs)))
  | _ :: stream => stream_preview stream
  | [] => ""
  end.

(** [SseStreamSummary::require_data_lines]. *)
Definition require_data_lines (summary : SseStreamSummary) (has_data_line : bool)
    : result unit LlmError :=
  if bool_decide (0 < bytes_read summary)%N && negb has_data_line then
    Err (StreamParse
      ("LLM returned 200 but response is not valid SSE (no data: lines found). Content-Type: "
       +:+ default "<missing>" (summary_content_type summary) +:+ ", bytes: "
       +:+ pretty (bytes_read summary) +:+ ", preview: "
       +:+ truncate_utf8 (body_preview summary) 256))
  else Ok tt.

(** [stream_decoder_error] and [stream_body_error]; the text of a body error is given. *)
Definition sse_error (e : SseError) : LlmError :=
  match e with
  | Sse_Body message => Transport message
  | Sse_Decoder BufferOverflow =>
    StreamParse ("stream buffer exceeded limit (" +:+ pretty MAX_STREAM_BUFFER_BYTES +:+ " bytes)")
  end.

(** The end of [parse_stream]: completions that are still due, and [Done] if it was not sent. *)
Definition finish_response (p : ParserState) : Channel :=
  let '(closed, ch) := is_closed (ps_channel p) in
  let '(s, ch) :=
    if closed then (ps_state p, ch) else (emit_pending_tool_completions (ps_state p) ch).2 in
  if sink s then ch
  else
    let '(closed, ch) := is_closed ch in
    if closed then ch else (sink_emit (sink s) ch "stop").2.2.

(** [parse_stream] on the body of a response, with the flags it was given. *)
Definition parse_stream (content_type : option string) (stream : list (bool * result bytes string))
    (flags : ReplayFlags) : Handled unit :=
  let '(completed, seen) := consume_sse_lines on_line [] [] [] 0 stream in
  let p := after_lines seen in
  let flags :=
    {| stream_started := stream_started flags || match seen with [] => false | _ => true end;
       stream_replay_safe := stream_replay_safe flags
                             && negb (has_started_tool_call (ps_state p)) |} in
  match completed with
  | Err e =>
    {| handled_result := Err (sse_error e); handled_flags := flags;
       handled_events := sent (ps_channel p) |}
  | Ok None =>
    {| handled_result := Ok tt; handled_flags := flags; handled_events := sent (ps_channel p) |}
  | Ok (Some n) =>
    match require_data_lines {| summary_content_type := content_type; bytes_read := n;
                                body_preview := stream_preview stream |} (has_data_line p) with
    | Err e =>
      {| handled_result := Err e; handled_flags := flags; handled_events := sent (ps_channel p) |}
    | Ok _ =>
      {| handled_result := Ok tt; handled_flags := flags; handled_events := sent (finish_response p) |}
    end
  end.

(** ** What the parser sends *)

Definition is_done (e : LlmEvent) : bool := match e with Done _ => true | _ => false end.
Definition is_tool_start (e : LlmEvent) : bool :=
  match e with ToolCallStart _ _ _ => true | _ => false end.
Definition is_usage (e : LlmEvent) : bool := match e with Usage _ => true | _ => false end.

Definition count (p : LlmEvent → bool) (l : list LlmEvent) : nat := length (List.filter p l).

(** The events sent so far, next to the state: [Done] and the usage at most once, each with
    its guard; tool calls only after the replay guard. *)
Record parser_ok (s : AnthropicStreamState) (ch : Channel) : Prop := {
  ok_done : count is_done (sent ch) ≤ if sink s then 1 else 0;
  ok_usage : count is_usage (sent ch) ≤ if usage_reported s then 1 else 0;
  ok_tools : count is_tool_start (sent ch) = 0 ∨ saw_tool_call s = true;
  ok_done_open : (∀ n, receiver_open n = true) →
                 count is_done (sent ch) = if sink s then 1 else 0;
}.

Lemma count_app p l1 l2 : count p (l1 ++ l2) = count p l1 + count p l2.
Proof. unfold count. by rewrite List.filter_app, length_app. Qed.

(** What is sent, if anything, goes behind what was sent. *)
Lemma send_event_sent ch e :
  sent (send_event ch e).2 = sent ch ++ if (send_event ch e).1 then [e] else [].
Proof. unfold send_event. destruct (receiver_open _); simpl; [done|by rewrite app_nil_r]. Qed.

Lemma parser_ok_ext s s' ch ch' :
  sink s' = sink s → usage_reported s' = usage_reported s → saw_tool_call s' = saw_tool_call s →
  sent ch' = sent ch → parser_ok s ch → parser_ok s' ch'.
Proof.
  intros Hs Hu Ht Hc []. split; rewrite Hc; [by rewrite Hs|by rewrite Hu|by rewrite Ht|by rewrite Hs].
Qed.

(** Events without a guard. *)
Definition plain_event (e : LlmEvent) : bool :=
  negb (is_done e) && negb (is_tool_start e) && negb (is_usage e).

Lemma parser_ok_plain s ch e :
  plain_event e = true → parser_ok s ch → parser_ok s (send_event ch e).2.
Proof.
  unfold plain_event. intros He [Hd Hu Ht Ho]. bools.
  assert (∀ p, p e = false → count p (sent (send_event ch e).2) = count p (sent ch)) as Hc.
  { intros p Hp. rewrite send_event_sent, count_app. destruct (send_event ch e).1; [|unfold count; simpl; lia].
    unfold count. simpl. rewrite Hp. simpl. lia. }
  split; by rewrite Hc.
Qed.

Lemma parser_ok_usage s ch :
  parser_ok s ch →
  let '(_, (s', ch')) := emit_anthropic_token_usage s ch in
  parser_ok s' ch' ∧ saw_tool_call s' = saw_tool_call s.
Proof.
  intros Hok. unfold emit_anthropic_token_usage.
  destruct (usage_reported s) eqn:Hr; [done|]. destruct (usage s) as [u|]; [|done].
  pose proof (send_event_sent ch (Usage u)) as Hs. destruct (send_event ch (Usage u)) as [ok ch'].
  simpl in Hs. destruct Hok as [Hd Hu Ht Ho]. rewrite Hr in Hu.
  destruct ok; (split; [|done]); split; simpl; rewrite Hs, count_app; unfold count in *; simpl;
    rewrite ?Hr; try lia; try (intros Hopen; rewrite (Ho Hopen); lia);
    destruct Ht; [left|right..|left|right]; done || lia.
Qed.

Lemma parser_ok_sink s ch reason :
  parser_ok s ch →
  let '(_, (b, ch')) := sink_emit (sink s) ch reason in parser_ok (with_sink s b) ch'.
Proof.
  intros Hok. unfold sink_emit. destruct (sink s) eqn:Hk.
  { eapply parser_ok_ext; [..|exact Hok]; done. }
  pose proof (send_event_sent ch (Done reason)) as Hs.
  assert ((∀ n, receiver_open n = true) → (send_event ch (Done reason)).1 = true) as Hopened
    by (intros Hopen; unfold send_event; by rewrite Hopen).
  destruct (send_event ch (Done reason)) as [ok ch'].
  simpl in Hs, Hopened. destruct Hok as [Hd Hu Ht Ho]. rewrite Hk in Hd, Ho.
  split; simpl; rewrite Hs, count_app; destruct ok; unfold count in *; simpl; try lia;
    try (intros Hopen; specialize (Hopened Hopen); specialize (Ho Hopen); done || lia);
    destruct Ht; [left|right|left|right]; done || lia.
Qed.

Lemma parser_ok_delta s b ch fragment is_thinking :
  parser_ok s ch →
  parser_ok s (emit_block_stream_delta b ch fragment is_thinking).2.2.
Proof.
  intros Hok. unfold emit_block_stream_delta.
  destruct (accumulator_push _ _) as [[delta|] acc]; [|done].
  pose proof (parser_ok_plain s ch (if is_thinking then ThinkingDelta delta else ContentDelta delta)) as H.
  destruct (send_event _ _) as [ok ch']. apply H; [by destruct is_thinking|done].
Qed.

Lemma parser_ok_start_block s ch event block field is_thinking :
  parser_ok s ch →
  let '(_, (s', ch')) := start_block event block s ch field is_thinking in parser_ok s' ch'.
Proof.
  intros Hok. unfold start_block. destruct (block_index event) as [i|]; [|done].
  destruct (str_field block field) as [text|]; [|by eapply parser_ok_ext; [..|exact Hok]].
  destruct (is_empty text); [by eapply parser_ok_ext; [..|exact Hok]|].
  pose proof (parser_ok_delta s BlockStreamState_default ch text is_thinking Hok) as H.
  destruct (emit_block_stream_delta _ _ _ _) as [ok [b ch']].
  by eapply parser_ok_ext; [..|exact H].
Qed.

Lemma parser_ok_block_delta s ch event delta field is_thinking :
  parser_ok s ch →
  let '(_, (s', ch')) := block_delta event delta s ch field is_thinking in parser_ok s' ch'.
Proof.
  intros Hok. unfold block_delta. destruct (block_index event) as [i|]; [|done].
  destruct (str_field delta field) as [text|]; [|done].
  pose proof (parser_ok_delta s (default BlockStreamState_default (block_stream_state s !! i)) ch
    text is_thinking Hok) as H.
  destruct (emit_block_stream_delta _ _ _ _) as [ok [b ch']].
  by eapply parser_ok_ext; [..|exact H].
Qed.

(** A tool call that is announced has set the replay guard. *)
Lemma parser_ok_start_tool_use s ch event block :
  parser_ok s ch →
  let '(_, (s', ch')) := start_tool_use event block s ch in parser_ok s' ch'.
Proof.
  intros Hok. unfold start_tool_use. destruct (str_field block "id") as [call_id|]; [|done].
  match goal with |- context [send_event ch ?e] => pose proof (send_event_sent ch e) as Hs end.
  destruct (send_event _ _) as [ok ch']. simpl in Hs. destruct Hok as [Hd Hu Ht Ho].
  split; simpl; rewrite Hs, count_app; destruct ok; unfold count in *; simpl; try lia;
    try (intros Hopen; specialize (Ho Hopen); lia); by right.
Qed.

Ltac plain_send :=
  match goal with
  | Hok : parser_ok ?s ?ch |- context [send_event ?ch ?e] =>
    let H := fresh in
    pose proof (parser_ok_plain s ch e eq_refl Hok) as H;
    destruct (send_event ch e); by eapply parser_ok_ext; [..|exact H]
  end.

Lemma handle_event_ok event_type event s ch :
  parser_ok s ch →
  let '(_, (s', ch')) := handle_anthropic_event event_type event s ch in parser_ok s' ch'.
Proof.
  intros Hok. unfold handle_anthropic_event.
  assert (∀ u, parser_ok (with_usage s (usage_reported s) u) ch) as Hu
    by (intros u; by eapply parser_ok_ext; [..|exact Hok]).
  case_bool_decide; [by destruct (pointer _ _)|].
  case_bool_decide.
  { destruct (value_get event "content_block") as [block|]; [|done].
    case_bool_decide; [by apply parser_ok_start_tool_use|].
    case_bool_decide; [by apply parser_ok_start_block|].
    case_bool_decide; [by apply parser_ok_start_block|done]. }
  case_bool_decide.
  { destruct (value_get event "delta") as [delta|]; [|done].
    case_bool_decide; [by apply parser_ok_block_delta|].
    case_bool_decide; [by apply parser_ok_block_delta|].
    case_bool_decide; [|done]. destruct (block_index event) as [i|]; [|done].
    destruct (str_field delta "partial_json") as [partial|]; [plain_send|done]. }
  case_bool_decide.
  { destruct (u64_field event "index") as [i|]; [|done].
    destruct (index_to_call_id s !! i) as [id|]; [plain_send|done]. }
  assert (∀ s reason, parser_ok s ch →
    let '(_, (s', ch')) :=
      let '(ok, (s, ch)) := emit_anthropic_token_usage s ch in
      if ok then
        let '(ok, (b, ch)) := sink_emit (sink s) ch reason in (ok, (with_sink s b, ch))
      else (false, (s, ch)) in parser_ok s' ch') as Hend.
  { intros s1 reason Hs1. pose proof (parser_ok_usage s1 ch Hs1) as Hs2.
    destruct (emit_anthropic_token_usage s1 ch) as [[] [s2 ch2]]; destruct Hs2 as [Hs2 _]; [|done].
    pose proof (parser_ok_sink s2 ch2 reason Hs2) as Hs3.
    by destruct (sink_emit _ _ _) as [ok [b ch3]]. }
  case_bool_decide.
  { destruct (pointer _ _ ≫= as_str); [apply Hend|]; by destruct (value_get event "usage"). }
  case_bool_decide; [by apply Hend|]. case_bool_decide; [plain_send|done].
Qed.

Lemma process_line_ok line p :
  parser_ok (ps_state p) (ps_channel p) →
  parser_ok (ps_state (process_sse_line line p).2) (ps_channel (process_sse_line line p).2).
Proof.
  intros Hok. unfold process_sse_line. destruct (str_strip_prefix line "event:"); [done|].
  destruct (str_strip_prefix line "data:") as [data|]; [|done].
  destruct (is_empty (trim data) || _); [done|]. simpl.
  assert (∀ t, parser_ok (ps_state p) {| sent := sent (ps_channel p); tick := t |}) as Hok'
    by (intros t; by eapply parser_ok_ext; [..|exact Hok]).
  destruct (receiver_open _); simpl; [|apply Hok'].
  destruct (from_json (trim data)) as [event|]; [|apply Hok'].
  pose proof (handle_event_ok (current_event_type p) event _ _ (Hok' (S (tick (ps_channel p))))) as H.
  by destruct (handle_anthropic_event _ _ _ _) as [[] [s' ch']].
Qed.

Lemma after_lines_ok seen :
  parser_ok (ps_state (after_lines seen)) (ps_channel (after_lines seen)).
Proof.
  unfold after_lines. assert (parser_ok (ps_state ParserState_new) (ps_channel ParserState_new)) as H
    by (split; [done..|by left|done]).
  revert H. generalize ParserState_new. induction seen as [|line seen IH]; intros p Hp; [done|].
  simpl. apply IH. by apply process_line_ok.
Qed.

Lemma send_completions_ok s ch ids :
  parser_ok s ch → parser_ok s (send_completions ch ids).2.
Proof.
  revert ch. induction ids as [|id ids IH]; intros ch Hok; simpl; [done|].
  pose proof (parser_ok_plain s ch (ToolCallCompleted id) eq_refl Hok) as H.
  destruct (send_event _ _) as [[] ch']; [by apply IH|done].
Qed.

(** The end of a response sends the [Done] that is missing, if the receiver is there. *)
Lemma finish_response_ok p :
  parser_ok (ps_state p) (ps_channel p) →
  ∃ s, parser_ok s (finish_response p) ∧ saw_tool_call s = saw_tool_call (ps_state p)
       ∧ ((∀ n, receiver_open n = true) → sink s = true).
Proof.
  intros Hok. unfold finish_response. simpl.
  assert (∀ t, parser_ok (ps_state p) {| sent := sent (ps_channel p); tick := t |}) as Hok'
    by (intros t; by eapply parser_ok_ext; [..|exact Hok]).
  set (sc := if negb (receiver_open _) then _ else _).
  assert (parser_ok sc.1 sc.2 ∧ saw_tool_call sc.1 = saw_tool_call (ps_state p)) as [Hsc Hsaw].
  { subst sc. destruct (negb _); [split; [apply Hok'|done]|]. unfold emit_pending_tool_completions.
    pose proof (send_completions_ok _ _ (hash_order (started_tool_call_ids (ps_state p))) (Hok' (S (tick (ps_channel p))))) as H.
    destruct (send_completions _ _) as [ok ch]. simpl. split; [|done].
    by eapply parser_ok_ext; [..|exact H]. }
  destruct sc as [s ch]. simpl in Hsc, Hsaw. destruct (sink s) eqn:Hk; [by exists s|]. simpl.
  assert (parser_ok s {| sent := sent ch; tick := S (tick ch) |}) as Hsc'
    by (by eapply parser_ok_ext; [..|exact Hsc]).
  destruct (receiver_open (tick ch)) eqn:Hopen; simpl.
  - pose proof (parser_ok_sink s _ "stop" Hsc') as H. rewrite Hk in H.
    revert H. unfold sink_emit. destruct (send_event _ _) as [ok ch']. intros H.
    exists (with_sink s true). done.
  - exists s. split; [done|]. split; [done|]. intros Hall. by rewrite Hall in Hopen.
Qed.

Section Open.
  Context (Hopen : ∀ n, receiver_open n = true).

Lemma send_event_open ch e : (send_event ch e).1 = true.
Proof. unfold send_event. by rewrite Hopen. Qed.

Lemma emit_delta_open b ch fragment is_thinking :
  (emit_block_stream_delta b ch fragment is_thinking).1 = true.
Proof.
  unfold emit_block_stream_delta. destruct (accumulator_push _ _) as [[delta|] acc]; [|done].
  pose proof (send_event_open ch (if is_thinking then ThinkingDelta delta else ContentDelta delta)).
  by destruct (send_event _ _).
Qed.

Ltac open_send :=
  match goal with
  | |- context [send_event ?ch ?e] =>
    let H := fresh in pose proof (send_event_open ch e) as H; by destruct (send_event ch e)
  end.

Lemma sink_emit_open b ch reason : (sink_emit b ch reason).1 = true.
Proof. unfold sink_emit. destruct b; [done|open_send]. Qed.

Lemma emit_usage_open s ch : (emit_anthropic_token_usage s ch).1 = true.
Proof.
  unfold emit_anthropic_token_usage. destruct (usage_reported s); [done|].
  destruct (usage s); [|done].
  match goal with
  | |- context [send_event ?ch ?e] => pose proof (send_event_open ch e); destruct (send_event ch e)
  end. simpl in *. by subst.
Qed.

Lemma handle_event_open event_type event s ch :
  (handle_anthropic_event event_type event s ch).1 = true.
Proof.
  unfold handle_anthropic_event, start_tool_use, start_block, block_delta.
  assert (∀ s reason,
    (let '(ok, (s, ch)) := emit_anthropic_token_usage s ch in
     if ok then
       let '(ok, (b, ch)) := sink_emit (sink s) ch reason in (ok, (with_sink s b, ch))
     else (false, (s, ch))).1 = true) as Hend.
  { intros s1 reason. pose proof (emit_usage_open s1 ch) as H.
    destruct (emit_anthropic_token_usage s1 ch) as [ok [s2 ch2]]. simpl in H. subst ok.
    pose proof (sink_emit_open (sink s2) ch2 reason). by destruct (sink_emit _ _ _) as [? []]. }
  repeat first
    [ done | apply Hend | open_send
    | match goal with
      | |- context [emit_block_stream_delta ?b ?ch ?f ?t] =>
        let H := fresh in
        pose proof (emit_delta_open b ch f t) as H;
        by destruct (emit_block_stream_delta b ch f t) as [? []]
      end
    | case_bool_decide | case_match ].
Qed.

Lemma process_line_open line p : (process_sse_line line p).1 = true.
Proof.
  unfold process_sse_line. destruct (str_strip_prefix line "event:"); [done|].
  destruct (str_strip_prefix line "data:") as [data|]; [|done].
  destruct (is_empty (trim data) || _); [done|]. simpl. rewrite Hopen. simpl.
  destruct (from_json (trim data)) as [event|]; [|done].
  match goal with
  | |- context [handle_anthropic_event ?a ?b ?c ?d] =>
    pose proof (handle_event_open a b c d) as H; destruct (handle_anthropic_event a b c d) as [ok [s ch]]
  end. simpl in H. by subst ok.
Qed.

End Open.

End Parser.

(** ** A callback that never stops *)

Lemma deliver_true on_line seen lines :
  (∀ s l, on_line s l = true) → (deliver_lines on_line seen lines).1 = true.
Proof.
  intros Ht. revert seen. induction lines as [|l lines IH]; intros seen; simpl; [done|].
  rewrite Ht. apply IH.
Qed.

Lemma consume_decoded_true on_line buffer text seen :
  (∀ s l, on_line s l = true) → (consume_decoded_lines on_line buffer text seen).1.1 ≠ Ok false.
Proof.
  intros Ht. unfold consume_decoded_lines. destruct (push_chunk buffer text) as [[lines|e] b]; [|done].
  pose proof (deliver_true on_line seen lines Ht). destruct (deliver_lines _ _ _). simpl in *. by subst.
Qed.

Lemma consume_never_stops on_line pending buffer seen n stream :
  (∀ s l, on_line s l = true) → Forall (λ c : bool * result bytes string, c.1 = false) stream →
  (consume_sse_lines on_line pending buffer seen n stream).1 ≠ Ok None.
Proof.
  intros Ht. revert pending buffer seen n. induction stream as [|[closed chunk] stream IH];
    intros pending buffer seen n Hc; cbn [consume_sse_lines].
  - assert ((match decoder_finish pending with
             | Some tail => consume_decoded_lines on_line buffer tail seen
             | None => (Ok true, buffer, seen)
             end).1.1 ≠ Ok false) as Ha
      by (destruct (decoder_finish pending); [by apply consume_decoded_true|done]).
    destruct (match decoder_finish pending with Some _ => _ | None => _ end)
      as [[[[]|e] b] s]; [|done..]. destruct (line_reader_flush b); [|done].
    by rewrite Ht.
  - apply Forall_cons in Hc as [Hc Hs]. simpl in Hc. rewrite Hc.
    destruct chunk as [chunk|e]; [|done].
    destruct (decoder_push pending chunk) as [[[text|]|e] p']; [|by apply IH|done].
    pose proof (consume_decoded_true on_line buffer text seen Ht) as Ha.
    destruct (consume_decoded_lines _ _ _ _) as [[[[]|e] b] s]; [by apply IH|done..].
Qed.

(** The events of a response are those of a parser state the flags agree with; at the end of
    a response that was read while the receiver was there, [Done] has been sent. *)
Lemma parse_stream_ok receiver_open from_json value_to_string hash_order content_type stream :
  let h := parse_stream receiver_open from_json value_to_string hash_order content_type stream
             {| stream_started := false; stream_replay_safe := true |} in
  ∃ s ch, parser_ok receiver_open s ch ∧ handled_events h = sent ch
    ∧ stream_replay_safe (handled_flags h) = negb (saw_tool_call s)
    ∧ (saw_tool_call s = true → stream_started (handled_flags h) = true)
    ∧ ((∀ n, receiver_open n = true) →
       Forall (λ c : bool * result bytes string, c.1 = false) stream →
       handled_result h = Ok tt → sink s = true).
Proof.
  intros h. subst h. unfold parse_stream.
  pose proof (consume_never_stops (on_line receiver_open from_json value_to_string) [] [] [] 0
    stream) as Hstop.
  destruct (consume_sse_lines _ _ _ _ _ _) as [completed seen]. simpl in Hstop.
  pose proof (after_lines_ok receiver_open from_json value_to_string seen) as Hok.
  assert (saw_tool_call (ps_state (after_lines receiver_open from_json value_to_string seen)) = true
          → match seen with [] => false | _ => true end = true) as Hseen by by destruct seen.
  set (p := after_lines _ _ _ _) in *.
  destruct completed as [[n|]|e].
  - destruct (require_data_lines _ _) as [[]|e];
      [|exists (ps_state p), (ps_channel p); by split_and!].
    destruct (finish_response_ok receiver_open hash_order p Hok) as (s & Hs & Hsaw & Hsink).
    exists s, (finish_response receiver_open hash_order p). rewrite Hsaw. split_and!; auto.
  - exists (ps_state p), (ps_channel p). split_and!; [done..|].
    intros Hopen Hc _. exfalso. apply Hstop; [|done|done]. intros. by apply process_line_open.
  - exists (ps_state p), (ps_channel p). by split_and!.
Qed.

(** What the Anthropic parser sends for a response: [Done] at most once and usage at most
    once; once a tool call was announced the stream has started and may not be replayed; and
    a response that was read to its end while the receiver was there is ended by exactly one
    [Done]. *)
Theorem anthropic_stream_disciplined receiver_open from_json value_to_string hash_order
    content_type stream :
  let h := parse_stream receiver_open from_json value_to_string hash_order content_type stream
             {| stream_started := false; stream_replay_safe := true |} in
  count is_done (handled_events h) ≤ 1
  ∧ count is_usage (handled_events h) ≤ 1
  ∧ (0 < count is_tool_start (handled_events h) →
     stream_started (handled_flags h) = true ∧ stream_replay_safe (handled_flags h) = false)
  ∧ ((∀ n, receiver_open n = true) → Forall (λ c : bool * result bytes string, c.1 = false) stream →
     handled_result h = Ok tt → count is_done (handled_events h) = 1).
Proof.
  intros h. destruct (parse_stream_ok receiver_open from_json value_to_string hash_order content_type
    stream) as (s & ch & [Hd Hu Ht Ho] & He & Hr & Hs & Hend).
  fold h in He, Hr, Hs, Hend. rewrite He. split_and!.
  - destruct (sink s); lia.
  - destruct (usage_reported s); lia.
  - intros Hpos. destruct Ht as [Ht|Ht]; [lia|]. rewrite Hr, Ht. split; [by apply Hs|done].
  - intros Hopen Hc Hok. by rewrite (Ho Hopen), (Hend Hopen Hc Hok).
Qed.

(** A text response in two chunks, without a stop event of its own. *)
Lemma anthropic_stream_disciplined_witness :
  let text := JObject [("index", JNumber (PosInt 0));
                       ("delta", JObject [("type", JString "text_delta"); ("text", JString "Hi")])] in
  let lf := String (ascii_of_N 10) "" in
  let stream := [(false, Ok (to_bytes ("event: content_block_delta" +:+ lf +:+ "da")));
                 (false, Ok (to_bytes ("ta: x" +:+ lf)))] in
  let h := parse_stream (λ _, true) (λ _, Some text) (λ _, "") elements None stream
             {| stream_started := false; stream_replay_safe := true |} in
  handled_events h = [ContentDelta "Hi"; Done "stop"] ∧ count is_done (handled_events h) = 1.
Proof.
  intros text lf stream h. split; [vm_compute; reflexivity|].
  apply (anthropic_stream_disciplined (λ _, true) (λ _, Some text) (λ _, "") elements None stream);
    [done|repeat constructor|vm_compute; reflexivity].
Defined.
