(* ===== verification/AiPipeline.v ===== *)
(** * From the HTTP request to the outcome of a response

    The request loop, a provider's parser and the session's consumer together: what a turn
    gets out of a provider whose connections break.  [report_stream_error] of
    [astrcode-ai/src/common.rs] ends the stream of a request that failed. *)

From S2P Require Import Prelude Utf8 StdPath CoreLlm StoreTypes AiStream AiRetry ToolPrepare TurnStream AiAnthropic.

Definition report_stream_error {A} (r : result A LlmError) : list LlmEvent :=
  match r with
  | Err e => [Error (LlmError_to_string e)]
  | Ok _ => []
  end.

Abbreviation fresh_flags := {| stream_started := false; stream_replay_safe := true |}.

Section Pipeline.
  Context {A : Type} (from_json : string → option Value) (policy : RetryPolicy).
  Context (send_once : nat → result Response LlmError).
  Context (on_success : nat → Response → ReplayFlags → Handled A) (random : nat → option N).

(** What the handler sent for the [i]-th request, if it was answered with success. *)
Definition attempt_events (i : nat) : list LlmEvent :=
  match send_once i with
  | Ok response =>
    if is_success response then handled_events (on_success i response fresh_flags) else []
  | Err _ => []
  end.

(** One pass, with the flags fresh: the events of this attempt behind an announcement, then
    either the end or a [Retrying] that starts over, flags fresh again; an attempt whose
    stream cannot be replayed is the last. *)
Inductive pass_shape (i : nat) : Iteration A * list LlmEvent → Prop :=
| pass_return r announced shown :
    announced = [] ∨ announced = [RetryRecovered] →
    shown = [] ∨ shown = attempt_events i →
    (∀ v, r = Ok v → ∃ response, send_once i = Ok response ∧ is_success response = true
                                 ∧ shown = attempt_events i) →
    pass_shape i (Return r, announced ++ shown)
| pass_continue s' announced st a m d :
    announced = [] ∨ announced = [RetryRecovered] →
    flags s' = fresh_flags →
    (∀ response, send_once i = Ok response → is_success response = true →
       let h := on_success i response fresh_flags in
       stream_started (handled_flags h) = false ∨ stream_replay_safe (handled_flags h) = true) →
    pass_shape i (Continue s', announced ++ attempt_events i ++ [Retrying st a m d]).

Lemma retry_step_shape i s :
  flags s = fresh_flags →
  pass_shape i (retry_step from_json policy true true send_once on_success random i s).
Proof.
  intros Hf. unfold retry_step, send_retrying_event. rewrite Hf.
  assert (∀ b : bool, (if b && true then [RetryRecovered] else []) = []
            ∨ (if b && true then [RetryRecovered] else []) = [RetryRecovered]) as Ha
    by (intros []; auto).
  destruct (send_once i) as [response|error] eqn:Hs; [destruct (is_success response) eqn:Hok|].
  - assert (attempt_events i = handled_events (on_success i response fresh_flags)) as He
      by (unfold attempt_events; by rewrite Hs, Hok).
    rewrite <-He. destruct (handled_result _) as [v|error] eqn:Hr.
    { apply pass_return; [apply Ha|by right|]. intros v' [= <-]. by exists response. }
    assert (pass_shape i (Return (Err error),
      (if retry_reported s && true then [RetryRecovered] else []) ++ attempt_events i)) as Hend
      by (apply pass_return; [apply Ha|by right|done]).
    destruct error; try exact Hend.
    destruct (true && _) eqn:Hreplay; [|exact Hend]. destruct (should_retry_transport _ _); [|exact Hend].
    rewrite <-app_assoc. apply pass_continue; [apply Ha|done|].
    intros response' Heq _. assert (response' = response) as -> by congruence.
    apply andb_true_iff in Hreplay as [_ Hreplay].
    apply orb_true_iff in Hreplay as [H|H]; [left; by apply negb_true_iff|by right].
  - assert (attempt_events i = []) as He by (unfold attempt_events; by rewrite Hs, Hok).
    destruct (bool_decide _ && _).
    + pose proof (pass_continue i
        {| http_retry_attempt := u32_incr (http_retry_attempt s);
           transport_retry_attempt := transport_retry_attempt s; retry_reported := true;
           flags := fresh_flags |} [] (Some (resp_status response)) (u32_incr (http_retry_attempt s))
        (max_retries policy) (delay policy (random i) (u32_incr (http_retry_attempt s)))) as H.
      rewrite He in H. apply H; [by left|done|]. intros r' ? ?. congruence.
    + apply (pass_return i _ [] []); [by left|by left|done].
  - assert (attempt_events i = []) as He by (unfold attempt_events; by rewrite Hs).
    destruct (should_retry_transport _ _).
    + pose proof (pass_continue i
        {| http_retry_attempt := http_retry_attempt s;
           transport_retry_attempt := u32_incr (transport_retry_attempt s); retry_reported := true;
           flags := fresh_flags |} [] None (u32_incr (transport_retry_attempt s))
        (max_transport_retries policy)
        (delay policy (random i) (u32_incr (transport_retry_attempt s)))) as H.
      rewrite He in H. apply H; [by left|done|congruence].
    + apply (pass_return i _ [] []); [by left|by left|done].
Qed.

(** The announcement changes nothing the consumer keeps. *)
Lemma run_announced tes de c announced events :
  announced = [] ∨ announced = [RetryRecovered] →
  run_events tes de c (announced ++ events) = run_events tes de c events.
Proof. by intros [->| ->]. Qed.

(** A failed request gives no outcome. *)
Lemma run_report tes de c (r : result A LlmError) o :
  run_events tes de c (report_stream_error r) ≠ inr (Ok o).
Proof. destruct r as [v|e]; simpl; [done|]. by destruct (handle_error _ _ _). Qed.

Lemma retry_loop_one_attempt tes de message_id o fuel i s r evs n :
  flags s = fresh_flags →
  retry_loop from_json policy true true send_once on_success random fuel i s = Some (r, evs, n) →
  run_events tes de (StreamConsumer_new message_id) (evs ++ report_stream_error r) = inr (Ok o) →
  ∃ k, i ≤ k < n ∧ run_events tes de (StreamConsumer_new message_id) (attempt_events k) = inr (Ok o).
Proof.
  revert i s evs. induction fuel as [|fuel IH]; intros i s evs Hf; [done|]. cbn [retry_loop].
  pose proof (retry_step_shape i s Hf) as Hshape.
  destruct (retry_step _ _ _ _ _ _ _ i s) as [it out].
  inversion Hshape as [r' ann shown Hann Hshown Hval|s' ann st a m d Hann Hf' Hreplay]; subst.
  - intros [= <- <- <-]. rewrite <-app_assoc, run_announced, run_events_app by done.
    destruct Hshown as [->| ->].
    + intros H. by apply run_report in H.
    + destruct (run_events tes de (StreamConsumer_new message_id) (attempt_events i)) as [c|r] eqn:Hrun.
      * intros H. by apply run_report in H.
      * intros [= ->]. exists i. split; [lia|done].
  - destruct (retry_loop _ _ _ _ _ _ _ fuel (S i) s') as [[[r2 more] n2]|] eqn:Hl; [|done].
    intros [= <- <- <-]. rewrite <-!app_assoc, run_announced, run_events_app by done.
    assert (S i ≤ n2) as Hle.
    { clear -Hl. revert i s' more Hl. induction fuel as [|fuel IH]; intros i s' more; [done|].
      cbn [retry_loop]. destruct (retry_step _ _ _ _ _ _ _ _ _) as [[s2|r2'] out].
      - destruct (retry_loop _ _ _ _ _ _ _ fuel _ s2) as [[[? ?] ?]|] eqn:H; [|done].
        intros [= <- <- <-]. apply IH in H. lia.
      - intros [= <- <- <-]. lia. }
    destruct (run_events tes de (StreamConsumer_new message_id) (attempt_events i)) as [c|rr] eqn:Hrun.
    + simpl app. rewrite run_events_retrying.
      rewrite (run_events_message_id _ _ _ _ _ Hrun). simpl sc_message_id. intros H.
      destruct (IH (S i) s' more Hf' Hl H) as (k & Hk & Hrk). exists k. split; [lia|done].
    + intros [= ->]. exists i. split; [lia|done].
Qed.

End Pipeline.

(** C14. A message comes from one attempt: however often a request is retried, in whatever
    state its streams broke, the outcome the turn gets is the one the events of a single
    answered request give by themselves; text, reasoning, tool calls and usage of abandoned
    attempts are not part of it. *)
Theorem message_from_one_attempt {A} from_json policy send_once
    (on_success : nat → Response → ReplayFlags → Handled A) random tes de message_id r evs n o live :
  request_with_retries from_json policy true true send_once on_success random = Some (r, evs, n) →
  consume_llm_stream tes de message_id (Received <$> evs ++ report_stream_error r) = (Ok o, live) →
  ∃ k response live',
    k < n ∧ send_once k = Ok response ∧ is_success response = true
    ∧ consume_llm_stream tes de message_id
        (Received <$> handled_events (on_success k response fresh_flags)) = (Ok o, live').
Proof.
  intros Hreq Hc. assert (∀ l, run_events tes de (StreamConsumer_new message_id) l = inr (Ok o) ↔
    (consume_llm_stream tes de message_id (Received <$> l)).1 = Ok o) as Hrun.
  { intros l. unfold consume_llm_stream. rewrite <-(app_nil_r (Received <$> l)), consume_loop_run.
    destruct (run_events _ _ _ _) as [c|r']; [by split|]. split; [by intros [= ->]|by intros ->]. }
  destruct (retry_loop_one_attempt from_json policy send_once on_success random tes de message_id o
    _ _ retry_start _ _ _ eq_refl Hreq) as (k & Hk & Hrk); [by rewrite Hrun, Hc|].
  apply Hrun in Hrk. unfold attempt_events in Hrk.
  destruct (send_once k) as [response|] eqn:Hs; [|done].
  destruct (is_success response) eqn:Hok; [|done].
  exists k, response, (consume_llm_stream tes de message_id
    (Received <$> handled_events (on_success k response fresh_flags))).2.
  split_and!; [lia|done|done|]. destruct (consume_llm_stream _ _ _ (Received <$> handled_events _)); simpl in *. by subst.
Qed.

(** A connection that breaks in the middle of a text, and a second attempt that answers. *)
Lemma message_from_one_attempt_witness :
  let ok := {| resp_status := 200; resp_retry_after := None; resp_text := Some "" |} in
  let on_success (i : nat) (_ : Response) (_ : ReplayFlags) :=
    if Nat.eqb i 0 then
      {| handled_result := Err (Transport "reset"); handled_events := [ContentDelta "stale"];
         handled_flags := {| stream_started := true; stream_replay_safe := true |} |}
    else
      {| handled_result := Ok tt; handled_events := [ContentDelta "fresh"; Done "stop"];
         handled_flags := {| stream_started := true; stream_replay_safe := true |} |} in
  ∃ k response live',
    k < 2 ∧ (λ _ : nat, @Ok Response LlmError ok) k = Ok response ∧ is_success response = true
    ∧ consume_llm_stream (λ _, "") (λ _, Ok tt) "m"
        (Received <$> handled_events (on_success k response fresh_flags))
      = (Ok (Complete "fresh" "" "stop" "m" true None), live').
Proof.
  intros ok on_success.
  refine (message_from_one_attempt (λ _, None) RetryPolicy_default (λ _, Ok ok) on_success
    (λ _, None) (λ _, "") (λ _, Ok tt) "m" (Ok tt)
    [ContentDelta "stale"; Retrying None 1 2 1000; RetryRecovered; ContentDelta "fresh"; Done "stop"]
    2 _ (consume_llm_stream (λ _, "") (λ _, Ok tt) "m" (Received <$>
    [ContentDelta "stale"; Retrying None 1 2 1000; RetryRecovered; ContentDelta "fresh"; Done "stop"])).2
    _ _); vm_compute; reflexivity.
Defined.

(** ** Tool calls are not replayed *)

Lemma retry_loop_tool_calls {A} from_json policy send_once
    (on_success : nat → Response → ReplayFlags → Handled A) random fuel i s r evs n :
  (∀ i response, let h := on_success i response fresh_flags in
     0 < count is_tool_start (handled_events h) →
     stream_started (handled_flags h) = true ∧ stream_replay_safe (handled_flags h) = false) →
  flags s = fresh_flags →
  retry_loop from_json policy true true send_once on_success random fuel i s = Some (r, evs, n) →
  ∃ pre last, evs = pre ++ last ∧ count is_tool_start pre = 0
    ∧ (last = [] ∨ last = attempt_events send_once on_success (pred n)).
Proof.
  intros Hguard. revert i s evs. induction fuel as [|fuel IH]; intros i s evs Hf; [done|].
  cbn [retry_loop]. pose proof (retry_step_shape from_json policy send_once on_success random i s Hf) as Hshape.
  assert (∀ ann, ann = [] ∨ ann = [RetryRecovered] → count is_tool_start ann = 0) as Hann0
    by (intros ? [->| ->]; done).
  destruct (retry_step _ _ _ _ _ _ _ i s) as [it out].
  inversion Hshape as [r' ann shown Hann Hshown Hval|s' ann st a m d Hann Hf' Hreplay]; subst.
  - intros [= <- <- <-]. exists ann, shown. split_and!; [done|by apply Hann0|by destruct Hshown; [left|right]].
  - destruct (retry_loop _ _ _ _ _ _ _ fuel (S i) s') as [[[r2 more] n2]|] eqn:Hl; [|done].
    intros [= <- <- <-]. destruct (IH _ _ _ Hf' Hl) as (pre & last & -> & Hpre & Hlast).
    exists ((ann ++ attempt_events send_once on_success i ++ [Retrying st a m d]) ++ pre), last.
    split_and!; [by rewrite (app_assoc _ pre last)| |done].
    rewrite !count_app, Hpre, (Hann0 _ Hann).
    assert (count is_tool_start (attempt_events send_once on_success i) = 0) as ->; [|done].
    unfold attempt_events. destruct (send_once i) as [response|] eqn:Hs; [|done].
    destruct (is_success response) eqn:Hok; [|done]. specialize (Hreplay response eq_refl Hok).
    specialize (Hguard i response). simpl in *.
    destruct (count is_tool_start _); [done|]. destruct Hguard as [H1 H2]; [lia|].
    rewrite H1, H2 in Hreplay. by destruct Hreplay.
Qed.

(** The guard of the Anthropic parser, as the request loop relies on it. *)
Lemma anthropic_guard receiver_open from_json value_to_string hash_order content_type stream :
  let h := parse_stream receiver_open from_json value_to_string hash_order content_type stream
             fresh_flags in
  0 < count is_tool_start (handled_events h) →
  stream_started (handled_flags h) = true ∧ stream_replay_safe (handled_flags h) = false.
Proof.
  intros h Hpos. destruct (parse_stream_ok receiver_open from_json value_to_string hash_order
    content_type stream) as (s & ch & [_ _ Ht _] & He & Hr & Hs & _).
  fold h in He, Hr, Hs. rewrite He in Hpos. destruct Ht as [Ht|Ht]; [lia|].
  rewrite Hr, Ht. split; [by apply Hs|done].
Qed.

(** A tool call of an Anthropic response is never announced twice by retrying: whatever
    the server and the connections do, every call that is announced belongs to the last
    request that was sent. *)
Theorem anthropic_tool_calls_not_replayed receiver_open from_json value_to_string hash_order policy
    send_once content_type body random r evs n :
  request_with_retries from_json policy true true send_once
    (λ i _ flags, parse_stream (receiver_open i) from_json value_to_string hash_order
                    (content_type i) (body i) flags) random = Some (r, evs, n) →
  ∃ pre last, evs = pre ++ last ∧ count is_tool_start pre = 0
    ∧ (last = [] ∨ last = handled_events
         (parse_stream (receiver_open (pred n)) from_json value_to_string hash_order
            (content_type (pred n)) (body (pred n)) fresh_flags)).
Proof.
  intros Hreq. apply retry_loop_tool_calls in Hreq as (pre & last & -> & Hpre & Hlast);
    [|intros; by apply anthropic_guard|done].
  exists pre, last. split_and!; [done..|]. destruct Hlast as [->|Hl]; [by left|].
  unfold attempt_events in Hl. destruct (send_once _) as [response|]; [|by left].
  destruct (is_success response); [by right|by left].
Qed.

(** A stream that breaks before its tool call, and one that breaks behind it: the second is
    not retried. *)
Lemma anthropic_tool_calls_not_replayed_witness :
  let ok := {| resp_status := 200; resp_retry_after := None; resp_text := None |} in
  let tool := JObject [("index", JNumber (PosInt 0));
                       ("content_block", JObject [("type", JString "tool_use"); ("id", JString "c1")])] in
  let from_json (s : string) := if bool_decide (s = "tool") then Some tool else None in
  let lf := String (ascii_of_N 10) "" in
  let body (i : nat) : list (bool * result bytes string) :=
    if Nat.eqb i 0 then [(false, Ok (to_bytes "event: ping")); (false, Err "reset")]
    else [(false, Ok (to_bytes ("event: content_block_start" +:+ lf +:+ "data: tool" +:+ lf)));
          (false, Err "reset")] in
  ∃ r evs n pre last,
    request_with_retries from_json RetryPolicy_default true true (λ _, Ok ok)
      (λ i _ flags, parse_stream (λ _, true) from_json (λ _, "") elements None (body i) flags)
      (λ _, None) = Some (r, evs, n)
    ∧ n = 2 ∧ evs = pre ++ last ∧ count is_tool_start pre = 0 ∧ count is_tool_start last = 1.
Proof.
  intros ok tool from_json lf body. do 3 eexists.
  edestruct (anthropic_tool_calls_not_replayed (λ _ _, true) from_json (λ _, "") elements
    RetryPolicy_default (λ _, Ok ok) (λ _, None) body (λ _, None))
    as (pre & last & Hevs & Hpre & Hlast); [vm_compute; reflexivity|].
  exists pre, last. split; [vm_compute; reflexivity|]. split; [reflexivity|].
  split; [exact Hevs|]. split; [exact Hpre|].
  assert (count is_tool_start (pre ++ last) = 1) as Hone by (rewrite <-Hevs; vm_compute; reflexivity).
  rewrite count_app, Hpre in Hone. exact Hone.
Defined.

(** ** An error that loses its kind

    A request that fails because the prompt exceeds the context window is classified as such
    from the code of the error body, but reaches the turn as text, which is recognised by
    other words: the turn takes it for a broken stream, reports it and does not compact. *)
Theorem context_window_error_lost tes de message_id :
  let message := "Your input exceeds the context window of this model." in
  let body := JObject [("error", JObject [("code", JString "context_length_exceeded");
                                          ("message", JString message)])] in
  let e := classify_error (λ _, Some body) 400 None "" in
  e = ContextWindowExceeded message
  ∧ (de (LlmError_to_string e) = Ok tt →
     (consume_llm_stream tes de message_id (Received <$> report_stream_error (@Err unit _ e))).1
     = Err (Turn_Llm (StreamParse (LlmError_to_string e)))).
Proof.
  intros message body e. assert (e = ContextWindowExceeded message) as He by (vm_compute; reflexivity).
  split; [done|]. rewrite He. intros Hde.
  assert (is_prompt_too_long_message (LlmError_to_string (ContextWindowExceeded message)) = false) as Hp
    by (vm_compute; reflexivity).
  cbn -[LlmError_to_string is_prompt_too_long_message]. unfold handle_error. by rewrite Hp, Hde.
Qed.
