(* ===== verification/SchedGates.v ===== *)
(** * Turn ownership and session gates

    [astrcode-server/src/turn_registry.rs], [delivery_gates.rs] and [queue_drains.rs], and the
    protocol the scheduler ([turn_scheduler.rs], [turn_scheduler/delivery.rs],
    [turn_scheduler/lifecycle.rs]) follows with them: operations under a gate, starts that
    outlive their operation, and closing.  A step is what happens under one lock; every
    interleaving of steps is considered.  Shared objects are numbered: a gate that was removed
    from the map and a new gate of the same session differ. *)

From S2P Require Import Prelude.

(** ** The registry *)

Inductive TurnEntryState := Reserved | Running (finished : bool).

Record TurnEntry := { te_turn_id : string; te_state : TurnEntryState }.

Abbreviation Registry := (gmap string TurnEntry).

Definition has_active (r : Registry) (session_id : string) : bool :=
  bool_decide (is_Some (r !! session_id)).

Definition active_turn_id (r : Registry) (session_id : string) : option string :=
  te_turn_id <$> r !! session_id.

Definition active_is_finished (r : Registry) (session_id : string) : bool :=
  match r !! session_id with
  | Some {| te_state := Running finished |} => finished
  | _ => false
  end.

(** [TurnRegistry::reserve]: the new registry, or [None] when the session has a turn. *)
Definition reserve (r : Registry) (session_id turn_id : string) : option Registry :=
  if has_active r session_id then None
  else Some (<[session_id := {| te_turn_id := turn_id; te_state := Reserved |}]> r).

Definition remove_if_matches (r : Registry) (session_id turn_id : string) : option Registry :=
  match r !! session_id with
  | Some entry => if bool_decide (te_turn_id entry = turn_id) then Some (delete session_id r) else None
  | None => None
  end.

(** [force_kill_if_running]: the turn that is killed; the entry stays. *)
Definition force_kill_if_running (r : Registry) (session_id expected : string) : option string :=
  match r !! session_id with
  | Some {| te_turn_id := turn_id; te_state := Running finished |} =>
    if bool_decide (turn_id = expected) && negb finished then Some turn_id else None
  | _ => None
  end.

(** [TurnReservation::activate]: whether the reservation became the running turn. *)
Definition activate (r : Registry) (session_id turn_id : string) : bool * Registry :=
  match r !! session_id with
  | Some {| te_turn_id := t; te_state := Reserved |} =>
    if bool_decide (t = turn_id) then
      (true, <[session_id := {| te_turn_id := turn_id; te_state := Running false |}]> r)
    else (false, r)
  | _ => (false, r)
  end.

(** ** Gates *)

Record Gate := {
  gate_session : string;
  closing : bool;
  holder : option nat;
  active_starts : nat;
}.

Definition gate_new (session_id : string) : Gate :=
  {| gate_session := session_id; closing := false; holder := None; active_starts := 0 |}.

Definition set_holder (h : option nat) (g : Gate) : Gate :=
  {| gate_session := gate_session g; closing := closing g; holder := h;
     active_starts := active_starts g |}.
Definition set_closing (g : Gate) : Gate :=
  {| gate_session := gate_session g; closing := true; holder := None;
     active_starts := active_starts g |}.
Definition set_starts (n : nat) (g : Gate) : Gate :=
  {| gate_session := gate_session g; closing := closing g; holder := holder g;
     active_starts := n |}.

(** An operation waits for the mutex of its gate or holds it; [op_begin] tells [begin] from
    [lock]. *)
Record Operation := { op_session : string; op_gate : nat; op_begin : bool; op_held : bool }.

(** A reserved execution: the reservation and the start lease it carries. *)
Record Start := {
  start_session : string;
  start_turn : string;
  start_gate : nat;
  start_armed : bool;
}.

Record Closure := { closure_session : string; closure_gate : nat; closure_waited : bool }.

Record Sched := {
  registry : Registry;
  gates : gmap string nat;
  gate_table : gmap nat Gate;
  operations : gmap nat Operation;
  starts : gmap nat Start;
  closures : gmap nat Closure;
  (** sessions with a closure that was finished before it had waited *)
  unwaited : gset string;
}.

Definition sched_new : Sched :=
  {| registry := ∅; gates := ∅; gate_table := ∅; operations := ∅; starts := ∅; closures := ∅;
     unwaited := ∅ |}.

Definition with_registry (r : Registry) (s : Sched) : Sched :=
  {| registry := r; gates := gates s; gate_table := gate_table s; operations := operations s;
     starts := starts s; closures := closures s; unwaited := unwaited s |}.
Definition with_gates (m : gmap string nat) (t : gmap nat Gate) (s : Sched) : Sched :=
  {| registry := registry s; gates := m; gate_table := t; operations := operations s;
     starts := starts s; closures := closures s; unwaited := unwaited s |}.
Definition with_operations (m : gmap nat Operation) (s : Sched) : Sched :=
  {| registry := registry s; gates := gates s; gate_table := gate_table s; operations := m;
     starts := starts s; closures := closures s; unwaited := unwaited s |}.
Definition with_starts (m : gmap nat Start) (s : Sched) : Sched :=
  {| registry := registry s; gates := gates s; gate_table := gate_table s;
     operations := operations s; starts := m; closures := closures s; unwaited := unwaited s |}.
Definition with_closures (m : gmap nat Closure) (s : Sched) : Sched :=
  {| registry := registry s; gates := gates s; gate_table := gate_table s;
     operations := operations s; starts := starts s; closures := m; unwaited := unwaited s |}.
Definition with_unwaited (u : gset string) (s : Sched) : Sched :=
  {| registry := registry s; gates := gates s; gate_table := gate_table s;
     operations := operations s; starts := starts s; closures := closures s; unwaited := u |}.

(** The new objects a step makes are named in it. *)
Inductive Action :=
| A_gate (session_id : string) (op gate : nat) (begin : bool)
| A_acquire (op : nat)
| A_drop (op : nat)
| A_reserve (op start : nat) (turn_id : string)
| A_activate (start : nat)
| A_release (start : nat)
| A_unlease (start : nat)
| A_finished (session_id : string)
| A_remove (session_id turn_id : string)
| A_close (op closure : nat)
| A_wait (closure : nat)
| A_finish (closure : nat)
| A_abandon (closure : nat).

(** [SessionDeliveryGates::gate], the first half of [lock] and [begin]. *)
Definition step_gate (session_id : string) (op gate : nat) (begin : bool) (s : Sched)
    : option Sched :=
  match operations s !! op, gates s !! session_id, gate_table s !! gate with
  | None, Some g, _ =>
    Some (with_operations (<[op := {| op_session := session_id; op_gate := g; op_begin := begin;
                                      op_held := false |}]> (operations s)) s)
  | None, None, None =>
    Some (with_operations (<[op := {| op_session := session_id; op_gate := gate; op_begin := begin;
                                      op_held := false |}]> (operations s))
            (with_gates (<[session_id := gate]> (gates s))
               (<[gate := gate_new session_id]> (gate_table s)) s))
  | _, _, _ => None
  end.

(** The mutex is free: [lock] gets it; [begin] gives it back when the session is closing. *)
Definition step_acquire (op : nat) (s : Sched) : option Sched :=
  match operations s !! op with
  | Some o =>
    match gate_table s !! op_gate o with
    | Some g =>
      if negb (op_held o) && bool_decide (holder g = None) then
        if op_begin o && closing g then Some (with_operations (delete op (operations s)) s)
        else
          Some (with_operations
                  (<[op := {| op_session := op_session o; op_gate := op_gate o;
                              op_begin := op_begin o; op_held := true |}]> (operations s))
                  (with_gates (gates s)
                     (<[op_gate o := set_holder (Some op) g]> (gate_table s)) s))
      else None
    | None => None
    end
  | None => None
  end.

(** A held operation, with its gate. *)
Definition held_operation (op : nat) (s : Sched) : option (Operation * Gate) :=
  match operations s !! op with
  | Some o =>
    if op_held o then match gate_table s !! op_gate o with Some g => Some (o, g) | None => None end
    else None
  | None => None
  end.

Definition step_drop (op : nat) (s : Sched) : option Sched :=
  match held_operation op s with
  | Some (o, g) =>
    Some (with_operations (delete op (operations s))
            (with_gates (gates s) (<[op_gate o := set_holder None g]> (gate_table s)) s))
  | None => None
  end.

(** [reserve_execution]: the reservation and its start lease.  Under [lock] the caller has
    asked [is_closing] before. *)
Definition step_reserve (op start : nat) (turn_id : string) (s : Sched) : option Sched :=
  match held_operation op s, starts s !! start with
  | Some (o, g), None =>
    if op_begin o || negb (closing g) then
      match reserve (registry s) (op_session o) turn_id with
      | Some r =>
        Some (with_starts
                (<[start := {| start_session := op_session o; start_turn := turn_id;
                               start_gate := op_gate o; start_armed := true |}]> (starts s))
                (with_gates (gates s)
                   (<[op_gate o := set_starts (S (active_starts g)) g]> (gate_table s))
                   (with_registry r s)))
      | None => None
      end
    else None
  | _, _ => None
  end.

Definition disarm (x : Start) : Start :=
  {| start_session := start_session x; start_turn := start_turn x; start_gate := start_gate x;
     start_armed := false |}.

(** [activate] disarms the reservation when it succeeds. *)
Definition step_activate (start : nat) (s : Sched) : option Sched :=
  match starts s !! start with
  | Some x =>
    if start_armed x then
      let '(ok, r) := activate (registry s) (start_session x) (start_turn x) in
      Some (with_starts (<[start := if ok then disarm x else x]> (starts s)) (with_registry r s))
    else None
  | None => None
  end.

(** An armed reservation is dropped. *)
Definition step_release (start : nat) (s : Sched) : option Sched :=
  match starts s !! start with
  | Some x =>
    if start_armed x then
      Some (with_starts (<[start := disarm x]> (starts s))
              (with_registry
                 (default (registry s)
                    (remove_if_matches (registry s) (start_session x) (start_turn x))) s))
    else None
  | None => None
  end.

(** The start lease is dropped, behind the reservation. *)
Definition step_unlease (start : nat) (s : Sched) : option Sched :=
  match starts s !! start with
  | Some x =>
    match gate_table s !! start_gate x with
    | Some g =>
      if start_armed x then None
      else Some (with_starts (delete start (starts s))
                   (with_gates (gates s)
                      (<[start_gate x := set_starts (pred (active_starts g)) g]> (gate_table s)) s))
    | None => None
    end
  | None => None
  end.

(** The task of a running turn ends. *)
Definition step_finished (session_id : string) (s : Sched) : option Sched :=
  match registry s !! session_id with
  | Some {| te_turn_id := t; te_state := Running _ |} =>
    Some (with_registry
            (<[session_id := {| te_turn_id := t; te_state := Running true |}]> (registry s)) s)
  | _ => None
  end.

(** What settling, aborting and cleaning up do to the registry. *)
Definition step_remove (session_id turn_id : string) (s : Sched) : option Sched :=
  match remove_if_matches (registry s) session_id turn_id with
  | Some r => Some (with_registry r s)
  | None => None
  end.

(** [close_operation] on an operation that [begin] gave. *)
Definition step_close (op closure : nat) (s : Sched) : option Sched :=
  match held_operation op s, closures s !! closure with
  | Some (o, g), None =>
    if op_begin o then
      Some (with_closures
              (<[closure := {| closure_session := op_session o; closure_gate := op_gate o;
                               closure_waited := false |}]> (closures s))
              (with_operations (delete op (operations s))
                 (with_gates (gates s) (<[op_gate o := set_closing g]> (gate_table s)) s)))
    else None
  | _, _ => None
  end.

(** [SessionClosure::wait_for_starts] returns. *)
Definition step_wait (closure : nat) (s : Sched) : option Sched :=
  match closures s !! closure with
  | Some c =>
    match gate_table s !! closure_gate c with
    | Some g =>
      if bool_decide (active_starts g = 0) then
        Some (with_closures
                (<[closure := {| closure_session := closure_session c;
                                 closure_gate := closure_gate c; closure_waited := true |}]>
                   (closures s)) s)
      else None
    | None => None
    end
  | None => None
  end.

(** [SessionClosure::finish], which is [remove_if_current]. *)
Definition step_finish (closure : nat) (s : Sched) : option Sched :=
  match closures s !! closure with
  | Some c =>
    let gates' :=
      if bool_decide (gates s !! closure_session c = Some (closure_gate c))
      then delete (closure_session c) (gates s) else gates s in
    let unwaited' := if closure_waited c then unwaited s else {[closure_session c]} ∪ unwaited s in
    Some (with_unwaited unwaited'
            (with_closures (delete closure (closures s)) (with_gates gates' (gate_table s) s)))
  | None => None
  end.

(** A closure dropped without [finish]: the session stays closed. *)
Definition step_abandon (closure : nat) (s : Sched) : option Sched :=
  match closures s !! closure with
  | Some _ => Some (with_closures (delete closure (closures s)) s)
  | None => None
  end.

Definition sched_step (a : Action) (s : Sched) : option Sched :=
  match a with
  | A_gate sid op gate begin => step_gate sid op gate begin s
  | A_acquire op => step_acquire op s
  | A_drop op => step_drop op s
  | A_reserve op start turn_id => step_reserve op start turn_id s
  | A_activate start => step_activate start s
  | A_release start => step_release start s
  | A_unlease start => step_unlease start s
  | A_finished sid => step_finished sid s
  | A_remove sid turn_id => step_remove sid turn_id s
  | A_close op closure => step_close op closure s
  | A_wait closure => step_wait closure s
  | A_finish closure => step_finish closure s
  | A_abandon closure => step_abandon closure s
  end.

Fixpoint sched_run (actions : list Action) (s : Sched) : option Sched :=
  match actions with
  | [] => Some s
  | a :: actions => sched_step a s ≫= sched_run actions
  end.

(** ** Invariant *)

(** The leases of a gate. *)
Definition leases (g : nat) (m : gmap nat Start) : nat :=
  size (filter (λ kv : nat * Start, start_gate kv.2 = g) m).

Record sched_ok (s : Sched) : Prop := {
  ok_gates : ∀ sid g, gates s !! sid = Some g →
    ∃ G, gate_table s !! g = Some G ∧ gate_session G = sid;
  ok_open : ∀ g G, gate_table s !! g = Some G → closing G = false →
    gates s !! gate_session G = Some g;
  ok_ops : ∀ o O, operations s !! o = Some O →
    ∃ G, gate_table s !! op_gate O = Some G ∧ gate_session G = op_session O
      ∧ (op_held O = true → holder G = Some o ∧ (op_begin O = true → closing G = false));
  ok_starts : ∀ i x, starts s !! i = Some x →
    ∃ G, gate_table s !! start_gate x = Some G ∧ gate_session G = start_session x;
  ok_count : ∀ g G, gate_table s !! g = Some G → active_starts G = leases g (starts s);
  ok_closures : ∀ c C, closures s !! c = Some C →
    ∃ G, gate_table s !! closure_gate C = Some G ∧ gate_session G = closure_session C
      ∧ closing G = true ∧ gates s !! closure_session C = Some (closure_gate C)
      ∧ (closure_waited C = true → active_starts G = 0);
  ok_unique : ∀ c1 c2 C1 C2, closures s !! c1 = Some C1 → closures s !! c2 = Some C2 →
    closure_gate C1 = closure_gate C2 → c1 = c2;
  ok_current : ∀ i x, starts s !! i = Some x → start_session x ∉ unwaited s →
    gates s !! start_session x = Some (start_gate x);
  ok_reserved : ∀ sid t, registry s !! sid = Some {| te_turn_id := t; te_state := Reserved |} →
    ∃ i x, starts s !! i = Some x ∧ start_session x = sid ∧ start_turn x = t
      ∧ start_armed x = true;
}.

Lemma leases_insert g m i x :
  m !! i = None → leases g (<[i := x]> m) = leases g m + if decide (start_gate x = g) then 1 else 0.
Proof.
  intros Hi. unfold leases. rewrite map_filter_insert. simpl. case_decide.
  - rewrite map_size_insert_None; [lia|]. apply map_lookup_filter_None. by left.
  - rewrite delete_id by done. lia.
Qed.

Lemma leases_update g m i x y :
  m !! i = Some x → start_gate y = start_gate x → leases g (<[i := y]> m) = leases g m.
Proof.
  intros Hi Hg. rewrite <-(insert_delete_id m i x) at 2 by done.
  rewrite <-insert_delete_eq. rewrite !leases_insert by apply lookup_delete_eq. by rewrite Hg.
Qed.

Lemma leases_delete g m i x :
  m !! i = Some x → leases g m = leases g (delete i m) + if decide (start_gate x = g) then 1 else 0.
Proof.
  intros Hi. rewrite <-(insert_delete_id m i x) at 1 by done.
  by rewrite leases_insert by apply lookup_delete_eq.
Qed.

Lemma leases_pos m i x : m !! i = Some x → leases (start_gate x) m ≠ 0.
Proof. intros Hi. rewrite (leases_delete _ _ _ _ Hi). rewrite decide_True by done. lia. Qed.

Lemma held_operation_Some op s o g :
  held_operation op s = Some (o, g) →
  operations s !! op = Some o ∧ op_held o = true ∧ gate_table s !! op_gate o = Some g.
Proof.
  unfold held_operation. destruct (operations s !! op) as [o'|]; [|done].
  destruct (op_held o') eqn:Hh; [|done]. destruct (gate_table s !! op_gate o') eqn:Hg; [|done].
  by intros [= -> ->].
Qed.

(** What a gate keeps when a step changes it. *)
Definition gate_like (G G' : Gate) : Prop :=
  gate_session G' = gate_session G ∧ active_starts G' = active_starts G.

Lemma with_closures_id s : with_closures (closures s) s = s.
Proof. by destruct s. Qed.

(** A step that leaves registry, starts and the map of gates alone, and changes one gate
    without its session or its starts. *)
Lemma sched_ok_gate s g G G' ops clos :
  sched_ok s → gate_table s !! g = Some G → gate_like G G' →
  (closing G' = false → closing G = false) →
  (∀ o O, ops !! o = Some O → op_gate O = g →
     gate_session G = op_session O
     ∧ (op_held O = true → holder G' = Some o ∧ (op_begin O = true → closing G' = false))) →
  (∀ o O, ops !! o = Some O → op_gate O ≠ g → operations s !! o = Some O) →
  (∀ c C, clos !! c = Some C → closures s !! c = Some C
     ∨ closure_gate C = g ∧ closing G' = true ∧ closing G = false
       ∧ closure_session C = gate_session G ∧ closure_waited C = false) →
  (∀ c C, clos !! c = Some C → closure_gate C = g → closures s !! c = Some C → closing G' = true) →
  (∀ c1 c2 C1 C2, clos !! c1 = Some C1 → clos !! c2 = Some C2 →
     closure_gate C1 = closure_gate C2 → c1 = c2) →
  sched_ok (with_closures clos (with_operations ops
              (with_gates (gates s) (<[g := G']> (gate_table s)) s))).
Proof.
  intros [] Hg [Hsess Hact] Hclo Hopg Hops Hcl Hclg Hun. split; simpl; try done.
  - intros sid g1 H1. destruct (ok_gates0 _ _ H1) as (G1 & HG1 & Hs1).
    destruct (decide (g1 = g)) as [->|Hne].
    + rewrite lookup_insert_eq. assert (G1 = G) as -> by congruence. exists G'. by rewrite Hsess.
    + rewrite lookup_insert_ne by done. by exists G1.
  - intros g1 G1. destruct (decide (g1 = g)) as [->|Hne].
    + rewrite lookup_insert_eq. intros [= <-] Hc. rewrite Hsess. by apply ok_open0; [|apply Hclo].
    + rewrite lookup_insert_ne by done. apply ok_open0.
  - intros o O HO. destruct (decide (op_gate O = g)) as [Heq|Hne].
    + destruct (Hopg _ _ HO Heq) as [H1 H2]. rewrite Heq, lookup_insert_eq. exists G'.
      rewrite Hsess. done.
    + rewrite lookup_insert_ne by done. apply ok_ops0. by eapply Hops.
  - intros i x Hx. destruct (ok_starts0 _ _ Hx) as (G1 & HG1 & Hs1).
    destruct (decide (start_gate x = g)) as [Heq|Hne].
    + rewrite Heq, lookup_insert_eq. exists G'. rewrite Hsess. split; [done|]. congruence.
    + rewrite lookup_insert_ne by done. by exists G1.
  - intros g1 G1. destruct (decide (g1 = g)) as [->|Hne].
    + rewrite lookup_insert_eq. intros [= <-]. rewrite Hact. by apply ok_count0.
    + rewrite lookup_insert_ne by done. apply ok_count0.
  - intros c C HC. destruct (decide (closure_gate C = g)) as [Heq|Hne].
    + rewrite Heq, lookup_insert_eq. exists G'. rewrite Hsess, Hact.
      destruct (Hcl _ _ HC) as [Hold|(_ & Hc' & Hc & Hs & Hw)].
      * destruct (ok_closures0 _ _ Hold) as (G1 & HG1 & Hs1 & Hc1 & Hcur & Hw).
        assert (G1 = G) as -> by congruence. split_and!; [done|done| |congruence|done].
        exact (Hclg _ _ HC Heq Hold).
      * split_and!; [done|done|done| |congruence]. rewrite Hs. by apply ok_open0.
    + rewrite lookup_insert_ne by done. destruct (Hcl _ _ HC) as [Hold|(? & _)]; [|done].
      exact (ok_closures0 _ _ Hold).
Qed.

(** The map of starts changes without changing the leases of any gate; the registry may
    change with it. *)
Lemma sched_ok_registry s r m :
  sched_ok s →
  (∀ i x, m !! i = Some x → ∃ y, starts s !! i = Some y ∧ start_gate x = start_gate y
                                ∧ start_session x = start_session y) →
  (∀ g, leases g m = leases g (starts s)) →
  (∀ sid t, r !! sid = Some {| te_turn_id := t; te_state := Reserved |} →
     ∃ i x, m !! i = Some x ∧ start_session x = sid ∧ start_turn x = t ∧ start_armed x = true) →
  sched_ok (with_starts m (with_registry r s)).
Proof.
  intros [] Hm Hl Hr. split; simpl; try done.
  - intros i x Hx. destruct (Hm _ _ Hx) as (y & Hy & -> & ->). by eapply ok_starts0.
  - intros g G HG. rewrite Hl. by apply ok_count0.
  - intros i x Hx. destruct (Hm _ _ Hx) as (y & Hy & -> & ->). by eapply ok_current0.
Qed.

Lemma sched_ok_new : sched_ok sched_new.
Proof. split; simpl; intros *; rewrite ?lookup_empty; done. Qed.

Lemma step_gate_ok sid op gate begin s s' :
  sched_ok s → step_gate sid op gate begin s = Some s' → sched_ok s'.
Proof.
  intros Hok. unfold step_gate. destruct (operations s !! op) eqn:Ho; [done|].
  destruct (gates s !! sid) as [g|] eqn:Hg.
  - intros [= <-]. destruct Hok. split; simpl; try done.
    intros o O. destruct (decide (o = op)) as [->|Hne].
    + rewrite lookup_insert_eq. intros [= <-]. simpl. destruct (ok_gates0 _ _ Hg) as (G & ? & ?).
      by exists G.
    + rewrite lookup_insert_ne by done. apply ok_ops0.
  - destruct (gate_table s !! gate) eqn:Ht; [done|]. intros [= <-]. destruct Hok.
    assert (∀ g G, gate_table s !! g = Some G → g ≠ gate) as Hne by (intros; congruence).
    split; simpl; try done.
    + intros sid1 g1. destruct (decide (sid1 = sid)) as [->|Hs].
      * rewrite lookup_insert_eq. intros [= <-]. exists (gate_new sid). by rewrite lookup_insert_eq.
      * rewrite lookup_insert_ne by done. intros H. destruct (ok_gates0 _ _ H) as (G & HG & ?).
        exists G. by rewrite lookup_insert_ne by (by eapply not_eq_sym, Hne).
    + intros g G. destruct (decide (g = gate)) as [->|Hg'].
      * rewrite lookup_insert_eq. intros [= <-] _. simpl. by rewrite lookup_insert_eq.
      * rewrite lookup_insert_ne by done. intros HG Hc. rewrite lookup_insert_ne; [by apply ok_open0|].
        intros Hs. specialize (ok_open0 _ _ HG Hc). congruence.
    + intros o O. destruct (decide (o = op)) as [->|Hne'].
      * rewrite lookup_insert_eq. intros [= <-]. simpl. exists (gate_new sid). by rewrite lookup_insert_eq.
      * rewrite lookup_insert_ne by done. intros HO. destruct (ok_ops0 _ _ HO) as (G & HG & ?).
        exists G. by rewrite lookup_insert_ne by (by eapply not_eq_sym, Hne).
    + intros i x Hx. destruct (ok_starts0 _ _ Hx) as (G & HG & ?). exists G.
      by rewrite lookup_insert_ne by (by eapply not_eq_sym, Hne).
    + intros g G. destruct (decide (g = gate)) as [->|Hg'].
      * rewrite lookup_insert_eq. intros [= <-]. simpl. symmetry. apply map_size_empty_iff.
        apply map_empty. intros i. apply map_lookup_filter_None. right. intros x Hx Hgx. simpl in Hgx.
        destruct (ok_starts0 _ _ Hx) as (G & HG & _). by apply (Hne _ _ HG).
      * rewrite lookup_insert_ne by done. apply ok_count0.
    + intros c C HC. destruct (ok_closures0 _ _ HC) as (G & HG & Hs & Hc & Hcur & Hw). exists G.
      rewrite lookup_insert_ne by (by eapply not_eq_sym, Hne).
      rewrite lookup_insert_ne by congruence. done.
    + intros i x Hx Hu. specialize (ok_current0 _ _ Hx Hu). rewrite lookup_insert_ne by congruence. done.
Qed.

Lemma step_acquire_ok op s s' :
  sched_ok s → step_acquire op s = Some s' → sched_ok s'.
Proof.
  intros Hok. unfold step_acquire. destruct (operations s !! op) as [o|] eqn:Ho; [|done].
  destruct (gate_table s !! op_gate o) as [G|] eqn:HG; [|done].
  destruct (negb (op_held o) && _) eqn:Hb; [|done]. bools.
  destruct (op_begin o && closing G) eqn:Hbc; intros [= <-].
  { destruct Hok. split; simpl; try done. intros o1 O. rewrite lookup_delete_Some. intros [_ H1].
    by apply ok_ops0. }
  destruct (ok_ops _ Hok _ _ Ho) as (G1 & HG1 & Hs & _). assert (G1 = G) as -> by congruence.
  assert (∀ o1 O, operations s !! o1 = Some O → op_held O = true → op_gate O ≠ op_gate o) as Hfree.
  { intros o1 O HO Hh Heq. destruct (ok_ops _ Hok _ _ HO) as (G2 & HG2 & _ & Hhold).
    rewrite Heq, HG in HG2. injection HG2 as <-. destruct (Hhold Hh). congruence. }
  rewrite <-(with_closures_id (with_operations _ _)).
  apply (sched_ok_gate s (op_gate o) G (set_holder (Some op) G)); simpl; auto.
  - by split.
  - intros o1 O. destruct (decide (o1 = op)) as [->|Hne].
    + rewrite lookup_insert_eq. intros [= <-] _. simpl. split; [done|]. intros _. split; [done|].
      intros Hbeg. rewrite Hbeg in Hbc. by destruct (closing G).
    + rewrite lookup_insert_ne by done. intros HO Heq. split.
      * destruct (ok_ops _ Hok _ _ HO) as (G2 & HG2 & Hs2 & _). congruence.
      * intros Hh. by destruct (Hfree _ _ HO Hh).
  - intros o1 O. destruct (decide (o1 = op)) as [->|Hne].
    + rewrite lookup_insert_eq. by intros [= <-].
    + by rewrite lookup_insert_ne by done.
  - intros c C HC Hcg _. destruct (ok_closures _ Hok _ _ HC) as (G2 & HG2 & _ & Hc2 & _).
    congruence.
  - apply (ok_unique _ Hok).
Qed.

(** A held operation goes away and its gate changes. *)
Lemma drop_held_ok op s o g G' closed clos :
  sched_ok s → held_operation op s = Some (o, g) → gate_like g G' → closing G' = closed →
  (closed = false → closing g = false) →
  (∀ c C, clos !! c = Some C → closures s !! c = Some C
     ∨ closure_gate C = op_gate o ∧ closing G' = true ∧ closing g = false
       ∧ closure_session C = gate_session g ∧ closure_waited C = false) →
  (∀ c C, closures s !! c = Some C → closure_gate C = op_gate o → closing G' = true) →
  (∀ c1 c2 C1 C2, clos !! c1 = Some C1 → clos !! c2 = Some C2 →
     closure_gate C1 = closure_gate C2 → c1 = c2) →
  sched_ok (with_closures clos (with_operations (delete op (operations s))
              (with_gates (gates s) (<[op_gate o := G']> (gate_table s)) s))).
Proof.
  intros Hok Hh Hlike Hcl Hback Hclos Hclg Hun. apply held_operation_Some in Hh as (Ho & Hheld & Hg).
  destruct (ok_ops _ Hok _ _ Ho) as (G1 & HG1 & Hs & Hhold). assert (G1 = g) as -> by congruence.
  destruct (Hhold Hheld) as [Hop _].
  apply (sched_ok_gate s (op_gate o) g G'); auto.
  - intros Hc. apply Hback. congruence.
  - intros o1 O. rewrite lookup_delete_Some. intros [Hne HO] Heq. split.
    + destruct (ok_ops _ Hok _ _ HO) as (G2 & HG2 & Hs2 & _). congruence.
    + intros Hh1. destruct (ok_ops _ Hok _ _ HO) as (G2 & HG2 & _ & Hhold2).
      rewrite Heq, Hg in HG2. injection HG2 as <-. destruct (Hhold2 Hh1). congruence.
  - intros o1 O. rewrite lookup_delete_Some. by intros [_ HO].
  - intros c C _ Heq HC. by eapply Hclg.
Qed.

Lemma step_drop_ok op s s' : sched_ok s → step_drop op s = Some s' → sched_ok s'.
Proof.
  intros Hok. unfold step_drop. destruct (held_operation op s) as [[o g]|] eqn:Hh; [|done].
  intros [= <-]. rewrite <-(with_closures_id (with_operations _ _)).
  eapply (drop_held_ok op s o g (set_holder None g) (closing g));
    auto; [by split| |apply (ok_unique _ Hok)].
  intros c C HC Heq. apply held_operation_Some in Hh as (_ & _ & Hg).
  destruct (ok_closures _ Hok _ _ HC) as (G2 & HG2 & _ & Hc2 & _). simpl. congruence.
Qed.

Lemma step_close_ok op closure s s' :
  sched_ok s → step_close op closure s = Some s' → sched_ok s'.
Proof.
  intros Hok. unfold step_close. destruct (held_operation op s) as [[o g]|] eqn:Hh; [|done].
  destruct (closures s !! closure) eqn:Hc; [done|]. destruct (op_begin o) eqn:Hb; [|done].
  intros [= <-]. pose proof Hh as (Ho & Hheld & Hg)%held_operation_Some.
  destruct (ok_ops _ Hok _ _ Ho) as (G1 & HG1 & Hs & Hhold). assert (G1 = g) as -> by congruence.
  destruct (Hhold Hheld) as [_ Hopen]. specialize (Hopen Hb).
  assert (∀ c C, closures s !! c = Some C → closure_gate C ≠ op_gate o) as Hno.
  { intros c C HC Heq. destruct (ok_closures _ Hok _ _ HC) as (G2 & HG2 & _ & Hc2 & _). congruence. }
  eapply (drop_held_ok op s o g (set_closing g) true
    (<[closure := {| closure_session := op_session o; closure_gate := op_gate o;
                     closure_waited := false |}]> (closures s))); auto; [by split|..].
  - intros c C. destruct (decide (c = closure)) as [->|Hne].
    + rewrite lookup_insert_eq. intros [= <-]. by right.
    + rewrite lookup_insert_ne by done. by left.
  - intros c1 c2 C1 C2. destruct (decide (c1 = closure)) as [->|H1], (decide (c2 = closure)) as [->|H2];
      rewrite ?lookup_insert_eq, ?lookup_insert_ne by done; [done|..].
    + intros [= <-] HC2 Heq. by destruct (Hno _ _ HC2).
    + intros HC1 [= <-] Heq. by destruct (Hno _ _ HC1).
    + intros HC1 HC2. by apply (ok_unique _ Hok).
Qed.

Lemma step_reserve_ok op start turn_id s s' :
  sched_ok s → step_reserve op start turn_id s = Some s' → sched_ok s'.
Proof.
  intros Hok. unfold step_reserve, reserve.
  destruct (held_operation op s) as [[o g]|] eqn:Hh; [|done].
  destruct (starts s !! start) eqn:Hst; [done|].
  destruct (op_begin o || negb (closing g)) eqn:Hb; [|done].
  destruct (has_active (registry s) (op_session o)) eqn:Hact; [done|]. intros [= <-].
  apply held_operation_Some in Hh as (Ho & Hheld & Hg).
  destruct (ok_ops _ Hok _ _ Ho) as (G1 & HG1 & Hs & Hhold). assert (G1 = g) as -> by congruence.
  destruct (Hhold Hheld) as [Hop Hopen].
  assert (closing g = false) as Hc.
  { destruct (op_begin o); [by apply Hopen|]. by apply negb_true_iff. }
  pose proof (ok_open _ Hok _ _ Hg Hc) as Hcur. rewrite Hs in Hcur.
  destruct Hok. split; simpl; try done.
  - intros sid g1 H1. destruct (ok_gates0 _ _ H1) as (G1 & HG1' & Hs1).
    destruct (decide (g1 = op_gate o)) as [->|Hne].
    + rewrite lookup_insert_eq. assert (G1 = g) as -> by congruence. by eexists.
    + rewrite lookup_insert_ne by done. by exists G1.
  - intros g1 G1. destruct (decide (g1 = op_gate o)) as [->|Hne].
    + rewrite lookup_insert_eq. intros [= <-] _. simpl. by rewrite Hs.
    + rewrite lookup_insert_ne by done. apply ok_open0.
  - intros o1 O HO. destruct (ok_ops0 _ _ HO) as (G1 & HG1' & Hs1 & Hh1).
    destruct (decide (op_gate O = op_gate o)) as [Heq|Hne].
    + rewrite Heq, lookup_insert_eq. assert (G1 = g) as -> by congruence. by eexists.
    + rewrite lookup_insert_ne by done. by exists G1.
  - intros i x. destruct (decide (i = start)) as [->|Hne].
    + rewrite lookup_insert_eq. intros [= <-]. simpl. rewrite lookup_insert_eq. by eexists.
    + rewrite lookup_insert_ne by done. intros Hx. destruct (ok_starts0 _ _ Hx) as (G1 & HG1' & Hs1).
      destruct (decide (start_gate x = op_gate o)) as [Heq|Hneg].
      * rewrite Heq, lookup_insert_eq. assert (G1 = g) as -> by congruence. by eexists.
      * rewrite lookup_insert_ne by done. by exists G1.
  - intros g1 G1. rewrite leases_insert by done. simpl.
    destruct (decide (g1 = op_gate o)) as [->|Hne].
    + rewrite lookup_insert_eq. intros [= <-]. simpl. rewrite decide_True by done.
      rewrite (ok_count0 _ _ Hg). lia.
    + rewrite lookup_insert_ne by done. intros HG1'. rewrite decide_False by done.
      rewrite (ok_count0 _ _ HG1'). lia.
  - intros c C HC. destruct (ok_closures0 _ _ HC) as (G1 & HG1' & Hs1 & Hc1 & ? & ?).
    assert (closure_gate C ≠ op_gate o) by (intros Heq; congruence).
    rewrite lookup_insert_ne by done. by exists G1.
  - intros i x. destruct (decide (i = start)) as [->|Hne].
    + rewrite lookup_insert_eq. intros [= <-] _. done.
    + rewrite lookup_insert_ne by done. apply ok_current0.
  - intros sid t. destruct (decide (sid = op_session o)) as [->|Hne].
    + rewrite lookup_insert_eq. intros [= <-]. exists start. rewrite lookup_insert_eq. by eexists.
    + rewrite lookup_insert_ne by done. intros H. destruct (ok_reserved0 _ _ H) as (i & x & Hx & ?).
      exists i, x. by rewrite lookup_insert_ne by congruence.
Qed.

Lemma remove_if_matches_Some r sid t r' :
  remove_if_matches r sid t = Some r' → r' = delete sid r ∧ active_turn_id r sid = Some t.
Proof.
  unfold remove_if_matches, active_turn_id. destruct (r !! sid) as [e|]; [|done].
  case_bool_decide; [|done]. intros [= <-]. simpl. by subst.
Qed.

Lemma with_starts_id s : with_starts (starts s) s = s.
Proof. by destruct s. Qed.

(** Only the registry changes, and gains no reservation. *)
Lemma sched_ok_registry_only s r :
  sched_ok s →
  (∀ sid t, r !! sid = Some {| te_turn_id := t; te_state := Reserved |} →
     registry s !! sid = Some {| te_turn_id := t; te_state := Reserved |}) →
  sched_ok (with_registry r s).
Proof.
  intros Hok Hr. rewrite <-(with_starts_id (with_registry r s)).
  apply sched_ok_registry; [done|by eauto|done|]. intros sid t H. by apply (ok_reserved _ Hok), Hr.
Qed.

Lemma step_activate_ok start s s' :
  sched_ok s → step_activate start s = Some s' → sched_ok s'.
Proof.
  intros Hok. unfold step_activate, activate. destruct (starts s !! start) as [x|] eqn:Hx; [|done].
  destruct (start_armed x) eqn:Ha; [|done].
  assert (sched_ok (with_starts (<[start := x]> (starts s)) (with_registry (registry s) s))) as Hsame.
  { apply sched_ok_registry; [done| | |].
    - intros i y. destruct (decide (i = start)) as [->|]; [|rewrite lookup_insert_ne by done; by eauto].
      rewrite lookup_insert_eq. intros [= <-]. by eauto.
    - intros g. by apply (leases_update _ _ _ x).
    - rewrite insert_id by done. apply (ok_reserved _ Hok). }
  destruct (registry s !! start_session x) as [[t []]|] eqn:Hr;
    try (intros [= <-]; exact Hsame).
  case_bool_decide as Ht; [|intros [= <-]; exact Hsame]. intros [= <-].
  apply sched_ok_registry; [done| | |].
  - intros i y. destruct (decide (i = start)) as [->|]; [|rewrite lookup_insert_ne by done; by eauto].
    rewrite lookup_insert_eq. intros [= <-]. by eauto.
  - intros g. by apply (leases_update _ _ _ x).
  - intros sid t1. destruct (decide (sid = start_session x)) as [->|Hne].
    + by rewrite lookup_insert_eq.
    + rewrite lookup_insert_ne by done. intros H. destruct (ok_reserved _ Hok _ _ H) as (i & y & Hy & Hsy & Hrest).
      exists i, y. rewrite lookup_insert_ne by congruence. done.
Qed.

Lemma step_release_ok start s s' :
  sched_ok s → step_release start s = Some s' → sched_ok s'.
Proof.
  intros Hok. unfold step_release. destruct (starts s !! start) as [x|] eqn:Hx; [|done].
  destruct (start_armed x) eqn:Ha; [|done]. intros [= <-].
  apply sched_ok_registry; [done| | |].
  - intros i y. destruct (decide (i = start)) as [->|]; [|rewrite lookup_insert_ne by done; by eauto].
    rewrite lookup_insert_eq. intros [= <-]. by eauto.
  - intros g. by apply (leases_update _ _ _ x).
  - intros sid t Hres. assert (registry s !! sid = Some {| te_turn_id := t; te_state := Reserved |}
      ∧ (sid = start_session x → t ≠ start_turn x)) as [Hold Hdiff].
    { destruct (remove_if_matches _ _ _) as [r|] eqn:Hrm; simpl in Hres.
      - apply remove_if_matches_Some in Hrm as [-> _]. apply lookup_delete_Some in Hres as [? ?].
        split; [done|congruence].
      - split; [done|]. intros -> ->. unfold remove_if_matches in Hrm. rewrite Hres in Hrm. simpl in Hrm.
        by rewrite bool_decide_true in Hrm. }
    destruct (ok_reserved _ Hok _ _ Hold) as (i & y & Hy & Hsy & Hty & Hay).
    exists i, y. rewrite lookup_insert_ne; [done|]. intros <-.
    assert (y = x) as -> by congruence. by apply Hdiff.
Qed.

Lemma step_unlease_ok start s s' :
  sched_ok s → step_unlease start s = Some s' → sched_ok s'.
Proof.
  intros Hok. unfold step_unlease. destruct (starts s !! start) as [x|] eqn:Hx; [|done].
  destruct (gate_table s !! start_gate x) as [g|] eqn:Hg; [|done].
  destruct (start_armed x) eqn:Ha; [done|]. intros [= <-].
  pose proof (leases_delete (start_gate x) _ _ _ Hx) as Hdel. rewrite decide_True in Hdel by done.
  destruct Hok. pose proof (ok_count0 _ _ Hg) as Hn. split; simpl; try done.
  - intros sid g1 H1. destruct (ok_gates0 _ _ H1) as (G1 & HG1' & Hs1).
    destruct (decide (g1 = start_gate x)) as [->|Hne].
    + rewrite lookup_insert_eq. assert (G1 = g) as -> by congruence. by eexists.
    + rewrite lookup_insert_ne by done. by exists G1.
  - intros g1 G1. destruct (decide (g1 = start_gate x)) as [->|Hne].
    + rewrite lookup_insert_eq. intros [= <-]. apply (ok_open0 _ _ Hg).
    + rewrite lookup_insert_ne by done. apply ok_open0.
  - intros o1 O HO. destruct (ok_ops0 _ _ HO) as (G1 & HG1' & Hs1 & Hh1).
    destruct (decide (op_gate O = start_gate x)) as [Heq|Hne].
    + rewrite Heq, lookup_insert_eq. assert (G1 = g) as -> by congruence. by eexists.
    + rewrite lookup_insert_ne by done. by exists G1.
  - intros i y. rewrite lookup_delete_Some. intros [_ Hy]. destruct (ok_starts0 _ _ Hy) as (G1 & HG1' & Hs1).
    destruct (decide (start_gate y = start_gate x)) as [Heq|Hneg].
    + rewrite Heq, lookup_insert_eq. assert (G1 = g) as -> by congruence. by eexists.
    + rewrite lookup_insert_ne by done. by exists G1.
  - intros g1 G1. destruct (decide (g1 = start_gate x)) as [->|Hne].
    + rewrite lookup_insert_eq. intros [= <-]. simpl. lia.
    + rewrite lookup_insert_ne by done. intros HG1'. rewrite (ok_count0 _ _ HG1').
      rewrite (leases_delete g1 _ _ _ Hx), decide_False by done. lia.
  - intros c C HC. destruct (ok_closures0 _ _ HC) as (G1 & HG1' & Hs1 & Hc1 & Hcur & Hw).
    destruct (decide (closure_gate C = start_gate x)) as [Heq|Hne].
    + rewrite Heq, lookup_insert_eq. assert (G1 = g) as -> by congruence. eexists.
      split; [done|]. simpl. split_and!; [done|done|congruence|]. intros Hcw. rewrite Hw by done. done.
    + rewrite lookup_insert_ne by done. by exists G1.
  - intros i y. rewrite lookup_delete_Some. intros [_ Hy]. exact (ok_current0 _ _ Hy).
  - intros sid t H. destruct (ok_reserved0 _ _ H) as (i & y & Hy & Hrest). exists i, y.
    rewrite lookup_delete_Some. split; [split; [|done]|done]. intros <-.
    destruct Hrest as (_ & _ & Hay). congruence.
Qed.

Lemma step_wait_ok closure s s' : sched_ok s → step_wait closure s = Some s' → sched_ok s'.
Proof.
  intros Hok. unfold step_wait. destruct (closures s !! closure) as [c|] eqn:Hc; [|done].
  destruct (gate_table s !! closure_gate c) as [g|] eqn:Hg; [|done].
  case_bool_decide as Hz; [|done]. intros [= <-]. destruct Hok. split; simpl; try done.
  - intros c1 C. destruct (decide (c1 = closure)) as [->|Hne].
    + rewrite lookup_insert_eq. intros [= <-]. simpl.
      destruct (ok_closures0 _ _ Hc) as (G & HG & ? & ? & ? & ?). exists G.
      assert (G = g) as -> by congruence. done.
    + rewrite lookup_insert_ne by done. apply ok_closures0.
  - intros c1 c2 C1 C2. destruct (decide (c1 = closure)) as [->|H1], (decide (c2 = closure)) as [->|H2];
      rewrite ?lookup_insert_eq, ?lookup_insert_ne by done; [done|..].
    + intros [= <-] HC2. simpl. by apply (ok_unique0 _ _ _ _ Hc HC2).
    + intros HC1 [= <-]. simpl. by apply (ok_unique0 _ _ _ _ HC1 Hc).
    + apply ok_unique0.
Qed.

(** A closure that has waited leaves no start of its session behind. *)
Lemma waited_no_starts s c C i x :
  sched_ok s → closures s !! c = Some C → closure_waited C = true →
  starts s !! i = Some x → start_session x = closure_session C →
  closure_session C ∈ unwaited s.
Proof.
  intros Hok Hc Hw Hx Hs. destruct (decide (closure_session C ∈ unwaited s)) as [|Hu]; [done|].
  destruct (ok_closures _ Hok _ _ Hc) as (G & HG & _ & _ & Hcur & Hz).
  rewrite <-Hs in Hu. pose proof (ok_current _ Hok _ _ Hx Hu) as Hcx. rewrite Hs, Hcur in Hcx.
  injection Hcx as Hgx. destruct (leases_pos _ _ _ Hx). rewrite <-Hgx.
  by rewrite <-(ok_count _ Hok _ _ HG), Hz.
Qed.

Lemma step_finish_ok closure s s' : sched_ok s → step_finish closure s = Some s' → sched_ok s'.
Proof.
  intros Hok. unfold step_finish. destruct (closures s !! closure) as [c|] eqn:Hc; [|done].
  destruct (ok_closures _ Hok _ _ Hc) as (G & HG & Hs & Hcl & Hcur & Hz).
  rewrite bool_decide_true by done. intros [= <-].
  pose proof (waited_no_starts s closure c) as Hnone. destruct Hok. split; simpl; try done.
  - intros sid g. rewrite lookup_delete_Some. intros [_ H]. by apply ok_gates0.
  - intros g G1 HG1 Hc1. rewrite lookup_delete_ne; [by apply ok_open0|].
    intros Heq. pose proof (ok_open0 _ _ HG1 Hc1) as H1. rewrite <-Heq, Hcur in H1. congruence.
  - intros c1 C1. rewrite lookup_delete_Some. intros [Hne H1].
    destruct (ok_closures0 _ _ H1) as (G1 & HG1 & Hs1 & Hcl1 & Hcur1 & Hz1). exists G1.
    split_and!; try done. rewrite lookup_delete_ne; [done|]. intros Heq.
    apply Hne. symmetry. apply (ok_unique0 _ _ _ _ H1 Hc). rewrite <-Heq, Hcur in Hcur1. congruence.
  - intros c1 c2 C1 C2. rewrite !lookup_delete_Some. intros [_ H1] [_ H2]. exact (ok_unique0 _ _ _ _ H1 H2).
  - intros i x Hx Hu. rewrite lookup_delete_ne.
    + apply (ok_current0 _ _ Hx). destruct (closure_waited c); set_solver.
    + intros Heq. apply Hu. destruct (closure_waited c) eqn:Hw; [|set_solver].
      rewrite <-Heq. eapply Hnone; [by split|done..].
Qed.

Lemma step_abandon_ok closure s s' : sched_ok s → step_abandon closure s = Some s' → sched_ok s'.
Proof.
  intros Hok. unfold step_abandon. destruct (closures s !! closure) as [c|]; [|done].
  intros [= <-]. destruct Hok. split; simpl; try done.
  - intros c1 C1. rewrite lookup_delete_Some. intros [_ H]. exact (ok_closures0 _ _ H).
  - intros c1 c2 C1 C2. rewrite !lookup_delete_Some. intros [_ H1] [_ H2]. exact (ok_unique0 _ _ _ _ H1 H2).
Qed.

Lemma sched_step_ok a s s' : sched_ok s → sched_step a s = Some s' → sched_ok s'.
Proof.
  intros Hok. destruct a; simpl.
  - by apply step_gate_ok.
  - by apply step_acquire_ok.
  - by apply step_drop_ok.
  - by apply step_reserve_ok.
  - by apply step_activate_ok.
  - by apply step_release_ok.
  - by apply step_unlease_ok.
  - unfold step_finished. destruct (registry s !! session_id) as [[t []]|] eqn:Hr; [done| |done].
    intros [= <-]. apply sched_ok_registry_only; [done|]. intros sid t1.
    destruct (decide (sid = session_id)) as [->|]; [by rewrite lookup_insert_eq|by rewrite lookup_insert_ne].
  - unfold step_remove. destruct (remove_if_matches _ _ _) as [r|] eqn:Hrm; [|done]. intros [= <-].
    apply remove_if_matches_Some in Hrm as [-> _]. apply sched_ok_registry_only; [done|].
    intros sid t. rewrite lookup_delete_Some. by intros [_ ?].
  - by apply step_close_ok.
  - by apply step_wait_ok.
  - by apply step_finish_ok.
  - by apply step_abandon_ok.
Qed.

Lemma sched_run_ok actions s s' : sched_ok s → sched_run actions s = Some s' → sched_ok s'.
Proof.
  revert s. induction actions as [|a actions IH]; intros s Hok; simpl; [by intros [= <-]|].
  destruct (sched_step a s) as [s1|] eqn:Hs; [|done]. simpl. apply IH. by eapply sched_step_ok.
Qed.

(** C15. In every interleaving of operations, starts and closings: two operations that [begin]
    admitted never hold the same session; every reserved turn has an owner that will release
    it; while a session is being closed no operation is admitted to it; and once the closing
    has waited for the starts, no start of the session is under way and none can begin, so the
    turn it finds in the registry is running and can be ended (unless an earlier closing of
    the session was given up before it had waited). *)
Theorem closing_excludes_starts actions s :
  sched_run actions sched_new = Some s →
  (∀ o1 o2 O1 O2, operations s !! o1 = Some O1 → operations s !! o2 = Some O2 →
     op_held O1 = true → op_held O2 = true → op_begin O1 = true → op_begin O2 = true →
     op_session O1 = op_session O2 → o1 = o2)
  ∧ (∀ sid t, registry s !! sid = Some {| te_turn_id := t; te_state := Reserved |} →
       ∃ i x, starts s !! i = Some x ∧ start_session x = sid ∧ start_turn x = t
         ∧ start_armed x = true)
  ∧ (∀ c C, closures s !! c = Some C →
       (∀ o O, operations s !! o = Some O → op_held O = true → op_begin O = true →
          op_session O ≠ closure_session C)
       ∧ (closure_waited C = true → closure_session C ∉ unwaited s →
          (∀ i x, starts s !! i = Some x → start_session x ≠ closure_session C)
          ∧ ∀ t, registry s !! closure_session C
                 ≠ Some {| te_turn_id := t; te_state := Reserved |})).
Proof.
  intros Hrun. pose proof (sched_run_ok _ _ _ sched_ok_new Hrun) as Hok.
  assert (∀ o O, operations s !! o = Some O → op_held O = true → op_begin O = true →
    ∃ G, gate_table s !! op_gate O = Some G ∧ holder G = Some o
         ∧ gates s !! op_session O = Some (op_gate O) ∧ closing G = false) as Hheld.
  { intros o O HO Hh Hb. destruct (ok_ops _ Hok _ _ HO) as (G & HG & Hs & Hhold).
    destruct (Hhold Hh) as [Hhol Hc]. specialize (Hc Hb). exists G. split_and!; try done.
    rewrite <-Hs. by apply (ok_open _ Hok). }
  split; [|split; [apply (ok_reserved _ Hok)|]].
  - intros o1 o2 O1 O2 H1 H2 Hh1 Hh2 Hb1 Hb2 Hs.
    destruct (Hheld _ _ H1 Hh1 Hb1) as (G1 & HG1 & Hhol1 & Hc1 & _).
    destruct (Hheld _ _ H2 Hh2 Hb2) as (G2 & HG2 & Hhol2 & Hc2 & _). rewrite Hs in Hc1.
    assert (op_gate O1 = op_gate O2) as Hg by congruence. rewrite Hg in HG1. congruence.
  - intros c C HC. split.
    + intros o O HO Hh Hb Hs. destruct (Hheld _ _ HO Hh Hb) as (G & HG & _ & Hcur & Hc).
      destruct (ok_closures _ Hok _ _ HC) as (G' & HG' & _ & Hc' & Hcur' & _).
      rewrite Hs in Hcur. assert (op_gate O = closure_gate C) as Hg by congruence. congruence.
    + intros Hw Hu. assert (∀ i x, starts s !! i = Some x → start_session x ≠ closure_session C) as Hno.
      { intros i x Hx Hs. apply Hu. by eapply waited_no_starts. }
      split; [done|]. intros t Hr. destruct (ok_reserved _ Hok _ _ Hr) as (i & x & Hx & Hs & _).
      by apply (Hno i x).
Qed.

(** A start that is under way when a closing begins: the closing waits for it, then ends the
    turn that became of it. *)
Lemma closing_excludes_starts_witness :
  let actions :=
    [A_gate "s" 0 0 true; A_acquire 0; A_reserve 0 0 "t"; A_drop 0; A_gate "s" 1 0 true;
     A_acquire 1; A_close 1 0; A_activate 0; A_unlease 0; A_wait 0] in
  ∃ s, sched_run actions sched_new = Some s
    ∧ registry s !! "s" = Some {| te_turn_id := "t"; te_state := Running false |}
    ∧ closures s !! 0 = Some {| closure_session := "s"; closure_gate := 0; closure_waited := true |}
    ∧ ∀ i x, starts s !! i = Some x → start_session x ≠ "s".
Proof.
  intros actions. destruct (sched_run actions sched_new) as [s|] eqn:Hrun; [|vm_compute in Hrun; discriminate].
  exists s. assert (closures s !! 0 = Some {| closure_session := "s"; closure_gate := 0;
    closure_waited := true |} ∧ registry s !! "s" = Some {| te_turn_id := "t"; te_state := Running false |}
    ∧ unwaited s = ∅) as (Hc & Hr & Hu).
  { vm_compute in Hrun. injection Hrun as <-. split_and!; vm_compute; reflexivity. }
  split; [reflexivity|]. split; [exact Hr|]. split; [exact Hc|].
  destruct (closing_excludes_starts actions s Hrun) as (_ & _ & Hclosed).
  destruct (Hclosed 0 _ Hc) as [_ Hw]. apply Hw; [reflexivity|]. rewrite Hu. apply not_elem_of_empty.
Defined.

(** A closing that is given up before it has waited (the tree could not be frozen) takes the
    gate with the running start away: the next closing finds a gate without starts, and the
    start can still become a running turn while the session is being deleted. *)
Theorem abandoned_close_forgets_start :
  ∃ s, sched_run
    [A_gate "s" 0 0 true; A_acquire 0; A_reserve 0 0 "t"; A_drop 0;
     A_gate "s" 1 0 true; A_acquire 1; A_close 1 0; A_finish 0;
     A_gate "s" 2 1 true; A_acquire 2; A_close 2 1; A_wait 1; A_activate 0] sched_new = Some s
    ∧ closures s !! 1 = Some {| closure_session := "s"; closure_gate := 1; closure_waited := true |}
    ∧ registry s !! "s" = Some {| te_turn_id := "t"; te_state := Running false |}.
Proof.
  match goal with |- ∃ s, ?r = _ ∧ _ => destruct r as [s|] eqn:Hrun end;
    [|vm_compute in Hrun; discriminate].
  exists s. vm_compute in Hrun. injection Hrun as <-. split_and!; reflexivity.
Qed.

(** ** Retries of queued starts *)

Definition INITIAL_RETRY_DELAY_MS : N := 200.
Definition MAX_RETRY_DELAY_MS : N := 30000.
Definition MAX_RETRY_EXPONENT : N := 8.

(** The cancellation token of a retry is its number. *)
Record SessionQueueDrain := { failed_starts : N; scheduled_retry : option nat }.

Record Drains := {
  drain_sessions : gmap string SessionQueueDrain;
  (** tokens that were cancelled *)
  cancelled : gset nat;
}.

(** [record_start_failure] with the token it would make: the delay in milliseconds, if a retry
    is to be scheduled. *)
Definition record_start_failure (d : Drains) (session_id : string) (token : nat)
    : option N * Drains :=
  let state := default {| failed_starts := 0; scheduled_retry := None |}
                 (drain_sessions d !! session_id) in
  let exponent := N.min (failed_starts state) MAX_RETRY_EXPONENT in
  let failed := saturating_add u32_max (failed_starts state) 1 in
  match scheduled_retry state with
  | Some _ =>
    (None, {| drain_sessions :=
                <[session_id := {| failed_starts := failed;
                                   scheduled_retry := scheduled_retry state |}]> (drain_sessions d);
              cancelled := cancelled d |})
  | None =>
    (Some (N.min (INITIAL_RETRY_DELAY_MS * N.shiftl 1 exponent) MAX_RETRY_DELAY_MS),
     {| drain_sessions :=
          <[session_id := {| failed_starts := failed; scheduled_retry := Some token |}]>
            (drain_sessions d);
        cancelled := cancelled d |})
  end.

Definition finish_retry_wait (d : Drains) (session_id : string) (token : nat) : bool * Drains :=
  match drain_sessions d !! session_id with
  | Some state =>
    if bool_decide (scheduled_retry state = Some token) then
      (true, {| drain_sessions :=
                  <[session_id := {| failed_starts := failed_starts state;
                                     scheduled_retry := None |}]> (drain_sessions d);
                cancelled := cancelled d |})
    else (false, d)
  | None => (false, d)
  end.

Definition clear_session (d : Drains) (session_id : string) : Drains :=
  match drain_sessions d !! session_id with
  | Some state =>
    {| drain_sessions := delete session_id (drain_sessions d);
       cancelled := match scheduled_retry state with
                    | Some token => {[token]} ∪ cancelled d
                    | None => cancelled d
                    end |}
  | None => d
  end.

(** Retry tasks: each waits with its token and asks when it wakes, whatever woke it. *)
Record Retries := { drains : Drains; waiting : gmap nat string }.

Inductive RetryAction :=
| R_fail (session_id : string) (token : nat)
| R_wake (token : nat)
| R_clear (session_id : string).

Definition retries_new : Retries :=
  {| drains := {| drain_sessions := ∅; cancelled := ∅ |}; waiting := ∅ |}.

(** [schedule_queue_retry], the end of the wait in [run_queue_retry], and a start that
    succeeded. *)
Definition retry_action (a : RetryAction) (s : Retries) : option Retries :=
  match a with
  | R_fail sid token =>
    if bool_decide (waiting s !! token = None) && bool_decide (token ∉ cancelled (drains s)) then
      let '(delay, d) := record_start_failure (drains s) sid token in
      Some {| drains := d;
              waiting := match delay with Some _ => <[token := sid]> (waiting s) | None => waiting s end |}
    else None
  | R_wake token =>
    match waiting s !! token with
    | Some sid =>
      Some {| drains := (finish_retry_wait (drains s) sid token).2;
              waiting := delete token (waiting s) |}
    | None => None
    end
  | R_clear sid => Some {| drains := clear_session (drains s) sid; waiting := waiting s |}
  end.

Fixpoint retry_run (actions : list RetryAction) (s : Retries) : option Retries :=
  match actions with
  | [] => Some s
  | a :: actions => retry_action a s ≫= retry_run actions
  end.

(** A task that waits and was not cancelled is the scheduled one of its session; a scheduled
    token belongs to one session. *)
Record retries_ok (s : Retries) : Prop := {
  ok_scheduled : ∀ token sid, waiting s !! token = Some sid → token ∉ cancelled (drains s) →
    ∃ n, drain_sessions (drains s) !! sid
         = Some {| failed_starts := n; scheduled_retry := Some token |};
  ok_waiting : ∀ token sid n, drain_sessions (drains s) !! sid
         = Some {| failed_starts := n; scheduled_retry := Some token |} →
    waiting s !! token = Some sid;
}.

Lemma retry_action_ok a s s' : retries_ok s → retry_action a s = Some s' → retries_ok s'.
Proof.
  intros [Hs Hw]. destruct a as [sid token|token|sid]; simpl.
  - destruct (bool_decide _ && _) eqn:Hb; [|done]. bools. unfold record_start_failure.
    destruct (drain_sessions (drains s) !! sid) as [[n [t|]]|] eqn:Hd; simpl; intros [= <-]; split; simpl.
    + intros tok sid1 H1 H2. destruct (Hs _ _ H1 H2) as [m Hm].
      destruct (decide (sid1 = sid)) as [->|]; [|rewrite lookup_insert_ne by done; by exists m].
      rewrite lookup_insert_eq. rewrite Hd in Hm. injection Hm as -> ->. by eexists.
    + intros tok sid1 m. destruct (decide (sid1 = sid)) as [->|].
      * rewrite lookup_insert_eq. intros [= <- <-]. by eapply Hw.
      * rewrite lookup_insert_ne by done. apply Hw.
    + intros tok sid1. destruct (decide (tok = token)) as [->|].
      * rewrite lookup_insert_eq. intros [= <-] _. rewrite lookup_insert_eq. by eexists.
      * rewrite lookup_insert_ne by done. intros H1 H2. destruct (Hs _ _ H1 H2) as [m Hm].
        rewrite lookup_insert_ne by congruence. by exists m.
    + intros tok sid1 m. destruct (decide (sid1 = sid)) as [->|].
      * rewrite lookup_insert_eq. intros [= <- <-]. by rewrite lookup_insert_eq.
      * rewrite lookup_insert_ne by done. intros Hm. apply Hw in Hm. by rewrite lookup_insert_ne by congruence.
    + intros tok sid1. destruct (decide (tok = token)) as [->|].
      * rewrite lookup_insert_eq. intros [= <-] _. rewrite lookup_insert_eq. by eexists.
      * rewrite lookup_insert_ne by done. intros H1 H2. destruct (Hs _ _ H1 H2) as [m Hm].
        rewrite lookup_insert_ne by congruence. by exists m.
    + intros tok sid1 m. destruct (decide (sid1 = sid)) as [->|].
      * rewrite lookup_insert_eq. intros [= <- <-]. by rewrite lookup_insert_eq.
      * rewrite lookup_insert_ne by done. intros Hm. apply Hw in Hm. by rewrite lookup_insert_ne by congruence.
  - destruct (waiting s !! token) as [sid|] eqn:Ht; [|done]. intros [= <-]. unfold finish_retry_wait.
    destruct (drain_sessions (drains s) !! sid) as [[n t]|] eqn:Hd; simpl; [case_bool_decide as Hb|]; split; simpl.
    + intros tok sid1. rewrite lookup_delete_Some. intros [Hne H1] H2. destruct (Hs _ _ H1 H2) as [m Hm].
      rewrite lookup_insert_ne by congruence. by exists m.
    + intros tok sid1 m. destruct (decide (sid1 = sid)) as [->|]; [by rewrite lookup_insert_eq|].
      rewrite lookup_insert_ne by done. intros Hm. apply Hw in Hm. rewrite lookup_delete_ne by congruence. done.
    + intros tok sid1. rewrite lookup_delete_Some. intros [Hne H1] H2. by apply Hs.
    + intros tok sid1 m Hm. rewrite lookup_delete_ne; [by eapply Hw|]. intros <-.
      pose proof (Hw _ _ _ Hm). congruence.
    + intros tok sid1. rewrite lookup_delete_Some. intros [Hne H1] H2. by apply Hs.
    + intros tok sid1 m Hm. rewrite lookup_delete_ne; [by eapply Hw|]. intros <-.
      pose proof (Hw _ _ _ Hm). congruence.
  - intros [= <-]. unfold clear_session.
    destruct (drain_sessions (drains s) !! sid) as [[n t]|] eqn:Hd; [|by split]. split; simpl.
    + intros tok sid1 H1 H2. assert (tok ∉ cancelled (drains s)) as H3 by (destruct t; set_solver).
      destruct (Hs _ _ H1 H3) as [m Hm]. exists m. rewrite lookup_delete_ne; [done|]. intros <-.
      rewrite Hd in Hm. injection Hm as -> ->. set_solver.
    + intros tok sid1 m. rewrite lookup_delete_Some. intros [_ Hm]. by eapply Hw.
Qed.

(** Retries of queued starts do not multiply: whatever fails, succeeds or wakes, at most
    one retry that was not cancelled waits for a session, only that one may go on when it
    wakes, and a retry that is scheduled waits between a fifth of a second and half a
    minute. *)
Theorem queue_retry_single_flight actions s :
  retry_run actions retries_new = Some s →
  (∀ t1 t2 sid, waiting s !! t1 = Some sid → waiting s !! t2 = Some sid →
     t1 ∉ cancelled (drains s) → t2 ∉ cancelled (drains s) → t1 = t2)
  ∧ (∀ t sid, waiting s !! t = Some sid → (finish_retry_wait (drains s) sid t).1 = true ↔
       ∃ n, drain_sessions (drains s) !! sid
            = Some {| failed_starts := n; scheduled_retry := Some t |})
  ∧ (∀ sid t d, (record_start_failure (drains s) sid t).1 = Some d → (200 ≤ d ≤ 30000)%N).
Proof.
  intros Hrun. assert (retries_ok s) as [Hs Hw].
  { assert (retries_ok retries_new) as H0 by (split; simpl; intros *; by rewrite lookup_empty).
    revert H0 Hrun. generalize retries_new. induction actions as [|a actions IH]; intros s0 H0; simpl.
    - by intros [= <-].
    - destruct (retry_action a s0) as [s1|] eqn:Ha; [|done]. simpl. apply IH. by eapply retry_action_ok. }
  split_and!.
  - intros t1 t2 sid H1 H2 Hc1 Hc2. destruct (Hs _ _ H1 Hc1) as [n1 E1], (Hs _ _ H2 Hc2) as [n2 E2]. congruence.
  - intros t sid _. unfold finish_retry_wait. destruct (drain_sessions (drains s) !! sid) as [[n o]|]; simpl.
    + case_bool_decide as Hb; simpl; [subst; by split; eauto|]. split; [done|]. intros [m [= _ ->]]. done.
    + split; [done|]. by intros [].
  - intros sid t d. unfold record_start_failure.
    destruct (scheduled_retry _); [done|]. intros [= <-].
    set (e := N.min _ MAX_RETRY_EXPONENT).
    assert (1 ≤ N.shiftl 1 e)%N; [|unfold INITIAL_RETRY_DELAY_MS, MAX_RETRY_DELAY_MS; lia].
    rewrite N.shiftl_1_l. pose proof (N.pow_nonzero 2 e). lia.
Qed.

Lemma queue_retry_single_flight_witness :
  let actions := [R_fail "s" 0; R_fail "s" 1; R_clear "s"; R_fail "s" 2] in
  ∃ s, retry_run actions retries_new = Some s ∧ waiting s !! 0 = Some "s" ∧ waiting s !! 2 = Some "s"
    ∧ (0 ∉ cancelled (drains s) → 0 = 2).
Proof.
  intros actions. destruct (retry_run actions retries_new) as [s|] eqn:Hrun; [|vm_compute in Hrun; discriminate].
  exists s. assert (waiting s !! 0 = Some "s" ∧ waiting s !! 2 = Some "s"
    ∧ bool_decide (2 ∉ cancelled (drains s)) = true) as (H0 & H2 & Hc%bool_decide_eq_true_1).
  { vm_compute in Hrun. injection Hrun as <-. split; [reflexivity|]. split; vm_compute; reflexivity. }
  split; [reflexivity|]. split; [exact H0|]. split; [exact H2|]. intros Hc0.
  destruct (queue_retry_single_flight actions s Hrun) as (Hone & _).
  exact (Hone 0 2 "s" H0 H2 Hc0 Hc).
Defined.
