(* ===== verification/SchedDelivery.v ===== *)
(** * Delivering inputs and settling turns

    [deliver_input] and the queue of [astrcode-server/src/turn_scheduler/delivery.rs] and
    [queue.rs], the reservation of an execution and the completion watcher of
    [turn_scheduler.rs], and [settle_finished_execution_locked] of [lifecycle.rs], for one
    session whose operation the caller holds.  What the journal, the session and the task set
    answer is an argument, indexed by the question. *)

From S2P Require Import Prelude CoreTypes StoreTypes ProjViews TurnFinalize SchedGates.

Definition MAX_PENDING_INPUTS_PER_SESSION : nat := 32.
Definition MAX_PROMPT_TEXT_BYTES : N := 1024 * 1024.

(** The errors of the modelled paths; the messages of other components are text. *)
Inductive TurnScheduleError :=
| Sched_TurnAlreadyRunning
| Sched_NoActiveTurn
| Sched_QueueFull (max : nat)
| Sched_EmptyInput
| Sched_InputTooLarge (actual max : N)
| Sched_SessionNotFound (message : string)
| Sched_SessionManager (message : string)
| Sched_Turn (message : string)
| Sched_EventEmit (message : string)
| Sched_BackgroundTasksClosed.

Inductive InputDelivery :=
| StartNew | InjectOnly | InjectIfRunningElseStart | QueueIfRunningElseStart | InterruptAndStart.

Inductive DeliveryOutcome :=
| Started (turn_id : string)
| Injected (turn_id : string)
| Queued (queue_len : nat).

Definition validate_user_input (i : UserInput) : result unit TurnScheduleError :=
  if negb (can_submit i) then Err Sched_EmptyInput
  else if bool_decide (MAX_PROMPT_TEXT_BYTES < str_len (ui_text i))%N then
    Err (Sched_InputTooLarge (str_len (ui_text i)) MAX_PROMPT_TEXT_BYTES)
  else Ok tt.

(** The answers of the other components; [Err] carries the error they give. *)
Record SchedAnswers := {
  ans_admit : nat → bool;
  (** syncing the durable events of the session before it is settled *)
  ans_sync : nat → result unit string;
  ans_read_model : nat → result unit string;
  ans_open : nat → result unit string;
  ans_emit : nat → result unit string;
  ans_submit : nat → result unit string;
  (** finalising, repairing and syncing a finished turn *)
  ans_finalize : nat → result unit TurnScheduleError;
  (** aborting the turn of the session: whether its entry was removed *)
  ans_abort : nat → result bool TurnScheduleError;
  ans_turn_id : nat → string;
  (** whether the session is closing or the server shuts down *)
  ans_closing : nat → bool;
}.

Record Delivery := {
  dl_registry : Registry;
  (** the pending inputs of the projection, the oldest first *)
  dl_pending : list execution.PendingInput;
  dl_next_seq : N;
  dl_tick : nat;
  (** retries of a queued start that were asked for *)
  dl_retries : nat;
  (** the inputs the session took to run, each with its turn, in order *)
  dl_submitted : list (string * UserInput);
}.

Definition D (A : Type) : Type := Delivery → result A TurnScheduleError * Delivery.
Definition dret {A} (a : A) : D A := λ s, (Ok a, s).
Definition dbind {A B} (m : D A) (k : A → D B) : D B := λ s,
  match m s with
  | (Ok a, s) => k a s
  | (Err e, s) => (Err e, s)
  end.
Definition dfail {A} (e : TurnScheduleError) : D A := λ s, (Err e, s).
Definition dget {A} (f : Delivery → A) : D A := λ s, (Ok (f s), s).
Definition dmod (f : Delivery → Delivery) : D unit := λ s, (Ok tt, f s).
Definition dlift {A} (r : result A TurnScheduleError) : D A := λ s, (r, s).

Notation "'let*' x ':=' m 'in' k" := (dbind m (λ x, k))
  (at level 10, x pattern, m at level 100, k at level 200).

Definition set_registry (r : Registry) (s : Delivery) : Delivery :=
  {| dl_registry := r; dl_pending := dl_pending s; dl_next_seq := dl_next_seq s;
     dl_tick := dl_tick s; dl_retries := dl_retries s; dl_submitted := dl_submitted s |}.
Definition set_pending (p : list execution.PendingInput) (s : Delivery) : Delivery :=
  {| dl_registry := dl_registry s; dl_pending := p; dl_next_seq := dl_next_seq s;
     dl_tick := dl_tick s; dl_retries := dl_retries s; dl_submitted := dl_submitted s |}.
(** [Session::submit] took the input for the turn. *)
Definition submitted (turn : string) (input : UserInput) (s : Delivery) : Delivery :=
  {| dl_registry := dl_registry s; dl_pending := dl_pending s; dl_next_seq := dl_next_seq s;
     dl_tick := dl_tick s; dl_retries := dl_retries s; dl_submitted := dl_submitted s ++ [(turn, input)] |}.

(** The number of the next question. *)
Definition dtick : D nat := λ s,
  (Ok (dl_tick s),
   {| dl_registry := dl_registry s; dl_pending := dl_pending s; dl_next_seq := dl_next_seq s;
      dl_tick := S (dl_tick s); dl_retries := dl_retries s; dl_submitted := dl_submitted s |}).
Definition schedule_queue_retry : D unit := dmod (λ s,
  {| dl_registry := dl_registry s; dl_pending := dl_pending s; dl_next_seq := dl_next_seq s;
     dl_tick := dl_tick s; dl_retries := S (dl_retries s); dl_submitted := dl_submitted s |}).

(** A durable [UserInputAccepted]: the input is pending behind the others. *)
Definition accept_event (input : UserInput) (turn_id : option string) (s : Delivery) : Delivery :=
  {| dl_registry := dl_registry s;
     dl_pending := dl_pending s ++ [{| execution.accepted_seq := dl_next_seq s;
                                       execution.input := input;
                                       execution.turn_id := TurnId_new <$> turn_id |}];
     dl_next_seq := (dl_next_seq s + 1)%N; dl_tick := dl_tick s; dl_retries := dl_retries s;
     dl_submitted := dl_submitted s |}.

Section Scheduler.
  Context (env : SchedAnswers) (session_id : string).

Definition ask {A} (f : nat → result A string) (e : string → TurnScheduleError) : D A :=
  let* n := dtick in dlift (map_err e (f n)).

Definition admit_owned : D unit :=
  let* n := dtick in
  if ans_admit env n then dret tt else dfail Sched_BackgroundTasksClosed.

Definition pending_inputs : D (list execution.PendingInput) :=
  let* _ := ask (ans_read_model env) Sched_SessionManager in dget dl_pending.

Definition pending_input_count : D nat := let* p := pending_inputs in dret (length p).

Definition ensure_no_pending_inputs : D unit :=
  let* n := pending_input_count in
  if Nat.ltb 0 n then dfail Sched_TurnAlreadyRunning else dret tt.

Definition accept_pending_input (input : UserInput) : D nat :=
  let* pending_count := pending_input_count in
  if Nat.leb MAX_PENDING_INPUTS_PER_SESSION pending_count then
    dfail (Sched_QueueFull MAX_PENDING_INPUTS_PER_SESSION)
  else
    let* _ := ask (ans_open env) Sched_SessionManager in
    let* _ := ask (ans_emit env) Sched_EventEmit in
    let* _ := dmod (accept_event input None) in
    dret (S pending_count).

Definition inject_internal (turn : string) (input : UserInput) : D unit :=
  let* _ := ask (ans_emit env) Sched_EventEmit in
  dmod (accept_event input (Some turn)).

(** [reserve_execution]: the turn that was reserved. *)
Definition reserve_execution : D string :=
  let* r := dget dl_registry in
  if has_active r session_id then dfail Sched_TurnAlreadyRunning
  else
    let* n := dtick in
    match reserve r session_id (ans_turn_id env n) with
    | Some r => let* _ := dmod (set_registry r) in dret (ans_turn_id env n)
    | None => dfail Sched_TurnAlreadyRunning
    end.

(** The reservation is dropped. *)
Definition drop_reservation (turn : string) : D unit := dmod (λ s,
  set_registry (default (dl_registry s) (remove_if_matches (dl_registry s) session_id turn)) s).

(** [start_reserved_execution]: the input of the reservation is submitted, which takes the one
    with this number out of the queue; on failure the reservation is dropped. *)
Definition start_reserved_execution (turn : string) (input : UserInput) (accepted : option N) : D unit := λ s,
  match (let* _ := ask (ans_open env) Sched_SessionNotFound in
         ask (ans_submit env) Sched_Turn) s with
  | (Err e, s) => (Err e, (drop_reservation turn s).2)
  | (Ok _, s) =>
    let '(ok, r) := activate (dl_registry s) session_id turn in
    let s := submitted turn input s in
    let s := match accepted with
             | Some seq => set_pending (filter (λ p, execution.accepted_seq p ≠ seq) (dl_pending s)) s
             | None => s
             end in
    if ok then (Ok tt, set_registry r s)
    else (Err Sched_TurnAlreadyRunning, (drop_reservation turn s).2)
  end.

Definition reserve_next_pending : D (option (string * execution.PendingInput)) :=
  let* p := pending_inputs in
  match p with
  | [] => dret None
  | entry :: _ =>
    let* _ := dlift (validate_user_input (execution.input entry)) in
    let* turn := reserve_execution in
    dret (Some (turn, entry))
  end.

(** [start_reserved_pending]: a start that fails schedules a retry. *)
Definition start_reserved_pending (turn : string) (entry : execution.PendingInput) : D unit := λ s,
  match start_reserved_execution turn (execution.input entry) (Some (execution.accepted_seq entry)) s with
  | (Ok _, s) => (Ok tt, s)
  | (Err e, s) => (Err e, (schedule_queue_retry s).2)
  end.

(** An admission that is refused drops the reservation. *)
Definition start_reserved_pending_detached (turn : string) (entry : execution.PendingInput) : D unit := λ s,
  match admit_owned s with
  | (Err e, s) => (Err e, (drop_reservation turn s).2)
  | (Ok _, s) => start_reserved_pending turn entry s
  end.

Definition enqueue_behind_pending_and_start_head (new : UserInput) : D nat :=
  let* queue_len := accept_pending_input new in
  let* next := reserve_next_pending in
  match next with
  | Some (turn, entry) => λ s,
    match start_reserved_pending_detached turn entry s with
    | (Ok _, s) => (Ok (pred queue_len), s)
    | (Err _, s) => (Ok queue_len, s)
    end
  | None => dret queue_len
  end.

Definition start_detached_in_operation (new : UserInput) : D DeliveryOutcome := λ s,
  match reserve_execution s with
  | (Err e, s) => (Err e, s)
  | (Ok turn, s) =>
    match admit_owned s with
    | (Err e, s) => (Err e, (drop_reservation turn s).2)
    | (Ok _, s) => (let* _ := start_reserved_execution turn new None in dret (Started turn)) s
    end
  end.

(** [settle_finished_execution_locked], with the finalization the registry has recorded for
    the turn or else the given one; a finished turn without either is repaired. *)
Definition settle_finished_execution_locked (turn : string)
    (finalization : option TurnFinalization) : D bool :=
  let* r := dget dl_registry in
  if bool_decide (active_turn_id r session_id ≠ Some turn) then dret false
  else
    let* _ :=
      if default true (negb ∘ tf_terminal_persisted <$> finalization) then
        let* n := dtick in dlift (ans_finalize env n)
      else dret tt in
    λ s, match remove_if_matches (dl_registry s) session_id turn with
         | Some r => (Ok true, set_registry r s)
         | None => (Ok false, s)
         end.

Definition active_execution (r : Registry) : option string :=
  match r !! session_id with
  | Some {| te_turn_id := t; te_state := Running _ |} => Some t
  | _ => None
  end.

Definition inject_if_running_else_start (new : UserInput) : D DeliveryOutcome :=
  let* r := dget dl_registry in
  if active_is_finished r session_id then
    let* n := accept_pending_input new in dret (Queued n)
  else match active_execution r with
  | Some turn => let* _ := inject_internal turn new in dret (Injected turn)
  | None =>
    if has_active r session_id then
      let* n := accept_pending_input new in dret (Queued n)
    else
      let* n := pending_input_count in
      if Nat.ltb 0 n then
        let* n := enqueue_behind_pending_and_start_head new in dret (Queued n)
      else start_detached_in_operation new
  end.

(** [queue_if_running_else_start], with the finalization the registry has for the turn. *)
Definition queue_if_running_else_start (recorded : option TurnFinalization) (new : UserInput)
    : D DeliveryOutcome :=
  let* r := dget dl_registry in
  if has_active r session_id then
    let* settled :=
      if active_is_finished r session_id then
        match active_turn_id r session_id with
        | Some turn => λ s,
          match settle_finished_execution_locked turn recorded s with
          | (Ok settled, s) => (Ok settled, s)
          | (Err _, s) => (Ok false, s)
          end
        | None => dfail Sched_NoActiveTurn
        end
      else dret false in
    if settled : bool then let* n := enqueue_behind_pending_and_start_head new in dret (Queued n)
    else let* n := accept_pending_input new in dret (Queued n)
  else
    let* n := pending_input_count in
    if Nat.ltb 0 n then let* n := enqueue_behind_pending_and_start_head new in dret (Queued n)
    else start_detached_in_operation new.

(** [deliver_input_in_operation]. *)
Definition deliver_input_in_operation (recorded : option TurnFinalization) (delivery : InputDelivery)
    (new : UserInput) : D DeliveryOutcome :=
  let* _ := dlift (validate_user_input new) in
  match delivery with
  | StartNew => let* _ := ensure_no_pending_inputs in start_detached_in_operation new
  | InjectOnly =>
    let* r := dget dl_registry in
    if active_is_finished r session_id then dfail Sched_NoActiveTurn
    else match active_execution r with
    | None => dfail Sched_NoActiveTurn
    | Some turn => let* _ := inject_internal turn new in dret (Injected turn)
    end
  | InjectIfRunningElseStart => inject_if_running_else_start new
  | QueueIfRunningElseStart => queue_if_running_else_start recorded new
  | InterruptAndStart =>
    let* n := dtick in
    let* removed := dlift (ans_abort env n) in
    let* _ := dmod (λ s, if removed : bool then set_registry (delete session_id (dl_registry s)) s else s) in
    start_detached_in_operation new
  end.

(** ** Completion *)

Inductive FinishOutcome := Settled (next : option string) | Stale.

(** [start_next_after_settle_in_operation]. *)
Definition start_next_after_settle : D (option string) :=
  let* n := dtick in
  if ans_closing env n then dret None
  else λ s,
    match admit_owned s with
    | (Err _, s) => (Ok None, s)
    | (Ok _, s) =>
      if has_active (dl_registry s) session_id then (Ok None, s)
      else match reserve_next_pending s with
      | (Err e, s) => (Err e, s)
      | (Ok None, s) => (Ok None, s)
      | (Ok (Some (turn, entry)), s) =>
        match start_reserved_pending turn entry s with
        | (Ok _, s) => (Ok (Some turn), s)
        | (Err _, s) => (Ok None, s)
        end
      end
    end.

(** [finish_and_maybe_start_next]; draining completed children changes other sessions only. *)
Definition finish_and_maybe_start_next (turn : string) (finalization : option TurnFinalization)
    : D FinishOutcome :=
  let* _ := ask (ans_sync env) Sched_SessionManager in
  let* settled := settle_finished_execution_locked turn finalization in
  if settled : bool then let* next := start_next_after_settle in dret (Settled next)
  else dret Stale.

(** The inner loop of [run_detached_completion_watcher]: the completion is published when the
    turn is settled, the watcher ends silently when the turn is not its own any more, and an
    error is tried again. *)
Inductive Watch := Published (next : option string) | Silent | Waiting.

Fixpoint watch_completion (fuel : nat) (turn : string) (finalization : option TurnFinalization)
    (s : Delivery) : Watch * Delivery :=
  match fuel with
  | O => (Waiting, s)
  | S fuel =>
    match finish_and_maybe_start_next turn finalization s with
    | (Ok (Settled next), s) => (Published next, s)
    | (Ok Stale, s) => (Silent, s)
    | (Err _, s) => watch_completion fuel turn finalization s
    end
  end.

(** ** What the operations change *)

(** Nothing but the counters of questions and retries. *)
Definition same (s s' : Delivery) : Prop :=
  dl_registry s' = dl_registry s ∧ dl_pending s' = dl_pending s ∧ dl_next_seq s' = dl_next_seq s
  ∧ dl_submitted s' = dl_submitted s.

Lemma same_refl s : same s s.
Proof. by split_and!. Qed.
Lemma same_trans s1 s2 s3 : same s1 s2 → same s2 s3 → same s1 s3.
Proof. intros (?&?&?&?) (?&?&?&?). split_and!; congruence. Qed.

Lemma ask_same {A} (f : nat → result A string) e s r s' : ask f e s = (r, s') → same s s'.
Proof. unfold ask, dbind, dtick, dlift. simpl. destruct (map_err e (f _)); intros [= <- <-]; by split_and!. Qed.

Lemma admit_same s r s' : admit_owned s = (r, s') → same s s'.
Proof. unfold admit_owned, dbind, dtick. simpl. destruct (ans_admit env _); intros [= <- <-]; by split_and!. Qed.

Lemma pending_inputs_spec s r s' :
  pending_inputs s = (r, s') → same s s' ∧ ∀ p, r = Ok p → p = dl_pending s.
Proof.
  unfold pending_inputs, dbind, dget. destruct (ask _ _ s) as [[[]|e] s1] eqn:Ha; apply ask_same in Ha;
    intros [= <- <-]; (split; [done|]); [|done]. intros p [= <-]. by destruct Ha as (_ & ? & _).
Qed.

(** The entry an accepted input becomes. *)
Definition entry_of (s : Delivery) (new : UserInput) (turn : option string) : execution.PendingInput :=
  {| execution.accepted_seq := dl_next_seq s; execution.input := new;
     execution.turn_id := TurnId_new <$> turn |}.

Definition accepted (s s' : Delivery) (new : UserInput) (turn : option string) : Prop :=
  dl_registry s' = dl_registry s ∧ dl_pending s' = dl_pending s ++ [entry_of s new turn]
  ∧ dl_next_seq s' = (dl_next_seq s + 1)%N ∧ dl_submitted s' = dl_submitted s.




(** The session has only a reservation for this turn, on top of the state before. *)
Definition reserved (s s' : Delivery) (turn : string) : Prop :=
  dl_registry s !! session_id = None
  ∧ dl_registry s' = <[session_id := {| te_turn_id := turn; te_state := Reserved |}]> (dl_registry s)
  ∧ dl_pending s' = dl_pending s ∧ dl_next_seq s' = dl_next_seq s ∧ dl_submitted s' = dl_submitted s.

Lemma reserve_execution_spec s r s' :
  reserve_execution s = (r, s') →
  match r with Ok turn => reserved s s' turn | Err _ => same s s' end.
Proof.
  unfold reserve_execution, dbind, dget, dfail, dtick, reserve, has_active. simpl.
  case_bool_decide as Ha; simpl; intros [= <- <-]; [apply same_refl|].
  split_and!; try done. by apply eq_None_not_Some.
Qed.

Lemma drop_reservation_spec turn s s1 :
  reserved s s1 turn → same s (drop_reservation turn s1).2.
Proof.
  intros (Hnone & Hr & Hp & Hn & Hsub). unfold drop_reservation, dmod, remove_if_matches. simpl.
  rewrite Hr, lookup_insert_eq. simpl. rewrite bool_decide_true by done. simpl.
  split_and!; simpl; [|done..]. rewrite delete_insert_id by done. done.
Qed.

Lemma reserved_same s s1 s2 turn : reserved s s1 turn → same s1 s2 → reserved s s2 turn.
Proof. intros (?&?&?&?&?) (?&?&?&?). split_and!; congruence. Qed.

(** A reserved execution starts, or everything is as before the reservation. *)
Lemma start_reserved_execution_spec s s1 turn input acc r s' :
  reserved s s1 turn → start_reserved_execution turn input acc s1 = (r, s') →
  match r with
  | Ok _ =>
    dl_registry s' !! session_id = Some {| te_turn_id := turn; te_state := Running false |}
    ∧ dl_pending s' = match acc with
                      | Some seq => filter (λ p, execution.accepted_seq p ≠ seq) (dl_pending s)
                      | None => dl_pending s
                      end
    ∧ dl_submitted s' = dl_submitted s ++ [(turn, input)]
  | Err _ => same s s'
  end.
Proof.
  intros Hres. unfold start_reserved_execution, dbind.
  destruct (ask (ans_open env) _ s1) as [[u|e] s2] eqn:H2; apply ask_same in H2.
  2: { intros [= <- <-]. apply drop_reservation_spec. by eapply reserved_same. }
  destruct (ask (ans_submit env) _ s2) as [[u2|e] s3] eqn:H3; apply ask_same in H3.
  2: { intros [= <- <-]. apply drop_reservation_spec. eapply reserved_same; [|done]. by eapply reserved_same. }
  assert (reserved s s3 turn) as (Hnone & Hr & Hp & Hn & Hsub)
    by (eapply reserved_same; [by eapply reserved_same|done]).
  unfold activate. rewrite Hr, lookup_insert_eq. rewrite bool_decide_true by done.
  intros [= <- <-]. simpl. rewrite lookup_insert_eq. split; [done|].
  destruct acc; simpl; by rewrite Hp, Hsub.
Qed.


Lemma reserve_next_pending_spec s r s' :
  reserve_next_pending s = (r, s') →
  match r with
  | Ok (Some (turn, entry)) => reserved s s' turn ∧ ∃ rest, dl_pending s = entry :: rest
  | Ok None => same s s' ∧ dl_pending s = []
  | Err _ => same s s'
  end.
Proof.
  unfold reserve_next_pending, dbind, dlift, dret.
  destruct (pending_inputs s) as [[p|e] s1] eqn:Hp; apply pending_inputs_spec in Hp as [Hs1 Hp];
    [|by intros [= <- <-]].
  rewrite (Hp p eq_refl). destruct (dl_pending s) as [|entry rest] eqn:Hpend; [by intros [= <- <-]|].
  destruct (validate_user_input _); [|by intros [= <- <-]].
  destruct (reserve_execution s1) as [[turn|e] s2] eqn:H2; apply reserve_execution_spec in H2;
    intros [= <- <-]; [|by eapply same_trans].
  split; [|by exists rest]. destruct Hs1 as (E1 & E2 & E3 & E4), H2 as (?&?&?&?&?). split_and!; congruence.
Qed.

(** The numbers of the pending inputs are distinct and below the next one. *)
Record pending_ok (s : Delivery) : Prop := {
  seqs_unique : NoDup (execution.accepted_seq <$> dl_pending s);
  seqs_below : Forall (λ p, (execution.accepted_seq p < dl_next_seq s)%N) (dl_pending s);
}.

Lemma filter_head entry rest :
  NoDup (execution.accepted_seq <$> entry :: rest) →
  filter (λ p, execution.accepted_seq p ≠ execution.accepted_seq entry) (entry :: rest) = rest.
Proof.
  rewrite fmap_cons, NoDup_cons. intros [Hni _]. rewrite filter_cons_False by (intros H; by apply H).
  induction rest as [|p rest IH]; [done|]. rewrite fmap_cons, not_elem_of_cons in Hni.
  destruct Hni as [Hne Hni]. rewrite filter_cons_True by congruence. by rewrite IH.
Qed.












End Scheduler.










(** ** Completion *)

Definition submittable (p : execution.PendingInput) : Prop :=
  validate_user_input (execution.input p) = Ok tt.

Lemma dtick_same s : same s (dtick s).2.
Proof. by split_and!. Qed.

(** Settling a registered turn succeeds when finalising it does, and removes it. *)
Lemma settle_owned env session_id turn f s n0 :
  active_turn_id (dl_registry s) session_id = Some turn →
  (∀ n, n0 ≤ n → ans_finalize env n = Ok tt) → n0 ≤ dl_tick s →
  ∃ b s1, settle_finished_execution_locked env session_id turn f s = (Ok b, s1)
    ∧ dl_retries s1 = dl_retries s.
Proof.
  intros Hown Hfin Ht. unfold settle_finished_execution_locked, dbind, dget, dtick, dlift, dret.
  case_bool_decide; [by repeat eexists|]. destruct (default true _); simpl;
    [rewrite (Hfin _ Ht)|]; simpl; destruct (remove_if_matches _ _ _); by repeat eexists.
Qed.

Lemma settled_owned env session_id turn f s b s1 :
  active_turn_id (dl_registry s) session_id = Some turn →
  settle_finished_execution_locked env session_id turn f s = (Ok b, s1) →
  b = true ∧ dl_registry s1 !! session_id = None
  ∧ dl_pending s1 = dl_pending s ∧ dl_next_seq s1 = dl_next_seq s.
Proof.
  intros Hown. unfold settle_finished_execution_locked, dbind, dget, dtick, dlift, dret.
  rewrite bool_decide_false by (intros H; by apply H).
  unfold active_turn_id in Hown. destruct (dl_registry s !! session_id) as [e|] eqn:He; [|done].
  injection Hown as Hturn. destruct (default true _); simpl;
    [destruct (ans_finalize env _); simpl; [|done]|]; unfold remove_if_matches; rewrite He; simpl;
    rewrite bool_decide_true by done; intros [= <- <-]; split_and!; try done; apply lookup_delete_eq.
Qed.

(** Settling asks at most one question; on failure the turn stays registered. *)
Lemma settle_failed env session_id turn f s e s' :
  settle_finished_execution_locked env session_id turn f s = (Err e, s') →
  same s s' ∧ dl_tick s' = S (dl_tick s).
Proof.
  unfold settle_finished_execution_locked, dbind, dget, dtick, dlift, dret.
  case_bool_decide; [done|]. destruct (default true _); simpl; [|by destruct (remove_if_matches _ _ _)].
  destruct (ans_finalize env (dl_tick s)); simpl; [by destruct (remove_if_matches _ _ _)|].
  intros [= <- <-]. by split.
Qed.

(** What the watcher published: the turn has left the registry, and the oldest pending input
    runs, or the queue is as it was. *)
Definition published (session_id : string) (s s' : Delivery) (next : option string) : Prop :=
  match next with
  | Some t => dl_registry s' !! session_id = Some {| te_turn_id := t; te_state := Running false |}
              ∧ dl_pending s' = tail (dl_pending s)
  | None => dl_registry s' !! session_id = None ∧ dl_pending s' = dl_pending s
  end.

(** With a readable queue of submittable inputs, starting the next one gives no error. *)
Lemma start_next_total env session_id s :
  (∀ n, ans_read_model env n = Ok tt) → Forall submittable (dl_pending s) → pending_ok s →
  dl_registry s !! session_id = None →
  ∃ next s', start_next_after_settle env session_id s = (Ok next, s')
    ∧ published session_id s s' next.
Proof.
  intros Hread Hvalid Hok Hnone. unfold start_next_after_settle, dbind, dtick, dret.
  cbn -[admit_owned reserve_next_pending start_reserved_pending].
  destruct (ans_closing env _); [by repeat eexists|].
  set (s0 := {| dl_registry := _ |}). assert (same s s0) as Hs0 by by split_and!.
  destruct (admit_owned env s0) as [[u|e] s1] eqn:H1; apply admit_same in H1; apply (same_trans _ _ _ Hs0) in H1;
    destruct H1 as (Hr1 & Hp1 & Hn1 & Hsub1); [|exists None, s1; split; [done|]; split; congruence].
  unfold has_active. rewrite Hr1, Hnone. rewrite bool_decide_false by (by intros []).
  destruct (reserve_next_pending env session_id s1) as [[[[t entry]|]|e] s2] eqn:H2.
  - apply reserve_next_pending_spec in H2 as (Hres & rest & Hhead).
    unfold start_reserved_pending.
    destruct (start_reserved_execution env session_id t _ _ s2) as [[u'|e] s3] eqn:H3;
      apply (start_reserved_execution_spec _ _ s1) in H3; try done.
    + exists (Some t), s3. split; [done|]. destruct H3 as (? & Hp3 & _). split; [done|].
      rewrite Hp3, <-Hp1, Hhead. simpl. apply filter_head. rewrite <-Hhead, Hp1. apply Hok.
    + eexists None, _. split; [done|]. destruct H3 as (? & ? & _). simpl. split; congruence.
  - apply reserve_next_pending_spec in H2 as ((? & ? & _) & _). exists None, s2. split; [done|]. split; congruence.
  - exfalso. revert H2. unfold reserve_next_pending, pending_inputs, ask, dbind, dtick, dlift, dget.
    rewrite Hread. simpl. rewrite Hp1. destruct (dl_pending s) as [|entry rest]; [done|].
    apply Forall_cons in Hvalid as [Hv _]. rewrite Hv. simpl.
    unfold reserve_execution, dbind, dget, dtick, has_active, reserve. simpl. rewrite Hr1.
    unfold has_active. rewrite (bool_decide_false (is_Some _)) by (rewrite Hnone; by intros []). done.
Qed.

(** One attempt of the watcher for a registered turn publishes, or fails with the turn still
    registered; it cannot fail once syncing and finalising succeed. *)
Lemma attempt_spec env session_id turn f n0 s r s' :
  (∀ n, ans_read_model env n = Ok tt) → Forall submittable (dl_pending s) → pending_ok s →
  (∀ n, n0 ≤ n → ans_sync env n = Ok tt) → (∀ n, n0 ≤ n → ans_finalize env n = Ok tt) →
  active_turn_id (dl_registry s) session_id = Some turn →
  finish_and_maybe_start_next env session_id turn f s = (r, s') →
  match r with
  | Ok (Settled next) => published session_id s s' next
  | Ok Stale => False
  | Err _ => same s s' ∧ dl_tick s < dl_tick s' ∧ dl_tick s < n0
  end.
Proof.
  intros Hread Hvalid Hok Hsync Hfin Hown. unfold finish_and_maybe_start_next, dbind at 1, ask, dbind at 1, dtick, dlift.
  cbn -[settle_finished_execution_locked start_next_after_settle].
  set (s0 := {| dl_registry := _ |}). assert (same s s0) as Hs0 by by split_and!.
  destruct (ans_sync env (dl_tick s)) as [u|e] eqn:Hs; cbn -[settle_finished_execution_locked start_next_after_settle].
  2: { intros [= <- <-]. split; [done|]. simpl. split; [lia|].
       destruct (decide (n0 ≤ dl_tick s)) as [Hle|]; [|lia]. by rewrite Hsync in Hs. }
  unfold dbind at 1. destruct (settle_finished_execution_locked env session_id turn f s0) as [[b|e] s1] eqn:H1.
  - apply settled_owned in H1 as (-> & Hnone & Hp1 & Hn1); [|done].
    destruct (start_next_total env session_id s1) as (next & s2 & H2 & Hpub); try done.
    { by rewrite Hp1. } { destruct Hok. split; by rewrite Hp1, ?Hn1. }
    unfold dbind, dret. rewrite H2. intros [= <- <-]. unfold published in *. by rewrite Hp1 in Hpub.
  - intros [= <- <-]. pose proof (settle_failed _ _ _ _ _ _ _ H1) as [Hsame Ht]. simpl in Ht.
    split; [by eapply same_trans|]. split; [lia|].
    destruct (decide (n0 ≤ dl_tick s)) as [Hle|]; [|lia].
    destruct (settle_owned env session_id turn f s0 n0) as (? & ? & H2 & _); simpl; try done; [lia|].
    by rewrite H2 in H1.
Qed.

(** The completion of a turn is published.  If the turn is registered, the queue can be
    read and holds inputs that may be submitted, and syncing and finalising succeed from some
    question on, then the watcher publishes the completion within as many attempts as there are
    questions before that; the turn has then left the registry and the oldest pending input was
    started in its place, or nothing was and the queue is untouched. *)
Theorem completion_published env session_id turn f n0 s :
  (∀ n, ans_read_model env n = Ok tt) → Forall submittable (dl_pending s) → pending_ok s →
  (∀ n, n0 ≤ n → ans_sync env n = Ok tt) → (∀ n, n0 ≤ n → ans_finalize env n = Ok tt) →
  active_turn_id (dl_registry s) session_id = Some turn →
  ∃ next s', watch_completion env session_id (S (n0 - dl_tick s)) turn f s = (Published next, s')
    ∧ published session_id s s' next.
Proof.
  intros Hread Hvalid Hok Hsync Hfin. assert (n0 - dl_tick s ≤ n0 - dl_tick s) as Hle by lia.
  revert Hle. generalize (n0 - dl_tick s) at 2 3 as k. intros k. revert s Hvalid Hok.
  induction k as [|k IH]; intros s Hvalid Hok Hle Hown; cbn [watch_completion].
  all: destruct (finish_and_maybe_start_next env session_id turn f s) as [[[next|]|e] s1] eqn:H;
    eapply attempt_spec in H; try done; try (by exists next, s1); try lia.
  destruct H as (Hsame & Ht & _). pose proof Hsame as (Hr1 & Hp1 & Hn1 & _).
  destruct (IH s1) as (next & s2 & Hw & Hpub).
  - by rewrite Hp1.
  - destruct Hok. split; by rewrite Hp1, ?Hn1.
  - lia.
  - by rewrite Hr1.
  - exists next, s2. split; [done|]. unfold published in *. by rewrite Hp1 in Hpub.
Qed.

(** ** Witnesses and findings *)

(** Everything succeeds, from question [n0] on as far as finalising is concerned; turn ids are
    given by a counter. *)
Definition healthy (n0 : nat) : SchedAnswers := {|
  ans_admit := λ _, true;
  ans_sync := λ _, Ok tt;
  ans_read_model := λ _, Ok tt;
  ans_open := λ _, Ok tt;
  ans_emit := λ _, Ok tt;
  ans_submit := λ _, Ok tt;
  ans_finalize := λ n, if Nat.leb n0 n then Ok tt else Err (Sched_EventEmit "busy");
  ans_abort := λ _, Ok true;
  ans_turn_id := λ n, if Nat.even n then "even" else "odd";
  ans_closing := λ _, false;
|}.

Definition waiting (seq : N) (text : string) : execution.PendingInput :=
  {| execution.accepted_seq := seq; execution.input := text_only text; execution.turn_id := None |}.

(** A finished turn that is still registered, with one input waiting. *)
Definition finished_turn : Delivery := {|
  dl_registry := {["s" := {| te_turn_id := "t"; te_state := Running true |}]};
  dl_pending := [waiting 4 "older"];
  dl_next_seq := 7; dl_tick := 0; dl_retries := 0; dl_submitted := [];
|}.

Lemma finished_turn_ok : pending_ok finished_turn.
Proof. split; [apply NoDup_singleton|by repeat constructor]. Qed.


(** Finalising fails twice before the completion is published and the older input starts. *)
Lemma completion_published_witness :
  ∃ next s', watch_completion (healthy 4) "s" 5 "t" None finished_turn = (Published next, s')
    ∧ published "s" finished_turn s' next.
Proof.
  apply (completion_published (healthy 4) "s" "t" None 4 finished_turn); [done| |apply finished_turn_ok|done| |done].
  - by repeat constructor.
  - intros n Hn. simpl. do 4 (destruct n as [|n]; [lia|]). done.
Defined.

(** A queue that cannot be read once the turn is settled: the first attempt fails, the second
    finds the turn gone and the watcher ends without publishing the completion; the input keeps
    waiting and no retry was asked for. *)
Theorem completion_lost_after_settle env session_id turn f s e :
  (∀ n, ans_sync env n = Ok tt) → (∀ n, ans_finalize env n = Ok tt) →
  (∀ n, ans_closing env n = false) → (∀ n, ans_admit env n = true) →
  (∀ n, ans_read_model env n = Err e) →
  active_turn_id (dl_registry s) session_id = Some turn →
  ∃ s', watch_completion env session_id 2 turn f s = (Silent, s')
    ∧ dl_registry s' !! session_id = None ∧ dl_pending s' = dl_pending s ∧ dl_retries s' = dl_retries s.
Proof.
  intros Hsync Hfin Hclosing Hadmit Hread Hown. cbn [watch_completion].
  unfold finish_and_maybe_start_next, ask, dbind, dtick, dlift.
  rewrite Hsync. cbn -[settle_finished_execution_locked start_next_after_settle].
  set (s0 := {| dl_registry := dl_registry s |}).
  destruct (settle_owned env session_id turn f s0 0) as (b & s1 & H1 & Hret); try done; [simpl; lia|].
  rewrite H1. pose proof (settled_owned env session_id turn f s0 _ _ Hown H1) as (-> & Hnone & Hp & _).
  assert (∃ s2, start_next_after_settle env session_id s1 = (Err (Sched_SessionManager e), s2)
    ∧ same s1 s2 ∧ dl_retries s2 = dl_retries s1) as (s2 & -> & (Hr2 & Hp2 & _) & Hret2).
  { unfold start_next_after_settle, admit_owned, dbind, dtick, dret. rewrite Hclosing, Hadmit.
    cbn -[reserve_next_pending]. unfold has_active. rewrite Hnone, bool_decide_false by (by intros []).
    unfold reserve_next_pending, pending_inputs, ask, dbind, dtick, dlift. rewrite Hread. simpl.
    eexists. split_and!; done. }
  rewrite Hsync. cbn -[settle_finished_execution_locked start_next_after_settle].
  unfold settle_finished_execution_locked, dbind, dget, active_turn_id, dret. simpl. rewrite Hr2, Hnone. simpl.
  eexists. split; [done|]. unfold s0 in *. simpl in *. split_and!; congruence.
Qed.

(** An error after the input was accepted: the caller is told that the delivery failed, and the
    input waits in the queue. *)
Theorem accepted_input_reported_as_error env session_id recorded new s entry rest e :
  validate_user_input new = Ok tt → dl_registry s !! session_id = None →
  dl_pending s = entry :: rest → length (dl_pending s) < MAX_PENDING_INPUTS_PER_SESSION →
  (∀ n, ans_open env n = Ok tt) → (∀ n, ans_emit env n = Ok tt) →
  (∀ n, ans_read_model env n = if Nat.leb n (S (dl_tick s)) then Ok tt else Err e) →
  ∃ s', deliver_input_in_operation env session_id recorded QueueIfRunningElseStart new s
          = (Err (Sched_SessionManager e), s')
    ∧ dl_pending s' = dl_pending s ++ [entry_of s new None].
Proof.
  intros Hv Hnone Hp Hlen Hopen Hemit Hread.
  unfold deliver_input_in_operation, queue_if_running_else_start, enqueue_behind_pending_and_start_head,
    accept_pending_input, reserve_next_pending, pending_input_count, pending_inputs, ask, dbind, dtick, dlift, dget, dret.
  rewrite Hv. unfold has_active. rewrite Hnone, bool_decide_false by (by intros []).
  assert (Nat.leb MAX_PENDING_INPUTS_PER_SESSION (length (entry :: rest)) = false) as Hroom
    by (apply Nat.leb_gt; by rewrite <-Hp).
  rewrite Hread, (proj2 (Nat.leb_le _ _)) by lia. cbn -[Nat.leb length]. rewrite Hp.
  change (Nat.ltb 0 (length (entry :: rest))) with true. cbn -[Nat.leb length].
  rewrite Hread, (proj2 (Nat.leb_le _ _)) by (simpl; lia). cbn -[Nat.leb length]. rewrite ?Hp, Hroom.
  rewrite Hopen. cbn -[Nat.leb length]. rewrite Hemit. cbn -[Nat.leb length].
  rewrite Hread, (proj2 (Nat.leb_gt _ _)) by (simpl; lia). simpl. eexists. split; [done|]. done.
Qed.
