(* ===== verification/CtxText.v ===== *)
(** * The text of a compact summary

    [astrcode-context/src/compaction/parse.rs] and [assemble.rs]: reading a summary out of a
    model's answer, wrapping it into the message that replaces the compacted history, and
    taking it out of that message again. *)

From S2P Require Import Prelude Utf8 StdPath CoreLlm AiStream StdStr.

(** ** Reading an answer ([parse.rs])

    A [CompactParseError] is its detail. *)

Definition REQUIRED_SUMMARY_SECTIONS : list string := [
  "1. Primary Request and Intent:"; "2. Key Technical Concepts:"; "3. Files and Code Sections:";
  "4. Errors and fixes:"; "5. Problem Solving:"; "6. All user messages:"; "7. Pending Tasks:";
  "8. Current Work:"; "9. Optional Next Step:"].

Definition fence : string := "```".

Definition tag_end_char (after : string) : bool :=
  match after with
  | EmptyString => true
  | String c _ => bool_decide (c = ">"%char) || is_ascii_whitespace c
  end.

(** The loop of [find_opening_tag]: [from] is where the search goes on. *)
Fixpoint find_opening_loop (fuel : nat) (lower needle : string) (start : nat) : option (nat * nat) :=
  match fuel with
  | O => None
  | S fuel =>
    match str_find (str_drop start lower) needle with
    | None => None
    | Some relative =>
      let tag_start := start + relative in
      if negb (tag_end_char (str_drop (tag_start + len needle) lower)) then
        find_opening_loop fuel lower needle (tag_start + len needle)
      else
        match str_find (str_drop tag_start lower) ">" with
        | Some e => Some (tag_start, e + tag_start + 1)
        | None => None
        end
    end
  end.

Definition find_opening_tag (content tag : string) : option (nat * nat) :=
  find_opening_loop (S (len content)) (to_ascii_lowercase content) ("<" +:+ tag) 0.

Definition find_closing_tag (content tag : string) : option (nat * nat) :=
  let lower := to_ascii_lowercase content in
  let needle := "</" +:+ tag in
  match str_find lower needle with
  | None => None
  | Some start =>
    if negb (tag_end_char (str_drop (start + len needle) lower)) then None
    else match str_find (str_drop start lower) ">" with
    | Some e => Some (start, e + start + 1)
    | None => None
    end
  end.

Definition missing_closing (tag : string) : string :=
  "compact response missing closing </" +:+ tag +:+ "> tag".

Definition extract_xml_block (content tag : string) : result (option string) string :=
  match find_opening_tag content tag with
  | None => Ok None
  | Some (open_start, open_end) =>
    match find_closing_tag (str_drop open_end content) tag with
    | None => Err (missing_closing tag)
    | Some (close_start, _) =>
      let close_start := open_end + close_start in
      if Nat.ltb close_start open_start then Ok None
      else Ok (Some (trim (str_take (close_start - open_end) (str_drop open_end content))))
    end
  end.

Definition strip_xml_block (content tag : string) : result string string :=
  match find_opening_tag content tag with
  | None => Ok (trim content)
  | Some (open_start, open_end) =>
    match find_closing_tag (str_drop open_end content) tag with
    | None => Err (missing_closing tag)
    | Some (_, close_end) =>
      Ok (trim (str_take open_start content +:+ str_drop (open_end + close_end) content))
    end
  end.

Definition strip_markdown_code_fence (content : string) : string :=
  let trimmed := trim content in
  if negb (starts_with trimmed fence) then trimmed
  else match lines trimmed with
  | [] => trimmed
  | first_line :: rest =>
    if negb (starts_with (trim_start first_line) fence) then trimmed
    else
      let body := trim_end (join newline rest) in
      trim (default body (str_strip_suffix body fence))
  end.

(** The loop of [strip_outer_markdown_code_fence]. *)
Fixpoint strip_fence_loop (fuel : nat) (current : string) : option string :=
  match fuel with
  | O => None
  | S fuel =>
    let stripped := strip_markdown_code_fence current in
    if bool_decide (stripped = current) then Some current else strip_fence_loop fuel stripped
  end.

Definition strip_outer_markdown_code_fence (content : string) : string :=
  default "" (strip_fence_loop (S (len (trim content))) (trim content)).

Definition parse_compact_output (content : string) : result string string :=
  let normalized := strip_outer_markdown_code_fence content in
  let? block := extract_xml_block normalized "summary" in
  match block with
  | None => Err "compact response missing <summary> block"
  | Some summary =>
    if is_empty (trim summary) then Err "compact summary response was empty"
    else match find_first (λ section, negb (str_contains summary section)) REQUIRED_SUMMARY_SECTIONS with
    | Some missing => Err ("compact summary missing required section title: " +:+ missing)
    | None => Ok summary
    end
  end.

Definition preamble_char (c : ascii) : bool :=
  bool_decide (c ∈ ["*"%char; "#"%char; "-"%char; ":"%char; " "%char]).

Definition is_summary_preamble_line (line : string) : bool :=
  let normalized := trim (trim_matches preamble_char line) in
  eq_ignore_ascii_case normalized "summary" || eq_ignore_ascii_case normalized "here is the summary"
  || eq_ignore_ascii_case normalized "compact summary" || eq_ignore_ascii_case normalized "here's the summary".

Definition strip_leading_summary_preamble (content : string) : string :=
  match lines content with
  | [] => ""
  | first_line :: rest =>
    if is_summary_preamble_line (trim first_line) then trim (join newline rest) else trim content
  end.

Definition is_blank (line : string) : bool := is_empty (trim line).

Fixpoint skip_blank (l : list string) : list string :=
  match l with
  | [] => []
  | x :: r => if is_blank x then skip_blank r else l
  end.

Definition clean_compact_fallback_text (content : string) : string :=
  let without_code_fence := strip_outer_markdown_code_fence content in
  strip_leading_summary_preamble
    (trim (join newline (skip_blank (trim_end <$> lines without_code_fence)))).

Definition extract_summary_for_context (content : string) : string :=
  let normalized := strip_outer_markdown_code_fence content in
  match extract_xml_block normalized "summary" with
  | Ok (Some summary) => summary
  | _ =>
    match parse_compact_output content with
    | Ok summary => summary
    | Err _ =>
      clean_compact_fallback_text
        (match strip_xml_block normalized "analysis" with Ok s => s | Err _ => normalized end)
    end
  end.

(** ** Wrapping a summary ([assemble.rs]) *)

Definition COMPACT_SUMMARY_END : string := "</compact_summary>".
Definition COMPACT_CONTINUATION_PREAMBLE : string :=
  "This session is being continued from a previous conversation that ran out of context. The summary below covers the earlier portion of the conversation.".
Definition COMPACT_CONTINUATION_INSTRUCTIONS : string :=
  "Continue the conversation from where it left off without asking the user any further questions. Resume directly: do not acknowledge this summary, do not recap it, and do not preface your response with "
  +:+ dquote +:+ "I'll continue" +:+ dquote +:+
  " or similar. Pick up the last task as if the context break never happened.".
Definition COMPACT_TRANSCRIPT_HINT_PREFIX : string :=
  "If you need specific details from before compaction (like exact code snippets, error messages, or content you generated), read the full transcript at ".

(** [CompactSummaryRenderOptions] of [context.rs]. *)
Record CompactSummaryRenderOptions := {
  ro_transcript_path : option string;
  ro_custom_instructions : list string;
}.

Definition format_compact_summary (summary : string) : string :=
  let summary := extract_summary_for_context summary in
  if starts_with (to_ascii_lowercase (trim_start summary)) "summary:" then trim summary
  else "Summary:" +:+ newline +:+ trim summary.

Definition hint_lines (options : CompactSummaryRenderOptions) : list string :=
  match trim <$> ro_transcript_path options with
  | Some path => if is_empty path then [] else [""; COMPACT_TRANSCRIPT_HINT_PREFIX +:+ path]
  | None => []
  end.

Definition instruction_lines (options : CompactSummaryRenderOptions) : list string :=
  match ro_custom_instructions options with
  | [] => []
  | instructions =>
    ["" ; "Extension instructions to preserve:"] ++ ((λ i, "- " +:+ i) <$> instructions)
  end.

Definition compact_summary_message_text (summary : string) (options : CompactSummaryRenderOptions) : string :=
  COMPACT_SUMMARY_MARKER +:+ newline
  +:+ join newline ([COMPACT_CONTINUATION_PREAMBLE; COMPACT_CONTINUATION_INSTRUCTIONS; "";
                     format_compact_summary summary]
                    ++ hint_lines options ++ instruction_lines options)
  +:+ newline +:+ COMPACT_SUMMARY_END.

Definition strip_compact_preamble (body : string) : string :=
  let stripped := default body (trim <$> str_strip_prefix (trim_start body) COMPACT_CONTINUATION_PREAMBLE) in
  default stripped (trim <$> str_strip_prefix stripped COMPACT_CONTINUATION_INSTRUCTIONS).

Definition strip_compact_transcript_hint (body : string) : string :=
  let trimmed := trim_end body in
  match rsplit_once lf trimmed with
  | None => trimmed
  | Some (prefix, last_line) =>
    if starts_with (trim_start last_line) COMPACT_TRANSCRIPT_HINT_PREFIX then trim_end prefix else trimmed
  end.

(** [parse_compact_summary_message]: the summary of the envelope. *)
Definition parse_compact_summary_message (content : string) : option string :=
  let trimmed := trim content in
  let body :=
    default trimmed
      (str_strip_prefix trimmed COMPACT_SUMMARY_MARKER ≫= λ value,
       trim <$> str_strip_suffix (trim value) COMPACT_SUMMARY_END) in
  let body := strip_compact_preamble body in
  let body := strip_compact_transcript_hint body in
  let summary := trim (default body (str_strip_prefix (trim_start body) "Summary:")) in
  if is_empty summary then None else Some summary.

(** One line of [collapse_compaction_whitespace]. *)
Definition collapse_line (st : string * bool) (line : string) : string * bool :=
  let '(output, blank_seen) := st in
  if is_blank line then
    (if negb blank_seen && negb (is_blank output) then output +:+ newline +:+ newline else output, true)
  else
    ((if negb (is_empty output) && negb (ends_with output newline) then output +:+ newline else output) +:+ line,
     false).

Definition collapse_compaction_whitespace (content : string) : string :=
  trim (foldl collapse_line ("", false) (trim_end <$> lines content)).1.

Definition route_trim_char (c : ascii) : bool :=
  bool_decide (c ∈ ["`"%char; ascii_of_N 34; "'"%char; ","%char; ";"%char; ")"%char; "]"%char; "}"%char]).

Definition redact_route_token (token : string) : string :=
  let trimmed := trim_matches route_trim_char token in
  if starts_with trimmed "root-agent:" || starts_with trimmed "agent-" then str_replace token trimmed "<agent-id>"
  else if starts_with trimmed "subrun-" then str_replace token trimmed "<subrun-id>"
  else if starts_with trimmed "session-" then str_replace token trimmed "<session-id>"
  else token.

Fixpoint redact_loop (token : string) (cs : list string) : string :=
  let flushed := if is_empty token then "" else redact_route_token token in
  match cs with
  | [] => flushed
  | ch :: cs =>
    if is_whitespace ch then flushed +:+ ch +:+ redact_loop "" cs
    else redact_loop (token +:+ ch) cs
  end.

Definition redact_route_sensitive_tokens (content : string) : string := redact_loop "" (chars content).

Definition sanitize_compact_summary (summary : string) : string :=
  redact_route_sensitive_tokens (collapse_compaction_whitespace summary).

(** ** Reading ends *)

Lemma strip_fence_shorter s : strip_markdown_code_fence s = s ∨ len (strip_markdown_code_fence s) < len s.
Proof.
  unfold strip_markdown_code_fence. destruct (negb (starts_with (trim s) fence)) eqn:Hf; [apply trim_shorter|].
  destruct (lines (trim s)) as [|first rest] eqn:Hl; [apply trim_shorter|].
  destruct (negb (starts_with (trim_start first) fence)); [apply trim_shorter|]. right.
  assert (trim s ≠ "") as Hne by (intros E; by rewrite E in Hf).
  pose proof (rest_shorter _ _ _ Hne Hl) as Hrest. pose proof (trim_length s) as Ht.
  pose proof (trim_end_length (join newline rest)) as He.
  eapply Nat.le_lt_trans; [apply trim_length|].
  destruct (str_strip_suffix (trim_end (join newline rest)) fence) as [body|] eqn:Hs; simpl; [|lia].
  apply strip_suffix_length in Hs. lia.
Qed.

(** Stripping the fences around an answer ends: every pass that changes the text makes it
    shorter, so one pass more than the text has bytes is enough; the result has no fence left
    to strip. *)
Theorem strip_fences_terminates content :
  ∃ r, strip_fence_loop (S (len (trim content))) (trim content) = Some r
    ∧ strip_outer_markdown_code_fence content = r
    ∧ strip_markdown_code_fence r = r.
Proof.
  unfold strip_outer_markdown_code_fence.
  assert (∀ n s, len s ≤ n → ∃ r, strip_fence_loop (S n) s = Some r ∧ strip_markdown_code_fence r = r) as H.
  { induction n as [|n IH]; intros s Hs; cbn [strip_fence_loop]; case_bool_decide as He;
      try (by exists s); destruct (strip_fence_shorter s) as [|Hlt]; try done; [lia|]. apply IH. lia. }
  destruct (H _ (trim content) ltac:(done)) as (r & Hr & Hfix). exists r. by rewrite Hr.
Qed.

(** ** A well-formed answer is read *)

(** The search for a tag that was put behind a text without it. *)
Section put_tag.
  Context (tag : string).
  Context (Hlt : has_byte "<"%char tag = false) (Hslash : has_byte "/"%char tag = false)
    (Hgt : has_byte ">"%char tag = false) (Hlow : to_ascii_lowercase tag = tag).

Lemma find_opening_put pre rest :
  str_contains (to_ascii_lowercase pre) ("<" +:+ tag) = false →
  find_opening_tag (pre +:+ String "<" tag +:+ String ">" rest) tag
  = Some (len pre, len pre + len (String "<" tag) + 1).
Proof using Hlt Hgt Hlow.
  intros Hpre. unfold find_opening_tag. rewrite !lowercase_app. simpl to_ascii_lowercase. rewrite Hlow.
  rewrite <-(lowercase_length pre). set (lp := to_ascii_lowercase pre) in *. set (lr := to_ascii_lowercase rest).
  change (ascii_lower "<") with "<"%char. change (ascii_lower ">") with ">"%char.
  change ("<" +:+ tag) with (String "<" tag) in *. set (needle := String "<" tag) in *.
  cbn [find_opening_loop str_drop]. rewrite (str_find_put "<" tag lp) by done. cbn [Nat.add].
  rewrite str_drop_app_more, str_drop_app. cbn [tag_end_char negb].
  rewrite (str_drop_app lp). rewrite str_find_byte by (unfold needle; rewrite has_byte_cons; exact Hgt).
  do 2 f_equal. lia.
Qed.

Lemma find_closing_put body rest :
  str_contains (to_ascii_lowercase body) ("</" +:+ tag) = false →
  find_closing_tag (body +:+ String "<" (String "/" tag) +:+ String ">" rest) tag
  = Some (len body, len body + len (String "<" (String "/" tag)) + 1).
Proof using Hlt Hgt Hlow.
  intros Hbody. unfold find_closing_tag. rewrite !lowercase_app. simpl to_ascii_lowercase. rewrite Hlow.
  rewrite <-(lowercase_length body). set (lp := to_ascii_lowercase body) in *. set (lr := to_ascii_lowercase rest).
  change (ascii_lower "<") with "<"%char. change (ascii_lower ">") with ">"%char. change (ascii_lower "/") with "/"%char.
  change ("</" +:+ tag) with (String "<" (String "/" tag)) in *. set (needle := String "<" (String "/" tag)) in *.
  rewrite (str_find_put "<" (String "/" tag) lp) by (done || (rewrite has_byte_cons; exact Hlt)).
  rewrite str_drop_app_more, str_drop_app. cbn [tag_end_char negb].
  rewrite (str_drop_app lp). rewrite str_find_byte by (unfold needle; rewrite !has_byte_cons; exact Hgt).
  do 2 f_equal. lia.
Qed.

Lemma extract_put pre body post :
  str_contains (to_ascii_lowercase pre) ("<" +:+ tag) = false →
  str_contains (to_ascii_lowercase body) ("</" +:+ tag) = false →
  extract_xml_block (pre +:+ String "<" tag +:+ String ">" (body +:+ String "<" (String "/" tag) +:+ String ">" post)) tag
  = Ok (Some (trim body)).
Proof using Hlt Hgt Hlow.
  intros Hpre Hbody. unfold extract_xml_block. rewrite find_opening_put by done.
  set (rest := body +:+ _).
  assert (str_drop (len pre + len (String "<" tag) + 1) (pre +:+ String "<" tag +:+ String ">" rest) = rest) as ->.
  { rewrite <-Nat.add_assoc, str_drop_app_more, str_drop_app_more. done. }
  unfold rest at 1. rewrite find_closing_put by done.
  rewrite (proj2 (Nat.ltb_ge _ _)) by lia. do 3 f_equal.
  rewrite Nat.add_comm, Nat.add_sub. apply str_take_app.
Qed.
End put_tag.

(** An answer that follows the contract is accepted, whatever surrounds the block: if the
    answer is not fenced, [<summary>] does not occur before the block nor [</summary>] in it,
    and the block has the nine titles, then the parser returns the trimmed block. *)
Theorem well_formed_output_accepted pre body post :
  let content := pre +:+ "<summary>" +:+ body +:+ "</summary>" +:+ post in
  strip_outer_markdown_code_fence content = content →
  str_contains (to_ascii_lowercase pre) "<summary" = false →
  str_contains (to_ascii_lowercase body) "</summary" = false →
  is_blank (trim body) = false →
  Forall (λ section, str_contains (trim body) section = true) REQUIRED_SUMMARY_SECTIONS →
  parse_compact_output content = Ok (trim body).
Proof.
  intros content Hfence Hpre Hbody Hblank Hsections. unfold parse_compact_output. rewrite Hfence.
  change content with (pre +:+ String "<" "summary" +:+ String ">" (body +:+ String "<" (String "/" "summary") +:+ String ">" post)).
  rewrite extract_put by done. unfold is_blank in Hblank. rewrite Hblank.
  destruct (find_first _ REQUIRED_SUMMARY_SECTIONS) as [missing|] eqn:Hf; [|done].
  apply find_first_Some in Hf as [Hin Hmissing]. rewrite Forall_forall in Hsections.
  by rewrite (Hsections _ Hin) in Hmissing.
Qed.

(** ** A summary comes back out of its message *)

Lemma trim_newline s : trim (newline +:+ s) = trim s.
Proof. done. Qed.

Lemma trim_newline_end s : trim_end (s +:+ newline) = trim_end s.
Proof. by apply (trim_end_ws s lf). Qed.

(** A text that starts with a solid character. *)
Definition solid_start (s : string) : bool := match s with String a _ => solid a | EmptyString => false end.

Lemma solid_start_app s t : solid_start s = true → solid_start (s +:+ t) = true.
Proof. by destruct s. Qed.

Lemma trim_start_id s : solid_start s = true → trim_start s = s.
Proof. destruct s; [done|]. apply trim_start_solid. Qed.

Lemma trim_id s : solid_start s = true → trim_end s = s → trim s = s.
Proof. intros H1 H2. by apply trim_of_trimmed; [apply trim_start_id|]. Qed.

Lemma trim_end_newline_app s t : t ≠ "" → trim_end t = t → trim_end (s +:+ newline +:+ t) = s +:+ newline +:+ t.
Proof. by apply (trim_end_app s lf t). Qed.

(** What surrounds the body of the message is taken off. *)
Lemma envelope_stripped marker close body :
  solid_start marker = true → solid_start body = true → trim_end body = body →
  close = "</compact_summary>" →
  let text := marker +:+ newline +:+ body +:+ newline +:+ close in
  trim text = text ∧
  (str_strip_prefix text marker ≫= λ value, trim <$> str_strip_suffix (trim value) close) = Some body.
Proof.
  intros Hm Hb Hend Hclose text.
  assert (∀ s, trim_end (s +:+ close) = s +:+ close) as Hc.
  { intros s. subst close. change "</compact_summary>" with ("</compact_summary" +:+ String ">" "").
    rewrite str_app_assoc. by apply trim_end_solid. }
  split.
  - apply trim_id; [by apply solid_start_app|]. unfold text. rewrite !str_app_assoc. apply Hc.
  - unfold text. rewrite strip_prefix_app. simpl.
    rewrite trim_newline, trim_id by (by (apply solid_start_app || rewrite !str_app_assoc, Hc)).
    rewrite str_app_assoc, strip_suffix_app. simpl. f_equal.
    unfold trim. rewrite trim_start_id by (by apply solid_start_app). by rewrite trim_newline_end.
Qed.

Definition path_of (options : CompactSummaryRenderOptions) : option string :=
  match trim <$> ro_transcript_path options with
  | Some path => if is_empty path then None else Some path
  | None => None
  end.

(** A summary as the model's answers give it: trimmed, without markup that would be cleaned
    again, and not ending in a line that reads like the hint. *)
Record summary_plain (s : string) : Prop := {
  plain_start : trim_start s = s;
  plain_end : trim_end s = s;
  plain_nonempty : s ≠ "";
  plain_clean : extract_summary_for_context s = s;
  plain_untitled : starts_with (to_ascii_lowercase s) "summary:" = false;
  plain_last : ∀ before l, rsplit_once lf ("Summary:" +:+ newline +:+ s) = Some (before, l) →
    starts_with (trim_start l) COMPACT_TRANSCRIPT_HINT_PREFIX = false;
}.

Lemma format_plain s : summary_plain s → format_compact_summary s = "Summary:" +:+ newline +:+ s.
Proof.
  intros [Hs He Hne Hc Hu _]. unfold format_compact_summary. rewrite Hc, Hs, Hu. by rewrite trim_of_trimmed.
Qed.

Definition body_tail (s : string) (path : option string) : string :=
  match path with
  | Some path => ("Summary:" +:+ newline +:+ s) +:+ newline +:+ newline +:+ COMPACT_TRANSCRIPT_HINT_PREFIX +:+ path
  | None => "Summary:" +:+ newline +:+ s
  end.

Lemma summary_trimmed s : summary_plain s → trim_end ("Summary:" +:+ newline +:+ s) = "Summary:" +:+ newline +:+ s.
Proof. intros [_ He Hne _ _ _]. by apply trim_end_newline_app. Qed.

Lemma hint_stripped s path :
  summary_plain s →
  (∀ p, path = Some p → trim_end p = p ∧ p ≠ "" ∧ has_byte lf p = false) →
  trim_end (body_tail s path) = body_tail s path
  ∧ strip_compact_transcript_hint (body_tail s path) = "Summary:" +:+ newline +:+ s.
Proof.
  intros Hs Hp. unfold strip_compact_transcript_hint. destruct path as [p|]; unfold body_tail.
  - destruct (Hp p eq_refl) as (Hpe & Hpne & Hpl).
    assert (trim_end (COMPACT_TRANSCRIPT_HINT_PREFIX +:+ p) = COMPACT_TRANSCRIPT_HINT_PREFIX +:+ p) as Hh.
    { change COMPACT_TRANSCRIPT_HINT_PREFIX with
        ("If you need specific details from before compaction (like exact code snippets, error messages, or content you generated), read the full transcript at" +:+ " ").
      rewrite <-str_app_assoc. by apply (trim_end_app _ " "%char p). }
    set (hint := COMPACT_TRANSCRIPT_HINT_PREFIX +:+ p) in *.
    set (F := "Summary:" +:+ newline +:+ s) in *.
    assert (hint ≠ "") as Hhne by (unfold hint, COMPACT_TRANSCRIPT_HINT_PREFIX; done).
    assert (trim_end (F +:+ newline +:+ newline +:+ hint) = F +:+ newline +:+ newline +:+ hint) as He.
    { rewrite str_app_assoc. by apply trim_end_newline_app. }
    split; [done|]. rewrite He. rewrite str_app_assoc.
    change ((F +:+ newline) +:+ newline +:+ hint) with ((F +:+ newline) +:+ String lf hint).
    rewrite rsplit_once_app by (unfold hint; by rewrite has_byte_app).
    rewrite trim_start_id by done. unfold hint. rewrite starts_with_app.
    rewrite trim_newline_end. by apply summary_trimmed.
  - split; [by apply summary_trimmed|]. rewrite summary_trimmed by done.
    destruct (rsplit_once lf _) as [[before l]|] eqn:E; [|done]. by rewrite (plain_last s Hs _ _ E).
Qed.

Lemma preamble_stripped T :
  solid_start T = true → trim_end T = T →
  let body := COMPACT_CONTINUATION_PREAMBLE +:+ newline +:+ COMPACT_CONTINUATION_INSTRUCTIONS
              +:+ newline +:+ newline +:+ T in
  trim_end body = body ∧ strip_compact_preamble body = T.
Proof.
  intros Hs He body.
  assert (T ≠ "") as Hne by (intros ->; done).
  assert (∀ x, trim_end (x +:+ newline +:+ newline +:+ T) = x +:+ newline +:+ newline +:+ T) as Hx.
  { intros x. rewrite str_app_assoc. by apply trim_end_newline_app. }
  assert (trim_end body = body) as Hbody.
  { unfold body. rewrite (str_app_assoc newline), (str_app_assoc COMPACT_CONTINUATION_PREAMBLE). apply Hx. }
  split; [done|]. unfold strip_compact_preamble.
  rewrite trim_start_id by done. unfold body. rewrite strip_prefix_app. cbn [fmap option_fmap option_map from_option id].
  rewrite trim_newline, trim_id by done. rewrite strip_prefix_app. cbn [fmap option_fmap option_map from_option id].
  rewrite !trim_newline. by rewrite trim_id.
Qed.

(** A compacted session can be compacted again: the summary is taken back unchanged out of
    the message it was put into, with and without the hint at a saved transcript, as long as
    no extension added instructions. *)
Theorem summary_message_round_trip s options :
  summary_plain s → ro_custom_instructions options = [] →
  (∀ path, path_of options = Some path → trim_end path = path ∧ has_byte lf path = false) →
  parse_compact_summary_message (compact_summary_message_text s options) = Some s.
Proof.
  intros Hs Hins Hpath.
  assert (∀ p, path_of options = Some p → trim_end p = p ∧ p ≠ "" ∧ has_byte lf p = false) as Hp.
  { intros p Hp. destruct (Hpath p Hp). split_and!; [done| |done]. revert Hp. unfold path_of.
    destruct (trim <$> _) as [[|]|]; [done| |done]. simpl. by intros [= <-]. }
  destruct (hint_stripped s (path_of options) Hs Hp) as [Htail Hhint].
  assert (solid_start (body_tail s (path_of options)) = true) as Hsol by by destruct (path_of options).
  destruct (preamble_stripped _ Hsol Htail) as [Hbody Hpre].
  assert (compact_summary_message_text s options = COMPACT_SUMMARY_MARKER +:+ newline
    +:+ (COMPACT_CONTINUATION_PREAMBLE +:+ newline +:+ COMPACT_CONTINUATION_INSTRUCTIONS
         +:+ newline +:+ newline +:+ body_tail s (path_of options)) +:+ newline +:+ COMPACT_SUMMARY_END) as ->.
  { unfold compact_summary_message_text, hint_lines, instruction_lines, path_of. rewrite Hins, format_plain by done.
    unfold body_tail. destruct (trim <$> ro_transcript_path options) as [[|a p]|]; cbn [is_empty app join]; try done.
  }
  unfold parse_compact_summary_message.
  set (body := COMPACT_CONTINUATION_PREAMBLE +:+ _) in *.
  destruct (envelope_stripped COMPACT_SUMMARY_MARKER COMPACT_SUMMARY_END body eq_refl eq_refl Hbody eq_refl) as [Htrim Hstrip].
  rewrite Htrim, Hstrip. cbn [from_option id]. rewrite Hpre, Hhint.
  rewrite trim_start_id by done. rewrite strip_prefix_app. cbn [from_option id]. rewrite trim_newline.
  destruct Hs as [H1 H2 Hne _ _ _]. rewrite trim_of_trimmed by done. by destruct s.
Qed.

Definition sample_summary : string := "1. Primary Request and Intent:" +:+ newline +:+ "   keep user intent".
Definition sample_options : CompactSummaryRenderOptions :=
  {| ro_transcript_path := Some " /tmp/compact.jsonl "; ro_custom_instructions := [] |}.

Lemma sample_summary_plain : summary_plain sample_summary.
Proof.
  split; [by vm_compute|by vm_compute|done|by vm_compute|by vm_compute|].
  intros before l Hl. assert (l = "   keep user intent") as ->; [|vm_compute; reflexivity].
  apply (f_equal (λ r, default "" (snd <$> r))) in Hl. simpl in Hl. by rewrite <-Hl; vm_compute.
Qed.

Lemma summary_message_round_trip_witness :
  parse_compact_summary_message (compact_summary_message_text sample_summary sample_options)
  = Some sample_summary.
Proof.
  apply summary_message_round_trip; [apply sample_summary_plain|reflexivity|].
  intros path Hp. assert (path = "/tmp/compact.jsonl") as -> by (vm_compute in Hp; congruence).
  by split; vm_compute.
Defined.

(** With instructions of an extension the hint and the instructions stay in the summary that is
    taken back, and grow with every compaction. *)
Theorem instructions_stay_in_summary :
  parse_compact_summary_message (compact_summary_message_text "work"
    {| ro_transcript_path := Some "/t"; ro_custom_instructions := ["keep"] |})
  = Some ("work" +:+ newline +:+ newline +:+ COMPACT_TRANSCRIPT_HINT_PREFIX +:+ "/t" +:+ newline +:+ newline
          +:+ "Extension instructions to preserve:" +:+ newline +:+ "- keep").
Proof. vm_compute. reflexivity. Qed.

(** An id behind an opening bracket is not redacted, although the closing one is known. *)
Theorem bracketed_id_not_redacted :
  sanitize_compact_summary "see session-1, (session-2) and session-3)" = "see <session-id>, (session-2) and <session-id>)".
Proof. vm_compute. reflexivity. Qed.

Definition sample_body : string := join newline REQUIRED_SUMMARY_SECTIONS.

Lemma well_formed_output_accepted_witness :
  parse_compact_output ("<analysis>a</analysis>" +:+ "<summary>" +:+ sample_body +:+ "</summary>" +:+ "")
  = Ok (trim sample_body).
Proof.
  apply (well_formed_output_accepted "<analysis>a</analysis>" sample_body "");
    [vm_compute; reflexivity..|].
  apply (proj1 (forallb_Forall (str_contains (trim sample_body)) _)). vm_compute. reflexivity.
Defined.
