(* ===== verification/CtxTokens.v ===== *)
(** * Token estimates and the snapshot of a context

    [astrcode-context/src/token_estimate.rs], the integer part of [token_budget.rs],
    [prompt_engine/provider_messages.rs] and the [ContextSnapshot] of [context.rs].  Sizes are
    [usize]; the additions the source leaves unchecked are of text lengths.  The percentage
    threshold and the moving average are floating point and arguments here. *)

From S2P Require Import Prelude Utf8 StdPath CoreLlm CoreLlmProtocol StdStr.

(** ** Estimates ([token_estimate.rs]) *)

Definition MESSAGE_BASE_TOKENS : N := 6.
Definition TOOL_CALL_BASE_TOKENS : N := 12.
Definition CHARS_PER_TOKEN : N := 4.
Definition REQUEST_PADDING_NUMERATOR : N := 4.
Definition REQUEST_PADDING_DENOMINATOR : N := 3.

(** [usize::div_ceil] and [usize::saturating_mul]. *)
Definition div_ceil (a b : N) : N := ((a + b - 1) / b)%N.
Definition saturating_mul (w a b : N) : N := N.min w (a * b).

Definition estimate_char_tokens (chars : N) : N := div_ceil chars CHARS_PER_TOKEN.
Definition estimate_text_tokens (text : string) : N := N.max (estimate_char_tokens (char_count text)) 1.
Definition estimate_char_budget (tokens : N) : N := saturating_mul usize_max tokens CHARS_PER_TOKEN.

Definition apply_request_padding (raw_total : N) : N :=
  div_ceil (saturating_mul usize_max raw_total REQUEST_PADDING_NUMERATOR) REQUEST_PADDING_DENOMINATOR.

Definition sum_N (l : list N) : N := foldr N.add 0%N l.

Section estimate.
  (** [Value::to_string]. *)
  Context (value_to_string : Value → string).

Definition estimate_content_tokens (c : LlmContent) : N :=
  match c with
  | Content_Text text => estimate_text_tokens text
  | Content_Image base64 _ _ => N.max (estimate_char_tokens (N.of_nat (len base64))) 1
  | Content_ToolCall call_id name arguments raw_arguments =>
    (TOOL_CALL_BASE_TOKENS + estimate_text_tokens call_id + estimate_text_tokens name
     + match raw_arguments with
       | Some raw => estimate_text_tokens raw
       | None => estimate_text_tokens (value_to_string arguments)
       end)%N
  | Content_ToolResult tool_call_id content _ =>
    (estimate_text_tokens tool_call_id + estimate_text_tokens content)%N
  end.

Definition estimate_message_tokens (m : LlmMessage) : N :=
  (MESSAGE_BASE_TOKENS + sum_N (estimate_content_tokens <$> content m))%N.

Definition estimate_provider_message_tokens (messages : list LlmMessage) : N :=
  apply_request_padding (sum_N (estimate_message_tokens <$> messages)).

(** ** System messages ([provider_messages.rs]) *)

(** [PromptSectionOrder::from_title] and [is_stable]: the titles of the stable sections. *)
Definition section_group (title : string) : bool :=
  bool_decide (title ∈ ["Identity"; "System"; "Task Guidelines"; "Communication"]).

(** Where ["\n\n["] occurs from the byte [at], without overlaps. *)
Fixpoint section_starts (at_ : nat) (s : string) : list nat :=
  match s with
  | EmptyString => []
  | String _ r =>
    let rest := section_starts (S at_) r in
    if starts_with s (newline +:+ newline +:+ "[") then (at_ + 2) :: rest else rest
  end.

(** One window of [parse_sections]. *)
Definition parse_section (text : string) (start stop : nat) : option (string * string) :=
  let rendered := trim (str_take (stop - start) (str_drop start text)) in
  match str_find rendered "]" with
  | None => None
  | Some title_end =>
    let title := trim (str_take (title_end - 1) (str_drop 1 rendered)) in
    let remainder := str_drop (title_end + 1) rendered in
    if is_empty title || negb (starts_with remainder newline) || is_empty (trim remainder) then None
    else Some (title, rendered)
  end.

Fixpoint parse_windows (text : string) (starts : list nat) : option (list (string * string)) :=
  match starts with
  | a :: ((b :: _) as rest) =>
    match parse_section text a b, parse_windows text rest with
    | Some s, Some l => Some (s :: l)
    | _, _ => None
    end
  | _ => Some []
  end.

Definition parse_sections (text : string) : option (list (string * string)) :=
  let text := trim text in
  if negb (starts_with text "[") then None
  else match parse_windows text ([0] ++ section_starts 0 text ++ [len text]) with
  | Some [] => None
  | r => r
  end.

Definition group_step (grouped : list (bool * string)) (section : string * string) : list (bool * string) :=
  let stable := section_group section.1 in
  match last grouped with
  | Some (last_stable, text) =>
    if bool_decide (last_stable = stable)
    then removelast grouped ++ [(last_stable, text +:+ newline +:+ newline +:+ section.2)]
    else grouped ++ [(stable, section.2)]
  | None => grouped ++ [(stable, section.2)]
  end.

Definition system_messages_from_prompt (text : string) : list LlmMessage :=
  if is_empty (trim text) then []
  else match parse_sections text with
  | None => [LlmMessage_system text]
  | Some sections => (LlmMessage_system ∘ snd) <$> foldl group_step [] sections
  end.

Definition estimate_request_tokens_with_prompt (messages : list LlmMessage) (system_prompt : option string) : N :=
  estimate_provider_message_tokens
    (match system_prompt with Some p => system_messages_from_prompt p | None => [] end ++ messages).

(** ** Budgets ([token_budget.rs]) *)

Record PromptTokenSnapshot := {
  context_tokens : N;
  threshold_tokens : N;
  max_input_tokens : N;
  max_output_tokens : N;
}.

Definition MAX_REQUEST_SAFETY_TOKENS : N := 4096.
Definition REQUEST_SAFETY_WINDOW_DIVISOR : N := 16.
Definition MIN_REQUEST_OUTPUT_TOKENS : N := 16.

Definition should_compact (s : PromptTokenSnapshot) : bool :=
  bool_decide (threshold_tokens s ≤ context_tokens s)%N.

Definition safety_tokens (max_input : N) : N :=
  N.min MAX_REQUEST_SAFETY_TOKENS (max_input / REQUEST_SAFETY_WINDOW_DIVISOR).

Definition minimum_output (s : PromptTokenSnapshot) (provider_minimum : N) : N :=
  N.max (N.min (max_output_tokens s) (N.max MIN_REQUEST_OUTPUT_TOKENS provider_minimum)) 1.

Definition request_max_output_tokens (s : PromptTokenSnapshot) (provider_minimum : N) : option N :=
  let available :=
    saturating_sub (saturating_sub (max_input_tokens s) (context_tokens s)) (safety_tokens (max_input_tokens s)) in
  let max_output := N.min (max_output_tokens s) available in
  if bool_decide (minimum_output s provider_minimum ≤ max_output)%N then Some max_output else None.

Definition should_compact_predictive (s : PromptTokenSnapshot) (growth_estimate limits_max_input : N) : bool :=
  let hard_budget := saturating_sub limits_max_input (safety_tokens limits_max_input) in
  let effective_budget := N.min (threshold_tokens s) hard_budget in
  bool_decide (effective_budget ≤ saturating_add usize_max (context_tokens s) growth_estimate)%N.

Definition truncate_text_to_tokens (content : string) (max_tokens : N) (marker : string) : string :=
  if bool_decide (estimate_text_tokens content ≤ max_tokens)%N then content
  else chars_take (saturating_sub (estimate_char_budget max_tokens) (char_count marker)) content +:+ marker.

(** The loop of [turn_token_totals]. *)
Definition turn_total_step (st : list N * N) (m : LlmMessage) : list N * N :=
  let '(turns, current) := st in
  let '(turns, current) :=
    if bool_decide (role m = Role_User) && bool_decide (0 < current)%N then (turns ++ [current], 0%N)
    else (turns, current) in
  (turns, saturating_add usize_max current (estimate_message_tokens m)).

Definition turn_token_totals (messages : list LlmMessage) : list N :=
  let '(turns, current) := foldl turn_total_step ([], 0%N) messages in
  if bool_decide (0 < current)%N then turns ++ [current] else turns.

(** ** Snapshots ([context.rs]) *)

Record InputTokenAnchor := {
  an_context_tokens : N;
  an_model_context_window : N;
  an_covered_message_count : N;
}.

Record ContextSnapshot := {
  cs_source_seq : N;
  cs_system_prompt : string;
  cs_messages : list (Arc LlmMessage);
  cs_origins : list (option TranscriptMessageOrigin);
  cs_input_token_anchor : option InputTokenAnchor;
}.

Definition from_shared_transcript (source_seq : N) (system_prompt : string)
    (messages : list SharedTranscriptMessage) : ContextSnapshot :=
  let entries := provider_transcript_shared_messages messages in
  {| cs_source_seq := source_seq; cs_system_prompt := system_prompt;
     cs_messages := stm_message <$> entries; cs_origins := stm_origin <$> entries;
     cs_input_token_anchor := None |}.

Definition with_input_token_anchor (tokens window covered : N) (s : ContextSnapshot) : ContextSnapshot :=
  {| cs_source_seq := cs_source_seq s; cs_system_prompt := cs_system_prompt s;
     cs_messages := cs_messages s; cs_origins := cs_origins s;
     cs_input_token_anchor :=
       if bool_decide (covered ≤ N.of_nat (length (cs_messages s)))%N
       then Some {| an_context_tokens := tokens; an_model_context_window := window;
                    an_covered_message_count := covered |}
       else cs_input_token_anchor s |}.

Definition request_messages (s : ContextSnapshot) (messages : list (Arc LlmMessage)) : list (Arc LlmMessage) :=
  provider_visible_shared_messages
    ((Arc_new <$> system_messages_from_prompt (cs_system_prompt s)) ++ messages).

(** [retained_transcript_messages]. *)
Definition retained_transcript_messages (s : ContextSnapshot) (retained : list LlmMessage)
    : option (list TranscriptMessage) :=
  if Nat.ltb (length (cs_messages s)) (length retained) then None
  else
    let start := length (cs_messages s) - length retained in
    if bool_decide (arc_get <$> drop start (cs_messages s) = retained) then
      Some (zip_with (λ m o, {| tm_message := arc_get m; tm_origin := o |})
              (drop start (cs_messages s)) (drop start (cs_origins s)))
    else None.

Definition estimate_own_input_tokens (s : ContextSnapshot) (tools_tokens window : N) : N :=
  let full_estimate :=
    saturating_add usize_max
      (estimate_provider_message_tokens
         (system_messages_from_prompt (cs_system_prompt s) ++ (arc_get <$> cs_messages s)))
      tools_tokens in
  match cs_input_token_anchor s with
  | None => full_estimate
  | Some anchor =>
    if bool_decide (an_model_context_window anchor ≠ window) then full_estimate
    else if bool_decide (N.of_nat (length (cs_messages s)) < an_covered_message_count anchor)%N then full_estimate
    else
      let trailing := drop (N.to_nat (an_covered_message_count anchor)) (cs_messages s) in
      saturating_add usize_max
        (saturating_add usize_max (an_context_tokens anchor)
           (estimate_provider_message_tokens (arc_get <$> trailing)))
        tools_tokens
  end.

Definition estimate_input_tokens (s : ContextSnapshot) (request : list (Arc LlmMessage))
    (tools_tokens window : N) : N :=
  let full_estimate :=
    saturating_add usize_max (estimate_provider_message_tokens (arc_get <$> request)) tools_tokens in
  match cs_input_token_anchor s with
  | None => full_estimate
  | Some anchor =>
    if bool_decide (an_model_context_window anchor ≠ window) then full_estimate
    else
      let system_messages := system_messages_from_prompt (cs_system_prompt s) in
      if bool_decide (N.of_nat (length (cs_messages s)) < an_covered_message_count anchor)%N then full_estimate
      else
        let covered := take (N.to_nat (an_covered_message_count anchor)) (cs_messages s) in
        let prefix_len := length system_messages + length covered in
        if Nat.ltb (length request) prefix_len then full_estimate
        else if negb (bool_decide (arc_get <$> take (length system_messages) request = system_messages))
                || negb (bool_decide (take (length covered) (drop (length system_messages) request) = covered))
        then full_estimate
        else
          saturating_add usize_max
            (saturating_add usize_max (an_context_tokens anchor)
               (estimate_provider_message_tokens (arc_get <$> drop prefix_len request)))
            tools_tokens
  end.
End estimate.

(** ** Budgets *)

(** The output a request may ask for is the largest that fits: with the input and the
    reserve it stays inside the window, it is at least one and at most the model's cap, and a
    larger one would not fit; when the budget refuses, every output that fits is below the
    minimum of the provider. *)
Theorem request_fits_window s provider_minimum :
  let fits n := (n ≤ max_output_tokens s ∧
                 (n = 0 ∨ context_tokens s + n + safety_tokens (max_input_tokens s) ≤ max_input_tokens s))%N in
  match request_max_output_tokens s provider_minimum with
  | Some n => fits n ∧ (1 ≤ n)%N ∧ ∀ m, fits m → (m ≤ n)%N
  | None => ∀ m, fits m → (m < minimum_output s provider_minimum)%N
  end.
Proof.
  intros fits. unfold request_max_output_tokens, saturating_sub, minimum_output.
  case_bool_decide as H; unfold fits; [split_and!|]; try lia; intros m [Hm [->|Hw]]; lia.
Qed.

Lemma div_ceil_le a b n : (0 < b)%N → (a ≤ b * n)%N → (div_ceil a b ≤ n)%N.
Proof.
  intros Hb Ha. unfold div_ceil. destruct (decide (a = 0)%N) as [->|Hne].
  - rewrite N.div_small; lia.
  - apply N.lt_succ_r. apply N.Div0.div_lt_upper_bound; lia.
Qed.

(** A text cut to a budget that has room for the marker stays within it. *)
Lemma truncated_within_budget content max_tokens marker :
  starts_char marker = true → (estimate_text_tokens marker ≤ max_tokens)%N →
  (estimate_text_tokens (truncate_text_to_tokens content max_tokens marker) ≤ max_tokens)%N.
Proof.
  intros Hm Hmax. unfold truncate_text_to_tokens. case_bool_decide as Hc; [done|].
  unfold estimate_text_tokens in *. assert (1 ≤ max_tokens)%N by lia.
  rewrite char_count_take by done. apply N.max_lub; [|done].
  assert (estimate_char_tokens (char_count marker) ≤ max_tokens)%N as Hmt by lia.
  assert (char_count marker ≤ 4 * max_tokens)%N as Hcm.
  { unfold estimate_char_tokens, div_ceil, CHARS_PER_TOKEN in Hmt.
    pose proof (N.mul_succ_div_gt (char_count marker + 4 - 1) 4 ltac:(done)). lia. }
  unfold estimate_char_tokens, CHARS_PER_TOKEN. apply div_ceil_le; [done|].
  unfold estimate_char_budget, saturating_mul, saturating_sub, CHARS_PER_TOKEN. lia.
Qed.

(** ** The request of a snapshot *)

Lemma sections_bracketed text starts l :
  parse_windows text starts = Some l → Forall (λ s, has_byte "]"%char s.2 = true) l.
Proof.
  revert l. induction starts as [|a starts IH]; intros l; simpl; [intros [= <-]; constructor|].
  destruct starts as [|b starts]; [intros [= <-]; constructor|].
  destruct (parse_section text a b) as [[t r]|] eqn:Hp; [|done].
  destruct (parse_windows text (b :: starts)) as [k|]; [|done]. intros [= <-].
  constructor; [|by apply IH]. unfold parse_section in Hp. set (rendered := trim _) in Hp.
  destruct (str_find rendered "]") as [e|] eqn:Hf; [|done]. destruct (_ || _); [done|].
  injection Hp as <- <-. by eapply str_find_has_byte.
Qed.

Lemma group_bracketed sections grouped :
  Forall (λ g : bool * string, has_byte "]"%char g.2 = true) grouped →
  Forall (λ s : string * string, has_byte "]"%char s.2 = true) sections →
  Forall (λ g, has_byte "]"%char g.2 = true) (foldl group_step grouped sections).
Proof.
  intros Hg Hs. revert grouped Hg. induction Hs as [|s sections Hs _ IH]; intros grouped Hg; [done|].
  simpl. apply IH. unfold group_step. destruct (last grouped) as [[b t]|] eqn:Hl.
  2: { apply Forall_app; split; [done|]. by repeat constructor. }
  case_bool_decide; [|apply Forall_app; split; [done|]; by repeat constructor].
  apply last_Some in Hl as [l ->]. rewrite removelast_last. apply Forall_app in Hg as [Hg Ht].
  apply Forall_app. split; [done|]. constructor; [|done]. simpl. rewrite !has_byte_app, Hs, !orb_true_r. done.
Qed.

Lemma system_messages_visible text :
  Forall (λ m, role m = Role_System ∧ has_provider_visible_content m = true) (system_messages_from_prompt text).
Proof.
  unfold system_messages_from_prompt. destruct (is_empty (trim text)) eqn:Ht; [constructor|].
  destruct (parse_sections text) as [sections|] eqn:Hp.
  2: { repeat constructor. unfold has_provider_visible_content. simpl. by rewrite Ht. }
  rewrite Forall_fmap. eapply Forall_impl; [apply group_bracketed; [constructor|]|].
  - unfold parse_sections in Hp. destruct (negb _); [done|].
    destruct (parse_windows _ _) as [[|s l]|] eqn:Hw; try done. injection Hp as <-. by eapply sections_bracketed.
  - intros [b t] Hb. simpl in *. split; [done|]. unfold has_provider_visible_content. simpl.
    by rewrite (trim_not_empty "]" t).
Qed.

(** ** Messages in front of a transcript

    Messages that call no tools and are no assistant messages, put in front of a transcript,
    do not change what the normalisation does to it. *)
Section front.
  Context {E : Type} `{!ProviderVisibleEntry E}.

Definition front_entry (e : E) : Prop :=
  role (entry_message e) ≠ Role_Assistant ∧ role (entry_message e) ≠ Role_Tool ∧ entry_visible e = true.

Lemma normalize_front front l :
  Forall front_entry front → foldl normalize_step front l = front ++ normalize_tool_call_entries l.
Proof.
  intros Hf. unfold normalize_tool_call_entries.
  induction l as [|e l IH] using rev_ind; [by rewrite app_nil_r|].
  rewrite !foldl_snoc, IH. set (N := foldl normalize_step [] l). unfold normalize_step.
  destruct (last N) as [x|] eqn:Hx.
  - apply last_Some in Hx as [k Hk]. rewrite Hk. rewrite app_assoc, !last_snoc.
    case_match; [|by rewrite <-!app_assoc]. rewrite !length_app. simpl.
    rewrite Nat.add_sub, Nat.add_sub, !take_app_length', <-app_assoc by (rewrite ?length_app; lia). done.
  - apply last_None in Hx as ->. rewrite app_nil_r. simpl.
    destruct (last front) as [y|] eqn:Hy; [|done]. apply last_Some in Hy as [k ->].
    apply Forall_app in Hf as [_ Hy]. apply Forall_cons in Hy as [(Hr & _ & _) _].
    by rewrite (bool_decide_false (role (entry_message y) = _)), andb_false_r.
Qed.

(** The position of the open round, moved by what is in front. *)
Definition shift_round (n : nat) (p : PendingRound) : PendingRound :=
  let '(start, calls, answered) := p in (n + start, calls, answered).

Lemma truncate_front front l out pending buffered :
  truncate_loop l (front ++ out) (shift_round (length front) <$> pending) buffered
  = front ++ truncate_loop l out pending buffered.
Proof.
  assert (∀ n x, take (length front + n) (front ++ x) = front ++ take n x) as Htake.
  { intros n x. by rewrite take_app_add. }
  revert out pending buffered. induction l as [|e l IH]; intros out pending buffered; simpl.
  { destruct pending as [[[start C] A]|]; [apply Htake|done]. }
  destruct (decide (role (entry_message e) = Role_Tool)).
  - destruct pending as [[[start C] A]|]; [|done]. simpl. case_match; [|apply Htake].
    case_decide; rewrite <-!app_assoc; [apply (IH (out ++ [e] ++ buffered) None)|apply (IH _ (Some (start, C, _)))].
  - destruct pending as [[[start C] A]|]; simpl; [apply (IH _ (Some (start, C, A)))|].
    rewrite <-app_assoc. case_decide; [|apply (IH _ None)].
    rewrite length_app. apply (IH _ (Some (length out, _, ∅))).
Qed.

Lemma truncate_loop_plain front l out :
  Forall front_entry front → truncate_loop (front ++ l) out None [] = truncate_loop l (out ++ front) None [].
Proof.
  intros Hf. revert out. induction Hf as [|e front (Ha & Ht & _) _ IH]; intros out; simpl; [by rewrite app_nil_r|].
  rewrite decide_False by done. rewrite decide_False by (intros [? _]; done). rewrite IH. by rewrite <-app_assoc.
Qed.

Lemma normalize_front_id front : Forall front_entry front → foldl normalize_step [] front = front.
Proof.
  induction front as [|e front IH] using rev_ind; [done|]. intros [Hf He]%Forall_app.
  rewrite foldl_snoc, IH by done. apply Forall_cons in He as [(Ha & _ & _) _]. unfold normalize_step, has_tool_calls.
  rewrite (bool_decide_false (role (entry_message e) = _)) by done. by destruct (last front).
Qed.

(** What the provider sees of a transcript with messages in front. *)
Lemma provider_visible_front front l :
  Forall front_entry front → provider_visible_entries (front ++ l) = front ++ provider_visible_entries l.
Proof.
  intros Hf. unfold provider_visible_entries, visible_entries. rewrite filter_app.
  rewrite (filter_all _ front) by (intros e He; rewrite Forall_forall in Hf; by apply Hf).
  unfold normalize_tool_call_entries at 1. rewrite foldl_app, normalize_front_id, normalize_front by done.
  unfold truncate_incomplete_tool_entries. rewrite truncate_loop_plain by done. simpl.
  pose proof (truncate_front front (normalize_tool_call_entries (filter (λ e : E, entry_visible e = true) l)) [] None [])
    as H. by rewrite app_nil_r in H.
Qed.
End front.

Lemma request_messages_eq s messages :
  request_messages s messages
  = (Arc_new <$> system_messages_from_prompt (cs_system_prompt s)) ++ provider_visible_shared_messages messages.
Proof.
  apply provider_visible_front. rewrite Forall_fmap. eapply Forall_impl; [apply system_messages_visible|].
  intros m [Hr Hv]. unfold front_entry, entry_visible. simpl. by rewrite Hr.
Qed.

(** Estimating a snapshot without building its request gives the number that estimating the
    built request gives, for every anchor and window, when the normalisation leaves the
    transcript of the snapshot as it is. *)
Theorem own_estimate_agrees value_to_string s tools_tokens window :
  provider_visible_shared_messages (cs_messages s) = cs_messages s →
  estimate_own_input_tokens value_to_string s tools_tokens window
  = estimate_input_tokens value_to_string s (request_messages s (cs_messages s)) tools_tokens window.
Proof.
  intros Hfix. rewrite request_messages_eq, Hfix. unfold estimate_own_input_tokens, estimate_input_tokens.
  set (sys := system_messages_from_prompt (cs_system_prompt s)).
  assert (arc_get <$> ((Arc_new <$> sys) ++ cs_messages s) = sys ++ (arc_get <$> cs_messages s)) as Hreq.
  { rewrite fmap_app, <-list_fmap_compose. f_equal. apply list_fmap_id. }
  rewrite Hreq. destruct (cs_input_token_anchor s) as [anchor|]; [|done].
  case_bool_decide; [done|]. case_bool_decide as Hlen; [done|].
  set (covered := take _ (cs_messages s)).
  rewrite (proj2 (Nat.ltb_ge _ _)) by (rewrite length_app, length_fmap; unfold covered; rewrite length_take; lia).
  rewrite <-(length_fmap Arc_new sys). rewrite take_app_length, drop_app_length.
  rewrite (bool_decide_true (arc_get <$> (Arc_new <$> sys) = sys)) by (rewrite <-list_fmap_compose; apply list_fmap_id).
  assert (length covered = N.to_nat (an_covered_message_count anchor)) as Hcov
    by (unfold covered; rewrite length_take; lia).
  rewrite (bool_decide_true (take (length covered) (cs_messages s) = covered)) by (by rewrite Hcov).
  simpl. rewrite drop_app_add, Hcov. done.
Qed.

(** A question with its answer, of which the provider has counted the first message. *)
Definition sample_snapshot : ContextSnapshot :=
  with_input_token_anchor 100 1000 1
    (from_shared_transcript 2 "be brief"
       [{| stm_message := Arc_new (LlmMessage_user "first"); stm_origin := None |};
        {| stm_message := Arc_new (LlmMessage_assistant "response"); stm_origin := None |}]).

Lemma own_estimate_agrees_witness :
  estimate_own_input_tokens (λ _, "{}") sample_snapshot 7 1000 = 118%N
  ∧ estimate_own_input_tokens (λ _, "{}") sample_snapshot 7 1000
    = estimate_input_tokens (λ _, "{}") sample_snapshot
        (request_messages sample_snapshot (cs_messages sample_snapshot)) 7 1000.
Proof.
  split; [vm_compute; reflexivity|]. apply (own_estimate_agrees (λ _, "{}") sample_snapshot). vm_compute. reflexivity.
Defined.

(** A transcript in which an assistant message arrived inside a round: it is moved behind the
    round, where normalising again merges it with the next call.  The request then differs
    from the snapshot it was built from, and so do the estimates. *)
Theorem own_estimate_differs_after_merge :
  let entry m := {| stm_message := Arc_new m; stm_origin := None |} in
  let s := with_input_token_anchor 100 1000 5 (from_shared_transcript 5 "be brief"
    (entry <$> [call_message "a"; LlmMessage_assistant "wait"; LlmMessage_tool "shell" "a" "done" false;
                call_message "b"; LlmMessage_tool "shell" "b" "done" false])) in
  estimate_own_input_tokens (λ _, "{}") s 0 1000 = 100%N
  ∧ estimate_input_tokens (λ _, "{}") s (request_messages s (cs_messages s)) 0 1000 = 92%N.
Proof. vm_compute. split; reflexivity. Qed.
