(* ===== verification/CtxCompact.v ===== *)
(** * Compacting a transcript

    [astrcode-context/src/compaction/mod.rs], [plan.rs], [prompt.rs] and [post_compact.rs]:
    which messages are summarised and which are kept, the requests to the model, the summary
    without a model, and the context extensions have retained.  The two prompt templates are
    text files and arguments; the model is a function of the requests it has been sent. *)

From S2P Require Import Prelude Utf8 StdPath CoreLlm CoreLlmProtocol StoreTypes TurnFinalize StdStr CtxText CtxTokens.

(** The part of [ContextSettings] compaction reads. *)
Record ContextSettings := {
  compact_max_retry_attempts : N;
  compact_max_output_tokens : N;
  compact_keep_recent_turns : option N;
  post_compact_max_files : N;
  post_compact_token_budget : N;
  post_compact_max_tokens_per_file : N;
}.

Inductive CompactSkipReason := Skip_Empty | Skip_NothingToCompact.

Inductive CompactError :=
| Compact_Skip (reason : CompactSkipReason)
| Compact_Parse (message : string)
| Compact_Llm (e : LlmError).

Definition CompactSkipReason_debug (r : CompactSkipReason) : string :=
  match r with Skip_Empty => "Empty" | Skip_NothingToCompact => "NothingToCompact" end.

Definition CompactError_to_string (e : CompactError) : string :=
  match e with
  | Compact_Skip reason => "compact skipped: " +:+ CompactSkipReason_debug reason
  | Compact_Parse error => "compact parse error: " +:+ error
  | Compact_Llm error => "compact llm error: " +:+ LlmError_to_string error
  end.

Inductive LlmCompactAttempt := NotAttempted | Succeeded | Failed.

Record CompactExecution := {
  ex_result : CompactResult;
  ex_llm_attempt : LlmCompactAttempt;
}.

Inductive CompactPromptMode := Fresh | Incremental (previous_summary : string).

Record PreparedCompactInput := {
  pi_messages : list LlmMessage;
  pi_prompt_mode : CompactPromptMode;
}.

Record PreparedCompactParts := {
  cp_prefix : list LlmMessage;
  cp_prepared_input : PreparedCompactInput;
  cp_retained_messages : list LlmMessage;
  cp_pre_tokens : N;
  cp_messages_removed : N;
}.

Definition MAX_PTL_RETRIES : nat := 3.
Definition MAX_SUMMARY_LINE_CHARS : N := 320.

(** ** Where the transcript is cut *)

(** A message of the user's own. *)
Definition real_user (m : LlmMessage) : bool :=
  bool_decide (role m = Role_User) && negb (is_synthetic_context_message m).

Definition can_split_after (messages : list LlmMessage) (split_after : nat) : bool :=
  match messages !! split_after with
  | None => true
  | Some message =>
    if real_user message then false
    else if bool_decide (role message = Role_Assistant) && existsb is_tool_call (content message) then false
    else match messages !! S split_after with
    | Some next => negb (bool_decide (role next = Role_Tool))
    | None => true
    end
  end.

Definition can_compact_before (messages : list LlmMessage) (keep_start : nat) : bool :=
  match keep_start with O => false | S n => can_split_after messages n end.

Fixpoint turn_starts_from (index : nat) (messages : list LlmMessage) : list nat :=
  match messages with
  | [] => []
  | m :: messages => (if real_user m then [index] else []) ++ turn_starts_from (S index) messages
  end.

Definition user_turn_starts (messages : list LlmMessage) : list nat := turn_starts_from 0 messages.

(** The loop of [adjust_keep_start_to_safe_boundary]; [None] is a lack of fuel. *)
Fixpoint adjust_loop (fuel : nat) (messages : list LlmMessage) (turn_starts : list nat) (keep_start : nat)
    : option (option nat) :=
  match fuel with
  | O => None
  | S fuel =>
    if Nat.ltb 0 keep_start && negb (can_compact_before messages keep_start) then
      match find_first (λ index, Nat.ltb index keep_start) (rev turn_starts) with
      | Some previous => adjust_loop fuel messages turn_starts previous
      | None => Some None
      end
    else Some (if can_compact_before messages keep_start then Some keep_start else None)
  end.

Definition adjust_keep_start_to_safe_boundary (messages : list LlmMessage) (turn_starts : list nat)
    (keep_start : nat) : option nat :=
  mjoin (adjust_loop (S keep_start) messages turn_starts keep_start).

Definition split_compact_start (messages : list LlmMessage) (keep_recent_turns : option N) : option nat :=
  if negb (existsb (λ m, bool_decide (role m = Role_Assistant) && negb (is_synthetic_context_message m)) messages)
  then None
  else
    let turn_starts := user_turn_starts messages in
    let keep_turns := N.to_nat (default 1%N keep_recent_turns) in
    if Nat.leb (length turn_starts) keep_turns then None
    else if Nat.eqb keep_turns 0 then Some (length messages)
    else
      turn_starts !! (length turn_starts - keep_turns) ≫= λ candidate,
      adjust_keep_start_to_safe_boundary messages turn_starts candidate.

Definition removed_visible_messages (messages : list LlmMessage) : N :=
  N.of_nat (length (filter (λ m, is_synthetic_context_message m = false) messages)).

Section compact.
  Context (value_to_string : Value → string) (base_template incremental_template : string).

(** ** What the model reads ([plan.rs]) *)

Definition visible_content_text (c : LlmContent) : string :=
  match c with
  | Content_Text text => text
  | Content_Image _ _ _ => "[image]"
  | Content_ToolCall _ name arguments _ => "requested tool " +:+ name +:+ " with " +:+ value_to_string arguments
  | Content_ToolResult _ text _ => text
  end.

Definition visible_message_text (m : LlmMessage) : string :=
  join newline (visible_content_text <$> content m).

(** The first result of [f] on the list. *)
Fixpoint find_map {A B} (f : A → option B) (l : list A) : option B :=
  match l with
  | [] => None
  | a :: l => match f a with Some b => Some b | None => find_map f l end
  end.

Definition summary_of_message (m : LlmMessage) : option string :=
  if bool_decide (role m ≠ Role_User) then None
  else find_map (λ text, sanitize_compact_summary <$> parse_compact_summary_message text) (omap as_text (content m)).

Definition latest_previous_summary (messages : list LlmMessage) : option string :=
  find_map summary_of_message (rev messages).

Definition first_tool_call_id (m : LlmMessage) : option string := find_map tool_result_id_of (content m).
Definition first_tool_is_error (m : LlmMessage) : bool :=
  existsb (λ c, match c with Content_ToolResult _ _ is_error => is_error | _ => false end) (content m).

Definition tool_result_transcript_text (m : LlmMessage) (text : string) : string :=
  let tool_name := default "tool" (name m) in
  let status := if first_tool_is_error m then "error" else "result" in
  match first_tool_call_id m with
  | Some call_id => "tool " +:+ tool_name +:+ " " +:+ status +:+ " (" +:+ call_id +:+ "):" +:+ newline +:+ text
  | None => "tool " +:+ tool_name +:+ " " +:+ status +:+ ":" +:+ newline +:+ text
  end.

Definition normalize_compaction_message (m : LlmMessage) : option LlmMessage :=
  let text := collapse_compaction_whitespace (visible_message_text m) in
  match role m with
  | Role_System => None
  | Role_User =>
    if is_synthetic_context_message m then None
    else if is_empty text then None else Some (LlmMessage_user text)
  | Role_Assistant => if is_empty text then None else Some (LlmMessage_assistant text)
  | Role_Tool => if is_empty text then None else Some (LlmMessage_user (tool_result_transcript_text m text))
  end.

Definition prepare_compact_input (messages : list LlmMessage) : PreparedCompactInput := {|
  pi_messages := omap normalize_compaction_message messages;
  pi_prompt_mode :=
    match latest_previous_summary messages with Some s => Incremental s | None => Fresh end;
|}.

Definition prepare_compact_parts (messages : list LlmMessage) (system_prompt : option string)
    (keep_recent_turns : option N) : result PreparedCompactParts CompactSkipReason :=
  match messages with
  | [] => Err Skip_Empty
  | _ =>
    match split_compact_start messages keep_recent_turns with
    | None => Err Skip_NothingToCompact
    | Some keep_start =>
      let prefix := take keep_start messages in
      let prepared_input := prepare_compact_input prefix in
      match pi_messages prepared_input with
      | [] => Err Skip_NothingToCompact
      | _ =>
        Ok {| cp_prefix := prefix; cp_prepared_input := prepared_input;
              cp_retained_messages := drop keep_start messages;
              cp_pre_tokens := estimate_request_tokens_with_prompt value_to_string messages system_prompt;
              cp_messages_removed := removed_visible_messages prefix |}
      end
    end
  end.

(** ** The request ([prompt.rs]) *)

Definition render_custom_instructions (instructions : list string) : string :=
  match filter (λ i, i ≠ "") (trim <$> instructions) with
  | [] => ""
  | instructions =>
    "## Custom Compact Instructions" +:+ newline
    +:+ concat_str ((λ i, "- " +:+ i +:+ newline) <$> instructions)
  end.

Definition render_compact_contract (mode : CompactPromptMode) (settings : ContextSettings)
    (contract_repair_feedback : option string) (custom_instructions : list string) : string :=
  let incremental_block :=
    match mode with
    | Fresh => ""
    | Incremental previous_summary => str_replace incremental_template "{{PREVIOUS_SUMMARY}}" (trim previous_summary)
    end in
  let contract_repair_block :=
    match contract_repair_feedback with
    | Some value =>
      if is_empty (trim value) then ""
      else newline +:+ "## Contract Repair" +:+ newline
           +:+ "The previous compact response violated the required XML contract." +:+ newline
           +:+ "Return one <analysis> scratchpad block followed by the <summary> block exactly as specified, and do not add any preamble, explanation, or Markdown fence."
           +:+ newline +:+ "Violation details:" +:+ newline +:+ value
    | None => ""
    end in
  let text := str_replace base_template "{{INCREMENTAL_MODE}}" (trim incremental_block) in
  let text := str_replace text "{{CUSTOM_INSTRUCTIONS}}" (trim (render_custom_instructions custom_instructions)) in
  let text := str_replace text "{{CONTRACT_REPAIR}}" (trim contract_repair_block) in
  let text := str_replace text "{{COMPACT_OUTPUT_TOKEN_CAP}}" (pretty (N.max (compact_max_output_tokens settings) 1)) in
  str_replace text "{{RUNTIME_CONTEXT}}" "".

Definition render_compact_request (mode : CompactPromptMode) (settings : ContextSettings)
    (contract_repair_feedback : option string) (custom_instructions : list string) : string :=
  "You are compacting the conversation above for a continuing coding-agent session." +:+ newline
  +:+ "Use only the conversation messages above and the previous compact summary if one is included in this request." +:+ newline
  +:+ "Do not call tools, functions, external systems, or any provider tool-call interface. Tool calls are forbidden for this compact request." +:+ newline
  +:+ "Return exactly one <analysis> scratchpad block followed by one <summary> block, with no markdown fences, preamble, or extra text. The <analysis> block is private drafting context and will be stripped before the continued session sees the result."
  +:+ newline +:+ newline
  +:+ render_compact_contract mode settings contract_repair_feedback custom_instructions.

Definition compact_request_messages (prepared_input : PreparedCompactInput) (message_start : nat)
    (system_prompt : option string) (settings : ContextSettings) (repair_feedback : option string)
    (custom_instructions : list string) : list LlmMessage :=
  match system_prompt with Some p => system_messages_from_prompt p | None => [] end
  ++ drop message_start (pi_messages prepared_input)
  ++ [LlmMessage_user (render_compact_request (pi_prompt_mode prepared_input) settings repair_feedback custom_instructions)].

(** The indices of the user messages behind the first message, counted from [index]. *)
Fixpoint user_indices (index : nat) (messages : list LlmMessage) : list nat :=
  match messages with
  | [] => []
  | m :: messages => (if bool_decide (role m = Role_User) then [index] else []) ++ user_indices (S index) messages
  end.

Definition api_round_starts (messages : list LlmMessage) : list nat :=
  match messages with [] => [] | _ :: rest => 0 :: user_indices 1 rest end.

(** ** The summary *)

Definition finish_compact_summary (summary : string) (retained_messages : list LlmMessage)
    (pre_tokens messages_removed : N) (system_prompt : option string)
    (render_options : CompactSummaryRenderOptions) : CompactResult :=
  let summary_messages := [LlmMessage_user (compact_summary_message_text summary render_options)] in
  {| cr_pre_tokens := pre_tokens;
     cr_post_tokens :=
       estimate_request_tokens_with_prompt value_to_string (summary_messages ++ retained_messages) system_prompt;
     cr_summary := summary; cr_messages_removed := messages_removed;
     cr_summary_messages := summary_messages; cr_retained_messages := retained_messages;
     cr_transcript_path := ro_transcript_path render_options |}.

Definition ellipsis : string := String.string_of_list_ascii (ascii_of_N <$> [226; 128; 166]%N).

Definition summary_line (text : string) : string :=
  let line := join " " (split_whitespace text) in
  if bool_decide (MAX_SUMMARY_LINE_CHARS < char_count line)%N
  then chars_take MAX_SUMMARY_LINE_CHARS line +:+ ellipsis else line.

Definition summarized_message (m : LlmMessage) : option string :=
  let text := visible_message_text m in
  if is_empty (trim text) then None
  else Some (if bool_decide (role m = Role_User) then "   - " +:+ summary_line text
             else "   - " +:+ LlmRole_as_str (role m) +:+ ": " +:+ summary_line text).

Definition summarize_prefix (messages : list LlmMessage) : string :=
  join newline
    (["1. Primary Request and Intent:"; "   - Compacted " +:+ pretty (N.of_nat (length messages)) +:+ " earlier messages."; "";
      "2. Key Technical Concepts:"; "   - (unknown from deterministic fallback)"; "";
      "3. Files and Code Sections:"; "   - (none)"; "";
      "4. Errors and fixes:"; "   - (none)"; "";
      "5. Problem Solving:";
      "   - Deterministic fallback summary was used because provider-backed compact was unavailable."; "";
      "6. All user messages:"]
     ++ omap summarized_message (drop (length messages - 12) messages)
     ++ [""; "7. Pending Tasks:"; "   - (unknown)"; ""; "8. Current Work:"; "   - (unknown)"; "";
         "9. Optional Next Step:"; "   - (none)"]).

Definition compact_messages_with_render_options_and_keep (messages : list LlmMessage)
    (system_prompt : option string) (render_options : CompactSummaryRenderOptions)
    (keep_recent_turns : option N) : result CompactResult CompactSkipReason :=
  let? parts := prepare_compact_parts messages system_prompt keep_recent_turns in
  Ok (finish_compact_summary (summarize_prefix (cp_prefix parts)) (cp_retained_messages parts)
        (cp_pre_tokens parts) (cp_messages_removed parts) system_prompt render_options).

Definition should_retry_prompt_too_long (e : CompactError) : bool :=
  match e with Compact_Llm (ContextWindowExceeded _) => true | _ => false end
  || is_prompt_too_long_message (CompactError_to_string e).

(** ** The loop of requests *)

(** The locals of the loop, and the requests sent so far. *)
Record RequestLoop := {
  rl_feedback : option string;
  rl_dropped : nat;
  rl_attempts : N;
  rl_last_error : option CompactError;
  rl_requests : list (list LlmMessage);
}.

Definition request_loop_start : RequestLoop :=
  {| rl_feedback := None; rl_dropped := 0; rl_attempts := 0; rl_last_error := None; rl_requests := [] |}.

Definition loop_failure (l : RequestLoop) : CompactError :=
  default (Compact_Parse "compact response did not contain a summary") (rl_last_error l).

Section requests.
  Context (parts : PreparedCompactParts) (system_prompt : option string) (settings : ContextSettings)
    (custom_instructions : list string) (render_options : CompactSummaryRenderOptions)
    (request_text : list (list LlmMessage) → list LlmMessage → result string CompactError).

(** The loop of [compact_messages_with_request]; [None] is a lack of fuel. *)
Fixpoint compact_loop (fuel : nat) (l : RequestLoop)
    : option (result CompactResult CompactError * list (list LlmMessage)) :=
  match fuel with
  | O => None
  | S fuel =>
    let round_starts := api_round_starts (pi_messages (cp_prepared_input parts)) in
    let max_attempts := N.max (compact_max_retry_attempts settings) 1 in
    if negb (bool_decide (rl_attempts l < max_attempts)%N) then Some (Err (loop_failure l), rl_requests l)
    else match round_starts !! rl_dropped l with
    | None => Some (Err (loop_failure l), rl_requests l)
    | Some message_start =>
      let request := compact_request_messages (cp_prepared_input parts) message_start system_prompt settings
                       (rl_feedback l) custom_instructions in
      let requests := rl_requests l ++ [request] in
      match request_text (rl_requests l) request with
      | Ok output =>
        match parse_compact_output output with
        | Ok summary =>
          Some (Ok (finish_compact_summary (sanitize_compact_summary summary) (cp_retained_messages parts)
                      (cp_pre_tokens parts) (cp_messages_removed parts) system_prompt render_options), requests)
        | Err error =>
          compact_loop fuel {| rl_feedback := Some error; rl_dropped := rl_dropped l;
                               rl_attempts := (rl_attempts l + 1)%N;
                               rl_last_error := Some (Compact_Parse error); rl_requests := requests |}
        end
      | Err error =>
        if should_retry_prompt_too_long error then
          let next_drop := S (rl_dropped l) in
          if Nat.ltb MAX_PTL_RETRIES next_drop || Nat.leb (length round_starts) next_drop
          then Some (Err error, requests)
          else compact_loop fuel {| rl_feedback := rl_feedback l; rl_dropped := next_drop;
                                    rl_attempts := rl_attempts l; rl_last_error := rl_last_error l;
                                    rl_requests := requests |}
        else Some (Err error, requests)
      end
    end
  end.

(** Enough for every attempt and every round dropped. *)
Definition loop_fuel : nat := S (N.to_nat (N.max (compact_max_retry_attempts settings) 1) + MAX_PTL_RETRIES).
End requests.

Definition compact_messages_with_request (messages : list LlmMessage) (system_prompt : option string)
    (settings : ContextSettings) (custom_instructions : list string)
    (render_options : CompactSummaryRenderOptions) (keep_recent_turns : option N)
    (request_text : list (list LlmMessage) → list LlmMessage → result string CompactError)
    : result CompactResult CompactError * list (list LlmMessage) :=
  match prepare_compact_parts messages system_prompt keep_recent_turns with
  | Err reason => (Err (Compact_Skip reason), [])
  | Ok parts =>
    default (Err (Compact_Parse ""), [])
      (compact_loop parts system_prompt settings custom_instructions render_options request_text
         (loop_fuel settings) request_loop_start)
  end.

Definition compact_messages_with_fallback (messages : list LlmMessage) (system_prompt : option string)
    (settings : ContextSettings) (custom_instructions : list string)
    (render_options : CompactSummaryRenderOptions) (keep_recent_turns : option N)
    (request_text : list (list LlmMessage) → list LlmMessage → result string CompactError)
    : result CompactExecution CompactSkipReason * list (list LlmMessage) :=
  let '(r, requests) := compact_messages_with_request messages system_prompt settings custom_instructions
                          render_options keep_recent_turns request_text in
  (match r with
   | Ok result => Ok {| ex_result := result; ex_llm_attempt := Succeeded |}
   | Err (Compact_Skip reason) => Err reason
   | Err error =>
     let llm_attempt := match error with Compact_Llm _ => Failed | _ => Succeeded end in
     let? result := compact_messages_with_render_options_and_keep messages system_prompt render_options keep_recent_turns in
     Ok {| ex_result := result; ex_llm_attempt := llm_attempt |}
   end, requests).

Definition compact_messages_deterministic (messages : list LlmMessage) (system_prompt : option string)
    (render_options : CompactSummaryRenderOptions) (keep_recent_turns : option N)
    : result CompactExecution CompactSkipReason :=
  let? result := compact_messages_with_render_options_and_keep messages system_prompt render_options keep_recent_turns in
  Ok {| ex_result := result; ex_llm_attempt := NotAttempted |}.
End compact.

(** ** Retained context ([post_compact.rs]) *)

Inductive CompactRetainedContext :=
| Retained_File (path content : string)
| Retained_Note (title body : string).

Definition POST_COMPACT_CONTEXT_END : string := "</post_compact_context>".
Definition TRUNCATION_MARKER : string :=
  newline +:+ newline +:+ "[... retained context truncated after compaction]".

Definition estimated_tokens (c : CompactRetainedContext) : N :=
  let '(label, text) :=
    match c with Retained_File path text => (path, text) | Retained_Note title body => (title, body) end in
  saturating_add usize_max (estimate_text_tokens label) (estimate_text_tokens text).

Definition budget_body (text : string) (max_tokens : N) : option string :=
  if is_empty (trim text) then None
  else if bool_decide (estimate_text_tokens text ≤ max_tokens)%N then Some text
  else if bool_decide (max_tokens < estimate_text_tokens TRUNCATION_MARKER)%N then None
  else Some (truncate_text_to_tokens text max_tokens TRUNCATION_MARKER).

(** One iteration of [budget_contributions]: the contribution that is kept and whether it is a
    file. *)
Definition budget_one (settings : ContextSettings) (remaining : N) (files : N) (c : CompactRetainedContext)
    : option CompactRetainedContext :=
  match c with
  | Retained_File path text =>
    if bool_decide (post_compact_max_files settings ≤ files)%N || is_empty (trim path) then None
    else
      let content_budget := N.min (saturating_sub remaining (estimate_text_tokens path))
                              (post_compact_max_tokens_per_file settings) in
      Retained_File path <$> budget_body text content_budget
  | Retained_Note title body =>
    if is_empty (trim title) then None
    else Retained_Note title <$> budget_body body (saturating_sub remaining (estimate_text_tokens title))
  end.

Definition is_file (c : CompactRetainedContext) : bool := match c with Retained_File _ _ => true | _ => false end.

Fixpoint budget_loop (settings : ContextSettings) (remaining files : N) (l : list CompactRetainedContext)
    : list CompactRetainedContext :=
  match l with
  | [] => []
  | c :: l =>
    if bool_decide (remaining = 0)%N then []
    else match budget_one settings remaining files c with
    | None => budget_loop settings remaining files l
    | Some kept =>
      kept :: budget_loop settings (saturating_sub remaining (estimated_tokens kept))
                (if is_file kept then files + 1 else files)%N l
    end
  end.

Definition budget_contributions (contributions : list CompactRetainedContext) (settings : ContextSettings)
    : list CompactRetainedContext :=
  budget_loop settings (post_compact_token_budget settings) 0 contributions.

Definition render_retained_context (contributions : list CompactRetainedContext) : string :=
  join newline
    ([POST_COMPACT_CONTEXT_MARKER;
      "Extensions retained the ordered context below because the compact summary may no longer contain it."]
     ++ concat ((λ c, "" :: match c with
          | Retained_File path text => ["## File: " +:+ path; "```text"; collapse_compaction_whitespace text; "```"]
          | Retained_Note title body => ["## " +:+ title; collapse_compaction_whitespace body]
          end) <$> contributions)
     ++ [POST_COMPACT_CONTEXT_END]).

Definition append_compact_retained_context (compaction : CompactResult)
    (contributions : list CompactRetainedContext) (settings : ContextSettings) : CompactResult :=
  match budget_contributions contributions settings with
  | [] => compaction
  | kept =>
    {| cr_pre_tokens := cr_pre_tokens compaction; cr_post_tokens := cr_post_tokens compaction;
       cr_summary := cr_summary compaction; cr_messages_removed := cr_messages_removed compaction;
       cr_summary_messages := cr_summary_messages compaction ++ [LlmMessage_user (render_retained_context kept)];
       cr_retained_messages := cr_retained_messages compaction;
       cr_transcript_path := cr_transcript_path compaction |}
  end.

(** ** Cutting *)

Definition count_users (l : list LlmMessage) : nat := length (filter (λ m, real_user m = true) l).

Lemma count_users_cons m l : count_users (m :: l) = (if real_user m then 1 else 0) + count_users l.
Proof. unfold count_users. rewrite filter_cons. destruct (real_user m); [by rewrite decide_True|by rewrite decide_False]. Qed.

Lemma count_users_app l1 l2 : count_users (l1 ++ l2) = count_users l1 + count_users l2.
Proof. unfold count_users. by rewrite filter_app, length_app. Qed.

Lemma turn_starts_length i l : length (turn_starts_from i l) = count_users l.
Proof.
  revert i. induction l as [|m l IH]; intros i; [done|]. simpl. rewrite length_app, IH, count_users_cons.
  by destruct (real_user m).
Qed.

Lemma turn_starts_elem p i l :
  p ∈ turn_starts_from i l → i ≤ p ∧ ∃ m, l !! (p - i) = Some m ∧ real_user m = true.
Proof.
  revert i. induction l as [|m l IH]; intros i; simpl; [set_solver|]. intros [H|H]%elem_of_app.
  - destruct (real_user m) eqn:Hm; [|set_solver]. apply list_elem_of_singleton in H as ->.
    split; [done|]. exists m. by rewrite Nat.sub_diag.
  - apply IH in H as (Hle & x & Hx & Hr). split; [lia|]. exists x. split; [|done].
    by replace (p - i) with (S (p - S i)) by lia.
Qed.

(** The users before a turn are counted by its place among the turns. *)
Lemma turn_starts_lookup i l j p :
  turn_starts_from i l !! j = Some p → count_users (take (p - i) l) = j.
Proof.
  revert i j. induction l as [|m l IH]; intros i j; [done|]. simpl. intros H.
  assert (∀ j', turn_starts_from (S i) l !! j' = Some p →
    count_users (take (p - i) (m :: l)) = (if real_user m then 1 else 0) + j') as Hnext.
  { intros j' H'. pose proof (list_elem_of_lookup_2 _ _ _ H') as [Hle _]%turn_starts_elem.
    replace (p - i) with (S (p - S i)) by lia. cbn [take]. rewrite count_users_cons. by rewrite (IH _ _ H'). }
  destruct (real_user m); simpl in H; [|by rewrite (Hnext _ H)].
  destruct j as [|j]; [|by rewrite (Hnext _ H)]. injection H as <-. by rewrite Nat.sub_diag.
Qed.

Lemma adjust_loop_spec fuel messages starts ks r :
  adjust_loop fuel messages starts ks = Some (Some r) →
  r ≤ ks ∧ (r = ks ∨ r ∈ starts) ∧ can_compact_before messages r = true.
Proof.
  revert ks. induction fuel as [|fuel IH]; intros ks; [done|]. cbn [adjust_loop].
  destruct (_ && _); [|destruct (can_compact_before messages ks) eqn:Hc; [intros [= <-]; auto|done]].
  destruct (find_first _ _) as [p|] eqn:Hf; [|done]. apply find_first_Some in Hf as [Hin Hlt%Nat.ltb_lt].
  intros (Hle & Hor & Hc)%IH. split; [lia|]. split; [|done]. right.
  apply list_elem_of_In, in_rev, list_elem_of_In in Hin. by destruct Hor as [->|].
Qed.

(** The loop goes back to an earlier turn every time. *)
Lemma adjust_loop_ends messages starts ks fuel :
  ks < fuel → ∃ r, adjust_loop fuel messages starts ks = Some r.
Proof.
  revert ks. induction fuel as [|fuel IH]; intros ks Hk; [lia|]. cbn [adjust_loop].
  destruct (_ && _); [|by eexists]. destruct (find_first _ _) as [p|] eqn:Hf; [|by eexists].
  apply find_first_Some in Hf as [_ Hlt%Nat.ltb_lt]. apply IH. lia.
Qed.

(** A user message of a transcript that follows the protocol stands between rounds. *)
Lemma protocol_ok_split (l : list LlmMessage) i m :
  protocol_ok l → l !! i = Some m → role m = Role_User → protocol_ok (drop i l).
Proof.
  intros (segments & -> & Hseg). revert i. induction Hseg as [|s segments Hs Hseg IH]; intros i; [done|].
  cbn [concat]. intros Hi Hm.
  assert (i = 0 ∨ length s ≤ i) as [->|Hle].
  { destruct (decide (length s ≤ i)) as [|Hlt]; [by right|left].
    rewrite lookup_app_l in Hi by lia. destruct Hs as [(e & -> & _)|(a & ts & A & -> & Hopen & Hans & _)].
    - destruct i; [done|]. simpl in *. lia.
    - exfalso. destruct i as [|i]; simpl in Hi.
      + injection Hi as ->. unfold opened_calls in Hopen. simpl in Hopen. rewrite Hm in Hopen. done.
      + clear -Hi Hans Hm. assert (Forall is_tool ts) as Ht.
        { clear -Hans. induction Hans; [constructor|]. apply Forall_app. by split; [|repeat constructor]. }
        rewrite Forall_forall in Ht. apply list_elem_of_lookup_2, Ht in Hi. unfold is_tool in Hi. simpl in Hi. congruence. }
  - rewrite drop_0. by exists (s :: segments); split; [|constructor].
  - rewrite drop_app_ge by done. rewrite lookup_app_r in Hi by done. by apply IH.
Qed.

Lemma protocol_ok_front (front l : list LlmMessage) :
  Forall plain_entry front → protocol_ok l → protocol_ok (front ++ l).
Proof. intros Hf Hl. apply (segmented_app plain_entry); [by apply segmented_plain|done]. Qed.

Lemma split_compact_start_spec messages keep ks :
  split_compact_start messages keep = Some ks →
  N.to_nat (default 1%N keep) ≤ count_users (drop ks messages)
  ∧ (ks = length messages ∨ ∃ m, messages !! ks = Some m ∧ real_user m = true).
Proof.
  unfold split_compact_start. set (k := N.to_nat (default 1%N keep)). destruct (negb _); [done|].
  destruct (Nat.leb _ _) eqn:Hle; [done|]. apply Nat.leb_gt in Hle.
  destruct (Nat.eqb k 0) eqn:Hk; [apply Nat.eqb_eq in Hk as ->; intros [= <-]; split; [lia|by left]|].
  apply Nat.eqb_neq in Hk.
  destruct (user_turn_starts messages !! _) as [c|] eqn:Hc; [|done]. simpl.
  unfold adjust_keep_start_to_safe_boundary.
  destruct (adjust_loop _ _ _ _) as [[r|]|] eqn:Ha; [|done..]. intros [= ->].
  apply adjust_loop_spec in Ha as (Hr & Hor & _).
  assert (ks ∈ user_turn_starts messages) as Hin by (destruct Hor as [->|]; [by eapply list_elem_of_lookup_2|done]).
  apply turn_starts_elem in Hin as (_ & m & Hm & Hu). rewrite Nat.sub_0_r in Hm.
  split; [|right; by exists m].
  pose proof (turn_starts_lookup _ _ _ _ Hc) as Hcount. rewrite Nat.sub_0_r in Hcount.
  unfold user_turn_starts in *. rewrite turn_starts_length in *.
  assert (count_users (take ks messages) ≤ count_users (take c messages)) as Hmono.
  { rewrite <-(take_drop ks (take c messages)), count_users_app, take_take, Nat.min_l by done. lia. }
  assert (count_users messages = count_users (take ks messages) + count_users (drop ks messages)) as Htotal
    by (rewrite <-count_users_app; by rewrite take_drop).
  lia.
Qed.

Lemma prepare_compact_parts_cut value_to_string messages system_prompt keep parts :
  prepare_compact_parts value_to_string messages system_prompt keep = Ok parts →
  ∃ ks, split_compact_start messages keep = Some ks
    ∧ cp_prefix parts = take ks messages ∧ cp_retained_messages parts = drop ks messages
    ∧ pi_messages (prepare_compact_input value_to_string (take ks messages)) ≠ [].
Proof.
  unfold prepare_compact_parts. destruct messages as [|m0 l]; [done|].
  destruct (split_compact_start _ _) as [ks|]; [|done]. intros H. exists ks.
  destruct (pi_messages _) eqn:E; [done|]. by injection H as <-.
Qed.

Lemma prepare_compact_parts_input value_to_string messages system_prompt keep parts :
  prepare_compact_parts value_to_string messages system_prompt keep = Ok parts →
  cp_prepared_input parts = prepare_compact_input value_to_string (cp_prefix parts)
  ∧ cp_messages_removed parts = removed_visible_messages (cp_prefix parts).
Proof.
  unfold prepare_compact_parts. destruct messages as [|m0 l]; [done|].
  destruct (split_compact_start _ _) as [ks|]; [|done].
  destruct (pi_messages _) eqn:E; [done|]. by intros [= <-].
Qed.

(** A compaction cuts the transcript where it may: what it summarises and what it keeps are
    the whole transcript, the kept part holds at least as many of the user's turns as asked for
    (one by default) and begins with one of them, and if the transcript follows the provider's
    tool protocol then so does what replaces it, whatever plain messages stand in for the rest. *)
Theorem compaction_cuts_between_turns value_to_string messages system_prompt keep parts :
  prepare_compact_parts value_to_string messages system_prompt keep = Ok parts →
  cp_prefix parts ++ cp_retained_messages parts = messages
  ∧ cp_prefix parts ≠ []
  ∧ N.to_nat (default 1%N keep) ≤ count_users (cp_retained_messages parts)
  ∧ (cp_retained_messages parts = [] ∨
     ∃ m rest, cp_retained_messages parts = m :: rest ∧ real_user m = true)
  ∧ (protocol_ok messages → ∀ front, Forall plain_entry front →
     protocol_ok (front ++ cp_retained_messages parts)).
Proof.
  intros (ks & Hks & -> & -> & Hne)%prepare_compact_parts_cut.
  apply split_compact_start_spec in Hks as [Hcount Hstart]. rewrite take_drop. split_and!; try done.
  - intros E. by rewrite E in Hne.
  - destruct Hstart as [->|(m & Hm & Hu)]; [left; apply drop_all|right].
    apply drop_S in Hm. exists m, (drop (S ks) messages). by rewrite Hm.
  - intros Hok front Hf. apply protocol_ok_front; [done|].
    destruct Hstart as [->|(m & Hm & Hu)]; [rewrite drop_all; by exists []; split; [|constructor]|].
    eapply protocol_ok_split; [done..|]. unfold real_user in Hu. by bools.
Qed.

(** ** Requests *)

Section loop.
  Context (value_to_string : Value → string) (base_template incremental_template : string).
  Context (parts : PreparedCompactParts) (system_prompt : option string) (settings : ContextSettings)
    (custom_instructions : list string) (render_options : CompactSummaryRenderOptions)
    (provider : list (list LlmMessage) → list LlmMessage → result string LlmError).

(** [request_compact_summary] gives the errors of the provider. *)
Definition request_compact_summary (sent : list (list LlmMessage)) (request : list LlmMessage)
    : result string CompactError :=
  map_err Compact_Llm (provider sent request).

Definition remaining_work (l : RequestLoop) : nat :=
  (N.to_nat (N.max (compact_max_retry_attempts settings) 1) - N.to_nat (rl_attempts l))
  + (MAX_PTL_RETRIES - rl_dropped l).

(** A request of this compaction: the system prompt, the messages from some point on, and the
    instructions. *)
Definition is_request (q : list LlmMessage) : Prop :=
  ∃ start feedback,
    q = compact_request_messages base_template incremental_template (cp_prepared_input parts) start system_prompt
          settings feedback custom_instructions.

(** Where the summary of [prefix] comes from.  Without the model it is the list made of the
    prefix.  Otherwise the model wrote it: it is what the answer to a request holds that carries
    the conversation of the prefix, from its beginning, or behind its first rounds (at most
    three) when an earlier request was refused as too long. *)
Definition summary_of (prefix : list LlmMessage) (summary : string) : Prop :=
  summary = summarize_prefix value_to_string prefix ∨
  ∃ sent dropped start feedback output text,
    let input := prepare_compact_input value_to_string prefix in
    api_round_starts (pi_messages input) !! dropped = Some start ∧ dropped ≤ MAX_PTL_RETRIES
    ∧ (0 < dropped → ∃ before q e, (before ++ [q]) `prefix_of` sent ∧ provider before q = Err e
         ∧ should_retry_prompt_too_long (Compact_Llm e) = true)
    ∧ provider sent (compact_request_messages base_template incremental_template input start system_prompt settings
                       feedback custom_instructions) = Ok output
    ∧ parse_compact_output output = Ok text ∧ summary = sanitize_compact_summary text.

(** Rounds are dropped only after a request was refused as too long. *)
Definition dropped_ok (l : RequestLoop) : Prop :=
  0 < rl_dropped l → ∃ before q e, (before ++ [q]) `prefix_of` rl_requests l ∧ provider before q = Err e
    ∧ should_retry_prompt_too_long (Compact_Llm e) = true.

(** What the loop returns: a summary in front of the kept messages, or an error that is not a
    reason to skip. *)
Definition loop_result (r : result CompactResult CompactError) : Prop :=
  match r with
  | Ok c => ∃ summary, summary_of (cp_prefix parts) summary ∧ c = finish_compact_summary value_to_string summary (cp_retained_messages parts)
              (cp_pre_tokens parts) (cp_messages_removed parts) system_prompt render_options
  | Err (Compact_Skip _) => False
  | Err _ => True
  end.

Lemma compact_loop_spec fuel l :
  remaining_work l < fuel → rl_dropped l ≤ MAX_PTL_RETRIES →
  match rl_last_error l with Some (Compact_Skip _) => False | _ => True end →
  Forall is_request (rl_requests l) → dropped_ok l →
  cp_prepared_input parts = prepare_compact_input value_to_string (cp_prefix parts) →
  ∃ r requests,
    compact_loop value_to_string base_template incremental_template parts system_prompt settings custom_instructions
      render_options request_compact_summary fuel l = Some (r, requests)
    ∧ loop_result r
    ∧ length requests ≤ length (rl_requests l) + remaining_work l
    ∧ Forall is_request requests.
Proof.
  intros Hfuel Hdrop Herr Hreq Hdr Hparts. revert l Hfuel Hdrop Herr Hreq Hdr.
  induction fuel as [|fuel IH]; intros l Hfuel Hdrop Herr Hreq Hdr; [lia|]. cbn [compact_loop].
  assert (loop_result (Err (loop_failure l))) as Hfail.
  { unfold loop_failure. by destruct (rl_last_error l) as [[]|]. }
  case_bool_decide as Hatt; cbn [negb]; [|by eexists _, _; split_and!; [reflexivity| |lia|]].
  destruct (api_round_starts _ !! rl_dropped l) as [start|] eqn:Hstart; [|by eexists _, _; split_and!; [reflexivity| |lia|]].
  set (q := compact_request_messages _ _ _ _ _ _ _ _).
  assert (is_request q) as Hq by (by exists start, (rl_feedback l)).
  assert (Forall is_request (rl_requests l ++ [q])) as Hreq'
    by (apply Forall_app; by split; [|repeat constructor]).
  assert (length (rl_requests l ++ [q]) = S (length (rl_requests l))) as Hlen by (rewrite length_app; simpl; lia).
  assert (1 ≤ remaining_work l) as Hwork by (unfold remaining_work; lia).
  unfold request_compact_summary at 1. destruct (provider (rl_requests l) q) as [output|e] eqn:Hout; cbn [map_err].
  - destruct (parse_compact_output output) as [summary|error] eqn:Hparse.
    + eexists _, _. split_and!; [reflexivity| |lia|done]. eexists. split; [right|reflexivity].
      rewrite <-Hparts. by eexists (rl_requests l), (rl_dropped l), start, (rl_feedback l), output, summary.
    + edestruct IH as (r & requests & -> & Hr & Hn & Hall).
      6: { exists r, requests. split_and!; [done..| |done]. cbn [rl_requests] in Hn. etrans; [exact Hn|].
           rewrite Hlen. unfold remaining_work. cbn [rl_attempts rl_dropped]. lia. }
      5: { intros Hd. destruct (Hdr Hd) as (before & q' & e & Hpre & ?). exists before, q', e.
           split; [by apply prefix_app_r|done]. }
      all: cbn [rl_attempts rl_dropped rl_last_error rl_requests]; try done;
      unfold remaining_work in *; cbn [rl_attempts rl_dropped]; lia.
  - destruct (should_retry_prompt_too_long _) eqn:Hretry; [|eexists _, _; by split_and!; [reflexivity|..|lia|]].
    destruct (Nat.ltb MAX_PTL_RETRIES _ || _) eqn:Hstop; [eexists _, _; by split_and!; [reflexivity|..|lia|]|].
    apply orb_false_iff in Hstop as [Hlt%Nat.ltb_ge _].
    edestruct IH as (r & requests & -> & Hr & Hn & Hall).
    6: { exists r, requests. split_and!; [done..| |done]. cbn [rl_requests] in Hn. etrans; [exact Hn|].
         rewrite Hlen. unfold remaining_work. cbn [rl_attempts rl_dropped]. lia. }
    5: { intros _. by exists (rl_requests l), q, e. }
    all: cbn [rl_attempts rl_dropped rl_last_error rl_requests]; try done;
      unfold remaining_work in *; cbn [rl_attempts rl_dropped]; lia.
Qed.
End loop.

Lemma fallback_spec value_to_string base_template incremental_template messages system_prompt settings
    custom_instructions render_options keep provider :
  let '(r, requests) :=
    compact_messages_with_fallback value_to_string base_template incremental_template messages system_prompt
      settings custom_instructions render_options keep (request_compact_summary provider) in
  match prepare_compact_parts value_to_string messages system_prompt keep with
  | Err reason => r = Err reason ∧ requests = []
  | Ok parts =>
    (∃ ex summary, r = Ok ex
      ∧ summary_of value_to_string base_template incremental_template system_prompt settings custom_instructions
          provider (cp_prefix parts) summary
      ∧ ex_result ex = finish_compact_summary value_to_string summary (cp_retained_messages parts)
          (cp_pre_tokens parts) (cp_messages_removed parts) system_prompt render_options)
    ∧ length requests ≤ N.to_nat (N.max (compact_max_retry_attempts settings) 1) + MAX_PTL_RETRIES
    ∧ Forall (is_request base_template incremental_template parts system_prompt settings custom_instructions) requests
  end.
Proof.
  unfold compact_messages_with_fallback, compact_messages_with_request, compact_messages_with_render_options_and_keep.
  destruct (prepare_compact_parts _ _ _ _) as [parts|reason] eqn:Hparts; [|done].
  destruct (compact_loop_spec value_to_string base_template incremental_template parts system_prompt settings
    custom_instructions render_options provider (loop_fuel settings) request_loop_start) as (r & requests & -> & Hr & Hn & Hall).
  - unfold loop_fuel, remaining_work, request_loop_start. cbn [rl_attempts rl_dropped]. lia.
  - simpl. lia.
  - done.
  - constructor.
  - unfold dropped_ok. simpl. lia.
  - by eapply prepare_compact_parts_input.
  - cbn [from_option id]. unfold remaining_work, request_loop_start in Hn.
    cbn [rl_attempts rl_dropped rl_requests length] in Hn.
    destruct r as [c|[]]; [|done|..]; (split; [|split; [lia|done]]).
    + destruct Hr as (summary & Hsum & ->). by eexists _, summary.
    + eexists _, _. split_and!; [reflexivity|by left|done].
    + eexists _, _. split_and!; [reflexivity|by left|done].
Qed.

(** Compacting succeeds whatever the model answers.  If there is something to compact, the
    result puts one synthetic message in front of the kept messages, with the summary of those that
    are not kept, whether the model wrote it or not; it takes at most three requests more than the attempts that are configured,
    each of them made of the messages to compact from some point on.  If there is nothing to
    compact, the reason is returned and nothing is requested. *)
Theorem compaction_total value_to_string base_template incremental_template messages system_prompt settings
    custom_instructions render_options keep provider :
  let '(r, requests) :=
    compact_messages_with_fallback value_to_string base_template incremental_template messages system_prompt
      settings custom_instructions render_options keep (request_compact_summary provider) in
  match prepare_compact_parts value_to_string messages system_prompt keep with
  | Err reason => r = Err reason ∧ requests = []
  | Ok parts =>
    (∃ ex summary, r = Ok ex
      ∧ summary_of value_to_string base_template incremental_template system_prompt settings custom_instructions
          provider (cp_prefix parts) summary
      ∧ ex_result ex = finish_compact_summary value_to_string summary (cp_retained_messages parts)
          (cp_pre_tokens parts) (cp_messages_removed parts) system_prompt render_options)
    ∧ length requests ≤ N.to_nat (N.max (compact_max_retry_attempts settings) 1) + MAX_PTL_RETRIES
    ∧ Forall (is_request base_template incremental_template parts system_prompt settings custom_instructions) requests
  end.
Proof. apply fallback_spec. Qed.

(** ** Retained context *)

Lemma budget_body_within text max_tokens body :
  budget_body text max_tokens = Some body → (1 ≤ estimate_text_tokens body ≤ max_tokens)%N.
Proof.
  unfold budget_body. destruct (is_empty _); [done|]. intros H. split; [unfold estimate_text_tokens; lia|].
  revert H. case_bool_decide; [by intros [= <-]|]. case_bool_decide as Hm; [done|]. intros [= <-].
  apply truncated_within_budget; [done|lia].
Qed.

Lemma budget_one_within settings remaining files c kept :
  budget_one settings remaining files c = Some kept →
  (estimated_tokens kept ≤ remaining)%N ∧ is_file kept = is_file c
  ∧ (is_file kept = true → (files < post_compact_max_files settings)%N).
Proof.
  unfold budget_one, estimated_tokens, saturating_add, saturating_sub.
  destruct c as [path text|title body]; destruct (_ : bool) eqn:Hg; try done;
    destruct (budget_body _ _) as [b|] eqn:Hb; try done; simpl; intros [= <-];
    apply budget_body_within in Hb; simpl; (split_and!; [lia|done|]); [|done].
  intros _. apply orb_false_iff in Hg as [Hg _]. bools. lia.
Qed.

(** The context extensions have retained keeps within its budget: the estimates of what is
    kept add up to at most the configured number of tokens, and at most the configured number of
    files is kept, whatever the extensions contribute. *)
Theorem retained_context_within_budget contributions settings :
  (sum_N (estimated_tokens <$> budget_contributions contributions settings) ≤ post_compact_token_budget settings)%N
  ∧ (N.of_nat (length (filter (λ c, is_file c = true) (budget_contributions contributions settings)))
     ≤ post_compact_max_files settings)%N.
Proof.
  unfold budget_contributions.
  assert (∀ l remaining files,
    (sum_N (estimated_tokens <$> budget_loop settings remaining files l) ≤ remaining)%N
    ∧ (files ≤ post_compact_max_files settings →
       files + N.of_nat (length (filter (λ c, is_file c = true) (budget_loop settings remaining files l)))
       ≤ post_compact_max_files settings)%N) as H.
  2: { destruct (H contributions (post_compact_token_budget settings) 0%N) as [? Hf]. split; [done|]. apply Hf. lia. }
  induction l as [|c l IH]; intros remaining files; [simpl; lia|]. cbn [budget_loop].
  case_bool_decide; [simpl; lia|]. destruct (budget_one _ _ _ _) as [kept|] eqn:Hk; [|apply IH].
  apply budget_one_within in Hk as (Htok & _ & Hfile). rewrite fmap_cons, filter_cons.
  destruct (IH (saturating_sub remaining (estimated_tokens kept)) (if is_file kept then files + 1 else files)%N) as [IHt IHf].
  unfold saturating_sub in *. split; [unfold sum_N in *; cbn [foldr]; lia|]. intros Hle.
  destruct (is_file kept) eqn:Hkind; [rewrite decide_True by done|rewrite decide_False by done].
  - cbn [length]. specialize (Hfile eq_refl). lia.
  - auto.
Qed.

(** ** Witness and findings *)

(** A session that was compacted once, with one turn behind the summary and one to keep. *)
Definition compacted_session : list LlmMessage :=
  [LlmMessage_user (compact_summary_message_text "old compacted work"
                      {| ro_transcript_path := None; ro_custom_instructions := [] |});
   LlmMessage_user "old real"; LlmMessage_assistant "answer"; LlmMessage_user "recent real"].

Lemma compaction_cuts_between_turns_witness :
  ∃ parts, prepare_compact_parts (λ _, "{}") compacted_session None None = Ok parts
    ∧ cp_retained_messages parts = [LlmMessage_user "recent real"]
    ∧ cp_prefix parts ++ cp_retained_messages parts = compacted_session
    ∧ 1 ≤ count_users (cp_retained_messages parts).
Proof.
  eexists. split; [vm_compute; reflexivity|]. split; [reflexivity|].
  edestruct (compaction_cuts_between_turns (λ _, "{}") compacted_session None None) as (H1 & _ & H2 & _).
  - vm_compute. reflexivity.
  - by split.
Defined.

(** Compacting it again: any text of a user is taken for a previous summary, so the newest
    message of the user is, and the real summary, which is left out of the conversation because
    it is synthetic, reaches the model in no form. *)
Theorem previous_summary_lost :
  ∃ parts, prepare_compact_parts (λ _, "{}") compacted_session None None = Ok parts
    ∧ pi_prompt_mode (cp_prepared_input parts) = Incremental "old real"
    ∧ pi_messages (cp_prepared_input parts) = [LlmMessage_user "old real"; LlmMessage_assistant "answer"].
Proof. eexists. split; [vm_compute; reflexivity|]. by split. Qed.
