(* ===== verification/SessBreaker.v ===== *)
(** * The circuit breaker of automatic compactions
    ([astrcode-session/src/compaction/circuit_breaker.rs])

    After a number of failed requests in a row the breaker refuses the model for a while, then
    lets a single attempt through.  Instants are natural numbers; every operation is given the
    instant at which it reads the clock. *)

From S2P Require Import Prelude CtxCompact.

Inductive CircuitState := Closed | Open (until : N) | HalfOpen.

Record CompactCircuitBreaker := {
  cb_state : CircuitState;
  consecutive_llm_failures : N;
  cb_threshold : N;
  cb_cooldown : N;
  half_open_attempt_in_flight : bool;
}.

Definition CompactCircuitBreaker_new (threshold cooldown : N) : CompactCircuitBreaker :=
  {| cb_state := Closed; consecutive_llm_failures := 0; cb_threshold := N.max threshold 1;
     cb_cooldown := cooldown; half_open_attempt_in_flight := false |}.

Definition start_cooldown (now : N) (b : CompactCircuitBreaker) : CompactCircuitBreaker :=
  {| cb_state := Open (now + cb_cooldown b)%N; consecutive_llm_failures := consecutive_llm_failures b;
     cb_threshold := cb_threshold b; cb_cooldown := cb_cooldown b; half_open_attempt_in_flight := false |}.

Definition configure (now threshold cooldown : N) (b : CompactCircuitBreaker) : CompactCircuitBreaker :=
  let b := {| cb_state := cb_state b; consecutive_llm_failures := consecutive_llm_failures b;
              cb_threshold := N.max threshold 1; cb_cooldown := cooldown;
              half_open_attempt_in_flight := half_open_attempt_in_flight b |} in
  match cb_state b with
  | Closed =>
    if bool_decide (cb_threshold b ≤ consecutive_llm_failures b)%N then start_cooldown now b else b
  | _ => b
  end.

Definition allow_half_open_attempt (b : CompactCircuitBreaker) : bool * CompactCircuitBreaker :=
  if half_open_attempt_in_flight b then (false, b)
  else (true, {| cb_state := cb_state b; consecutive_llm_failures := consecutive_llm_failures b;
                 cb_threshold := cb_threshold b; cb_cooldown := cb_cooldown b;
                 half_open_attempt_in_flight := true |}).

Definition should_attempt (now : N) (b : CompactCircuitBreaker) : bool * CompactCircuitBreaker :=
  match cb_state b with
  | Closed => (true, b)
  | Open until =>
    if bool_decide (now < until)%N then (false, b)
    else allow_half_open_attempt
           {| cb_state := HalfOpen; consecutive_llm_failures := consecutive_llm_failures b;
              cb_threshold := cb_threshold b; cb_cooldown := cb_cooldown b;
              half_open_attempt_in_flight := false |}
  | HalfOpen => allow_half_open_attempt b
  end.

Definition finish_attempt (now : N) (outcome : LlmCompactAttempt) (b : CompactCircuitBreaker)
    : CompactCircuitBreaker :=
  match outcome with
  | Failed =>
    let b := {| cb_state := cb_state b;
                consecutive_llm_failures := saturating_add u32_max (consecutive_llm_failures b) 1;
                cb_threshold := cb_threshold b; cb_cooldown := cb_cooldown b;
                half_open_attempt_in_flight := half_open_attempt_in_flight b |} in
    if match cb_state b with HalfOpen => true | _ => false end
       || bool_decide (cb_threshold b ≤ consecutive_llm_failures b)%N
    then start_cooldown now b else b
  | Succeeded =>
    {| cb_state := Closed; consecutive_llm_failures := 0; cb_threshold := cb_threshold b;
       cb_cooldown := cb_cooldown b; half_open_attempt_in_flight := false |}
  | NotAttempted =>
    match cb_state b with HalfOpen => start_cooldown now b | _ => b end
  end.

(** [CompactAttemptPermit::acquire] takes the permit if the breaker allows the attempt; the
    permit is finished with an outcome, or dropped, which counts as no attempt. *)
Definition permit_drop (now : N) : CompactCircuitBreaker → CompactCircuitBreaker :=
  finish_attempt now NotAttempted.

(** ** One attempt after the other

    A session compacts one context at a time: a permit is finished or dropped before the next
    attempt asks for one, and the settings are applied again between attempts. *)
Inductive BreakerUse :=
| Use_attempt (asked : N) (ended : N) (outcome : option LlmCompactAttempt)
| Use_configure (now : N).

Section uses.
  Context (threshold cooldown : N).

Definition breaker_use (b : CompactCircuitBreaker) (u : BreakerUse) : option bool * CompactCircuitBreaker :=
  match u with
  | Use_attempt asked ended outcome =>
    match should_attempt asked b with
    | (true, b) =>
      (Some true, match outcome with Some o => finish_attempt ended o b | None => permit_drop ended b end)
    | (false, b) => (Some false, b)
    end
  | Use_configure now => (None, configure now threshold cooldown b)
  end.

(** The answers to the attempts. *)
Fixpoint breaker_uses (b : CompactCircuitBreaker) (l : list BreakerUse) : list bool :=
  match l with
  | [] => []
  | u :: l => let '(answer, b) := breaker_use b u in option_list answer ++ breaker_uses b l
  end.

(** ** What the breaker promises

    The history of the attempts that were let through, newest first. *)
Fixpoint failures (h : list (N * LlmCompactAttempt)) : N :=
  match h with
  | [] => 0
  | (_, Failed) :: h => failures h + 1
  | (_, NotAttempted) :: h => failures h
  | (_, Succeeded) :: _ => 0
  end.

(** The breaker refuses while it cools down: the failures since the last success have reached
    the threshold, and the last attempt ended less than the cooldown ago. *)
Definition cooling (h : list (N * LlmCompactAttempt)) (now : N) : bool :=
  match h with
  | [] => false
  | (t, _) :: _ =>
    bool_decide (N.max threshold 1 ≤ failures h)%N && bool_decide (now < t + cooldown)%N
  end.

Fixpoint promised (h : list (N * LlmCompactAttempt)) (l : list BreakerUse) : list bool :=
  match l with
  | [] => []
  | Use_configure _ :: l => promised h l
  | Use_attempt asked ended outcome :: l =>
    if cooling h asked then false :: promised h l
    else true :: promised ((ended, default NotAttempted outcome) :: h) l
  end.

(** The state of the breaker between attempts. *)
Record represents (b : CompactCircuitBreaker) (h : list (N * LlmCompactAttempt)) : Prop := {
  rep_threshold : cb_threshold b = N.max threshold 1;
  rep_cooldown : cb_cooldown b = cooldown;
  rep_failures : consecutive_llm_failures b = N.min u32_max (failures h);
  rep_state :
    match cb_state b with
    | Closed => (failures h < N.max threshold 1)%N
    | Open until =>
      (N.max threshold 1 ≤ failures h)%N ∧ ∃ t o h', h = (t, o) :: h' ∧ until = (t + cooldown)%N
    | HalfOpen => False
    end;
}.

Lemma represents_new : represents (CompactCircuitBreaker_new threshold cooldown) [].
Proof. split; simpl; lia. Qed.

Context (threshold_u32 : (threshold ≤ u32_max)%N).

Lemma represents_configure now b h :
  represents b h → represents (configure now threshold cooldown b) h.
Proof.
  intros [Ht Hc Hf Hs]. unfold configure; simpl. destruct (cb_state b) eqn:E; [|by split; simpl; rewrite ?E..].
  rewrite bool_decide_false; [by split; simpl; rewrite ?E|].
  rewrite Hf. unfold u32_max in *. lia.
Qed.

Lemma represents_attempt asked ended o b h :
  represents b h →
  match should_attempt asked b with
  | (true, b') => cooling h asked = false ∧ represents (finish_attempt ended o b') ((ended, o) :: h)
  | (false, b') => cooling h asked = true ∧ b' = b
  end.
Proof.
  intros [Ht Hc Hf Hs]. unfold should_attempt. destruct (cb_state b) as [|until|] eqn:E; [| |done].
  - split.
    { unfold cooling. destruct h as [|[t x] h]; [done|]. rewrite bool_decide_false; [done|lia]. }
    destruct o; simpl.
    + rewrite E. split; simpl; rewrite ?E; done.
    + split; simpl; [done..|lia].
    + rewrite E. unfold saturating_add. rewrite Hf, Ht. simpl. case_bool_decide as Hle.
      * split; simpl; [done|done| |].
        { unfold u32_max. lia. }
        split; [unfold u32_max in *; lia|]. rewrite Hc. by eexists _, _, _.
      * split; simpl; [done|done|unfold u32_max; lia|].
        unfold u32_max in *. lia.
  - destruct Hs as (Hle & t & x & h' & -> & ->). unfold cooling. rewrite (bool_decide_true _ Hle). simpl.
    case_bool_decide; [done|]. split; [done|]. destruct o; simpl.
    + split; simpl; [done..|]. split; [by destruct x; simpl in *|]. rewrite Hc. by eexists _, _, _.
    + split; simpl; [done..|lia].
    + split; simpl; [done|done|rewrite Hf; unfold saturating_add, u32_max; destruct x; simpl; lia|].
      split; [destruct x; simpl in *; lia|]. rewrite Hc. by eexists _, _, _.
Qed.

(** The breaker keeps its promise: used one attempt after the other, it refuses exactly
    while it cools down, that is after as many failures since the last success as the threshold
    says, until the cooldown has passed since the last attempt that was let through; in
    particular it is never stuck, a skipped or dropped attempt neither counts as a failure nor
    closes it, and one failure after the cooldown opens it again. *)
Theorem breaker_refines_history uses :
  breaker_uses (CompactCircuitBreaker_new threshold cooldown) uses = promised [] uses.
Proof.
  pose proof represents_new as Hr. revert Hr. generalize ([] : list (N * LlmCompactAttempt)) as h.
  generalize (CompactCircuitBreaker_new threshold cooldown) as b.
  induction uses as [|[asked ended outcome|now] uses IH]; intros b h Hr; [done| |].
  - pose proof (represents_attempt asked ended (default NotAttempted outcome) b h Hr) as H.
    cbn [breaker_uses promised breaker_use]. destruct (should_attempt asked b) as [[] b'].
    + destruct H as [-> H]. simpl. f_equal. apply IH. by destruct outcome.
    + destruct H as [-> ->]. simpl. f_equal. by apply IH.
  - simpl. apply IH. by apply represents_configure.
Qed.
End uses.

Lemma breaker_refines_history_witness :
  (2 ≤ u32_max)%N
  ∧ breaker_uses 2 10 (CompactCircuitBreaker_new 2 10)
      [Use_attempt 0 1 (Some Failed); Use_configure 1; Use_attempt 2 3 (Some Failed); Use_attempt 12 12 None;
       Use_attempt 13 14 None; Use_attempt 20 20 None; Use_attempt 24 25 (Some Succeeded); Use_attempt 25 26 None]
    = promised 2 10 []
      [Use_attempt 0 1 (Some Failed); Use_configure 1; Use_attempt 2 3 (Some Failed); Use_attempt 12 12 None;
       Use_attempt 13 14 None; Use_attempt 20 20 None; Use_attempt 24 25 (Some Succeeded); Use_attempt 25 26 None].
Proof.
  assert (2 ≤ u32_max)%N as Hle by (unfold u32_max; lia). split; [exact Hle|]. apply (breaker_refines_history 2 10 Hle).
Defined.
