(* ===== verification/TurnWorld.v ===== *)
(** * The state a turn carries from step to step

    [astrcode-session/src/turn_stages.rs], [deferred_tools.rs] and [steer.rs]: the text of the
    turn, the numbers of its steps, the tools the provider sees and the inputs a running turn
    takes in.  The deduplicator of tool calls, which [TurnState] owns in the source, is part of
    the state of the tool pipeline ([ToolExecute.StepState]).

    The second chapter: the world a turn runs in. *)

From S2P Require Import Prelude Utf8 CoreTypes CoreLlm CoreLlmProtocol CoreEvent ProjViews ProjContext ProjReducer StoreTypes TurnFinalize StdPath StdStr PermPolicy PermChain ToolPrepare ToolExecute ToolStep TurnStream CtxText CtxTokens CtxCompact SessBreaker.

(** ** Tools ([tool.rs], [deferred_tools.rs]) *)

Inductive ToolOrigin := Origin_Bundled | Origin_Extension.

Record ToolDefinition := {
  def_name : string;
  def_description : string;
  def_parameters : Value;
  def_strict : bool;
  def_origin : ToolOrigin;
}.

(** What visibility reads of a tool's metadata. *)
Record ToolPromptMetadata := {
  pm_deferred_discovery_group : option string;
  pm_deferred_discovery_gate : option string;
}.

Record ToolSnapshot := {
  sn_definition : ToolDefinition;
  sn_prompt_metadata : option ToolPromptMetadata;
}.

Definition sn_name (t : ToolSnapshot) : string := def_name (sn_definition t).

Definition definitions (tools : list ToolSnapshot) : list ToolDefinition := sn_definition <$> tools.

Definition is_deferred_tool (t : ToolSnapshot) : bool :=
  match sn_prompt_metadata t ≫= pm_deferred_discovery_group with Some _ => true | None => false end.

Definition is_deferred_gate (t : ToolSnapshot) : bool :=
  match sn_prompt_metadata t ≫= pm_deferred_discovery_gate with Some _ => true | None => false end.

Definition provider_visible_tools (tools : list ToolSnapshot) (active : gset string) : list ToolSnapshot :=
  filter (λ t, negb (is_deferred_tool t) || bool_decide (sn_name t ∈ active) || is_deferred_gate t = true) tools.

Definition deferred_names (tools : list ToolSnapshot) (active : gset string) : list string :=
  sn_name <$> filter (λ t, is_deferred_tool t = true ∧ sn_name t ∉ active) tools.

Definition append_deferred_tools_reminder (messages : list (Arc LlmMessage)) (tools : list ToolSnapshot)
    (active : gset string) : list (Arc LlmMessage) :=
  let deferred := deferred_names tools active in
  if bool_decide (deferred = []) || negb (existsb is_deferred_gate tools) then messages
  else
    let text :=
      "<available-deferred-tools>" +:+ newline
      +:+ "Deferred tools are listed by name only. Use the matching discovery tool to fetch full "
      +:+ "schemas before calling one of these tools." +:+ newline
      +:+ foldr (λ name rest, name +:+ newline +:+ rest) "</available-deferred-tools>" deferred in
    messages ++ [Arc_new (LlmMessage_system text)].

(** The loop over the discovered names; [changed] is what [insert] returned so far. *)
Fixpoint activate_loop (available : gset string) (discovered : list string) (active : gset string)
    (changed : bool) : gset string * bool :=
  match discovered with
  | [] => (active, changed)
  | name :: discovered =>
    if bool_decide (name ∈ available)
    then activate_loop available discovered ({[name]} ∪ active) (changed || bool_decide (name ∉ active))
    else activate_loop available discovered active changed
  end.

Definition activate_deferred (active : gset string) (tools : list ToolSnapshot)
    (discovered : list string) : gset string * bool :=
  activate_loop (list_to_set (sn_name <$> filter (λ t, is_deferred_tool t = true) tools)) discovered active false.

(** ** The transcript of the turn *)

Record TurnTranscript := {
  output_text : string;
  latest_provider_response : option LlmMessage;
}.

Definition transcript_default : TurnTranscript := {| output_text := ""; latest_provider_response := None |}.

Definition remember_latest_visible_response (content : list LlmContent) (reasoning_content : option string)
    (t : TurnTranscript) : TurnTranscript :=
  let message := {| role := Role_Assistant; content := content; name := None;
                    CoreLlm.reasoning_content := reasoning_content |} in
  if has_provider_visible_content message
  then {| output_text := output_text t; latest_provider_response := Some message |} else t.

Definition push_output (text : string) (t : TurnTranscript) : TurnTranscript :=
  {| output_text := output_text t +:+ text; latest_provider_response := latest_provider_response t |}.

Definition transcript_record_text (text : string) (reasoning_content : option string) (t : TurnTranscript)
    : TurnTranscript :=
  remember_latest_visible_response [Content_Text text] reasoning_content (push_output text t).

Section transcript.
  (** [serde_json::from_str]. *)
  Context (parse_json : string → option Value).

Definition streamed_content (tc : StreamedToolCall) : LlmContent :=
  match parse_json (st_arguments tc) with
  | Some arguments => Content_ToolCall (st_call_id tc) (st_name tc) arguments None
  | None => Content_ToolCall (st_call_id tc) (st_name tc) (JString (st_arguments tc)) (Some (st_arguments tc))
  end.

Definition transcript_record_tool_calls (text : string) (reasoning_content : option string)
    (tool_calls : list StreamedToolCall) (t : TurnTranscript) : TurnTranscript :=
  remember_latest_visible_response
    ((if is_empty text then [] else [Content_Text text]) ++ (streamed_content <$> tool_calls))
    reasoning_content (push_output text t).
End transcript.

Definition transcript_response_messages (t : TurnTranscript) (request_messages : list (Arc LlmMessage))
    : list (Arc LlmMessage) :=
  provider_visible_shared_messages
    (request_messages ++ match latest_provider_response t with Some m => [Arc_new m] | None => [] end).

(** ** The state *)

Record TurnState := {
  transcript : TurnTranscript;
  reactive_compact_used : bool;
  continue_after_stop_count : N;
  last_step_input_tokens : option N;
  same_input_tokens_streak : N;
  active_deferred_tools : gset string;
  all_tools : list ToolSnapshot;
  visible_snapshots : list ToolSnapshot;
  tools_token_estimate : N;
  next_step_index : N;
  resumed_attempt : option N;
}.

Definition with_transcript (f : TurnTranscript → TurnTranscript) (s : TurnState) : TurnState :=
  {| transcript := f (transcript s); reactive_compact_used := reactive_compact_used s;
     continue_after_stop_count := continue_after_stop_count s;
     last_step_input_tokens := last_step_input_tokens s;
     same_input_tokens_streak := same_input_tokens_streak s;
     active_deferred_tools := active_deferred_tools s; all_tools := all_tools s;
     visible_snapshots := visible_snapshots s; tools_token_estimate := tools_token_estimate s;
     next_step_index := next_step_index s; resumed_attempt := resumed_attempt s |}.

Definition with_steps (next : N) (resumed : option N) (s : TurnState) : TurnState :=
  {| transcript := transcript s; reactive_compact_used := reactive_compact_used s;
     continue_after_stop_count := continue_after_stop_count s;
     last_step_input_tokens := last_step_input_tokens s;
     same_input_tokens_streak := same_input_tokens_streak s;
     active_deferred_tools := active_deferred_tools s; all_tools := all_tools s;
     visible_snapshots := visible_snapshots s; tools_token_estimate := tools_token_estimate s;
     next_step_index := next; resumed_attempt := resumed |}.

Definition with_counts (reactive : bool) (continued : N) (tokens : option N) (streak : N) (s : TurnState)
    : TurnState :=
  {| transcript := transcript s; reactive_compact_used := reactive;
     continue_after_stop_count := continued; last_step_input_tokens := tokens;
     same_input_tokens_streak := streak;
     active_deferred_tools := active_deferred_tools s; all_tools := all_tools s;
     visible_snapshots := visible_snapshots s; tools_token_estimate := tools_token_estimate s;
     next_step_index := next_step_index s; resumed_attempt := resumed_attempt s |}.

Definition with_tools (active : gset string) (visible : list ToolSnapshot) (estimate : N) (s : TurnState)
    : TurnState :=
  {| transcript := transcript s; reactive_compact_used := reactive_compact_used s;
     continue_after_stop_count := continue_after_stop_count s;
     last_step_input_tokens := last_step_input_tokens s;
     same_input_tokens_streak := same_input_tokens_streak s;
     active_deferred_tools := active; all_tools := all_tools s;
     visible_snapshots := visible; tools_token_estimate := estimate;
     next_step_index := next_step_index s; resumed_attempt := resumed_attempt s |}.

Section state.
  (** [Value::to_string]. *)
  Context (value_to_string : Value → string).

Definition estimate_tool_definition_tokens (tools : list ToolDefinition) : N :=
  apply_request_padding
    (sum_N ((λ t, TOOL_CALL_BASE_TOKENS + estimate_text_tokens (def_name t)
                  + estimate_text_tokens (def_description t)
                  + estimate_text_tokens (value_to_string (def_parameters t)))%N <$> tools)).

Definition TurnState_new (tools : list ToolSnapshot) (active_step : option execution.ActiveStepView) : TurnState :=
  let visible := provider_visible_tools tools ∅ in
  {| transcript := transcript_default; reactive_compact_used := false; continue_after_stop_count := 0;
     last_step_input_tokens := None; same_input_tokens_streak := 0; active_deferred_tools := ∅;
     all_tools := tools; visible_snapshots := visible;
     tools_token_estimate := estimate_tool_definition_tokens (definitions visible);
     next_step_index :=
       match active_step with
       | None => 0
       | Some step => if execution.completed step then saturating_add u32_max (execution.step_index step) 1 else execution.step_index step
       end;
     resumed_attempt :=
       match active_step with
       | Some step => if execution.completed step then None else Some (saturating_add u32_max (execution.attempt step) 1)
       | None => None
       end |}.

(** The number and the attempt of the step; the deduplicator is reset by the caller. *)
Definition begin_step (s : TurnState) : (N * N) * TurnState :=
  ((next_step_index s, default 1%N (resumed_attempt s)),
   with_steps (saturating_add u32_max (next_step_index s) 1) None
     (with_transcript (λ t, {| output_text := output_text t; latest_provider_response := None |}) s)).

Definition record_continue_after_stop (s : TurnState) : TurnState :=
  with_counts (reactive_compact_used s) (saturating_add u32_max (continue_after_stop_count s) 1)
    (last_step_input_tokens s) (same_input_tokens_streak s) s.

Definition mark_reactive_compact_used (s : TurnState) : TurnState :=
  with_counts true (continue_after_stop_count s) (last_step_input_tokens s) (same_input_tokens_streak s) s.

Definition record_step_input_tokens (tokens : N) (s : TurnState) : TurnState :=
  if bool_decide (last_step_input_tokens s = Some tokens) then
    with_counts (reactive_compact_used s) (continue_after_stop_count s) (last_step_input_tokens s)
      (saturating_add u32_max (same_input_tokens_streak s) 1) s
  else with_counts (reactive_compact_used s) (continue_after_stop_count s) (Some tokens) 1 s.

Definition visible_tools (s : TurnState) : list ToolDefinition := definitions (visible_snapshots s).

Definition activate_deferred_tools (discovered : list string) (s : TurnState) : TurnState :=
  let '(active, changed) := activate_deferred (active_deferred_tools s) (all_tools s) discovered in
  if changed then
    let visible := provider_visible_tools (all_tools s) active in
    with_tools active visible (estimate_tool_definition_tokens (definitions visible)) s
  else with_tools active (visible_snapshots s) (tools_token_estimate s) s.

Definition set_final_text (text : string) : TurnState → TurnState :=
  with_transcript (λ t, {| output_text := text; latest_provider_response := latest_provider_response t |}).
Definition append_final_text (text : string) : TurnState → TurnState := with_transcript (push_output text).
Definition final_text (s : TurnState) : string := output_text (transcript s).

(** ** What a turn sees of its tools

    The set of visible tools and its estimate are caches; both always are what the active set
    says, and activation never hides a tool. *)
Record tools_ok (s : TurnState) : Prop := {
  ok_visible : visible_snapshots s = provider_visible_tools (all_tools s) (active_deferred_tools s);
  ok_estimate : tools_token_estimate s = estimate_tool_definition_tokens (visible_tools s);
}.

Lemma activate_loop_spec available discovered active changed active' changed' :
  activate_loop available discovered active changed = (active', changed') →
  active ⊆ active' ∧ (changed' = false → active' = active ∧ changed = false).
Proof.
  revert active changed. induction discovered as [|name discovered IH]; intros active changed; simpl.
  { by intros [= <- <-]. }
  case_bool_decide as Ha; intros H; apply IH in H as (H1 & H3); [|done]. clear IH.
  split; [by apply union_subseteq in H1 as []|]. intros Hc.
  destruct (H3 Hc) as [-> [-> Hin%bool_decide_eq_false]%orb_false_iff].
  apply dec_stable in Hin. split; [|done]. apply subseteq_union_1_L. by apply singleton_subseteq_l.
Qed.

Lemma provider_visible_mono tools active active' :
  active ⊆ active' → provider_visible_tools tools active `sublist_of` provider_visible_tools tools active'.
Proof.
  intros Hsub. unfold provider_visible_tools. induction tools as [|t tools IH]; [done|].
  rewrite !filter_cons. destruct (decide _) as [H|H].
  - rewrite decide_True; [by constructor|].
    rewrite !orb_true_iff in *. destruct H as [[?|?%bool_decide_eq_true]|?]; [by auto| |by auto].
    left; right. apply bool_decide_eq_true. set_solver.
  - destruct (decide _); [by constructor|done].
Qed.

Lemma activate_tools_ok discovered s :
  tools_ok s →
  tools_ok (activate_deferred_tools discovered s)
  ∧ visible_snapshots s `sublist_of` visible_snapshots (activate_deferred_tools discovered s).
Proof.
  intros [Hv He]. unfold activate_deferred_tools, activate_deferred.
  destruct (activate_loop _ _ _ _) as [active changed] eqn:Ha.
  apply activate_loop_spec in Ha as (H1 & H3). destruct changed.
  - split; [by split|]. simpl. rewrite Hv. by apply provider_visible_mono.
  - destruct (H3 eq_refl) as [-> _]. split; [by split|done].
Qed.
End state.

(** ** Inputs accepted for a running turn ([steer.rs]) *)

Definition absorbable_inputs_for_turn (model : SessionReadModel) (turn_id : TurnId) : list execution.PendingInput :=
  filter (λ i, execution.turn_id i = Some turn_id) (execution.pending_inputs (execution_ model)).

(** * The world a turn runs in

    The state a running turn changes, what it does, and everything that answers it: the
    session's journal, the hooks of the extensions, the provider and the tools.  An interaction
    gets its answer from an arbitrary function of its number, as in [ToolExecute]; what the
    turn did is kept as a trace.  Live errors that only report a failed publication are not
    recorded, and neither is what a log line says.

    Sources: [turn_publish.rs] ([TurnEvents]), [turn_context.rs], and the interfaces of the
    hooks and the provider as [turn_runner.rs] and [compaction/] call them. *)

(** ** Interfaces *)

(** The lifecycle events a turn emits. *)
Inductive LifecycleEvent :=
| TurnStart
| UserPromptSubmit
| StepStart (mid_turn_user_messages_synced : N)
| StepEnd
| AfterProviderResponse
| TurnEnd (exchange : option (string * string)).

Inductive ProviderResult :=
| Provider_Allow
| Provider_Block (reason : string)
| Provider_ReplaceMessages (messages : list LlmMessage)
| Provider_AppendMessages (messages : list LlmMessage).

Inductive ContinueAfterStopResult := EndTurn | ContinueOneStep.

Record CompactContributions := {
  cc_instructions : list string;
  cc_retained_context : list CompactRetainedContext;
}.

Inductive PreCompactResult :=
| Pre_Allow
| Pre_Block (reason : string)
| Pre_Contributions (c : CompactContributions).

Record ModelLimits := {
  ml_max_input_tokens : N;
  ml_max_output_tokens : N;
}.

Record LlmRequest := {
  rq_messages : list (Arc LlmMessage);
  rq_tools : list ToolDefinition;
  rq_max_output_tokens : N;
}.

(** The context assembler: its settings, and the three functions that use floating point. *)
Record ContextAssembler := {
  as_settings : ContextSettings;
  as_auto_compact_enabled : bool;
  as_predictive_compact_enabled : bool;
  as_threshold_tokens : N → N;
  as_gate_floor : N → N;
  as_turn_growth : list LlmMessage → N;
}.

Record TurnEnv := {
  te_tools : Environment;
  te_services : ToolServices;
  te_shared : SharedTurnContext;
  te_turn_id : TurnId;
  te_max_parallel : N;
  te_assembler : ContextAssembler;
  te_limits : ModelLimits;
  te_minimum_output_tokens : N;
  (** [Session::read_model] *)
  te_read_model : nat → result SessionReadModel SessionError;
  (** [Session::emit_durable_and_sync] and [Session::sync_durable_events] *)
  te_append_and_sync : nat → DurableEventPayload → result unit SessionError;
  te_sync : nat → result unit SessionError;
  te_write_compact_snapshot : nat → CompactTrigger → ContextSnapshot → result (option string) SessionError;
  (** hooks; an error is the message of an [ExtensionError] *)
  te_lifecycle : nat → LifecycleEvent → result unit string;
  te_prepare_provider_request : nat → list (Arc LlmMessage) → result (ProviderResult * bool) string;
  te_emit_provider : nat → list (Arc LlmMessage) → result ProviderResult string;
  te_acknowledge : nat → result unit string;
  te_continue_after_stop : nat → string → string → N → result ContinueAfterStopResult string;
  te_pre_compact : nat → CompactTrigger → list LlmMessage → result PreCompactResult string;
  te_post_compact : nat → CompactResult → result unit string;
  (** the provider; [None] is a cancellation that came first *)
  te_generate : nat → LlmRequest → option (result (list StreamInput) LlmError);
  te_summarize : nat → list (list LlmMessage) → list LlmMessage → result (list LlmEvent) LlmError;
  te_count_input_tokens : nat → list (Arc LlmMessage) → list ToolDefinition → result N LlmError;
  te_now : nat → N;
  te_message_id : nat → string;
  (** [TurnEventIngress::shutdown] *)
  te_ingress_shutdown : nat → result unit TurnError;
}.

(** ** What a turn does *)

Inductive TurnLive :=
| Live_stream (l : LiveEventPayload)
| Live_CompactionStarted
| Live_CompactionCompleted (messages_removed : N)
| Live_CompactionSkipped (reason : string)
| Live_CompactionFailed (reason : string).

Inductive TurnAction :=
| Did_durable (p : DurableEventPayload)
| Did_rewrite (p : DurableEventPayload)
| Did_live (l : TurnLive)
| Did_lifecycle (e : LifecycleEvent)
| Did_read (m : SessionReadModel)
| Did_request (r : LlmRequest)
| Did_pre_compact (trigger : CompactTrigger)
| Did_run (call : ExecutableToolInvocation)
| Did_acknowledge.

Record TurnWorld := {
  tw_step : StepState;
  tw_turn : TurnState;
  tw_breaker : CompactCircuitBreaker;
  tw_emitted_error : bool;
  tw_trace : list TurnAction;
}.

Definition T (A : Type) : Type := TurnWorld → exec A * TurnWorld.

Definition tret {A} (a : A) : T A := λ w, (Exec_ok a, w).
Definition tthen {A B} (m : T A) (f : A → T B) : T B := λ w,
  match m w with
  | (Exec_ok a, w) => f a w
  | (Exec_err e, w) => (Exec_err e, w)
  | (Exec_blocked, w) => (Exec_blocked, w)
  end.
Definition tfail {A} (e : TurnError) : T A := λ w, (Exec_err e, w).
Definition tlift {A} (r : result A TurnError) : T A := match r with Ok a => tret a | Err e => tfail e end.

Declare Scope turn_scope.
Delimit Scope turn_scope with turn.
Notation "'let+' x ':=' m 'in' k" := (tthen m (λ x, k))
  (at level 10, x pattern, m at level 200, k at level 200) : turn_scope.
Notation "'run+' m 'in' k" := (tthen m (λ _, k))
  (at level 10, m at level 200, k at level 200) : turn_scope.
Local Open Scope turn_scope.

Definition set_step (s : StepState) (w : TurnWorld) : TurnWorld :=
  {| tw_step := s; tw_turn := tw_turn w; tw_breaker := tw_breaker w;
     tw_emitted_error := tw_emitted_error w; tw_trace := tw_trace w |}.
Definition set_turn (t : TurnState) (w : TurnWorld) : TurnWorld :=
  {| tw_step := tw_step w; tw_turn := t; tw_breaker := tw_breaker w;
     tw_emitted_error := tw_emitted_error w; tw_trace := tw_trace w |}.
Definition set_breaker (b : CompactCircuitBreaker) (w : TurnWorld) : TurnWorld :=
  {| tw_step := tw_step w; tw_turn := tw_turn w; tw_breaker := b;
     tw_emitted_error := tw_emitted_error w; tw_trace := tw_trace w |}.
Definition set_emitted_error (w : TurnWorld) : TurnWorld :=
  {| tw_step := tw_step w; tw_turn := tw_turn w; tw_breaker := tw_breaker w;
     tw_emitted_error := true; tw_trace := tw_trace w |}.
Definition add_trace (l : list TurnAction) (w : TurnWorld) : TurnWorld :=
  {| tw_step := tw_step w; tw_turn := tw_turn w; tw_breaker := tw_breaker w;
     tw_emitted_error := tw_emitted_error w; tw_trace := tw_trace w ++ l |}.

Definition tmodify (f : TurnWorld → TurnWorld) : T unit := λ w, (Exec_ok tt, f w).
Definition tget {A} (f : TurnWorld → A) : T A := λ w, (Exec_ok (f w), w).
Definition turn_modify (f : TurnState → TurnState) : T unit := tmodify (λ w, set_turn (f (tw_turn w)) w).
Definition did (a : TurnAction) : T unit := tmodify (add_trace [a]).

(** One interaction: the number it has. *)
Definition ttick : T nat := λ w,
  (Exec_ok (ss_clock (tw_step w)), set_step (tick (tw_step w)).2 w).

(** Work of the tool pipeline: the tools it ran and the events it published are recorded in
    this order, which is not before the work began. *)
Definition lift_step {A} (m : M A) : T A := λ w,
  let '(r, s) := m (tw_step w) in
  (r, add_trace
        ((Did_run <$> drop (length (ss_executed (tw_step w))) (ss_executed s))
         ++ (Did_durable <$> drop (length (ss_log (tw_step w))) (ss_log s)))
        (set_step s w)).

(** A hook's or the session's error, as the [From] instances of [TurnError] make it. *)
Definition extension {A} (r : result A string) : result A TurnError := map_err Turn_Extension r.
Definition session {A} (r : result A SessionError) : result A TurnError := map_err Turn_Session r.

Section effects.
  Context (env : TurnEnv).

(** [TurnEvents::durable]. *)
Definition t_durable (p : DurableEventPayload) : T unit := lift_step (durable (te_tools env) p).

(** [TurnEvents::durable_error]. *)
Definition durable_error (code : Z) (message : string) (recoverable : bool) : T unit :=
  run+ t_durable (P_ErrorOccurred code message recoverable) in
  tmodify set_emitted_error.

Definition live (l : TurnLive) : T unit := did (Did_live l).

(** [TurnEvents::snapshot_model]. *)
Definition snapshot_model : T SessionReadModel :=
  let+ n := ttick in
  let+ m := tlift (session (te_read_model env n)) in
  run+ did (Did_read m) in
  tret m.

Definition sync_durable : T unit :=
  let+ n := ttick in
  tlift (session (te_sync env n)).

(** [TurnHooks::emit_lifecycle]; the hooks have run even when they fail. *)
Definition emit_lifecycle (e : LifecycleEvent) : T (result unit string) :=
  let+ n := ttick in
  run+ did (Did_lifecycle e) in
  tret (te_lifecycle env n e).

Definition t_cancelled : T bool := lift_step (is_cancelled (te_tools env)).

Definition now : T N := let+ n := ttick in tret (te_now env n).
End effects.

(** ** Reasoning about the effects *)

(** The actions satisfy [P], and a part [f] of the world is kept. *)
Definition extends {B} (f : TurnWorld → B) (P : TurnAction → Prop) : relation TurnWorld :=
  λ w w', f w' = f w ∧ ∃ l, tw_trace w' = tw_trace w ++ l ∧ Forall P l.

#[export] Instance extends_preorder {B} (f : TurnWorld → B) P : PreOrder (extends f P).
Proof.
  split.
  - intros w. split; [done|]. exists []. by rewrite app_nil_r.
  - intros w w1 w2 [H1 (l1 & Hl1 & P1)] [H2 (l2 & Hl2 & P2)]. split; [congruence|].
    exists (l1 ++ l2). split; [by rewrite Hl2, Hl1, app_assoc|by apply Forall_app].
Qed.

(** The world after [k] interactions that did [l] and nothing else. *)
Definition advance (k : nat) (s : StepState) : StepState :=
  {| ss_clock := k + ss_clock s; ss_log := ss_log s; ss_dedup := ss_dedup s;
     ss_history := ss_history s; ss_disk := ss_disk s; ss_executed := ss_executed s;
     ss_uncommitted := ss_uncommitted s |}.
Definition moved (k : nat) (l : list TurnAction) (w : TurnWorld) : TurnWorld :=
  {| tw_step := advance k (tw_step w); tw_turn := tw_turn w; tw_breaker := tw_breaker w;
     tw_emitted_error := tw_emitted_error w; tw_trace := tw_trace w ++ l |}.

Lemma moved_moved k l k' l' w : moved k' l' (moved k l w) = moved (k' + k) (l ++ l') w.
Proof. unfold moved, advance; simpl. by rewrite app_assoc, Nat.add_assoc. Qed.

Lemma moved_none w : moved 0 [] w = w.
Proof. destruct w as [[] ? ? ? ?]. unfold moved, advance; simpl. by rewrite app_nil_r. Qed.

Lemma ttick_moved w : ttick w = (Exec_ok (ss_clock (tw_step w)), moved 1 [] w).
Proof. destruct w. unfold ttick, moved, set_step; simpl. by rewrite app_nil_r. Qed.

Lemma did_moved a w : did a w = (Exec_ok tt, moved 0 [a] w).
Proof. by destruct w as [[] ? ? ? ?]. Qed.

(** [moves m w Q]: in [w], [m] succeeds with an [a], after interactions that did [l], with [Q a l]. *)
Definition moves {A} (m : T A) (w : TurnWorld) (Q : A → list TurnAction → Prop) : Prop :=
  ∃ a k l, m w = (Exec_ok a, moved k l w) ∧ Q a l.

Lemma moves_ret {A} (a : A) w (Q : A → list TurnAction → Prop) : Q a [] → moves (tret a) w Q.
Proof. intros H. exists a, 0, []. by rewrite moved_none. Qed.

Lemma moves_then {A B} (m : T A) (f : A → T B) w (Q : B → list TurnAction → Prop) :
  moves m w (λ a l, ∀ w', moves (f a) w' (λ b l', Q b (l ++ l'))) → moves (tthen m f) w Q.
Proof.
  intros (a & k & l & Hm & Hf). unfold tthen. destruct (Hf (moved k l w)) as (b & k' & l' & Hb & HQ).
  exists b, (k' + k), (l ++ l'). unfold moves. rewrite Hm, Hb, moved_moved. done.
Qed.

Lemma moves_tick w (Q : nat → list TurnAction → Prop) : (∀ n, Q n []) → moves ttick w Q.
Proof. intros H. eexists _, _, _. rewrite ttick_moved. done. Qed.

Lemma moves_did a w (Q : unit → list TurnAction → Prop) : Q tt [a] → moves (did a) w Q.
Proof. intros H. eexists _, _, _. rewrite did_moved. done. Qed.

Lemma moves_weaken {A} (m : T A) w (Q Q' : A → list TurnAction → Prop) :
  moves m w Q → (∀ a l, Q a l → Q' a l) → moves m w Q'.
Proof. intros (a & k & l & Hm & HQ) H. exists a, k, l. auto. Qed.

Lemma tthen_ok {A B} (m : T A) (f : A → T B) w a w1 : m w = (Exec_ok a, w1) → tthen m f w = f a w1.
Proof. intros H. unfold tthen. by rewrite H. Qed.

Lemma tthen_assoc {A B C} (m : T A) (f : A → T B) (g : B → T C) w :
  tthen (tthen m f) g w = tthen m (λ a, tthen (f a) g) w.
Proof. unfold tthen. by destruct (m w) as [[a|e|] w1]. Qed.

Lemma emit_lifecycle_moved env e w :
  emit_lifecycle env e w
  = (Exec_ok (te_lifecycle env (ss_clock (tw_step w)) e), moved 1 [Did_lifecycle e] w).
Proof.
  unfold emit_lifecycle. rewrite (tthen_ok _ _ _ _ _ (ttick_moved w)), (tthen_ok _ _ _ _ _ (did_moved _ _)).
  unfold tret. by rewrite moved_moved.
Qed.

Lemma snapshot_model_moved env w :
  snapshot_model env w
  = match te_read_model env (ss_clock (tw_step w)) with
    | Ok m => (Exec_ok m, moved 1 [Did_read m] w)
    | Err e => (Exec_err (Turn_Session e), moved 1 [] w)
    end.
Proof.
  unfold snapshot_model. rewrite (tthen_ok _ _ _ _ _ (ttick_moved w)).
  destruct (te_read_model env _) as [m|e]; [|done]. simpl. unfold tthen, tret at 1. rewrite did_moved. unfold tret.
  by rewrite moved_moved.
Qed.

(** ** A concrete world *)

Module TurnSample.

Definition settings : ContextSettings :=
  {| compact_max_retry_attempts := 1; compact_max_output_tokens := 1000; compact_keep_recent_turns := None;
     post_compact_max_files := 2; post_compact_token_budget := 100;
     post_compact_max_tokens_per_file := 50 |}.

Definition tool (name : string) : ToolSnapshot :=
  {| sn_definition := {| def_name := name; def_description := ""; def_parameters := JNull; def_strict := false;
                         def_origin := Origin_Bundled |};
     sn_prompt_metadata := None |}.

(** Everything succeeds, the hooks change nothing; the journal answers with [models], the
    provider with [answers]. *)
Definition env_with (tools : Environment) (models : nat → SessionReadModel) (answers : nat → list LlmEvent) : TurnEnv :=
  {| te_tools := tools; te_services := StepSample.services; te_shared := StepSample.shared;
     te_turn_id := TurnId_new "t"; te_max_parallel := 2;
     te_assembler := {| as_settings := settings; as_auto_compact_enabled := false;
       as_predictive_compact_enabled := false; as_threshold_tokens := λ w, w; as_gate_floor := λ t, t;
       as_turn_growth := λ _, 0%N |};
     te_limits := {| ml_max_input_tokens := 10000; ml_max_output_tokens := 1000 |};
     te_minimum_output_tokens := 1;
     te_read_model := λ n, Ok (models n);
     te_append_and_sync := λ _ _, Ok tt; te_sync := λ _, Ok tt;
     te_write_compact_snapshot := λ _ _ _, Ok None;
     te_lifecycle := λ _ _, Ok tt; te_prepare_provider_request := λ _ _, Ok (Provider_Allow, false);
     te_emit_provider := λ _ _, Ok Provider_Allow; te_acknowledge := λ _, Ok tt;
     te_continue_after_stop := λ _ _ _ _, Ok EndTurn; te_pre_compact := λ _ _ _, Ok Pre_Allow;
     te_post_compact := λ _ _, Ok tt;
     te_generate := λ n _, Some (Ok (Received <$> answers n));
     te_summarize := λ _ _ _, Ok [ContentDelta "no summary"; Done "stop"];
     te_count_input_tokens := λ _ _ _, Ok 10%N; te_now := λ n, N.of_nat n;
     te_message_id := λ n, "m"; te_ingress_shutdown := λ _, Ok tt |}.

Definition env := env_with StepSample.env.

Definition world (tools : list ToolSnapshot) : TurnWorld :=
  {| tw_step := {| ss_clock := 0; ss_log := []; ss_dedup := ToolCallDeduplicator_new; ss_history := Sample.store;
                   ss_disk := ∅; ss_executed := []; ss_uncommitted := ∅ |};
     tw_turn := TurnState_new (λ _, "{}") tools None;
     tw_breaker := CompactCircuitBreaker_new 3 60; tw_emitted_error := false; tw_trace := [] |}.
End TurnSample.
