(* ===== verification/SessCompact.v ===== *)
(** * Compacting a session

    [astrcode-session/src/compaction/pipeline.rs], [turn.rs], [manual.rs], [persistence.rs] and
    [projection_context.rs]: the one pipeline behind manual, automatic and reactive
    compactions, and the commit of its result in the journal. *)

From S2P Require Import Prelude Utf8 StdPath CoreTypes CoreLlm CoreLlmProtocol CoreEvent ProjViews ProjContext ProjReducer ProjReplay ProjInvariants StoreTypes TurnFinalize ToolPrepare ToolExecute TurnStream StdStr CtxText CtxTokens CtxCompact SessBreaker TurnWorld.
Local Open Scope turn_scope.

(** ** The context of a projection *)

Definition shared_entry (e : model_context.SequencedLlmMessage) : SharedTranscriptMessage :=
  {| stm_message := Arc_new (model_context.message e); stm_origin := model_context.origin e |}.

Definition context_snapshot (m : SessionReadModel) : ContextSnapshot :=
  let snapshot :=
    from_shared_transcript (last_seq (stats m)) (model_context.text (system_prompt m))
      (shared_entry <$> model_context.messages (model_ctx m)) in
  match model_context.usage (model_ctx m) with
  | None => snapshot
  | Some usage =>
    with_input_token_anchor (model_context.context_tokens usage) (model_context.model_context_window usage)
      (model_context.covered_message_count usage) snapshot
  end.

(** ** The pipeline *)

Inductive CompactionPipelineOutcome :=
| Pipeline_Compacted (messages_removed : N) (llm_attempt : LlmCompactAttempt)
| Pipeline_Skipped (message : string)
| Pipeline_Failed (error : SessionError) (llm_attempt : LlmCompactAttempt)
                  (source_snapshot : option ContextSnapshot).

Definition pipeline_llm_attempt (o : CompactionPipelineOutcome) : LlmCompactAttempt :=
  match o with
  | Pipeline_Compacted _ a | Pipeline_Failed _ a _ => a
  | Pipeline_Skipped _ => NotAttempted
  end.

Inductive PreCompactOutcome :=
| Pre_Ready (c : CompactContributions)
| Pre_Blocked (reason : string).

Definition pre_compact_outcome (r : PreCompactResult) : PreCompactOutcome :=
  match r with
  | Pre_Contributions c =>
    Pre_Ready {| cc_instructions := filter (λ i, i ≠ "") (trim <$> cc_instructions c);
                 cc_retained_context := cc_retained_context c |}
  | Pre_Block reason => Pre_Blocked reason
  | Pre_Allow => Pre_Ready {| cc_instructions := []; cc_retained_context := [] |}
  end.

Definition compact_uncovered : StorageError :=
  InvalidEvent "compact retained messages are not the source transcript suffix".

Section compaction.
  Context (value_to_string : Value → string) (base_template incremental_template : string).
  Context (to_json : LlmMessage → result string string) (session_error_to_string : SessionError → string).
  Context (env : TurnEnv).

(** The event a compaction is committed with. *)
Definition rewrite_payload (compaction : CompactResult) (snapshot : ContextSnapshot) (strategy : CompactStrategy)
    : result DurableEventPayload SessionError :=
  let? retained :=
    ok_or (retained_transcript_messages snapshot (cr_retained_messages compaction))
      (Session_Storage compact_uncovered) in
  let? fingerprint :=
    map_err (λ e, Session_Storage (Serialization e))
      (transcript_prefix_fingerprint to_json (cs_system_prompt snapshot) (arc_get <$> cs_messages snapshot)) in
  Ok (transcript_rewritten_payload compaction retained (cs_source_seq snapshot) fingerprint strategy).

Definition persist_compaction (compaction : CompactResult) (snapshot : ContextSnapshot)
    (strategy : CompactStrategy) : T (result unit SessionError) :=
  match rewrite_payload compaction snapshot strategy with
  | Err e => tret (Err e)
  | Ok payload =>
    let+ n := ttick in
    match te_append_and_sync env n payload with
    | Ok _ => run+ did (Did_rewrite payload) in tret (Ok tt)
    | Err e => tret (Err e)
    end
  end.

Definition collect_compact_contributions (trigger : CompactTrigger) (source_messages : list LlmMessage)
    : T (result PreCompactOutcome string) :=
  let+ n := ttick in
  run+ did (Did_pre_compact trigger) in
  tret (match te_pre_compact env n trigger source_messages with
        | Ok r => Ok (pre_compact_outcome r)
        | Err e => Err e
        end).

Definition try_provider_input_tokens (messages : list (Arc LlmMessage)) (tools : list ToolDefinition)
    : T (option N) :=
  let+ n := ttick in
  tret (match te_count_input_tokens env n messages tools with
        | Ok count => Some (N.min usize_max count)
        | Err _ => None
        end).

Definition with_token_counts (pre post : option N) (c : CompactResult) : CompactResult :=
  {| cr_pre_tokens := default (cr_pre_tokens c) pre; cr_post_tokens := default (cr_post_tokens c) post;
     cr_summary := cr_summary c; cr_messages_removed := cr_messages_removed c;
     cr_summary_messages := cr_summary_messages c; cr_retained_messages := cr_retained_messages c;
     cr_transcript_path := cr_transcript_path c |}.

Definition update_compaction_token_counts (tools : list ToolDefinition) (snapshot : ContextSnapshot)
    (c : CompactResult) : T CompactResult :=
  let compacted := Arc_new <$> (cr_summary_messages c ++ cr_retained_messages c) in
  let+ pre := try_provider_input_tokens (request_messages snapshot (cs_messages snapshot)) tools in
  let+ post := try_provider_input_tokens (request_messages snapshot compacted) tools in
  tret (with_token_counts pre post c).

Definition dispatch_post_compact (c : CompactResult) : T unit :=
  let+ n := ttick in
  let _ := te_post_compact env n c in
  tret tt.

(** [request_compact_summary]: what the provider answers to the requests of this compaction. *)
Definition summarize (n : nat) (sent : list (list LlmMessage)) (request : list LlmMessage)
    : result string LlmError :=
  let? events := te_summarize env n sent request in
  collect_stream_text "" events.

(** The summary of the source, written by the model or without it. *)
Definition execute_compaction (use_llm : bool) (source_snapshot : ContextSnapshot) (instructions : list string)
    (render_options : CompactSummaryRenderOptions) (keep_recent_turns : option N)
    : T (result CompactExecution CompactSkipReason) :=
  let source_messages := arc_get <$> cs_messages source_snapshot in
  if use_llm then
    let+ n := ttick in
    tret (compact_messages_with_fallback value_to_string base_template incremental_template source_messages
            (Some (cs_system_prompt source_snapshot)) (as_settings (te_assembler env)) instructions
            render_options keep_recent_turns (request_compact_summary (summarize n))).1
  else
    tret (compact_messages_deterministic value_to_string source_messages
            (Some (cs_system_prompt source_snapshot)) render_options keep_recent_turns).

(** What follows the snapshot of the source. *)
Definition compact_snapshot (strategy : CompactStrategy) (use_llm : bool) (tools : list ToolDefinition)
    (contributions : CompactContributions) (source_snapshot : ContextSnapshot) (transcript_path : option string)
    : T CompactionPipelineOutcome :=
  let keep_recent_turns :=
    match CompactStrategy_keep_recent_turns strategy with
    | Some k => Some k
    | None => compact_keep_recent_turns (as_settings (te_assembler env))
    end in
  let render_options := {| ro_transcript_path := transcript_path;
                           ro_custom_instructions := cc_instructions contributions |} in
  let+ execution :=
    execute_compaction use_llm source_snapshot (cc_instructions contributions) render_options keep_recent_turns in
  match execution with
  | Err reason => tret (Pipeline_Skipped ("compact skipped: " +:+ CompactSkipReason_debug reason))
  | Ok execution =>
    let compaction :=
      append_compact_retained_context (ex_result execution) (cc_retained_context contributions)
        (as_settings (te_assembler env)) in
    let+ compaction := update_compaction_token_counts tools source_snapshot compaction in
    let+ persisted := persist_compaction compaction source_snapshot strategy in
    match persisted with
    | Err error => tret (Pipeline_Failed error (ex_llm_attempt execution) (Some source_snapshot))
    | Ok _ =>
      run+ dispatch_post_compact compaction in
      tret (Pipeline_Compacted (cr_messages_removed compaction) (ex_llm_attempt execution))
    end
  end.

Definition run_inner (strategy : CompactStrategy) (use_llm : bool) (pre_hook_messages : list (Arc LlmMessage))
    (tools : list ToolDefinition) : T CompactionPipelineOutcome :=
  let trigger := CompactStrategy_trigger strategy in
  let+ contributions := collect_compact_contributions trigger (arc_get <$> pre_hook_messages) in
  match contributions with
  | Err error => tret (Pipeline_Failed (Session_Extension error) NotAttempted None)
  | Ok (Pre_Blocked reason) => tret (Pipeline_Skipped reason)
  | Ok (Pre_Ready contributions) =>
    let+ n := ttick in
    match te_read_model env n with
    | Err error => tret (Pipeline_Failed error NotAttempted None)
    | Ok source_model =>
      run+ did (Did_read source_model) in
      let source_snapshot := context_snapshot source_model in
      match strategy with
      | Strategy_Manual _ =>
        let+ n := ttick in
        match te_write_compact_snapshot env n trigger source_snapshot with
        | Err error => tret (Pipeline_Failed error NotAttempted (Some source_snapshot))
        | Ok path => compact_snapshot strategy use_llm tools contributions source_snapshot path
        end
      | _ => compact_snapshot strategy use_llm tools contributions source_snapshot None
      end
    end
  end.

Definition pipeline_terminal (o : CompactionPipelineOutcome) : TurnLive :=
  match o with
  | Pipeline_Compacted removed _ => Live_CompactionCompleted removed
  | Pipeline_Skipped message => Live_CompactionSkipped message
  | Pipeline_Failed error _ _ => Live_CompactionFailed (session_error_to_string error)
  end.

Definition pipeline_run (strategy : CompactStrategy) (use_llm : bool) (pre_hook_messages : list (Arc LlmMessage))
    (tools : list ToolDefinition) : T CompactionPipelineOutcome :=
  run+ live Live_CompactionStarted in
  let+ outcome := run_inner strategy use_llm pre_hook_messages tools in
  run+ live (pipeline_terminal outcome) in
  tret outcome.

(** ** Within a turn ([turn.rs]) *)

Record CompactionPlan := {
  plan_strategy : CompactStrategy;
  plan_use_llm : bool;
}.

Inductive CompactionOutcome := Committed | NotCommitted (reason : string).

(** [CompactAttemptPermit::acquire] and [finish]. *)
Definition acquire_permit : T bool :=
  let+ t := now env in
  λ w, let '(allowed, b) := should_attempt t (tw_breaker w) in (Exec_ok allowed, set_breaker b w).
Definition finish_permit (outcome : LlmCompactAttempt) : T unit :=
  let+ t := now env in
  tmodify (λ w, set_breaker (finish_attempt t outcome (tw_breaker w)) w).

Definition run_compaction (probe_messages : list (Arc LlmMessage)) (plan : CompactionPlan)
    (tools : list ToolDefinition) : T (ContextSnapshot * CompactionOutcome) :=
  let auto := match plan_strategy plan with Strategy_Auto => true | _ => false end in
  let+ permit := if auto && plan_use_llm plan then acquire_permit else tret false in
  let use_llm := if auto then plan_use_llm plan && permit else plan_use_llm plan in
  let+ outcome := pipeline_run (plan_strategy plan) use_llm probe_messages tools in
  run+ (if permit then finish_permit (pipeline_llm_attempt outcome) else tret tt) in
  match outcome with
  | Pipeline_Failed error _ source =>
    if match SessionError_uncertain_through_seq error with Some _ => true | None => false end
    then tfail (Turn_Session error)
    else
      let result := NotCommitted (session_error_to_string error) in
      match source with
      | Some snapshot => tret (snapshot, result)
      | None => let+ model := snapshot_model env in tret (context_snapshot model, result)
      end
  | Pipeline_Skipped message =>
    let+ model := snapshot_model env in tret (context_snapshot model, NotCommitted message)
  | Pipeline_Compacted _ _ =>
    let+ model := snapshot_model env in tret (context_snapshot model, Committed)
  end.

Definition assembler_snapshot (messages : list LlmMessage) (prompt : option string)
    (provider_input_tokens : option N) : PromptTokenSnapshot :=
  {| context_tokens :=
       match provider_input_tokens with
       | Some t => t
       | None => estimate_request_tokens_with_prompt value_to_string messages prompt
       end;
     threshold_tokens := as_threshold_tokens (te_assembler env) (ml_max_input_tokens (te_limits env));
     max_input_tokens := ml_max_input_tokens (te_limits env);
     max_output_tokens := ml_max_output_tokens (te_limits env) |}.

Definition should_auto_compact (messages : list LlmMessage) (prompt : option string)
    (provider_input_tokens : option N) : bool :=
  let snapshot := assembler_snapshot messages prompt provider_input_tokens in
  should_compact snapshot
  || (as_predictive_compact_enabled (te_assembler env)
      && should_compact_predictive snapshot (as_turn_growth (te_assembler env) messages)
           (ml_max_input_tokens (te_limits env))).

Definition plan_auto_compaction (snapshot : ContextSnapshot) (tools : list ToolDefinition) (tools_tokens : N)
    : T (option CompactionPlan) :=
  if negb (as_auto_compact_enabled (te_assembler env)) then tret None
  else
    let window := ml_max_input_tokens (te_limits env) in
    let gate_floor :=
      as_gate_floor (te_assembler env) (as_threshold_tokens (te_assembler env) window) in
    let+ provider_input_tokens :=
      (if bool_decide (gate_floor ≤ estimate_own_input_tokens value_to_string snapshot tools_tokens window)%N
       then try_provider_input_tokens (request_messages snapshot (cs_messages snapshot)) tools
       else tret None) in
    if should_auto_compact (arc_get <$> cs_messages snapshot) (Some (cs_system_prompt snapshot))
         provider_input_tokens
    then tret (Some {| plan_strategy := Strategy_Auto; plan_use_llm := true |})
    else tret None.

Definition prepare_provider_history (initial_snapshot : ContextSnapshot) (plan : option CompactionPlan)
    (tools : list ToolDefinition) : T (ContextSnapshot * list (Arc LlmMessage)) :=
  let+ snapshot :=
    match plan with
    | Some plan =>
      let+ (snapshot, _) := run_compaction (cs_messages initial_snapshot) plan tools in tret snapshot
    | None => tret initial_snapshot
    end in
  let+ state := tget tw_turn in
  let messages :=
    append_deferred_tools_reminder (cs_messages snapshot) (all_tools state) (active_deferred_tools state) in
  tret (snapshot, provider_visible_shared_messages messages).

Definition run_reactive_compaction : T bool :=
  let+ model := snapshot_model env in
  let+ state := tget tw_turn in
  let+ (_, outcome) :=
    run_compaction (cs_messages (context_snapshot model))
      {| plan_strategy := Strategy_ReactivePromptTooLong; plan_use_llm := true |} (visible_tools state) in
  tret (match outcome with Committed => true | NotCommitted _ => false end).

(** ** Of an idle session ([manual.rs]) *)

Inductive ManualCompactionOutcome :=
| Manual_Compacted (messages_removed : N)
| Manual_Skipped (message : string).

Definition compact_manual_session (keep_recent_turns : option N) (tools : list ToolDefinition)
    : T ManualCompactionOutcome :=
  let+ state := snapshot_model env in
  let+ outcome :=
    pipeline_run (Strategy_Manual keep_recent_turns) true (cs_messages (context_snapshot state)) tools in
  match outcome with
  | Pipeline_Compacted removed _ => tret (Manual_Compacted removed)
  | Pipeline_Skipped message => tret (Manual_Skipped message)
  | Pipeline_Failed error _ _ => tfail (Turn_Session error)
  end.
End compaction.

(** ** What the pipeline does *)

Lemma fingerprint_source m :
  arc_get <$> cs_messages (context_snapshot m)
  = provider_transcript (map model_context.message (model_context.messages (model_ctx m))).
Proof.
  destruct provider_visible_shared_agrees as (_ & Hs & Ht).
  assert (cs_messages (context_snapshot m)
    = stm_message <$> provider_transcript_shared_messages
        (shared_entry <$> model_context.messages (model_ctx m))) as ->
    by (unfold context_snapshot; by destruct (model_context.usage _)).
  trans (tm_message <$> (unshare <$> provider_transcript_shared_messages
    (shared_entry <$> model_context.messages (model_ctx m)))).
  { rewrite <-!list_fmap_compose. done. }
  rewrite Hs, Ht, <-!list_fmap_compose. done.
Qed.

(** The kept messages with their origins. *)
Definition kept_messages (ks : nat) (s : ContextSnapshot) : list TranscriptMessage :=
  zip_with (λ m o, {| tm_message := arc_get m; tm_origin := o |}) (drop ks (cs_messages s)) (drop ks (cs_origins s)).

Lemma snapshot_origins m : length (cs_origins (context_snapshot m)) = length (cs_messages (context_snapshot m)).
Proof. unfold context_snapshot. destruct (model_context.usage _); simpl; by rewrite !length_fmap. Qed.

Lemma kept_messages_messages ks m :
  tm_message <$> kept_messages ks (context_snapshot m) = drop ks (arc_get <$> cs_messages (context_snapshot m)).
Proof.
  unfold kept_messages. pose proof (snapshot_origins m) as Hlen.
  generalize dependent (cs_origins (context_snapshot m)). generalize (cs_messages (context_snapshot m)).
  intros l o Hl. revert ks o Hl. induction l as [|x l IH]; intros [|ks] [|y o] [=]; simpl; try done.
  - f_equal. by apply (IH 0).
  - by apply IH.
Qed.

Lemma retained_suffix s ks :
  ks ≤ length (cs_messages s) →
  retained_transcript_messages s (drop ks (arc_get <$> cs_messages s)) = Some (kept_messages ks s).
Proof.
  intros Hle. unfold retained_transcript_messages. rewrite length_drop, length_fmap.
  rewrite (proj2 (Nat.ltb_ge _ _)) by lia.
  replace (length (cs_messages s) - (length (cs_messages s) - ks)) with ks by lia.
  by rewrite fmap_drop, bool_decide_true.
Qed.

Section pipeline.
  Context (value_to_string : Value → string) (base_template incremental_template : string).
  Context (to_json : LlmMessage → result string string) (session_error_to_string : SessionError → string).
  Context (env : TurnEnv).

(** A result that keeps the messages of the snapshot from some turn on. *)
Definition keeps_suffix (s : ContextSnapshot) (c : CompactResult) (ks : nat) : Prop :=
  0 < ks ≤ length (cs_messages s) ∧ cr_retained_messages c = drop ks (arc_get <$> cs_messages s)
  ∧ cr_summary_messages c ≠ [] ∧ Forall plain_entry (cr_summary_messages c).

(** A result whose summary is that of the messages it does not keep, followed by [rest]. *)
Definition summarises (keep : option N) (s : ContextSnapshot) (c : CompactResult) (ks : nat) (rest : list LlmMessage)
    : Prop :=
  let prefix := take ks (arc_get <$> cs_messages s) in
  split_compact_start (arc_get <$> cs_messages s) keep = Some ks
  ∧ cr_messages_removed c = removed_visible_messages prefix
  ∧ ∃ n instructions options summary,
      summary_of value_to_string base_template incremental_template (Some (cs_system_prompt s))
        (as_settings (te_assembler env)) instructions (summarize env n) prefix summary
      ∧ cr_summary_messages c = LlmMessage_user (compact_summary_message_text summary options) :: rest.

(** What extensions have retained, in at most one message. *)
Definition retained_context (rest : list LlmMessage) : Prop :=
  rest = [] ∨ ∃ kept, rest = [LlmMessage_user (render_retained_context kept)].

(** What a compaction has made of a snapshot. *)
Definition compacts (keep : option N) (s : ContextSnapshot) (c : CompactResult) (ks : nat) : Prop :=
  keeps_suffix s c ks ∧ ∃ rest, summarises keep s c ks rest ∧ retained_context rest.

Lemma finish_keeps_suffix s keep summary options parts n instructions :
  prepare_compact_parts value_to_string (arc_get <$> cs_messages s) (Some (cs_system_prompt s)) keep = Ok parts →
  summary_of value_to_string base_template incremental_template (Some (cs_system_prompt s))
    (as_settings (te_assembler env)) instructions (summarize env n) (cp_prefix parts) summary →
  let c := finish_compact_summary value_to_string summary (cp_retained_messages parts)
      (cp_pre_tokens parts) (cp_messages_removed parts) (Some (cs_system_prompt s)) options in
  ∃ ks, keeps_suffix s c ks ∧ summarises keep s c ks [].
Proof.
  intros Hparts Hsum c. destruct (prepare_compact_parts_input _ _ _ _ _ Hparts) as [_ Hrem].
  apply prepare_compact_parts_cut in Hparts as (ks & Hks & Hp & Hr & Hne). rewrite Hp in Hsum, Hrem.
  exists ks. split; [|split; [done|]; split; [done|]; by exists n, instructions, options, summary].
  apply split_compact_start_spec in Hks as [_ Hks]. split.
  - split; [destruct ks; [done|lia]|].
    destruct Hks as [->|(m & Hm%lookup_lt_Some & _)]; rewrite length_fmap in *; lia.
  - split; [simpl; by rewrite Hr|]. split; [done|]. repeat constructor. simpl. done.
Qed.

Lemma append_retained_summarises keep s c ks contributions settings :
  summarises keep s c ks [] →
  ∃ rest, summarises keep s (append_compact_retained_context c contributions settings) ks rest
    ∧ retained_context rest.
Proof.
  intros H. unfold append_compact_retained_context.
  destruct (budget_contributions _ _) as [|x kept]; [exists []; split; [done|by left]|].
  exists [LlmMessage_user (render_retained_context (x :: kept))]. split; [|right; by eexists].
  destruct H as (Hks & Hrem & n & instructions & options & summary & Hsum & Hc). split; [done|]. split; [done|].
  exists n, instructions, options, summary. split; [done|]. simpl. by rewrite Hc.
Qed.

Lemma append_retained_suffix s c ks contributions settings :
  keeps_suffix s c ks → keeps_suffix s (append_compact_retained_context c contributions settings) ks.
Proof.
  intros (Hks & Hr & Hne & Hp). unfold append_compact_retained_context.
  destruct (budget_contributions _ _); [done|]. split; [done|]. simpl. split; [done|].
  split; [by destruct (cr_summary_messages c)|]. apply Forall_app. split; [done|]. by repeat constructor.
Qed.

Lemma execute_compaction_moves use_llm s instructions options keep w :
  moves (execute_compaction value_to_string base_template incremental_template env use_llm s instructions options keep) w
    (λ r l, l = [] ∧ match r with
                     | Ok ex => ∃ ks, keeps_suffix s (ex_result ex) ks ∧ summarises keep s (ex_result ex) ks []
                     | Err _ => True
                     end).
Proof.
  unfold execute_compaction. destruct use_llm.
  - apply moves_then, moves_tick. intros n w'. apply moves_ret. split; [done|].
    pose proof (fallback_spec value_to_string base_template incremental_template (arc_get <$> cs_messages s)
      (Some (cs_system_prompt s)) (as_settings (te_assembler env)) instructions options keep (summarize env n)) as H.
    destruct (compact_messages_with_fallback _ _ _ _ _ _ _ _ _ _) as [r requests]. simpl.
    destruct (prepare_compact_parts _ _ _ _) as [parts|] eqn:Hp; [|by destruct H as [-> _]].
    destruct H as [(ex & summary & -> & Hsum & ->) _]. by eapply finish_keeps_suffix.
  - apply moves_ret. split; [done|]. unfold compact_messages_deterministic, compact_messages_with_render_options_and_keep.
    destruct (prepare_compact_parts _ _ _ _) as [parts|] eqn:Hp; simpl; [|done].
    eapply (finish_keeps_suffix _ _ _ _ _ 0 []); [done|by left].
Qed.

(** The user's turns a compaction keeps: those asked for, or those configured. *)
Definition kept_turns (strategy : CompactStrategy) : option N :=
  match CompactStrategy_keep_recent_turns strategy with
  | Some k => Some k
  | None => compact_keep_recent_turns (as_settings (te_assembler env))
  end.

(** How the rest of the pipeline ends on a snapshot: with one rewrite, committed, or none. *)
Definition snapshot_outcome (strategy : CompactStrategy) (s : ContextSnapshot) (o : CompactionPipelineOutcome)
    (l : list TurnAction) : Prop :=
  match o with
  | Pipeline_Compacted removed _ =>
    ∃ c ks p, l = [Did_rewrite p] ∧ compacts (kept_turns strategy) s c ks ∧ rewrite_payload to_json c s strategy = Ok p
      ∧ removed = cr_messages_removed c
  | Pipeline_Skipped _ => l = []
  | Pipeline_Failed error _ source =>
    l = [] ∧ source = Some s ∧
    ((∃ message, error = Session_Storage (Serialization message))
     ∨ (∃ n p, te_append_and_sync env n p = Err error)
     ∨ (∃ n t, te_write_compact_snapshot env n t s = Err error))
  end.

Lemma compact_snapshot_moves strategy use_llm tools contributions s path w :
  moves (compact_snapshot value_to_string base_template incremental_template to_json env strategy use_llm tools
           contributions s path) w (snapshot_outcome strategy s).
Proof.
  unfold compact_snapshot. apply moves_then. eapply moves_weaken; [apply execute_compaction_moves|].
  intros [ex|reason] l [-> Hex] w1; [|by apply moves_ret]. destruct Hex as (ks & Hks & Hsum).
  apply moves_then. unfold update_compaction_token_counts, try_provider_input_tokens.
  apply moves_then, moves_then, moves_tick. intros n w2. apply moves_ret. intros w3.
  apply moves_then, moves_then, moves_tick. intros n' w4. apply moves_ret. intros w5. apply moves_ret. intros w6.
  set (c := with_token_counts _ _ _).
  assert (keeps_suffix s c ks) as Hc by (apply (append_retained_suffix _ _ _ (cc_retained_context contributions)); done).
  assert (compacts (kept_turns strategy) s c ks) as Hcc.
  { split; [done|]. exact (append_retained_summarises _ _ _ _ (cc_retained_context contributions) _ Hsum). }
  apply moves_then. unfold persist_compaction.
  destruct (rewrite_payload to_json c s strategy) as [p|e] eqn:Hp.
  2: { apply moves_ret. intros w7. apply moves_ret. simpl. split_and!; [done..|]. left.
       unfold rewrite_payload in Hp. destruct Hc as ((_ & Hle) & Hret & _).
       rewrite Hret, retained_suffix in Hp by done. simpl in Hp.
       destruct (transcript_prefix_fingerprint _ _ _) as [|msg]; [done|]. exists msg. simpl in Hp. congruence. }
  apply moves_then, moves_tick. intros n2 w7.
  destruct (te_append_and_sync env n2 p) as [[]|e] eqn:Ha.
  2: { apply moves_ret. intros w8. apply moves_ret. simpl. split_and!; [done..|]. right; left. by exists n2, p. }
  apply moves_then, moves_did. intros w8. apply moves_ret. intros w9.
  unfold dispatch_post_compact. apply moves_then, moves_then, moves_tick. intros n3 w10. apply moves_ret.
  intros w11. apply moves_ret. by exists c, ks, p.
Qed.

(** How the pipeline ends: what it did after the hook, and the model it read. *)
Definition pipeline_outcome (strategy : CompactStrategy) (o : CompactionPipelineOutcome) (l : list TurnAction) : Prop :=
  match l with
  | Did_pre_compact trigger :: l =>
    trigger = CompactStrategy_trigger strategy ∧
    match l with
    | Did_read m :: l => snapshot_outcome strategy (context_snapshot m) o l
    | l => l = [] ∧ match o with
                    | Pipeline_Compacted _ _ => False
                    | Pipeline_Skipped _ => True
                    | Pipeline_Failed _ _ source => source = None
                    end
    end
  | _ => False
  end.

Lemma run_inner_moves strategy use_llm probe tools w :
  moves (run_inner value_to_string base_template incremental_template to_json env strategy use_llm probe tools) w
    (pipeline_outcome strategy).
Proof.
  unfold run_inner, collect_compact_contributions.
  apply moves_then, moves_then, moves_tick. intros n w1. apply moves_then, moves_did. intros w2. apply moves_ret.
  intros w3. destruct (te_pre_compact _ _ _ _) as [r|e]; [|by apply moves_ret].
  destruct (pre_compact_outcome r) as [contributions|reason]; [|by apply moves_ret].
  apply moves_then, moves_tick. intros n1 w4.
  destruct (te_read_model env n1) as [m|e]; [|by apply moves_ret].
  apply moves_then, moves_did. intros w5.
  assert (∀ path w', moves (compact_snapshot value_to_string base_template incremental_template to_json env strategy
      use_llm tools contributions (context_snapshot m) path) w'
    (λ b l', pipeline_outcome strategy b ((([] ++ [Did_pre_compact (CompactStrategy_trigger strategy)] ++ []) ++ [])
      ++ [Did_read m] ++ l'))) as Hgo.
  { intros path w'. eapply moves_weaken; [apply compact_snapshot_moves|]. intros o l H. simpl. done. }
  destruct strategy as [|keep|]; [apply Hgo| |apply Hgo].
  apply moves_then, moves_tick. intros n2 w6.
  destruct (te_write_compact_snapshot _ _ _ _) as [path|e] eqn:Hw; [apply Hgo|].
  apply moves_ret. simpl. split_and!; [done..|]. right; right. by eexists _, _.
Qed.

Lemma pipeline_run_outcome strategy use_llm probe tools w :
  ∃ o k l,
    pipeline_run value_to_string base_template incremental_template to_json session_error_to_string env strategy
      use_llm probe tools w
    = (Exec_ok o, moved k ([Did_live Live_CompactionStarted] ++ l
                           ++ [Did_live (pipeline_terminal session_error_to_string o)]) w)
    ∧ pipeline_outcome strategy o l.
Proof.
  assert (moves (pipeline_run value_to_string base_template incremental_template to_json session_error_to_string env
      strategy use_llm probe tools) w
    (λ o l, ∃ l', l = [Did_live Live_CompactionStarted] ++ l'
      ++ [Did_live (pipeline_terminal session_error_to_string o)] ∧ pipeline_outcome strategy o l'))
    as (o & k & l & Hm & l' & -> & Ho); [|by exists o, k, l'].
  unfold pipeline_run, live. apply moves_then, moves_did. intros w1. apply moves_then.
  eapply moves_weaken; [apply run_inner_moves|]. intros o l Ho w2. apply moves_then, moves_did. intros w3.
  apply moves_ret. by exists l.
Qed.

(** A compaction is reported once and truly: whatever the hooks, the provider and the
    journal answer, the pipeline ends, having shown one start and one end; in between it asked
    the hooks once and read the model at most once, and it committed a rewrite, a single one,
    exactly when it reports to have compacted. A failed or skipped one committed nothing. *)
Theorem compaction_reported_once strategy use_llm probe tools w :
  ∃ o k l,
    pipeline_run value_to_string base_template incremental_template to_json session_error_to_string env strategy
      use_llm probe tools w
    = (Exec_ok o, moved k ([Did_live Live_CompactionStarted] ++ l
                           ++ [Did_live (pipeline_terminal session_error_to_string o)]) w)
    ∧ pipeline_outcome strategy o l.
Proof. apply pipeline_run_outcome. Qed.
End pipeline.

(** ** The commit *)

(** The journal's model has grown behind the snapshot: the transcript up to it and the prompt
    are unchanged, what was added carries later numbers. *)
Record grown (m m2 : SessionReadModel) (tail : list model_context.SequencedLlmMessage) : Prop := {
  grown_messages : model_context.messages (model_ctx m2) = model_context.messages (model_ctx m) ++ tail;
  grown_tail : Forall (λ x, last_seq (stats m) < model_context.updated_seq x)%N tail;
  grown_prompt : model_context.text (system_prompt m2) = model_context.text (system_prompt m);
  grown_seq : (last_seq (stats m) ≤ last_seq (stats m2) < u64_max)%N;
}.

Lemma filter_grown m m2 tail :
  Forall (λ x, model_context.updated_seq x ≤ last_seq (stats m))%N (model_context.messages (model_ctx m)) →
  grown m m2 tail →
  filter (λ x, model_context.updated_seq x ≤ last_seq (stats m))%N (model_context.messages (model_ctx m2))
    = model_context.messages (model_ctx m)
  ∧ filter (λ x, last_seq (stats m) < model_context.updated_seq x)%N (model_context.messages (model_ctx m2)) = tail.
Proof.
  rewrite Forall_forall. intros H1 [-> H2 _ _]. rewrite Forall_forall in H2. rewrite !filter_app. split.
  - rewrite (filter_all _ (model_context.messages _)) by done.
    rewrite (filter_none _ tail), app_nil_r; [done|]. intros x Hx%H2. lia.
  - rewrite (filter_all _ tail) by done.
    rewrite (filter_none _ (model_context.messages _)); [done|]. intros x Hx%H1. lia.
Qed.

Lemma snapshot_source m :
  cs_source_seq (context_snapshot m) = last_seq (stats m)
  ∧ cs_system_prompt (context_snapshot m) = model_context.text (system_prompt m).
Proof. unfold context_snapshot. by destruct (model_context.usage _). Qed.

Lemma rewrite_accepted to_json sid log m m2 tail c ks strategy p event :
  replay to_json sid log = Ok m →
  keeps_suffix (context_snapshot m) c ks →
  rewrite_payload to_json c (context_snapshot m) strategy = Ok p →
  grown m m2 tail →
  ev_session_id event = session_id (identity m2) → ev_payload event = p →
  ∃ m3,
    reduce to_json m2 (StoredEvent_new (last_seq (stats m2) + 1) event) = Ok m3
    ∧ model_context.messages (model_ctx m3)
      = (model_context.rewritten_entry (last_seq (stats m)) <$>
           (TranscriptMessage_plain <$> cr_summary_messages c) ++ kept_messages ks (context_snapshot m)) ++ tail.
Proof.
  intros Hm ((_ & Hle) & Hret & _) Hp Hg Hsid Hpay.
  apply replay_context_ok in Hm as (_ & Hseq & _). destruct (snapshot_source m) as [Hsrc Hprompt].
  unfold rewrite_payload in Hp. rewrite Hret, retained_suffix in Hp by done. simpl in Hp.
  rewrite Hsrc, Hprompt, fingerprint_source in Hp.
  destruct (transcript_prefix_fingerprint _ _ _) as [fp|] eqn:Hfp; [|done]. injection Hp as <-.
  destruct (grown_seq _ _ _ Hg) as [Hseq1 Hseq2]. eexists. split.
  - unfold reduce, validate_next_event, validate_next_event_details. cbn [se_seq se_event].
    rewrite Hpay, (bool_decide_false (ev_session_id event ≠ _)) by (intros H; done). simpl.
    rewrite (bool_decide_false (_ < _)%N) by lia. simpl.
    unfold checked_add. rewrite bool_decide_true by lia. simpl. rewrite bool_decide_false by (intros H; done). simpl.
    unfold model_context.validate_rewrite_fingerprint, model_context.validate_rewrite_fingerprint_against.
    rewrite Hpay. simpl. rewrite (grown_prompt _ _ _ Hg).
    rewrite (proj1 (filter_grown m m2 tail Hseq Hg)).
    rewrite Hfp. simpl. by rewrite bool_decide_true.
  - cbn [model_ctx apply_validated_event]. unfold model_context.apply_event, model_context.apply_provider_event.
    unfold se_payload. simpl. rewrite Hpay. simpl. unfold model_context.apply_transcript_rewrite.
    by rewrite (proj2 (filter_grown m m2 tail Hseq Hg)).
Qed.

Section commit.
  Context (value_to_string : Value → string) (base_template incremental_template : string).
  Context (to_json : LlmMessage → result string string) (session_error_to_string : SessionError → string).
  Context (env : TurnEnv).

(** C30. A compaction that reports success wrote an event the journal takes: also when the
    session went on after the model was read, as long as it only added messages behind those it
    had and kept its system prompt ([grown]; a changed prompt is refused), the event passes the
    validation of the projection, fingerprint included.  The transcript is cut where the turns
    to keep begin, and becomes the summary of everything before the cut, possibly one message of
    context that extensions retained, the messages from the cut on with their origins, and what
    was added, in order.  The summary is the one the model wrote for the conversation before the
    cut, or the list made of it; the number reported as removed is that of its messages. *)
Theorem compaction_commit_accepted strategy use_llm probe tools w w' removed attempt m p sid log m2 tail event :
  pipeline_run value_to_string base_template incremental_template to_json session_error_to_string env strategy
    use_llm probe tools w = (Exec_ok (Pipeline_Compacted removed attempt), w') →
  Did_read m ∈ drop (length (tw_trace w)) (tw_trace w') →
  Did_rewrite p ∈ drop (length (tw_trace w)) (tw_trace w') →
  replay to_json sid log = Ok m → grown m m2 tail →
  ev_session_id event = session_id (identity m2) → ev_payload event = p →
  let transcript := provider_transcript (model_context.message <$> model_context.messages (model_ctx m)) in
  ∃ ks summary n instructions options rest m3,
    split_compact_start transcript (kept_turns env strategy) = Some ks
    ∧ 0 < ks ≤ length transcript
    ∧ summary_of value_to_string base_template incremental_template (Some (model_context.text (system_prompt m)))
        (as_settings (te_assembler env)) instructions (summarize env n) (take ks transcript) summary
    ∧ removed = removed_visible_messages (take ks transcript)
    ∧ retained_context rest
    ∧ reduce to_json m2 (StoredEvent_new (last_seq (stats m2) + 1) event) = Ok m3
    ∧ let summary_messages := LlmMessage_user (compact_summary_message_text summary options) :: rest in
      model_context.messages (model_ctx m3)
      = (model_context.rewritten_entry (last_seq (stats m)) <$>
           (TranscriptMessage_plain <$> summary_messages) ++ kept_messages ks (context_snapshot m)) ++ tail
      ∧ (model_context.message <$> model_context.messages (model_ctx m3))
        = summary_messages ++ drop ks transcript ++ (model_context.message <$> tail).
Proof.
  intros Hrun Hread Hrw Hm Hg Hsid Hpay transcript.
  destruct (pipeline_run_outcome value_to_string base_template incremental_template to_json session_error_to_string
    env strategy use_llm probe tools w) as (o & k & l & Hr & Ho).
  rewrite Hrun in Hr. injection Hr as <- ->. simpl in Hread, Hrw. rewrite drop_app_length in Hread, Hrw.
  destruct l as [|[] l]; try done. destruct Ho as [_ Ho]. destruct l as [|[] l]; try (by destruct Ho).
  destruct Ho as (c & ks & p' & -> & [Hks (rest & Hsum & Hrest)] & Hp & ->).
  apply list_elem_of_In in Hread, Hrw. simpl in Hread, Hrw. pose proof Hks as (Hpos & _).
  assert (m0 = m ∧ p' = p) as [-> ->] by (split; intuition congruence).
  destruct (rewrite_accepted _ _ _ _ _ _ _ _ _ _ _ Hm Hks Hp Hg Hsid Hpay) as (m3 & Hm3 & Hmsg).
  destruct Hsum as (Hcut & Hrem & n & instructions & options & summary & Hsum & Hc).
  rewrite Hc in Hmsg. rewrite (proj2 (snapshot_source m)) in Hsum.
  rewrite fingerprint_source in Hcut, Hrem, Hsum. fold transcript in Hcut, Hrem, Hsum.
  exists ks, summary, n, instructions, options, rest, m3. cbv zeta. split_and!; [done|apply Hpos| |done..|].
  - destruct Hpos as [_ Hle]. rewrite <-(length_fmap arc_get), fingerprint_source in Hle. exact Hle.
  - rewrite Hmsg, !fmap_app, <-app_assoc. f_equal.
    + rewrite <-!list_fmap_compose. apply list_fmap_id.
    + f_equal. rewrite <-list_fmap_compose. etrans; [apply (kept_messages_messages ks m)|]. by rewrite fingerprint_source.
Qed.
End commit.

(** A log with two turns. *)
Definition two_turns : list StoredEvent :=
  sample_log ++ numbered 2 [
    sample_event (P_UserMessage (MessageId_new "m1") "first" [] None);
    sample_event (P_AssistantMessageCompleted (MessageId_new "m2") "answer" None);
    sample_event (P_UserMessage (MessageId_new "m3") "second" [] None)].

Definition two_turns_model : SessionReadModel :=
  match replay sample_json sample_sid two_turns with Ok m => m | Err _ => sample_model end.

(** While it is being summarised, the user asks again. *)
Definition asked_again : SessionReadModel :=
  apply_validated_event (StoredEvent_new 5 (sample_event (P_UserMessage (MessageId_new "m4") "third" [] None)))
    two_turns_model.

Definition two_turns_env : TurnEnv := TurnSample.env (λ _, two_turns_model) (λ _, []).

Definition two_turns_run := pipeline_run (λ _, "{}") "" "" sample_json (λ _, "error")
  two_turns_env Strategy_Auto true [] [] (TurnSample.world []).

Definition two_turns_payload : DurableEventPayload :=
  match omap (λ a, match a with Did_rewrite p => Some p | _ => None end) (tw_trace two_turns_run.2) with
  | p :: _ => p
  | [] => P_TurnStarted
  end.

Lemma compaction_commit_accepted_witness :
  two_turns_run.1 = Exec_ok (Pipeline_Compacted 3 Succeeded)
  ∧ replay sample_json sample_sid two_turns = Ok two_turns_model
  ∧ let transcript := provider_transcript
      (model_context.message <$> model_context.messages (model_ctx two_turns_model)) in
    ∃ ks summary n instructions options rest m3,
    split_compact_start transcript (kept_turns two_turns_env Strategy_Auto) = Some ks
    ∧ 0 < ks ≤ length transcript
    ∧ summary_of (λ _, "{}") "" "" (Some (model_context.text (system_prompt two_turns_model)))
        (as_settings (te_assembler two_turns_env)) instructions (summarize two_turns_env n) (take ks transcript) summary
    ∧ 3%N = removed_visible_messages (take ks transcript)
    ∧ retained_context rest
    ∧ reduce sample_json asked_again (StoredEvent_new 6 (sample_event two_turns_payload)) = Ok m3
    ∧ let summary_messages := LlmMessage_user (compact_summary_message_text summary options) :: rest in
      model_context.messages (model_ctx m3)
      = (model_context.rewritten_entry 4 <$>
           (TranscriptMessage_plain <$> summary_messages) ++ kept_messages ks (context_snapshot two_turns_model))
        ++ drop 4 (model_context.messages (model_ctx asked_again))
      ∧ (model_context.message <$> model_context.messages (model_ctx m3))
        = summary_messages ++ drop ks transcript
          ++ (model_context.message <$> drop 4 (model_context.messages (model_ctx asked_again))).
Proof.
  split; [vm_compute; reflexivity|]. split; [vm_compute; reflexivity|].
  refine (compaction_commit_accepted (λ _, "{}") "" "" sample_json (λ _, "error")
    two_turns_env Strategy_Auto true [] [] (TurnSample.world []) two_turns_run.2
    3 Succeeded two_turns_model two_turns_payload sample_sid two_turns asked_again _ (sample_event two_turns_payload)
    _ _ _ _ _ _ _).
  - vm_compute. reflexivity.
  - apply list_elem_of_In. vm_compute. right; right; left. reflexivity.
  - apply list_elem_of_In. vm_compute. right; right; right; left. reflexivity.
  - vm_compute. reflexivity.
  - split; [vm_compute; reflexivity| |vm_compute; reflexivity|vm_compute; done].
    vm_compute. repeat constructor.
  - vm_compute. reflexivity.
  - reflexivity.
Defined.
