(* ===== verification/TurnLoop.v ===== *)
(** * The loop of a turn ([astrcode-session/src/turn_runner.rs])

    One turn: the steps with their provider requests, tool calls and hooks, recovery from a
    context that is too long, inputs that arrive while the turn runs, and how the turn ends.
    Everything that answers the turn is in [TurnWorld.TurnEnv].  The loop over the steps has no
    bound in the source; [turn_steps] takes the number of steps as fuel and gives [Exec_blocked]
    when they are used up. *)

From S2P Require Import Prelude Utf8 StdPath CoreTypes CoreLlm CoreLlmProtocol CoreEvent ProjViews ProjContext ProjReducer StoreTypes TurnFinalize PermPolicy ToolPrepare ToolExecute TurnStream StdStr CtxText CtxTokens CtxCompact SessBreaker TurnWorld SessCompact.
Local Open Scope turn_scope.

Definition FINISH_REASON_LENGTH : string := "length".

Record TurnOutput := {
  to_text : string;
  to_finish_reason : string;
}.

Inductive StepOutcome :=
| Step_Continue
| Step_Finished (output : TurnOutput).

Record PreparedProviderRequest := {
  pr_messages : list (Arc LlmMessage);
  pr_max_output_tokens : N;
  (** whether there is something to acknowledge *)
  pr_acknowledgements : bool;
}.

Record LlmRequestSnapshot := {
  lr_messages : list (Arc LlmMessage);
  lr_context_window : N;
  lr_acknowledgements : bool;
}.

Record RunTurnResult := {
  rt_output : result TurnOutput TurnError;
  rt_finalization : TurnFinalization;
}.

Definition non_empty_reasoning_content (reasoning_content : string) : option string :=
  if is_empty reasoning_content then None else Some reasoning_content.

Definition extract_last_assistant_text (messages : list LlmMessage) : option string :=
  (λ m, joined_text m "") <$> find_first (λ m, bool_decide (role m = Role_Assistant)) (rev messages).

Definition extract_text_from_messages (messages : list LlmMessage) : string :=
  join_text (concat (content <$> messages)) "".

(** The message of the provider's error event at which the consumption of a stream stops. *)
Fixpoint stream_error (turn_error_to_string : TurnError → string) (c : StreamConsumer) (input : list StreamInput)
    : option string :=
  match input with
  | Received (Error message) :: _ => Some message
  | Received event :: input =>
    match consume_event turn_error_to_string (λ _, Ok tt) c event with
    | (inl c, _) => stream_error turn_error_to_string c input
    | (inr _, _) => None
    end
  | _ => None
  end.

(** [m], continued with [k]; a context that is too long is handed to [recover]. *)
Definition on_overflow {A B} (m : T A) (recover : T B) (k : A → T B) : T B := λ w,
  match m w with
  | (Exec_ok a, w) => k a w
  | (Exec_err (Turn_Llm (ContextWindowExceeded _)), w) => recover w
  | (Exec_err e, w) => (Exec_err e, w)
  | (Exec_blocked, w) => (Exec_blocked, w)
  end.

Section turn.
  Context (value_to_string : Value → string) (base_template incremental_template : string)
    (debug_str : string → string) (parse_json : string → option Value).
  Context (encode_history : ApprovalHistoryFile → string) (parses_as_image : string → bool).
  Context (to_json : LlmMessage → result string string)
    (session_error_to_string : SessionError → string) (turn_error_to_string : TurnError → string).
  Context (env : TurnEnv).

Abbreviation run_reactive := (run_reactive_compaction value_to_string base_template incremental_template to_json
  session_error_to_string env).

(** ** Small operations *)

Definition check_aborted : T unit :=
  let+ cancelled := t_cancelled env in
  if cancelled then tfail Turn_Aborted else tret tt.

(** [StepEnd] hooks; a failure is only logged. *)
Definition on_step_end_best_effort : T unit := run+ emit_lifecycle env StepEnd in tret tt.

Definition absorb_input (i : execution.PendingInput) : T unit :=
  let+ n := ttick in
  t_durable env (P_UserMessage (MessageId_new (te_message_id env n)) (ui_text (execution.input i))
                   (ui_attachments (execution.input i)) (Some (execution.accepted_seq i))).

Fixpoint absorb_inputs (l : list execution.PendingInput) : T unit :=
  match l with
  | [] => tret tt
  | i :: l => run+ absorb_input i in absorb_inputs l
  end.

Definition sync_mid_turn_user_messages : T N :=
  let+ model := snapshot_model env in
  let absorbable := absorbable_inputs_for_turn model (te_turn_id env) in
  run+ absorb_inputs absorbable in
  tret (N.of_nat (length absorbable) mod (u32_max + 1))%N.

Definition has_pending_mid_turn_user_messages : T bool :=
  let+ model := snapshot_model env in
  tret (negb (bool_decide (absorbable_inputs_for_turn model (te_turn_id env) = []))).

Definition persist_token_usage (usage : option LlmTokenUsage) (model_context_window : N) : T unit :=
  match usage with
  | None => tret tt
  | Some usage =>
    run+ match input_tokens usage with
         | Some tokens => turn_modify (record_step_input_tokens tokens)
         | None => tret tt
         end in
    t_durable env (P_TokenUsageRecorded usage model_context_window)
  end.

Definition acknowledge_provider_request (acknowledgements : bool) : T unit :=
  if negb acknowledgements then tret tt
  else
    run+ sync_durable env in
    let+ n := ttick in
    run+ did Did_acknowledge in
    let _ := te_acknowledge env n in
    tret tt.

(** ** Recovery *)

Definition recover_context_overflow : T bool :=
  let+ used := tget (λ w, reactive_compact_used (tw_turn w)) in
  if used then tret false
  else
    run+ turn_modify mark_reactive_compact_used in
    run_reactive.

Definition recover_or_fail : T StepOutcome :=
  let+ recovered := recover_context_overflow in
  if recovered then tret Step_Continue else tfail Turn_CompactExhausted.

(** ** The request *)

Definition apply_before_provider_request_hook (send_messages : list (Arc LlmMessage))
    : T (list (Arc LlmMessage) * bool) :=
  let+ n := ttick in
  let+ (result, acknowledgements) := tlift (extension (te_prepare_provider_request env n send_messages)) in
  match result with
  | Provider_Block reason => tfail (Turn_ProviderBlocked reason)
  | Provider_ReplaceMessages messages =>
    tret (Arc_new <$> provider_visible_messages messages, acknowledgements)
  | Provider_AppendMessages messages =>
    tret (provider_visible_shared_messages (send_messages ++ (Arc_new <$> messages)), acknowledgements)
  | Provider_Allow => tret (send_messages, acknowledgements)
  end.

Definition token_snapshot (snapshot : ContextSnapshot) (messages : list (Arc LlmMessage)) (tools_tokens : N)
    : PromptTokenSnapshot :=
  let window := ml_max_input_tokens (te_limits env) in
  {| context_tokens := estimate_input_tokens value_to_string snapshot messages tools_tokens window;
     threshold_tokens := as_threshold_tokens (te_assembler env) window;
     max_input_tokens := window;
     max_output_tokens := ml_max_output_tokens (te_limits env) |}.

Definition prepare_stage (visible : list ToolDefinition) : T PreparedProviderRequest :=
  let+ model := snapshot_model env in
  let snapshot := context_snapshot model in
  let+ tools_tokens := tget (λ w, tools_token_estimate (tw_turn w)) in
  let+ plan := plan_auto_compaction value_to_string env snapshot visible tools_tokens in
  let+ (snapshot, messages) :=
    prepare_provider_history value_to_string base_template incremental_template to_json session_error_to_string
      env snapshot plan visible in
  let messages := request_messages snapshot messages in
  let+ reminder := tget (λ w, check_reminder (ss_dedup (tw_step w))) in
  let messages :=
    messages ++ match reminder with Some r => [Arc_new (LlmMessage_user r)] | None => [] end in
  let+ (messages, acknowledgements) := apply_before_provider_request_hook messages in
  match request_max_output_tokens (token_snapshot snapshot messages tools_tokens) (te_minimum_output_tokens env) with
  | None => tfail (Turn_Llm (ContextWindowExceeded "local context budget leaves no output capacity"))
  | Some max_output =>
    tret {| pr_messages := messages; pr_max_output_tokens := max_output; pr_acknowledgements := acknowledgements |}
  end.

Definition start_provider_stream (messages : list (Arc LlmMessage)) (tools : list ToolDefinition)
    (max_output_tokens : N) : T (list StreamInput) :=
  let request := {| rq_messages := messages; rq_tools := tools; rq_max_output_tokens := max_output_tokens |} in
  let+ n := ttick in
  run+ did (Did_request request) in
  match te_generate env n request with
  | None => tfail Turn_Aborted
  | Some (Ok input) => tret input
  | Some (Err (ContextWindowExceeded message)) => tfail (Turn_Llm (ContextWindowExceeded message))
  | Some (Err e) =>
    run+ durable_error env JSON_RPC_INTERNAL_ERROR (LlmError_to_string e) false in
    tfail (Turn_Llm e)
  end.

(** [consume_llm_stream]; a durable error event it publishes is the next interaction. *)
Definition consume_stream (message_id : string) (input : list StreamInput) : T StreamOutcome := λ w,
  let answer message :=
    env_publish (te_tools env) (ss_clock (tw_step w)) (P_ErrorOccurred JSON_RPC_INTERNAL_ERROR message false) in
  let '(r, lives) := consume_llm_stream turn_error_to_string answer message_id input in
  (run+ tmodify (add_trace ((Did_live ∘ Live_stream) <$> lives)) in
   run+ match stream_error turn_error_to_string (StreamConsumer_new message_id) input with
        | Some message =>
          if is_prompt_too_long_message message then tret tt
          else durable_error env JSON_RPC_INTERNAL_ERROR message false
        | None => tret tt
        end in
   tlift r) w.

Definition fallback_usage (input_tokens : N) (source : LlmTokenUsageSource) : LlmTokenUsage :=
  {| input_tokens := Some input_tokens; cached_input_tokens := None; cache_creation_input_tokens := None;
     input_accounting := Some Accounting_Inclusive; output_tokens := None; reasoning_output_tokens := None;
     total_tokens := None; usage_source := Some source |}.

Definition fallback_token_usage (messages : list (Arc LlmMessage)) (tools : list ToolDefinition)
    : T (option LlmTokenUsage) :=
  let+ n := ttick in
  tret (Some match te_count_input_tokens env n messages tools with
             | Ok count => fallback_usage count ProviderCountFallback
             | Err _ =>
               fallback_usage (estimate_provider_message_tokens value_to_string (arc_get <$> messages))
                 LocalEstimateFallback
             end).

Definition with_usage_fallback (outcome : StreamOutcome) (messages : list (Arc LlmMessage))
    (tools : list ToolDefinition) : T StreamOutcome :=
  match outcome with
  | Complete text reasoning finish_reason message_id started None =>
    let+ usage := fallback_token_usage messages tools in
    tret (Complete text reasoning finish_reason message_id started usage)
  | ToolCalls text reasoning calls message_id started None =>
    let+ usage := fallback_token_usage messages tools in
    tret (ToolCalls text reasoning calls message_id started usage)
  | outcome => tret outcome
  end.

Definition llm_stage (prepared : PreparedProviderRequest) (tools : list ToolDefinition) : T StreamOutcome :=
  let+ input := start_provider_stream (pr_messages prepared) tools (pr_max_output_tokens prepared) in
  let+ n := ttick in
  let+ outcome := consume_stream (te_message_id env n) input in
  with_usage_fallback outcome (pr_messages prepared) tools.

(** ** After the response *)

Definition dispatch_after_provider_response (messages : list (Arc LlmMessage)) : T unit :=
  let+ n := ttick in
  let+ result := tlift (extension (te_emit_provider env n messages)) in
  run+ match result with
       | Provider_Block reason => tfail (Turn_ProviderBlocked reason)
       | Provider_ReplaceMessages messages =>
         match extract_last_assistant_text messages with
         | Some text => turn_modify (set_final_text text)
         | None => tret tt
         end
       | Provider_AppendMessages messages =>
         let extra := extract_text_from_messages messages in
         if is_empty extra then tret tt else turn_modify (append_final_text extra)
       | Provider_Allow => tret tt
       end in
  let+ r := emit_lifecycle env AfterProviderResponse in
  tlift (extension r).

Definition response_messages (messages : list (Arc LlmMessage)) : T (list (Arc LlmMessage)) :=
  tget (λ w, transcript_response_messages (transcript (tw_turn w)) messages).

Definition prepare_batch (tool_calls : list StreamedToolCall) (visible : list ToolDefinition)
    : T (list PreparedToolInvocation) := λ w,
  let '(r, d) := prepare_tool_batch value_to_string (te_services env) (te_shared env) tool_calls
    (def_name <$> visible) (memory_of (ss_history (tw_step w))) (ss_dedup (tw_step w)) in
  tlift r (set_step (set_dedup d (tw_step w)) w).

Definition tools_stage (request : LlmRequestSnapshot) (tool_calls : list StreamedToolCall) : T unit :=
  let+ hook_messages := response_messages (lr_messages request) in
  run+ dispatch_after_provider_response hook_messages in
  let+ visible := tget (λ w, visible_tools (tw_turn w)) in
  let+ plan := prepare_batch tool_calls visible in
  run+ lift_step (declare_tool_batch (te_tools env) plan) in
  run+ acknowledge_provider_request (lr_acknowledgements request) in
  let+ discovered :=
    lift_step (execute_and_commit value_to_string debug_str encode_history turn_error_to_string parses_as_image
                 (te_services env) (te_tools env) (te_max_parallel env) plan) in
  turn_modify (activate_deferred_tools value_to_string discovered).

Definition should_continue_after_stop (assistant_text finish_reason : string) : T bool :=
  let+ count := tget (λ w, continue_after_stop_count (tw_turn w)) in
  let+ n := ttick in
  let+ decision := tlift (extension (te_continue_after_stop env n assistant_text finish_reason count)) in
  match decision with
  | ContinueOneStep => run+ turn_modify record_continue_after_stop in tret true
  | EndTurn => tret false
  end.

Definition postprocess_complete_stage (user_text finish_reason : string) (hook_messages : list (Arc LlmMessage))
    : T TurnOutput :=
  run+ dispatch_after_provider_response hook_messages in
  let+ text := tget (λ w, final_text (tw_turn w)) in
  let+ r := emit_lifecycle env (TurnEnd (Some (user_text, text))) in
  run+ tlift (extension r) in
  let+ text := tget (λ w, final_text (tw_turn w)) in
  run+ turn_modify (set_final_text "") in
  tret {| to_text := text; to_finish_reason := finish_reason |}.

Definition complete_stage (text reasoning finish_reason message_id : string) (message_started : bool)
    (usage : option LlmTokenUsage) (user_text : string) (request : LlmRequestSnapshot) : T StepOutcome :=
  let reasoning_content := non_empty_reasoning_content reasoning in
  run+ turn_modify (with_transcript (transcript_record_text text reasoning_content)) in
  run+ (if (negb (is_empty text) || match reasoning_content with Some _ => true | None => false end)
           && message_started
        then t_durable env (P_AssistantMessageCompleted (MessageId_new message_id) text reasoning_content)
        else tret tt) in
  run+ persist_token_usage usage (lr_context_window request) in
  run+ acknowledge_provider_request (lr_acknowledgements request) in
  run+ on_step_end_best_effort in
  let+ continue := should_continue_after_stop text finish_reason in
  if continue then tret Step_Continue
  else
    let+ pending := has_pending_mid_turn_user_messages in
    if pending then tret Step_Continue
    else
      let+ hook_messages := response_messages (lr_messages request) in
      let+ output := postprocess_complete_stage user_text finish_reason hook_messages in
      tret (Step_Finished output).

(** The message of a response with tool calls, with its usage. *)
Definition message_stage (text : option string) (reasoning : string) (tool_calls : list StreamedToolCall)
    (message_id : string) (message_started : bool) (usage : option LlmTokenUsage) (window : N) : T unit :=
  let reasoning_content := non_empty_reasoning_content reasoning in
  let visible_text := default "" text in
  run+ turn_modify (with_transcript (transcript_record_tool_calls parse_json visible_text reasoning_content tool_calls)) in
  run+ (if negb (bool_decide (length tool_calls = 0)) || message_started then
          run+ (if message_started then tret tt
                else live (Live_stream (Live_AssistantMessageStarted message_id))) in
          t_durable env (P_AssistantMessageCompleted (MessageId_new message_id) visible_text reasoning_content)
        else tret tt) in
  persist_token_usage usage window.

Definition tool_calls_stage (text : option string) (reasoning : string) (tool_calls : list StreamedToolCall)
    (message_id : string) (message_started : bool) (usage : option LlmTokenUsage) (request : LlmRequestSnapshot)
    : T StepOutcome :=
  run+ message_stage text reasoning tool_calls message_id message_started usage (lr_context_window request) in
  run+ tools_stage request tool_calls in
  run+ on_step_end_best_effort in
  tret Step_Continue.

(** ** Steps *)

Definition step_outcome (user_text : string) (request : LlmRequestSnapshot) (outcome : StreamOutcome)
    : T StepOutcome :=
  match outcome with
  | Complete text reasoning finish_reason message_id message_started usage =>
    if is_empty text && bool_decide (finish_reason = FINISH_REASON_LENGTH) then
      run+ (if message_started then live (Live_stream (Live_AssistantMessageReset message_id)) else tret tt) in
      recover_or_fail
    else complete_stage text reasoning finish_reason message_id message_started usage user_text request
  | ToolCalls text reasoning tool_calls message_id message_started usage =>
    tool_calls_stage text reasoning tool_calls message_id message_started usage request
  end.

Definition step_body (user_text : string) : T StepOutcome :=
  let+ mid_turn_synced := sync_mid_turn_user_messages in
  let+ r := emit_lifecycle env (StepStart mid_turn_synced) in
  run+ tlift (extension r) in
  let+ visible := tget (λ w, visible_tools (tw_turn w)) in
  on_overflow (prepare_stage visible) recover_or_fail (λ prepared,
    let request := {| lr_messages := pr_messages prepared;
                      lr_context_window := ml_max_input_tokens (te_limits env);
                      lr_acknowledgements := pr_acknowledgements prepared |} in
    on_overflow (llm_stage prepared visible) recover_or_fail (step_outcome user_text request)).

(** [state.begin_step()] with the reset of the deduplicator, and [end_step]. *)
Definition t_begin_step : T (N * N) := λ w,
  let '(step, turn) := begin_step (tw_turn w) in
  (Exec_ok step, set_step (set_dedup (dedup_begin_step (ss_dedup (tw_step w))) (tw_step w)) (set_turn turn w)).
Definition t_end_step (w : TurnWorld) : TurnWorld :=
  set_step (set_dedup (end_step (ss_dedup (tw_step w))) (tw_step w)) w.

Definition outcome_finish_reason (o : StepOutcome) : option string :=
  match o with Step_Continue => None | Step_Finished output => Some (to_finish_reason output) end.

Definition run_one_step (user_text : string) : T StepOutcome :=
  let+ (step_index, attempt) := t_begin_step in
  run+ t_durable env (P_StepStarted step_index attempt) in
  λ w,
  match step_body user_text w with
  | (Exec_ok outcome, w) =>
    (run+ t_durable env (P_StepCompleted step_index attempt (outcome_finish_reason outcome)) in
     tret outcome) (t_end_step w)
  | (Exec_err e, w) => (Exec_err e, t_end_step w)
  | (Exec_blocked, w) => (Exec_blocked, w)
  end.

Fixpoint turn_steps (fuel : nat) (user_text : string) : T TurnOutput :=
  match fuel with
  | O => λ w, (Exec_blocked, w)
  | S fuel =>
    run+ check_aborted in
    let+ outcome := run_one_step user_text in
    match outcome with
    | Step_Continue => turn_steps fuel user_text
    | Step_Finished output => tret output
    end
  end.

(** ** The turn *)

(** [publisher.snapshot_model()] whose failure only loses the step to resume. *)
Definition initial_active_step : T (option execution.ActiveStepView) :=
  let+ n := ttick in
  match te_read_model env n with
  | Ok m => run+ did (Did_read m) in tret (execution.active_step (execution_ m))
  | Err _ => tret None
  end.

Definition begin_turn (tools : list ToolSnapshot) (active_step : option execution.ActiveStepView) : T unit :=
  tmodify (λ w, set_step (set_dedup ToolCallDeduplicator_new (tw_step w))
                  (set_turn (TurnState_new value_to_string tools active_step) w)).

Definition process_prompt_inner (fuel : nat) (tools : list ToolSnapshot) (user_text : string) : T TurnOutput :=
  let+ turn_start := emit_lifecycle env TurnStart in
  let+ prompt_submit := emit_lifecycle env UserPromptSubmit in
  run+ tlift (extension turn_start) in
  run+ tlift (extension prompt_submit) in
  let+ active_step := initial_active_step in
  run+ begin_turn tools active_step in
  turn_steps fuel user_text.

Definition shutdown_ingress (r : exec TurnOutput) : T TurnOutput :=
  let+ n := ttick in
  match r, te_ingress_shutdown env n with
  | Exec_ok output, Ok _ => tret output
  | Exec_ok _, Err e => tfail e
  | Exec_err e, _ => tfail e
  | Exec_blocked, _ => λ w, (Exec_blocked, w)
  end.

Definition process_prompt (fuel : nat) (tools : list ToolSnapshot) (user_text : string) : T TurnOutput := λ w,
  match process_prompt_inner fuel tools user_text w with
  | (Exec_err e, w) => (run+ emit_lifecycle env (TurnEnd None) in shutdown_ingress (Exec_err e)) w
  | (Exec_ok output, w) => shutdown_ingress (Exec_ok output) w
  | (Exec_blocked, w) => (Exec_blocked, w)
  end.

Definition run_turn_result (output : result TurnOutput TurnError) (emitted_error : bool) : RunTurnResult :=
  {| rt_output := output;
     rt_finalization :=
       {| tf_finish_reason :=
            match output with
            | Ok output => to_finish_reason output
            | Err Turn_Aborted => TURN_FINISH_ABORTED
            | Err _ => TURN_FINISH_ERROR
            end;
          tf_pending_error :=
            match output, emitted_error with
            | Err Turn_Aborted, _ => None
            | _, true => None
            | Ok _, false => None
            | Err e, false => Some (turn_error_to_string e)
            end;
          tf_aborted := match output with Err Turn_Aborted => true | _ => false end;
          tf_terminal_persisted := false |} |}.

(** [run_turn] with [drive_agent]: the publisher of the turn starts without an error; [None] is
    a turn that does not end. *)
Definition run_turn (fuel : nat) (tools : list ToolSnapshot) (user_text : string) (w : TurnWorld)
    : option RunTurnResult * TurnWorld :=
  let w := {| tw_step := tw_step w; tw_turn := tw_turn w; tw_breaker := tw_breaker w;
              tw_emitted_error := false; tw_trace := tw_trace w |} in
  match process_prompt fuel tools user_text w with
  | (Exec_ok output, w) => (Some (run_turn_result (Ok output) (tw_emitted_error w)), w)
  | (Exec_err e, w) => (Some (run_turn_result (Err e) (tw_emitted_error w)), w)
  | (Exec_blocked, w) => (None, w)
  end.
End turn.
