(* ===== verification/TurnFrame.v ===== *)
(** * What the parts of a turn leave alone

    A step consists of many operations; a theorem about turns is about few of them.  This file
    shows once that all operations of a step keep a relation of worlds, if its basic actions
    do: the theorems of [TurnProofs] instantiate the relation.

    The second chapter: that every operation of a step ends. *)

From S2P Require Import Prelude Utf8 CoreTypes CoreLlm CoreLlmProtocol CoreEvent ProjViews ProjContext ProjReducer StoreTypes TurnFinalize StdPath StdStr PermPolicy ToolPrepare ToolExecute TurnStream CtxText CtxTokens CtxCompact SessBreaker TurnWorld SessCompact TurnLoop.

(** ** The tool pipeline *)

(** The events of the execution of calls, and those that declare them. *)
Definition exec_event (p : DurableEventPayload) : bool :=
  match p with
  | P_ToolCallCompleted _ _ _ _ _ | P_ToolCallFailed _ _ _ _ _ _ _
  | P_ToolCallCancelled _ _ _ _ _ _ | P_ToolApprovalRequested _ _ _ _ _ _ | P_ToolApprovalResolved _ _ _ => true
  | _ => false
  end.

Definition request_event (p : DurableEventPayload) : bool :=
  match p with P_ToolCallRequested _ _ _ _ => true | _ => false end.

Section grows.
  Context (P : DurableEventPayload → bool).

(** The pipeline publishes events, runs tools, and lets time pass. *)
Record step_grows (s s' : StepState) : Prop := {
  sg_clock : ss_clock s ≤ ss_clock s';
  sg_log : ∃ l, ss_log s' = ss_log s ++ l ∧ Forall (λ p, P p = true) l;
  sg_executed : ∃ x, ss_executed s' = ss_executed s ++ x;
}.

#[global] Instance step_grows_preorder : PreOrder step_grows.
Proof.
  split.
  - intros s. split; [done|exists []; by rewrite app_nil_r|exists []; by rewrite app_nil_r].
  - intros s s1 s2 [Hc1 (l1 & Hl1 & F1) (x1 & Hx1)] [Hc2 (l2 & Hl2 & F2) (x2 & Hx2)]. split; [lia|..].
    + exists (l1 ++ l2). split; [by rewrite Hl2, Hl1, app_assoc|by apply Forall_app].
    + exists (x1 ++ x2). by rewrite Hx2, Hx1, app_assoc.
Qed.

Definition grows {A} (m : M A) : Prop := ∀ s, step_grows s (m s).2.

Lemma grows_ret {A} (a : A) : grows (mret a).
Proof. intros s. simpl. reflexivity. Qed.
Lemma grows_fail {A} e : grows (mfail (A := A) e).
Proof. intros s. simpl. reflexivity. Qed.
Lemma grows_block {A} : grows (mblock (A := A)).
Proof. intros s. simpl. reflexivity. Qed.
Lemma grows_get {A} (f : StepState → A) : grows (mget f).
Proof. intros s. simpl. reflexivity. Qed.
Lemma grows_lift {A} (r : result A TurnError) : grows (mlift r).
Proof. destruct r; [apply grows_ret|apply grows_fail]. Qed.
Lemma grows_then {A B} (m : M A) (f : A → M B) : grows m → (∀ a, grows (f a)) → grows (mthen m f).
Proof.
  intros Hm Hf s. unfold mthen. specialize (Hm s). destruct (m s) as [[a|e|] s1]; [|done..].
  simpl in Hm. etrans; [exact Hm|]. apply Hf.
Qed.
Lemma grows_tick : grows tick.
Proof. intros s. split; [simpl; lia|exists []; by rewrite app_nil_r|exists []; by rewrite app_nil_r]. Qed.
Lemma grows_modify f :
  (∀ s, ss_clock (f s) = ss_clock s ∧ ss_log (f s) = ss_log s ∧ ∃ x, ss_executed (f s) = ss_executed s ++ x) →
  grows (mmodify f).
Proof.
  intros Hf s. destruct (Hf s) as (Hc & Hl & Hx). split; simpl; [lia| |done]. exists []. by rewrite app_nil_r.
Qed.
Lemma grows_durable env p : P p = true → grows (durable env p).
Proof.
  intros Hp. unfold durable. apply grows_then; [apply grows_tick|]. intros n.
  apply grows_then; [apply grows_lift|]. intros [] s. split; simpl; [done| |exists []; by rewrite app_nil_r].
  exists [p]. split; [done|by repeat constructor].
Qed.

End grows.

Create HintDb grows.
#[export] Hint Resolve grows_ret grows_fail grows_block grows_get grows_lift grows_tick : grows.

Ltac grow :=
  repeat first
    [ solve [eauto 1 with grows]
    | apply grows_durable; reflexivity
    | apply grows_modify; intros ?; by split_and!; [..|exists []; rewrite app_nil_r]
    | apply grows_then; [|intros ?]
    | case_match ].

Section tools.
  Context (value_to_string : Value → string) (debug_str : string → string)
    (encode_history : ApprovalHistoryFile → string)
    (turn_error_to_string : TurnError → string) (parses_as_image : string → bool).
  Context (services : ToolServices) (env : Environment) (max_parallel : N).

Lemma grows_declare calls : grows request_event (declare_tool_batch env calls).
Proof. induction calls; simpl; unfold declare_tool_call; grow. Qed.

Lemma grows_finish call outcome : grows exec_event (finish_tool_call value_to_string env call outcome).
Proof. unfold finish_tool_call. destruct (tool_call_completion_arguments _ _ _). apply grows_durable. by destruct outcome. Qed.
#[local] Hint Resolve grows_finish : grows.

Lemma grows_settle calls outcomes : grows exec_event (settle_outcomes services env calls outcomes).
Proof. revert outcomes. induction calls; intros outcomes; simpl; unfold apply_post_tool_use; grow. Qed.

Lemma grows_persist pending : grows exec_event (persist_outcomes debug_str parses_as_image env pending).
Proof. induction pending; simpl; unfold persist_large_tool_result, persist_tool_result; grow. Qed.

Lemma grows_finish_outcomes pending : grows exec_event (finish_outcomes value_to_string env pending).
Proof. induction pending; simpl; grow. Qed.
#[local] Hint Resolve grows_settle grows_persist grows_finish_outcomes : grows.

Lemma grows_commit calls outcomes :
  grows exec_event (commit_tool_outcomes value_to_string debug_str parses_as_image services env calls outcomes).
Proof. unfold commit_tool_outcomes. grow. Qed.

Lemma grows_cancelled : grows exec_event (is_cancelled env).
Proof. unfold is_cancelled. grow. Qed.
#[local] Hint Resolve grows_commit grows_cancelled : grows.

Lemma grows_execute call : grows exec_event (execute_tool_call env call).
Proof.
  unfold execute_tool_call. grow. apply grows_modify. intros s. by split_and!; [..|eexists].
Qed.
#[local] Hint Resolve grows_execute : grows.

Lemma grows_spawn n pending running : grows exec_event (spawn_first env n pending running).
Proof. revert n running. induction pending; intros [|n] running; simpl; grow. Qed.

Lemma grows_join fuel running pending outcomes : grows exec_event (join_loop env fuel running pending outcomes).
Proof. revert running pending outcomes. induction fuel; intros running pending outcomes; simpl; grow. Qed.
#[local] Hint Resolve grows_spawn grows_join : grows.

Lemma grows_history key d : grows exec_event (record_history encode_history env key d).
Proof. unfold record_history. grow. Qed.
#[local] Hint Resolve grows_history : grows.

Lemma grows_approvals call approvals : grows exec_event (request_approvals_and_resolve encode_history env call approvals).
Proof. induction approvals; simpl; unfold execute_single_tool; grow. Qed.
#[local] Hint Resolve grows_approvals : grows.

Lemma grows_loop batch calls :
  grows exec_event (execute_loop value_to_string debug_str encode_history parses_as_image services env max_parallel batch calls).
Proof.
  revert batch. induction calls; intros batch; simpl;
    unfold flush_and_commit, flush_parallel_batch, commit_single_outcome, resolve_call, await_duplicate,
      execute_single_tool; grow.
Qed.

Lemma grows_complete error calls : grows exec_event (complete_pending value_to_string turn_error_to_string env error calls).
Proof.
  induction calls as [|c calls IH]; simpl; [grow|]. apply grows_then; [grow|]. intros u. destruct (bool_decide _); [done|].
  intros s. pose proof (grows_finish c (match error with Turn_Aborted => outcome_cancelled "turn aborted before tool completion" None
     | other => outcome_failed ("tool orchestration failed before completion: " +:+ turn_error_to_string other) end) s) as H.
  destruct (finish_tool_call _ _ _ _ _) as [[a|e|] s1]; simpl in H; [|by etrans; [exact H|apply IH]|done].
  etrans; [exact H|]. revert s1 H. cut (grows exec_event (mthen (mmodify (λ s, set_uncommitted (ss_uncommitted s ∖ {[pi_call_id c]}) s))
    (λ _, complete_pending value_to_string turn_error_to_string env error calls))); [intros G s1 _; apply G|]. grow.
Qed.

Lemma grows_execute_and_commit calls :
  grows exec_event (execute_and_commit value_to_string debug_str encode_history turn_error_to_string parses_as_image services
           env max_parallel calls).
Proof.
  intros s. unfold execute_and_commit, execute_declared_batch. set (s0 := set_uncommitted _ s).
  assert (step_grows exec_event s s0) as H0 by (split; [done|exists []; by rewrite app_nil_r|exists []; by rewrite app_nil_r]).
  pose proof (grows_loop [] calls s0) as H. revert H. destruct (execute_loop _ _ _ _ _ _ _ _ _ _) as [[a|e|] s1]; simpl;
    intros H; [by etrans| |by etrans].
  pose proof (grows_complete e calls s1) as H1. destruct (complete_pending _ _ _ _ _ _) as [[a|e'|] s2]; simpl in *;
    (etrans; [exact H0|]; etrans; [exact H|exact H1]).
Qed.
End tools.

(** ** The operations of a step *)

(** Actions without a theorem of their own. *)
Definition quiet_event (p : DurableEventPayload) : bool :=
  match p with P_StepStarted _ _ | P_StepCompleted _ _ _ | P_ErrorOccurred _ _ _ => false | _ => true end.

Definition quiet (a : TurnAction) : bool :=
  match a with
  | Did_durable p => quiet_event p
  | Did_request _ => false
  | Did_pre_compact Trigger_ReactivePromptTooLong => false
  | _ => true
  end.

(** Those outside the tool pipeline. *)
Definition idle_event (p : DurableEventPayload) : bool :=
  quiet_event p && negb (exec_event p) && negb (request_event p).

Definition idle (a : TurnAction) : bool :=
  match a with Did_durable p => idle_event p | Did_run _ => false | a => quiet a end.

Lemma idle_quiet l : Forall (λ a, idle a = true) l → Forall (λ a, quiet a = true) l.
Proof. intros Hl. eapply Forall_impl; [exact Hl|]. by intros [[]| | | | | | | |]. Qed.

Ltac quietly := first [assumption | apply idle_quiet; assumption].

(** What the operations of a step change in the state of the turn. *)
Definition turn_frame (value_to_string : Value → string) (t t' : TurnState) : Prop :=
  next_step_index t' = next_step_index t ∧ resumed_attempt t' = resumed_attempt t
  ∧ reactive_compact_used t' = reactive_compact_used t
  ∧ (tools_ok value_to_string t → tools_ok value_to_string t').

(** Time passes and events are published, outside the tool pipeline. *)
Definition idle_step (s s' : StepState) : Prop :=
  ss_clock s ≤ ss_clock s' ∧ ss_dedup s' = ss_dedup s ∧ ss_history s' = ss_history s
  ∧ ss_executed s' = ss_executed s ∧ ∃ l, ss_log s' = ss_log s ++ l.

Definition overflow (e : TurnError) : bool :=
  match e with Turn_Llm (ContextWindowExceeded _) => true | _ => false end.

Section frame.
  Context (value_to_string : Value → string) (base_template incremental_template : string)
    (debug_str : string → string) (parse_json : string → option Value).
  Context (encode_history : ApprovalHistoryFile → string) (parses_as_image : string → bool).
  Context (to_json : LlmMessage → result string string)
    (session_error_to_string : SessionError → string) (turn_error_to_string : TurnError → string).
  Context (env : TurnEnv).

  (** The relation of an operation that ends well, and the one of an operation that fails. *)
  Context (R : relation TurnWorld) (E : TurnWorld → TurnError → TurnWorld → Prop) `{!PreOrder R}.
  Context (E_of_R : ∀ w e w', R w w' → E w e w')
    (E_trans : ∀ w w1 e w2, R w w1 → E w1 e w2 → E w e w2)
    (E_overflow : ∀ w e w', overflow e = true → E w e w' → R w w').
  Context (R_idle : ∀ w s l, idle_step (tw_step w) s → Forall (λ a, idle a = true) l →
      R w (add_trace l (set_step s w)))
    (R_turn : ∀ w t, turn_frame value_to_string (tw_turn w) t → R w (set_turn t w))
    (R_breaker : ∀ w b, R w (set_breaker b w)).

Definition keeps {A} (m : T A) : Prop := ∀ w,
  match m w with
  | (Exec_ok _, w') | (Exec_blocked, w') => R w w'
  | (Exec_err e, w') => E w e w'
  end.

Lemma keeps_ret {A} (a : A) : keeps (tret a).
Proof. intros w. simpl. reflexivity. Qed.
Lemma keeps_fail {A} e : keeps (tfail (A := A) e).
Proof. intros w. simpl. apply E_of_R. reflexivity. Qed.
Lemma keeps_lift {A} (r : result A TurnError) : keeps (tlift r).
Proof. destruct r; [apply keeps_ret|apply keeps_fail]. Qed.
Lemma keeps_get {A} (f : TurnWorld → A) : keeps (tget f).
Proof. intros w. simpl. reflexivity. Qed.

Lemma keeps_step {A} (m : T A) (w : TurnWorld) w1 :
  R w w1 →
  match m w1 with
  | (Exec_ok _, w') | (Exec_blocked, w') => R w1 w'
  | (Exec_err e, w') => E w1 e w'
  end →
  match m w1 with
  | (Exec_ok _, w') | (Exec_blocked, w') => R w w'
  | (Exec_err e, w') => E w e w'
  end.
Proof. intros HR. destruct (m w1) as [[a|e|] w2]; [by intros; etrans|by apply E_trans|by intros; etrans]. Qed.

Lemma keeps_then {A B} (m : T A) (f : A → T B) : keeps m → (∀ a, keeps (f a)) → keeps (tthen m f).
Proof.
  intros Hm Hf w. unfold tthen. specialize (Hm w). destruct (m w) as [[a|e|] w1]; [|done..].
  apply keeps_step; [done|]. apply Hf.
Qed.

(** The continuation may use what [m] guarantees. *)
Lemma keeps_then_post {A B} (Q : A → Prop) (m : T A) (f : A → T B) :
  keeps m → (∀ w a w', m w = (Exec_ok a, w') → Q a) → (∀ a, Q a → keeps (f a)) → keeps (tthen m f).
Proof.
  intros Hm HQ Hf w. unfold tthen. specialize (Hm w). destruct (m w) as [[a|e|] w1] eqn:Hw; [|done..].
  apply keeps_step; [done|]. apply Hf. by eapply HQ.
Qed.

Lemma idle_tick s : idle_step s (tick s).2.
Proof. split_and!; simpl; [lia|done..|exists []; by rewrite app_nil_r]. Qed.

Lemma keeps_tick : keeps ttick.
Proof.
  intros w. unfold ttick. pose proof (R_idle w (tick (tw_step w)).2 [] (idle_tick _) (Forall_nil_2 _)) as H.
  destruct w. unfold add_trace, set_step in *. simpl in *. by rewrite app_nil_r in H.
Qed.

Lemma idle_refl s : idle_step s s.
Proof. split_and!; try done. exists []. by rewrite app_nil_r. Qed.

Lemma keeps_trace l : Forall (λ a, idle a = true) l → keeps (tmodify (add_trace l)).
Proof.
  intros Hl w. simpl. pose proof (R_idle w (tw_step w) l (idle_refl _) Hl) as H. by destruct w.
Qed.

Lemma keeps_did a : idle a = true → keeps (did a).
Proof. intros Ha. apply keeps_trace. by repeat constructor. Qed.

Lemma keeps_turn_modify f : (∀ t, turn_frame value_to_string t (f t)) → keeps (turn_modify f).
Proof. intros Hf w. simpl. apply R_turn, Hf. Qed.

Lemma keeps_durable p : idle_event p = true → keeps (t_durable env p).
Proof.
  intros Hp w. unfold t_durable, lift_step, durable, mthen. simpl.
  destruct (env_publish _ _ _) as [[]|e]; simpl.
  - rewrite drop_all, drop_app_length. simpl. apply R_idle; [|by repeat constructor].
    split_and!; simpl; [lia|done..|by eexists].
  - rewrite !drop_all. simpl. apply E_of_R, R_idle; [|constructor].
    split_and!; simpl; [lia|done..|exists []; by rewrite app_nil_r].
Qed.

Create HintDb keeps.
#[local] Hint Resolve keeps_ret keeps_fail keeps_lift keeps_get keeps_tick keeps_did keeps_durable : keeps.

Ltac keep :=
  repeat first
    [ solve [eauto 1 with keeps]
    | apply keeps_did; reflexivity
    | apply keeps_durable; reflexivity
    | apply keeps_turn_modify; intros ?; by split_and!; [..|intros []; split]
    | apply keeps_then; [|intros ?]
    | case_match; simplify_eq ].

Lemma keeps_snapshot : keeps (snapshot_model env).
Proof. unfold snapshot_model. keep. Qed.
Lemma keeps_sync : keeps (sync_durable env).
Proof. unfold sync_durable. keep. Qed.
Lemma keeps_lifecycle e : keeps (emit_lifecycle env e).
Proof. unfold emit_lifecycle. keep. Qed.
Lemma keeps_now : keeps (now env).
Proof. unfold now. keep. Qed.
#[local] Hint Resolve keeps_snapshot keeps_sync keeps_lifecycle keeps_now : keeps.

Lemma keeps_cancelled : keeps (t_cancelled env).
Proof.
  intros w. unfold t_cancelled, lift_step, is_cancelled, mthen. simpl. rewrite !drop_all. simpl.
  apply R_idle; [|constructor]. apply idle_tick.
Qed.

Lemma keeps_absorb l : keeps (absorb_inputs env l).
Proof. induction l; simpl; unfold absorb_input; keep. Qed.
#[local] Hint Resolve keeps_cancelled keeps_absorb : keeps.

Lemma keeps_check_aborted : keeps (check_aborted env).
Proof. unfold check_aborted. keep. Qed.
Lemma keeps_sync_mid_turn : keeps (sync_mid_turn_user_messages env).
Proof. unfold sync_mid_turn_user_messages. keep. Qed.
Lemma keeps_has_pending : keeps (has_pending_mid_turn_user_messages env).
Proof. unfold has_pending_mid_turn_user_messages. keep. Qed.
Lemma keeps_usage usage window : keeps (persist_token_usage env usage window).
Proof.
  unfold persist_token_usage. keep. apply keeps_turn_modify. intros t. unfold record_step_input_tokens.
  case_bool_decide; by split_and!; [..|intros []; split].
Qed.
Lemma keeps_acknowledge b : keeps (acknowledge_provider_request env b).
Proof. unfold acknowledge_provider_request. keep. Qed.
Lemma keeps_step_end : keeps (on_step_end_best_effort env).
Proof. unfold on_step_end_best_effort. keep. Qed.
#[local] Hint Resolve keeps_check_aborted keeps_sync_mid_turn keeps_has_pending keeps_usage keeps_acknowledge
  keeps_step_end : keeps.

(** *** Compaction within a step *)

Lemma keeps_try_count messages tools : keeps (try_provider_input_tokens env messages tools).
Proof. unfold try_provider_input_tokens. keep. Qed.
#[local] Hint Resolve keeps_try_count : keeps.

Lemma keeps_plan snapshot tools n : keeps (plan_auto_compaction value_to_string env snapshot tools n).
Proof. unfold plan_auto_compaction. keep. Qed.
Lemma keeps_persist c snapshot strategy : keeps (persist_compaction to_json env c snapshot strategy).
Proof. unfold persist_compaction. keep. Qed.
Lemma keeps_counts tools snapshot c : keeps (update_compaction_token_counts env tools snapshot c).
Proof. unfold update_compaction_token_counts. keep. Qed.
#[local] Hint Resolve keeps_plan keeps_persist keeps_counts : keeps.

Lemma keeps_compact_snapshot strategy use_llm tools contributions s path :
  keeps (compact_snapshot value_to_string base_template incremental_template to_json env strategy use_llm tools
           contributions s path).
Proof. unfold compact_snapshot, execute_compaction, dispatch_post_compact. keep. Qed.
#[local] Hint Resolve keeps_compact_snapshot : keeps.

(** A compaction is announced to the hooks, a reactive one by an action that is not quiet. *)
Definition announced (strategy : CompactStrategy) : Prop :=
  ∀ w, R w (add_trace [Did_pre_compact (CompactStrategy_trigger strategy)] w).

Lemma announced_auto : announced Strategy_Auto.
Proof. intros w. by apply (keeps_did (Did_pre_compact Trigger_AutoThreshold)). Qed.

Lemma keeps_pipeline strategy use_llm probe tools :
  announced strategy →
  keeps (pipeline_run value_to_string base_template incremental_template to_json session_error_to_string env strategy
           use_llm probe tools).
Proof.
  intros Hq. unfold pipeline_run, run_inner, collect_compact_contributions, live.
  apply keeps_then; [apply keeps_did; reflexivity|intros _]. apply keeps_then; [|intros o; keep].
  apply keeps_then; [|intros r; keep]. apply keeps_then; [keep|intros n].
  apply keeps_then; [intros w; apply Hq|intros _; keep].
Qed.

Lemma keeps_permit : keeps (acquire_permit env).
Proof.
  unfold acquire_permit. apply keeps_then; [keep|]. intros t w. destruct (should_attempt t _) as [b c]. apply R_breaker.
Qed.
Lemma keeps_finish_permit o : keeps (finish_permit env o).
Proof. unfold finish_permit. apply keeps_then; [keep|]. intros t w. apply R_breaker. Qed.
#[local] Hint Resolve keeps_permit keeps_finish_permit : keeps.

Lemma keeps_run_compaction probe plan tools :
  announced (plan_strategy plan) →
  keeps (run_compaction value_to_string base_template incremental_template to_json session_error_to_string env probe
           plan tools).
Proof.
  intros Hq. unfold run_compaction. apply keeps_then; [keep|intros permit].
  apply keeps_then; [by apply keeps_pipeline|intros o]. keep.
Qed.

Lemma keeps_recover :
  announced Strategy_ReactivePromptTooLong → (∀ w, R w (set_turn (mark_reactive_compact_used (tw_turn w)) w)) →
  keeps (recover_or_fail value_to_string base_template incremental_template to_json session_error_to_string env).
Proof.
  intros Ha Hm. unfold recover_or_fail, recover_context_overflow, run_reactive_compaction.
  apply keeps_then; [|intros ?; keep]. apply keeps_then; [keep|intros used]. destruct used; [keep|].
  apply keeps_then; [intros w; apply Hm|intros _]. apply keeps_then; [keep|intros m]. apply keeps_then; [keep|intros t].
  apply keeps_then; [by apply keeps_run_compaction|intros [? ?]; keep].
Qed.

(** *** The request *)

Lemma plan_is_auto snapshot tools n w plan w' :
  plan_auto_compaction value_to_string env snapshot tools n w = (Exec_ok (Some plan), w') →
  plan_strategy plan = Strategy_Auto.
Proof.
  unfold plan_auto_compaction. destruct (negb _); [done|]. unfold tthen.
  intros H. repeat case_match; try done; unfold tret in H; by simplify_eq.
Qed.

Lemma keeps_history snapshot plan tools :
  (∀ p, plan = Some p → plan_strategy p = Strategy_Auto) →
  keeps (prepare_provider_history value_to_string base_template incremental_template to_json session_error_to_string
           env snapshot plan tools).
Proof.
  intros Hplan. unfold prepare_provider_history. apply keeps_then; [|intros s; keep].
  destruct plan as [plan|]; [|keep]. apply keeps_then; [|intros [? ?]; keep].
  apply keeps_run_compaction. rewrite (Hplan plan) by done. apply announced_auto.
Qed.

Lemma keeps_before_request messages : keeps (apply_before_provider_request_hook env messages).
Proof. unfold apply_before_provider_request_hook. keep. Qed.
#[local] Hint Resolve keeps_before_request : keeps.

Lemma keeps_prepare visible :
  keeps (prepare_stage value_to_string base_template incremental_template to_json session_error_to_string env visible).
Proof.
  unfold prepare_stage. apply keeps_then; [keep|intros m]. apply keeps_then; [keep|intros n].
  apply (keeps_then_post (λ plan, ∀ p, plan = Some p → plan_strategy p = Strategy_Auto)); [keep| |].
  { intros w plan w' H p ->. by eapply plan_is_auto. }
  intros plan Hplan. apply keeps_then; [by apply keeps_history|intros [s messages]]. keep.
Qed.
#[local] Hint Resolve keeps_prepare : keeps.

(** Requests, errors and the recovery have theorems of their own. *)
Context (good : LlmRequest → Prop)
  (R_request : ∀ w r, good r → R w (add_trace [Did_request r] w))
  (R_error : ∀ A m e, overflow (Turn_Llm e) = false →
     keeps (A := A) (tthen (durable_error env JSON_RPC_INTERNAL_ERROR m false) (λ _, tfail (Turn_Llm e)))).

Lemma keeps_stream messages tools max_output :
  good {| rq_messages := messages; rq_tools := tools; rq_max_output_tokens := max_output |} →
  keeps (start_provider_stream env messages tools max_output).
Proof.
  intros Hg. unfold start_provider_stream. apply keeps_then; [keep|intros n].
  apply keeps_then; [intros w; by apply R_request|intros _].
  destruct (te_generate _ _ _) as [[input|e]|]; [keep| |keep].
  destruct e; try (by apply R_error). keep.
Qed.

Lemma consume_loop_error answer c input message :
  stream_error turn_error_to_string c input = Some message → is_prompt_too_long_message message = false →
  answer message = Ok tt →
  (consume_loop turn_error_to_string answer c input).1 = Err (Turn_Llm (StreamParse message)).
Proof.
  intros He Ht Ha. revert c He. induction input as [|[|event] input IH]; intros c He; [done..|].
  destruct (consume_event turn_error_to_string (λ _, Ok tt) c event) as [st live] eqn:Hce.
  assert ((∃ m, event = Error m) ∨ consume_event turn_error_to_string answer c event = (st, live)
    ∧ stream_error turn_error_to_string c (Received event :: input)
      = match st with inl c => stream_error turn_error_to_string c input | inr _ => None end) as [[m ->]|[Hev Hse]].
  { destruct event; try (right; split; [exact Hce|cbn [stream_error]; rewrite Hce; by destruct st]).
    left. by eexists. }
  - simpl in He. injection He as ->. cbn [consume_loop consume_event]. unfold handle_error. by rewrite Ht, Ha.
  - rewrite Hse in He. destruct st as [c'|]; [|done]. cbn [consume_loop]. rewrite Hev.
    specialize (IH c' He). by destruct (consume_loop _ _ c' input).
Qed.

Lemma keeps_consume message_id input : keeps (consume_stream turn_error_to_string env message_id input).
Proof.
  intros w. unfold consume_stream, consume_llm_stream.
  set (answer := λ message, env_publish _ _ _). set (c := StreamConsumer_new message_id).
  destruct (consume_loop turn_error_to_string answer c input) as [r lives] eqn:Hc.
  set (w1 := add_trace ((Did_live ∘ Live_stream) <$> lives) w).
  assert (R w w1) as HR.
  { apply (keeps_trace ((Did_live ∘ Live_stream) <$> lives)). rewrite Forall_fmap. by apply Forall_true. }
  unfold tthen at 1. unfold tmodify. fold w1. apply keeps_step; [done|].
  destruct (stream_error _ _ _) as [message|] eqn:Hs; [|apply (keeps_then _ (λ _, tlift r)); keep].
  destruct (is_prompt_too_long_message message) eqn:Ht; [apply (keeps_then _ (λ _, tlift r)); keep|].
  pose proof (R_error StreamOutcome message (StreamParse message) eq_refl w1) as H.
  unfold tthen in *. unfold durable_error in *. unfold tthen in *.
  destruct (t_durable env _ w1) as [[u|e|] w2] eqn:Hd; simpl in *; [|done..].
  pose proof (consume_loop_error answer c input message Hs Ht) as Herr. rewrite Hc in Herr. simpl in Herr.
  rewrite Herr; [done|]. unfold answer. revert Hd. unfold t_durable, lift_step, durable, mthen. simpl.
  destruct (env_publish _ _ _) as [[]|]; [done|]. by simpl.
Qed.
#[local] Hint Resolve keeps_consume : keeps.

Lemma keeps_llm prepared visible :
  good {| rq_messages := pr_messages prepared; rq_tools := visible;
          rq_max_output_tokens := pr_max_output_tokens prepared |} →
  keeps (llm_stage value_to_string turn_error_to_string env prepared visible).
Proof.
  intros Hg. unfold llm_stage. apply keeps_then; [by apply keeps_stream|intros input].
  unfold with_usage_fallback, fallback_token_usage. keep.
Qed.

(** *** After the response *)

Lemma keeps_dispatch messages : keeps (dispatch_after_provider_response env messages).
Proof. unfold dispatch_after_provider_response. keep. Qed.
Lemma keeps_continue text reason : keeps (should_continue_after_stop env text reason).
Proof. unfold should_continue_after_stop. keep. Qed.
#[local] Hint Resolve keeps_dispatch keeps_continue : keeps.

Lemma keeps_complete_stage text reasoning reason id started usage user request :
  keeps (complete_stage env text reasoning reason id started usage user request).
Proof. unfold complete_stage, postprocess_complete_stage, response_messages. keep. Qed.

Lemma keeps_message_stage text reasoning calls id started usage window :
  keeps (message_stage parse_json env text reasoning calls id started usage window).
Proof. unfold message_stage, live. keep. Qed.
#[local] Hint Resolve keeps_complete_stage keeps_message_stage : keeps.

(** *** Tools *)

Context (R_tools : ∀ w s l, ss_clock (tw_step w) ≤ ss_clock s → Forall (λ a, quiet a = true) l →
  R w (add_trace l (set_step s w))).

Lemma keeps_lift_step {A} (P : DurableEventPayload → bool) (m : M A) :
  (∀ p, P p = true → quiet_event p = true) → grows P m → keeps (lift_step m).
Proof.
  intros Hq Hm w. specialize (Hm (tw_step w)). unfold lift_step. destruct (m (tw_step w)) as [r s]. simpl in Hm.
  assert (R w (add_trace ((Did_run <$> drop (length (ss_executed (tw_step w))) (ss_executed s))
      ++ (Did_durable <$> drop (length (ss_log (tw_step w))) (ss_log s))) (set_step s w))) as HR.
  { destruct Hm as [Hc (l & -> & Hl) (x & ->)]. rewrite !drop_app_length. apply R_tools; [done|].
    apply Forall_app. rewrite !Forall_fmap. split; [by apply Forall_true|].
    eapply Forall_impl; [exact Hl|]. intros p Hp. by apply Hq. }
  destruct r; [done|by apply E_of_R|done].
Qed.

Lemma keeps_prepare_batch calls visible : keeps (prepare_batch value_to_string env calls visible).
Proof.
  intros w. unfold prepare_batch. destruct (prepare_tool_batch _ _ _ _ _ _ _) as [r d].
  assert (R w (set_step (set_dedup d (tw_step w)) w)) as HR.
  { pose proof (R_tools w (set_dedup d (tw_step w)) [] (le_n _) (Forall_nil_2 _)) as H. revert H.
    destruct w. unfold add_trace, set_step. simpl. by rewrite app_nil_r. }
  destruct r; simpl; [done|by apply E_of_R].
Qed.
Lemma keeps_declare calls : keeps (lift_step (declare_tool_batch (te_tools env) calls)).
Proof. eapply keeps_lift_step; [|apply grows_declare]. by intros []. Qed.
Lemma keeps_execute calls :
  keeps (lift_step (execute_and_commit value_to_string debug_str encode_history turn_error_to_string parses_as_image
    (te_services env) (te_tools env) (te_max_parallel env) calls)).
Proof. eapply keeps_lift_step; [|apply grows_execute_and_commit]. by intros []. Qed.
#[local] Hint Resolve keeps_prepare_batch keeps_declare keeps_execute : keeps.

Lemma keeps_tools_stage request calls :
  keeps (tools_stage value_to_string debug_str encode_history parses_as_image turn_error_to_string env request calls).
Proof.
  unfold tools_stage, response_messages. keep.
  apply keeps_turn_modify. intros t. pose proof (activate_tools_ok value_to_string a5 t) as Hok.
  assert (turn_frame value_to_string t t) as (H1 & H2 & H3 & _) by done. unfold activate_deferred_tools in *.
  destruct (activate_deferred _ _ _) as [b []]; by split_and!; [..|intros H; apply Hok].
Qed.
#[local] Hint Resolve keeps_tools_stage : keeps.

Lemma keeps_tool_calls_stage text reasoning calls id started usage request :
  keeps (tool_calls_stage value_to_string debug_str parse_json encode_history parses_as_image turn_error_to_string env
           text reasoning calls id started usage request).
Proof. unfold tool_calls_stage. keep. Qed.
#[local] Hint Resolve keeps_tool_calls_stage : keeps.

(** *** The step *)

Abbreviation recover := (recover_or_fail value_to_string base_template incremental_template to_json
  session_error_to_string env).
Abbreviation prepare := (prepare_stage value_to_string base_template incremental_template to_json
  session_error_to_string env).

Context (R_recover : keeps recover)
  (R_prepared : ∀ visible w prepared w', prepare visible w = (Exec_ok prepared, w') →
     good {| rq_messages := pr_messages prepared; rq_tools := visible;
             rq_max_output_tokens := pr_max_output_tokens prepared |}).

Lemma keeps_on_overflow {A B} (Q : A → Prop) (m : T A) (r : T B) (f : A → T B) :
  keeps m → (∀ w a w', m w = (Exec_ok a, w') → Q a) → keeps r → (∀ a, Q a → keeps (f a)) →
  keeps (on_overflow m r f).
Proof.
  intros Hm HQ Hr Hf w. unfold on_overflow. specialize (Hm w). destruct (m w) as [[a|e|] w1] eqn:Hw; [..|done].
  - apply keeps_step; [done|]. apply Hf. by eapply HQ.
  - assert (overflow e = true → R w w1) as Ho by (intros; by eapply E_overflow).
    destruct e as [[]| | | | | | | | | | | | | |]; try done. apply keeps_step; [by apply Ho|]. apply Hr.
Qed.

Lemma step_body_keeps user_text :
  keeps (step_body value_to_string base_template incremental_template debug_str parse_json encode_history
           parses_as_image to_json session_error_to_string turn_error_to_string env user_text).
Proof.
  unfold step_body. repeat (apply keeps_then; [keep|intros ?]).
  eapply keeps_on_overflow; [apply keeps_prepare|intros ? ? ? H; exact (R_prepared _ _ _ _ H)|done|].
  intros prepared Hg. apply (keeps_on_overflow (λ _, True)); [by apply keeps_llm|done|done|].
  intros outcome _. unfold step_outcome, live. keep.
Qed.
End frame.

(** * The operations of a step end

    Only the tool pipeline and the loop over the steps can leave a computation of [TurnWorld]
    without a result ([Exec_blocked]); every other operation of a step ends. *)

Definition lively {A} (m : T A) : Prop := ∀ w, (m w).1 ≠ Exec_blocked.

Lemma lively_ret {A} (a : A) : lively (tret a).
Proof. by intros w. Qed.
Lemma lively_fail {A} e : lively (tfail (A := A) e).
Proof. by intros w. Qed.
Lemma lively_lift {A} (r : result A TurnError) : lively (tlift r).
Proof. by destruct r. Qed.
Lemma lively_get {A} (f : TurnWorld → A) : lively (tget f).
Proof. by intros w. Qed.
Lemma lively_modify f : lively (tmodify f).
Proof. by intros w. Qed.
Lemma lively_turn_modify f : lively (turn_modify f).
Proof. by intros w. Qed.
Lemma lively_did a : lively (did a).
Proof. by intros w. Qed.
Lemma lively_tick : lively ttick.
Proof. by intros w. Qed.
Lemma lively_then {A B} (m : T A) (f : A → T B) : lively m → (∀ a, lively (f a)) → lively (tthen m f).
Proof.
  intros Hm Hf w. unfold tthen. specialize (Hm w). destruct (m w) as [[a|e|] w1]; [apply Hf|done..].
Qed.
Lemma lively_durable env p : lively (t_durable env p).
Proof.
  intros w. unfold t_durable, lift_step, durable, mthen. simpl. by destruct (env_publish _ _ _) as [[]|e].
Qed.
Lemma lively_on_overflow {A B} (m : T A) (r : T B) (f : A → T B) :
  lively m → lively r → (∀ a, lively (f a)) → lively (on_overflow m r f).
Proof.
  intros Hm Hr Hf w. unfold on_overflow. specialize (Hm w). destruct (m w) as [[a|e|] w1]; [apply Hf| |done].
  destruct e as [[]| | | | | | | | | | | | | |]; first [apply Hr|done].
Qed.

Create HintDb lively.
#[export] Hint Resolve lively_ret lively_fail lively_lift lively_get lively_modify lively_turn_modify lively_did
  lively_tick lively_durable : lively.

Ltac lively :=
  repeat first [ solve [eauto 1 with lively] | apply lively_then; [|intros ?] | case_match ].

Section operations.
  Context (value_to_string : Value → string) (base_template incremental_template : string)
    (parse_json : string → option Value) (to_json : LlmMessage → result string string)
    (session_error_to_string : SessionError → string) (turn_error_to_string : TurnError → string).
  Context (env : TurnEnv).

Lemma lively_snapshot : lively (snapshot_model env).
Proof. unfold snapshot_model. lively. Qed.
Lemma lively_lifecycle e : lively (emit_lifecycle env e).
Proof. unfold emit_lifecycle. lively. Qed.
Lemma lively_durable_error code m r : lively (durable_error env code m r).
Proof. unfold durable_error. lively. Qed.
Lemma lively_acknowledge b : lively (acknowledge_provider_request env b).
Proof. unfold acknowledge_provider_request, sync_durable. lively. Qed.
Lemma lively_usage usage window : lively (persist_token_usage env usage window).
Proof. unfold persist_token_usage. lively. Qed.
Lemma lively_absorb l : lively (absorb_inputs env l).
Proof. induction l; simpl; unfold absorb_input; lively. Qed.
#[local] Hint Resolve lively_snapshot lively_lifecycle lively_durable_error lively_acknowledge lively_usage
  lively_absorb : lively.

Lemma lively_sync_mid_turn : lively (sync_mid_turn_user_messages env).
Proof. unfold sync_mid_turn_user_messages. lively. Qed.
Lemma lively_step_end : lively (on_step_end_best_effort env).
Proof. unfold on_step_end_best_effort. lively. Qed.
Lemma lively_dispatch messages : lively (dispatch_after_provider_response env messages).
Proof. unfold dispatch_after_provider_response. lively. Qed.
Lemma lively_message text reasoning calls id started usage window :
  lively (message_stage parse_json env text reasoning calls id started usage window).
Proof. unfold message_stage, live. lively. Qed.
#[local] Hint Resolve lively_step_end lively_dispatch : lively.

Lemma lively_complete text reasoning reason id started usage user request :
  lively (complete_stage env text reasoning reason id started usage user request).
Proof.
  unfold complete_stage, should_continue_after_stop, has_pending_mid_turn_user_messages, response_messages,
    postprocess_complete_stage. lively.
Qed.

Lemma lively_pipeline strategy use_llm probe tools :
  lively (pipeline_run value_to_string base_template incremental_template to_json session_error_to_string env strategy
            use_llm probe tools).
Proof.
  intros w. by destruct (pipeline_run_outcome value_to_string base_template incremental_template to_json
    session_error_to_string env strategy use_llm probe tools w) as (o & k & l & -> & _).
Qed.
#[local] Hint Resolve lively_pipeline : lively.

Lemma lively_run_compaction probe plan tools :
  lively (run_compaction value_to_string base_template incremental_template to_json session_error_to_string env probe
            plan tools).
Proof.
  unfold run_compaction, acquire_permit, finish_permit, now.
  apply lively_then; [destruct (_ && _); lively; intros w; by destruct (should_attempt _ _)|intros permit].
  lively.
Qed.
#[local] Hint Resolve lively_run_compaction : lively.

Lemma lively_recover :
  lively (recover_or_fail value_to_string base_template incremental_template to_json session_error_to_string env).
Proof. unfold recover_or_fail, recover_context_overflow, run_reactive_compaction. lively. Qed.

Lemma lively_prepare visible :
  lively (prepare_stage value_to_string base_template incremental_template to_json session_error_to_string env visible).
Proof.
  unfold prepare_stage, plan_auto_compaction, try_provider_input_tokens, prepare_provider_history,
    apply_before_provider_request_hook. lively.
Qed.

Lemma lively_consume id input : lively (consume_stream turn_error_to_string env id input).
Proof.
  intros w. unfold consume_stream. destruct (consume_llm_stream _ _ _ _) as [r lives].
  revert w. apply lively_then; [lively|intros _]. lively.
Qed.
#[local] Hint Resolve lively_consume : lively.

Lemma lively_llm prepared visible : lively (llm_stage value_to_string turn_error_to_string env prepared visible).
Proof. unfold llm_stage, start_provider_stream, with_usage_fallback, fallback_token_usage. lively. Qed.
End operations.
