(* ===== verification/TurnProofs.v ===== *)
(** * What a turn guarantees

    Theorems about [TurnLoop]: the numbering of steps, the requests to the provider, recovery
    from a context that is too long, the record of an error, the end of a cancelled turn. *)

From S2P Require Import Prelude Utf8 StdPath CoreTypes CoreLlm CoreLlmProtocol CoreEvent ProjViews ProjContext ProjReducer ProjReplay StoreTypes TurnFinalize PermPolicy PermChain ToolPrepare ToolExecute ToolSettle ToolStep TurnStream StdStr CtxText CtxTokens CtxCompact SessBreaker TurnWorld SessCompact TurnLoop TurnFrame.

Section turns.
  Context (value_to_string : Value → string) (base_template incremental_template : string)
    (debug_str : string → string) (parse_json : string → option Value).
  Context (encode_history : ApprovalHistoryFile → string) (parses_as_image : string → bool).
  Context (to_json : LlmMessage → result string string)
    (session_error_to_string : SessionError → string) (turn_error_to_string : TurnError → string).
  Context (env : TurnEnv).

Abbreviation step_body := (step_body value_to_string base_template incremental_template debug_str parse_json
  encode_history parses_as_image to_json session_error_to_string turn_error_to_string env).
Abbreviation run_one_step := (run_one_step value_to_string base_template incremental_template debug_str parse_json
  encode_history parses_as_image to_json session_error_to_string turn_error_to_string env).
Abbreviation turn_steps := (turn_steps value_to_string base_template incremental_template debug_str parse_json
  encode_history parses_as_image to_json session_error_to_string turn_error_to_string env).
Abbreviation process_prompt_inner := (process_prompt_inner value_to_string base_template incremental_template debug_str
  parse_json encode_history parses_as_image to_json session_error_to_string turn_error_to_string env).
Abbreviation process_prompt := (process_prompt value_to_string base_template incremental_template debug_str
  parse_json encode_history parses_as_image to_json session_error_to_string turn_error_to_string env).
Abbreviation run_turn := (run_turn value_to_string base_template incremental_template debug_str
  parse_json encode_history parses_as_image to_json session_error_to_string turn_error_to_string env).
Abbreviation recover_or_fail := (recover_or_fail value_to_string base_template incremental_template to_json
  session_error_to_string env).
Abbreviation prepare_stage := (prepare_stage value_to_string base_template incremental_template to_json
  session_error_to_string env).

(** ** Relations that only watch the trace and a part of the state *)

Definition fails_as (R : relation TurnWorld) : TurnWorld → TurnError → TurnWorld → Prop := λ w _ w', R w w'.

Lemma extends_did {B} (f : TurnWorld → B) P w l :
  f (add_trace l w) = f w → Forall P l → extends f P w (add_trace l w).
Proof. intros Hf Hl. split; [done|]. by exists l. Qed.

(** [f] depends on what a step keeps of the turn. *)
Record turn_part {B} (f : TurnWorld → B) : Prop := {
  tp_step w s : f (set_step s w) = f w;
  tp_trace w l : f (add_trace l w) = f w;
  tp_turn w t : turn_frame value_to_string (tw_turn w) t → f (set_turn t w) = f w;
  tp_breaker w b : f (set_breaker b w) = f w;
  tp_error w : f (set_emitted_error w) = f w;
}.

Section part.
  Context {B : Type} (f : TurnWorld → B) (P : TurnAction → Prop) (good : LlmRequest → Prop).
  Context (Hf : turn_part f).
  Context (P_quiet : ∀ a, quiet a = true → P a) (P_error : ∀ c m r, P (Did_durable (P_ErrorOccurred c m r)))
    (P_request : ∀ r, good r → P (Did_request r)).

Abbreviation R := (extends f P).
Abbreviation keeps_part := (keeps R (fails_as R)).

Lemma fails_trans w w1 e w2 : R w w1 → fails_as R w1 e w2 → fails_as R w e w2.
Proof using. unfold fails_as. intros H1 H2. by etrans. Qed.

Lemma part_idle w s l : Forall (λ a, quiet a = true) l → R w (add_trace l (set_step s w)).
Proof using Hf P_quiet.
  intros Hl. split; [by rewrite (tp_trace f Hf), (tp_step f Hf)|]. exists l. split; [done|].
  eapply Forall_impl; [exact Hl|]. intros a. apply P_quiet.
Qed.

Lemma part_quiet w w' : f w' = f w → tw_trace w' = tw_trace w → R w w'.
Proof using. intros Hw Ht. split; [done|]. exists []. by rewrite app_nil_r. Qed.

Lemma part_durable p : P (Did_durable p) → keeps_part (t_durable env p).
Proof using Hf.
  intros Hp w. unfold t_durable, lift_step, durable, mthen. simpl.
  destruct (env_publish _ _ _) as [[]|e]; simpl; rewrite !drop_all.
  - rewrite drop_app_length. simpl. split; [by rewrite (tp_trace f Hf), (tp_step f Hf)|].
    exists [Did_durable p]. split; [done|by repeat constructor].
  - apply part_quiet; [by rewrite (tp_trace f Hf), (tp_step f Hf)|]. simpl. by rewrite app_nil_r.
Qed.

Lemma part_error A m e : @keeps R (fails_as R) A (tthen (durable_error env JSON_RPC_INTERNAL_ERROR m false) (λ _, tfail e)).
Proof using Hf P_error.
  eapply keeps_then; [typeclasses eauto|apply fails_trans| |].
  - eapply keeps_then; [typeclasses eauto|apply fails_trans|apply part_durable, P_error|].
    intros [] w. apply part_quiet; [apply (tp_error f Hf)|done].
  - intros [] w. apply part_quiet; done.
Qed.

Lemma step_body_part user_text :
  keeps_part recover_or_fail →
  (∀ visible w prepared w', prepare_stage visible w = (Exec_ok prepared, w') →
     good {| rq_messages := pr_messages prepared; rq_tools := visible;
             rq_max_output_tokens := pr_max_output_tokens prepared |}) →
  keeps_part (step_body user_text).
Proof using Hf P_quiet P_error P_request.
  intros Hr Hg. eapply step_body_keeps; try done; try typeclasses eauto.
  - apply fails_trans.
  - intros w s l _ Hl. apply part_idle; quietly.
  - intros w t Ht. apply part_quiet; [by apply (tp_turn f Hf)|done].
  - intros w b. apply part_quiet; [by apply (tp_breaker f Hf)|done].
  - intros w r Hgood. apply extends_did; [apply (tp_trace f Hf)|]. repeat constructor. by apply P_request.
  - intros A m e _. apply part_error.
  - intros w s l _ Hl. apply part_idle; quietly.
Qed.

Lemma recover_part :
  P (Did_pre_compact Trigger_ReactivePromptTooLong) →
  (∀ w, f (set_turn (mark_reactive_compact_used (tw_turn w)) w) = f w) →
  keeps_part recover_or_fail.
Proof using Hf P_quiet.
  intros Ha Hm. eapply keeps_recover; try done; try typeclasses eauto.
  - apply fails_trans.
  - intros w s l _ Hl. apply part_idle; quietly.
  - intros w b. apply part_quiet; [by apply (tp_breaker f Hf)|done].
  - intros w. apply extends_did; [apply (tp_trace f Hf)|by repeat constructor].
  - intros w. apply part_quiet; [apply Hm|done].
Qed.
End part.

(** ** The record of the steps *)

Inductive StepMark :=
| Mark_started (step_index attempt : N)
| Mark_completed (step_index attempt : N) (finish_reason : option string).

Definition step_mark (a : TurnAction) : option StepMark :=
  match a with
  | Did_durable (P_StepStarted i a) => Some (Mark_started i a)
  | Did_durable (P_StepCompleted i a f) => Some (Mark_completed i a f)
  | _ => None
  end.

(** The marks a turn leaves whose next step is attempt [a] of step [i], and how it ends. *)
Inductive step_run : N → N → list StepMark → exec TurnOutput → Prop :=
| run_stopped i a r : (∀ o, r ≠ Exec_ok o) → step_run i a [] r
| run_broken i a r : (∀ o, r ≠ Exec_ok o) → step_run i a [Mark_started i a] r
| run_finished i a o :
    step_run i a [Mark_started i a; Mark_completed i a (Some (to_finish_reason o))] (Exec_ok o)
| run_continued i a marks r :
    step_run (saturating_add u32_max i 1) 1 marks r →
    step_run i a (Mark_started i a :: Mark_completed i a None :: marks) r.

Definition numbers (w : TurnWorld) : N * option N := (next_step_index (tw_turn w), resumed_attempt (tw_turn w)).

Lemma numbers_part : turn_part numbers.
Proof. split; try done. intros w t (H1 & H2 & _). unfold numbers. simpl. by rewrite H1, H2. Qed.

Lemma no_marks l : Forall (λ a, step_mark a = None) l → omap step_mark l = [].
Proof. induction 1 as [|a l Ha _ IH]; [done|]. simpl. by rewrite Ha. Qed.

Lemma step_body_marks user_text w :
  extends numbers (λ a, step_mark a = None) w (step_body user_text w).2.
Proof.
  pose proof (step_body_part numbers (λ a, step_mark a = None) (λ _, True) numbers_part) as H.
  specialize (H ltac:(by intros [[]| | | | | | | |])) . specialize (H ltac:(done)). specialize (H ltac:(done) user_text).
  specialize (H ltac:(apply recover_part; [apply numbers_part|by intros [[]| | | | | | | |]|done|done])).
  specialize (H ltac:(done) w). by destruct (step_body user_text w) as [[] ?].
Qed.

Lemma t_durable_cases p w :
  (∃ s, t_durable env p w = (Exec_ok tt, add_trace [Did_durable p] (set_step s w)) ∧ ss_clock s = S (ss_clock (tw_step w))
        ∧ ss_dedup s = ss_dedup (tw_step w))
  ∨ (∃ e, t_durable env p w = (Exec_err e, moved 1 [] w)).
Proof.
  unfold t_durable, lift_step, durable, mthen. simpl. destruct (env_publish _ _ _) as [[]|e]; simpl; rewrite !drop_all.
  - left. rewrite drop_app_length. eexists. simpl. split; [done|by split].
  - right. exists e. f_equal.
Qed.

Lemma run_one_step_marks user_text w :
  let '(r, w') := run_one_step user_text w in
  let i := next_step_index (tw_turn w) in
  let a := default 1%N (resumed_attempt (tw_turn w)) in
  ∃ l, tw_trace w' = tw_trace w ++ l
  ∧ match r with
    | Exec_ok o =>
      numbers w' = (saturating_add u32_max i 1, None)
      ∧ omap step_mark l = [Mark_started i a; Mark_completed i a (outcome_finish_reason o)]
    | _ => omap step_mark l = [] ∨ omap step_mark l = [Mark_started i a]
    end.
Proof.
  unfold TurnLoop.run_one_step, t_begin_step, tthen at 1, begin_step.
  set (i := next_step_index (tw_turn w)). set (a := default 1%N (resumed_attempt (tw_turn w))).
  set (w1 := set_step _ (set_turn _ w)). unfold tthen at 1.
  destruct (t_durable_cases (P_StepStarted i a) w1) as [(s & -> & _ & _)|(e & ->)].
  2: { exists []. split; [simpl; done|by left]. }
  set (w2 := add_trace _ _). pose proof (step_body_marks user_text w2) as (Hn & l & Hl & Hq).
  destruct (step_body user_text w2) as [[o|e|] w3]; simpl in Hn, Hl.
  - unfold tthen at 1. set (w4 := t_end_step w3).
    destruct (t_durable_cases (P_StepCompleted i a (outcome_finish_reason o)) w4) as [(s' & -> & _ & _)|(e & ->)].
    + exists (Did_durable (P_StepStarted i a) :: l ++ [Did_durable (P_StepCompleted i a (outcome_finish_reason o))]).
      split; [simpl; rewrite Hl; simpl; by rewrite <-!app_assoc|]. split; [exact Hn|]. simpl.
      by rewrite omap_app, no_marks.
    + exists (Did_durable (P_StepStarted i a) :: l). split; [simpl; rewrite Hl; simpl; by rewrite <-!app_assoc, ?app_nil_r|].
      right. simpl. by rewrite no_marks.
  - exists (Did_durable (P_StepStarted i a) :: l). split; [simpl; rewrite Hl; simpl; by rewrite <-!app_assoc|].
    right. simpl. by rewrite no_marks.
  - exists (Did_durable (P_StepStarted i a) :: l). split; [simpl; rewrite Hl; simpl; by rewrite <-!app_assoc|].
    right. simpl. by rewrite no_marks.
Qed.

Lemma check_aborted_moved w :
  check_aborted env w = (Exec_ok tt, moved 1 [] w) ∨ check_aborted env w = (Exec_err Turn_Aborted, moved 1 [] w).
Proof.
  unfold check_aborted, t_cancelled, lift_step, is_cancelled, mthen, tthen. simpl. rewrite !drop_all. simpl.
  destruct (env_cancelled _ _); [right|left]; done.
Qed.

Lemma turn_steps_marks fuel user_text w :
  let '(r, w') := turn_steps fuel user_text w in
  ∃ l, tw_trace w' = tw_trace w ++ l
  ∧ step_run (next_step_index (tw_turn w)) (default 1%N (resumed_attempt (tw_turn w))) (omap step_mark l) r.
Proof.
  revert w. induction fuel as [|fuel IH]; intros w; cbn [TurnLoop.turn_steps].
  { exists []. rewrite app_nil_r. split; [done|]. by constructor. }
  unfold tthen at 1. destruct (check_aborted_moved w) as [->| ->].
  2: { exists []. split; [done|]. by constructor. }
  set (w1 := moved 1 [] w). unfold tthen at 1. pose proof (run_one_step_marks user_text w1) as H.
  assert (tw_trace w1 = tw_trace w) as Ht by (apply app_nil_r). rewrite Ht in H. cbn [w1 moved tw_turn] in H.
  destruct (run_one_step user_text w1) as [[o|e|] w2].
  - destruct H as (l & Hl & Hn & Hm). destruct o as [|output].
    + specialize (IH w2). destruct (turn_steps fuel user_text w2) as [r w3]. destruct IH as (l' & Hl' & Hr).
      exists (l ++ l'). split; [by rewrite Hl', Hl, app_assoc|]. rewrite omap_app, Hm. simpl.
      unfold numbers in Hn. injection Hn as Hn1 Hn2. rewrite Hn1, Hn2 in Hr. by constructor.
    + exists l. split; [done|]. rewrite Hm. constructor.
  - destruct H as (l & Hl & Hm). exists l. split; [done|]. destruct Hm as [-> | ->]; by constructor.
  - destruct H as (l & Hl & Hm). exists l. split; [done|]. destruct Hm as [-> | ->]; by constructor.
Qed.

(** The step a turn begins with: a step that was interrupted is tried again, a completed one is
    followed by the next. *)
Definition resume_point (active : option execution.ActiveStepView) : N * N :=
  match active with
  | None => (0, 1)
  | Some step =>
    if execution.completed step then (saturating_add u32_max (execution.step_index step) 1, 1)
    else (execution.step_index step, saturating_add u32_max (execution.attempt step) 1)
  end%N.

Lemma resume_new tools active :
  (next_step_index (TurnState_new value_to_string tools active),
   default 1%N (resumed_attempt (TurnState_new value_to_string tools active))) = resume_point active.
Proof. unfold resume_point. destruct active as [step|]; simpl; [|done]. by destruct (execution.completed step). Qed.

(** The beginning of a turn: the hooks run, and the state is made from what the journal shows. *)
Definition opening (a : TurnAction) : Prop :=
  match a with Did_lifecycle _ | Did_read _ => True | _ => False end.

Lemma process_prompt_inner_cases fuel tools user_text w :
  ∃ l, Forall opening l
  ∧ ((∃ e w1, process_prompt_inner fuel tools user_text w = (Exec_err (Turn_Extension e), w1)
        ∧ tw_trace w1 = tw_trace w ++ l ∧ tw_emitted_error w1 = tw_emitted_error w)
     ∨ ∃ active w1, process_prompt_inner fuel tools user_text w = turn_steps fuel user_text w1
        ∧ tw_trace w1 = tw_trace w ++ l ∧ tw_turn w1 = TurnState_new value_to_string tools active
        ∧ (active = None ∨ ∃ m, Did_read m ∈ l ∧ active = execution.active_step (execution_ m))
        ∧ tw_emitted_error w1 = tw_emitted_error w ∧ ss_dedup (tw_step w1) = ToolCallDeduplicator_new
        ∧ ss_clock (tw_step w) ≤ ss_clock (tw_step w1)).
Proof.
  destruct (process_prompt_inner fuel tools user_text w) as [res wres] eqn:H.
  unfold TurnLoop.process_prompt_inner in H. rewrite !(tthen_ok _ _ _ _ _ (emit_lifecycle_moved _ _ _)), moved_moved in H.
  set (l1 := [Did_lifecycle TurnStart] ++ [Did_lifecycle UserPromptSubmit]) in H. set (w1 := moved _ l1 w) in H.
  assert (Forall opening l1) as Hl1 by (by repeat constructor).
  unfold tthen at 1 in H. destruct (te_lifecycle env _ TurnStart) as [u1|e1]; simpl in H.
  2: { injection H as <- <-. exists l1. split; [done|]. left. by eexists _, _. }
  unfold tthen at 1 in H. destruct (te_lifecycle env _ UserPromptSubmit) as [u2|e2]; simpl in H.
  2: { injection H as <- <-. exists l1. split; [done|]. left. by eexists _, _. }
  unfold initial_active_step in H. unfold tthen at 1 in H. rewrite (tthen_ok _ _ _ _ _ (ttick_moved _)) in H.
  destruct (te_read_model env _) as [m|e].
  - unfold tthen at 1 in H. rewrite did_moved in H. unfold tret in H. rewrite moved_moved in H.
    exists (l1 ++ [Did_read m]). split; [by apply Forall_app; split; [|repeat constructor]|]. right.
    eexists (execution.active_step (execution_ m)), _. split; [symmetry; exact H|].
    split_and!; try done; simpl; [by rewrite <-app_assoc| |lia]. right. exists m. split; [set_solver|done].
  - exists l1. split; [done|]. right. eexists None, _. split; [symmetry; exact H|].
    split_and!; try done; simpl; [by rewrite app_nil_r|by left|lia].
Qed.

(** The end of a turn that failed: the hooks learn of it. *)
Lemma process_prompt_cases fuel tools user_text w :
  let '(r1, w1) := process_prompt_inner fuel tools user_text w in
  let '(r, w') := process_prompt fuel tools user_text w in
  ∃ l, tw_trace w' = tw_trace w1 ++ l ∧ Forall opening l ∧ tw_emitted_error w' = tw_emitted_error w1
  ∧ tw_turn w' = tw_turn w1
  ∧ match r1 with
    | Exec_ok o => r = Exec_ok o ∨ ∃ e, r = Exec_err e ∧ te_ingress_shutdown env (ss_clock (tw_step w1)) = Err e
    | Exec_err e => r = Exec_err e
    | Exec_blocked => r = Exec_blocked
    end.
Proof.
  unfold TurnLoop.process_prompt. destruct (process_prompt_inner fuel tools user_text w) as [[o|e|] w1].
  - unfold shutdown_ingress. rewrite (tthen_ok _ _ _ _ _ (ttick_moved w1)).
    destruct (te_ingress_shutdown env _) as [[]|e] eqn:He; unfold tret, tfail; exists []; split_and!; try done.
    + by left.
    + right. by exists e.
  - rewrite (tthen_ok _ _ _ _ _ (emit_lifecycle_moved _ _ _)). unfold shutdown_ingress.
    rewrite (tthen_ok _ _ _ _ _ (ttick_moved _)), moved_moved. unfold tfail.
    exists [Did_lifecycle (TurnEnd None)]. split_and!; try done. by repeat constructor.
  - exists []. rewrite app_nil_r. by split_and!.
Qed.

(** The steps of a turn are on record in order: however the hooks, the provider, the tools
    and the journal answer, and however long the turn runs, its marks are those of consecutive
    steps, each begun once and completed under the same number and attempt before the next one
    begins, only the last one with a finish reason, and exactly when the turn succeeds, with
    its reason.  The first step resumes what the journal shows as active. *)
Theorem steps_numbered fuel tools user_text w :
  let '(r, w') := process_prompt_inner fuel tools user_text w in
  ∃ active l,
    tw_trace w' = tw_trace w ++ l
    ∧ (active = None ∨ ∃ m, Did_read m ∈ l ∧ active = execution.active_step (execution_ m))
    ∧ step_run (resume_point active).1 (resume_point active).2 (omap step_mark l) r.
Proof.
  destruct (process_prompt_inner_cases fuel tools user_text w) as (l & Hl & [(e & w1 & -> & Ht & _)|(active & w1 & Hs)]).
  - exists None, l. split; [done|]. split; [by left|]. rewrite no_marks; [by constructor|].
    eapply Forall_impl; [exact Hl|]. by intros [].
  - destruct Hs as (-> & Ht & Hturn & Hactive & _). pose proof (turn_steps_marks fuel user_text w1) as H.
    destruct (turn_steps fuel user_text w1) as [r w']. destruct H as (l' & Hl' & Hr).
    exists active, (l ++ l'). split; [by rewrite Hl', Ht, app_assoc|]. split.
    { destruct Hactive as [->|(m & Hm & ->)]; [by left|right]. exists m. split; [set_solver|done]. }
    rewrite <-(resume_new tools active), omap_app, no_marks, <-Hturn; [done|].
    eapply Forall_impl; [exact Hl|]. by intros [].
Qed.

(** ** The requests *)

Lemma request_fits s minimum :
  match request_max_output_tokens s minimum with
  | Some n => (n ≤ max_output_tokens s ∧ 1 ≤ n
               ∧ context_tokens s + n + safety_tokens (max_input_tokens s) ≤ max_input_tokens s)%N
  | None => True
  end.
Proof.
  unfold request_max_output_tokens, saturating_sub, minimum_output. case_bool_decide; [|done]. lia.
Qed.

Lemma owned_visible (l : list (Arc LlmMessage)) : results_owned (provider_visible_shared_messages l).
Proof. apply provider_visible_results_owned. Qed.

Lemma owned_snoc (l : list (Arc LlmMessage)) m : role (arc_get m) ≠ Role_Tool → results_owned l → results_owned (l ++ [m]).
Proof. intros Hm Hl. apply (segmented_app (λ e, ¬ is_tool e)); [done|]. apply segmented_plain. by repeat constructor. Qed.

Lemma owned_replaced l : results_owned (Arc_new <$> provider_visible_messages l).
Proof.
  destruct provider_visible_shared_agrees as (H & _).
  assert (Arc_new <$> provider_visible_messages l = provider_visible_shared_messages (Arc_new <$> l)) as ->.
  { assert (l = arc_get <$> (Arc_new <$> l)) as Hl by (rewrite <-list_fmap_compose; symmetry; apply list_fmap_id).
    rewrite Hl at 1. rewrite <-H, <-list_fmap_compose. etrans; [|apply list_fmap_id]. apply list_fmap_ext. by intros ? []. }
  apply owned_visible.
Qed.

(** A request fits: it offers the tools the turn shows, every tool result in it belongs to the
    round before it, and with the input, estimated from a model the turn has read, and the
    reserve, the output it asks for stays inside the window. *)
Record request_ok (t : TurnState) (read : list TurnAction) (r : LlmRequest) : Prop := {
  ro_tools : rq_tools r = visible_tools t;
  ro_owned : results_owned (rq_messages r);
  ro_output : (1 ≤ rq_max_output_tokens r ≤ ml_max_output_tokens (te_limits env))%N;
  ro_fits : ∃ m, Did_read m ∈ read ∧
    let window := ml_max_input_tokens (te_limits env) in
    (estimate_input_tokens value_to_string (context_snapshot m) (rq_messages r) (tools_token_estimate t) window
     + rq_max_output_tokens r + safety_tokens window ≤ window)%N;
}.

(** What precedes the request keeps the state of the turn and sends nothing. *)
Definition not_request (a : TurnAction) : Prop := match a with Did_request _ => False | _ => True end.
Abbreviation before := (extends tw_turn not_request).

Lemma before_idle w s l : Forall (λ a, quiet a = true) l → before w (add_trace l (set_step s w)).
Proof.
  intros Hl. split; [done|]. exists l. split; [done|]. eapply Forall_impl; [exact Hl|]. by intros [].
Qed.

Lemma before_keeps {A} (m : T A) w : keeps before (fails_as before) m → before w (m w).2.
Proof. intros H. specialize (H w). by destruct (m w) as [[] ?]. Qed.

Lemma sync_before w : before w (sync_mid_turn_user_messages env w).2.
Proof.
  apply before_keeps. eapply keeps_sync_mid_turn; try done; try typeclasses eauto.
  - apply fails_trans.
  - intros w' s l _ Hl. apply before_idle; quietly.
Qed.

Lemma prepare_before visible w : before w (prepare_stage visible w).2.
Proof.
  apply before_keeps. eapply keeps_prepare; try done; try typeclasses eauto.
  - apply fails_trans.
  - intros w' s l _ Hl. apply before_idle; quietly.
  - intros w' b. split; [done|]. exists []. by rewrite app_nil_r.
Qed.

Lemma recover_not_request w : extends (λ _, tt) not_request w (recover_or_fail w).2.
Proof.
  pose proof (recover_part (λ _, tt) not_request) as H.
  specialize (H ltac:(by split) ltac:(by intros []) I ltac:(done) w). by destruct (recover_or_fail w) as [[] ?].
Qed.

(** The context a compaction leaves is the one of a model it read. *)
Lemma run_compaction_read probe plan tools w s o w' :
  run_compaction value_to_string base_template incremental_template to_json session_error_to_string env probe plan
    tools w = (Exec_ok (s, o), w') →
  ∃ m, Did_read m ∈ tw_trace w' ∧ s = context_snapshot m.
Proof.
  unfold run_compaction. set (permit := if _ && _ then _ else _). unfold tthen at 1.
  destruct (permit w) as [[b|e|] w1]; [|done..]. unfold tthen at 1.
  destruct (pipeline_run_outcome value_to_string base_template incremental_template to_json session_error_to_string
    env (plan_strategy plan)
    (if match plan_strategy plan with Strategy_Auto => true | _ => false end then plan_use_llm plan && b else plan_use_llm plan)
    probe tools w1) as (out & k & l & -> & Hout).
  set (w2 := moved _ _ w1). unfold tthen at 1.
  assert (tw_trace ((if b then finish_permit env (pipeline_llm_attempt out) else tret tt) w2).2 = tw_trace w2) as Ht
    by (destruct b; [|done]; unfold finish_permit, now, tthen; rewrite ttick_moved; simpl; by rewrite app_nil_r).
  destruct ((if b then finish_permit env (pipeline_llm_attempt out) else tret tt) w2) as [[u|e|] w3]; [|done..].
  simpl in Ht.
  assert (∀ r : CompactionOutcome, (tthen (snapshot_model env) (λ model, tret (context_snapshot model, r))) w3 = (Exec_ok (s, o), w') →
    ∃ m, Did_read m ∈ tw_trace w' ∧ s = context_snapshot m) as Hsnap.
  { intros r. unfold tthen. rewrite snapshot_model_moved. destruct (te_read_model _ _) as [m|]; [|done].
    unfold tret. intros [= <- _ <-]. exists m. split; [|done]. simpl. set_solver. }
  destruct out as [removed attempt|message|error attempt source]; [apply Hsnap|apply Hsnap|].
  destruct (SessionError_uncertain_through_seq error); [done|]. destruct source as [s'|]; [|apply Hsnap].
  unfold tret. intros [= <- _ <-]. rewrite Ht. unfold w2. simpl.
  destruct l as [|[] l]; try done. destruct Hout as [_ Hout]. destruct l as [|[] l]; try by destruct Hout.
  destruct Hout as (_ & [= ->] & _). exists m. split; [set_solver|done].
Qed.

Lemma history_read snapshot plan tools w s messages w' :
  (∃ m, Did_read m ∈ tw_trace w ∧ snapshot = context_snapshot m) →
  prepare_provider_history value_to_string base_template incremental_template to_json session_error_to_string
    env snapshot plan tools w = (Exec_ok (s, messages), w') →
  ∃ m, Did_read m ∈ tw_trace w' ∧ s = context_snapshot m.
Proof.
  intros Hs. unfold prepare_provider_history. destruct plan as [plan|]; unfold tthen at 1.
  - unfold tthen at 1.
    destruct (run_compaction _ _ _ _ _ _ _ _ _ _) as [[[s1 o]|e|] w1] eqn:Hr; [|done..].
    apply run_compaction_read in Hr. unfold tret, tthen, tget. by intros [= <- _ <-].
  - unfold tret, tthen, tget. by intros [= <- _ <-].
Qed.

Lemma before_request_owned messages w messages' ack w' :
  results_owned messages →
  apply_before_provider_request_hook env messages w = (Exec_ok (messages', ack), w') →
  results_owned messages' ∧ tw_trace w' = tw_trace w.
Proof.
  intros Hm. unfold apply_before_provider_request_hook. rewrite (tthen_ok _ _ _ _ _ (ttick_moved w)). unfold tthen.
  assert (tw_trace (moved 1 [] w) = tw_trace w) as Ht by (simpl; apply app_nil_r).
  destruct (te_prepare_provider_request _ _ _) as [[r a]|e]; simpl; [|done].
  destruct r; unfold tret, tfail; intros [= <- _ <-]; split; try done.
  - apply owned_replaced.
  - apply owned_visible.
Qed.

Lemma prepare_request_ok visible w p w' :
  prepare_stage visible w = (Exec_ok p, w') → visible = visible_tools (tw_turn w) →
  request_ok (tw_turn w) (tw_trace w')
    {| rq_messages := pr_messages p; rq_tools := visible; rq_max_output_tokens := pr_max_output_tokens p |}.
Proof.
  intros Hp ->. unfold TurnLoop.prepare_stage in Hp. unfold tthen at 1 in Hp. rewrite snapshot_model_moved in Hp.
  destruct (te_read_model _ _) as [m|]; [|done]. set (w1 := moved _ _ w) in Hp. unfold tthen at 1, tget at 1 in Hp.
  unfold tthen at 1 in Hp.
  pose proof (before_keeps (plan_auto_compaction value_to_string env (context_snapshot m) (visible_tools (tw_turn w))
    (tools_token_estimate (tw_turn w1))) w1) as Hplan.
  destruct (plan_auto_compaction _ _ _ _ _ w1) as [[plan|e|] w2]; [|done..].
  assert (before w1 w2) as [Ht2 (l2 & Hl2 & _)].
  { apply Hplan. eapply keeps_plan; try done; try typeclasses eauto; [apply fails_trans|].
    intros w0 s l _ Hl. apply before_idle; quietly. }
  unfold tthen at 1 in Hp.
  destruct (prepare_provider_history _ _ _ _ _ _ _ _ _ w2) as [[[s messages]|e|] w3] eqn:Hh; [|done..].
  apply history_read in Hh as (m' & Hread & ->).
  2: { exists m. split; [|done]. rewrite Hl2. unfold w1. simpl. set_solver. }
  unfold tthen at 1, tget at 1 in Hp. unfold tthen at 1 in Hp.
  destruct (apply_before_provider_request_hook env _ w3) as [[[messages' ack]|e|] w4] eqn:Hb; [|done..].
  apply before_request_owned in Hb as [Howned Htr].
  2: { destruct (check_reminder _); [apply owned_snoc; [done|]|rewrite app_nil_r]; apply owned_visible. }
  pose proof (request_fits (token_snapshot value_to_string env (context_snapshot m') messages'
    (tools_token_estimate (tw_turn w1))) (te_minimum_output_tokens env)) as Hfit.
  destruct (request_max_output_tokens _ _) as [n|]; [|done]. unfold tret in Hp. injection Hp as <- <-.
  destruct Hfit as (Hmax & Hone & Hwin). split; simpl; [done|done|done|].
  exists m'. split; [by rewrite Htr|]. exact Hwin.
Qed.

Definition sent (a : TurnAction) : option LlmRequest := match a with Did_request r => Some r | _ => None end.

Lemma not_sent l : Forall not_request l → omap sent l = [].
Proof. induction 1 as [|[] l Ha _ IH]; by simpl. Qed.

(** The rest of a step sends no request. *)
Abbreviation silent := (extends (λ _ : TurnWorld, tt) not_request).
Abbreviation keeps_silent := (keeps silent (fails_as silent)).

Lemma silent_part : turn_part (λ _ : TurnWorld, tt).
Proof. by split. Qed.

Lemma silent_idle w s l : Forall (λ a, quiet a = true) l → silent w (add_trace l (set_step s w)).
Proof. apply part_idle; [apply silent_part|by intros []]. Qed.

Lemma silent_error A m e :
  @keeps silent (fails_as silent) A (tthen (durable_error env JSON_RPC_INTERNAL_ERROR m false) (λ _, tfail e)).
Proof. apply part_error; [apply silent_part|done]. Qed.

Lemma silent_ret {A} (a : A) : keeps_silent (tret a).
Proof. intros w. simpl. reflexivity. Qed.
Lemma silent_fail {A} e : keeps_silent (tfail (A := A) e).
Proof. intros w. unfold fails_as. simpl. reflexivity. Qed.

Lemma silent_outcome user_text request outcome :
  keeps_silent (step_outcome value_to_string base_template incremental_template debug_str parse_json encode_history
    parses_as_image to_json session_error_to_string turn_error_to_string env user_text request outcome).
Proof.
  assert (∀ w t, silent w (set_turn t w)) as Ht by (intros w t; split; [done|exists []; by rewrite app_nil_r]).
  unfold step_outcome. destruct outcome as [text reasoning reason id started usage|].
  - destruct (_ && _).
    + eapply keeps_then; [typeclasses eauto|apply fails_trans| |].
      * destruct started; intros w; [by apply extends_did; [|repeat constructor]|simpl; reflexivity].
      * intros [] w. pose proof (recover_not_request w). by destruct (recover_or_fail w) as [[] ?].
    + eapply (keeps_complete_stage value_to_string); try done; try typeclasses eauto; [apply fails_trans|].
      intros w s l _ Hl. apply silent_idle; quietly.
  - eapply keeps_tool_calls_stage; try done; try typeclasses eauto; [apply fails_trans| |];
      intros w s l _ Hl; apply silent_idle; quietly.
Qed.

Lemma llm_stage_sent p visible w :
  ∃ l, tw_trace (llm_stage value_to_string turn_error_to_string env p visible w).2
       = tw_trace w ++ Did_request {| rq_messages := pr_messages p; rq_tools := visible;
                                      rq_max_output_tokens := pr_max_output_tokens p |} :: l
    ∧ Forall not_request l.
Proof.
  unfold llm_stage, start_provider_stream. rewrite tthen_assoc, (tthen_ok _ _ _ _ _ (ttick_moved w)), tthen_assoc.
  rewrite (tthen_ok _ _ _ _ _ (did_moved _ _)), moved_moved.
  set (w1 := moved _ _ w). set (k := tthen _ _).
  assert (keeps_silent k) as Hk.
  { unfold k. eapply keeps_then; [typeclasses eauto|apply fails_trans| |].
    - destruct (te_generate _ _ _) as [[input|e]|]; [apply silent_ret| |apply silent_fail].
      destruct e; try apply silent_error. apply silent_fail.
    - intros input. eapply keeps_then; [typeclasses eauto|apply fails_trans|
        intros w'; rewrite ttick_moved; split; [done|exists []; done]|].
      intros n. eapply keeps_then; [typeclasses eauto|apply fails_trans| |].
      + eapply keeps_consume; try done; try typeclasses eauto; [apply fails_trans| |intros; apply silent_error].
        intros w' s l _ Hl. apply silent_idle; quietly.
      + intros outcome. unfold with_usage_fallback, fallback_token_usage.
        destruct outcome as [? ? ? ? ? []|? ? ? ? ? []]; try apply silent_ret; intros w';
          rewrite !tthen_assoc, (tthen_ok _ _ _ _ _ (ttick_moved w')); (split; [done|by exists []]). }
  specialize (Hk w1). assert (silent w1 (k w1).2) as [_ (l & Hl & Hq)] by (by destruct (k w1) as [[] ?]).
  exists l. split; [|done]. rewrite Hl. unfold w1. simpl. by rewrite <-app_assoc.
Qed.

Lemma step_body_sent user_text w :
  ∃ l, tw_trace (step_body user_text w).2 = tw_trace w ++ l
  ∧ (omap sent l = []
     ∨ ∃ l1 r l2, l = l1 ++ Did_request r :: l2 ∧ omap sent l1 = [] ∧ omap sent l2 = []
         ∧ request_ok (tw_turn w) (tw_trace w ++ l1) r).
Proof.
  unfold TurnLoop.step_body. unfold tthen at 1. pose proof (sync_before w) as [Ht1 (l1 & Hl1 & Q1)].
  destruct (sync_mid_turn_user_messages env w) as [[n|e|] w1]; simpl in Ht1, Hl1;
    [|exists l1; split; [done|left; by apply not_sent]..].
  rewrite (tthen_ok _ _ _ _ _ (emit_lifecycle_moved _ _ _)). set (w2 := moved _ _ w1). unfold tthen at 1.
  assert (before w w2) as [Ht2 (l2 & Hl2 & Q2)].
  { etrans; [by split; [|exists l1]|]. split; [done|]. eexists. split; [done|]. by repeat constructor. }
  destruct (te_lifecycle _ _ _) as [u|e]; simpl; [|exists l2; split; [done|left; by apply not_sent]].
  unfold tthen at 1, tget. change (tw_turn w1) with (tw_turn w2). rewrite Ht2. unfold on_overflow at 1.
  pose proof (prepare_before (visible_tools (tw_turn w)) w2) as Hb.
  destruct (prepare_stage (visible_tools (tw_turn w)) w2) as [[p|e|] w3] eqn:Hp; simpl in Hb;
    destruct Hb as [Ht3 (l3 & Hl3 & Q3)].
  3: { exists (l2 ++ l3). split; [simpl; by rewrite Hl3, Hl2, app_assoc|]. left. by rewrite omap_app, !not_sent. }
  2: { assert (∀ w' l', silent w3 w' → tw_trace w' = tw_trace w3 ++ l' → Forall not_request l' →
         ∃ l, tw_trace w' = tw_trace w ++ l ∧ (omap sent l = [] ∨ ∃ l1 r l2, l = l1 ++ Did_request r :: l2
           ∧ omap sent l1 = [] ∧ omap sent l2 = [] ∧ request_ok (tw_turn w) (tw_trace w ++ l1) r)) as Hend.
       { intros w' l' _ Hl' Q'. exists (l2 ++ l3 ++ l'). split; [by rewrite Hl', Hl3, Hl2, <-!app_assoc|].
         left. by rewrite !omap_app, !not_sent. }
       pose proof (recover_not_request w3) as Hrec. pose proof Hrec as [_ (l' & Hl' & Q')].
       destruct e as [[]| | | | | | | | | | | | | |]; try (by apply (Hend w3 []); [reflexivity|by rewrite app_nil_r|]).
       by eapply Hend. }
  apply prepare_request_ok in Hp; [|by rewrite Ht2]. rewrite Ht2 in Hp.
  set (r := {| rq_messages := _ |}) in Hp. rewrite Hl3, Hl2, <-app_assoc in Hp.
  unfold on_overflow. destruct (llm_stage_sent p (visible_tools (tw_turn w)) w3) as (l4 & Hl4 & Q4).
  assert (∀ w' l', tw_trace w' = tw_trace w ++ (l2 ++ l3) ++ Did_request r :: l4 ++ l' → Forall not_request l' →
    ∃ l, tw_trace w' = tw_trace w ++ l ∧ (omap sent l = [] ∨ ∃ l1 r l2, l = l1 ++ Did_request r :: l2
      ∧ omap sent l1 = [] ∧ omap sent l2 = [] ∧ request_ok (tw_turn w) (tw_trace w ++ l1) r)) as Hend.
  { intros w' l' Hl' Q'. eexists. split; [exact Hl'|]. right. exists (l2 ++ l3), r, (l4 ++ l').
    split_and!; [done|by rewrite omap_app, !not_sent|by rewrite omap_app, !not_sent|done]. }
  destruct (llm_stage _ _ _ p _ w3) as [[outcome|e|] w4]; simpl in Hl4; rewrite Hl3, Hl2, <-!app_assoc in Hl4.
  - pose proof (silent_outcome user_text {| lr_messages := pr_messages p;
      lr_context_window := ml_max_input_tokens (te_limits env); lr_acknowledgements := pr_acknowledgements p |}
      outcome w4) as Hs.
    assert (silent w4 (step_outcome value_to_string base_template incremental_template debug_str parse_json
      encode_history parses_as_image to_json session_error_to_string turn_error_to_string env user_text
      {| lr_messages := pr_messages p; lr_context_window := ml_max_input_tokens (te_limits env);
         lr_acknowledgements := pr_acknowledgements p |} outcome w4).2) as [_ (l5 & Hl5 & Q5)]
      by (by destruct (step_outcome _ _ _ _ _ _ _ _ _ _ _ _ _ _ _) as [[] ?]).
    apply (Hend _ l5); [|done]. rewrite Hl5, Hl4. by rewrite <-!app_assoc.
  - pose proof (recover_not_request w4) as [_ (l' & Hl' & Q')].
    destruct e as [[]| | | | | | | | | | | | | |];
      try (by apply (Hend w4 []); [simpl; rewrite Hl4; by rewrite app_nil_r, <-!app_assoc|]).
    apply (Hend _ l'); [|done]. rewrite Hl', Hl4. by rewrite <-!app_assoc.
  - apply (Hend w4 []); [|done]. simpl. rewrite Hl4. by rewrite app_nil_r, <-!app_assoc.
Qed.

(** The tools on offer and their estimate stay in step. *)
Definition tools_kept (w w' : TurnWorld) : Prop :=
  tools_ok value_to_string (tw_turn w) → tools_ok value_to_string (tw_turn w').

#[local] Instance tools_kept_preorder : PreOrder tools_kept.
Proof. split; [intros w H; exact H|]. intros w w1 w2 H1 H2 H. by apply H2, H1. Qed.

Lemma step_body_tools user_text w : tools_kept w (step_body user_text w).2.
Proof.
  assert (∀ w w' : TurnWorld, tw_turn w' = tw_turn w → tools_kept w w') as Hsame by (by intros ? ? Hw ?; rewrite Hw).
  assert (∀ w w1 e w2, tools_kept w w1 → fails_as tools_kept w1 e w2 → fails_as tools_kept w e w2) as Htrans
    by (unfold fails_as; intros; by etrans).
  enough (keeps tools_kept (fails_as tools_kept) (step_body user_text)) as H
    by (specialize (H w); by destruct (step_body user_text w) as [[] ?]).
  eapply (step_body_keeps _ _ _ _ _ _ _ _ _ _ _ tools_kept (fails_as tools_kept)) with (good := λ _, True);
    try done; try typeclasses eauto; try (intros; by apply Hsame).
  - by intros w0 t (_ & _ & _ & Ht).
  - intros A m e _. eapply keeps_then; [typeclasses eauto|apply Htrans| |intros [] w0; by apply Hsame].
    eapply keeps_then; [typeclasses eauto|apply Htrans| |intros [] w0; by apply Hsame].
    intros w0. destruct (t_durable_cases (P_ErrorOccurred JSON_RPC_INTERNAL_ERROR m false) w0)
      as [(s & -> & _)|(e' & ->)]; by apply Hsame.
  - eapply keeps_recover; try done; try typeclasses eauto; try (intros; by apply Hsame).
    + intros w0. by apply Hsame.
    + intros w0 [H1 H2]. by split.
Qed.

(** What a request guarantees: tool results come after the calls they answer, and the input
    the turn estimates from a model it has read, the output it asks for and the reserve fit the
    window of the model. *)
Record request_sound (read : list TurnAction) (r : LlmRequest) : Prop := {
  rs_owned : results_owned (rq_messages r);
  rs_output : (1 ≤ rq_max_output_tokens r ≤ ml_max_output_tokens (te_limits env))%N;
  rs_fits : ∃ m, Did_read m ∈ read ∧
    let window := ml_max_input_tokens (te_limits env) in
    (estimate_input_tokens value_to_string (context_snapshot m) (rq_messages r)
       (estimate_tool_definition_tokens value_to_string (rq_tools r)) window
     + rq_max_output_tokens r + safety_tokens window ≤ window)%N;
}.

(** The requests among [l], after [read]; [may_send]: the current step has not sent one. *)
Fixpoint requests_sound (may_send : bool) (read l : list TurnAction) : Prop :=
  match l with
  | [] => True
  | a :: l =>
    match a with
    | Did_request r =>
      may_send = true ∧ request_sound read r ∧ requests_sound false (read ++ [a]) l
    | Did_durable (P_StepStarted _ _) => requests_sound true (read ++ [a]) l
    | _ => requests_sound may_send (read ++ [a]) l
    end
  end.

Lemma request_ok_sound t read r : tools_ok value_to_string t → request_ok t read r → request_sound read r.
Proof.
  intros Ht [Htools Hown Hout Hfits]. split; [done..|]. rewrite Htools, <-(ok_estimate _ _ Ht). exact Hfits.
Qed.

Lemma requests_none b read l : Forall not_request l → requests_sound b read l.
Proof.
  intros Hl. revert b read. induction Hl as [|a l Ha _ IH]; intros b read; [done|]. simpl.
  destruct a as [[]| | | | | | | |]; try done; apply IH.
Qed.

Lemma requests_weaken b read l : requests_sound false read l → requests_sound b read l.
Proof.
  revert b read. induction l as [|a l IH]; intros b read; [done|]. simpl.
  destruct a as [[]| | | | | | | |]; try apply IH; try done. by intros [? _].
Qed.

Lemma requests_app b read l1 l2 :
  requests_sound b read l1 → requests_sound false (read ++ l1) l2 → requests_sound b read (l1 ++ l2).
Proof.
  revert b read. induction l1 as [|a l1 IH]; intros b read; simpl.
  { rewrite app_nil_r. intros _. apply requests_weaken. }
  intros H1 H2.
  assert (requests_sound false ((read ++ [a]) ++ l1) l2) as H3 by (by rewrite <-app_assoc).
  destruct a as [[]| | | | | | | |]; try (by apply IH). destruct H1 as (? & ? & H1). split_and!; [done..|]. by apply IH.
Qed.

Lemma step_sent_sound l t read :
  tools_ok value_to_string t →
  (omap sent l = []
     ∨ ∃ l1 r l2, l = l1 ++ Did_request r :: l2 ∧ omap sent l1 = [] ∧ omap sent l2 = []
         ∧ request_ok t (read ++ l1) r) →
  requests_sound true read l.
Proof.
  assert (∀ l, omap sent l = [] → Forall not_request l) as Hnone.
  { clear. induction l as [|[] l IH]; simpl; try done; intros H; constructor; try done; by apply IH. }
  intros Ht [Hl|(l1 & r & l2 & -> & H1 & H2 & Hr)]; [by apply requests_none, Hnone|].
  assert (requests_sound true (read ++ l1) (Did_request r :: l2)) as H.
  { simpl. split_and!; [done|by eapply request_ok_sound|by apply requests_none, Hnone]. }
  apply Hnone in H1. clear Hr Hnone. revert read H. induction H1 as [|a l1 Ha _ IH]; intros read H.
  { by rewrite app_nil_r in H. }
  specialize (IH (read ++ [a])). rewrite <-app_assoc in IH. specialize (IH H). simpl.
  destruct a as [[]| | | | | | | |]; done.
Qed.

Lemma run_one_step_requests user_text w :
  tools_ok value_to_string (tw_turn w) →
  let '(_, w') := run_one_step user_text w in
  ∃ l, tw_trace w' = tw_trace w ++ l
  ∧ requests_sound false (tw_trace w) l ∧ tools_ok value_to_string (tw_turn w').
Proof.
  intros Ht. unfold TurnLoop.run_one_step, t_begin_step, tthen at 1, begin_step.
  set (w1 := set_step _ (set_turn _ w)).
  assert (tools_ok value_to_string (tw_turn w1)) as Ht1 by (destruct Ht; by split).
  set (i := next_step_index (tw_turn w)). set (a := default 1%N (resumed_attempt (tw_turn w))).
  unfold tthen at 1. destruct (t_durable_cases (P_StepStarted i a) w1) as [(s & -> & _ & _)|(e & ->)].
  2: { exists []. by split_and!. }
  set (w2 := add_trace _ _). pose proof (step_body_tools user_text w2 Ht1) as Ht3.
  destruct (step_body_sent user_text w2) as (l & Hl & Hs).
  assert (requests_sound false (tw_trace w) (Did_durable (P_StepStarted i a) :: l)) as Hl'.
  { simpl. by eapply step_sent_sound; [exact Ht1|]. }
  destruct (step_body user_text w2) as [[o|e|] w3]; simpl in Ht3, Hl.
  2-3: exists (Did_durable (P_StepStarted i a) :: l); split_and!; [simpl; rewrite Hl; simpl; by rewrite <-!app_assoc|done..].
  unfold tthen at 1. set (w4 := t_end_step w3).
  destruct (t_durable_cases (P_StepCompleted i a (outcome_finish_reason o)) w4) as [(s' & -> & _ & _)|(e & ->)].
  - exists ((Did_durable (P_StepStarted i a) :: l) ++ [Did_durable (P_StepCompleted i a (outcome_finish_reason o))]).
    split_and!; [simpl; rewrite Hl; simpl; by rewrite <-!app_assoc|by apply requests_app|done].
  - exists (Did_durable (P_StepStarted i a) :: l).
    split_and!; [simpl; rewrite Hl; simpl; by rewrite <-!app_assoc, ?app_nil_r|done..].
Qed.

Lemma turn_steps_requests fuel user_text w :
  tools_ok value_to_string (tw_turn w) →
  ∃ l, tw_trace (turn_steps fuel user_text w).2 = tw_trace w ++ l ∧ requests_sound false (tw_trace w) l.
Proof.
  revert w. induction fuel as [|fuel IH]; intros w Ht; cbn [TurnLoop.turn_steps].
  { exists []. by rewrite app_nil_r. }
  unfold tthen at 1. destruct (check_aborted_moved w) as [->| ->].
  2: { by exists []. }
  set (w1 := moved 1 [] w). unfold tthen at 1. pose proof (run_one_step_requests user_text w1 Ht) as H.
  assert (tw_trace w1 = tw_trace w) as Hw1 by (apply app_nil_r). rewrite Hw1 in H.
  destruct (run_one_step user_text w1) as [[o|e|] w2]; destruct H as (l & Hl & Hs & Ht'); [|by exists l..].
  destruct o as [|output]; [|by exists l]. destruct (IH w2 Ht') as (l' & Hl' & Hs').
  exists (l ++ l'). split; [by rewrite Hl', Hl, app_assoc|]. apply requests_app; [done|]. by rewrite <-Hl.
Qed.

(** C27. Every request of a turn is one the provider can take: whatever the hooks put into it,
    the tool results in it follow the calls they answer, and it asks for at least one token of
    output and no more than the model gives, so that the estimated input (of its messages, and
    of the definitions of the tools it offers), the output and the reserve fit the window.  A
    step sends at most one request. *)
Theorem requests_fit_window fuel tools user_text w :
  let '(_, w') := process_prompt fuel tools user_text w in
  ∃ l, tw_trace w' = tw_trace w ++ l ∧ requests_sound false (tw_trace w) l.
Proof.
  pose proof (process_prompt_cases fuel tools user_text w) as H.
  assert (∃ l, tw_trace (process_prompt_inner fuel tools user_text w).2 = tw_trace w ++ l
    ∧ requests_sound false (tw_trace w) l) as (l & Hl & Hs).
  { destruct (process_prompt_inner_cases fuel tools user_text w) as (l & Hl & [(e & w1 & -> & Ht & _)|(active & w1 & Hs)]).
    { exists l. split; [done|]. apply requests_none. eapply Forall_impl; [exact Hl|]. by intros []. }
    destruct Hs as (-> & Ht & Hturn & _). destruct (turn_steps_requests fuel user_text w1) as (l' & Hl' & Hs).
    { rewrite Hturn. by split. }
    exists (l ++ l'). split; [by rewrite Hl', Ht, app_assoc|]. apply requests_app; [|by rewrite <-Ht].
    apply requests_none. eapply Forall_impl; [exact Hl|]. by intros []. }
  destruct (process_prompt_inner fuel tools user_text w) as [r1 w1], (process_prompt fuel tools user_text w) as [r w'].
  destruct H as (l' & Hl' & Hq & _). simpl in Hl. exists (l ++ l').
  split; [by rewrite Hl', Hl, app_assoc|]. apply requests_app; [done|]. apply requests_none.
  eapply Forall_impl; [exact Hq|]. by intros [].
Qed.

(** ** Relations that a whole turn keeps *)

Section whole.
  Context (R : relation TurnWorld) (E : TurnWorld → TurnError → TurnWorld → Prop) `{!PreOrder R}.
  Context (E_of_R : ∀ w e w', R w w' → E w e w') (E_trans : ∀ w w1 e w2, R w w1 → E w1 e w2 → E w e w2)
    (E_end : ∀ w e w', E w e w' → E w e (t_end_step w')).
  Context (R_begin : ∀ w, R w (t_begin_step w).2) (R_end : ∀ w, R w (t_end_step w)) (R_tick : ∀ w, R w (moved 1 [] w))
    (R_mark : ∀ w s p, ss_clock s = S (ss_clock (tw_step w)) → step_mark (Did_durable p) ≠ None →
       R w (add_trace [Did_durable p] (set_step s w))).

Lemma keeps_mark p : step_mark (Did_durable p) ≠ None → keeps R E (t_durable env p).
Proof using E_of_R R_tick R_mark.
  intros Hp w. destruct (t_durable_cases p w) as [(s & -> & Hs & _)|(e & ->)]; [by apply R_mark|]. apply E_of_R, R_tick.
Qed.

Lemma run_one_step_keeps user_text : keeps R E (step_body user_text) → keeps R E (run_one_step user_text).
Proof using All.
  intros Hbody. unfold TurnLoop.run_one_step. eapply keeps_then; [done..| |].
  { intros w. specialize (R_begin w). unfold t_begin_step in *. by destruct (begin_step _). }
  intros [i a]. eapply keeps_then; [done..|by apply keeps_mark|]. intros u w. specialize (Hbody w).
  destruct (step_body user_text w) as [[o|e|] w1]; [|by apply E_end|done].
  apply (keeps_step R E E_trans _ w).
  - etrans; [exact Hbody|apply R_end].
  - eapply keeps_then; [done..|by apply keeps_mark|]. intros u' w2. simpl. reflexivity.
Qed.

Lemma turn_steps_keeps fuel user_text : keeps R E (step_body user_text) → keeps R E (turn_steps fuel user_text).
Proof using All.
  intros Hbody. induction fuel as [|fuel IH]; cbn [TurnLoop.turn_steps]; [intros w; reflexivity|].
  eapply keeps_then; [done..| |intros u].
  - intros w. destruct (check_aborted_moved w) as [->| ->]; [apply R_tick|apply E_of_R, R_tick].
  - eapply keeps_then; [done..|by apply run_one_step_keeps|]. intros [|output]; [done|]. intros w. simpl. reflexivity.
Qed.
End whole.

(** ** The record of a failure *)

Definition recorded_error (a : TurnAction) : option string :=
  match a with Did_durable (P_ErrorOccurred _ message _) => Some message | _ => None end.

Lemma no_errors l : Forall (λ a, recorded_error a = None) l → omap recorded_error l = [].
Proof. induction 1 as [|a l Ha _ IH]; [done|]. simpl. by rewrite Ha. Qed.

Lemma opening_no_errors l : Forall opening l → omap recorded_error l = [].
Proof. intros Hl. apply no_errors. eapply Forall_impl; [exact Hl|]. by intros []. Qed.

Abbreviation error_free := (extends tw_emitted_error (λ a, recorded_error a = None)).

(** A provider's error is recorded before the step fails with it. *)
Definition error_told (w : TurnWorld) (e : TurnError) (w' : TurnWorld) : Prop :=
  error_free w w'
  ∨ overflow e = false ∧ e ≠ Turn_Aborted ∧ tw_emitted_error w' = true
    ∧ ∃ l m, tw_trace w' = tw_trace w ++ l ∧ omap recorded_error l = [m].

Lemma error_told_trans w w1 e w2 : error_free w w1 → error_told w1 e w2 → error_told w e w2.
Proof.
  intros H1 [H2|(Ho & Ha & He & l & m & Hl & Hm)]; [left; by etrans|right]. split_and!; [done..|].
  destruct H1 as [_ (l1 & Hl1 & Hq)]. exists (l1 ++ l), m. split; [by rewrite Hl, Hl1, app_assoc|].
  by rewrite omap_app, no_errors.
Qed.

Lemma error_free_same w w' : tw_emitted_error w' = tw_emitted_error w → tw_trace w' = tw_trace w → error_free w w'.
Proof. intros He Ht. split; [done|]. exists []. by rewrite app_nil_r. Qed.

Lemma error_free_idle w s l : Forall (λ a, quiet a = true) l → error_free w (add_trace l (set_step s w)).
Proof.
  intros Hl. split; [done|]. exists l. split; [done|]. eapply Forall_impl; [exact Hl|]. by intros [[]| | | | | | | |].
Qed.

Lemma step_body_errors user_text : keeps error_free error_told (step_body user_text).
Proof.
  assert (∀ w l, Forall (λ a, recorded_error a = None) l → error_free w (add_trace l w)) as Hdid
    by (intros w l Hl; split; [done|by exists l]).
  eapply step_body_keeps with (good := λ _, True); try done; try typeclasses eauto.
  - intros w e w' H. by left.
  - apply error_told_trans.
  - intros w e w' Ho [H|(Ho' & _)]; [done|congruence].
  - intros w s l _ Hl. apply error_free_idle; quietly.
  - intros w t _. by apply error_free_same.
  - intros w b. by apply error_free_same.
  - intros w r _. apply Hdid. by repeat constructor.
  - intros A m e Ho w. unfold durable_error. rewrite tthen_assoc. unfold tthen at 1.
    destruct (t_durable_cases (P_ErrorOccurred JSON_RPC_INTERNAL_ERROR m false) w) as [(s & -> & _)|(e' & ->)].
    + right. split_and!; [done..|]. by eexists _, m.
    + left. split; [done|]. by exists [].
  - intros w s l _ Hl. apply error_free_idle; quietly.
  - eapply keeps_recover; try done; try typeclasses eauto.
    + intros w e w' H. by left.
    + apply error_told_trans.
    + intros w s l _ Hl. apply error_free_idle; quietly.
    + intros w b. by apply error_free_same.
    + intros w. apply Hdid. by repeat constructor.
    + intros w. by apply error_free_same.
Qed.

Lemma turn_steps_errors fuel user_text : keeps error_free error_told (turn_steps fuel user_text).
Proof.
  eapply turn_steps_keeps; try typeclasses eauto; [..|apply step_body_errors].
  - intros w e w' H. by left.
  - apply error_told_trans.
  - done.
  - intros w. by apply error_free_same.
  - intros w. by apply error_free_same.
  - intros w. by split; [|exists []].
  - intros w s p _ Hp. split; [done|]. eexists. split; [done|]. constructor; [by destruct p|constructor].
Qed.

(** C28. The failure of a turn is recorded once: a turn that fails either has recorded one
    error itself, the provider's, or leaves its error, as text, to the finalisation; never
    both, and neither for a turn that was aborted or succeeds.  The finish reason says which
    of the three it was. *)
Theorem failure_recorded_once fuel tools user_text w :
  match run_turn fuel tools user_text w with
  | (Some result, w') =>
    ∃ l, tw_trace w' = tw_trace w ++ l
    ∧ let f := rt_finalization result in
      match rt_output result with
      | Ok output => omap recorded_error l = [] ∧ tf_pending_error f = None
          ∧ tf_finish_reason f = to_finish_reason output ∧ tf_aborted f = false
      | Err Turn_Aborted => omap recorded_error l = [] ∧ tf_pending_error f = None
          ∧ tf_finish_reason f = TURN_FINISH_ABORTED ∧ tf_aborted f = true
      | Err e => tf_finish_reason f = TURN_FINISH_ERROR ∧ tf_aborted f = false
          ∧ ((∃ m, omap recorded_error l = [m] ∧ tf_pending_error f = None)
             ∨ omap recorded_error l = [] ∧ tf_pending_error f = Some (turn_error_to_string e))
      end
  | (None, _) => True
  end.
Proof.
  unfold TurnLoop.run_turn. set (w0 := {| tw_step := tw_step w |}).
  pose proof (process_prompt_cases fuel tools user_text w0) as H.
  destruct (process_prompt_inner_cases fuel tools user_text w0) as (l0 & Hl0 & Hinner).
  apply opening_no_errors in Hl0.
  assert (match process_prompt_inner fuel tools user_text w0 with
    | (Exec_ok _, w1) => tw_emitted_error w1 = false ∧ ∃ l, tw_trace w1 = tw_trace w ++ l ∧ omap recorded_error l = []
    | (Exec_err e, w1) => ∃ l, tw_trace w1 = tw_trace w ++ l ∧
        ((tw_emitted_error w1 = false ∧ omap recorded_error l = [])
         ∨ e ≠ Turn_Aborted ∧ tw_emitted_error w1 = true ∧ ∃ m, omap recorded_error l = [m])
    | (Exec_blocked, _) => True
    end) as Hin.
  { destruct Hinner as [(e & w1 & -> & Ht & He)|(active & w1 & -> & Ht & _ & _ & He & _)].
    { exists l0. split; [done|]. by left. }
    change (tw_emitted_error w0) with false in He. pose proof (turn_steps_errors fuel user_text w1) as Hk.
    assert (∀ l, omap recorded_error (l0 ++ l) = omap recorded_error l) as Happ by (intros; by rewrite omap_app, Hl0).
    destruct (turn_steps fuel user_text w1) as [[o|e|] w2]; [| |done].
    - destruct Hk as [He' (l & Hl & Hq)]. split; [congruence|]. exists (l0 ++ l).
      split; [by rewrite Hl, Ht, app_assoc|]. by rewrite Happ, no_errors.
    - destruct Hk as [[He' (l & Hl & Hq)]|(_ & Ha & He' & l & m & Hl & Hm)]; exists (l0 ++ l);
        (split; [by rewrite Hl, Ht, app_assoc|]); rewrite Happ.
      + left. split; [congruence|by apply no_errors].
      + right. split_and!; [done..|by exists m]. }
  clear Hinner Hl0 l0.
  destruct (process_prompt_inner fuel tools user_text w0) as [r1 w1], (process_prompt fuel tools user_text w0) as [r w'].
  destruct H as (l' & Hl' & Hq & He & _ & Hr). apply opening_no_errors in Hq.
  assert (∀ l, tw_trace w1 = tw_trace w ++ l → tw_trace w' = tw_trace w ++ (l ++ l')
    ∧ omap recorded_error (l ++ l') = omap recorded_error l) as Htr.
  { intros l Hl. split; [by rewrite Hl', Hl, app_assoc|]. by rewrite omap_app, Hq, app_nil_r. }
  destruct r1 as [o|e|]; [| |by rewrite Hr].
  - destruct Hin as (Hf & l & Hl & Hn). destruct (Htr l Hl) as [Hl1 Hn1]. rewrite Hn in Hn1. rewrite Hf in He.
    destruct Hr as [->|(e & -> & _)]; exists (l ++ l'); (split; [done|]); simpl; rewrite He; [done|].
    destruct e; try (by split_and!); split_and!; try done; by right.
  - destruct Hin as (l & Hl & Hin). destruct (Htr l Hl) as [Hl1 Hn1]. subst r. exists (l ++ l'). split; [done|]. simpl.
    destruct Hin as [[Hf Hn]|(Ha & Ht & m & Hn)]; rewrite Hn in Hn1; rewrite He, ?Hf, ?Ht.
    + destruct e; try (by split_and!); split_and!; try done; by right.
    + destruct e; try done; split_and!; try done; left; by exists m.
Qed.

(** ** Recovery from a context that is too long *)

Definition reactive (a : TurnAction) : bool :=
  match a with Did_pre_compact Trigger_ReactivePromptTooLong => true | _ => false end.
Definition attempts (l : list TurnAction) : nat := length (filter (λ a, reactive a = true) l).

Lemma attempts_app l l' : attempts (l ++ l') = attempts l + attempts l'.
Proof. unfold attempts. by rewrite filter_app, length_app. Qed.

Lemma attempts_none l : Forall (λ a, reactive a = false) l → attempts l = 0.
Proof. unfold attempts. induction 1 as [|a l Ha _ IH]; [done|]. rewrite filter_cons_False; [done|]. by rewrite Ha. Qed.

Definition rewrites (l : list TurnAction) : list DurableEventPayload :=
  omap (λ a, match a with Did_rewrite p => Some p | _ => None end) l.

Lemma pipeline_attempts o l :
  pipeline_outcome value_to_string base_template incremental_template to_json env Strategy_ReactivePromptTooLong o l →
  attempts l = 1 ∧ match o with Pipeline_Compacted _ _ => ∃ p, rewrites l = [p] | _ => rewrites l = [] end.
Proof.
  destruct l as [|[| | | | | |t| |] l]; try done. intros [-> H].
  assert (l = [] ∧ match o with Pipeline_Compacted _ _ => False | _ => True end
    ∨ ∃ m l', l = Did_read m :: l' ∧ snapshot_outcome value_to_string base_template incremental_template to_json env Strategy_ReactivePromptTooLong (context_snapshot m) o l')
    as [[-> Ho]|(m & l' & -> & Hs)].
  { destruct l as [|[] l]; try (by destruct H as [? _]); [left|right; by eexists _, _]. by destruct o, H. }
  - by destruct o.
  - destruct o; simpl in Hs.
    + destruct Hs as (? & ? & p & -> & _). split; [done|]. by exists p.
    + by subst.
    + by destruct Hs as [-> _].
Qed.

(** A turn recovers at most once, and goes on only after a rewrite was committed. *)
Lemma recover_spec w :
  let '(r, w') := recover_or_fail w in
  if reactive_compact_used (tw_turn w) then r = Exec_err Turn_CompactExhausted ∧ w' = w
  else
    reactive_compact_used (tw_turn w') = true
    ∧ ∃ l, tw_trace w' = tw_trace w ++ l ∧ attempts l ≤ 1
      ∧ match r with
        | Exec_ok o => o = Step_Continue ∧ ∃ p, rewrites l = [p]
        | Exec_err _ => True
        | Exec_blocked => False
        end.
Proof.
  unfold TurnLoop.recover_or_fail, recover_context_overflow. unfold tthen at 1. unfold tthen at 1, tget at 1.
  destruct (reactive_compact_used (tw_turn w)); [done|].
  unfold tthen at 1, turn_modify, tmodify. set (w1 := set_turn _ w).
  unfold run_reactive_compaction. unfold tthen at 1. rewrite snapshot_model_moved.
  destruct (te_read_model _ _) as [m|e]; [|split; [done|]; exists []; split_and!; [done|unfold attempts; simpl; lia|done]].
  unfold tthen at 1, tget, run_compaction. unfold tthen at 1. simpl. unfold tthen at 1, tret at 1. unfold tthen at 1.
  set (w2 := moved 1 _ w1).
  destruct (pipeline_run_outcome value_to_string base_template incremental_template to_json session_error_to_string env
    Strategy_ReactivePromptTooLong true (cs_messages (context_snapshot m))
    (visible_tools (mark_reactive_compact_used (tw_turn w))) w2)
    as (o & k & l & -> & Ho). apply pipeline_attempts in Ho as [Hat Hrw].
  set (w3 := moved k _ w2). unfold tthen at 1, tret at 1.
  set (l3 := Did_read m :: Did_live Live_CompactionStarted
    :: l ++ [Did_live (pipeline_terminal session_error_to_string o)]).
  assert (tw_trace w3 = tw_trace w ++ l3) as Hl3 by (unfold w3, w2, w1; simpl; by rewrite <-app_assoc).
  assert (attempts l3 = 1) as Ha3 
    by (change (attempts (l ++ [Did_live (pipeline_terminal session_error_to_string o)]) = 1);
        rewrite attempts_app, Hat; done).
  assert (rewrites l3 = rewrites l) as Hr3 by (unfold l3, rewrites; simpl; by rewrite omap_app, app_nil_r).
  assert (∀ a, reactive a = false → rewrites [a] = [] → attempts (l3 ++ [a]) ≤ 1 ∧ rewrites (l3 ++ [a]) = rewrites l) as Hsnoc.
  { intros a H1 H2. rewrite attempts_app, Ha3, (attempts_none [a]) by (by repeat constructor). split; [lia|].
    unfold rewrites in *. by rewrite omap_app, H2, app_nil_r. }
  assert (reactive_compact_used (tw_turn w3) = true) as Hu by done. clearbody w3 l3.
  set (finish := λ b : bool, if b then tret Step_Continue else tfail Turn_CompactExhausted).
  assert (∀ b : bool, (b = true → ∃ p, rewrites l = [p]) →
    let '(r, w') := tthen (snapshot_model env) (λ _, finish b) w3 in
    reactive_compact_used (tw_turn w') = true
    ∧ ∃ l, tw_trace w' = tw_trace w ++ l ∧ attempts l ≤ 1
      ∧ match r with
        | Exec_ok o => o = Step_Continue ∧ ∃ p, rewrites l = [p]
        | Exec_err _ => True
        | Exec_blocked => False
        end) as Hread.
  { intros b Hb. unfold tthen. rewrite snapshot_model_moved. destruct (te_read_model _ _) as [m'|e].
    - destruct (Hsnoc (Did_read m') eq_refl eq_refl) as [H1 H2].
      assert (tw_trace (moved 1 [Did_read m'] w3) = tw_trace w ++ l3 ++ [Did_read m']) as H3
        by (simpl; by rewrite Hl3, <-app_assoc).
      destruct b; (split; [done|]); exists (l3 ++ [Did_read m']); split_and!; try done. rewrite H2. by apply Hb.
    - split; [done|]. exists l3. split_and!; [simpl; rewrite Hl3; by rewrite app_nil_r|lia|done]. }
  destruct o as [removed attempt|message|error attempt source].
  - specialize (Hread true (λ _, Hrw)). unfold tthen in *. by destruct (snapshot_model env w3) as [[] ?].
  - specialize (Hread false ltac:(done)). unfold tthen in *. by destruct (snapshot_model env w3) as [[] ?].
  - destruct (SessionError_uncertain_through_seq error); [|destruct source as [s|]].
    1-2: (split; [done|]); exists l3; (split_and!; [done|lia|done]).
    specialize (Hread false ltac:(done)). unfold tthen in *. by destruct (snapshot_model env w3) as [[] ?].
Qed.

(** What is left of the attempts of a turn. *)
Definition allowance (w : TurnWorld) : nat :=
  attempts (tw_trace w) + if reactive_compact_used (tw_turn w) then 0 else 1.
Definition within_allowance (w w' : TurnWorld) : Prop :=
  (∃ l, tw_trace w' = tw_trace w ++ l) ∧ allowance w' ≤ allowance w.

#[local] Instance within_allowance_preorder : PreOrder within_allowance.
Proof.
  split.
  - intros w. split; [exists []; by rewrite app_nil_r|done].
  - intros w w1 w2 [[l1 H1] A1] [[l2 H2] A2]. split; [|lia]. exists (l1 ++ l2). by rewrite H2, H1, app_assoc.
Qed.

Lemma allowance_did w w' l :
  tw_trace w' = tw_trace w ++ l → reactive_compact_used (tw_turn w') = reactive_compact_used (tw_turn w) →
  Forall (λ a, reactive a = false) l → within_allowance w w'.
Proof.
  intros Ht Hu Hl. split; [by exists l|]. unfold allowance. rewrite Ht, Hu, attempts_app, (attempts_none l Hl). lia.
Qed.

Lemma quiet_not_reactive l : Forall (λ a, quiet a = true) l → Forall (λ a, reactive a = false) l.
Proof. intros Hl. eapply Forall_impl; [exact Hl|]. by intros [| | | | | |[]| |]. Qed.

Lemma recover_within : keeps within_allowance (fails_as within_allowance) recover_or_fail.
Proof.
  intros w. pose proof (recover_spec w) as H. destruct (recover_or_fail w) as [r w'].
  enough (within_allowance w w') by (by destruct r).
  destruct (reactive_compact_used (tw_turn w)) eqn:Hu.
  - destruct H as [_ ->]. reflexivity.
  - destruct H as (Hu' & l & Hl & Ha & _). split; [by exists l|]. unfold allowance. rewrite Hu, Hu', Hl, attempts_app. lia.
Qed.

Lemma turn_steps_within fuel user_text :
  keeps within_allowance (fails_as within_allowance) (turn_steps fuel user_text).
Proof.
  assert (∀ w w1 e w2, within_allowance w w1 → fails_as within_allowance w1 e w2 → fails_as within_allowance w e w2) as Htrans
    by (unfold fails_as; intros; by etrans).
  assert (∀ w w', tw_trace w' = tw_trace w → reactive_compact_used (tw_turn w') = reactive_compact_used (tw_turn w) →
    within_allowance w w') as Hsame by (intros w w' Ht Hu; apply (allowance_did w w' []); by rewrite ?app_nil_r).
  assert (∀ w s l, Forall (λ a, quiet a = true) l → within_allowance w (add_trace l (set_step s w))) as Hidle
    by (intros w s l Hl; by apply (allowance_did _ _ l); [..|apply quiet_not_reactive]).
  assert (∀ w p s, within_allowance w (add_trace [Did_durable p] (set_step s w))) as Hdurable
    by (intros w p s; by apply (allowance_did _ _ [Did_durable p]); [..|repeat constructor]).
  assert (∀ w, within_allowance w (moved 1 [] w)) as Htick by (intros w; by apply (allowance_did _ _ [])).
  eapply turn_steps_keeps; try done; try typeclasses eauto.
  1-2: intros w; by apply Hsame.
  eapply step_body_keeps with (good := λ _, True); try done; try typeclasses eauto.
  - intros w s l _ Hl. apply Hidle; quietly.
  - intros w t (_ & _ & Hu & _). by apply Hsame.
  - intros w b. by apply Hsame.
  - intros w r _. by apply (allowance_did _ _ [Did_request r]); [..|repeat constructor].
  - intros A m e _ w. unfold durable_error. rewrite tthen_assoc. unfold tthen at 1.
    destruct (t_durable_cases (P_ErrorOccurred JSON_RPC_INTERNAL_ERROR m false) w) as [(s & -> & _)|(e' & ->)].
    + unfold tthen, tmodify, tfail. apply (Hdurable w (P_ErrorOccurred JSON_RPC_INTERNAL_ERROR m false) s).
    + apply Htick.
  - intros w s l _ Hl. apply Hidle; quietly.
  - apply recover_within.
Qed.

(** C29. A turn tries to recover from a context that is too long at most once, whatever the
    provider says and however long it runs; a step that overflows goes on only when that
    attempt committed one rewrite of the transcript, and after a first attempt an overflow ends
    the turn at once. *)
Theorem turn_recovers_once :
  (∀ fuel tools user_text w, let '(_, w') := process_prompt fuel tools user_text w in
     ∃ l, tw_trace w' = tw_trace w ++ l ∧ attempts l ≤ 1)
  ∧ ∀ w, let '(r, w') := recover_or_fail w in
     if reactive_compact_used (tw_turn w) then r = Exec_err Turn_CompactExhausted ∧ w' = w
     else
       reactive_compact_used (tw_turn w') = true
       ∧ ∃ l, tw_trace w' = tw_trace w ++ l ∧ attempts l ≤ 1
         ∧ match r with
           | Exec_ok o => o = Step_Continue ∧ ∃ p, rewrites l = [p]
           | Exec_err _ => True
           | Exec_blocked => False
           end.
Proof.
  split; [|apply recover_spec]. intros fuel tools user_text w.
  pose proof (process_prompt_cases fuel tools user_text w) as H.
  assert (∀ l, Forall opening l → attempts l = 0) as Hopen.
  { intros l Hl. apply attempts_none. eapply Forall_impl; [exact Hl|]. by intros []. }
  assert (∃ l, tw_trace (process_prompt_inner fuel tools user_text w).2 = tw_trace w ++ l ∧ attempts l ≤ 1) as (l & Hl & Ha).
  { destruct (process_prompt_inner_cases fuel tools user_text w) as (l0 & Hl0 & [(e & w1 & -> & Ht & _)|(active & w1 & Hs)]).
    { exists l0. split; [done|]. rewrite Hopen; [lia|done]. }
    destruct Hs as (-> & Ht & Hturn & _). pose proof (turn_steps_within fuel user_text w1) as Hk.
    assert (within_allowance w1 (turn_steps fuel user_text w1).2) as [[l1 Hl1] Hw]
      by (by destruct (turn_steps fuel user_text w1) as [[] ?]).
    exists (l0 ++ l1). split; [by rewrite Hl1, Ht, app_assoc|]. rewrite attempts_app, Hopen by done.
    unfold allowance in Hw. rewrite Hl1, attempts_app, Hturn in Hw. simpl in Hw. lia. }
  destruct (process_prompt_inner fuel tools user_text w) as [r1 w1], (process_prompt fuel tools user_text w) as [r w'].
  destruct H as (l' & Hl' & Hq & _). simpl in Hl. exists (l ++ l').
  split; [by rewrite Hl', Hl, app_assoc|]. rewrite attempts_app, (Hopen l') by done. lia.
Qed.
End turns.
