(* ===== verification/TurnSettle.v ===== *)
(** * The tool calls of a turn

    Composition of the loop of a turn with the tool pipeline ([ToolSettle]) and the consumption
    of the provider's stream ([TurnStream]): what a turn declares, it settles. *)

From S2P Require Import Prelude Utf8 StdPath CoreTypes CoreLlm CoreLlmProtocol CoreEvent ProjViews ProjContext ProjReducer ProjReplay StoreTypes TurnFinalize PermPolicy PermChain ToolPrepare ToolExecute ToolSettle ToolStep TurnStream StdStr CtxText CtxTokens CtxCompact SessBreaker TurnWorld SessCompact TurnLoop TurnFrame TurnProofs.

Definition requested_id (p : DurableEventPayload) : option string :=
  match p with P_ToolCallRequested id _ _ _ => Some (ToolCallId_str id) | _ => None end.

Definition durable_of (a : TurnAction) : option DurableEventPayload :=
  match a with Did_durable p => Some p | _ => None end.

(** The ids of the calls that [l] declares, and of those it settles. *)
Definition asked (l : list TurnAction) : list string := omap requested_id (omap durable_of l).
Definition answered (l : list TurnAction) : list string := omap terminal_id (omap durable_of l).

Lemma asked_app l l' : asked (l ++ l') = asked l ++ asked l'.
Proof. unfold asked. by rewrite !omap_app. Qed.
Lemma answered_app l l' : answered (l ++ l') = answered l ++ answered l'.
Proof. unfold answered. by rewrite !omap_app. Qed.

(** Actions that concern no tool call, and do not complete a step. *)
Definition calm (a : TurnAction) : Prop :=
  match a with
  | Did_durable (P_StepCompleted _ _ _) => False
  | Did_durable p => requested_id p = None ∧ terminal_id p = None
  | _ => True
  end.

Lemma calm_none l : Forall calm l → asked l = [] ∧ answered l = [].
Proof.
  induction 1 as [|a l Ha _ [IH1 IH2]]; [done|]. unfold asked, answered in *. destruct a as [p| | | | | | | |]; try done.
  simpl. assert (requested_id p = None ∧ terminal_id p = None) as [-> ->] by (by destruct p). done.
Qed.

(** When a step completes, every call declared so far is settled. *)
Definition settled_steps (l : list TurnAction) : Prop :=
  ∀ l1 i a f l2, l = l1 ++ Did_durable (P_StepCompleted i a f) :: l2 → asked l1 = answered l1.

Definition completes (a : TurnAction) : bool :=
  match a with Did_durable (P_StepCompleted _ _ _) => true | _ => false end.

Lemma settled_none l : Forall (λ a, completes a = false) l → settled_steps l.
Proof. intros Hl l1 i a f l2 ->. apply Forall_app in Hl as [_ Hl]. by inv Hl. Qed.

Lemma settled_app l1 l2 :
  settled_steps l1 → asked l1 = answered l1 → settled_steps l2 → settled_steps (l1 ++ l2).
Proof.
  intros H1 Hb H2 l i a f l' Heq. apply app_eq_app in Heq as (k & [[-> Hk]|[-> Hk]]).
  - destruct k as [|x k]; simplify_list_eq; [done|by eapply H1].
  - rewrite asked_app, answered_app, Hb. f_equal. by eapply H2.
Qed.

(** How far [l] settles what it declares, for a computation that ends with [r]. *)
Definition journal_total (env : TurnEnv) : Prop := publish_total (te_tools env) ∧ ∀ n, te_sync env n = Ok tt.

Record accounts {A} (env : TurnEnv) (r : exec A) (l : list TurnAction) : Prop := {
  ac_none : answered l `sublist_of` asked l;
  ac_ok : (∀ e, r ≠ Exec_err e) → asked l = answered l;
  ac_total : journal_total env → asked l = answered l;
}.

Lemma accounts_equal {A} env (r : exec A) l : asked l = answered l → accounts env r l.
Proof. intros H. split; [by rewrite H|done|done]. Qed.

Lemma accounts_calm {A} env (r : exec A) l : Forall calm l → accounts env r l.
Proof. intros [H1 H2]%calm_none. apply accounts_equal. by rewrite H1, H2. Qed.

Lemma accounts_app {A} env (r : exec A) l l' : asked l = answered l → accounts env r l' → accounts env r (l ++ l').
Proof.
  intros H [H1 H2 H3]. split; rewrite asked_app, answered_app, H; [by apply sublist_app|..]; intros; f_equal; auto.
Qed.

Section turns.
  Context (value_to_string : Value → string) (base_template incremental_template : string)
    (debug_str : string → string) (parse_json : string → option Value).
  Context (encode_history : ApprovalHistoryFile → string) (parses_as_image : string → bool).
  Context (to_json : LlmMessage → result string string)
    (session_error_to_string : SessionError → string) (turn_error_to_string : TurnError → string).
  Context (env : TurnEnv).

Abbreviation step_body := (step_body value_to_string base_template incremental_template debug_str parse_json
  encode_history parses_as_image to_json session_error_to_string turn_error_to_string env).
Abbreviation run_one_step := (run_one_step value_to_string base_template incremental_template debug_str parse_json
  encode_history parses_as_image to_json session_error_to_string turn_error_to_string env).
Abbreviation turn_steps := (turn_steps value_to_string base_template incremental_template debug_str parse_json
  encode_history parses_as_image to_json session_error_to_string turn_error_to_string env).
Abbreviation process_prompt := (process_prompt value_to_string base_template incremental_template debug_str
  parse_json encode_history parses_as_image to_json session_error_to_string turn_error_to_string env).
Abbreviation recover_or_fail := (recover_or_fail value_to_string base_template incremental_template to_json
  session_error_to_string env).
Abbreviation tool_calls_stage := (tool_calls_stage value_to_string debug_str parse_json encode_history parses_as_image
  turn_error_to_string env).

(** ** Everything but the tool pipeline is calm, and leaves the deduplicator alone *)

Abbreviation calmly := (extends (λ w, ss_dedup (tw_step w)) calm).
Abbreviation keeps_calm := (keeps calmly (fails_as calmly)).

Lemma calm_trans w w1 e w2 : calmly w w1 → fails_as calmly w1 e w2 → fails_as calmly w e w2.
Proof. unfold fails_as. intros H1 H2. by etrans. Qed.

Lemma calm_same w w' : ss_dedup (tw_step w') = ss_dedup (tw_step w) → tw_trace w' = tw_trace w → calmly w w'.
Proof. intros Hd Ht. split; [done|]. exists []. by rewrite app_nil_r. Qed.

Lemma calm_idle w s l : idle_step (tw_step w) s → Forall (λ a, idle a = true) l → calmly w (add_trace l (set_step s w)).
Proof.
  intros (_ & Hd & _) Hl. split; [done|]. exists l. split; [done|]. eapply Forall_impl; [exact Hl|].
  by intros [[]| | | | | | | |].
Qed.

Lemma calm_turn w t : turn_frame value_to_string (tw_turn w) t → calmly w (set_turn t w).
Proof. intros _. by apply calm_same. Qed.

Lemma calm_breaker w b : calmly w (set_breaker b w).
Proof. by apply calm_same. Qed.

Lemma calm_did w a : calm a → calmly w (add_trace [a] w).
Proof. intros Ha. split; [done|]. exists [a]. split; [done|by repeat constructor]. Qed.

Lemma calm_of w w' : calmly w w' → fails_as calmly w Turn_Aborted w'.
Proof. done. Qed.

Lemma calm_error A m e :
  @keeps calmly (fails_as calmly) A (tthen (durable_error env JSON_RPC_INTERNAL_ERROR m false) (λ _, tfail (Turn_Llm e))).
Proof.
  intros w. unfold durable_error. rewrite tthen_assoc. unfold tthen at 1.
  destruct (t_durable_cases env (P_ErrorOccurred JSON_RPC_INTERNAL_ERROR m false) w) as [(s & -> & _ & Hd)|(e' & ->)].
  - split; [done|]. eexists. split; [done|by repeat constructor].
  - by split; [|exists []].
Qed.

(** The frame lemmas at this relation. *)
Ltac calmly_by :=
  first [ typeclasses eauto | apply calm_trans | apply calm_idle | apply calm_turn | apply calm_breaker
        | (intros; by apply calm_did) | (intros; by apply calm_error) | done | idtac ].

Lemma calm_recover : keeps_calm recover_or_fail.
Proof.
  eapply keeps_recover; calmly_by.
  - intros w. by apply calm_did.
  - intros w. by apply calm_same.
Qed.

(** ** What a part of a step accounts for *)

Definition sound {A} (m : T A) (w : TurnWorld) : Prop :=
  let '(r, w') := m w in
  r ≠ Exec_blocked ∧ ∃ l, tw_trace w' = tw_trace w ++ l ∧ Forall (λ a, completes a = false) l ∧ accounts env r l.

Lemma calm_completes l : Forall calm l → Forall (λ a, completes a = false) l.
Proof. intros Hl. eapply Forall_impl; [exact Hl|]. by intros [[]| | | | | | | |]. Qed.

Lemma sound_after {A} (m : T A) w w1 :
  calmly w w1 → sound m w1 →
  let '(r, w') := m w1 in
  r ≠ Exec_blocked ∧ ∃ l, tw_trace w' = tw_trace w ++ l ∧ Forall (λ a, completes a = false) l ∧ accounts env r l.
Proof.
  intros [_ (l & Hl & Hc)]. unfold sound. destruct (m w1) as [r w2]. intros (Hr & l' & Hl' & Hc' & Ha).
  split; [done|]. exists (l ++ l'). split; [by rewrite Hl', Hl, app_assoc|]. destruct (calm_none l Hc) as [H1 H2].
  split; [apply Forall_app; split; [by apply calm_completes|done]|]. apply accounts_app; [by rewrite H1, H2|done].
Qed.

Lemma sound_ended {A} (r : exec A) w w1 :
  r ≠ Exec_blocked → calmly w w1 → r ≠ Exec_blocked ∧ ∃ l, tw_trace w1 = tw_trace w ++ l ∧ Forall (λ a, completes a = false) l ∧ accounts env r l.
Proof.
  intros Hr [_ (l & Hl & Hc)]. split; [done|]. exists l.
  split; [done|]. split; [by apply calm_completes|by apply accounts_calm].
Qed.

Lemma sound_then {A B} (m : T A) (f : A → T B) w :
  keeps_calm m → lively m →
  (∀ a w1, m w = (Exec_ok a, w1) → ss_dedup (tw_step w1) = ss_dedup (tw_step w) → sound (f a) w1) →
  sound (tthen m f) w.
Proof.
  intros Hm Hb Hf. specialize (Hm w). specialize (Hb w). unfold sound, tthen.
  destruct (m w) as [[a|e|] w1]; [|by apply sound_ended|done].
  apply sound_after; [done|]. apply Hf; [done|]. apply Hm.
Qed.

Lemma sound_calm {A} (m : T A) w : keeps_calm m → lively m → sound m w.
Proof.
  intros Hm Hb. specialize (Hm w). specialize (Hb w). unfold sound.
  destruct (m w) as [[a|e|] w1]; [by apply sound_ended..|done].
Qed.

Lemma sound_on_overflow {A B} (m : T A) (r : T B) (f : A → T B) w :
  keeps_calm m → lively m → keeps_calm r → lively r →
  (∀ a w1, m w = (Exec_ok a, w1) → ss_dedup (tw_step w1) = ss_dedup (tw_step w) → sound (f a) w1) →
  sound (on_overflow m r f) w.
Proof.
  intros Hm Hb Hr Hrb Hf. specialize (Hm w). specialize (Hb w). unfold sound, on_overflow.
  destruct (m w) as [[a|e|] w1]; [| |done].
  - apply sound_after; [done|]. apply Hf; [done|]. apply Hm.
  - destruct e as [[]| | | | | | | | | | | | | |]; try (by apply sound_ended).
    apply sound_after; [done|]. by apply sound_calm.
Qed.

Lemma calm_dispatch messages : keeps_calm (dispatch_after_provider_response env messages).
Proof. eapply keeps_dispatch; calmly_by. Qed.
Lemma calm_message text reasoning calls id started usage window :
  keeps_calm (message_stage parse_json env text reasoning calls id started usage window).
Proof. eapply keeps_message_stage; calmly_by. Qed.
Lemma calm_acknowledge b : keeps_calm (acknowledge_provider_request env b).
Proof. eapply keeps_acknowledge; calmly_by. Qed.
Lemma calm_step_end : keeps_calm (on_step_end_best_effort env).
Proof. eapply keeps_step_end; calmly_by. Qed.
Lemma calm_get {A} (f : TurnWorld → A) : keeps_calm (tget f).
Proof. intros w. simpl. reflexivity. Qed.
Lemma calm_modify f : keeps_calm (turn_modify f).
Proof. intros w. by apply calm_same. Qed.
Lemma calm_ret {A} (a : A) : keeps_calm (tret a).
Proof. intros w. simpl. reflexivity. Qed.

(** ** The pipeline *)

Lemma declare_log calls s :
  let '(r, s') := declare_tool_batch (te_tools env) calls s in
  ∃ new, ss_log s' = ss_log s ++ new ∧ ss_executed s' = ss_executed s ∧ ss_dedup s' = ss_dedup s
  ∧ Forall (λ p, request_event p = true) new
  ∧ match r with
    | Exec_ok _ => omap requested_id new = pi_call_id <$> calls
    | Exec_err _ => ¬ publish_total (te_tools env)
    | Exec_blocked => False
    end.
Proof.
  revert s. induction calls as [|c calls IH]; intros s; simpl.
  { exists []. by rewrite app_nil_r. }
  unfold declare_tool_call, durable, mthen. simpl.
  destruct (env_publish _ _ _) as [[]|e] eqn:He; simpl.
  2: { exists []. rewrite app_nil_r. split_and!; try done. intros Ht. by rewrite Ht in He. }
  set (s1 := append_log _ _). specialize (IH s1). destruct (declare_tool_batch (te_tools env) calls s1) as [r s2].
  destruct IH as (new & Hl & Hx & Hd & Hq & Hr). exists (P_ToolCallRequested (ToolCallId_new (pi_call_id c)) (pi_name c)
    (pi_tool_input c) (pi_raw_arguments c) :: new).
  split_and!; [rewrite Hl; simpl; by rewrite <-app_assoc|done|done|by constructor|].
  destruct r; [|done..]. csimpl. by f_equal.
Qed.

Lemma durables (l : list DurableEventPayload) : omap durable_of (Did_durable <$> l) = l.
Proof. induction l as [|p l IH]; [done|]. csimpl. by f_equal. Qed.
Lemma runs (l : list ExecutableToolInvocation) : omap durable_of (Did_run <$> l) = [].
Proof. by induction l. Qed.

Lemma lifted_ids (x : list ExecutableToolInvocation) (new : list DurableEventPayload) :
  asked ((Did_run <$> x) ++ (Did_durable <$> new)) = omap requested_id new
  ∧ answered ((Did_run <$> x) ++ (Did_durable <$> new)) = omap terminal_id new.
Proof. unfold asked, answered. by rewrite omap_app, runs, durables. Qed.

Lemma lifted_completes (x : list ExecutableToolInvocation) new :
  Forall (λ p, quiet_event p = true) new →
  Forall (λ a, completes a = false) ((Did_run <$> x) ++ (Did_durable <$> new)).
Proof.
  intros Hn. apply Forall_app. rewrite !Forall_fmap. split; [by apply Forall_true|].
  eapply Forall_impl; [exact Hn|]. by intros [].
Qed.

Lemma no_ids {A} (f : DurableEventPayload → option A) (P : DurableEventPayload → bool) new :
  Forall (λ p, P p = true) new → (∀ p, P p = true → f p = None) → omap f (new : list DurableEventPayload) = [].
Proof. intros Hn Hf. induction Hn as [|p new Hp _ IH]; [done|]. simpl. by rewrite Hf. Qed.

Lemma execute_spec calls w :
  batch_ok calls (ss_dedup (tw_step w)) →
  let '(r, w') := lift_step (execute_and_commit value_to_string debug_str encode_history turn_error_to_string
    parses_as_image (te_services env) (te_tools env) (te_max_parallel env) calls) w in
  r ≠ Exec_blocked ∧ ∃ l, tw_trace w' = tw_trace w ++ l ∧ Forall (λ a, completes a = false) l ∧ asked l = []
  ∧ answered l `sublist_of` pi_call_id <$> calls
  ∧ ((∀ e, r ≠ Exec_err e) ∨ publish_total (te_tools env) → answered l = pi_call_id <$> calls).
Proof.
  intros Hok. pose proof (execute_and_commit_ends value_to_string debug_str encode_history turn_error_to_string
    parses_as_image (te_services env) (te_tools env) (te_max_parallel env) calls (tw_step w) Hok) as H.
  pose proof (grows_execute_and_commit value_to_string debug_str encode_history turn_error_to_string parses_as_image
    (te_services env) (te_tools env) (te_max_parallel env) calls (tw_step w)) as [_ (new & Hlog & Hnew) (x & Hx)].
  unfold lift_step. unfold ends in H. destruct (execute_and_commit _ _ _ _ _ _ _ _ _ _) as [r s']. simpl in Hlog, Hx.
  rewrite Hlog, Hx, !drop_app_length. unfold new_log in H.
  assert (omap terminal_id new `sublist_of` pi_call_id <$> calls
    ∧ ((∀ e, r ≠ Exec_err e) ∨ publish_total (te_tools env) → omap terminal_id new = pi_call_id <$> calls)
    ∧ r ≠ Exec_blocked) as (H1 & H2 & H3).
  { destruct r as [a|e|]; [| |done].
    - destruct H as [_ Ht _ _ _ _ _ _ _]. unfold new_log in Ht. rewrite Hlog, drop_app_length in Ht.
      rewrite take_ge in Ht by (by rewrite length_fmap). by rewrite Ht.
    - destruct H as [k [_ Hs Ht _ _ _ _]]. unfold new_log in Hs, Ht. rewrite Hlog, drop_app_length in Hs, Ht.
      rewrite take_ge in Hs, Ht by (rewrite length_fmap; lia). split; [done|]. split; [|done].
      intros [He|Hp]; [by destruct (He e)|by apply Ht]. }
  split; [done|]. eexists. split; [done|]. destruct (lifted_ids x new) as [Ha Hb]. rewrite Ha, Hb. split_and!; try done.
  - apply lifted_completes. eapply Forall_impl; [exact Hnew|]. by intros [].
  - eapply no_ids; [exact Hnew|]. by intros [].
Qed.

Lemma acknowledge_total b w e w' :
  journal_total env → acknowledge_provider_request env b w = (Exec_err e, w') → False.
Proof.
  intros [_ Hs]. unfold acknowledge_provider_request, sync_durable. destruct (negb b); [done|].
  unfold tthen at 1. rewrite (tthen_ok _ _ _ _ _ (ttick_moved w)), Hs. simpl.
  by rewrite (tthen_ok _ _ _ _ _ (ttick_moved _)), (tthen_ok _ _ _ _ _ (did_moved _ _)).
Qed.

(** The stage of the tools: what it declares, it executes and settles. *)
Lemma tools_stage_sound request calls d w :
  NoDup (st_call_id <$> calls) → ss_dedup (tw_step w) = dedup_begin_step d →
  sound (tools_stage value_to_string debug_str encode_history parses_as_image turn_error_to_string env request calls) w.
Proof.
  intros Hnd Hd. unfold tools_stage, response_messages.
  apply sound_then; [apply calm_get|apply lively_get|]. intros messages w1 _ Hd1.
  apply sound_then; [apply calm_dispatch|apply lively_dispatch|]. intros [] w2 _ Hd2.
  apply sound_then; [apply calm_get|apply lively_get|]. intros visible w3 _ Hd3.
  assert (ss_dedup (tw_step w3) = dedup_begin_step d) as Hd' by congruence. clear Hd Hd1 Hd2 Hd3.
  unfold sound. unfold tthen at 1, prepare_batch. rewrite Hd'.
  destruct (prepare_tool_batch _ _ _ _ _ _ _) as [[plan|e] d'] eqn:Hp; simpl.
  2: { split; [done|]. exists []. split; [by rewrite app_nil_r|]. split; [constructor|by apply accounts_calm]. }
  apply prepare_batch_ok in Hp as [Hok Hids]; [|done].
  unfold tthen at 1. set (w4 := set_step _ w3). unfold lift_step at 1. pose proof (declare_log plan (tw_step w4)) as Hdec.
  destruct (declare_tool_batch (te_tools env) plan (tw_step w4)) as [r s4].
  destruct Hdec as (new & Hlog & Hx & Hd4 & Hq & Hr). rewrite Hlog, Hx, drop_app_length, drop_all. simpl.
  set (l4 := Did_durable <$> new). set (w5 := add_trace l4 _).
  assert (tw_trace w5 = tw_trace w3 ++ l4) as Hl4 by done.
  destruct (lifted_ids [] new) as [Ha4 Hb4]. change (_ ++ (Did_durable <$> new)) with l4 in Ha4, Hb4.
  assert (omap terminal_id new = []) as Hnone by (eapply no_ids; [exact Hq|by intros []]). rewrite Hnone in Hb4.
  assert (Forall (λ a, completes a = false) l4) as Hc4.
  { apply (lifted_completes []). eapply Forall_impl; [exact Hq|]. by intros []. }
  destruct r as [[]|e|]; [| |done].
  2: { split; [done|]. exists l4. split; [done|]. split; [done|]. split; rewrite Hb4; [apply sublist_nil_l|..].
       - intros He. by destruct (He e).
       - intros [Ht _]. done. }
  rewrite Hr in Ha4. clear Hr Hq Hlog Hx Hnone.
  unfold tthen at 1. pose proof (calm_acknowledge (lr_acknowledgements request) w5) as Hack.
  pose proof (acknowledge_total (lr_acknowledgements request) w5) as Htot.
  destruct (acknowledge_provider_request env _ w5) as [[u|e|] w6] eqn:Hw6.
  2: { destruct Hack as [_ (l & Hl & Hc)]. destruct (calm_none l Hc) as [H1 H2]. split; [done|].
       exists (l4 ++ l). split; [by rewrite Hl, Hl4, app_assoc|]. split; [apply Forall_app; split; [done|by apply calm_completes]|].
       split; rewrite answered_app, Hb4, H2; [apply sublist_nil_l|..].
       - intros He. by destruct (He e).
       - intros Ht. by destruct (Htot e w6 Ht). }
  2: { pose proof (lively_acknowledge env (lr_acknowledgements request) w5) as Hb. by rewrite Hw6 in Hb. }
  destruct Hack as [Hd6 (l & Hl & Hc)]. destruct (calm_none l Hc) as [H1 H2].
  assert (batch_ok plan (ss_dedup (tw_step w6))) as Hok6 by (rewrite Hd6; simpl; by rewrite Hd4).
  unfold tthen at 1. pose proof (execute_spec plan w6 Hok6) as Hex.
  destruct (lift_step _ w6) as [r w7]. destruct Hex as (Hnb & l7 & Hl7 & Hc7 & Ha7 & Hs7 & Ht7).
  assert (∀ (r' : exec unit), ((∀ e, r' ≠ Exec_err e) → ∀ e, r ≠ Exec_err e) → accounts env r' (l4 ++ l ++ l7)) as Hacc.
  { intros r' Hr'. split; rewrite !asked_app, !answered_app, Ha4, Hb4, H1, H2, Ha7; simpl; rewrite app_nil_r; [done|..].
    - intros Hok'. symmetry. apply Ht7. left. by apply Hr'.
    - intros [Ht _]. symmetry. apply Ht7. by right. }
  assert (tw_trace w7 = tw_trace w3 ++ l4 ++ l ++ l7) as Hl'.
  { rewrite Hl7, Hl, Hl4. by rewrite <-!app_assoc. }
  assert (Forall (λ a, completes a = false) (l4 ++ l ++ l7)) as Hc'.
  { apply Forall_app. split; [done|]. apply Forall_app. split; [by apply calm_completes|done]. }
  destruct r as [discovered|e|]; [| |done]; (split; [done|]); eexists; (split; [exact Hl'|]); (split; [done|]); apply Hacc; [done|].
  intros He. by destruct (He e).
Qed.

(** ** The step *)

Lemma tool_calls_stage_sound text reasoning calls id started usage request d w :
  NoDup (st_call_id <$> calls) → ss_dedup (tw_step w) = dedup_begin_step d →
  sound (tool_calls_stage text reasoning calls id started usage request) w.
Proof.
  intros Hnd Hd. unfold TurnLoop.tool_calls_stage. apply sound_then; [apply calm_message|apply lively_message|]. intros [] w1 _ Hd1.
  pose proof (tools_stage_sound request calls d w1 Hnd ltac:(congruence)) as Ht. unfold sound in *. unfold tthen at 1.
  destruct (tools_stage _ _ _ _ _ _ _ _ w1) as [[u|e|] w2]; destruct Ht as (Hnb & l & Hl & Hc & Ha); [| |done].
  2: { split; [done|]. exists l. split_and!; try done. destruct Ha as [H1 H2 H3]. split; try done.
       intros He. by destruct (He e). }
  assert (sound (tthen (on_step_end_best_effort env) (λ _, tret Step_Continue)) w2) as Hs.
  { apply sound_then; [apply calm_step_end|apply lively_step_end|]. intros [] w3 _ _.
    apply sound_calm; [apply calm_ret|apply lively_ret]. }
  unfold sound in Hs. destruct (tthen _ _ w2) as [r w3]. destruct Hs as (Hr & l' & Hl' & Hc' & Ha').
  split; [done|]. exists (l ++ l'). split_and!; [by rewrite Hl', Hl, app_assoc|by apply Forall_app|].
  apply accounts_app; [|done]. by apply (ac_ok _ _ _ Ha).
Qed.

(** A response with tool calls names each call once. *)
Lemma llm_stage_unique p visible w text reasoning calls id started usage w' :
  llm_stage value_to_string turn_error_to_string env p visible w
  = (Exec_ok (ToolCalls text reasoning calls id started usage), w') → NoDup (st_call_id <$> calls).
Proof.
  unfold llm_stage, tthen at 1. destruct (start_provider_stream _ _ _ _ w) as [[input|e|] w1]; [|done..].
  rewrite (tthen_ok _ _ _ _ _ (ttick_moved w1)). unfold tthen at 1, consume_stream.
  destruct (consume_llm_stream _ _ _ input) as [r lives] eqn:Hc. unfold tthen at 1, tmodify. unfold tthen at 1.
  set (record := match stream_error _ _ _ with Some _ => _ | None => _ end).
  destruct (record _) as [[u|e|] w2]; [|done..].
  destruct r as [outcome|e]; [|done]. simpl. intros H.
  assert (∃ usage', outcome = ToolCalls text reasoning calls id started usage') as [usage' ->].
  { unfold with_usage_fallback, fallback_token_usage in H. revert H.
    destruct outcome as [? ? ? ? ? []|? ? ? ? ? []]; unfold tret; try (by intros [= -> -> -> -> -> _ _]; eexists);
      try done; rewrite !tthen_assoc, (tthen_ok _ _ _ _ _ (ttick_moved _)); unfold tthen, tret; try done;
      intros [= -> -> -> -> -> _ _]; by eexists. }
  by apply consume_calls_ok in Hc as (_ & Hnd & _).
Qed.

Lemma step_body_sound user_text d w :
  ss_dedup (tw_step w) = dedup_begin_step d → sound (step_body user_text) w.
Proof.
  intros Hd. unfold TurnLoop.step_body. 
  apply sound_then; [eapply keeps_sync_mid_turn; calmly_by|apply lively_sync_mid_turn|]. intros n w1 _ Hd1.
  apply sound_then; [eapply keeps_lifecycle; calmly_by|apply lively_lifecycle|]. intros r w2 _ Hd2.
  apply sound_then; [eapply keeps_lift; calmly_by|apply lively_lift|]. intros [] w3 _ Hd3.
  apply sound_then; [apply calm_get|apply lively_get|]. intros visible w4 _ Hd4.
  assert (ss_dedup (tw_step w4) = dedup_begin_step d) as Hd' by congruence. clear Hd Hd1 Hd2 Hd3 Hd4.
  apply sound_on_overflow;
    [eapply keeps_prepare; calmly_by|apply lively_prepare|apply calm_recover|apply lively_recover|]. intros p w5 _ Hd5.
  apply sound_on_overflow; [eapply (keeps_llm value_to_string) with (good := λ _, True); calmly_by|apply lively_llm
    |apply calm_recover|apply lively_recover|].
  intros outcome w6 Hllm Hd6.
  destruct outcome as [text reasoning reason id started usage|text reasoning calls id started usage]; simpl.
  - destruct (_ && _).
    + apply sound_then; [|destruct started; [apply lively_did|apply lively_ret]|].
      * destruct started; [|apply calm_ret]. intros w7. by apply calm_did.
      * intros [] w7 _ _. apply sound_calm; [apply calm_recover|apply lively_recover].
    + apply sound_calm; [|apply lively_complete]. eapply (keeps_complete_stage value_to_string); calmly_by.
  - apply (tool_calls_stage_sound _ _ _ _ _ _ _ d); [by eapply llm_stage_unique|congruence].
Qed.

(** ** The turn *)

Definition settles {A} (m : T A) (w : TurnWorld) : Prop :=
  let '(r, w') := m w in ∃ l, tw_trace w' = tw_trace w ++ l ∧ settled_steps l ∧ accounts env r l.

Lemma run_one_step_lively user_text : lively (run_one_step user_text).
Proof.
  intros w. unfold TurnLoop.run_one_step, t_begin_step, tthen at 1, begin_step. set (w1 := set_step _ (set_turn _ w)).
  unfold tthen at 1. set (p := P_StepStarted _ _).
  destruct (t_durable_cases env p w1) as [(s & -> & _ & Hs)|(e & ->)]; [|done]. set (w2 := add_trace _ _).
  pose proof (step_body_sound user_text (ss_dedup (tw_step w)) w2 Hs) as Hb. unfold sound in Hb.
  destruct (step_body user_text w2) as [[o|e|] w3]; [|done|by destruct Hb]. clear Hb.
  revert w3. intros w3. apply lively_then; [apply lively_durable|intros u; apply lively_ret].
Qed.

Lemma settled_completed i a f : settled_steps [Did_durable (P_StepCompleted i a f)].
Proof. intros l1 i' a' f' l2 H. destruct l1 as [|x [|y l1]]; by simplify_list_eq. Qed.

Lemma run_one_step_settles user_text w : settles (run_one_step user_text) w.
Proof.
  unfold settles, TurnLoop.run_one_step, t_begin_step, tthen at 1, begin_step.
  set (i := next_step_index (tw_turn w)). set (a := default 1%N (resumed_attempt (tw_turn w))).
  set (w1 := set_step _ (set_turn _ w)). unfold tthen at 1.
  destruct (t_durable_cases env (P_StepStarted i a) w1) as [(s & -> & _ & Hs)|(e & ->)].
  2: { exists []. split; [done|]. split; [by apply settled_none|by apply accounts_calm]. }
  set (w2 := add_trace _ _). pose proof (step_body_sound user_text (ss_dedup (tw_step w)) w2 Hs) as Hb. unfold sound in Hb.
  set (l1 := [Did_durable (P_StepStarted i a)]).
  destruct (step_body user_text w2) as [[o|e|] w3]; destruct Hb as (_ & l & Hl & Hc & Ha).
  2-3: exists (l1 ++ l); (split; [simpl; rewrite Hl; simpl; by rewrite <-!app_assoc|]);
    (split; [apply settled_none; by constructor|by apply accounts_app]).
  assert (asked (l1 ++ l) = answered (l1 ++ l)) as Heq.
  { rewrite asked_app, answered_app. f_equal. by apply (ac_ok _ _ _ Ha). }
  assert (settled_steps (l1 ++ l)) as Hset by (apply settled_none; by constructor).
  unfold tthen. set (w4 := t_end_step w3).
  destruct (t_durable_cases env (P_StepCompleted i a (outcome_finish_reason o)) w4) as [(s' & -> & _)|(e & ->)].
  - exists ((l1 ++ l) ++ [Did_durable (P_StepCompleted i a (outcome_finish_reason o))]).
    split; [simpl; rewrite Hl; simpl; by rewrite <-!app_assoc|].
    split; [by apply settled_app; [..|apply settled_completed]|]. apply accounts_equal.
    by rewrite asked_app, answered_app, Heq.
  - exists (l1 ++ l). split; [simpl; rewrite Hl; simpl; by rewrite <-!app_assoc, ?app_nil_r|].
    split; [done|by apply accounts_equal].
Qed.

Lemma turn_steps_settles fuel user_text w : settles (turn_steps fuel user_text) w.
Proof.
  revert w. induction fuel as [|fuel IH]; intros w; unfold settles; cbn [TurnLoop.turn_steps].
  { exists []. split; [by rewrite app_nil_r|]. split; [by apply settled_none|by apply accounts_calm]. }
  unfold tthen at 1. destruct (check_aborted_moved env w) as [->| ->].
  2: { exists []. split; [done|]. split; [by apply settled_none|by apply accounts_calm]. }
  set (w1 := moved 1 [] w). unfold tthen at 1. pose proof (run_one_step_settles user_text w1) as H. unfold settles in H.
  assert (tw_trace w1 = tw_trace w) as Hw1 by (apply app_nil_r). rewrite Hw1 in H.
  destruct (run_one_step user_text w1) as [[o|e|] w2]; destruct H as (l & Hl & Hs & Ha).
  2-3: exists l; (split; [done|]); (split; [done|]); destruct Ha as [H1 H2 H3]; split; try done.
  2: { intros He. by destruct (He e). }
  2: { intros _. by apply H2. }
  assert (asked l = answered l) as Heq by (by apply (ac_ok _ _ _ Ha)).
  destruct o as [|output]; [|exists l; split; [done|]; split; [done|by apply accounts_equal]].
  specialize (IH w2). unfold settles in IH. destruct (turn_steps fuel user_text w2) as [r w3].
  destruct IH as (l' & Hl' & Hs' & Ha'). exists (l ++ l'). split; [by rewrite Hl', Hl, app_assoc|].
  split; [by apply settled_app|by apply accounts_app].
Qed.

Lemma opening_calm l : Forall opening l → Forall calm l.
Proof. intros Hl. eapply Forall_impl; [exact Hl|]. by intros []. Qed.

(** C17. A turn settles the tool calls it declares, in their order: whenever a step is recorded
    as completed, every call declared so far in the turn has its terminal event; a turn that
    does not fail leaves none open, one that fails never settles a call it has not declared,
    and leaves none open either as long as the journal takes events and syncs. *)
Theorem turn_settles_calls fuel tools user_text w :
  let '(r, w') := process_prompt fuel tools user_text w in
  ∃ l, tw_trace w' = tw_trace w ++ l ∧ settled_steps l ∧ accounts env r l.
Proof.
  pose proof (process_prompt_cases value_to_string base_template incremental_template debug_str parse_json
    encode_history parses_as_image to_json session_error_to_string turn_error_to_string env fuel tools user_text w) as H.
  destruct (process_prompt_inner_cases value_to_string base_template incremental_template debug_str parse_json
    encode_history parses_as_image to_json session_error_to_string turn_error_to_string env fuel tools user_text w)
    as (l0 & Hl0%opening_calm & Hi).
  set (inner := process_prompt_inner _ _ _ _ _ _ _ _ _ _ _ _ _ _) in H, Hi.
  assert (settles inner w) as Hin.
  { unfold settles. destruct Hi as [(e & w1 & -> & Ht & _)|(active & w1 & -> & Ht & _)].
    { exists l0. split; [done|]. split; [by apply settled_none, calm_completes|by apply accounts_calm]. }
    pose proof (turn_steps_settles fuel user_text w1) as Hs. unfold settles in Hs.
    destruct (turn_steps fuel user_text w1) as [r w2]. destruct Hs as (l & Hl & Hs & Ha).
    destruct (calm_none l0 Hl0) as [H1 H2]. exists (l0 ++ l). split; [by rewrite Hl, Ht, app_assoc|].
    split; [apply settled_app; [by apply settled_none, calm_completes|by rewrite H1, H2|done]|].
    apply accounts_app; [by rewrite H1, H2|done]. }
  unfold settles in Hin. destruct (inner w) as [r1 w1], (process_prompt fuel tools user_text w) as [r w'].
  destruct H as (l' & Hl' & Hq%opening_calm & _ & _ & Hr). destruct Hin as (l & Hl & Hs & [Ha1 Ha2 Ha3]).
  destruct (calm_none l' Hq) as [H1 H2]. exists (l ++ l'). split; [by rewrite Hl', Hl, app_assoc|].
  assert (asked (l ++ l') = asked l ∧ answered (l ++ l') = answered l) as [E1 E2]
    by (by rewrite asked_app, answered_app, H1, H2, !app_nil_r).
  split; [|split; rewrite E1, E2; try done].
  - intros k i a f k' Heq. apply app_eq_app in Heq as (x & [[-> Hx]|[-> Hx]]).
    + destruct x as [|y x]; simplify_list_eq; [|by eapply Hs].
      apply Forall_cons in Hq as [[] _].
    + subst l'. by apply Forall_app in Hq as [_ [[] _]%Forall_cons].
  - intros He. apply Ha2. intros e ->. by destruct (He e).
Qed.

(** ** A cancelled turn ends *)

Definition later (w w' : TurnWorld) : Prop := ss_clock (tw_step w) ≤ ss_clock (tw_step w').

#[local] Instance later_preorder : PreOrder later.
Proof. unfold later. split; [by intros w|]. intros w w1 w2 H1 H2. by etrans. Qed.

Lemma step_body_later user_text : keeps later (fails_as later) (step_body user_text).
Proof.
  assert (∀ w w1 e w2, later w w1 → fails_as later w1 e w2 → fails_as later w e w2) as Htrans
    by (unfold fails_as, later; intros; lia).
  assert (∀ w w', ss_clock (tw_step w') = ss_clock (tw_step w) → later w w') as Hsame by (unfold later; intros; lia).
  assert (∀ w (s : StepState) (l : list TurnAction), idle_step (tw_step w) s → later w (add_trace l (set_step s w))) as Hidle
    by (unfold later; by intros w s l [Hs _]).
  eapply step_body_keeps with (good := λ _, True); try done; try typeclasses eauto; try (by intros; apply Hsame).
  - intros w s l Hs _. by apply Hidle.
  - intros A m e _ w. unfold durable_error. rewrite tthen_assoc. unfold tthen at 1.
    destruct (t_durable_cases env (P_ErrorOccurred JSON_RPC_INTERNAL_ERROR m false) w) as [(s & -> & Hs & _)|(e' & ->)];
      unfold fails_as, later; simpl; [rewrite Hs|]; lia.
  - eapply keeps_recover; try done; try typeclasses eauto; try (intros w0; by apply Hsame).
    + intros w s l Hs _. by apply Hidle.
    + by intros; apply Hsame.
Qed.

Lemma run_one_step_later user_text w : later w (run_one_step user_text w).2.
Proof.
  enough (keeps later (fails_as later) (run_one_step user_text)) as H
    by (specialize (H w); by destruct (run_one_step user_text w) as [[] ?]).
  eapply run_one_step_keeps; try done; try typeclasses eauto; [..|apply step_body_later]; unfold fails_as, later;
    try (intros; simpl in *; lia).
Qed.

Lemma turn_steps_end N fuel user_text w :
  (∀ n, N ≤ n → env_cancelled (te_tools env) n = true) → 0 < fuel → N < fuel + ss_clock (tw_step w) →
  (turn_steps fuel user_text w).1 ≠ Exec_blocked.
Proof.
  intros HN. revert w. induction fuel as [|fuel IH]; intros w Hpos Hw; cbn [TurnLoop.turn_steps]; [lia|].
  unfold tthen at 1. destruct (decide (N ≤ ss_clock (tw_step w))) as [Hle|Hgt].
  { unfold check_aborted, t_cancelled, lift_step, is_cancelled, mthen, tthen. simpl. by rewrite (HN _ Hle). }
  destruct (check_aborted_moved env w) as [->| ->]; [|done]. set (w1 := moved 1 [] w).
  pose proof (run_one_step_later user_text w1) as Hl. unfold later in Hl. pose proof (run_one_step_lively user_text w1) as Hb.
  unfold tthen. destruct (run_one_step user_text w1) as [[[|o]|e|] w2]; [|done..]. simpl in Hl. apply IH; lia.
Qed.

(** A cancelled turn ends: once cancellation holds, from some interaction [N] on, no
    provider, tool, hook or user keeps the turn going, and it returns a result after at most
    [N + 1] steps. *)
Theorem cancelled_turn_ends N fuel tools user_text w :
  (∀ n, N ≤ n → env_cancelled (te_tools env) n = true) → N < fuel →
  (process_prompt fuel tools user_text w).1 ≠ Exec_blocked.
Proof.
  intros HN Hf. pose proof (process_prompt_cases value_to_string base_template incremental_template debug_str parse_json
    encode_history parses_as_image to_json session_error_to_string turn_error_to_string env fuel tools user_text w) as H.
  destruct (process_prompt_inner_cases value_to_string base_template incremental_template debug_str parse_json
    encode_history parses_as_image to_json session_error_to_string turn_error_to_string env fuel tools user_text w)
    as (l0 & _ & Hi).
  set (inner := process_prompt_inner _ _ _ _ _ _ _ _ _ _ _ _ _ _) in H, Hi.
  assert ((inner w).1 ≠ Exec_blocked) as Hin.
  { destruct Hi as [(e & w1 & -> & _)|(active & w1 & -> & _)]; [done|]. apply (turn_steps_end N); [done|lia..]. }
  destruct (inner w) as [r1 w1], (process_prompt fuel tools user_text w) as [r w'].
  destruct H as (_ & _ & _ & _ & _ & Hr). destruct r1 as [o|e|]; [|by subst|done].
  by destruct Hr as [->|(e & -> & _)].
Qed.
End turns.

(** A provider that asks for a tool in every response, until the turn is cancelled. *)
Module SettleSample.
Definition tools_env : Environment :=
  {| env_publish := env_publish StepSample.env; env_cancelled := λ n, bool_decide (60 ≤ n);
     env_register_approval := env_register_approval StepSample.env;
     env_approval_answer := env_approval_answer StepSample.env;
     env_history_answer := env_history_answer StepSample.env;
     env_run_tool := env_run_tool StepSample.env; env_next_task := env_next_task StepSample.env;
     env_join := env_join StepSample.env; env_post_tool_use := env_post_tool_use StepSample.env;
     env_write_artifact := env_write_artifact StepSample.env |}.
Definition env : TurnEnv :=
  TurnSample.env_with tools_env (λ _, sample_model) (λ _, [ToolCallStart "c1" "read" "{}"; Done "tool_use"]).
Definition run := process_prompt (λ _, "{}") "" "" (λ s, s) (λ _, Some JNull) sample_encode (λ _, false)
  (λ _, Ok "") (λ _, "") (λ _, "") env 61 [TurnSample.tool "read"] "hello" (TurnSample.world []).

(** It runs three steps, and the call of the last one, cancelled, is settled too. *)
Example run_steps :
  run.1 = Exec_err Turn_Aborted ∧ length (omap step_mark (tw_trace run.2)) = 5
  ∧ asked (tw_trace run.2) = ["c1"; "c1"; "c1"] ∧ answered (tw_trace run.2) = ["c1"; "c1"; "c1"].
Proof. by vm_compute. Qed.
End SettleSample.

Lemma cancelled_turn_ends_witness : SettleSample.run.1 ≠ Exec_blocked.
Proof.
  apply (cancelled_turn_ends (λ _, "{}") "" "" (λ s, s) (λ _, Some JNull) sample_encode (λ _, false) (λ _, Ok "")
    (λ _, "") (λ _, "") SettleSample.env 60 61 [TurnSample.tool "read"] "hello" (TurnSample.world [])); [|lia].
  intros n Hn. simpl. by apply bool_decide_eq_true.
Defined.

(** ** The end of a turn is announced twice *)

Definition turn_ends (l : list TurnAction) : nat :=
  length (filter (λ a, match a with Did_lifecycle (TurnEnd _) => true | _ => false end = true) l).

(** A turn whose answer is complete, and whose last step's completion the journal refuses. *)
Module EndSample.
Definition tools_env : Environment :=
  {| env_publish := λ _ p, match p with
       | P_StepCompleted _ _ _ => Err (Turn_Session (Session_EventPublish Publish_Closed))
       | _ => Ok tt
       end;
     env_cancelled := λ _, false;
     env_register_approval := env_register_approval StepSample.env;
     env_approval_answer := env_approval_answer StepSample.env;
     env_history_answer := env_history_answer StepSample.env;
     env_run_tool := env_run_tool StepSample.env; env_next_task := env_next_task StepSample.env;
     env_join := env_join StepSample.env; env_post_tool_use := env_post_tool_use StepSample.env;
     env_write_artifact := env_write_artifact StepSample.env |}.
Definition run (tools : Environment) := process_prompt (λ _, "{}") "" "" (λ s, s) (λ _, Some JNull) sample_encode
  (λ _, false) (λ _, Ok "") (λ _, "") (λ _, "")
  (TurnSample.env_with tools (λ _, sample_model) (λ _, [ContentDelta "Hello."; Done "stop"])) 5
  [TurnSample.tool "read"] "hello" (TurnSample.world []).
End EndSample.

(** [finalize_turn_on_error] makes up for a [TurnEnd] hook that an early return skipped; the
    hook also runs again when the turn fails after it has run. *)
Lemma turn_end_runs_twice :
  turn_ends (tw_trace (EndSample.run StepSample.env).2) = 1
  ∧ turn_ends (tw_trace (EndSample.run EndSample.tools_env).2) = 2.
Proof. by vm_compute. Qed.
