(* ===== verification/TurnIngress.v ===== *)
(** * The event ingress of a turn ([astrcode-session/src/turn_publish.rs])

    Hooks and tools hand their events to a bounded queue; one worker takes them in order and
    publishes them to the session.  The session's answers are functions of the number of the
    attempt; live payloads are a type parameter with the two variants the code looks at.  A
    oneshot channel is a number.  The operations of the clients and the steps of the worker are
    a list of [IngressOp]: the theorems quantify over all of them, so over all interleavings. *)

From S2P Require Import Prelude CoreTypes CoreLlm CoreEvent StoreTypes TurnFinalize LaneModel ToolPrepare.

Definition DURABLE_PUBLISH_MAX_ATTEMPTS : N := 3.
Definition DURABLE_PUBLISH_RETRY_BASE_MS : N := 50.
Definition TURN_EVENT_INGRESS_CAPACITY : nat := 256.

Inductive EventDeliveryReceipt :=
| Receipt_Accepted
| Receipt_LivePublished (event_id : EventId)
| Receipt_Persisted (event_id : EventId) (seq : N).

Inductive EventSendError := Send_Closed | Send_Full | Send_PublishFailed (message : string).

Definition durable_publish_error_is_retryable (e : TurnError) : bool :=
  match e with Turn_Session e => SessionError_is_retryable e | _ => false end.

Section ingress.
  Context {LP : Type} (is_custom_event : LP → bool) (error_occurred : Z → string → bool → LP).
  Context (turn_error_to_string : TurnError → string).
  (** [Session::emit_durable] and [Session::emit_live_required] *)
  Context (persist : nat → DurableEventPayload → result StoredEvent SessionError)
    (live_required : nat → LP → result EventId SessionError).

(** ** The publisher *)

(** What reached the session, in order. *)
Inductive Published :=
| Pub_stored (e : StoredEvent)
| Pub_live (l : LP)
| Pub_required (id : EventId) (l : LP).

Record TurnEvents := {
  emitted_durable_error : bool;
  ingress_error : option string;
  (** the attempts so far, the time slept, and what was published *)
  attempts_made : nat;
  slept_ms : N;
  published : list Published;
}.

Definition TurnEvents_new : TurnEvents :=
  {| emitted_durable_error := false; ingress_error := None; attempts_made := 0; slept_ms := 0; published := [] |}.

Definition attempted (k : nat) (l : list Published) (p : TurnEvents) : TurnEvents :=
  {| emitted_durable_error := emitted_durable_error p; ingress_error := ingress_error p;
     attempts_made := k + attempts_made p; slept_ms := slept_ms p; published := published p ++ l |}.
Definition slept (ms : N) (p : TurnEvents) : TurnEvents :=
  {| emitted_durable_error := emitted_durable_error p; ingress_error := ingress_error p;
     attempts_made := attempts_made p; slept_ms := slept_ms p + ms; published := published p |}.

Definition record_ingress_error (e : TurnError) (p : TurnEvents) : TurnEvents :=
  {| emitted_durable_error := emitted_durable_error p;
     ingress_error := match ingress_error p with Some e => Some e | None => Some (turn_error_to_string e) end;
     attempts_made := attempts_made p; slept_ms := slept_ms p; published := published p |}.

Definition ingress_result (p : TurnEvents) : result unit TurnError :=
  match ingress_error p with Some error => Err (Turn_EventIngress error) | None => Ok tt end.

Definition publish_live (l : LP) (p : TurnEvents) : TurnEvents := attempted 0 [Pub_live l] p.

Definition live_error (code : Z) (message : string) (recoverable : bool) (p : TurnEvents) : TurnEvents :=
  publish_live (error_occurred code message recoverable) p.

Definition durable_failed (e : TurnError) (p : TurnEvents) : TurnError * TurnEvents :=
  (e, live_error JSON_RPC_INTERNAL_ERROR (turn_error_to_string e) false p).

Definition persist_durable (payload : DurableEventPayload) (p : TurnEvents) : result StoredEvent TurnError * TurnEvents :=
  match persist (attempts_made p) payload with
  | Ok stored => (Ok stored, attempted 1 [Pub_stored stored] p)
  | Err e => (Err (Turn_Session e), attempted 1 [] p)
  end.

(** The loop of [durable_with_retry]; [retries] is fuel, which two retries never use up. *)
Fixpoint durable_retry (retries : nat) (attempt : N) (payload : DurableEventPayload) (p : TurnEvents)
    : result StoredEvent TurnError * TurnEvents :=
  let attempt := (attempt + 1)%N in
  match persist_durable payload p with
  | (Ok stored, p) => (Ok stored, p)
  | (Err e, p) =>
    if bool_decide (attempt < DURABLE_PUBLISH_MAX_ATTEMPTS)%N && durable_publish_error_is_retryable e then
      match retries with
      | O => (Err e, p)
      | S retries => durable_retry retries attempt payload (slept (DURABLE_PUBLISH_RETRY_BASE_MS * attempt) p)
      end
    else let '(e, p) := durable_failed e p in (Err e, p)
  end.

Definition durable_with_retry (payload : DurableEventPayload) (p : TurnEvents)
    : result StoredEvent TurnError * TurnEvents := durable_retry 2 0 payload p.

Definition dispatch_payload (payload : EventPayload LP) (p : TurnEvents)
    : result EventDeliveryReceipt TurnError * TurnEvents :=
  match payload with
  | Payload_Durable payload =>
    match durable_with_retry payload p with
    | (Ok stored, p) => (Ok (Receipt_Persisted (se_id stored) (se_seq stored)), p)
    | (Err e, p) => (Err e, p)
    end
  | Payload_Live l =>
    if is_custom_event l then
      match live_required (attempts_made p) l with
      | Ok id => (Ok (Receipt_LivePublished id), attempted 1 [Pub_required id l] p)
      | Err e => (Err (Turn_Session e), attempted 1 [] p)
      end
    else (Ok Receipt_Accepted, publish_live l p)
  end.

(** ** The ingress *)

Inductive IngressCommand :=
| Ingress_Publish (payload : EventPayload LP) (reply : option nat)
| Ingress_Flush (ack : nat)
| Ingress_Shutdown (ack : nat).

(** What a oneshot channel got. *)
Inductive Answer :=
| Answered (r : result EventDeliveryReceipt EventSendError)
| Acknowledged.

Record TurnEventIngress := {
  queue : list IngressCommand;
  (** [command_rx.close()] was called *)
  closed : bool;
  shutdown_ack : option nat;
  worker_stopped : bool;
  publisher : TurnEvents;
  answers : list (nat * Answer);
  next_channel : nat;
}.

Definition TurnEventIngress_start : TurnEventIngress :=
  {| queue := []; closed := false; shutdown_ack := None; worker_stopped := false;
     publisher := TurnEvents_new; answers := []; next_channel := 0 |}.

Definition enqueue (c : IngressCommand) (used : nat) (s : TurnEventIngress) : TurnEventIngress :=
  {| queue := queue s ++ [c]; closed := closed s; shutdown_ack := shutdown_ack s; worker_stopped := worker_stopped s;
     publisher := publisher s; answers := answers s; next_channel := used + next_channel s |}.

Definition full (s : TurnEventIngress) : bool := bool_decide (TURN_EVENT_INGRESS_CAPACITY ≤ length (queue s)).

(** [TurnEventPublisher::try_send]. *)
Definition try_send (payload : EventPayload LP) (s : TurnEventIngress) : result unit EventSendError * TurnEventIngress :=
  if closed s then (Err Send_Closed, s)
  else if full s then (Err Send_Full, s)
  else (Ok tt, enqueue (Ingress_Publish payload None) 0 s).

(** A send that waits for room: [None] while there is none; the number is the channel the
    caller waits on. *)
Definition send (command : nat → IngressCommand) (s : TurnEventIngress) : option (option nat) * TurnEventIngress :=
  if closed s then (Some None, s)
  else if full s then (None, s)
  else (Some (Some (next_channel s)), enqueue (command (next_channel s)) 1 s).

Definition send_confirmed (payload : EventPayload LP) := send (λ ch, Ingress_Publish payload (Some ch)).
Definition flush := send Ingress_Flush.
Definition shutdown := send Ingress_Shutdown.

(** What the worker does with a command. *)
Definition process (c : IngressCommand) (s : TurnEventIngress) : TurnEventIngress :=
  match c with
  | Ingress_Publish payload reply =>
    let '(r, p) := dispatch_payload payload (publisher s) in
    let p := match r with Err e => record_ingress_error e p | Ok _ => p end in
    {| queue := queue s; closed := closed s; shutdown_ack := shutdown_ack s; worker_stopped := worker_stopped s;
       publisher := p;
       answers := answers s ++ match reply with
                               | Some ch => [(ch, Answered (map_err (λ e, Send_PublishFailed (turn_error_to_string e)) r))]
                               | None => []
                               end;
       next_channel := next_channel s |}
  | Ingress_Flush ack =>
    {| queue := queue s; closed := closed s; shutdown_ack := shutdown_ack s; worker_stopped := worker_stopped s;
       publisher := publisher s; answers := answers s ++ [(ack, Acknowledged)]; next_channel := next_channel s |}
  | Ingress_Shutdown ack =>
    {| queue := queue s; closed := true; shutdown_ack := Some ack; worker_stopped := worker_stopped s;
       publisher := publisher s; answers := answers s; next_channel := next_channel s |}
  end.

Definition take_head (s : TurnEventIngress) : option (IngressCommand * TurnEventIngress) :=
  match queue s with
  | [] => None
  | c :: rest =>
    Some (c, {| queue := rest; closed := closed s; shutdown_ack := shutdown_ack s; worker_stopped := worker_stopped s;
                publisher := publisher s; answers := answers s; next_channel := next_channel s |})
  end.

(** One turn of the worker's loop: [recv] gives a command, or nothing once the queue is closed
    and empty, which ends the loop; otherwise the worker waits. *)
Definition work (s : TurnEventIngress) : TurnEventIngress :=
  if worker_stopped s then s
  else
    match take_head s with
    | Some (c, s) => process c s
    | None =>
      if closed s then
        {| queue := []; closed := true; shutdown_ack := shutdown_ack s; worker_stopped := true; publisher := publisher s;
           answers := answers s ++ match shutdown_ack s with Some ch => [(ch, Acknowledged)] | None => [] end;
           next_channel := next_channel s |}
      else s
    end.

(** What [flush] and [shutdown] return once their channel is answered. *)
Definition flush_result (s : TurnEventIngress) : result unit TurnError := ingress_result (publisher s).

Inductive IngressOp :=
| Op_try_send (payload : EventPayload LP)
| Op_send (payload : EventPayload LP)
| Op_flush
| Op_shutdown
| Op_work.

Definition ingress_step (s : TurnEventIngress) (op : IngressOp) : TurnEventIngress :=
  match op with
  | Op_try_send payload => (try_send payload s).2
  | Op_send payload => (send_confirmed payload s).2
  | Op_flush => (flush s).2
  | Op_shutdown => (shutdown s).2
  | Op_work => work s
  end.

Definition ingress_run (ops : list IngressOp) (s : TurnEventIngress) : TurnEventIngress := foldl ingress_step s ops.

(** ** Publication *)

Definition stored (l : list Published) : list DurableEventPayload :=
  omap (λ a, match a with Pub_stored e => Some (se_payload e) | _ => None end) l.

Lemma stored_app l l' : stored (l ++ l') = stored l ++ stored l'.
Proof. apply omap_app. Qed.

(** At most three attempts, each after the first one only after a retryable error; the event
    is stored by the last one or not at all, and a failure is shown. *)
Lemma durable_retry_spec retries attempt payload p :
  (attempt + 1 + N.of_nat retries)%N = DURABLE_PUBLISH_MAX_ATTEMPTS →
  let '(r, p') := durable_retry retries attempt payload p in
  ingress_error p' = ingress_error p
  ∧ (attempts_made p < attempts_made p' ≤ attempts_made p + S retries)%nat
  ∧ match r with
    | Ok e => persist (pred (attempts_made p')) payload = Ok e ∧ published p' = published p ++ [Pub_stored e]
    | Err e => ∃ l, published p' = published p ++ [Pub_live l]
        ∧ l = error_occurred JSON_RPC_INTERNAL_ERROR (turn_error_to_string e) false
    end.
Proof.
  revert attempt p. induction retries as [|retries IH]; intros attempt p Ha; cbn [durable_retry]; unfold persist_durable;
    destruct (persist (attempts_made p) payload) as [e|e] eqn:He; simpl.
  - split; [done|]. split; [lia|]. done.
  - rewrite bool_decide_eq_false_2 by lia. simpl. split; [done|]. split; [lia|]. eexists. by rewrite app_nil_r.
  - split; [done|]. split; [lia|]. done.
  - destruct (_ && _).
    + specialize (IH (attempt + 1)%N (slept (DURABLE_PUBLISH_RETRY_BASE_MS * (attempt + 1)) (attempted 1 [] p))
        ltac:(lia)). destruct (durable_retry _ _ _ _) as [r p']. simpl in IH. rewrite app_nil_r in IH.
      destruct IH as (H1 & H2 & H3). split; [done|]. split; [lia|]. done.
    + simpl. split; [done|]. split; [lia|]. eexists. by rewrite app_nil_r.
Qed.

Definition durable_payloads (l : list IngressCommand) : list DurableEventPayload :=
  omap (λ c, match c with Ingress_Publish (Payload_Durable p) _ => Some p | _ => None end) l.

Lemma durable_payloads_app l l' : durable_payloads (l ++ l') = durable_payloads l ++ durable_payloads l'.
Proof. apply omap_app. Qed.

(** The session stores the payload it is given. *)
Definition lawful : Prop := ∀ n payload e, persist n payload = Ok e → se_payload e = payload.

(** One command: what it stores, whether it fails, and what its sender is told. *)
Lemma dispatch_spec payload p :
  lawful →
  let '(r, p') := dispatch_payload payload p in
  ingress_error p' = ingress_error p
  ∧ ∃ l, published p' = published p ++ l
  ∧ match r with
    | Ok receipt => stored l = durable_payloads [Ingress_Publish payload None]
        ∧ (∀ id seq, receipt = Receipt_Persisted id seq → ∃ e, l = [Pub_stored e] ∧ se_id e = id ∧ se_seq e = seq)
    | Err _ => stored l = []
    end.
Proof.
  intros Hlaw. unfold dispatch_payload. destruct payload as [payload|l].
  - unfold durable_with_retry. pose proof (durable_retry_spec 2 0 payload p eq_refl) as H.
    destruct (durable_retry 2 0 payload p) as [[e|e] p']; destruct H as (H1 & _ & H2); (split; [done|]).
    + destruct H2 as [He ->]. apply Hlaw in He. exists [Pub_stored e]. split; [done|]. split; [by simpl; rewrite He|].
      intros id seq [= <- <-]. by exists e.
    + destruct H2 as (l & -> & _). by exists [Pub_live l].
  - destruct (is_custom_event l).
    + destruct (live_required _ l) as [id|e]; (split; [done|]); eexists; (split; [done|]); done.
    + split; [done|]. by exists [Pub_live l].
Qed.

(** ** The queue *)

(** The command an operation puts into the queue. *)
Definition accepts (s : TurnEventIngress) (op : IngressOp) : list IngressCommand :=
  if closed s || full s then []
  else
    match op with
    | Op_try_send payload => [Ingress_Publish payload None]
    | Op_send payload => [Ingress_Publish payload (Some (next_channel s))]
    | Op_flush => [Ingress_Flush (next_channel s)]
    | Op_shutdown => [Ingress_Shutdown (next_channel s)]
    | Op_work => []
    end.

Fixpoint accepted (ops : list IngressOp) (s : TurnEventIngress) : list IngressCommand :=
  match ops with
  | [] => []
  | op :: ops => accepts s op ++ accepted ops (ingress_step s op)
  end.

Definition channel (c : IngressCommand) : option nat :=
  match c with Ingress_Publish _ reply => reply | Ingress_Flush ch | Ingress_Shutdown ch => Some ch end.
Definition is_shutdown (c : IngressCommand) : bool := match c with Ingress_Shutdown _ => true | _ => false end.

(** The senders that got their answer from a command, other than at the end. *)
Definition told (c : IngressCommand) : list nat :=
  if is_shutdown c then [] else match channel c with Some ch => [ch] | None => [] end.

(** The commands taken are [taken]. *)
Record served (taken all : list IngressCommand) (s : TurnEventIngress) : Prop := {
  sv_order : all = taken ++ queue s;
  sv_room : length (queue s) ≤ TURN_EVENT_INGRESS_CAPACITY;
  sv_stored : stored (published (publisher s)) `sublist_of` durable_payloads taken;
  sv_all : flush_result s = Ok tt → stored (published (publisher s)) = durable_payloads taken;
  sv_answers : (answers s).*1
    = (taken ≫= told) ++ match worker_stopped s, shutdown_ack s with true, Some ch => [ch] | _, _ => [] end;
  sv_receipts : ∀ ch id seq, (ch, Answered (Ok (Receipt_Persisted id seq))) ∈ answers s →
    ∃ e, Pub_stored e ∈ published (publisher s) ∧ se_id e = id ∧ se_seq e = seq
      ∧ Ingress_Publish (Payload_Durable (se_payload e)) (Some ch) ∈ taken;
  sv_shutdown : match shutdown_ack s with
    | Some ch => Ingress_Shutdown ch ∈ taken ∧ closed s = true
    | None => Forall (λ c, is_shutdown c = false) taken ∧ closed s = false
    end;
  sv_stopped : worker_stopped s = true → closed s = true ∧ queue s = [];
}.

Lemma served_start : served [] [] TurnEventIngress_start.
Proof. split; try done; simpl; lia || (by intros ? ? ? ?%not_elem_of_nil). Qed.

Lemma served_enqueue taken all s c used :
  served taken all s → closed s = false → full s = false → served taken (all ++ [c]) (enqueue c used s).
Proof.
  intros [H1 H2 H3 H4 H5 H6 H7 H8] Hc Hf. unfold full in Hf. apply bool_decide_eq_false in Hf. split; simpl; try done.
  - by rewrite H1, app_assoc.
  - rewrite length_app. simpl. lia.
  - intros Hs. destruct (H8 Hs). congruence.
Qed.

Lemma send_served taken all s command op :
  accepts s op = (if closed s || full s then [] else [command (next_channel s)]) →
  served taken all s → served taken (all ++ accepts s op) (send command s).2.
Proof.
  intros -> Hs. unfold send. destruct (closed s) eqn:Hc; simpl; [by rewrite app_nil_r|].
  destruct (full s) eqn:Hf; simpl; [by rewrite app_nil_r|]. by apply served_enqueue.
Qed.

Definition taken_from (s : TurnEventIngress) (rest : list IngressCommand) : TurnEventIngress :=
  {| queue := rest; closed := closed s; shutdown_ack := shutdown_ack s; worker_stopped := worker_stopped s;
     publisher := publisher s; answers := answers s; next_channel := next_channel s |}.

Lemma durable_reply payload reply :
  durable_payloads [Ingress_Publish payload reply] = durable_payloads [Ingress_Publish payload None].
Proof. by destruct payload. Qed.

Lemma process_publish taken all s payload reply rest :
  lawful → served taken all s → queue s = Ingress_Publish payload reply :: rest → worker_stopped s = false →
  served (taken ++ [Ingress_Publish payload reply]) all (process (Ingress_Publish payload reply) (taken_from s rest)).
Proof.
  intros Hlaw [H1 H2 H3 H4 H5 H6 H7 H8] Hq Hw. rewrite Hw in H5. rewrite app_nil_r in H5.
  pose proof (dispatch_spec payload (publisher s) Hlaw) as Hd. unfold process. simpl.
  destruct (dispatch_payload payload (publisher s)) as [r p]. destruct Hd as (He & l & Hl & Hr).
  set (p' := match r with Ok _ => p | Err e => record_ingress_error e p end).
  assert (published p' = published (publisher s) ++ l) as Hl' by (unfold p'; by destruct r).
  split; simpl; try done.
  - by rewrite H1, Hq, <-app_assoc.
  - rewrite Hq in H2. simpl in H2. lia.
  - rewrite Hl', stored_app, durable_payloads_app, durable_reply. apply sublist_app; [done|].
    destruct r as [receipt|e]; [destruct Hr as [-> _]; done|rewrite Hr; apply sublist_nil_l].
  - intros Hok. destruct r as [receipt|e]; [|unfold flush_result, ingress_result in Hok; simpl in Hok; by destruct (ingress_error p)].
    unfold flush_result, ingress_result in Hok, H4. simpl in Hok. unfold p' in Hok. rewrite He in Hok.
    rewrite Hl', stored_app, durable_payloads_app, durable_reply. f_equal; [by apply H4|]. apply Hr.
  - rewrite Hw, fmap_app, H5, bind_app, app_nil_r. f_equal. by destruct reply.
  - intros ch id seq [Hin|Hin]%elem_of_app.
    + destruct (H6 ch id seq Hin) as (e & He1 & Hid & Hseq & Ht). exists e. rewrite Hl'. split_and!; [|done..|]; set_solver.
    + destruct reply as [ch'|]; [|by apply not_elem_of_nil in Hin]. apply list_elem_of_singleton in Hin.
      injection Hin as -> Hin. destruct r as [receipt|e]; simpl in Hin; [|done]. injection Hin as <-.
      destruct Hr as [Hs Hr]. destruct (Hr id seq eq_refl) as (e & -> & Hid & Hseq). exists e. rewrite Hl'.
      split_and!; [set_solver|done..|]. destruct payload as [payload|]; simpl in Hs; [|done]. injection Hs as ->.
      set_solver.
  - destruct (shutdown_ack s); [split; [set_solver|naive_solver]|]. split; [|naive_solver].
    apply Forall_app. split; [naive_solver|by repeat constructor].
  - congruence.
Qed.

Lemma work_served taken all s : lawful → served taken all s → ∃ taken', served taken' all (work s).
Proof.
  intros Hlaw Hs. unfold work. destruct (worker_stopped s) eqn:Hw; [by exists taken|]. unfold take_head.
  destruct (queue s) as [|c rest] eqn:Hq.
  - destruct (closed s) eqn:Hc; [|by exists taken]. exists taken. destruct Hs as [H1 H2 H3 H4 H5 H6 H7 H8].
    split; simpl; try done; rewrite ?Hq in *; try done.
    + rewrite fmap_app, H5, Hw, app_nil_r. f_equal. by destruct (shutdown_ack s).
    + intros ch id seq [Hin|Hin]%elem_of_app; [by apply (H6 ch id seq)|]. by destruct (shutdown_ack s); set_solver.
    + destruct (shutdown_ack s) as [ch|]; destruct H7 as [H7 Hc']; [done|congruence].
  - exists (taken ++ [c]). destruct c as [payload reply|ack|ack].
    + by eapply process_publish.
    + destruct Hs as [H1 H2 H3 H4 H5 H6 H7 H8]. rewrite Hw in *. rewrite app_nil_r in H5. simpl. split; simpl; try done.
      * by rewrite H1, Hq, <-app_assoc.
      * rewrite Hq in H2. simpl in H2. lia.
      * by rewrite durable_payloads_app, app_nil_r.
      * intros Hok. rewrite durable_payloads_app, app_nil_r. by apply H4.
      * by rewrite fmap_app, H5, bind_app, app_nil_r.
      * intros ch id seq [Hin|Hin]%elem_of_app; [|by apply list_elem_of_singleton in Hin].
        destruct (H6 ch id seq Hin) as (e & ? & ? & ? & ?). exists e. set_solver.
      * destruct (shutdown_ack s); [set_solver|]. split; [|naive_solver]. apply Forall_app.
        split; [naive_solver|by repeat constructor].
    + destruct Hs as [H1 H2 H3 H4 H5 H6 H7 H8]. rewrite Hw in *. rewrite app_nil_r in H5. simpl. split; simpl; try done.
      * by rewrite H1, Hq, <-app_assoc.
      * rewrite Hq in H2. simpl in H2. lia.
      * by rewrite durable_payloads_app, app_nil_r.
      * intros Hok. rewrite durable_payloads_app, app_nil_r. by apply H4.
      * by rewrite H5, bind_app, !app_nil_r.
      * intros ch id seq Hin. destruct (H6 ch id seq Hin) as (e & ? & ? & ? & ?). exists e. set_solver.
      * split; [set_solver|done].
Qed.

Lemma step_served taken all s op :
  lawful → served taken all s → ∃ taken', served taken' (all ++ accepts s op) (ingress_step s op).
Proof.
  intros Hlaw Hs. destruct op as [payload|payload| | |]; simpl.
  - exists taken. unfold try_send, accepts. destruct (closed s) eqn:Hc; simpl; [by rewrite app_nil_r|].
    destruct (full s) eqn:Hf; simpl; [by rewrite app_nil_r|]. by apply served_enqueue.
  - exists taken. by apply (send_served _ _ _ (λ ch, Ingress_Publish payload (Some ch)) (Op_send payload)).
  - exists taken. by apply (send_served _ _ _ Ingress_Flush Op_flush).
  - exists taken. by apply (send_served _ _ _ Ingress_Shutdown Op_shutdown).
  - assert (accepts s Op_work = []) as -> by (unfold accepts; by destruct (_ || _)). rewrite app_nil_r.
    by eapply work_served.
Qed.

Lemma run_served ops taken all s :
  lawful → served taken all s → ∃ taken', served taken' (all ++ accepted ops s) (ingress_run ops s).
Proof.
  intros Hlaw. revert taken all s. induction ops as [|op ops IH]; intros taken all s Hs; simpl.
  { exists taken. by rewrite app_nil_r. }
  destruct (step_served taken all s op Hlaw Hs) as [taken' Hs']. rewrite app_assoc. by eapply IH.
Qed.

(** Every sender waits on a channel of its own. *)
Lemma accepted_channels ops s :
  NoDup (omap channel (accepted ops s)) ∧ Forall (λ ch, next_channel s ≤ ch) (omap channel (accepted ops s)).
Proof.
  revert s. induction ops as [|op ops IH]; intros s; simpl; [by split; constructor|].
  destruct (IH (ingress_step s op)) as [H1 H2]. rewrite omap_app.
  assert (omap channel (accepts s op) = [] ∧ next_channel s ≤ next_channel (ingress_step s op)
    ∨ omap channel (accepts s op) = [next_channel s] ∧ next_channel (ingress_step s op) = S (next_channel s)) as [[-> Hn]|[-> Hn]].
  { unfold accepts, ingress_step, try_send, send_confirmed, flush, shutdown, send.
    destruct op; simpl; try (destruct (closed s); simpl; [by left|]; destruct (full s); simpl; [by left|]);
      try (by right); try (by left).
    left. split; [by destruct (_ || _)|]. unfold work. destruct (worker_stopped s); [done|]. unfold take_head.
    destruct (queue s) as [|[payload reply|ack|ack] rest]; simpl; [by destruct (closed s)| |done..].
    by destruct (dispatch_payload _ _). }
  - simpl. split; [done|]. eapply Forall_impl; [exact H2|]. simpl. intros. lia.
  - rewrite Hn in H2. split.
    + constructor; [|done]. intros Hin. rewrite Forall_forall in H2. specialize (H2 _ Hin). simpl in H2. lia.
    + constructor; [done|]. eapply Forall_impl; [exact H2|]. simpl. intros. lia.
Qed.

Lemma answered_taken taken all s ch :
  served taken all s → ch ∈ (answers s).*1 → ∃ c, c ∈ taken ∧ channel c = Some ch.
Proof.
  intros Hs. rewrite (sv_answers _ _ _ Hs). intros [Hin|Hin]%elem_of_app.
  - apply list_elem_of_bind in Hin as (c & Hc & Hin). exists c. split; [done|]. unfold told in Hc.
    destruct (is_shutdown c); [by apply not_elem_of_nil in Hc|]. destruct (channel c); set_solver.
  - pose proof (sv_shutdown _ _ _ Hs) as Hsh. destruct (worker_stopped s), (shutdown_ack s) as [ch'|];
      try (by apply not_elem_of_nil in Hin). apply list_elem_of_singleton in Hin as ->.
    destruct Hsh as [Hsh _]. by exists (Ingress_Shutdown ch').
Qed.

Lemma channels_unique (l1 l2 : list IngressCommand) c c' ch :
  NoDup (omap channel (l1 ++ l2)) → c ∈ l1 → c' ∈ l2 → channel c = Some ch → channel c' = Some ch → False.
Proof.
  rewrite omap_app. intros (_ & Hd & _)%NoDup_app H1 H2 Hc Hc'. apply (Hd ch); apply list_elem_of_omap; [by exists c|by exists c'].
Qed.

(** C31. The ingress of a turn publishes in order and reports truly.  However clients and the
    worker interleave: the commands it has taken are the first of those it accepted, the queue
    holds the others, never more than its capacity; what is stored are payloads of the taken
    commands, in their order, each at most once, and all of them unless the ingress reports an
    error; each sender is answered at most once, in order, a stored event's receipt names it;
    and a sender whose flush is answered knows that all that was accepted before is taken. *)
Theorem ingress_in_order ops :
  lawful →
  let s := ingress_run ops TurnEventIngress_start in
  let all := accepted ops TurnEventIngress_start in
  ∃ taken, served taken all s ∧ NoDup (omap channel all)
  ∧ ∀ before ch after, all = before ++ Ingress_Flush ch :: after → ch ∈ (answers s).*1 → before `prefix_of` taken.
Proof.
  intros Hlaw s all. destruct (run_served ops [] [] TurnEventIngress_start Hlaw served_start) as [taken Hs].
  exists taken. destruct (accepted_channels ops TurnEventIngress_start) as [Hnd _]. split; [done|]. split; [done|].
  intros before ch after Hall Hin. destruct (answered_taken _ _ _ _ Hs Hin) as (c & Hc & Hch).
  pose proof (sv_order _ _ _ Hs) as Ho. simpl in Ho. fold all in Ho. rewrite Hall in Ho.
  apply app_eq_app in Ho as (k & [[-> _]|[-> _]]); [|by exists k].
  exfalso. fold all in Hnd. rewrite Hall in Hnd.
  eapply (channels_unique _ _ c (Ingress_Flush ch) ch Hnd); [set_solver|set_solver|done|done].
Qed.

(** ** The end *)

(** The position of the first shutdown in the queue. *)
Fixpoint before_shutdown (l : list IngressCommand) : option nat :=
  match l with
  | [] => None
  | c :: l => if is_shutdown c then Some 0 else S <$> before_shutdown l
  end.

(** How often the worker runs before it stops, for a queue that is closed or holds a shutdown. *)
Definition remaining (s : TurnEventIngress) : option nat :=
  if worker_stopped s then Some 0
  else if closed s then Some (S (length (queue s)))
  else (λ n, n + S (S TURN_EVENT_INGRESS_CAPACITY)) <$> before_shutdown (queue s).

Lemma before_shutdown_app l c n : before_shutdown l = Some n → before_shutdown (l ++ [c]) = Some n.
Proof.
  revert n. induction l as [|c' l IH]; intros n; simpl; [done|]. destruct (is_shutdown c'); [done|].
  destruct (before_shutdown l) as [m|]; [|done]. intros [= <-]. by rewrite (IH m).
Qed.

Lemma remaining_enqueue s c used n :
  closed s = false → worker_stopped s = false → remaining s = Some n → remaining (enqueue c used s) = Some n.
Proof.
  unfold remaining. simpl. intros -> ->. destruct (before_shutdown (queue s)) as [m|] eqn:Hm; [|done].
  by rewrite (before_shutdown_app _ _ _ Hm).
Qed.

Lemma remaining_send taken all s command n :
  served taken all s → remaining s = Some n → remaining (send command s).2 = Some n.
Proof.
  intros Hs Hn. unfold send. destruct (closed s) eqn:Hc; [done|]. destruct (full s); [done|].
  apply remaining_enqueue; try done. destruct (worker_stopped s) eqn:Hw; [|done].
  destruct (sv_stopped _ _ _ Hs Hw). congruence.
Qed.

Lemma remaining_process s c rest n :
  worker_stopped s = false → length (queue s) ≤ TURN_EVENT_INGRESS_CAPACITY → queue s = c :: rest → remaining s = Some n →
  ∃ n', remaining (process c (taken_from s rest)) = Some n' ∧ n' < n.
Proof.
  unfold remaining. intros Hw Hl Hq. rewrite Hw, Hq in *. simpl in Hl.
  destruct c as [payload reply|ack|ack]; simpl; rewrite ?Hw.
  - destruct (dispatch_payload _ _). simpl. rewrite ?Hw. destruct (closed s); [intros [= <-]; eexists; split; [done|lia]|].
    destruct (before_shutdown rest); simpl; [|done]. intros [= <-]. eexists. split; [done|lia].
  - destruct (closed s); [intros [= <-]; eexists; split; [done|lia]|].
    destruct (before_shutdown rest); simpl; [|done]. intros [= <-]. eexists. split; [done|lia].
  - destruct (closed s); intros [= <-]; eexists; (split; [done|]); lia.
Qed.

Lemma remaining_work taken all s n :
  served taken all s → remaining s = Some n → ∃ n', remaining (work s) = Some n' ∧ n' ≤ pred n.
Proof.
  intros Hs Hn. unfold work. destruct (worker_stopped s) eqn:Hw.
  { exists n. split; [done|]. unfold remaining in Hn. rewrite Hw in Hn. injection Hn as <-. lia. }
  unfold take_head. destruct (queue s) as [|c rest] eqn:Hq.
  - revert Hn. unfold remaining at 1. rewrite Hw, Hq. destruct (closed s); [|done]. intros [= <-]. exists 0. split; [done|lia].
  - destruct (remaining_process s c rest n Hw (sv_room _ _ _ Hs) Hq Hn) as (n' & H1 & H2). exists n'. split; [done|lia].
Qed.

Definition is_work (op : IngressOp) : bool := match op with Op_work => true | _ => false end.
Definition works (ops : list IngressOp) : nat := length (filter (λ op, is_work op = true) ops).

Lemma remaining_run taken all s n ops :
  lawful → served taken all s → remaining s = Some n →
  ∃ n', remaining (ingress_run ops s) = Some n' ∧ n' ≤ n - works ops.
Proof.
  intros Hlaw. revert taken all s n. induction ops as [|op ops IH]; intros taken all s n Hs Hn.
  { exists n. unfold works. simpl. split; [done|lia]. }
  destruct (step_served taken all s op Hlaw Hs) as [taken' Hs'].
  assert (∃ n', remaining (ingress_step s op) = Some n' ∧ n' ≤ n - works [op]) as (n' & Hn' & Hle).
  { destruct op; simpl; try (exists n; split; [by eapply remaining_send|unfold works; simpl; lia]).
    - exists n. split; [|unfold works; simpl; lia]. unfold try_send.
      pose proof (remaining_send _ _ s (λ _, Ingress_Publish payload None) n Hs Hn) as H. unfold send in H.
      destruct (closed s); [done|]. by destruct (full s).
    - destruct (remaining_work _ _ _ _ Hs Hn) as (n' & H1 & H2). exists n'. split; [done|]. unfold works. simpl. lia. }
  destruct (IH _ _ _ _ Hs' Hn') as (n'' & H1 & H2). exists n''. split; [done|].
  assert (works (op :: ops) = works [op] + works ops) as ->; [|lia].
  unfold works. rewrite <-length_app, <-filter_app. done.
Qed.

Lemma shutdown_remaining taken all s ch :
  served taken all s → Ingress_Shutdown ch ∈ all →
  ∃ n, remaining s = Some n ∧ n ≤ 2 * TURN_EVENT_INGRESS_CAPACITY + 2.
Proof.
  intros [H1 H2 _ _ _ _ H7 H8]. rewrite H1. unfold remaining. destruct (worker_stopped s); [intros _; eexists; split; [done|lia]|].
  destruct (shutdown_ack s) as [ch'|].
  - destruct H7 as [_ ->]. intros _. eexists. split; [done|lia].
  - destruct H7 as [Hf ->]. intros [Hin|Hin]%elem_of_app.
    { rewrite Forall_forall in Hf. by specialize (Hf _ Hin). }
    assert (∃ m, before_shutdown (queue s) = Some m ∧ m < length (queue s)) as (m & -> & Hm).
    { clear -Hin. induction (queue s) as [|c l IH]; [by apply not_elem_of_nil in Hin|]. simpl.
      apply elem_of_cons in Hin as [<-|Hin]; [eexists; split; [done|simpl; lia]|].
      destruct (is_shutdown c); [eexists; split; [done|simpl; lia]|]. destruct (IH Hin) as (m & -> & Hm).
      eexists. split; [done|simpl; lia]. }
    eexists. split; [done|]. lia.
Qed.

Lemma accepted_app ops ops' s : accepted (ops ++ ops') s = accepted ops s ++ accepted ops' (ingress_run ops s).
Proof. revert s. induction ops as [|op ops IH]; intros s; simpl; [done|]. by rewrite IH, app_assoc. Qed.

(** The ingress drains: once a shutdown is accepted, however the clients go on, the worker
    stops after at most twice the capacity and two of its turns; then the queue is empty, every
    accepted command was taken, and nothing changes any more. *)
Theorem ingress_drains ops ops' :
  lawful →
  let s' := ingress_run (ops ++ ops') TurnEventIngress_start in
  let all := accepted (ops ++ ops') TurnEventIngress_start in
  (∃ ch, Ingress_Shutdown ch ∈ accepted ops TurnEventIngress_start) →
  2 * TURN_EVENT_INGRESS_CAPACITY + 2 ≤ works ops' →
  worker_stopped s' = true ∧ queue s' = [] ∧ (∀ op, ingress_step s' op = s') ∧ served all all s'.
Proof.
  intros Hlaw s' all [ch Hch] Hw. destruct (run_served ops [] [] TurnEventIngress_start Hlaw served_start) as [taken Hs].
  destruct (shutdown_remaining _ _ _ _ Hs Hch) as (n & Hn & Hle).
  destruct (remaining_run _ _ _ _ ops' Hlaw Hs Hn) as (n' & Hn' & Hle').
  assert (s' = ingress_run ops' (ingress_run ops TurnEventIngress_start)) as Hs'
    by (unfold s', ingress_run; by rewrite foldl_app). rewrite <-Hs' in Hn'.
  assert (n' = 0) as -> by lia.
  destruct (run_served ops' _ _ _ Hlaw Hs) as [taken' Hd]. rewrite <-Hs' in Hd. simpl in Hd.
  assert (worker_stopped s' = true) as Hstop.
  { unfold remaining in Hn'. destruct (worker_stopped s'); [done|]. destruct (closed s'); [done|].
    destruct (before_shutdown (queue s')); [|done]. simpl in Hn'. injection Hn'. lia. }
  destruct (sv_stopped _ _ _ Hd Hstop) as [Hc Hq]. split_and!; [done|done| |].
  - intros op. destruct op; simpl; unfold try_send, send_confirmed, flush, shutdown, send, work; by rewrite ?Hc, ?Hstop.
  - unfold all. rewrite accepted_app. pose proof (sv_order _ _ _ Hd) as Ho. rewrite Hq, app_nil_r in Ho.
    by rewrite <-Ho in Hd.
Qed.
End ingress.

(** A session that stores whatever it is given. *)
Module IngressSample.
Definition payload (n : N) : DurableEventPayload := P_StepStarted n 1.
Definition store (n : nat) (p : DurableEventPayload) : StoredEvent :=
  {| se_seq := N.of_nat n;
     se_event := {| ev_id := EventId_new "e"; ev_session_id := SessionId_new "s"; ev_turn_id := None;
                    ev_timestamp := 0%Z; ev_payload := p |} |}.
Definition persist (n : nat) (p : DurableEventPayload) : result StoredEvent SessionError := Ok (store n p).
Definition ops : list (IngressOp (LP := bool)) :=
  [Op_try_send (Payload_Durable (payload 1)); Op_send (Payload_Durable (payload 2)); Op_work; Op_flush;
   Op_try_send (Payload_Live true); Op_work; Op_work; Op_shutdown].
Definition run (ops : list (IngressOp (LP := bool))) :=
  ingress_run (λ l, l) (λ _ _ _, false) (λ _, "error") persist (λ _ _, Ok (EventId_new "l")) ops TurnEventIngress_start.
End IngressSample.

Lemma ingress_in_order_witness :
  ∃ taken, served taken
      (accepted (λ l, l) (λ _ _ _, false) (λ _, "error") IngressSample.persist (λ _ _, Ok (EventId_new "l"))
         IngressSample.ops TurnEventIngress_start) (IngressSample.run IngressSample.ops)
    ∧ stored (published (publisher (IngressSample.run IngressSample.ops))) = [IngressSample.payload 1; IngressSample.payload 2].
Proof.
  destruct (ingress_in_order (λ l, l) (λ _ _ _, false) (λ _, "error") IngressSample.persist
    (λ _ _, Ok (EventId_new "l")) IngressSample.ops) as (taken & Hs & _).
  - intros n p e [= <-]. reflexivity.
  - exists taken. split; [exact Hs|]. vm_compute. reflexivity.
Defined.

Lemma ingress_drains_witness :
  worker_stopped (IngressSample.run (IngressSample.ops ++ replicate 514 Op_work)) = true.
Proof.
  refine (proj1 (ingress_drains (λ l, l) (λ _ _ _, false) (λ _, "error") IngressSample.persist
    (λ _ _, Ok (EventId_new "l")) IngressSample.ops (replicate 514 Op_work) _ _ _)).
  - intros n p e [= <-]. reflexivity.
  - exists 2. vm_compute. repeat first [apply list_elem_of_here | apply list_elem_of_further].
  - vm_compute. lia.
Defined.
