(* ===== verification/S5rWire.v ===== *)
(** * The S5R wire protocol ([astrcode-extension-sdk/src/wire/])

    Frames with a decimal length ([frame.rs]), the messages of the protocol, feature
    negotiation and handler ids ([protocol.rs]), error codes ([error.rs]) and streams with one
    terminal event ([TerminalStream] of [stream.rs]).  Bytes are strings; a [BTreeSet] is an increasing list
    ([btree_collect]); a manifest is a type parameter. *)

From S2P Require Import Prelude Utf8 StdPath StdStr CoreTypes CoreLlm ProjReducer StoreTypes AiRetry.

(** ** Frames *)

Definition MAX_FRAME_BYTES : N := 16 * 1024 * 1024.
Definition MAX_FRAME_HEADER_BYTES : N := 32.

Inductive FrameError :=
| Frame_Io (message : string)
| InvalidHeader (message : string)
| HeaderTooLong
| TooLarge (size max : N).

Definition lf_byte : ascii := ascii_of_N 10.

Definition frame_payload (payload : string) : result string FrameError :=
  if bool_decide (MAX_FRAME_BYTES < str_len payload)%N then Err (TooLarge (str_len payload) MAX_FRAME_BYTES)
  else Ok (u64_to_string (str_len payload) +:+ String lf_byte payload).

Fixpoint all_digits (s : string) : bool :=
  match s with EmptyString => true | String c s => byte_in c 48 57 && all_digits s end.

(** [str::strip_suffix] of a line feed. *)
Fixpoint strip_lf (s : string) : string :=
  match s with
  | EmptyString => EmptyString
  | String c EmptyString => if bool_decide (c = lf_byte) then EmptyString else s
  | String c s => String c (strip_lf s)
  end.

(** The text of [ParseIntError] is a parameter of the library. *)
Section frames.
  Context (overflow_message : string).

Definition parse_frame_header (header : string) : result N FrameError :=
  let header := strip_lf header in
  if is_empty header then Err (InvalidHeader "empty frame header")
  else if bool_decide (MAX_FRAME_HEADER_BYTES < str_len header)%N then Err HeaderTooLong
  else if negb (all_digits header) then Err (InvalidHeader "frame header must contain decimal digits only")
  else
    match parse_u64 header with
    | None => Err (InvalidHeader overflow_message)
    | Some size => if bool_decide (MAX_FRAME_BYTES < size)%N then Err (TooLarge size MAX_FRAME_BYTES) else Ok size
    end.

(** The bytes up to the line feed; the input ends where the other side closed it. *)
Fixpoint read_header (header : string) (input : string) : result (string * string) FrameError :=
  match input with
  | EmptyString => Err (Frame_Io "unexpected end of file")
  | String byte input =>
    if bool_decide (byte = lf_byte) then Ok (header, input)
    else if bool_decide (str_len header = MAX_FRAME_HEADER_BYTES) then Err HeaderTooLong
    else read_header (header +:+ String byte EmptyString) input
  end.

Fixpoint read_exact (size : nat) (input : string) : result (string * string) FrameError :=
  match size, input with
  | O, _ => Ok (EmptyString, input)
  | S _, EmptyString => Err (Frame_Io "early eof")
  | S size, String byte input => let? (payload, rest) := read_exact size input in Ok (String byte payload, rest)
  end.

Definition read_frame_from (input : string) : result (string * string) FrameError :=
  let? (header, input) := read_header EmptyString input in
  let? size := parse_frame_header header in
  read_exact (N.to_nat size) input.

(** A reader that takes frame after frame. *)
Fixpoint read_frames (k : nat) (input : string) : result (list string * string) FrameError :=
  match k with
  | O => Ok ([], input)
  | S k =>
    let? (payload, input) := read_frame_from input in
    let? (payloads, rest) := read_frames k input in
    Ok (payload :: payloads, rest)
  end.

Fixpoint write_frames (payloads : list string) : result string FrameError :=
  match payloads with
  | [] => Ok EmptyString
  | p :: payloads => let? f := frame_payload p in let? fs := write_frames payloads in Ok (f +:+ fs)
  end.

(** *** Numbers *)

Lemma digit_byte n :
  (n < 10)%N → byte_in (pretty_N_char n) 48 57 = true ∧ (N_of_ascii (pretty_N_char n) - 48 = n)%N.
Proof.
  intros H. assert (n = 0 ∨ n = 1 ∨ n = 2 ∨ n = 3 ∨ n = 4 ∨ n = 5 ∨ n = 6 ∨ n = 7 ∨ n = 8 ∨ n = 9)%N as Hn by lia.
  by destruct_or! Hn; subst; vm_compute.
Qed.

Lemma parse_go n s : (n ≤ u64_max)%N → parse_digits 0 (pretty_N_go n s) = parse_digits n s.
Proof.
  revert s. induction (N.lt_wf_0 n) as [n _ IH]; intros s Hn. destruct (decide (n = 0)%N) as [->|Hz].
  { by rewrite pretty_N_go_0. }
  assert (n / 10 < n)%N as Hlt by (apply N.div_lt; lia).
  rewrite pretty_N_go_step, IH by lia. cbn [parse_digits].
  destruct (digit_byte (n mod 10)) as [-> ->]; [apply N.mod_lt; lia|].
  assert (n / 10 * 10 + n mod 10 = n)%N as -> by (pose proof (N.div_mod' n 10); lia).
  by rewrite bool_decide_eq_true_2.
Qed.

Lemma digits_go n s : all_digits s = true → all_digits (pretty_N_go n s) = true.
Proof.
  revert s. induction (N.lt_wf_0 n) as [n _ IH]; intros s Hs. destruct (decide (n = 0)%N) as [->|Hz].
  { by rewrite pretty_N_go_0. }
  rewrite pretty_N_go_step by lia. apply IH; [apply N.div_lt; lia|]. simpl. rewrite Hs.
  destruct (digit_byte (n mod 10)) as [-> _]; [apply N.mod_lt; lia|done].
Qed.

Lemma length_go k n s : (n < 10 ^ N.of_nat k)%N → String.length (pretty_N_go n s) ≤ k + String.length s.
Proof.
  revert n s. induction k as [|k IH]; intros n s Hn.
  { assert (n = 0)%N as -> by (simpl in Hn; lia). by rewrite pretty_N_go_0. }
  destruct (decide (n = 0)%N) as [->|Hz]; [rewrite pretty_N_go_0; lia|]. rewrite pretty_N_go_step by lia.
  etrans; [apply IH|simpl; lia]. apply N.Div0.div_lt_upper_bound.
  rewrite Nat2N.inj_succ, N.pow_succ_r' in Hn. lia.
Qed.

Lemma go_nonempty n s : (n ≠ 0)%N → is_empty (pretty_N_go n s) = false.
Proof.
  revert s. induction (N.lt_wf_0 n) as [n _ IH]; intros s Hn. rewrite pretty_N_go_step by lia.
  destruct (decide (n / 10 = 0)%N) as [->|Hz]; [by rewrite pretty_N_go_0|]. apply IH; [apply N.div_lt; lia|done].
Qed.

Lemma str_len_length s : str_len s = N.of_nat (String.length s).
Proof. induction s as [|c s IH]; [done|]. unfold str_len, to_bytes in *. simpl in *. lia. Qed.

(** The text of a length is read back. *)
Lemma number_text n :
  (n ≤ MAX_FRAME_BYTES)%N →
  let s := u64_to_string n in
  is_empty s = false ∧ all_digits s = true ∧ String.length s ≤ 8 ∧ parse_digits 0 s = Some n.
Proof.
  intros Hn. unfold u64_to_string, pretty, pretty_N. destruct (decide (n = 0)%N) as [->|Hz]; [split_and!; [done|done|cbn; lia|done]|].
  unfold MAX_FRAME_BYTES in Hn. split_and!; [by apply go_nonempty|by apply digits_go| |].
  - pose proof (length_go 8 n "") as H. change (10 ^ N.of_nat 8)%N with 100000000%N in H.
    specialize (H ltac:(lia)). simpl in H. lia.
  - rewrite parse_go; [done|]. unfold u64_max. lia.
Qed.

Lemma parse_u64_digits s : all_digits s = true → is_empty s = false → parse_u64 s = parse_digits 0 s.
Proof.
  intros Hd He. unfold parse_u64. destruct s as [|c s]; [done|]. rewrite bool_decide_eq_false_2; [by rewrite He|].
  intros ->. by vm_compute in Hd.
Qed.

Lemma digits_no_lf s : all_digits s = true → strip_lf s = s ∧ has_byte lf_byte s = false.
Proof.
  induction s as [|c s IH]; [done|]. simpl. intros [Hc Hs]%andb_true_iff. destruct (IH Hs) as [H1 H2].
  assert (c ≠ lf_byte) as Hne by (intros ->; by vm_compute in Hc). split.
  - destruct s; [by rewrite bool_decide_eq_false_2|by rewrite H1].
  - unfold has_byte in *. simpl. rewrite H2. by rewrite bool_decide_eq_false_2.
Qed.

(** *** Reading what was written *)

Lemma read_header_to h header rest :
  has_byte lf_byte header = false → (str_len h + str_len header ≤ MAX_FRAME_HEADER_BYTES)%N →
  read_header h (header +:+ String lf_byte rest) = Ok (h +:+ header, rest).
Proof.
  revert h. induction header as [|c header IH]; intros h Hb Hl; simpl.
  { by rewrite str_app_nil_r. }
  unfold has_byte in Hb. simpl in Hb. apply orb_false_iff in Hb as [Hc Hb]. rewrite Hc.
  rewrite !str_len_length in Hl. simpl in Hl. unfold MAX_FRAME_HEADER_BYTES in *.
  rewrite bool_decide_eq_false_2 by (rewrite str_len_length; lia).
  rewrite IH; [|done|].
  - by rewrite <-str_app_assoc.
  - rewrite !str_len_length, str_length_app. simpl. lia.
Qed.

Lemma read_exact_app payload rest : read_exact (String.length payload) (payload +:+ rest) = Ok (payload, rest).
Proof. induction payload as [|c payload IH]; simpl; [done|]. by rewrite IH. Qed.

Lemma parse_header_text n : (n ≤ MAX_FRAME_BYTES)%N → parse_frame_header (u64_to_string n) = Ok n.
Proof.
  intros Hn. destruct (number_text n Hn) as (He & Hd & Hl & Hp). destruct (digits_no_lf _ Hd) as [Hs _].
  unfold parse_frame_header. rewrite Hs, He, Hd, (parse_u64_digits _ Hd He), Hp. simpl.
  rewrite bool_decide_eq_false_2 by (rewrite str_len_length; unfold MAX_FRAME_HEADER_BYTES; lia).
  by rewrite bool_decide_eq_false_2 by lia.
Qed.

Lemma read_written payload frame rest :
  frame_payload payload = Ok frame → read_frame_from (frame +:+ rest) = Ok (payload, rest).
Proof.
  unfold frame_payload. case_bool_decide as Hl; [done|]. intros [= <-].
  assert (str_len payload ≤ MAX_FRAME_BYTES)%N as Hn by lia.
  destruct (number_text _ Hn) as (_ & Hd & Hlen & _). destruct (digits_no_lf _ Hd) as [_ Hb].
  unfold read_frame_from. rewrite <-str_app_assoc.
  change (String lf_byte payload +:+ rest) with (String lf_byte (payload +:+ rest)).
  rewrite read_header_to; [|done|rewrite (str_len_length ""), (str_len_length (u64_to_string _)); change (String.length "") with 0; unfold MAX_FRAME_HEADER_BYTES; lia].
  change ("" +:+ u64_to_string (str_len payload)) with (u64_to_string (str_len payload)).
  rewrite parse_header_text by done. rewrite str_len_length, Nat2N.id. apply read_exact_app.
Qed.

(** *** What a reader accepts *)

Lemma read_header_sound h input header rest :
  read_header h input = Ok (header, rest) →
  ∃ more, header = h +:+ more ∧ input = more +:+ String lf_byte rest ∧ has_byte lf_byte more = false.
Proof.
  revert h. induction input as [|c input IH]; intros h; cbn [read_header]; [done|].
  case_bool_decide as Hc.
  { intros [= <- <-]. exists "". subst. by rewrite str_app_nil_r. }
  case_bool_decide; [done|]. intros (more & -> & -> & Hb)%IH. exists (String c more).
  rewrite <-str_app_assoc. split_and!; [done|done|]. unfold has_byte in *. simpl. rewrite Hb.
  by rewrite bool_decide_eq_false_2.
Qed.

Lemma read_exact_sound size input payload rest :
  read_exact size input = Ok (payload, rest) → input = payload +:+ rest ∧ String.length payload = size.
Proof.
  revert input payload. induction size as [|size IH]; intros input payload; simpl; [by intros [= <- <-]|].
  destruct input as [|c input]; [done|]. destruct (read_exact size input) as [[p r]|e] eqn:He; [|done].
  intros [= <- <-]. apply IH in He as [-> <-]. done.
Qed.

Lemma read_frame_sound input payload rest :
  read_frame_from input = Ok (payload, rest) →
  ∃ header, input = header +:+ String lf_byte (payload +:+ rest) ∧ all_digits header = true
  ∧ (str_len header ≤ MAX_FRAME_HEADER_BYTES)%N ∧ parse_u64 header = Some (str_len payload)
  ∧ (str_len payload ≤ MAX_FRAME_BYTES)%N.
Proof.
  unfold read_frame_from. destruct (read_header "" input) as [[header r]|e] eqn:Hh; [|done].
  apply read_header_sound in Hh as (more & -> & -> & Hb). change ("" +:+ more) with more.
  unfold parse_frame_header. destruct (is_empty _); [done|]. case_bool_decide as Hl; [done|].
  destruct (all_digits (strip_lf more)) eqn:Hd; [|done]. simpl.
  assert (strip_lf more = more) as Hs.
  { clear -Hb. unfold has_byte in Hb. induction more as [|c [|c' s] IH]; [done|..].
    - simpl in *. rewrite bool_decide_eq_false_2; [done|]. intros ->. by rewrite bool_decide_eq_true_2 in Hb.
    - simpl in Hb. apply orb_false_iff in Hb as [_ Hb]. cbn [strip_lf]. f_equal. by apply IH. }
  rewrite Hs in *. destruct (parse_u64 more) as [size|] eqn:Hp; [|done]. case_bool_decide as Hmax; [done|].
  intros [-> Hsize]%read_exact_sound. exists more.
  assert (str_len payload = size) as -> by (rewrite str_len_length; lia). split_and!; try done; lia.
Qed.

(** C36. Frames are read as they were written: whatever payloads are written, one after the
    other, a reader gets them back, in order and byte for byte, and what follows stays in the
    stream; and whatever bytes arrive, a reader that accepts a frame has read a header of at
    most 32 digits, its line feed, and exactly the bytes it announces, at most 16 mebibytes. *)
Theorem frames_round_trip :
  (∀ payloads bytes rest, write_frames payloads = Ok bytes →
     read_frames (length payloads) (bytes +:+ rest) = Ok (payloads, rest))
  ∧ ∀ input payload rest, read_frame_from input = Ok (payload, rest) →
     ∃ header, input = header +:+ String lf_byte (payload +:+ rest) ∧ all_digits header = true
     ∧ (str_len header ≤ MAX_FRAME_HEADER_BYTES)%N ∧ parse_u64 header = Some (str_len payload)
     ∧ (str_len payload ≤ MAX_FRAME_BYTES)%N.
Proof.
  split; [|apply read_frame_sound]. induction payloads as [|p payloads IH]; intros bytes rest; simpl; [by intros [= <-]|].
  destruct (frame_payload p) as [f|e] eqn:Hf; [|done]. destruct (write_frames payloads) as [fs|e]; [|done].
  intros [= <-]. rewrite <-str_app_assoc, (read_written _ _ _ Hf), (IH fs rest eq_refl). done.
Qed.
End frames.

Lemma frames_round_trip_witness :
  write_frames ["hi"; ""] = Ok ("2" +:+ String lf_byte ("hi0" +:+ String lf_byte "")) ∧
  read_frames "number too large" 2 ("2" +:+ String lf_byte ("hi0" +:+ String lf_byte "3")) = Ok (["hi"; ""], "3")%string.
Proof.
  split; [reflexivity|].
  exact (proj1 (frames_round_trip "number too large") ["hi"; ""]
           ("2" +:+ String lf_byte ("hi0" +:+ String lf_byte "")) "3" eq_refl).
Defined.

(** ** Error codes *)

Inductive WireErrorCode :=
| Code_PermissionDenied | Code_BackendUnavailable | Code_ContextUnavailable | Code_InvalidInput
| Code_Cancelled | Code_Timeout | Code_HostNotReady | Code_PeerBusy | Code_PeerClosed | Code_Transport
| Code_IoError | Code_UnknownCapability | Code_StateTooLarge | Code_SerializationFailed
| Code_InvalidResponse | Code_Unsupported | Code_HostRuntimeFailed | Code_ExtensionDraining
| Code_UnsupportedFeature | Code_NetworkRequestFailed | Code_ResponseTooLarge | Code_SessionNotFound
| Code_SessionBusy | Code_NoActiveTurn | Code_SessionAlreadyExists | Code_MaxDepthExceeded
| Code_InternalError | Code_InvalidRequest | Code_DuplicateRequestId | Code_ReadFailed | Code_StaleFile
| Code_FileTooLarge | Code_ProcessFailed | Code_SpawnFailed | Code_StdinFailed | Code_StdoutFailed
| Code_StderrFailed | Code_InvalidApiKey | Code_ModelNotFound | Code_QuotaExceeded
| Code_ContextWindowExceeded | Code_RateLimited | Code_ClientError | Code_ServerError
| Code_StreamDisconnected | Code_StreamParse | Code_ContentFiltered | Code_TokenLimit | Code_EmptyResponse
| Code_LlmStreamError | Code_EmitFailed | Code_DispatchFailed | Code_UnknownParentInvoke
| Code_ReentrancyExceeded | Code_UnsupportedProtocolVersion | Code_StreamNotSupported | Code_StreamClosed
| Code_BackpressureTimeout | Code_StreamIdleTimeout | Code_UnknownHandler | Code_DuplicateRegistration
| Code_UnsupportedHook | Code_TypedHookRequired | Code_InvalidHookMode | Code_InvalidHookRegistration
| Code_InvalidHttpRoute | Code_NestedFailed | Code_PeerOverloaded | Code_InvalidCapabilityRegistry
| Code_StorageIoError | Code_StorageLockError | Code_CorruptSessionData.

#[export] Instance WireErrorCode_eq_dec : EqDecision WireErrorCode.
Proof. solve_decision. Defined.

Definition WireErrorCode_as_str (c : WireErrorCode) : string :=
  match c with
  | Code_PermissionDenied => "permission_denied"
  | Code_BackendUnavailable => "backend_unavailable"
  | Code_ContextUnavailable => "context_unavailable"
  | Code_InvalidInput => "invalid_input"
  | Code_Cancelled => "cancelled"
  | Code_Timeout => "timeout"
  | Code_HostNotReady => "host_not_ready"
  | Code_PeerBusy => "peer_busy"
  | Code_PeerClosed => "peer_closed"
  | Code_Transport => "transport_error"
  | Code_IoError => "io_error"
  | Code_UnknownCapability => "unknown_capability"
  | Code_StateTooLarge => "state_too_large"
  | Code_SerializationFailed => "serialization_failed"
  | Code_InvalidResponse => "invalid_host_response"
  | Code_Unsupported => "unsupported"
  | Code_HostRuntimeFailed => "host_runtime_failed"
  | Code_ExtensionDraining => "extension_draining"
  | Code_UnsupportedFeature => "unsupported_feature"
  | Code_NetworkRequestFailed => "network_request_failed"
  | Code_ResponseTooLarge => "response_too_large"
  | Code_SessionNotFound => "session_not_found"
  | Code_SessionBusy => "session_busy"
  | Code_NoActiveTurn => "no_active_turn"
  | Code_SessionAlreadyExists => "session_already_exists"
  | Code_MaxDepthExceeded => "max_depth_exceeded"
  | Code_InternalError => "internal_error"
  | Code_InvalidRequest => "invalid_request"
  | Code_DuplicateRequestId => "duplicate_request_id"
  | Code_ReadFailed => "read_failed"
  | Code_StaleFile => "stale_file"
  | Code_FileTooLarge => "file_too_large"
  | Code_ProcessFailed => "process_failed"
  | Code_SpawnFailed => "spawn_failed"
  | Code_StdinFailed => "stdin_failed"
  | Code_StdoutFailed => "stdout_failed"
  | Code_StderrFailed => "stderr_failed"
  | Code_InvalidApiKey => "invalid_api_key"
  | Code_ModelNotFound => "model_not_found"
  | Code_QuotaExceeded => "quota_exceeded"
  | Code_ContextWindowExceeded => "context_window_exceeded"
  | Code_RateLimited => "rate_limited"
  | Code_ClientError => "client_error"
  | Code_ServerError => "server_error"
  | Code_StreamDisconnected => "stream_disconnected"
  | Code_StreamParse => "stream_parse"
  | Code_ContentFiltered => "content_filtered"
  | Code_TokenLimit => "token_limit"
  | Code_EmptyResponse => "empty_response"
  | Code_LlmStreamError => "llm_stream_error"
  | Code_EmitFailed => "emit_failed"
  | Code_DispatchFailed => "dispatch_failed"
  | Code_UnknownParentInvoke => "unknown_parent_invoke"
  | Code_ReentrancyExceeded => "reentrancy_exceeded"
  | Code_UnsupportedProtocolVersion => "unsupported_protocol_version"
  | Code_StreamNotSupported => "stream_not_supported"
  | Code_StreamClosed => "stream_closed"
  | Code_BackpressureTimeout => "backpressure_timeout"
  | Code_StreamIdleTimeout => "stream_idle_timeout"
  | Code_UnknownHandler => "unknown_handler"
  | Code_DuplicateRegistration => "duplicate_registration"
  | Code_UnsupportedHook => "unsupported_hook"
  | Code_TypedHookRequired => "typed_hook_required"
  | Code_InvalidHookMode => "invalid_hook_mode"
  | Code_InvalidHookRegistration => "invalid_hook_registration"
  | Code_InvalidHttpRoute => "invalid_http_route"
  | Code_NestedFailed => "nested_failed"
  | Code_PeerOverloaded => "peer_overloaded"
  | Code_InvalidCapabilityRegistry => "invalid_capability_registry"
  | Code_StorageIoError => "storage_io_error"
  | Code_StorageLockError => "storage_lock_error"
  | Code_CorruptSessionData => "corrupt_session_data"
  end.

Definition ALL_CODES : list WireErrorCode :=
  [Code_PermissionDenied; Code_BackendUnavailable; Code_ContextUnavailable; Code_InvalidInput;
   Code_Cancelled; Code_Timeout; Code_HostNotReady; Code_PeerBusy; Code_PeerClosed; Code_Transport;
   Code_IoError; Code_UnknownCapability; Code_StateTooLarge; Code_SerializationFailed; Code_InvalidResponse;
   Code_Unsupported; Code_HostRuntimeFailed; Code_ExtensionDraining; Code_UnsupportedFeature;
   Code_NetworkRequestFailed; Code_ResponseTooLarge; Code_SessionNotFound; Code_SessionBusy;
   Code_NoActiveTurn; Code_SessionAlreadyExists; Code_MaxDepthExceeded; Code_InternalError;
   Code_InvalidRequest; Code_DuplicateRequestId; Code_ReadFailed; Code_StaleFile; Code_FileTooLarge;
   Code_ProcessFailed; Code_SpawnFailed; Code_StdinFailed; Code_StdoutFailed; Code_StderrFailed;
   Code_InvalidApiKey; Code_ModelNotFound; Code_QuotaExceeded; Code_ContextWindowExceeded; Code_RateLimited;
   Code_ClientError; Code_ServerError; Code_StreamDisconnected; Code_StreamParse; Code_ContentFiltered;
   Code_TokenLimit; Code_EmptyResponse; Code_LlmStreamError; Code_EmitFailed; Code_DispatchFailed;
   Code_UnknownParentInvoke; Code_ReentrancyExceeded; Code_UnsupportedProtocolVersion;
   Code_StreamNotSupported; Code_StreamClosed; Code_BackpressureTimeout; Code_StreamIdleTimeout;
   Code_UnknownHandler; Code_DuplicateRegistration; Code_UnsupportedHook; Code_TypedHookRequired;
   Code_InvalidHookMode; Code_InvalidHookRegistration; Code_InvalidHttpRoute; Code_NestedFailed;
   Code_PeerOverloaded; Code_InvalidCapabilityRegistry; Code_StorageIoError; Code_StorageLockError;
   Code_CorruptSessionData].

(** The match of [parse] on the texts, in the order of the table. *)
Definition WireErrorCode_parse (code : string) : option WireErrorCode :=
  find_first (λ c, bool_decide (WireErrorCode_as_str c = code)) ALL_CODES.

(** ** Handler ids *)

Inductive HandlerKind := Kind_Tool | Kind_Hook | Kind_Command | Kind_Http | Kind_Event | Kind_Service.

#[export] Instance HandlerKind_eq_dec : EqDecision HandlerKind.
Proof. solve_decision. Defined.

Definition HandlerKind_as_str (k : HandlerKind) : string :=
  match k with
  | Kind_Tool => "tool" | Kind_Hook => "hook" | Kind_Command => "command"
  | Kind_Http => "http" | Kind_Event => "event" | Kind_Service => "service"
  end.

Definition HandlerKind_parse (kind : string) : option HandlerKind :=
  find_first (λ k, bool_decide (HandlerKind_as_str k = kind))
    [Kind_Tool; Kind_Hook; Kind_Command; Kind_Http; Kind_Event; Kind_Service].

(** [str::split_once] at a one-byte character. *)
Fixpoint split_once (c : ascii) (s : string) : option (string * string) :=
  match s with
  | EmptyString => None
  | String d s =>
    if bool_decide (d = c) then Some (EmptyString, s)
    else match split_once c s with Some (a, b) => Some (String d a, b) | None => None end
  end.

Definition HandlerId_split (wire : string) : option (string * HandlerKind * string) :=
  match split_once ":" wire with
  | None => None
  | Some (extension_id, remainder) =>
    match split_once ":" remainder with
    | None => None
    | Some (kind, name) =>
      match HandlerKind_parse kind with
      | None => None
      | Some kind => if is_empty extension_id || is_empty name then None else Some (extension_id, kind, name)
      end
    end
  end.

Definition HandlerId_parse (wire : string) : option string :=
  match HandlerId_split wire with Some _ => Some wire | None => None end.

Definition HandlerId_new (extension_id : string) (kind : HandlerKind) (name : string) : option string :=
  HandlerId_parse (extension_id +:+ ":" +:+ HandlerKind_as_str kind +:+ ":" +:+ name).

Lemma split_once_app c a b : has_byte c a = false → split_once c (a +:+ String c b) = Some (a, b).
Proof.
  induction a as [|d a IH]; [intros _; simpl; by rewrite bool_decide_true|]. rewrite has_byte_cons.
  intros [H1 H2]%orb_false_iff. change ((String d a +:+ String c b)) with (String d (a +:+ String c b)). simpl.
  by rewrite H1, IH.
Qed.

Lemma split_once_sound c s a b : split_once c s = Some (a, b) → s = a +:+ String c b ∧ has_byte c a = false.
Proof.
  revert a. induction s as [|d s IH]; intros a; simpl; [done|].
  case_bool_decide as Hd; [by intros [= <- <-]; subst|].
  destruct (split_once c s) as [[a' b']|]; [|done]. intros [= <- ->].
  destruct (IH a' eq_refl) as [-> H]. split; [done|]. rewrite has_byte_cons, H, orb_false_r.
  apply bool_decide_eq_false. congruence.
Qed.

Lemma handler_kind_parse k : HandlerKind_parse (HandlerKind_as_str k) = Some k.
Proof. by destruct k. Qed.

Lemma handler_kind_text kind k : HandlerKind_parse kind = Some k → kind = HandlerKind_as_str k.
Proof. unfold HandlerKind_parse. simpl. repeat case_bool_decide; naive_solver. Qed.

(** Of an extension whose id has no colon, a handler id gives back its three parts, and a text
    is a handler id exactly when it is made of such parts. *)
Lemma handler_id_parts e k n w :
  HandlerId_split w = Some (e, k, n) ↔
  w = e +:+ ":" +:+ HandlerKind_as_str k +:+ ":" +:+ n ∧ has_byte ":" e = false ∧ e ≠ ""%string ∧ n ≠ ""%string.
Proof.
  unfold HandlerId_split. split.
  - destruct (split_once _ w) as [[e' r]|] eqn:E1; [|done].
    destruct (split_once _ r) as [[kind n']|] eqn:E2; [|done].
    destruct (HandlerKind_parse kind) as [k'|] eqn:E3; [|done]. destruct (_ || _) eqn:E; [done|].
    intros [= -> -> ->]. apply split_once_sound in E1 as [-> ?], E2 as [-> ?]. apply handler_kind_text in E3 as ->.
    apply orb_false_iff in E as [??]. split_and!; [done|done|by destruct e|by destruct n].
  - intros (->&He&Hn1&Hn2). change (":" +:+ ?s) with (String ":" s). rewrite split_once_app by done.
    change (":" +:+ n) with (String ":" n). rewrite split_once_app, handler_kind_parse by (by destruct k).
    by destruct e, n.
Qed.

(** An extension id with a colon is accepted and reads back as another extension's handler. *)
Lemma handler_id_of_another :
  HandlerId_new "a:hook" Kind_Tool "x" = HandlerId_new "a" Kind_Hook "tool:x" ∧
  HandlerId_new "a:hook" Kind_Tool "x" = Some "a:hook:tool:x"%string ∧
  HandlerId_split "a:hook:tool:x" = Some ("a", Kind_Hook, "tool:x")%string.
Proof. split_and!; reflexivity. Qed.

Lemma error_code_text c : WireErrorCode_parse (WireErrorCode_as_str c) = Some c.
Proof. by destruct c. Qed.

(** ** Messages *)

Definition S5R_VERSION : string := "3.0".

Definition FEATURE_NESTED_INVOKE_V1 : string := "nested_invoke_v1".
Definition FEATURE_MODEL_STREAM_V1 : string := "model_stream_v1".

Fixpoint all_bytes (p : ascii → bool) (s : string) : bool :=
  match s with EmptyString => true | String c s => p c && all_bytes p s end.

Definition valid_feature_name (value : string) : bool :=
  negb (is_empty value) && bool_decide (str_len value ≤ 64)%N
  && all_bytes (λ c, byte_in c 97 122 || byte_in c 48 57 || bool_decide (c = "_"%char)) value.

Record ErrorPayload := {
  ep_code : string;
  ep_message : string;
  ep_hint : option string;
  ep_retryable : bool;
  ep_details : option Value;
}.

Definition ErrorPayload_new (code : WireErrorCode) (message : string) : ErrorPayload :=
  {| ep_code := WireErrorCode_as_str code; ep_message := message; ep_hint := None; ep_retryable := false;
     ep_details := None |}.

Record PeerInfo := { peer_name : string; peer_version : option string }.

Definition PeerInfo_validate (p : PeerInfo) : result unit ErrorPayload :=
  if is_empty (peer_name p) then Err (ErrorPayload_new Code_InvalidRequest "peer name must not be empty") else Ok tt.

Record InitializeMsg := {
  im_id : string;
  im_protocol_version : string;
  im_host : PeerInfo;
  im_extension_id : string;
  im_supported_features : list string;
  im_required_features : list string;
  im_host_operations : list string;
}.

Record InitializeOutput (Manifest : Type) := {
  io_worker : PeerInfo;
  io_protocol_version : string;
  io_supported_features : list string;
  io_required_features : list string;
  io_negotiated_features : list string;
  io_manifest : Manifest;
}.
Arguments io_worker {Manifest} _.
Arguments io_protocol_version {Manifest} _.
Arguments io_supported_features {Manifest} _.
Arguments io_required_features {Manifest} _.
Arguments io_negotiated_features {Manifest} _.
Arguments io_manifest {Manifest} _.

Inductive ResultKind := Result_Initialize | Result_Activate | Result_Invoke.

#[export] Instance ResultKind_eq_dec : EqDecision ResultKind.
Proof. solve_decision. Defined.

Inductive ResultMsg :=
| Result_Success (id : string) (kind : ResultKind) (output : Value)
| Result_Failure (id : string) (kind : ResultKind) (error : ErrorPayload).

Definition ResultMsg_id (r : ResultMsg) : string :=
  match r with Result_Success id _ _ | Result_Failure id _ _ => id end.
Definition ResultMsg_kind (r : ResultMsg) : ResultKind :=
  match r with Result_Success _ kind _ | Result_Failure _ kind _ => kind end.

Record InvokeMsg := {
  iv_id : string;
  iv_operation : string;
  iv_input : Value;
  iv_stream : bool;
  iv_parent_invoke_id : option string;
}.

Inductive ModelStreamEvent :=
| Model_Started
| Model_Retrying (attempt delay_ms : N)
| Model_Recovered (attempt : N)
| Model_ContentDelta (content : string)
| Model_ThinkingDelta (content : string)
| Model_ToolCallStart (tool_call_id name arguments : string)
| Model_ToolCallDelta (tool_call_id delta : string)
| Model_ToolCallCompleted (tool_call_id : string)
| Model_Usage (input_tokens output_tokens : N)
| Model_Completed (output : Value)
| Model_Failed (error : ErrorPayload).

Definition is_terminal (e : ModelStreamEvent) : bool :=
  match e with Model_Completed _ | Model_Failed _ => true | _ => false end.

(** [TerminalStream]: one poll, given what the stream inside answers and the error its producer
    left; the new flag, what is left of the error, and the answer. *)
Inductive Poll :=
| Poll_Pending
| Poll_Ready (event : option ModelStreamEvent).

Definition terminal_poll_next (terminated : bool) (close_error : option ErrorPayload) (inner : Poll)
    : bool * option ErrorPayload * Poll :=
  if terminated then (terminated, close_error, Poll_Ready None)
  else
    match inner with
    | Poll_Ready (Some event) => (is_terminal event, close_error, Poll_Ready (Some event))
    | Poll_Ready None =>
      let error := default (ErrorPayload_new Code_StreamClosed "model stream closed before a terminal event") close_error in
      (true, None, Poll_Ready (Some (Model_Failed error)))
    | Poll_Pending => (false, close_error, Poll_Pending)
    end.

Inductive WireMessage :=
| Wire_Initialize (m : InitializeMsg)
| Wire_Activate (id : string) (config : Value)
| Wire_Result (m : ResultMsg)
| Wire_Invoke (m : InvokeMsg)
| Wire_Stream (id : string) (event : ModelStreamEvent)
| Wire_Cancel (id : string) (reason : string).

(** ** Features *)

(** [BTreeSet::is_subset], [intersection] and [difference]. *)
Definition set_subset (a b : list string) : bool := forallb (λ x, bool_decide (x ∈ b)) a.
Definition set_intersection (a b : list string) : list string := filter (λ x, x ∈ b) a.
Definition set_difference (a b : list string) : list string := filter (λ x, x ∉ b) a.

Definition ensure_unique (features : list string) (field : string) : result unit ErrorPayload :=
  if bool_decide (length (btree_collect features) = length features) then Ok tt
  else Err (ErrorPayload_new Code_InvalidRequest (field +:+ " contains duplicate values")).

Fixpoint require_features (local_supported remote_supported remote_required : list string) : result unit ErrorPayload :=
  match remote_required with
  | [] => Ok tt
  | feature :: rest =>
    if negb (bool_decide (feature ∈ remote_supported)) then
      Err (ErrorPayload_new Code_InvalidRequest
             ("required feature " +:+ feature +:+ " is not declared as supported"))
    else if negb (bool_decide (feature ∈ local_supported)) then
      Err (ErrorPayload_new Code_UnsupportedFeature
             ("required feature " +:+ feature +:+ " is not supported by this peer"))
    else require_features local_supported remote_supported rest
  end.

Definition negotiate_features (local_supported remote_supported remote_required : list string)
    : result (list string) ErrorPayload :=
  let? _ := ensure_unique remote_supported "supported_features" in
  let? _ := ensure_unique remote_required "required_features" in
  let remote_supported := btree_collect remote_supported in
  let? _ := require_features local_supported remote_supported remote_required in
  Ok (set_intersection local_supported remote_supported).
