(* ===== verification/S5rPeer.v ===== *)
(** * The handshake of two S5R peers ([astrcode-s5r-runtime/src/peer.rs])

    The host initialises and activates, the worker accepts; both end with a set of features.
    A peer's read and write of one exchange are the argument and the result of its half; the
    JSON form of the worker's answer is a parameter. *)

From S2P Require Import Prelude Utf8 StdPath StdStr CoreTypes CoreLlm ProjReducer StoreTypes S5rWire.

Inductive PeerError :=
| Peer_Frame (e : FrameError)
| Peer_ProtocolCodec (message : string)
| Peer_Protocol (message : string)
| Peer_UnexpectedMessage (expected : string)
| Peer_Remote (e : ErrorPayload).

Record HostInitialization := {
  hi_request_id : string;
  hi_extension_id : string;
  hi_supported_features : list string;
  hi_required_features : list string;
  hi_host_operations : list string;
}.

Record WorkerInitialization (Manifest : Type) := {
  wi_supported_features : list string;
  wi_required_features : list string;
  wi_manifest : Manifest;
}.
Arguments wi_supported_features {Manifest} _.
Arguments wi_required_features {Manifest} _.
Arguments wi_manifest {Manifest} _.

Record WorkerInitialized := {
  wd_negotiated_features : list string;
  wd_host_operations : list string;
}.

Section handshake.
  Context {Manifest : Type} (display_payload : ErrorPayload → string) (debug_str : string → string).
  (** [serde_json::to_value] and [from_value] of an [InitializeOutput] *)
  Context (output_to_value : InitializeOutput Manifest → result Value string)
    (output_of_value : Value → result (InitializeOutput Manifest) string).

(** ** Validation *)

Definition validate_feature_declaration (supported required : list string) : result unit PeerError :=
  if set_subset required supported then Ok tt
  else Err (Peer_Protocol "required features must also be declared as supported").

Fixpoint validate_operations (names operations : list string) : result unit ErrorPayload :=
  match operations with
  | [] => Ok tt
  | operation :: operations =>
    if is_empty operation then Err (ErrorPayload_new Code_InvalidRequest "host operation name must not be empty")
    else if bool_decide (operation ∈ names) then
      Err (ErrorPayload_new Code_InvalidRequest ("duplicate host operation " +:+ operation))
    else validate_operations (btree_insert operation names) operations
  end.
Definition validate_host_operations (operations : list string) : result unit ErrorPayload :=
  validate_operations [] operations.

Definition validate_host_initialization (i : HostInitialization) : result unit PeerError :=
  if is_empty (hi_request_id i) then Err (Peer_Protocol "initialize request id must not be empty")
  else if is_empty (hi_extension_id i) then Err (Peer_Protocol "expected extension id must not be empty")
  else
    let? _ := validate_feature_declaration (hi_supported_features i) (hi_required_features i) in
    map_err Peer_Remote (validate_host_operations (hi_host_operations i)).

Definition validate_initialize (m : InitializeMsg) (local_peer : PeerInfo) (local_supported local_required : list string)
    : result (list string) ErrorPayload :=
  if is_empty (im_id m) then Err (ErrorPayload_new Code_InvalidRequest "initialize request id must not be empty")
  else if negb (bool_decide (im_protocol_version m = S5R_VERSION)) then
    Err (ErrorPayload_new Code_UnsupportedProtocolVersion
           ("unsupported S5R version " +:+ im_protocol_version m +:+ "; expected " +:+ S5R_VERSION))
  else
    let? _ := PeerInfo_validate (im_host m) in
    if negb (bool_decide (im_extension_id m = peer_name local_peer)) then
      Err (ErrorPayload_new Code_InvalidRequest
             ("host expected extension " +:+ debug_str (im_extension_id m) +:+ ", worker identity is "
              +:+ debug_str (peer_name local_peer)))
    else
      let? _ := validate_host_operations (im_host_operations m) in
      let? negotiated := negotiate_features local_supported (im_supported_features m) (im_required_features m) in
      if set_subset local_required negotiated then Ok negotiated
      else
        Err (ErrorPayload_new Code_UnsupportedFeature
               ("host does not support required features: "
                +:+ join ", " (set_difference local_required negotiated))).

Definition has_duplicates (l : list string) : bool := negb (bool_decide (length (btree_collect l) = length l)).

Definition validate_initialize_output (o : InitializeOutput Manifest) (expected_extension_id : string)
    (supported_features required_features : list string) : result unit PeerError :=
  if negb (bool_decide (io_protocol_version o = S5R_VERSION)) then
    Err (Peer_Protocol ("worker selected S5R " +:+ io_protocol_version o +:+ "; expected " +:+ S5R_VERSION))
  else
    let? _ := map_err Peer_Remote (PeerInfo_validate (io_worker o)) in
    if negb (bool_decide (peer_name (io_worker o) = expected_extension_id)) then
      Err (Peer_Protocol ("expected extension " +:+ debug_str expected_extension_id +:+ ", worker identified as "
                          +:+ debug_str (peer_name (io_worker o))))
    else
      let remote_supported := btree_collect (io_supported_features o) in
      let remote_required := btree_collect (io_required_features o) in
      if has_duplicates (io_supported_features o) || has_duplicates (io_required_features o)
         || negb (set_subset remote_required remote_supported)
      then Err (Peer_Protocol "worker returned an invalid feature catalog")
      else
        let negotiated := btree_collect (io_negotiated_features o) in
        if has_duplicates (io_negotiated_features o) then
          Err (Peer_Protocol "worker returned duplicate negotiated features")
        else
          let expected := set_intersection supported_features remote_supported in
          if negb (bool_decide (negotiated = expected)) || negb (set_subset required_features negotiated)
             || negb (set_subset remote_required negotiated)
          then Err (Peer_Protocol "worker returned an invalid negotiated feature set")
          else Ok tt.

(** ** The host *)

(** What [Peer::initialize] writes. *)
Definition initialize_request (local_peer : PeerInfo) (i : HostInitialization) : result WireMessage PeerError :=
  let? _ := map_err (λ e, Peer_Protocol (display_payload e)) (PeerInfo_validate local_peer) in
  let? _ := validate_host_initialization i in
  Ok (Wire_Initialize
        {| im_id := hi_request_id i; im_protocol_version := S5R_VERSION; im_host := local_peer;
           im_extension_id := hi_extension_id i; im_supported_features := hi_supported_features i;
           im_required_features := hi_required_features i; im_host_operations := hi_host_operations i |}).

(** What it makes of the message it reads: the features, the worker and its manifest. *)
Definition initialize_reply (i : HostInitialization) (reply : WireMessage)
    : result (list string * PeerInfo * Manifest) PeerError :=
  match reply with
  | Wire_Result r =>
    if negb (bool_decide (ResultMsg_id r = hi_request_id i)) || negb (bool_decide (ResultMsg_kind r = Result_Initialize))
    then Err (Peer_UnexpectedMessage "matching initialize result")
    else
      match r with
      | Result_Failure _ _ error => Err (Peer_Remote error)
      | Result_Success _ _ output =>
        let? output := map_err Peer_Protocol (output_of_value output) in
        let? _ := validate_initialize_output output (hi_extension_id i) (hi_supported_features i)
                    (hi_required_features i) in
        Ok (btree_collect (io_negotiated_features output), io_worker output, io_manifest output)
      end
  | _ => Err (Peer_UnexpectedMessage "initialize result")
  end.

Definition initialize (local_peer : PeerInfo) (i : HostInitialization)
    (exchange : WireMessage → result WireMessage PeerError) : result (list string * PeerInfo * Manifest) PeerError :=
  let? request := initialize_request local_peer i in
  let? reply := exchange request in
  initialize_reply i reply.

(** [activate_of_value] reads an [ActivateOutput], [activate_to_value] is the one the worker writes. *)
Definition activate (activate_of_value : Value → result unit string) (request_id : string) (config : Value)
    (exchange : WireMessage → result WireMessage PeerError)
    : result unit PeerError :=
  if is_empty request_id then Err (Peer_Protocol "activate request id must not be empty")
  else
    let? reply := exchange (Wire_Activate request_id config) in
    match reply with
    | Wire_Result r =>
      if negb (bool_decide (ResultMsg_id r = request_id)) || negb (bool_decide (ResultMsg_kind r = Result_Activate))
      then Err (Peer_UnexpectedMessage "matching activate result")
      else
        match r with
        | Result_Failure _ _ error => Err (Peer_Remote error)
        | Result_Success _ _ output => map_err Peer_Protocol (activate_of_value output)
        end
    | _ => Err (Peer_UnexpectedMessage "activate result")
    end.

(** ** The worker: what it writes, if anything, and how it ends *)

Definition accept (local_peer : PeerInfo) (i : WorkerInitialization Manifest) (message : WireMessage)
    : option WireMessage * result WorkerInitialized PeerError :=
  match map_err (λ e, Peer_Protocol (display_payload e)) (PeerInfo_validate local_peer) with
  | Err e => (None, Err e)
  | Ok _ =>
    match validate_feature_declaration (wi_supported_features i) (wi_required_features i) with
    | Err e => (None, Err e)
    | Ok _ =>
      match message with
      | Wire_Initialize m =>
        match validate_initialize m local_peer (wi_supported_features i) (wi_required_features i) with
        | Ok negotiated =>
          match output_to_value
            {| io_worker := local_peer; io_protocol_version := S5R_VERSION;
               io_supported_features := wi_supported_features i; io_required_features := wi_required_features i;
               io_negotiated_features := negotiated; io_manifest := wi_manifest i |} with
          | Err e => (None, Err (Peer_Protocol e))
          | Ok output =>
            (Some (Wire_Result (Result_Success (im_id m) Result_Initialize output)),
             Ok {| wd_negotiated_features := negotiated; wd_host_operations := im_host_operations m |})
          end
        | Err error =>
          (Some (Wire_Result (Result_Failure (im_id m) Result_Initialize error)), Err (Peer_Remote error))
        end
      | _ => (None, Err (Peer_UnexpectedMessage "initialize request"))
      end
    end
  end.

Definition accept_activation (activate_to_value : result Value string) (handler : Value → result unit ErrorPayload) (message : WireMessage)
    : option WireMessage * result unit PeerError :=
  match message with
  | Wire_Activate id config =>
    if is_empty id then
      let error := ErrorPayload_new Code_InvalidRequest "activate request id must not be empty" in
      (Some (Wire_Result (Result_Failure id Result_Activate error)), Err (Peer_Remote error))
    else
      match handler config with
      | Err error => (Some (Wire_Result (Result_Failure id Result_Activate error)), Err (Peer_Remote error))
      | Ok _ =>
        match activate_to_value with
        | Err e => (None, Err (Peer_Protocol e))
        | Ok output => (Some (Wire_Result (Result_Success id Result_Activate output)), Ok tt)
        end
      end
  | _ => (None, Err (Peer_UnexpectedMessage "activate request"))
  end.

(** A worker that ends without an answer closes the connection. *)
Definition answers_with {A} (answer : option WireMessage * A) : result WireMessage PeerError :=
  match answer.1 with Some m => Ok m | None => Err (Peer_Frame (Frame_Io "unexpected end of file")) end.

(** ** Agreement

    What the handshake promises, without its messages: it succeeds when each side accepts what
    the other one requires. *)

Record compatible (host worker : PeerInfo) (hi : HostInitialization) (wi : WorkerInitialization Manifest) : Prop := {
  comp_host : peer_name host ≠ ""%string;
  comp_worker : peer_name worker ≠ ""%string;
  comp_id : hi_request_id hi ≠ ""%string;
  comp_name : hi_extension_id hi = peer_name worker;
  comp_operations : NoDup (hi_host_operations hi) ∧ ""%string ∉ hi_host_operations hi;
  comp_host_declared : hi_required_features hi ⊆ hi_supported_features hi;
  comp_worker_declared : wi_required_features wi ⊆ wi_supported_features wi;
  comp_host_served : hi_required_features hi ⊆ wi_supported_features wi;
  comp_worker_served : wi_required_features wi ⊆ hi_supported_features hi;
}.

(** A [BTreeSet] is an increasing list. *)
Abbreviation increasing := (StronglySorted str_lt).

Lemma increasing_collect l : increasing l → btree_collect l = l.
Proof.
  intros Hl. apply str_sorted_unique; [apply btree_collect_sorted|done|].
  intros x. apply elem_of_btree_collect.
Qed.

Lemma increasing_filter (P : string → Prop) `{!∀ x, Decision (P x)} l : increasing l → increasing (filter P l).
Proof.
  induction 1 as [|x l Hl IH Hx]; [constructor|]. rewrite filter_cons. case_decide; [|done].
  constructor; [done|]. apply Forall_forall. intros y Hy%list_elem_of_filter.
  rewrite Forall_forall in Hx. apply Hx. tauto.
Qed.

Lemma set_subset_true a b : set_subset a b = true ↔ a ⊆ b.
Proof.
  unfold set_subset. rewrite forallb_forall. split.
  - intros H x Hx. specialize (H x (proj1 (list_elem_of_In _ _) Hx)). by bools.
  - intros H x Hx. apply bool_decide_eq_true, H. by apply list_elem_of_In.
Qed.

Lemma is_empty_false s : is_empty s = false ↔ s ≠ ""%string.
Proof. by destruct s. Qed.

Lemma intersection_comm a b : increasing a → increasing b → set_intersection a b = set_intersection b a.
Proof.
  intros Ha Hb. apply str_sorted_unique; [by apply increasing_filter..|].
  intros x. unfold set_intersection. rewrite !list_elem_of_filter. tauto.
Qed.

Lemma subset_intersection r a b : r ⊆ set_intersection a b ↔ r ⊆ a ∧ r ⊆ b.
Proof. unfold set_intersection. set_unfold. setoid_rewrite list_elem_of_filter. naive_solver. Qed.

Lemma validate_operations_ok names ops :
  validate_operations names ops = Ok tt ↔ NoDup ops ∧ (""%string ∉ ops) ∧ (∀ x, x ∈ ops → x ∉ names).
Proof.
  revert names. induction ops as [|o ops IH]; intros names; simpl.
  { split; [|done]. intros _. split_and!; [constructor|set_solver|set_solver]. }
  rewrite NoDup_cons. destruct (is_empty o) eqn:Ho.
  { destruct o; [|done]. split; [done|]. set_solver. }
  apply is_empty_false in Ho. case_bool_decide as Hn; [split; [done|set_solver]|].
  rewrite IH. setoid_rewrite elem_of_btree_insert. set_solver.
Qed.

Lemma require_features_ok ls rs rr :
  require_features ls rs rr = Ok tt ↔ rr ⊆ rs ∧ rr ⊆ ls.
Proof.
  induction rr as [|f rr IH]; simpl; [set_solver|].
  repeat case_bool_decide; simpl; rewrite ?IH; set_solver.
Qed.

Lemma negotiate_features_ok ls rs rr n :
  increasing rs → increasing rr →
  negotiate_features ls rs rr = Ok n ↔ (rr ⊆ rs ∧ rr ⊆ ls) ∧ n = set_intersection ls rs.
Proof.
  intros Hs Hr. unfold negotiate_features, ensure_unique.
  rewrite !increasing_collect, !bool_decide_true by done. simpl.
  destruct (require_features ls rs rr) as [[]|e] eqn:E; simpl.
  - apply require_features_ok in E. naive_solver.
  - split; [done|]. intros [H _]. apply require_features_ok in H. congruence.
Qed.

Lemma host_initialization_ok i :
  validate_host_initialization i = Ok tt ↔
  hi_request_id i ≠ ""%string ∧ hi_extension_id i ≠ ""%string ∧ hi_required_features i ⊆ hi_supported_features i ∧
  NoDup (hi_host_operations i) ∧ (""%string ∉ hi_host_operations i).
Proof.
  unfold validate_host_initialization, validate_feature_declaration, validate_host_operations.
  destruct (is_empty (hi_request_id i)) eqn:E1; [destruct (hi_request_id i); naive_solver|].
  destruct (is_empty (hi_extension_id i)) eqn:E2; [destruct (hi_extension_id i); naive_solver|].
  apply is_empty_false in E1, E2. rewrite <- set_subset_true. destruct (set_subset _ _); simpl; [|naive_solver].
  pose proof (validate_operations_ok [] (hi_host_operations i)) as H.
  destruct (validate_operations _ _) as [[]|e]; simpl; set_solver.
Qed.

Lemma peer_info_ok p : PeerInfo_validate p = Ok tt ↔ peer_name p ≠ ""%string.
Proof. unfold PeerInfo_validate. rewrite <- is_empty_false. destruct (is_empty _); naive_solver. Qed.

Lemma validate_initialize_ok m worker sup req n :
  increasing (im_supported_features m) → increasing (im_required_features m) →
  im_protocol_version m = S5R_VERSION → im_id m ≠ ""%string → peer_name (im_host m) ≠ ""%string →
  NoDup (im_host_operations m) → (""%string ∉ im_host_operations m) →
  validate_initialize m worker sup req = Ok n ↔
  (im_extension_id m = peer_name worker ∧ im_required_features m ⊆ im_supported_features m ∧
   im_required_features m ⊆ sup ∧ req ⊆ n) ∧ n = set_intersection sup (im_supported_features m).
Proof.
  intros Hs Hr Hv Hid%is_empty_false Hh%peer_info_ok Hd He. unfold validate_initialize, validate_host_operations.
  rewrite Hid, Hv, bool_decide_true, Hh by done. simpl.
  case_bool_decide; simpl; [|naive_solver].
  rewrite (proj2 (validate_operations_ok [] _)) by set_solver. simpl.
  pose proof (λ n, negotiate_features_ok sup (im_supported_features m) (im_required_features m) n Hs Hr) as Hn.
  destruct (negotiate_features _ _ _) as [k|e] eqn:E; simpl.
  - destruct (proj1 (Hn k) eq_refl) as [[??] ->].
    destruct (set_subset req _) eqn:Es; [apply set_subset_true in Es; naive_solver|].
    split; [done|]. intros [(_&_&_&Hq) ->]. apply set_subset_true in Hq. congruence.
  - split; [done|]. intros [(_&?&?&_) ->]. by destruct (proj2 (Hn _) (conj (conj H0 H1) eq_refl)).
Qed.

(** The request a host makes, when it makes one. *)
Lemma initialize_request_ok host hi m :
  initialize_request host hi = Ok m →
  m = Wire_Initialize {| im_id := hi_request_id hi; im_protocol_version := S5R_VERSION; im_host := host;
        im_extension_id := hi_extension_id hi; im_supported_features := hi_supported_features hi;
        im_required_features := hi_required_features hi; im_host_operations := hi_host_operations hi |} ∧
  peer_name host ≠ ""%string ∧ validate_host_initialization hi = Ok tt.
Proof.
  unfold initialize_request. rewrite <- peer_info_ok.
  destruct (PeerInfo_validate host) as [[]|]; simpl; [|done].
  destruct (validate_host_initialization hi) as [[]|]; simpl; naive_solver.
Qed.

(** The two sides of one handshake; [serde_json] reads back what it wrote. *)
Section agreement.
  Context (host worker : PeerInfo) (hi : HostInitialization) (wi : WorkerInitialization Manifest).
  Hypothesis output_written : ∀ o, ∃ v, output_to_value o = Ok v ∧ output_of_value v = Ok o.
  Hypothesis sets : Forall increasing [hi_supported_features hi; hi_required_features hi;
                                       wi_supported_features wi; wi_required_features wi].

Definition agreed : list string := set_intersection (hi_supported_features hi) (wi_supported_features wi).
Definition worker_side : WorkerInitialized :=
  {| wd_negotiated_features := agreed; wd_host_operations := hi_host_operations hi |}.
Definition worker_output : InitializeOutput Manifest :=
  {| io_worker := worker; io_protocol_version := S5R_VERSION; io_supported_features := wi_supported_features wi;
     io_required_features := wi_required_features wi; io_negotiated_features := agreed;
     io_manifest := wi_manifest wi |}.

Lemma sets_increasing :
  increasing (hi_supported_features hi) ∧ increasing (hi_required_features hi) ∧
  increasing (wi_supported_features wi) ∧ increasing (wi_required_features wi).
Proof. by rewrite !Forall_cons in sets; destruct sets as (?&?&?&?&_). Qed.

(** The worker's half: it accepts exactly the compatible hosts, and otherwise says why or closes. *)
Lemma worker_half m :
  initialize_request host hi = Ok m →
  (compatible host worker hi wi ∧ ∃ v, output_to_value worker_output = Ok v ∧
     accept worker wi m = (Some (Wire_Result (Result_Success (hi_request_id hi) Result_Initialize v)), Ok worker_side)) ∨
  (¬ compatible host worker hi wi ∧
   ((∃ e, accept worker wi m = (None, Err e) ∧ ∀ p, e ≠ Peer_Remote p) ∨
    ∃ p, accept worker wi m =
         (Some (Wire_Result (Result_Failure (hi_request_id hi) Result_Initialize p)), Err (Peer_Remote p)))).
Proof.
  intros (->&Hh&Hv)%initialize_request_ok. destruct sets_increasing as (H1&H2&H3&H4).
  apply host_initialization_ok in Hv as (Hid&_&Hd&Hnd&Hne).
  unfold accept. pose proof (peer_info_ok worker) as Hw. destruct (PeerInfo_validate worker) as [[]|]; simpl.
  2: { right. split; [intros []; naive_solver|]. left. naive_solver. }
  unfold validate_feature_declaration. pose proof (set_subset_true (wi_required_features wi) (wi_supported_features wi)) as Hs.
  destruct (set_subset _ _).
  2: { right. split; [intros []; naive_solver|]. left. naive_solver. }
  match goal with |- context [validate_initialize ?m ?w ?s ?r] =>
    pose proof (λ n, validate_initialize_ok m w s r n H1 H2 eq_refl Hid Hh Hnd Hne) as Hi;
    destruct (validate_initialize m w s r) as [n|e] eqn:E end; simpl in *.
  - destruct (proj1 (Hi n) eq_refl) as [(?&?&?&Hr) ->]. left.
    rewrite (intersection_comm _ (hi_supported_features hi)) in Hr |- * by done.
    split. { apply subset_intersection in Hr as [??]. constructor; naive_solver. }
    destruct (output_written worker_output) as (v&Hv&_). exists v. split; [done|].
    unfold worker_output, agreed in Hv. by rewrite Hv.
  - right. split; [|naive_solver]. intros C.
    enough (Err e = Ok (set_intersection (wi_supported_features wi) (hi_supported_features hi))) by done.
    apply Hi. split; [|done]. split_and!; [apply C..|]. apply subset_intersection. split; apply C.
Qed.

(** The host's half: it takes the worker's answer to a compatible request. *)
Lemma host_takes_answer v :
  compatible host worker hi wi → output_of_value v = Ok worker_output →
  initialize_reply hi (Wire_Result (Result_Success (hi_request_id hi) Result_Initialize v)) =
  Ok (agreed, worker, wi_manifest wi).
Proof.
  intros C Hv. destruct sets_increasing as (H1&H2&H3&H4).
  assert (increasing agreed) as Ha by by apply increasing_filter.
  unfold initialize_reply. simpl. rewrite !bool_decide_true, Hv by done. simpl.
  unfold validate_initialize_output, has_duplicates. simpl.
  rewrite (proj2 (peer_info_ok worker)), !increasing_collect, !(bool_decide_true (length _ = _)) by (apply C || done).
  simpl. rewrite (bool_decide_true (_ = hi_extension_id hi)) by (symmetry; apply C). simpl.
  rewrite (bool_decide_true (agreed = _)) by done.
  rewrite !(proj2 (set_subset_true _ _)); [done|..]; try apply C; apply subset_intersection; split; apply C.
Qed.

(** The handshake of a host and a worker: over their exchange the host succeeds exactly when the two are
    compatible, and then the worker has succeeded too, with the same features (those both support, which hold what
    each requires), the host's operations and the worker's identity and manifest; a worker that refuses a request
    says so to the host with the same error.  No compatible pair is refused. *)
Theorem handshake_agrees m :
  initialize_request host hi = Ok m →
  (∀ r, initialize host hi (λ m, answers_with (accept worker wi m)) = Ok r ↔
        compatible host worker hi wi ∧ r = (agreed, worker, wi_manifest wi)) ∧
  (∀ w, (accept worker wi m).2 = Ok w ↔ compatible host worker hi wi ∧ w = worker_side) ∧
  (∀ p, (accept worker wi m).2 = Err (Peer_Remote p) →
        initialize host hi (λ m, answers_with (accept worker wi m)) = Err (Peer_Remote p)) ∧
  (compatible host worker hi wi → hi_required_features hi ⊆ agreed ∧ wi_required_features wi ⊆ agreed).
Proof.
  intros Hm. unfold initialize. rewrite Hm. cbn -[initialize_reply accept].
  destruct (worker_half m Hm) as [(C&v&Hv&->)|[C [(e&->&He)|(p&->)]]]; cbn -[initialize_reply].
  - destruct (output_written worker_output) as (v'&Hv'&Ho). assert (v' = v) as -> by congruence.
    rewrite host_takes_answer by done. split_and!; [naive_solver..|done|].
    intros _. split; apply subset_intersection; split; apply C.
  - split_and!; naive_solver.
  - simpl. rewrite !bool_decide_true by done. simpl. split_and!; naive_solver.
Qed.
End agreement.

(** The activation that follows: the host's activation ends as the worker's handler does. *)
Lemma activation_agrees to_value of_value handler id config v :
  to_value = Ok v → of_value v = Ok tt → id ≠ ""%string →
  let answer := accept_activation to_value handler in
  activate of_value id config (λ m, answers_with (answer m)) = map_err Peer_Remote (handler config) ∧
  (answer (Wire_Activate id config)).2 = map_err Peer_Remote (handler config).
Proof.
  intros -> Hv Hid%is_empty_false. unfold activate, accept_activation. rewrite Hid.
  destruct (handler config) as [[]|e]; simpl; rewrite !bool_decide_true by done; simpl; by rewrite ?Hv.
Qed.
End handshake.

(** A pair of peers, with a JSON form of the worker's answer in place of [serde_json]'s. *)
Module HandshakeSample.

Definition strings (l : list string) : Value := JArray (JString <$> l).
Fixpoint strings_of (l : list Value) : option (list string) :=
  match l with
  | [] => Some []
  | JString s :: l => match strings_of l with Some t => Some (s :: t) | None => None end
  | _ => None
  end.

Definition output_to_value (o : InitializeOutput unit) : result Value string :=
  Ok (JArray [JString (peer_name (io_worker o)); strings (option_list (peer_version (io_worker o)));
              JString (io_protocol_version o); strings (io_supported_features o);
              strings (io_required_features o); strings (io_negotiated_features o)]).

Definition output_of_value (v : Value) : result (InitializeOutput unit) string :=
  match v with
  | JArray [JString name; JArray version; JString protocol; JArray s; JArray r; JArray n] =>
    match strings_of version, strings_of s, strings_of r, strings_of n with
    | Some version, Some s, Some r, Some n =>
      Ok {| io_worker := {| peer_name := name; peer_version := head version |}; io_protocol_version := protocol;
            io_supported_features := s; io_required_features := r; io_negotiated_features := n; io_manifest := tt |}
    | _, _, _, _ => Err "invalid type"
    end
  | _ => Err "invalid type"
  end.

Lemma strings_of_strings l : strings_of (JString <$> l) = Some l.
Proof. induction l as [|s l IH]; csimpl; [done|]. by rewrite IH. Qed.

Lemma output_reads_back o : ∃ v, output_to_value o = Ok v ∧ output_of_value v = Ok o.
Proof.
  eexists. split; [reflexivity|]. simpl. rewrite !strings_of_strings.
  destruct o as [[name [v|]] p s r n []]; reflexivity.
Qed.

Definition host : PeerInfo := {| peer_name := "astrcode-host"; peer_version := Some "1.0" |}.
Definition worker : PeerInfo := {| peer_name := "todo"; peer_version := None |}.
Definition hi : HostInitialization :=
  {| hi_request_id := "init-1"; hi_extension_id := "todo";
     hi_supported_features := [FEATURE_MODEL_STREAM_V1; FEATURE_NESTED_INVOKE_V1]; hi_required_features := [];
     hi_host_operations := ["host.log"] |}.
Definition wi : WorkerInitialization unit :=
  {| wi_supported_features := [FEATURE_NESTED_INVOKE_V1]; wi_required_features := [FEATURE_NESTED_INVOKE_V1];
     wi_manifest := tt |}.

Lemma sets : Forall (StronglySorted str_lt)
  [hi_supported_features hi; hi_required_features hi; wi_supported_features wi; wi_required_features wi].
Proof. repeat match goal with |- str_lt _ _ => by split; [vm_compute|] | _ => constructor end. Qed.

End HandshakeSample.

Lemma handshake_agrees_witness : ∃ m,
  initialize_request ep_message HandshakeSample.host HandshakeSample.hi = Ok m ∧
  (compatible HandshakeSample.host HandshakeSample.worker HandshakeSample.hi HandshakeSample.wi →
   hi_required_features HandshakeSample.hi ⊆ agreed HandshakeSample.hi HandshakeSample.wi ∧
   wi_required_features HandshakeSample.wi ⊆ agreed HandshakeSample.hi HandshakeSample.wi) ∧
  agreed HandshakeSample.hi HandshakeSample.wi = [FEATURE_NESTED_INVOKE_V1].
Proof.
  eexists. split; [reflexivity|]. split; [|reflexivity].
  apply (handshake_agrees ep_message (λ s, s) HandshakeSample.output_to_value HandshakeSample.output_of_value
           HandshakeSample.host HandshakeSample.worker HandshakeSample.hi HandshakeSample.wi
           HandshakeSample.output_reads_back HandshakeSample.sets _ eq_refl).
Defined.
