(* ===== verification/S5rDriver.v ===== *)
(** * The driver of an S5R peer ([astrcode-s5r-runtime/src/peer_runtime.rs])

    [PeerDriver::run_until] owns the calls a peer has made, the calls it serves and the one
    writer of the connection.  The channels, slots and permits the tasks share are fields of
    [Driver]; one [Input] is one thing that happens: a caller calls or goes away, the loop takes
    a control, a command, a frame or an ended task, a task or the writer makes a step.  A oneshot
    sender is recorded when it is used or dropped.  Time is in the inputs: a deadline that
    passes is an input. *)

From S2P Require Import Prelude Utf8 StdPath StdStr CoreTypes CoreLlm ProjReducer StoreTypes AiRetry S5rWire S5rPeer.

Definition COMMAND_QUEUE_CAPACITY : nat := 256.
Definition WRITE_QUEUE_CAPACITY : nat := 256.
Definition STREAM_FORWARD_BUFFER_CAPACITY : nat := 256.
Definition CANCELLED_REQUEST_CAPACITY : nat := COMMAND_QUEUE_CAPACITY.
Definition MAX_IN_FLIGHT_REQUESTS : nat := COMMAND_QUEUE_CAPACITY.

(** ** State *)

Record PendingStream := {
  ps_call : nat;
  ps_started : bool;
  ps_cancel_requested : bool;
}.

Inductive PendingRequest :=
| Pending_Unary (call : nat)
| Pending_Stream (stream : PendingStream).

Definition pending_call (r : PendingRequest) : nat :=
  match r with Pending_Unary call => call | Pending_Stream stream => ps_call stream end.

Record CancelledRequests := {
  cr_ids : gset string;
  cr_order : list string;
}.

Definition CancelledRequests_default : CancelledRequests := {| cr_ids := ∅; cr_order := [] |}.

(** The [while] of [insert]; an empty [order] would make it spin, which [None] stands for. *)
Fixpoint evict (ids : gset string) (order : list string) : option CancelledRequests :=
  if bool_decide (CANCELLED_REQUEST_CAPACITY < size ids) then
    match order with
    | oldest :: order => evict (ids ∖ {[oldest]}) order
    | [] => None
    end
  else Some {| cr_ids := ids; cr_order := order |}.

Definition cancelled_insert (id : string) (c : CancelledRequests) : option CancelledRequests :=
  if bool_decide (id ∈ cr_ids c) then Some c
  else evict ({[id]} ∪ cr_ids c) (cr_order c ++ [id]).

Definition cancelled_contains (id : string) (c : CancelledRequests) : bool := bool_decide (id ∈ cr_ids c).

Definition cancelled_remove (id : string) (c : CancelledRequests) : CancelledRequests :=
  {| cr_ids := cr_ids c ∖ {[id]}; cr_order := cr_order c |}.

Inductive DriverCommand :=
| Cmd_Invoke (call : nat) (message : InvokeMsg)
| Cmd_InvokeStream (call : nat) (message : InvokeMsg).

Definition command_call (c : DriverCommand) : nat :=
  match c with Cmd_Invoke call _ | Cmd_InvokeStream call _ => call end.

(** [ControlCommand::Cancel] *)
Record ControlCommand := { cc_id : string; cc_reason : string }.

Record InvocationCancellation := { ic_token : bool; ic_reason : option string }.

Definition InvocationCancellation_default : InvocationCancellation := {| ic_token := false; ic_reason := None |}.
Definition cancellation_cancel (reason : string) (c : InvocationCancellation) : InvocationCancellation :=
  {| ic_token := true; ic_reason := Some (default reason (ic_reason c)) |}.

(** Who waits for the receipt of a write. *)
Inductive Receipt := Receipt_Call (call : nat) | Receipt_Task (task : nat).
Record WriteRequest := { wq_message : WireMessage; wq_written : option Receipt }.

(** Where a [run_inbound] task stands; [after] is where it goes once its frame is written,
    [None] when it returns. *)
Inductive InboundPhase :=
| Phase_Invoking
| Phase_Streaming (started : bool)
| Phase_Sending (message : WireMessage) (after : option bool)
| Phase_Awaiting (after : option bool)
| Phase_Returned (outcome : result unit PeerError).

Record InboundTask := {
  it_request : InvokeMsg;
  it_cancellation : InvocationCancellation;
  it_phase : InboundPhase;
}.

(** A [forward_stream] task: its input buffer, and whether its output's receiver lives. *)
Record Forward := { fw_id : string; fw_queue : list ModelStreamEvent; fw_open : bool }.

Inductive Outcome :=
| Outcome_Sent (r : result Value ErrorPayload)
| Outcome_Dropped.

Inductive InvokeError :=
| Invoke_Local (e : ErrorPayload)
| Invoke_Remote (e : ErrorPayload)
| Invoke_DriverUnavailable
| Invoke_PeerClosed.

Record Driver := {
  dr_submitted : list InvokeMsg;  (** calls, in order: a call is known by its place *)
  dr_next_request_id : N;
  dr_permits : nat;  (** [outbound_permits] *)
  dr_commands : list DriverCommand;
  dr_control : list ControlCommand;
  dr_gone : gset nat;  (** calls whose [caller_cancellation] is set *)
  dr_pending : gmap string PendingRequest;
  dr_cancelled : CancelledRequests;
  dr_inbound : gmap string nat;  (** the task that serves an id *)
  dr_tasks : gmap nat InboundTask;  (** [run_inbound] tasks not joined *)
  dr_spawned : nat;
  dr_inbound_permits : nat;
  dr_writes : list WriteRequest;
  dr_writer_closed : option PeerError;  (** how the write pump ended *)
  dr_wire : list WireMessage;  (** written to the transport *)
  dr_forward : gmap nat Forward;  (** forwarding buffers whose receiver lives *)
  dr_outputs : gmap nat (list ModelStreamEvent);  (** handed to the consumers *)
  dr_failure : gmap nat ErrorPayload;
  dr_outcomes : list (nat * Outcome);  (** what became of the response senders *)
  dr_receipts : list (nat * option (result unit ErrorPayload));  (** and of the [written] senders; [None]: dropped *)
}.

Definition set_submitted (x : list InvokeMsg) (d : Driver) : Driver :=
  {| dr_submitted := x; dr_next_request_id := dr_next_request_id d; dr_permits := dr_permits d; dr_commands :=
     dr_commands d; dr_control := dr_control d; dr_gone := dr_gone d; dr_pending := dr_pending d; dr_cancelled
     := dr_cancelled d; dr_inbound := dr_inbound d; dr_tasks := dr_tasks d; dr_spawned := dr_spawned d;
     dr_inbound_permits := dr_inbound_permits d; dr_writes := dr_writes d; dr_writer_closed :=
     dr_writer_closed d; dr_wire := dr_wire d; dr_forward := dr_forward d; dr_outputs := dr_outputs d;
     dr_failure := dr_failure d; dr_outcomes := dr_outcomes d; dr_receipts := dr_receipts d |}.
Definition set_next_request_id (x : N) (d : Driver) : Driver :=
  {| dr_submitted := dr_submitted d; dr_next_request_id := x; dr_permits := dr_permits d; dr_commands :=
     dr_commands d; dr_control := dr_control d; dr_gone := dr_gone d; dr_pending := dr_pending d; dr_cancelled
     := dr_cancelled d; dr_inbound := dr_inbound d; dr_tasks := dr_tasks d; dr_spawned := dr_spawned d;
     dr_inbound_permits := dr_inbound_permits d; dr_writes := dr_writes d; dr_writer_closed :=
     dr_writer_closed d; dr_wire := dr_wire d; dr_forward := dr_forward d; dr_outputs := dr_outputs d;
     dr_failure := dr_failure d; dr_outcomes := dr_outcomes d; dr_receipts := dr_receipts d |}.
Definition set_permits (x : nat) (d : Driver) : Driver :=
  {| dr_submitted := dr_submitted d; dr_next_request_id := dr_next_request_id d; dr_permits := x; dr_commands
     := dr_commands d; dr_control := dr_control d; dr_gone := dr_gone d; dr_pending := dr_pending d;
     dr_cancelled := dr_cancelled d; dr_inbound := dr_inbound d; dr_tasks := dr_tasks d; dr_spawned :=
     dr_spawned d; dr_inbound_permits := dr_inbound_permits d; dr_writes := dr_writes d; dr_writer_closed :=
     dr_writer_closed d; dr_wire := dr_wire d; dr_forward := dr_forward d; dr_outputs := dr_outputs d;
     dr_failure := dr_failure d; dr_outcomes := dr_outcomes d; dr_receipts := dr_receipts d |}.
Definition set_commands (x : list DriverCommand) (d : Driver) : Driver :=
  {| dr_submitted := dr_submitted d; dr_next_request_id := dr_next_request_id d; dr_permits := dr_permits d;
     dr_commands := x; dr_control := dr_control d; dr_gone := dr_gone d; dr_pending := dr_pending d;
     dr_cancelled := dr_cancelled d; dr_inbound := dr_inbound d; dr_tasks := dr_tasks d; dr_spawned :=
     dr_spawned d; dr_inbound_permits := dr_inbound_permits d; dr_writes := dr_writes d; dr_writer_closed :=
     dr_writer_closed d; dr_wire := dr_wire d; dr_forward := dr_forward d; dr_outputs := dr_outputs d;
     dr_failure := dr_failure d; dr_outcomes := dr_outcomes d; dr_receipts := dr_receipts d |}.
Definition set_control (x : list ControlCommand) (d : Driver) : Driver :=
  {| dr_submitted := dr_submitted d; dr_next_request_id := dr_next_request_id d; dr_permits := dr_permits d;
     dr_commands := dr_commands d; dr_control := x; dr_gone := dr_gone d; dr_pending := dr_pending d;
     dr_cancelled := dr_cancelled d; dr_inbound := dr_inbound d; dr_tasks := dr_tasks d; dr_spawned :=
     dr_spawned d; dr_inbound_permits := dr_inbound_permits d; dr_writes := dr_writes d; dr_writer_closed :=
     dr_writer_closed d; dr_wire := dr_wire d; dr_forward := dr_forward d; dr_outputs := dr_outputs d;
     dr_failure := dr_failure d; dr_outcomes := dr_outcomes d; dr_receipts := dr_receipts d |}.
Definition set_gone (x : gset nat) (d : Driver) : Driver :=
  {| dr_submitted := dr_submitted d; dr_next_request_id := dr_next_request_id d; dr_permits := dr_permits d;
     dr_commands := dr_commands d; dr_control := dr_control d; dr_gone := x; dr_pending := dr_pending d;
     dr_cancelled := dr_cancelled d; dr_inbound := dr_inbound d; dr_tasks := dr_tasks d; dr_spawned :=
     dr_spawned d; dr_inbound_permits := dr_inbound_permits d; dr_writes := dr_writes d; dr_writer_closed :=
     dr_writer_closed d; dr_wire := dr_wire d; dr_forward := dr_forward d; dr_outputs := dr_outputs d;
     dr_failure := dr_failure d; dr_outcomes := dr_outcomes d; dr_receipts := dr_receipts d |}.
Definition set_pending (x : gmap string PendingRequest) (d : Driver) : Driver :=
  {| dr_submitted := dr_submitted d; dr_next_request_id := dr_next_request_id d; dr_permits := dr_permits d;
     dr_commands := dr_commands d; dr_control := dr_control d; dr_gone := dr_gone d; dr_pending := x;
     dr_cancelled := dr_cancelled d; dr_inbound := dr_inbound d; dr_tasks := dr_tasks d; dr_spawned :=
     dr_spawned d; dr_inbound_permits := dr_inbound_permits d; dr_writes := dr_writes d; dr_writer_closed :=
     dr_writer_closed d; dr_wire := dr_wire d; dr_forward := dr_forward d; dr_outputs := dr_outputs d;
     dr_failure := dr_failure d; dr_outcomes := dr_outcomes d; dr_receipts := dr_receipts d |}.
Definition set_cancelled (x : CancelledRequests) (d : Driver) : Driver :=
  {| dr_submitted := dr_submitted d; dr_next_request_id := dr_next_request_id d; dr_permits := dr_permits d;
     dr_commands := dr_commands d; dr_control := dr_control d; dr_gone := dr_gone d; dr_pending := dr_pending
     d; dr_cancelled := x; dr_inbound := dr_inbound d; dr_tasks := dr_tasks d; dr_spawned := dr_spawned d;
     dr_inbound_permits := dr_inbound_permits d; dr_writes := dr_writes d; dr_writer_closed :=
     dr_writer_closed d; dr_wire := dr_wire d; dr_forward := dr_forward d; dr_outputs := dr_outputs d;
     dr_failure := dr_failure d; dr_outcomes := dr_outcomes d; dr_receipts := dr_receipts d |}.
Definition set_inbound (x : gmap string nat) (d : Driver) : Driver :=
  {| dr_submitted := dr_submitted d; dr_next_request_id := dr_next_request_id d; dr_permits := dr_permits d;
     dr_commands := dr_commands d; dr_control := dr_control d; dr_gone := dr_gone d; dr_pending := dr_pending
     d; dr_cancelled := dr_cancelled d; dr_inbound := x; dr_tasks := dr_tasks d; dr_spawned := dr_spawned d;
     dr_inbound_permits := dr_inbound_permits d; dr_writes := dr_writes d; dr_writer_closed :=
     dr_writer_closed d; dr_wire := dr_wire d; dr_forward := dr_forward d; dr_outputs := dr_outputs d;
     dr_failure := dr_failure d; dr_outcomes := dr_outcomes d; dr_receipts := dr_receipts d |}.
Definition set_tasks (x : gmap nat InboundTask) (d : Driver) : Driver :=
  {| dr_submitted := dr_submitted d; dr_next_request_id := dr_next_request_id d; dr_permits := dr_permits d;
     dr_commands := dr_commands d; dr_control := dr_control d; dr_gone := dr_gone d; dr_pending := dr_pending
     d; dr_cancelled := dr_cancelled d; dr_inbound := dr_inbound d; dr_tasks := x; dr_spawned := dr_spawned d;
     dr_inbound_permits := dr_inbound_permits d; dr_writes := dr_writes d; dr_writer_closed :=
     dr_writer_closed d; dr_wire := dr_wire d; dr_forward := dr_forward d; dr_outputs := dr_outputs d;
     dr_failure := dr_failure d; dr_outcomes := dr_outcomes d; dr_receipts := dr_receipts d |}.
Definition set_spawned (x : nat) (d : Driver) : Driver :=
  {| dr_submitted := dr_submitted d; dr_next_request_id := dr_next_request_id d; dr_permits := dr_permits d;
     dr_commands := dr_commands d; dr_control := dr_control d; dr_gone := dr_gone d; dr_pending := dr_pending
     d; dr_cancelled := dr_cancelled d; dr_inbound := dr_inbound d; dr_tasks := dr_tasks d; dr_spawned := x;
     dr_inbound_permits := dr_inbound_permits d; dr_writes := dr_writes d; dr_writer_closed :=
     dr_writer_closed d; dr_wire := dr_wire d; dr_forward := dr_forward d; dr_outputs := dr_outputs d;
     dr_failure := dr_failure d; dr_outcomes := dr_outcomes d; dr_receipts := dr_receipts d |}.
Definition set_inbound_permits (x : nat) (d : Driver) : Driver :=
  {| dr_submitted := dr_submitted d; dr_next_request_id := dr_next_request_id d; dr_permits := dr_permits d;
     dr_commands := dr_commands d; dr_control := dr_control d; dr_gone := dr_gone d; dr_pending := dr_pending
     d; dr_cancelled := dr_cancelled d; dr_inbound := dr_inbound d; dr_tasks := dr_tasks d; dr_spawned :=
     dr_spawned d; dr_inbound_permits := x; dr_writes := dr_writes d; dr_writer_closed := dr_writer_closed d;
     dr_wire := dr_wire d; dr_forward := dr_forward d; dr_outputs := dr_outputs d; dr_failure := dr_failure d;
     dr_outcomes := dr_outcomes d; dr_receipts := dr_receipts d |}.
Definition set_writes (x : list WriteRequest) (d : Driver) : Driver :=
  {| dr_submitted := dr_submitted d; dr_next_request_id := dr_next_request_id d; dr_permits := dr_permits d;
     dr_commands := dr_commands d; dr_control := dr_control d; dr_gone := dr_gone d; dr_pending := dr_pending
     d; dr_cancelled := dr_cancelled d; dr_inbound := dr_inbound d; dr_tasks := dr_tasks d; dr_spawned :=
     dr_spawned d; dr_inbound_permits := dr_inbound_permits d; dr_writes := x; dr_writer_closed :=
     dr_writer_closed d; dr_wire := dr_wire d; dr_forward := dr_forward d; dr_outputs := dr_outputs d;
     dr_failure := dr_failure d; dr_outcomes := dr_outcomes d; dr_receipts := dr_receipts d |}.
Definition set_writer_closed (x : option PeerError) (d : Driver) : Driver :=
  {| dr_submitted := dr_submitted d; dr_next_request_id := dr_next_request_id d; dr_permits := dr_permits d;
     dr_commands := dr_commands d; dr_control := dr_control d; dr_gone := dr_gone d; dr_pending := dr_pending
     d; dr_cancelled := dr_cancelled d; dr_inbound := dr_inbound d; dr_tasks := dr_tasks d; dr_spawned :=
     dr_spawned d; dr_inbound_permits := dr_inbound_permits d; dr_writes := dr_writes d; dr_writer_closed :=
     x; dr_wire := dr_wire d; dr_forward := dr_forward d; dr_outputs := dr_outputs d; dr_failure := dr_failure
     d; dr_outcomes := dr_outcomes d; dr_receipts := dr_receipts d |}.
Definition set_wire (x : list WireMessage) (d : Driver) : Driver :=
  {| dr_submitted := dr_submitted d; dr_next_request_id := dr_next_request_id d; dr_permits := dr_permits d;
     dr_commands := dr_commands d; dr_control := dr_control d; dr_gone := dr_gone d; dr_pending := dr_pending
     d; dr_cancelled := dr_cancelled d; dr_inbound := dr_inbound d; dr_tasks := dr_tasks d; dr_spawned :=
     dr_spawned d; dr_inbound_permits := dr_inbound_permits d; dr_writes := dr_writes d; dr_writer_closed :=
     dr_writer_closed d; dr_wire := x; dr_forward := dr_forward d; dr_outputs := dr_outputs d; dr_failure :=
     dr_failure d; dr_outcomes := dr_outcomes d; dr_receipts := dr_receipts d |}.
Definition set_forward (x : gmap nat Forward) (d : Driver) : Driver :=
  {| dr_submitted := dr_submitted d; dr_next_request_id := dr_next_request_id d; dr_permits := dr_permits d;
     dr_commands := dr_commands d; dr_control := dr_control d; dr_gone := dr_gone d; dr_pending := dr_pending
     d; dr_cancelled := dr_cancelled d; dr_inbound := dr_inbound d; dr_tasks := dr_tasks d; dr_spawned :=
     dr_spawned d; dr_inbound_permits := dr_inbound_permits d; dr_writes := dr_writes d; dr_writer_closed :=
     dr_writer_closed d; dr_wire := dr_wire d; dr_forward := x; dr_outputs := dr_outputs d; dr_failure :=
     dr_failure d; dr_outcomes := dr_outcomes d; dr_receipts := dr_receipts d |}.
Definition set_outputs (x : gmap nat (list ModelStreamEvent)) (d : Driver) : Driver :=
  {| dr_submitted := dr_submitted d; dr_next_request_id := dr_next_request_id d; dr_permits := dr_permits d;
     dr_commands := dr_commands d; dr_control := dr_control d; dr_gone := dr_gone d; dr_pending := dr_pending
     d; dr_cancelled := dr_cancelled d; dr_inbound := dr_inbound d; dr_tasks := dr_tasks d; dr_spawned :=
     dr_spawned d; dr_inbound_permits := dr_inbound_permits d; dr_writes := dr_writes d; dr_writer_closed :=
     dr_writer_closed d; dr_wire := dr_wire d; dr_forward := dr_forward d; dr_outputs := x; dr_failure :=
     dr_failure d; dr_outcomes := dr_outcomes d; dr_receipts := dr_receipts d |}.
Definition set_failure (x : gmap nat ErrorPayload) (d : Driver) : Driver :=
  {| dr_submitted := dr_submitted d; dr_next_request_id := dr_next_request_id d; dr_permits := dr_permits d;
     dr_commands := dr_commands d; dr_control := dr_control d; dr_gone := dr_gone d; dr_pending := dr_pending
     d; dr_cancelled := dr_cancelled d; dr_inbound := dr_inbound d; dr_tasks := dr_tasks d; dr_spawned :=
     dr_spawned d; dr_inbound_permits := dr_inbound_permits d; dr_writes := dr_writes d; dr_writer_closed :=
     dr_writer_closed d; dr_wire := dr_wire d; dr_forward := dr_forward d; dr_outputs := dr_outputs d;
     dr_failure := x; dr_outcomes := dr_outcomes d; dr_receipts := dr_receipts d |}.
Definition set_outcomes (x : list (nat * Outcome)) (d : Driver) : Driver :=
  {| dr_submitted := dr_submitted d; dr_next_request_id := dr_next_request_id d; dr_permits := dr_permits d;
     dr_commands := dr_commands d; dr_control := dr_control d; dr_gone := dr_gone d; dr_pending := dr_pending
     d; dr_cancelled := dr_cancelled d; dr_inbound := dr_inbound d; dr_tasks := dr_tasks d; dr_spawned :=
     dr_spawned d; dr_inbound_permits := dr_inbound_permits d; dr_writes := dr_writes d; dr_writer_closed :=
     dr_writer_closed d; dr_wire := dr_wire d; dr_forward := dr_forward d; dr_outputs := dr_outputs d;
     dr_failure := dr_failure d; dr_outcomes := x; dr_receipts := dr_receipts d |}.
Definition set_receipts (x : list (nat * option (result unit ErrorPayload))) (d : Driver) : Driver :=
  {| dr_submitted := dr_submitted d; dr_next_request_id := dr_next_request_id d; dr_permits := dr_permits d;
     dr_commands := dr_commands d; dr_control := dr_control d; dr_gone := dr_gone d; dr_pending := dr_pending
     d; dr_cancelled := dr_cancelled d; dr_inbound := dr_inbound d; dr_tasks := dr_tasks d; dr_spawned :=
     dr_spawned d; dr_inbound_permits := dr_inbound_permits d; dr_writes := dr_writes d; dr_writer_closed :=
     dr_writer_closed d; dr_wire := dr_wire d; dr_forward := dr_forward d; dr_outputs := dr_outputs d;
     dr_failure := dr_failure d; dr_outcomes := dr_outcomes d; dr_receipts := x |}.

Definition Driver_new : Driver :=
  {| dr_submitted := []; dr_next_request_id := 1; dr_permits := MAX_IN_FLIGHT_REQUESTS; dr_commands := [];
     dr_control := []; dr_gone := ∅; dr_pending := ∅; dr_cancelled := CancelledRequests_default; dr_inbound := ∅;
     dr_tasks := ∅; dr_spawned := 0; dr_inbound_permits := MAX_IN_FLIGHT_REQUESTS; dr_writes := [];
     dr_writer_closed := None; dr_wire := []; dr_forward := ∅; dr_outputs := ∅; dr_failure := ∅; dr_outcomes := [];
     dr_receipts := [] |}.

(** ** Small steps on the state *)

Definition receipt (call : nat) (r : option (result unit ErrorPayload)) (d : Driver) : Driver :=
  set_receipts (dr_receipts d ++ [(call, r)]) d.
Definition outcome (call : nat) (o : Outcome) (d : Driver) : Driver :=
  set_outcomes (dr_outcomes d ++ [(call, o)]) d.
Definition send_control (id reason : string) (d : Driver) : Driver :=
  set_control (dr_control d ++ [{| cc_id := id; cc_reason := reason |}]) d.
(** A dropped [OwnedSemaphorePermit]. *)
Definition release_permit (d : Driver) : Driver := set_permits (S (dr_permits d)) d.

Definition set_stream_failure (call : nat) (error : ErrorPayload) (d : Driver) : Driver :=
  match dr_failure d !! call with
  | Some _ => d
  | None => set_failure (<[call := error]> (dr_failure d)) d
  end.

(** A call leaves [pending]: its permit comes back, its sender ends as [o] says. *)
Definition finish_pending (id : string) (r : PendingRequest) (o : Outcome) (d : Driver) : Driver :=
  release_permit (outcome (pending_call r) o (set_pending (delete id (dr_pending d)) d)).

Section driver.
  (** The features of the handshake; the texts of [PeerError], of [ErrorPayload] and of tokio's [TrySendError]. *)
  Context (negotiated_features : list string) (display_error : PeerError → string)
    (display_payload : ErrorPayload → string) (full_text closed_text : string).

(** ** The writer's queue *)

Inductive TrySendError := Send_Full | Send_Closed.

Definition try_send_write (message : WireMessage) (written : option Receipt) (d : Driver) : Driver + TrySendError :=
  if bool_decide (is_Some (dr_writer_closed d)) then inr Send_Closed
  else if bool_decide (WRITE_QUEUE_CAPACITY ≤ length (dr_writes d)) then inr Send_Full
  else inl (set_writes (dr_writes d ++ [{| wq_message := message; wq_written := written |}]) d).

Definition write_queue_error (e : TrySendError) : PeerError :=
  Peer_Protocol (match e with
                 | Send_Full => "peer write queue is full"
                 | Send_Closed => "peer write pump is unavailable"
                 end).

Definition write_queue_rejection (e : TrySendError) : ErrorPayload :=
  match e with
  | Send_Full => ErrorPayload_new Code_PeerOverloaded "peer write queue is full"
  | Send_Closed => ErrorPayload_new Code_PeerClosed "peer write pump is unavailable"
  end.

Definition try_write (message : WireMessage) (d : Driver) : Driver * result unit PeerError :=
  match try_send_write message None d with
  | inl d => (d, Ok tt)
  | inr e => (d, Err (write_queue_error e))
  end.

Definition try_write_with_receipt (message : WireMessage) (call : nat) (d : Driver) : Driver * bool :=
  match try_send_write message (Some (Receipt_Call call)) d with
  | inl d => (d, true)
  | inr e => (receipt call (Some (Err (write_queue_rejection e))) d, false)
  end.

(** ** Calls *)

Definition allocate_request_id (d : Driver) : string * Driver :=
  ("invoke-" +:+ u64_to_string (dr_next_request_id d),
   set_next_request_id ((dr_next_request_id d + 1) mod 2 ^ 64)%N d).

Definition validate_outbound (id operation : string) (parent_invoke_id : option string) (stream : bool)
    : result unit InvokeError :=
  if is_empty id || is_empty operation then
    Err (Invoke_Local (ErrorPayload_new Code_InvalidRequest "request id and operation must not be empty"))
  else if bool_decide (is_Some parent_invoke_id) && negb (bool_decide (FEATURE_NESTED_INVOKE_V1 ∈ negotiated_features)) then
    Err (Invoke_Local (ErrorPayload_new Code_UnsupportedFeature "nested invoke was not negotiated"))
  else if stream && negb (bool_decide (FEATURE_MODEL_STREAM_V1 ∈ negotiated_features)) then
    Err (Invoke_Local (ErrorPayload_new Code_UnsupportedFeature "model stream was not negotiated"))
  else Ok tt.

(** A call up to the point where it waits for its receipt: it is in the queue, it was refused,
    or it waits for a permit or for room. *)
Inductive Submission :=
| Submitted (call : nat)
| Submission_Rejected (e : InvokeError)
| Submission_Waits.

Definition submit (message : InvokeMsg) (d : Driver) : Submission * Driver :=
  match validate_outbound (iv_id message) (iv_operation message) (iv_parent_invoke_id message) (iv_stream message) with
  | Err e => (Submission_Rejected e, d)
  | Ok _ =>
    match dr_permits d with
    | O =>
      if bool_decide (is_Some (iv_parent_invoke_id message)) then
        (Submission_Rejected (Invoke_Local (ErrorPayload_new Code_PeerOverloaded
                                              "peer has reached its in-flight request limit")), d)
      else (Submission_Waits, d)
    | S permits =>
      if bool_decide (COMMAND_QUEUE_CAPACITY ≤ length (dr_commands d)) then (Submission_Waits, d)
      else
        let call := length (dr_submitted d) in
        let command := if iv_stream message then Cmd_InvokeStream call message else Cmd_Invoke call message in
        (Submitted call,
         set_commands (dr_commands d ++ [command])
           (set_submitted (dr_submitted d ++ [message]) (set_permits permits d)))
    end
  end.

(** [CancelOnDrop::drop] while armed, and the drop of a [PeerStream] before its end. *)
Definition drop_call (call : nat) (id : string) (d : Driver) : Driver :=
  send_control id "caller_dropped" (set_gone ({[call]} ∪ dr_gone d) d).
Definition drop_stream (id : string) (d : Driver) : Driver := send_control id "stream_dropped" d.

(** ** The loop's handlers *)

Definition validate_parent (message : InvokeMsg) (d : Driver) : result unit ErrorPayload :=
  match iv_parent_invoke_id message with
  | Some parent =>
    if bool_decide (is_Some (dr_inbound d !! parent)) then Ok tt
    else Err (ErrorPayload_new Code_UnknownParentInvoke ("parent invoke " +:+ parent +:+ " is not active"))
  | None => Ok tt
  end.

Definition validate_inbound_features (request : InvokeMsg) (d : Driver) : result unit ErrorPayload :=
  if is_empty (iv_operation request) then Err (ErrorPayload_new Code_InvalidRequest "operation must not be empty")
  else
    let? _ := match iv_parent_invoke_id request with
      | Some parent =>
        if negb (bool_decide (FEATURE_NESTED_INVOKE_V1 ∈ negotiated_features)) then
          Err (ErrorPayload_new Code_UnsupportedFeature "nested invoke was not negotiated")
        else if negb (bool_decide (is_Some (dr_pending d !! parent))) then
          Err (ErrorPayload_new Code_UnknownParentInvoke ("parent invoke " +:+ parent +:+ " is not active"))
        else Ok tt
      | None => Ok tt
      end in
    if iv_stream request && negb (bool_decide (FEATURE_MODEL_STREAM_V1 ∈ negotiated_features)) then
      Err (ErrorPayload_new Code_UnsupportedFeature "model stream was not negotiated")
    else Ok tt.

Definition failed_result (id : string) (code : WireErrorCode) (message : string) : WireMessage :=
  Wire_Result (Result_Failure id Result_Invoke (ErrorPayload_new code message)).

Definition start_invoke_write (id : string) (message : InvokeMsg) (call : nat) (r : PendingRequest) (d : Driver) : Driver :=
  let '(d, ok) := try_write_with_receipt (Wire_Invoke message) call d in
  if ok then d else finish_pending id r Outcome_Dropped d.

(** A command that is dropped: its senders and its permit go with it. *)
Definition drop_command (call : nat) (r : option (result unit ErrorPayload)) (d : Driver) : Driver :=
  release_permit (outcome call Outcome_Dropped (receipt call r d)).

Definition handle_command (command : DriverCommand) (d : Driver) : Driver :=
  match command with
  | Cmd_Invoke call message =>
    if bool_decide (call ∈ dr_gone d) then drop_command call None d
    else
      match validate_parent message d with
      | Err error => drop_command call (Some (Err error)) d
      | Ok _ =>
        if bool_decide (is_Some (dr_pending d !! iv_id message)) then
          drop_command call
            (Some (Err (ErrorPayload_new Code_DuplicateRequestId "duplicate outbound request id"))) d
        else
          let id := iv_id message in
          let request := Pending_Unary call in
          start_invoke_write id message call request (set_pending (<[id := request]> (dr_pending d)) d)
      end
  | Cmd_InvokeStream call message =>
    if bool_decide (call ∈ dr_gone d) then drop_command call None d
    else
      match validate_parent message d with
      | Err error => drop_command call (Some (Err error)) d
      | Ok _ =>
        if bool_decide (is_Some (dr_pending d !! iv_id message)) then
          drop_command call
            (Some (Err (ErrorPayload_new Code_DuplicateRequestId "duplicate outbound request id"))) d
        else
          let id := iv_id message in
          let request := Pending_Stream {| ps_call := call; ps_started := false; ps_cancel_requested := false |} in
          start_invoke_write id message call request
            (set_forward (<[call := {| fw_id := id; fw_queue := []; fw_open := true |}]> (dr_forward d))
               (set_pending (<[id := request]> (dr_pending d)) d))
      end
  end.

(** [None] is a loop that spins. *)
Definition handle_control (control : ControlCommand) (d : Driver) : option (Driver * result unit PeerError) :=
  let id := cc_id control in
  match dr_pending d !! id with
  | None => Some (d, Ok tt)
  | Some request =>
    match cancelled_insert id (dr_cancelled d) with
    | None => None
    | Some cancelled =>
      Some (try_write (Wire_Cancel id (cc_reason control))
              (set_cancelled cancelled (finish_pending id request Outcome_Dropped d)))
    end
  end.

Definition route_result (r : ResultMsg) (d : Driver) : Driver * result unit PeerError :=
  let id := ResultMsg_id r in
  if negb (bool_decide (ResultMsg_kind r = Result_Invoke)) then (d, Err (Peer_UnexpectedMessage "invoke result"))
  else if cancelled_contains id (dr_cancelled d) then
    (set_cancelled (cancelled_remove id (dr_cancelled d)) d, Ok tt)
  else
    match dr_pending d !! id with
    | None => (d, Err (Peer_Protocol ("result references unknown request " +:+ id)))
    | Some (Pending_Unary call as request) =>
      let response := match r with Result_Success _ _ output => Ok output | Result_Failure _ _ error => Err error end in
      (finish_pending id request (Outcome_Sent response) d, Ok tt)
    | Some (Pending_Stream stream as request) =>
      let failure := match r with
        | Result_Success _ _ _ => ErrorPayload_new Code_InvalidResponse "stream invoke returned a unary result"
        | Result_Failure _ _ error => error
        end in
      (finish_pending id request Outcome_Dropped (set_stream_failure (ps_call stream) failure d), Ok tt)
    end.

(** Whether an event may follow, and whether the stream has started after it. *)
Definition stream_order (started : bool) (event : ModelStreamEvent) : bool * bool :=
  match event with
  | Model_Started => (negb started, true)
  | Model_Failed _ => (true, started)
  | _ => (started, started)
  end.

Definition cancel_stream (id : string) (stream : PendingStream) (failure : ErrorPayload) (reason : string) (d : Driver) : Driver :=
  let stream := {| ps_call := ps_call stream; ps_started := ps_started stream; ps_cancel_requested := true |} in
  send_control id reason
    (set_pending (<[id := Pending_Stream stream]> (dr_pending d)) (set_stream_failure (ps_call stream) failure d)).

Definition route_stream (id : string) (event : ModelStreamEvent) (d : Driver) : Driver * result unit PeerError :=
  if cancelled_contains id (dr_cancelled d) then
    ((if is_terminal event then set_cancelled (cancelled_remove id (dr_cancelled d)) d else d), Ok tt)
  else
    match dr_pending d !! id with
    | Some (Pending_Stream request) =>
      if ps_cancel_requested request then (d, Ok tt)
      else
        let '(valid, started) := stream_order (ps_started request) event in
        let request := {| ps_call := ps_call request; ps_started := started; ps_cancel_requested := false |} in
        if negb valid then
          (cancel_stream id request (ErrorPayload_new Code_InvalidResponse "stream event ordering is invalid")
             "invalid_stream_order" d, Ok tt)
        else
          let refused error :=
            (cancel_stream id request
               (ErrorPayload_new Code_PeerOverloaded ("stream forwarding queue is full: " +:+ error))
               "stream_forward_queue_full" d, Ok tt) in
          match dr_forward d !! ps_call request with
          | None => refused closed_text
          | Some forward =>
            if bool_decide (STREAM_FORWARD_BUFFER_CAPACITY ≤ length (fw_queue forward)) then refused full_text
            else
              let d := set_pending (<[id := Pending_Stream request]> (dr_pending d))
                         (set_forward (<[ps_call request := {| fw_id := fw_id forward;
                                                               fw_queue := fw_queue forward ++ [event];
                                                               fw_open := fw_open forward |}]> (dr_forward d)) d) in
              ((if is_terminal event then finish_pending id (Pending_Stream request) Outcome_Dropped d else d), Ok tt)
          end
    | _ => (d, Err (Peer_Protocol ("stream event references unknown stream " +:+ id)))
    end.

Definition update_task (task : nat) (f : InboundTask → InboundTask) (d : Driver) : Driver :=
  match dr_tasks d !! task with
  | Some t => set_tasks (<[task := f t]> (dr_tasks d)) d
  | None => d
  end.

Definition handle_message (message : WireMessage) (d : Driver) : Driver * result unit PeerError :=
  match message with
  | Wire_Result result => route_result result d
  | Wire_Stream id event => route_stream id event d
  | Wire_Cancel id reason =>
    (match dr_inbound d !! id with
     | Some task =>
       update_task task (λ t, {| it_request := it_request t; it_phase := it_phase t;
                                 it_cancellation := cancellation_cancel reason (it_cancellation t) |}) d
     | None => d
     end, Ok tt)
  | Wire_Invoke request =>
    if bool_decide (is_Some (dr_inbound d !! iv_id request)) then
      try_write (failed_result (iv_id request) Code_DuplicateRequestId "duplicate inbound request id") d
    else
      match validate_inbound_features request d with
      | Err error => try_write (Wire_Result (Result_Failure (iv_id request) Result_Invoke error)) d
      | Ok _ =>
        match dr_inbound_permits d with
        | O =>
          try_write (failed_result (iv_id request) Code_PeerOverloaded "peer has reached its in-flight request limit") d
        | S permits =>
          let task := {| it_request := request; it_cancellation := InvocationCancellation_default;
                         it_phase := Phase_Invoking |} in
          (set_tasks (<[dr_spawned d := task]> (dr_tasks d))
             (set_inbound (<[iv_id request := dr_spawned d]> (dr_inbound d))
                (set_spawned (S (dr_spawned d)) (set_inbound_permits permits d))), Ok tt)
        end
      end
  | Wire_Initialize _ | Wire_Activate _ _ =>
    (d, Err (Peer_UnexpectedMessage "runtime invoke, result, stream, or cancel message"))
  end.

(** ** Served calls ([run_inbound]) *)

Inductive InvocationResponse := Response_Unary (output : Value) | Response_Stream.

Inductive StreamPoll := Polled (event : ModelStreamEvent) | Polled_Closed | Polled_Idle.

Definition invalid_stream_event (message : string) : ModelStreamEvent :=
  Model_Failed (ErrorPayload_new Code_InvalidResponse message).

Definition validate_outbound_stream_event (event : ModelStreamEvent) (started : bool) : ModelStreamEvent * bool :=
  match event with
  | Model_Started => if negb started then (Model_Started, true) else (invalid_stream_event "stream started more than once", started)
  | Model_Failed _ => (event, started)
  | _ => if negb started then (invalid_stream_event "stream event arrived before started", started) else (event, started)
  end.

Definition poll_event (p : StreamPoll) : ModelStreamEvent :=
  match p with
  | Polled event => event
  | Polled_Closed =>
    Model_Failed (ErrorPayload_new Code_StreamClosed "stream producer closed before a terminal event")
  | Polled_Idle => Model_Failed (ErrorPayload_new Code_StreamIdleTimeout "stream producer exceeded the idle deadline")
  end.

Definition with_phase (phase : InboundPhase) (t : InboundTask) : InboundTask :=
  {| it_request := it_request t; it_cancellation := it_cancellation t; it_phase := phase |}.

(** A task that returns drops its permit. *)
Definition return_task (task : nat) (t : InboundTask) (r : result unit PeerError) (d : Driver) : Driver :=
  set_inbound_permits (S (dr_inbound_permits d))
    (set_tasks (<[task := with_phase (Phase_Returned r) t]> (dr_tasks d)) d).
Definition move_task (task : nat) (t : InboundTask) (phase : InboundPhase) (d : Driver) : Driver :=
  set_tasks (<[task := with_phase phase t]> (dr_tasks d)) d.

Definition response_message (t : InboundTask) (r : result InvocationResponse ErrorPayload) : InboundPhase :=
  let id := iv_id (it_request t) in
  match r with
  | Ok (Response_Unary output) =>
    if negb (iv_stream (it_request t)) then Phase_Sending (Wire_Result (Result_Success id Result_Invoke output)) None
    else
      Phase_Sending (failed_result id Code_InvalidResponse "handler response mode does not match invoke mode") None
  | Ok Response_Stream =>
    if iv_stream (it_request t) then Phase_Streaming false
    else
      Phase_Sending (failed_result id Code_InvalidResponse "handler response mode does not match invoke mode") None
  | Err error => Phase_Sending (Wire_Result (Result_Failure id Result_Invoke error)) None
  end.

(** The handler answers; this arm comes before the cancellation. *)
Definition task_respond (task : nat) (r : result InvocationResponse ErrorPayload) (d : Driver) : Driver :=
  match dr_tasks d !! task with
  | Some t => match it_phase t with Phase_Invoking => move_task task t (response_message t r) d | _ => d end
  | None => d
  end.

(** The task sees its cancellation. *)
Definition task_cancelled (task : nat) (d : Driver) : Driver :=
  match dr_tasks d !! task with
  | Some t =>
    match it_phase t with
    | Phase_Invoking | Phase_Streaming _ => if ic_token (it_cancellation t) then return_task task t (Ok tt) d else d
    | _ => d
    end
  | None => d
  end.

(** The handler's stream is polled; the cancellation comes before it. *)
Definition task_poll (task : nat) (p : StreamPoll) (d : Driver) : Driver :=
  match dr_tasks d !! task with
  | Some t =>
    match it_phase t with
    | Phase_Streaming started =>
      if ic_token (it_cancellation t) then return_task task t (Ok tt) d
      else
        let '(event, started) := validate_outbound_stream_event (poll_event p) started in
        move_task task t
          (Phase_Sending (Wire_Stream (iv_id (it_request t)) event) (if is_terminal event then None else Some started)) d
    | _ => d
    end
  | None => d
  end.

(** [WritePump::write] gets its place in the queue. *)
Definition task_send (task : nat) (d : Driver) : Driver :=
  match dr_tasks d !! task with
  | Some t =>
    match it_phase t with
    | Phase_Sending message after =>
      match try_send_write message (Some (Receipt_Task task)) d with
      | inl d => move_task task t (Phase_Awaiting after) d
      | inr Send_Full => d
      | inr Send_Closed => return_task task t (Err (Peer_Protocol "peer write pump is unavailable")) d
      end
    | _ => d
    end
  | None => d
  end.

(** ** The writer ([run_write_pump]) *)

Definition receipt_error (r : option (result unit ErrorPayload)) : result unit PeerError :=
  match r with
  | Some (Ok _) => Ok tt
  | Some (Err e) => Err (Peer_Protocol ("peer frame write failed: " +:+ display_payload e))
  | None => Err (Peer_Protocol "peer write pump stopped before completion")
  end.

Definition send_receipt (written : option Receipt) (r : option (result unit ErrorPayload)) (d : Driver) : Driver :=
  match written with
  | None => d
  | Some (Receipt_Call call) => receipt call r d
  | Some (Receipt_Task task) =>
    match dr_tasks d !! task with
    | Some t =>
      match it_phase t with
      | Phase_Awaiting after =>
        match receipt_error r, after with
        | Ok _, Some started => move_task task t (Phase_Streaming started) d
        | Ok _, None => return_task task t (Ok tt) d
        | Err e, _ => return_task task t (Err e) d
        end
      | _ => d
      end
    | None => d
    end
  end.

Definition transport_payload (e : PeerError) : ErrorPayload := ErrorPayload_new Code_Transport (display_error e).

Definition drop_writes (writes : list WriteRequest) (d : Driver) : Driver :=
  foldl (λ d w, send_receipt (wq_written w) None d) d writes.

(** The frame at the head is written, or the pump ends and what waits behind it is dropped. *)
Definition write_head (r : result unit PeerError) (d : Driver) : Driver :=
  match dr_writes d with
  | [] => d
  | w :: writes =>
    match r with
    | Ok _ =>
      send_receipt (wq_written w) (Some (Ok tt))
        (set_wire (dr_wire d ++ [wq_message w]) (set_writes writes d))
    | Err e =>
      drop_writes writes
        (send_receipt (wq_written w) (Some (Err (transport_payload e)))
           (set_writer_closed (Some e) (set_writes [] d)))
    end
  end.

(** ** Forwarded streams ([forward_stream]) *)

Inductive ForwardOutcome := Forward_Delivered | Forward_ConsumerGone | Forward_TimedOut.

(** A send to a consumer that is gone fails at once, and the task takes the next event. *)
Definition forward_event (call : nat) (o : ForwardOutcome) (d : Driver) : Driver :=
  match dr_forward d !! call with
  | Some {| fw_id := id; fw_queue := event :: queue; fw_open := open |} =>
    let taken open := set_forward (<[call := {| fw_id := id; fw_queue := queue; fw_open := open |}]> (dr_forward d)) d in
    if negb open then taken false
    else
      match o with
      | Forward_Delivered =>
        set_outputs (<[call := default [] (dr_outputs d !! call) ++ [event]]> (dr_outputs d)) (taken true)
      | Forward_ConsumerGone => taken false
      | Forward_TimedOut =>
        send_control id "backpressure_timeout"
          (set_stream_failure call
             (ErrorPayload_new Code_BackpressureTimeout
                "stream consumer did not release capacity before the backpressure deadline")
             (set_forward (delete call (dr_forward d)) d))
      end
  | _ => d
  end.

(** ** The end of the driver *)

Definition fail_pending (d : Driver) (entry : string * PendingRequest) : Driver :=
  match entry.2 with
  | Pending_Stream stream =>
    set_stream_failure (ps_call stream) (ErrorPayload_new Code_PeerClosed "peer closed before the stream completed") d
  | Pending_Unary _ => d
  end.
Definition clear_pending (d : Driver) (entry : string * PendingRequest) : Driver :=
  finish_pending entry.1 entry.2 Outcome_Dropped d.
Definition clear_command (d : Driver) (command : DriverCommand) : Driver :=
  drop_command (command_call command) None d.

(** What follows the loop: the served calls are cancelled and their tasks gone, the pending
    streams get a failure, the pending calls, the queued writes and the queued commands go. *)
Definition stop (d : Driver) : Driver :=
  let d := set_forward ∅ (set_tasks ∅ (set_inbound ∅ d)) in
  let pending := map_to_list (dr_pending d) in
  let d := foldl fail_pending d pending in
  let d := foldl clear_pending d pending in
  let d := drop_writes (dr_writes d) (set_writes [] d) in
  foldl clear_command (set_commands [] d) (dr_commands d).

(** ** Inputs *)

Inductive Input :=
| In_Invoke (operation : string) (input : Value) (stream : bool) (parent : option string)
| In_InvokeWithId (id operation : string) (input : Value) (parent : option string)
| In_DropCall (call : nat)
| In_DropStream (call : nat)
| In_Control
| In_Command
| In_Frame (frame : result WireMessage PeerError)
| In_Forward (call : nat) (o : ForwardOutcome)
| In_Respond (task : nat) (r : result InvocationResponse ErrorPayload)
| In_Cancelled (task : nat)
| In_Poll (task : nat) (p : StreamPoll)
| In_Send (task : nat)
| In_Write (r : result unit PeerError)
| In_Joined (task : nat)
| In_WriterJoined
| In_Shutdown.

(** A step: the loop goes on, or it has stopped, or it spins in [CancelledRequests::insert]. *)
Inductive Step :=
| Running (d : Driver)
| Stopped (d : Driver) (r : result unit PeerError)
| Spinning.

Definition after_handler (p : Driver * result unit PeerError) : Step :=
  match p with
  | (d, Ok _) => Running d
  | (d, Err e) => Stopped (stop d) (Err e)
  end.

Definition driver_step (d : Driver) (i : Input) : Step :=
  match i with
  | In_Invoke operation input stream parent =>
    let '(id, d) := allocate_request_id d in
    Running (submit {| iv_id := id; iv_operation := operation; iv_input := input; iv_stream := stream;
                       iv_parent_invoke_id := parent |} d).2
  | In_InvokeWithId id operation input parent =>
    Running (submit {| iv_id := id; iv_operation := operation; iv_input := input; iv_stream := false;
                       iv_parent_invoke_id := parent |} d).2
  | In_DropCall call =>
    match dr_submitted d !! call with Some message => Running (drop_call call (iv_id message) d) | None => Running d end
  | In_DropStream call =>
    match dr_submitted d !! call with Some message => Running (drop_stream (iv_id message) d) | None => Running d end
  | In_Control =>
    match dr_control d with
    | [] => Running d
    | control :: rest =>
      match handle_control control (set_control rest d) with Some p => after_handler p | None => Spinning end
    end
  | In_Command =>
    match dr_commands d with
    | [] => Running d
    | command :: rest => Running (handle_command command (set_commands rest d))
    end
  | In_Frame (Ok message) => after_handler (handle_message message d)
  | In_Frame (Err e) => Stopped (stop d) (Err e)
  | In_Forward call o => Running (forward_event call o d)
  | In_Respond task r => Running (task_respond task r d)
  | In_Cancelled task => Running (task_cancelled task d)
  | In_Poll task p => Running (task_poll task p d)
  | In_Send task => Running (task_send task d)
  | In_Write r => match dr_writer_closed d with None => Running (write_head r d) | Some _ => Running d end
  | In_Joined task =>
    match dr_tasks d !! task with
    | Some t =>
      match it_phase t with
      | Phase_Returned (Ok _) =>
        Running (set_inbound (delete (iv_id (it_request t)) (dr_inbound d))
                   (set_tasks (delete task (dr_tasks d)) d))
      | Phase_Returned (Err e) => Stopped (stop d) (Err e)
      | _ => Running d
      end
    | None => Running d
    end
  | In_WriterJoined =>
    match dr_writer_closed d with Some e => Stopped (stop d) (Err e) | None => Running d end
  | In_Shutdown => Stopped (stop d) (Ok tt)
  end.

(** The loop over what happens, until it stops. *)
Fixpoint driver_run (d : Driver) (inputs : list Input) : Step :=
  match inputs with
  | [] => Running d
  | i :: inputs => match driver_step d i with Running d => driver_run d inputs | s => s end
  end.

(** What the caller of [invoke] gets ([None]: it still waits). *)
Definition caller_result (call : nat) (d : Driver) : option (result Value InvokeError) :=
  match find_first (λ p, bool_decide (p.1 = call)) (dr_receipts d) with
  | None => None
  | Some (_, None) => Some (Err Invoke_DriverUnavailable)
  | Some (_, Some (Err e)) => Some (Err (Invoke_Local e))
  | Some (_, Some (Ok _)) =>
    match find_first (λ p, bool_decide (p.1 = call)) (dr_outcomes d) with
    | None => None
    | Some (_, Outcome_Dropped) => Some (Err Invoke_PeerClosed)
    | Some (_, Outcome_Sent (Ok output)) => Some (Ok output)
    | Some (_, Outcome_Sent (Err e)) => Some (Err (Invoke_Remote e))
    end
  end.
End driver.

(** ** A stream as its consumer reads it ([PeerStream]) *)

Record PeerStream := {
  pst_terminal : bool;
  pst_terminated : bool;  (** of the [TerminalStream] inside *)
  pst_failure : option ErrorPayload;
}.

Definition PeerStream_new (failure : option ErrorPayload) : PeerStream :=
  {| pst_terminal := false; pst_terminated := false; pst_failure := failure |}.

Definition peer_stream_poll_next (s : PeerStream) (inner : Poll) : PeerStream * Poll :=
  if pst_terminal s then (s, Poll_Ready None)
  else
    let '(terminated, failure, poll) := terminal_poll_next (pst_terminated s) (pst_failure s) inner in
    let terminal := match poll with
      | Poll_Ready (Some event) => is_terminal event
      | Poll_Ready None => true
      | Poll_Pending => false
      end in
    ({| pst_terminal := terminal; pst_terminated := terminated; pst_failure := failure |}, poll).

(** Read to the end, over a channel with these events whose senders are gone. *)
Fixpoint read_stream (s : PeerStream) (events : list ModelStreamEvent) : list ModelStreamEvent :=
  match events with
  | [] =>
    match peer_stream_poll_next s (Poll_Ready None) with
    | (_, Poll_Ready (Some event)) => [event]
    | _ => []
    end
  | event :: events =>
    match peer_stream_poll_next s (Poll_Ready (Some event)) with
    | (s, Poll_Ready (Some event)) => event :: read_stream s events
    | _ => []
    end
  end.
