(* ===== verification/S5rAccounts.v ===== *)
(** * The calls of an S5R driver

    Every call a driver takes holds a permit, a response sender and a receipt sender; this file
    follows them through the driver's handlers: none is lost, none is used twice. *)

From S2P Require Import Prelude Utf8 StdPath StdStr CoreTypes CoreLlm ProjReducer StoreTypes AiRetry S5rWire S5rPeer S5rDriver.

(** ** The books

    The calls made are those in the queue, those pending, and those whose sender was used or
    dropped; likewise for receipts, which wait in the queue or with a write.  [outs] and
    [recs] are the senders a handler has in its hands. *)

Definition waiting_calls (d : Driver) : list nat := pending_call ∘ snd <$> map_to_list (dr_pending d).
Definition queued_calls (d : Driver) : list nat := command_call <$> dr_commands d.
Definition receipt_call (w : WriteRequest) : option nat :=
  match wq_written w with Some (Receipt_Call call) => Some call | _ => None end.

Definition books (outs recs : list nat) (d : Driver) : Prop :=
  seq 0 (length (dr_submitted d)) ≡ₚ outs ++ queued_calls d ++ waiting_calls d ++ (dr_outcomes d).*1 ∧
  seq 0 (length (dr_submitted d)) ≡ₚ recs ++ queued_calls d ++ omap receipt_call (dr_writes d) ++ (dr_receipts d).*1 ∧
  dr_permits d + length outs + length (dr_commands d) + size (dr_pending d) = MAX_IN_FLIGHT_REQUESTS.

Lemma books_receipt outs recs call r d : books outs (call :: recs) d → books outs recs (receipt call r d).
Proof.
  intros (H1&H2&H3). split_and!; [done| |done]. simpl. rewrite fmap_app, H2. simpl. solve_Permutation.
Qed.

Lemma books_outcome outs recs call o d :
  books (call :: outs) recs d → books outs recs (release_permit (outcome call o d)).
Proof.
  intros (H1&H2&H3). split_and!; [|done|]; simpl in *; [|lia]. unfold waiting_calls, queued_calls in *. simpl.
  rewrite fmap_app, H1. simpl. solve_Permutation.
Qed.

Lemma books_drop_command outs recs call r d :
  books (call :: outs) (call :: recs) d → books outs recs (drop_command call r d).
Proof. intros. apply books_outcome. by apply (books_receipt _ _ _ r) in H. Qed.

Lemma books_pending outs recs id r d :
  dr_pending d !! id = None → books (pending_call r :: outs) recs d →
  books outs recs (set_pending (<[id := r]> (dr_pending d)) d).
Proof.
  intros Hid (H1&H2&H3). split_and!; [|done|]; unfold waiting_calls, queued_calls in *; simpl in *.
  - rewrite map_to_list_insert, H1 by done. simpl. solve_Permutation.
  - rewrite map_size_insert_None by done. lia.
Qed.

Lemma books_take_pending outs recs id r d :
  dr_pending d !! id = Some r → books outs recs d →
  books (pending_call r :: outs) recs (set_pending (delete id (dr_pending d)) d).
Proof.
  intros Hid (H1&H2&H3). split_and!; [|done|]; unfold waiting_calls, queued_calls in *; simpl in *.
  - rewrite H1, <-(map_to_list_delete (dr_pending d) id r) by done. simpl. solve_Permutation.
  - assert (size (dr_pending d) ≠ 0) by (intros E%map_size_empty_inv; rewrite E in Hid; done).
    rewrite map_size_delete_Some by eauto. lia.
Qed.

Lemma books_finish outs recs id r o d :
  dr_pending d !! id = Some r → books outs recs d → books outs recs (finish_pending id r o d).
Proof. intros Hid Hb. by apply books_outcome, books_take_pending. Qed.

(** An update of a pending stream in place. *)
Lemma books_restart outs recs id r r' d :
  dr_pending d !! id = Some r → pending_call r' = pending_call r → books outs recs d →
  books outs recs (set_pending (<[id := r']> (dr_pending d)) d).
Proof.
  intros Hid Hc Hb. rewrite <-insert_delete_eq.
  refine (books_pending outs recs id r' (set_pending (delete id (dr_pending d)) d) (lookup_delete_eq _ _) _).
  rewrite Hc. by apply books_take_pending.
Qed.

Lemma books_write_call outs recs message call d d' :
  try_send_write message (Some (Receipt_Call call)) d = inl d' → books outs (call :: recs) d → books outs recs d'.
Proof.
  unfold try_send_write. repeat case_bool_decide; intros [= <-] (H1&H2&H3). split_and!; [done| |done]. simpl.
  rewrite omap_app, H2. simpl. unfold queued_calls. simpl. solve_Permutation.
Qed.

Lemma books_write outs recs message w d d' :
  (∀ call, w ≠ Some (Receipt_Call call)) →
  try_send_write message w d = inl d' → books outs recs d → books outs recs d'.
Proof.
  intros Hw. unfold try_send_write. repeat case_bool_decide; intros [= <-] (H1&H2&H3). split_and!; [done| |done]. simpl.
  rewrite omap_app. simpl. unfold receipt_call at 2. simpl.
  destruct w as [[c|t]|]; [by destruct (Hw c)|..]; simpl; by rewrite app_nil_r.
Qed.

Lemma books_try_write outs recs message d : books outs recs d → books outs recs (try_write message d).1.
Proof.
  intros Hb. unfold try_write. destruct (try_send_write message None d) as [d'|e] eqn:E; [|done].
  by eapply books_write; [|exact E|exact Hb].
Qed.

Lemma books_set_failure outs recs call e d : books outs recs d → books outs recs (set_stream_failure call e d).
Proof. intros Hb. unfold set_stream_failure. by destruct (dr_failure d !! call). Qed.

Lemma set_failure_pending call e d : dr_pending (set_stream_failure call e d) = dr_pending d.
Proof. unfold set_stream_failure. by destruct (dr_failure d !! call). Qed.

(** ** Commands *)

Lemma books_take_command command rest d :
  dr_commands d = command :: rest → books [] [] d →
  books [command_call command] [command_call command] (set_commands rest d).
Proof.
  intros Hc (H1&H2&H3). unfold books, queued_calls, waiting_calls in *. simpl in *. rewrite Hc in *. simpl in *.
  split_and!; [done|done|lia].
Qed.

Lemma books_start_write outs recs id message call r d :
  dr_pending d !! id = Some r → books outs (call :: recs) d →
  books outs recs (start_invoke_write id message call r d).
Proof.
  intros Hp Hb. unfold start_invoke_write, try_write_with_receipt.
  destruct (try_send_write _ _ d) as [d'|e] eqn:E; [by eapply books_write_call|].
  by apply books_finish, books_receipt.
Qed.

Lemma books_command command d :
  books [command_call command] [command_call command] d → books [] [] (handle_command command d).
Proof.
  intros Hb. destruct command as [call message|call message]; simpl in *;
    (case_bool_decide; [by apply books_drop_command|];
     destruct (validate_parent message d); [|by apply books_drop_command];
     case_bool_decide as Hn; [by apply books_drop_command|]; rewrite <-eq_None_not_Some in Hn).
  - apply books_start_write; [apply lookup_insert_eq|]. by apply (books_pending [] [call] _ (Pending_Unary call)).
  - apply books_start_write; [apply lookup_insert_eq|].
    by apply (books_pending [] [call] _ (Pending_Stream {| ps_call := call; ps_started := false;
                                                           ps_cancel_requested := false |})).
Qed.

(** ** Control and frames *)

Lemma books_control control d p :
  handle_control control d = Some p → books [] [] d → books [] [] p.1.
Proof.
  unfold handle_control. destruct (dr_pending d !! cc_id control) as [r|] eqn:Hp; [|by intros [= <-]].
  destruct (cancelled_insert _ _) as [c|]; [|done]. intros [= <-] Hb. apply books_try_write.
  by apply (books_finish [] [] _ _ Outcome_Dropped) in Hp.
Qed.

Lemma books_result r d : books [] [] d → books [] [] (route_result r d).1.
Proof.
  intros Hb. unfold route_result. case_bool_decide; simpl; [|done]. destruct (cancelled_contains _ _); [done|].
  destruct (dr_pending d !! ResultMsg_id r) as [[call|stream]|] eqn:Hp; simpl; [|..|done].
  - by apply books_finish.
  - apply books_finish; [by rewrite set_failure_pending|]. by apply books_set_failure.
Qed.

Lemma books_cancel_stream id stream failure reason d :
  (∃ r, dr_pending d !! id = Some r ∧ pending_call r = ps_call stream) → books [] [] d →
  books [] [] (cancel_stream id stream failure reason d).
Proof.
  intros (r&Hr&Hc) Hb. unfold cancel_stream.
  apply (books_set_failure _ _ (ps_call stream) failure) in Hb.
  rewrite <-(set_failure_pending (ps_call stream) failure d) in Hr |- *.
  by eapply (books_restart [] [] id r); [..|exact Hb].
Qed.

Lemma books_stream full closed id event d : books [] [] d → books [] [] (route_stream full closed id event d).1.
Proof.
  intros Hb. unfold route_stream. destruct (cancelled_contains _ _); simpl; [by destruct (is_terminal event)|].
  destruct (dr_pending d !! id) as [[call|stream]|] eqn:Hp; [done| |done].
  destruct (ps_cancel_requested stream); [done|]. destruct (stream_order _ _) as [valid started].
  destruct valid; simpl; [|by apply books_cancel_stream; eauto].
  destruct (dr_forward d !! _) as [f|]; [|by apply books_cancel_stream; eauto].
  case_bool_decide; [by apply books_cancel_stream; eauto|]. simpl.
  set (request := {| ps_call := ps_call stream; ps_started := started; ps_cancel_requested := false |}).
  assert (books [] [] (set_pending (<[id := Pending_Stream request]> (dr_pending d)) d)) as Hb'
    by by eapply books_restart.
  destruct (is_terminal event); [|done]. apply books_finish; [apply lookup_insert_eq|done].
Qed.

Lemma books_message features full closed message d :
  books [] [] d → books [] [] (handle_message features full closed message d).1.
Proof.
  intros Hb. destruct message as [m|i c|r|request|id event|id reason]; simpl; try done.
  - by apply books_result.
  - case_bool_decide; [by apply books_try_write|].
    destruct (validate_inbound_features _ _ _); [|by apply books_try_write].
    destruct (dr_inbound_permits d); [by apply books_try_write|done].
  - by apply books_stream.
  - destruct (dr_inbound d !! id) as [task|]; [|done]. unfold update_task. by destruct (dr_tasks d !! task).
Qed.

(** ** Tasks, the writer, streams *)

Lemma books_task_send task d : books [] [] d → books [] [] (task_send task d).
Proof.
  intros Hb. unfold task_send. destruct (dr_tasks d !! task) as [t|]; [|done]. destruct (it_phase t); try done.
  destruct (try_send_write _ _ d) as [d'|[]] eqn:E; try done.
  by assert (books [] [] d') by (eapply books_write; [|exact E|exact Hb]; done).
Qed.

(** The tasks touch no book: what they do is on their own fields. *)
Lemma books_task_respond task r d : books [] [] d → books [] [] (task_respond task r d).
Proof. intros Hb. unfold task_respond. by destruct (dr_tasks d !! task) as [[?? []]|]. Qed.

Lemma books_task_cancelled task d : books [] [] d → books [] [] (task_cancelled task d).
Proof.
  intros Hb. unfold task_cancelled. destruct (dr_tasks d !! task) as [[? [token ?] []]|]; try done; by destruct token.
Qed.

Lemma books_task_poll task p d : books [] [] d → books [] [] (task_poll task p d).
Proof.
  intros Hb. unfold task_poll. destruct (dr_tasks d !! task) as [[? [token ?] []]|]; try done. simpl.
  destruct token; [done|]. by destruct (validate_outbound_stream_event _ _).
Qed.

Lemma books_send_receipt display recs w r d :
  books [] (option_list (receipt_call w) ++ recs) d → books [] recs (send_receipt display (wq_written w) r d).
Proof.
  unfold receipt_call. intros Hb. destruct w as [message [[call|task]|]]; simpl in *; [by apply books_receipt| |done].
  destruct (dr_tasks d !! task) as [t|]; [|done]. destruct (it_phase t) as [| | |after|]; try done.
  by destruct (receipt_error _ r), after.
Qed.

Lemma books_drop_writes display writes recs d :
  books [] (omap receipt_call writes ++ recs) d → books [] recs (drop_writes display writes d).
Proof.
  revert d. induction writes as [|w writes IH]; intros d Hb; [done|]. simpl. apply IH, books_send_receipt. simpl in Hb.
  by destruct (receipt_call w).
Qed.

Lemma books_take_writes writes rest d :
  dr_writes d = writes ++ rest → books [] [] d → books [] (omap receipt_call writes) (set_writes rest d).
Proof.
  intros Hw (H1&H2&H3). split_and!; [done| |done]. unfold queued_calls in *. simpl in *. rewrite Hw, omap_app in H2.
  rewrite H2. solve_Permutation.
Qed.

Lemma books_write_head error display r d : books [] [] d → books [] [] (write_head error display r d).
Proof.
  intros Hb. unfold write_head. destruct (dr_writes d) as [|w writes] eqn:Hw; [done|].
  destruct r as [[]|e].
  - apply books_send_receipt. apply (books_take_writes [w] writes) in Hb; [|done]. simpl in Hb.
    by destruct (receipt_call w).
  - apply books_drop_writes, books_send_receipt. rewrite app_nil_r.
    apply (books_take_writes (w :: writes) []) in Hb; [|by rewrite app_nil_r]. simpl in Hb. by destruct (receipt_call w).
Qed.

Lemma books_forward call o d : books [] [] d → books [] [] (forward_event call o d).
Proof.
  intros Hb. unfold forward_event. destruct (dr_forward d !! call) as [[id [|event queue] []]|]; try done.
  destruct o; try done. unfold send_control.
  by apply (books_set_failure [] [] call (ErrorPayload_new Code_BackpressureTimeout
    "stream consumer did not release capacity before the backpressure deadline")
     (set_forward (delete call (dr_forward d)) d)) in Hb.
Qed.

(** ** The end *)

Lemma fail_pending_all l d :
  books [] [] d → books [] [] (foldl fail_pending d l) ∧ dr_pending (foldl fail_pending d l) = dr_pending d.
Proof.
  revert d. induction l as [|[id r] l IH]; intros d Hb; [done|]. simpl.
  assert (books [] [] (fail_pending d (id, r)) ∧ dr_pending (fail_pending d (id, r)) = dr_pending d) as [H1 H2].
  { unfold fail_pending. simpl. destruct r; [done|]. split; [by apply books_set_failure|apply set_failure_pending]. }
  rewrite <-H2. by apply IH.
Qed.

Lemma clear_pending_all l d :
  NoDup l.*1 → (∀ k, dr_pending d !! k = list_to_map (M := gmap string PendingRequest) l !! k) → books [] [] d →
  books [] [] (foldl clear_pending d l) ∧ dr_pending (foldl clear_pending d l) = ∅.
Proof.
  revert d. induction l as [|[id r] l IH]; intros d Hnd Hl Hb; csimpl in *.
  { split; [done|]. by apply map_eq. }
  apply NoDup_cons in Hnd as [Hid Hnd]. apply IH; [done|..].
  - intros k. simpl. destruct (decide (k = id)) as [->|].
    + rewrite lookup_delete_eq. symmetry. by apply not_elem_of_list_to_map_1.
    + by rewrite lookup_delete_ne, Hl, lookup_insert_ne.
  - unfold clear_pending. simpl. apply books_finish; [|done]. by rewrite Hl, lookup_insert_eq.
Qed.

Lemma clear_commands_all l d :
  books (command_call <$> l) (command_call <$> l) d → books [] [] (foldl clear_command d l).
Proof. revert d. induction l as [|c l IH]; intros d Hb; [done|]. by apply IH, books_drop_command. Qed.

Lemma books_take_commands d :
  books [] [] d → books (queued_calls d) (queued_calls d) (set_commands [] d).
Proof.
  intros (H1&H2&H3). unfold books, queued_calls, waiting_calls in *. simpl in *. rewrite length_fmap.
  split_and!; [done|done|lia].
Qed.

(** What the last steps leave alone. *)
Lemma clear_commands_rest l d :
  dr_commands (foldl clear_command d l) = dr_commands d ∧ dr_pending (foldl clear_command d l) = dr_pending d ∧
  dr_writes (foldl clear_command d l) = dr_writes d.
Proof. revert d. induction l as [|c l IH]; intros d; [done|]. exact (IH (clear_command d c)). Qed.

Lemma drop_writes_rest display l d :
  dr_pending (drop_writes display l d) = dr_pending d ∧ dr_writes (drop_writes display l d) = dr_writes d.
Proof.
  revert d. induction l as [|[message w] l IH]; intros d; [done|]. simpl.
  assert (dr_pending (send_receipt display w None d) = dr_pending d ∧ dr_writes (send_receipt display w None d) = dr_writes d)
    as [<- <-]; [|apply IH].
  unfold send_receipt. destruct w as [[call|task]|]; [done| |done].
  destruct (dr_tasks d !! task) as [[?? []]|]; done.
Qed.

(** A stopped driver holds no call: each sender was used or dropped. *)
Lemma books_stop display d :
  books [] [] d → books [] [] (stop display d) ∧ dr_commands (stop display d) = [] ∧ dr_pending (stop display d) = ∅ ∧
  dr_writes (stop display d) = [].
Proof.
  intros Hb. unfold stop. set (d0 := set_forward ∅ _). assert (books [] [] d0) as H0 by done.
  destruct (fail_pending_all (map_to_list (dr_pending d0)) d0 H0) as [H1 Hp1].
  set (d1 := foldl fail_pending d0 _) in *. rewrite <-Hp1.
  destruct (clear_pending_all (map_to_list (dr_pending d1)) d1) as [H2 Hp2];
    [apply NoDup_fst_map_to_list|intros k; by rewrite list_to_map_to_list|done|].
  set (d2 := foldl clear_pending d1 _) in *.
  apply (books_take_writes (dr_writes d2) []) in H2; [|by rewrite app_nil_r].
  rewrite <-(app_nil_r (omap _ _)) in H2. apply (books_drop_writes display) in H2.
  destruct (drop_writes_rest display (dr_writes d2) (set_writes [] d2)) as [Hp3 Hw3].
  set (d3 := drop_writes display _ _) in *. apply books_take_commands in H2.
  destruct (clear_commands_rest (dr_commands d3) (set_commands [] d3)) as (?&Hp4&Hw4).
  split_and!; [by apply clear_commands_all|done| |by rewrite Hw4]. rewrite Hp4. simpl. by rewrite Hp3.
Qed.

(** ** Answers

    A response is sent only for a result frame with the id of its call. *)

Definition response_of (r : ResultMsg) : result Value ErrorPayload :=
  match r with Result_Success _ _ output => Ok output | Result_Failure _ _ error => Err error end.

Definition command_message (c : DriverCommand) : InvokeMsg :=
  match c with Cmd_Invoke _ message | Cmd_InvokeStream _ message => message end.

Definition owned (d : Driver) (c : DriverCommand) : Prop :=
  dr_submitted d !! command_call c = Some (command_message c).

Definition justified (frames : list WireMessage) (d : Driver) : Prop :=
  (∀ c, c ∈ dr_commands d → owned d c) ∧
  (∀ id r, dr_pending d !! id = Some r → ∃ m, dr_submitted d !! pending_call r = Some m ∧ iv_id m = id) ∧
  (∀ call r, (call, Outcome_Sent r) ∈ dr_outcomes d → ∃ m answer,
     dr_submitted d !! call = Some m ∧ Wire_Result answer ∈ frames ∧ ResultMsg_kind answer = Result_Invoke ∧
     ResultMsg_id answer = iv_id m ∧ response_of answer = r).

(** A step that sends no response and takes no call. *)
Definition quiet (d d' : Driver) : Prop :=
  dr_submitted d' = dr_submitted d ∧
  (∀ c, c ∈ dr_commands d' → c ∈ dr_commands d) ∧
  (∀ id r', dr_pending d' !! id = Some r' → ∃ r, dr_pending d !! id = Some r ∧ pending_call r = pending_call r') ∧
  (∀ call r, (call, Outcome_Sent r) ∈ dr_outcomes d' → (call, Outcome_Sent r) ∈ dr_outcomes d).

#[export] Instance quiet_refl : Reflexive quiet.
Proof. intros d. split_and!; eauto. Qed.
#[export] Hint Extern 0 (quiet _ _) => exact (quiet_refl _) : core.
#[export] Instance quiet_trans : Transitive quiet.
Proof.
  intros a b c (A1&A2&A3&A4) (B1&B2&B3&B4). split_and!; [congruence|auto| |auto].
  intros id r (r'&H&<-)%B3. by apply A3.
Qed.

Lemma quiet_justified frames d d' : quiet d d' → justified frames d → justified frames d'.
Proof.
  intros (A1&A2&A3&A4) (J1&J2&J3). split_and!; unfold owned in *; rewrite A1; [naive_solver| |naive_solver].
  intros id r (r'&H&<-)%A3. by apply J2.
Qed.

Lemma quiet_fewer_commands commands d :
  (∀ c, c ∈ commands → c ∈ dr_commands d) → quiet d (set_commands commands d).
Proof. intros Hc. split_and!; [done|done|eauto|done]. Qed.

Lemma quiet_drop call d : quiet d (outcome call Outcome_Dropped d).
Proof. split_and!; [done|done|eauto|]. intros c r. simpl. set_solver. Qed.

Lemma quiet_delete id d : quiet d (set_pending (delete id (dr_pending d)) d).
Proof. split_and!; [done|done| |done]. simpl. intros id' r' [_ H]%lookup_delete_Some. eauto. Qed.

Lemma quiet_finish id r d : quiet d (finish_pending id r Outcome_Dropped d).
Proof. etrans; [apply (quiet_delete id)|]. apply quiet_drop. Qed.

Lemma quiet_restart id r r' d :
  dr_pending d !! id = Some r → pending_call r' = pending_call r →
  quiet d (set_pending (<[id := r']> (dr_pending d)) d).
Proof.
  intros Hid Hc. split_and!; [done|done| |done]. simpl. intros k q [[<- <-]|[_ ?]]%lookup_insert_Some; eauto.
Qed.

Lemma quiet_try_send message w d d' : try_send_write message w d = inl d' → quiet d d'.
Proof. unfold try_send_write. repeat case_bool_decide; intros [= <-]. exact (quiet_refl _). Qed.

Lemma quiet_try_write message d : quiet d (try_write message d).1.
Proof.
  unfold try_write. destruct (try_send_write message None d) eqn:E; [by eapply quiet_try_send|done].
Qed.

Lemma quiet_failure call e d : quiet d (set_stream_failure call e d).
Proof. unfold set_stream_failure. by destruct (dr_failure d !! call). Qed.

Lemma quiet_control control d p : handle_control control d = Some p → quiet d p.1.
Proof.
  unfold handle_control. destruct (dr_pending d !! cc_id control) as [r|]; [|by intros [= <-]].
  destruct (cancelled_insert _ _) as [c|]; [|done]. intros [= <-].
  etrans; [|apply quiet_try_write]. exact (quiet_finish (cc_id control) r d).
Qed.

Lemma quiet_cancel_stream id r stream failure reason d :
  dr_pending d !! id = Some r → pending_call r = ps_call stream → quiet d (cancel_stream id stream failure reason d).
Proof.
  intros Hr Hc. unfold cancel_stream. etrans; [apply (quiet_failure (ps_call stream) failure)|].
  rewrite <-(set_failure_pending (ps_call stream) failure d) in Hr |- *. 
  exact (quiet_restart id r (Pending_Stream {| ps_call := ps_call stream; ps_started := ps_started stream;
                                               ps_cancel_requested := true |}) _ Hr (eq_sym Hc)).
Qed.

Lemma quiet_stream full closed id event d : quiet d (route_stream full closed id event d).1.
Proof.
  unfold route_stream. destruct (cancelled_contains _ _); simpl; [by destruct (is_terminal event)|].
  destruct (dr_pending d !! id) as [[call|stream]|] eqn:Hp; [done| |done].
  destruct (ps_cancel_requested stream); [done|]. destruct (stream_order _ _) as [[] started]; simpl;
    [|by eapply quiet_cancel_stream].
  destruct (dr_forward d !! _) as [f|]; [|by eapply quiet_cancel_stream].
  case_bool_decide; [by eapply quiet_cancel_stream|]. simpl.
  apply (quiet_restart id _ (Pending_Stream {| ps_call := ps_call stream; ps_started := started;
                                                 ps_cancel_requested := false |})) in Hp; [|done].
  destruct (is_terminal event); [|exact Hp]. etrans; [exact Hp|]. etrans; [|apply quiet_finish]. done.
Qed.

Lemma quiet_send_receipt display w r d : quiet d (send_receipt display w r d).
Proof.
  unfold send_receipt. destruct w as [[call|task]|]; [done| |done].
  destruct (dr_tasks d !! task) as [t|]; [|done]. destruct (it_phase t) as [| | |after|]; try done.
  by destruct (receipt_error _ r), after.
Qed.

Lemma quiet_drop_writes display l d : quiet d (drop_writes display l d).
Proof.
  revert d. induction l as [|w l IH]; intros d; [done|]. etrans; [apply (quiet_send_receipt display)|]. apply IH.
Qed.

Lemma quiet_write_head error display r d : quiet d (write_head error display r d).
Proof.
  unfold write_head. destruct (dr_writes d) as [|w writes]; [done|]. destruct r as [[]|e].
  - etrans; [|apply quiet_send_receipt]. exact (quiet_refl _).
  - etrans; [|apply quiet_drop_writes]. etrans; [|apply quiet_send_receipt]. exact (quiet_refl _).
Qed.

Lemma quiet_fold {A} (f : Driver → A → Driver) l d : (∀ d a, quiet d (f d a)) → quiet d (foldl f d l).
Proof. intros Hf. revert d. induction l as [|a l IH]; intros d; [done|]. etrans; [apply (Hf d a)|]. apply IH. Qed.

Lemma quiet_stop display d : quiet d (stop display d).
Proof.
  unfold stop. set (d0 := set_forward ∅ _). transitivity d0; [exact (quiet_refl _)|].
  etrans; [apply (quiet_fold fail_pending); intros ? [? []]; [done|apply quiet_failure]|].
  etrans; [apply (quiet_fold clear_pending); intros; apply quiet_finish|].
  etrans; [|apply (quiet_fold clear_command); intros d' c; exact (quiet_drop (command_call c) d')].
  etrans; [|apply quiet_fewer_commands; set_solver]. etrans; [|apply quiet_drop_writes]. done.
Qed.

Lemma quiet_forward call o d : quiet d (forward_event call o d).
Proof.
  unfold forward_event. destruct (dr_forward d !! call) as [[id [|event queue] []]|]; try done. destruct o; try done.
  etrans; [|apply (quiet_failure call)]. exact (quiet_refl _).
Qed.

Lemma quiet_task_send task d : quiet d (task_send task d).
Proof.
  unfold task_send. destruct (dr_tasks d !! task) as [t|]; [|done]. destruct (it_phase t); try done.
  destruct (try_send_write _ _ d) as [d'|[]] eqn:E; try done. by eapply quiet_try_send in E.
Qed.

Lemma quiet_task task d :
  (∀ r, quiet d (task_respond task r d)) ∧ quiet d (task_cancelled task d) ∧ (∀ p, quiet d (task_poll task p d)).
Proof.
  unfold task_respond, task_cancelled, task_poll.
  destruct (dr_tasks d !! task) as [[? [token ?] []]|]; split_and!; intros; try done; simpl; try (by destruct token).
  destruct token; [done|]. by destruct (validate_outbound_stream_event _ _).
Qed.
