(* ===== verification/S5rCalls.v ===== *)
(** * What an S5R driver promises

    Its calls are settled once and only by their answers, its queues and sets stay within their
    bounds, its loops end.

    The second chapter: the bounds of queues, sets and served calls. *)

From S2P Require Import Prelude Utf8 CoreTypes CoreLlm ProjReducer StoreTypes StdPath StdStr AiRetry S5rWire S5rPeer S5rDriver S5rAccounts.

(** ** Answers of the steps that take or answer a call *)

Lemma justified_insert frames m r d :
  dr_submitted d !! pending_call r = Some m → justified frames d →
  justified frames (set_pending (<[iv_id m := r]> (dr_pending d)) d).
Proof.
  intros Hm (J1&J2&J3). split_and!; [done| |done]. simpl. intros id r' [[<- <-]|[_ H]]%lookup_insert_Some; eauto.
Qed.

Lemma quiet_start_write id message call r d : quiet d (start_invoke_write id message call r d).
Proof.
  unfold start_invoke_write, try_write_with_receipt. destruct (try_send_write _ _ d) as [d'|e] eqn:E.
  - by eapply quiet_try_send.
  - etrans; [|apply quiet_finish]. exact (quiet_refl d).
Qed.

Lemma justified_command frames command d :
  owned d command → justified frames d → justified frames (handle_command command d).
Proof.
  intros Ho Hj. assert (∀ r, justified frames (drop_command (command_call command) r d)) as Hdrop.
  { intros r. refine (quiet_justified _ d _ _ Hj). exact (quiet_drop (command_call command) d). }
  destruct command as [call m|call m]; simpl in *;
    (case_bool_decide; [done|]; destruct (validate_parent m d); [|done]; case_bool_decide; [done|];
     eapply quiet_justified; [apply quiet_start_write|]).
  - by apply (justified_insert _ _ (Pending_Unary call)).
  - by apply (justified_insert _ _ (Pending_Stream {| ps_call := call; ps_started := false; ps_cancel_requested := false |})).
Qed.

Lemma justified_result frames r d :
  justified frames d → justified (frames ++ [Wire_Result r]) (route_result r d).1.
Proof.
  intros (J1&J2&J3). assert (justified (frames ++ [Wire_Result r]) d) as Hj.
  { split_and!; [done..|]. intros call x (m&a&?&?&?)%J3. exists m, a. set_solver. }
  unfold route_result. case_bool_decide as Hk; simpl; [|done]. destruct (cancelled_contains _ _); [done|].
  destruct (dr_pending d !! ResultMsg_id r) as [[call|stream]|] eqn:Hp; simpl; [|..|done].
  - split_and!; simpl; [done|intros id q [_ ?]%lookup_delete_Some; by apply J2|].
    intros c x [H|Hx]%elem_of_app; [by apply Hj|]. apply list_elem_of_singleton in Hx. injection Hx as -> ->.
    destruct (J2 _ _ Hp) as (m&Hm&Hid). exists m, r. split_and!; [done|set_solver|done|done|by destruct r].
  - eapply quiet_justified; [|exact Hj]. etrans; [apply (quiet_failure (ps_call stream))|]. apply quiet_finish.
Qed.

Lemma justified_frame features full closed frames message d :
  justified frames d → justified (frames ++ [message]) (handle_message features full closed message d).1.
Proof.
  intros Hj. assert (∀ d', quiet d d' → justified (frames ++ [message]) d') as Hq.
  { intros d' Hd. eapply quiet_justified; [done|]. destruct Hj as (J1&J2&J3). split_and!; [done..|].
    intros call x (m&a&?&?&?)%J3. exists m, a. set_solver. }
  destruct message as [m|i c|r|request|id event|id reason]; simpl.
  - by apply Hq.
  - by apply Hq.
  - by apply justified_result.
  - apply Hq. case_bool_decide; [apply quiet_try_write|].
    destruct (validate_inbound_features _ _ _); [|apply quiet_try_write].
    destruct (dr_inbound_permits d); [apply quiet_try_write|exact (quiet_refl d)].
  - apply Hq, quiet_stream.
  - apply Hq. destruct (dr_inbound d !! id) as [task|]; [|done]. unfold update_task. by destruct (dr_tasks d !! task).
Qed.

(** ** Steps and runs *)

Lemma submit_ok features frames message d :
  books [] [] d → justified frames d →
  books [] [] (submit features message d).2 ∧ justified frames (submit features message d).2.
Proof.
  intros Hb Hj. unfold submit. destruct (validate_outbound _ _ _ _ _); [|done].
  destruct (dr_permits d) as [|permits] eqn:Hp; [by case_bool_decide|]. case_bool_decide; [done|]. simpl.
  set (call := length (dr_submitted d)). set (command := if iv_stream message then _ else _).
  assert (command_call command = call ∧ command_message command = message) as [Hc Hm]
    by by unfold command; destruct (iv_stream message).
  destruct Hb as (H1&H2&H3), Hj as (J1&J2&J3). split; split_and!;
    unfold owned, queued_calls, waiting_calls in *; simpl in *.
  - rewrite length_app. simpl. rewrite Nat.add_comm, seq_S, H1, fmap_app. simpl. rewrite Hc. solve_Permutation.
  - rewrite length_app. simpl. rewrite Nat.add_comm, seq_S, H2, fmap_app. simpl. rewrite Hc. solve_Permutation.
  - rewrite length_app. simpl. lia.
  - intros c [Hin| ->%list_elem_of_singleton]%elem_of_app; [by apply lookup_app_l_Some, J1|].
    rewrite Hc, Hm. by apply list_lookup_middle.
  - intros id r (m&?&?)%J2. eauto using lookup_app_l_Some.
  - intros c r (m&answer&?&?)%J3. eauto 10 using lookup_app_l_Some.
Qed.

Definition taken (i : Input) : list WireMessage := match i with In_Frame (Ok message) => [message] | _ => [] end.

Definition settled (frames : list WireMessage) (d : Driver) : Prop := books [] [] d ∧ justified frames d.
Definition idle (d : Driver) : Prop := dr_commands d = [] ∧ dr_pending d = ∅ ∧ dr_writes d = [].
Definition step_settled (frames : list WireMessage) (s : Step) : Prop :=
  match s with
  | Running d => settled frames d
  | Stopped d _ => settled frames d ∧ idle d
  | Spinning => True
  end.

Section promises.
  Context (features : list string) (display_error : PeerError → string) (display_payload : ErrorPayload → string)
    (full_text closed_text : string).
  Abbreviation driver_step := (driver_step features display_error display_payload full_text closed_text).
  Abbreviation driver_run := (driver_run features display_error display_payload full_text closed_text).

Lemma stop_settled frames d r : settled frames d → step_settled frames (Stopped (stop display_payload d) r).
Proof.
  intros [Hb Hj]. destruct (books_stop display_payload d Hb) as (?&?&?&?).
  split; [|done]. split; [done|]. by eapply quiet_justified; [apply quiet_stop|].
Qed.

Lemma handler_settled frames p : settled frames p.1 → step_settled frames (after_handler display_payload p).
Proof. destruct p as [d [[]|e]]; [done|]. apply stop_settled. Qed.

Lemma quiet_settled frames d d' : quiet d d' → books [] [] d' → settled frames d → settled frames d'.
Proof. intros Hq Hb [_ Hj]. split; [done|]. by eapply quiet_justified. Qed.

Lemma step_ok frames d i : settled frames d → step_settled (frames ++ taken i) (driver_step d i).
Proof.
  intros Hs. pose proof Hs as [Hb Hj].
  assert (∀ d', quiet d d' → books [] [] d' → settled frames d') as Hq by (intros; by eapply quiet_settled).
  destruct i as [op input stream parent|id op input parent|call|call| | |[m|e]|call o|task r|task|task p|task|r|task| |];
    simpl; rewrite ?app_nil_r.
  - by apply submit_ok.
  - by apply submit_ok.
  - destruct (dr_submitted d !! call); by apply Hq.
  - destruct (dr_submitted d !! call); by apply Hq.
  - destruct (dr_control d) as [|control rest]; [by apply Hq|].
    destruct (handle_control control _) as [p|] eqn:E; [|done].
    apply handler_settled, Hq; [exact (quiet_control _ _ _ E)|exact (books_control _ _ _ E Hb)].
  - destruct (dr_commands d) as [|command rest] eqn:Hc; [by apply Hq|]. split.
    + by apply books_command, books_take_command.
    + apply justified_command; [apply Hj; rewrite Hc; set_solver|].
      eapply quiet_justified; [|done]. apply quiet_fewer_commands. rewrite Hc. set_solver.
  - apply handler_settled. split; [by apply books_message|by apply justified_frame].
  - exact (stop_settled frames d (Ok tt) Hs).
  - apply Hq; [apply quiet_forward|by apply books_forward].
  - apply Hq; [apply quiet_task|by apply books_task_respond].
  - apply Hq; [apply quiet_task|by apply books_task_cancelled].
  - apply Hq; [apply quiet_task|by apply books_task_poll].
  - apply Hq; [apply quiet_task_send|by apply books_task_send].
  - destruct (dr_writer_closed d); [by apply Hq|]. apply Hq; [apply quiet_write_head|by apply books_write_head].
  - destruct (dr_tasks d !! task) as [t|]; [|by apply Hq].
    destruct (it_phase t) as [| | | |[[]|e]]; try by apply Hq. exact (stop_settled frames d (Ok tt) Hs).
  - destruct (dr_writer_closed d); [exact (stop_settled frames d (Ok tt) Hs)|by apply Hq].
  - exact (stop_settled frames d (Ok tt) Hs).
Qed.

Lemma run_settled frames d inputs :
  settled frames d → ∃ used, used `prefix_of` inputs ∧ step_settled (frames ++ (used ≫= taken)) (driver_run d inputs).
Proof.
  revert frames d. induction inputs as [|i inputs IH]; intros frames d Hs; simpl.
  { exists []. by rewrite app_nil_r. }
  pose proof (step_ok frames d i Hs) as Hi. destruct (driver_step d i) as [d'|d' r|] eqn:E.
  - destruct (IH _ _ Hi) as (used&Hu&H). exists (i :: used). split; [by apply prefix_cons|]. simpl. by rewrite app_assoc.
  - exists [i]. split; [by apply prefix_cons, prefix_nil|]. simpl. by rewrite app_nil_r.
  - exists []. split; [apply prefix_nil|done].
Qed.

Lemma new_settled : settled [] Driver_new.
Proof. split; split_and!; simpl; try done; set_solver. Qed.

Definition state_of (s : Step) : option Driver :=
  match s with Running d | Stopped d _ => Some d | Spinning => None end.

Lemma run_state inputs d :
  state_of (driver_run Driver_new inputs) = Some d → ∃ used, used `prefix_of` inputs ∧ settled (used ≫= taken) d.
Proof.
  destruct (run_settled [] Driver_new inputs new_settled) as (used&Hu&Hs).
  intros H. exists used. split; [done|]. destruct (driver_run Driver_new inputs); simplify_eq/=; [done|apply Hs].
Qed.

Lemma find_first_call {A} (call : nat) (l : list (nat * A)) :
  (call ∈ l.*1 → ∃ a, find_first (λ p, bool_decide (p.1 = call)) l = Some (call, a)) ∧
  (∀ p, find_first (λ p, bool_decide (p.1 = call)) l = Some p → p.1 = call ∧ p ∈ l).
Proof.
  induction l as [|[c a] l [IH1 IH2]]; csimpl; [split; [set_solver|done]|].
  case_bool_decide as Hc; simpl in *.
  - subst. split; [eauto|]. intros p [= <-]. split; [done|set_solver].
  - split; [set_solver|]. intros p Hp. destruct (IH2 p Hp). split; [done|set_solver].
Qed.

(** What the peer said to the caller, if it said something. *)
Definition peers_word (r : result Value InvokeError) : option (result Value ErrorPayload) :=
  match r with
  | Ok output => Some (Ok output)
  | Err (Invoke_Remote e) => Some (Err e)
  | _ => None
  end.

(** C18. A call is settled once, and only by its own answer: whatever callers, tasks, frames, writes and
    cancellations do and in whatever order, every call made is in the queue, pending, or has had its response sender
    used or dropped, exactly one of these, and likewise for its receipt; and what a caller is told in the peer's
    name is the content of an invoke result frame that was received and carries the id of that call. *)
Theorem answers_are_the_peers inputs d :
  state_of (driver_run Driver_new inputs) = Some d →
  seq 0 (length (dr_submitted d)) ≡ₚ queued_calls d ++ waiting_calls d ++ (dr_outcomes d).*1 ∧
  seq 0 (length (dr_submitted d)) ≡ₚ queued_calls d ++ omap receipt_call (dr_writes d) ++ (dr_receipts d).*1 ∧
  ∀ call r word, caller_result call d = Some r → peers_word r = Some word →
    ∃ m answer, dr_submitted d !! call = Some m ∧ In_Frame (Ok (Wire_Result answer)) ∈ inputs ∧
      ResultMsg_kind answer = Result_Invoke ∧ ResultMsg_id answer = iv_id m ∧ response_of answer = word.
Proof.
  intros (used&Hu&(H1&H2&_)&(_&_&J3))%run_state. split_and!; [done..|]. intros call r word. unfold caller_result.
  destruct (find_first _ (dr_receipts d)) as [[c [[[]|e]|]]|]; [|intros [= <-]; done..|done].
  destruct (find_first _ (dr_outcomes d)) as [[c' [[v|e]|]]|] eqn:E; intros [= <-]; intros [= <-];
    apply find_first_call in E as [<- Hin]; destruct (J3 _ _ Hin) as (m&answer&?&Hf&?&?&?);
    exists m, answer; split_and!; try done; apply list_elem_of_bind in Hf as (i&Hi&Hused);
    (eapply elem_of_prefix; [|done]); by destruct i as [| | | | | |[]| | | | | | | | |]; simpl in Hi; set_solver.
Qed.

(** When the driver ends, for whatever reason, no caller is left waiting: every call it was given has a result. *)
Theorem stopped_driver_answers_all inputs d r :
  driver_run Driver_new inputs = Stopped d r →
  ∀ call, call < length (dr_submitted d) → is_Some (caller_result call d).
Proof.
  intros Hrun call Hc. destruct (run_settled [] Driver_new inputs new_settled) as (used&Hu&Hs). rewrite Hrun in Hs.
  destruct Hs as [[(H1&H2&_) _] (E1&E2&E3)]. unfold queued_calls, waiting_calls in *. rewrite E1, E2, E3 in *. simpl in *.
  assert (call ∈ seq 0 (length (dr_submitted d))) as Hin by (apply elem_of_seq; lia).
  pose proof Hin as Ho. rewrite H2 in Hin. rewrite H1, map_to_list_empty in Ho. simpl in Ho.
  unfold caller_result. destruct (proj1 (find_first_call _ _) Hin) as [[[[]|e]|] ->]; [|by eauto..].
  destruct (proj1 (find_first_call _ _) Ho) as [[[v|e]|] ->]; by eauto.
Qed.
End promises.

(** Runs of a driver. *)
Module DriverSample.

Definition features : list string := [FEATURE_MODEL_STREAM_V1; FEATURE_NESTED_INVOKE_V1].
Abbreviation run := (driver_run features (λ _, "error"%string) ep_message "no available capacity" "channel closed" Driver_new).
Definition state (inputs : list Input) : Driver := default Driver_new (state_of (run inputs)).

Definition answer (id : string) : WireMessage := Wire_Result (Result_Success id Result_Invoke (JBool true)).

(** A call, answered; then another, which the end of the driver cuts short. *)
Definition inputs : list Input :=
  [In_Invoke "tool.call" JNull false None; In_Command; In_Write (Ok tt); In_Frame (Ok (answer "invoke-1"));
   In_Invoke "tool.call" JNull false None; In_Command; In_Write (Ok tt); In_Shutdown].

(** A call that its caller drops, and a second one with the same id, which the peer answers. *)
Definition reused : list Input :=
  [In_InvokeWithId "x" "tool.call" JNull None; In_Command; In_Write (Ok tt); In_DropCall 0; In_Control; In_Write (Ok tt);
   In_InvokeWithId "x" "tool.call" JNull None; In_Command; In_Write (Ok tt); In_Frame (Ok (answer "x"))].

End DriverSample.

Lemma answers_are_the_peers_witness :
  state_of (DriverSample.run DriverSample.inputs) = Some (DriverSample.state DriverSample.inputs) ∧
  caller_result 0 (DriverSample.state DriverSample.inputs) = Some (Ok (JBool true)) ∧
  ∃ m answer, dr_submitted (DriverSample.state DriverSample.inputs) !! 0 = Some m ∧
    In_Frame (Ok (Wire_Result answer)) ∈ DriverSample.inputs ∧ ResultMsg_kind answer = Result_Invoke ∧
    ResultMsg_id answer = iv_id m ∧ response_of answer = Ok (JBool true).
Proof.
  assert (state_of (DriverSample.run DriverSample.inputs) = Some (DriverSample.state DriverSample.inputs)) as H
    by (vm_compute; reflexivity).
  split; [exact H|]. split; [vm_compute; reflexivity|].
  exact (proj2 (proj2 (answers_are_the_peers _ _ _ _ _ _ _ H)) 0 (Ok (JBool true)) (Ok (JBool true))
           ltac:(vm_compute; reflexivity) eq_refl).
Defined.

Lemma stopped_driver_answers_all_witness :
  ∃ r, DriverSample.run DriverSample.inputs = Stopped (DriverSample.state DriverSample.inputs) r ∧
  is_Some (caller_result 1 (DriverSample.state DriverSample.inputs)) ∧
  caller_result 1 (DriverSample.state DriverSample.inputs) = Some (Err Invoke_PeerClosed).
Proof.
  assert (DriverSample.run DriverSample.inputs = Stopped (DriverSample.state DriverSample.inputs) (Ok tt)) as H
    by (vm_compute; reflexivity).
  exists (Ok tt). split; [exact H|]. split; [|vm_compute; reflexivity].
  exact (stopped_driver_answers_all _ _ _ _ _ _ _ _ H 1 ltac:(vm_compute; lia)).
Defined.

(** The answer to a call whose id was cancelled before is taken for the late answer to the
    cancelled one: the driver goes on and its caller is still waiting. *)
Lemma reused_id_answer_swallowed :
  let d := DriverSample.state DriverSample.reused in
  DriverSample.run DriverSample.reused = Running d ∧
  DriverSample.answer "x" = Wire_Result (Result_Success "x" Result_Invoke (JBool true)) ∧
  dr_wire d = [Wire_Invoke {| iv_id := "x"; iv_operation := "tool.call"; iv_input := JNull; iv_stream := false;
                              iv_parent_invoke_id := None |};
               Wire_Cancel "x" "caller_dropped";
               Wire_Invoke {| iv_id := "x"; iv_operation := "tool.call"; iv_input := JNull; iv_stream := false;
                              iv_parent_invoke_id := None |}] ∧
  caller_result 1 d = None ∧ dr_writes d = [] ∧ dr_commands d = [] ∧ dr_control d = [] ∧
  dr_pending d !! "x"%string = Some (Pending_Unary 1).
Proof. vm_compute. repeat split. Qed.

(** * The bounds of an S5R driver

    The set of cancelled ids, the write queue and the calls served at once stay within their
    capacities, and [CancelledRequests::insert] ends. *)

(** ** Cancelled ids *)

Definition cancelled_ok (c : CancelledRequests) : Prop :=
  size (cr_ids c) ≤ CANCELLED_REQUEST_CAPACITY ∧ ∀ id, id ∈ cr_ids c → id ∈ cr_order c.

Lemma evict_ok ids order :
  (∀ id, id ∈ ids → id ∈ order) → ∃ c, evict ids order = Some c ∧ cancelled_ok c.
Proof.
  revert ids. induction order as [|oldest order IH]; intros ids Hin; cbn -[CANCELLED_REQUEST_CAPACITY]; case_bool_decide.
  - assert (ids = ∅) as -> by set_solver. rewrite size_empty in *. lia.
  - eexists. split; [done|]. split; [simpl; lia|done].
  - apply IH. set_solver.
  - eexists. split; [done|]. split; [simpl; lia|done].
Qed.

Lemma cancelled_insert_ok id c : cancelled_ok c → ∃ c', cancelled_insert id c = Some c' ∧ cancelled_ok c'.
Proof.
  intros [H1 H2]. unfold cancelled_insert. case_bool_decide; [by exists c|]. apply evict_ok. set_solver.
Qed.

Lemma cancelled_remove_ok id c : cancelled_ok c → cancelled_ok (cancelled_remove id c).
Proof.
  intros [H1 H2]. split; simpl; [|set_solver].
  etrans; [apply (subseteq_size (cr_ids c ∖ {[id]}) (cr_ids c)); set_solver|done].
Qed.

(** An id whose answer comes late leaves the set and stays in [order], which nothing bounds. *)
Lemma cancelled_order_grows id n :
  Nat.iter n (λ c, default c (cancelled_remove id <$> cancelled_insert id c)) CancelledRequests_default =
  {| cr_ids := ∅; cr_order := replicate n id |}.
Proof.
  induction n as [|n IH]; [done|]. rewrite Nat.iter_succ, IH. unfold cancelled_insert. simpl cr_ids. simpl cr_order.
  rewrite bool_decide_false by set_solver. rewrite <-replicate_S_end, right_id_L by apply _.
  destruct (replicate (S n) id) as [|x l] eqn:E; [done|]. cbn -[CANCELLED_REQUEST_CAPACITY].
  rewrite bool_decide_false by (rewrite size_singleton; unfold CANCELLED_REQUEST_CAPACITY, COMMAND_QUEUE_CAPACITY; lia).
  simpl. unfold cancelled_remove. simpl. f_equal. set_solver.
Qed.

(** ** Calls served at once *)

Definition is_serving (t : InboundTask) : bool := match it_phase t with Phase_Returned _ => false | _ => true end.
Definition serving_in (tasks : gmap nat InboundTask) : nat := size (filter (λ p, is_serving p.2 = true) tasks).

Lemma serving_insert task t tasks :
  tasks !! task = None → serving_in (<[task := t]> tasks) = (if is_serving t then 1 else 0) + serving_in tasks.
Proof.
  intros Ht. unfold serving_in. destruct (is_serving t) eqn:Hs.
  - rewrite map_filter_insert_True by done. rewrite map_size_insert_None; [done|].
    apply map_lookup_filter_None. by left.
  - rewrite map_filter_insert_False by (simpl; by rewrite Hs). by rewrite delete_id.
Qed.

Lemma serving_update task t t' tasks :
  tasks !! task = Some t →
  serving_in (<[task := t']> tasks) + (if is_serving t then 1 else 0) =
  serving_in tasks + (if is_serving t' then 1 else 0).
Proof.
  intros Ht. rewrite <-(insert_delete_id tasks task t Ht) at 2. rewrite <-insert_delete_eq.
  rewrite !serving_insert by apply lookup_delete_eq. lia.
Qed.

Lemma serving_delete task t tasks :
  tasks !! task = Some t → is_serving t = false → serving_in (delete task tasks) = serving_in tasks.
Proof.
  intros Ht Hs. rewrite <-(insert_delete_id tasks task t Ht) at 2.
  rewrite serving_insert by apply lookup_delete_eq. by rewrite Hs.
Qed.

(** ** The invariant *)

Definition bounded (d : Driver) : Prop :=
  cancelled_ok (dr_cancelled d) ∧ length (dr_writes d) ≤ WRITE_QUEUE_CAPACITY ∧
  dr_inbound_permits d + serving_in (dr_tasks d) = MAX_IN_FLIGHT_REQUESTS ∧
  ∀ task, is_Some (dr_tasks d !! task) → task < dr_spawned d.

Lemma bounded_try_send message w d d' : try_send_write message w d = inl d' → bounded d → bounded d'.
Proof.
  unfold try_send_write. repeat case_bool_decide; intros [= <-] (B1&B2&B3&B4). split_and!; [done| |done..]. simpl.
  rewrite length_app. simpl. lia.
Qed.

Lemma bounded_try_write message d : bounded d → bounded (try_write message d).1.
Proof. unfold try_write. destruct (try_send_write message None d) eqn:E; [|done]. by apply (bounded_try_send message None). Qed.

Lemma bounded_failure call e d : bounded d → bounded (set_stream_failure call e d).
Proof. unfold set_stream_failure. by destruct (dr_failure d !! call). Qed.

Lemma bounded_move task t phase d :
  dr_tasks d !! task = Some t → is_serving t = true → is_serving (with_phase phase t) = true → bounded d →
  bounded (move_task task t phase d).
Proof.
  intros Ht Hs Hs' (B1&B2&B3&B4). split_and!; [done|done|..]; simpl.
  - pose proof (serving_update task t (with_phase phase t) _ Ht) as H. rewrite Hs, Hs' in H. lia.
  - intros k [<-|[_ H]]%lookup_insert_is_Some; eauto.
Qed.

Lemma bounded_return task t r d :
  dr_tasks d !! task = Some t → is_serving t = true → bounded d → bounded (return_task task t r d).
Proof.
  intros Ht Hs (B1&B2&B3&B4). split_and!; [done|done|..]; simpl.
  - pose proof (serving_update task t (with_phase (Phase_Returned r) t) _ Ht) as H. rewrite Hs in H. simpl in H. lia.
  - intros k [<-|[_ H]]%lookup_insert_is_Some; eauto.
Qed.

Lemma try_send_tasks message w d d' : try_send_write message w d = inl d' → dr_tasks d' = dr_tasks d.
Proof. unfold try_send_write. by repeat case_bool_decide; intros [= <-]. Qed.

Lemma bounded_tasks task d :
  bounded d → (∀ r, bounded (task_respond task r d)) ∧ bounded (task_cancelled task d) ∧
              (∀ p, bounded (task_poll task p d)) ∧ bounded (task_send task d).
Proof.
  intros Hb. unfold task_respond, task_cancelled, task_poll, task_send.
  destruct (dr_tasks d !! task) as [t|] eqn:Ht; [|done].
  assert (∀ phase, it_phase t = phase → match phase with Phase_Returned _ => True | _ => is_serving t = true end) as Hs
    by (intros [] E; unfold is_serving; by rewrite ?E).
  destruct (it_phase t) as [|started|message after| |] eqn:Hp; specialize (Hs _ eq_refl); simpl in Hs; split_and!; intros;
    try done; try (destruct (ic_token _); [by apply bounded_return|]); try done.
  - apply bounded_move; try done. unfold response_message, is_serving. simpl.
    destruct r as [[|]|]; simpl; by try destruct (iv_stream _).
  - destruct (validate_outbound_stream_event _ _) as [event s]. by apply bounded_move.
  - destruct (try_send_write _ _ d) as [d'|[]] eqn:E; [|done|by apply bounded_return].
    apply bounded_move; [by rewrite (try_send_tasks _ _ _ _ E)|done|done|by eapply bounded_try_send].
Qed.

Lemma bounded_send_receipt display w r d : bounded d → bounded (send_receipt display w r d).
Proof.
  intros Hb. unfold send_receipt. destruct w as [[call|task]|]; [done| |done].
  destruct (dr_tasks d !! task) as [t|] eqn:Ht; [|done]. destruct (it_phase t) as [| | |after|] eqn:Hp; try done.
  assert (is_serving t = true) by (unfold is_serving; by rewrite Hp).
  destruct (receipt_error _ r) as [[]|], after; try by apply bounded_return. by apply bounded_move.
Qed.

Lemma bounded_write_head error display r d : bounded d → bounded (write_head error display r d).
Proof.
  intros Hb. pose proof Hb as (B1&B2&B3). unfold write_head. destruct (dr_writes d) as [|w writes] eqn:Hw; [done|].
  simpl in B2. destruct r as [[]|e].
  - apply bounded_send_receipt. split_and!; [done|simpl; lia|apply B3..].
  - assert (∀ l d, bounded d → bounded (drop_writes display l d)) as Hd.
    { intros l. induction l as [|w' l IH]; intros d' Hd'; [done|]. by apply IH, bounded_send_receipt. }
    apply Hd, bounded_send_receipt. split_and!; [done|simpl; lia|apply B3..].
Qed.

Lemma bounded_control control d :
  bounded d → ∃ p, handle_control control d = Some p ∧ bounded p.1.
Proof.
  intros Hb. unfold handle_control. destruct (dr_pending d !! cc_id control) as [r|]; [|by eauto].
  destruct (cancelled_insert_ok (cc_id control) (dr_cancelled d)) as (c&->&Hc); [apply Hb|].
  eexists. split; [done|]. apply bounded_try_write. split_and!; [done|apply Hb..].
Qed.

Lemma bounded_forget id d : bounded d → bounded (set_cancelled (cancelled_remove id (dr_cancelled d)) d).
Proof. intros (B1&B2). by split; [apply cancelled_remove_ok|]. Qed.

Lemma bounded_result r d : bounded d → bounded (route_result r d).1.
Proof.
  intros Hb. unfold route_result. case_bool_decide; simpl; [|done].
  destruct (cancelled_contains _ _); [by apply bounded_forget|].
  destruct (dr_pending d !! ResultMsg_id r) as [[call|stream]|]; [done| |done].
  exact (bounded_failure (ps_call stream) _ d Hb).
Qed.

Lemma bounded_cancel_stream id stream failure reason d : bounded d → bounded (cancel_stream id stream failure reason d).
Proof. intros Hb. unfold cancel_stream. by apply (bounded_failure (ps_call stream) failure) in Hb. Qed.

Lemma bounded_stream full closed id event d : bounded d → bounded (route_stream full closed id event d).1.
Proof.
  intros Hb. unfold route_stream.
  destruct (cancelled_contains _ _); simpl; [destruct (is_terminal event); [by apply bounded_forget|done]|].
  destruct (dr_pending d !! id) as [[call|stream]|]; [done| |done]. destruct (ps_cancel_requested stream); [done|].
  destruct (stream_order _ _) as [[] started]; simpl; [|by apply bounded_cancel_stream].
  destruct (dr_forward d !! _) as [f|]; [|by apply bounded_cancel_stream].
  case_bool_decide; [by apply bounded_cancel_stream|]. by destruct (is_terminal event).
Qed.

Lemma bounded_message features full closed message d :
  bounded d → bounded (handle_message features full closed message d).1.
Proof.
  intros Hb. destruct message as [m|i c|r|request|id event|id reason]; cbn -[route_result route_stream]; try done.
  - by apply bounded_result.
  - case_bool_decide; [by apply bounded_try_write|].
    destruct (validate_inbound_features _ _ _); [|by apply bounded_try_write].
    destruct (dr_inbound_permits d) as [|permits] eqn:Hp; [by apply bounded_try_write|].
    destruct Hb as (B1&B2&B3&B4). split_and!; [done|done|..]; simpl.
    + rewrite serving_insert; [simpl; lia|]. apply eq_None_not_Some. intros Hn%B4. lia.
    + intros k [<-|[_ Hk%B4]]%lookup_insert_is_Some; lia.
  - by apply bounded_stream.
  - destruct (dr_inbound d !! id) as [task|]; [|done]. unfold update_task.
    destruct (dr_tasks d !! task) as [t|] eqn:Ht; [|done]. destruct Hb as (B1&B2&B3&B4). split_and!; [done|done|..]; simpl.
    + match goal with |- context [<[task := ?t']> _] => pose proof (serving_update task t t' _ Ht) as Hu end.
      unfold is_serving in Hu. simpl in Hu. destruct (it_phase t); lia.
    + intros k [<-|[_ Hk]]%lookup_insert_is_Some; eauto.
Qed.

Lemma bounded_start_write id message call r d : bounded d → bounded (start_invoke_write id message call r d).
Proof.
  intros Hb. unfold start_invoke_write, try_write_with_receipt.
  destruct (try_send_write _ _ d) as [d'|e] eqn:E; [by eapply bounded_try_send|done].
Qed.

Lemma bounded_command command d : bounded d → bounded (handle_command command d).
Proof.
  intros Hb. destruct command as [call m|call m]; simpl;
    (case_bool_decide; [done|]; destruct (validate_parent m d); [|done]; case_bool_decide; [done|]);
    by apply bounded_start_write.
Qed.

Lemma bounded_forward call o d : bounded d → bounded (forward_event call o d).
Proof.
  intros Hb. unfold forward_event. destruct (dr_forward d !! call) as [[id [|event queue] []]|]; try done.
  destruct o; try done. by apply (bounded_failure call (ErrorPayload_new Code_BackpressureTimeout
    "stream consumer did not release capacity before the backpressure deadline")
     (set_forward (delete call (dr_forward d)) d)) in Hb.
Qed.

Lemma bounded_submit features message d : bounded d → bounded (submit features message d).2.
Proof.
  intros Hb. unfold submit. destruct (validate_outbound _ _ _ _ _); [|done].
  destruct (dr_permits d); by case_bool_decide.
Qed.

Section bounds.
  Context (features : list string) (display_error : PeerError → string) (display_payload : ErrorPayload → string)
    (full_text closed_text : string).
  Abbreviation driver_step := (driver_step features display_error display_payload full_text closed_text).
  Abbreviation driver_run := (driver_run features display_error display_payload full_text closed_text).

Definition step_bounded (s : Step) : Prop :=
  match s with Running d => bounded d | Stopped _ _ => True | Spinning => False end.

Lemma handler_bounded p : bounded p.1 → step_bounded (after_handler display_payload p).
Proof. by destruct p as [d [[]|e]]. Qed.

Lemma step_keeps_bounds d i : bounded d → step_bounded (driver_step d i).
Proof.
  intros Hb. destruct i as [op input stream parent|id op input parent|call|call| | |[m|e]|call o|task r|task|task p|task|r|task| |];
    cbn -[handle_control handle_message]; try done.
  - by apply bounded_submit.
  - by apply bounded_submit.
  - by destruct (dr_submitted d !! call).
  - by destruct (dr_submitted d !! call).
  - destruct (dr_control d) as [|control rest]; [done|].
    destruct (bounded_control control (set_control rest d)) as (p&->&Hp); [done|]. by apply handler_bounded.
  - destruct (dr_commands d) as [|command rest]; [done|]. by apply bounded_command.
  - by apply handler_bounded, bounded_message.
  - by apply bounded_forward.
  - by apply bounded_tasks.
  - by apply bounded_tasks.
  - by apply bounded_tasks.
  - by apply bounded_tasks.
  - destruct (dr_writer_closed d); [done|]. by apply bounded_write_head.
  - destruct (dr_tasks d !! task) as [t|] eqn:Ht; [|done].
    destruct (it_phase t) as [| | | |[[]|e]] eqn:Hp; try done. destruct Hb as (B1&B2&B3&B4).
    split_and!; [done|done|..]; simpl.
    + by rewrite (serving_delete task t) by (done || unfold is_serving; by rewrite Hp).
    + intros k H. apply B4. by apply lookup_delete_is_Some in H as [_ ?].
  - by destruct (dr_writer_closed d).
Qed.

Lemma run_keeps_bounds d inputs : bounded d → step_bounded (driver_run d inputs).
Proof.
  revert d. induction inputs as [|i inputs IH]; intros d Hb; simpl; [done|].
  pose proof (step_keeps_bounds d i Hb) as H. destruct (driver_step d i); [by apply IH|done|done].
Qed.

Lemma new_bounded : bounded Driver_new.
Proof. split_and!; [split; [vm_compute; lia|set_solver]|vm_compute; lia|done|]. intros k. simpl. by rewrite lookup_empty; intros [? ?]. Qed.

(** C33. A driver's resources are bounded: its loop never spins, and while it runs at most 256 calls hold a permit,
    queued or pending, each permit is free or held by one of them, at most 256 writes are queued, 256 cancelled ids
    remembered and 256 calls served at once; so a caller with a permit always finds room in the command queue. *)
Theorem driver_bounds inputs :
  driver_run Driver_new inputs ≠ Spinning ∧
  ∀ d, driver_run Driver_new inputs = Running d →
    dr_permits d + length (dr_commands d) + size (dr_pending d) = MAX_IN_FLIGHT_REQUESTS ∧
    length (dr_writes d) ≤ WRITE_QUEUE_CAPACITY ∧
    size (cr_ids (dr_cancelled d)) ≤ CANCELLED_REQUEST_CAPACITY ∧
    dr_inbound_permits d + serving_in (dr_tasks d) = MAX_IN_FLIGHT_REQUESTS ∧
    ∀ message, iv_parent_invoke_id message = None → dr_permits d ≠ 0 →
      validate_outbound features (iv_id message) (iv_operation message) None (iv_stream message) = Ok tt →
      (submit features message d).1 = Submitted (length (dr_submitted d)).
Proof.
  pose proof (run_keeps_bounds Driver_new inputs new_bounded) as Hb. split; [by intros E; rewrite E in Hb|].
  intros d Hrun. rewrite Hrun in Hb. destruct Hb as ([B1 _]&B2&B3&_).
  destruct (run_state features display_error display_payload full_text closed_text inputs d) as (_&_&(_&_&Hp)&_).
  { by rewrite Hrun. }
  simpl in Hp. split_and!; [lia|done..|]. intros message Hparent Hpermit Hv. unfold submit. rewrite Hparent, Hv.
  destruct (dr_permits d) eqn:E; [done|]. rewrite bool_decide_false; [done|].
  unfold MAX_IN_FLIGHT_REQUESTS in Hp. lia.
Qed.
End bounds.
