(* ===== verification/S5rStreams.v ===== *)
(** * Streams between S5R peers

    Whatever a peer sends, a consumer sees a well-ordered stream; and what a well-behaved
    producer sends arrives as it was sent. *)

From S2P Require Import Prelude Utf8 StdPath StdStr CoreTypes CoreLlm ProjReducer StoreTypes AiRetry S5rWire S5rPeer S5rDriver S5rAccounts S5rCalls.

(** ** Order

    A stream starts, then has its events, and ends at its terminal event; it may fail before it
    starts. *)

Fixpoint ordered (started : bool) (events : list ModelStreamEvent) : bool :=
  match events with
  | [] => true
  | event :: events =>
    let '(valid, started) := stream_order started event in
    valid && if is_terminal event then bool_decide (events = []) else ordered started events
  end.

(** A stream that has not ended, and whether it has started. *)
Fixpoint runs (started : bool) (events : list ModelStreamEvent) : option bool :=
  match events with
  | [] => Some started
  | event :: events =>
    let '(valid, started) := stream_order started event in
    if valid && negb (is_terminal event) then runs started events else None
  end.

Lemma runs_app s l1 l2 : runs s (l1 ++ l2) = match runs s l1 with Some s' => runs s' l2 | None => None end.
Proof.
  revert s. induction l1 as [|e l1 IH]; intros s; simpl; [done|].
  destruct (stream_order s e) as [[] s']; simpl; [|done]. destruct (is_terminal e); [done|apply IH].
Qed.

Lemma runs_ordered s l1 l2 s' : runs s l1 = Some s' → ordered s (l1 ++ l2) = ordered s' l2.
Proof.
  revert s. induction l1 as [|e l1 IH]; intros s; simpl; [by intros [= ->]|].
  destruct (stream_order s e) as [[] s'']; simpl; [|done]. destruct (is_terminal e); [done|]. apply IH.
Qed.

Lemma ordered_prefix s l1 l2 : ordered s (l1 ++ l2) = true → ordered s l1 = true.
Proof.
  revert s. induction l1 as [|e l1 IH]; intros s; simpl; [done|].
  destruct (stream_order s e) as [[] s']; simpl; [|done]. destruct (is_terminal e); [|apply IH].
  rewrite !bool_decide_eq_true. by intros [-> _]%app_nil.
Qed.

Lemma ordered_one s e : ordered s [e] = (stream_order s e).1.
Proof. simpl. destruct (stream_order s e) as [[] ?]; [|done]. by destruct (is_terminal e). Qed.

Lemma runs_one s e : (stream_order s e).1 = true → is_terminal e = false → runs s [e] = Some (stream_order s e).2.
Proof. simpl. destruct (stream_order s e) as [[] s']; simpl; [|done]. by intros _ ->. Qed.

(** ** What a consumer sees *)

Definition seen (d : Driver) (call : nat) : list ModelStreamEvent := default [] (dr_outputs d !! call).
Definition coming (d : Driver) (call : nat) : list ModelStreamEvent :=
  match dr_forward d !! call with Some f => if fw_open f then fw_queue f else [] | None => [] end.

Definition streams_ok (d : Driver) : Prop :=
  (∀ call, ordered false (seen d call ++ coming d call) = true) ∧
  (∀ id s f, dr_pending d !! id = Some (Pending_Stream s) → dr_forward d !! ps_call s = Some f →
     ps_cancel_requested s = false → fw_open f = true → runs false (seen d (ps_call s) ++ fw_queue f) = Some (ps_started s)) ∧
  (∀ call, call ∈ queued_calls d ∨ length (dr_submitted d) ≤ call → dr_outputs d !! call = None ∧ dr_forward d !! call = None).

(** A step that only takes away. *)
Definition shrinks (d d' : Driver) : Prop :=
  dr_submitted d' = dr_submitted d ∧ (∀ c, c ∈ dr_commands d' → c ∈ dr_commands d) ∧ dr_outputs d' = dr_outputs d ∧
  (dr_forward d' = dr_forward d ∨ dr_forward d' = ∅) ∧
  (∀ id r, dr_pending d' !! id = Some r → dr_pending d !! id = Some r).

#[export] Instance shrinks_refl : Reflexive shrinks.
Proof. intros d. split_and!; auto. Qed.
#[export] Hint Extern 0 (shrinks _ _) => exact (shrinks_refl _) : core.
#[export] Instance shrinks_trans : Transitive shrinks.
Proof.
  intros a b c (A1&A2&A3&A4&A5) (B1&B2&B3&B4&B5). split_and!; [congruence|auto|congruence| |auto].
  destruct B4 as [-> | ->]; auto.
Qed.

Lemma shrinks_ok d d' : shrinks d d' → streams_ok d → streams_ok d'.
Proof.
  intros (A1&A2&A3&A4&A5) (S1&S2&S3). unfold streams_ok, seen, coming, queued_calls in *. rewrite A1, A3. split_and!.
  - intros call. specialize (S1 call). destruct A4 as [-> | ->]; [done|]. rewrite lookup_empty, app_nil_r.
    by apply ordered_prefix in S1.
  - intros id s f Hp%A5 Hf. destruct A4 as [E|E]; rewrite E in Hf; [by apply S2 with id|done].
  - intros call Hc. assert (dr_outputs d !! call = None ∧ dr_forward d !! call = None) as [H1 H2].
    { apply S3. destruct Hc as [(c&->&?%A2)%list_elem_of_fmap|]; [left|by right]. apply list_elem_of_fmap. eauto. }
    split; [done|]. by destruct A4 as [-> | ->].
Qed.

Lemma shrinks_delete id d : shrinks d (set_pending (delete id (dr_pending d)) d).
Proof. split_and!; auto. simpl. by intros k r [_ ?]%lookup_delete_Some. Qed.

Lemma shrinks_finish id r o d : shrinks d (finish_pending id r o d).
Proof. exact (shrinks_delete id d). Qed.

Lemma shrinks_try_send message w d d' : try_send_write message w d = inl d' → shrinks d d'.
Proof. unfold try_send_write. by repeat case_bool_decide; intros [= <-]. Qed.

Lemma shrinks_try_write message d : shrinks d (try_write message d).1.
Proof. unfold try_write. destruct (try_send_write message None d) eqn:E; [by eapply shrinks_try_send|done]. Qed.

Lemma shrinks_failure call e d : shrinks d (set_stream_failure call e d).
Proof. unfold set_stream_failure. by destruct (dr_failure d !! call). Qed.

Lemma shrinks_control control d p : handle_control control d = Some p → shrinks d p.1.
Proof.
  unfold handle_control. destruct (dr_pending d !! cc_id control) as [r|]; [|by intros [= <-]].
  destruct (cancelled_insert _ _) as [c|]; [|done]. intros [= <-].
  etrans; [|apply shrinks_try_write]. exact (shrinks_delete (cc_id control) d).
Qed.

Lemma shrinks_result r d : shrinks d (route_result r d).1.
Proof.
  unfold route_result. case_bool_decide; simpl; [|done]. destruct (cancelled_contains _ _); [done|].
  destruct (dr_pending d !! ResultMsg_id r) as [[call|stream]|]; [apply shrinks_finish| |done].
  etrans; [apply (shrinks_failure (ps_call stream))|apply shrinks_finish].
Qed.

Lemma shrinks_start_write id message call r d : shrinks d (start_invoke_write id message call r d).
Proof.
  unfold start_invoke_write, try_write_with_receipt. destruct (try_send_write _ _ d) as [d'|e] eqn:E.
  - by eapply shrinks_try_send.
  - exact (shrinks_delete id d).
Qed.

Lemma shrinks_send_receipt display w r d : shrinks d (send_receipt display w r d).
Proof.
  unfold send_receipt. destruct w as [[call|task]|]; [done| |done].
  destruct (dr_tasks d !! task) as [t|]; [|done]. destruct (it_phase t) as [| | |after|]; try done.
  by destruct (receipt_error _ r), after.
Qed.

Lemma shrinks_fold {A} (f : Driver → A → Driver) l d : (∀ d a, shrinks d (f d a)) → shrinks d (foldl f d l).
Proof. intros Hf. revert d. induction l as [|a l IH]; intros d; [done|]. etrans; [apply (Hf d a)|]. apply IH. Qed.

Lemma shrinks_write_head error display r d : shrinks d (write_head error display r d).
Proof.
  unfold write_head. destruct (dr_writes d) as [|w writes]; [done|]. destruct r as [[]|e].
  - etrans; [|apply shrinks_send_receipt]. done.
  - etrans; [|apply (shrinks_fold (λ d w, send_receipt display (wq_written w) None d));
               intros; apply shrinks_send_receipt].
    etrans; [|apply shrinks_send_receipt]. done.
Qed.

Lemma shrinks_fewer_commands commands d :
  (∀ c, c ∈ commands → c ∈ dr_commands d) → shrinks d (set_commands commands d).
Proof. intros Hc. split_and!; auto. Qed.

Lemma shrinks_stop display d : shrinks d (stop display d).
Proof.
  unfold stop. set (d0 := set_forward ∅ _). transitivity d0; [split_and!; auto|].
  etrans; [apply (shrinks_fold fail_pending); intros ? [? []]; [done|apply shrinks_failure]|].
  etrans; [apply (shrinks_fold clear_pending); intros; apply shrinks_finish|].
  etrans; [|apply (shrinks_fold clear_command); intros; done].
  etrans; [|apply shrinks_fewer_commands; set_solver].
  etrans; [|apply (shrinks_fold (λ d w, send_receipt display (wq_written w) None d)); intros; apply shrinks_send_receipt].
  done.
Qed.

Lemma shrinks_task task d :
  (∀ r, shrinks d (task_respond task r d)) ∧ shrinks d (task_cancelled task d) ∧
  (∀ p, shrinks d (task_poll task p d)) ∧ shrinks d (task_send task d).
Proof.
  unfold task_respond, task_cancelled, task_poll, task_send.
  destruct (dr_tasks d !! task) as [[? [token ?] []]|]; split_and!; intros; try done; simpl; try (by destruct token).
  - destruct token; [done|]. by destruct (validate_outbound_stream_event _ _).
  - destruct (try_send_write _ _ d) as [d'|[]] eqn:E; try done. by eapply shrinks_try_send in E.
Qed.

(** ** The steps that carry events *)

Lemma fmap_NoDup_inj {A B} (f : A → B) l x y : NoDup (f <$> l) → x ∈ l → y ∈ l → f x = f y → x = y.
Proof.
  induction l as [|z l IH]; csimpl; [set_solver|]. rewrite NoDup_cons, list_elem_of_fmap.
  intros [Hz Hl] [->|Hx]%elem_of_cons [->|Hy]%elem_of_cons Hf; eauto; destruct Hz; eauto.
Qed.

Lemma books_nodup outs recs d : books outs recs d → NoDup (outs ++ queued_calls d ++ waiting_calls d ++ (dr_outcomes d).*1).
Proof. intros (H&_). rewrite <-H. apply NoDup_seq. Qed.

(** Two pending ids are two calls. *)
Lemma pending_call_inj d id1 id2 r1 r2 :
  books [] [] d → dr_pending d !! id1 = Some r1 → dr_pending d !! id2 = Some r2 → pending_call r1 = pending_call r2 →
  id1 = id2.
Proof.
  intros Hb%books_nodup H1%elem_of_map_to_list H2%elem_of_map_to_list Hc. simpl in Hb.
  apply NoDup_app in Hb as (_&_&(H&_)%NoDup_app).
  pose proof (fmap_NoDup_inj (pending_call ∘ snd) _ _ _ H H1 H2 Hc). congruence.
Qed.

Lemma streams_cancel id r stream failure reason d :
  dr_pending d !! id = Some r → streams_ok d → streams_ok (cancel_stream id stream failure reason d).
Proof.
  intros Hr Hs. apply (shrinks_ok _ _ (shrinks_failure (ps_call stream) failure d)) in Hs as (S1&S2&S3).
  split_and!; [exact S1| |exact S3]. unfold cancel_stream. simpl. rewrite <-(set_failure_pending (ps_call stream) failure d).
  intros k s f [[<- [= <-]]|[_ Hk]]%lookup_insert_Some; [done|]. exact (S2 k s f Hk).
Qed.

(** An event is taken into the buffer of its stream. *)
Lemma streams_accept d pending' id s f event :
  books [] [] d → streams_ok d →
  dr_pending d !! id = Some (Pending_Stream s) → ps_cancel_requested s = false → dr_forward d !! ps_call s = Some f →
  (stream_order (ps_started s) event).1 = true →
  (∀ id' r, pending' !! id' = Some r → id' ≠ id → dr_pending d !! id' = Some r) →
  (∀ s', pending' !! id = Some (Pending_Stream s') → is_terminal event = false ∧ ps_call s' = ps_call s ∧
     ps_started s' = (stream_order (ps_started s) event).2) →
  streams_ok (set_pending pending' (set_forward
    (<[ps_call s := {| fw_id := fw_id f; fw_queue := fw_queue f ++ [event]; fw_open := fw_open f |}]> (dr_forward d)) d)).
Proof.
  intros Hb (S1&S2&S3) Hp Hc Hf Hv Hothers Hid. pose proof (S2 _ _ _ Hp Hf Hc) as Hrun. split_and!; simpl.
  - intros call. specialize (S1 call). unfold seen, coming in *. simpl.
    destruct (decide (call = ps_call s)) as [->|]; [|by rewrite lookup_insert_ne].
    rewrite lookup_insert_eq. rewrite Hf in S1. simpl. destruct (fw_open f); [|done].
    rewrite app_assoc, (runs_ordered _ _ _ _ (Hrun eq_refl)). by rewrite ordered_one.
  - intros k s' f' Hk Hf' Hc' Ho. unfold seen in *. simpl. destruct (decide (k = id)) as [->|Hne].
    + destruct (Hid s' Hk) as (Ht&Hcall&->). rewrite Hcall in *. rewrite lookup_insert_eq in Hf'.
      injection Hf' as <-. simpl in *. by rewrite app_assoc, runs_app, Hrun, runs_one.
    + apply Hothers in Hk; [|done]. destruct (decide (ps_call s' = ps_call s)) as [E|].
      * destruct Hne. by apply (pending_call_inj d k id _ _ Hb Hk Hp).
      * rewrite lookup_insert_ne in Hf' by done. by apply S2 with k.
  - intros call H. destruct (S3 call H) as [H1 H2]. split; [done|].
    destruct (decide (call = ps_call s)) as [->|]; [congruence|]. by rewrite lookup_insert_ne.
Qed.

Lemma streams_route full closed id event d :
  books [] [] d → streams_ok d → streams_ok (route_stream full closed id event d).1.
Proof.
  intros Hb Hs. unfold route_stream. destruct (cancelled_contains _ _); simpl; [by destruct (is_terminal event)|].
  destruct (dr_pending d !! id) as [[call|s]|] eqn:Hp; [done| |done]. destruct (ps_cancel_requested s) eqn:Hc; [done|].
  destruct (stream_order (ps_started s) event) as [valid started] eqn:Hv.
  destruct valid; simpl; [|by eapply streams_cancel].
  destruct (dr_forward d !! ps_call s) as [f|] eqn:Hf; [|by eapply streams_cancel].
  case_bool_decide; [by eapply streams_cancel|]. simpl.
  pose proof (λ P, streams_accept d P id s f event Hb Hs Hp Hc Hf) as Ha. rewrite Hv in Ha. simpl in Ha.
  destruct (is_terminal event) eqn:Ht.
  - refine (Ha (delete id (<[id := _]> (dr_pending d))) eq_refl _ _).
    + intros id' r [_ H']%lookup_delete_Some Hne. by rewrite lookup_insert_ne in H'.
    + intros s'. by rewrite lookup_delete_eq.
  - refine (Ha (<[id := _]> (dr_pending d)) eq_refl _ _).
    + intros id' r H' Hne. by rewrite lookup_insert_ne in H'.
    + intros s'. rewrite lookup_insert_eq. by intros [= <-].
Qed.

Lemma streams_message features full closed message d :
  books [] [] d → streams_ok d → streams_ok (handle_message features full closed message d).1.
Proof.
  intros Hb Hs. assert (∀ d', shrinks d d' → streams_ok d') as Hq by (intros; by eapply shrinks_ok).
  destruct message as [m|i c|r|request|id event|id reason]; cbn -[route_result route_stream]; try done.
  - apply Hq, shrinks_result.
  - apply Hq. case_bool_decide; [apply shrinks_try_write|].
    destruct (validate_inbound_features _ _ _); [|apply shrinks_try_write].
    destruct (dr_inbound_permits d); [apply shrinks_try_write|done].
  - by apply streams_route.
  - apply Hq. destruct (dr_inbound d !! id) as [task|]; [|done]. unfold update_task. by destruct (dr_tasks d !! task).
Qed.

(** A change of one stream's buffer and output. *)
Lemma streams_at call f d d' :
  dr_forward d !! call = Some f →
  dr_submitted d' = dr_submitted d → dr_commands d' = dr_commands d → dr_pending d' = dr_pending d →
  (∀ c, c ≠ call → dr_outputs d' !! c = dr_outputs d !! c ∧ dr_forward d' !! c = dr_forward d !! c) →
  ordered false (seen d' call ++ coming d' call) = true →
  (∀ f', dr_forward d' !! call = Some f' → fw_open f' = true →
     fw_open f = true ∧ seen d' call ++ fw_queue f' = seen d call ++ fw_queue f) →
  streams_ok d → streams_ok d'.
Proof.
  intros Hf E1 E2 E3 Hne Ho Hq (S1&S2&S3). unfold streams_ok, queued_calls in *. rewrite E1, E2, E3. split_and!.
  - intros c. destruct (decide (c = call)) as [->|Hc]; [done|]. specialize (S1 c). destruct (Hne c Hc) as [O F].
    unfold seen, coming in *. by rewrite O, F.
  - intros id s f' Hp Hf' Hcan Hopen. destruct (decide (ps_call s = call)) as [<-|Hc].
    + destruct (Hq f' Hf' Hopen) as [Ho' ->]. by apply S2 with id.
    + destruct (Hne _ Hc) as [O F]. unfold seen. rewrite O. rewrite F in Hf'. by apply S2 with id.
  - intros c Hc. destruct (S3 c Hc). destruct (Hne c) as [-> ->]; [|done]. congruence.
Qed.

Lemma streams_forward call o d : streams_ok d → streams_ok (forward_event call o d).
Proof.
  intros Hs. unfold forward_event. destruct (dr_forward d !! call) as [[id [|event queue] open]|] eqn:Hf; try done.
  pose proof (proj1 Hs call) as Ho. unfold coming in Ho. rewrite Hf in Ho. simpl in Ho.
  assert (ordered false (seen d call) = true) as Hseen by by eapply ordered_prefix.
  assert (∀ d' o', streams_ok d' → streams_ok (set_control o' d')) as Hctl by done.
  destruct open; [destruct o|]; simpl; [| |apply Hctl, (shrinks_ok _ _ (shrinks_failure _ _ _))|];
    eapply (streams_at call _ d); try exact Hf; try done; unfold seen, coming; simpl;
    rewrite ?lookup_insert_eq, ?lookup_delete_eq; simpl; rewrite ?app_nil_r; try done;
    try (intros c Hc; by rewrite ?lookup_insert_ne, ?lookup_delete_ne);
    try (intros f' [= <-]; done).
  - unfold seen in Ho. by rewrite <-app_assoc.
  - intros f' [= <-]. simpl. by rewrite <-app_assoc.
Qed.

Lemma streams_command command rest d :
  dr_commands d = command :: rest → books [] [] d → streams_ok d →
  streams_ok (handle_command command (set_commands rest d)).
Proof.
  intros Hc Hb Hs. assert (streams_ok (set_commands rest d)) as Hs'.
  { refine (shrinks_ok d _ _ Hs). apply shrinks_fewer_commands. rewrite Hc. set_solver. }
  destruct command as [call m|call m]; simpl;
    (case_bool_decide; [exact Hs'|]; destruct (validate_parent m _); [|exact Hs'];
     case_bool_decide as Hn; [exact Hs'|]; eapply shrinks_ok; [apply shrinks_start_write|]).
  { destruct Hs' as (S1&S2&S3). split_and!; [exact S1| |exact S3]. simpl.
    intros k s f [[_ [=]]|[_ Hk]]%lookup_insert_Some. exact (S2 k s f Hk). }
  assert (call < length (dr_submitted d)) as Hmade.
  { destruct Hb as (H1&_). assert (call ∈ seq 0 (length (dr_submitted d))) as [_ ?]%elem_of_seq; [|lia].
    rewrite H1. unfold queued_calls. rewrite Hc. simpl. set_solver. }
  apply books_nodup in Hb. unfold queued_calls in Hb. rewrite Hc in Hb. simpl in Hb. apply NoDup_cons in Hb as [Hfresh Hb].
  destruct (proj2 (proj2 Hs) call) as [Hout Hfwd]; [left; unfold queued_calls; rewrite Hc; set_solver|].
  destruct Hs' as (S1&S2&S3). split_and!; simpl.
  - intros c. specialize (S1 c). unfold seen, coming in *. simpl in *.
    destruct (decide (c = call)) as [->|]; [|by rewrite lookup_insert_ne]. by rewrite lookup_insert_eq, Hout.
  - intros k s f [[<- [= <-]]|[_ Hk]]%lookup_insert_Some; simpl.
    + rewrite lookup_insert_eq. intros [= <-]. unfold seen. simpl. by rewrite Hout.
    + intros Hf. rewrite lookup_insert_ne in Hf; [exact (S2 k s f Hk Hf)|]. intros ->. apply Hfresh.
      rewrite !elem_of_app. right. left. unfold waiting_calls. apply list_elem_of_fmap.
      exists (k, Pending_Stream s). split; [done|]. by apply elem_of_map_to_list.
  - intros c Hq. destruct (S3 c Hq) as [H1 H2]. split; [exact H1|]. rewrite lookup_insert_ne; [exact H2|]. intros ->.
    destruct Hq as [Hq|Hq]; [by apply Hfresh, elem_of_app; left|]. simpl in Hq. lia.
Qed.

Lemma streams_submit features message d : streams_ok d → streams_ok (submit features message d).2.
Proof.
  intros Hs. unfold submit. destruct (validate_outbound _ _ _ _ _); [|done].
  destruct (dr_permits d); [by case_bool_decide|]. case_bool_decide; [done|]. destruct Hs as (S1&S2&S3).
  split_and!; [exact S1|exact S2|]. unfold queued_calls. simpl. intros c Hq. apply S3.
  rewrite fmap_app, elem_of_app, length_app in Hq. simpl in Hq. destruct Hq as [[Hq|Hq]|Hq]; [by left| |right; lia].
  right. destruct (iv_stream message); apply list_elem_of_singleton in Hq as ->; simpl; lia.
Qed.

Section streams.
  Context (features : list string) (display_error : PeerError → string) (display_payload : ErrorPayload → string)
    (full_text closed_text : string).
  Abbreviation driver_step := (driver_step features display_error display_payload full_text closed_text).
  Abbreviation driver_run := (driver_run features display_error display_payload full_text closed_text).

Definition step_streams (s : Step) : Prop :=
  match s with Running d | Stopped d _ => streams_ok d | Spinning => True end.

Lemma handler_streams p : streams_ok p.1 → step_streams (after_handler display_payload p).
Proof. destruct p as [d [[]|e]]; [done|]. intros Hs. exact (shrinks_ok d _ (shrinks_stop display_payload d) Hs). Qed.

Lemma step_keeps_streams d i : books [] [] d → streams_ok d → step_streams (driver_step d i).
Proof.
  intros Hb Hs. assert (∀ d', shrinks d d' → streams_ok d') as Hq by (intros; by eapply shrinks_ok).
  assert (streams_ok (stop display_payload d)) as Hstop by apply Hq, shrinks_stop.
  destruct i as [op input stream parent|id op input parent|call|call| | |[m|e]|call o|task r|task|task p|task|r|task| |];
    cbn -[handle_control handle_message]; try done.
  - by apply streams_submit.
  - by apply streams_submit.
  - by destruct (dr_submitted d !! call).
  - by destruct (dr_submitted d !! call).
  - destruct (dr_control d) as [|control rest]; [done|].
    destruct (handle_control control _) as [p|] eqn:E; [|done].
    apply handler_streams, Hq. exact (shrinks_control _ (set_control rest d) _ E).
  - destruct (dr_commands d) as [|command rest] eqn:Hc; [done|]. by apply streams_command.
  - by apply handler_streams, streams_message.
  - by apply streams_forward.
  - apply Hq, shrinks_task.
  - apply Hq, shrinks_task.
  - apply Hq, shrinks_task.
  - apply Hq, shrinks_task.
  - destruct (dr_writer_closed d); [done|]. apply Hq, shrinks_write_head.
  - destruct (dr_tasks d !! task) as [t|]; [|done]. by destruct (it_phase t) as [| | | |[[]|e]].
  - by destruct (dr_writer_closed d).
Qed.

Lemma run_keeps_streams frames d inputs : settled frames d → streams_ok d → step_streams (driver_run d inputs).
Proof.
  revert frames d. induction inputs as [|i inputs IH]; intros frames d Hd Hs; simpl; [done|].
  pose proof (step_keeps_streams d i (proj1 Hd) Hs) as H.
  pose proof (step_ok features display_error display_payload full_text closed_text frames d i Hd) as Hd'.
  destruct (driver_step d i); [by eapply IH|done|done].
Qed.

(** C32. A consumer sees a well-ordered stream, whatever the peer sends and whatever the timing: what was handed to
    it, followed by what waits for it, starts with the start of the stream unless it fails at once, has no second
    start, and nothing after its terminal event. *)
Theorem streams_in_order inputs d :
  state_of (driver_run Driver_new inputs) = Some d → ∀ call, ordered false (seen d call ++ coming d call) = true.
Proof.
  intros Hd call. assert (step_streams (driver_run Driver_new inputs)) as H.
  { eapply run_keeps_streams; [apply new_settled|]. by split_and!. }
  destruct (driver_run Driver_new inputs); simplify_eq/=; apply H.
Qed.
End streams.

(** ** A stream from its producer to its consumer *)

(** The events a served stream has on the wire, for what its handler's stream answers. *)
Fixpoint written_events (started : bool) (polls : list StreamPoll) : list ModelStreamEvent :=
  match polls with
  | [] => []
  | p :: polls =>
    let '(event, started) := validate_outbound_stream_event (poll_event p) started in
    event :: if is_terminal event then [] else written_events started polls
  end.

Lemma outbound_valid event started :
  let '(event', started') := validate_outbound_stream_event event started in
  stream_order started event' = (true, started').
Proof. destruct event, started; done. Qed.

Lemma written_ordered started polls : ordered started (written_events started polls) = true.
Proof.
  revert started. induction polls as [|p polls IH]; intros started; simpl; [done|].
  pose proof (outbound_valid (poll_event p) started) as H. destruct (validate_outbound_stream_event _ _) as [event s].
  simpl. rewrite H. simpl. by destruct (is_terminal event).
Qed.

Lemma written_length started polls : length (written_events started polls) ≤ length polls.
Proof.
  revert started. induction polls as [|p polls IH]; intros s; simpl; [lia|].
  destruct (validate_outbound_stream_event _ s) as [e s']. destruct (is_terminal e); simpl; [lia|]. specialize (IH s'). lia.
Qed.

(** A reader of a well-ordered stream sees it, and one failure more if it did not end. *)
Lemma read_ordered failure started events :
  ordered started events = true →
  read_stream (PeerStream_new failure) events =
  events ++ match runs started events with
            | None => []
            | Some _ => [Model_Failed (default (ErrorPayload_new Code_StreamClosed
                                                  "model stream closed before a terminal event") failure)]
            end.
Proof.
  revert started. induction events as [|e events IH]; intros started; [done|]. simpl.
  destruct (stream_order started e) as [[] s]; simpl; [|done]. destruct (is_terminal e) eqn:Ht; simpl.
  - rewrite bool_decide_eq_true. by intros ->.
  - intros Ho. f_equal. by apply IH.
Qed.

(** The producer's side: one poll, its frame queued, the frame written. *)
Definition serve_poll (display_error : PeerError → string) (display_payload : ErrorPayload → string) (task : nat)
    (d : Driver) (p : StreamPoll) : Driver :=
  write_head display_error display_payload (Ok tt) (task_send task (task_poll task p d)).

Record serving (task : nat) (id : string) (started : bool) (d : Driver) : Prop := {
  sv_task : ∃ t, dr_tasks d !! task = Some t ∧ it_phase t = Phase_Streaming started ∧
                 ic_token (it_cancellation t) = false ∧ iv_id (it_request t) = id;
  sv_writes : dr_writes d = [];
  sv_open : dr_writer_closed d = None;
}.

Lemma serve_poll_spec error payload task id started d p :
  serving task id started d →
  let '(event, started') := validate_outbound_stream_event (poll_event p) started in
  let d' := serve_poll error payload task d p in
  dr_wire d' = dr_wire d ++ [Wire_Stream id event] ∧
  if is_terminal event then (∃ t, dr_tasks d' !! task = Some t ∧ it_phase t = Phase_Returned (Ok tt)) ∧ dr_writes d' = []
  else serving task id started' d'.
Proof.
  intros [(t&Ht&Hp&Htok&Hid) Hw Ho]. unfold serve_poll, task_poll. rewrite Ht, Hp, Htok.
  destruct (validate_outbound_stream_event _ _) as [event started'].
  unfold task_send, try_send_write. simpl. rewrite lookup_insert_eq. simpl. rewrite Ho, Hw. simpl.
  unfold write_head. simpl. rewrite lookup_insert_eq. simpl. rewrite Hid.
  destruct (is_terminal event) eqn:Hterm; simpl; (split; [done|]).
  - split; [|done]. eexists. by rewrite lookup_insert_eq.
  - constructor; simpl; [|done|done]. eexists. rewrite lookup_insert_eq. split; [done|]. by simpl.
Qed.

Lemma served_returned error payload task t d polls :
  dr_tasks d !! task = Some t → it_phase t = Phase_Returned (Ok tt) → dr_writes d = [] →
  dr_wire (foldl (serve_poll error payload task) d polls) = dr_wire d.
Proof.
  intros Ht Hp Hw. induction polls as [|p polls IH]; simpl; [done|].
  replace (serve_poll error payload task d p) with d; [done|].
  unfold serve_poll, task_poll. rewrite Ht, Hp. unfold task_send. rewrite Ht, Hp. unfold write_head. by rewrite Hw.
Qed.

Lemma served_wire error payload task id started d polls :
  serving task id started d →
  dr_wire (foldl (serve_poll error payload task) d polls) =
  dr_wire d ++ (Wire_Stream id <$> written_events started polls).
Proof.
  revert started d. induction polls as [|p polls IH]; intros started d Hs; simpl; [by rewrite app_nil_r|].
  pose proof (serve_poll_spec error payload task id started d p Hs) as H.
  destruct (validate_outbound_stream_event _ _) as [event started']. destruct H as [Hw H]. csimpl.
  destruct (is_terminal event).
  - destruct H as [(t&Ht&Hp) Hq]. by rewrite (served_returned _ _ _ _ _ _ Ht Hp Hq), Hw.
  - rewrite (IH _ _ H), Hw, <-app_assoc. done.
Qed.

(** The consumer's side, in the order of a schedule: the next frame is taken from the wire, or the next event that waits
    is handed on to the consumer. *)
Inductive ConsumerMove := Take_frame | Hand_on.

(** A schedule that never lets more events wait than the buffer has room for. *)
Fixpoint keeps_up (waiting : nat) (moves : list ConsumerMove) : bool :=
  match moves with
  | [] => true
  | Take_frame :: moves => bool_decide (waiting < STREAM_FORWARD_BUFFER_CAPACITY) && keeps_up (S waiting) moves
  | Hand_on :: moves => keeps_up (pred waiting) moves
  end.

Fixpoint frames_taken (moves : list ConsumerMove) : nat :=
  match moves with
  | [] => 0
  | Take_frame :: moves => S (frames_taken moves)
  | Hand_on :: moves => frames_taken moves
  end.

Section consumer.
  Context (features : list string) (full_text closed_text : string).

Fixpoint consume (call : nat) (moves : list ConsumerMove) (frames : list WireMessage) (d : Driver)
    : Driver * result unit PeerError :=
  match moves, frames with
  | [], _ => (d, Ok tt)
  | Hand_on :: moves, _ => consume call moves frames (forward_event call Forward_Delivered d)
  | Take_frame :: moves, [] => consume call moves [] d
  | Take_frame :: moves, message :: frames =>
    match handle_message features full_text closed_text message d with
    | (d, Ok _) => consume call moves frames d
    | r => r
    end
  end.

Record listening (id : string) (call : nat) (started : bool) (queue : list ModelStreamEvent) (d : Driver) : Prop := {
  li_pending : dr_pending d !! id =
               Some (Pending_Stream {| ps_call := call; ps_started := started; ps_cancel_requested := false |});
  li_live : cancelled_contains id (dr_cancelled d) = false;
  li_forward : dr_forward d !! call = Some {| fw_id := id; fw_queue := queue; fw_open := true |};
}.

(** What a consumer has been handed and what waits for it. *)
Definition holds_events (id : string) (call : nat) (events : list ModelStreamEvent) (d : Driver) : Prop :=
  ∃ queue, dr_forward d !! call = Some {| fw_id := id; fw_queue := queue; fw_open := true |} ∧
    seen d call ++ queue = events.

(** Handing on moves the oldest event that waits, and nothing when none does. *)
Lemma hand_on id call queue d :
  dr_forward d !! call = Some {| fw_id := id; fw_queue := queue; fw_open := true |} →
  let d' := forward_event call Forward_Delivered d in
  dr_forward d' !! call = Some {| fw_id := id; fw_queue := tail queue; fw_open := true |} ∧
  seen d' call ++ tail queue = seen d call ++ queue ∧ dr_pending d' = dr_pending d ∧
  dr_cancelled d' = dr_cancelled d ∧ dr_control d' = dr_control d ∧ dr_failure d' = dr_failure d.
Proof.
  intros Hf. unfold forward_event. rewrite Hf. destruct queue as [|e queue]; [done|]. simpl.
  rewrite lookup_insert_eq. split_and!; [done| |done..]. unfold seen. simpl. rewrite lookup_insert_eq. simpl.
  by rewrite <-app_assoc.
Qed.

Lemma consume_nothing id call moves d events :
  holds_events id call events d →
  ∃ d', consume call moves [] d = (d', Ok tt) ∧ holds_events id call events d' ∧
    dr_control d' = dr_control d ∧ dr_failure d' = dr_failure d ∧ dr_pending d' = dr_pending d.
Proof.
  revert d. induction moves as [|[] moves IH]; intros d (queue&Hf&Hq); simpl.
  - exists d. split_and!; [done|by exists queue|done..].
  - apply IH. by exists queue.
  - destruct (hand_on id call queue d Hf) as (Hf'&Hs&Hp&_&Hc&Hfail).
    destruct (IH (forward_event call Forward_Delivered d)) as (d'&->&Hh&?&?&?);
      [exists (tail queue); by rewrite Hs|]. exists d'. split_and!; congruence || done.
Qed.

(** A frame of a well-ordered stream is taken into the buffer when there is room. *)
Lemma take_frame id call started queue e d :
  listening id call started queue d → length queue < STREAM_FORWARD_BUFFER_CAPACITY →
  (stream_order started e).1 = true →
  ∃ d', handle_message features full_text closed_text (Wire_Stream id e) d = (d', Ok tt) ∧
    dr_forward d' !! call = Some {| fw_id := id; fw_queue := queue ++ [e]; fw_open := true |} ∧
    seen d' call = seen d call ∧ dr_control d' = dr_control d ∧ dr_failure d' = dr_failure d ∧
    if is_terminal e then dr_pending d' !! id = None
    else listening id call (stream_order started e).2 (queue ++ [e]) d'.
Proof.
  intros [Hp Hl Hf] Hlen Ho. cbn [handle_message]. unfold route_stream. rewrite Hl, Hp. simpl ps_cancel_requested.
  destruct (stream_order started e) as [v s] eqn:Hv. simpl in Hv, Ho |- *. subst v.
  rewrite Hv, Hf. rewrite bool_decide_false by (simpl; lia). destruct (is_terminal e) eqn:Ht; simpl.
  - eexists. split; [done|]. simpl. rewrite lookup_insert_eq. split_and!; try done. apply lookup_delete_eq.
  - eexists. split; [done|]. simpl. rewrite lookup_insert_eq. split_and!; try done.
    constructor; simpl; [by rewrite lookup_insert_eq|done|by rewrite lookup_insert_eq].
Qed.

Lemma consume_ordered id call moves started queue events d :
  listening id call started queue d → keeps_up (length queue) moves = true →
  length events ≤ frames_taken moves → ordered started events = true →
  ∃ d', consume call moves (Wire_Stream id <$> events) d = (d', Ok tt) ∧
    holds_events id call (seen d call ++ queue ++ events) d' ∧
    dr_control d' = dr_control d ∧ dr_failure d' = dr_failure d ∧
    (runs started events = None → dr_pending d' !! id = None).
Proof.
  revert started queue events d.
  induction moves as [|[] moves IH]; intros started queue events d Hl Hk Hlen Ho; simpl in Hk.
  - destruct events; [|by simpl in Hlen; lia]. exists d. rewrite app_nil_r.
    split_and!; [done|exists queue; split; [apply Hl|done]|done..].
  - destruct events as [|e events].
    { destruct (consume_nothing id call moves d (seen d call ++ queue)) as (d'&Hc&Hh&?&?&_).
      { exists queue. split; [apply Hl|done]. }
      exists d'. rewrite app_nil_r. by split_and!. }
    apply andb_true_iff in Hk as [Hroom%bool_decide_eq_true Hk]. cbn [ordered runs] in Ho |- *.
    destruct (stream_order started e) as [v s] eqn:Hv. destruct v; [|done]. simpl in Ho.
    destruct (take_frame id call started queue e d Hl Hroom) as (d1&Hh1&Hf1&Hs1&Hc1&Hfail1&Hd1); [by rewrite Hv|].
    cbn [fmap list_fmap consume]. rewrite Hv in Hd1. rewrite Hh1. simpl in Hd1. destruct (is_terminal e).
    + apply bool_decide_eq_true in Ho as ->. cbn [fmap list_fmap].
      destruct (consume_nothing id call moves d1 (seen d1 call ++ queue ++ [e])) as (d'&->&Hh&?&?&Hp);
        [by exists (queue ++ [e])|].
      exists d'. rewrite <-Hs1, Hp. split_and!; [done..|congruence|congruence|done].
    + destruct (IH s (queue ++ [e]) events d1) as (d'&->&Hh&?&?&?);
        [done|by rewrite length_app, Nat.add_comm|simpl in Hlen; lia|done|].
      rewrite Hs1, <-app_assoc in Hh. exists d'. split_and!; [done..|congruence|congruence|done].
  - destruct (hand_on id call queue d (li_forward _ _ _ _ _ Hl)) as (Hf1&Hs1&Hp1&Hca1&Hc1&Hfail1).
    cbn [consume]. destruct (IH started (tail queue) events (forward_event call Forward_Delivered d)) as (d'&->&Hh&?&?&?);
      [|by destruct queue|done|done|].
    + destruct Hl as [Hp Hca _]. constructor; [by rewrite Hp1|by rewrite Hca1|done].
    + rewrite (app_assoc _ (tail queue)), Hs1, <-app_assoc in Hh.
      exists d'. split_and!; [done..|congruence|congruence|done].
Qed.

Lemma deliver_all id call n events d :
  holds_events id call events d → length events ≤ n →
  let d' := Nat.iter n (forward_event call Forward_Delivered) d in
  seen d' call = events ∧ dr_failure d' = dr_failure d.
Proof.
  intros (queue&Hf&<-) Hn. assert (length queue ≤ n) as Hn' by (rewrite length_app in Hn; lia). clear Hn. cbn zeta.
  revert d queue Hf Hn'. induction n as [|n IH]; intros d queue Hf Hn.
  { destruct queue; [|by simpl in Hn; lia]. by rewrite app_nil_r. }
  rewrite Nat.iter_succ_r. destruct (hand_on id call queue d Hf) as (Hf'&Hs&_&_&_&Hfail).
  destruct (IH _ (tail queue) Hf') as [-> ->]; [destruct queue; simpl in *; lia|]. done.
Qed.

(** C19. A served stream arrives as it was sent.  A task of one peer serves a stream and polls its handler's stream, its
    frames being written as they are queued; the other peer listens, and takes the frames and hands the events on in any
    order that never lets more events wait than its buffer holds
    ([STREAM_FORWARD_BUFFER_CAPACITY], beyond which it cancels the stream).  Whatever the handler's stream answers
    (events, out of order ones too, its end, a timeout), the frames are all taken without an error or a cancellation,
    and once the events are handed on, the consumer reads exactly the events that were sent, which are well ordered and,
    up to one failure when the producer has not finished, end with the one terminal event. *)
Theorem stream_arrives error payload task id call producer consumer polls moves :
  serving task id false producer → listening id call false [] consumer → seen consumer call = [] →
  keeps_up 0 moves = true → length polls ≤ frames_taken moves →
  let served := foldl (serve_poll error payload task) producer polls in
  let frames := drop (length (dr_wire producer)) (dr_wire served) in
  let events := written_events false polls in
  frames = (Wire_Stream id <$> events) ∧ ordered false events = true ∧
  ∃ consumer', consume call moves frames consumer = (consumer', Ok tt) ∧ dr_control consumer' = dr_control consumer ∧
    let delivered := Nat.iter (length events) (forward_event call Forward_Delivered) consumer' in
    read_stream (PeerStream_new (dr_failure delivered !! call)) (seen delivered call) =
    events ++ match runs false events with
              | None => []
              | Some _ => [Model_Failed (default (ErrorPayload_new Code_StreamClosed
                             "model stream closed before a terminal event") (dr_failure consumer !! call))]
              end ∧
    (runs false events = None → dr_pending consumer' !! id = None).
Proof.
  intros Hs Hl Hseen Hk Hlen served frames events.
  assert (frames = (Wire_Stream id <$> events)) as Hframes
    by by unfold frames, served; rewrite (served_wire _ _ _ _ _ _ _ Hs), drop_app_length.
  pose proof (written_ordered false polls) as Ho. fold events in Ho.
  assert (length events ≤ length polls) as Hle by apply written_length.
  destruct (consume_ordered id call moves false [] events consumer Hl) as (c&Hr&Hh&Hctl&Hfail&Hend); [done|lia|done|].
  rewrite Hseen in Hh. simpl in Hh.
  rewrite Hframes. split_and!; [done|done|]. exists c. split_and!; [done|done|]. cbn zeta. split; [|done].
  destruct (deliver_all id call (length events) events c Hh) as [H1 H2]; [lia|].
  rewrite H1, H2, Hfail. by apply read_ordered.
Qed.
End consumer.

(** A worker that serves a stream and a host that asked for it. *)
Module StreamSample.

Definition request : InvokeMsg :=
  {| iv_id := "invoke-1"; iv_operation := "model.stream"; iv_input := JNull; iv_stream := true; iv_parent_invoke_id := None |}.

Definition asked : list Input := [In_Invoke "model.stream" JNull true None; In_Command; In_Write (Ok tt)].
Definition served : list Input := [In_Frame (Ok (Wire_Invoke request)); In_Respond 0 (Ok Response_Stream)].
(** The second start is not allowed: it becomes the failure that ends the stream. *)
Definition polls : list StreamPoll := [Polled Model_Started; Polled (Model_ContentDelta "hi"); Polled Model_Started; Polled_Closed].

Definition events : list ModelStreamEvent :=
  [Model_Started; Model_ContentDelta "hi"; invalid_stream_event "stream started more than once"].

(** The consumer takes two frames, hands an event on, and takes the rest. *)
Definition moves : list ConsumerMove := [Take_frame; Take_frame; Hand_on; Take_frame; Take_frame].

(** A peer that starts its stream twice and goes on. *)
Definition misordered : list Input :=
  asked ++ [In_Frame (Ok (Wire_Stream "invoke-1" Model_Started)); In_Forward 0 Forward_Delivered;
            In_Frame (Ok (Wire_Stream "invoke-1" (Model_ContentDelta "hi")));
            In_Frame (Ok (Wire_Stream "invoke-1" Model_Started));
            In_Frame (Ok (Wire_Stream "invoke-1" (Model_ContentDelta "more")))].

Lemma serving_sample : serving 0 "invoke-1" false (DriverSample.state served).
Proof.
  constructor; [|vm_compute; reflexivity..]. eexists. split; [vm_compute; reflexivity|]. by split_and!.
Qed.

Lemma listening_sample : listening "invoke-1" 0 false [] (DriverSample.state asked).
Proof. constructor; vm_compute; reflexivity. Qed.

End StreamSample.

Lemma stream_arrives_witness :
  written_events false StreamSample.polls = StreamSample.events ∧
  ∃ consumer, consume DriverSample.features "no available capacity" "channel closed" 0 StreamSample.moves
      (drop 0 (dr_wire (foldl (serve_poll (λ _, "error"%string) ep_message 0) (DriverSample.state StreamSample.served)
                          StreamSample.polls))) (DriverSample.state StreamSample.asked) = (consumer, Ok tt) ∧
    let delivered := Nat.iter 3 (forward_event 0 Forward_Delivered) consumer in
    read_stream (PeerStream_new (dr_failure delivered !! 0)) (seen delivered 0) = StreamSample.events ++ [] ∧
    dr_pending consumer !! "invoke-1"%string = None.
Proof.
  split; [reflexivity|].
  destruct (stream_arrives DriverSample.features "no available capacity" "channel closed" (λ _, "error"%string) ep_message
    0 "invoke-1" 0 (DriverSample.state StreamSample.served) (DriverSample.state StreamSample.asked) StreamSample.polls
    StreamSample.moves StreamSample.serving_sample StreamSample.listening_sample ltac:(vm_compute; reflexivity)
    ltac:(vm_compute; reflexivity) ltac:(vm_compute; lia))
    as (_&_&c&H1&_&H2&H3).
  exists c. split; [exact H1|]. split; [exact H2|exact (H3 eq_refl)].
Defined.

Lemma streams_in_order_witness :
  ordered false (seen (DriverSample.state StreamSample.misordered) 0 ++ coming (DriverSample.state StreamSample.misordered) 0)
    = true ∧
  seen (DriverSample.state StreamSample.misordered) 0 = [Model_Started] ∧
  coming (DriverSample.state StreamSample.misordered) 0 = [Model_ContentDelta "hi"].
Proof.
  split; [|vm_compute; split; reflexivity].
  refine (streams_in_order DriverSample.features (λ _, "error"%string) ep_message "no available capacity" "channel closed"
            StreamSample.misordered _ _ 0).
  vm_compute. reflexivity.
Defined.
