(* ===== verification/ExtDeps.v ===== *)
(** * The order in which extensions start ([astrcode-extensions/src/runner/dependency.rs])

    Extensions declare the services they provide and those they need.  [DependencyPlan::analyze]
    finds who cannot start and why, and an order for the rest.  A [BTreeSet] of ids is an
    increasing list, a [BTreeMap] keyed by ids a finite map whose keys are visited in increasing
    order, and one keyed by services likewise.  The three loops over work lists take fuel; [plan_starts_providers_first] states that it is never used up. *)

From stdpp Require Import relations sorting.
From S2P Require Import Prelude.

(** ** Declarations ([astrcode-extension-sdk/src/extension/service.rs]) *)

Record ServiceKey := { sk_name : string; sk_major : N }.

#[export] Instance ServiceKey_eq_dec : EqDecision ServiceKey.
Proof. solve_decision. Defined.

#[export] Instance ServiceKey_countable : Countable ServiceKey.
Proof.
  refine (inj_countable' (λ k, (sk_name k, sk_major k)) (λ p, {| sk_name := p.1; sk_major := p.2 |}) _). by intros [].
Defined.

(** The derived order: the name, then the version. *)
Definition service_le (a b : ServiceKey) : Prop :=
  if decide (sk_name a = sk_name b) then (sk_major a ≤ sk_major b)%N else String.le (sk_name a) (sk_name b).

#[export] Instance service_le_dec a b : Decision (service_le a b).
Proof. unfold service_le. case_decide; apply _. Defined.

Inductive DependencyKind := Dep_Required | Dep_Optional.

#[export] Instance DependencyKind_eq_dec : EqDecision DependencyKind.
Proof. solve_decision. Defined.

Record ServiceDependency := { dep_service : ServiceKey; dep_kind : DependencyKind }.

Record ServiceDeclaration := {
  sd_id : string;
  sd_services : list ServiceKey;
  sd_dependencies : list ServiceDependency;
}.

Inductive ServiceBlockReason :=
| MissingService (service : ServiceKey)
| ProviderConflict (service : ServiceKey) (providers : list string)
| DependencyCycle (members : list string)
| DependencyBlocked (provider : string).

Abbreviation Edges := (gmap string (list string)).
Abbreviation Blocked := (gmap string (list ServiceBlockReason)).
Abbreviation Providers := (gmap ServiceKey (list string)).

Record DependencyPlan := {
  dp_order : list string;
  dp_blocked : Blocked;
  dp_dependents : Edges;
}.

(** ** Maps *)

(** [providers.entry(service).or_default().push(id)] *)
Definition provider_push (service : ServiceKey) (id : string) (ps : Providers) : Providers :=
  <[service := default [] (ps !! service) ++ [id]]> ps.

(** The entries, in the order of their keys. *)
Definition entries (ps : Providers) : list (ServiceKey * list string) :=
  merge_sort (λ a b, service_le a.1 b.1) (map_to_list ps).

Definition keys {A} (m : gmap string A) : list string := btree_collect (map_to_list m).*1.
Definition edge_list (m : Edges) (id : string) : list string := default [] (m !! id).
Definition add_edge (k v : string) (m : Edges) : Edges := <[k := btree_insert v (edge_list m k)]> m.
Definition block (id : string) (reason : ServiceBlockReason) (b : Blocked) : Blocked :=
  <[id := default [] (b !! id) ++ [reason]]> b.

(** ** Reachability; the stack has its top at the head *)

Fixpoint reach_loop (fuel : nat) (edges : Edges) (pending visited : list string) : option (list string) :=
  match pending with
  | [] => Some visited
  | id :: pending =>
    match fuel with
    | O => None
    | S fuel =>
      if bool_decide (id ∈ visited) then reach_loop fuel edges pending visited
      else reach_loop fuel edges (reverse (edge_list edges id) ++ pending) (btree_insert id visited)
    end
  end.

Definition edge_count (edges : Edges) : nat := sum_list (length ∘ snd <$> map_to_list edges).

Definition reachable (edges : Edges) (roots : list string) : option (list string) :=
  reach_loop (length roots + edge_count edges) edges (reverse roots) [].

(** ** The plan *)

Definition collect_providers (ds : list ServiceDeclaration) : Providers :=
  foldl (λ ps d, foldl (λ ps s, provider_push s (sd_id d) ps) ps (sd_services d)) ∅ ds.

Definition declare_parents (ds : list ServiceDeclaration) : Edges :=
  foldl (λ m d, <[sd_id d := edge_list m (sd_id d)]> m) ∅ ds.

Definition block_conflicts (ps : Providers) : Blocked :=
  foldl (λ b '(service, ids),
           if bool_decide (1 < length ids) then foldl (λ b id, block id (ProviderConflict service ids) b) b ids else b)
    ∅ (entries ps).

Definition link (ps : Providers) (id : string) (st : Edges * Edges * Blocked) (dependency : ServiceDependency)
    : Edges * Edges * Blocked :=
  let '(parents, dependents, blocked) := st in
  if bool_decide (dep_kind dependency = Dep_Required) then
    match ps !! dep_service dependency with
    | Some ids =>
      (foldl (λ m provider, add_edge id provider m) parents ids,
       foldl (λ m provider, add_edge provider id m) dependents ids, blocked)
    | None => (parents, dependents, block id (MissingService (dep_service dependency)) blocked)
    end
  else st.

Definition link_all (ps : Providers) (ds : list ServiceDeclaration) (st : Edges * Edges * Blocked)
    : Edges * Edges * Blocked :=
  foldl (λ st d, foldl (link ps (sd_id d)) st (sd_dependencies d)) st ds.

(** The cycle of one id that no earlier one has. *)
Definition find_cycle (parents dependents : Edges) (st : list string * Blocked) (id : string)
    : option (list string * Blocked) :=
  let '(assigned, blocked) := st in
  if bool_decide (id ∈ assigned) then Some st
  else
    match reachable parents [id], reachable dependents [id] with
    | Some forward, Some backward =>
      let members := filter (λ x, x ∈ backward) forward in
      let blocked :=
        if bool_decide (1 < length members) || bool_decide (id ∈ edge_list parents id) then
          foldl (λ b member, block member (DependencyCycle members) b) blocked members
        else blocked in
      Some (foldl (λ a m, btree_insert m a) assigned members, blocked)
    | _, _ => None
    end.

Fixpoint find_cycles (parents dependents : Edges) (ids : list string) (st : list string * Blocked)
    : option (list string * Blocked) :=
  match ids with
  | [] => Some st
  | id :: ids =>
    match find_cycle parents dependents st id with
    | Some st => find_cycles parents dependents ids st
    | None => None
    end
  end.

(** The consumers of a blocked provider. *)
Definition block_consumer (provider : string) (st : list string * Blocked) (consumer : string) : list string * Blocked :=
  let '(pending, blocked) := st in
  match blocked !! consumer with
  | Some _ => st
  | None => (consumer :: pending, <[consumer := [DependencyBlocked provider]]> blocked)
  end.

Fixpoint propagate (fuel : nat) (dependents : Edges) (pending : list string) (blocked : Blocked) : option Blocked :=
  match pending with
  | [] => Some blocked
  | provider :: pending =>
    match fuel with
    | O => None
    | S fuel =>
      let '(pending, blocked) := foldl (block_consumer provider) (pending, blocked) (edge_list dependents provider) in
      propagate fuel dependents pending blocked
    end
  end.

Definition ready (parents : Edges) (blocked : Blocked) (done : list string) (d : ServiceDeclaration) : bool :=
  bool_decide (blocked !! sd_id d = None) && bool_decide (sd_id d ∉ done)
  && forallb (λ p, bool_decide (p ∈ done)) (edge_list parents (sd_id d)).

(** [done] and [order] hold the same ids. *)
Fixpoint order_loop (fuel : nat) (ds : list ServiceDeclaration) (parents : Edges) (blocked : Blocked) (order : list string)
    : option (list string) :=
  match find_first (ready parents blocked order) ds with
  | None => Some order
  | Some d =>
    match fuel with
    | O => None
    | S fuel => order_loop fuel ds parents blocked (order ++ [sd_id d])
    end
  end.

Definition analyze (ds : list ServiceDeclaration) : option DependencyPlan :=
  let ps := collect_providers ds in
  let '(parents, dependents, blocked) := link_all ps ds (declare_parents ds, ∅, block_conflicts ps) in
  match find_cycles parents dependents (keys parents) ([], blocked) with
  | None => None
  | Some (_, blocked) =>
    match propagate (size blocked + edge_count dependents) dependents (reverse (keys blocked)) blocked with
    | None => None
    | Some blocked =>
      match order_loop (length ds) ds parents blocked [] with
      | None => None
      | Some order => Some {| dp_order := order; dp_blocked := blocked; dp_dependents := dependents |}
      end
    end
  end.

Definition affected (plan : DependencyPlan) (roots : list string) : option (list string) :=
  reachable (dp_dependents plan) roots.

(** The example of the module's own test. *)
Module DepsSample.

Definition key (name : string) : ServiceKey := {| sk_name := name; sk_major := 1 |}.
Definition decl (id : string) (services required optional : list string) : ServiceDeclaration :=
  {| sd_id := id; sd_services := key <$> services;
     sd_dependencies := ((λ k, {| dep_service := key k; dep_kind := Dep_Required |}) <$> required)
                        ++ ((λ k, {| dep_service := key k; dep_kind := Dep_Optional |}) <$> optional) |}.

Definition declarations : list ServiceDeclaration :=
  [decl "client" [] ["middle"] ["absent"]; decl "middle" ["middle"] ["base"] []; decl "base" ["base"] [] [];
   decl "cycle-a" ["a"] ["b"] []; decl "cycle-b" ["b"] ["a"] []; decl "cycle-child" [] ["a"] [];
   decl "duplicate-a" ["duplicate"] [] []; decl "duplicate-b" ["duplicate"] [] []; decl "missing" [] ["absent"] []].

Lemma planned :
  (λ p, (dp_order p, dp_blocked p !! "cycle-a"%string, dp_blocked p !! "cycle-child"%string,
         dp_blocked p !! "missing"%string, affected p ["base"%string])) <$> analyze declarations =
  Some (["base"; "middle"; "client"]%string, Some [DependencyCycle ["cycle-a"; "cycle-b"]%string],
        Some [DependencyBlocked "cycle-a"], Some [MissingService (key "absent")],
        Some ["base"; "client"; "middle"]%string).
Proof. vm_compute. reflexivity. Qed.

End DepsSample.
