(* ===== verification/ExtDepsProofs.v ===== *)
(** * The plan of extensions is right

    Every declared extension is in the order or blocked, never both; the order starts providers
    first; an extension is blocked exactly when something it needs is missing, provided twice or
    part of a cycle. *)

From stdpp Require Import relations sorting.
From S2P Require Import Prelude ExtDeps.

(** ** Reachability *)

Definition edge (m : Edges) (x y : string) : Prop := y ∈ edge_list m x.

(** The edges that leave what was not visited yet pay for the steps to come. *)
Definition cost (edges : Edges) (visited : list string) : nat :=
  sum_list ((λ kv, if bool_decide (kv.1 ∈ visited) then 0 else length kv.2) <$> map_to_list edges).

Lemma sum_list_perm l1 l2 : l1 ≡ₚ l2 → sum_list l1 = sum_list l2.
Proof. induction 1; simpl; lia. Qed.

Lemma sum_list_le {A} (f g : A → nat) l : (∀ x, f x ≤ g x) → sum_list (f <$> l) ≤ sum_list (g <$> l).
Proof. intros H. induction l as [|x l IH]; csimpl; [lia|]. specialize (H x). lia. Qed.

Lemma cost_visit edges visited id :
  id ∉ visited → cost edges (btree_insert id visited) + length (edge_list edges id) ≤ cost edges visited.
Proof.
  intros Hid. unfold cost, edge_list.
  assert (∀ l, sum_list ((λ kv : string * list string, if bool_decide (kv.1 ∈ btree_insert id visited) then 0 else length kv.2) <$> l)
    ≤ sum_list ((λ kv, if bool_decide (kv.1 ∈ visited) then 0 else length kv.2) <$> l)) as Hmono.
  { intros l. apply sum_list_le. intros [k v]. simpl. repeat case_bool_decide; try lia.
    destruct H. apply elem_of_btree_insert. by right. }
  destruct (edges !! id) as [l|] eqn:E; simpl; [|specialize (Hmono (map_to_list edges)); lia].
  rewrite <-!(sum_list_perm _ _ (fmap_Permutation _ _ _ (map_to_list_delete edges id l E))). csimpl.
  rewrite bool_decide_true by (apply elem_of_btree_insert; by left). rewrite bool_decide_false by done.
  specialize (Hmono (map_to_list (delete id edges))). lia.
Qed.

Lemma reach_loop_spec fuel edges pending visited :
  length pending + cost edges visited ≤ fuel →
  (∀ v y, v ∈ visited → edge edges v y → y ∈ visited ∨ y ∈ pending) →
  ∃ l, reach_loop fuel edges pending visited = Some l ∧
    (∀ v y, v ∈ l → edge edges v y → y ∈ l) ∧
    (∀ x, x ∈ visited ∨ x ∈ pending → x ∈ l) ∧
    (∀ x, x ∈ l → x ∈ visited ∨ ∃ r, r ∈ pending ∧ rtc (edge edges) r x).
Proof.
  revert pending visited. induction fuel as [|fuel IH]; intros pending visited Hf Hc; destruct pending as [|id pending]; simpl in *; try lia.
  1, 2: exists visited; split_and!; [done|intros v y Hv Hy; destruct (Hc v y Hv Hy); [done|set_solver]|set_solver|by left].
  case_bool_decide as Hid.
  - destruct (IH pending visited) as (l&Hl&H1&H2&H3); [lia|intros v y Hv Hy; destruct (Hc v y Hv Hy); set_solver|].
    exists l. split_and!; [done|done|intros x Hx; apply H2; set_solver|]. intros x [?|(r&?&?)]%H3; [by left|right].
    exists r. split; [set_solver|done].
  - pose proof (cost_visit edges visited id Hid) as Hcost.
    destruct (IH (reverse (edge_list edges id) ++ pending) (btree_insert id visited)) as (l&Hl&H1&H2&H3).
    + rewrite length_app, length_reverse. lia.
    + intros v y. rewrite !elem_of_btree_insert, elem_of_app, elem_of_reverse.
      intros [->|Hv] Hy; [by right; left|]. destruct (Hc v y Hv Hy) as [|[->|]%elem_of_cons]; auto.
    + exists l. split_and!; [done|done| |].
      * intros x Hx. apply H2. rewrite elem_of_btree_insert. set_solver.
      * intros x [Hx|(r&Hr&Hx)]%H3.
        -- apply elem_of_btree_insert in Hx as [->|]; [right|by left]. exists id. split; [set_solver|done].
        -- right. apply elem_of_app in Hr as [Hr|Hr]; [|exists r; set_solver].
           exists id. split; [set_solver|]. eapply rtc_l; [|done]. unfold edge. by rewrite elem_of_reverse in Hr.
Qed.

Lemma cost_nil edges : cost edges [] = edge_count edges.
Proof. done. Qed.

Lemma reachable_spec edges roots :
  ∃ l, reachable edges roots = Some l ∧ ∀ x, x ∈ l ↔ ∃ r, r ∈ roots ∧ rtc (edge edges) r x.
Proof.
  unfold reachable. destruct (reach_loop_spec (length roots + edge_count edges) edges (reverse roots) []) as (l&Hl&H1&H2&H3).
  - rewrite cost_nil, length_reverse. lia.
  - set_solver.
  - exists l. split; [done|]. intros x. split.
    + intros [?|(r&Hr&?)]%H3; [set_solver|]. exists r. split; [by rewrite elem_of_reverse in Hr|done].
    + intros (r&Hr&Hx). assert (r ∈ l) as Hrl by (apply H2; right; by apply elem_of_reverse).
      clear Hr. induction Hx as [|a b c Hab _ IH]; [done|]. by eapply IH, H1.
Qed.

(** ** What is declared *)

(** The extensions that provide a service, once per time they declare it. *)
Definition providers_of (ds : list ServiceDeclaration) (service : ServiceKey) : list string :=
  ds ≫= λ d, (λ _, sd_id d) <$> filter (λ s, s = service) (sd_services d).

Definition requires (d : ServiceDeclaration) (service : ServiceKey) : Prop :=
  ∃ dep, dep ∈ sd_dependencies d ∧ dep_kind dep = Dep_Required ∧ dep_service dep = service.

(** One extension needs a service that another one provides. *)
Definition needs (ds : list ServiceDeclaration) (x y : string) : Prop :=
  ∃ d service, d ∈ ds ∧ sd_id d = x ∧ requires d service ∧ y ∈ providers_of ds service.

Definition declared (ds : list ServiceDeclaration) (x : string) : Prop := x ∈ sd_id <$> ds.

(** A service of its own is provided more than once. *)
Definition conflicting (ds : list ServiceDeclaration) (x : string) : Prop :=
  ∃ service, x ∈ providers_of ds service ∧ 1 < length (providers_of ds service).
(** A service it requires is not provided. *)
Definition lacking (ds : list ServiceDeclaration) (x : string) : Prop :=
  ∃ d service, d ∈ ds ∧ sd_id d = x ∧ requires d service ∧ providers_of ds service = [].

Lemma providers_declared ds service x : x ∈ providers_of ds service → declared ds x.
Proof.
  unfold providers_of, declared. rewrite list_elem_of_bind. intros (d&Hx&Hd).
  apply list_elem_of_fmap in Hx as (?&->&_). by apply list_elem_of_fmap_2.
Qed.

Lemma collect_services ps id services service :
  foldl (λ ps s, provider_push s id ps) ps services !! service =
  match ps !! service, (λ _, id) <$> filter (λ s, s = service) services with
  | None, [] => None
  | o, l => Some (default [] o ++ l)
  end.
Proof.
  revert ps. induction services as [|s services IH]; intros ps; csimpl.
  { destruct (ps !! service); simpl; by rewrite ?app_nil_r. }
  rewrite IH. unfold provider_push. rewrite filter_cons. case_decide as Hs; csimpl.
  - subst. rewrite lookup_insert_eq. destruct (ps !! service); simpl; by rewrite <-?app_assoc.
  - by rewrite lookup_insert_ne.
Qed.

Lemma collect_providers_from ps ds service :
  foldl (λ ps d, foldl (λ ps s, provider_push s (sd_id d) ps) ps (sd_services d)) ps ds !! service =
  match ps !! service, providers_of ds service with
  | None, [] => None
  | o, l => Some (default [] o ++ l)
  end.
Proof.
  revert ps. induction ds as [|d ds IH]; intros ps; simpl.
  { destruct (ps !! service); simpl; by rewrite ?app_nil_r. }
  rewrite IH, collect_services. unfold providers_of at 3. csimpl. fold (providers_of ds service).
  destruct (ps !! service), ((λ _, sd_id d) <$> _), (providers_of ds service); simpl; by rewrite <-?app_assoc, ?app_nil_r.
Qed.

Lemma provider_get_spec ds service :
  collect_providers ds !! service = match providers_of ds service with [] => None | l => Some l end.
Proof. unfold collect_providers. rewrite collect_providers_from, lookup_empty. by destruct (providers_of ds service). Qed.

(** ** Folds of edges and of reasons *)

Lemma edge_list_insert m k v x : edge_list (<[k := v]> m) x = if decide (x = k) then v else edge_list m x.
Proof. unfold edge_list. case_decide; [by subst; rewrite lookup_insert_eq|by rewrite lookup_insert_ne]. Qed.

Lemma add_edge_spec k v m x y : y ∈ edge_list (add_edge k v m) x ↔ (x = k ∧ y = v) ∨ y ∈ edge_list m x.
Proof.
  unfold add_edge. rewrite edge_list_insert. case_decide; [subst; rewrite elem_of_btree_insert|]; naive_solver.
Qed.

Lemma add_parents_spec id ids m x y :
  y ∈ edge_list (foldl (λ m p, add_edge id p m) m ids) x ↔ (x = id ∧ y ∈ ids) ∨ y ∈ edge_list m x.
Proof. revert m. induction ids as [|i ids IH]; intros m; simpl; [set_solver|]. rewrite IH, add_edge_spec. set_solver. Qed.

Lemma add_dependents_spec id ids m x y :
  y ∈ edge_list (foldl (λ m p, add_edge p id m) m ids) x ↔ (y = id ∧ x ∈ ids) ∨ y ∈ edge_list m x.
Proof. revert m. induction ids as [|i ids IH]; intros m; simpl; [set_solver|]. rewrite IH, add_edge_spec. set_solver. Qed.

Lemma block_spec id reason b x : is_Some (block id reason b !! x) ↔ x = id ∨ is_Some (b !! x).
Proof. unfold block. rewrite lookup_insert_is_Some. destruct (decide (id = x)); naive_solver. Qed.

Lemma block_all_spec reason ids b x :
  is_Some (foldl (λ b id, block id reason b) b ids !! x) ↔ x ∈ ids ∨ is_Some (b !! x).
Proof. revert b. induction ids as [|i ids IH]; intros b; simpl; [set_solver|]. rewrite IH, block_spec. set_solver. Qed.

Lemma block_conflicts_spec ds x : is_Some (block_conflicts (collect_providers ds) !! x) ↔ conflicting ds x.
Proof.
  unfold block_conflicts. set (b0 := ∅ : Blocked).
  assert (∀ l b, is_Some (foldl (λ b '(service, ids), if bool_decide (1 < length ids) then
      foldl (λ b id, block id (ProviderConflict service ids) b) b ids else b) b l !! x)
    ↔ (∃ s ids, (s, ids) ∈ l ∧ 1 < length ids ∧ x ∈ ids) ∨ is_Some (b !! x)) as ->.
  { intros l. induction l as [|[s ids] l IH]; intros b; simpl; [set_solver|]. rewrite IH.
    setoid_rewrite elem_of_cons. case_bool_decide; rewrite ?block_all_spec; naive_solver. }
  unfold entries. setoid_rewrite (merge_sort_Permutation _ (map_to_list _)). setoid_rewrite elem_of_map_to_list.
  setoid_rewrite provider_get_spec. unfold b0. rewrite lookup_empty, is_Some_alt. unfold conflicting. split.
  - intros [(s&ids&H&Hl&Hx)|[]]. exists s. destruct (providers_of ds s); [done|]. injection H as <-. by split.
  - intros (s&Hx&Hl). left. exists s, (providers_of ds s). destruct (providers_of ds s); [by apply not_elem_of_nil in Hx|done].
Qed.

(** What one list of declarations adds to the edges and the reasons, with the providers of all. *)
Section linking.
  Context (all : list ServiceDeclaration).

Definition asks (ds : list ServiceDeclaration) (x y : string) : Prop :=
  ∃ d service, d ∈ ds ∧ sd_id d = x ∧ requires d service ∧ y ∈ providers_of all service.
Definition asks_nobody (ds : list ServiceDeclaration) (x : string) : Prop :=
  ∃ d service, d ∈ ds ∧ sd_id d = x ∧ requires d service ∧ providers_of all service = [].

Record linked (x_asks : string → string → Prop) (x_nobody : string → Prop) (st0 st : Edges * Edges * Blocked) : Prop := {
  lk_parents : ∀ x y, y ∈ edge_list st.1.1 x ↔ x_asks x y ∨ y ∈ edge_list st0.1.1 x;
  lk_dependents : ∀ x y, x ∈ edge_list st.1.2 y ↔ x_asks x y ∨ x ∈ edge_list st0.1.2 y;
  lk_blocked : ∀ x, is_Some (st.2 !! x) ↔ x_nobody x ∨ is_Some (st0.2 !! x);
  lk_keys : ∀ x, (is_Some (st0.1.1 !! x) → is_Some (st.1.1 !! x)) ∧
                 (is_Some (st.1.1 !! x) → is_Some (st0.1.1 !! x) ∨ ∃ y, x_asks x y);
}.

Lemma linked_trans a1 n1 a2 n2 s0 s1 s2 :
  linked a1 n1 s0 s1 → linked a2 n2 s1 s2 → linked (λ x y, a1 x y ∨ a2 x y) (λ x, n1 x ∨ n2 x) s0 s2.
Proof.
  intros [A1 A2 A3 A4] [B1 B2 B3 B4]. constructor; intros.
  - rewrite B1, A1. tauto.
  - rewrite B2, A2. tauto.
  - rewrite B3, A3. tauto.
  - destruct (A4 x), (B4 x). naive_solver.
Qed.

Lemma linked_ext a1 n1 a2 n2 s0 s1 :
  (∀ x y, a1 x y ↔ a2 x y) → (∀ x, n1 x ↔ n2 x) → linked a1 n1 s0 s1 → linked a2 n2 s0 s1.
Proof.
  intros Ha Hn [A1 A2 A3 A4]. constructor; intros; rewrite ?A1, ?A2, ?A3, ?Ha, ?Hn; try done.
  destruct (A4 x) as [? K]. split; [done|]. intros [?|[y ?%Ha]]%K; eauto.
Qed.

Lemma add_parents_keys id ids (m : Edges) x :
  (is_Some (m !! x) → is_Some (foldl (λ m p, add_edge id p m) m ids !! x)) ∧
  (is_Some (foldl (λ m p, add_edge id p m) m ids !! x) → is_Some (m !! x) ∨ (x = id ∧ ids ≠ [])).
Proof.
  revert m. induction ids as [|p ids IH]; intros m; simpl; [auto|].
  destruct (IH (add_edge id p m)) as [H1 H2]. unfold add_edge in *. rewrite lookup_insert_is_Some in H1, H2.
  destruct (decide (id = x)); naive_solver.
Qed.

Lemma link_spec id st dep :
  linked (λ x y, x = id ∧ dep_kind dep = Dep_Required ∧ y ∈ providers_of all (dep_service dep))
    (λ x, x = id ∧ dep_kind dep = Dep_Required ∧ providers_of all (dep_service dep) = []) st
    (link (collect_providers all) id st dep).
Proof.
  destruct st as [[P D] B]. unfold link. rewrite provider_get_spec.
  case_bool_decide as Hk; [|constructor; simpl; intros; tauto].
  destruct (providers_of all (dep_service dep)) as [|p ids] eqn:Hp.
  - constructor; simpl; intros; [set_solver|set_solver|rewrite block_spec; naive_solver|naive_solver].
  - constructor; simpl fst; simpl snd; intros.
    + rewrite add_parents_spec, add_edge_spec, elem_of_cons. tauto.
    + rewrite add_dependents_spec, add_edge_spec, elem_of_cons. tauto.
    + split; [by right|]. by intros [(_&_&?)|?].
    + destruct (add_parents_keys id (p :: ids) P x) as [H1 H2]. split; [done|]. intros [?|[-> _]]%H2; [by left|right].
      exists p. split_and!; [done|done|set_solver].
Qed.

Lemma link_deps_spec id st deps :
  linked (λ x y, ∃ dep, dep ∈ deps ∧ x = id ∧ dep_kind dep = Dep_Required ∧ y ∈ providers_of all (dep_service dep))
    (λ x, ∃ dep, dep ∈ deps ∧ x = id ∧ dep_kind dep = Dep_Required ∧ providers_of all (dep_service dep) = []) st
    (foldl (link (collect_providers all) id) st deps).
Proof.
  revert st. induction deps as [|dep deps IH]; intros st; simpl; [constructor; set_solver|].
  eapply linked_ext; [..|eapply linked_trans; [apply link_spec|apply IH]]; set_solver.
Qed.

Lemma link_all_spec st ds :
  linked (asks ds) (asks_nobody ds) st (link_all (collect_providers all) ds st).
Proof.
  unfold link_all. revert st. induction ds as [|d ds IH]; intros st; simpl.
  { constructor; unfold asks, asks_nobody; set_solver. }
  eapply linked_ext; [..|eapply linked_trans; [apply link_deps_spec|apply IH]];
    unfold asks, asks_nobody, requires; intros; setoid_rewrite elem_of_cons; naive_solver.
Qed.
End linking.

Lemma declare_parents_spec ds x :
  edge_list (declare_parents ds) x = [] ∧ (is_Some (declare_parents ds !! x) ↔ declared ds x).
Proof.
  unfold declare_parents, declared.
  assert (∀ m : Edges, (∀ x, edge_list m x = []) →
    edge_list (foldl (λ m d, <[sd_id d := edge_list m (sd_id d)]> m) m ds) x = [] ∧
    (is_Some (foldl (λ m d, <[sd_id d := edge_list m (sd_id d)]> m) m ds !! x) ↔ is_Some (m !! x) ∨ x ∈ sd_id <$> ds)) as H.
  { induction ds as [|d ds IH]; intros m Hm; csimpl; [set_solver|].
    destruct (IH (<[sd_id d := edge_list m (sd_id d)]> m)) as [H1 H2].
    { intros z. rewrite edge_list_insert. by case_decide. }
    split; [done|]. rewrite H2, lookup_insert_is_Some, elem_of_cons. destruct (decide (sd_id d = x)); naive_solver. }
  destruct (H ∅) as [H1 H2]; [done|]. split; [done|]. rewrite H2, lookup_empty, is_Some_alt. tauto.
Qed.

(** The graph of the plan and the reasons found before cycles. *)
Record graph (ds : list ServiceDeclaration) (P D : Edges) (B : Blocked) : Prop := {
  gr_parents : ∀ x y, edge P x y ↔ needs ds x y;
  gr_dependents : ∀ x y, edge D y x ↔ needs ds x y;
  gr_blocked : ∀ x, is_Some (B !! x) ↔ conflicting ds x ∨ lacking ds x;
  gr_keys : ∀ x, is_Some (P !! x) ↔ declared ds x;
}.

Lemma graph_spec ds P D B :
  link_all (collect_providers ds) ds (declare_parents ds, ∅, block_conflicts (collect_providers ds)) = (P, D, B) →
  graph ds P D B.
Proof.
  intros E. destruct (link_all_spec ds (declare_parents ds, ∅, block_conflicts (collect_providers ds)) ds) as [A1 A2 A3 A4].
  rewrite E in *. simpl in *. constructor; unfold edge.
  - intros x y. rewrite A1, (proj1 (declare_parents_spec ds x)). split; [|by left].
    by intros [?|?%not_elem_of_nil].
  - intros x y. rewrite A2. unfold edge_list. rewrite lookup_empty. split; [|by left].
    by intros [?|?%not_elem_of_nil].
  - intros x. rewrite A3, block_conflicts_spec. unfold asks_nobody, lacking. tauto.
  - intros x. destruct (A4 x) as [K1 K2]. rewrite (proj2 (declare_parents_spec ds x)) in K1, K2. split; [|done].
    intros [?|(y&d&s&Hd&<-&_)]%K2; [done|]. by apply list_elem_of_fmap_2.
Qed.

(** ** Cycles *)

Section cycles.
  Context (R : string → string → Prop).

Definition scc (x y : string) : Prop := rtc R x y ∧ rtc R y x.

Lemma scc_cyclic x y : scc x y → tc R x x → tc R y y.
Proof. intros [Hxy Hyx] Hx. eapply tc_rtc_l; [done|]. by eapply tc_rtc_r. Qed.

Lemma scc_trans x y z : scc x y → scc y z → scc x z.
Proof. intros [] []. split; by etrans. Qed.

(** A set in which everyone has a successor holds a cycle. *)
Fixpoint chain (x : string) (path : list string) : Prop :=
  match path with [] => True | y :: path => R x y ∧ chain y path end.

Lemma chain_tc x path z : chain x path → z ∈ path → tc R x z.
Proof.
  revert x. induction path as [|y path IH]; intros x; simpl; [set_solver|].
  intros [Hxy Hc] [->|Hz]%elem_of_cons; [by apply tc_once|]. eapply tc_l; [done|]. by apply IH.
Qed.

Lemma chain_repeats x path : chain x path → ¬ NoDup (x :: path) → ∃ z, z ∈ x :: path ∧ tc R z z.
Proof.
  revert x. induction path as [|y path IH]; intros x Hc Hn.
  { destruct Hn. apply NoDup_singleton. }
  destruct (decide (x ∈ y :: path)) as [Hx|Hx]; [exists x; split; [set_solver|by eapply chain_tc]|].
  destruct (IH y) as (z&Hz&?); [apply Hc|by intros Hd; apply Hn, NoDup_cons|]. exists z. split; [set_solver|done].
Qed.

Lemma chain_within (l : list string) n x :
  x ∈ l → (∀ x, x ∈ l → ∃ y, y ∈ l ∧ R x y) → ∃ path, length path = n ∧ (∀ y, y ∈ path → y ∈ l) ∧ chain x path.
Proof.
  intros Hx Hl. revert x Hx. induction n as [|n IH]; intros x Hx; [exists []; set_solver|].
  destruct (Hl x Hx) as (y&Hy&Hxy). destruct (IH y Hy) as (path&<-&Hp&Hc). exists (y :: path). set_solver.
Qed.

Lemma finite_cycle (l : list string) x : x ∈ l → (∀ x, x ∈ l → ∃ y, y ∈ l ∧ R x y) → ∃ z, z ∈ l ∧ tc R z z.
Proof.
  intros Hx Hl. destruct (chain_within l (length l) x Hx Hl) as (path&Hlen&Hp&Hc).
  destruct (chain_repeats x path Hc) as (z&Hz&?); [|exists z; set_solver].
  intros Hd. assert (x :: path ⊆+ l) as Hs%submseteq_length by (apply NoDup_submseteq; set_solver). simpl in Hs. lia.
Qed.
End cycles.

Lemma btree_insert_nodup x l : x ∉ l → NoDup l → NoDup (btree_insert x l).
Proof.
  intros Hx Hl. induction Hl as [|y l Hy Hl IH]; simpl; [apply NoDup_singleton|]. repeat case_decide; subst; [set_solver|..].
  - rewrite !NoDup_cons. set_solver.
  - apply NoDup_cons. rewrite elem_of_btree_insert. split; [set_solver|]. apply IH. set_solver.
Qed.

Lemma reach_loop_nodup fuel edges pending visited l :
  NoDup visited → reach_loop fuel edges pending visited = Some l → NoDup l.
Proof.
  revert pending visited. induction fuel as [|fuel IH]; intros [|id pending] visited Hv; simpl; try by intros [= <-].
  case_bool_decide; [by apply IH|]. apply IH. by apply btree_insert_nodup.
Qed.

Section finding.
  Context (P D : Edges).
  Hypothesis mirror : ∀ x y, edge D y x ↔ edge P x y.
  Abbreviation R := (edge P).

Lemma rtc_mirror x y : rtc (edge D) x y ↔ rtc R y x.
Proof.
  split; induction 1 as [|a b c Hab _ IH]; try done.
  - eapply rtc_r; [done|]. by apply mirror.
  - eapply rtc_r; [done|]. by apply mirror.
Qed.

(** What is known after some ids were looked at. *)
Definition found (B0 : Blocked) (st : list string * Blocked) : Prop :=
  (∀ x y, x ∈ st.1 → scc R x y → y ∈ st.1) ∧
  (∀ x, is_Some (st.2 !! x) ↔ is_Some (B0 !! x) ∨ (x ∈ st.1 ∧ tc R x x)).

Lemma assigned_spec ms (a : list string) x : x ∈ foldl (λ a m, btree_insert m a) a ms ↔ x ∈ a ∨ x ∈ ms.
Proof. revert a. induction ms as [|m ms IH]; intros a; simpl; [set_solver|]. rewrite IH, elem_of_btree_insert. set_solver. Qed.

Lemma cyclic_members members id :
  NoDup members → (∀ x, x ∈ members ↔ scc R id x) → 1 < length members ∨ id ∈ edge_list P id ↔ tc R id id.
Proof.
  intros Hd Hm. assert (id ∈ members) as Hid by (apply Hm; split; done). split.
  - intros [Hl|Hs]; [|by apply tc_once].
    assert (∃ y, y ∈ members ∧ y ≠ id) as (y&[Hy1 Hy2]%Hm&Hne).
    { destruct members as [|a [|b members]]; simpl in Hl; [lia..|].
      apply NoDup_cons in Hd as [Ha _]. destruct (decide (a = id)) as [->|]; [exists b|exists a]; set_solver. }
    apply rtc_inv in Hy1 as [?|(z&Hz&Hzy)]; [congruence|]. eapply tc_rtc_r; [|done]. by eapply tc_rtc_r; [apply tc_once|].
  - intros Hc. assert (∃ y, R id y ∧ rtc R y id) as (y&Hy&Hback)
      by (inversion Hc; subst; eauto using tc_rtc).
    destruct (decide (y = id)) as [->|Hne]; [by right|left].
    assert (y ∈ members) as Hym by (apply Hm; split; [by apply rtc_once|done]).
    destruct members as [|a [|b members]]; [set_solver| |simpl; lia]. set_solver.
Qed.

Lemma find_cycle_spec B0 st id :
  found B0 st → ∃ st', find_cycle P D st id = Some st' ∧ found B0 st' ∧ id ∈ st'.1 ∧ ∀ x, x ∈ st.1 → x ∈ st'.1.
Proof.
  intros [F1 F2]. destruct st as [assigned blocked]. unfold find_cycle.
  case_bool_decide as Hid; [by exists (assigned, blocked)|].
  destruct (reachable_spec P [id]) as (forward&Hf&Hforward), (reachable_spec D [id]) as (backward&Hb&Hbackward).
  rewrite Hf, Hb. set (members := filter (λ x, x ∈ backward) forward).
  assert (∀ x, x ∈ members ↔ scc R id x) as Hm.
  { intros x. unfold members, scc. rewrite list_elem_of_filter, Hforward, Hbackward. setoid_rewrite rtc_mirror. set_solver. }
  assert (NoDup members) as Hnd.
  { apply NoDup_filter. unfold reachable in Hf. eapply reach_loop_nodup; [|done]. constructor. }
  pose proof (cyclic_members members id Hnd Hm) as Hc. eexists. split; [done|]. split_and!; [split|..]; simpl in *.
  - intros x y. rewrite !assigned_spec, !Hm. intros [Hx|Hx] Hy; [left; by eapply F1|right; by eapply scc_trans].
  - intros x. rewrite assigned_spec, Hm. destruct (bool_decide (1 < length members) || bool_decide (id ∈ edge_list P id)) eqn:E.
    + apply orb_true_iff in E. rewrite !bool_decide_eq_true, Hc in E. rewrite block_all_spec, Hm, F2.
      split; [|tauto]. intros [Hx|?]; [|tauto]. right. split; [tauto|]. by eapply scc_cyclic.
    + apply orb_false_iff in E. rewrite !bool_decide_eq_false in E. rewrite F2. split; [tauto|].
      intros [?|[[?|Hx] Ht]]; [tauto|tauto|]. exfalso.
      assert (tc R id id) by (eapply scc_cyclic; [|done]; split; apply Hx). tauto.
  - apply assigned_spec. right. apply Hm. by split.
  - intros x Hx. apply assigned_spec. by left.
Qed.

Lemma find_cycles_spec B0 ids st :
  found B0 st → ∃ st', find_cycles P D ids st = Some st' ∧ found B0 st' ∧
    (∀ x, x ∈ ids ∨ x ∈ st.1 → x ∈ st'.1).
Proof.
  revert st. induction ids as [|id ids IH]; intros st Hs; simpl; [exists st; set_solver|].
  destruct (find_cycle_spec B0 st id Hs) as (st1&->&Hs1&Hid&Hsub). destruct (IH st1 Hs1) as (st2&->&Hs2&Hall).
  exists st2. split_and!; [done|done|]. intros x Hx. apply Hall. set_solver.
Qed.
End finding.

(** ** Propagation *)

Definition slots (m : Edges) : list string := (map_to_list m).*2 ≫= id.
Definition unblocked_slots (m : Edges) (b : Blocked) : nat := length (filter (λ c, b !! c = None) (slots m)).

Lemma slots_length m : length (slots m) = edge_count m.
Proof.
  unfold slots, edge_count. generalize (map_to_list m). intros l. induction l as [|[k v] l IH]; csimpl; [done|].
  rewrite length_app, IH. done.
Qed.

Lemma edge_slot m x y : edge m x y → y ∈ slots m.
Proof.
  unfold edge, edge_list, slots. destruct (m !! x) as [l|] eqn:E; simpl; [|set_solver]. intros Hy.
  apply list_elem_of_bind. exists l. split; [done|]. apply list_elem_of_fmap. exists (x, l).
  by rewrite elem_of_map_to_list.
Qed.

Lemma filter_less {A} (P Q : A → Prop) `{!∀ x, Decision (P x), !∀ x, Decision (Q x)} l c :
  (∀ x, Q x → P x) → c ∈ l → P c → ¬ Q c → length (filter Q l) < length (filter P l).
Proof.
  intros HPQ Hc HP HQ. induction l as [|x l IH]; [set_solver|]. rewrite !filter_cons.
  assert (length (filter Q l) ≤ length (filter P l)).
  { clear -HPQ. induction l as [|y l IH]; [done|]. rewrite !filter_cons.
    repeat case_decide; simpl; naive_solver lia. }
  apply elem_of_cons in Hc as [->|Hc]; [by rewrite decide_False, decide_True by done; simpl; lia|].
  specialize (IH Hc). repeat case_decide; simpl; naive_solver lia.
Qed.

Lemma block_consumers_spec m provider l pending blocked :
  (∀ c, c ∈ l → edge m provider c) →
  let '(pending', blocked') := foldl (block_consumer provider) (pending, blocked) l in
  length pending' + unblocked_slots m blocked' ≤ length pending + unblocked_slots m blocked ∧
  (∀ x, is_Some (blocked' !! x) ↔ is_Some (blocked !! x) ∨ x ∈ l) ∧
  (∀ x, x ∈ pending' ↔ x ∈ pending ∨ (x ∈ l ∧ blocked !! x = None)).
Proof.
  revert pending blocked. induction l as [|c l IH]; intros pending blocked Hl; simpl.
  { split_and!; [lia|set_solver|set_solver]. }
  destruct (blocked !! c) as [rs|] eqn:Hc.
  - specialize (IH pending blocked). destruct (foldl _ _ _) as [pending' blocked'].
    destruct IH as (I1&I2&I3); [set_solver|]. split_and!; [done|..].
    + intros x. rewrite I2, elem_of_cons. split; [tauto|]. intros [?|[->|?]]; [tauto|left; by rewrite Hc|tauto].
    + intros x. rewrite I3, elem_of_cons. split; [tauto|]. intros [?|[[->|?] ?]]; [tauto|congruence|tauto].
  - specialize (IH (c :: pending) (<[c := [DependencyBlocked provider]]> blocked)).
    destruct (foldl _ _ _) as [pending' blocked']. destruct IH as (I1&I2&I3); [set_solver|].
    assert (unblocked_slots m (<[c := [DependencyBlocked provider]]> blocked) < unblocked_slots m blocked).
    { apply (filter_less _ _ _ c); [|eapply edge_slot, Hl; set_solver|done|by rewrite lookup_insert_eq].
      intros x. rewrite lookup_insert_None. tauto. }
    split_and!; [simpl in I1; lia|..].
    + intros x. rewrite I2, lookup_insert_is_Some, elem_of_cons. destruct (decide (c = x)); naive_solver.
    + intros x. rewrite I3, !elem_of_cons, lookup_insert_None. destruct (decide (c = x)); naive_solver.
Qed.

Lemma propagate_spec fuel m pending blocked :
  length pending + unblocked_slots m blocked ≤ fuel →
  (∀ x, x ∈ pending → is_Some (blocked !! x)) →
  (∀ p c, is_Some (blocked !! p) → edge m p c → p ∈ pending ∨ is_Some (blocked !! c)) →
  ∃ b, propagate fuel m pending blocked = Some b ∧
    (∀ x, is_Some (blocked !! x) → is_Some (b !! x)) ∧
    (∀ p c, is_Some (b !! p) → edge m p c → is_Some (b !! c)) ∧
    (∀ x, is_Some (b !! x) → ∃ p, is_Some (blocked !! p) ∧ rtc (edge m) p x).
Proof.
  revert pending blocked. induction fuel as [|fuel IH]; intros [|provider pending] blocked Hf Hp Hc; simpl in *; try lia.
  1, 2: exists blocked; split_and!; [done|done|intros p c Hb He; by destruct (Hc p c Hb He) as [?%not_elem_of_nil|]|eauto using rtc_refl].
  pose proof (block_consumers_spec m provider (edge_list m provider) pending blocked (λ c H, H)) as Hs.
  destruct (foldl _ _ _) as [pending' blocked']. destruct Hs as (S1&S2&S3).
  destruct (IH pending' blocked') as (b&Hb&B1&B2&B3); [lia|..].
  - intros x [Hx|[Hx _]]%S3; apply S2; [left; apply Hp; set_solver|by right].
  - intros p c Hbp He. rewrite S3, S2. apply S2 in Hbp as [Hbp|Hbp].
    + destruct (Hc p c Hbp He) as [[->|?]%elem_of_cons|?]; [by right; right|tauto|tauto].
    + destruct (blocked !! p) eqn:E; [|tauto].
      destruct (Hc p c ltac:(by rewrite E) He) as [[->|?]%elem_of_cons|?]; [by right; right|tauto|tauto].
  - exists b. split_and!; [done|intros x Hx; apply B1, S2; tauto|done|].
    intros x (p&[Hbp|Hbp]%S2&Hx)%B3; [by exists p|]. exists provider. split; [apply Hp; set_solver|]. by eapply rtc_l.
Qed.

(** ** The order *)

Lemma find_first_spec {A} (p : A → bool) l :
  match find_first p l with Some x => x ∈ l ∧ p x = true | None => ∀ x, x ∈ l → p x = false end.
Proof.
  induction l as [|x l IH]; simpl; [set_solver|]. destruct (p x) eqn:E; [split; [set_solver|done]|].
  destruct (find_first p l); [destruct IH; split; [set_solver|done]|set_solver].
Qed.

Lemma ready_spec P b order d :
  ready P b order d = true ↔ b !! sd_id d = None ∧ (sd_id d ∉ order) ∧ ∀ p, edge P (sd_id d) p → p ∈ order.
Proof.
  unfold ready, edge. rewrite !andb_true_iff, !bool_decide_eq_true, forallb_forall. split.
  - intros [[? ?] Hall]. split_and!; [done|done|]. intros p Hp%list_elem_of_In%Hall. by bools.
  - intros (?&?&Hall). split_and!; [done|done|]. intros p Hp%list_elem_of_In%Hall. by apply bool_decide_eq_true.
Qed.

Definition topological (P : Edges) (order : list string) : Prop :=
  ∀ l1 id l2, order = l1 ++ id :: l2 → ∀ p, edge P id p → p ∈ l1.

Lemma order_loop_spec fuel ds P b order :
  length ds ≤ length order + fuel → NoDup order → (∀ x, x ∈ order → declared ds x ∧ b !! x = None) → topological P order →
  ∃ o, order_loop fuel ds P b order = Some o ∧ NoDup o ∧ (∀ x, x ∈ o → declared ds x ∧ b !! x = None) ∧
    topological P o ∧ ∀ d, d ∈ ds → ready P b o d = false.
Proof.
  revert order. induction fuel as [|fuel IH]; intros order Hf Hn Ho Ht; simpl;
    pose proof (find_first_spec (ready P b order) ds) as Hfind; destruct (find_first _ ds) as [d|]; try by exists order.
  all: destruct Hfind as [Hd (Hb&Hnew&Hp)%ready_spec].
  all: assert (NoDup (order ++ [sd_id d])) as Hn'
    by (apply NoDup_app; split_and!; [done|set_solver|apply NoDup_singleton]).
  all: assert (∀ x, x ∈ order ++ [sd_id d] → declared ds x ∧ b !! x = None) as Ho'.
  1, 3: intros x [?| ->%list_elem_of_singleton]%elem_of_app; [auto|split; [by apply list_elem_of_fmap_2|done]].
  - assert (order ++ [sd_id d] ⊆+ sd_id <$> ds) as Hs%submseteq_length.
    { apply NoDup_submseteq; [done|]. intros x Hx. by apply Ho'. }
    rewrite length_app, length_fmap in Hs. simpl in Hs. lia.
  - apply IH; [rewrite length_app; simpl; lia|done|done|]. intros l1 id l2 E p He.
    destruct l2 as [|y l2 _] using rev_ind.
    + apply app_inj_tail in E as [-> <-]. by apply Hp.
    + rewrite app_comm_cons, app_assoc in E. apply app_inj_tail in E as [E _]. by eapply Ht.
Qed.

Lemma keys_spec {A} (m : gmap string A) x : x ∈ keys m ↔ is_Some (m !! x).
Proof.
  unfold keys. rewrite elem_of_btree_collect, list_elem_of_fmap. split.
  - intros ([k v]&->&H%elem_of_map_to_list). eauto.
  - intros [v H]. exists (x, v). by rewrite elem_of_map_to_list.
Qed.

Lemma btree_insert_length x l : length (btree_insert x l) ≤ S (length l).
Proof. induction l as [|y l IH]; simpl; repeat case_decide; simpl; lia. Qed.

Lemma keys_length {A} (m : gmap string A) : length (keys m) ≤ size m.
Proof.
  unfold keys. rewrite <-length_map_to_list, <-(length_fmap fst). generalize ((map_to_list m).*1). intros l.
  induction l as [|x l IH]; simpl; [lia|]. pose proof (btree_insert_length x (btree_collect l)). unfold btree_collect in *. lia.
Qed.

Lemma rtc_iff {A} (R S : A → A → Prop) x y : (∀ a b, R a b ↔ S a b) → rtc R x y ↔ rtc S x y.
Proof.
  intros H. split; induction 1 as [|a b c Hab _ IH]; try done; (eapply rtc_l; [by apply H|done]).
Qed.
Lemma tc_iff {A} (R S : A → A → Prop) x y : (∀ a b, R a b ↔ S a b) → tc R x y ↔ tc S x y.
Proof.
  intros H. split; induction 1 as [a b Hab|a b c Hab _ IH]; try (apply tc_once; by apply H); (eapply tc_l; [by apply H|done]).
Qed.

(** ** The plan *)

Definition root_cause (ds : list ServiceDeclaration) (x : string) : Prop :=
  conflicting ds x ∨ lacking ds x ∨ tc (needs ds) x x.

Lemma needs_declared ds x y : needs ds x y → declared ds x ∧ declared ds y.
Proof. intros (d&s&Hd&<-&_&Hy). split; [by apply list_elem_of_fmap_2|by eapply providers_declared]. Qed.

Lemma cause_declared ds x : root_cause ds x → declared ds x.
Proof.
  intros [(s&Hx&_)|[(d&s&Hd&<-&_)|Ht]]; [by eapply providers_declared|by apply list_elem_of_fmap_2|].
  assert (∃ y, needs ds x y) as [y Hy%needs_declared] by (inversion Ht; eauto). apply Hy.
Qed.

(** What blocks an extension follows what it needs down to a cause. *)
Lemma blocked_spec ds P D B (B1 B2 : Blocked) :
  graph ds P D B →
  (∀ x, is_Some (B1 !! x) ↔ is_Some (B !! x) ∨ tc (edge P) x x) →
  (∀ x, is_Some (B1 !! x) → is_Some (B2 !! x)) →
  (∀ p c, is_Some (B2 !! p) → edge D p c → is_Some (B2 !! c)) →
  (∀ x, is_Some (B2 !! x) → ∃ p, is_Some (B1 !! p) ∧ rtc (edge D) p x) →
  ∀ x, is_Some (B2 !! x) ↔ ∃ y, rtc (needs ds) x y ∧ root_cause ds y.
Proof.
  intros [G1 G2 G3 G4] H1 Hsub Hclosed Hsound.
  assert (∀ x, is_Some (B1 !! x) ↔ root_cause ds x) as Hroot.
  { intros x. rewrite H1, G3, (tc_iff _ _ x x G1). unfold root_cause. tauto. }
  assert (∀ x y, edge D y x ↔ edge P x y) as Hmirror by (intros; by rewrite G1, G2).
  intros x. split.
  - intros (p&Hp%Hroot&Hx)%Hsound. exists p. split; [|done]. apply (rtc_iff _ _ _ _ G1). by apply (rtc_mirror P D Hmirror).
  - intros (y&Hxy&Hy%Hroot%Hsub). induction Hxy as [|a b c Hab _ IH]; [done|]. eapply Hclosed; [by apply IH|]. by apply G2.
Qed.

(** Once no extension is ready, every one that is not blocked has been ordered. *)
Lemma order_complete ds P D B (blocked : Blocked) order :
  graph ds P D B → (∀ x, is_Some (blocked !! x) ↔ ∃ y, rtc (needs ds) x y ∧ root_cause ds y) →
  (∀ d, d ∈ ds → ready P blocked order d = false) →
  ∀ x, declared ds x → blocked !! x = None → x ∈ order.
Proof.
  intros [G1 G2 G3 G4] Hb Hr x Hx Hnb. destruct (decide (x ∈ order)) as [|Hno]; [done|exfalso].
  set (rest := filter (λ x, blocked !! x = None ∧ x ∉ order) (sd_id <$> ds)).
  destruct (finite_cycle (needs ds) rest x) as (z&Hz&Hcycle).
  - apply list_elem_of_filter. done.
  - intros y [[Hy1 Hy2] (d&->&Hd)%list_elem_of_fmap]%list_elem_of_filter.
    assert (¬ ∀ p, edge P (sd_id d) p → p ∈ order) as Hex.
    { intros Hall. specialize (Hr d Hd). apply not_true_iff_false in Hr. apply Hr, ready_spec. done. }
    assert (∃ p, p ∈ edge_list P (sd_id d) ∧ p ∉ order) as (p&Hp&Hpo).
    { destruct (decide (Forall (λ p, p ∈ order) (edge_list P (sd_id d)))) as [Hall|Hn%not_Forall_Exists];
        [|by apply Exists_exists in Hn|apply _].
      destruct Hex. intros p Hp. by eapply Forall_forall in Hall. }
    exists p. apply G1 in Hp as Hneed. split; [|done]. apply list_elem_of_filter. split; [split; [|done]|by eapply needs_declared].
    apply eq_None_not_Some. intros (w&Hw&Hc)%Hb. rewrite eq_None_not_Some in Hy1. apply Hy1, Hb.
    exists w. split; [by eapply rtc_l|done].
  - apply list_elem_of_filter in Hz as [[Hz _] _]. rewrite eq_None_not_Some in Hz. apply Hz, Hb.
    exists z. split; [done|]. right. by right.
Qed.

(** C26. The plan of a set of extensions: it is always found; every declared extension is in the order or blocked, and
    never both; the order has no extension twice and every extension after all that provide what it requires; an
    extension is blocked exactly when, following what extensions require, it leads to one that lacks a service, has a
    service provided twice, or is part of a cycle; and the extensions affected by others are those that lead to them. *)
Theorem plan_starts_providers_first ds :
  ∃ plan, analyze ds = Some plan ∧
    (∀ x, declared ds x ↔ x ∈ dp_order plan ∨ is_Some (dp_blocked plan !! x)) ∧
    (∀ x, x ∈ dp_order plan → dp_blocked plan !! x = None) ∧ NoDup (dp_order plan) ∧
    (∀ l1 x l2, dp_order plan = l1 ++ x :: l2 → ∀ p, needs ds x p → p ∈ l1) ∧
    (∀ x, is_Some (dp_blocked plan !! x) ↔ ∃ y, rtc (needs ds) x y ∧ root_cause ds y) ∧
    (∀ roots, ∃ l, affected plan roots = Some l ∧ ∀ x, x ∈ l ↔ ∃ r, r ∈ roots ∧ rtc (needs ds) x r).
Proof.
  unfold analyze. destruct (link_all _ _ _) as [[P D] B] eqn:E. apply graph_spec in E as G.
  assert (∀ x y, edge D y x ↔ edge P x y) as Hmirror by (intros; by rewrite (gr_parents _ _ _ _ G), (gr_dependents _ _ _ _ G)).
  destruct (find_cycles_spec P D Hmirror B (keys P) ([], B)) as ([a B1]&->&[F1 F2]&F3).
  { split; simpl; [set_solver|]. intros x. split; [by left|]. by intros [?|[?%not_elem_of_nil _]]. }
  assert (∀ x, is_Some (B1 !! x) ↔ is_Some (B !! x) ∨ tc (edge P) x x) as HB1.
  { intros x. rewrite F2. simpl. split; [tauto|]. intros [?|Ht]; [tauto|right]. split; [|done].
    apply F3. left. apply keys_spec, (gr_keys _ _ _ _ G), cause_declared. right. right.
    by apply (tc_iff _ _ _ _ (gr_parents _ _ _ _ G)). }
  destruct (propagate_spec (size B1 + edge_count D) D (reverse (keys B1)) B1) as (B2&->&P1&P2&P3).
  { rewrite length_reverse. pose proof (keys_length B1). rewrite <-slots_length. unfold unblocked_slots.
    pose proof (length_filter (λ c, B1 !! c = None) (slots D)). lia. }
  { intros x. by rewrite elem_of_reverse, keys_spec. }
  { intros p c Hp _. left. by rewrite elem_of_reverse, keys_spec. }
  pose proof (blocked_spec ds P D B B1 B2 G HB1 P1 P2 P3) as Hblocked.
  destruct (order_loop_spec (length ds) ds P B2 []) as (order&->&O1&O2&O3&O4);
    [simpl; lia|constructor|set_solver|by intros [|] ? ? ?|].
  eexists. split; [done|]. simpl. split_and!; [|by intros x Hx; apply O2|done|..|done|].
  - intros x. split.
    + intros Hx. destruct (B2 !! x) eqn:Eb; [by right|left]. by eapply order_complete.
    + intros [Hx|(y&Hxy&Hc)%Hblocked]; [by apply O2|]. apply rtc_inv in Hxy as [->|(z&Hz&_)]; [by apply cause_declared|].
      by apply needs_declared in Hz as [? _].
  - intros l1 x l2 Ho p Hp. eapply O3; [done|]. by apply (gr_parents _ _ _ _ G).
  - intros roots. unfold affected. simpl. destruct (reachable_spec D roots) as (l&->&Hl). exists l. split; [done|].
    intros x. rewrite Hl. setoid_rewrite (rtc_mirror P D Hmirror). by setoid_rewrite (λ r, rtc_iff _ _ x r (gr_parents _ _ _ _ G)).
Qed.
