(* ===== verification/ExtCatalog.v ===== *)
(** * The catalog of host operations
    ([astrcode-extension-sdk/src/wire/operation.rs], [wire/capability.rs])

    What an extension may ask of the host: every operation with its name on the wire, the capability it
    needs, the context it needs, and the group and backend that serve it.  The macro [host_operations!]
    builds the enum and the catalog from one table; the table is written out here in its order. *)

From S2P Require Import Prelude.

(** ** Capabilities *)

Inductive ExtensionCapability :=
| Cap_SessionControl | Cap_SessionCommand | Cap_SessionInspect | Cap_PublicHttp | Cap_AuthenticatedHttp
| Cap_PublicHttpDispatch | Cap_MainModel | Cap_SmallModel | Cap_SessionHistory | Cap_EmitCustomEvents
| Cap_ConsumeCustomEvents | Cap_WorkspaceRead | Cap_WorkspaceWrite | Cap_WorkspaceSensitivePaths
| Cap_ToolResultRead | Cap_ProcessSpawn | Cap_NetworkClient | Cap_ProviderRequest | Cap_InputDelivery
| Cap_ToolIntercept | Cap_TurnContinuationControl | Cap_LiveConversation.

#[export] Instance ExtensionCapability_eq_dec : EqDecision ExtensionCapability.
Proof. solve_decision. Defined.

Definition all_capabilities : list ExtensionCapability :=
  [Cap_SessionControl; Cap_SessionCommand; Cap_SessionInspect; Cap_PublicHttp; Cap_AuthenticatedHttp; Cap_PublicHttpDispatch; Cap_MainModel; Cap_SmallModel; Cap_SessionHistory; Cap_EmitCustomEvents; Cap_ConsumeCustomEvents; Cap_WorkspaceRead; Cap_WorkspaceWrite; Cap_WorkspaceSensitivePaths; Cap_ToolResultRead; Cap_ProcessSpawn; Cap_NetworkClient; Cap_ProviderRequest; Cap_InputDelivery; Cap_ToolIntercept; Cap_TurnContinuationControl; Cap_LiveConversation].

Definition capability_as_str (c : ExtensionCapability) : string :=
  match c with
  | Cap_SessionControl => "session_control"
  | Cap_SessionCommand => "session_command"
  | Cap_SessionInspect => "session_inspect"
  | Cap_PublicHttp => "public_http"
  | Cap_AuthenticatedHttp => "authenticated_http"
  | Cap_PublicHttpDispatch => "public_http_dispatch"
  | Cap_MainModel => "main_model"
  | Cap_SmallModel => "small_model"
  | Cap_SessionHistory => "session_history"
  | Cap_EmitCustomEvents => "emit_custom_events"
  | Cap_ConsumeCustomEvents => "consume_custom_events"
  | Cap_WorkspaceRead => "workspace_read"
  | Cap_WorkspaceWrite => "workspace_write"
  | Cap_WorkspaceSensitivePaths => "workspace_sensitive_paths"
  | Cap_ToolResultRead => "tool_result_read"
  | Cap_ProcessSpawn => "process_spawn"
  | Cap_NetworkClient => "network_client"
  | Cap_ProviderRequest => "provider_request"
  | Cap_InputDelivery => "input_delivery"
  | Cap_ToolIntercept => "tool_intercept"
  | Cap_TurnContinuationControl => "turn_continuation_control"
  | Cap_LiveConversation => "live_conversation"
  end.

(** [ExtensionCapability::parse]: the names are compared in the order of the table. *)
Definition capability_parse (name : string) : option ExtensionCapability :=
  find_first (λ c, bool_decide (name = capability_as_str c)) all_capabilities.

(** ** Operations *)

Inductive HostOperation :=
| Hop_ServiceInvoke | Hop_EventEmit | Hop_ExtensionHttpPublic | Hop_LlmMainChat | Hop_LlmSmallChat
| Hop_NetworkClient | Hop_ProcessSpawn | Hop_ProcessStart | Hop_ProcessRead | Hop_ProcessInput
| Hop_ProcessStatus | Hop_ProcessPromote | Hop_ProcessKill | Hop_ProcessList | Hop_SessionControlCancelTurn
| Hop_SessionControlConfigureTools | Hop_SessionControlCreate | Hop_SessionControlDeferContext
| Hop_SessionControlDispose | Hop_SessionControlExecutionView | Hop_SessionControlInjectOrStart
| Hop_SessionControlInterruptAndSubmit | Hop_SessionControlQueueOrStart | Hop_SessionControlReactivate
| Hop_SessionControlState | Hop_SessionControlSubmitTurn | Hop_SessionHistoryList
| Hop_SessionHistoryProviderMessages | Hop_SessionHistorySnapshot | Hop_SessionHistoryTokenUsage
| Hop_SessionHistoryTranscript | Hop_SessionInspectList | Hop_SessionInspectProviderMessages
| Hop_SessionInspectReadModel | Hop_SessionInspectSnapshot | Hop_SessionReadEvents | Hop_SessionRootCreate
| Hop_SessionRootState | Hop_SessionRootSubmitTurn | Hop_SessionStateRead | Hop_SessionStateWrite
| Hop_WorkspaceEdit | Hop_WorkspaceApplyPatch | Hop_WorkspaceGlob | Hop_WorkspaceGrep | Hop_WorkspaceList
| Hop_WorkspaceRead | Hop_ToolResultRead | Hop_WorkspaceWrite | Hop_SessionRootDispose | Hop_SessionRootFork.

#[export] Instance HostOperation_eq_dec : EqDecision HostOperation.
Proof. solve_decision. Defined.

Inductive HostContextRequirement := Need_None | Need_Session | Need_Workspace.

#[export] Instance HostContextRequirement_eq_dec : EqDecision HostContextRequirement.
Proof. solve_decision. Defined.

Inductive HostOperationGroup :=
| Group_Llm | Group_Session | Group_Context | Group_Workspace | Group_ToolResult | Group_Process
| Group_Network | Group_ExtensionHttp | Group_Service.

#[export] Instance HostOperationGroup_eq_dec : EqDecision HostOperationGroup.
Proof. solve_decision. Defined.

Inductive HostBackendRequirement :=
| Backend_MainLlm | Backend_SmallLlm | Backend_SessionEventReader | Backend_SessionReader
| Backend_SessionOperations | Backend_SessionOperationsAndReader | Backend_SessionStoreDir
| Backend_SessionStoreDirAndTasks | Backend_EventSender | Backend_WorkspaceDir | Backend_WorkspaceDirAndTasks
| Backend_ToolResultReader | Backend_ProcessWorkingDir | Backend_NetworkService
| Backend_PublicHttpDispatcher | Backend_ServiceDispatcher.

Record HostOperationSpec := {
  sp_operation : HostOperation;
  sp_name : string;
  sp_required : option ExtensionCapability;
  sp_context : HostContextRequirement;
  sp_group : HostOperationGroup;
  sp_backend : HostBackendRequirement;
  sp_description : string;
  sp_supports_stream : bool;
  sp_cancelable : bool;
}.

(** ** The table *)

Definition HOST_OPERATION_SPECS_1 : list HostOperationSpec :=
  [
   {| sp_operation := Hop_ServiceInvoke; sp_name := "astrcode.service.invoke";
      sp_required := None; sp_context := Need_None; sp_group := Group_Service; sp_backend := Backend_ServiceDispatcher;
      sp_description := "Invoke a declared plugin service";
      sp_supports_stream := false; sp_cancelable := true |};
   {| sp_operation := Hop_EventEmit; sp_name := "astrcode.event.emit";
      sp_required := Some Cap_EmitCustomEvents; sp_context := Need_None; sp_group := Group_Context; sp_backend := Backend_EventSender;
      sp_description := "Emit a declared extension event";
      sp_supports_stream := false; sp_cancelable := false |};
   {| sp_operation := Hop_ExtensionHttpPublic; sp_name := "astrcode.extension.http.public";
      sp_required := Some Cap_PublicHttpDispatch; sp_context := Need_None; sp_group := Group_ExtensionHttp; sp_backend := Backend_PublicHttpDispatcher;
      sp_description := "Dispatch a request to another extension's public HTTP route";
      sp_supports_stream := false; sp_cancelable := false |};
   {| sp_operation := Hop_LlmMainChat; sp_name := "astrcode.llm.main_chat";
      sp_required := Some Cap_MainModel; sp_context := Need_None; sp_group := Group_Llm; sp_backend := Backend_MainLlm;
      sp_description := "Chat with the host-configured live main LLM provider";
      sp_supports_stream := true; sp_cancelable := true |};
   {| sp_operation := Hop_LlmSmallChat; sp_name := "astrcode.llm.small_chat";
      sp_required := Some Cap_SmallModel; sp_context := Need_None; sp_group := Group_Llm; sp_backend := Backend_SmallLlm;
      sp_description := "Chat with the host-configured small LLM";
      sp_supports_stream := true; sp_cancelable := true |};
   {| sp_operation := Hop_NetworkClient; sp_name := "astrcode.network.client";
      sp_required := Some Cap_NetworkClient; sp_context := Need_None; sp_group := Group_Network; sp_backend := Backend_NetworkService;
      sp_description := "Send a bounded outbound HTTP or HTTPS request with a binary body";
      sp_supports_stream := false; sp_cancelable := true |};
   {| sp_operation := Hop_ProcessSpawn; sp_name := "astrcode.process.spawn";
      sp_required := Some Cap_ProcessSpawn; sp_context := Need_Workspace; sp_group := Group_Process; sp_backend := Backend_ProcessWorkingDir;
      sp_description := "Run a bounded subprocess with an optional workspace-relative cwd";
      sp_supports_stream := false; sp_cancelable := true |};
   {| sp_operation := Hop_ProcessStart; sp_name := "astrcode.process.start";
      sp_required := Some Cap_ProcessSpawn; sp_context := Need_Workspace; sp_group := Group_Process; sp_backend := Backend_ProcessWorkingDir;
      sp_description := "Start a session-owned process and return an opaque handle";
      sp_supports_stream := false; sp_cancelable := false |};
   {| sp_operation := Hop_ProcessRead; sp_name := "astrcode.process.read";
      sp_required := Some Cap_ProcessSpawn; sp_context := Need_Session; sp_group := Group_Process; sp_backend := Backend_ProcessWorkingDir;
      sp_description := "Read incremental output from a session-owned process";
      sp_supports_stream := false; sp_cancelable := true |};
   {| sp_operation := Hop_ProcessInput; sp_name := "astrcode.process.input";
      sp_required := Some Cap_ProcessSpawn; sp_context := Need_Session; sp_group := Group_Process; sp_backend := Backend_ProcessWorkingDir;
      sp_description := "Write or close stdin for a session-owned process";
      sp_supports_stream := false; sp_cancelable := false |};
   {| sp_operation := Hop_ProcessStatus; sp_name := "astrcode.process.status";
      sp_required := Some Cap_ProcessSpawn; sp_context := Need_Session; sp_group := Group_Process; sp_backend := Backend_ProcessWorkingDir;
      sp_description := "Read process liveness and exit status";
      sp_supports_stream := false; sp_cancelable := false |}
  ].

Definition HOST_OPERATION_SPECS_2 : list HostOperationSpec :=
  [
   {| sp_operation := Hop_ProcessPromote; sp_name := "astrcode.process.promote";
      sp_required := Some Cap_ProcessSpawn; sp_context := Need_Session; sp_group := Group_Process; sp_backend := Backend_ProcessWorkingDir;
      sp_description := "Promote a call-owned process to session ownership";
      sp_supports_stream := false; sp_cancelable := false |};
   {| sp_operation := Hop_ProcessKill; sp_name := "astrcode.process.kill";
      sp_required := Some Cap_ProcessSpawn; sp_context := Need_Session; sp_group := Group_Process; sp_backend := Backend_ProcessWorkingDir;
      sp_description := "Terminate and reclaim a session-owned process";
      sp_supports_stream := false; sp_cancelable := false |};
   {| sp_operation := Hop_ProcessList; sp_name := "astrcode.process.list";
      sp_required := Some Cap_ProcessSpawn; sp_context := Need_Session; sp_group := Group_Process; sp_backend := Backend_ProcessWorkingDir;
      sp_description := "List process handles owned by the current session and extension";
      sp_supports_stream := false; sp_cancelable := false |};
   {| sp_operation := Hop_SessionControlCancelTurn; sp_name := "astrcode.session.control.cancel_turn";
      sp_required := Some Cap_SessionControl; sp_context := Need_Session; sp_group := Group_Session; sp_backend := Backend_SessionOperations;
      sp_description := "Cancel the active turn";
      sp_supports_stream := false; sp_cancelable := false |};
   {| sp_operation := Hop_SessionControlConfigureTools; sp_name := "astrcode.session.control.configure_tools";
      sp_required := Some Cap_SessionControl; sp_context := Need_Session; sp_group := Group_Session; sp_backend := Backend_SessionOperations;
      sp_description := "Configure the tool-name boundary used by subsequent session turns";
      sp_supports_stream := false; sp_cancelable := false |};
   {| sp_operation := Hop_SessionControlCreate; sp_name := "astrcode.session.control.create";
      sp_required := Some Cap_SessionControl; sp_context := Need_Session; sp_group := Group_Session; sp_backend := Backend_SessionOperations;
      sp_description := "Create a child session";
      sp_supports_stream := false; sp_cancelable := false |};
   {| sp_operation := Hop_SessionControlDeferContext; sp_name := "astrcode.session.control.defer_context";
      sp_required := Some Cap_SessionControl; sp_context := Need_Session; sp_group := Group_Session; sp_backend := Backend_SessionOperations;
      sp_description := "Append input to the active turn without starting or queueing a new one";
      sp_supports_stream := false; sp_cancelable := false |};
   {| sp_operation := Hop_SessionControlDispose; sp_name := "astrcode.session.control.dispose";
      sp_required := Some Cap_SessionControl; sp_context := Need_Session; sp_group := Group_Session; sp_backend := Backend_SessionOperations;
      sp_description := "Recycle a session while preserving its durable data";
      sp_supports_stream := false; sp_cancelable := false |};
   {| sp_operation := Hop_SessionControlExecutionView; sp_name := "astrcode.session.control.execution_view";
      sp_required := Some Cap_SessionControl; sp_context := Need_Session; sp_group := Group_Session; sp_backend := Backend_SessionOperations;
      sp_description := "Read active turn and queued-input state";
      sp_supports_stream := false; sp_cancelable := false |};
   {| sp_operation := Hop_SessionControlInjectOrStart; sp_name := "astrcode.session.control.inject_or_start";
      sp_required := Some Cap_SessionControl; sp_context := Need_Session; sp_group := Group_Session; sp_backend := Backend_SessionOperations;
      sp_description := "Inject input into a running turn or start when idle";
      sp_supports_stream := false; sp_cancelable := false |};
   {| sp_operation := Hop_SessionControlInterruptAndSubmit; sp_name := "astrcode.session.control.interrupt_and_submit";
      sp_required := Some Cap_SessionControl; sp_context := Need_Session; sp_group := Group_Session; sp_backend := Backend_SessionOperations;
      sp_description := "Interrupt the active turn and submit new input";
      sp_supports_stream := false; sp_cancelable := false |}
  ].

Definition HOST_OPERATION_SPECS_3 : list HostOperationSpec :=
  [
   {| sp_operation := Hop_SessionControlQueueOrStart; sp_name := "astrcode.session.control.queue_or_start";
      sp_required := Some Cap_SessionControl; sp_context := Need_Session; sp_group := Group_Session; sp_backend := Backend_SessionOperations;
      sp_description := "Queue input behind the active turn or start a turn when idle";
      sp_supports_stream := false; sp_cancelable := false |};
   {| sp_operation := Hop_SessionControlReactivate; sp_name := "astrcode.session.control.reactivate";
      sp_required := Some Cap_SessionControl; sp_context := Need_Session; sp_group := Group_Session; sp_backend := Backend_SessionOperations;
      sp_description := "Reactivate a recycled direct child session";
      sp_supports_stream := false; sp_cancelable := false |};
   {| sp_operation := Hop_SessionControlState; sp_name := "astrcode.session.control.state";
      sp_required := Some Cap_SessionControl; sp_context := Need_Session; sp_group := Group_Session; sp_backend := Backend_SessionOperations;
      sp_description := "Read active or recycled session lifecycle state";
      sp_supports_stream := false; sp_cancelable := false |};
   {| sp_operation := Hop_SessionControlSubmitTurn; sp_name := "astrcode.session.control.submit_turn";
      sp_required := Some Cap_SessionControl; sp_context := Need_Session; sp_group := Group_Session; sp_backend := Backend_SessionOperations;
      sp_description := "Submit a turn to a session";
      sp_supports_stream := false; sp_cancelable := false |};
   {| sp_operation := Hop_SessionHistoryList; sp_name := "astrcode.session.history.list";
      sp_required := Some Cap_SessionHistory; sp_context := Need_Session; sp_group := Group_Session; sp_backend := Backend_SessionReader;
      sp_description := "List stable session summaries visible to session-history consumers";
      sp_supports_stream := false; sp_cancelable := false |};
   {| sp_operation := Hop_SessionHistoryProviderMessages; sp_name := "astrcode.session.history.provider_messages";
      sp_required := Some Cap_SessionHistory; sp_context := Need_Session; sp_group := Group_Session; sp_backend := Backend_SessionReader;
      sp_description := "Read provider-visible messages from a session transcript";
      sp_supports_stream := false; sp_cancelable := false |};
   {| sp_operation := Hop_SessionHistorySnapshot; sp_name := "astrcode.session.history.snapshot";
      sp_required := Some Cap_SessionHistory; sp_context := Need_Session; sp_group := Group_Session; sp_backend := Backend_SessionReader;
      sp_description := "Read an authorized active or recycled session snapshot";
      sp_supports_stream := false; sp_cancelable := false |};
   {| sp_operation := Hop_SessionHistoryTokenUsage; sp_name := "astrcode.session.history.token_usage";
      sp_required := Some Cap_SessionHistory; sp_context := Need_Session; sp_group := Group_Session; sp_backend := Backend_SessionEventReader;
      sp_description := "Read accumulated non-cached token usage for a session";
      sp_supports_stream := false; sp_cancelable := false |};
   {| sp_operation := Hop_SessionHistoryTranscript; sp_name := "astrcode.session.history.transcript";
      sp_required := Some Cap_SessionHistory; sp_context := Need_Session; sp_group := Group_Session; sp_backend := Backend_SessionReader;
      sp_description := "Read the extension-visible transcript for a session";
      sp_supports_stream := false; sp_cancelable := false |};
   {| sp_operation := Hop_SessionInspectList; sp_name := "astrcode.session.inspect.list";
      sp_required := Some Cap_SessionInspect; sp_context := Need_None; sp_group := Group_Session; sp_backend := Backend_SessionReader;
      sp_description := "List all sessions visible to the host (global privileged access)";
      sp_supports_stream := false; sp_cancelable := false |};
   {| sp_operation := Hop_SessionInspectProviderMessages; sp_name := "astrcode.session.inspect.provider_messages";
      sp_required := Some Cap_SessionInspect; sp_context := Need_None; sp_group := Group_Session; sp_backend := Backend_SessionReader;
      sp_description := "Read provider-visible messages for any host-visible session";
      sp_supports_stream := false; sp_cancelable := false |}
  ].

Definition HOST_OPERATION_SPECS_4 : list HostOperationSpec :=
  [
   {| sp_operation := Hop_SessionInspectReadModel; sp_name := "astrcode.session.inspect.read_model";
      sp_required := Some Cap_SessionInspect; sp_context := Need_None; sp_group := Group_Session; sp_backend := Backend_SessionReader;
      sp_description := "Read any host-visible projected session model through a stable wire DTO";
      sp_supports_stream := false; sp_cancelable := false |};
   {| sp_operation := Hop_SessionInspectSnapshot; sp_name := "astrcode.session.inspect.snapshot";
      sp_required := Some Cap_SessionInspect; sp_context := Need_None; sp_group := Group_Session; sp_backend := Backend_SessionReader;
      sp_description := "Read any host-visible session snapshot (global privileged access)";
      sp_supports_stream := false; sp_cancelable := false |};
   {| sp_operation := Hop_SessionReadEvents; sp_name := "astrcode.session.read_events";
      sp_required := Some Cap_SessionHistory; sp_context := Need_Session; sp_group := Group_Session; sp_backend := Backend_SessionEventReader;
      sp_description := "Read a cursor page from the durable session event log";
      sp_supports_stream := false; sp_cancelable := false |};
   {| sp_operation := Hop_SessionRootCreate; sp_name := "astrcode.session.root.create";
      sp_required := Some Cap_InputDelivery; sp_context := Need_None; sp_group := Group_Session; sp_backend := Backend_SessionOperations;
      sp_description := "Create a top-level session attributed to the calling extension";
      sp_supports_stream := false; sp_cancelable := false |};
   {| sp_operation := Hop_SessionRootState; sp_name := "astrcode.session.root.state";
      sp_required := Some Cap_InputDelivery; sp_context := Need_None; sp_group := Group_Session; sp_backend := Backend_SessionOperationsAndReader;
      sp_description := "Read an owned top-level session lifecycle state";
      sp_supports_stream := false; sp_cancelable := false |};
   {| sp_operation := Hop_SessionRootSubmitTurn; sp_name := "astrcode.session.root.submit_turn";
      sp_required := Some Cap_InputDelivery; sp_context := Need_None; sp_group := Group_Session; sp_backend := Backend_SessionOperationsAndReader;
      sp_description := "Submit a turn to an owned top-level session";
      sp_supports_stream := false; sp_cancelable := false |};
   {| sp_operation := Hop_SessionStateRead; sp_name := "astrcode.session.state.read";
      sp_required := None; sp_context := Need_Session; sp_group := Group_Context; sp_backend := Backend_SessionStoreDir;
      sp_description := "Read extension-namespaced session state";
      sp_supports_stream := false; sp_cancelable := false |};
   {| sp_operation := Hop_SessionStateWrite; sp_name := "astrcode.session.state.write";
      sp_required := None; sp_context := Need_Session; sp_group := Group_Context; sp_backend := Backend_SessionStoreDirAndTasks;
      sp_description := "Write extension-namespaced session state";
      sp_supports_stream := false; sp_cancelable := false |};
   {| sp_operation := Hop_WorkspaceEdit; sp_name := "astrcode.workspace.edit";
      sp_required := Some Cap_WorkspaceWrite; sp_context := Need_Workspace; sp_group := Group_Workspace; sp_backend := Backend_WorkspaceDirAndTasks;
      sp_description := "Replace an exact text fragment in a non-sensitive workspace file";
      sp_supports_stream := false; sp_cancelable := false |};
   {| sp_operation := Hop_WorkspaceApplyPatch; sp_name := "astrcode.workspace.apply_patch";
      sp_required := Some Cap_WorkspaceWrite; sp_context := Need_Workspace; sp_group := Group_Workspace; sp_backend := Backend_WorkspaceDirAndTasks;
      sp_description := "Apply a bounded unified diff to non-sensitive workspace files";
      sp_supports_stream := false; sp_cancelable := false |};
   {| sp_operation := Hop_WorkspaceGlob; sp_name := "astrcode.workspace.glob";
      sp_required := Some Cap_WorkspaceRead; sp_context := Need_Workspace; sp_group := Group_Workspace; sp_backend := Backend_WorkspaceDir;
      sp_description := "Match bounded workspace paths by glob";
      sp_supports_stream := false; sp_cancelable := false |}
  ].

Definition HOST_OPERATION_SPECS_5 : list HostOperationSpec :=
  [
   {| sp_operation := Hop_WorkspaceGrep; sp_name := "astrcode.workspace.grep";
      sp_required := Some Cap_WorkspaceRead; sp_context := Need_Workspace; sp_group := Group_Workspace; sp_backend := Backend_WorkspaceDir;
      sp_description := "Regex-search bounded UTF-8 workspace files";
      sp_supports_stream := false; sp_cancelable := false |};
   {| sp_operation := Hop_WorkspaceList; sp_name := "astrcode.workspace.list";
      sp_required := Some Cap_WorkspaceRead; sp_context := Need_Workspace; sp_group := Group_Workspace; sp_backend := Backend_WorkspaceDir;
      sp_description := "List a bounded workspace directory tree";
      sp_supports_stream := false; sp_cancelable := false |};
   {| sp_operation := Hop_WorkspaceRead; sp_name := "astrcode.workspace.read";
      sp_required := Some Cap_WorkspaceRead; sp_context := Need_Workspace; sp_group := Group_Workspace; sp_backend := Backend_WorkspaceDir;
      sp_description := "Read a bounded UTF-8 workspace file";
      sp_supports_stream := false; sp_cancelable := false |};
   {| sp_operation := Hop_ToolResultRead; sp_name := "astrcode.tool_result.read";
      sp_required := Some Cap_ToolResultRead; sp_context := Need_Session; sp_group := Group_ToolResult; sp_backend := Backend_ToolResultReader;
      sp_description := "Read a bounded slice from a session-owned tool-result artifact";
      sp_supports_stream := false; sp_cancelable := false |};
   {| sp_operation := Hop_WorkspaceWrite; sp_name := "astrcode.workspace.write";
      sp_required := Some Cap_WorkspaceWrite; sp_context := Need_Workspace; sp_group := Group_Workspace; sp_backend := Backend_WorkspaceDirAndTasks;
      sp_description := "Create or replace a non-sensitive file under the working directory";
      sp_supports_stream := false; sp_cancelable := false |};
   {| sp_operation := Hop_SessionRootDispose; sp_name := "astrcode.session.root.dispose";
      sp_required := Some Cap_InputDelivery; sp_context := Need_None; sp_group := Group_Session; sp_backend := Backend_SessionOperationsAndReader;
      sp_description := "Recycle an owned top-level session";
      sp_supports_stream := false; sp_cancelable := false |};
   {| sp_operation := Hop_SessionRootFork; sp_name := "astrcode.session.root.fork";
      sp_required := Some Cap_InputDelivery; sp_context := Need_None; sp_group := Group_Session; sp_backend := Backend_SessionOperationsAndReader;
      sp_description := "Fork a session into a new top-level session owned by the calling extension";
      sp_supports_stream := false; sp_cancelable := false |}
  ].

Definition HOST_OPERATION_SPECS : list HostOperationSpec :=
  HOST_OPERATION_SPECS_1 ++ HOST_OPERATION_SPECS_2 ++ HOST_OPERATION_SPECS_3 ++ HOST_OPERATION_SPECS_4 ++ HOST_OPERATION_SPECS_5.

(** [self as usize]: the place in the table of the macro. *)
Definition operation_index (o : HostOperation) : nat :=
  match o with
  | Hop_ServiceInvoke => 0
  | Hop_EventEmit => 1
  | Hop_ExtensionHttpPublic => 2
  | Hop_LlmMainChat => 3
  | Hop_LlmSmallChat => 4
  | Hop_NetworkClient => 5
  | Hop_ProcessSpawn => 6
  | Hop_ProcessStart => 7
  | Hop_ProcessRead => 8
  | Hop_ProcessInput => 9
  | Hop_ProcessStatus => 10
  | Hop_ProcessPromote => 11
  | Hop_ProcessKill => 12
  | Hop_ProcessList => 13
  | Hop_SessionControlCancelTurn => 14
  | Hop_SessionControlConfigureTools => 15
  | Hop_SessionControlCreate => 16
  | Hop_SessionControlDeferContext => 17
  | Hop_SessionControlDispose => 18
  | Hop_SessionControlExecutionView => 19
  | Hop_SessionControlInjectOrStart => 20
  | Hop_SessionControlInterruptAndSubmit => 21
  | Hop_SessionControlQueueOrStart => 22
  | Hop_SessionControlReactivate => 23
  | Hop_SessionControlState => 24
  | Hop_SessionControlSubmitTurn => 25
  | Hop_SessionHistoryList => 26
  | Hop_SessionHistoryProviderMessages => 27
  | Hop_SessionHistorySnapshot => 28
  | Hop_SessionHistoryTokenUsage => 29
  | Hop_SessionHistoryTranscript => 30
  | Hop_SessionInspectList => 31
  | Hop_SessionInspectProviderMessages => 32
  | Hop_SessionInspectReadModel => 33
  | Hop_SessionInspectSnapshot => 34
  | Hop_SessionReadEvents => 35
  | Hop_SessionRootCreate => 36
  | Hop_SessionRootState => 37
  | Hop_SessionRootSubmitTurn => 38
  | Hop_SessionStateRead => 39
  | Hop_SessionStateWrite => 40
  | Hop_WorkspaceEdit => 41
  | Hop_WorkspaceApplyPatch => 42
  | Hop_WorkspaceGlob => 43
  | Hop_WorkspaceGrep => 44
  | Hop_WorkspaceList => 45
  | Hop_WorkspaceRead => 46
  | Hop_ToolResultRead => 47
  | Hop_WorkspaceWrite => 48
  | Hop_SessionRootDispose => 49
  | Hop_SessionRootFork => 50
  end.

(** The index is always in the table ([catalog_agrees]). *)
Definition absent_spec : HostOperationSpec :=
  {| sp_operation := Hop_ServiceInvoke; sp_name := ""; sp_required := None; sp_context := Need_None; sp_group := Group_Service;
     sp_backend := Backend_ServiceDispatcher; sp_description := ""; sp_supports_stream := false; sp_cancelable := false |}.

Definition spec (o : HostOperation) : HostOperationSpec := default absent_spec (HOST_OPERATION_SPECS !! operation_index o).
Definition wire_name (o : HostOperation) : string := sp_name (spec o).
Definition required_capability (o : HostOperation) : option ExtensionCapability := sp_required (spec o).

Definition from_wire_name (name : string) : option HostOperation :=
  sp_operation <$> find_first (λ s, bool_decide (name = sp_name s)) HOST_OPERATION_SPECS.
