(* ===== verification/ExtFiles.v ===== *)
(** * Files of the workspace
    ([astrcode-extensions/src/host_router/workspace.rs], [host_router/path.rs],
    [write_file_atomic_bytes] of [astrcode-core/src/hostpaths.rs])

    How the host reads, writes and edits a file for an extension.  The file system is the interface
    [FileSystem]: its operations with the errors they may return, and in [FileSystemLaws] what they do to the
    contents of files ([fs_files]) when they succeed and when they fail.  The digest, base64 and the text diff
    are arguments.  The handlers run in a monad of state and errors. *)

From S2P Require Import Prelude Utf8 CoreTypes CoreLlm ProjReducer StoreTypes S5rWire StdPath StdStr.

(** ** The file system *)

Record IoError := { io_not_found : bool; io_already_exists : bool; io_display : string }.

Record Metadata := { md_is_file : bool; md_len : N; md_modified_nanos : option N }.

Class FileSystem (W : Type) := {
  fs_files : W → gmap string string;  (** the regular files, by the path of their entry *)
  fs_canonicalize : W → string → result string IoError;
  fs_is_symlink : W → string → result bool IoError;  (** [symlink_metadata] *)
  fs_metadata : W → string → result Metadata IoError;
  fs_read : W → string → result string IoError;
  fs_read_no_follow : W → string → result string IoError;
  fs_read_chunks : W → string → result (list string * option IoError) IoError;
      (** without following: what the calls of [read] return one after the other, and the error that ended them *)
  fs_create_dir_all : W → string → W * result unit IoError;
  fs_create_new : W → string → W * result unit IoError;
  fs_write_all : W → string → string → W * result unit IoError;  (** into the file just created, flushed and synced *)
  fs_rename : W → string → string → W * result unit IoError;
  fs_remove_file : W → string → W * result unit IoError;
  fs_direct : W → string → Prop;  (** the path names an entry of a directory: no link and no [.] or [..] above it *)
}.

(** The directory [write_file_atomic_bytes] works in. *)
Definition atomic_parent (path : string) : string :=
  match parent path with Some p => if is_empty p then "." else p | None => "." end.

Class FileSystemLaws (W : Type) {fs : FileSystem W} := {
  direct_canonical w q p c : fs_canonicalize w q = Ok p → fs_files w !! p = Some c → fs_direct w p;
  direct_entry w q d name : fs_canonicalize w q = Ok d → plain name → fs_direct w (path_join d name);
  direct_sibling w p name : fs_direct w p → plain name → fs_direct w (path_join (atomic_parent p) name);
  read_entry w p c c' : fs_direct w p → fs_files w !! p = Some c → fs_read w p = Ok c' → c' = c;
  read_canonical w q p c : fs_canonicalize w q = Ok p → fs_read w p = Ok c → fs_files w !! p = Some c;
  read_no_follow_canonical w q p c : fs_canonicalize w q = Ok p → fs_read_no_follow w p = Ok c → fs_files w !! p = Some c;
  read_chunks_canonical w q p chunks : fs_canonicalize w q = Ok p → fs_read_chunks w p = Ok (chunks, None) →
    fs_files w !! p = Some (concat_str chunks);
  create_dir_all_files w p w' r : fs_create_dir_all w p = (w', r) → fs_files w' = fs_files w;
  create_dir_all_direct w p w' r q : fs_create_dir_all w p = (w', r) → fs_direct w q → fs_direct w' q;
  create_new_files w p w' r : fs_direct w p → fs_create_new w p = (w', r) →
    match r with
    | Ok _ => fs_files w !! p = None ∧ fs_files w' = <[p := ""%string]> (fs_files w)
    | Err _ => fs_files w' = fs_files w
    end;
  create_new_direct w p w' r q : fs_create_new w p = (w', r) → fs_direct w q → fs_direct w' q;
  write_all_files w p c w' r : fs_direct w p → fs_write_all w p c = (w', r) →
    match r with
    | Ok _ => fs_files w' = <[p := c]> (fs_files w)
    | Err _ => ∃ c', fs_files w' = <[p := c']> (fs_files w)
    end;
  write_all_direct w p c w' r q : fs_write_all w p c = (w', r) → fs_direct w q → fs_direct w' q;
  rename_files w p q w' r c : fs_direct w p → fs_direct w q → fs_files w !! p = Some c → fs_rename w p q = (w', r) →
    match r with
    | Ok _ => fs_files w' = <[q := c]> (delete p (fs_files w))
    | Err _ => fs_files w' = fs_files w
    end;
  rename_direct w p q w' r q' : fs_rename w p q = (w', r) → fs_direct w q' → fs_direct w' q';
  remove_file_files w p w' r : fs_direct w p → fs_remove_file w p = (w', r) →
    match r with
    | Ok _ => fs_files w' = delete p (fs_files w)
    | Err _ => fs_files w' = fs_files w
    end;
  remove_file_direct w p w' r q : fs_remove_file w p = (w', r) → fs_direct w q → fs_direct w' q;
}.

(** ** State and errors of a handler *)

Record FileObservation := {
  fo_path : string;
  fo_bytes : N;
  fo_modified_unix_nanos : option N;
  fo_content_fingerprint : string;
}.

#[export] Instance FileObservation_eq_dec : EqDecision FileObservation.
Proof. solve_decision. Defined.

(** The files, the counter of temporary names and the session's observations, if it keeps any. *)
Record WsState (W : Type) := WsSt {
  ws_world : W;
  ws_next_id : N;
  ws_observations : option (gmap string FileObservation);
}.
Arguments WsSt {W}.
Arguments ws_world {W}.
Arguments ws_next_id {W}.
Arguments ws_observations {W}.

Definition Io (W A : Type) : Type := WsState W → WsState W * result A ErrorPayload.

Definition io_ret {W A} (a : A) : Io W A := λ s, (s, Ok a).
Definition io_bind {W A B} (m : Io W A) (k : A → Io W B) : Io W B :=
  λ s, let '(s, r) := m s in match r with Ok a => k a s | Err e => (s, Err e) end.
Definition io_lift {W A} (r : result A ErrorPayload) : Io W A := λ s, (s, r).
Definition io_get {W A} (f : W → result A ErrorPayload) : Io W A := λ s, (s, f (ws_world s)).

Notation "'let!' x ':=' m 'in' k" := (io_bind m (λ x, k))
  (at level 10, x pattern, m at level 200, k at level 200) : astr_scope.

Definition io_error (e : IoError) : ErrorPayload := ErrorPayload_new Code_IoError (io_display e).

(** What is asked of the file system, with its error as the error of the host. *)
Definition ask {W A} (f : W → result A IoError) : Io W A := io_get (λ w, map_err io_error (f w)).
Definition change {W A} (f : W → W * result A IoError) : Io W A :=
  λ s, let '(w, r) := f (ws_world s) in
       (WsSt w (ws_next_id s) (ws_observations s), map_err io_error r).

(** ** Atomic writes ([write_file_atomic_bytes]) *)

Section atomic.
  Context {W : Type} {fs : FileSystem W} (process_id : N).

Definition temporary_name (id : N) : string :=
  ".astrcode-write-" +:+ u64_to_string process_id +:+ "-" +:+ u64_to_string id +:+ ".tmp".

(** The first free name of a hundred; the fuel is the bound of the loop. *)
Fixpoint create_atomic_write_file (rounds : nat) (parent : string) (w : W) (next_id : N) : W * N * result string IoError :=
  match rounds with
  | O =>
    (w, next_id, Err {| io_not_found := false; io_already_exists := true;
                        io_display := "failed to allocate a unique atomic-write temporary file" |})
  | S rounds =>
    let path := path_join parent (temporary_name next_id) in
    let next_id := wrapping_add u64_max next_id 1 in
    let '(w, r) := fs_create_new w path in
    match r with
    | Ok _ => (w, next_id, Ok path)
    | Err e => if io_already_exists e then create_atomic_write_file rounds parent w next_id else (w, next_id, Err e)
    end
  end.

Definition write_file_atomic_bytes (path content : string) (w : W) (next_id : N) : W * N * result unit IoError :=
  let parent := atomic_parent path in
  let '(w, r) := fs_create_dir_all w parent in
  match r with
  | Err e => (w, next_id, Err e)
  | Ok _ =>
    let '(w, next_id, r) := create_atomic_write_file 100 parent w next_id in
    match r with
    | Err e => (w, next_id, Err e)
    | Ok temporary_path =>
      let '(w, r) := fs_write_all w temporary_path content in
      match r with
      | Err e => ((fs_remove_file w temporary_path).1, next_id, Err e)
      | Ok _ =>
        let '(w, r) := fs_rename w temporary_path path in
        match r with
        | Err e => ((fs_remove_file w temporary_path).1, next_id, Err e)
        | Ok _ => (w, next_id, Ok tt)
        end
      end
    end
  end.

Definition write_atomic (path content : string) : Io W unit :=
  λ s, let '(w, id, r) := write_file_atomic_bytes path content (ws_world s) (ws_next_id s) in
       (WsSt w id (ws_observations s), map_err io_error r).
End atomic.

(** ** Paths *)

(** [Path::file_name]. *)
Definition file_name (p : string) : option string :=
  match last (components p) with Some (Normal s) => Some s | _ => None end.

(** [Path::extension]. *)
Definition extension (p : string) : option string :=
  file_name p ≫= λ name,
    match rsplit_once "." name with
    | Some (before, after) => if is_empty before then None else Some after
    | None => None
    end.

Definition is_parent_dir (c : Component) : bool := match c with ParentDir => true | _ => false end.

Fixpoint validate_relative_components (cs : list Component) : result unit ErrorPayload :=
  match cs with
  | [] => Ok tt
  | RootDir :: _ => Err (ErrorPayload_new Code_InvalidInput "absolute path components are not allowed")
  | ParentDir :: _ => Err (ErrorPayload_new Code_PermissionDenied "path escapes workspace root")
  | _ :: cs => validate_relative_components cs
  end.
Definition validate_relative_path_components (relative : string) : result unit ErrorPayload :=
  if is_empty relative then Err (ErrorPayload_new Code_InvalidInput "empty path")
  else validate_relative_components (components relative).

Definition validate_absolute_path_components (absolute : string) : result unit ErrorPayload :=
  if existsb is_parent_dir (components absolute) then
    Err (ErrorPayload_new Code_InvalidInput "parent directory traversal is not allowed")
  else Ok tt.

Definition contains_nul (path : string) : bool := has_byte (ascii_of_N 0) path.
Definition nul_error : ErrorPayload := ErrorPayload_new Code_InvalidInput "path contains NUL".

(** ** Sensitive names *)

Definition SENSITIVE_NAMES : list string :=
  [".git"; ".ssh"; ".aws"; ".azure"; ".gcloud"; ".gitconfig"; ".npmrc"; ".env"].

Definition is_sensitive_component (component : string) : bool :=
  let name := to_ascii_lowercase component in
  existsb (λ n, bool_decide (name = n)) SENSITIVE_NAMES
  || starts_with name ".env." || starts_with name "credentials" || starts_with name "secret"
  || ends_with name ".pem" || ends_with name ".key"
  || starts_with name "id_rsa" || starts_with name "id_ed25519".

Definition is_sensitive_path (path : string) : bool :=
  existsb (λ c, match c with Normal value => is_sensitive_component value | _ => false end) (components path).

Definition reject_sensitive_path (relative_path : string) : result unit ErrorPayload :=
  if is_sensitive_path relative_path
  then Err (ErrorPayload_new Code_PermissionDenied "workspace access to sensitive files is not allowed")
  else Ok tt.

Definition enforce_sensitive_path (relative_path : string) (allow_sensitive_paths : bool) : result unit ErrorPayload :=
  if allow_sensitive_paths then Ok tt else reject_sensitive_path relative_path.

Definition required_non_empty (value key : string) : result string ErrorPayload :=
  if is_empty value then Err (ErrorPayload_new Code_InvalidInput (key +:+ " must not be empty")) else Ok value.

(** ** Resolution *)

Section resolve.
  Context {W : Type} {fs : FileSystem W}.

(** [Path::exists]. *)
Definition path_exists (w : W) (path : string) : bool :=
  match fs_metadata w path with Ok _ => true | Err _ => false end.

Definition canonicalize_workspace_path (root relative : string) : Io W string :=
  let! _ := io_lift (if contains_nul relative then Err nul_error else Ok tt) in
  let! _ := io_lift (if is_absolute relative
                     then Err (ErrorPayload_new Code_InvalidInput "absolute paths are not allowed") else Ok tt) in
  let! _ := io_lift (validate_relative_path_components relative) in
  let! root := ask (λ w, fs_canonicalize w root) in
  let! path := ask (λ w, fs_canonicalize w (path_join root relative)) in
  io_lift (if path_starts_with path root then Ok path
           else Err (ErrorPayload_new Code_PermissionDenied "path outside working directory")).

Definition canonicalize_host_path (root path : string) : Io W string :=
  let! _ := io_lift (if contains_nul path then Err nul_error else Ok tt) in
  if is_absolute path then
    let! _ := io_lift (validate_absolute_path_components path) in
    ask (λ w, fs_canonicalize w path)
  else canonicalize_workspace_path root path.

Definition symlink_error (what capability : string) : ErrorPayload :=
  ErrorPayload_new Code_PermissionDenied ("symlink paths are not " +:+ what +:+ " via " +:+ capability).

(** The loop of [reject_symlink_components]. *)
Fixpoint reject_symlinks (w : W) (capability current : string) (cs : list Component) : result unit ErrorPayload :=
  match cs with
  | [] => Ok tt
  | CurDir :: cs => reject_symlinks w capability current cs
  | Normal name :: cs =>
    let current := path_push current name in
    match fs_is_symlink w current with
    | Ok true => Err (symlink_error "accessible" capability)
    | Ok false => reject_symlinks w capability current cs
    | Err e => if io_not_found e then Ok tt else Err (io_error e)
    end
  | _ :: _ => Err (ErrorPayload_new Code_PermissionDenied "path must be relative to the workspace")
  end.
Definition reject_symlink_components (canonical_root relative_path capability : string) : Io W unit :=
  io_get (λ w, reject_symlinks w capability canonical_root (components relative_path)).

Definition reject_symlink_target (path capability : string) : Io W unit :=
  io_get (λ w, match fs_is_symlink w path with
               | Ok true => Err (symlink_error "writable" capability)
               | Ok false => Ok tt
               | Err e => if io_not_found e then Ok tt else Err (io_error e)
               end).

Definition resolve_existing_path (root relative_path capability : string) : Io W string :=
  if is_absolute relative_path then canonicalize_host_path root relative_path
  else
    let! canonical_root := ask (λ w, fs_canonicalize w root) in
    let! _ := reject_symlink_components canonical_root relative_path capability in
    canonicalize_workspace_path root relative_path.

(** The part both write targets share: the directory of the file, made if it may be. *)
Definition target_parent (parent : string) (create_dirs : bool) : Io W (string * bool) :=
  let! parent_created := io_get (λ w, Ok (negb (path_exists w parent))) in
  let! _ := (if parent_created then
               let! _ := io_lift (if create_dirs then Ok tt
                                  else Err (ErrorPayload_new Code_InvalidInput
                                         "parent directory does not exist; set create_dirs=true to create it")) in
               change (λ w, fs_create_dir_all w parent)
             else io_ret tt) in
  let! canonical_parent := ask (λ w, fs_canonicalize w parent) in
  io_ret (canonical_parent, parent_created).

Definition target_name (path : string) : result string ErrorPayload :=
  ok_or (file_name path) (ErrorPayload_new Code_InvalidInput "path must reference a file").

Definition resolve_absolute_write_target (path : string) (create_dirs : bool) : Io W (string * string * bool) :=
  let! _ := io_lift (if contains_nul path then Err nul_error else Ok tt) in
  let! _ := io_lift (validate_absolute_path_components path) in
  let! name := io_lift (target_name path) in
  let! target := target_parent (default "" (parent path)) create_dirs in
  io_ret (target.1, name, target.2).

Definition resolve_write_target (root path capability : string) (create_dirs : bool) : Io W (string * string * bool) :=
  if is_absolute path then resolve_absolute_write_target path create_dirs
  else
    let! _ := io_lift (validate_relative_path_components path) in
    let! name := io_lift (target_name path) in
    let! canonical_root := ask (λ w, fs_canonicalize w root) in
    let relative_parent := default "" (parent path) in
    let! _ := reject_symlink_components canonical_root relative_parent capability in
    let! target := target_parent (path_join canonical_root relative_parent) create_dirs in
    io_lift (if path_starts_with target.1 canonical_root then Ok (target.1, name, target.2)
             else Err (ErrorPayload_new Code_PermissionDenied "path escapes the workspace root")).

(** ** Observations *)

Context (sha256 : string → string).

Definition capture_observation (path : string) : Io W FileObservation :=
  let! metadata := ask (λ w, fs_metadata w path) in
  let! content := ask (λ w, fs_read w path) in
  io_ret {| fo_path := path; fo_bytes := md_len metadata;
            fo_modified_unix_nanos := N.min u64_max <$> md_modified_nanos metadata;
            fo_content_fingerprint := sha256 content |}.

(** [InMemoryFileObservationStore::remember] (of [astrcode-session/src/tool_exec.rs]). *)
Definition remember (o : FileObservation) (store : gmap string FileObservation) : gmap string FileObservation :=
  <[fo_path o := o]> store.

Definition remember_observation (path : string) : Io W unit :=
  λ s, match ws_observations s with
       | None => (s, Ok tt)
       | Some store =>
         let '(s, r) := capture_observation path s in
         match r with
         | Ok o => (WsSt (ws_world s) (ws_next_id s) (Some (remember o store)), Ok tt)
         | Err e => (s, Err e)
         end
       end.

Definition observations_match (left right : FileObservation) : bool :=
  bool_decide (fo_path left = fo_path right) && bool_decide (fo_bytes left = fo_bytes right)
  && bool_decide (fo_modified_unix_nanos left = fo_modified_unix_nanos right)
  && bool_decide (fo_content_fingerprint left = fo_content_fingerprint right).

Definition stale_error (message reason path : string) : ErrorPayload :=
  {| ep_code := WireErrorCode_as_str Code_StaleFile; ep_message := message;
     ep_hint := Some "read the current file content, then retry the edit"; ep_retryable := false;
     ep_details := Some (JObject [("path", JString path); ("reason", JString reason)]) |}.

Definition ensure_observation_current (path : string) : Io W unit :=
  λ s, match ws_observations s with
       | None => (s, Ok tt)
       | Some store =>
         match store !! path with
         | None => (s, Err (stale_error ("read " +:+ path +:+ " before editing it") "not_observed" path))
         | Some previous =>
           (let! current := capture_observation path in
            io_lift (if observations_match previous current then Ok tt
                     else Err (stale_error (path +:+ " changed after the last read; read it again before editing")
                                 "changed" path))) s
         end
       end.
End resolve.

(** ** Pages of lines *)

Definition HOST_WORKSPACE_MAX_FILE_BYTES : N := 10 * 1024 * 1024.
Definition HOST_WORKSPACE_MAX_IMAGE_BYTES : N := 3 * 1024 * 1024.
Definition HOST_WORKSPACE_MAX_TEXT_OUTPUT_BYTES : N := 1024 * 1024.
Definition HOST_WORKSPACE_MAX_DIFF_BYTES : N := 64 * 1024.

Definition usize_add : N → N → N := saturating_add usize_max.

Definition str_bytes (s : string) : N := N.of_nat (String.length s).

Definition line_limit_hint (message : string) : ErrorPayload :=
  {| ep_code := WireErrorCode_as_str Code_FileTooLarge; ep_message := message;
     ep_hint := Some "use grep or a process tool to inspect an exceptionally long line"; ep_retryable := false;
     ep_details := None |}.

Definition line_too_large (line_index max_output_bytes : N) : ErrorPayload :=
  line_limit_hint ("line " +:+ u64_to_string (line_index + 1) +:+ " exceeds the " +:+ u64_to_string max_output_bytes
                   +:+ "-byte workspace read output limit").

(** The loop of [bounded_text_lines] over the lines of the page. *)
Fixpoint bounded_lines (line_offset max_output_bytes : N) (output : string) (returned : N) (ls : list string)
    : result (string * N) ErrorPayload :=
  match ls with
  | [] => Ok (output, returned)
  | line :: ls =>
    let separator := if is_empty output then 0%N else 1%N in
    if bool_decide (max_output_bytes < usize_add (usize_add (str_bytes output) separator) (str_bytes line))%N then
      if is_empty output then Err (line_too_large line_offset max_output_bytes) else Ok (output, returned)
    else
      bounded_lines line_offset max_output_bytes
        ((if is_empty output then output else output +:+ String lf "") +:+ line) (returned + 1) ls
  end.

Record TextPage := {
  tp_content : string;
  tp_total_lines : N;
  tp_line_offset : N;
  tp_returned_lines : N;
  tp_has_more_lines : bool;
}.

Definition bounded_text_lines (content : string) (requested_offset : N) (line_limit : option N) (max_output_bytes : N)
    : result TextPage ErrorPayload :=
  let all := lines content in
  let total_lines := N.of_nat (length all) in
  let line_offset := N.min requested_offset total_lines in
  let line_limit := default usize_max line_limit in
  let? page := bounded_lines line_offset max_output_bytes "" 0
                 (take (N.to_nat (N.min line_limit total_lines)) (drop (N.to_nat line_offset) all)) in
  Ok {| tp_content := page.1; tp_total_lines := total_lines; tp_line_offset := line_offset;
        tp_returned_lines := page.2; tp_has_more_lines := bool_decide (usize_add line_offset page.2 < total_lines)%N |}.

(** [String::from_utf8] with its error as the error of the host. *)
Definition from_utf8 (s : string) : result string ErrorPayload :=
  match utf8_error 0 (String.list_ascii_of_string s) with
  | None => Ok s
  | Some e => Err (ErrorPayload_new Code_IoError (utf8_error_to_string e))
  end.

(** *** A file that is read in chunks *)

Definition validate_utf8_chunk (incomplete chunk : bytes) : option bytes :=
  let incomplete := incomplete ++ chunk in
  match utf8_error 0 incomplete with
  | None => Some []
  | Some (valid_up_to, None) => Some (drop (N.to_nat valid_up_to) incomplete)
  | Some (_, Some _) => None
  end.

Record PageState := {
  pg_output : string;
  pg_selected_line : string;
  pg_total_lines : N;
  pg_returned_lines : N;
  pg_line_has_bytes : bool;
  pg_output_full : bool;
}.

Definition page_start : PageState :=
  {| pg_output := ""; pg_selected_line := ""; pg_total_lines := 0; pg_returned_lines := 0;
     pg_line_has_bytes := false; pg_output_full := false |}.

Section pages.
  Context (max_output_bytes requested_offset line_limit : N).

Definition page_selected (line_index : N) : bool :=
  bool_decide (requested_offset ≤ line_index)%N && bool_decide (line_index < usize_add requested_offset line_limit)%N.

Definition clear_line (s : PageState) (full : bool) : PageState :=
  {| pg_output := pg_output s; pg_selected_line := ""; pg_total_lines := pg_total_lines s;
     pg_returned_lines := pg_returned_lines s; pg_line_has_bytes := pg_line_has_bytes s; pg_output_full := full |}.

Definition finish_paginated_line (s : PageState) : result PageState ErrorPayload :=
  if negb (page_selected (pg_total_lines s)) || pg_output_full s then Ok (clear_line s (pg_output_full s))
  else
    let line := strip_cr_end (pg_selected_line s) in
    let separator := if bool_decide (0 < pg_returned_lines s)%N then 1%N else 0%N in
    if bool_decide (max_output_bytes < usize_add (usize_add (str_bytes (pg_output s)) separator) (str_bytes line))%N then
      if is_empty (pg_output s) then Err (line_too_large (pg_total_lines s) max_output_bytes)
      else Ok (clear_line s true)
    else
      Ok {| pg_output := (if bool_decide (0 < pg_returned_lines s)%N then pg_output s +:+ String lf "" else pg_output s) +:+ line;
            pg_selected_line := ""; pg_total_lines := pg_total_lines s;
            pg_returned_lines := usize_add (pg_returned_lines s) 1;
            pg_line_has_bytes := pg_line_has_bytes s; pg_output_full := pg_output_full s |}.

Definition next_line (s : PageState) : PageState :=
  {| pg_output := pg_output s; pg_selected_line := pg_selected_line s; pg_total_lines := usize_add (pg_total_lines s) 1;
     pg_returned_lines := pg_returned_lines s; pg_line_has_bytes := false; pg_output_full := pg_output_full s |}.

Definition select_byte (s : PageState) (line : string) : PageState :=
  {| pg_output := pg_output s; pg_selected_line := line; pg_total_lines := pg_total_lines s;
     pg_returned_lines := pg_returned_lines s; pg_line_has_bytes := true; pg_output_full := pg_output_full s |}.

Definition page_byte (s : PageState) (b : ascii) : result PageState ErrorPayload :=
  if bool_decide (b = lf) then let? s := finish_paginated_line s in Ok (next_line s)
  else if negb (pg_output_full s) && page_selected (pg_total_lines s) then
    let line := pg_selected_line s +:+ String b "" in
    if bool_decide (max_output_bytes < str_bytes line)%N then
      if bool_decide (pg_returned_lines s = 0%N) then Err (line_too_large (pg_total_lines s) max_output_bytes)
      else Ok (clear_line (select_byte s "") true)
    else Ok (select_byte s line)
  else Ok (select_byte s (pg_selected_line s)).

Definition page_bytes (s : PageState) (chunk : string) : result PageState ErrorPayload :=
  try_fold page_byte s (String.list_ascii_of_string chunk).

(** The loop over the chunks; [Ok None] is a file that is not UTF-8. *)
Fixpoint page_chunks (incomplete : bytes) (total : N) (s : PageState) (chunks : list string)
    : result (option (PageState * N * bytes)) ErrorPayload :=
  match chunks with
  | [] => Ok (Some (s, total, incomplete))
  | chunk :: chunks =>
    match validate_utf8_chunk incomplete (String.list_ascii_of_string chunk) with
    | None => Ok None
    | Some incomplete =>
      let? s := page_bytes s chunk in
      page_chunks incomplete (usize_add total (str_bytes chunk)) s chunks
    end
  end.

Definition page_end (s : PageState) : result PageState ErrorPayload :=
  if pg_line_has_bytes s then let? s := finish_paginated_line s in Ok (next_line s) else Ok s.

Definition page_of (s : PageState) : TextPage :=
  let line_offset := N.min requested_offset (pg_total_lines s) in
  {| tp_content := pg_output s; tp_total_lines := pg_total_lines s; tp_line_offset := line_offset;
     tp_returned_lines := pg_returned_lines s;
     tp_has_more_lines := bool_decide (usize_add line_offset (pg_returned_lines s) < pg_total_lines s)%N |}.

(** [read_paginated_text] on the chunks that [read] returns and the error that ended them; with the page, the
    number of bytes. *)
Definition paginate (chunks : list string) (failure : option IoError) : result (option (TextPage * N)) ErrorPayload :=
  let? r := page_chunks [] 0 page_start chunks in
  match r, failure with
  | None, _ => Ok None
  | Some _, Some e => Err (io_error e)
  | Some (_, _, _ :: _), None => Ok None
  | Some (s, total, []), None =>
    let? s := page_end s in
    let? _ := from_utf8 (pg_output s) in
    Ok (Some (page_of s, total))
  end.
End pages.

(** ** Reading *)

Record HostWorkspaceReadRequest := {
  rr_path : string;
  rr_max_bytes : option N;
  rr_line_offset : N;
  rr_line_limit : option N;
}.

Inductive HostWorkspaceReadOutput :=
| Read_Text (page : TextPage) (bytes : N)
| Read_Image (media_type data_base64 : string) (bytes : N)
| Read_Binary (bytes : N).

Definition image_media_type (path : string) : option string :=
  extension path ≫= λ extension,
    let extension := to_ascii_lowercase extension in
    if bool_decide (extension = "png") then Some "image/png"
    else if bool_decide (extension = "jpg") || bool_decide (extension = "jpeg") then Some "image/jpeg"
    else if bool_decide (extension = "gif") then Some "image/gif"
    else if bool_decide (extension = "webp") then Some "image/webp"
    else if bool_decide (extension = "ico") then Some "image/x-icon"
    else if bool_decide (extension = "bmp") then Some "image/bmp"
    else None.

(** What the crates behind the digest, base64 and the diff compute. *)
Record TextDiff := { df_insertions : N; df_deletions : N; df_unified : string → string  (** of the path in its header *) }.

Section handlers.
  Context {W : Type} {fs : FileSystem W}.
  Context (process_id : N) (sha256 base64 : string → string) (text_diff : string → string → TextDiff).

(** [read_bounded_file]: [None] when there is more than [max_bytes]. *)
Definition read_bounded_file (path : string) (max_bytes : N) : Io W (option string) :=
  let! bytes := ask (λ w, fs_read_no_follow w path) in
  io_ret (if bool_decide (str_bytes bytes ≤ max_bytes)%N then Some bytes else None).

Definition too_large {A} (message : string) : result A ErrorPayload := Err (ErrorPayload_new Code_FileTooLarge message).

Definition read_image (path media_type : string) (metadata : Metadata) : Io W HostWorkspaceReadOutput :=
  let! _ := io_lift (if bool_decide (HOST_WORKSPACE_MAX_IMAGE_BYTES < md_len metadata)%N
                     then too_large ("image size " +:+ u64_to_string (md_len metadata) +:+ " exceeds "
                                     +:+ u64_to_string HOST_WORKSPACE_MAX_IMAGE_BYTES +:+ " bytes")
                     else Ok tt) in
  let! data := read_bounded_file path HOST_WORKSPACE_MAX_IMAGE_BYTES in
  let! data := io_lift (match data with Some d => Ok d | None => too_large "image grew while being read" end) in
  let! _ := remember_observation sha256 path in
  io_ret (Read_Image media_type (base64 data) (str_bytes data)).

Definition read_page (path : string) (request : HostWorkspaceReadRequest) (max_bytes : N) (metadata : Metadata)
    : Io W HostWorkspaceReadOutput :=
  let output_limit := N.min max_bytes HOST_WORKSPACE_MAX_TEXT_OUTPUT_BYTES in
  let! chunks := ask (λ w, fs_read_chunks w path) in
  let! page := io_lift (paginate output_limit (rr_line_offset request) (default usize_max (rr_line_limit request))
                          chunks.1 chunks.2) in
  match page with
  | None => io_ret (Read_Binary (md_len metadata))
  | Some (page, bytes) =>
    let! _ := remember_observation sha256 path in
    io_ret (Read_Text page bytes)
  end.

Definition read_text (path : string) (request : HostWorkspaceReadRequest) (max_bytes : N) : Io W HostWorkspaceReadOutput :=
  let! bytes := read_bounded_file path max_bytes in
  let! bytes := io_lift (match bytes with
                         | Some b => Ok b
                         | None => too_large ("file size exceeds max_bytes " +:+ u64_to_string max_bytes)
                         end) in
  let! _ := remember_observation sha256 path in
  match utf8_error 0 (String.list_ascii_of_string bytes) with
  | Some _ => io_ret (Read_Binary (str_bytes bytes))
  | None =>
    let! page := io_lift (bounded_text_lines bytes (rr_line_offset request) (rr_line_limit request)
                            HOST_WORKSPACE_MAX_TEXT_OUTPUT_BYTES) in
    io_ret (Read_Text page (str_bytes bytes))
  end.

Definition read_with_access (root : string) (request : HostWorkspaceReadRequest) (capability : string)
    (allow_sensitive_paths : bool) : Io W HostWorkspaceReadOutput :=
  let! relative_path := io_lift (required_non_empty (rr_path request) "path") in
  let! _ := io_lift (enforce_sensitive_path relative_path allow_sensitive_paths) in
  let! path := resolve_existing_path root relative_path capability in
  let! metadata := ask (λ w, fs_metadata w path) in
  let! _ := io_lift (if md_is_file metadata then Ok tt
                     else Err (ErrorPayload_new Code_InvalidInput (capability +:+ " path must be a regular file"))) in
  let max_bytes := default HOST_WORKSPACE_MAX_FILE_BYTES (rr_max_bytes request) in
  let paginated := bool_decide (0 < rr_line_offset request)%N || bool_decide (is_Some (rr_line_limit request)) in
  let larger := bool_decide (max_bytes < md_len metadata)%N in
  let! _ := io_lift (if larger && negb paginated
                     then too_large ("file size " +:+ u64_to_string (md_len metadata) +:+ " exceeds max_bytes "
                                     +:+ u64_to_string max_bytes)
                     else Ok tt) in
  match image_media_type path with
  | Some media_type => read_image path media_type metadata
  | None => if paginated && larger then read_page path request max_bytes metadata else read_text path request max_bytes
  end.

(** ** Writing *)

Record HostWorkspaceTextChange := {
  tc_old_bytes : option N;
  tc_new_bytes : N;
  tc_unified_diff : option string;
  tc_insertions : N;
  tc_deletions : N;
  tc_diff_truncated : bool;
}.

Definition TRUNCATED_SUFFIX : string := String lf "... (diff truncated)" +:+ String lf "".

Definition bounded_diff (diff : string) : string * bool :=
  if bool_decide (str_bytes diff ≤ HOST_WORKSPACE_MAX_DIFF_BYTES)%N then (diff, false)
  else
    let bytes := String.list_ascii_of_string diff in
    let prefix_bytes := floor_boundary bytes (N.to_nat (HOST_WORKSPACE_MAX_DIFF_BYTES - str_bytes TRUNCATED_SUFFIX)) in
    (str_take prefix_bytes diff +:+ TRUNCATED_SUFFIX, true).

Definition summarize_text_change (path : string) (old_bytes : option N) (old_content : option string)
    (new_content : string) : HostWorkspaceTextChange :=
  match old_content with
  | None =>
    {| tc_old_bytes := old_bytes; tc_new_bytes := str_bytes new_content; tc_unified_diff := None; tc_insertions := 0;
       tc_deletions := 0; tc_diff_truncated := false |}
  | Some old_content =>
    let diff := text_diff old_content new_content in
    let unified := bounded_diff (df_unified diff path) in
    {| tc_old_bytes := old_bytes; tc_new_bytes := str_bytes new_content;
       tc_unified_diff := if is_empty unified.1 then None else Some unified.1;
       tc_insertions := df_insertions diff; tc_deletions := df_deletions diff; tc_diff_truncated := unified.2 |}
  end.

Definition enforce_content_limit (content : string) : result unit ErrorPayload :=
  if bool_decide (HOST_WORKSPACE_MAX_FILE_BYTES < str_bytes content)%N
  then too_large ("workspace writes are limited to " +:+ u64_to_string HOST_WORKSPACE_MAX_FILE_BYTES +:+ " bytes")
  else Ok tt.

Record HostWorkspaceWriteRequest := { wr_path : string; wr_content : string; wr_create_dirs : bool }.
Record HostWorkspaceWriteOutput := { wo_path : string; wo_created : bool; wo_change : HostWorkspaceTextChange }.

Definition read_to_string (w : W) (path : string) : option string :=
  match fs_read w path with
  | Ok c => if utf8_valid (String.list_ascii_of_string c) then Some c else None
  | Err _ => None
  end.

Definition write_with_access (root : string) (request : HostWorkspaceWriteRequest) (capability : string)
    (allow_sensitive_paths : bool) : Io W HostWorkspaceWriteOutput :=
  let! relative_path := io_lift (required_non_empty (wr_path request) "path") in
  let content := wr_content request in
  let! _ := io_lift (enforce_content_limit content) in
  let! _ := io_lift (enforce_sensitive_path relative_path allow_sensitive_paths) in
  let! target := resolve_write_target root relative_path capability (wr_create_dirs request) in
  let path := path_join target.1.1 target.1.2 in
  let! _ := reject_symlink_target path capability in
  let! previous_bytes := io_get (λ w, match fs_metadata w path with
                                      | Ok m => Ok (Some (md_len m))
                                      | Err e => if io_not_found e then Ok None else Err (io_error e)
                                      end) in
  let! previous_content := io_get (λ w, Ok (previous_bytes ≫= λ bytes,
                             if bool_decide (bytes ≤ HOST_WORKSPACE_MAX_FILE_BYTES)%N then read_to_string w path else None)) in
  let! _ := write_atomic process_id path content in
  let! _ := remember_observation sha256 path in
  io_ret {| wo_path := relative_path; wo_created := bool_decide (previous_bytes = None);
            wo_change := summarize_text_change relative_path previous_bytes previous_content content |}.

(** ** Editing *)

Record HostWorkspaceTextEdit := { te_old_text : string; te_new_text : string; te_replace_all : bool }.

Record HostWorkspaceEditRequest := {
  er_path : string;
  er_old_text : option string;
  er_new_text : option string;
  er_replace_all : bool;
  er_edits : list HostWorkspaceTextEdit;
}.

Record HostWorkspaceEditOutput := {
  eo_path : string;
  eo_operation_count : nat;
  eo_replacements : nat;
  eo_change : HostWorkspaceTextChange;
}.

Definition normalize_edits (request : HostWorkspaceEditRequest) : result (list HostWorkspaceTextEdit) ErrorPayload :=
  let has_top_level := bool_decide (is_Some (er_old_text request)) || bool_decide (is_Some (er_new_text request)) in
  if has_top_level && negb (bool_decide (length (er_edits request) = 0)) then
    Err (ErrorPayload_new Code_InvalidInput "use either old_text/new_text or edits, not both")
  else
    let? edits := match er_edits request with
      | [] =>
        let? old_text := ok_or (er_old_text request) (ErrorPayload_new Code_InvalidInput "old_text is required") in
        let? new_text := ok_or (er_new_text request) (ErrorPayload_new Code_InvalidInput "new_text is required") in
        Ok [{| te_old_text := old_text; te_new_text := new_text; te_replace_all := er_replace_all request |}]
      | edits => Ok edits
      end in
    if existsb (λ e, is_empty (te_old_text e)) edits
    then Err (ErrorPayload_new Code_InvalidInput "old_text must not be empty") else Ok edits.

(** [str::matches(pat).count()] for a pattern that is not empty: occurrences from the left that do not overlap;
    [skip] bytes belong to the last one. *)
Fixpoint count_matches_from (skip : nat) (s pat : string) : nat :=
  match s with
  | EmptyString => 0
  | String _ r =>
    match skip with
    | S skip => count_matches_from skip r pat
    | O => if starts_with s pat then S (count_matches_from (pred (String.length pat)) r pat) else count_matches_from 0 r pat
    end
  end.
Definition count_matches (s pat : string) : nat := count_matches_from 0 s pat.

(** [str::replacen] with the count 1. *)
Definition replace_once (s pat by_ : string) : string :=
  match str_find s pat with
  | Some i => str_take i s +:+ by_ +:+ str_drop (i + String.length pat) s
  | None => s
  end.

Definition edit_step (relative_path : string) (s : string * nat) (operation : HostWorkspaceTextEdit)
    : result (string * nat) ErrorPayload :=
  let matches := count_matches s.1 (te_old_text operation) in
  if bool_decide (matches = 0) then
    Err (ErrorPayload_new Code_InvalidInput ("old_text not found in " +:+ relative_path))
  else if negb (te_replace_all operation) && bool_decide (1 < matches) then
    Err (ErrorPayload_new Code_InvalidInput
           ("old_text matched " +:+ u64_to_string (N.of_nat matches) +:+ " times in " +:+ relative_path
            +:+ "; set replace_all=true or provide more context"))
  else
    Ok (if te_replace_all operation then str_replace s.1 (te_old_text operation) (te_new_text operation)
        else replace_once s.1 (te_old_text operation) (te_new_text operation),
        s.2 + (if te_replace_all operation then matches else 1)).

Definition edit_size_message (capability : string) : string :=
  capability +:+ " supports regular files up to " +:+ u64_to_string HOST_WORKSPACE_MAX_FILE_BYTES +:+ " bytes".

Definition edit_with_access (root : string) (request : HostWorkspaceEditRequest) (capability : string)
    (allow_sensitive_paths : bool) : Io W HostWorkspaceEditOutput :=
  let! relative_path := io_lift (required_non_empty (er_path request) "path") in
  let! operations := io_lift (normalize_edits request) in
  let! _ := io_lift (enforce_sensitive_path relative_path allow_sensitive_paths) in
  let! path := resolve_existing_path root relative_path capability in
  let! _ := ensure_observation_current sha256 path in
  let! metadata := ask (λ w, fs_metadata w path) in
  let! _ := io_lift (if negb (md_is_file metadata) || bool_decide (HOST_WORKSPACE_MAX_FILE_BYTES < md_len metadata)%N
                     then too_large (edit_size_message capability) else Ok tt) in
  let! content := read_bounded_file path HOST_WORKSPACE_MAX_FILE_BYTES in
  let! content := io_lift (match content with Some c => Ok c | None => too_large (edit_size_message capability) end) in
  let! content := io_lift (from_utf8 content) in
  let! edited := io_lift (try_fold (edit_step relative_path) (content, 0) operations) in
  let! _ := io_lift (enforce_content_limit edited.1) in
  let! _ := write_atomic process_id path edited.1 in
  let! _ := remember_observation sha256 path in
  io_ret {| eo_path := relative_path; eo_operation_count := length operations; eo_replacements := edited.2;
            eo_change := summarize_text_change relative_path (Some (str_bytes content)) (Some content) edited.1 |}.
End handlers.
