(* ===== verification/ExtPatch.v ===== *)
(** * Patches of the workspace
    ([astrcode-extensions/src/host_router/workspace_patch.rs], [astrcode-extension-sdk/src/host/workspace_patch.rs])

    A unified diff is read twice: once for the paths it names, which is what a tool is authorised
    for, and once for its hunks, which are then applied to the files.  An index into the lines is
    the list of the lines that are left.  The handler runs on the file system of [ExtFiles]. *)

From S2P Require Import Prelude Utf8 CoreTypes CoreLlm ProjReducer StoreTypes AiRetry S5rWire StdPath StdStr ExtFiles.

(** ** Shared parts of the two readers *)

Definition METADATA_PREFIXES : list string :=
  ["diff "; "index "; "old mode "; "new mode "; "new file mode "; "deleted file mode "; "rename "; "similarity "; "copy "].

Definition is_patch_metadata (line : string) : bool := existsb (starts_with line) METADATA_PREFIXES.

Definition tab : ascii := ascii_of_N 9.

Definition normalize_unified_diff_path (value : string) : result string string :=
  let value := trim (default value (head (split_byte tab value))) in
  if is_empty value then Err "patch file path must not be empty"
  else if bool_decide (value = "/dev/null") then Ok value
  else
    Ok (match str_strip_prefix value "a/" with
        | Some v => v
        | None => match str_strip_prefix value "b/" with Some v => v | None => value end
        end).

(** The paths of one file; [None] is [/dev/null]. *)
Definition path_option (path : string) : option string := if bool_decide (path = "/dev/null") then None else Some path.

(** ** Paths ([analyze_unified_diff_paths]) *)

Record WorkspacePatchPaths := { wp_old_path : option string; wp_new_path : option string }.

Definition is_skipped_line (line : string) : bool := is_patch_metadata line || is_empty line || starts_with line "#".

Definition format_error : string := "patch format error: expected '+++ new_path' after '--- old_path'".

Fixpoint analyze_lines (lines : list string) : result (list WorkspacePatchPaths) string :=
  match lines with
  | [] => Ok []
  | line :: rest =>
    if is_skipped_line line then analyze_lines rest
    else
      match str_strip_prefix line "--- " with
      | None => analyze_lines rest
      | Some old_path =>
        match rest with
        | [] => Err format_error
        | new_line :: rest =>
          match str_strip_prefix new_line "+++ " with
          | None => Err format_error
          | Some new_path =>
            let? old_path := normalize_unified_diff_path old_path in
            let? new_path := normalize_unified_diff_path new_path in
            let pair := {| wp_old_path := path_option old_path; wp_new_path := path_option new_path |} in
            if bool_decide (wp_old_path pair = None) && bool_decide (wp_new_path pair = None) then
              Err "patch file section cannot use /dev/null for both paths"
            else let? paths := analyze_lines rest in Ok (pair :: paths)
          end
        end
      end
  end.

Definition analyze_unified_diff_paths (patch : string) : result (list WorkspacePatchPaths) string :=
  if is_empty (trim patch) then Err "patch must not be empty"
  else
    let? paths := analyze_lines (lines patch) in
    match paths with
    | [] => Err "patch does not contain any file sections"
    | _ => Ok paths
    end.

(** ** Hunks ([parse_patch]) *)

Inductive HunkLine :=
| HL_Context (line : string)
| HL_Add (line : string)
| HL_Delete (line : string).

Record Hunk := { hk_old_start : N; hk_lines : list HunkLine }.

Record FilePatch := { fp_old_path : option string; fp_new_path : option string; fp_hunks : list Hunk }.

(** [rsplit_once] with a pattern of several bytes: at its last occurrence. *)
Fixpoint rsplit_once_str (pat s : string) : option (string * string) :=
  match s with
  | EmptyString => None
  | String c r =>
    match rsplit_once_str pat r with
    | Some (a, b) => Some (String c a, b)
    | None => if starts_with s pat then Some (EmptyString, str_drop (String.length pat) s) else None
    end
  end.

Definition parse_hunk_header (header : string) : result N string :=
  match str_strip_prefix header "@@" ≫= rsplit_once_str "@@" with
  | None => Err ("invalid hunk header: " +:+ header)
  | Some (body, _) =>
    match head (split_whitespace (trim body)) ≫= λ range, str_strip_prefix range "-" with
    | None => Err ("invalid hunk header: " +:+ header)
    | Some old =>
      match head (split_byte "," old) ≫= parse_u64 with
      | None => Err ("invalid old range in hunk header: " +:+ header)
      | Some start => Ok start
      end
    end
  end.

Definition hunk_line (line : string) : list HunkLine :=
  match line with
  | EmptyString => [HL_Context line]
  | String c rest =>
    if bool_decide (c = " "%char) then [HL_Context rest]
    else if bool_decide (c = "+"%char) then [HL_Add rest]
    else if bool_decide (c = "-"%char) then [HL_Delete rest]
    else if bool_decide (c = "\"%char) then []
    else [HL_Context line]
  end.

Definition ends_file (line : string) : bool := starts_with line "--- " || starts_with line "diff ".

Definition close_hunk (current : option Hunk) : list Hunk := option_list current.

(** The two loops of [parse_hunks] in one: [current] is the hunk the inner loop is in. *)
Fixpoint parse_hunks (current : option Hunk) (lines : list string) : result (list Hunk * list string) string :=
  match lines with
  | [] => Ok (close_hunk current, [])
  | line :: rest =>
    if ends_file line then Ok (close_hunk current, lines)
    else if starts_with line "@@" then
      let? start := parse_hunk_header line in
      let? parsed := parse_hunks (Some {| hk_old_start := start; hk_lines := [] |}) rest in
      Ok (close_hunk current ++ parsed.1, parsed.2)
    else
      match current with
      | None => parse_hunks None rest
      | Some h => parse_hunks (Some {| hk_old_start := hk_old_start h; hk_lines := hk_lines h ++ hunk_line line |}) rest
      end
  end.

(** The fuel is the number of lines; every round takes one ([parse_files_total]). *)
Fixpoint parse_files (fuel : nat) (lines : list string) : option (result (list FilePatch) string) :=
  match lines, fuel with
  | [], _ => Some (Ok [])
  | _, O => None
  | line :: rest, S fuel =>
    if is_skipped_line line then parse_files fuel rest
    else
      match str_strip_prefix line "--- " with
      | None => Some (Err ("patch format error: unexpected line '" +:+ chars_take 40 line +:+ "'"))
      | Some old_path =>
        match normalize_unified_diff_path old_path with
        | Err e => Some (Err e)
        | Ok old_path =>
          match head rest ≫= λ new_line, str_strip_prefix new_line "+++ " with
          | None => Some (Err format_error)
          | Some new_path =>
            match normalize_unified_diff_path new_path with
            | Err e => Some (Err e)
            | Ok new_path =>
              match parse_hunks None (tail rest) with
              | Err e => Some (Err e)
              | Ok ([], _) => Some (Err ("patch for " +:+ new_path +:+ " does not contain a hunk"))
              | Ok (hunks, rest) =>
                let patch := {| fp_old_path := path_option old_path; fp_new_path := path_option new_path; fp_hunks := hunks |} in
                match parse_files fuel rest with
                | Some (Ok patches) => Some (Ok (patch :: patches))
                | r => r
                end
              end
            end
          end
        end
      end
  end.

Definition parse_patch (patch : string) : option (result (list FilePatch) string) :=
  if is_empty (trim patch) then Some (Err "patch must not be empty"%string)
  else
    match parse_files (length (lines patch)) (lines patch) with
    | Some (Ok []) => Some (Err "patch does not contain any file changes"%string)
    | r => r
    end.

(** ** Application *)

Definition hunk_old (h : list HunkLine) : list string :=
  omap (λ l, match l with HL_Context s | HL_Delete s => Some s | HL_Add _ => None end) h.

Definition count_line (counts : nat * nat) (line : HunkLine) : nat * nat :=
  match line with
  | HL_Add _ => (S counts.1, counts.2)
  | HL_Delete _ => (counts.1, S counts.2)
  | HL_Context _ => counts
  end.
Definition hunk_counts (h : Hunk) : nat * nat := foldl count_line (0, 0) (hk_lines h).

Definition matches_at (content expected : list string) (position : nat) : bool :=
  bool_decide (position + length expected ≤ length content)
  && forallb (λ p, bool_decide (content !! (position + p.1) = Some p.2)) (imap pair expected).

(** Where a hunk is looked for when it is not at its place: before it, then behind it. *)
Definition other_positions (content expected : list string) (anchor : nat) : list nat :=
  let lower := anchor - Nat.max (length expected) 10 in
  reverse (seq lower (anchor - lower)) ++ seq (S anchor) (length content - length expected - anchor).

Definition find_match (content : list string) (hunk : list HunkLine) (anchor : nat) : option nat :=
  let expected := hunk_old hunk in
  match expected with
  | [] => Some (Nat.min anchor (length content))
  | _ =>
    if matches_at content expected anchor then Some anchor
    else find_first (matches_at content expected) (other_positions content expected anchor)
  end.

(** The lines of a hunk against the lines of the file. *)
Fixpoint replace_lines (content : list string) (hunk : list HunkLine) (source : nat) : result (list string * nat) string :=
  match hunk with
  | [] => Ok ([], source)
  | HL_Context expected :: hunk =>
    match content !! source with
    | None => Err ("expected context '" +:+ expected +:+ "' at end of file")
    | Some actual =>
      if bool_decide (actual = expected) then
        let? r := replace_lines content hunk (S source) in Ok (actual :: r.1, r.2)
      else Err ("expected context '" +:+ expected +:+ "', got '" +:+ actual +:+ "'")
    end
  | HL_Delete expected :: hunk =>
    match content !! source with
    | None => Err ("expected deletion '" +:+ expected +:+ "' at end of file")
    | Some actual =>
      if bool_decide (actual = expected) then replace_lines content hunk (S source)
      else Err ("expected deletion '" +:+ expected +:+ "', got '" +:+ actual +:+ "'")
    end
  | HL_Add line :: hunk => let? r := replace_lines content hunk source in Ok (line :: r.1, r.2)
  end.

(** [isize], 64 bits: the cast and the sum wrap. *)
Definition wrap_isize (z : Z) : Z := (z + 2 ^ 63) mod 2 ^ 64 - 2 ^ 63.
Definition anchor_of (old_start : N) (line_delta : Z) (len : nat) : nat :=
  let base := wrap_isize (Z.of_N (old_start - 1)) in
  Z.to_nat (Z.max 0 (Z.min (wrap_isize (base + line_delta)) (Z.of_nat len))).

Definition splice (content : list string) (from to : nat) (replacement : list string) : list string :=
  take from content ++ replacement ++ drop to content.

Fixpoint apply_loop (index : N) (line_delta : Z) (result_ : list string) (hunks : list Hunk) : result (list string) string :=
  match hunks with
  | [] => Ok result_
  | hunk :: hunks =>
    let anchor := anchor_of (hk_old_start hunk) line_delta (length result_) in
    match find_match result_ (hk_lines hunk) anchor with
    | None =>
      Err ("hunk #" +:+ u64_to_string (index + 1) +:+ " around line " +:+ u64_to_string (hk_old_start hunk)
           +:+ " failed: context mismatch")
    | Some position =>
      let? r := replace_lines result_ (hk_lines hunk) position in
      let counts := hunk_counts hunk in
      apply_loop (index + 1) (line_delta + Z.of_nat counts.1 - Z.of_nat counts.2)
        (splice result_ position r.2 r.1) hunks
    end
  end.
Definition apply_hunks (content : list string) (hunks : list Hunk) : result (list string) string := apply_loop 0 0 content hunks.

(** ** Documents *)

Inductive LineEnding := Ending_Lf | Ending_Crlf.

Definition cr : ascii := ascii_of_N 13.
Definition ending_str (e : LineEnding) : string :=
  match e with Ending_Lf => String lf "" | Ending_Crlf => String cr (String lf "") end.

Record TextDocument := { td_lines : list string; td_line_ending : LineEnding; td_has_trailing_newline : bool }.

Definition parse_document (content : string) : TextDocument :=
  {| td_lines := if is_empty content then [] else lines content;
     td_line_ending := if str_contains content (ending_str Ending_Crlf) then Ending_Crlf else Ending_Lf;
     td_has_trailing_newline := ends_with content (String lf "") |}.

Definition render_document (ls : list string) (ending : LineEnding) (trailing_newline : bool) : string :=
  let content := join (ending_str ending) ls in
  if trailing_newline && negb (bool_decide (ls = [])) then content +:+ ending_str ending else content.

Definition request_implies_trailing_newline (patch : FilePatch) : bool :=
  match last (fp_hunks patch) with
  | Some hunk => match last (hk_lines hunk) with Some (HL_Add _) | Some (HL_Context _) => true | _ => false end
  | None => false
  end.

Definition patch_counts (patch : FilePatch) : nat * nat :=
  foldl (λ a c, (a.1 + c.1, a.2 + c.2)) (0, 0) (hunk_counts <$> fp_hunks patch).

(** ** One file ([apply_file_patch]) *)

Inductive PatchChangeKind := Patch_Created | Patch_Updated | Patch_Deleted.

Record PatchChange := {
  pc_kind : PatchChangeKind;
  pc_path : string;
  pc_applied : bool;
  pc_summary : string;
  pc_error : option string;
}.

Definition succeeded (kind : PatchChangeKind) (path summary : string) : PatchChange :=
  {| pc_kind := kind; pc_path := path; pc_applied := true; pc_summary := summary; pc_error := None |}.
Definition failed (kind : PatchChangeKind) (path error : string) : PatchChange :=
  {| pc_kind := kind; pc_path := path; pc_applied := false; pc_summary := error; pc_error := Some error |}.

Definition kind_name (kind : PatchChangeKind) : string :=
  match kind with Patch_Created => "created" | Patch_Updated => "updated" | Patch_Deleted => "deleted" end.

Definition patch_kind (patch : FilePatch) : PatchChangeKind :=
  match fp_old_path patch, fp_new_path patch with
  | None, _ => Patch_Created
  | _, None => Patch_Deleted
  | _, _ => Patch_Updated
  end.

(** Only the message of an error is reported. *)
Definition patch_error (message : string) : ErrorPayload := ErrorPayload_new Code_InvalidInput message.
Definition describe {W A} (prefix : string) (m : Io W A) : Io W A :=
  λ s, let '(s, r) := m s in (s, map_err (λ e, patch_error (prefix +:+ ep_message e)) r).

Section patch.
  Context {W : Type} {fs : FileSystem W}.
  Context (process_id : N) (sha256 : string → string) (root capability : string) (allow_sensitive_paths : bool).

(** The checks before the file is read, and where it is. *)
Definition locate_file (patch : FilePatch) (label : string) : Io W string :=
  let existing := bool_decide (is_Some (fp_old_path patch)) in
  let! _ := io_lift match fp_old_path patch, fp_new_path patch with
    | Some old, Some new => if bool_decide (old = new) then Ok tt else Err (patch_error "rename patches are not supported")
    | _, _ => Ok tt
    end in
  let! _ := io_lift (enforce_sensitive_path label allow_sensitive_paths) in
  let! _ := (if existing && is_absolute label then reject_symlink_target label capability else io_ret tt) in
  let! path := (if existing then resolve_existing_path root label capability
                else let! target := resolve_write_target root label capability true in
                     io_ret (path_join target.1.1 target.1.2)) in
  let! _ := io_get (λ w, if negb existing && path_exists w path
                         then Err (patch_error "create patch target already exists") else Ok tt) in
  let! _ := (if existing then ensure_observation_current sha256 path else io_ret tt) in
  io_ret path.

Definition patch_source (patch : FilePatch) (path : string) : Io W string :=
  if bool_decide (is_Some (fp_old_path patch)) then
    io_get (λ w, match fs_read w path with
                 | Err e => Err (patch_error ("read failed: " +:+ io_display e))
                 | Ok c => if utf8_valid (String.list_ascii_of_string c) then Ok c
                           else Err (patch_error "read failed: stream did not contain valid UTF-8")
                 end)
  else io_ret "".

Definition delete_file (path label : string) (ls : list string) : Io W string :=
  let! _ := io_lift (if bool_decide (ls = []) then Ok tt
                     else Err (patch_error "delete patch does not remove the full file")) in
  let! _ := (if is_absolute label then reject_symlink_target label capability else io_ret tt) in
  let! _ := describe "delete failed: " (change (λ w, fs_remove_file w path)) in
  io_ret ("deleted " +:+ path).

Definition store_file (patch : FilePatch) (path content : string) : Io W string :=
  let! _ := describe "write failed: " (write_atomic process_id path content) in
  let! _ := remember_observation sha256 path in
  let counts := patch_counts patch in
  io_ret (kind_name (patch_kind patch) +:+ " " +:+ path +:+ " (+" +:+ u64_to_string (N.of_nat counts.1)
          +:+ " -" +:+ u64_to_string (N.of_nat counts.2) +:+ ")").

Definition patched_content (patch : FilePatch) (document : TextDocument) (ls : list string) : string :=
  render_document ls (td_line_ending document)
    (if bool_decide (is_Some (fp_old_path patch)) then td_has_trailing_newline document
     else request_implies_trailing_newline patch).

Definition patch_file (patch : FilePatch) (label : string) : Io W string :=
  let! path := locate_file patch label in
  let! original := patch_source patch path in
  let document := parse_document original in
  let! ls := io_lift (map_err patch_error (apply_hunks (td_lines document) (fp_hunks patch))) in
  match patch_kind patch with
  | Patch_Deleted => delete_file path label ls
  | _ => store_file patch path (patched_content patch document ls)
  end.

Definition patch_label (patch : FilePatch) : option string :=
  match fp_new_path patch with Some p => Some p | None => fp_old_path patch end.

(** The report on one file; no error leaves it. *)
Definition apply_file_patch (patch : FilePatch) (s : WsState W) : WsState W * PatchChange :=
  match patch_label patch with
  | None => (s, failed Patch_Updated "unknown" "patch specifies neither old nor new path")
  | Some label =>
    let '(s, r) := patch_file patch label s in
    (s, match r with
        | Ok summary => succeeded (patch_kind patch) label summary
        | Err e => failed (patch_kind patch) label (ep_message e)
        end)
  end.

Fixpoint apply_file_patches (patches : list FilePatch) (s : WsState W) : WsState W * list PatchChange :=
  match patches with
  | [] => (s, [])
  | patch :: patches =>
    let '(s, c) := apply_file_patch patch s in
    let '(s, cs) := apply_file_patches patches s in
    (s, c :: cs)
  end.

Definition apply_patch_with_access (patch : string) (s : WsState W) : WsState W * option (result (list PatchChange) ErrorPayload) :=
  match parse_patch patch with
  | None => (s, None)
  | Some (Err e) => (s, Some (Err (patch_error e)))
  | Some (Ok patches) => let '(s, changes) := apply_file_patches patches s in (s, Some (Ok changes))
  end.
End patch.
