(* ===== verification/ExtInvoke.v ===== *)
(** * Calls of the host by an extension
    ([astrcode-extensions/src/host_router.rs], [host_router/capability.rs], the dispatch of
    [host_router/workspace.rs])

    What a call has to pass before it reaches a backend, and the dispatch of the workspace operations.  How a
    request is read from JSON and a response is written ([serde]) is the argument [WorkspaceWire]; the searches
    (on [ignore], [globset] and [regex]) and the backends of the other groups are arguments too. *)

From S2P Require Import Prelude CoreTypes CoreLlm ProjReducer StoreTypes S5rWire StdPath StdStr CoreAccess ExtCatalog ExtFiles ExtPatch.

(** ** The context of a call *)

(** [ExtensionTasks]: it runs what it is given, or is shutting down with the text of its error. *)
Inductive TaskOwner := Tasks_Running | Tasks_ShuttingDown (display : string).

(** The fields of [InvokeContext] the calls look at, and which backends the router has. *)
Record InvokeContext := {
  ic_session_id : option string;
  ic_resource_lease : option ResourceLease;
  ic_planning : bool;
  ic_working_dir : option string;
  ic_cancelled : option bool;  (** the token, and whether it is cancelled *)
  ic_tasks : option TaskOwner;
  ic_declared_capabilities : list ExtensionCapability;
  ic_generation_active : bool;
  ic_session_ops : bool;
  ic_session_store_dir : bool;
  ic_event_tx : bool;
  ic_tool_result_reader : bool;
  ic_service_dispatcher : bool;
}.

Record HostRouter := {
  hr_main_llm : bool;
  hr_small_llm : bool;
  hr_event_reader : bool;
  hr_session_reader : bool;
  hr_workspace_default_dir : option string;
  hr_process_available : option string → bool;
  hr_network : bool;
  hr_public_http : bool;
}.

(** ** Lookup and authorization *)

Definition lookup_operation (name : string) : result HostOperationSpec ErrorPayload :=
  let? operation := ok_or (from_wire_name name)
    (ErrorPayload_new Code_UnknownCapability ("unknown astrcode capability: " +:+ name)) in
  Ok (spec operation).

Definition authorize (spec : HostOperationSpec) (declared : list ExtensionCapability) : result unit ErrorPayload :=
  match sp_required spec with
  | None => Ok tt
  | Some required =>
    if bool_decide (required ∈ declared) then Ok tt
    else Err (ErrorPayload_new Code_PermissionDenied
                (sp_name spec +:+ " requires declared capability " +:+ capability_as_str required))
  end.

Definition has_root (router : HostRouter) (working_dir : option string) : bool :=
  bool_decide (is_Some working_dir) || bool_decide (is_Some (hr_workspace_default_dir router)).

Definition backend_available (router : HostRouter) (backend : HostBackendRequirement) (ctx : InvokeContext) : bool :=
  match backend with
  | Backend_ServiceDispatcher => ic_service_dispatcher ctx
  | Backend_MainLlm => hr_main_llm router
  | Backend_SmallLlm => hr_small_llm router
  | Backend_SessionEventReader => hr_event_reader router
  | Backend_SessionReader => hr_session_reader router
  | Backend_SessionOperations => ic_session_ops ctx
  | Backend_SessionOperationsAndReader => ic_session_ops ctx && hr_session_reader router
  | Backend_SessionStoreDir => ic_session_store_dir ctx
  | Backend_SessionStoreDirAndTasks => ic_session_store_dir ctx && bool_decide (is_Some (ic_tasks ctx))
  | Backend_EventSender => ic_event_tx ctx
  | Backend_WorkspaceDir => has_root router (ic_working_dir ctx)
  | Backend_WorkspaceDirAndTasks => has_root router (ic_working_dir ctx) && bool_decide (is_Some (ic_tasks ctx))
  | Backend_ToolResultReader => ic_tool_result_reader ctx
  | Backend_ProcessWorkingDir => hr_process_available router (ic_working_dir ctx)
  | Backend_NetworkService => hr_network router
  | Backend_PublicHttpDispatcher => hr_public_http router
  end.

Definition available_operations (router : HostRouter) (ctx : InvokeContext) : list HostOperation :=
  omap (λ s, if backend_available router (sp_backend s) ctx then Some (sp_operation s) else None) HOST_OPERATION_SPECS.

Instance TaskOwner_eq_dec : EqDecision TaskOwner.
Proof. solve_decision. Defined.

Definition ensure_invoke_active (ctx : InvokeContext) : result unit ErrorPayload :=
  if negb (ic_generation_active ctx) then
    Err (ErrorPayload_new Code_HostNotReady "extension generation is not active")
  else if default false (ic_cancelled ctx) then Err (ErrorPayload_new Code_Cancelled "invoke cancelled")
  else Ok tt.

Definition ensure_not_planning (ctx : InvokeContext) : result unit ErrorPayload :=
  if ic_planning ctx
  then Err (ErrorPayload_new Code_PermissionDenied "Host operations are unavailable during tool planning")
  else Ok tt.

Definition ensure_required_context (operation : HostOperation) (ctx : InvokeContext) : result unit ErrorPayload :=
  if bool_decide (sp_context (spec operation) = Need_Session) && bool_decide (ic_session_id ctx = None) then
    Err (ErrorPayload_new Code_ContextUnavailable (wire_name operation +:+ " requires a session-scoped call context"))
  else if bool_decide (sp_context (spec operation) = Need_Workspace) && bool_decide (ic_working_dir ctx = None) then
    Err (ErrorPayload_new Code_ContextUnavailable (wire_name operation +:+ " requires a workspace-scoped call context"))
  else Ok tt.

(** ** Requests on the wire *)

Record HostWorkspaceListRequest := { lr_path : string; lr_depth : N; lr_limit : option N }.
(** Of the requests of the searches, the directory. *)
Record SearchRoot := { sr_path : option string }.

Record WorkspaceWire := {
  parse_read : Value → result HostWorkspaceReadRequest string;
  parse_write : Value → result HostWorkspaceWriteRequest string;
  parse_edit : Value → result HostWorkspaceEditRequest string;
  parse_apply_patch : Value → result string string;
  parse_list : Value → result HostWorkspaceListRequest string;
  parse_grep : Value → result SearchRoot string;
  parse_glob : Value → result SearchRoot string;
  parse_tool_result : Value → result unit string;
  read_to_value : HostWorkspaceReadOutput → result Value string;
  write_to_value : HostWorkspaceWriteOutput → result Value string;
  edit_to_value : HostWorkspaceEditOutput → result Value string;
  changes_to_value : list PatchChange → result Value string;
}.

Definition parse_wire_request {T} (parse : Value → result T string) (input : Value) (capability : string)
    : result T ErrorPayload :=
  map_err (λ e, ErrorPayload_new Code_InvalidInput ("invalid " +:+ capability +:+ " request: " +:+ e)) (parse input).

Definition serialize_wire_response {T} (to_value : T → result Value string) (output : T) (capability : string)
    : result Value ErrorPayload :=
  map_err (λ e, ErrorPayload_new Code_SerializationFailed ("failed to serialize " +:+ capability +:+ " response: " +:+ e))
    (to_value output).

(** ** Leases *)

Section calls.
  Context (wire : WorkspaceWire).

Definition workspace_path (operation : HostOperation) (ctx : InvokeContext) (path : string) : result string ErrorPayload :=
  let? dir := ok_or (ic_working_dir ctx)
    (ErrorPayload_new Code_ContextUnavailable (wire_name operation +:+ " requires a workspace")) in
  Ok (path_join dir path).

Definition patch_accesses (operation : HostOperation) (ctx : InvokeContext) (paths : list WorkspacePatchPaths)
    : result (list ResourceAccess) ErrorPayload :=
  try_map (λ path, let? p := workspace_path operation ctx path in Ok (read_write_file p))
    (concat ((λ paths, option_list (wp_old_path paths) ++ option_list (wp_new_path paths)) <$> paths)).

Definition required_resource_accesses (operation : HostOperation) (input : Value) (ctx : InvokeContext)
    : result (list ResourceAccess) ErrorPayload :=
  let name := wire_name operation in
  match operation with
  | Hop_WorkspaceRead =>
    let? request := parse_wire_request (parse_read wire) input name in
    let? p := workspace_path operation ctx (rr_path request) in Ok [read_file p]
  | Hop_ToolResultRead =>
    let? _ := parse_wire_request (parse_tool_result wire) input name in Ok [Access_Host Host_ToolResultArtifact]
  | Hop_WorkspaceWrite =>
    let? request := parse_wire_request (parse_write wire) input name in
    let? p := workspace_path operation ctx (wr_path request) in Ok [write_file p]
  | Hop_WorkspaceEdit =>
    let? request := parse_wire_request (parse_edit wire) input name in
    let? p := workspace_path operation ctx (er_path request) in Ok [read_write_file p]
  | Hop_WorkspaceApplyPatch =>
    let? patch := parse_wire_request (parse_apply_patch wire) input name in
    let? paths := map_err (ErrorPayload_new Code_InvalidInput) (analyze_unified_diff_paths patch) in
    patch_accesses operation ctx paths
  | Hop_WorkspaceList =>
    let? request := parse_wire_request (parse_list wire) input name in
    let? p := workspace_path operation ctx (lr_path request) in Ok [search_file p true]
  | Hop_WorkspaceGrep =>
    let? request := parse_wire_request (parse_grep wire) input name in
    let? p := workspace_path operation ctx (default "." (sr_path request)) in Ok [search_file p true]
  | Hop_WorkspaceGlob =>
    let? request := parse_wire_request (parse_glob wire) input name in
    let? p := workspace_path operation ctx (default "." (sr_path request)) in Ok [search_file p true]
  | Hop_ProcessSpawn | Hop_ProcessStart | Hop_ProcessRead | Hop_ProcessInput | Hop_ProcessStatus
  | Hop_ProcessPromote | Hop_ProcessKill | Hop_ProcessList => Ok [Access_Host Host_Process]
  | _ =>
    match sp_group (spec operation) with
    | Group_Service => Ok [Access_Host Host_ExtensionService]
    | Group_Llm => Ok [Access_Host Host_Model]
    | Group_Session => Ok [Access_Host Host_Session]
    | Group_Network => Ok [Access_Host Host_Network]
    | Group_ToolResult => Ok [Access_Host Host_ToolResultArtifact]
    | Group_ExtensionHttp => Ok [Access_Host Host_ExtensionHttp]
    | Group_Context =>
      if bool_decide (operation = Hop_EventEmit) then Ok [Access_Host Host_Event] else Ok [Access_Host Host_Session]
    | Group_Workspace | Group_Process =>
      Err (ErrorPayload_new Code_InvalidCapabilityRegistry (name +:+ " has no resource mapping"))
    end
  end.

Definition enforce_resource_lease (operation : HostOperation) (input : Value) (ctx : InvokeContext)
    : result unit ErrorPayload :=
  match ic_resource_lease ctx with
  | None => Ok tt
  | Some lease =>
    let? required := required_resource_accesses operation input ctx in
    if forallb (permits lease) required then Ok tt
    else Err (ErrorPayload_new Code_PermissionDenied
                (wire_name operation +:+ " exceeds the resource lease for this tool call"))
  end.

Definition validate_invoke (capability : string) (input : Value) (ctx : InvokeContext)
    : result HostOperationSpec ErrorPayload :=
  let? _ := ensure_invoke_active ctx in
  let? _ := ensure_not_planning ctx in
  let? spec := lookup_operation capability in
  let? _ := authorize spec (ic_declared_capabilities ctx) in
  let? _ := ensure_required_context (sp_operation spec) ctx in
  let? _ := enforce_resource_lease (sp_operation spec) input ctx in
  Ok spec.

(** ** Dispatch *)

Context {W : Type} {fs : FileSystem W}.
Context (process_id : N) (sha256 base64 : string → string) (text_diff : string → string → TextDiff).
Context (router : HostRouter).

(** The searches only look at the files. *)
Context (search : HostOperation → string → Value → bool → W → result Value ErrorPayload).

Definition backend_unavailable (message : string) : ErrorPayload := ErrorPayload_new Code_BackendUnavailable message.

Definition workspace_root (working_dir : option string) : result string ErrorPayload :=
  match working_dir, hr_workspace_default_dir router with
  | Some dir, _ | None, Some dir => Ok dir
  | None, None => Err (backend_unavailable "working_dir not set")
  end.

(** [run_workspace_io]; the task of the blocking pool does not fail. *)
Definition run_workspace_io {Request Output} (parse : Value → result Request string)
    (to_value : Output → result Value string) (operation : HostOperation) (input : Value)
    (handler : Request → string → Io W Output) : Io W Value :=
  let name := wire_name operation in
  let! request := io_lift (parse_wire_request parse input name) in
  let! output := handler request name in
  io_lift (serialize_wire_response to_value output name).

(** [run_blocking_io_to_completion]. *)
Definition run_to_completion {A} (tasks : option TaskOwner) (m : Io W A) : Io W A :=
  match tasks with
  | None => io_lift (Err (backend_unavailable "extension task owner is unavailable for persistent host I/O"))
  | Some (Tasks_ShuttingDown display) => io_lift (Err (ErrorPayload_new Code_Cancelled display))
  | Some Tasks_Running => m
  end.

Definition run_persistent_workspace_io {Request Output} (tasks : option TaskOwner)
    (parse : Value → result Request string) (to_value : Output → result Value string) (operation : HostOperation)
    (input : Value) (handler : Request → string → Io W Output) : Io W Value :=
  let name := wire_name operation in
  let! request := io_lift (parse_wire_request parse input name) in
  let! output := run_to_completion tasks (handler request name) in
  io_lift (serialize_wire_response to_value output name).

Definition invalid_group_operation (operation : HostOperation) (group : string) : ErrorPayload :=
  ErrorPayload_new Code_InvalidCapabilityRegistry
    (wire_name operation +:+ " is not a " +:+ group +:+ " host operation").

(** Reading a patch always ends ([parse_files_total]), so there is always an answer. *)
Definition apply_patch_io (root patch name : string) (allow_sensitive_paths : bool) : Io W (list PatchChange) :=
  λ s, let '(s, r) := apply_patch_with_access process_id sha256 root name allow_sensitive_paths patch s in
       (s, default (Err (patch_error "")) r).

(** [WorkspaceGroup::invoke]. *)
Definition workspace_invoke (operation : HostOperation) (input : Value) (ctx : InvokeContext) : Io W Value :=
  let! root := io_lift (workspace_root (ic_working_dir ctx)) in
  let allow := bool_decide (is_Some (ic_resource_lease ctx))
               && bool_decide (Cap_WorkspaceSensitivePaths ∈ ic_declared_capabilities ctx) in
  match operation with
  | Hop_WorkspaceApplyPatch =>
    run_persistent_workspace_io (ic_tasks ctx) (parse_apply_patch wire) (changes_to_value wire) operation input
      (λ patch name, apply_patch_io root patch name allow)
  | Hop_WorkspaceRead =>
    run_workspace_io (parse_read wire) (read_to_value wire) operation input
      (λ request name, read_with_access sha256 base64 root request name allow)
  | Hop_WorkspaceList | Hop_WorkspaceGrep | Hop_WorkspaceGlob => io_get (search operation root input allow)
  | Hop_WorkspaceWrite =>
    run_persistent_workspace_io (ic_tasks ctx) (parse_write wire) (write_to_value wire) operation input
      (λ request name, write_with_access process_id sha256 text_diff root request name allow)
  | Hop_WorkspaceEdit =>
    run_persistent_workspace_io (ic_tasks ctx) (parse_edit wire) (edit_to_value wire) operation input
      (λ request name, edit_with_access process_id sha256 text_diff root request name allow)
  | _ => io_lift (Err (invalid_group_operation operation "Workspace"))
  end.

(** What the other groups do. *)
Context (other_group : HostOperationGroup → HostOperation → Value → InvokeContext → Io W Value).
(** The call is dropped because its token is cancelled while it runs: what it had done by then. *)
Context (cancelled_while : HostOperation → option (WsState W → WsState W)).

Definition invoke_group (group : HostOperationGroup) (operation : HostOperation) (input : Value) (ctx : InvokeContext)
    : Io W Value :=
  match group with
  | Group_Workspace => workspace_invoke operation input ctx
  | _ => other_group group operation input ctx
  end.

Definition backend_owns_cancellation (operation : HostOperation) : bool :=
  match operation with Hop_ProcessSpawn | Hop_ProcessRead => true | _ => false end.

Definition invoke (capability : string) (input : Value) (ctx : InvokeContext) : Io W Value :=
  let! spec := io_lift (validate_invoke capability input ctx) in
  let operation := sp_operation spec in
  if sp_cancelable spec && negb (backend_owns_cancellation operation) && bool_decide (is_Some (ic_cancelled ctx)) then
    match cancelled_while operation with
    | Some partly => λ s, (partly s, Err (ErrorPayload_new Code_Cancelled "invoke cancelled"))
    | None => invoke_group (sp_group spec) operation input ctx
    end
  else invoke_group (sp_group spec) operation input ctx.

(** [invoke_event_stream]: the group that streams is an argument. *)
Definition validate_stream (capability : string) (input : Value) (ctx : InvokeContext) : result HostOperation ErrorPayload :=
  let? spec := validate_invoke capability input ctx in
  if negb (sp_supports_stream spec) then
    Err (ErrorPayload_new Code_StreamNotSupported ("stream not supported for " +:+ capability))
  else
    match sp_group spec with
    | Group_Llm => Ok (sp_operation spec)
    | _ => Err (ErrorPayload_new Code_InvalidCapabilityRegistry
                  ("streaming capability " +:+ capability +:+ " has no stream handler"))
    end.
End calls.
