(* ===== verification/ExtFilesProofs.v ===== *)
(** * What the file handlers do to the files

    A weakest-precondition calculus for handlers; what an atomic write, a resolution and each handler may change
    ([write_effect], [names], [confined]); that an edit is an edit of what the session has last seen.

    The second chapter: a file system in memory that obeys the laws. *)

From S2P Require Import Prelude Utf8 CoreTypes CoreLlm ProjReducer StoreTypes StdPath StdStr S5rWire ExtFiles.

(** ** Weakest preconditions *)

Definition io_wp {W A} (m : Io W A) (Q : WsState W → result A ErrorPayload → Prop) (s : WsState W) : Prop :=
  Q (m s).1 (m s).2.

(** A postcondition after a step that may fail: the failure has to satisfy it at once. *)
Definition io_then {W A B} (k : A → WsState W → Prop) (Q : WsState W → result B ErrorPayload → Prop)
    (s : WsState W) (r : result A ErrorPayload) : Prop :=
  match r with Ok a => k a s | Err e => Q s (Err e) end.

Section wp.
  Context {W : Type}.

Lemma wp_bind {A B} (m : Io W A) (k : A → Io W B) Q s :
  io_wp m (io_then (λ a, io_wp (k a) Q) Q) s → io_wp (io_bind m k) Q s.
Proof. unfold io_wp, io_bind. destruct (m s) as [s' [a|e]]; done. Qed.

Lemma wp_mono {A} (m : Io W A) (P Q : WsState W → result A ErrorPayload → Prop) s :
  io_wp m P s → (∀ s' r, P s' r → Q s' r) → io_wp m Q s.
Proof. unfold io_wp. auto. Qed.

Lemma wp_ret {A} (a : A) Q (s : WsState W) : Q s (Ok a) → io_wp (io_ret a) Q s.
Proof. done. Qed.
Lemma wp_lift {A} (r : result A ErrorPayload) Q (s : WsState W) : Q s r → io_wp (io_lift r) Q s.
Proof. done. Qed.
Lemma wp_get {A} (f : W → result A ErrorPayload) Q s : Q s (f (ws_world s)) → io_wp (io_get f) Q s.
Proof. done. Qed.

(** A failure that is looked at leaves the state as it was. *)
Lemma wp_lift_bind {A B} (r : result A ErrorPayload) (k : A → Io W B) Q s :
  (∀ e, r = Err e → Q s (Err e)) → (∀ a, r = Ok a → io_wp (k a) Q s) → io_wp (io_bind (io_lift r) k) Q s.
Proof. intros He Ha. apply wp_bind. unfold io_wp, io_lift. simpl. destruct r; simpl; [by apply Ha|by apply He]. Qed.
Lemma wp_get_bind {A B} (f : W → result A ErrorPayload) (k : A → Io W B) Q s :
  (∀ e, f (ws_world s) = Err e → Q s (Err e)) → (∀ a, f (ws_world s) = Ok a → io_wp (k a) Q s) →
  io_wp (io_bind (io_get f) k) Q s.
Proof. intros He Ha. apply wp_bind. unfold io_wp, io_get. simpl. destruct (f (ws_world s)); simpl; [by apply Ha|by apply He]. Qed.
Lemma wp_ask_bind {A B} (f : W → result A IoError) (k : A → Io W B) Q s :
  (∀ e, f (ws_world s) = Err e → Q s (Err (io_error e))) → (∀ a, f (ws_world s) = Ok a → io_wp (k a) Q s) →
  io_wp (io_bind (ask f) k) Q s.
Proof.
  intros He Ha. apply wp_get_bind; destruct (f (ws_world s)) eqn:H; simpl; intros ? [= <-]; auto.
Qed.
End wp.

(** ** Atomic writes *)

Section proofs.
  Context {W : Type} {fs : FileSystem W} {laws : FileSystemLaws W}.
  Context (process_id : N).

Lemma number_digits n : all_digits (u64_to_string n) = true.
Proof.
  unfold u64_to_string, pretty, pretty_N. destruct (decide (n = 0)%N) as [->|Hz]; [done|]. by apply digits_go.
Qed.

Lemma digits_no_slash s : all_digits s = true → has_byte slash s = false.
Proof.
  induction s as [|c s IH]; [done|]. simpl. intros [Hc Hs]%andb_true_iff. rewrite has_byte_cons, IH by done.
  rewrite bool_decide_eq_false_2; [done|]. intros ->. by vm_compute in Hc.
Qed.

Lemma temporary_plain id : plain (temporary_name process_id id).
Proof.
  unfold temporary_name. split_and!; [done..|].
  rewrite !has_byte_app.
  by rewrite (digits_no_slash (u64_to_string process_id)), (digits_no_slash (u64_to_string id)) by apply number_digits.
Qed.

(** A temporary file next to [p]. *)
Definition temporary_of (p t : string) : Prop := ∃ id, t = path_join (atomic_parent p) (temporary_name process_id id).

(** What a write may do to the files: it succeeds, or it leaves them alone, or with a temporary file that was not there. *)
Definition write_effect (p c : string) (before after : gmap string string) (ok : bool) : Prop :=
  if ok then after = <[p := c]> before
  else after = before ∨ ∃ t c', temporary_of p t ∧ before !! t = None ∧ after = <[t := c']> before.

Lemma create_temporary rounds p w id w' id' r :
  fs_direct w p → create_atomic_write_file process_id rounds (atomic_parent p) w id = (w', id', r) →
  (∀ q, fs_direct w q → fs_direct w' q) ∧
  match r with
  | Ok t => temporary_of p t ∧ fs_direct w t ∧ fs_files w !! t = None ∧ fs_files w' = <[t := ""%string]> (fs_files w)
  | Err _ => fs_files w' = fs_files w
  end.
Proof.
  revert w id. induction rounds as [|rounds IH]; intros w id Hp; simpl.
  { intros [= <- <- <-]. auto. }
  assert (fs_direct w (path_join (atomic_parent p) (temporary_name process_id id))) as Ht
    by (apply direct_sibling; [done|apply temporary_plain]).
  destruct (fs_create_new w _) as [w1 r1] eqn:Hc. pose proof (create_new_files _ _ _ _ Ht Hc) as Hf.
  pose proof (λ q, create_new_direct w _ w1 r1 q Hc) as Hd. destruct r1 as [[]|e].
  { intros [= <- <- <-]. split; [done|]. split; [by eexists|]. tauto. }
  destruct (io_already_exists e); [|intros [= <- <- <-]; auto].
  intros Hrec. destruct (IH w1 _ (Hd _ Hp) Hrec) as [Hd' Hr]. split; [auto|]. rewrite <-Hf.
  destruct r as [t|]; [|done]. destruct Hr as (? & ? & ? & ?). split_and!; auto.
  destruct H as [i ->]. apply direct_sibling; [done|apply temporary_plain].
Qed.

Lemma atomic_effect p c w id w' id' r :
  fs_direct w p → write_file_atomic_bytes process_id p c w id = (w', id', r) →
  (∀ q, fs_direct w q → fs_direct w' q) ∧
  write_effect p c (fs_files w) (fs_files w') (match r with Ok _ => true | Err _ => false end).
Proof.
  unfold write_file_atomic_bytes. intros Hp. destruct (fs_create_dir_all w _) as [w1 r1] eqn:H1.
  pose proof (create_dir_all_files _ _ _ _ H1) as F1. pose proof (λ q, create_dir_all_direct _ _ _ _ q H1) as D1.
  destruct r1 as [[]|e]; [|intros [= <- <- <-]; split; [done|by left]].
  destruct (create_atomic_write_file _ _ _ w1 id) as [[w2 id2] r2] eqn:H2.
  destruct (create_temporary _ _ _ _ _ _ _ (D1 _ Hp) H2) as [D2 F2].
  destruct r2 as [t|e]; [|intros [= <- <- <-]; split; [auto|left; congruence]].
  destruct F2 as (Ht & Hdt & Hn & F2). rewrite F1 in Hn, F2.
  destruct (fs_write_all w2 t c) as [w3 r3] eqn:H3.
  pose proof (write_all_files _ _ _ _ _ (D2 _ Hdt) H3) as F3. pose proof (λ q, write_all_direct _ _ _ _ _ q H3) as D3.
  destruct r3 as [[]|e]; [destruct (fs_rename w3 t p) as [w4 r4] eqn:H4|].
  - rewrite F2, insert_insert_eq in F3.
    pose proof (rename_files _ _ _ _ _ c (D3 _ (D2 _ Hdt)) (D3 _ (D2 _ (D1 _ Hp))) ltac:(by rewrite F3, lookup_insert_eq) H4) as F4.
    pose proof (λ q, rename_direct _ _ _ _ _ q H4) as D4.
    destruct r4 as [[]|e]; intros [= <- <- <-].
    + split; [auto|]. simpl. rewrite F4, F3, delete_insert_id by done. done.
    + destruct (fs_remove_file w4 t) as [w5 r5] eqn:H5. simpl.
      pose proof (remove_file_files _ _ _ _ (D4 _ (D3 _ (D2 _ Hdt))) H5) as F5.
      split; [intros q Hq; eapply remove_file_direct; eauto|]. destruct r5.
      * left. by rewrite F5, F4, F3, delete_insert_id.
      * right. exists t, c. split_and!; [done..|]. congruence.
  - intros [= <- <- <-]. destruct F3 as [c' F3]. rewrite F2, insert_insert_eq in F3.
    destruct (fs_remove_file w3 t) as [w5 r5] eqn:H5. simpl.
    pose proof (remove_file_files _ _ _ _ (D3 _ (D2 _ Hdt)) H5) as F5.
    split; [intros q Hq; eapply remove_file_direct; eauto|]. destruct r5.
    + left. by rewrite F5, F3, delete_insert_id.
    + right. exists t, c'. split_and!; [done..|]. congruence.
Qed.

(** ** Resolution *)

(** The file an existing path names. *)
Definition existing_at (root label : string) (w : W) (p : string) : Prop :=
  if is_absolute label then fs_canonicalize w label = Ok p
  else ∃ r, fs_canonicalize w root = Ok r ∧ fs_canonicalize w (path_join r label) = Ok p ∧ path_starts_with p r = true.

(** The directory of the entry a path names, in the file system [w0]. *)
Definition target_dir (root label : string) (w0 : W) (dir : string) : Prop :=
  if is_absolute label then dir = default "" (parent label)
  else ∃ r, fs_canonicalize w0 root = Ok r ∧ dir = path_join r (default "" (parent label)).

(** [w0], or what making that directory has made of it. *)
Definition opened (root label : string) (w0 w : W) : Prop :=
  w = w0 ∨ ∃ dir, target_dir root label w0 dir ∧ w = (fs_create_dir_all w0 dir).1.

(** The entry a path names that is written in the file system [w0]: a directory, there in [w], and a name in it. *)
Definition target_at (root label : string) (w0 w : W) (d name : string) : Prop :=
  file_name label = Some name ∧ opened root label w0 w ∧
  if is_absolute label then fs_canonicalize w (default "" (parent label)) = Ok d
  else ∃ r, fs_canonicalize w0 root = Ok r ∧ fs_canonicalize w (path_join r (default "" (parent label))) = Ok d
            ∧ path_starts_with d r = true.

(** Nothing happened to the contents of files and to the observations. *)
Definition quiet (s s' : WsState W) : Prop :=
  fs_files (ws_world s') = fs_files (ws_world s) ∧ ws_observations s' = ws_observations s.

Lemma quiet_refl s : quiet s s.
Proof. done. Qed.

Lemma file_name_plain label name : file_name label = Some name → plain name.
Proof.
  unfold file_name. destruct (last (components label)) as [[]|] eqn:Hl; intros [= <-].
  eapply components_plain. by apply last_Some_elem_of.
Qed.

Lemma target_direct root label w0 w d name : target_at root label w0 w d name → fs_direct w (path_join d name).
Proof.
  intros (Hf & _ & Hc). apply file_name_plain in Hf. destruct (is_absolute label); [by eapply direct_entry|].
  destruct Hc as (? & ? & ? & ?). by eapply direct_entry.
Qed.

Lemma wp_workspace_path root label Q s :
  (∀ e, Q s (Err e)) →
  (∀ r p, fs_canonicalize (ws_world s) root = Ok r → fs_canonicalize (ws_world s) (path_join r label) = Ok p →
     path_starts_with p r = true → Q s (Ok p)) →
  io_wp (canonicalize_workspace_path root label) Q s.
Proof.
  intros He Hok. unfold canonicalize_workspace_path.
  do 3 (apply wp_lift_bind; [auto|intros _ _]).
  apply wp_ask_bind; [auto|]. intros r Hr. apply wp_ask_bind; [auto|]. intros p Hp.
  apply wp_lift. destruct (path_starts_with p r) eqn:Hs; eauto.
Qed.

Lemma wp_existing root label capability Q s :
  (∀ e, Q s (Err e)) → (∀ p, existing_at root label (ws_world s) p → Q s (Ok p)) →
  io_wp (resolve_existing_path root label capability) Q s.
Proof.
  intros He Hok. unfold existing_at, resolve_existing_path in *. destruct (is_absolute label) eqn:Ha.
  - unfold canonicalize_host_path. rewrite Ha. do 2 (apply wp_lift_bind; [auto|intros _ _]).
    apply wp_get. destruct (fs_canonicalize _ _) eqn:Hc; simpl; auto.
  - apply wp_ask_bind; [auto|]. intros r _. apply wp_get_bind; [auto|]. intros _ _.
    apply wp_workspace_path; eauto 10.
Qed.

Lemma wp_target_parent root label dir create_dirs Q s :
  target_dir root label (ws_world s) dir →
  (∀ s' e, quiet s s' → opened root label (ws_world s) (ws_world s') → Q s' (Err e)) →
  (∀ s' d b, quiet s s' → opened root label (ws_world s) (ws_world s') → fs_canonicalize (ws_world s') dir = Ok d →
     Q s' (Ok (d, b))) →
  io_wp (target_parent dir create_dirs) Q s.
Proof.
  intros Hdir He Hok. assert (opened root label (ws_world s) (ws_world s)) as Hs by by left.
  unfold target_parent. apply wp_get_bind; [done|]. intros b [= <-]. destruct (path_exists _ _); simpl.
  - apply wp_bind, wp_ret. simpl. apply wp_ask_bind; [auto using quiet_refl|]. intros d Hd. apply wp_ret. auto using quiet_refl.
  - apply wp_bind. apply wp_lift_bind; [intros e _; simpl; auto using quiet_refl|]. intros _ _.
    unfold io_wp, change. destruct (fs_create_dir_all _ _) as [w r] eqn:Hw.
    assert (quiet s (WsSt w (ws_next_id s) (ws_observations s))) as Hq
      by (split; [by apply (create_dir_all_files _ _ _ _ Hw)|done]).
    assert (opened root label (ws_world s) w) as Ho by (right; exists dir; by rewrite Hw).
    destruct r; simpl; [|auto]. apply wp_ask_bind; [auto|]. intros d Hd. apply wp_ret. auto.
Qed.

Lemma wp_target root label capability create_dirs Q s :
  (∀ s' e, quiet s s' → opened root label (ws_world s) (ws_world s') → Q s' (Err e)) →
  (∀ s' d name b, quiet s s' → target_at root label (ws_world s) (ws_world s') d name → Q s' (Ok (d, name, b))) →
  io_wp (resolve_write_target root label capability create_dirs) Q s.
Proof.
  intros He Hok. assert (∀ e, Q s (Err e)) as Hnow by (intros e; apply He; [apply quiet_refl|by left]).
  unfold resolve_write_target, target_at in *. destruct (is_absolute label) eqn:Ha.
  - unfold resolve_absolute_write_target. do 2 (apply wp_lift_bind; [auto|intros _ _]).
    apply wp_lift_bind; [auto|]. unfold target_name, ok_or.
    destruct (file_name label) as [n|]; [|done]. intros ? [= <-].
    apply wp_bind, (wp_target_parent root label); [unfold target_dir; by rewrite Ha|auto|].
    intros s' d b Hq Ho Hd. apply wp_ret. simpl. auto.
  - apply wp_lift_bind; [auto|intros _ _].
    apply wp_lift_bind; [auto|]. unfold target_name, ok_or.
    destruct (file_name label) as [n|]; [|done]. intros ? [= <-].
    apply wp_ask_bind; [auto|]. intros r Hr. apply wp_get_bind; [auto|]. intros _ _.
    apply wp_bind, (wp_target_parent root label); [unfold target_dir; rewrite Ha; eauto|auto|].
    intros s' d b Hq Ho Hd. apply wp_lift. simpl.
    destruct (path_starts_with d r) eqn:Hs; [apply Hok; eauto 10|auto].
Qed.

(** ** Observations *)

Context (sha256 : string → string).

(** The digest of a content is in the session's observation of the file. *)
Definition observed (s : WsState W) (p c : string) : Prop :=
  match ws_observations s with
  | None => True
  | Some store => ∃ o, store !! p = Some o ∧ fo_content_fingerprint o = sha256 c
  end.

Lemma wp_remember p Q s :
  (∀ e, Q s (Err e)) →
  (∀ s' c, ws_world s' = ws_world s → (ws_observations s = None → ws_observations s' = None) →
     (ws_observations s = None ∨ fs_read (ws_world s) p = Ok c) → observed s' p c → Q s' (Ok tt)) →
  io_wp (remember_observation sha256 p) Q s.
Proof.
  intros He Hok. unfold io_wp, remember_observation. destruct (ws_observations s) as [store|] eqn:Ho; simpl.
  2: { apply (Hok s ""); auto. unfold observed. by rewrite Ho. }
  unfold capture_observation, io_bind, ask, io_get, io_ret.
  destruct (fs_metadata _ p) as [m|e]; simpl; [|auto]. destruct (fs_read _ p) as [c|e] eqn:Hr; simpl; [|auto].
  apply (Hok _ c); simpl; [done|done|auto|]. unfold observed, remember. simpl.
  eexists. by rewrite lookup_insert_eq.
Qed.

Lemma wp_ensure p Q s :
  (∀ e, Q s (Err e)) → (∀ c, (ws_observations s = None ∨ fs_read (ws_world s) p = Ok c) → observed s p c → Q s (Ok tt)) →
  io_wp (ensure_observation_current sha256 p) Q s.
Proof.
  intros He Hok. unfold io_wp, ensure_observation_current. destruct (ws_observations s) as [store|] eqn:Ho; simpl.
  2: { apply (Hok ""); auto. unfold observed. by rewrite Ho. }
  destruct (store !! p) as [o|] eqn:Hp; simpl; [|auto].
  unfold capture_observation, io_bind, ask, io_get, io_ret, io_lift.
  destruct (fs_metadata _ p) as [m|e]; simpl; [|auto]. destruct (fs_read _ p) as [c|e] eqn:Hr; simpl; [|auto].
  destruct (observations_match _ _) eqn:Hm; [|auto]. apply (Hok c); [auto|]. unfold observed. rewrite Ho.
  exists o. split; [done|]. unfold observations_match in Hm. rewrite !andb_true_iff in Hm.
  destruct Hm as [_ Hm]. by apply bool_decide_eq_true in Hm.
Qed.

Lemma wp_write_atomic p c Q s :
  fs_direct (ws_world s) p →
  (∀ s' r, ws_observations s' = ws_observations s → fs_direct (ws_world s') p →
     ws_world s' = (write_file_atomic_bytes process_id p c (ws_world s) (ws_next_id s)).1.1 →
     write_effect p c (fs_files (ws_world s)) (fs_files (ws_world s')) (match r with Ok _ => true | Err _ => false end) →
     Q s' r) →
  io_wp (write_atomic process_id p c) Q s.
Proof.
  intros Hp HQ. unfold io_wp, write_atomic.
  destruct (write_file_atomic_bytes _ _ _ _ _) as [[w id] r] eqn:Hw. simpl.
  destruct (atomic_effect _ _ _ _ _ _ _ Hp Hw) as [Hd He]. apply HQ; simpl; [done|auto|done|by destruct r].
Qed.

(** ** Where a handler writes *)

(** The file a path leads to that is resolved in the file system [w0]: one that is there, or an entry of a directory, which
    may have been made for it.  [w] is the file system then. *)
Definition leads (root label : string) (w0 w : W) (t : string) : Prop :=
  (existing_at root label w0 t ∧ w = w0) ∨ ∃ d name, target_at root label w0 w d name ∧ t = path_join d name.
Definition names (root label : string) (w0 : W) (t : string) : Prop := ∃ w, leads root label w0 w t.

Lemma leads_opened root label w0 w t : leads root label w0 w t → opened root label w0 w.
Proof. intros [[_ ->]|(d & name & (_ & Ho & _) & _)]; [by left|done]. Qed.

(** What handling one path may make of the file system: the directory was made, or not; then the file the path leads to was
    written or removed, or neither. *)
Inductive file_step (root label : string) (w0 : W) : W → Prop :=
| step_opened w : opened root label w0 w → file_step root label w0 w
| step_written w t c id :
    leads root label w0 w t → file_step root label w0 (write_file_atomic_bytes process_id t c w id).1.1
| step_removed w t : leads root label w0 w t → file_step root label w0 (fs_remove_file w t).1.

(** The file systems a call reaches that handles such paths one after the other. *)
Definition reached (root : string) (L : string → Prop) : W → W → Prop :=
  rtc (λ w w', ∃ label, L label ∧ file_step root label w w').

(** Only such files change, and temporary files next to them. *)
Definition confined (T : string → Prop) (before after : gmap string string) : Prop :=
  ∀ q, after !! q ≠ before !! q → ∃ t, T t ∧ (q = t ∨ temporary_of t q).

Lemma confined_refl T m : confined T m m.
Proof. by intros q []. Qed.

Lemma confined_trans T m1 m2 m3 : confined T m1 m2 → confined T m2 m3 → confined T m1 m3.
Proof.
  intros H1 H2 q Hq. destruct (decide (m2 !! q = m1 !! q)) as [He|He]; [|by apply H1].
  apply H2. by rewrite He.
Qed.

Lemma confined_mono (T T' : string → Prop) m m' : (∀ t, T t → T' t) → confined T m m' → confined T' m m'.
Proof. intros HT H q Hq. destruct (H q Hq) as (t & ? & ?). eauto. Qed.

Lemma confined_effect (T : string → Prop) p c m m' ok : T p → write_effect p c m m' ok → confined T m m'.
Proof.
  intros HT He q Hq. destruct ok; simpl in He.
  - subst. destruct (decide (q = p)) as [->|Hne]; [eauto|]. by rewrite lookup_insert_ne in Hq.
  - destruct He as [->|(t & c' & Ht & _ & ->)]; [done|].
    destruct (decide (q = t)) as [->|Hne]; [eauto|]. by rewrite lookup_insert_ne in Hq.
Qed.

(** ** Handlers *)

Lemma wp_bounded p max Q s :
  (∀ e, Q s (Err e)) → (∀ r, (∀ c, r = Some c → fs_read_no_follow (ws_world s) p = Ok c) → Q s (Ok r)) →
  io_wp (read_bounded_file p max) Q s.
Proof.
  intros He Hok. unfold read_bounded_file. apply wp_ask_bind; [auto|]. intros c Hc. apply wp_ret, Hok.
  intros c'. by case_bool_decide; intros [= <-].
Qed.

Context (text_diff : string → string → TextDiff).

(** A write either puts the content where the path leads, or does nothing there. *)
Lemma write_spec root request capability allow s :
  io_wp (write_with_access process_id sha256 text_diff root request capability allow) (λ s' r,
    confined (names root (wr_path request) (ws_world s)) (fs_files (ws_world s)) (fs_files (ws_world s')) ∧
    match r with
    | Ok _ => ∃ t, names root (wr_path request) (ws_world s) t ∧
                fs_files (ws_world s') = <[t := wr_content request]> (fs_files (ws_world s)) ∧
                observed s' t (wr_content request)
    | Err _ => True
    end) s.
Proof.
  unfold write_with_access. apply wp_lift_bind; [auto using confined_refl|].
  unfold required_non_empty. destruct (is_empty (wr_path request)); [done|]. intros ? [= <-].
  do 2 (apply wp_lift_bind; [auto using confined_refl|intros _ _]).
  apply wp_bind, wp_target.
  { intros s' e [Hq _] _. simpl. rewrite Hq. auto using confined_refl. }
  intros s1 d name b [Hq1 Hq2] Ht. simpl.
  assert (names root (wr_path request) (ws_world s) (path_join d name)) as Hn
    by (exists (ws_world s1); right; eauto).
  rewrite <-Hq1. do 3 (apply wp_get_bind; [auto using confined_refl|intros ? _]).
  apply wp_bind, wp_write_atomic.
  { by eapply target_direct. }
  intros s2 r Ho Hd _ He. destruct r as [[]|e]; simpl.
  2: { split; [by eapply confined_effect|done]. }
  apply wp_bind, wp_remember; simpl.
  { intros e. split; [by eapply (confined_effect _ _ _ _ _ true)|done]. }
  intros s3 c Hw Hnone Hr Hobs. apply wp_ret. rewrite Hw. split; [by eapply (confined_effect _ _ _ _ _ true)|].
  exists (path_join d name). split_and!; [done..|].
  destruct Hr as [Hr|Hr]; [unfold observed; by rewrite (Hnone Hr)|].
  assert (c = wr_content request) as ->; [|done].
  eapply read_entry; [exact Hd| |exact Hr]. simpl in He. by rewrite He, lookup_insert_eq.
Qed.

(** An edit changes the file the session has last seen, as the operations say. *)
Definition edited (root : string) (request : HostWorkspaceEditRequest) (s s' : WsState W) : Prop :=
  ∃ p c c' n ops, existing_at root (er_path request) (ws_world s) p ∧ fs_files (ws_world s) !! p = Some c ∧
    observed s p c ∧ normalize_edits request = Ok ops ∧
    try_fold (edit_step (er_path request)) (c, 0) ops = Ok (c', n) ∧
    fs_files (ws_world s') = <[p := c']> (fs_files (ws_world s)) ∧ observed s' p c'.

Lemma existing_canonical root label w p : existing_at root label w p → ∃ q, fs_canonicalize w q = Ok p.
Proof. unfold existing_at. destruct (is_absolute label); [by exists label|]. intros (r & _ & H & _). by exists (path_join r label). Qed.

Lemma edit_spec root request capability allow s :
  io_wp (edit_with_access process_id sha256 text_diff root request capability allow) (λ s' r,
    confined (names root (er_path request) (ws_world s)) (fs_files (ws_world s)) (fs_files (ws_world s')) ∧
    match r with Ok _ => edited root request s s' | Err _ => True end) s.
Proof.
  unfold edit_with_access. apply wp_lift_bind; [auto using confined_refl|].
  unfold required_non_empty. destruct (is_empty (er_path request)); [done|]. intros ? [= <-].
  apply wp_lift_bind; [auto using confined_refl|intros ops Hops].
  apply wp_lift_bind; [auto using confined_refl|intros _ _].
  apply wp_bind, wp_existing; [simpl; auto using confined_refl|]. intros p Hp. simpl.
  assert (names root (er_path request) (ws_world s) p) as Hn by (exists (ws_world s); by left).
  destruct (existing_canonical _ _ _ _ Hp) as [q Hq].
  apply wp_bind, wp_ensure; [simpl; auto using confined_refl|]. intros c0 Hc0 Hobs. simpl.
  apply wp_ask_bind; [auto using confined_refl|intros m _].
  apply wp_lift_bind; [auto using confined_refl|intros _ _].
  apply wp_bind, wp_bounded; [simpl; auto using confined_refl|]. intros r Hr. simpl.
  apply wp_lift_bind; [auto using confined_refl|]. destruct r as [c|]; [|done]. intros ? [= <-].
  specialize (Hr c eq_refl). eapply read_no_follow_canonical in Hr; [|done].
  apply wp_lift_bind; [auto using confined_refl|]. unfold from_utf8. destruct (utf8_error _ _); [done|]. intros ? [= <-].
  apply wp_lift_bind; [auto using confined_refl|intros [c' n] Hfold].
  apply wp_lift_bind; [auto using confined_refl|intros _ _].
  apply wp_bind, wp_write_atomic; [by eapply direct_canonical|].
  intros s2 r Ho Hd _ He. destruct r as [[]|e]; simpl.
  2: { split; [by eapply confined_effect|done]. }
  apply wp_bind, wp_remember; simpl.
  { intros e. split; [by eapply (confined_effect _ _ _ _ _ true)|done]. }
  intros s3 c3 Hw Hnone Hr3 Hobs3. apply wp_ret. rewrite Hw. split; [by eapply (confined_effect _ _ _ _ _ true)|].
  exists p, c, c', n, ops. rewrite Hw. split_and!; [done|done| |done|done|done|].
  - destruct Hc0 as [H|H]; [unfold observed; by rewrite H|]. eapply read_canonical in H; [|done]. by simplify_eq.
  - destruct Hr3 as [H|H]; [unfold observed; by rewrite (Hnone H)|].
    assert (c3 = c') as ->; [|done]. eapply read_entry; [exact Hd| |exact H].
    simpl in He. by rewrite He, lookup_insert_eq.
Qed.

Context (base64 : string → string).

(** What a read shows of the content of the file, which the session has then seen; a binary file is not shown. *)
Definition shows (request : HostWorkspaceReadRequest) (c : string) (out : HostWorkspaceReadOutput) : Prop :=
  match out with
  | Read_Text page _ =>
    bounded_text_lines c (rr_line_offset request) (rr_line_limit request) HOST_WORKSPACE_MAX_TEXT_OUTPUT_BYTES = Ok page
    ∨ ∃ chunks n, concat_str chunks = c ∧
        paginate (N.min (default HOST_WORKSPACE_MAX_FILE_BYTES (rr_max_bytes request)) HOST_WORKSPACE_MAX_TEXT_OUTPUT_BYTES)
          (rr_line_offset request) (default usize_max (rr_line_limit request)) chunks None = Ok (Some (page, n))
  | Read_Image _ data _ => data = base64 c
  | Read_Binary _ => True
  end.

Definition read_result (root : string) (request : HostWorkspaceReadRequest) (s s' : WsState W) (out : HostWorkspaceReadOutput)
    : Prop :=
  ∃ p, existing_at root (rr_path request) (ws_world s) p ∧
    (∀ c, fs_files (ws_world s) !! p = Some c → shows request c out) ∧
    match out with
    | Read_Binary _ => True
    | _ => ∃ c, fs_files (ws_world s) !! p = Some c ∧ observed s' p c
    end.

Lemma wp_remember_canonical q p c Q s :
  fs_canonicalize (ws_world s) q = Ok p → fs_files (ws_world s) !! p = Some c →
  (∀ e, Q s (Err e)) → (∀ s', ws_world s' = ws_world s → observed s' p c → Q s' (Ok tt)) →
  io_wp (remember_observation sha256 p) Q s.
Proof.
  intros Hq Hc He Hok. apply wp_remember; [done|]. intros s' c' Hw Hnone Hr Hobs. apply Hok; [done|].
  destruct Hr as [Hr|Hr]; [unfold observed; by rewrite (Hnone Hr)|].
  eapply read_canonical in Hr; [|done]. by simplify_eq.
Qed.

Lemma paginate_complete max offset limit chunks failure page :
  paginate max offset limit chunks failure = Ok (Some page) → failure = None.
Proof. unfold paginate. destruct (page_chunks _ _ _ _ _ _ _) as [[[[? []] ?]|]|]; simpl; repeat case_match; congruence. Qed.

Lemma read_spec root request capability allow s :
  io_wp (read_with_access sha256 base64 root request capability allow) (λ s' r,
    ws_world s' = ws_world s ∧
    match r with Ok out => read_result root request s s' out | Err _ => True end) s.
Proof.
  unfold read_with_access. apply wp_lift_bind; [done|].
  unfold required_non_empty. destruct (is_empty (rr_path request)); [done|]. intros ? [= <-].
  apply wp_lift_bind; [done|intros _ _].
  apply wp_bind, wp_existing; [done|]. intros p Hp. simpl. destruct (existing_canonical _ _ _ _ Hp) as [q Hq].
  apply wp_ask_bind; [done|intros m _]. do 2 (apply wp_lift_bind; [done|intros _ _]).
  destruct (image_media_type p) as [media|]; [|case_match].
  - unfold read_image. apply wp_lift_bind; [done|intros _ _]. apply wp_bind, wp_bounded; [done|]. intros r Hr. simpl.
    apply wp_lift_bind; [done|]. destruct r as [c|]; [|done]. intros ? [= <-].
    specialize (Hr c eq_refl). eapply read_no_follow_canonical in Hr; [|done].
    apply wp_bind. eapply wp_remember_canonical; [done..|]. intros s' Hw Hobs. simpl. apply wp_ret.
    split; [done|]. exists p. split_and!; [done| |eauto]. simpl. intros c' ?. by simplify_eq.
  - unfold read_page. apply wp_ask_bind; [done|intros [chunks failure] Hch].
    apply wp_lift_bind; [done|]. intros [[page n]|] Hpage; simpl.
    2: { apply wp_ret. split; [done|]. by exists p. }
    pose proof (paginate_complete _ _ _ _ _ _ Hpage) as Hf. simpl in Hf. subst failure.
    eapply read_chunks_canonical in Hch; [|done].
    apply wp_bind. eapply wp_remember_canonical; [done..|]. intros s' Hw Hobs. simpl. apply wp_ret.
    split; [done|]. exists p. split_and!; [done| |eauto]. simpl. intros c' ?. simplify_eq. right. eauto.
  - unfold read_text. apply wp_bind, wp_bounded; [done|]. intros r Hr. simpl.
    apply wp_lift_bind; [done|]. destruct r as [c|]; [|done]. intros ? [= <-].
    specialize (Hr c eq_refl). eapply read_no_follow_canonical in Hr; [|done].
    apply wp_bind. eapply wp_remember_canonical; [done..|]. intros s' Hw Hobs. simpl.
    destruct (utf8_error _ _); simpl.
    { apply wp_ret. split; [done|]. by exists p. }
    apply wp_lift_bind; [done|]. intros page Hpage. apply wp_ret.
    split; [done|]. exists p. split_and!; [done| |eauto]. simpl. intros c' ?. simplify_eq. by left.
Qed.
End proofs.

(** * A file system in memory

    The interface [FileSystem] of the file handlers on maps: files, directories and links, each by its path.  It
    obeys [FileSystemLaws], and the examples of the handlers run on it. *)

Record MemFs := {
  mf_files : gmap string string;
  mf_dirs : list string;
  mf_links : gmap string string;
}.

Definition with_files (w : MemFs) (m : gmap string string) : MemFs :=
  {| mf_files := m; mf_dirs := mf_dirs w; mf_links := mf_links w |}.

Definition mem_error (display : string) : IoError :=
  {| io_not_found := false; io_already_exists := false; io_display := display |}.
Definition not_found : IoError :=
  {| io_not_found := true; io_already_exists := false; io_display := "No such file or directory" |}.
Definition already_exists : IoError :=
  {| io_not_found := false; io_already_exists := true; io_display := "File exists" |}.

Definition mem_here (w : MemFs) (q : string) : bool :=
  bool_decide (is_Some (mf_files w !! q)) || bool_decide (q ∈ mf_dirs w).

(** The file or directory behind a path; one separator at its end is dropped, and one link is followed. *)
Definition mem_canonicalize (w : MemFs) (q : string) : result string IoError :=
  if mem_here w q then Ok q
  else if mem_here w (default q (str_strip_suffix q "/")) then Ok (default q (str_strip_suffix q "/"))
  else match mf_links w !! q with
       | Some t => if mem_here w t then Ok t else Err not_found
       | None => Err not_found
       end.

Definition mem_read (w : MemFs) (q : string) : result string IoError :=
  let? p := mem_canonicalize w q in ok_or (mf_files w !! p) (mem_error "Is a directory").

Definition mem_is_symlink (w : MemFs) (q : string) : result bool IoError :=
  if mem_here w q then Ok false
  else match mf_links w !! q with Some _ => Ok true | None => Err not_found end.

Definition mem_metadata (w : MemFs) (q : string) : result Metadata IoError :=
  let? p := mem_canonicalize w q in
  match mf_files w !! p with
  | Some c => Ok {| md_is_file := true; md_len := N.of_nat (String.length c); md_modified_nanos := Some 0%N |}
  | None => Ok {| md_is_file := false; md_len := 0; md_modified_nanos := None |}
  end.

Definition mem_read_chunks (w : MemFs) (q : string) : result (list string * option IoError) IoError :=
  let? c := ok_or (mf_files w !! q) not_found in Ok (if is_empty c then [] else [c], None).

Definition mem_create_dir_all (w : MemFs) (q : string) : MemFs * result unit IoError :=
  if bool_decide (is_Some (mf_files w !! q)) then (w, Err already_exists)
  else ({| mf_files := mf_files w; mf_dirs := q :: mf_dirs w; mf_links := mf_links w |}, Ok tt).

Definition mem_create_new (w : MemFs) (q : string) : MemFs * result unit IoError :=
  if bool_decide (mf_files w !! q = None) && bool_decide (q ∉ mf_dirs w) && bool_decide (mf_links w !! q = None)
  then (with_files w (<[q := ""%string]> (mf_files w)), Ok tt) else (w, Err already_exists).

Definition mem_write_all (w : MemFs) (q c : string) : MemFs * result unit IoError :=
  (with_files w (<[q := c]> (mf_files w)), Ok tt).

Definition mem_rename (w : MemFs) (p q : string) : MemFs * result unit IoError :=
  match mf_files w !! p with
  | None => (w, Err not_found)
  | Some c =>
    if bool_decide (q ∈ mf_dirs w) then (w, Err (mem_error "Is a directory"))
    else ({| mf_files := <[q := c]> (delete p (mf_files w)); mf_dirs := mf_dirs w; mf_links := delete q (mf_links w) |}, Ok tt)
  end.

Definition mem_remove_file (w : MemFs) (q : string) : MemFs * result unit IoError :=
  match mf_files w !! q with
  | Some _ => (with_files w (delete q (mf_files w)), Ok tt)
  | None => (w, Err not_found)
  end.

#[export] Instance mem_fs : FileSystem MemFs := {
  fs_files := mf_files;
  fs_canonicalize := mem_canonicalize;
  fs_is_symlink := mem_is_symlink;
  fs_metadata := mem_metadata;
  fs_read := mem_read;
  fs_read_no_follow w q := ok_or (mf_files w !! q) not_found;
  fs_read_chunks := mem_read_chunks;
  fs_create_dir_all := mem_create_dir_all;
  fs_create_new := mem_create_new;
  fs_write_all := mem_write_all;
  fs_rename := mem_rename;
  fs_remove_file := mem_remove_file;
  fs_direct _ _ := True;
}.

Lemma mem_canonical_here w q p : mem_canonicalize w q = Ok p → mem_canonicalize w p = Ok p.
Proof.
  unfold mem_canonicalize at 1. destruct (mem_here w q) eqn:Hq; [|destruct (mem_here w (default q _)) eqn:Hs].
  - intros [= ->]. unfold mem_canonicalize. by rewrite Hq.
  - intros [= <-]. unfold mem_canonicalize. by rewrite Hs.
  - destruct (mf_links w !! q) as [t|]; [|done].
    destruct (mem_here w t) eqn:Ht; [|done]. intros [= ->]. unfold mem_canonicalize. by rewrite Ht.
Qed.

#[export] Instance mem_fs_laws : FileSystemLaws MemFs.
Proof.
  constructor; simpl; try done.
  - intros w p c c' _ Hc. unfold mem_read, mem_canonicalize, mem_here. rewrite bool_decide_eq_true_2 by eauto. simpl.
    rewrite Hc. by intros [= ->].
  - intros w q p c Hq. unfold mem_read. rewrite (mem_canonical_here _ _ _ Hq). unfold ok_or. by case_match; intros [= ->].
  - intros w q p c _. unfold ok_or. by case_match; intros [= ->].
  - intros w q p chunks _. unfold mem_read_chunks, ok_or. destruct (mf_files w !! p) as [c|]; [|done]. simpl.
    destruct (is_empty c) eqn:He; intros [= <-]; simpl.
    + by destruct c.
    + by rewrite str_app_nil_r.
  - intros w p w' r. unfold mem_create_dir_all. by case_bool_decide; intros [= <- <-].
  - intros w p w' r _. unfold mem_create_new. destruct (_ && _) eqn:Hc; intros [= <- <-]; [|done].
    rewrite !andb_true_iff in Hc. destruct Hc as [[Hc _] _]. by apply bool_decide_eq_true in Hc.
  - by intros w p c w' r _ [= <- <-].
  - intros w p q w' r c _ _ Hc. unfold mem_rename. rewrite Hc. by case_bool_decide; intros [= <- <-].
  - intros w p w' r _. unfold mem_remove_file. by case_match; intros [= <- <-].
Qed.
