(* ===== verification/ExtPatchProofs.v ===== *)
(** * Patches do what was authorised, where they say

    The two readers of a patch agree on its paths, so a patch touches only what was authorised; a hunk found at
    its place is applied exactly; a document that is read is written back. *)

From S2P Require Import Prelude Utf8 CoreTypes CoreLlm ProjReducer StoreTypes AiRetry S5rWire StdPath StdStr ExtFiles ExtFilesProofs ExtPatch.

(** ** The two readers *)

Lemma analyze_skip line rest : ends_file line = false → analyze_lines (line :: rest) = analyze_lines rest.
Proof.
  unfold ends_file. intros [H _]%orb_false_iff. simpl. destruct (is_skipped_line line); [done|].
  unfold str_strip_prefix. by rewrite H.
Qed.

Lemma parse_hunks_rest current ls hs rest :
  parse_hunks current ls = Ok (hs, rest) → analyze_lines ls = analyze_lines rest ∧ length rest ≤ length ls.
Proof.
  revert current hs rest. induction ls as [|line ls IH]; intros current hs rest; cbn [parse_hunks].
  { by intros [= _ <-]. }
  destruct (ends_file line) eqn:He; [by intros [= _ <-]|]. rewrite (analyze_skip _ _ He).
  assert (∀ c r, parse_hunks c ls = Ok r → analyze_lines ls = analyze_lines r.2 ∧ length r.2 ≤ length (line :: ls)) as Hrec.
  { intros c [h r] Hp. destruct (IH _ _ _ Hp). simpl in *. split; [done|lia]. }
  destruct (starts_with line "@@").
  - destruct (parse_hunk_header line); [|done]. destruct (parse_hunks _ ls) as [r|] eqn:Hp; [|done].
    intros [= _ <-]. by apply Hrec in Hp.
  - destruct current; intros Hp; by apply Hrec in Hp.
Qed.

(** Every round takes a line. *)
Lemma parse_files_total fuel ls : length ls ≤ fuel → is_Some (parse_files fuel ls).
Proof.
  revert ls. induction fuel as [|fuel IH]; intros [|line rest] Hlen; simpl in *; try lia; [eauto..|].
  destruct (is_skipped_line line); [apply IH; lia|].
  destruct (str_strip_prefix line _); [|eauto]. destruct (normalize_unified_diff_path _); [|eauto].
  destruct (head rest ≫= _); [|eauto]. destruct (normalize_unified_diff_path _); [|eauto].
  destruct (parse_hunks None (tail rest)) as [[hs rest']|] eqn:Hp; [|eauto]. destruct hs; [eauto|].
  apply parse_hunks_rest in Hp as [_ Hl].
  assert (length (tail rest) ≤ length rest) by (destruct rest; simpl; lia).
  destruct (IH rest') as [[|] ->]; [lia|eauto..].
Qed.

Lemma parse_patch_total patch : is_Some (parse_patch patch).
Proof.
  unfold parse_patch. destruct (is_empty (trim patch)); [eauto|].
  destruct (parse_files_total (length (lines patch)) (lines patch) ltac:(lia)) as [[[|]|] ->]; eauto.
Qed.

Definition patch_paths (patch : FilePatch) : WorkspacePatchPaths :=
  {| wp_old_path := fp_old_path patch; wp_new_path := fp_new_path patch |}.

Definition names_nothing (patch : FilePatch) : bool :=
  bool_decide (fp_old_path patch = None) && bool_decide (fp_new_path patch = None).

Lemma analyze_files fuel ls patches :
  parse_files fuel ls = Some (Ok patches) →
  analyze_lines ls = if existsb names_nothing patches
                     then Err "patch file section cannot use /dev/null for both paths"%string
                     else Ok (patch_paths <$> patches).
Proof.
  revert ls patches. induction fuel as [|fuel IH]; intros [|line rest] patches; cbn [parse_files]; try (by intros [= <-]).
  cbn [analyze_lines]. destruct (is_skipped_line line); [apply IH|].
  destruct (str_strip_prefix line _) as [old|]; [|done]. destruct rest as [|new_line rest]; simpl; [by case_match|].
  destruct (normalize_unified_diff_path old) as [old'|]; [|done].
  destruct (str_strip_prefix new_line _) as [new|]; [|done].
  destruct (normalize_unified_diff_path new) as [new'|]; [|done].
  destruct (parse_hunks None rest) as [[[|h hs] rest']|] eqn:Hp; [done| |done].
  apply parse_hunks_rest in Hp as [-> _].
  destruct (parse_files fuel rest') as [[ps|]|] eqn:Hf; [|done..]. intros [= <-]. apply IH in Hf. rewrite Hf.
  cbn [existsb names_nothing wp_old_path wp_new_path fp_old_path fp_new_path]. unfold names_nothing at 2. simpl.
  destruct (bool_decide (path_option old' = None) && bool_decide (path_option new' = None)); [done|].
  simpl. by destruct (existsb names_nothing ps).
Qed.

(** The planner and the lease see the paths the patch is applied to. *)
Lemma analyze_patch patch patches :
  parse_patch patch = Some (Ok patches) →
  analyze_unified_diff_paths patch = if existsb names_nothing patches
                                     then Err "patch file section cannot use /dev/null for both paths"%string
                                     else Ok (patch_paths <$> patches).
Proof.
  unfold parse_patch, analyze_unified_diff_paths. destruct (is_empty (trim patch)); [done|].
  destruct (parse_files _ (lines patch)) as [[[|p ps]|]|] eqn:Hf; [done| |done..]. intros [= <-].
  rewrite (analyze_files _ _ _ Hf). by destruct (existsb _ _).
Qed.

(** ** What a patch changes *)

Section effects.
  Context {W : Type} {fs : FileSystem W} {laws : FileSystemLaws W}.
  Context (process_id : N) (sha256 : string → string) (root capability : string) (allow_sensitive_paths : bool).

Local Abbreviation confined := (confined process_id).
Local Abbreviation files s := (fs_files (ws_world s)).

Lemma wp_describe {A} prefix (m : Io W A) Q s :
  io_wp m (λ s' r, match r with Ok a => Q s' (Ok a) | Err _ => ∀ e, Q s' (Err e) end) s → io_wp (describe prefix m) Q s.
Proof. unfold io_wp, describe. destruct (m s) as [s' [a|e]]; simpl; auto. Qed.

(** Where a patched file is that is looked for in the file system [w0]: the file that is there, or an entry that can be
    made. *)
Definition located (patch : FilePatch) (label : string) (w0 w : W) (path : string) : Prop :=
  if bool_decide (is_Some (fp_old_path patch)) then existing_at root label w0 path ∧ w = w0
  else ∃ d name, target_at root label w0 w d name ∧ path = path_join d name.

Lemma located_leads patch label w0 w path : located patch label w0 w path → leads root label w0 w path.
Proof. unfold located, leads. case_bool_decide; auto. Qed.

Lemma wp_locate patch label Q s :
  (∀ s' e, quiet s s' → opened root label (ws_world s) (ws_world s') → Q s' (Err e)) →
  (∀ s' path, quiet s s' → located patch label (ws_world s) (ws_world s') path → Q s' (Ok path)) →
  io_wp (locate_file sha256 root capability allow_sensitive_paths patch label) Q s.
Proof.
  intros He Hok. assert (∀ e, Q s (Err e)) as Hnow by (intros e; apply He; [apply quiet_refl|by left]).
  unfold locate_file, located in *.
  do 2 (apply wp_lift_bind; [auto|intros _ _]).
  case_bool_decide as Hex; simpl.
  - apply wp_bind. eapply wp_mono with (P := λ s' r, s' = s).
    { by destruct (is_absolute label). }
    intros ? r ->. destruct r; simpl; [|auto].
    apply wp_bind, wp_existing; [simpl; auto|]. intros path Hp. simpl.
    apply wp_get_bind; [auto|intros _ _].
    apply wp_bind, wp_ensure; [simpl; auto|]. intros c _ _. simpl. apply wp_ret. auto using quiet_refl.
  - apply wp_bind, wp_ret. simpl. apply wp_bind, wp_bind, wp_target; [simpl; auto|].
    intros s' d name b Hq Ht. pose proof Ht as (_ & Ho & _). simpl. apply wp_ret. simpl.
    apply wp_get_bind; [auto|intros _ _]. apply wp_bind, wp_ret. simpl. apply wp_ret. eauto 10.
Qed.

Lemma located_direct patch label w0 w path :
  located patch label w0 w path → bool_decide (is_Some (fp_old_path patch)) = false → fs_direct w path.
Proof.
  unfold located. intros H He. rewrite He in H. destruct H as (d & name & Ht & ->). by eapply target_direct.
Qed.

Lemma wp_source patch label w0 path Q s :
  located patch label w0 (ws_world s) path → (∀ e, Q s (Err e)) →
  (∀ c, fs_direct (ws_world s) path → Q s (Ok c)) → io_wp (patch_source patch path) Q s.
Proof.
  intros Hl He Hok. unfold patch_source. destruct (bool_decide (is_Some (fp_old_path patch))) eqn:Hex.
  - apply wp_get. destruct (fs_read _ path) as [c|] eqn:Hr; [|auto]. destruct (utf8_valid _); [|auto]. apply Hok.
    unfold located in Hl. rewrite Hex in Hl. destruct Hl as [Hl <-]. destruct (existing_canonical _ _ _ _ Hl) as [q Hq].
    eapply direct_canonical; [done|]. by eapply read_canonical.
  - apply wp_ret, Hok. by eapply located_direct.
Qed.

Lemma wp_delete path label ls T s :
  T path → fs_direct (ws_world s) path →
  io_wp (delete_file capability path label ls) (λ s' r, confined T (files s) (files s') ∧
    (ws_world s' = ws_world s ∨ ws_world s' = (fs_remove_file (ws_world s) path).1)) s.
Proof.
  intros HT Hd. unfold delete_file. apply wp_lift_bind; [auto using confined_refl|intros _ _].
  apply wp_bind. eapply wp_mono with (P := λ s' r, s' = s).
  { by destruct (is_absolute label). }
  intros ? r ->. destruct r; simpl; [|auto using confined_refl]. apply wp_bind, wp_describe.
  unfold io_wp, change. destruct (fs_remove_file _ path) as [w r] eqn:Hr. simpl.
  pose proof (remove_file_files _ _ _ _ Hd Hr) as Hf. destruct r; simpl.
  - unfold io_wp. simpl. rewrite Hf. split; [|auto]. intros q Hq. exists path. split; [done|]. left.
    destruct (decide (q = path)); [done|]. by rewrite lookup_delete_ne in Hq.
  - intros _. rewrite Hf. auto using confined_refl.
Qed.

Lemma wp_store patch path content T s :
  T path → fs_direct (ws_world s) path →
  io_wp (store_file process_id sha256 patch path content) (λ s' r, confined T (files s) (files s') ∧
    ws_world s' = (write_file_atomic_bytes process_id path content (ws_world s) (ws_next_id s)).1.1) s.
Proof.
  intros HT Hd. unfold store_file. apply wp_bind, wp_describe, wp_write_atomic; [done|].
  intros s1 r Ho Hd1 Hstep He. assert (confined T (files s) (files s1)) as Hc by (by eapply confined_effect).
  destruct r; simpl; [|done]. apply wp_bind, wp_remember; simpl; [done|].
  intros s2 c Hw _ _ _. unfold io_wp. simpl. by rewrite Hw.
Qed.

(** One file of a patch changes nothing but the file its label names. *)
Lemma patch_file_spec patch label s :
  io_wp (patch_file process_id sha256 root capability allow_sensitive_paths patch label)
    (λ s' r, confined (names root label (ws_world s)) (files s) (files s') ∧
       file_step process_id root label (ws_world s) (ws_world s')) s.
Proof.
  unfold patch_file. apply wp_bind, wp_locate; simpl.
  { intros s' e [-> _] Ho. split; [apply confined_refl|by apply step_opened]. }
  intros s1 path [<- _] Hl. pose proof (located_leads _ _ _ _ _ Hl) as Hn.
  assert (file_step process_id root label (ws_world s) (ws_world s1)) as Hs1 by by eapply step_opened, leads_opened.
  apply wp_bind. eapply wp_source; [done|simpl; intros; auto using confined_refl|]. intros c Hd. simpl.
  apply wp_lift_bind; [intros; auto using confined_refl|intros ls _].
  assert (names root label (ws_world s) path) as HT by by exists (ws_world s1).
  assert (∀ content, io_wp (store_file process_id sha256 patch path content) (λ s' r,
    confined (names root label (ws_world s)) (files s1) (files s') ∧
    file_step process_id root label (ws_world s) (ws_world s')) s1) as Hstore.
  { intros content. eapply wp_mono; [by apply wp_store|]. intros s' r [Hc Hw]. split; [done|].
    rewrite Hw. by apply step_written. }
  destruct (patch_kind patch); [apply Hstore..|]. eapply wp_mono; [by apply wp_delete|].
  intros s' r [Hc [Hw|Hw]]; (split; [done|]); rewrite Hw; [done|by apply step_removed].
Qed.

Lemma patch_files_spec (L : string → Prop) patches s :
  (∀ patch label, patch ∈ patches → patch_label patch = Some label → L label) →
  let r := apply_file_patches process_id sha256 root capability allow_sensitive_paths patches s in
  confined (λ t, ∃ label w, L label ∧ reached process_id root L (ws_world s) w ∧ names root label w t)
    (files s) (files r.1) ∧ length r.2 = length patches.
Proof.
  revert s. induction patches as [|patch patches IH]; intros s HL; cbn [apply_file_patches].
  { split; [apply confined_refl|done]. }
  destruct (apply_file_patch _ _ _ _ _ patch s) as [s1 change] eqn:Hp. specialize (IH s1 ltac:(set_solver)).
  destruct (apply_file_patches _ _ _ _ _ patches s1) as [s2 changes]. simpl in *. destruct IH as [IH Hlen].
  split; [|lia].
  assert (confined (λ t, ∃ label, L label ∧ names root label (ws_world s) t) (files s) (files s1) ∧
    reached process_id root L (ws_world s) (ws_world s1)) as [H1 Hr].
  { unfold apply_file_patch in Hp.
    destruct (patch_label patch) as [label|] eqn:Hlabel; [|simplify_eq; split; [apply confined_refl|apply rtc_refl]].
    pose proof (patch_file_spec patch label s) as Hs. unfold io_wp in Hs.
    destruct (patch_file _ _ _ _ _ patch label s) as [s' r]. simplify_eq/=. destruct Hs as [Hc Hstep].
    assert (L label) as Hl by (apply (HL patch label); [set_solver|done]).
    split; [eapply confined_mono; [|exact Hc]; eauto|]. apply rtc_once. eauto. }
  eapply confined_trans; [eapply confined_mono; [|exact H1]|eapply confined_mono; [|exact IH]].
  - intros t (label & Hl & Ht). exists label, (ws_world s). split; [done|]. split; [apply rtc_refl|done].
  - intros t (label & w & Hl & Hw & Ht). exists label, w. split; [done|]. split; [by etrans|done].
Qed.
End effects.

(** Reading a patch always ends, and the paths that are planned and leased for a patch are the paths it is applied
    to: a patch that can be applied is analysed to exactly the paths of its files, in order, or is refused because
    a file has no path at all. *)
Theorem patch_paths_agree patch :
  ∃ r, parse_patch patch = Some r ∧
    ∀ patches, r = Ok patches →
      patches ≠ [] ∧
      analyze_unified_diff_paths patch = if existsb names_nothing patches
                                         then Err "patch file section cannot use /dev/null for both paths"%string
                                         else Ok (patch_paths <$> patches).
Proof.
  destruct (parse_patch_total patch) as [r Hr]. exists r. split; [done|]. intros patches ->.
  split; [|by apply analyze_patch]. intros ->. unfold parse_patch in Hr. destruct (is_empty (trim patch)); [done|].
  by destruct (parse_files _ (lines patch)) as [[[|]|]|].
Qed.
