(* ===== verification/ExtInvokeProofs.v ===== *)
(** * Calls of the host stay within what was granted

    The catalog agrees with itself; a call reaches a backend exactly when the guards let it; a call of the
    workspace under a lease changes only files the lease lets be written; an edit is made to what the session has
    last seen; a file that is replaced is never half written. *)

From S2P Require Import Prelude Utf8 CoreTypes CoreLlm ProjReducer StoreTypes S5rWire StdPath StdStr CoreAccess ExtCatalog ExtFiles ExtFilesProofs ExtPatch ExtPatchProofs ExtInvoke.

(** ** The catalog *)

Lemma spec_operation o : sp_operation (spec o) = o.
Proof. by destruct o. Qed.

(** No error of the computation says that the registry is wrong. *)
Definition mapped {A} (r : result A ErrorPayload) : Prop :=
  ∀ e, r = Err e → ep_code e ≠ WireErrorCode_as_str Code_InvalidCapabilityRegistry.

Lemma mapped_ok {A} (a : A) : mapped (Ok a).
Proof. done. Qed.
Lemma mapped_bind {A B} (r : result A ErrorPayload) (k : A → result B ErrorPayload) :
  mapped r → (∀ a, mapped (k a)) → mapped (let? a := r in k a).
Proof. intros Hr Hk. destruct r as [a|e]; [apply Hk|]. intros e' [= <-]. by apply Hr. Qed.
Lemma mapped_parse {A} parse input name : mapped (@parse_wire_request A parse input name).
Proof. intros e. unfold parse_wire_request. destruct (parse input); intros [= <-]. done. Qed.
Lemma mapped_path o ctx path : mapped (workspace_path o ctx path).
Proof. intros e. unfold workspace_path, ok_or. destruct (ic_working_dir ctx); intros [= <-]. done. Qed.
Lemma mapped_try_map {A B} (f : A → result B ErrorPayload) l : (∀ a, mapped (f a)) → mapped (try_map f l).
Proof. intros Hf. induction l; [done|]. simpl. repeat (apply mapped_bind; [done|intros]). done. Qed.

Lemma mapped_accesses wire o input ctx : mapped (required_resource_accesses wire o input ctx).
Proof.
  destruct o; cbn [required_resource_accesses]; try apply mapped_ok;
    repeat (apply mapped_bind; [apply mapped_parse || apply mapped_path|intros]); try apply mapped_ok.
  apply mapped_bind; [|intros; apply mapped_try_map; intros; apply mapped_bind; [apply mapped_path|done]].
  intros e. destruct (analyze_unified_diff_paths _); intros [= <-]. done.
Qed.

(** The catalog of host operations is consistent: each operation is at its place in the table and its name
    is read back to it, a name that is read is the name of the operation, capability names are read back, only operations of the
    model group stream, so a streaming call always finds its handler, an operation that works on the workspace
    needs a workspace and the right to read or to write it, and every operation has a resource mapping, so the two
    registry errors of the router never happen. *)
Theorem catalog_agrees :
  (∀ o, HOST_OPERATION_SPECS !! operation_index o = Some (spec o) ∧ sp_operation (spec o) = o ∧
        from_wire_name (wire_name o) = Some o) ∧
  (∀ name o, from_wire_name name = Some o → wire_name o = name) ∧
  (∀ c, capability_parse (capability_as_str c) = Some c) ∧
  (∀ o, sp_supports_stream (spec o) = true → sp_group (spec o) = Group_Llm) ∧
  (∀ o, sp_group (spec o) = Group_Workspace →
        sp_context (spec o) = Need_Workspace ∧ sp_cancelable (spec o) = false ∧
        required_capability o = Some (match o with
          | Hop_WorkspaceWrite | Hop_WorkspaceEdit | Hop_WorkspaceApplyPatch => Cap_WorkspaceWrite
          | _ => Cap_WorkspaceRead
          end)) ∧
  (∀ wire o input ctx e, required_resource_accesses wire o input ctx = Err e →
     ep_code e ≠ WireErrorCode_as_str Code_InvalidCapabilityRegistry).
Proof.
  split_and!.
  - intros o. by destruct o; vm_compute.
  - intros name o. unfold from_wire_name. intros (s & Hs & ->)%fmap_Some.
    apply find_first_Some in Hs as [Hin Hs]. apply bool_decide_eq_true in Hs as ->.
    assert (Forall (λ s, wire_name (sp_operation s) = sp_name s) HOST_OPERATION_SPECS) as Hall
      by (by repeat constructor).
    rewrite Forall_forall in Hall. by apply Hall.
  - intros c. by destruct c; vm_compute.
  - intros o. by destruct o; vm_compute.
  - intros o. by destruct o; vm_compute.
  - intros wire o input ctx. apply mapped_accesses.
Qed.

(** ** The guards of a call *)

(** What a call has to bring. *)
Definition granted (wire : WorkspaceWire) (o : HostOperation) (input : Value) (ctx : InvokeContext) : Prop :=
  ic_generation_active ctx = true ∧ ic_cancelled ctx ≠ Some true ∧ ic_planning ctx = false ∧
  (∀ c, required_capability o = Some c → c ∈ ic_declared_capabilities ctx) ∧
  (sp_context (spec o) = Need_Session → is_Some (ic_session_id ctx)) ∧
  (sp_context (spec o) = Need_Workspace → is_Some (ic_working_dir ctx)) ∧
  (∀ lease, ic_resource_lease ctx = Some lease →
     ∃ accesses, required_resource_accesses wire o input ctx = Ok accesses ∧
       ∀ a, a ∈ accesses → permits lease a = true).

Lemma context_ok o ctx :
  ensure_required_context o ctx = Ok tt ↔
  (sp_context (spec o) = Need_Session → is_Some (ic_session_id ctx)) ∧
  (sp_context (spec o) = Need_Workspace → is_Some (ic_working_dir ctx)).
Proof.
  unfold ensure_required_context. rewrite <-!not_eq_None_Some.
  destruct (sp_context (spec o)); simpl; repeat case_bool_decide; simpl; naive_solver.
Qed.

Lemma lease_ok wire o input ctx :
  enforce_resource_lease wire o input ctx = Ok tt ↔
  ∀ lease, ic_resource_lease ctx = Some lease →
    ∃ accesses, required_resource_accesses wire o input ctx = Ok accesses ∧ ∀ a, a ∈ accesses → permits lease a = true.
Proof.
  unfold enforce_resource_lease. destruct (ic_resource_lease ctx) as [lease|]; [|naive_solver].
  destruct (required_resource_accesses wire o input ctx) as [accs|]; [|naive_solver].
  destruct (forallb (permits lease) accs) eqn:Hall.
  - rewrite forallb_forall in Hall. split; [|done]. intros _ ? [= <-]. exists accs. split; [done|].
    intros a Ha. apply Hall. by apply list_elem_of_In.
  - split; [done|]. intros H. destruct (H lease eq_refl) as (? & [= <-] & Hp).
    assert (forallb (permits lease) accs = true); [|congruence].
    apply forallb_forall. intros a Ha. apply Hp. by apply list_elem_of_In.
Qed.

Lemma guard_ok {A} (r : result unit ErrorPayload) (k : result A ErrorPayload) x :
  (let? _ := r in k) = Ok x ↔ r = Ok tt ∧ k = Ok x.
Proof. destruct r as [[]|]; naive_solver. Qed.

Lemma active_ok ctx :
  ensure_invoke_active ctx = Ok tt ↔ ic_generation_active ctx = true ∧ ic_cancelled ctx ≠ Some true.
Proof.
  unfold ensure_invoke_active. destruct (ic_generation_active ctx), (ic_cancelled ctx) as [[]|]; naive_solver.
Qed.

Lemma planning_ok ctx : ensure_not_planning ctx = Ok tt ↔ ic_planning ctx = false.
Proof. unfold ensure_not_planning. destruct (ic_planning ctx); naive_solver. Qed.

Lemma lookup_ok capability sp :
  lookup_operation capability = Ok sp ↔ ∃ o, from_wire_name capability = Some o ∧ sp = spec o.
Proof. unfold lookup_operation. destruct (from_wire_name capability); naive_solver. Qed.

Lemma authorize_ok o declared :
  authorize (spec o) declared = Ok tt ↔ ∀ c, required_capability o = Some c → c ∈ declared.
Proof.
  unfold authorize, required_capability. destruct (sp_required (spec o)); [case_bool_decide|]; naive_solver.
Qed.

Lemma granted_validate wire capability input ctx sp :
  validate_invoke wire capability input ctx = Ok sp ↔
  ∃ o, from_wire_name capability = Some o ∧ sp = spec o ∧ granted wire o input ctx.
Proof.
  unfold validate_invoke, granted. rewrite !guard_ok. rewrite active_ok, planning_ok. split.
  - intros ([Ha Hc] & Hp & H). destruct (lookup_operation capability) as [x|] eqn:Hl; [|done].
    apply lookup_ok in Hl as (o & Ho & ->). rewrite !guard_ok, spec_operation in H. destruct H as (H1 & H2 & H3 & [= <-]).
    rewrite authorize_ok in H1. apply context_ok in H2 as [? ?]. rewrite lease_ok in H3. exists o. auto 10.
  - intros (o & Ho & -> & Ha & Hc & Hp & H1 & H2 & H3 & H4). split; [done|]. split; [done|].
    assert (lookup_operation capability = Ok (spec o)) as -> by (apply lookup_ok; eauto).
    rewrite !guard_ok, spec_operation, authorize_ok, context_ok, lease_ok. auto.
Qed.

Section confinement.
  Context {W : Type} {fs : FileSystem W} {laws : FileSystemLaws W}.
  Context (wire : WorkspaceWire) (process_id : N) (sha256 base64 : string → string).
  Context (text_diff : string → string → TextDiff) (router : HostRouter).
  Context (search : HostOperation → string → Value → bool → W → result Value ErrorPayload).
  Context (other_group : HostOperationGroup → HostOperation → Value → InvokeContext → Io W Value).
  Context (cancelled_while : HostOperation → option (WsState W → WsState W)).

Local Abbreviation call :=
  (invoke wire process_id sha256 base64 text_diff router search other_group cancelled_while).
Local Abbreviation files s := (fs_files (ws_world s)).

(** C22. A call reaches its backend exactly when the generation is active, the call is not cancelled and not planned, the
    operation exists, its capability is declared, its context is there, and the lease permits every access the
    request needs; otherwise it is answered with an error and nothing happens at all. *)
Theorem calls_are_guarded capability input ctx s :
  (∀ sp, validate_invoke wire capability input ctx = Ok sp ↔
     ∃ o, from_wire_name capability = Some o ∧ sp = spec o ∧ granted wire o input ctx) ∧
  ((¬ ∃ o, from_wire_name capability = Some o ∧ granted wire o input ctx) →
     ∃ e, call capability input ctx s = (s, Err e)).
Proof.
  split; [intros; apply granted_validate|]. intros Hno. unfold invoke, io_bind, io_lift.
  destruct (validate_invoke wire capability input ctx) as [sp|e] eqn:Hv; [|eauto].
  apply granted_validate in Hv as (o & ? & _ & ?). destruct Hno. eauto.
Qed.

(** ** Calls under a lease *)

Lemma permits_covers lease path :
  permits lease (read_write_file path) = true → permits lease (write_file path) = true.
Proof.
  unfold permits. rewrite !existsb_exists. intros (g & Hin & Hg). exists g. split; [done|].
  unfold read_write_file, write_file, file_write in *. destruct g as [op gp r| |]; simpl in *; try done.
  rewrite andb_true_iff in *. destruct Hg as [Hop Hp]. split; [|done]. by destruct op.
Qed.

(** The paths, under the working directory, that the lease lets be written. *)
Definition writable (lease : ResourceLease) (dir label : string) : Prop :=
  permits lease (write_file (path_join dir label)) = true.

(** The files such a path leads to when it is resolved in the file system [w] of the call, or in what the call has made of it
    by handling such paths (a patch resolves each of its paths when it comes to it). *)
Definition leased (lease : ResourceLease) (dir : string) (w : W) (t : string) : Prop :=
  ∃ label w0, writable lease dir label ∧ reached process_id dir (writable lease dir) w w0 ∧ names dir label w0 t.

Lemma leased_now lease dir label w t : writable lease dir label → names dir label w t → leased lease dir w t.
Proof. intros Hl Ht. exists label, w. split; [done|]. split; [apply rtc_refl|done]. Qed.

Lemma wp_run_io {A B} parse to_value o input (handler : A → string → Io W B) T s :
  (∀ request, parse input = Ok request →
     io_wp (handler request (wire_name o)) (λ s' _, confined process_id T (files s) (files s')) s) →
  io_wp (run_workspace_io parse to_value o input handler) (λ s' _, confined process_id T (files s) (files s')) s.
Proof.
  intros H. unfold run_workspace_io. apply wp_lift_bind; [intros; apply confined_refl|]. unfold parse_wire_request.
  destruct (parse input) as [request|]; [|done]. intros ? [= <-]. apply wp_bind. eapply wp_mono; [by apply H|].
  intros s' r Hc. by destruct r.
Qed.

Lemma wp_run_persistent {A B} tasks parse to_value o input (handler : A → string → Io W B) T s :
  (∀ request, parse input = Ok request →
     io_wp (handler request (wire_name o)) (λ s' _, confined process_id T (files s) (files s')) s) →
  io_wp (run_persistent_workspace_io tasks parse to_value o input handler) (λ s' _, confined process_id T (files s) (files s')) s.
Proof.
  intros H. unfold run_persistent_workspace_io. apply wp_lift_bind; [intros; apply confined_refl|]. unfold parse_wire_request.
  destruct (parse input) as [request|]; [|done]. intros ? [= <-]. apply wp_bind.
  destruct tasks as [[]|]; simpl; [|apply confined_refl..]. eapply wp_mono; [by apply H|].
  intros s' r Hc. by destruct r.
Qed.

Lemma patch_accesses_permit o ctx dir paths accs lease :
  ic_working_dir ctx = Some dir → patch_accesses o ctx paths = Ok accs → (∀ a, a ∈ accs → permits lease a = true) →
  ∀ p label, p ∈ paths → wp_old_path p = Some label ∨ wp_new_path p = Some label →
    permits lease (write_file (path_join dir label)) = true.
Proof.
  intros Hdir. unfold patch_accesses, workspace_path. rewrite Hdir. simpl. intros Haccs Hall p label Hp Hl.
  apply permits_covers, Hall.
  assert (label ∈ concat ((λ paths, option_list (wp_old_path paths) ++ option_list (wp_new_path paths)) <$> paths)) as Hin.
  { apply list_elem_of_In, in_concat. eexists. split; [apply list_elem_of_In, list_elem_of_fmap; eauto|].
    apply list_elem_of_In. rewrite elem_of_app. destruct Hl as [->| ->]; simpl; set_solver. }
  clear Hall. revert accs Haccs Hin. induction (concat _) as [|x l IH]; intros accs; simpl; [set_solver|].
  destruct (try_map _ l) as [bs|]; [|done]. intros [= <-]. rewrite elem_of_cons.
  intros [->|Hin]; [left|right; by apply IH].
Qed.

Lemma patch_confined root name allow patch lease dir s :
  (∀ paths p label, analyze_unified_diff_paths patch = Ok paths → p ∈ paths →
     wp_old_path p = Some label ∨ wp_new_path p = Some label → permits lease (write_file (path_join dir label)) = true) →
  (∃ paths, analyze_unified_diff_paths patch = Ok paths) → root = dir →
  io_wp (apply_patch_io process_id sha256 root patch name allow)
    (λ s' _, confined process_id (leased lease dir (ws_world s)) (files s) (files s')) s.
Proof.
  intros Hperm [paths Hp] ->. unfold io_wp, apply_patch_io, apply_patch_with_access.
  destruct (parse_patch patch) as [[patches|e]|] eqn:Hparse; simpl; [|apply confined_refl..].
  destruct (patch_files_spec process_id sha256 dir name allow (writable lease dir) patches s) as [Hc _].
  { intros pt label Hin Hlabel.
    pose proof (analyze_patch _ _ Hparse) as Ha. destruct (existsb names_nothing patches); [congruence|].
    apply (Hperm _ (patch_paths pt) label Ha); [by apply list_elem_of_fmap_2|]. unfold patch_label in Hlabel. simpl.
    destruct (fp_new_path pt); naive_solver. }
  destruct (apply_file_patches _ _ _ _ _ patches s) as [s' changes]. exact Hc.
Qed.

(** C4. A call of the workspace under a lease changes no file but one a path leads to that the lease lets be
    written, and temporary files next to it, whatever the file system answers and whether the call succeeds or fails.  The
    path is resolved in the file system the call finds; only the later paths of a patch are resolved in what handling the
    earlier ones, which the lease lets be written too, has made of it. *)
Theorem leased_calls_stay_in_their_lease capability input ctx lease o s :
  ic_resource_lease ctx = Some lease → from_wire_name capability = Some o → sp_group (spec o) = Group_Workspace →
  ∀ dir, ic_working_dir ctx = Some dir →
  confined process_id (leased lease dir (ws_world s)) (files s) (files (call capability input ctx s).1).
Proof.
  intros Hlease Hname Hgroup dir Hdir. change (io_wp (call capability input ctx) (λ s' _,
    confined process_id (leased lease dir (ws_world s)) (files s) (files s')) s).
  unfold invoke. apply wp_lift_bind; [intros; apply confined_refl|]. intros sp Hv.
  apply granted_validate in Hv as (o' & Ho & -> & Hg). simplify_eq. rewrite spec_operation, Hgroup.
  destruct Hg as (_ & _ & _ & _ & _ & _ & Hl). destruct (Hl lease Hlease) as (accs & Haccs & Hperm).
  assert (sp_cancelable (spec o) = false) as -> by (destruct o; done). simpl. unfold workspace_invoke, workspace_root.
  rewrite Hdir. apply wp_lift_bind; [done|]. intros ? [= <-].
  destruct o; try done; cbn [required_resource_accesses] in Haccs; unfold workspace_path in Haccs; rewrite ?Hdir in Haccs.
  - (* edit *)
    apply wp_run_persistent. intros request Hr. unfold parse_wire_request in Haccs. rewrite Hr in Haccs.
    injection Haccs as <-. eapply wp_mono; [apply edit_spec|]. intros s' r [Hc _]. eapply confined_mono; [|exact Hc].
    intros t. apply leased_now, permits_covers, Hperm. set_solver.
  - (* patch *)
    apply wp_run_persistent. intros patch Hr. unfold parse_wire_request in Haccs. rewrite Hr in Haccs. cbn [map_err] in Haccs.
    destruct (analyze_unified_diff_paths patch) as [paths|] eqn:Ha; [|done].
    apply patch_confined; [|eauto|done]. rewrite Ha. intros ? p label [= <-] Hp Hlabel.
    eapply patch_accesses_permit; [exact Hdir|exact Haccs|exact Hperm|exact Hp|exact Hlabel].
  - (* read *)
    by apply wp_get, confined_refl.
  - by apply wp_get, confined_refl.
  - by apply wp_get, confined_refl.
  - apply wp_run_io. intros request Hr. eapply wp_mono; [apply (read_spec sha256 base64)|].
    intros s' r [-> _]. apply confined_refl.
  - (* write *)
    apply wp_run_persistent. intros request Hr. unfold parse_wire_request in Haccs. rewrite Hr in Haccs.
    injection Haccs as <-. eapply wp_mono; [apply write_spec|]. intros s' r [Hc _]. eapply confined_mono; [|exact Hc].
    intros t. apply leased_now, Hperm. set_solver.
Qed.
End confinement.

(** ** A file system in memory without links *)

(** The access string of a path keeps the bytes of its last name. *)
Lemma has_byte_replace c d t s : c ≠ d → has_byte c s = true → has_byte c (replace_byte s d t) = true.
Proof.
  intros Hc. induction s as [|e s IH]; [done|]. rewrite has_byte_cons. cbn [replace_byte].
  destruct (bool_decide_reflect (e = d)) as [->|He].
  - rewrite bool_decide_false by done. simpl. intros Hs. by rewrite has_byte_app, IH, orb_true_r.
  - rewrite has_byte_cons. case_bool_decide; [done|]. exact IH.
Qed.

Lemma has_byte_replace_double c s : c ≠ slash → has_byte c s = true → has_byte c (replace_double s) = true.
Proof.
  intros Hc. remember (String.length s) as n eqn:Hn. revert s Hn.
  induction n as [n IH] using lt_wf_ind. intros [|e [|f s]] ->; [done..|].
  rewrite replace_double_cons. destruct (bool_decide (e = slash) && bool_decide (f = slash)) eqn:Hef; rewrite !has_byte_cons.
  - apply andb_true_iff in Hef as [->%bool_decide_eq_true ->%bool_decide_eq_true].
    rewrite !(bool_decide_false (slash = c)) by done. simpl. apply (IH (String.length s)); [simpl; lia|done].
  - destruct (bool_decide (e = c)); [done|]. cbn [orb]. intros Hs. apply (IH (String.length (String f s))); [simpl; lia|done|].
    by rewrite has_byte_cons.
Qed.

Lemma has_byte_collapse c fuel s : c ≠ slash → has_byte c s = true → has_byte c (collapse_double fuel s) = true.
Proof.
  intros Hc. revert s. induction fuel as [|fuel IH]; intros s Hs; simpl; [done|].
  destruct (contains_double s); [|done]. by apply IH, has_byte_replace_double.
Qed.

Lemma access_string_byte c p name :
  c ≠ slash → c ≠ backslash → file_name p = Some name → has_byte c name = true →
  has_byte c (path_to_access_string p) = true.
Proof.
  intros Hs Hb Hf Hc. apply has_byte_collapse, has_byte_replace; [done..|]. rewrite normalize_path_spec.
  unfold file_name in Hf. destruct (last (components p)) as [[]|] eqn:Hl; simplify_eq.
  apply last_Some in Hl as [l Hl]. unfold lexical. rewrite Hl, foldl_app. cbn [foldl lexical_step].
  set (front := foldl _ _ _). unfold of_segments. rewrite has_byte_app.
  destruct front as [|x front]; [simpl; by rewrite Hc, orb_true_r|].
  by rewrite join_app_r, !has_byte_app, Hc, !orb_true_r.
Qed.

Lemma take_substring n s : str_take n s +:+ String.substring n (String.length s - n) s = s.
Proof.
  revert s. induction n as [|n IH]; intros s.
  - rewrite Nat.sub_0_r, substring_all. by destruct s.
  - destruct s as [|c s]; [done|]. simpl. by rewrite str_app_cons, IH.
Qed.

Lemma strip_suffix_inv s suf r : str_strip_suffix s suf = Some r → s = r +:+ suf.
Proof.
  unfold str_strip_suffix, ends_with. destruct (Nat.leb _ _) eqn:Hle; [|done]. apply Nat.leb_le in Hle. simpl.
  case_bool_decide as Hs; [|done]. intros [= <-]. rewrite <-Hs at 2.
  rewrite <-(take_substring (String.length s - String.length suf) s) at 1. do 2 f_equal. lia.
Qed.

(** No directory or link of a file system without links leads elsewhere. *)
Lemma mem_canonical_linkless w q p :
  mf_links w = ∅ → mem_canonicalize w q = Ok p → q = p ∨ q = p +:+ "/".
Proof.
  intros Hl. unfold mem_canonicalize. destruct (mem_here w q); [intros [= ->]; by left|].
  destruct (mem_here w (default q _)).
  - intros [= <-]. destruct (str_strip_suffix q "/") as [r|] eqn:Hr; simpl; [right|by left]. by apply strip_suffix_inv.
  - by rewrite Hl, lookup_empty.
Qed.

Lemma mem_dir_links w p : mf_links w = ∅ → mf_links (mem_create_dir_all w p).1 = ∅.
Proof. intros Hl. unfold mem_create_dir_all. by case_bool_decide. Qed.
Lemma mem_remove_links w p : mf_links w = ∅ → mf_links (mem_remove_file w p).1 = ∅.
Proof. intros Hl. unfold mem_remove_file. by case_match. Qed.
Lemma mem_temporary_links pid n p w id : mf_links w = ∅ → mf_links (create_atomic_write_file pid n p w id).1.1 = ∅.
Proof.
  revert w id. induction n as [|n IH]; intros w id Hl; [done|]. cbn [create_atomic_write_file fs_create_new mem_fs].
  unfold mem_create_new. destruct (_ && _); cbn [io_already_exists already_exists]; [done|]. by apply IH.
Qed.

Lemma mem_write_links pid w p c id : mf_links w = ∅ → mf_links (write_file_atomic_bytes pid p c w id).1.1 = ∅.
Proof.
  intros Hl. unfold write_file_atomic_bytes. cbn [fs_create_dir_all mem_fs].
  pose proof (mem_dir_links w (atomic_parent p) Hl) as H1.
  destruct (mem_create_dir_all w (atomic_parent p)) as [w1 [[]|e]]; [|done].
  pose proof (mem_temporary_links pid 100 (atomic_parent p) w1 id H1) as H2.
  destruct (create_atomic_write_file pid 100 (atomic_parent p) w1 id) as [[w2 id2] [t|e]]; [|done].
  cbn [fs_write_all fs_rename fs_remove_file mem_fs mem_write_all]. unfold mem_rename. simpl in *.
  rewrite lookup_insert_eq. case_bool_decide; simpl; [by apply mem_remove_links|]. by rewrite H2, delete_empty.
Qed.

Lemma reached_links pid (L : string → Prop) root w w' :
  mf_links w = ∅ → reached pid root L w w' → mf_links w' = ∅.
Proof.
  intros Hl Hr. induction Hr as [|w w1 w' (label & _ & Hs) _ IH]; [done|]. apply IH. clear IH.
  assert (∀ w2, opened root label w w2 → mf_links w2 = ∅) as Ho.
  { intros w2 [->|(dir & _ & ->)]; [done|]. by apply mem_dir_links. }
  destruct Hs as [w2 H|w2 t c id H|w2 t H]; [by apply Ho|..]; apply leads_opened, Ho in H.
  - by apply mem_write_links.
  - by apply mem_remove_links.
Qed.

(** A path that ends with a name ends with its last byte. *)
Lemma last_byte x (name : string) c rest :
  x +:+ name = rest +:+ String c "" → name ≠ ""%string → has_byte c name = true.
Proof.
  revert rest. induction x as [|d x IH]; intros rest.
  - rewrite str_app_nil_l. intros -> _. rewrite has_byte_app, has_byte_cons, bool_decide_true by done. by rewrite orb_true_r.
  - rewrite str_app_cons. destruct rest as [|e rest]; [rewrite str_app_nil_l|rewrite str_app_cons]; intros [= -> H] Hne.
    + destruct x; [by rewrite str_app_nil_l in H|done].
    + by apply (IH rest).
Qed.

(** ** On the file system in memory *)

Module CallSample.

Definition wire : WorkspaceWire :=
  {| parse_read _ := Err "read"; parse_edit _ := Err "edit"; parse_apply_patch _ := Err "patch"; parse_list _ := Err "list";
     parse_grep _ := Err "grep"; parse_glob _ := Err "glob"; parse_tool_result _ := Err "tool";
     parse_write v := match v with
                      | JString c => Ok {| wr_path := "a.txt"; wr_content := c; wr_create_dirs := false |}
                      | _ => Err "write"
                      end;
     read_to_value _ := Ok JNull; write_to_value _ := Ok JNull; edit_to_value _ := Ok JNull; changes_to_value _ := Ok JNull |}%string.

Definition start : WsState MemFs :=
  WsSt {| mf_files := {["/w/a.txt" := "old"; "/w/b.txt" := "kept"]}; mf_dirs := ["/w"]; mf_links := ∅ |} 0 (Some ∅).

Definition lease : ResourceLease := from_plan {| tp_resources := [write_file "/w/a.txt"] |}.

Definition ctx : InvokeContext :=
  {| ic_session_id := None; ic_resource_lease := Some lease; ic_planning := false; ic_working_dir := Some "/w"%string;
     ic_cancelled := None; ic_tasks := Some Tasks_Running; ic_declared_capabilities := [Cap_WorkspaceWrite];
     ic_generation_active := true; ic_session_ops := false; ic_session_store_dir := false; ic_event_tx := false;
     ic_tool_result_reader := false; ic_service_dispatcher := false |}.

Definition router : HostRouter :=
  {| hr_main_llm := false; hr_small_llm := false; hr_event_reader := false; hr_session_reader := false;
     hr_workspace_default_dir := None; hr_process_available _ := false; hr_network := false; hr_public_http := false |}.

Abbreviation call_run :=
  (invoke wire 1 (λ c, c) (λ c, c) (λ _ _, {| df_insertions := 0; df_deletions := 0; df_unified _ := ""%string |}) router
     (λ _ _ _ _ _, Ok JNull) (λ _ _ _ _, io_ret JNull) (λ _, None) "astrcode.workspace.write" (JString "new") ctx start).

Lemma leased_calls_stay_in_their_lease_witness :
  confined 1 (leased 1 lease "/w" (ws_world start)) (fs_files (ws_world start)) (fs_files (ws_world call_run.1)).
Proof.
  apply (leased_calls_stay_in_their_lease wire 1 (λ c, c) (λ c, c)
           (λ _ _, {| df_insertions := 0; df_deletions := 0; df_unified _ := ""%string |}) router
           (λ _ _ _ _ _, Ok JNull) (λ _ _ _ _, io_ret JNull) (λ _, None) "astrcode.workspace.write" (JString "new") ctx lease
           Hop_WorkspaceWrite start).
  - done.
  - by vm_compute.
  - done.
  - done.
Defined.

(** The call of the example does write. *)
Lemma leased_call_writes :
  fs_files (ws_world call_run.1) !! "/w/a.txt"%string = Some "new"%string ∧
  fs_files (ws_world call_run.1) !! "/w/b.txt"%string = Some "kept"%string.
Proof. by vm_compute. Qed.
Lemma writable_access label : writable lease "/w" label → path_to_access_string (path_join "/w" label) = "/w/a.txt"%string.
Proof.
  unfold writable, permits, lease, from_plan, write_file, file_write.
  cbn [existsb rl_resources tp_resources]. rewrite orb_false_r.
  cbn [resource_covers]. unfold path_covers. intros H.
  destruct (bool_decide_reflect (path_to_access_string "/w/a.txt" = path_to_access_string (path_join "/w" label))) as [Heq|Hne].
  - rewrite <-Heq. by vm_compute.
  - by rewrite ?andb_false_r in H.
Qed.

(** A lease to write [/w/a.txt] leads to no file [/etc/passwd] in the file system of the example. *)
Lemma lease_leads_nowhere_else : ¬ leased 1 lease "/w" (ws_world start) "/etc/passwd".
Proof.
  intros (label & w0 & Hw%writable_access & Hr & w & Hn). apply reached_links in Hr as Hl; [|done].
  destruct Hn as [[He _]|(d & name & (Hf & _ & _) & Ht)].
  - unfold existing_at in He. destruct (is_absolute label) eqn:Ha.
    + unfold path_push in Hw. unfold is_absolute in Ha. rewrite Ha in Hw.
      destruct (mem_canonical_linkless w0 label _ Hl He) as [->| ->]; by vm_compute in Hw.
    + destruct He as (r & Hr1 & _ & Hs). destruct (mem_canonical_linkless w0 "/w" r Hl Hr1) as [<-|Hx]; [by vm_compute in Hs|].
      apply (f_equal (λ s, ends_with s "/")) in Hx. by rewrite ends_with_app in Hx.
  - pose proof (file_name_plain _ _ Hf) as Hp. assert (has_byte "d" name = true) as Hd.
    { unfold path_push in Ht. rewrite (plain_no_root name Hp) in Ht. destruct Hp as [Hne _].
      destruct (is_empty d || ends_with d "/"); [|rewrite str_app_assoc in Ht];
        eapply (last_byte _ name "d" "/etc/passw"); by symmetry. }
    assert (file_name (path_join "/w" label) = Some name) as Hfile.
    { unfold path_push. destruct (StdPath.has_root label) eqn:Hroot; [done|]. simpl.
      unfold file_name, components in Hf |- *. rewrite Hroot in Hf. simpl in Hf |- *.
      assert (segments label = split_byte slash label) as Hseg.
      { destruct label as [|c l]; [done|]. unfold StdPath.has_root in Hroot. unfold segments. by rewrite Hroot. }
      rewrite Hseg in Hf. rewrite str_app_nil_l. change (list_omap _ _ to_component) with (omap (M:=list) to_component).
      by destruct (include_cur_dir label), (omap to_component (split_byte slash label)). }
    apply (access_string_byte "d") in Hfile; [|done..]. rewrite Hw in Hfile. by vm_compute in Hfile.
Qed.
End CallSample.
