(* ===== verification/ExtEdits.v ===== *)
(** * Edits of files

    An edit replaces exactly what it names, in the content the session has last seen; a file that is replaced has its
    old content or its new one, never a part.  The examples run on the file system in memory. *)

From S2P Require Import Prelude Utf8 CoreTypes CoreLlm ProjReducer StoreTypes S5rWire StdPath StdStr ExtFiles ExtFilesProofs.

(** ** Occurrences *)

(** [pat] occurs nowhere in [s]. *)
Definition absent (pat s : string) : Prop := ∀ a b, s ≠ a +:+ pat +:+ b.

Lemma starts_with_spec s pat : starts_with s pat = true ↔ ∃ b, s = pat +:+ b.
Proof.
  split; [|intros [b ->]; apply starts_with_app].
  revert s. induction pat as [|c pat IH]; intros s; [by exists s|]. destruct s as [|d s]; [done|].
  unfold starts_with in *. simpl. destruct (ascii_dec c d) as [->|]; [|done]. intros [b ->]%IH. by exists b.
Qed.

Lemma absent_cons pat c s : starts_with (String c s) pat = false → absent pat s → absent pat (String c s).
Proof.
  intros Hs Ha [|d a] b Heq.
  - assert (starts_with (String c s) pat = true); [|congruence]. apply starts_with_spec. by exists b.
  - injection Heq as -> Heq. by eapply Ha.
Qed.

Lemma absent_nil pat : is_empty pat = false → absent pat "".
Proof. intros Hp [|d a] b; [by destruct pat|done]. Qed.

(** The bytes that belong to the last occurrence are stepped over. *)
Lemma count_skip pre s pat : count_matches_from (len pre) (pre +:+ s) pat = count_matches s pat.
Proof. induction pre as [|c pre IH]; [done|]. simpl. exact IH. Qed.

Lemma count_step c r pat :
  is_empty pat = false →
  count_matches (String c r) pat =
    match str_strip_prefix (String c r) pat with Some b => S (count_matches b pat) | None => count_matches r pat end.
Proof.
  intros Hp. unfold count_matches at 1, str_strip_prefix. cbn [count_matches_from].
  destruct (starts_with (String c r) pat) eqn:Hs; [|done]. f_equal.
  apply starts_with_spec in Hs as [b Hb]. destruct pat as [|d pat]; [done|]. injection Hb as -> ->. simpl.
  by rewrite count_skip, str_drop_app.
Qed.

Lemma count_absent pat s : is_empty pat = false → count_matches s pat = 0 → absent pat s.
Proof.
  intros Hp. induction s as [|c s IH]; [intros; by apply absent_nil|]. rewrite count_step by done.
  unfold str_strip_prefix. destruct (starts_with (String c s) pat) eqn:Hs; [done|]. intros Hc. apply absent_cons; auto.
Qed.

(** One occurrence: it is the first one, and there is none behind it. *)
Lemma count_one pat s :
  is_empty pat = false → count_matches s pat = 1 →
  ∃ a b, s = a +:+ pat +:+ b ∧ str_find s pat = Some (len a) ∧ absent pat b.
Proof.
  intros Hp. induction s as [|c s IH]; [done|]. rewrite count_step by done. unfold str_strip_prefix.
  destruct (starts_with (String c s) pat) eqn:Hs.
  - intros [= Hc]. pose proof Hs as [b Hb]%starts_with_spec. rewrite Hb, str_drop_app in Hc.
    exists "", b. split_and!; [done| |by apply count_absent]. cbn [str_find]. by rewrite Hs.
  - intros (a & b & -> & Hf & Ha)%IH. exists (String c a), b. split_and!; [done| |done].
    cbn [str_find]. rewrite Hs, Hf. done.
Qed.

Lemma replace_once_spec a pat b by_ :
  str_find (a +:+ pat +:+ b) pat = Some (len a) → replace_once (a +:+ pat +:+ b) pat by_ = a +:+ by_ +:+ b.
Proof. intros Hf. unfold replace_once. by rewrite Hf, str_take_app, str_drop_app_more, str_drop_app. Qed.

(** ** What an edit does *)

(** One operation: the text that is there once, up to overlaps, gives way to the new one; or every occurrence does. *)
Definition edits_to (e : HostWorkspaceTextEdit) (x y : string) : Prop :=
  if te_replace_all e then y = str_replace x (te_old_text e) (te_new_text e) ∧ 0 < count_matches x (te_old_text e)
  else ∃ a b, x = a +:+ te_old_text e +:+ b ∧ y = a +:+ te_new_text e +:+ b ∧ absent (te_old_text e) b.

Inductive edits_chain : list HostWorkspaceTextEdit → string → string → Prop :=
| edits_none x : edits_chain [] x x
| edits_more e es x y z : edits_to e x y → edits_chain es y z → edits_chain (e :: es) x z.

Lemma edit_fold path ops x n y m :
  Forall (λ e, is_empty (te_old_text e) = false) ops →
  try_fold (edit_step path) (x, n) ops = Ok (y, m) → edits_chain ops x y.
Proof.
  intros Hne. revert x n. induction Hne as [|e es He _ IH]; intros x n; simpl; [intros [= -> _]; constructor|].
  unfold edit_step at 1. simpl. case_bool_decide as H0; [done|].
  destruct (negb (te_replace_all e) && bool_decide (1 < count_matches x (te_old_text e))) eqn:H1; [done|].
  intros Hrest. apply IH in Hrest. econstructor; [|exact Hrest]. unfold edits_to.
  destruct (te_replace_all e); [split; [done|lia]|]. simpl in H1. apply bool_decide_eq_false in H1.
  destruct (count_one (te_old_text e) x He) as (a & b & -> & Hf & Ha); [lia|].
  exists a, b. by rewrite replace_once_spec.
Qed.

Lemma normalize_nonempty request ops :
  normalize_edits request = Ok ops → Forall (λ e, is_empty (te_old_text e) = false) ops.
Proof.
  unfold normalize_edits. destruct (_ && _); [done|]. destruct (match er_edits request with [] => _ | _ => _ end) as [es|]; [|done].
  destruct (existsb _ es) eqn:He; [done|]. intros [= <-]. apply Forall_forall. intros e Hin.
  destruct (is_empty (te_old_text e)) eqn:Hx; [|done]. assert (existsb (λ e, is_empty (te_old_text e)) es = true); [|congruence].
  apply existsb_exists. exists e. split; [by apply list_elem_of_In|done].
Qed.

Section edits.
  Context {W : Type} {fs : FileSystem W} {laws : FileSystemLaws W}.
  Context (process_id : N) (sha256 base64 : string → string) (text_diff : string → string → TextDiff).
  Context (root capability : string) (allow : bool).

Local Abbreviation files s := (fs_files (ws_world s)).
Local Abbreviation edit := (edit_with_access process_id sha256 text_diff root).

(** C34. An edit that succeeds changes the one file its path leads to, from the content it has to the content the
    operations make of it one after the other: the text that is named once gives way to the new text, and there is
    no other occurrence behind it, or all occurrences do.  No other file changes, and the observation of the session is that of the
    new content. *)
Theorem edits_are_exact request s s' out :
  edit request capability allow s = (s', Ok out) →
  ∃ p c c' ops, existing_at root (er_path request) (ws_world s) p ∧ normalize_edits request = Ok ops ∧
    files s !! p = Some c ∧ edits_chain ops c c' ∧ files s' = <[p := c']> (files s) ∧
    observed sha256 s p c ∧ observed sha256 s' p c'.
Proof.
  intros He. pose proof (edit_spec process_id sha256 text_diff root request capability allow s) as H.
  unfold io_wp in H. rewrite He in H. simpl in H. destruct H as [_ (p & c & c' & n & ops & ? & ? & ? & ? & Hf & ? & ?)].
  exists p, c, c', ops. split_and!; try done. eapply edit_fold; [by eapply normalize_nonempty|exact Hf].
Qed.

(** An edit of a file whose digest is not the observed one is refused before anything is done. *)
Lemma stale_edit request s p c store o :
  ws_observations s = Some store → existing_at root (er_path request) (ws_world s) p → files s !! p = Some c →
  store !! p = Some o → fo_content_fingerprint o ≠ sha256 c →
  ∃ e, edit request capability allow s = (s, Err e).
Proof.
  intros Hobs Hp Hc Ho Hne.
  cut (io_wp (edit request capability allow) (λ s' r, s' = s ∧ ∃ e, r = Err e) s).
  { unfold io_wp. destruct (edit request capability allow s) as [s' r]. simpl. intros [-> [e ->]]. eauto. }
  unfold edit_with_access. apply wp_lift_bind; [eauto|].
  unfold required_non_empty. destruct (is_empty (er_path request)); [done|]. intros ? [= <-].
  do 2 (apply wp_lift_bind; [eauto|intros ? _]).
  apply wp_bind, wp_existing; [simpl; eauto|]. intros p' Hp'. simpl.
  assert (p' = p) as ->.
  { unfold existing_at in Hp, Hp'. destruct (is_absolute _); [congruence|].
    destruct Hp as (? & ? & ? & _), Hp' as (? & ? & ? & _). congruence. }
  destruct (existing_canonical _ _ _ _ Hp) as [q Hq].
  apply wp_bind, wp_ensure; [simpl; eauto|]. intros c' Hr Hob. exfalso.
  unfold observed in Hob. rewrite Hobs in Hob. destruct Hob as (o' & Ho' & Hf).
  destruct Hr as [Hr|Hr]; [congruence|]. eapply read_canonical in Hr; [|done]. congruence.
Qed.

(** C5. No update is lost: after a read has shown the session a file, an edit of the file is refused, before anything is
    done, when the content of the file has another digest by then, whoever changed it and whatever else the session
    did, as long as the session has not seen the file again. *)
Theorem stale_edits_are_refused request s s1 out p c st1 erequest s2 st2 c2 :
  read_with_access sha256 base64 root request capability allow s = (s1, Ok out) → (∀ n, out ≠ Read_Binary n) →
  existing_at root (rr_path request) (ws_world s) p → files s !! p = Some c →
  ws_observations s1 = Some st1 → ws_observations s2 = Some st2 → st2 !! p = st1 !! p →
  existing_at root (er_path erequest) (ws_world s2) p → files s2 !! p = Some c2 → sha256 c2 ≠ sha256 c →
  shows base64 request c out ∧ ∃ e, edit erequest capability allow s2 = (s2, Err e).
Proof.
  intros Hread Hbin Hp Hc H1 H2 Hst Hp2 Hc2 Hne.
  pose proof (read_spec sha256 base64 root request capability allow s) as H.
  unfold io_wp in H. rewrite Hread in H. simpl in H. destruct H as (_ & p' & Hp' & Hshow & Hobs).
  assert (p' = p) as ->.
  { unfold existing_at in Hp, Hp'. destruct (is_absolute _); [congruence|].
    destruct Hp as (? & ? & ? & _), Hp' as (? & ? & ? & _). congruence. }
  split; [by apply Hshow|].
  assert (∃ o, st1 !! p = Some o ∧ fo_content_fingerprint o = sha256 c) as (o & Ho & Hf).
  { destruct out as [| |n]; [| |by destruct (Hbin n)]; destruct Hobs as (c' & Hc' & Hob);
      simplify_eq; unfold observed in Hob; by rewrite H1 in Hob. }
  eapply (stale_edit erequest s2 p c2 st2 o); [done..|by rewrite Hst|]. congruence.
Qed.

(** C35. An atomic write is atomic for every file that exists: whatever step fails, the file has its old content or the
    new one; when the write succeeds it has the new one, and no other file has changed. *)
Theorem atomic_writes_are_atomic p content old w id w' id' r :
  fs_direct w p → fs_files w !! p = Some old →
  write_file_atomic_bytes process_id p content w id = (w', id', r) →
  match r with
  | Ok _ => fs_files w' = <[p := content]> (fs_files w)
  | Err _ => ∀ q c, fs_files w !! q = Some c → fs_files w' !! q = Some c
  end.
Proof.
  intros Hd Hold Hw. destruct (atomic_effect _ _ _ _ _ _ _ _ Hd Hw) as [_ He]. destruct r; [done|].
  destruct He as [->|(t & c' & _ & Hn & ->)]; [done|]. intros q c Hq. rewrite lookup_insert_ne; [done|]. congruence.
Qed.
End edits.

(** ** On the file system in memory *)

Module EditSample.

Definition no_diff (_ _ : string) : TextDiff := {| df_insertions := 0; df_deletions := 0; df_unified _ := "" |}.

Definition world : MemFs :=
  {| mf_files := {["/w/a.txt" := "one two"; "/w/id_rsa" := "key"]}; mf_dirs := ["/w"];
     mf_links := {["/tmp/k" := "/w/id_rsa"]} |}.
Definition start : WsState MemFs := WsSt world 0 (Some ∅).

Definition read_a : HostWorkspaceReadRequest :=
  {| rr_path := "a.txt"; rr_max_bytes := None; rr_line_offset := 0; rr_line_limit := None |}.
Definition edit_a (old new : string) : HostWorkspaceEditRequest :=
  {| er_path := "a.txt"; er_old_text := Some old; er_new_text := Some new; er_replace_all := false; er_edits := [] |}.

Abbreviation read_run := (read_with_access (λ c, c) (λ c, c) "/w" read_a "read" false start).
Abbreviation seen := (read_run.1).
Abbreviation edit_run := (edit_with_access 1 (λ c, c) no_diff "/w" (edit_a "two" "2") "edit" false seen).
Abbreviation output_of r d := (match r with Ok o => o | Err _ => d end).
Definition no_edit : HostWorkspaceEditOutput :=
  {| eo_path := ""; eo_operation_count := 0; eo_replacements := 0;
     eo_change := {| tc_old_bytes := None; tc_new_bytes := 0; tc_unified_diff := None; tc_insertions := 0; tc_deletions := 0;
                     tc_diff_truncated := false |} |}.

(** The file after somebody else has written it. *)
Definition other : WsState MemFs :=
  WsSt (with_files world (<["/w/a.txt" := "one three"]> (mf_files world))) (ws_next_id seen) (ws_observations seen).

Lemma edits_are_exact_witness :
  ∃ p c c' ops, existing_at "/w" "a.txt" (ws_world seen) p ∧ normalize_edits (edit_a "two" "2") = Ok ops ∧
    fs_files (ws_world seen) !! p = Some c ∧ edits_chain ops c c' ∧
    fs_files (ws_world edit_run.1) = <[p := c']> (fs_files (ws_world seen)) ∧
    observed (λ c, c) seen p c ∧ observed (λ c, c) edit_run.1 p c'.
Proof.
  apply (edits_are_exact 1 (λ c, c) no_diff "/w" "edit" false (edit_a "two" "2") seen edit_run.1
           (output_of edit_run.2 no_edit)).
  vm_compute. reflexivity.
Defined.

Lemma stale_edits_are_refused_witness :
  shows (λ c, c) read_a "one two" (output_of read_run.2 (Read_Binary 0)) ∧
  ∃ e, edit_with_access 1 (λ c, c) no_diff "/w" (edit_a "two" "2") "edit" false other = (other, Err e).
Proof.
  apply (stale_edits_are_refused 1 (λ c, c) (λ c, c) no_diff "/w" "edit" false read_a start
           (read_with_access (λ c, c) (λ c, c) "/w" read_a "edit" false start).1
           (output_of read_run.2 (Read_Binary 0)) "/w/a.txt" "one two"
           (default ∅ (ws_observations seen)) (edit_a "two" "2") other (default ∅ (ws_observations seen)) "one three").
  - vm_compute. reflexivity.
  - intros n. vm_compute. discriminate.
  - exists "/w". by vm_compute.
  - by vm_compute.
  - by vm_compute.
  - by vm_compute.
  - done.
  - exists "/w". by vm_compute.
  - by vm_compute.
  - by vm_compute.
Defined.

Abbreviation write_run := (write_file_atomic_bytes 1 "/w/a.txt" "new" world 0).

Lemma atomic_writes_are_atomic_witness :
  match write_run.2 with
  | Ok _ => fs_files write_run.1.1 = <["/w/a.txt" := "new"%string]> (fs_files world)
  | Err _ => ∀ q c, fs_files world !! q = Some c → fs_files write_run.1.1 !! q = Some c
  end.
Proof.
  apply (atomic_writes_are_atomic 1 "/w/a.txt" "new" "one two" world 0 write_run.1.1 write_run.1.2 write_run.2).
  - done.
  - by vm_compute.
  - by vm_compute.
Defined.

(** A text that occurs twice with an overlap counts as occurring once: the edit is made to the first of the two. *)
Lemma overlapping_occurrences_count_once :
  count_matches "aaa" "aa" = 1 ∧ "aaa"%string = "" +:+ "aa" +:+ "a" ∧ "aaa"%string = "a" +:+ "aa" +:+ "" ∧
  edit_step "f" ("aaa"%string, 0) {| te_old_text := "aa"; te_new_text := "b"; te_replace_all := false |} = Ok ("ba"%string, 1).
Proof. by vm_compute. Qed.

(** The name of a link is checked, and what the link leads to is read. *)
Lemma link_hides_a_sensitive_file :
  is_sensitive_path "/w/id_rsa" = true ∧ is_sensitive_path "/tmp/k" = false ∧
  ∃ page, (read_with_access (λ c, c) (λ c, c) "/w"
             {| rr_path := "/tmp/k"; rr_max_bytes := None; rr_line_offset := 0; rr_line_limit := None |} "read" false start).2
          = Ok (Read_Text page 3) ∧ tp_content page = "key"%string.
Proof. split; [by vm_compute|]. split; [by vm_compute|]. eexists. split; [by vm_compute|done]. Qed.
End EditSample.
