(* ===== verification/ExtPages.v ===== *)
(** * Pages of a file

    The page of a file that is read whole and the page of a file that is read in chunks are the same: the lines asked
    for, as many as fit. *)

From S2P Require Import Prelude Utf8 CoreTypes CoreLlm ProjReducer StoreTypes S5rWire StdPath StdStr CoreAccess AiStream ExtFiles.

Local Abbreviation LF := (String lf "").

(** ** The page as it should be *)

(** The lines that fit behind [acc] when the lines are joined. *)
Fixpoint fitting (max : N) (acc ls : list string) : list string :=
  match ls with
  | [] => acc
  | l :: ls => if bool_decide (str_bytes (join LF (acc ++ [l])) ≤ max)%N then fitting max (acc ++ [l]) ls else acc
  end.

(** A page that asks for lines and finds room for none is an error. *)
Definition page_text (offset max : N) (ls : list string) : result (string * N) ErrorPayload :=
  match ls, fitting max [] ls with
  | _ :: _, [] => Err (line_too_large offset max)
  | _, fit => Ok (join LF fit, N.of_nat (length fit))
  end.

Lemma str_bytes_join acc l :
  str_bytes (join LF (acc ++ [l])) = (str_bytes (join LF acc) + (if bool_decide (acc = []) then 0 else 1) + str_bytes l)%N.
Proof.
  unfold str_bytes. destruct acc as [|x acc]; [simpl; lia|]. rewrite join_app_r by done. rewrite !str_length_app. simpl. lia.
Qed.

(** The offset is only for the error. *)
Lemma page_text_offset offset offset' max ls r : page_text offset max ls = Ok r → page_text offset' max ls = Ok r.
Proof. unfold page_text. by destruct ls, (fitting max [] _). Qed.

Lemma usize_lt max a b : (max < usize_max)%N → bool_decide (max < usize_add a b)%N = bool_decide (max < a + b)%N.
Proof. intros. apply bool_decide_ext. unfold usize_add, saturating_add. lia. Qed.

Lemma usize_lt2 max a b c :
  (max < usize_max)%N → bool_decide (max < usize_add (usize_add a b) c)%N = bool_decide (max < a + b + c)%N.
Proof. intros. apply bool_decide_ext. unfold usize_add, saturating_add. lia. Qed.

Lemma joined_nonempty acc : (∃ l acc', acc = l :: acc' ∧ l ≠ ""%string) → is_empty (join LF acc) = false.
Proof. intros (l & acc' & -> & Hl). destruct l as [|c l]; [done|]. by destruct acc'. Qed.

(** What is behind the first line that does not fit is not looked at. *)
Lemma fitting_app max acc ls : ∃ k, fitting max acc ls = acc ++ take k ls.
Proof.
  revert acc. induction ls as [|l ls IH]; intros acc; simpl; [exists 0; by rewrite app_nil_r|].
  case_bool_decide; [|exists 0; by rewrite app_nil_r]. destruct (IH (acc ++ [l])) as [k Hk]. exists (S k).
  by rewrite Hk, <-app_assoc.
Qed.

Lemma fitting_snoc max acc ls x :
  fitting max acc (ls ++ [x]) =
    if bool_decide (fitting max acc ls = acc ++ ls)
    then if bool_decide (str_bytes (join LF (acc ++ ls ++ [x])) ≤ max)%N then acc ++ ls ++ [x] else acc ++ ls
    else fitting max acc ls.
Proof.
  revert acc. induction ls as [|l ls IH]; intros acc; cbn [fitting app].
  { rewrite (bool_decide_eq_true_2 (acc = acc ++ [])) by (by rewrite app_nil_r). rewrite app_nil_r. by case_bool_decide. }
  case_bool_decide as Hfit.
  - rewrite IH. assert ((acc ++ [l]) ++ ls = acc ++ l :: ls) as -> by (by rewrite <-app_assoc).
    assert ((acc ++ [l]) ++ ls ++ [x] = acc ++ l :: ls ++ [x]) as -> by (by rewrite <-app_assoc). done.
  - rewrite bool_decide_eq_false_2; [done|]. intros Heq. apply (f_equal length) in Heq. rewrite length_app in Heq. simpl in Heq. lia.
Qed.

(** ** The page of a file that is read whole *)

Lemma bounded_lines_fit offset max acc ls :
  (max < usize_max)%N → (∃ l acc', acc = l :: acc' ∧ l ≠ ""%string) →
  bounded_lines offset max (join LF acc) (N.of_nat (length acc)) ls
  = Ok (join LF (fitting max acc ls), N.of_nat (length (fitting max acc ls))).
Proof.
  intros Hmax. revert acc. induction ls as [|l ls IH]; intros acc Hacc; [done|]. cbn [bounded_lines fitting].
  rewrite (joined_nonempty _ Hacc), usize_lt2 by done. rewrite str_bytes_join.
  assert (acc ≠ []) as Hne by (destruct Hacc as (? & ? & -> & _); done). rewrite (bool_decide_eq_false_2 (acc = [])) by done.
  repeat case_bool_decide; try lia; [done|].
  assert ((join LF acc +:+ LF) +:+ l = join LF (acc ++ [l])) as -> by (by rewrite join_app_r, str_app_assoc).
  replace (N.of_nat (length acc) + 1)%N with (N.of_nat (length (acc ++ [l]))) by (rewrite length_app; simpl; lia).
  apply IH. destruct Hacc as (x & acc' & -> & ?). by exists x, (acc' ++ [l]).
Qed.

(** A page that begins with a line that is not empty. *)
Definition starts_full (ls : list string) : Prop := ∀ l, head ls = Some l → l ≠ ""%string.

Lemma bounded_lines_text offset max ls :
  (max < usize_max)%N → starts_full ls → bounded_lines offset max "" 0 ls = page_text offset max ls.
Proof.
  intros Hmax Hfull. destruct ls as [|l ls]; [done|]. cbn [bounded_lines page_text fitting]. rewrite usize_lt2 by done.
  simpl app. change (join LF [l]) with l. simpl is_empty. cbv iota.
  replace (str_bytes "" + 0 + str_bytes l)%N with (str_bytes l) by done.
  repeat case_bool_decide; try lia; [done|]. change ("" +:+ l) with l.
  etrans; [apply (bounded_lines_fit offset max [l] ls); [done|exists l, []; split; [done|by apply Hfull]]|].
  destruct (fitting_app max [l] ls) as [k ->]. done.
Qed.

(** ** The lines that are asked for *)

Section selection.
  Context (offset limit : N).

Definition selection (ls : list string) : list string := take (N.to_nat limit) (drop (N.to_nat offset) ls).

Definition in_page (i : N) : bool := bool_decide (offset ≤ i)%N && bool_decide (i < offset + limit)%N.

Lemma selection_snoc ls l :
  selection (ls ++ [l]) = if in_page (N.of_nat (length ls)) then selection ls ++ [l] else selection ls.
Proof.
  unfold selection, in_page. destruct (decide (offset ≤ N.of_nat (length ls))%N) as [Ho|Ho].
  - rewrite (bool_decide_eq_true_2 _ Ho), drop_app_le by lia. simpl. case_bool_decide.
    + rewrite take_app_ge by (rewrite length_drop; lia). rewrite length_drop.
      rewrite (take_ge (drop _ ls)) by (rewrite length_drop; lia). f_equal.
      destruct (N.to_nat limit - _) eqn:?; [lia|]. simpl. by rewrite take_nil.
    + rewrite take_app_le by (rewrite length_drop; lia). done.
  - rewrite (bool_decide_eq_false_2 _ Ho). simpl. rewrite !drop_ge by (rewrite ?length_app; simpl; lia). done.
Qed.

Lemma in_page_bound i : (i < usize_max)%N → page_selected offset limit i = in_page i.
Proof. intros Hi. unfold page_selected, in_page. f_equal. apply bool_decide_ext. unfold usize_add, saturating_add. lia. Qed.
End selection.

(** ** The page of a file that is read in chunks *)

Lemma substring_has_byte c x s n m : String.substring n m s = String c x → has_byte c s = true.
Proof.
  revert n m. induction s as [|d s IH]; intros [|n] [|m]; simpl; try done; rewrite has_byte_cons.
  - intros [= -> _]. by rewrite bool_decide_eq_true_2.
  - intros ->%IH. by rewrite orb_true_r.
  - intros ->%IH. by rewrite orb_true_r.
Qed.

Lemma no_cr s : has_byte (ascii_of_N 13) s = false → strip_cr_end s = s.
Proof.
  intros Hs. unfold strip_cr_end, str_strip_suffix, ends_with. destruct (Nat.leb _ _ && _) eqn:He; [|done].
  apply andb_true_iff in He as [_ He]. apply bool_decide_eq_true, substring_has_byte in He. congruence.
Qed.

Lemma lines_cons cur r :
  has_byte lf cur = false → has_byte (ascii_of_N 13) cur = false → lines (cur +:+ String lf r) = cur :: lines r.
Proof.
  intros Hlf Hcr. unfold lines. rewrite split_byte_app_sep by done.
  destruct (split_byte lf r) as [|x xs] eqn:Hs; [by apply split_byte_nonempty in Hs|].
  change (removelast (cur :: x :: xs)) with (cur :: removelast (x :: xs)). rewrite fmap_cons. simpl app.
  rewrite (no_cr cur Hcr). done.
Qed.

Lemma lines_single cur : has_byte lf cur = false → lines cur = if is_empty cur then [] else [cur].
Proof. intros H. unfold lines. by rewrite split_byte_none by done. Qed.

(** The first line goes on until the line feed. *)
Lemma first_line cur s :
  has_byte lf cur = false → has_byte (ascii_of_N 13) (cur +:+ s) = false → cur ≠ ""%string →
  ∃ more rest, lines (cur +:+ s) = (cur +:+ more) :: rest.
Proof.
  revert cur. induction s as [|b s IH]; intros cur Hlf Hcr Hne.
  - exists "", []. rewrite str_app_nil_r, lines_single by done. by destruct cur.
  - destruct (decide (b = lf)) as [->|Hb].
    + exists "", (lines s). rewrite has_byte_app in Hcr. apply orb_false_iff in Hcr as [Hcr _].
      by rewrite lines_cons, str_app_nil_r.
    + assert (cur +:+ String b s = (cur +:+ String b "") +:+ s) as Heq by (by rewrite <-str_app_assoc). rewrite Heq in *.
      destruct (IH (cur +:+ String b "")) as (more & rest & ->); [|done|by destruct cur|].
      { rewrite has_byte_app, has_byte_cons, Hlf. simpl. by rewrite bool_decide_eq_false_2. }
      exists (String b more), rest. f_equal. by rewrite <-str_app_assoc.
Qed.

Section stream.
  Context (max offset limit : N) (Hmax : (max < usize_max)%N).

Local Abbreviation sel := (selection offset limit).
Local Abbreviation fit ls := (fitting max [] (sel ls)).
Local Abbreviation wanted ls := (in_page offset limit (N.of_nat (length ls))).

Lemma fit_take ls : ∃ k, fit ls = take k (sel ls).
Proof. apply (fitting_app max []). Qed.

Lemma fit_length ls : length (fit ls) ≤ length (sel ls) ∧ length (sel ls) ≤ length ls.
Proof.
  destruct (fit_take ls) as [k ->]. unfold selection. rewrite !length_take, length_drop. lia.
Qed.

Lemma sel_more ls more : ∃ rest, sel (ls ++ more) = sel ls ++ rest.
Proof.
  induction more as [|l more [rest IH]] using rev_ind; [exists []; by rewrite !app_nil_r|].
  rewrite app_assoc, selection_snoc, IH. case_match; [|eauto]. exists (rest ++ [l]). by rewrite app_assoc.
Qed.

(** The first line of the page is the line at the offset. *)
Lemma sel_first ls : wanted ls = true → sel ls = [] → N.of_nat (length ls) = offset.
Proof.
  unfold in_page, selection. rewrite andb_true_iff, !bool_decide_eq_true. intros [H1 H2] H3.
  apply (f_equal length) in H3. rewrite length_take, length_drop in H3. simpl in H3. lia.
Qed.

(** The lines [done] are behind the reader, [cur] is what it has of the next one. *)
Record reading (done : list string) (cur : string) (st : PageState) : Prop := {
  rd_total : pg_total_lines st = N.of_nat (length done);
  rd_bytes : pg_line_has_bytes st = negb (is_empty cur);
  rd_output : pg_output st = join LF (fit done);
  rd_returned : pg_returned_lines st = N.of_nat (length (fit done));
  rd_some : fit done = [] → sel done = [];
  rd_line :
    if pg_output_full st
    then fit done ≠ sel done ∨ (fit done = sel done ∧ wanted done = true ∧ sel done ≠ [] ∧ (max < str_bytes cur)%N)
    else fit done = sel done ∧ pg_selected_line st = (if wanted done then cur else "") ∧
         (wanted done = true → (str_bytes cur ≤ max)%N);
  rd_full : pg_output_full st = true → pg_selected_line st = "";
}.

(** The reader fails at the first line of the page when it alone does not fit. *)
Definition fails (done : list string) (cur : string) (e : ErrorPayload) : Prop :=
  e = line_too_large (N.of_nat (length done)) max ∧ sel done = [] ∧ wanted done = true ∧ (max < str_bytes cur)%N.

Lemma fails_text done cur rest e : fails done cur e → page_text offset max (sel (done ++ cur :: rest)) = Err e.
Proof.
  intros (-> & Hs & Hw & Hlong). assert (done ++ cur :: rest = (done ++ [cur]) ++ rest) as -> by (by rewrite <-app_assoc).
  destruct (sel_more (done ++ [cur]) rest) as [more ->]. rewrite selection_snoc, Hw, Hs. simpl.
  rewrite bool_decide_eq_false_2 by lia. by rewrite (sel_first done Hw Hs).
Qed.

(** A line that does not fit ends the page. *)
Lemma fit_stops done cur :
  fit done ≠ sel done ∨ (fit done = sel done ∧ wanted done = true ∧ (max < str_bytes (join LF (sel done ++ [cur])))%N) →
  fit (done ++ [cur]) = fit done ∧ fit done ≠ sel (done ++ [cur]).
Proof.
  pose proof (fit_length done) as [Hl _]. rewrite selection_snoc. destruct (wanted done) eqn:Hw.
  2: { intros [H|(_ & ? & _)]; done. }
  intros H. split.
  - rewrite fitting_snoc. simpl app. case_bool_decide as Hf; [|done]. destruct H as [|(_ & _ & H)]; [done|].
    rewrite bool_decide_eq_false_2 by lia. done.
  - intros Heq. apply (f_equal length) in Heq. rewrite length_app in Heq. simpl in Heq. lia.
Qed.

Lemma fit_grows done cur :
  fit done = sel done → wanted done = true → (str_bytes (join LF (sel done ++ [cur])) ≤ max)%N →
  fit (done ++ [cur]) = sel done ++ [cur] ∧ sel (done ++ [cur]) = sel done ++ [cur].
Proof.
  intros Hf Hw Hlen. rewrite selection_snoc, Hw. split; [|done]. rewrite fitting_snoc. simpl app.
  by rewrite bool_decide_eq_true_2, bool_decide_eq_true_2.
Qed.

Lemma output_empty done all_more :
  starts_full (sel (done ++ all_more)) → is_empty (join LF (sel done)) = bool_decide (sel done = []).
Proof.
  intros Hfull. destruct (sel_more done all_more) as [rest Hr]. rewrite Hr in Hfull.
  destruct (sel done) as [|l ls]; [done|]. rewrite joined_nonempty; [done|]. exists l, ls. split; [done|]. by apply Hfull.
Qed.

(** The end of a line. *)
Lemma finish_reading done cur st all_more :
  reading done cur st → has_byte (ascii_of_N 13) cur = false → (N.of_nat (length done) + 1 < usize_max)%N →
  starts_full (sel (done ++ all_more)) →
  match finish_paginated_line max offset limit st with
  | Ok st' => reading (done ++ [cur]) "" (next_line st')
  | Err e => fails done cur e
  end.
Proof.
  intros [Ht Hb Ho Hr Hsome Hline Hfull] Hcr Hlen Hstart. unfold finish_paginated_line.
  rewrite Ht, in_page_bound by lia. pose proof (fit_length done) as [Hf1 Hf2].
  assert (usize_add (N.of_nat (length done)) 1 = N.of_nat (length (done ++ [cur]))) as Hnext
    by (rewrite length_app; unfold usize_add, saturating_add; simpl; lia).
  destruct (pg_output_full st) eqn:Hof; [|destruct (wanted done) eqn:Hw]; simpl orb; cbv iota.
  - rewrite orb_true_r. assert (fit (done ++ [cur]) = fit done ∧ fit done ≠ sel (done ++ [cur])) as [E1 E2].
    { apply fit_stops. destruct Hline as [?|(? & ? & Hne & ?)]; [by left|right]. split_and!; [done..|].
      rewrite str_bytes_join. rewrite bool_decide_eq_false_2 by done. lia. }
    constructor; simpl; rewrite ?Ht, ?E1; try done; [|by left]. intros He. rewrite He in E2.
    specialize (Hsome He). exfalso. destruct Hline as [?|(? & ? & ? & ?)]; congruence.
  - destruct Hline as (Hfs & Hl & Hcur). rewrite Hl, no_cr by done. rewrite Ho, Hr, Hfs, usize_lt2 by done.
    assert (bool_decide (0 < N.of_nat (length (sel done)))%N = negb (bool_decide (sel done = []))) as ->
      by (destruct (sel done); [done|]; rewrite !bool_decide_eq_true_2, bool_decide_eq_false_2 by (done || simpl; lia); done).
    assert ((str_bytes (join LF (sel done)) + (if negb (bool_decide (sel done = [])) then 1 else 0) + str_bytes cur)%N
            = str_bytes (join LF (sel done ++ [cur]))) as ->
      by (rewrite str_bytes_join; destruct (bool_decide (sel done = [])); simpl; lia).
    rewrite (output_empty _ _ Hstart). case_bool_decide as Hbig; [case_bool_decide as Hnil|].
    + repeat split; [done..|]. rewrite Hnil in Hbig. exact Hbig.
    + destruct (fit_stops done cur) as [E1 E2]; [right; auto|].
      constructor; simpl; rewrite ?Ht, ?E1; try done; [|by left]. intros He. congruence.
    + destruct (fit_grows done cur Hfs Hw) as [E1 E2]; [lia|]. rewrite <-E2 in E1.
      constructor; simpl; rewrite ?Ht, ?E1, ?E2; try done.
      * case_bool_decide as Hnil; simpl; [by rewrite Hnil|]. by rewrite join_app_r, str_app_assoc.
      * rewrite length_app. unfold usize_add, saturating_add. simpl. lia.
      * split_and!; [done|by case_match|unfold str_bytes; simpl; lia].
  - destruct Hline as (Hfs & Hl & _). assert (sel (done ++ [cur]) = sel done) as E by (by rewrite selection_snoc, Hw).
    constructor; simpl; rewrite ?Ht, ?E; try done. split_and!; [done|by case_match|unfold str_bytes; simpl; lia].
Qed.

Lemma reading_start : reading [] "" page_start.
Proof.
  assert (sel [] = []) as Hs by (unfold selection; by rewrite drop_nil, take_nil).
  constructor; simpl; rewrite ?Hs; try done. split_and!; [done|by case_match|unfold str_bytes; simpl; lia].
Qed.

Lemma byte_reading done cur st b :
  reading done cur st → b ≠ lf → (N.of_nat (length done) < usize_max)%N →
  match page_byte max offset limit st b with
  | Ok st' => reading done (cur +:+ String b "") st'
  | Err e => fails done (cur +:+ String b "") e
  end.
Proof.
  intros [Ht Hb Ho Hr Hsome Hline Hfull] Hlf Hlen. unfold page_byte. rewrite bool_decide_eq_false_2 by done.
  assert (is_empty (cur +:+ String b "") = false) as Hne by (by destruct cur).
  assert (str_bytes (cur +:+ String b "") = str_bytes cur + 1)%N as Hs
    by (unfold str_bytes; rewrite str_length_app; simpl; lia).
  rewrite Ht, in_page_bound by lia. destruct (pg_output_full st) eqn:Hof; simpl.
  { constructor; simpl; rewrite ?Hne, ?Hof; try done. destruct Hline as [?|(? & ? & ? & ?)]; [by left|right].
    split_and!; [done..|lia]. }
  destruct Hline as (Hfs & Hl & Hcur). destruct (wanted done) eqn:Hw.
  2: { constructor; simpl; rewrite ?Hne, ?Hof, ?Hw; done. }
  rewrite Hl. case_bool_decide as Hbig; [rewrite Hr; case_bool_decide as Hret|].
  - repeat split; [|done|done]. destruct (sel done); [done|]. rewrite Hfs in Hret. simpl in Hret. lia.
  - constructor; simpl; rewrite ?Hne; try done. right. split_and!; [done..| |done].
    intros Hnil. rewrite Hfs, Hnil in Hret. done.
  - constructor; simpl; rewrite ?Hne, ?Hof, ?Hw; try done. split_and!; [done..|]. intros _. lia.
Qed.

(** The reader at the end of the text has the page. *)
Lemma reading_text done cur st : reading done cur st → page_text offset max (sel done) = Ok (pg_output st, pg_returned_lines st).
Proof.
  intros [_ _ -> -> Hsome _ _]. unfold page_text. destruct (sel done) as [|l ls] eqn:Hs; [done|]. rewrite <-Hs in *.
  destruct (fit done) as [|x xs]; [|done]. by rewrite Hsome in Hs.
Qed.

Lemma stream_text s done cur st :
  reading done cur st → has_byte lf cur = false → has_byte (ascii_of_N 13) (cur +:+ s) = false →
  (N.of_nat (length done) + str_bytes s + 1 < usize_max)%N → starts_full (sel (done ++ lines (cur +:+ s))) →
  match (let? st := try_fold (page_byte max offset limit) st (String.list_ascii_of_string s) in page_end max offset limit st) with
  | Ok st' => reading (done ++ lines (cur +:+ s)) "" st'
  | Err e => page_text offset max (sel (done ++ lines (cur +:+ s))) = Err e
  end.
Proof.
  revert done cur st. induction s as [|b s IH]; intros done cur st Hst Hlf Hcr Hlen Hfull; cbn [String.list_ascii_of_string try_fold].
  - rewrite str_app_nil_r in *. rewrite lines_single in * by done. unfold page_end. rewrite (rd_bytes _ _ _ Hst).
    destruct (is_empty cur) eqn:He; simpl negb; cbv iota.
    { rewrite app_nil_r. by destruct cur. }
    pose proof (finish_reading done cur st [cur] Hst Hcr ltac:(lia) Hfull) as Hf.
    destruct (finish_paginated_line max offset limit st); [done|by apply fails_text].
  - assert (N.of_nat (len (String b s)) = N.of_nat (len s) + 1)%N as Hb by (simpl; lia). unfold str_bytes in *.
    rewrite has_byte_app, has_byte_cons in Hcr. rewrite !orb_false_iff in Hcr. destruct Hcr as (Hcr1 & Hcr2 & Hcr3).
    destruct (decide (b = lf)) as [->|Hbl].
    + rewrite lines_cons in * by done. unfold page_byte at 1. rewrite bool_decide_eq_true_2 by done.
      pose proof (finish_reading done cur st (cur :: lines s) Hst Hcr1 ltac:(lia) Hfull) as Hf.
      destruct (finish_paginated_line max offset limit st) as [st'|e]; [|by apply fails_text].
      assert (done ++ cur :: lines s = (done ++ [cur]) ++ lines ("" +:+ s)) as Heq by (by rewrite <-app_assoc).
      rewrite Heq in *. apply IH; try done. rewrite length_app. simpl. lia.
    + pose proof (byte_reading done cur st b Hst Hbl ltac:(lia)) as Hf.
      assert (cur +:+ String b s = (cur +:+ String b "") +:+ s) as Heq by (by rewrite <-str_app_assoc).
      rewrite Heq in *. destruct (page_byte max offset limit st b) as [st'|e].
      * apply IH; try done; [| |lia].
        -- rewrite has_byte_app, has_byte_cons, Hlf. simpl. by rewrite bool_decide_eq_false_2.
        -- rewrite !has_byte_app, has_byte_cons, Hcr1, Hcr2, Hcr3. done.
      * destruct (first_line (cur +:+ String b "") s) as (more & rest & Hl);
          [rewrite has_byte_app, has_byte_cons, Hlf; simpl; by rewrite bool_decide_eq_false_2| |by destruct cur|].
        { rewrite !has_byte_app, has_byte_cons, Hcr1, Hcr2, Hcr3. done. }
        rewrite Hl. apply fails_text. destruct Hf as (? & ? & ? & ?). repeat split; try done.
        unfold str_bytes in *. rewrite str_length_app. lia.
Qed.
End stream.

(** ** Chunks *)

(** What is left of the chunks so far is the beginning of a character. *)
Definition incomplete (inc : bytes) : Prop := inc = [] ∨ utf8_valid inc = false.

Lemma chunk_valid inc chunk rest :
  utf8_valid (inc ++ chunk ++ rest) = true →
  ∃ inc', validate_utf8_chunk inc chunk = Some inc' ∧ incomplete inc' ∧ utf8_valid (inc' ++ rest) = true.
Proof.
  intros Hv. unfold validate_utf8_chunk. rewrite app_assoc in Hv. destruct (utf8_error 0 (inc ++ chunk)) as [[v [l|]]|] eqn:He.
  - apply utf8_error_shape in He as (k & _ & _ & _ & _ & He). apply utf8_error_None with (n := 0%N) in Hv. congruence.
  - pose proof (utf8_error_shape _ _ _ _ He) as (k & -> & Hk & _). rewrite N.add_0_l, Nat2N.id. eexists. split; [done|].
    pose proof Hv as Hv'. rewrite <-(take_drop k (inc ++ chunk)), <-app_assoc, utf8_valid_app in Hv' by done. split; [|done].
    right. destruct (utf8_valid (drop k _)) eqn:Hd; [|done].
    assert (utf8_valid (inc ++ chunk) = true) as Hall by (by rewrite <-(take_drop k (inc ++ chunk)), utf8_valid_app).
    apply utf8_error_None with (n := 0%N) in Hall. congruence.
  - apply utf8_error_None in He. exists []. split; [done|]. split; [by left|]. by rewrite utf8_valid_app in Hv.
Qed.

Lemma concat_str_ascii chunks :
  String.list_ascii_of_string (concat_str chunks) = concat (String.list_ascii_of_string <$> chunks).
Proof. induction chunks as [|c chunks IH]; [done|]. simpl. by rewrite list_ascii_of_string_app, IH. Qed.

Lemma chunks_text max offset limit chunks inc total st :
  incomplete inc → utf8_valid (inc ++ String.list_ascii_of_string (concat_str chunks)) = true →
  (total + str_bytes (concat_str chunks) < usize_max)%N →
  page_chunks max offset limit inc total st chunks
  = match try_fold (page_byte max offset limit) st (String.list_ascii_of_string (concat_str chunks)) with
    | Ok st' => Ok (Some (st', total + str_bytes (concat_str chunks), []))%N
    | Err e => Err e
    end.
Proof.
  revert inc total st. induction chunks as [|chunk chunks IH]; intros inc total st Hinc Hv Hlen; simpl.
  { simpl in Hv. rewrite app_nil_r in Hv. destruct Hinc as [->|Hf]; [|congruence]. by rewrite N.add_0_r. }
  simpl in Hv. rewrite list_ascii_of_string_app in *. destruct (chunk_valid _ _ _ Hv) as (inc' & -> & Hinc' & Hv').
  rewrite try_fold_app. unfold page_bytes.
  destruct (try_fold (page_byte max offset limit) st (String.list_ascii_of_string chunk)) as [st'|e]; [|done].
  assert (str_bytes (chunk +:+ concat_str chunks) = str_bytes chunk + str_bytes (concat_str chunks))%N as Hs
    by (unfold str_bytes; rewrite str_length_app; lia).
  simpl in Hlen. rewrite Hs in *. assert (usize_add total (str_bytes chunk) = total + str_bytes chunk)%N as ->
    by (unfold usize_add, saturating_add; lia).
  rewrite IH by (done || lia). by rewrite N.add_assoc.
Qed.

(** Lines of a valid text are valid. *)
Lemma valid_cut (a b : bytes) : utf8_valid (a ++ lf :: b) = true → utf8_valid a = true ∧ utf8_valid b = true.
Proof.
  intros Hv. assert (utf8_valid a = true) as Ha.
  { rewrite <-(take_app_length a (lf :: b)). apply utf8_valid_take; [done|]. unfold is_char_boundary.
    rewrite lookup_app_r by lia. rewrite Nat.sub_diag. simpl. by rewrite orb_true_r. }
  split; [done|]. by rewrite utf8_valid_app in Hv.
Qed.

Definition valid_text (s : string) : Prop := utf8_valid (String.list_ascii_of_string s) = true.

Lemma valid_parts s : valid_text s → Forall valid_text (split_byte lf s).
Proof.
  intros Hv. assert (join LF (split_byte lf s) = s) as Hs by apply join_split_any. rewrite <-Hs in Hv. clear Hs.
  induction (split_byte lf s) as [|p ps IH]; [constructor|]. destruct ps as [|q ps]; [by constructor|].
  rewrite join_cons in Hv by done. unfold valid_text in *. rewrite !list_ascii_of_string_app in Hv.
  apply valid_cut in Hv as [Hp Hps]. constructor; [done|]. by apply IH.
Qed.

Lemma valid_join ls : Forall valid_text ls → valid_text (join LF ls).
Proof.
  induction 1 as [|p ps Hp Hps IH]; [done|]. destruct ps as [|q ps]; [done|]. rewrite join_cons by done.
  unfold valid_text in *. rewrite !list_ascii_of_string_app, utf8_valid_app by done. exact IH.
Qed.

Lemma valid_lines s : valid_text s → has_byte (ascii_of_N 13) s = false → Forall valid_text (lines s).
Proof.
  intros Hv Hcr. pose proof (valid_parts s Hv) as Hp. unfold lines. apply Forall_app. split.
  - assert (strip_cr_end <$> removelast (split_byte lf s) = removelast (split_byte lf s)) as ->.
    { pose proof (has_byte_split (ascii_of_N 13) lf s) as Hb.
      assert (∀ x, x ∈ removelast (split_byte lf s) → x ∈ split_byte lf s) as Hin.
      { intros x Hx. destruct (split_byte lf s) as [|y ys] using rev_ind; [done|]. rewrite removelast_last in Hx. set_solver. }
      induction (removelast (split_byte lf s)) as [|x xs IHx]; [done|]. rewrite fmap_cons, IHx by set_solver.
      rewrite no_cr; [done|]. apply Hb; [|done]. apply Hin. left. }
    destruct (split_byte lf s) as [|y ys _] using rev_ind; [constructor|]. rewrite removelast_last.
    by apply Forall_app in Hp as [? _].
  - destruct (last (split_byte lf s)) as [l|] eqn:Hl; [|constructor]. destruct (is_empty l); [constructor|].
    constructor; [|constructor]. rewrite Forall_forall in Hp. apply Hp. by apply last_Some_elem_of.
Qed.

(** ** The two pages *)

Lemma clamp_selection content offset limit :
  take (N.to_nat (N.min limit (N.of_nat (length (lines content)))))
       (drop (N.to_nat (N.min offset (N.of_nat (length (lines content))))) (lines content))
  = selection offset limit (lines content).
Proof.
  unfold selection. set (ls := lines content). destruct (decide (offset ≤ N.of_nat (length ls))%N).
  - rewrite (N.min_l offset) by lia. destruct (decide (limit ≤ N.of_nat (length ls))%N); [by rewrite N.min_l by lia|].
    rewrite N.min_r by lia. rewrite !take_ge; [done|rewrite length_drop; lia..].
  - rewrite (N.min_r offset) by lia. rewrite !drop_ge by lia. by rewrite !take_nil.
Qed.

(** A page with lines begins inside the file. *)
Lemma page_text_error offset limit max ls e :
  page_text offset max (selection offset limit ls) = Err e →
  page_text (N.min offset (N.of_nat (length ls))) max (selection offset limit ls) = Err e.
Proof.
  destruct (decide (offset ≤ N.of_nat (length ls))%N); [by rewrite N.min_l|].
  assert (selection offset limit ls = []) as -> by (unfold selection; rewrite drop_ge by lia; by rewrite take_nil). done.
Qed.

(** The page of a text file is the same whether the file is read whole or in chunks, however the chunks are cut, in
    the middle of characters too: the lines from the offset on, as many as are asked for and fit when they are joined,
    or the error of a first line that is too long; for a text without carriage returns whose page does not begin
    with an empty line. *)
Theorem pages_do_not_depend_on_reading chunks offset limit max :
  let content := concat_str chunks in
  (max < usize_max)%N → (str_bytes content + 1 < usize_max)%N →
  valid_text content → has_byte (ascii_of_N 13) content = false →
  starts_full (selection offset limit (lines content)) →
  paginate max offset limit chunks None =
    (let? page := bounded_text_lines content offset (Some limit) max in Ok (Some (page, str_bytes content)))
  ∧ bounded_text_lines content offset (Some limit) max =
    (let? page := page_text (N.min offset (N.of_nat (length (lines content)))) max (selection offset limit (lines content)) in
     Ok {| tp_content := page.1; tp_total_lines := N.of_nat (length (lines content));
           tp_line_offset := N.min offset (N.of_nat (length (lines content))); tp_returned_lines := page.2;
           tp_has_more_lines := bool_decide (usize_add (N.min offset (N.of_nat (length (lines content)))) page.2
                                             < N.of_nat (length (lines content)))%N |}).
Proof.
  intros content Hmax Hlen Hv Hcr Hfull. subst content. set (content := concat_str chunks) in *.
  assert (bounded_text_lines content offset (Some limit) max =
    (let? page := page_text (N.min offset (N.of_nat (length (lines content)))) max (selection offset limit (lines content)) in
     Ok {| tp_content := page.1; tp_total_lines := N.of_nat (length (lines content));
           tp_line_offset := N.min offset (N.of_nat (length (lines content))); tp_returned_lines := page.2;
           tp_has_more_lines := bool_decide (usize_add (N.min offset (N.of_nat (length (lines content)))) page.2
                                             < N.of_nat (length (lines content)))%N |})) as Hb.
  { unfold bounded_text_lines. simpl default. by rewrite clamp_selection, bounded_lines_text. }
  split; [|exact Hb]. rewrite Hb. unfold paginate.
  rewrite (chunks_text max offset limit chunks [] 0 page_start) by (done || (left; done) || (simpl; fold content; lia)).
  fold content. rewrite N.add_0_l.
  pose proof (stream_text max offset limit Hmax content [] "" page_start (reading_start _ _ _ Hmax) eq_refl Hcr ltac:(simpl; lia) Hfull) as Hs.
  change ([] ++ lines ("" +:+ content)) with (lines content) in Hs.
  destruct (try_fold (page_byte max offset limit) page_start _) as [st|e]; simpl in Hs |- *.
  - destruct (page_end max offset limit st) as [st'|e].
    + pose proof (reading_text _ _ _ _ _ _ Hs) as Ht. rewrite (page_text_offset _ _ _ _ _ Ht).
      assert (valid_text (pg_output st')) as Ho.
      { rewrite (rd_output _ _ _ _ _ _ Hs). apply valid_join. destruct (fit_take max offset limit (lines content)) as [k ->].
        apply Forall_take. unfold selection. by apply Forall_take, Forall_drop, valid_lines. }
      unfold from_utf8. apply utf8_error_None with (n := 0%N) in Ho. rewrite Ho. unfold page_of. by rewrite (rd_total _ _ _ _ _ _ Hs).
    + by rewrite (page_text_error _ _ _ _ _ Hs).
  - by rewrite (page_text_error _ _ _ _ _ Hs).
Qed.

(** Chunks that cut a character of two bytes. *)
Definition cut_chunks : list string :=
  [("ab" +:+ String lf "c") +:+ String (ascii_of_N 195) ""; String (ascii_of_N 169) (String lf "e")]%string.

Lemma pages_do_not_depend_on_reading_witness :
  let content := concat_str cut_chunks in
  paginate 100 1 2 cut_chunks None =
    (let? page := bounded_text_lines content 1 (Some 2%N) 100 in Ok (Some (page, str_bytes content)))
  ∧ bounded_text_lines content 1 (Some 2%N) 100 =
    (let? page := page_text (N.min 1 (N.of_nat (length (lines content)))) 100 (selection 1 2 (lines content)) in
     Ok {| tp_content := page.1; tp_total_lines := N.of_nat (length (lines content));
           tp_line_offset := N.min 1 (N.of_nat (length (lines content))); tp_returned_lines := page.2;
           tp_has_more_lines := bool_decide (usize_add (N.min 1 (N.of_nat (length (lines content)))) page.2
                                             < N.of_nat (length (lines content)))%N |}).
Proof.
  apply (pages_do_not_depend_on_reading cut_chunks 1 2 100).
  - by vm_compute.
  - by vm_compute.
  - by vm_compute.
  - by vm_compute.
  - intros l [= <-]. done.
Defined.

(** A page that begins with empty lines: read whole, the lines are counted but not there; read in chunks, they are. *)
Lemma leading_empty_lines_are_lost :
  let content := String lf (String lf "a") in
  (∃ page, bounded_text_lines content 0 (Some 3%N) 100 = Ok page ∧ tp_content page = "a"%string ∧ tp_returned_lines page = 3%N) ∧
  (∃ page n, paginate 100 0 3 [content] None = Ok (Some (page, n)) ∧ tp_content page = content ∧ tp_returned_lines page = 3%N).
Proof. split; repeat eexists; by vm_compute. Qed.

(** A carriage return at the end of a file without a line feed: read whole, it is in the page; in chunks, it is not. *)
Lemma last_carriage_return_differs :
  let content := String "a" (String (ascii_of_N 13) "") in
  (∃ page, bounded_text_lines content 0 (Some 1%N) 100 = Ok page ∧ tp_content page = content) ∧
  (∃ page n, paginate 100 0 1 [content] None = Ok (Some (page, n)) ∧ tp_content page = "a"%string).
Proof. split; repeat eexists; by vm_compute. Qed.
