(* ===== verification/ExtHunks.v ===== *)
(** * Hunks are applied exactly

    A patch that was made from an edit script takes a document to the document the script describes, whatever its line
    ending; and where the application departs from what a unified diff says. *)

From S2P Require Import Prelude Utf8 CoreTypes CoreLlm ProjReducer StoreTypes AiRetry S5rWire StdPath StdStr CoreAccess ExtFiles ExtPatch ExtPages.

(** ** Edit scripts *)

Inductive Segment :=
| Seg_Keep (ls : list string)
| Seg_Change (h : list HunkLine).

Definition hunk_new (h : list HunkLine) : list string :=
  omap (λ l, match l with HL_Context s | HL_Add s => Some s | HL_Delete _ => None end) h.

Definition seg_old (s : Segment) : list string := match s with Seg_Keep ls => ls | Seg_Change h => hunk_old h end.
Definition seg_new (s : Segment) : list string := match s with Seg_Keep ls => ls | Seg_Change h => hunk_new h end.

Definition script_old (segs : list Segment) : list string := concat (seg_old <$> segs).
Definition script_new (segs : list Segment) : list string := concat (seg_new <$> segs).

(** The hunks of a script, each with the number of its first old line. *)
Fixpoint script_hunks (start : nat) (segs : list Segment) : list Hunk :=
  match segs with
  | [] => []
  | Seg_Keep ls :: segs => script_hunks (start + length ls) segs
  | Seg_Change h :: segs =>
    {| hk_old_start := N.of_nat start + 1; hk_lines := h |} :: script_hunks (start + length (hunk_old h)) segs
  end.

(** Every hunk shows a line of the old file: a context line or one it deletes. *)
Definition anchored (s : Segment) : Prop := match s with Seg_Keep _ => True | Seg_Change h => hunk_old h ≠ [] end.

(** ** One hunk *)

Lemma forallb_imap_offset (content expected : list string) position :
  forallb (λ p : nat * string, bool_decide (content !! (position + p.1) = Some p.2)) (imap pair expected) = true ↔
  ∀ i s, expected !! i = Some s → content !! (position + i) = Some s.
Proof.
  rewrite forallb_forall. split.
  - intros H i s Hs. specialize (H (i, s)). rewrite bool_decide_eq_true in H. apply H. apply list_elem_of_In.
    apply elem_of_lookup_imap. eauto.
  - intros H [i s] Hin. apply list_elem_of_In, elem_of_lookup_imap in Hin as (j & x & [= -> ->] & Hx).
    apply bool_decide_eq_true. by apply H.
Qed.

Lemma matches_here (front expected back : list string) : matches_at (front ++ expected ++ back) expected (length front) = true.
Proof.
  unfold matches_at. rewrite bool_decide_eq_true_2 by (rewrite !length_app; lia). simpl.
  apply forallb_imap_offset. intros i s Hs. rewrite lookup_app_r by lia.
  replace (length front + i - length front) with i by lia. by apply lookup_app_l_Some.
Qed.

Lemma find_here front h back :
  hunk_old h ≠ [] → find_match (front ++ hunk_old h ++ back) h (length front) = Some (length front).
Proof.
  intros Hne. unfold find_match. pose proof (matches_here front (hunk_old h) back) as Hm.
  destruct (hunk_old h) as [|x xs]; [done|]. by rewrite Hm.
Qed.

(** A match is all a hunk asks for. *)
Lemma replace_matched (content : list string) h source :
  (∀ i s, hunk_old h !! i = Some s → content !! (source + i) = Some s) →
  replace_lines content h source = Ok (hunk_new h, source + length (hunk_old h)).
Proof.
  revert source. induction h as [|l h IH]; intros source Hm; cbn [replace_lines]; [by rewrite Nat.add_0_r|].
  destruct l as [s|s|s].
  - pose proof (Hm 0 s eq_refl) as H0. rewrite Nat.add_0_r in H0. rewrite H0, bool_decide_eq_true_2 by done.
    rewrite IH; [simpl; do 2 f_equal; lia|]. intros i x Hx. specialize (Hm (S i) x Hx). rewrite <-Hm. f_equal. lia.
  - rewrite IH; [done|]. exact Hm.
  - pose proof (Hm 0 s eq_refl) as H0. rewrite Nat.add_0_r in H0. rewrite H0, bool_decide_eq_true_2 by done.
    rewrite IH; [simpl; do 2 f_equal; lia|]. intros i x Hx. specialize (Hm (S i) x Hx). rewrite <-Hm. f_equal. lia.
Qed.

(** Once the place of a hunk is found, applying it cannot fail. *)
Lemma find_match_matches (content : list string) h anchor position :
  find_match content h anchor = Some position →
  ∀ i s, hunk_old h !! i = Some s → content !! (position + i) = Some s.
Proof.
  unfold find_match. destruct (hunk_old h) as [|x xs] eqn:Ho; [done|]. rewrite <-Ho in *. intros Hf.
  assert (matches_at content (hunk_old h) position = true) as Hm.
  { destruct (matches_at content (hunk_old h) anchor) eqn:Ha; [by simplify_eq|]. by apply find_first_Some in Hf as [_ ?]. }
  unfold matches_at in Hm. apply andb_true_iff in Hm as [_ Hm]. by apply forallb_imap_offset.
Qed.

Lemma count_foldl h a b :
  let c := foldl count_line (a, b) h in length (hunk_old h) + c.1 + b = length (hunk_new h) + c.2 + a.
Proof.
  revert a b. induction h as [|l h IH]; intros a b; simpl; [lia|].
  destruct l; cbn [count_line fst snd hunk_old hunk_new omap list_omap length]; [specialize (IH a b)|specialize (IH (S a) b)|specialize (IH a (S b))];
    unfold hunk_old, hunk_new in *; simpl in *; lia.
Qed.

Lemma counts_lengths start h :
  let c := hunk_counts {| hk_old_start := start; hk_lines := h |} in
  length (hunk_old h) + c.1 = length (hunk_new h) + c.2.
Proof. pose proof (count_foldl h 0 0) as H. unfold hunk_counts. simpl in *. lia. Qed.

(** ** Scripts *)

Lemma wrap_small z : (- 2 ^ 62 <= z <= 2 ^ 62)%Z → wrap_isize z = z.
Proof. intros Hz. unfold wrap_isize. rewrite Z.mod_small; lia. Qed.

Lemma anchor_here start (delta : Z) position n :
  (Z.of_nat start + delta = Z.of_nat position)%Z → (Z.of_nat start <= 2 ^ 62)%Z → (Z.of_nat position <= 2 ^ 62)%Z → position ≤ n →
  anchor_of (N.of_nat start + 1) delta n = position.
Proof.
  intros Hd Hs Hp Hn. unfold anchor_of. replace (N.of_nat start + 1 - 1)%N with (N.of_nat start) by lia.
  rewrite nat_N_Z, (wrap_small (Z.of_nat start)) by lia. rewrite Hd, wrap_small by lia. lia.
Qed.

Lemma apply_script segs index start front (delta : Z) :
  Forall anchored segs → (Z.of_nat start + delta = Z.of_nat (length front))%Z →
  (Z.of_nat (start + length (script_old segs)) <= 2 ^ 62)%Z →
  (Z.of_nat (length front + length (script_new segs)) <= 2 ^ 62)%Z →
  apply_loop index delta (front ++ script_old segs) (script_hunks start segs) = Ok (front ++ script_new segs).
Proof.
  intros Hall. revert index start front delta.
  induction Hall as [|[ls|h] segs Hseg _ IH]; intros index start front delta Hd Hold Hnew; [done| |];
    unfold script_old, script_new in *; rewrite !fmap_cons in *; cbn [concat seg_old seg_new script_hunks] in *;
    rewrite !length_app in *.
  - rewrite !app_assoc. apply IH; rewrite ?length_app; lia.
  - cbn [apply_loop hk_old_start hk_lines]. simpl in Hseg.
    rewrite (anchor_here start delta (length front)) by (rewrite ?length_app; lia).
    rewrite find_here by done. rewrite (replace_matched _ h (length front)).
    2: { intros i s Hs. rewrite lookup_app_r by lia. replace (length front + i - length front) with i by lia.
         by apply lookup_app_l_Some. }
    cbv beta iota zeta. unfold splice. rewrite take_app_length. simpl snd. simpl fst.
    replace (length front + length (hunk_old h)) with (length (front ++ hunk_old h)) by (by rewrite length_app).
    rewrite (app_assoc front (hunk_old h)), drop_app_length, (app_assoc front (hunk_new h)), (app_assoc front (hunk_new h)).
    apply IH; rewrite ?length_app; [|lia..].
    pose proof (counts_lengths (N.of_nat start + 1) h) as Hc. simpl in Hc. lia.
Qed.

(** ** Documents *)

Local Abbreviation LF := (String lf "").

Lemma lines_ending e l r :
  has_byte lf l = false → has_byte cr l = false → lines (l +:+ ending_str e +:+ r) = l :: lines r.
Proof.
  intros Hlf Hcr. destruct e.
  - by apply (lines_cons l r).
  - replace (l +:+ ending_str Ending_Crlf +:+ r) with ((l +:+ String cr "") +:+ String lf r) by (by rewrite <-str_app_assoc).
    unfold lines. rewrite split_byte_app_sep by (rewrite has_byte_app, Hlf; by vm_compute).
    destruct (split_byte lf r) as [|x xs] eqn:Hs; [by apply split_byte_nonempty in Hs|].
    change (removelast ((l +:+ String cr "") :: x :: xs)) with ((l +:+ String cr "") :: removelast (x :: xs)).
    rewrite fmap_cons. simpl app. unfold strip_cr_end at 1. by rewrite strip_suffix_app.
Qed.

Lemma render_cons l m ls e tn :
  render_document (l :: m :: ls) e tn = l +:+ ending_str e +:+ render_document (m :: ls) e tn.
Proof.
  unfold render_document. rewrite join_cons by done. destruct tn; simpl; by rewrite <-?str_app_assoc.
Qed.

(** A document: lines without line ends, of which the last one is not empty when no line end follows it. *)
Definition document (ls : list string) (tn : bool) : Prop :=
  Forall (λ l, has_byte lf l = false ∧ has_byte cr l = false) ls ∧ (tn = false → last ls ≠ Some ""%string).

Lemma document_tail l ls tn : document (l :: ls) tn → ls ≠ [] → document ls tn.
Proof. intros [[_ Hall]%Forall_cons Hlast] Hne. split; [done|]. intros Ht. specialize (Hlast Ht). by destruct ls. Qed.

Lemma lines_render ls e tn : document ls tn → lines (render_document ls e tn) = ls.
Proof.
  induction ls as [|l ls IH]; intros Hd; [by destruct e, tn|]. pose proof Hd as [[[Hlf Hcr] _]%Forall_cons Hlast].
  destruct ls as [|m ls].
  - unfold render_document. destruct tn; simpl.
    + rewrite <-(str_app_nil_r (ending_str e)). by rewrite lines_ending.
    + rewrite lines_single by done. specialize (Hlast eq_refl). by destruct l.
  - rewrite render_cons, lines_ending by done. f_equal. apply IH. by eapply document_tail.
Qed.

Lemma substring_last s c : String.substring (len s) 1 (s +:+ String c "") = String c "".
Proof. induction s as [|d s IH]; [done|]. exact IH. Qed.

Lemma ends_with_snoc s c d : ends_with (s +:+ String c "") (String d "") = bool_decide (c = d).
Proof.
  unfold ends_with. rewrite str_length_app. change (len (String c "")) with 1. change (len (String d "")) with 1.
  replace (len s + 1 - 1) with (len s) by lia.
  rewrite substring_last. rewrite (proj2 (Nat.leb_le 1 (len s + 1))) by lia. cbn [andb].
  apply bool_decide_ext. split; [by intros [= ->]|by intros ->].
Qed.

Lemma string_snoc s : s ≠ ""%string → ∃ t c, s = t +:+ String c "".
Proof.
  induction s as [|c s IH]; [done|]. intros _. destruct s as [|d s]; [by exists "", c|].
  destruct IH as (t & x & ->); [done|]. by exists (String c t), x.
Qed.

Lemma ends_with_line a l : has_byte lf l = false → l ≠ ""%string → ends_with (a +:+ l) LF = false.
Proof.
  intros Hlf (t & c & ->)%string_snoc. rewrite str_app_assoc, ends_with_snoc. apply bool_decide_eq_false. intros ->.
  by rewrite has_byte_app, has_byte_cons, bool_decide_eq_true_2, orb_true_r in Hlf by done.
Qed.

Lemma trailing_render ls e tn :
  document ls tn → ls ≠ [] → ends_with (render_document ls e tn) LF = tn.
Proof.
  intros [Hall Hlast] Hne. destruct ls as [|l ls _] using rev_ind; [done|]. rewrite last_snoc in Hlast.
  apply Forall_app in Hall as [_ [[Hlf _] _]%Forall_cons]. unfold render_document.
  assert (∃ a, join (ending_str e) (ls ++ [l]) = a +:+ l) as [a ->].
  { destruct ls; [by exists ""|]. rewrite join_app_r by done. eexists. by rewrite str_app_assoc. }
  rewrite (bool_decide_eq_false_2 (ls ++ [l] = [])) by (by destruct ls). destruct tn; simpl.
  - destruct e; simpl; [by rewrite ends_with_snoc, bool_decide_eq_true_2|].
    assert (∀ x, x +:+ String cr LF = (x +:+ String cr "") +:+ LF) as -> by (intros; by rewrite <-str_app_assoc).
    by rewrite ends_with_snoc, bool_decide_eq_true_2.
  - apply ends_with_line; [done|]. intros ->. by apply Hlast.
Qed.

Lemma contains_app a pat b : str_contains (a +:+ pat +:+ b) pat = true.
Proof.
  induction a as [|c a IH].
  - change ("" +:+ pat +:+ b) with (pat +:+ b). pose proof (starts_with_app pat b) as H. unfold starts_with in H.
    destruct (pat +:+ b); simpl in *; by rewrite H.
  - change (String c a +:+ pat +:+ b) with (String c (a +:+ pat +:+ b)). simpl. rewrite IH. by rewrite orb_true_r.
Qed.

Lemma contains_byte s c pat : str_contains s (String c pat) = true → has_byte c s = true.
Proof.
  induction s as [|d s IH]; [done|]. cbn [str_contains String.prefix]. rewrite has_byte_cons.
  destruct (ascii_dec c d) as [->|]; [by rewrite bool_decide_eq_true_2|]. simpl. intros ->%IH. by rewrite orb_true_r.
Qed.

Lemma render_no_cr ls tn : document ls tn → has_byte cr (render_document ls Ending_Lf tn) = false.
Proof.
  induction ls as [|l ls IH]; intros Hd; [by destruct tn|]. pose proof Hd as [[[_ Hcr] _]%Forall_cons _].
  destruct ls as [|m ls].
  - unfold render_document. destruct tn; simpl; rewrite ?has_byte_app, Hcr; done.
  - rewrite render_cons, !has_byte_app, Hcr. rewrite IH by (by eapply document_tail). by vm_compute.
Qed.

(** The line ending of a document is seen when a line end is there. *)
Lemma ending_render ls e tn :
  document ls tn → (tn = true ∨ 1 < length ls ∨ e = Ending_Lf) → ls ≠ [] →
  td_line_ending (parse_document (render_document ls e tn)) = e.
Proof.
  intros Hd Hsee Hne. cbn [parse_document td_line_ending]. destruct e; simpl ending_str.
  - destruct (str_contains _ _) eqn:Hc; [|done]. apply contains_byte in Hc. by rewrite render_no_cr in Hc.
  - assert (∃ a b, render_document ls Ending_Crlf tn = a +:+ String cr LF +:+ b) as (a & b & ->); [|by rewrite contains_app].
    destruct ls as [|l [|m ls]]; [done| |].
    + destruct Hsee as [->|[Hl|]]; [|simpl in Hl; lia|done]. exists l, "". by rewrite str_app_nil_r.
    + rewrite render_cons. eauto.
Qed.

(** ** Patching a document *)

(** C20. A patch made from an edit script does what the script says: applied to a document that holds the old lines of
    the script, with either line ending and with or without a last line end, it gives the document of the new lines
    with the same line ending and the same last line end; for hunks that each show an old line, and files of less
    than two to the sixty-second lines. *)
Theorem patches_apply_exactly segs e tn path :
  Forall anchored segs →
  (Z.of_nat (length (script_old segs)) <= 2 ^ 62)%Z → (Z.of_nat (length (script_new segs)) <= 2 ^ 62)%Z →
  document (script_old segs) tn → (tn = true ∨ 1 < length (script_old segs) ∨ e = Ending_Lf) → script_old segs ≠ [] →
  let patch := {| fp_old_path := Some path; fp_new_path := Some path; fp_hunks := script_hunks 0 segs |} in
  let original := render_document (script_old segs) e tn in
  apply_hunks (td_lines (parse_document original)) (fp_hunks patch) = Ok (script_new segs) ∧
  patched_content patch (parse_document original) (script_new segs) = render_document (script_new segs) e tn.
Proof.
  intros Hall Ho Hn Hd Hsee Hne patch original. subst patch original. split.
  - assert (td_lines (parse_document (render_document (script_old segs) e tn)) = script_old segs) as ->.
    { cbn [parse_document td_lines]. rewrite lines_render by done. destruct (is_empty _) eqn:He; [|done].
      apply is_empty_spec in He. rewrite <-(lines_render _ e _ Hd), He. done. }
    apply (apply_script segs 0 0 [] 0); [done|simpl; lia..].
  - unfold patched_content. simpl fp_old_path. rewrite ending_render by done. cbn [parse_document td_has_trailing_newline].
    rewrite trailing_render by done. done.
Qed.

(** A script with two hunks on a file with the line ends of Windows. *)
Definition sample_script : list Segment :=
  [Seg_Change [HL_Delete "a"; HL_Add "A"; HL_Add "B"]; Seg_Keep ["k"]; Seg_Change [HL_Context "c"; HL_Delete "d"]]%string.

Lemma patches_apply_exactly_witness :
  let patch := {| fp_old_path := Some "f"; fp_new_path := Some "f"; fp_hunks := script_hunks 0 sample_script |}%string in
  let original := render_document (script_old sample_script) Ending_Crlf true in
  apply_hunks (td_lines (parse_document original)) (fp_hunks patch) = Ok (script_new sample_script) ∧
  patched_content patch (parse_document original) (script_new sample_script)
  = render_document (script_new sample_script) Ending_Crlf true.
Proof.
  apply (patches_apply_exactly sample_script Ending_Crlf true "f").
  - by repeat constructor.
  - by vm_compute.
  - by vm_compute.
  - split; [by repeat constructor|done].
  - by left.
  - done.
Defined.

(** ** Where the application departs from the diff *)

Definition text (ls : list string) : string := render_document ls Ending_Lf true.

Definition run_patch (original patch : string) : option (result string string) :=
  match parse_patch patch with
  | Some (Ok [p]) =>
    Some (let? ls := apply_hunks (td_lines (parse_document original)) (fp_hunks p) in
          Ok (patched_content p (parse_document original) ls))
  | _ => None
  end.

(** A line that begins with two dashes and a blank cannot be deleted: its deletion reads as the header of a file. *)
Lemma deleted_dashes_are_a_header :
  parse_patch (text ["--- a/f"; "+++ b/f"; "@@ -1,2 +1,1 @@"; " k"; "--- x"])%string
  = Some (Err format_error).
Proof. by vm_compute. Qed.

(** A hunk that only inserts, behind line 2, inserts before it. *)
Lemma insertion_is_one_line_early :
  run_patch (text ["1"; "2"; "3"]) (text ["--- a/f"; "+++ b/f"; "@@ -2,0 +3 @@"; "+new"])%string
  = Some (Ok (text ["1"; "new"; "2"; "3"]%string)).
Proof. by vm_compute. Qed.

(** One line end of Windows in a file turns all of them into that. *)
Lemma mixed_line_ends_are_rewritten :
  run_patch ("1" +:+ String cr LF +:+ "2" +:+ LF +:+ "3" +:+ LF)
            (text ["--- a/f"; "+++ b/f"; "@@ -3 +3 @@"; "-3"; "+4"])%string
  = Some (Ok (render_document ["1"; "2"; "4"]%string Ending_Crlf true)).
Proof. by vm_compute. Qed.

(** A file that is made without a last line end, as the patch says, gets one. *)
Lemma created_file_gets_a_line_end :
  run_patch "" (text ["--- /dev/null"; "+++ b/f"; "@@ -0,0 +1 @@"; "+x"; "\ No newline at end of file"])%string
  = Some (Ok ("x" +:+ LF)).
Proof. by vm_compute. Qed.
