(* ===== verification/ExtRoutes.v ===== *)
(** * HTTP routes of extensions
    ([astrcode-extension-sdk/src/wire/extension_http.rs], the route rules of
    [extension/registration_validation.rs], [validate_http_route_registrations] of
    [astrcode-extensions/src/runner/registration.rs], the search of [runner/http.rs])

    A route is a pattern of segments, some of them parameters.  Routes are compared when they are registered, so
    that at most one answers a request. *)

From S2P Require Import Prelude StdPath StdStr.

Inductive ExtensionHttpMethod := Http_Get | Http_Post | Http_Put | Http_Patch | Http_Delete.
Inductive ExtensionHttpAccess := Http_Public | Http_Authenticated.

#[export] Instance ExtensionHttpMethod_eq_dec : EqDecision ExtensionHttpMethod.
Proof. solve_decision. Defined.
#[export] Instance ExtensionHttpAccess_eq_dec : EqDecision ExtensionHttpAccess.
Proof. solve_decision. Defined.

Record ExtensionHttpRoute := {
  rt_method : ExtensionHttpMethod;
  rt_path : string;
  rt_access : ExtensionHttpAccess;
  rt_description : string;
  rt_max_body_bytes : N;
}.

Definition MAX_EXTENSION_HTTP_BODY_BYTES : N := 1024 * 1024.

(** ** Patterns *)

Definition extension_http_path_segments (path : string) : list string :=
  filter (λ s, s ≠ ""%string) (split_byte slash (trim_matches (λ c, bool_decide (c = slash)) path)).

Definition extension_http_param_name (segment : string) : option string :=
  str_strip_prefix segment "{" ≫= λ rest, str_strip_suffix rest "}" ≫= λ name,
  if is_empty name then None else Some name.

Definition is_param (segment : string) : bool := bool_decide (is_Some (extension_http_param_name segment)).

(** The loop over the zipped segments; a later parameter of the same name replaces an earlier one. *)
Fixpoint match_segments (patterns path : list string) (params : gmap string string) : option (gmap string string) :=
  match patterns, path with
  | pattern_segment :: patterns, path_segment :: path =>
    match extension_http_param_name pattern_segment with
    | Some name => match_segments patterns path (<[name := path_segment]> params)
    | None => if bool_decide (pattern_segment = path_segment) then match_segments patterns path params else None
    end
  | _, _ => Some params
  end.

Definition match_extension_http_route (pattern path : string) : option (gmap string string) :=
  let pattern_segments := extension_http_path_segments pattern in
  let path_segments := extension_http_path_segments path in
  if negb (Nat.eqb (length pattern_segments) (length path_segments)) then None
  else match_segments pattern_segments path_segments ∅.

Definition segments_conflict (left right : string) : bool :=
  bool_decide (left = right) || is_param left || is_param right.

Definition extension_http_route_patterns_conflict (left right : string) : bool :=
  let left_segments := extension_http_path_segments left in
  let right_segments := extension_http_path_segments right in
  Nat.eqb (length left_segments) (length right_segments)
  && forallb (λ p, segments_conflict p.1 p.2) (zip left_segments right_segments).

(** ** Validity of a route *)

Definition is_ascii_alphanumeric (c : ascii) : bool := byte_in c 48 57 || byte_in c 65 90 || byte_in c 97 122.
Definition all_bytes (p : ascii → bool) (s : string) : bool := forallb p (String.list_ascii_of_string s).

(** The closure of [all], with the names of the parameters seen so far. *)
Fixpoint valid_segments (params : list string) (segments : list string) : bool :=
  match segments with
  | [] => true
  | segment :: segments =>
    if is_empty segment then false
    else match starts_with segment "{", ends_with segment "}" with
    | false, false =>
      negb (str_contains segment "{") && negb (str_contains segment "}") && valid_segments params segments
    | true, true =>
      let name := str_take (String.length segment - 2) (str_drop 1 segment) in
      negb (is_empty name) && all_bytes (λ c, is_ascii_alphanumeric c || bool_decide (c = "_"%char)) name
      && bool_decide (name ∉ params) && valid_segments (name :: params) segments
    | _, _ => false
    end
  end.

Definition valid_extension_http_route_path (path : string) : bool :=
  starts_with path "/" && negb (ends_with path "/") && negb (str_contains path "//") && negb (str_contains path "..")
  && valid_segments [] (drop 1 (split_byte slash path)).

Definition validate_extension_http_route (route : ExtensionHttpRoute) : result unit string :=
  if negb (valid_extension_http_route_path (rt_path route)) then
    Err ("invalid extension HTTP route path: " +:+ rt_path route)
  else if bool_decide (rt_max_body_bytes route = 0)%N
          || bool_decide (MAX_EXTENSION_HTTP_BODY_BYTES < rt_max_body_bytes route)%N then
    Err ("extension HTTP max_body_bytes must be between 1 and " +:+ pretty MAX_EXTENSION_HTTP_BODY_BYTES)
  else Ok tt.

(** ** Routes that exclude each other

    Within an extension for the same access, among extensions for public routes. *)

Definition routes_conflict (existing route : ExtensionHttpRoute) : bool :=
  bool_decide (rt_access existing = rt_access route) && bool_decide (rt_method existing = rt_method route)
  && extension_http_route_patterns_conflict (rt_path existing) (rt_path route).

Definition http_method_name (method : ExtensionHttpMethod) : string :=
  match method with
  | Http_Get => "GET" | Http_Post => "POST" | Http_Put => "PUT" | Http_Patch => "PATCH" | Http_Delete => "DELETE"
  end.

(** [existing]: the routes of every extension that is registered; the error is the reason. *)
Fixpoint validate_http_route_registrations (routes : list ExtensionHttpRoute) (existing : list (list ExtensionHttpRoute))
    : result unit string :=
  match routes with
  | [] => Ok tt
  | route :: routes =>
    if negb (bool_decide (rt_access route = Http_Public)) then validate_http_route_registrations routes existing
    else if bool_decide (rt_path route = "/api"%string) || starts_with (rt_path route) "/api/" then
      Err ("public route " +:+ rt_path route +:+ " uses reserved /api namespace")
    else if existsb (existsb (λ e, bool_decide (rt_access e = Http_Public) && bool_decide (rt_method e = rt_method route)
                                   && extension_http_route_patterns_conflict (rt_path e) (rt_path route))) existing then
      Err ("public route conflicts with an existing " +:+ http_method_name (rt_method route) +:+ " route: "
             +:+ rt_path route)
    else validate_http_route_registrations routes existing
  end.

(** ** The search for a route ([dispatch_http_route]) *)

Record HttpRouteEntry (H : Type) := { he_extension_id : string; he_route : ExtensionHttpRoute; he_handler : H }.
Arguments he_extension_id {H}.
Arguments he_route {H}.
Arguments he_handler {H}.

Section search.
Context {H : Type} (access : ExtensionHttpAccess) (target : option string) (method : ExtensionHttpMethod) (path : string).

(** The parameters of a path an entry is looked at for. *)
Definition entry_params (entry : HttpRouteEntry H) : option (gmap string string) :=
  if negb (bool_decide (rt_access (he_route entry) = access))
     || match target with Some id => negb (bool_decide (id = he_extension_id entry)) | None => false end then None
  else match_extension_http_route (rt_path (he_route entry)) path.

(** [find_map] with [path_matched]. *)
Fixpoint find_route (entries : list (HttpRouteEntry H)) (path_matched : bool)
    : bool * option (HttpRouteEntry H * gmap string string) :=
  match entries with
  | [] => (path_matched, None)
  | entry :: entries =>
    match entry_params entry with
    | None => find_route entries path_matched
    | Some params =>
      if bool_decide (rt_method (he_route entry) = method) then (true, Some (entry, params))
      else find_route entries true
    end
  end.
End search.

Example match_example :
  match_extension_http_route "/files/{id}/parts" "files/7/parts/" = Some {[ "id"%string := "7"%string ]}
  ∧ match_extension_http_route "/files/{id}" "/files" = None
  ∧ extension_http_route_patterns_conflict "/files/{id}" "/{kind}/recent" = true
  ∧ extension_http_route_patterns_conflict "/files/{id}" "/notes/{id}" = false
  ∧ valid_extension_http_route_path "/files/{id}/{id}" = false.
Proof. vm_compute. done. Qed.

(** ** Segments *)

Definition is_slash (c : ascii) : bool := bool_decide (c = slash).
Definition names_of (path : string) : list string := filter (λ s, s ≠ ""%string) (split_byte slash path).

Lemma names_of_slash r : names_of (String slash r) = names_of r.
Proof. unfold names_of. simpl. rewrite filter_cons_False; [done|]. by intros []. Qed.

Lemma split_byte_snoc_sep s : split_byte slash (s +:+ "/") = split_byte slash s ++ [""].
Proof.
  induction s as [|d s IH]; [done|]. rewrite str_app_cons. cbn [split_byte]. rewrite IH. case_bool_decide; [done|].
  pose proof (split_byte_nonempty slash s). by destruct (split_byte slash s).
Qed.

Lemma names_of_snoc s : names_of (s +:+ "/") = names_of s.
Proof.
  unfold names_of. rewrite split_byte_snoc_sep, filter_app. rewrite (filter_cons_False _ ""%string); [|by intros []].
  by rewrite app_nil_r.
Qed.

Lemma string_of_list_ascii_app a b :
  String.string_of_list_ascii (a ++ b) = String.string_of_list_ascii a +:+ String.string_of_list_ascii b.
Proof. induction a as [|c a IH]; [done|]. simpl. by rewrite IH. Qed.

Lemma strip_bytes_split p l : ∃ pre, l = pre ++ strip_bytes p l ∧ Forall (λ c, p c = true) pre.
Proof.
  induction l as [|c l (pre & Hl & Hp)]; [by exists []|]. simpl. destruct (p c) eqn:Hc; [|by exists []].
  exists (c :: pre). simpl. split; [by f_equal|by constructor].
Qed.

(** Separators at either end make no difference. *)
Lemma extension_http_path_segments_names path : extension_http_path_segments path = names_of path.
Proof.
  unfold extension_http_path_segments, trim_matches. fold is_slash. change (filter _ (split_byte slash ?s)) with (names_of s).
  destruct (strip_bytes_split is_slash (String.list_ascii_of_string path)) as (pre & Hl & Hpre).
  destruct (strip_bytes_split is_slash (rev (strip_bytes is_slash (String.list_ascii_of_string path)))) as (post & Hr & Hpost).
  set (l := strip_bytes is_slash (String.list_ascii_of_string path)) in *.
  set (m := strip_bytes is_slash (rev l)) in *. clearbody m.
  assert (l = rev m ++ rev post) as Hlm by (rewrite <-rev_app_distr, <-Hr; by rewrite rev_involutive).
  rewrite <-(String.string_of_list_ascii_of_string path), Hl, Hlm. clearbody l. clear Hl Hr Hlm.
  assert (∀ r, names_of (String.string_of_list_ascii (pre ++ r)) = names_of (String.string_of_list_ascii r)) as ->.
  { intros r. induction Hpre as [|c pre Hc Hpre IH]; [done|]. unfold is_slash in Hc. apply bool_decide_eq_true in Hc as ->.
    simpl. by rewrite names_of_slash. }
  rewrite string_of_list_ascii_app. generalize (String.string_of_list_ascii (rev m)) as s. intros s.
  assert (Forall (λ c, is_slash c = true) (rev post)) as Hpost' by (by apply List.Forall_rev).
  clear Hpost. revert s. induction Hpost' as [|c q Hc Hq IH]; intros s; simpl; [by rewrite str_app_nil_r|].
  unfold is_slash in Hc. apply bool_decide_eq_true in Hc as ->.
  change (String "/" (String.string_of_list_ascii q)) with ("/" +:+ String.string_of_list_ascii q).
  rewrite str_app_assoc, <-IH. symmetry. apply names_of_snoc.
Qed.

Lemma names_of_join names :
  Forall (λ s, s ≠ ""%string ∧ has_byte slash s = false) names → names_of (join "/" names) = names.
Proof.
  intros Hn. destruct (decide (names = [])) as [->|Hne]; [done|]. unfold names_of.
  rewrite split_byte_join; [|done|by eapply Forall_impl; [exact Hn|intros s [_ ?]]].
  clear Hne. induction Hn as [|s l [Hs _] Hl IH]; [done|]. rewrite filter_cons_True by done. by rewrite IH.
Qed.

Lemma names_of_proper path : Forall (λ s, s ≠ ""%string ∧ has_byte slash s = false) (names_of path).
Proof.
  apply Forall_forall. intros s [Hs Hin]%list_elem_of_filter. split; [done|].
  pose proof (split_byte_no_sep slash path) as Hf. rewrite Forall_forall in Hf. by apply Hf.
Qed.

(** ** What a pattern matches *)

Definition segment_matches (pattern_segment path_segment : string) : Prop :=
  is_param pattern_segment = true ∨ pattern_segment = path_segment.

Lemma match_segments_spec ps ss params :
  length ps = length ss → is_Some (match_segments ps ss params) ↔ Forall2 segment_matches ps ss.
Proof.
  revert ss params. induction ps as [|p ps IH]; intros [|s ss] params Hl; try done.
  simpl. injection Hl as Hl. rewrite Forall2_cons. unfold segment_matches at 1, is_param.
  destruct (extension_http_param_name p) as [name|].
  - rewrite IH by done. split; [|tauto]. intros Hf. split; [|done]. left. by apply bool_decide_eq_true.
  - case_bool_decide as Hps.
    + rewrite IH by done. split; [|tauto]. intros Hf. split; [|done]. by right.
    + split; [by intros []|]. intros [[Hp|Hp] _]; [|done]. by apply bool_decide_eq_true, is_Some_None in Hp.
Qed.

Lemma match_route_spec pattern path :
  is_Some (match_extension_http_route pattern path) ↔ Forall2 segment_matches (names_of pattern) (names_of path).
Proof.
  unfold match_extension_http_route. rewrite !extension_http_path_segments_names.
  destruct (Nat.eqb_spec (length (names_of pattern)) (length (names_of path))) as [Hl|Hl]; simpl.
  - by apply match_segments_spec.
  - split; [by intros []|]. by intros Hf%Forall2_length.
Qed.

(** A segment both of two segments match. *)
Definition common_segment (p q : string) : string :=
  if is_param p then (if is_param q then "x" else q) else p.

Lemma common_segments_match ps qs :
  Forall2 (λ p q, segments_conflict p q = true) ps qs →
  Forall2 segment_matches ps (zip_with common_segment ps qs) ∧ Forall2 segment_matches qs (zip_with common_segment ps qs).
Proof.
  induction 1 as [|p q ps qs Hpq _ [IHp IHq]]; [by split|]. simpl. unfold segments_conflict in Hpq.
  split; constructor; try done; unfold segment_matches, common_segment; destruct (is_param p) eqn:Hp, (is_param q) eqn:Hq; auto.
  rewrite !orb_false_r in Hpq. right. symmetry. by apply bool_decide_eq_true in Hpq.
Qed.

Lemma conflict_Forall2 p q :
  extension_http_route_patterns_conflict p q = true ↔ Forall2 (λ a b, segments_conflict a b = true) (names_of p) (names_of q).
Proof.
  unfold extension_http_route_patterns_conflict. rewrite !extension_http_path_segments_names.
  rewrite andb_true_iff, Nat.eqb_eq. generalize (names_of p), (names_of q). intros ps qs. split.
  - intros [Hl Hf]. revert qs Hl Hf. induction ps as [|a ps IH]; intros [|b qs] Hl Hf; try done.
    simpl in Hf. apply andb_true_iff in Hf as [Ha Hf]. constructor; [done|]. apply IH; [by injection Hl|done].
  - induction 1 as [|a b ps qs Hab Hf [IHl IHf]]; [done|]. simpl. by rewrite IHl, IHf, Hab.
Qed.

(** Two patterns conflict exactly when a path matches both. *)
Lemma conflict_is_common p q :
  extension_http_route_patterns_conflict p q = true ↔
  ∃ path, is_Some (match_extension_http_route p path) ∧ is_Some (match_extension_http_route q path).
Proof.
  rewrite conflict_Forall2. split.
  - intros Hf. exists (join "/" (zip_with common_segment (names_of p) (names_of q))).
    rewrite !match_route_spec, names_of_join; [by apply common_segments_match|].
    pose proof (names_of_proper p) as Hp. pose proof (names_of_proper q) as Hq. revert Hp Hq.
    induction Hf as [|a b ps qs _ _ IH]; [by constructor|]. intros [Ha Hp]%Forall_cons [Hb Hq]%Forall_cons. simpl.
    constructor; [|by apply IH]. unfold common_segment. by destruct (is_param a), (is_param b).
  - intros (path & Hp & Hq). apply match_route_spec in Hp, Hq. revert Hq. generalize (names_of q).
    induction Hp as [|a s ps ss Ha _ IH]; intros qs Hq.
    + apply Forall2_nil_inv_r in Hq as ->. constructor.
    + apply Forall2_cons_inv_r in Hq as (b & qs' & Hb & Hq & ->). constructor; [|by apply IH].
      unfold segments_conflict. destruct Ha as [->| ->]; [by rewrite orb_true_r|].
      destruct Hb as [->| ->]; [by rewrite orb_true_r|]. by rewrite bool_decide_true.
Qed.

Lemma conflict_sym p q : extension_http_route_patterns_conflict p q = extension_http_route_patterns_conflict q p.
Proof. apply eq_bool_prop_intro. rewrite !Is_true_true, !conflict_is_common. naive_solver. Qed.
