(* ===== verification/ExtRegister.v ===== *)
(** * What an extension registers
    ([astrcode-extension-sdk/src/extension/registrar.rs], [registration_validation.rs], [manifest.rs],
    [extension/service.rs], the declarations of [wire/command.rs], [wire/custom_event.rs], [wire/manifest.rs],
    [hooks/types.rs], and [validate_registration_conflicts] of [astrcode-extensions/src/runner/registration.rs])

    A [Registrar] collects handlers; [finish] checks them against the manifest.  A handler is a reference ([H], one
    type for all handler traits); [supports] is [supports_argument_completions] of a command handler and [str_debug]
    the [Debug] form of a string. *)

From S2P Require Import Prelude CoreTypes CoreLlm StdPath StdStr AiRetry ToolPrepare TurnWorld ExtDeps ExtCatalog ExtRoutes.

(** ** Declarations *)

Inductive HookMode := Hook_Blocking | Hook_NonBlocking | Hook_Advisory.

Inductive ExtLifecycleEvent :=
| On_SessionStart | On_SessionResume | On_SessionShutdown | On_TurnStart | On_TurnEnd | On_TurnAborted
| On_StepStart | On_StepEnd | On_ToolInputTransform | On_PreToolUse | On_PostToolUse | On_BeforeProviderRequest
| On_ProviderContribution | On_AfterProviderResponse | On_ContinueAfterStop | On_UserPromptSubmit
| On_UserMessageEnvelope | On_PromptBuild | On_PostRecap.

Inductive ProviderEvent := BeforeRequest | AfterResponse.

#[export] Instance HookMode_eq_dec : EqDecision HookMode.
Proof. solve_decision. Defined.
#[export] Instance ExtLifecycleEvent_eq_dec : EqDecision ExtLifecycleEvent.
Proof. solve_decision. Defined.
#[export] Instance ProviderEvent_eq_dec : EqDecision ProviderEvent.
Proof. solve_decision. Defined.

(** A [BTreeSet] of names is an increasing list. *)
Inductive ToolHookTarget := Target_All | Target_Names (names : list string).

Definition target_names (names : list string) : ToolHookTarget := Target_Names (btree_collect names).
Definition target_matches (target : ToolHookTarget) (tool_name : string) : bool :=
  match target with Target_All => true | Target_Names names => bool_decide (tool_name ∈ names) end.

Inductive ContinueAfterStopLimit := Limit_Limited (max_per_turn : N) | Limit_Unlimited.

Definition limit_allows (limit : ContinueAfterStopLimit) (continuations_this_turn : N) : bool :=
  match limit with
  | Limit_Limited max_per_turn => bool_decide (continuations_this_turn < max_per_turn)%N
  | Limit_Unlimited => true
  end.

(** [TryFrom<i64>] and back. *)
Definition limit_try_from (max_per_turn : Z) : result ContinueAfterStopLimit string :=
  if bool_decide (max_per_turn = -1)%Z then Ok Limit_Unlimited
  else if bool_decide (0 ≤ max_per_turn)%Z && bool_decide (max_per_turn ≤ Z.of_N u32_max)%Z
  then Ok (Limit_Limited (Z.to_N max_per_turn))
  else Err "continue_after_stop max_per_turn must be -1 or a non-negative integer".
Definition limit_into (limit : ContinueAfterStopLimit) : Z :=
  match limit with Limit_Limited max_per_turn => Z.of_N max_per_turn | Limit_Unlimited => -1 end.

Inductive SessionCommandKind := Command_CompactSession | Command_SelectModel.
Inductive CommandExecution := Execution_Extension | Execution_Host (kind : SessionCommandKind).
Inductive CommandAvailability := Available_AllTransports | Available_InteractiveOnly.

Record SlashCommand := {
  cmd_name : string;
  cmd_description : string;
  cmd_args_schema : option Value;
  cmd_requires_idle : bool;
  cmd_argument_completions : bool;
  cmd_priority : Z;
  cmd_availability : CommandAvailability;
  cmd_execution : CommandExecution;
}.

Record Keybinding := { kb_key : string; kb_command : string; kb_arguments : string; kb_description : string }.
Record StatusItem := { st_id : string; st_text : string; st_tooltip : option string; st_priority : Z }.

Inductive CustomEventDelivery := Delivery_SessionDurable | Delivery_SessionLive | Delivery_GlobalLive.

Record CustomEventDeclaration := {
  ce_event_type : string;
  ce_schema_version : N;
  ce_delivery : CustomEventDelivery;
  ce_max_payload_bytes : N;
}.

Inductive CustomEventSourceFilter := Source_Any | Source_Extension (extension_id : string).

Record CustomEventSubscription := {
  cs_id : string;
  cs_consumer_version : N;
  cs_event_type : string;
  cs_source : CustomEventSourceFilter;
}.

Definition MAX_CUSTOM_EVENT_PAYLOAD_BYTES : N := 1024 * 1024.
Definition MAX_CUSTOM_EVENT_SUBSCRIPTION_ID_LEN : N := 64.

Definition any_subscription (event_type : string) : CustomEventSubscription :=
  {| cs_id := event_type; cs_consumer_version := 1; cs_event_type := event_type; cs_source := Source_Any |}.
Definition from_extension (extension_id event_type : string) : CustomEventSubscription :=
  {| cs_id := extension_id +:+ ":" +:+ event_type; cs_consumer_version := 1; cs_event_type := event_type;
     cs_source := Source_Extension extension_id |}.

(** ** Rules ([registration_validation.rs]) *)

Definition normalize_slash_command_name (name : string) : string :=
  to_ascii_lowercase (String.string_of_list_ascii
    (strip_bytes (λ c, bool_decide (c = slash)) (String.list_ascii_of_string (trim name)))).

Definition is_lower (c : ascii) : bool := byte_in c 97 122.
Definition is_digit (c : ascii) : bool := byte_in c 48 57.

Definition canonicalize_command_name (name : string) : result string string :=
  let name := normalize_slash_command_name name in
  match name with
  | EmptyString => Err "command name must not be empty"
  | String first rest =>
    if negb (is_lower first)
       || negb (all_bytes (λ c, is_lower c || is_digit c || bool_decide (c = "-"%char) || bool_decide (c = "_"%char)) rest)
    then Err ("command name `" +:+ name +:+ "` must match [a-z][a-z0-9_-]*")
    else Ok name
  end.

Definition lifecycle_event_allows_blocking (event : ExtLifecycleEvent) : bool :=
  match event with On_TurnStart | On_UserPromptSubmit => true | _ => false end.

Definition fixed_hook_mode (event : ExtLifecycleEvent) : option HookMode :=
  match event with
  | On_AfterProviderResponse => Some Hook_Advisory
  | On_ToolInputTransform | On_PreToolUse | On_ProviderContribution | On_ContinueAfterStop | On_UserMessageEnvelope
  | On_PromptBuild => Some Hook_Blocking
  | _ => None
  end.

Definition hook_mode_is_supported (event : ExtLifecycleEvent) (mode : HookMode) : bool :=
  match fixed_hook_mode event with
  | Some required => bool_decide (mode = required)
  | None =>
    negb (bool_decide (mode = Hook_Blocking))
    || match event with On_PostToolUse | On_BeforeProviderRequest => true | _ => false end
    || lifecycle_event_allows_blocking event
  end.

Definition normalize_custom_event_subscription (s : CustomEventSubscription) : CustomEventSubscription :=
  {| cs_id := trim (cs_id s); cs_consumer_version := cs_consumer_version s; cs_event_type := trim (cs_event_type s);
     cs_source := match cs_source s with Source_Extension id => Source_Extension (trim id) | Source_Any => Source_Any end |}.

Definition str_len (s : string) : N := N.of_nat (String.length s).

Definition validate_custom_event_subscription (s : CustomEventSubscription) : result unit string :=
  if is_empty (cs_id s) || bool_decide (MAX_CUSTOM_EVENT_SUBSCRIPTION_ID_LEN < str_len (cs_id s))%N then
    Err ("invalid custom event subscription id `" +:+ cs_id s +:+ "`")
  else if bool_decide (cs_consumer_version s = 0)%N then Err "custom event consumer version must be greater than zero"
  else if is_empty (cs_event_type s) then Err "custom event subscription type cannot be empty"
  else if match cs_source s with Source_Extension id => is_empty id | Source_Any => false end then
    Err "custom event subscription source extension cannot be empty"
  else Ok tt.

Definition custom_event_subscription_matches (s : CustomEventSubscription) (extension_id event_type : string) : bool :=
  bool_decide (cs_event_type s = event_type)
  && match cs_source s with Source_Any => true | Source_Extension expected => bool_decide (expected = extension_id) end.

Definition has_duplicate_registration_name (registered : list string) (candidate : string) : bool :=
  bool_decide (candidate ∈ registered).

(** ** Services and manifests *)

Definition ServiceKey_new (name : string) (major : N) : result ServiceKey string :=
  let valid := negb (is_empty name)
    && forallb (λ part, negb (is_empty part)
                        && all_bytes (λ c, is_ascii_alphanumeric c || bool_decide (c = "_"%char) || bool_decide (c = "-"%char)) part)
               (split_byte "." name) in
  if negb valid then Err ("invalid service name: " +:+ name)
  else if bool_decide (major = 0)%N then Err "service major version must be positive"
  else Ok {| sk_name := name; sk_major := major |}.

Definition parse_u32 (s : string) : option N :=
  parse_u64 s ≫= λ n, if bool_decide (n ≤ u32_max)%N then Some n else None.

Definition ServiceKey_from_str (value : string) : result ServiceKey string :=
  match rsplit_once "@" value with
  | None => Err "service key must be name@major"
  | Some (name, major) =>
    match parse_u32 major with
    | None => Err "invalid service major version"
    | Some version =>
      if negb (bool_decide (pretty version = major)) then Err "service major version must be canonical"
      else ServiceKey_new name version
    end
  end.

Definition ServiceKey_to_string (key : ServiceKey) : string := sk_name key +:+ "@" +:+ pretty (sk_major key).

Inductive TransportFeature := Feature_AuthenticatedHttp.

Record ExtensionManifest := {
  em_id : string;
  em_name : string;
  em_version : string;
  em_description : option string;
  em_capabilities : list ExtensionCapability;
  em_required_transport_features : list TransportFeature;
  em_dependencies : list ServiceDependency;
  em_service_permissions : list ServiceKey;
}.

Definition effective_service_permissions (m : ExtensionManifest) : gset ServiceKey :=
  list_to_set ((dep_service <$> em_dependencies m) ++ em_service_permissions m).

Inductive ExtensionManifestError :=
| Manifest_DuplicateDependency (service : string)
| Manifest_MissingId
| Manifest_InvalidId (id : string)
| Manifest_MissingName (id : string)
| Manifest_MissingVersion (id : string)
| Manifest_EmptyDescription (id : string).

Definition validate_extension_id (id : string) : result unit ExtensionManifestError :=
  if is_empty (trim id) then Err Manifest_MissingId
  else match id with
  | EmptyString => Err (Manifest_InvalidId id)
  | String first rest =>
    if is_ascii_alphanumeric first
       && all_bytes (λ c, is_ascii_alphanumeric c || bool_decide (c ∈ ["-"; "_"; "."]%char)) rest
    then Ok tt else Err (Manifest_InvalidId id)
  end.

Fixpoint unique_dependencies (keys : list ServiceKey) (ds : list ServiceDependency) : result unit ExtensionManifestError :=
  match ds with
  | [] => Ok tt
  | d :: ds =>
    if bool_decide (dep_service d ∈ keys) then Err (Manifest_DuplicateDependency (ServiceKey_to_string (dep_service d)))
    else unique_dependencies (dep_service d :: keys) ds
  end.

Definition manifest_validate (m : ExtensionManifest) : result unit ExtensionManifestError :=
  let? _ := validate_extension_id (em_id m) in
  let? _ := unique_dependencies [] (em_dependencies m) in
  if is_empty (trim (em_name m)) then Err (Manifest_MissingName (em_id m))
  else if is_empty (trim (em_version m)) then Err (Manifest_MissingVersion (em_id m))
  else if match em_description m with Some d => is_empty (trim d) | None => false end
  then Err (Manifest_EmptyDescription (em_id m))
  else Ok tt.

Inductive RegistrationError :=
| Reg_MissingCapability (extension_id registration : string) (capability : ExtensionCapability)
| Reg_InvalidLifecycleMode (extension_id : string) (event : ExtLifecycleEvent)
| Reg_Invalid (extension_id reason : string).

Section registrar.
Context {H : Type} (supports : H → bool) (str_debug : string → string).

Definition ExtensionManifestError_to_string (e : ExtensionManifestError) : string :=
  match e with
  | Manifest_DuplicateDependency service => "duplicate service dependency: " +:+ service
  | Manifest_MissingId => "extension manifest id is required"
  | Manifest_InvalidId id =>
    "extension manifest id " +:+ str_debug id +:+ " must start with an ASCII letter or digit and contain only "
    +:+ "ASCII letters, digits, '.', '-' or '_'"
  | Manifest_MissingName id => "extension manifest " +:+ id +:+ " name is required"
  | Manifest_MissingVersion id => "extension manifest " +:+ id +:+ " version is required"
  | Manifest_EmptyDescription id => "extension manifest " +:+ id +:+ " description cannot be empty"
  end.

(** ** Registrations *)

Record ToolExecutionPolicy := { tp_mode : ExecutionMode; tp_timeout_ms : option N }.

Record ToolRegistration := {
  tr_definition : ToolDefinition;
  tr_execution_policy : ToolExecutionPolicy;
  tr_prompt : ToolPromptMetadata;
  tr_handler : H;
}.

(** [ToolHookRegistration], [ToolUseRegistration], [ContinueAfterStopRegistration],
    [UserMessageEnvelopeRegistration], [CustomEventRegistration]. *)
Record ToolHookRegistration := { th_mode : HookMode; th_priority : Z; th_target : ToolHookTarget; th_handler : H }.
Record ToolUseRegistration := { tu_priority : Z; tu_target : ToolHookTarget; tu_handler : H }.
Record ContinueAfterStopRegistration := { ca_priority : Z; ca_options : ContinueAfterStopLimit; ca_handler : H }.
Record UserMessageEnvelopeRegistration := { um_priority : Z; um_handler : H }.
Record CustomEventRegistration := { cr_subscription : CustomEventSubscription; cr_priority : Z; cr_handler : H }.
Record HttpRouteRegistration := { hr_route : ExtensionHttpRoute; hr_handler : H }.

Record ExtensionRegistrations := {
  rg_services : list (ServiceKey * H);
  rg_tools : list ToolRegistration;
  rg_tool_discovery : list H;
  rg_commands : list (SlashCommand * option H);
  rg_command_discovery : list H;
  rg_http_routes : list HttpRouteRegistration;
  rg_keybindings : list Keybinding;
  rg_status_items : list StatusItem;
  rg_tool_input_transform : list ToolUseRegistration;
  rg_pre_tool_use : list ToolUseRegistration;
  rg_post_tool_use : list ToolHookRegistration;
  rg_provider : list (ProviderEvent * HookMode * Z * H);
  rg_provider_contributions : list (Z * H);
  rg_prompt_build : list (Z * H);
  rg_pre_compact : list (Z * H);
  rg_post_compact : list (Z * H);
  rg_continue_after_stop : list ContinueAfterStopRegistration;
  rg_user_message_envelope : list UserMessageEnvelopeRegistration;
  rg_lifecycle : list (ExtLifecycleEvent * HookMode * Z * H);
  rg_custom_event_declarations : list CustomEventDeclaration;
  rg_custom_event_subscriptions : list CustomEventRegistration;
}.

(** ** The registrar

    A call of the registrar by an extension.  Every call adds to the vector of its kind, so the vectors are the calls
    of their kind in order.  The calls that name no tools register for all. *)

Inductive RegistrarCall :=
| R_service (key : string) (h : H)
| R_tool (definition : ToolDefinition) (policy : ToolExecutionPolicy) (prompt : ToolPromptMetadata) (h : H)
| R_tool_discovery (h : H)
| R_command (cmd : SlashCommand) (h : H)
| R_host_command (cmd : SlashCommand)
| R_command_discovery (h : H)
| R_http_route (route : ExtensionHttpRoute) (h : H)
| R_keybinding (binding : Keybinding)
| R_status_item (item : StatusItem)
| R_declare_custom_event (declaration : CustomEventDeclaration)
| R_on_custom_event (subscription : CustomEventSubscription) (priority : Z) (h : H)
| R_on_tool_input_transform_for (target : ToolHookTarget) (priority : Z) (h : H)
| R_on_pre_tool_use_for (target : ToolHookTarget) (priority : Z) (h : H)
| R_on_post_tool_use_for (target : ToolHookTarget) (mode : HookMode) (priority : Z) (h : H)
| R_on_before_provider_request (mode : HookMode) (priority : Z) (h : H)
| R_on_after_provider_response (priority : Z) (h : H)
| R_on_provider_contribution (priority : Z) (h : H)
| R_on_prompt_build (priority : Z) (h : H)
| R_on_pre_compact (priority : Z) (h : H)
| R_on_post_compact (priority : Z) (h : H)
| R_on_continue_after_stop (priority : Z) (options : ContinueAfterStopLimit) (h : H)
| R_on_user_message_envelope (priority : Z) (h : H)
| R_on_lifecycle (event : ExtLifecycleEvent) (mode : HookMode) (priority : Z) (h : H).

Definition with_tool_name (name : string) (d : ToolDefinition) : ToolDefinition :=
  {| def_name := name; def_description := def_description d; def_parameters := def_parameters d;
     def_strict := def_strict d; def_origin := def_origin d |}.
Definition with_cmd_name (name : string) (c : SlashCommand) : SlashCommand :=
  {| cmd_name := name; cmd_description := cmd_description c; cmd_args_schema := cmd_args_schema c;
     cmd_requires_idle := cmd_requires_idle c; cmd_argument_completions := cmd_argument_completions c;
     cmd_priority := cmd_priority c; cmd_availability := cmd_availability c; cmd_execution := cmd_execution c |}.

Definition service_handlers (calls : list RegistrarCall) : list (string * H) :=
  omap (λ c, match c with R_service key h => Some (key, h) | _ => None end) calls.

(** The vectors before [finish]; names are trimmed as they are added. *)
Definition registrations (calls : list RegistrarCall) : ExtensionRegistrations :=
  {| rg_services := [];
     rg_tools := omap (λ c, match c with
       | R_tool d policy prompt h =>
         Some {| tr_definition := with_tool_name (trim (def_name d)) d; tr_execution_policy := policy;
                 tr_prompt := prompt; tr_handler := h |}
       | _ => None end) calls;
     rg_tool_discovery := omap (λ c, match c with R_tool_discovery h => Some h | _ => None end) calls;
     rg_commands := omap (λ c, match c with
       | R_command cmd h => Some (with_cmd_name (trim (cmd_name cmd)) cmd, Some h)
       | R_host_command cmd => Some (with_cmd_name (trim (cmd_name cmd)) cmd, None)
       | _ => None end) calls;
     rg_command_discovery := omap (λ c, match c with R_command_discovery h => Some h | _ => None end) calls;
     rg_http_routes := omap (λ c, match c with
       | R_http_route route h => Some {| hr_route := route; hr_handler := h |} | _ => None end) calls;
     rg_keybindings := omap (λ c, match c with
       | R_keybinding b => Some {| kb_key := trim (kb_key b); kb_command := trim (kb_command b);
                                   kb_arguments := kb_arguments b; kb_description := kb_description b |}
       | _ => None end) calls;
     rg_status_items := omap (λ c, match c with
       | R_status_item i => Some {| st_id := trim (st_id i); st_text := st_text i; st_tooltip := st_tooltip i;
                                    st_priority := st_priority i |}
       | _ => None end) calls;
     rg_tool_input_transform := omap (λ c, match c with
       | R_on_tool_input_transform_for target priority h =>
         Some {| tu_priority := priority; tu_target := target; tu_handler := h |}
       | _ => None end) calls;
     rg_pre_tool_use := omap (λ c, match c with
       | R_on_pre_tool_use_for target priority h =>
         Some {| tu_priority := priority; tu_target := target; tu_handler := h |}
       | _ => None end) calls;
     rg_post_tool_use := omap (λ c, match c with
       | R_on_post_tool_use_for target mode priority h =>
         Some {| th_mode := mode; th_priority := priority; th_target := target; th_handler := h |}
       | _ => None end) calls;
     rg_provider := omap (λ c, match c with
       | R_on_before_provider_request mode priority h => Some (BeforeRequest, mode, priority, h)
       | R_on_after_provider_response priority h => Some (AfterResponse, Hook_Advisory, priority, h)
       | _ => None end) calls;
     rg_provider_contributions := omap (λ c, match c with
       | R_on_provider_contribution priority h => Some (priority, h) | _ => None end) calls;
     rg_prompt_build := omap (λ c, match c with R_on_prompt_build priority h => Some (priority, h) | _ => None end) calls;
     rg_pre_compact := omap (λ c, match c with R_on_pre_compact priority h => Some (priority, h) | _ => None end) calls;
     rg_post_compact := omap (λ c, match c with R_on_post_compact priority h => Some (priority, h) | _ => None end) calls;
     rg_continue_after_stop := omap (λ c, match c with
       | R_on_continue_after_stop priority options h =>
         Some {| ca_priority := priority; ca_options := options; ca_handler := h |}
       | _ => None end) calls;
     rg_user_message_envelope := omap (λ c, match c with
       | R_on_user_message_envelope priority h => Some {| um_priority := priority; um_handler := h |}
       | _ => None end) calls;
     rg_lifecycle := omap (λ c, match c with
       | R_on_lifecycle event mode priority h => Some (event, mode, priority, h) | _ => None end) calls;
     rg_custom_event_declarations := omap (λ c, match c with
       | R_declare_custom_event d =>
         Some {| ce_event_type := trim (ce_event_type d); ce_schema_version := ce_schema_version d;
                 ce_delivery := ce_delivery d; ce_max_payload_bytes := ce_max_payload_bytes d |}
       | _ => None end) calls;
     rg_custom_event_subscriptions := omap (λ c, match c with
       | R_on_custom_event s priority h =>
         Some {| cr_subscription := normalize_custom_event_subscription s; cr_priority := priority; cr_handler := h |}
       | _ => None end) calls |}.

(** The two fields [finish] writes. *)
Definition with_services (services : list (ServiceKey * H)) (r : ExtensionRegistrations) : ExtensionRegistrations :=
  {| rg_services := services; rg_tools := rg_tools r; rg_tool_discovery := rg_tool_discovery r;
     rg_commands := rg_commands r; rg_command_discovery := rg_command_discovery r; rg_http_routes := rg_http_routes r;
     rg_keybindings := rg_keybindings r; rg_status_items := rg_status_items r;
     rg_tool_input_transform := rg_tool_input_transform r; rg_pre_tool_use := rg_pre_tool_use r;
     rg_post_tool_use := rg_post_tool_use r; rg_provider := rg_provider r;
     rg_provider_contributions := rg_provider_contributions r; rg_prompt_build := rg_prompt_build r;
     rg_pre_compact := rg_pre_compact r; rg_post_compact := rg_post_compact r;
     rg_continue_after_stop := rg_continue_after_stop r; rg_user_message_envelope := rg_user_message_envelope r;
     rg_lifecycle := rg_lifecycle r; rg_custom_event_declarations := rg_custom_event_declarations r;
     rg_custom_event_subscriptions := rg_custom_event_subscriptions r |}.
Definition with_commands (commands : list (SlashCommand * option H)) (r : ExtensionRegistrations)
    : ExtensionRegistrations :=
  {| rg_services := rg_services r; rg_tools := rg_tools r; rg_tool_discovery := rg_tool_discovery r;
     rg_commands := commands; rg_command_discovery := rg_command_discovery r; rg_http_routes := rg_http_routes r;
     rg_keybindings := rg_keybindings r; rg_status_items := rg_status_items r;
     rg_tool_input_transform := rg_tool_input_transform r; rg_pre_tool_use := rg_pre_tool_use r;
     rg_post_tool_use := rg_post_tool_use r; rg_provider := rg_provider r;
     rg_provider_contributions := rg_provider_contributions r; rg_prompt_build := rg_prompt_build r;
     rg_pre_compact := rg_pre_compact r; rg_post_compact := rg_post_compact r;
     rg_continue_after_stop := rg_continue_after_stop r; rg_user_message_envelope := rg_user_message_envelope r;
     rg_lifecycle := rg_lifecycle r; rg_custom_event_declarations := rg_custom_event_declarations r;
     rg_custom_event_subscriptions := rg_custom_event_subscriptions r |}.

(** ** What [finish] checks *)

Definition require_capability (m : ExtensionManifest) (registration_present : bool) (registration : string)
    (capability : ExtensionCapability) : result unit RegistrationError :=
  if registration_present && negb (bool_decide (capability ∈ em_capabilities m))
  then Err (Reg_MissingCapability (em_id m) registration capability) else Ok tt.

Definition is_nil {A} (l : list A) : bool := match l with [] => true | _ => false end.

Fixpoint validate_services (m : ExtensionManifest) (keys : list ServiceKey) (services : list (ServiceKey * H))
    : result unit RegistrationError :=
  match services with
  | [] => Ok tt
  | (key, _) :: services =>
    if bool_decide (key ∈ keys) || bool_decide (key ∈ dep_service <$> em_dependencies m)
    then Err (Reg_Invalid (em_id m) ("duplicate service or self dependency: " +:+ ServiceKey_to_string key))
    else validate_services m (key :: keys) services
  end.

Definition validate_capabilities (m : ExtensionManifest) (r : ExtensionRegistrations) : result unit RegistrationError :=
  let? _ := require_capability m (negb (is_nil (rg_custom_event_declarations r))) "event" Cap_EmitCustomEvents in
  let? _ := require_capability m (negb (is_nil (rg_custom_event_subscriptions r))) "custom_event_subscription"
              Cap_ConsumeCustomEvents in
  let? _ := require_capability m (negb (is_nil (rg_pre_compact r)) || negb (is_nil (rg_post_compact r))) "compact"
              Cap_SessionHistory in
  let? _ := require_capability m (negb (is_nil (rg_user_message_envelope r))) "user_message_envelope" Cap_ProviderRequest in
  let? _ := require_capability m (negb (is_nil (rg_provider r)) || negb (is_nil (rg_provider_contributions r))) "provider"
              Cap_ProviderRequest in
  let? _ := require_capability m (negb (is_nil (rg_tool_input_transform r)) || negb (is_nil (rg_pre_tool_use r)))
              "pre_tool_use" Cap_ToolIntercept in
  let? _ := require_capability m (existsb (λ t, bool_decide (th_mode t = Hook_Blocking)) (rg_post_tool_use r))
              "post_tool_use" Cap_ToolIntercept in
  let? _ := require_capability m (negb (is_nil (rg_continue_after_stop r))) "continue_after_stop"
              Cap_TurnContinuationControl in
  require_capability m
    (existsb (λ c : SlashCommand * option H,
                match cmd_execution c.1 with Execution_Host _ => true | Execution_Extension => false end) (rg_commands r))
    "command" Cap_SessionCommand.

Fixpoint validate_lifecycle (m : ExtensionManifest) (l : list (ExtLifecycleEvent * HookMode * Z * H))
    : result unit RegistrationError :=
  match l with
  | [] => Ok tt
  | (event, mode, _, _) :: l =>
    if bool_decide (mode = Hook_Blocking) && negb (lifecycle_event_allows_blocking event)
    then Err (Reg_InvalidLifecycleMode (em_id m) event) else validate_lifecycle m l
  end.

Fixpoint validate_tools (m : ExtensionManifest) (names : list string) (tools : list ToolRegistration)
    : result unit RegistrationError :=
  match tools with
  | [] => Ok tt
  | tool :: tools =>
    let name := def_name (tr_definition tool) in
    if is_empty name then Err (Reg_Invalid (em_id m) "tool name cannot be empty")
    else if has_duplicate_registration_name names name
    then Err (Reg_Invalid (em_id m) ("duplicate tool `" +:+ name +:+ "`"))
    else validate_tools m (name :: names) tools
  end.

(** Whether a command may be executed by what registered it. *)
Definition validate_execution (m : ExtensionManifest) (command : SlashCommand) (handler : option H)
    : result unit RegistrationError :=
  let invalid reason := Err (Reg_Invalid (em_id m) reason) in
  match cmd_execution command, handler with
  | Execution_Extension, Some h =>
    if cmd_argument_completions command && negb (supports h)
    then invalid ("command `" +:+ cmd_name command +:+ "` declares argument completions, but its handler does "
                    +:+ "not support them")
    else Ok tt
  | Execution_Host _, None =>
    if cmd_argument_completions command
    then invalid ("host-executed command `" +:+ cmd_name command +:+ "` cannot declare argument completions")
    else Ok tt
  | Execution_Host _, Some _ =>
    invalid ("command `" +:+ cmd_name command +:+ "` is host-executed and must be registered through "
               +:+ "registrar::host_command()")
  | Execution_Extension, None =>
    invalid ("command `" +:+ cmd_name command +:+ "` needs an extension handler; registrar::host_command() "
               +:+ "requires CommandExecution::Host")
  end.

(** The loop renames the commands in place: the commands as they are then, and their names. *)
Fixpoint validate_commands (m : ExtensionManifest) (names : list string) (commands : list (SlashCommand * option H))
    : result (list (SlashCommand * option H) * list string) RegistrationError :=
  match commands with
  | [] => Ok ([], names)
  | (command, handler) :: commands =>
    let? name := map_err (λ reason, Reg_Invalid (em_id m) ("command " +:+ reason))
                   (canonicalize_command_name (cmd_name command)) in
    let command := with_cmd_name name command in
    let? _ := validate_execution m command handler in
    if has_duplicate_registration_name names name
    then Err (Reg_Invalid (em_id m) ("duplicate command `" +:+ name +:+ "`"))
    else
      let? rest := validate_commands m (name :: names) commands in
      Ok ((command, handler) :: rest.1, rest.2)
  end.

Fixpoint validate_keybindings (m : ExtensionManifest) (command_names : list string) (no_discovery : bool)
    (bindings : list Keybinding) : result unit RegistrationError :=
  match bindings with
  | [] => Ok tt
  | binding :: bindings =>
    if is_empty (trim (kb_key binding)) then Err (Reg_Invalid (em_id m) "keybinding key cannot be empty")
    else if negb (bool_decide (kb_command binding ∈ command_names)) && no_discovery
    then Err (Reg_Invalid (em_id m) ("keybinding `" +:+ kb_key binding +:+ "` targets unknown static command `"
                                       +:+ kb_command binding +:+ "`"))
    else validate_keybindings m command_names no_discovery bindings
  end.

Fixpoint validate_status_items (m : ExtensionManifest) (ids : list string) (items : list StatusItem)
    : result unit RegistrationError :=
  match items with
  | [] => Ok tt
  | item :: items =>
    if is_empty (st_id item) || has_duplicate_registration_name ids (st_id item)
    then Err (Reg_Invalid (em_id m) ("invalid or duplicate status item id `" +:+ st_id item +:+ "`"))
    else validate_status_items m (st_id item :: ids) items
  end.

Fixpoint validate_custom_events (m : ExtensionManifest) (types : list string) (events : list CustomEventDeclaration)
    : result unit RegistrationError :=
  match events with
  | [] => Ok tt
  | event :: events =>
    let event_type := ce_event_type event in
    if is_empty event_type || has_duplicate_registration_name types event_type
    then Err (Reg_Invalid (em_id m) ("invalid or duplicate custom event `" +:+ event_type +:+ "`"))
    else if bool_decide (ce_schema_version event = 0)%N
    then Err (Reg_Invalid (em_id m) ("custom event `" +:+ event_type +:+ "` requires a non-zero schema version"))
    else if bool_decide (ce_max_payload_bytes event = 0)%N
            || bool_decide (MAX_CUSTOM_EVENT_PAYLOAD_BYTES < ce_max_payload_bytes event)%N
    then Err (Reg_Invalid (em_id m) ("custom event `" +:+ event_type +:+ "` payload limit must be between 1 and "
                                       +:+ pretty MAX_CUSTOM_EVENT_PAYLOAD_BYTES +:+ " bytes"))
    else validate_custom_events m (event_type :: types) events
  end.

Fixpoint validate_subscriptions (m : ExtensionManifest) (ids : list string) (l : list CustomEventRegistration)
    : result unit RegistrationError :=
  match l with
  | [] => Ok tt
  | registration :: l =>
    let? _ := map_err (Reg_Invalid (em_id m)) (validate_custom_event_subscription (cr_subscription registration)) in
    let id := cs_id (cr_subscription registration) in
    if has_duplicate_registration_name ids id
    then Err (Reg_Invalid (em_id m) ("invalid or duplicate custom event subscription id `" +:+ id +:+ "`"))
    else validate_subscriptions m (id :: ids) l
  end.

(** [earlier]: the routes before this one. *)
Fixpoint validate_http_routes (m : ExtensionManifest) (earlier : list ExtensionHttpRoute) (routes : list ExtensionHttpRoute)
    : result unit RegistrationError :=
  match routes with
  | [] => Ok tt
  | route :: routes =>
    let? _ := map_err (Reg_Invalid (em_id m)) (validate_extension_http_route route) in
    let? _ := require_capability m true "http_route"
                (match rt_access route with Http_Public => Cap_PublicHttp | Http_Authenticated => Cap_AuthenticatedHttp end) in
    if existsb (λ existing, routes_conflict existing route) earlier
    then Err (Reg_Invalid (em_id m) ("conflicting HTTP route `" +:+ rt_path route +:+ "`"))
    else validate_http_routes m (earlier ++ [route]) routes
  end.

(** [ExtensionRegistrations::validate]: the registrations with the commands renamed. *)
Definition registrations_validate (m : ExtensionManifest) (r : ExtensionRegistrations)
    : result ExtensionRegistrations RegistrationError :=
  let? _ := validate_services m [] (rg_services r) in
  let? _ := validate_capabilities m r in
  let? _ := validate_lifecycle m (rg_lifecycle r) in
  let? _ := validate_tools m [] (rg_tools r) in
  let? commands := validate_commands m [] (rg_commands r) in
  let? _ := validate_keybindings m commands.2 (is_nil (rg_command_discovery r)) (rg_keybindings r) in
  let? _ := validate_status_items m [] (rg_status_items r) in
  let? _ := validate_custom_events m [] (rg_custom_event_declarations r) in
  let? _ := validate_subscriptions m [] (rg_custom_event_subscriptions r) in
  let? _ := validate_http_routes m [] (hr_route <$> rg_http_routes r) in
  Ok (with_commands commands.1 r).

(** [Registrar::finish]. *)
Definition finish (m : ExtensionManifest) (calls : list RegistrarCall)
    : result (ExtensionManifest * ExtensionRegistrations) RegistrationError :=
  let? _ := map_err (λ e, Reg_Invalid (em_id m) (ExtensionManifestError_to_string e)) (manifest_validate m) in
  let? services := map_err (Reg_Invalid (em_id m))
                     (try_map (λ s, let? key := ServiceKey_from_str s.1 in Ok (key, s.2)) (service_handlers calls)) in
  let? r := registrations_validate m (with_services services (registrations calls)) in
  Ok (m, r).

(** ** Conflicts between extensions *)

Record ResolvedExtensionManifest := { rm_author : ExtensionManifest; rm_registrations : ExtensionRegistrations }.

Definition rm_id (m : ResolvedExtensionManifest) : string := em_id (rm_author m).

Inductive ConflictError :=
| Conflict_Tool (extension_id tool_name conflicting_extension_id : string)
| Conflict_Route (extension_id reason : string).

Definition has_tool (name : string) (m : ResolvedExtensionManifest) : bool :=
  existsb (λ t, bool_decide (def_name (tr_definition t) = name)) (rg_tools (rm_registrations m)).

Fixpoint validate_tool_registrations (extension_id : string) (tools : list ToolRegistration)
    (existing : list ResolvedExtensionManifest) : result unit ConflictError :=
  match tools with
  | [] => Ok tt
  | tool :: tools =>
    let name := def_name (tr_definition tool) in
    match find_first (has_tool name) existing with
    | Some other => Err (Conflict_Tool extension_id name (rm_id other))
    | None => validate_tool_registrations extension_id tools existing
    end
  end.

Definition routes_of (m : ResolvedExtensionManifest) : list ExtensionHttpRoute :=
  hr_route <$> rg_http_routes (rm_registrations m).

Definition validate_registration_conflicts (extension_id : string) (r : ExtensionRegistrations)
    (existing : list ResolvedExtensionManifest) : result unit ConflictError :=
  let? _ := validate_tool_registrations extension_id (rg_tools r) existing in
  map_err (Conflict_Route extension_id)
    (validate_http_route_registrations (hr_route <$> rg_http_routes r) (routes_of <$> existing)).
End registrar.
