(* ===== verification/ExtRegistry.v ===== *)
(** * Extensions that are registered together

    The extensions of a host as registrations and removals leave them.  Their tools and routes do not collide, so a
    request has at most one route that answers it. *)

From S2P Require Import Prelude CoreTypes CoreLlm StdPath StdStr TurnWorld ExtDeps ExtCatalog ExtRoutes ExtRegister.

Section registry.
Context {H : Type} (supports : H → bool) (str_debug : string → string).
Local Abbreviation Manifest := (@ResolvedExtensionManifest H).

(** Publication ([publish_registration_locked]: an id that is registered is skipped) and removal of extensions. *)
Inductive registry : list Manifest → Prop :=
| registry_empty : registry []
| registry_publish exts m calls m' r :
  registry exts → Forall (λ e, rm_id e ≠ em_id m) exts →
  finish supports str_debug m calls = Ok (m', r) →
  validate_registration_conflicts (em_id m) r exts = Ok tt →
  registry (exts ++ [{| rm_author := m'; rm_registrations := r |}])
| registry_remove exts exts' : registry exts → exts' `sublist_of` exts → registry exts'.

(** ** What the checks leave *)

Definition routes_apart (l : list ExtensionHttpRoute) : Prop := ForallOrdPairs (λ a b, routes_conflict a b = false) l.

Lemma validate_http_routes_apart m earlier routes :
  validate_http_routes m earlier routes = Ok tt →
  (∀ a b, a ∈ earlier → b ∈ routes → routes_conflict a b = false) ∧ routes_apart routes
  ∧ Forall (λ r, validate_extension_http_route r = Ok tt) routes.
Proof.
  revert earlier. induction routes as [|r routes IH]; intros earlier; simpl.
  { intros _. split_and!; [set_solver|constructor..]. }
  destruct (validate_extension_http_route r) as [[]|] eqn:Hr; [|done]. simpl.
  destruct (require_capability _ _ _ _) as [[]|]; [|done].
  destruct (existsb _ earlier) eqn:He; [done|]. intros (H1 & H2 & H3)%IH.
  assert (∀ a, a ∈ earlier → routes_conflict a r = false) as Hear.
  { intros a Ha. apply not_true_iff_false. intros Hc. apply not_true_iff_false in He. apply He, existsb_exists.
    exists a. by rewrite <-list_elem_of_In. }
  split_and!; [|constructor; [|done]|by constructor].
  - intros a b Ha [->|Hb]%elem_of_cons; [by apply Hear|]. apply H1; [set_solver|done].
  - apply Forall_forall. intros b Hb. apply H1; [set_solver|done].
Qed.

Lemma validate_public_routes routes existing :
  validate_http_route_registrations routes existing = Ok tt →
  ∀ l e r, l ∈ existing → e ∈ l → r ∈ routes → rt_access r = Http_Public → routes_conflict e r = false.
Proof.
  intros Hv l e r Hl He Hr Hp. induction routes as [|r' routes IH]; [set_solver|]. simpl in Hv.
  apply elem_of_cons in Hr as [->|Hr].
  - rewrite Hp, bool_decide_true in Hv by done. simpl in Hv. destruct (_ || _) in Hv; [done|].
    destruct (existsb _ existing) eqn:Hx; [done|]. apply not_true_iff_false. intros Hc.
    apply not_true_iff_false in Hx. apply Hx, existsb_exists. exists l. split; [by apply list_elem_of_In|].
    apply existsb_exists. exists e. split; [by apply list_elem_of_In|]. unfold routes_conflict in Hc. by rewrite Hp in Hc.
  - destruct (negb _); [by apply IH|]. destruct (_ || _); [done|]. destruct (existsb _ _); [done|]. by apply IH.
Qed.

Lemma validate_public_unreserved routes existing r :
  validate_http_route_registrations routes existing = Ok tt → r ∈ routes → rt_access r = Http_Public →
  rt_path r ≠ "/api"%string ∧ starts_with (rt_path r) "/api/" = false.
Proof.
  intros Hv Hr Hp. induction routes as [|r' routes IH]; [set_solver|]. simpl in Hv.
  apply elem_of_cons in Hr as [->|Hr].
  - rewrite Hp, bool_decide_true in Hv by done. simpl in Hv. destruct (bool_decide_reflect (rt_path r' = "/api"%string)); [done|].
    by destruct (starts_with (rt_path r') "/api/").
  - destruct (negb _); [by apply IH|]. destruct (_ || _); [done|]. destruct (existsb _ _); [done|]. by apply IH.
Qed.

Lemma validate_tools_distinct m names (tools : list (@ToolRegistration H)) :
  validate_tools m names tools = Ok tt →
  NoDup ((λ t, def_name (tr_definition t)) <$> tools)
  ∧ Forall (λ t, def_name (tr_definition t) ∉ names) tools.
Proof.
  revert names. induction tools as [|t tools IH]; intros names; simpl; [intros _; split; constructor|].
  destruct (is_empty _); [done|]. unfold has_duplicate_registration_name. case_bool_decide as Hd; [done|].
  intros (Hn & Hf)%IH. split; [|constructor; [done|]].
  - constructor; [|done]. intros (t' & Ht & Hin)%list_elem_of_fmap. eapply Forall_forall in Hf; [|exact Hin].
    rewrite <-Ht in Hf. set_solver.
  - eapply Forall_impl; [exact Hf|]. set_solver.
Qed.

Lemma validate_tools_apart id (tools : list (@ToolRegistration H)) existing :
  validate_tool_registrations id tools existing = Ok tt →
  Forall (λ t, Forall (λ e, has_tool (def_name (tr_definition t)) e = false) existing) tools.
Proof.
  induction tools as [|t tools IH]; simpl; [constructor|].
  destruct (find_first _ existing) as [o|] eqn:Hf; [done|]. intros Hv. constructor; [|by apply IH].
  clear -Hf. induction existing as [|e l IH]; [constructor|]. simpl in Hf. destruct (has_tool _ e) eqn:He; [done|].
  constructor; [done|by apply IH].
Qed.

(** What [finish] keeps and what it makes sure of. *)
Lemma finish_ok m calls m' r :
  finish supports str_debug m calls = Ok (m', r) →
  m' = m ∧ manifest_validate m = Ok tt ∧ validate_capabilities m (registrations calls) = Ok tt
  ∧ validate_lifecycle m (rg_lifecycle (registrations calls)) = Ok tt
  ∧ validate_tools m [] (rg_tools r) = Ok tt ∧ validate_http_routes m [] (hr_route <$> rg_http_routes r) = Ok tt
  ∧ ∃ services commands, r = with_commands commands (with_services services (registrations calls)).
Proof.
  unfold finish. destruct (manifest_validate m) as [[]|]; [|done]. cbn [map_err].
  destruct (try_map _ _) as [services|]; [|done]. cbn [map_err].
  destruct (registrations_validate _ _ _) as [r'|] eqn:Hv; [|done]. intros [= <- <-]. unfold registrations_validate in Hv.
  destruct (validate_services _ _ _) as [[]|]; [|done]. destruct (validate_capabilities _ _) as [[]|] eqn:Hc; [|done].
  destruct (validate_lifecycle _ _) as [[]|] eqn:Hl; [|done]. destruct (validate_tools _ _ _) as [[]|] eqn:Ht; [|done].
  destruct (validate_commands _ _ _ _) as [commands|]; [|done]. destruct (validate_keybindings _ _ _ _) as [[]|]; [|done].
  destruct (validate_status_items _ _ _) as [[]|]; [|done]. destruct (validate_custom_events _ _ _) as [[]|]; [|done].
  destruct (validate_subscriptions _ _ _) as [[]|]; [|done]. destruct (validate_http_routes _ _ _) as [[]|] eqn:Hr; [|done].
  injection Hv as <-. split_and!; [done..|]. by exists services, commands.1.
Qed.

(** ** The invariant *)

Definition apart (a b : Manifest) : Prop :=
  rm_id a ≠ rm_id b
  ∧ (∀ e r, e ∈ routes_of a → r ∈ routes_of b → rt_access r = Http_Public → routes_conflict e r = false)
  ∧ Forall (λ t, has_tool (def_name (tr_definition t)) a = false) (rg_tools (rm_registrations b)).

Record consistent (exts : list Manifest) : Prop := {
  each_apart : ForallOrdPairs apart exts;
  routes_own : Forall (λ m, routes_apart (routes_of m)) exts;
  tools_own : Forall (λ m, NoDup ((λ t, def_name (tr_definition t)) <$> rg_tools (rm_registrations m))) exts;
}.

Lemma ForallOrdPairs_snoc {A} (R : A → A → Prop) l x :
  ForallOrdPairs R l → Forall (λ y, R y x) l → ForallOrdPairs R (l ++ [x]).
Proof.
  induction 1 as [|y l Hy Hl IH]; intros Hx; simpl; [repeat constructor|]. apply Forall_cons in Hx as [Hyx Hx].
  constructor; [|by apply IH]. apply Forall_app. split; [done|by repeat constructor].
Qed.

Lemma sublist_Forall {A} (P : A → Prop) l l' : l' `sublist_of` l → Forall P l → Forall P l'.
Proof. intros Hs Hf. rewrite Forall_forall in *. intros x Hx. by eapply Hf, elem_of_sublist. Qed.

Lemma ForallOrdPairs_sublist {A} (R : A → A → Prop) l l' : l' `sublist_of` l → ForallOrdPairs R l → ForallOrdPairs R l'.
Proof.
  induction 1 as [|x l' l Hs IH|x l' l Hs IH]; intros Hf; [done|..]; inversion_clear Hf.
  - constructor; [|by apply IH]. by eapply sublist_Forall.
  - by apply IH.
Qed.

(** Of two different elements one comes first. *)
Lemma ForallOrdPairs_elem {A} (R : A → A → Prop) l a b :
  ForallOrdPairs R l → a ∈ l → b ∈ l → a = b ∨ R a b ∨ R b a.
Proof.
  intros Hf Ha Hb. rewrite list_elem_of_In in *. destruct (ForallOrdPairs_In Hf a b Ha Hb) as [->|[?|?]]; auto.
Qed.

Lemma registry_consistent exts : registry exts → consistent exts.
Proof.
  induction 1 as [|exts m calls m' r _ [Ha Hr Ht] Hid Hfin Hcon|exts exts' _ [Ha Hr Ht] Hs].
  - split; constructor.
  - apply finish_ok in Hfin as (-> & _ & _ & _ & Htools & Hroutes & _).
    unfold validate_registration_conflicts in Hcon.
    destruct (validate_tool_registrations _ _ _) as [[]|] eqn:Hct; [|done].
    destruct (validate_http_route_registrations _ _) as [[]|] eqn:Hcr; [|done].
    apply validate_http_routes_apart in Hroutes as (_ & Hroutes & _). apply validate_tools_distinct in Htools as [Htools _].
    apply validate_tools_apart in Hct. split.
    + apply ForallOrdPairs_snoc; [done|]. apply Forall_forall. intros e He. split_and!.
      * rewrite Forall_forall in Hid. by apply Hid.
      * intros x y Hx Hy Hp. eapply validate_public_routes; [exact Hcr|by apply list_elem_of_fmap_2|done..].
      * eapply Forall_impl; [exact Hct|]. simpl. intros t Hf. rewrite Forall_forall in Hf. by apply Hf.
    + apply Forall_app. by repeat constructor.
    + apply Forall_app. by repeat constructor.
  - split; [by eapply ForallOrdPairs_sublist|by eapply sublist_Forall..].
Qed.

(** The names of the tools, as the extensions register them. *)
Definition tool_names (m : Manifest) : list string :=
  (λ t, def_name (tr_definition t)) <$> rg_tools (rm_registrations m).

Lemma tools_unique exts : consistent exts → NoDup (exts ≫= tool_names).
Proof.
  intros [Ha _ Ht]. induction exts as [|m exts IH]; [constructor|]. simpl.
  inversion_clear Ha as [|? ? Hm Hexts]. apply Forall_cons in Ht as [Hm' Ht].
  apply NoDup_app. split_and!; [done| |by apply IH].
  intros name (t & -> & Hin)%list_elem_of_fmap (m2 & (t2 & Hname & Hin2)%list_elem_of_fmap & Hm2)%list_elem_of_bind.
  rewrite Forall_forall in Hm. destruct (Hm m2 Hm2) as (_ & _ & Hap). rewrite Forall_forall in Hap.
  specialize (Hap t2 Hin2). unfold has_tool in Hap. apply not_true_iff_false in Hap. apply Hap, existsb_exists.
  exists t. split; [by apply list_elem_of_In|]. by apply bool_decide_eq_true.
Qed.

(** ** Routes of the registry *)

Definition entries_of (m : Manifest) : list (HttpRouteEntry H) :=
  (λ reg, {| he_extension_id := rm_id m; he_route := hr_route reg; he_handler := hr_handler reg |})
    <$> rg_http_routes (rm_registrations m).

Lemma entry_params_common access target path (e : HttpRouteEntry H) params :
  entry_params access target path e = Some params →
  rt_access (he_route e) = access ∧ (∀ id, target = Some id → id = he_extension_id e)
  ∧ match_extension_http_route (rt_path (he_route e)) path = Some params.
Proof.
  unfold entry_params. case_bool_decide as Ha; [|done]. simpl. destruct target as [id|].
  - case_bool_decide as Hid; [|done]. simpl. intros Hm. split_and!; [done| |done]. by intros ? [= <-].
  - intros Hm. by split_and!.
Qed.

Lemma both_match_conflict access target path (e1 e2 : HttpRouteEntry H) p1 p2 :
  entry_params access target path e1 = Some p1 → entry_params access target path e2 = Some p2 →
  rt_method (he_route e1) = rt_method (he_route e2) → routes_conflict (he_route e1) (he_route e2) = true.
Proof.
  intros (Ha1 & _ & Hm1)%entry_params_common (Ha2 & _ & Hm2)%entry_params_common Hm. unfold routes_conflict.
  rewrite Ha1, Ha2, Hm, !bool_decide_true by done. simpl. apply conflict_is_common. exists path. by rewrite Hm1, Hm2.
Qed.

Lemma routes_conflict_sym a b : routes_conflict a b = routes_conflict b a.
Proof.
  unfold routes_conflict. rewrite conflict_sym. do 2 f_equal; apply bool_decide_ext; naive_solver.
Qed.

Lemma find_route_spec access target method path (entries : list (HttpRouteEntry H)) b :
  find_route access target method path entries b =
  match find_first (λ e, bool_decide (is_Some (entry_params access target path e))
                         && bool_decide (rt_method (he_route e) = method)) entries with
  | Some e => (true, (λ params, (e, params)) <$> entry_params access target path e)
  | None => (b || existsb (λ e, bool_decide (is_Some (entry_params access target path e))) entries, None)
  end.
Proof.
  revert b. induction entries as [|e entries IH]; intros b; simpl; [by rewrite orb_false_r|].
  destruct (entry_params access target path e) as [params|] eqn:He; simpl.
  - case_bool_decide; simpl; [by rewrite He|]. rewrite IH. destruct (find_first _ _); [done|]. simpl. by rewrite orb_true_r.
  - apply IH.
Qed.

Lemma find_first_None {A} (p : A → bool) l a : find_first p l = None → a ∈ l → p a = false.
Proof.
  induction l as [|x l IH]; [set_solver|]. simpl. destruct (p x) eqn:Hx; [done|].
  intros Hf [->|Ha]%elem_of_cons; [done|by apply IH].
Qed.

(** Two entries of the registry that match one request are one. *)
Lemma matching_entry_unique exts access target path (e1 e2 : HttpRouteEntry H) p1 p2 :
  consistent exts → (access = Http_Authenticated → is_Some target) →
  e1 ∈ mjoin (entries_of <$> exts) → e2 ∈ mjoin (entries_of <$> exts) →
  entry_params access target path e1 = Some p1 → entry_params access target path e2 = Some p2 →
  rt_method (he_route e1) = rt_method (he_route e2) → e1 = e2.
Proof.
  intros [Ha Hr _] Htarget He1 He2 Hm1 Hm2 Hm.
  pose proof (both_match_conflict _ _ _ _ _ _ _ Hm1 Hm2 Hm) as Hc.
  apply list_elem_of_join in He1 as (l1 & He1 & (m1 & -> & Hin1)%list_elem_of_fmap).
  apply list_elem_of_join in He2 as (l2 & He2 & (m2 & -> & Hin2)%list_elem_of_fmap).
  apply list_elem_of_fmap in He1 as (r1 & -> & Hr1). apply list_elem_of_fmap in He2 as (r2 & -> & Hr2).
  apply entry_params_common in Hm1 as (Ha1 & Ht1 & _), Hm2 as (Ha2 & Ht2 & _). simpl in *.
  assert (∀ a b ra rb, a ∈ exts → b ∈ exts → apart a b → ra ∈ rg_http_routes (rm_registrations a) →
            rb ∈ rg_http_routes (rm_registrations b) → rt_access (hr_route rb) = access →
            (∀ id, target = Some id → id = rm_id a) → (∀ id, target = Some id → id = rm_id b) →
            routes_conflict (hr_route ra) (hr_route rb) = true → False) as Happ.
  { intros a b ra rb _ _ (Hid & Hpub & _) Hra Hrb Hab Hta Htb Hcf. destruct access.
    - rewrite (Hpub (hr_route ra) (hr_route rb)) in Hcf; [done| | |done]; by apply list_elem_of_fmap_2.
    - destruct Htarget as [id Hid']; [done|]. apply Hid. by rewrite <-(Hta id), <-(Htb id). }
  destruct (ForallOrdPairs_elem _ _ _ _ Ha Hin1 Hin2) as [<-|[Hap|Hap]].
  - rewrite Forall_forall in Hr. specialize (Hr _ Hin1). unfold routes_apart, routes_of in Hr.
    assert (ForallOrdPairs (λ a b : HttpRouteRegistration, routes_conflict (hr_route a) (hr_route b) = false)
              (rg_http_routes (rm_registrations m1))) as Hregs.
    { clear -Hr. induction (rg_http_routes (rm_registrations m1)) as [|x l IH]; [constructor|].
      inversion_clear Hr as [|? ? Hx Hl]. constructor; [by apply Forall_fmap in Hx|by apply IH]. }
    destruct (ForallOrdPairs_elem _ _ _ _ Hregs Hr1 Hr2) as [<-|[Hf|Hf]]; [done|congruence|].
    rewrite routes_conflict_sym in Hf. congruence.
  - destruct (Happ m1 m2 r1 r2 Hin1 Hin2 Hap Hr1 Hr2 Ha2 Ht1 Ht2 Hc).
  - rewrite routes_conflict_sym in Hc. destruct (Happ m2 m1 r2 r1 Hin2 Hin1 Hap Hr2 Hr1 Ha1 Ht2 Ht1 Hc).
Qed.

(** ** Hooks of the registry *)

Definition hooks_declared (m : Manifest) : Prop :=
  let r := rm_registrations m in let caps := em_capabilities (rm_author m) in
  (rg_tool_input_transform r ≠ [] ∨ rg_pre_tool_use r ≠ [] → Cap_ToolIntercept ∈ caps)
  ∧ (Exists (λ t, th_mode t = Hook_Blocking) (rg_post_tool_use r) → Cap_ToolIntercept ∈ caps)
  ∧ (rg_provider r ≠ [] ∨ rg_provider_contributions r ≠ [] ∨ rg_user_message_envelope r ≠ [] → Cap_ProviderRequest ∈ caps)
  ∧ (rg_pre_compact r ≠ [] ∨ rg_post_compact r ≠ [] → Cap_SessionHistory ∈ caps)
  ∧ (rg_continue_after_stop r ≠ [] → Cap_TurnContinuationControl ∈ caps)
  ∧ Forall (λ l : ExtLifecycleEvent * HookMode * Z * H,
              l.1.1.2 = Hook_Blocking → l.1.1.1 = On_TurnStart ∨ l.1.1.1 = On_UserPromptSubmit) (rg_lifecycle r)
  ∧ Forall (λ p : ProviderEvent * HookMode * Z * H, p.1.1.1 = AfterResponse → p.1.1.2 = Hook_Advisory) (rg_provider r).

Lemma require_capability_ok m present registration c :
  require_capability m present registration c = Ok tt → present = true → c ∈ em_capabilities m.
Proof. unfold require_capability. intros Hr ->. case_bool_decide; done. Qed.

Lemma is_nil_false {A} (l : list A) : l ≠ [] → negb (is_nil l) = true.
Proof. by destruct l. Qed.

Local Ltac present :=
  match goal with N : ?l ≠ [] |- _ => rewrite (is_nil_false l N) end; by rewrite ?orb_true_r.

Lemma validate_capabilities_declared m r :
  validate_capabilities (H:=H) m r = Ok tt →
  (rg_tool_input_transform r ≠ [] ∨ rg_pre_tool_use r ≠ [] → Cap_ToolIntercept ∈ em_capabilities m)
  ∧ (Exists (λ t, th_mode t = Hook_Blocking) (rg_post_tool_use r) → Cap_ToolIntercept ∈ em_capabilities m)
  ∧ (rg_provider r ≠ [] ∨ rg_provider_contributions r ≠ [] ∨ rg_user_message_envelope r ≠ [] →
       Cap_ProviderRequest ∈ em_capabilities m)
  ∧ (rg_pre_compact r ≠ [] ∨ rg_post_compact r ≠ [] → Cap_SessionHistory ∈ em_capabilities m)
  ∧ (rg_continue_after_stop r ≠ [] → Cap_TurnContinuationControl ∈ em_capabilities m).
Proof.
  unfold validate_capabilities. intros Hv.
  repeat match type of Hv with
         | (match ?e with Ok _ => _ | Err _ => _ end) = _ => let E := fresh "E" in destruct e as [[]|] eqn:E; [|done]
         end.
  split_and!.
  - intros [?|?]; eapply (require_capability_ok _ _ _ _ E4); present.
  - intros (t & Ht & Hm)%Exists_exists. eapply (require_capability_ok _ _ _ _ E5), existsb_exists. exists t.
    split; [by apply list_elem_of_In|by apply bool_decide_eq_true].
  - intros [?|[?|?]]; [eapply (require_capability_ok _ _ _ _ E3)..|eapply (require_capability_ok _ _ _ _ E2)];
      present.
  - intros [?|?]; eapply (require_capability_ok _ _ _ _ E1); present.
  - intros ?; eapply (require_capability_ok _ _ _ _ E6); present.
Qed.

Lemma validate_lifecycle_modes m l :
  validate_lifecycle (H:=H) m l = Ok tt →
  Forall (λ x : ExtLifecycleEvent * HookMode * Z * H,
            x.1.1.2 = Hook_Blocking → x.1.1.1 = On_TurnStart ∨ x.1.1.1 = On_UserPromptSubmit) l.
Proof.
  induction l as [|[[[event mode] priority] h] l IH]; [by constructor|]. cbn [validate_lifecycle].
  case_bool_decide as Hm; cbn [andb].
  - destruct (lifecycle_event_allows_blocking event) eqn:He; [|done]. intros Hl. constructor; [|by apply IH].
    simpl. intros _. destruct event; try done; auto.
  - intros Hl. constructor; [|by apply IH]. done.
Qed.

Lemma after_response_advisory (calls : list (@RegistrarCall H)) :
  Forall (λ p : ProviderEvent * HookMode * Z * H, p.1.1.1 = AfterResponse → p.1.1.2 = Hook_Advisory)
    (rg_provider (registrations calls)).
Proof.
  apply Forall_forall. intros p (c & _ & Hc)%list_elem_of_omap. destruct c; simplify_eq/=; by intros.
Qed.

Lemma registry_hooks exts : registry exts → Forall hooks_declared exts.
Proof.
  induction 1 as [|exts m calls m' r _ IH Hid Hfin Hcon|exts exts' _ IH Hs]; [constructor| |by eapply sublist_Forall].
  apply Forall_app. split; [done|]. constructor; [|constructor].
  apply finish_ok in Hfin as (-> & _ & Hcaps & Hlife & _ & _ & services & commands & ->).
  apply validate_capabilities_declared in Hcaps as (? & ? & ? & ? & ?). unfold hooks_declared. simpl.
  split_and!; try done; [by apply validate_lifecycle_modes with m|apply after_response_advisory].
Qed.
End registry.

Arguments registry {H}.

(** C24. Routes and tools are unambiguous: a route is refused at registration only for a path another one answers too,
    and in a registry of published extensions, with the entries in any order, the route that matches access, target,
    path and method is the one that is found; when none does, the answer says whether the path has other methods.  A
    request for authenticated routes names its extension.  No two tools of the registry have one name. *)
Theorem routes_are_unambiguous {H} (supports : H → bool) (str_debug : string → string) exts entries access target method path :
  registry supports str_debug exts → entries ≡ₚ mjoin (entries_of <$> exts) →
  (access = Http_Authenticated → is_Some target) →
  (∀ p q, extension_http_route_patterns_conflict p q = true ↔
          ∃ s, is_Some (match_extension_http_route p s) ∧ is_Some (match_extension_http_route q s))
  ∧ (∀ e params, e ∈ entries → entry_params access target path e = Some params → rt_method (he_route e) = method →
       find_route access target method path entries false = (true, Some (e, params)))
  ∧ ((∀ e, e ∈ entries → is_Some (entry_params access target path e) → rt_method (he_route e) ≠ method) →
       find_route access target method path entries false =
       (existsb (λ e, bool_decide (is_Some (entry_params access target path e))) entries, None))
  ∧ NoDup (exts ≫= tool_names).
Proof.
  intros Hreg Hperm Htarget. assert (∀ e, e ∈ entries → e ∈ mjoin (entries_of <$> exts)) as Hin by (intros e; by rewrite Hperm).
  split_and!; [apply conflict_is_common|..|by eapply tools_unique, registry_consistent].
  - intros e params He Hp Hm. apply registry_consistent in Hreg. rewrite find_route_spec.
    destruct (find_first _ entries) as [e'|] eqn:Hf.
    + apply find_first_Some in Hf as [He' [Hp'%bool_decide_eq_true Hm'%bool_decide_eq_true]%andb_true_iff].
      destruct Hp' as [p' Hp'].
      rewrite (matching_entry_unique exts access target path e' e p' params); [by rewrite Hp|by auto..|congruence].
    + eapply find_first_None in Hf; [|exact He]. simpl in Hf. by rewrite Hp, !bool_decide_true in Hf.
  - intros Hno. rewrite find_route_spec. destruct (find_first _ entries) as [e'|] eqn:Hf; [|done].
    apply find_first_Some in Hf as [He' [Hp'%bool_decide_eq_true Hm'%bool_decide_eq_true]%andb_true_iff].
    destruct (Hno e' He' Hp' Hm').
Qed.

(** ** A registry of two extensions *)

Module RegistrySample.
Definition manifest (id : string) (caps : list ExtensionCapability) : ExtensionManifest :=
  {| em_id := id; em_name := id; em_version := "1"; em_description := None; em_capabilities := caps;
     em_required_transport_features := []; em_dependencies := []; em_service_permissions := [] |}.
Definition route (method : ExtensionHttpMethod) (path : string) (access : ExtensionHttpAccess) : ExtensionHttpRoute :=
  {| rt_method := method; rt_path := path; rt_access := access; rt_description := ""; rt_max_body_bytes := 1024 |}.

Definition supports (h : nat) : bool := true.
Definition str_debug (s : string) : string := s.

Definition notes : ExtensionManifest := manifest "notes" [Cap_PublicHttp; Cap_AuthenticatedHttp; Cap_ToolIntercept].
Definition notes_calls : list (@RegistrarCall nat) :=
  [R_http_route (route Http_Get "/notes/{id}" Http_Public) 1; R_http_route (route Http_Put "/notes/{id}" Http_Public) 2;
   R_http_route (route Http_Get "/settings" Http_Authenticated) 3; R_on_pre_tool_use_for Target_All 5 4;
   R_on_lifecycle On_TurnEnd Hook_Advisory 0 8].
Definition files : ExtensionManifest := manifest "files" [Cap_PublicHttp; Cap_AuthenticatedHttp].
Definition files_calls : list (@RegistrarCall nat) :=
  [R_http_route (route Http_Get "/files/{id}" Http_Public) 5; R_http_route (route Http_Get "/settings" Http_Authenticated) 6].

Definition resolved (m : ExtensionManifest) (calls : list (@RegistrarCall nat)) : @ResolvedExtensionManifest nat :=
  {| rm_author := m; rm_registrations := registrations calls |}.
Definition exts : list (@ResolvedExtensionManifest nat) := [resolved notes notes_calls; resolved files files_calls].

Lemma exts_registered : registry supports str_debug exts.
Proof.
  change exts with (([] ++ [resolved notes notes_calls]) ++ [resolved files files_calls]).
  eapply (registry_publish _ _ _ files files_calls); [eapply (registry_publish _ _ _ notes notes_calls)|..];
    [apply registry_empty|constructor|..|by repeat constructor| |].
  all: vm_compute; reflexivity.
Qed.

(** The entries in the order of the ids, as the index has them. *)
Definition entries : list (HttpRouteEntry nat) := mjoin (entries_of <$> reverse exts).

Lemma routes_are_unambiguous_witness :
  find_route Http_Authenticated (Some "notes"%string) Http_Get "/settings" entries false
  = (true, Some ({| he_extension_id := "notes"; he_route := route Http_Get "/settings" Http_Authenticated; he_handler := 3 |}, ∅))
  ∧ find_route Http_Public None Http_Get "/notes/7/" entries false
  = (true, Some ({| he_extension_id := "notes"; he_route := route Http_Get "/notes/{id}" Http_Public; he_handler := 1 |},
                 {["id"%string := "7"%string]}))
  ∧ find_route Http_Public None Http_Delete "/notes/7" entries false = (true, None).
Proof.
  split_and!.
  - eapply (routes_are_unambiguous supports str_debug exts); [apply exts_registered| |by intros _| |vm_compute; reflexivity|done].
    + apply (Permutation_app_comm (entries_of (resolved files files_calls) ++ []) (entries_of (resolved notes notes_calls))).
    + apply (list_elem_of_lookup_2 _ 4). vm_compute. reflexivity.
  - eapply (routes_are_unambiguous supports str_debug exts); [apply exts_registered| |done| |vm_compute; reflexivity|done].
    + apply (Permutation_app_comm (entries_of (resolved files files_calls) ++ []) (entries_of (resolved notes notes_calls))).
    + apply (list_elem_of_lookup_2 _ 2). vm_compute. reflexivity.
  - vm_compute. reflexivity.
Defined.
End RegistrySample.

(** ** Where the rules let through what they are meant to stop *)

(** A parameter takes the place of the reserved segment. *)
Lemma parameter_reaches_api :
  let route := RegistrySample.route Http_Get "/{scope}/sessions" Http_Public in
  validate_extension_http_route route = Ok tt ∧ validate_http_route_registrations [route] [] = Ok tt
  ∧ match_extension_http_route (rt_path route) "/api/sessions" = Some {["scope"%string := "api"%string]}.
Proof. vm_compute. done. Qed.

(** The name is trimmed before the slash is taken off, not behind it. *)
Lemma blank_behind_slash_refused :
  canonicalize_command_name "/ review" = Err "command name ` review` must match [a-z][a-z0-9_-]*"
  ∧ canonicalize_command_name " //Review " = Ok "review"%string.
Proof. vm_compute. done. Qed.
