(* ===== verification/ExtHooks.v ===== *)
(** * Dispatch of hooks
    ([astrcode-extensions/src/runner/index.rs], the dispatch of [ExtensionView] in [runner/mod.rs], the contexts and
    results of [astrcode-extension-sdk/src/extension/hooks/], [runtime_ports/provider_request.rs])

    The index lists the handlers of all extensions in the order they run; the dispatch asks them one by one and
    composes their answers.  A handler is a reference; what it answers, whether its call is admitted and how long it
    takes are functions of the number of the call ([HookEnv]).  The trace of a world lists the calls with what each
    handler was shown.  Cancellation tokens are left out: a call that is cancelled still has its answer awaited. *)

From stdpp Require Import finite.
From S2P Require Import Prelude Utf8 StdPath CoreTypes CoreLlm CoreLlmProtocol CoreEvent StdStr CtxText TurnFinalize PermPolicy ToolPrepare ToolExecute TurnWorld ExtDeps ExtCatalog ExtRoutes ExtRegister ExtRegistry.

(** ** Errors *)

Definition capability_debug (c : ExtensionCapability) : string :=
  match c with
  | Cap_SessionControl => "SessionControl" | Cap_SessionCommand => "SessionCommand"
  | Cap_SessionInspect => "SessionInspect" | Cap_PublicHttp => "PublicHttp"
  | Cap_AuthenticatedHttp => "AuthenticatedHttp" | Cap_PublicHttpDispatch => "PublicHttpDispatch"
  | Cap_MainModel => "MainModel" | Cap_SmallModel => "SmallModel" | Cap_SessionHistory => "SessionHistory"
  | Cap_EmitCustomEvents => "EmitCustomEvents" | Cap_ConsumeCustomEvents => "ConsumeCustomEvents"
  | Cap_WorkspaceRead => "WorkspaceRead" | Cap_WorkspaceWrite => "WorkspaceWrite"
  | Cap_WorkspaceSensitivePaths => "WorkspaceSensitivePaths" | Cap_ToolResultRead => "ToolResultRead"
  | Cap_ProcessSpawn => "ProcessSpawn" | Cap_NetworkClient => "NetworkClient"
  | Cap_ProviderRequest => "ProviderRequest" | Cap_InputDelivery => "InputDelivery"
  | Cap_ToolIntercept => "ToolIntercept" | Cap_TurnContinuationControl => "TurnContinuationControl"
  | Cap_LiveConversation => "LiveConversation"
  end.

Definition event_debug (e : ExtLifecycleEvent) : string :=
  match e with
  | On_SessionStart => "SessionStart" | On_SessionResume => "SessionResume" | On_SessionShutdown => "SessionShutdown"
  | On_TurnStart => "TurnStart" | On_TurnEnd => "TurnEnd" | On_TurnAborted => "TurnAborted"
  | On_StepStart => "StepStart" | On_StepEnd => "StepEnd" | On_ToolInputTransform => "ToolInputTransform"
  | On_PreToolUse => "PreToolUse" | On_PostToolUse => "PostToolUse"
  | On_BeforeProviderRequest => "BeforeProviderRequest" | On_ProviderContribution => "ProviderContribution"
  | On_AfterProviderResponse => "AfterProviderResponse" | On_ContinueAfterStop => "ContinueAfterStop"
  | On_UserPromptSubmit => "UserPromptSubmit" | On_UserMessageEnvelope => "UserMessageEnvelope"
  | On_PromptBuild => "PromptBuild" | On_PostRecap => "PostRecap"
  end.

(** The transparent variants carry what they display. *)
Inductive ExtensionError :=
| Ext_Config (display : string)
| Ext_Path (display : string)
| Ext_Host (display : string)
| Ext_EventSend (display : string)
| Ext_InvalidInput (code message : string) (hint : option string)
| Ext_NotFound (what : string)
| Ext_Timeout (ms : N)
| Ext_Cancelled
| Ext_Draining (extension_id : string)
| Ext_Blocked (reason : string)
| Ext_MissingCapability (extension_id hook : string) (capability : ExtensionCapability)
| Ext_InvalidLifecycleMode (extension_id : string) (event : ExtLifecycleEvent)
| Ext_ToolConflict (extension_id tool_name conflicting_extension_id : string)
| Ext_InvalidRegistration (extension_id reason : string)
| Ext_Internal (message : string).

Definition ExtensionError_to_string (e : ExtensionError) : string :=
  match e with
  | Ext_Config d | Ext_Path d | Ext_Host d | Ext_EventSend d => d
  | Ext_InvalidInput code message _ => "invalid extension input `" +:+ code +:+ "`: " +:+ message
  | Ext_NotFound what => "Extension not found: " +:+ what
  | Ext_Timeout ms => "Hook timed out after " +:+ pretty ms +:+ "ms"
  | Ext_Cancelled => "operation cancelled"
  | Ext_Draining id => "extension " +:+ id +:+ " is draining"
  | Ext_Blocked reason => "blocked by hook: " +:+ reason
  | Ext_MissingCapability id hook capability =>
    "extension " +:+ id +:+ " registered " +:+ hook +:+ " without declaring " +:+ capability_debug capability
  | Ext_InvalidLifecycleMode id event =>
    "extension " +:+ id +:+ " registered lifecycle " +:+ event_debug event
    +:+ " with blocking mode, but this event is observe-only"
  | Ext_ToolConflict id tool_name other =>
    "extension " +:+ id +:+ " tool `" +:+ tool_name +:+ "` conflicts with extension " +:+ other
  | Ext_InvalidRegistration id reason => "extension " +:+ id +:+ " has an invalid registration: " +:+ reason
  | Ext_Internal message => "extension error: " +:+ message
  end.

(** [From<RegistrationError>]. *)
Definition ExtensionError_from (e : RegistrationError) : ExtensionError :=
  match e with
  | Reg_MissingCapability id registration capability => Ext_MissingCapability id registration capability
  | Reg_InvalidLifecycleMode id event => Ext_InvalidLifecycleMode id event
  | Reg_Invalid id reason => Ext_InvalidRegistration id reason
  end.

(** ** Stable sorting ([sort_by_key]) *)

Fixpoint sorted_insert {A} (le : A → A → bool) (x : A) (l : list A) : list A :=
  match l with
  | [] => [x]
  | y :: l' => if le x y then x :: l else y :: sorted_insert le x l'
  end.
Definition stable_sort {A} (le : A → A → bool) (l : list A) : list A := foldr (sorted_insert le) [] l.

(** ** The index ([build_handler_index])

    The entry of an extension stands for its generation, which the dispatch looks up by id; tools, commands, services
    and what else the index holds is left out. *)

#[export] Instance ProviderEvent_finite : Finite ProviderEvent.
Proof. refine {| enum := [BeforeRequest; AfterResponse] |}; [by apply (bool_decide_unpack _); vm_compute|by intros []; set_solver]. Defined.
#[export] Instance ExtLifecycleEvent_finite : Finite ExtLifecycleEvent.
Proof.
  refine {| enum := [On_SessionStart; On_SessionResume; On_SessionShutdown; On_TurnStart; On_TurnEnd; On_TurnAborted;
                     On_StepStart; On_StepEnd; On_ToolInputTransform; On_PreToolUse; On_PostToolUse; On_BeforeProviderRequest;
                     On_ProviderContribution; On_AfterProviderResponse; On_ContinueAfterStop; On_UserPromptSubmit;
                     On_UserMessageEnvelope; On_PromptBuild; On_PostRecap] |};
    [by apply (bool_decide_unpack _); vm_compute|by intros []; set_solver].
Defined.

Section index.
Context {H : Type}.

Record HandlerIndex := {
  hx_generation : N;
  hx_tool_input_transform : list (string * (ToolHookTarget * H));
  hx_pre_tool_use : list (string * (ToolHookTarget * H));
  hx_post_tool_use : list (string * (HookMode * ToolHookTarget * H));
  hx_provider : gmap ProviderEvent (list (string * (HookMode * H)));
  hx_provider_contributions : list (string * H);
  hx_prompt_build : list (string * H);
  hx_pre_compact : list (string * H);
  hx_post_compact : list (string * H);
  hx_continue_after_stop : list (string * (ContinueAfterStopLimit * H));
  hx_user_message_envelope : list (string * H);
  hx_lifecycle : gmap ExtLifecycleEvent (list (string * (HookMode * H)));
  hx_custom_event : list (string * (CustomEventSubscription * H));
  hx_http_routes : list (HttpRouteEntry H);
  hx_extensions : gset string;
}.

Definition id_le (a b : @ResolvedExtensionManifest H) : bool := bool_decide (String.le (rm_id a) (rm_id b)).
Definition priority_le {T} (a b : Z * T) : bool := bool_decide (b.1 ≤ a.1)%Z.

Definition handlers_by_priority {T} (handlers : list (Z * T)) : list T := (stable_sort priority_le handlers).*2.

(** [entry(event).or_default().push(handler)] in the order of the priorities. *)
Definition handlers_by_event {K T} `{Countable K} (handlers : list (K * (Z * T))) : gmap K (list T) :=
  foldl (λ m h, <[h.1 := default [] (m !! h.1) ++ [h.2.2]]> m) ∅
    (stable_sort (λ a b, priority_le a.2 b.2) handlers).

(** What the loop over the extensions, by id, collects of one kind of registration. *)
Definition gather {T} (f : @ExtensionRegistrations H → list T) (exts : list (@ResolvedExtensionManifest H))
    : list (string * T) :=
  mjoin ((λ m, pair (rm_id m) <$> f (rm_registrations m)) <$> exts).

(** A registration with its priority in front, as the index sorts them. *)
Definition prioritized {T} (l : list (string * (Z * T))) : list (Z * (string * T)) :=
  (λ x, (x.2.1, (x.1, x.2.2))) <$> l.
Definition prioritized_event {K T} (l : list (string * (K * (Z * T)))) : list (K * (Z * (string * T))) :=
  (λ x, (x.2.1, (x.2.2.1, (x.1, x.2.2.2)))) <$> l.

Definition transform_regs (r : @ExtensionRegistrations H) : list (Z * (ToolHookTarget * H)) :=
  (λ t, (tu_priority t, (tu_target t, tu_handler t))) <$> rg_tool_input_transform r.
Definition pre_tool_regs (r : @ExtensionRegistrations H) : list (Z * (ToolHookTarget * H)) :=
  (λ t, (tu_priority t, (tu_target t, tu_handler t))) <$> rg_pre_tool_use r.
Definition post_tool_regs (r : @ExtensionRegistrations H) : list (Z * (HookMode * ToolHookTarget * H)) :=
  (λ t, (th_priority t, (th_mode t, th_target t, th_handler t))) <$> rg_post_tool_use r.
Definition provider_regs (r : @ExtensionRegistrations H) : list (ProviderEvent * (Z * (HookMode * H))) :=
  (λ '(event, mode, priority, h), (event, (priority, (mode, h)))) <$> rg_provider r.
Definition continue_regs (r : @ExtensionRegistrations H) : list (Z * (ContinueAfterStopLimit * H)) :=
  (λ t, (ca_priority t, (ca_options t, ca_handler t))) <$> rg_continue_after_stop r.
Definition envelope_regs (r : @ExtensionRegistrations H) : list (Z * H) :=
  (λ t, (um_priority t, um_handler t)) <$> rg_user_message_envelope r.
Definition lifecycle_regs (r : @ExtensionRegistrations H) : list (ExtLifecycleEvent * (Z * (HookMode * H))) :=
  (λ '(event, mode, priority, h), (event, (priority, (mode, h)))) <$> rg_lifecycle r.
Definition custom_event_regs (r : @ExtensionRegistrations H) : list (Z * (CustomEventSubscription * H)) :=
  (λ t, (cr_priority t, (cr_subscription t, cr_handler t))) <$> rg_custom_event_subscriptions r.

Definition build_handler_index (extensions : list (@ResolvedExtensionManifest H)) (generation : N) : HandlerIndex :=
  let ordered := stable_sort id_le extensions in
  {| hx_generation := generation;
     hx_tool_input_transform := handlers_by_priority (prioritized (gather transform_regs ordered));
     hx_pre_tool_use := handlers_by_priority (prioritized (gather pre_tool_regs ordered));
     hx_post_tool_use := handlers_by_priority (prioritized (gather post_tool_regs ordered));
     hx_provider := handlers_by_event (prioritized_event (gather provider_regs ordered));
     hx_provider_contributions := handlers_by_priority (prioritized (gather rg_provider_contributions ordered));
     hx_prompt_build := handlers_by_priority (prioritized (gather rg_prompt_build ordered));
     hx_pre_compact := handlers_by_priority (prioritized (gather rg_pre_compact ordered));
     hx_post_compact := handlers_by_priority (prioritized (gather rg_post_compact ordered));
     hx_continue_after_stop := handlers_by_priority (prioritized (gather continue_regs ordered));
     hx_user_message_envelope := handlers_by_priority (prioritized (gather envelope_regs ordered));
     hx_lifecycle := handlers_by_event (prioritized_event (gather lifecycle_regs ordered));
     hx_custom_event := handlers_by_priority (prioritized (gather custom_event_regs ordered));
     hx_http_routes := mjoin (entries_of <$> ordered);
     hx_extensions := list_to_set (rm_id <$> extensions) |}.
End index.

(** ** What handlers are shown and answer *)

Record PreToolUsePayload := {
  pp_call_id : string;
  pp_tool_name : string;
  pp_tool_input : Value;
  pp_approval_mode : ApprovalMode;
  pp_available_tools : list ToolDefinition;
}.
Record PostToolUsePayload := {
  qp_call_id : string;
  qp_tool_name : string;
  qp_tool_input : Value;
  qp_tool_result : ToolResult;
}.
Record ProviderPayload := { vp_request_id : string; vp_messages : list (Arc LlmMessage) }.
Record ContinueAfterStopPayload := {
  cp_assistant_text : string;
  cp_finish_reason : string;
  cp_continuations_this_turn : N;
}.
Record UserMessageEnvelopePayload := { ep_text : string; ep_attachments : list MessageAttachment }.

(** The contexts of lifecycle events and of settlements are reduced to what identifies them. *)
Inductive HookInput :=
| In_pre (p : PreToolUsePayload)
| In_post (p : PostToolUsePayload)
| In_provider (event : ProviderEvent) (p : ProviderPayload)
| In_contribution (p : ProviderPayload)
| In_settlement (request_id contribution_id : string)
| In_prompt_build (tools : list ToolDefinition)
| In_pre_compact (trigger : CompactTrigger) (source_messages : list LlmMessage)
| In_post_compact (r : CompactResult)
| In_continue (p : ContinueAfterStopPayload)
| In_envelope (p : UserMessageEnvelopePayload)
| In_lifecycle (event : ExtLifecycleEvent).

Definition replace_tool_input (tool_input : Value) (p : PreToolUsePayload) : PreToolUsePayload :=
  {| pp_call_id := pp_call_id p; pp_tool_name := pp_tool_name p; pp_tool_input := tool_input;
     pp_approval_mode := pp_approval_mode p; pp_available_tools := pp_available_tools p |}.

(** The error of a failed call follows its text. *)
Definition replace_result_content (content : string) (p : PostToolUsePayload) : PostToolUsePayload :=
  let r := qp_tool_result p in
  {| qp_call_id := qp_call_id p; qp_tool_name := qp_tool_name p; qp_tool_input := qp_tool_input p;
     qp_tool_result := {| tr_content := content; tr_is_error := tr_is_error r;
                          tr_error := if tr_is_error r then Some content else None;
                          tr_metadata := tr_metadata r; tr_duration_ms := tr_duration_ms r |} |}.

Definition replace_messages (messages : list LlmMessage) (p : ProviderPayload) : ProviderPayload :=
  {| vp_request_id := vp_request_id p; vp_messages := Arc_new <$> messages |}.
Definition append_messages (messages : list LlmMessage) (p : ProviderPayload) : ProviderPayload :=
  {| vp_request_id := vp_request_id p; vp_messages := vp_messages p ++ (Arc_new <$> messages) |}.

Definition replace_text (text : string) (p : UserMessageEnvelopePayload) : UserMessageEnvelopePayload :=
  {| ep_text := text; ep_attachments := ep_attachments p |}.
Definition append_text (text : string) (p : UserMessageEnvelopePayload) : UserMessageEnvelopePayload :=
  if is_empty text then p
  else replace_text ((if is_empty (ep_text p) then "" else ep_text p +:+ String lf (String lf "")) +:+ text) p.

Inductive ToolInputTransformResult := Transform_Unchanged | Transform_Replace (tool_input : Value).
Inductive PreToolUseResult := PreTool_Allow | PreTool_Block (reason : string) | PreTool_Ask (prompt : string) (rule_key : option string).
Inductive HookResult := Hook_Allow | Hook_Block (reason : string).
Inductive UserMessageEnvelopeResult :=
| Envelope_Allow | Envelope_ReplaceText (text : string) | Envelope_AppendText (text : string) | Envelope_Block (reason : string).
Inductive PreparedProviderEffect :=
| Effect_Unchanged | Effect_ReplaceMessages (messages : list LlmMessage) | Effect_AppendMessages (messages : list LlmMessage).
Record PreparedProviderContribution := { pc_contribution_id : string; pc_effect : PreparedProviderEffect }.

Record PromptContributions := {
  pb_system_prompts : list string;
  pb_additional_instructions : list string;
  pb_skills : list string;
  pb_agents : list string;
}.
Definition no_prompt_contributions : PromptContributions :=
  {| pb_system_prompts := []; pb_additional_instructions := []; pb_skills := []; pb_agents := [] |}.
Definition prompt_merge (a b : PromptContributions) : PromptContributions :=
  {| pb_system_prompts := pb_system_prompts a ++ pb_system_prompts b;
     pb_additional_instructions := pb_additional_instructions a ++ pb_additional_instructions b;
     pb_skills := pb_skills a ++ pb_skills b; pb_agents := pb_agents a ++ pb_agents b |}.
Definition compact_merge (a b : CompactContributions) : CompactContributions :=
  {| cc_instructions := cc_instructions a ++ cc_instructions b;
     cc_retained_context := cc_retained_context a ++ cc_retained_context b |}.

(** ** The world of the dispatch *)

(** How the call of a handler ended within the operation timeout, or that it did not. *)
Inductive HookRun (A : Type) := Run_done (r : result A ExtensionError) | Run_timed_out.
Arguments Run_done {A}.
Arguments Run_timed_out {A}.

Record HookEnv (H : Type) := {
  he_operation_timeout_ms : N;
  (** whether the extension takes the call ([ExtensionAdmission::acquire]), and how long the call took *)
  he_admitted : nat → string → bool;
  he_elapsed_ms : nat → N;
  he_transform : nat → H → PreToolUsePayload → HookRun ToolInputTransformResult;
  he_pre_tool_use : nat → H → PreToolUsePayload → HookRun PreToolUseResult;
  he_post_tool_use : nat → H → PostToolUsePayload → HookRun PostToolUseResult;
  he_provider : nat → H → ProviderEvent → ProviderPayload → HookRun ProviderResult;
  he_prepare : nat → H → ProviderPayload → HookRun (option PreparedProviderContribution);
  he_acknowledge : nat → H → string → string → HookRun unit;
  he_prompt_build : nat → H → list ToolDefinition → HookRun PromptContributions;
  he_pre_compact : nat → H → CompactTrigger → list LlmMessage → HookRun PreCompactResult;
  he_post_compact : nat → H → CompactResult → HookRun unit;
  he_continue_after_stop : nat → H → ContinueAfterStopPayload → HookRun ContinueAfterStopResult;
  he_envelope : nat → H → UserMessageEnvelopePayload → HookRun UserMessageEnvelopeResult;
  he_lifecycle : nat → H → ExtLifecycleEvent → HookRun HookResult;
}.
Arguments he_operation_timeout_ms {H}.
Arguments he_admitted {H}.
Arguments he_elapsed_ms {H}.
Arguments he_transform {H}.
Arguments he_pre_tool_use {H}.
Arguments he_post_tool_use {H}.
Arguments he_provider {H}.
Arguments he_prepare {H}.
Arguments he_acknowledge {H}.
Arguments he_prompt_build {H}.
Arguments he_pre_compact {H}.
Arguments he_post_compact {H}.
Arguments he_continue_after_stop {H}.
Arguments he_envelope {H}.
Arguments he_lifecycle {H}.

(** The fields of [ExtensionDiagnostics] about hooks. *)
Record HookDiagnostics := {
  hd_hook_calls : N;
  hd_hook_timeouts : N;
  hd_last_hook : option string;
  hd_last_duration_ms : option N;
  hd_last_error : option string;
}.
Definition no_diagnostics : HookDiagnostics :=
  {| hd_hook_calls := 0; hd_hook_timeouts := 0; hd_last_hook := None; hd_last_duration_ms := None; hd_last_error := None |}.

(** A call that was awaited, or one that was given to a task of the extension. *)
Record HookCall (H : Type) := { hc_extension : string; hc_handler : H; hc_input : HookInput; hc_spawned : bool }.
Arguments hc_extension {H}.
Arguments hc_handler {H}.
Arguments hc_input {H}.
Arguments hc_spawned {H}.

Record HookWorld (H : Type) := {
  hw_clock : nat;
  hw_diagnostics : gmap string HookDiagnostics;
  hw_calls : list (HookCall H);
}.
Arguments hw_clock {H}.
Arguments hw_diagnostics {H}.
Arguments hw_calls {H}.

Section dispatch.
Context {H : Type} (env : HookEnv H) (idx : @HandlerIndex H).
Local Abbreviation World := (HookWorld H).

Definition Hk (A : Type) : Type := World → result A ExtensionError * World.
Definition hret {A} (a : A) : Hk A := λ w, (Ok a, w).
Definition hfail {A} (e : ExtensionError) : Hk A := λ w, (Err e, w).
Definition hbind {A B} (m : Hk A) (f : A → Hk B) : Hk B := λ w,
  match m w with (Ok a, w) => f a w | (Err e, w) => (Err e, w) end.

Notation "'let*' x ':=' m 'in' k" := (hbind m (λ x, k))
  (at level 10, x pattern, m at level 200, k at level 200).

Definition record_hook_result (extension_id hook : string) (elapsed : N) (error : option string) (timed_out : bool)
    (w : World) : World :=
  let entry := default no_diagnostics (hw_diagnostics w !! extension_id) in
  let entry :=
    {| hd_hook_calls := saturating_add u64_max (hd_hook_calls entry) 1;
       hd_hook_timeouts := if timed_out then saturating_add u64_max (hd_hook_timeouts entry) 1 else hd_hook_timeouts entry;
       hd_last_hook := Some hook; hd_last_duration_ms := Some elapsed; hd_last_error := error |} in
  {| hw_clock := hw_clock w; hw_diagnostics := <[extension_id := entry]> (hw_diagnostics w); hw_calls := hw_calls w |}.

Definition push_call (extension_id : string) (h : H) (input : HookInput) (spawned : bool) (w : World) : World :=
  {| hw_clock := S (hw_clock w); hw_diagnostics := hw_diagnostics w;
     hw_calls := hw_calls w ++ [{| hc_extension := extension_id; hc_handler := h; hc_input := input; hc_spawned := spawned |}] |}.

Definition tick (w : World) : World :=
  {| hw_clock := S (hw_clock w); hw_diagnostics := hw_diagnostics w; hw_calls := hw_calls w |}.

(** [make_hook_call_context]: there is a generation of the extension. *)
Definition make_hook_call_context (extension_id : string) : Hk unit := λ w,
  if bool_decide (extension_id ∈ hx_extensions idx) then (Ok tt, w)
  else (Err (Ext_Internal ("missing generation entry for extension " +:+ extension_id)), w).

Definition run_recorded_hook {A} (extension_id hook_name : string) (h : H) (input : HookInput) (run : nat → HookRun A)
    : Hk A := λ w,
  if negb (bool_decide (extension_id ∈ hx_extensions idx)) then
    (Err (Ext_NotFound ("extension " +:+ extension_id +:+ " generation is no longer available")), w)
  else
    let n := hw_clock w in
    if negb (he_admitted env n extension_id) then (Err (Ext_Draining extension_id), tick w)
    else
      let w := push_call extension_id h input false w in
      match run n with
      | Run_done r =>
        (r, record_hook_result extension_id hook_name (he_elapsed_ms env n)
              (match r with Ok _ => None | Err e => Some (ExtensionError_to_string e) end) false w)
      | Run_timed_out =>
        let error := Ext_Timeout (he_operation_timeout_ms env) in
        (Err error, record_hook_result extension_id hook_name (he_elapsed_ms env n)
                      (Some (ExtensionError_to_string error)) true w)
      end.

(** [spawn_extension_task]: the call is not awaited and nothing is recorded. *)
Definition spawn_hook (extension_id : string) (h : H) (input : HookInput) : Hk unit := λ w,
  if bool_decide (extension_id ∈ hx_extensions idx) then (Ok tt, push_call extension_id h input true w) else (Ok tt, w).

Definition dispatch_hook_by_mode {A} (extension_id hook_name : string) (mode : HookMode) (h : H) (input : HookInput)
    (run : nat → HookRun A) : Hk (option A) :=
  match mode with
  | Hook_Blocking => let* r := run_recorded_hook extension_id hook_name h input run in hret (Some r)
  | Hook_Advisory => λ w, (Ok None, (run_recorded_hook extension_id hook_name h input run w).2)
  | Hook_NonBlocking => let* _ := spawn_hook extension_id h input in hret None
  end.

(** ** Tools *)

Fixpoint transform_loop (l : list (string * (ToolHookTarget * H))) (ctx : PreToolUsePayload) : Hk PreToolUsePayload :=
  match l with
  | [] => hret ctx
  | (extension_id, (target, h)) :: l =>
    if negb (target_matches target (pp_tool_name ctx)) then transform_loop l ctx
    else
      let* _ := make_hook_call_context extension_id in
      let* r := run_recorded_hook extension_id "tool_input_transform" h (In_pre ctx) (λ n, he_transform env n h ctx) in
      transform_loop l (match r with Transform_Unchanged => ctx | Transform_Replace input => replace_tool_input input ctx end)
  end.

Definition transform_tool_input (ctx : PreToolUsePayload) : Hk Value :=
  let* ctx := transform_loop (hx_tool_input_transform idx) ctx in hret (pp_tool_input ctx).

(** The key of a question, in the name space of the extension that asks. *)
Definition namespaced_key (extension_id rule_key : string) : string := "extension:" +:+ extension_id +:+ ":" +:+ rule_key.

Fixpoint pre_tool_loop (l : list (string * (ToolHookTarget * H))) (ctx : PreToolUsePayload)
    (requirements : list PreToolUseRequirement) : Hk PreToolUseAdmission :=
  match l with
  | [] => hret (match requirements with [] => Admission_Allow | _ => Admission_Ask requirements end)
  | (extension_id, (target, h)) :: l =>
    if negb (target_matches target (pp_tool_name ctx)) then pre_tool_loop l ctx requirements
    else
      let* _ := make_hook_call_context extension_id in
      let* r := run_recorded_hook extension_id "pre_tool_use" h (In_pre ctx) (λ n, he_pre_tool_use env n h ctx) in
      match r with
      | PreTool_Block reason => hret (Admission_Block reason)
      | PreTool_Ask prompt rule_key =>
        pre_tool_loop l ctx
          (requirements ++ [{| pt_prompt := prompt; pt_rule_key := namespaced_key extension_id <$> rule_key |}])
      | PreTool_Allow => pre_tool_loop l ctx requirements
      end
  end.

Definition emit_pre_tool_use (ctx : PreToolUsePayload) : Hk PreToolUseAdmission :=
  pre_tool_loop (hx_pre_tool_use idx) ctx [].

Fixpoint post_tool_loop (l : list (string * (HookMode * ToolHookTarget * H))) (ctx : PostToolUsePayload) (modified : bool)
    : Hk PostToolUseResult :=
  match l with
  | [] => hret (if modified then Post_ModifyResult (tr_content (qp_tool_result ctx)) else Post_Allow)
  | (extension_id, (mode, target, h)) :: l =>
    if negb (target_matches target (qp_tool_name ctx)) then post_tool_loop l ctx modified
    else
      let* _ := make_hook_call_context extension_id in
      let* r := dispatch_hook_by_mode extension_id "post_tool_use" mode h (In_post ctx) (λ n, he_post_tool_use env n h ctx) in
      match r with
      | None | Some Post_Allow => post_tool_loop l ctx modified
      | Some (Post_Block reason) => hret (Post_Block reason)
      | Some (Post_ModifyResult content) => post_tool_loop l (replace_result_content content ctx) true
      end
  end.

Definition emit_post_tool_use (ctx : PostToolUsePayload) : Hk PostToolUseResult :=
  post_tool_loop (hx_post_tool_use idx) ctx false.

(** ** The provider *)

Definition provider_hook_name (event : ProviderEvent) : string :=
  match event with BeforeRequest => "before_provider_request" | AfterResponse => "after_provider_response" end.

Definition apply_provider_result (r : ProviderResult) (ctx : ProviderPayload) : ProviderPayload * bool :=
  match r with
  | Provider_ReplaceMessages messages => (replace_messages messages ctx, true)
  | Provider_AppendMessages messages => (append_messages messages ctx, true)
  | _ => (ctx, false)
  end.

Definition provider_outcome (ctx : ProviderPayload) (modified : bool) : ProviderResult :=
  if modified then Provider_ReplaceMessages (arc_get <$> vp_messages ctx) else Provider_Allow.

Fixpoint provider_loop (event : ProviderEvent) (l : list (string * (HookMode * H))) (ctx : ProviderPayload) (modified : bool)
    : Hk ProviderResult :=
  match l with
  | [] => hret (provider_outcome ctx modified)
  | (extension_id, (mode, h)) :: l =>
    let* _ := make_hook_call_context extension_id in
    let* r := dispatch_hook_by_mode extension_id (provider_hook_name event) mode h (In_provider event ctx)
                (λ n, he_provider env n h event ctx) in
    match r with
    | Some (Provider_Block reason) => hret (Provider_Block reason)
    | Some r =>
      let '(ctx, m) := apply_provider_result r ctx in provider_loop event l ctx (modified || m)
    | None => provider_loop event l ctx modified
    end
  end.

Definition emit_provider (event : ProviderEvent) (ctx : ProviderPayload) : Hk ProviderResult :=
  match hx_provider idx !! event with
  | None => hret Provider_Allow
  | Some handlers => provider_loop event handlers ctx false
  end.

(** [ProviderRequestAcknowledgements]: extension, handler, contribution. *)
Definition Acknowledgements : Type := list (string * H * string).

Fixpoint contribution_loop (l : list (string * H)) (ctx : ProviderPayload) (modified : bool) (acks : Acknowledgements)
    : Hk (ProviderResult * Acknowledgements) :=
  match l with
  | [] => hret (provider_outcome ctx modified, acks)
  | (extension_id, h) :: l =>
    let* _ := make_hook_call_context extension_id in
    let* contribution := run_recorded_hook extension_id "provider_contribution_prepare" h (In_contribution ctx)
                           (λ n, he_prepare env n h ctx) in
    match contribution with
    | None => contribution_loop l ctx modified acks
    | Some c =>
      let acks := acks ++ [(extension_id, h, pc_contribution_id c)] in
      match pc_effect c with
      | Effect_Unchanged => contribution_loop l ctx modified acks
      | Effect_ReplaceMessages messages => contribution_loop l (replace_messages messages ctx) true acks
      | Effect_AppendMessages messages => contribution_loop l (append_messages messages ctx) true acks
      end
    end
  end.

Definition prepare_provider_request (ctx : ProviderPayload) : Hk (ProviderResult * Acknowledgements) :=
  let* r := emit_provider BeforeRequest ctx in
  match r with
  | Provider_Block reason => hret (Provider_Block reason, [])
  | _ => let '(ctx, modified) := apply_provider_result r ctx in
         contribution_loop (hx_provider_contributions idx) ctx modified []
  end.

(** Every entry is acknowledged; the first error is kept. *)
Fixpoint acknowledge_loop (request_id : string) (acks : Acknowledgements) (first_error : option ExtensionError) : Hk unit :=
  match acks with
  | [] => match first_error with Some e => hfail e | None => hret tt end
  | (extension_id, h, contribution_id) :: acks => λ w,
    let '(r, w) :=
      (let* _ := make_hook_call_context extension_id in
       run_recorded_hook extension_id "provider_contribution_acknowledge" h (In_settlement request_id contribution_id)
         (λ n, he_acknowledge env n h request_id contribution_id)) w in
    let first_error := match r with
                       | Err e => match first_error with None => Some e | Some _ => first_error end
                       | Ok _ => first_error
                       end in
    acknowledge_loop request_id acks first_error w
  end.

Definition acknowledge_provider_request (request_id : string) (acks : Acknowledgements) : Hk unit :=
  acknowledge_loop request_id acks None.

(** ** Prompts, compaction, continuation, messages, lifecycle *)

Fixpoint prompt_loop (l : list (string * H)) (tools : list ToolDefinition) (collected : PromptContributions)
    : Hk PromptContributions :=
  match l with
  | [] => hret collected
  | (extension_id, h) :: l =>
    let* _ := make_hook_call_context extension_id in
    let* c := run_recorded_hook extension_id "prompt_build" h (In_prompt_build tools) (λ n, he_prompt_build env n h tools) in
    prompt_loop l tools (prompt_merge collected c)
  end.

Definition collect_prompt_contributions_typed (tools : list ToolDefinition) : Hk PromptContributions :=
  prompt_loop (hx_prompt_build idx) tools no_prompt_contributions.

Fixpoint pre_compact_loop (l : list (string * H)) (trigger : CompactTrigger) (source : list LlmMessage)
    (collected : CompactContributions) : Hk PreCompactResult :=
  match l with
  | [] =>
    hret (if is_nil (cc_instructions collected) && is_nil (cc_retained_context collected) then Pre_Allow
          else Pre_Contributions collected)
  | (extension_id, h) :: l =>
    let* _ := make_hook_call_context extension_id in
    let* r := run_recorded_hook extension_id "pre_compact" h (In_pre_compact trigger source)
                (λ n, he_pre_compact env n h trigger source) in
    match r with
    | Pre_Block reason => hret (Pre_Block reason)
    | Pre_Contributions c => pre_compact_loop l trigger source (compact_merge collected c)
    | Pre_Allow => pre_compact_loop l trigger source collected
    end
  end.

Definition collect_pre_compact (trigger : CompactTrigger) (source : list LlmMessage) : Hk PreCompactResult :=
  pre_compact_loop (hx_pre_compact idx) trigger source {| cc_instructions := []; cc_retained_context := [] |}.

Fixpoint post_compact_loop (l : list (string * H)) (r : CompactResult) : Hk unit :=
  match l with
  | [] => hret tt
  | (extension_id, h) :: l =>
    let* _ := make_hook_call_context extension_id in
    let* _ := run_recorded_hook extension_id "post_compact" h (In_post_compact r) (λ n, he_post_compact env n h r) in
    post_compact_loop l r
  end.

Definition notify_post_compact (r : CompactResult) : Hk unit := post_compact_loop (hx_post_compact idx) r.

Fixpoint continue_loop (l : list (string * (ContinueAfterStopLimit * H))) (ctx : ContinueAfterStopPayload)
    : Hk ContinueAfterStopResult :=
  match l with
  | [] => hret EndTurn
  | (extension_id, (options, h)) :: l =>
    if negb (limit_allows options (cp_continuations_this_turn ctx)) then continue_loop l ctx
    else
      let* _ := make_hook_call_context extension_id in
      let* r := run_recorded_hook extension_id "continue_after_stop" h (In_continue ctx)
                  (λ n, he_continue_after_stop env n h ctx) in
      match r with ContinueOneStep => hret ContinueOneStep | EndTurn => continue_loop l ctx end
  end.

Definition emit_continue_after_stop (ctx : ContinueAfterStopPayload) : Hk ContinueAfterStopResult :=
  continue_loop (hx_continue_after_stop idx) ctx.

Fixpoint envelope_loop (l : list (string * H)) (ctx : UserMessageEnvelopePayload) (modified : bool)
    : Hk UserMessageEnvelopeResult :=
  match l with
  | [] => hret (if modified then Envelope_ReplaceText (ep_text ctx) else Envelope_Allow)
  | (extension_id, h) :: l =>
    let* _ := make_hook_call_context extension_id in
    let* r := run_recorded_hook extension_id "user_message_envelope" h (In_envelope ctx) (λ n, he_envelope env n h ctx) in
    match r with
    | Envelope_Allow => envelope_loop l ctx modified
    | Envelope_ReplaceText text => envelope_loop l (replace_text text ctx) true
    | Envelope_AppendText text => envelope_loop l (append_text text ctx) true
    | Envelope_Block reason => hret (Envelope_Block reason)
    end
  end.

Definition emit_user_message_envelope (ctx : UserMessageEnvelopePayload) : Hk UserMessageEnvelopeResult :=
  envelope_loop (hx_user_message_envelope idx) ctx false.

Fixpoint lifecycle_loop (event : ExtLifecycleEvent) (l : list (string * (HookMode * H))) : Hk unit :=
  match l with
  | [] => hret tt
  | (extension_id, (mode, h)) :: l =>
    let* _ := make_hook_call_context extension_id in
    let* r := dispatch_hook_by_mode extension_id "lifecycle" mode h (In_lifecycle event) (λ n, he_lifecycle env n h event) in
    match r with
    | Some (Hook_Block reason) => hfail (Ext_Blocked reason)
    | _ => lifecycle_loop event l
    end
  end.

Definition emit_lifecycle (event : ExtLifecycleEvent) : Hk unit :=
  match hx_lifecycle idx !! event with
  | None => hret tt
  | Some handlers => lifecycle_loop event handlers
  end.
End dispatch.
