(* ===== verification/ExtHooksProofs.v ===== *)
(** * What the dispatch of hooks promises

    Handlers run in an order that does not depend on when extensions were registered; the decisions about a tool are
    composed of what the handlers answer, in that order; contributions to a request are settled once each; extensions
    that only observe change nothing, and no handler runs whose extension did not declare the capability for it. *)

From stdpp Require Import finite sorting.
From S2P Require Import Prelude Utf8 StdPath CoreTypes CoreLlm CoreLlmProtocol CoreEvent StdStr CtxText TurnFinalize PermPolicy ToolPrepare ToolExecute TurnWorld ExtDeps ExtCatalog ExtRoutes ExtRegister ExtRegistry ExtHooks.

(** ** Stable sorting *)

Section sorting.
Context {A : Type} (le : A → A → bool).

Lemma sorted_insert_perm x l : sorted_insert le x l ≡ₚ x :: l.
Proof. induction l as [|y l IH]; [done|]. simpl. destruct (le x y); [done|]. rewrite IH. constructor. Qed.

Lemma stable_sort_perm l : stable_sort le l ≡ₚ l.
Proof. induction l as [|x l IH]; [done|]. simpl. rewrite sorted_insert_perm. by constructor. Qed.

(** Elements no two of which have to change places keep their order. *)
Lemma stable_sort_filter (P : A → Prop) `{∀ x, Decision (P x)} l :
  (∀ x y, P x → P y → le x y = true) → filter P (stable_sort le l) = filter P l.
Proof.
  intros Hle. induction l as [|x l IH]; [done|]. simpl. rewrite filter_cons, <-IH. generalize (stable_sort le l) as k.
  clear IH l. intros k. destruct (decide (P x)) as [Hx|Hx].
  - induction k as [|y k IH]; simpl; [by rewrite filter_cons_True|]. destruct (le x y) eqn:Hxy; [by rewrite filter_cons_True|].
    rewrite filter_cons. destruct (decide (P y)) as [Hy|Hy]; [by rewrite (Hle x y) in Hxy|].
    rewrite (filter_cons_False P y) by done. apply IH.
  - induction k as [|y k IH]; simpl; [by rewrite filter_cons_False|]. destruct (le x y); [by rewrite filter_cons_False|].
    rewrite !filter_cons, IH. done.
Qed.

(** Elements that may stay where they are were in the order of the list. *)
Lemma stable_sort_lex (R : A → A → Prop) l :
  (∀ x y, le x y = true ∨ le y x = true) → (∀ x y z, le x y = true → le y z = true → le x z = true) →
  StronglySorted R l → StronglySorted (λ a b, le a b = true ∧ (le b a = true → R a b)) (stable_sort le l).
Proof.
  intros Htot Htrans. induction 1 as [|x l Hl IH Hx]; [constructor|]. simpl.
  assert (Forall (R x) (stable_sort le l)) as Hx' by (by rewrite stable_sort_perm). revert Hx' IH.
  generalize (stable_sort le l) as k. clear Hl Hx l. intros k Hx Hk.
  induction Hk as [|y k Hk IH Hy]; simpl; [by repeat constructor|]. apply Forall_cons in Hx as [Hxy Hx].
  destruct (le x y) eqn:Hle.
  - constructor; [by constructor|]. constructor; [done|]. rewrite Forall_forall in Hx, Hy |- *. intros z Hz.
    split; [|by intros _; apply Hx]. eapply Htrans; [done|]. by apply Hy.
  - constructor; [by apply IH|]. rewrite sorted_insert_perm. constructor; [|done].
    destruct (Htot x y) as [?|?]; [congruence|]. split; [done|]. congruence.
Qed.

Lemma stable_sort_unique l l' :
  (∀ x y, le x y = true ∨ le y x = true) → (∀ x y z, le x y = true → le y z = true → le x z = true) →
  (∀ x y, x ∈ l → y ∈ l → le x y = true → le y x = true → x = y) →
  l ≡ₚ l' → stable_sort le l = stable_sort le l'.
Proof.
  intros Htot Htrans Hanti Hp.
  assert (∀ k, StronglySorted (λ a b, le a b = true) (stable_sort le k)) as Hs.
  { intros k. assert (StronglySorted (λ _ _, True) k) as Hk by (induction k; constructor; [done|by apply Forall_true]).
    eapply (stable_sort_lex _ _ Htot Htrans) in Hk. induction Hk as [|a k' _ IH Ha]; constructor; [done|].
    eapply Forall_impl; [exact Ha|]. by intros ? []. }
  eapply (StronglySorted_unique_strong (λ a b, le a b = true)); [|apply Hs|apply Hs|by rewrite !stable_sort_perm].
  intros x y. rewrite !stable_sort_perm. rewrite <-Hp. apply Hanti.
Qed.
End sorting.

(** ** The order of the handlers *)

Section order.
Context {H : Type}.
Implicit Types exts : list (@ResolvedExtensionManifest H).

Lemma id_le_total (a b : @ResolvedExtensionManifest H) : id_le a b = true ∨ id_le b a = true.
Proof. unfold id_le. rewrite !bool_decide_eq_true. apply (total String.le). Qed.
Lemma id_le_trans (a b c : @ResolvedExtensionManifest H) : id_le a b = true → id_le b c = true → id_le a c = true.
Proof. unfold id_le. rewrite !bool_decide_eq_true. apply (transitivity (R:=String.le)). Qed.

Lemma ordered_unique exts exts' :
  exts ≡ₚ exts' → NoDup (rm_id <$> exts) → stable_sort id_le exts = stable_sort id_le exts'.
Proof.
  intros Hp Hn. apply stable_sort_unique; [apply id_le_total|apply id_le_trans| |done].
  intros x y Hx Hy. unfold id_le. rewrite !bool_decide_eq_true. intros Hxy Hyx.
  apply list_elem_of_lookup in Hx as [i Hi], Hy as [j Hj].
  assert (i = j) as ->; [|congruence]. eapply NoDup_lookup; [exact Hn|by rewrite list_lookup_fmap, Hi|].
  rewrite list_lookup_fmap, Hj. simpl. f_equal. by apply (anti_symm String.le).
Qed.

Lemma ordered_sorted exts : StronglySorted (λ a b, String.le (rm_id a) (rm_id b)) (stable_sort id_le exts).
Proof.
  assert (StronglySorted (λ _ _, True) exts) as Hs by (induction exts; constructor; [done|by apply Forall_true]).
  eapply (stable_sort_lex id_le _ _ id_le_total id_le_trans) in Hs.
  induction Hs as [|a l _ IH Ha]; constructor; [done|]. eapply Forall_impl; [exact Ha|].
  intros b [Hb _]. by apply bool_decide_eq_true in Hb.
Qed.

Lemma gather_cons {T} (f : @ExtensionRegistrations H → list T) m exts :
  gather f (m :: exts) = (pair (rm_id m) <$> f (rm_registrations m)) ++ gather f exts.
Proof. done. Qed.

Lemma gather_ids {T} (f : @ExtensionRegistrations H → list T) exts :
  Forall (λ x, ∃ m, m ∈ exts ∧ x.1 = rm_id m ∧ x.2 ∈ f (rm_registrations m)) (gather f exts).
Proof.
  apply Forall_forall. intros x Hx. apply list_elem_of_join in Hx as (l & Hx & (m & -> & Hm)%list_elem_of_fmap).
  apply list_elem_of_fmap in Hx as (t & -> & Ht). by exists m.
Qed.

Lemma gather_sorted {T} (f : @ExtensionRegistrations H → list T) exts :
  StronglySorted (λ a b, String.le (rm_id a) (rm_id b)) exts →
  StronglySorted (λ a b : string * T, String.le a.1 b.1) (gather f exts).
Proof.
  induction 1 as [|m exts _ IH Hm]; [constructor|]. rewrite gather_cons.
  induction (f (rm_registrations m)) as [|t l IHl]; [done|]. simpl. constructor; [done|].
  apply Forall_app. split.
  - apply Forall_fmap, Forall_true. intros t'. simpl. done.
  - eapply Forall_impl; [apply gather_ids|]. simpl. intros x (m' & Hm' & -> & _).
    rewrite Forall_forall in Hm. by apply Hm.
Qed.

Lemma gather_filter {T} (f : @ExtensionRegistrations H → list T) exts m :
  NoDup (rm_id <$> exts) → m ∈ exts →
  filter (λ x, x.1 = rm_id m) (gather f exts) = pair (rm_id m) <$> f (rm_registrations m).
Proof.
  intros Hn Hm. induction exts as [|e exts IH]; [set_solver|]. simpl in Hn. apply NoDup_cons in Hn as [He Hn].
  rewrite gather_cons, filter_app. apply elem_of_cons in Hm as [<-|Hm].
  - rewrite (filter_none (λ x, x.1 = rm_id m) (gather f exts)), app_nil_r.
    + apply filter_all, Forall_forall, Forall_fmap, Forall_true. by intros.
    + apply Forall_forall. eapply Forall_impl; [apply gather_ids|]. simpl. intros x (m' & Hm' & -> & _) Heq.
      apply He. rewrite <-Heq. by apply list_elem_of_fmap_2.
  - rewrite filter_none; [by apply IH|]. apply Forall_forall, Forall_fmap, Forall_true. simpl. intros _ Heq. apply He. rewrite Heq.
    by apply list_elem_of_fmap_2.
Qed.

Lemma gather_perm {T} (f : @ExtensionRegistrations H → list T) exts exts' : exts ≡ₚ exts' → gather f exts ≡ₚ gather f exts'.
Proof. intros Hp. unfold gather. by rewrite Hp. Qed.

Lemma prioritized_cons {T} (x : string * (Z * T)) l : prioritized (x :: l) = (x.2.1, (x.1, x.2.2)) :: prioritized l.
Proof. done. Qed.

(** The handler that runs earlier has the higher priority, or the same and the smaller id. *)
Definition runs_before {T} (a b : Z * (string * T)) : Prop :=
  (b.1 < a.1)%Z ∨ a.1 = b.1 ∧ String.le a.2.1 b.2.1.
End order.

Lemma priority_le_total {T} (a b : Z * T) : priority_le a b = true ∨ priority_le b a = true.
Proof. unfold priority_le. rewrite !bool_decide_eq_true. lia. Qed.
Lemma priority_le_trans {T} (a b c : Z * T) : priority_le a b = true → priority_le b c = true → priority_le a c = true.
Proof. unfold priority_le. rewrite !bool_decide_eq_true. lia. Qed.

(** Handlers run in one order, whatever the order in which their extensions were registered: the index of the same
    extensions is the same; a handler of higher priority runs first, among equal priorities the one whose extension has
    the smaller id, and those of one extension in the order in which it registered them; none is lost or doubled. *)
Theorem dispatch_order_is_fixed {H} (exts exts' : list (@ResolvedExtensionManifest H)) generation :
  exts ≡ₚ exts' → NoDup (rm_id <$> exts) →
  build_handler_index exts generation = build_handler_index exts' generation
  ∧ ∀ T (f : @ExtensionRegistrations H → list (Z * T)),
      let l := stable_sort priority_le (prioritized (gather f (stable_sort id_le exts))) in
      l ≡ₚ prioritized (gather f exts) ∧ StronglySorted runs_before l
      ∧ ∀ m p, m ∈ exts →
          filter (λ x, x.1 = p ∧ x.2.1 = rm_id m) l
          = (λ t, (t.1, (rm_id m, t.2))) <$> filter (λ t, t.1 = p) (f (rm_registrations m)).
Proof.
  intros Hp Hn. split.
  { unfold build_handler_index. rewrite (ordered_unique _ _ Hp Hn). f_equal. apply list_to_set_perm_L. by rewrite Hp. }
  intros T f l. split_and!.
  - unfold l. rewrite stable_sort_perm. unfold prioritized. rewrite (gather_perm f _ _ (stable_sort_perm id_le exts)). done.
  - assert (StronglySorted (λ a b : Z * (string * T), String.le a.2.1 b.2.1) (prioritized (gather f (stable_sort id_le exts)))) as Hs.
    { pose proof (gather_sorted f _ (ordered_sorted exts)) as Hs. unfold prioritized.
      induction Hs as [|a k _ IH Ha]; simpl; constructor; [done|]. by apply Forall_fmap. }
    apply (stable_sort_lex priority_le) in Hs; [|apply priority_le_total|apply priority_le_trans].
    fold l in Hs. induction Hs as [|a k _ IH Ha]; constructor; [done|]. eapply Forall_impl; [exact Ha|].
    unfold priority_le, runs_before. intros b. rewrite !bool_decide_eq_true. intros [Hle Heq].
    destruct (decide (b.1 < a.1)%Z); [by left|]. right. split; [lia|]. apply Heq. lia.
  - intros m p Hm. unfold l. rewrite stable_sort_filter.
    2:{ intros x y [Hx _] [Hy _]. unfold priority_le. apply bool_decide_eq_true. lia. }
    assert (filter (λ x, x.1 = rm_id m) (gather f (stable_sort id_le exts)) = pair (rm_id m) <$> f (rm_registrations m)) as Hg.
    { pose proof (stable_sort_perm id_le exts) as Hperm. apply gather_filter; [by rewrite Hperm|by rewrite Hperm]. }
    transitivity (filter (λ x : Z * (string * T), x.1 = p)
                    (prioritized (filter (λ x, x.1 = rm_id m) (gather f (stable_sort id_le exts))))).
    + clear. induction (gather f (stable_sort id_le exts)) as [|x g IH]; [done|].
      rewrite prioritized_cons, filter_cons, (filter_cons (λ x, x.1 = rm_id m)). cbn [fst snd].
      destruct (decide (x.1 = rm_id m)) as [Hx|Hx].
      * rewrite prioritized_cons, filter_cons. cbn [fst snd].
        destruct (decide (x.2.1 = p)), (decide (x.2.1 = p ∧ x.1 = rm_id m)); try tauto; by rewrite IH.
      * destruct (decide (x.2.1 = p ∧ x.1 = rm_id m)); [tauto|apply IH].
    + rewrite Hg. clear. induction (f (rm_registrations m)) as [|t k IH]; [done|].
      rewrite (filter_cons (λ t, t.1 = p)), fmap_cons, prioritized_cons, filter_cons. cbn [fst snd].
      destruct (decide (t.1 = p)); [rewrite fmap_cons|]; by rewrite IH.
Qed.

(** ** What is in the index *)

Lemma handlers_by_priority_elem {T} (l : list (Z * T)) x : x ∈ handlers_by_priority l ↔ ∃ p, (p, x) ∈ l.
Proof.
  unfold handlers_by_priority. rewrite list_elem_of_fmap. split.
  - intros ([p y] & -> & Hy). rewrite stable_sort_perm in Hy. by exists p.
  - intros [p Hp]. exists (p, x). split; [done|]. by rewrite stable_sort_perm.
Qed.

Lemma handlers_by_event_elem {K T} `{Countable K} (l : list (K * (Z * T))) k hs x :
  handlers_by_event l !! k = Some hs → x ∈ hs → ∃ p, (k, (p, x)) ∈ l.
Proof.
  unfold handlers_by_event.
  assert (∀ s, s ∈ stable_sort (λ a b, priority_le a.2 b.2) l → s ∈ l) as Hin by (intros s; by rewrite stable_sort_perm).
  revert Hin. generalize (stable_sort (λ a b : K * (Z * T), priority_le a.2 b.2) l) as s. intros s Hin.
  set (m0 := ∅ : gmap K (list T)). assert (∀ hs, m0 !! k = Some hs → x ∈ hs → ∃ p, (k, (p, x)) ∈ l) as H0 by done.
  clearbody m0. revert m0 hs H0. induction s as [|[k' [p y]] s IH]; intros m0 hs H0; simpl; [by apply H0|].
  apply IH; [intros; apply Hin; by right|]. intros hs'. destruct (decide (k' = k)) as [->|Hk].
  - rewrite lookup_insert_eq. intros [= <-]. rewrite elem_of_app, list_elem_of_singleton. intros [Hx| ->].
    + destruct (m0 !! k) as [hs''|] eqn:Hm; [|set_solver]. by apply (H0 hs'').
    + exists p. apply Hin. by left.
  - rewrite lookup_insert_ne by done. apply H0.
Qed.

Section contents.
Context {H : Type} (exts : list (@ResolvedExtensionManifest H)) (generation : N).
Local Abbreviation idx := (build_handler_index exts generation).

Lemma gathered_origin {T} (f : @ExtensionRegistrations H → list (Z * T)) x :
  x ∈ handlers_by_priority (prioritized (gather f (stable_sort id_le exts))) →
  ∃ m p, m ∈ exts ∧ x.1 = rm_id m ∧ (p, x.2) ∈ f (rm_registrations m).
Proof.
  intros (p & (y & Hy & Hin)%list_elem_of_fmap)%handlers_by_priority_elem. simplify_eq/=.
  pose proof (gather_ids f (stable_sort id_le exts)) as Hg. rewrite Forall_forall in Hg.
  destruct (Hg y Hin) as (m & Hm & Hid & Hy). rewrite stable_sort_perm in Hm. exists m, y.2.1. by destruct y as [? []].
Qed.

Lemma gathered_event_origin {K T} `{Countable K} (f : @ExtensionRegistrations H → list (K * (Z * T))) k hs x :
  handlers_by_event (prioritized_event (gather f (stable_sort id_le exts))) !! k = Some hs → x ∈ hs →
  ∃ m p, m ∈ exts ∧ x.1 = rm_id m ∧ (k, (p, x.2)) ∈ f (rm_registrations m).
Proof.
  intros Hl (p & (y & Hy & Hin)%list_elem_of_fmap)%(handlers_by_event_elem _ _ _ _ Hl). simplify_eq/=.
  pose proof (gather_ids f (stable_sort id_le exts)) as Hg. rewrite Forall_forall in Hg.
  destruct (Hg y Hin) as (m & Hm & Hid & Hy). rewrite stable_sort_perm in Hm. exists m, y.2.2.1. by destruct y as [? [? []]].
Qed.

Lemma known_id m : m ∈ exts → rm_id m ∈ hx_extensions idx.
Proof. intros Hm. simpl. apply elem_of_list_to_set. by apply list_elem_of_fmap_2. Qed.

(** Every handler of the index belongs to a generation of the index. *)
Definition known {T} (l : list (string * T)) : Prop := Forall (λ x, x.1 ∈ hx_extensions idx) l.

Lemma gathered_known {T} (f : @ExtensionRegistrations H → list (Z * T)) :
  known (handlers_by_priority (prioritized (gather f (stable_sort id_le exts)))).
Proof. apply Forall_forall. intros x (m & p & Hm & -> & _)%gathered_origin. by apply known_id. Qed.

Lemma gathered_event_known {K T} `{Countable K} (f : @ExtensionRegistrations H → list (K * (Z * T))) k hs :
  handlers_by_event (prioritized_event (gather f (stable_sort id_le exts))) !! k = Some hs → known hs.
Proof. intros Hl. apply Forall_forall. intros x Hx. destruct (gathered_event_origin f k hs x Hl Hx) as (m & p & Hm & -> & _). by apply known_id. Qed.

Lemma gathered_nil {T} (f : @ExtensionRegistrations H → list (Z * T)) :
  (∀ m, m ∈ exts → f (rm_registrations m) = []) →
  handlers_by_priority (prioritized (gather f (stable_sort id_le exts))) = [].
Proof.
  intros Hnil. destruct (handlers_by_priority _) as [|x l] eqn:Hl; [done|]. exfalso.
  destruct (gathered_origin f x) as (m & p & Hm & _ & Hin); [rewrite Hl; by left|]. rewrite Hnil in Hin by done. set_solver.
Qed.

Lemma gathered_event_nil {K T} `{Countable K} (f : @ExtensionRegistrations H → list (K * (Z * T))) :
  (∀ m, m ∈ exts → f (rm_registrations m) = []) →
  handlers_by_event (prioritized_event (gather f (stable_sort id_le exts))) = ∅.
Proof.
  intros Hnil. pose proof (gather_ids f (stable_sort id_le exts)) as Hg.
  destruct (gather f (stable_sort id_le exts)) as [|x l]; [done|]. apply Forall_cons in Hg as [(m & Hm & _ & Hx) _].
  rewrite stable_sort_perm in Hm. rewrite Hnil in Hx by done. set_solver.
Qed.
End contents.

(** ** One call *)

Section calls.
Context {H : Type} (env : HookEnv H) (idx : @HandlerIndex H).

(** What the dispatch makes of the answer of a handler. *)
Definition hook_answer {A} (n : nat) (extension_id : string) (run : nat → HookRun A) : result A ExtensionError :=
  if he_admitted env n extension_id then
    match run n with Run_done r => r | Run_timed_out => Err (Ext_Timeout (he_operation_timeout_ms env)) end
  else Err (Ext_Draining extension_id).

Definition call_made (n : nat) (extension_id : string) (h : H) (input : HookInput) : option (HookCall H) :=
  if he_admitted env n extension_id
  then Some {| hc_extension := extension_id; hc_handler := h; hc_input := input; hc_spawned := false |} else None.

Lemma run_recorded_hook_spec {A} id name h input (run : nat → HookRun A) w :
  id ∈ hx_extensions idx →
  ∃ w', run_recorded_hook env idx id name h input run w = (hook_answer (hw_clock w) id run, w')
    ∧ hw_clock w' = S (hw_clock w) ∧ hw_calls w' = hw_calls w ++ option_list (call_made (hw_clock w) id h input).
Proof.
  intros Hid. unfold run_recorded_hook, hook_answer, call_made. rewrite bool_decide_true by done. cbn [negb].
  destruct (he_admitted env (hw_clock w) id); cbn [negb].
  - destruct (run (hw_clock w)); eexists; by split_and!.
  - eexists. split_and!; [done..|]. simpl. by rewrite app_nil_r.
Qed.

Lemma make_hook_call_context_ok id w : id ∈ hx_extensions idx → make_hook_call_context idx id w = (Ok tt, w).
Proof. intros Hid. unfold make_hook_call_context. by rewrite bool_decide_true. Qed.

(** The handlers with the number of the call each would get. *)
Fixpoint number {T} (n : nat) (l : list T) : list (nat * T) :=
  match l with [] => [] | x :: l => (n, x) :: number (S n) l end.

(** The elements up to the first that satisfies [p], with it. *)
Fixpoint upto {T} (p : T → bool) (l : list T) : list T :=
  match l with [] => [] | x :: l => if p x then [x] else x :: upto p l end.

Definition matching {T} (tool_name : string) (l : list (string * (ToolHookTarget * T))) : list (string * (ToolHookTarget * T)) :=
  filter (λ x, target_matches x.2.1 tool_name = true) l.

(** ** The decision about a tool *)

Section tool.
Context (ctx : PreToolUsePayload).

Definition tool_answer (e : nat * (string * (ToolHookTarget * H))) : result PreToolUseResult ExtensionError :=
  hook_answer e.1 e.2.1 (λ n, he_pre_tool_use env n e.2.2.2 ctx).

Definition is_decisive (e : nat * (string * (ToolHookTarget * H))) : bool :=
  match tool_answer e with Err _ | Ok (PreTool_Block _) => true | _ => false end.

Definition question (e : nat * (string * (ToolHookTarget * H))) : option PreToolUseRequirement :=
  match tool_answer e with
  | Ok (PreTool_Ask prompt key) => Some {| pt_prompt := prompt; pt_rule_key := namespaced_key e.2.1 <$> key |}
  | _ => None
  end.

(** The first error or block decides; without one, all questions are asked. *)
Definition compose_answers (asked : list PreToolUseRequirement) (es : list (nat * (string * (ToolHookTarget * H))))
    : result PreToolUseAdmission ExtensionError :=
  match find_first is_decisive es with
  | Some e => match tool_answer e with
              | Err error => Err error
              | Ok (PreTool_Block reason) => Ok (Admission_Block reason)
              | Ok _ => Ok Admission_Allow
              end
  | None => Ok (match asked ++ omap question es with [] => Admission_Allow | l => Admission_Ask l end)
  end.

Lemma pre_tool_loop_spec l asked w :
  Forall (λ x, x.1 ∈ hx_extensions idx) l →
  let es := number (hw_clock w) (matching (pp_tool_name ctx) l) in
  ∃ w', pre_tool_loop env idx l ctx asked w = (compose_answers asked es, w')
    ∧ hw_calls w' = hw_calls w ++ omap (λ e, call_made e.1 e.2.1 e.2.2.2 (In_pre ctx)) (upto is_decisive es).
Proof.
  revert asked w. induction l as [|[id [target h]] l IH]; intros asked w Hl; simpl.
  { exists w. split; [|by rewrite app_nil_r]. unfold compose_answers, hret. simpl. rewrite app_nil_r. by destruct asked. }
  apply Forall_cons in Hl as [Hid Hl]. simpl in Hid. unfold matching. rewrite filter_cons. cbn [fst snd].
  destruct (target_matches target (pp_tool_name ctx)) eqn:Ht; cbn [negb].
  2:{ rewrite decide_False by done. by apply IH. }
  rewrite decide_True by done. fold (matching (pp_tool_name ctx) l). unfold hbind at 1.
  rewrite make_hook_call_context_ok by done. unfold hbind at 1.
  destruct (run_recorded_hook_spec id "pre_tool_use" h (In_pre ctx) (λ n, he_pre_tool_use env n h ctx) w Hid)
    as (w1 & -> & Hclock & Hcalls).
  cbn [number]. set (e := (hw_clock w, (id, (target, h)))).
  change (hook_answer (hw_clock w) id (λ n, he_pre_tool_use env n h ctx)) with (tool_answer e).
  change (call_made (hw_clock w) id h (In_pre ctx)) with (call_made e.1 e.2.1 e.2.2.2 (In_pre ctx)) in Hcalls.
  assert (is_decisive e = match tool_answer e with Err _ | Ok (PreTool_Block _) => true | _ => false end) as Hd by done.
  assert (question e = match tool_answer e with
            | Ok (PreTool_Ask prompt key) => Some {| pt_prompt := prompt; pt_rule_key := namespaced_key id <$> key |}
            | _ => None end) as Hq by done.
  assert (∀ k, omap (λ e, call_made e.1 e.2.1 e.2.2.2 (In_pre ctx)) (e :: k)
               = option_list (call_made e.1 e.2.1 e.2.2.2 (In_pre ctx)) ++ omap (λ e, call_made e.1 e.2.1 e.2.2.2 (In_pre ctx)) k) as Hom.
  { intros k. simpl. destruct (call_made _ _ _ _); done. }
  unfold compose_answers. cbn [find_first upto].
  destruct (tool_answer e) as [[|reason|prompt key]|error] eqn:Ha; rewrite Hd.
  - destruct (IH asked w1 Hl) as (w' & -> & Hc). rewrite Hclock in Hc. exists w'. split.
    + unfold compose_answers. rewrite Hclock. cbn [omap list_omap]. by rewrite Hq.
    + by rewrite Hom, Hc, Hcalls, app_assoc.
  - exists w1. split; [by rewrite Ha|]. rewrite Hom. simpl. by rewrite app_nil_r.
  - destruct (IH (asked ++ [{| pt_prompt := prompt; pt_rule_key := namespaced_key id <$> key |}]) w1 Hl) as (w' & -> & Hc).
    rewrite Hclock in Hc. exists w'. split.
    + unfold compose_answers. rewrite Hclock. cbn [omap list_omap]. rewrite Hq. by rewrite <-app_assoc.
    + by rewrite Hom, Hc, Hcalls, app_assoc.
  - exists w1. split; [by rewrite Ha|]. rewrite Hom. simpl. by rewrite app_nil_r.
Qed.
End tool.
End calls.

(** ** Keys *)

Lemma split_at_byte c a b a' b' :
  has_byte c a = false → has_byte c a' = false → a +:+ String c b = a' +:+ String c b' → a = a' ∧ b = b'.
Proof.
  revert a'. induction a as [|d a IH]; intros [|d' a'] Ha Ha' He; rewrite ?str_app_cons, ?str_app_nil_l in He.
  - by injection He.
  - injection He as -> _. rewrite has_byte_cons, bool_decide_true in Ha'; done.
  - injection He as -> _. rewrite has_byte_cons, bool_decide_true in Ha; done.
  - injection He as -> He. rewrite has_byte_cons in Ha, Ha'. apply orb_false_iff in Ha as [_ Ha], Ha' as [_ Ha'].
    by destruct (IH a' Ha Ha' He) as [-> ->].
Qed.

Lemma all_bytes_has p c s : all_bytes p s = true → p c = false → has_byte c s = false.
Proof.
  unfold all_bytes, has_byte. intros Ha Hc. apply not_true_iff_false. intros (d & Hd & ->%bool_decide_eq_true)%existsb_exists.
  eapply forallb_forall in Ha; [|exact Hd]. congruence.
Qed.

Lemma valid_id_no_colon id : validate_extension_id id = Ok tt → has_byte ":" id = false.
Proof.
  unfold validate_extension_id. destruct (is_empty _); [done|]. destruct id as [|c r]; [done|].
  destruct (is_ascii_alphanumeric c) eqn:Hc; [|done]. simpl. destruct (all_bytes _ r) eqn:Hr; [|done]. intros _.
  rewrite has_byte_cons. apply orb_false_iff. split; [|by eapply all_bytes_has].
  apply bool_decide_eq_false. intros ->. done.
Qed.

Lemma registry_ids {H} supports str_debug (exts : list (@ResolvedExtensionManifest H)) :
  registry supports str_debug exts → Forall (λ m, validate_extension_id (rm_id m) = Ok tt) exts.
Proof.
  induction 1 as [|exts m calls m' r _ IH Hid Hfin Hcon|exts exts' _ IH Hs]; [constructor| |by eapply sublist_Forall].
  apply Forall_app. split; [done|]. constructor; [|constructor]. apply finish_ok in Hfin as (-> & Hm & _).
  unfold manifest_validate in Hm. unfold rm_id. simpl. by destruct (validate_extension_id (em_id m)) as [[]|].
Qed.

Lemma namespaced_key_inj id1 id2 k1 k2 :
  validate_extension_id id1 = Ok tt → validate_extension_id id2 = Ok tt →
  namespaced_key id1 k1 = namespaced_key id2 k2 → id1 = id2 ∧ k1 = k2.
Proof.
  intros H1%valid_id_no_colon H2%valid_id_no_colon He. unfold namespaced_key in He.
  apply (inj (String.append "extension:")) in He. by eapply (split_at_byte ":").
Qed.

(** C7. The decision about a tool call is composed of what the extensions answer: of the handlers that look at the tool,
    in their order, the first error or block decides and nobody behind it is asked; otherwise the call is allowed if nobody
    asks a question, and else every question asked is kept, in order.  All handlers see the same arguments, every one
    asked belongs to an extension that declared that it intercepts tools, and the keys of two extensions never coincide. *)
Theorem tool_decision_composed {H} supports str_debug (exts : list (@ResolvedExtensionManifest H)) generation (env : HookEnv H)
    (ctx : PreToolUsePayload) (w : HookWorld H) :
  registry supports str_debug exts →
  let idx := build_handler_index exts generation in
  let es := number (hw_clock w) (matching (pp_tool_name ctx) (hx_pre_tool_use idx)) in
  let asked := upto (is_decisive env ctx) es in
  ∃ w', emit_pre_tool_use env idx ctx w = (compose_answers env ctx [] es, w')
    ∧ hw_calls w' = hw_calls w ++ omap (λ e, call_made env e.1 e.2.1 e.2.2.2 (In_pre ctx)) asked
    ∧ Forall (λ e, ∃ m, m ∈ exts ∧ rm_id m = e.2.1 ∧ Cap_ToolIntercept ∈ em_capabilities (rm_author m)) es
    ∧ ∀ m1 m2 k1 k2, m1 ∈ exts → m2 ∈ exts → namespaced_key (rm_id m1) k1 = namespaced_key (rm_id m2) k2 →
        rm_id m1 = rm_id m2 ∧ k1 = k2.
Proof.
  intros Hreg idx es asked.
  destruct (pre_tool_loop_spec env idx ctx (hx_pre_tool_use idx) [] w) as (w' & Hrun & Hcalls); [apply gathered_known|].
  exists w'. split_and!; [exact Hrun|exact Hcalls|..].
  - pose proof (registry_hooks _ _ _ Hreg) as Hh. rewrite Forall_forall in Hh.
    assert (∀ x, x ∈ matching (pp_tool_name ctx) (hx_pre_tool_use idx) →
              ∃ m, m ∈ exts ∧ rm_id m = x.1 ∧ Cap_ToolIntercept ∈ em_capabilities (rm_author m)) as Hall.
    { intros x [_ Hx]%list_elem_of_filter. apply gathered_origin in Hx as (m & p & Hm & Hid & Hin). exists m.
      split_and!; [done..|]. destruct (Hh m Hm) as (Hcap & _). apply Hcap. right. intros Hnil.
      unfold pre_tool_regs in Hin. rewrite Hnil in Hin. set_solver. }
    unfold es. revert Hall. generalize (hw_clock w) as n, (matching (pp_tool_name ctx) (hx_pre_tool_use idx)) as l.
    clear. intros n l. revert n. induction l as [|x l IH]; intros n Hall; [constructor|].
    constructor; [apply Hall; by left|]. apply IH. intros y Hy. apply Hall. by right.
  - intros m1 m2 k1 k2 H1 H2. pose proof (registry_ids _ _ _ Hreg) as Hids. rewrite Forall_forall in Hids.
    apply namespaced_key_inj; by apply Hids.
Qed.

(** ** Hooks that only observe *)

Section observed.
Context {H : Type} (env : HookEnv H) (idx : @HandlerIndex H).

Lemma dispatch_observed {A} id name mode h input (run : nat → HookRun A) w :
  mode ≠ Hook_Blocking → id ∈ hx_extensions idx →
  ∃ w', dispatch_hook_by_mode env idx id name mode h input run w = (Ok None, w').
Proof.
  intros Hm Hid. destruct mode; [done|..]; simpl; unfold hbind.
  - unfold spawn_hook. rewrite bool_decide_true by done. by eexists.
  - by eexists.
Qed.

Lemma provider_loop_observed event (l : list (string * (HookMode * H))) ctx w :
  Forall (λ x, x.1 ∈ hx_extensions idx) l → Forall (λ x, x.2.1 ≠ Hook_Blocking) l →
  (provider_loop env idx event l ctx false w).1 = Ok Provider_Allow.
Proof.
  intros Hl Hm. revert w. induction l as [|[id [mode h]] l IH]; intros w; [done|].
  apply Forall_cons in Hl as [Hid Hl], Hm as [Hmode Hm]. simpl. unfold hbind at 1. rewrite make_hook_call_context_ok by done.
  unfold hbind at 1.
  destruct (dispatch_observed id (provider_hook_name event) mode h (In_provider event ctx)
              (λ n, he_provider env n h event ctx) w Hmode Hid) as [w' ->]. by apply IH.
Qed.

Lemma lifecycle_loop_observed event (l : list (string * (HookMode * H))) w :
  Forall (λ x, x.1 ∈ hx_extensions idx) l → Forall (λ x, x.2.1 ≠ Hook_Blocking) l →
  (lifecycle_loop env idx event l w).1 = Ok tt.
Proof.
  intros Hl Hm. revert w. induction l as [|[id [mode h]] l IH]; intros w; [done|].
  apply Forall_cons in Hl as [Hid Hl], Hm as [Hmode Hm]. simpl. unfold hbind at 1. rewrite make_hook_call_context_ok by done.
  unfold hbind at 1.
  destruct (dispatch_observed id "lifecycle" mode h (In_lifecycle event) (λ n, he_lifecycle env n h event) w Hmode Hid)
    as [w' ->]. by apply IH.
Qed.

Lemma post_tool_loop_observed (l : list (string * (HookMode * ToolHookTarget * H))) ctx w :
  Forall (λ x, x.1 ∈ hx_extensions idx) l → Forall (λ x, x.2.1.1 ≠ Hook_Blocking) l →
  (post_tool_loop env idx l ctx false w).1 = Ok Post_Allow.
Proof.
  intros Hl Hm. revert w. induction l as [|[id [[mode target] h]] l IH]; intros w; [done|].
  apply Forall_cons in Hl as [Hid Hl], Hm as [Hmode Hm]. simpl. destruct (negb _); [by apply IH|].
  unfold hbind at 1. rewrite make_hook_call_context_ok by done. unfold hbind at 1.
  destruct (dispatch_observed id "post_tool_use" mode h (In_post ctx) (λ n, he_post_tool_use env n h ctx) w Hmode Hid)
    as [w' ->]. by apply IH.
Qed.
End observed.

Section undeclared.
Context {H : Type} (exts : list (@ResolvedExtensionManifest H)) (generation : N).
Context (Hdeclared : ∀ m, m ∈ exts → hooks_declared m).

Let idx := build_handler_index exts generation.
Let undeclared (c : ExtensionCapability) : Prop := ∀ m, m ∈ exts → c ∉ em_capabilities (rm_author m).

Lemma response_hooks_observe hs : hx_provider idx !! AfterResponse = Some hs → Forall (λ x, x.2.1 ≠ Hook_Blocking) hs.
Proof.
  intros Hp. apply Forall_forall. intros x Hx.
  destruct (gathered_event_origin exts provider_regs AfterResponse hs x Hp Hx) as (m & p & Hm & _ & Hin).
  destruct (Hdeclared m Hm) as (_ & _ & _ & _ & _ & _ & Hadv). unfold provider_regs in Hin. destruct x as [id [mode' h']].
  apply list_elem_of_fmap in Hin as ([[[e mode] q] h] & Heq & Hin). simplify_eq/=. rewrite Forall_forall in Hadv.
  specialize (Hadv _ Hin eq_refl). simpl in Hadv. congruence.
Qed.

Lemma lifecycle_hooks_observe event hs :
  event ≠ On_TurnStart → event ≠ On_UserPromptSubmit → hx_lifecycle idx !! event = Some hs →
  Forall (λ x, x.2.1 ≠ Hook_Blocking) hs.
Proof.
  intros H1 H2 Hp. apply Forall_forall. intros x Hx.
  destruct (gathered_event_origin exts lifecycle_regs event hs x Hp Hx) as (m & p & Hm & _ & Hin).
  destruct (Hdeclared m Hm) as (_ & _ & _ & _ & _ & Hlife & _). unfold lifecycle_regs in Hin. destruct x as [id [mode' h']].
  apply list_elem_of_fmap in Hin as ([[[e mode] q] h] & Heq & Hin). simplify_eq/=. rewrite Forall_forall in Hlife.
  specialize (Hlife _ Hin). simpl in *. intros ->. by destruct (Hlife eq_refl).
Qed.

Lemma no_interceptors :
  undeclared Cap_ToolIntercept →
  hx_pre_tool_use idx = [] ∧ hx_tool_input_transform idx = []
  ∧ Forall (λ x, x.2.1.1 ≠ Hook_Blocking) (hx_post_tool_use idx).
Proof.
  intros Hno. split_and!.
  - apply gathered_nil. intros m Hm. destruct (Hdeclared m Hm) as (Hcap & _). unfold pre_tool_regs.
    destruct (rg_pre_tool_use (rm_registrations m)); [done|]. destruct (Hno _ Hm). apply Hcap. by right.
  - apply gathered_nil. intros m Hm. destruct (Hdeclared m Hm) as (Hcap & _). unfold transform_regs.
    destruct (rg_tool_input_transform (rm_registrations m)); [done|]. destruct (Hno _ Hm). apply Hcap. by left.
  - apply Forall_forall. intros x Hx Hmode.
    destruct (gathered_origin _ _ _ Hx) as (m & p & Hm & _ & Hin). destruct (Hdeclared m Hm) as (_ & Hcap & _).
    destruct (Hno _ Hm). apply Hcap. unfold post_tool_regs in Hin. apply list_elem_of_fmap in Hin as (t & Heq & Hin).
    apply Exists_exists. exists t. split; [done|]. by destruct x as [? [[? ?] ?]]; simplify_eq/=.
Qed.

Lemma no_request_hooks :
  undeclared Cap_ProviderRequest →
  hx_provider idx !! BeforeRequest = None ∧ hx_provider_contributions idx = [] ∧ hx_user_message_envelope idx = [].
Proof.
  intros Hno.
  assert (∀ m, m ∈ exts → rg_provider (rm_registrations m) = [] ∧ rg_provider_contributions (rm_registrations m) = []
            ∧ rg_user_message_envelope (rm_registrations m) = []) as Hnil.
  { intros m Hm. destruct (Hdeclared m Hm) as (_ & _ & Hcap & _). pose proof (Hno _ Hm) as Hn.
    destruct (rg_provider _), (rg_provider_contributions _), (rg_user_message_envelope _); try by split_and!.
    all: exfalso; apply Hn, Hcap; naive_solver. }
  split_and!.
  - simpl. rewrite (gathered_event_nil exts provider_regs); [done|]. intros m Hm. unfold provider_regs.
    by destruct (Hnil m Hm) as (-> & _).
  - apply gathered_nil. by apply Hnil.
  - apply gathered_nil. intros m Hm. unfold envelope_regs. by destruct (Hnil m Hm) as (_ & _ & ->).
Qed.

Lemma no_compaction_hooks :
  undeclared Cap_SessionHistory → hx_pre_compact idx = [] ∧ hx_post_compact idx = [].
Proof.
  intros Hc. split; apply gathered_nil; intros m Hm; destruct (Hdeclared m Hm) as (_ & _ & _ & Hcap & _).
  - destruct (rg_pre_compact (rm_registrations m)); [done|]. destruct (Hc m Hm). apply Hcap. by left.
  - destruct (rg_post_compact (rm_registrations m)); [done|]. destruct (Hc m Hm). apply Hcap. by right.
Qed.
End undeclared.

(** C8. What an extension may do follows from what it declared: hooks on the response of the provider and on lifecycle
    events other than the start of a turn and the submission of a prompt change nothing, whatever they answer; without an
    extension that intercepts tools, calls are allowed with the arguments and results they have; without one that may
    change provider requests, requests and messages stay as they are; and so for compaction, before and after it, and for
    continuation.  (A hook behind a compaction of an extension that does have the history is not covered: its error is
    passed on.) *)
Theorem observers_change_nothing {H} supports str_debug (exts : list (@ResolvedExtensionManifest H)) generation (env : HookEnv H)
    (w : HookWorld H) :
  registry supports str_debug exts →
  let idx := build_handler_index exts generation in
  let nobody c := Forall (λ m, c ∉ em_capabilities (rm_author m)) exts in
  (∀ ctx, (emit_provider env idx AfterResponse ctx w).1 = Ok Provider_Allow)
  ∧ (∀ event, event ≠ On_TurnStart → event ≠ On_UserPromptSubmit → (emit_lifecycle env idx event w).1 = Ok tt)
  ∧ (nobody Cap_ToolIntercept →
       (∀ ctx, emit_pre_tool_use env idx ctx w = (Ok Admission_Allow, w))
       ∧ (∀ ctx, transform_tool_input env idx ctx w = (Ok (pp_tool_input ctx), w))
       ∧ (∀ ctx, (emit_post_tool_use env idx ctx w).1 = Ok Post_Allow))
  ∧ (nobody Cap_ProviderRequest →
       (∀ ctx, prepare_provider_request env idx ctx w = (Ok (Provider_Allow, []), w))
       ∧ (∀ ctx, emit_user_message_envelope env idx ctx w = (Ok Envelope_Allow, w)))
  ∧ (nobody Cap_SessionHistory →
       (∀ trigger source, collect_pre_compact env idx trigger source w = (Ok Pre_Allow, w))
       ∧ (∀ r, notify_post_compact env idx r w = (Ok tt, w)))
  ∧ (nobody Cap_TurnContinuationControl → ∀ ctx, emit_continue_after_stop env idx ctx w = (Ok EndTurn, w)).
Proof.
  intros Hreg idx nobody. pose proof (registry_hooks _ _ _ Hreg) as Hh. rewrite Forall_forall in Hh.
  assert (∀ c m, nobody c → m ∈ exts → c ∉ em_capabilities (rm_author m)) as Hno.
  { intros c m Hc Hm. unfold nobody in Hc. rewrite Forall_forall in Hc. by apply Hc. }
  split_and!.
  - intros ctx. unfold emit_provider. destruct (hx_provider idx !! AfterResponse) as [hs|] eqn:Hp; [|done].
    apply provider_loop_observed; [exact (gathered_event_known exts generation provider_regs AfterResponse hs Hp)|].
    by apply (response_hooks_observe exts generation Hh).
  - intros event H1 H2. unfold emit_lifecycle. destruct (hx_lifecycle idx !! event) as [hs|] eqn:Hp; [|done].
    apply lifecycle_loop_observed; [exact (gathered_event_known exts generation lifecycle_regs event hs Hp)|].
    by apply (lifecycle_hooks_observe exts generation Hh event).
  - intros Hc. destruct (no_interceptors exts generation Hh (λ m, Hno _ m Hc)) as (Hpre & Htr & Hpost). fold idx in Hpre, Htr, Hpost.
    split_and!; [intros ctx; unfold emit_pre_tool_use; by rewrite Hpre|intros ctx; unfold transform_tool_input; by rewrite Htr|].
    intros ctx. by apply post_tool_loop_observed; [apply gathered_known|].
  - intros Hc. destruct (no_request_hooks exts generation Hh (λ m, Hno _ m Hc)) as (Hp & Hcon & Henv). fold idx in Hp, Hcon, Henv.
    split; intros ctx.
    + unfold prepare_provider_request, hbind, emit_provider. rewrite Hp. simpl apply_provider_result. cbv iota beta. by rewrite Hcon.
    + unfold emit_user_message_envelope. by rewrite Henv.
  - intros Hc. unfold collect_pre_compact, notify_post_compact.
    destruct (no_compaction_hooks exts generation Hh (λ m, Hno _ m Hc)) as (Hpre & Hpost). fold idx in Hpre, Hpost.
    rewrite Hpre, Hpost. done.
  - intros Hc ctx. unfold emit_continue_after_stop.
    replace (hx_continue_after_stop idx) with (@nil (string * (ContinueAfterStopLimit * H))); [done|].
    symmetry. apply gathered_nil. intros m Hm. destruct (Hh m Hm) as (_ & _ & _ & _ & Hcap & _). unfold continue_regs.
    destruct (rg_continue_after_stop (rm_registrations m)); [done|]. destruct (Hno _ _ Hc Hm). by apply Hcap.
Qed.

(** ** Contributions to a request *)

Section contributions.
Context {H : Type} (env : HookEnv H) (idx : @HandlerIndex H).

Definition contribution_effect (c : option PreparedProviderContribution) (ctx : ProviderPayload) : ProviderPayload :=
  match pc_effect <$> c with
  | Some (Effect_ReplaceMessages messages) => replace_messages messages ctx
  | Some (Effect_AppendMessages messages) => append_messages messages ctx
  | _ => ctx
  end.
Definition contribution_changes (c : option PreparedProviderContribution) : bool :=
  match pc_effect <$> c with Some (Effect_ReplaceMessages _ | Effect_AppendMessages _) => true | _ => false end.

(** Every handler prepares on the messages the ones before it left; what is prepared is to be acknowledged. *)
Inductive contributed : nat → ProviderPayload → bool → list (string * H) → list (HookCall H) →
    @Acknowledgements H → ProviderPayload → bool → Prop :=
| contributed_nil n ctx m : contributed n ctx m [] [] [] ctx m
| contributed_cons n ctx m id h l c calls acks ctx' m' :
  he_admitted env n id = true → he_prepare env n h ctx = Run_done (Ok c) →
  contributed (S n) (contribution_effect c ctx) (m || contribution_changes c) l calls acks ctx' m' →
  contributed n ctx m ((id, h) :: l)
    ({| hc_extension := id; hc_handler := h; hc_input := In_contribution ctx; hc_spawned := false |} :: calls)
    (option_list ((λ c, (id, h, pc_contribution_id c)) <$> c) ++ acks) ctx' m'.

Lemma contribution_loop_spec l ctx m acks w r acks' w' :
  Forall (λ x, x.1 ∈ hx_extensions idx) l →
  contribution_loop env idx l ctx m acks w = (Ok (r, acks'), w') →
  ∃ calls new ctx' m', contributed (hw_clock w) ctx m l calls new ctx' m'
    ∧ acks' = acks ++ new ∧ r = provider_outcome ctx' m' ∧ hw_calls w' = hw_calls w ++ calls.
Proof.
  intros Hl. revert ctx m acks w Hl. induction l as [|[id h] l IH]; intros ctx m acks w Hl; simpl.
  { intros [= <- <- <-]. exists [], [], ctx, m. rewrite !app_nil_r. split_and!; [constructor|done..]. }
  apply Forall_cons in Hl as [Hid Hl]. simpl in Hid. unfold hbind at 1. rewrite make_hook_call_context_ok by done.
  unfold hbind at 1.
  destruct (run_recorded_hook_spec env idx id "provider_contribution_prepare" h (In_contribution ctx)
              (λ n, he_prepare env n h ctx) w Hid) as (w1 & -> & Hclock & Hcalls).
  unfold hook_answer, call_made in *. destruct (he_admitted env (hw_clock w) id) eqn:Hadm; [|done].
  destruct (he_prepare env (hw_clock w) h ctx) as [[c|e]|] eqn:Hprep; [|done..].
  assert (∀ acks0, contribution_loop env idx l (contribution_effect c ctx) (m || contribution_changes c) acks0 w1
            = (Ok (r, acks'), w') → acks0 = acks ++ option_list ((λ c, (id, h, pc_contribution_id c)) <$> c) →
          ∃ calls new ctx' m', contributed (hw_clock w) ctx m ((id, h) :: l) calls new ctx' m'
            ∧ acks' = acks ++ new ∧ r = provider_outcome ctx' m' ∧ hw_calls w' = hw_calls w ++ calls) as Hnext.
  { intros acks0 Hrun ->. apply IH in Hrun as (calls & new & ctx' & m' & Hcon & -> & -> & Hc); [|done].
    rewrite Hclock in Hcon. do 4 eexists. split; [by eapply contributed_cons|]. rewrite <-app_assoc. split_and!; [done..|].
    by rewrite Hc, Hcalls, <-app_assoc. }
  destruct c as [c|].
  - unfold contribution_effect, contribution_changes in Hnext. simpl in Hnext.
    destruct (pc_effect c); rewrite ?orb_false_r, ?orb_true_r in Hnext; intros Hrun; by eapply Hnext.
  - unfold contribution_effect, contribution_changes in Hnext. simpl in Hnext. rewrite orb_false_r in Hnext.
    intros Hrun. eapply Hnext; [done|]. by rewrite app_nil_r.
Qed.

Lemma contributed_known n ctx m l calls acks ctx' m' :
  contributed n ctx m l calls acks ctx' m' → Forall (λ x, x.1 ∈ hx_extensions idx) l →
  Forall (λ a, a.1.1 ∈ hx_extensions idx) acks.
Proof.
  induction 1 as [|n ctx m id h l c calls acks ctx' m' _ _ _ IH]; [done|]. intros [Hid Hl]%Forall_cons.
  apply Forall_app. split; [|by apply IH]. destruct c; by repeat constructor.
Qed.

(** ** Acknowledgement *)

Definition ack_answer (request_id : string) (e : nat * (string * H * string)) : result unit ExtensionError :=
  hook_answer env e.1 e.2.1.1 (λ n, he_acknowledge env n e.2.1.2 request_id e.2.2).
Definition ack_call (request_id : string) (e : nat * (string * H * string)) : option (HookCall H) :=
  call_made env e.1 e.2.1.1 e.2.1.2 (In_settlement request_id e.2.2).
Definition error_of {A} (r : result A ExtensionError) : option ExtensionError :=
  match r with Ok _ => None | Err e => Some e end.

Lemma acknowledge_loop_spec request_id (acks : @Acknowledgements H) first_error w :
  Forall (λ a, a.1.1 ∈ hx_extensions idx) acks →
  let es := number (hw_clock w) acks in
  ∃ w', acknowledge_loop env idx request_id acks first_error w
      = (match head (option_list first_error ++ omap (error_of ∘ ack_answer request_id) es) with
         | Some e => Err e | None => Ok tt end, w')
    ∧ hw_calls w' = hw_calls w ++ omap (ack_call request_id) es.
Proof.
  revert first_error w. induction acks as [|[[id h] cid] acks IH]; intros first_error w Hl; simpl.
  { exists w. rewrite !app_nil_r. by destruct first_error. }
  apply Forall_cons in Hl as [Hid Hl]. simpl in Hid. unfold hbind. rewrite make_hook_call_context_ok by done.
  destruct (run_recorded_hook_spec env idx id "provider_contribution_acknowledge" h (In_settlement request_id cid)
              (λ n, he_acknowledge env n h request_id cid) w Hid) as (w1 & -> & Hclock & Hcalls).
  set (e := (hw_clock w, (id, h, cid))).
  change (hook_answer env (hw_clock w) id (λ n, he_acknowledge env n h request_id cid)) with (ack_answer request_id e).
  change (call_made env (hw_clock w) id h (In_settlement request_id cid)) with (ack_call request_id e) in Hcalls.
  match goal with |- context [acknowledge_loop _ _ _ _ ?f w1] => set (fe := f) end.
  destruct (IH fe w1 Hl) as (w' & -> & Hc). rewrite Hclock in *. exists w'. split.
  - f_equal. subst fe. unfold compose. destruct (ack_answer request_id e), first_error; done.
  - rewrite Hc, Hcalls, <-app_assoc. f_equal. by destruct (ack_call request_id e).
Qed.
End contributions.

(** C25. What extensions contribute to a request is settled once: a request that is prepared and not blocked carries the
    effects of all contributions, each made on the messages the ones before left, and the acknowledgements are those of
    the contributions made, in their order; acknowledging them calls each handler once for its contribution, in that
    order, whether or not others fail, and reports the first failure; a blocked request has nothing to acknowledge. *)
Theorem contributions_settled_once {H} (exts : list (@ResolvedExtensionManifest H)) generation (env : HookEnv H) ctx w r acks w1 :
  let idx := build_handler_index exts generation in
  prepare_provider_request env idx ctx w = (Ok (r, acks), w1) →
  ((∃ reason, r = Provider_Block reason ∧ acks = [])
   ∨ ∃ r0 w0 calls ctx1 changed,
       emit_provider env idx BeforeRequest ctx w = (Ok r0, w0)
       ∧ contributed env (hw_clock w0) (apply_provider_result r0 ctx).1 (apply_provider_result r0 ctx).2
           (hx_provider_contributions idx) calls acks ctx1 changed
       ∧ r = provider_outcome ctx1 changed ∧ hw_calls w1 = hw_calls w0 ++ calls)
  ∧ ∀ request_id w2, ∃ w3,
      acknowledge_provider_request env idx request_id acks w2
      = (match omap (error_of ∘ ack_answer env request_id) (number (hw_clock w2) acks) with
         | e :: _ => Err e | [] => Ok tt end, w3)
      ∧ hw_calls w3 = hw_calls w2 ++ omap (ack_call env request_id) (number (hw_clock w2) acks).
Proof.
  intros idx Hprep. unfold prepare_provider_request, hbind in Hprep.
  destruct (emit_provider env idx BeforeRequest ctx w) as [[r0|e0] w0] eqn:He; [|done].
  assert (Forall (λ x, x.1 ∈ hx_extensions idx) (hx_provider_contributions idx)) as Hknown by apply gathered_known.
  assert ((∃ reason, r = Provider_Block reason ∧ acks = [])
          ∨ ∃ calls ctx1 changed,
              contributed env (hw_clock w0) (apply_provider_result r0 ctx).1 (apply_provider_result r0 ctx).2
                (hx_provider_contributions idx) calls acks ctx1 changed
              ∧ r = provider_outcome ctx1 changed ∧ hw_calls w1 = hw_calls w0 ++ calls) as Hcase.
  { destruct r0 as [|reason|ms|ms]; simpl in Hprep |- *.
    2:{ left. injection Hprep as <- <- _. by exists reason. }
    all: right; apply contribution_loop_spec in Hprep as (calls & new & ctx1 & m1 & Hcon & -> & -> & Hc); [|done];
      by exists calls, ctx1, m1. }
  split.
  - destruct Hcase as [?|(calls & ctx1 & changed & ?)]; [by left|right]. by exists r0, w0, calls, ctx1, changed.
  - intros request_id w2. assert (Forall (λ a, a.1.1 ∈ hx_extensions idx) acks) as Hacks.
    { destruct Hcase as [(reason & _ & ->)|(calls & ctx1 & changed & Hcon & _)]; [constructor|].
      by eapply contributed_known. }
    destruct (acknowledge_loop_spec env idx request_id acks None w2 Hacks) as (w3 & Hrun & Hc). exists w3.
    split; [|exact Hc]. unfold acknowledge_provider_request. rewrite Hrun. simpl. by destruct (omap _ _).
Qed.

(** ** A dispatch *)

Module HooksSample.
Import RegistrySample.

(** Handler 4 asks; contributions append a message and have an id; the second acknowledgement fails. *)
Definition env : HookEnv nat :=
  {| he_operation_timeout_ms := 5000; he_admitted := λ _ _, true; he_elapsed_ms := λ _, 1%N;
     he_transform := λ _ _ _, Run_done (Ok Transform_Unchanged);
     he_pre_tool_use := λ _ h _, Run_done (Ok (if bool_decide (h = 4) then PreTool_Ask "run it?" (Some "shell"%string) else PreTool_Allow));
     he_post_tool_use := λ _ _ _, Run_done (Ok Post_Allow);
     he_provider := λ _ _ _ _, Run_done (Ok Provider_Allow);
     he_prepare := λ _ h _, Run_done (Ok (if bool_decide (h = 7) then None
       else Some {| pc_contribution_id := pretty (N.of_nat h); pc_effect := Effect_Unchanged |}));
     he_acknowledge := λ _ h _ _, if bool_decide (h = 9) then Run_timed_out else Run_done (Ok tt);
     he_prompt_build := λ _ _ _, Run_done (Ok no_prompt_contributions);
     he_pre_compact := λ _ _ _ _, Run_done (Ok Pre_Allow);
     he_post_compact := λ _ _ _, Run_done (Ok tt);
     he_continue_after_stop := λ _ _ _, Run_done (Ok EndTurn);
     he_envelope := λ _ _ _, Run_done (Ok Envelope_Allow);
     he_lifecycle := λ _ _ _, Run_done (Ok (Hook_Block "no")) |}.

Definition ctx : PreToolUsePayload :=
  {| pp_call_id := "c1"; pp_tool_name := "shell"; pp_tool_input := JNull; pp_approval_mode := ApprovalMode_Manual;
     pp_available_tools := [] |}.
Definition world : HookWorld nat := {| hw_clock := 0; hw_diagnostics := ∅; hw_calls := [] |}.

Lemma tool_decision_composed_witness :
  ∃ w', emit_pre_tool_use env (build_handler_index exts 1) ctx world
        = (Ok (Admission_Ask [{| pt_prompt := "run it?"; pt_rule_key := Some "extension:notes:shell"%string |}]), w')
    ∧ hw_calls w' = [{| hc_extension := "notes"; hc_handler := 4; hc_input := In_pre ctx; hc_spawned := false |}].
Proof.
  destruct (tool_decision_composed supports str_debug exts 1 env ctx world exts_registered) as (w' & Hrun & Hcalls & _).
  exists w'. split; [etransitivity; [exact Hrun|vm_compute; reflexivity]|etransitivity; [exact Hcalls|vm_compute; reflexivity]].
Defined.

Lemma observers_change_nothing_witness :
  (emit_lifecycle env (build_handler_index exts 1) On_TurnEnd world).1 = Ok tt
  ∧ prepare_provider_request env (build_handler_index exts 1) {| vp_request_id := "r"; vp_messages := [] |} world
    = (Ok (Provider_Allow, []), world).
Proof.
  destruct (observers_change_nothing supports str_debug exts 1 env world exts_registered) as (_ & Hlife & _ & Hreq & _).
  split; [by apply Hlife|]. apply Hreq. apply (bool_decide_unpack _). vm_compute. exact I.
Defined.

(** Two extensions whose handlers contribute; the first of handler 9, at a lower priority. *)
Definition contributors : list (@ResolvedExtensionManifest nat) :=
  [resolved (manifest "zeta" [Cap_ProviderRequest]) [R_on_provider_contribution 1 9; R_on_provider_contribution 5 7];
   resolved (manifest "alpha" [Cap_ProviderRequest]) [R_on_provider_contribution 1 11]].
Definition request : ProviderPayload := {| vp_request_id := "r"; vp_messages := [] |}.

Lemma contributions_settled_once_witness :
  ∃ w1 w3,
    prepare_provider_request env (build_handler_index contributors 1) request world
    = (Ok (Provider_Allow, [("alpha"%string, 11, "11"%string); ("zeta"%string, 9, "9"%string)]), w1)
    ∧ acknowledge_provider_request env (build_handler_index contributors 1) "r"
        [("alpha"%string, 11, "11"%string); ("zeta"%string, 9, "9"%string)] w1 = (Err (Ext_Timeout 5000), w3).
Proof.
  destruct (prepare_provider_request env (build_handler_index contributors 1) request world) as [r w1] eqn:Hrun.
  assert (r = Ok (Provider_Allow, [("alpha"%string, 11, "11"%string); ("zeta"%string, 9, "9"%string)])) as ->.
  { change r with (r, w1).1. rewrite <-Hrun. vm_compute. reflexivity. }
  destruct (contributions_settled_once contributors 1 env request world _ _ w1 Hrun) as [_ Hack].
  destruct (Hack "r"%string w1) as (w3 & Hw3 & _). exists w1, w3. split; [done|]. rewrite Hw3. done.
Defined.

Lemma dispatch_order_is_fixed_witness :
  hx_provider_contributions (build_handler_index contributors 1)
  = hx_provider_contributions (build_handler_index (reverse contributors) 1)
  ∧ hx_provider_contributions (build_handler_index contributors 1) = [("zeta"%string, 7); ("alpha"%string, 11); ("zeta"%string, 9)].
Proof.
  split; [|vm_compute; reflexivity].
  destruct (dispatch_order_is_fixed contributors (reverse contributors) 1) as [-> _]; [| |done].
  - symmetry. apply reverse_Permutation.
  - apply (bool_decide_unpack _). vm_compute. exact I.
Defined.
End HooksSample.
