(* ===== verification/ExtAdmission.v ===== *)
(** * Admission of calls to an extension ([astrcode-extensions/src/runner/supervisor.rs])

    Calls of an extension take a permit of a semaphore; draining closes the door and waits for the permits to come back.
    The supervisor's task, the callers and those that drain are interleaved: one [Event] is one step of one of them.
    A semaphore gives a permit to any caller that waits; nothing depends on its order. *)

From S2P Require Import Prelude.

Definition EXTENSION_INVOCATION_CAPACITY : nat := N.to_nat 1024.

Inductive SupervisorState :=
| State_Initializing | State_Ready | State_Draining | State_Failed (message : string) | State_Stopped.

#[export] Instance SupervisorState_eq_dec : EqDecision SupervisorState.
Proof. solve_decision. Defined.

(** A command with the sender of its completion: the number of who waits for it. *)
Inductive SupervisorCommand :=
| Cmd_MarkReady (generation : N)
| Cmd_BeginDraining (completed : nat)
| Cmd_Finish (failure : option string).

(** [acquire], and the call that holds the permit. *)
Inductive CallStage :=
| Call_waiting      (** in the [select] for a permit *)
| Call_permitted    (** has one, before the second look at the token *)
| Call_running
| Call_rejected     (** with [draining_error] *)
| Call_ended.

(** [begin_draining]. *)
Inductive DrainStage :=
| Drain_sent        (** waits for the completion of its command *)
| Drain_waiting     (** for all permits *)
| Drain_done
| Drain_failed.     (** with [unavailable_error] *)

#[export] Instance CallStage_eq_dec : EqDecision CallStage.
Proof. solve_decision. Defined.
#[export] Instance DrainStage_eq_dec : EqDecision DrainStage.
Proof. solve_decision. Defined.

Record Supervisor := {
  sv_commands : list SupervisorCommand;
  sv_task : bool;  (** the task runs and the receiver is open *)
  sv_state : SupervisorState;
  sv_generation : N;
  sv_free : nat;
  sv_closed : bool;
  sv_draining : bool;
  sv_calls : gmap nat CallStage;
  sv_drains : gmap nat DrainStage;
}.

(** [ExtensionSupervisor::spawn]. *)
Definition spawn : Supervisor :=
  {| sv_commands := []; sv_task := true; sv_state := State_Initializing; sv_generation := 0;
     sv_free := EXTENSION_INVOCATION_CAPACITY; sv_closed := false; sv_draining := false; sv_calls := ∅; sv_drains := ∅ |}.

Definition set_call (c : nat) (stage : CallStage) (free : nat) (s : Supervisor) : Supervisor :=
  {| sv_commands := sv_commands s; sv_task := sv_task s; sv_state := sv_state s; sv_generation := sv_generation s;
     sv_free := free; sv_closed := sv_closed s; sv_draining := sv_draining s; sv_calls := <[c := stage]> (sv_calls s);
     sv_drains := sv_drains s |}.
Definition set_drain (d : nat) (stage : DrainStage) (s : Supervisor) : Supervisor :=
  {| sv_commands := sv_commands s; sv_task := sv_task s; sv_state := sv_state s; sv_generation := sv_generation s;
     sv_free := sv_free s; sv_closed := sv_closed s; sv_draining := sv_draining s; sv_calls := sv_calls s;
     sv_drains := <[d := stage]> (sv_drains s) |}.
Definition set_commands (commands : list SupervisorCommand) (s : Supervisor) : Supervisor :=
  {| sv_commands := commands; sv_task := sv_task s; sv_state := sv_state s; sv_generation := sv_generation s;
     sv_free := sv_free s; sv_closed := sv_closed s; sv_draining := sv_draining s; sv_calls := sv_calls s;
     sv_drains := sv_drains s |}.
Definition set_snapshot (state : SupervisorState) (generation : N) (closed draining : bool) (s : Supervisor) : Supervisor :=
  {| sv_commands := sv_commands s; sv_task := sv_task s; sv_state := state; sv_generation := generation;
     sv_free := sv_free s; sv_closed := closed; sv_draining := draining; sv_calls := sv_calls s; sv_drains := sv_drains s |}.

(** The end of the task drops the receiver and the commands in it: who waits for one of them learns so. *)
Definition fail_waiting (s : Supervisor) (c : SupervisorCommand) : Supervisor :=
  match c with Cmd_BeginDraining d => set_drain d Drain_failed s | _ => s end.
Definition end_task (s : Supervisor) : Supervisor :=
  let s := foldl fail_waiting s (sv_commands s) in
  {| sv_commands := []; sv_task := false; sv_state := sv_state s; sv_generation := sv_generation s;
     sv_free := sv_free s; sv_closed := sv_closed s; sv_draining := sv_draining s; sv_calls := sv_calls s;
     sv_drains := sv_drains s |}.

(** [run_supervisor] on one command. *)
Definition serve (c : SupervisorCommand) (s : Supervisor) : Supervisor :=
  match c with
  | Cmd_MarkReady generation =>
    match sv_state s with
    | State_Initializing | State_Ready => set_snapshot State_Ready generation (sv_closed s) (sv_draining s) s
    | _ => s
    end
  | Cmd_BeginDraining d =>
    let s := if bool_decide (sv_state s = State_Draining) then s
             else set_snapshot State_Draining (sv_generation s) (sv_closed s) true s in
    set_drain d Drain_waiting s
  | Cmd_Finish failure =>
    end_task (set_snapshot (match failure with Some m => State_Failed m | None => State_Stopped end)
                (sv_generation s) true (sv_draining s) s)
  end.

Inductive Event :=
| Ev_acquire (call : nat)       (** a call arrives at [acquire] *)
| Ev_take (call : nat)          (** its [select] completes *)
| Ev_check (call : nat)         (** its second look at the token *)
| Ev_release (call : nat)       (** the call ends and drops its permit *)
| Ev_mark_ready (generation : N)
| Ev_begin_draining (drain : nat)
| Ev_permits (drain : nat)      (** [acquire_many_owned] completes and the permits are dropped *)
| Ev_finish (failure : option string)
| Ev_serve                      (** the task takes a command *)
| Ev_abort.                     (** the supervisor is dropped *)

(** A step, if it is possible. *)
Definition step (e : Event) (s : Supervisor) : option Supervisor :=
  match e with
  | Ev_acquire c =>
    match sv_calls s !! c with
    | Some _ => None
    | None => Some (set_call c (if sv_draining s then Call_rejected else Call_waiting) (sv_free s) s)
    end
  | Ev_take c =>
    match sv_calls s !! c with
    | Some Call_waiting =>
      if sv_draining s || sv_closed s then Some (set_call c Call_rejected (sv_free s) s)
      else match sv_free s with
      | O => None
      | S free => Some (set_call c Call_permitted free s)
      end
    | _ => None
    end
  | Ev_check c =>
    match sv_calls s !! c with
    | Some Call_permitted =>
      Some (if sv_draining s then set_call c Call_rejected (S (sv_free s)) s else set_call c Call_running (sv_free s) s)
    | _ => None
    end
  | Ev_release c =>
    match sv_calls s !! c with Some Call_running => Some (set_call c Call_ended (S (sv_free s)) s) | _ => None end
  | Ev_mark_ready generation =>
    Some (if sv_task s then set_commands (sv_commands s ++ [Cmd_MarkReady generation]) s else s)
  | Ev_begin_draining d =>
    match sv_drains s !! d with
    | Some _ => None
    | None =>
      Some (if sv_task s then set_drain d Drain_sent (set_commands (sv_commands s ++ [Cmd_BeginDraining d]) s)
            else set_drain d Drain_failed s)
    end
  | Ev_permits d =>
    match sv_drains s !! d with
    | Some Drain_waiting =>
      if sv_closed s then Some (set_drain d Drain_failed s)
      else if bool_decide (sv_free s = EXTENSION_INVOCATION_CAPACITY) then Some (set_drain d Drain_done s) else None
    | _ => None
    end
  | Ev_finish failure =>
    Some (if sv_task s then set_commands (sv_commands s ++ [Cmd_Finish failure]) s else s)
  | Ev_serve =>
    match sv_task s, sv_commands s with
    | true, c :: commands => Some (serve c (set_commands commands s))
    | _, _ => None
    end
  | Ev_abort => if sv_task s then Some (end_task s) else None
  end.

Inductive reachable : Supervisor → Prop :=
| reachable_spawn : reachable spawn
| reachable_step s e s' : reachable s → step e s = Some s' → reachable s'.

(** ** The invariant *)

(** A call with a permit. *)
Definition holds (stage : CallStage) : bool :=
  match stage with Call_permitted | Call_running => true | _ => false end.
Definition holders (calls : gmap nat CallStage) : nat := size (filter (λ c, holds c.2 = true) calls).

Record invariant (s : Supervisor) : Prop := {
  inv_permits : sv_free s + holders (sv_calls s) = EXTENSION_INVOCATION_CAPACITY;
  inv_draining : ∀ d, sv_drains s !! d = Some Drain_waiting ∨ sv_drains s !! d = Some Drain_done → sv_draining s = true;
  inv_state : sv_draining s = true → sv_state s = State_Draining ∨ sv_task s = false;
  inv_closed_door : sv_state s = State_Draining → sv_draining s = true;
  inv_ended : sv_task s = false → sv_commands s = [];
  inv_not_ready : sv_draining s = true → sv_state s ≠ State_Ready ∧ sv_state s ≠ State_Initializing;
  inv_done : ∀ d, sv_drains s !! d = Some Drain_done → holders (sv_calls s) = 0;
}.

Definition count (b : bool) : nat := if b then 1 else 0.

Lemma holders_update (calls : gmap nat CallStage) c (old : option CallStage) new :
  calls !! c = old → holders (<[c := new]> calls) + count (from_option holds false old) = holders calls + count (holds new).
Proof.
  intros Hc. unfold holders. set (P := λ c : nat * CallStage, holds c.2 = true).
  assert (filter P (<[c := new]> calls) = if holds new then <[c := new]> (filter P (delete c calls)) else filter P (delete c calls)) as ->.
  { rewrite <-insert_delete_eq. destruct (holds new) eqn:Hn.
    - by rewrite map_filter_insert_True.
    - rewrite map_filter_insert_False by (unfold P; simpl; by rewrite Hn). by rewrite delete_idemp || by rewrite delete_delete_eq. }
  assert (filter P (delete c calls) !! c = None) as Hnone.
  { rewrite map_lookup_filter, lookup_delete_eq. done. }
  assert (size (filter P calls) = size (filter P (delete c calls)) + count (from_option holds false old)) as ->.
  { destruct old as [st|]; simpl; [|by rewrite delete_id, Nat.add_0_r].
    rewrite <-(insert_delete_id calls c st) at 1 by done. destruct (holds st) eqn:Hst.
    - rewrite map_filter_insert_True by done. rewrite map_size_insert_None by done. simpl. lia.
    - rewrite map_filter_insert_False by (unfold P; simpl; by rewrite Hst). rewrite delete_delete_eq. simpl. lia. }
  destruct (holds new); simpl; [rewrite map_size_insert_None by done|]; lia.
Qed.

(** Ending the task touches nothing but who waits for it. *)
Lemma fail_waiting_all l s :
  let s' := foldl fail_waiting s l in
  sv_state s' = sv_state s ∧ sv_free s' = sv_free s ∧ sv_closed s' = sv_closed s ∧ sv_draining s' = sv_draining s
  ∧ sv_calls s' = sv_calls s
  ∧ ∀ d stage, stage ≠ Drain_failed → sv_drains s' !! d = Some stage → sv_drains s !! d = Some stage.
Proof.
  revert s. induction l as [|c l IH]; intros s; simpl; [by split_and!|].
  destruct (IH (fail_waiting s c)) as (-> & -> & -> & -> & -> & Hd). destruct c as [g|d'|f]; simpl; split_and!; try done.
  intros d stage Hst Hs. apply Hd in Hs; [|done]. simpl in Hs. destruct (decide (d' = d)) as [->|Hne].
  - rewrite lookup_insert_eq in Hs. congruence.
  - by rewrite lookup_insert_ne in Hs.
Qed.

Lemma invariant_spawn : invariant spawn.
Proof. split; try done. intros d. simpl. rewrite lookup_empty. by intros []. Qed.

Lemma invariant_end_task s :
  sv_free s + holders (sv_calls s) = EXTENSION_INVOCATION_CAPACITY →
  (∀ d, sv_drains s !! d = Some Drain_waiting ∨ sv_drains s !! d = Some Drain_done → sv_draining s = true) →
  (sv_state s = State_Draining → sv_draining s = true) →
  (sv_draining s = true → sv_state s ≠ State_Ready ∧ sv_state s ≠ State_Initializing) →
  (∀ d, sv_drains s !! d = Some Drain_done → holders (sv_calls s) = 0) → invariant (end_task s).
Proof.
  intros Hp Hd Hc Hn Hdone. unfold end_task.
  destruct (fail_waiting_all (sv_commands s) s) as (E1 & E2 & E3 & E4 & E5 & Hdr).
  split; simpl; rewrite ?E1, ?E2, ?E3, ?E4, ?E5; try done; [|by right|].
  - intros d [H|H]; apply (Hd d); [left|right]; by apply Hdr.
  - intros d H. apply (Hdone d). by apply Hdr.
Qed.

(** A step on calls keeps what does not concern them. *)
Lemma invariant_set_call s c old new free :
  invariant s → sv_calls s !! c = old → free + count (holds new) = sv_free s + count (from_option holds false old) →
  (holds new = true → from_option holds false old = false → sv_draining s = false) →
  invariant (set_call c new free s).
Proof.
  intros [Hp Hd Hs Hc He Hn Hdone] Hold Hfree Hnew. pose proof (holders_update _ _ _ new Hold) as Hh.
  split; simpl; try done; [lia|]. intros d H. specialize (Hdone d H).
  assert (sv_draining s = true) as Hdr by (apply (Hd d); by right).
  destruct (holds new) eqn:Hnw, (from_option holds false old) eqn:Ho; simpl in *; try lia.
  by rewrite Hnew in Hdr.
Qed.

Lemma invariant_set_drain s d stage :
  invariant s → (stage = Drain_waiting ∨ stage = Drain_done → sv_draining s = true) →
  (stage = Drain_done → holders (sv_calls s) = 0) → invariant (set_drain d stage s).
Proof.
  intros [Hp Hd Hs Hc He Hn Hdone] H1 H2. split; simpl; try done.
  - intros d'. destruct (decide (d = d')) as [->|Hne]; [rewrite lookup_insert_eq|rewrite lookup_insert_ne by done; apply Hd].
    intros [H|H]; simplify_eq; apply H1; auto.
  - intros d'. destruct (decide (d = d')) as [->|Hne]; [rewrite lookup_insert_eq|rewrite lookup_insert_ne by done; apply Hdone].
    intros H; simplify_eq. by apply H2.
Qed.

Lemma invariant_set_commands s commands : invariant s → sv_task s = true → invariant (set_commands commands s).
Proof. intros [Hp Hd Hs Hc He Hn Hdone] Ht. split; simpl; try done. congruence. Qed.

Lemma invariant_serve s c : invariant s → sv_task s = true → invariant (serve c s).
Proof.
  intros Hi Ht. destruct c as [g|d|f]; simpl.
  - destruct Hi as [Hp Hd Hs Hc He Hn Hdone].
    destruct (sv_state s) eqn:E; try (split; rewrite ?E; done).
    all: assert (sv_draining s = false) as Hdr by (destruct (sv_draining s); [destruct Hn as [? ?]; done|done]).
    all: split; simpl; try done; rewrite Hdr; done.
  - apply invariant_set_drain.
    + case_bool_decide as E; [done|]. destruct Hi as [Hp Hd Hs Hc He Hn Hdone]. by split; simpl; auto.
    + intros _. case_bool_decide as E; [by apply (inv_closed_door _ Hi)|done].
    + done.
  - destruct Hi as [Hp Hd Hs Hc He Hn Hdone]. apply invariant_end_task; simpl; try done; by destruct f.
Qed.

Lemma invariant_step s e s' : invariant s → step e s = Some s' → invariant s'.
Proof.
  intros Hi Hstep. destruct e as [c|c|c|c|g|d|d|f| |]; simpl in Hstep.
  - destruct (sv_calls s !! c) eqn:Hc; [done|]. injection Hstep as <-.
    eapply invariant_set_call; [done|exact Hc| |]; by destruct (sv_draining s).
  - destruct (sv_calls s !! c) as [[]|] eqn:Hc; try done.
    destruct (sv_draining s) eqn:Hd, (sv_closed s) eqn:Hcl; simpl in Hstep;
      try (injection Hstep as <-; by eapply invariant_set_call; [done|exact Hc|..]).
    destruct (sv_free s) as [|free] eqn:Hf; [done|]. injection Hstep as <-.
    eapply invariant_set_call; [done|exact Hc|simpl; lia|done].
  - destruct (sv_calls s !! c) as [[]|] eqn:Hc; try done. injection Hstep as <-.
    destruct (sv_draining s) eqn:Hd; (eapply invariant_set_call; [done|exact Hc|simpl; lia|done]).
  - destruct (sv_calls s !! c) as [[]|] eqn:Hc; try done. injection Hstep as <-.
    eapply invariant_set_call; [done|exact Hc|simpl; lia|done].
  - injection Hstep as <-. destruct (sv_task s) eqn:Ht; [by apply invariant_set_commands|done].
  - destruct (sv_drains s !! d) eqn:Hd; [done|]. injection Hstep as <-. destruct (sv_task s) eqn:Ht.
    + apply invariant_set_drain; [by apply invariant_set_commands|by intros []|done].
    + apply invariant_set_drain; [done|by intros []|done].
  - destruct (sv_drains s !! d) as [[]|] eqn:Hd; try done. destruct (sv_closed s).
    { injection Hstep as <-. apply invariant_set_drain; [done|by intros []|done]. }
    case_bool_decide as Hfree; [|done]. injection Hstep as <-. apply invariant_set_drain; [done| |].
    + intros _. apply (inv_draining _ Hi d). by left.
    + intros _. pose proof (inv_permits _ Hi). lia.
  - injection Hstep as <-. destruct (sv_task s) eqn:Ht; [by apply invariant_set_commands|done].
  - destruct (sv_task s) eqn:Ht; [|done]. destruct (sv_commands s) as [|c l]; [done|]. injection Hstep as <-.
    apply invariant_serve; [by apply invariant_set_commands|done].
  - destruct (sv_task s); [|done]. injection Hstep as <-. destruct Hi as [Hp Hd Hs Hc He Hn Hdone].
    by apply invariant_end_task.
Qed.

Lemma reachable_invariant s : reachable s → invariant s.
Proof. induction 1; [apply invariant_spawn|by eapply invariant_step]. Qed.

(** ** What draining promises *)

Lemma holders_zero (calls : gmap nat CallStage) c stage :
  holders calls = 0 → calls !! c = Some stage → holds stage = false.
Proof.
  unfold holders. intros Hz%map_size_empty_inv Hc. apply not_true_iff_false. intros Hst.
  by apply (map_filter_empty_not_lookup (λ c, holds c.2 = true) calls c stage Hz).
Qed.

Lemma holders_pos (calls : gmap nat CallStage) n :
  holders calls = S n → ∃ c stage, calls !! c = Some stage ∧ holds stage = true.
Proof.
  unfold holders. intros Hn. destruct (map_choose (filter (λ c, holds c.2 = true) calls)) as (c & stage & Hc).
  { intros He. by rewrite He, map_size_empty in Hn. }
  apply map_lookup_filter_Some in Hc as [Hc Hh]. by exists c, stage.
Qed.

Lemma end_task_calls s : sv_draining (end_task s) = sv_draining s ∧ sv_calls (end_task s) = sv_calls s.
Proof. unfold end_task. simpl. destruct (fail_waiting_all (sv_commands s) s) as (_ & _ & _ & Hd & Hc & _). done. Qed.

(** While the door is closed it stays closed, and no call begins to run. *)
Lemma nobody_enters s e s' :
  step e s = Some s' → sv_draining s = true →
  sv_draining s' = true ∧ ∀ c, sv_calls s' !! c = Some Call_running → sv_calls s !! c = Some Call_running.
Proof.
  intros Hstep Hd. destruct e as [c'|c'|c'|c'|g|d|d|f| |]; simpl in Hstep; rewrite ?Hd in Hstep; simpl in Hstep.
  1-4: destruct (sv_calls s !! c') as [[]|] eqn:Hc; try done; injection Hstep as <-; simpl; (split; [done|]); intros c;
    (destruct (decide (c' = c)) as [->|]; [by rewrite lookup_insert_eq|by rewrite lookup_insert_ne by done]).
  - injection Hstep as <-. by destruct (sv_task s).
  - destruct (sv_drains s !! d); [done|]. injection Hstep as <-. by destruct (sv_task s).
  - destruct (sv_drains s !! d) as [[]|]; try done. destruct (sv_closed s); [by injection Hstep as <-|].
    case_bool_decide; [by injection Hstep as <-|done].
  - injection Hstep as <-. by destruct (sv_task s).
  - destruct (sv_task s); [|done]. destruct (sv_commands s) as [|k l]; [done|]. injection Hstep as <-.
    destruct k as [g|d|f]; cbn [serve]; [by simpl; destruct (sv_state s)|by simpl; case_bool_decide|].
    match goal with |- context [end_task ?t] => destruct (end_task_calls t) as [-> ->] end. done.
  - destruct (sv_task s); [|done]. injection Hstep as <-. destruct (end_task_calls s) as [-> ->]. done.
Qed.

Definition run (es : list Event) (s : Supervisor) : option Supervisor := foldl (λ s e, s ≫= step e) (Some s) es.

Lemma run_app es1 es2 s : run (es1 ++ es2) s = run es1 s ≫= run es2.
Proof.
  unfold run. rewrite foldl_app. destruct (foldl _ (Some s) es1); [done|]. simpl. induction es2; [done|]. by simpl.
Qed.

Lemma run_reachable es s s' : reachable s → run es s = Some s' → reachable s'.
Proof.
  revert s. induction es as [|e es IH]; intros s Hs Hr; [by injection Hr as <-|].
  change (e :: es) with ([e] ++ es) in Hr. rewrite run_app in Hr. change (run [e] s) with (step e s) in Hr.
  destruct (step e s) as [s1|] eqn:He; [|done]. apply (IH s1); [by eapply reachable_step|done].
Qed.

Lemma drain_runs n s d :
  invariant s → holders (sv_calls s) = n → sv_drains s !! d = Some Drain_waiting → sv_closed s = false →
  ∃ es s', run es s = Some s' ∧ sv_free s' = EXTENSION_INVOCATION_CAPACITY ∧ length es = n
    ∧ Forall (λ e, ∃ c stage, sv_calls s !! c = Some stage ∧ holds stage = true ∧ (e = Ev_check c ∨ e = Ev_release c)) es
    ∧ sv_drains s' !! d = Some Drain_waiting ∧ sv_closed s' = false.
Proof.
  revert s. induction n as [|n IH]; intros s Hi Hn Hd Hcl.
  { exists [], s. pose proof (inv_permits _ Hi). split_and!; try done. lia. }
  destruct (holders_pos _ _ Hn) as (c & stage & Hc & Hst).
  assert (sv_draining s = true) as Hdr by (apply (inv_draining _ Hi d); by left).
  set (e := match stage with Call_permitted => Ev_check c | _ => Ev_release c end).
  set (new := match stage with Call_permitted => Call_rejected | _ => Call_ended end).
  assert (step e s = Some (set_call c new (S (sv_free s)) s)) as Hstep.
  { subst e new. destruct stage; try done; simpl; rewrite Hc; [by rewrite Hdr|done]. }
  pose proof (invariant_step _ _ _ Hi Hstep) as Hi'.
  assert (holds new = false) as Hnew by (subst new; by destruct stage).
  pose proof (holders_update _ _ _ new Hc) as Hh. simpl in Hh. rewrite Hst, Hnew in Hh. simpl in Hh.
  destruct (IH _ Hi') as (es & s' & Hrun & Hf & Hl & Hall & Hd' & Hcl'); [simpl; lia|done|done|].
  exists (e :: es), s'. split_and!; [|done|simpl; by rewrite Hl| |done|done].
  - change (run (e :: es) s) with (run ([e] ++ es) s). rewrite run_app. change (run [e] s) with (step e s). rewrite Hstep. exact Hrun.
  - constructor.
    + exists c, stage. split_and!; [done|done|]. subst e. destruct stage; auto.
    + eapply Forall_impl; [exact Hall|]. intros e' (c' & stage' & Hc' & Hst' & He'). simpl in Hc'. exists c', stage'.
      destruct (decide (c = c')) as [->|Hne]; [rewrite lookup_insert_eq in Hc'; injection Hc' as <-; congruence|].
      by rewrite lookup_insert_ne in Hc'.
Qed.

(** C23. Draining an extension: at most the capacity of calls hold a permit; once the door is closed it stays closed, the
    extension is never ready again and no call begins to run; when [begin_draining] has returned, no call runs and none
    ever will; and until it returns, it takes no more than the end of the calls that hold a permit. *)
Theorem drained_extension_is_idle s :
  reachable s →
  holders (sv_calls s) ≤ EXTENSION_INVOCATION_CAPACITY
  ∧ (sv_draining s = true →
       sv_state s ≠ State_Ready
       ∧ ∀ e s', step e s = Some s' → sv_draining s' = true
           ∧ ∀ c, sv_calls s' !! c = Some Call_running → sv_calls s !! c = Some Call_running)
  ∧ (∀ d, sv_drains s !! d = Some Drain_done →
       sv_draining s = true ∧ ∀ c stage, sv_calls s !! c = Some stage → holds stage = false)
  ∧ (∀ d, sv_drains s !! d = Some Drain_waiting → sv_closed s = false →
       ∃ es s', run (es ++ [Ev_permits d]) s = Some s' ∧ sv_drains s' !! d = Some Drain_done
         ∧ length es = holders (sv_calls s)
         ∧ Forall (λ e, ∃ c stage, sv_calls s !! c = Some stage ∧ holds stage = true ∧ (e = Ev_check c ∨ e = Ev_release c)) es).
Proof.
  intros Hr. pose proof (reachable_invariant s Hr) as Hi. split_and!.
  - pose proof (inv_permits _ Hi). lia.
  - intros Hd. split; [by apply (inv_not_ready _ Hi)|]. intros e s' Hstep.
    by apply (nobody_enters s e).
  - intros d Hd. split; [apply (inv_draining _ Hi d); by right|]. intros c stage. apply holders_zero. by apply (inv_done _ Hi d).
  - intros d Hd Hcl. destruct (drain_runs (holders (sv_calls s)) s d Hi eq_refl Hd Hcl) as (es & s1 & Hrun & Hf & Hl & Hall & Hd1 & Hc1).
    exists es, (set_drain d Drain_done s1). split_and!; [|simpl; by rewrite lookup_insert_eq|done|done].
    rewrite run_app, Hrun. change (step (Ev_permits d) s1 = Some (set_drain d Drain_done s1)). unfold step.
    by rewrite Hd1, Hc1, bool_decide_true.
Qed.

Module AdmissionSample.

(** A call runs, another is between its two looks at the token, and a third arrives when the extension drains. *)
Definition events : list Event :=
  [Ev_mark_ready 1; Ev_serve; Ev_acquire 0; Ev_take 0; Ev_check 0; Ev_acquire 1; Ev_take 1; Ev_begin_draining 0; Ev_serve;
   Ev_acquire 2].
Definition draining : Supervisor := default spawn (run events spawn).

Example draining_calls :
  (λ c, sv_calls draining !! c) <$> [0; 1; 2]%nat = [Some Call_running; Some Call_permitted; Some Call_rejected]
  ∧ sv_state draining = State_Draining ∧ sv_drains draining !! 0%nat = Some Drain_waiting.
Proof. vm_compute. done. Qed.

Lemma draining_reachable : reachable draining.
Proof. apply (run_reachable events spawn); [constructor|by vm_compute]. Qed.

Lemma drained_extension_is_idle_witness :
  holders (sv_calls draining) = 2 ∧ sv_draining draining = true ∧ sv_state draining ≠ State_Ready
  ∧ ∃ es s', run (es ++ [Ev_permits 0%nat]) draining = Some s' ∧ sv_drains s' !! 0%nat = Some Drain_done ∧ length es = 2.
Proof.
  destruct (drained_extension_is_idle draining draining_reachable) as (_ & Hdr & _ & Hwait).
  split_and!; [by vm_compute|by vm_compute|by apply Hdr; vm_compute|].
  destruct (Hwait 0%nat) as (es & s' & Hrun & Hd & Hl & _); [by vm_compute|by vm_compute|].
  exists es, s'. split_and!; [done|done|]. rewrite Hl. by vm_compute.
Defined.

End AdmissionSample.
