(* ===== verification/ExtDelivery.v ===== *)
(** * Delivery of custom events to an extension ([astrcode-extensions/src/runner/custom_event_delivery.rs], [custom_event_control.rs])

    One consumer of one session: its lanes (of this and of earlier generations of the extension), those that control it,
    and the log that grows meanwhile, interleaved.  A lane moves from one [await] to the next; the storage is that of
    [StoreConsumers], and the handler answers anything.  What happened is kept as a trace of facts. *)

From S2P Require Import Prelude Utf8 CoreTypes CoreLlm CoreEvent ProjViews ProjContext ProjReducer StoreTypes StoreConsumers StdPath StdStr ExtCatalog ExtRoutes ExtRegister ExtHooks.

Definition MAX_CUSTOM_EVENT_CASCADE_DEPTH : N := 8.
(** In milliseconds. *)
Definition CUSTOM_EVENT_RETRY_INITIAL_DELAY : N := 250.
Definition CUSTOM_EVENT_RETRY_MAX_DELAY : N := 30 * 1000.
Definition CUSTOM_EVENT_QUARANTINE_AFTER : N := 20.

Definition next_delay (retry_delay : N) : N := N.min (2 * retry_delay) CUSTOM_EVENT_RETRY_MAX_DELAY.

Definition custom_event_consumer_id (extension_id : string) (subscription : CustomEventSubscription) : string :=
  extension_id +:+ ":" +:+ cs_id subscription +:+ ":v" +:+ pretty (cs_consumer_version subscription).

Definition custom_event_matches_subscription (subscription : CustomEventSubscription) (event : CustomEventData) : bool :=
  bool_decide (CoreEvent.ce_cascade_depth event ≤ MAX_CUSTOM_EVENT_CASCADE_DEPTH)%N
  && custom_event_subscription_matches subscription (CoreEvent.ce_extension_id event) (CoreEvent.ce_event_type event).

Inductive CustomEventDisposition := Disp_Ack | Disp_Retry (reason : string) | Disp_DeadLetter (reason : string).

(** A handler that fails asks for another try. *)
Definition disposition_of (r : result CustomEventDisposition ExtensionError) : CustomEventDisposition :=
  match r with Ok d => d | Err e => Disp_Retry (ExtensionError_to_string e) end.

Definition failure_of (d : CustomEventDisposition) : option (string * bool) :=
  match d with Disp_Ack => None | Disp_Retry reason => Some (reason, false) | Disp_DeadLetter reason => Some (reason, true) end.

Inductive CustomEventInvocationOutcome := Outcome_Consumed | Outcome_Paused | Outcome_Retry.

(** ** States *)

Inductive Fact :=
| Fact_Called (seq : option N)       (** the handler is given an event; a live one has no number *)
| Fact_Acked (seq : N)
| Fact_Quarantined (seq : N)
| Fact_Skipped (event_count : N).    (** a control moved the checkpoint to the head of the stream *)

(** What lanes and controls share. *)
Record Shared := {
  sh_log : list StoredEvent;
  sh_file : option PersistedEventConsumerState;
  sh_active : nat;          (** [active_deliveries] *)
  sh_failed : N;            (** [failed_attempts] *)
  sh_consecutive : N;       (** [consecutive_failures] *)
  sh_trace : list Fact;
}.

(** One run of [reconcile_durable_custom_events_once], with the delay of the loop around it. *)
Record Round := {
  rd_through : option N;
  rd_delay : N;
  rd_state : EventConsumerState;
  rd_head : option N;       (** [replay_head] *)
}.

Inductive Invocation :=
| Inv_durable (round : Round) (event : StoredEvent) (rest : list StoredEvent) (delay : N)
| Inv_live (event : CustomEventData).

Definition inv_seq (i : Invocation) : option N :=
  match i with Inv_durable _ event _ _ => Some (se_seq event) | Inv_live _ => None end.

Inductive LaneCommand := Cmd_Live (event : CustomEventData) | Cmd_ReconcileDurable (through_seq : option N).

(** Where a lane is. *)
Inductive LanePc :=
| Pc_idle                                                   (** [receiver.recv] *)
| Pc_reconcile (through : option N) (delay : N)             (** before the first read of a round *)
| Pc_replay (through : option N) (delay : N) (state : EventConsumerState)
| Pc_events (round : Round) (events : list StoredEvent)
| Pc_permit (invocation : Invocation)                       (** [acquire_owned] *)
| Pc_look (invocation : Invocation)                         (** [run_custom_event_invocation] *)
| Pc_handler (invocation : Invocation) (state : EventConsumerState)
| Pc_report (invocation : Invocation) (state : EventConsumerState) (disposition : CustomEventDisposition)
| Pc_backoff (round : Round) (event : StoredEvent) (rest : list StoredEvent) (delay : N)
| Pc_checkpoint (round : Round)
| Pc_wait (through : option N) (delay : N)                  (** between rounds *)
| Pc_stopped.

Record Lane := {
  ln_mailbox : list LaneCommand;
  ln_queued : bool;         (** [full_reconciliation_queued] *)
  ln_pc : LanePc;
}.

Definition lane_new : Lane := {| ln_mailbox := []; ln_queued := false; ln_pc := Pc_idle |}.

(** [reset_custom_event_consumer] and [recover_custom_event_consumer]. *)
Inductive ControlPc :=
| Ctl_read (reset : EventConsumerCheckpointReset)
| Ctl_pause (reset : EventConsumerCheckpointReset) (previous_paused : bool)
| Ctl_idle (reset : EventConsumerCheckpointReset) (previous_paused : bool)     (** [wait_until_idle] *)
| Ctl_reset (reset : EventConsumerCheckpointReset) (previous_paused : bool)
| Ctl_restore (previous_paused : bool)
| Ctl_wake
| Ctl_recover (previous_paused : bool)
| Ctl_recover_wake
| Ctl_done
| Ctl_failed.

Record Delivery := {
  dv_shared : Shared;
  dv_lanes : gmap nat Lane;
  dv_controls : gmap nat ControlPc;
}.

(** A storage call may fail, with or without its effect. *)
Definition Fault : Type := option (bool * StorageError).

(** What a step is told. *)
Inductive Answer :=
| A_go
| A_store (fault : Fault)
| A_handler (r : result CustomEventDisposition ExtensionError)
| A_refused       (** no context, no permit, or no idleness in time *)
| A_cancelled.

Definition set_log (log : list StoredEvent) (sh : Shared) : Shared :=
  {| sh_log := log; sh_file := sh_file sh; sh_active := sh_active sh; sh_failed := sh_failed sh;
     sh_consecutive := sh_consecutive sh; sh_trace := sh_trace sh |}.
Definition set_file (file : option PersistedEventConsumerState) (sh : Shared) : Shared :=
  {| sh_log := sh_log sh; sh_file := file; sh_active := sh_active sh; sh_failed := sh_failed sh;
     sh_consecutive := sh_consecutive sh; sh_trace := sh_trace sh |}.
Definition set_active (n : nat) (sh : Shared) : Shared :=
  {| sh_log := sh_log sh; sh_file := sh_file sh; sh_active := n; sh_failed := sh_failed sh;
     sh_consecutive := sh_consecutive sh; sh_trace := sh_trace sh |}.
Definition add_fact (f : Fact) (sh : Shared) : Shared :=
  {| sh_log := sh_log sh; sh_file := sh_file sh; sh_active := sh_active sh; sh_failed := sh_failed sh;
     sh_consecutive := sh_consecutive sh; sh_trace := sh_trace sh ++ [f] |}.
Definition record_failure (sh : Shared) : Shared :=
  {| sh_log := sh_log sh; sh_file := sh_file sh; sh_active := sh_active sh;
     sh_failed := wrapping_add u64_max (sh_failed sh) 1; sh_consecutive := wrapping_add u64_max (sh_consecutive sh) 1;
     sh_trace := sh_trace sh |}.
Definition record_success (sh : Shared) : Shared :=
  {| sh_log := sh_log sh; sh_file := sh_file sh; sh_active := sh_active sh; sh_failed := sh_failed sh;
     sh_consecutive := 0; sh_trace := sh_trace sh |}.

Definition event_count (sh : Shared) : N := N.of_nat (length (sh_log sh)).

Section consumer.
Context (path consumer_id : string) (subscription : CustomEventSubscription).

(** ** Storage *)

Definition store_read (fault : Fault) (sh : Shared) : result EventConsumerState StorageError :=
  match fault with Some (_, e) => Err e | None => event_consumer_state path consumer_id (sh_file sh) end.

(** The fact is recorded when the operation took effect, whatever was reported. *)
Definition store_write {T} (op : option PersistedEventConsumerState * result T StorageError) (fact : T → option Fact)
    (fault : Fault) (sh : Shared) : Shared * result T StorageError :=
  let '(file, r) := op in
  let done := let sh := set_file file sh in
              match r with
              | Ok v => match fact v with Some f => add_fact f sh | None => sh end
              | Err _ => sh
              end in
  match fault with
  | None => (done, r)
  | Some (true, e) => (done, Err e)
  | Some (false, e) => (sh, Err e)
  end.

Definition no_fact {T} (_ : T) : option Fact := None.

Definition write_checkpoint (state_revision seq : N) (fault : Fault) (sh : Shared) :=
  store_write (checkpoint_event_consumer path consumer_id (event_count sh) (sh_file sh) state_revision seq) no_fact fault sh.
Definition write_failure (state_revision seq : N) (reason : string) (quarantine_after : N) (fault : Fault) (sh : Shared) :=
  store_write (record_event_consumer_failure path consumer_id (event_count sh) (sh_file sh) state_revision seq reason
                 quarantine_after)
    (λ v, match v with Failure_Quarantined _ => Some (Fact_Quarantined seq) | _ => None end) fault sh.
Definition write_paused (p : bool) (fault : Fault) (sh : Shared) :=
  store_write (set_event_consumer_paused path consumer_id (event_count sh) (sh_file sh) p) no_fact fault sh.
Definition write_reset (reset : EventConsumerCheckpointReset) (fault : Fault) (sh : Shared) :=
  store_write (reset_event_consumer_checkpoint path consumer_id (event_count sh) (sh_file sh) reset)
    (λ _, match reset with Reset_StreamHead => Some (Fact_Skipped (event_count sh)) | Reset_Beginning => None end) fault sh.

(** ** A lane *)

(** The event is a custom event the subscription is for. *)
Definition delivers (e : StoredEvent) : bool :=
  match se_payload e with P_CustomEvent ce => custom_event_matches_subscription subscription ce | _ => false end.

Definition replay (checkpoint : option N) (log : list StoredEvent) : list StoredEvent :=
  match checkpoint with
  | Some seq => filter (λ e, seq < se_seq e)%N log
  | None => log
  end.

Fixpoint take_through (through_seq : option N) (events : list StoredEvent) : list StoredEvent :=
  match events with
  | [] => []
  | e :: events =>
    if match through_seq with None => true | Some through => bool_decide (se_seq e ≤ through)%N end
    then e :: take_through through_seq events else []
  end.

(** What follows an invocation. *)
Definition after_invocation (i : Invocation) (outcome : CustomEventInvocationOutcome) : LanePc :=
  match i with
  | Inv_live _ => Pc_idle
  | Inv_durable round event rest delay =>
    match outcome with
    | Outcome_Consumed => Pc_events round rest
    | Outcome_Paused => Pc_idle
    | Outcome_Retry => Pc_backoff round event rest delay
    end
  end.

(** The round ends with [false]. *)
Definition round_failed (i : Invocation) : LanePc :=
  match i with Inv_durable round _ _ _ => Pc_wait (rd_through round) (rd_delay round) | Inv_live _ => Pc_idle end.

(** The end of [run_custom_event_invocation] with its [ActiveDelivery]. *)
Definition end_invocation (i : Invocation) (outcome : CustomEventInvocationOutcome) (sh : Shared) : Shared * LanePc :=
  (set_active (pred (sh_active sh)) sh, after_invocation i outcome).

Definition report_failure (i : Invocation) (state : EventConsumerState) (reason : string) (explicit_dead_letter : bool)
    (fault : Fault) (sh : Shared) : Shared * CustomEventInvocationOutcome :=
  let sh := record_failure sh in
  let limit := if explicit_dead_letter then 1%N else CUSTOM_EVENT_QUARANTINE_AFTER in
  let unrecorded sh := if explicit_dead_letter then (record_success sh, Outcome_Consumed) else (sh, Outcome_Retry) in
  match inv_seq i with
  | None => unrecorded sh
  | Some seq =>
    let '(sh, r) := write_failure (revision state) seq reason limit fault sh in
    match r with
    | Ok (Failure_Quarantined _) | Ok Failure_AlreadyConsumed => (record_success sh, Outcome_Consumed)
    | Ok (Failure_Recorded _) => unrecorded sh
    | Ok Failure_StaleRevision | Err _ => (sh, Outcome_Retry)
    end
  end.

Definition report_ack (i : Invocation) (state : EventConsumerState) (fault : Fault) (sh : Shared)
    : Shared * CustomEventInvocationOutcome :=
  match inv_seq i with
  | None => (record_success sh, Outcome_Consumed)
  | Some seq =>
    let '(sh, r) := write_checkpoint (revision state) seq fault sh in
    match r with
    | Ok Checkpoint_Accepted => (record_success sh, Outcome_Consumed)
    | Ok Checkpoint_StaleRevision => (sh, Outcome_Retry)
    | Err _ => (record_failure sh, Outcome_Retry)
    end
  end.

(** The look at the state before the handler is called. *)
Definition look (i : Invocation) (fault : Fault) (sh : Shared) : Shared * LanePc :=
  match store_read fault sh with
  | Err _ => end_invocation i Outcome_Retry (record_failure sh)
  | Ok state =>
    if paused state then end_invocation i Outcome_Paused sh
    else if match inv_seq i with Some seq => consumed state seq | None => false end then end_invocation i Outcome_Consumed sh
    else (add_fact (Fact_Called (inv_seq i)) sh, Pc_handler i state)
  end.

Definition handled (i : Invocation) (state : EventConsumerState) (d : CustomEventDisposition) (sh : Shared) : Shared * LanePc :=
  (match d, inv_seq i with Disp_Ack, Some seq => add_fact (Fact_Acked seq) sh | _, _ => sh end, Pc_report i state d).

Definition report (i : Invocation) (state : EventConsumerState) (d : CustomEventDisposition) (fault : Fault) (sh : Shared)
    : Shared * LanePc :=
  let '(sh, outcome) := match failure_of d with
                        | Some (reason, explicit) => report_failure i state reason explicit fault sh
                        | None => report_ack i state fault sh
                        end in
  end_invocation i outcome sh.

(** The last write of a round. *)
Definition checkpoint_round (round : Round) (fault : Fault) (sh : Shared) : Shared * LanePc :=
  match rd_head round with
  | None => (record_success sh, Pc_idle)
  | Some head =>
    let '(sh, r) := write_checkpoint (revision (rd_state round)) head fault sh in
    match r with
    | Ok Checkpoint_Accepted => (record_success sh, Pc_idle)
    | Ok Checkpoint_StaleRevision => (sh, Pc_wait (rd_through round) (rd_delay round))
    | Err _ => (record_failure sh, Pc_wait (rd_through round) (rd_delay round))
    end
  end.

Definition start_round (through : option N) (delay : N) (fault : Fault) (sh : Shared) : Shared * LanePc :=
  match store_read fault sh with
  | Err _ => (record_failure sh, Pc_wait through delay)
  | Ok state => (sh, if paused state then Pc_idle else Pc_replay through delay state)
  end.

Definition replay_round (through : option N) (delay : N) (state : EventConsumerState) (fault : Fault) (sh : Shared)
    : Shared * LanePc :=
  match fault with
  | Some _ => (record_failure sh, Pc_wait through delay)
  | None =>
    let events := take_through through (replay (checkpoint state) (sh_log sh)) in
    (sh, Pc_events {| rd_through := through; rd_delay := delay; rd_state := state; rd_head := se_seq <$> last events |} events)
  end.

(** The step of a lane other than from its mailbox, if the answer is one to what it waits for. *)
Definition pc_step (pc : LanePc) (a : Answer) (sh : Shared) : option (Shared * LanePc) :=
  match pc, a with
  | Pc_reconcile through delay, A_store fault => Some (start_round through delay fault sh)
  | Pc_replay through delay state, A_store fault => Some (replay_round through delay state fault sh)
  | Pc_events round [], A_go => Some (sh, Pc_checkpoint round)
  | Pc_events round (e :: rest), A_go =>
    Some (sh, if delivers e then Pc_permit (Inv_durable round e rest CUSTOM_EVENT_RETRY_INITIAL_DELAY) else Pc_events round rest)
  | Pc_events round (e :: rest), A_refused => if delivers e then Some (sh, Pc_wait (rd_through round) (rd_delay round)) else None
  | Pc_permit i, A_go => Some (set_active (S (sh_active sh)) sh, Pc_look i)
  | Pc_permit i, A_refused | Pc_permit i, A_cancelled => Some (sh, round_failed i)
  | Pc_look i, A_store fault => Some (look i fault sh)
  | Pc_handler i state, A_handler r => Some (handled i state (disposition_of r) sh)
  | Pc_report i state d, A_store fault => Some (report i state d fault sh)
  | Pc_backoff round e rest delay, A_go => Some (sh, Pc_permit (Inv_durable round e rest (next_delay delay)))
  | Pc_backoff round e rest delay, A_cancelled => Some (sh, Pc_wait (rd_through round) (rd_delay round))
  | Pc_checkpoint round, A_store fault => Some (checkpoint_round round fault sh)
  | Pc_wait through delay, A_go => Some (sh, Pc_reconcile through (next_delay delay))
  | Pc_wait through delay, A_cancelled => Some (sh, Pc_idle)
  | _, _ => None
  end.

(** [run_custom_event_lane]; the context of a live event may not be had, and a lane nobody refers to any more ends like
    one that is cancelled. *)
Definition lane_step (l : Lane) (a : Answer) (sh : Shared) : option (Shared * Lane) :=
  match ln_pc l with
  | Pc_idle =>
    match a, ln_mailbox l with
    | A_cancelled, _ => Some (sh, {| ln_mailbox := []; ln_queued := ln_queued l; ln_pc := Pc_stopped |})
    | A_go, Cmd_Live event :: mailbox =>
      Some (set_active (S (sh_active sh)) sh,
            {| ln_mailbox := mailbox; ln_queued := ln_queued l; ln_pc := Pc_look (Inv_live event) |})
    | A_refused, Cmd_Live _ :: mailbox =>
      Some (sh, {| ln_mailbox := mailbox; ln_queued := ln_queued l; ln_pc := Pc_idle |})
    | A_go, Cmd_ReconcileDurable through :: mailbox =>
      Some (sh, {| ln_mailbox := mailbox; ln_queued := match through with None => false | Some _ => ln_queued l end;
                   ln_pc := Pc_reconcile through CUSTOM_EVENT_RETRY_INITIAL_DELAY |})
    | _, _ => None
    end
  | pc =>
    match pc_step pc a sh with
    | Some (sh, pc) => Some (sh, {| ln_mailbox := ln_mailbox l; ln_queued := ln_queued l; ln_pc := pc |})
    | None => None
    end
  end.

Definition is_stopped (pc : LanePc) : bool := match pc with Pc_stopped => true | _ => false end.

Definition push_command (c : LaneCommand) (queued : bool) (l : Lane) : Lane :=
  {| ln_mailbox := ln_mailbox l ++ [c]; ln_queued := queued; ln_pc := ln_pc l |}.

Definition signal_durable_custom_events (through_seq : option N) (l : Lane) : Lane :=
  match through_seq with
  | None =>
    if ln_queued l then l
    else if is_stopped (ln_pc l) then {| ln_mailbox := ln_mailbox l; ln_queued := false; ln_pc := ln_pc l |}
    else push_command (Cmd_ReconcileDurable None) true l
  | Some _ =>
    if is_stopped (ln_pc l) then l else push_command (Cmd_ReconcileDurable through_seq) (ln_queued l) l
  end.

(** ** Controls *)

Definition control_step (c : ControlPc) (a : Answer) (sh : Shared) : option (Shared * ControlPc) :=
  match c, a with
  | Ctl_read reset, A_store fault =>
    Some (sh, match store_read fault sh with Ok s => Ctl_pause reset (paused s) | Err _ => Ctl_failed end)
  | Ctl_pause reset previous, A_store fault =>
    let '(sh, r) := write_paused true fault sh in
    Some (sh, match r with Ok _ => Ctl_idle reset previous | Err _ => Ctl_failed end)
  | Ctl_idle reset previous, A_go => if Nat.eqb (sh_active sh) 0 then Some (sh, Ctl_reset reset previous) else None
  | Ctl_idle reset previous, A_refused => Some (sh, Ctl_recover previous)
  | Ctl_reset reset previous, A_store fault =>
    let '(sh, r) := write_reset reset fault sh in
    Some (sh, match r with Ok _ => Ctl_restore previous | Err _ => Ctl_recover previous end)
  | Ctl_restore previous, A_store fault =>
    let '(sh, r) := write_paused previous fault sh in
    Some (sh, match r with Ok _ => if previous then Ctl_done else Ctl_wake | Err _ => Ctl_failed end)
  | Ctl_recover previous, A_store fault =>
    let '(sh, r) := write_paused previous fault sh in
    Some (sh, match r with Ok _ => if previous then Ctl_failed else Ctl_recover_wake | Err _ => Ctl_failed end)
  | _, _ => None
  end.

(** ** The system *)

Inductive DeliveryEvent :=
| Ev_append (e : StoredEvent)                             (** the session records an event *)
| Ev_signal (lane : nat) (through_seq : option N)         (** [observe_custom_event], [reconcile_custom_events], a resume *)
| Ev_live (lane : nat) (event : CustomEventData)          (** [observe_custom_event] of a live event, with its permit *)
| Ev_lane (lane : nat) (a : Answer)
| Ev_paused (p : bool) (fault : Fault)                    (** the actions [Pause] and [Resume] *)
| Ev_reset (control : nat) (reset : EventConsumerCheckpointReset)
| Ev_control (control : nat) (a : Answer)
| Ev_wake (control : nat) (lane : nat)                    (** [wake_custom_event_consumer] *)
| Ev_restart.                                             (** the process ends and starts again *)

Definition lane_at (d : Delivery) (i : nat) : Lane := default lane_new (dv_lanes d !! i).
Definition with_lane (i : nat) (l : Lane) (d : Delivery) : Delivery :=
  {| dv_shared := dv_shared d; dv_lanes := <[i := l]> (dv_lanes d); dv_controls := dv_controls d |}.
Definition with_control (i : nat) (c : ControlPc) (d : Delivery) : Delivery :=
  {| dv_shared := dv_shared d; dv_lanes := dv_lanes d; dv_controls := <[i := c]> (dv_controls d) |}.
Definition with_shared (sh : Shared) (d : Delivery) : Delivery :=
  {| dv_shared := sh; dv_lanes := dv_lanes d; dv_controls := dv_controls d |}.

Definition delivery_step (ev : DeliveryEvent) (d : Delivery) : option Delivery :=
  match ev with
  | Ev_append e =>
    if bool_decide (se_seq e = event_count (dv_shared d))
    then Some (with_shared (set_log (sh_log (dv_shared d) ++ [e]) (dv_shared d)) d) else None
  | Ev_signal i through => Some (with_lane i (signal_durable_custom_events through (lane_at d i)) d)
  | Ev_live i event =>
    if custom_event_matches_subscription subscription event && negb (is_stopped (ln_pc (lane_at d i)))
    then Some (with_lane i (push_command (Cmd_Live event) (ln_queued (lane_at d i)) (lane_at d i)) d) else None
  | Ev_lane i a =>
    match dv_lanes d !! i with
    | Some l => match lane_step l a (dv_shared d) with
                | Some (sh, l) => Some (with_lane i l (with_shared sh d))
                | None => None
                end
    | None => None
    end
  | Ev_paused p fault => Some (with_shared (write_paused p fault (dv_shared d)).1 d)
  | Ev_reset n reset => match dv_controls d !! n with None => Some (with_control n (Ctl_read reset) d) | Some _ => None end
  | Ev_control n a =>
    match dv_controls d !! n with
    | Some c => match control_step c a (dv_shared d) with
                | Some (sh, c) => Some (with_control n c (with_shared sh d))
                | None => None
                end
    | None => None
    end
  | Ev_wake n i =>
    match dv_controls d !! n with
    | Some Ctl_wake => Some (with_control n Ctl_done (with_lane i (signal_durable_custom_events None (lane_at d i)) d))
    | Some Ctl_recover_wake => Some (with_control n Ctl_failed (with_lane i (signal_durable_custom_events None (lane_at d i)) d))
    | _ => None
    end
  | Ev_restart =>
    Some {| dv_shared := {| sh_log := sh_log (dv_shared d); sh_file := sh_file (dv_shared d); sh_active := 0; sh_failed := 0;
                            sh_consecutive := 0; sh_trace := sh_trace (dv_shared d) |};
            dv_lanes := ∅; dv_controls := ∅ |}
  end.

(** A session is opened with the log and the consumer's file it has. *)
Definition delivery_open (log : list StoredEvent) (file : option PersistedEventConsumerState) : Delivery :=
  {| dv_shared := {| sh_log := log; sh_file := file; sh_active := 0; sh_failed := 0; sh_consecutive := 0; sh_trace := [] |};
     dv_lanes := ∅; dv_controls := ∅ |}.

Definition delivery_run (evs : list DeliveryEvent) (d : Delivery) : option Delivery :=
  foldl (λ d ev, d ≫= delivery_step ev) (Some d) evs.

End consumer.
