(* ===== verification/ExtDeliveryProofs.v ===== *)
(** * What the delivery of custom events promises

    Nothing is passed over: an event below the checkpoint of a consumer was acknowledged, quarantined or skipped on
    demand, across lanes, controls, failures of the storage and restarts.  And a handler cannot hold up its consumer. *)

From stdpp Require Import sorting.
From S2P Require Import Prelude Utf8 CoreTypes CoreLlm CoreEvent ProjViews ProjContext ProjReducer StoreTypes StoreConsumers StdPath StdStr ExtCatalog ExtRoutes ExtRegister ExtHooks ExtDelivery.

Lemma sorted_of_lookup {A} (R : relation A) (l : list A) :
  (∀ i j a b, l !! i = Some a → l !! j = Some b → (i < j)%nat → R a b) → StronglySorted R l.
Proof.
  induction l as [|x l IH]; intros Hl; constructor.
  - apply IH. intros i j a b Hi Hj Hij. apply (Hl (S i) (S j)); [done|done|lia].
  - apply Forall_forall. intros y [j Hj]%list_elem_of_lookup. apply (Hl 0%nat (S j)); [done|done|lia].
Qed.

Lemma sorted_filter {A} (R : relation A) (P : A → Prop) `{∀ x, Decision (P x)} l :
  StronglySorted R l → StronglySorted R (filter P l).
Proof.
  induction 1 as [|x l _ IH Hx]; [constructor|]. rewrite filter_cons. case_decide; [|done]. constructor; [done|].
  apply Forall_forall. intros y [_ Hy]%list_elem_of_filter. rewrite Forall_forall in Hx. by apply Hx.
Qed.

(** ** Edits of the consumer's file, with their results *)

Lemma edit_consumer_state_cases {T} path file cnt id bound (edit : EventConsumerState → N
    → result (EventConsumerState * ConsumerStateEdit T) StorageError) s :
  holds path cnt file s →
  let r := edit_consumer_state path file cnt id bound edit in
  r.1 = file ∨
  ∃ s' v, r = (Some (persisted_from s'), Ok v) ∧ edit s cnt = Ok (s', Changed v)
    ∧ match bound with Some (_, seq) => (seq < cnt)%N | None => True end.
Proof.
  intros (Hr & Ha & Hl). unfold edit_consumer_state. rewrite Hr.
  destruct (match bound with Some (noun, seq) => _ | None => _ end) as [[]|] eqn:Hb; [|by left].
  destruct (validate_event_consumer_id id) as [[]|]; [|by left]. simpl.
  destruct (edit s cnt) as [[s' [v|v]]|] eqn:He; [|by left..].
  destruct (write_event_consumer_state s') as [p|] eqn:Hw; [|by left]. right. exists s', v.
  unfold write_event_consumer_state in Hw. destruct (validate_audit_bounds s'); [|done]. injection Hw as <-.
  split_and!; [done|done|]. destruct bound as [[noun seq]|]; [|done]. case_bool_decide; [done|lia].
Qed.

Lemma holds_unique path cnt cnt' file s s' : holds path cnt file s → holds path cnt' file s' → s = s'.
Proof. intros (H1 & _) (H2 & _). congruence. Qed.

Section safety.
Context (path consumer_id : string) (subscription : CustomEventSubscription).

Abbreviation delivers := (delivers subscription).

(** ** The invariant *)

Definition settled (trace : list Fact) (seq : N) : Prop :=
  Fact_Acked seq ∈ trace ∨ Fact_Quarantined seq ∈ trace ∨ ∃ n, Fact_Skipped n ∈ trace ∧ (seq < n)%N.

Definition below (bound : option N) (seq : N) : Prop := match bound with Some n => (seq ≤ n)%N | None => False end.

(** Nothing is passed over below a number. *)
Definition settled_upto (sh : Shared) (bound : option N) : Prop :=
  ∀ e, e ∈ sh_log sh → delivers e = true → below bound (se_seq e) → settled (sh_trace sh) (se_seq e).

(** What is left of a round: events of the log in their order, up to the head; every other one is settled. *)
Record remaining (sh : Shared) (head : option N) (l : list StoredEvent) : Prop := {
  rm_sorted : StronglySorted (λ a b, se_seq a < se_seq b)%N l;
  rm_log : ∀ e, e ∈ l → e ∈ sh_log sh ∧ below head (se_seq e);
  rm_settled : ∀ e, e ∈ sh_log sh → delivers e = true → below head (se_seq e) → settled (sh_trace sh) (se_seq e) ∨ e ∈ l;
  rm_head : ∀ n, head = Some n → (n < event_count sh)%N;
}.

Definition invocation_ok (sh : Shared) (i : Invocation) : Prop :=
  match i with
  | Inv_durable round e rest _ => remaining sh (rd_head round) (e :: rest)
  | Inv_live _ => True
  end.

Definition pc_ok (sh : Shared) (pc : LanePc) : Prop :=
  match pc with
  | Pc_replay _ _ s => settled_upto sh (checkpoint s) ∧ ∀ n, checkpoint s = Some n → (n < event_count sh)%N
  | Pc_events round l => remaining sh (rd_head round) l
  | Pc_permit i | Pc_look i | Pc_handler i _ => invocation_ok sh i
  | Pc_report i _ d =>
    invocation_ok sh i ∧ ∀ seq, inv_seq i = Some seq → d = Disp_Ack → Fact_Acked seq ∈ sh_trace sh
  | Pc_backoff round e rest _ => remaining sh (rd_head round) (e :: rest)
  | Pc_checkpoint round => remaining sh (rd_head round) []
  | _ => True
  end.

Definition log_ok (sh : Shared) : Prop := ∀ i e, sh_log sh !! i = Some e → se_seq e = N.of_nat i.

Definition file_ok (sh : Shared) : Prop :=
  ∃ s, holds path (event_count sh) (sh_file sh) s ∧ settled_upto sh (checkpoint s).

Record shared_ok (sh : Shared) : Prop := { so_log : log_ok sh; so_file : file_ok sh }.

Record delivery_ok (d : Delivery) : Prop := {
  do_shared : shared_ok (dv_shared d);
  do_lanes : ∀ i l, dv_lanes d !! i = Some l → pc_ok (dv_shared d) (ln_pc l);
}.

(** The log and the trace only grow. *)
Record grows (sh sh' : Shared) : Prop := {
  gr_log : ∃ k, sh_log sh' = sh_log sh ++ k;
  gr_trace : ∃ k, sh_trace sh' = sh_trace sh ++ k;
}.

Lemma grows_refl sh : grows sh sh.
Proof. split; exists []; by rewrite app_nil_r. Qed.

Lemma grows_trans sh1 sh2 sh3 : grows sh1 sh2 → grows sh2 sh3 → grows sh1 sh3.
Proof.
  intros [[k Hk] [t Ht]] [[k' Hk'] [t' Ht']]. split.
  - exists (k ++ k'). by rewrite Hk', Hk, app_assoc.
  - exists (t ++ t'). by rewrite Ht', Ht, app_assoc.
Qed.

Lemma settled_grows t k seq : settled t seq → settled (t ++ k) seq.
Proof. unfold settled. setoid_rewrite elem_of_app. naive_solver. Qed.

Lemma new_events_above sh sh' e :
  log_ok sh' → grows sh sh' → e ∈ sh_log sh' → (se_seq e < event_count sh)%N → e ∈ sh_log sh.
Proof.
  intros Hl [[k Hk] _] He Hs. apply list_elem_of_lookup in He as [i Hi]. rewrite (Hl _ _ Hi) in Hs. unfold event_count in Hs.
  rewrite Hk, lookup_app_l in Hi by lia. by eapply list_elem_of_lookup_2.
Qed.

Lemma settled_upto_grows sh sh' bound :
  log_ok sh' → grows sh sh' → (∀ n, bound = Some n → (n < event_count sh)%N) → settled_upto sh bound → settled_upto sh' bound.
Proof.
  intros Hl Hg Hb Hs e He Hd Hbe. destruct bound as [n|]; [|done]. specialize (Hb n eq_refl). simpl in Hbe.
  assert (e ∈ sh_log sh) as He' by (eapply new_events_above; [done..|lia]).
  destruct Hg as [_ [t ->]]. by apply settled_grows, Hs.
Qed.

Lemma event_count_grows sh sh' : grows sh sh' → (event_count sh ≤ event_count sh')%N.
Proof. intros [[k Hk] _]. unfold event_count. rewrite Hk, length_app. lia. Qed.

Lemma remaining_grows sh sh' head l : log_ok sh' → grows sh sh' → remaining sh head l → remaining sh' head l.
Proof.
  intros Hl Hg [H1 H2 H3 H4]. pose proof (event_count_grows _ _ Hg). split; [done| | |].
  - intros e He. destruct (H2 e He) as [Hin Hb]. split; [|done]. destruct Hg as [[k ->] _]. apply elem_of_app. by left.
  - intros e He Hd Hb. assert (e ∈ sh_log sh) as He'.
    { destruct head as [n|]; [|done]. specialize (H4 n eq_refl). simpl in Hb. eapply new_events_above; [done..|lia]. }
    destruct (H3 e He' Hd Hb) as [Hs|Hs]; [left|by right]. destruct Hg as [_ [t ->]]. by apply settled_grows.
  - intros n Hn. specialize (H4 n Hn). lia.
Qed.

Lemma pc_ok_grows sh sh' pc : log_ok sh' → grows sh sh' → pc_ok sh pc → pc_ok sh' pc.
Proof.
  intros Hl Hg. assert (∀ i, invocation_ok sh i → invocation_ok sh' i) as Hi.
  { intros [round e rest d|e]; [|done]. by apply remaining_grows. }
  destruct pc; simpl; try done; try by apply remaining_grows.
  - intros [Hs Hb]. split; [by eapply settled_upto_grows|]. intros n Hn. specialize (Hb n Hn).
    pose proof (event_count_grows _ _ Hg). lia.
  - by apply Hi.
  - by apply Hi.
  - by apply Hi.
  - intros [H1 H2]. split; [by apply Hi|]. intros seq Hseq Hd. destruct Hg as [_ [t ->]]. apply elem_of_app. left. by apply H2.
Qed.

(** ** Shared steps *)

(** The log and the file are the same, and the trace only grows. *)
Definition same_store (sh sh' : Shared) : Prop :=
  sh_log sh' = sh_log sh ∧ sh_file sh' = sh_file sh ∧ ∃ k, sh_trace sh' = sh_trace sh ++ k.

Lemma same_store_ok sh sh' : same_store sh sh' → shared_ok sh → shared_ok sh' ∧ grows sh sh'.
Proof.
  intros (Hl & Hf & [k Ht]) [Hlog (s & Hs & Hup)].
  assert (grows sh sh') as Hg by (split; [exists []; by rewrite app_nil_r|by exists k]).
  split; [|done]. split; [unfold log_ok; by rewrite Hl|]. exists s. unfold event_count. rewrite Hl, Hf. split; [done|].
  intros e He Hd Hb. rewrite Hl in He. rewrite Ht. by apply settled_grows, Hup.
Qed.

Lemma same_store_refl sh : same_store sh sh.
Proof. split_and!; [done|done|]. exists []. by rewrite app_nil_r. Qed.
Lemma same_store_fact f sh : same_store sh (add_fact f sh).
Proof. split_and!; [done|done|]. by exists [f]. Qed.
Lemma same_store_trans a b c : same_store a b → same_store b c → same_store a c.
Proof.
  intros (H1 & H2 & [k Hk]) (H3 & H4 & [l Hl]). split_and!; [congruence..|]. exists (k ++ l). by rewrite Hl, Hk, app_assoc.
Qed.

Lemma store_write_cases {T} (op : option PersistedEventConsumerState * result T StorageError) fact fault sh :
  same_store sh (store_write op fact fault sh).1
  ∨ sh_log (store_write op fact fault sh).1 = sh_log sh ∧ sh_file (store_write op fact fault sh).1 = op.1
    ∧ ∃ k, sh_trace (store_write op fact fault sh).1 = sh_trace sh ++ k
      ∧ ∀ v f, op.2 = Ok v → fact v = Some f → f ∈ k.
Proof.
  destruct op as [file r]. unfold store_write. destruct fault as [[[] e]|]; [right|left; apply same_store_refl|right].
  all: simpl; destruct r as [v|e']; [destruct (fact v) as [f|] eqn:Hf|]; simpl.
  all: (split_and!; [done|done|]); (exists [f] || exists []); rewrite ?app_nil_r; (split; [done|]); intros v' f' Hv Hf'; simplify_eq.
  all: by apply list_elem_of_singleton.
Qed.

(** A write keeps the invariant if what it changes may be changed. *)
Lemma store_write_ok {T} id bound (edit : EventConsumerState → N → result (EventConsumerState * ConsumerStateEdit T) StorageError)
    fact fault sh :
  let op := edit_consumer_state path (sh_file sh) (event_count sh) id bound edit in
  shared_ok sh →
  (∀ s s' v k, holds path (event_count sh) (sh_file sh) s → settled_upto sh (checkpoint s) →
     edit s (event_count sh) = Ok (s', Changed v) → match bound with Some (_, seq) => (seq < event_count sh)%N | None => True end →
     (∀ f, fact v = Some f → f ∈ k) →
     holds path (event_count sh) (Some (persisted_from s')) s'
     ∧ ∀ e, e ∈ sh_log sh → delivers e = true → below (checkpoint s') (se_seq e) → settled (sh_trace sh ++ k) (se_seq e)) →
  shared_ok (store_write op fact fault sh).1 ∧ grows sh (store_write op fact fault sh).1.
Proof.
  intros op Hok Hedit. destruct (store_write_cases op fact fault sh) as [Hs|(Hl & Hf & k & Ht & Hk)]; [by apply same_store_ok|].
  assert (grows sh (store_write op fact fault sh).1) as Hg by (split; [exists []; by rewrite app_nil_r|by exists k]).
  split; [|done]. destruct Hok as [Hlog (s & Hs & Hup)]. split; [unfold log_ok; by rewrite Hl|].
  destruct (edit_consumer_state_cases path _ _ id bound edit s Hs) as [He|(s' & v & He & Hedit' & Hb)]; fold op in He.
  - exists s. unfold event_count. rewrite Hl, Hf, He. split; [done|]. intros e Hin Hd Hbe. rewrite Hl in Hin. rewrite Ht.
    by apply settled_grows, Hup.
  - destruct (Hedit s s' v k Hs Hup Hedit' Hb) as [Hh Hset]; [intros f; apply Hk; by rewrite He|].
    exists s'. split.
    { unfold event_count. rewrite Hl, Hf, He. exact Hh. }
    intros e Hin. rewrite Hl in Hin. rewrite Ht. by apply Hset.
Qed.

Lemma holds_persisted cnt s : audit_ok s → in_log cnt s → holds path cnt (Some (persisted_from s)) s.
Proof. intros. split; [by apply read_persisted|done]. Qed.

(** Edits that leave the checkpoint or move it where nothing is passed over. *)
Lemma write_checkpoint_ok rev seq fault sh :
  shared_ok sh → settled_upto sh (Some seq) →
  let r := write_checkpoint path consumer_id rev seq fault sh in shared_ok r.1 ∧ grows sh r.1.
Proof.
  intros Hok Hset. apply store_write_ok; [done|]. intros s s' v k (Hr & Ha & Hl) Hup He Hb _.
  destruct (checkpoint_edit_sound _ rev seq Hb s s' v He Ha Hl) as (Ha' & Hl' & _). split; [by apply holds_persisted|].
  intros e Hin Hd Hbe. apply settled_grows. unfold checkpoint_edit in He. case_bool_decide; [done|].
  destruct (consumed s seq); [done|]. injection He as <- _. by apply Hset.
Qed.

Lemma write_failure_ok rev seq reason limit fault sh :
  shared_ok sh → (∀ e, e ∈ sh_log sh → delivers e = true → (se_seq e < seq)%N → settled (sh_trace sh) (se_seq e)) →
  let r := write_failure path consumer_id rev seq reason limit fault sh in shared_ok r.1 ∧ grows sh r.1.
Proof.
  intros Hok Hset. unfold write_failure, record_event_consumer_failure. case_bool_decide.
  { destruct (store_write_cases (sh_file sh, Err (InvalidId "event consumer quarantine limit must be greater than zero"))
      (λ v, match v with Failure_Quarantined _ => Some (Fact_Quarantined seq) | _ => None end) fault sh) as [Hs|(Hl & Hf & k & Ht & _)];
      [by apply same_store_ok|]. apply same_store_ok; [|done]. split_and!; [done|done|by exists k]. }
  apply store_write_ok; [done|]. intros s s' v k (Hr & Ha & Hl) Hup He Hb Hk.
  destruct (failure_edit_sound _ rev seq reason limit Hb s s' v He Ha Hl) as (Ha' & Hl' & _). split; [by apply holds_persisted|].
  intros e Hin Hd Hbe. unfold failure_edit in He. case_bool_decide; [done|]. destruct (consumed s seq); [done|].
  destruct (checked_add _ _ _) as [n|]; [|done]. simpl in He. case_bool_decide.
  - destruct (record_quarantine _ _ _ _) as [s1|]; [|done]. injection He as <- <-. simpl in Hbe.
    destruct (decide (se_seq e = seq)) as [->|Hne]; [|apply settled_grows, Hset; [done|done|lia]].
    right. left. apply elem_of_app. right. by apply Hk.
  - injection He as <- <-. apply settled_grows. by apply Hup.
Qed.

Lemma write_paused_ok p fault sh :
  shared_ok sh → let r := write_paused path consumer_id p fault sh in shared_ok r.1 ∧ grows sh r.1.
Proof.
  intros Hok. apply store_write_ok; [done|]. intros s s' v k (Hr & Ha & Hl) Hup He Hb _.
  destruct (pause_edit_sound _ p s s' v He Ha Hl) as (Ha' & Hl' & _). split; [by apply holds_persisted|].
  intros e Hin Hd Hbe. apply settled_grows. unfold pause_edit in He. case_bool_decide; [done|]. injection He as <- _. by apply Hup.
Qed.

Lemma write_reset_ok reset fault sh :
  shared_ok sh → let r := write_reset path consumer_id reset fault sh in shared_ok r.1 ∧ grows sh r.1.
Proof.
  intros Hok. apply store_write_ok; [done|]. intros s s' v k (Hr & Ha & Hl) Hup He Hb Hk.
  destruct (reset_edit_sound _ reset s s' v He Ha Hl) as (Ha' & Hl' & _). split; [by apply holds_persisted|].
  intros e Hin Hd Hbe. destruct reset.
  - unfold reset_edit in He. destruct (checked_add _ _ _); [|done]. simpl in He. injection He as <- _. done.
  - right. right. exists (event_count sh). split; [apply elem_of_app; right; by apply Hk|].
    apply list_elem_of_lookup in Hin as [i Hi]. destruct Hok as [Hlog _]. rewrite (Hlog _ _ Hi).
    apply lookup_lt_Some in Hi. unfold event_count. lia.
Qed.

(** ** Steps of a lane *)

Lemma log_sorted sh : log_ok sh → StronglySorted (λ a b, se_seq a < se_seq b)%N (sh_log sh).
Proof.
  intros Hl. apply sorted_of_lookup. intros i j a b Hi Hj Hij. rewrite (Hl _ _ Hi), (Hl _ _ Hj). lia.
Qed.

Lemma take_through_prefix t l : ∃ k, l = take_through t l ++ k.
Proof.
  induction l as [|e l [k Hk]]; [by exists []|]. simpl. destruct (match t with None => true | Some n => _ end).
  - exists k. simpl. by rewrite <-Hk.
  - by exists (e :: l).
Qed.

Lemma replay_remaining sh t c :
  log_ok sh → settled_upto sh c → (∀ n, c = Some n → (n < event_count sh)%N) →
  let l := take_through t (replay c (sh_log sh)) in remaining sh (se_seq <$> last l) l.
Proof.
  intros Hlog Hset Hc l. destruct (take_through_prefix t (replay c (sh_log sh))) as [k Hk]. fold l in Hk.
  assert (∀ e, e ∈ l ++ k → e ∈ sh_log sh) as Hin.
  { intros e. rewrite <-Hk. unfold replay. destruct c; [|done]. by intros [_ He]%list_elem_of_filter. }
  assert (StronglySorted (λ a b, se_seq a < se_seq b)%N (l ++ k)) as Hs.
  { rewrite <-Hk. unfold replay. destruct c; [|by apply log_sorted]. apply sorted_filter, log_sorted, Hlog. }
  assert (∀ e, e ∈ l → below (se_seq <$> last l) (se_seq e)) as Hlast.
  { intros e He. destruct (last l) as [z|] eqn:Hz; [|apply last_None in Hz; rewrite Hz in He; set_solver].
    apply last_Some in Hz as [l' Hz]. rewrite Hz in He, Hs. rewrite <-app_assoc in Hs. simpl.
    apply elem_of_app in He as [He| ->%list_elem_of_singleton]; [|done].
    apply (StronglySorted_app_1_elem_of _ _ _ e z) in Hs; [simpl in Hs; lia|done|set_solver]. }
  split.
  - by apply StronglySorted_app_1_l in Hs.
  - intros e He. split; [|by apply Hlast]. apply Hin, elem_of_app. by left.
  - intros e He Hd Hb. destruct (last l) as [z|] eqn:Hz; [|done]. simpl in Hb.
    assert (below c (se_seq e) ∨ e ∈ l ++ k) as [Hbe|Hlk].
    { rewrite <-Hk. unfold replay. destruct c as [n|]; [|by right]. simpl.
      destruct (decide (se_seq e ≤ n)%N); [by left|right]. apply list_elem_of_filter. split; [lia|done]. }
    + left. by apply Hset.
    + right. apply elem_of_app in Hlk as [|He']; [done|]. apply last_Some in Hz as [l' Hz].
      apply (StronglySorted_app_1_elem_of _ _ _ z e) in Hs; [simpl in Hs; lia|rewrite Hz; set_solver|done].
  - intros n Hn. destruct (last l) as [z|] eqn:Hz; [|done]. injection Hn as <-.
    apply last_Some in Hz as [l' Hz]. assert (z ∈ sh_log sh) as Hz'.
    { apply Hin, elem_of_app. left. rewrite Hz. set_solver. }
    apply list_elem_of_lookup in Hz' as [i Hi]. rewrite (Hlog _ _ Hi). apply lookup_lt_Some in Hi. unfold event_count. lia.
Qed.

Lemma remaining_tail sh head e rest :
  remaining sh head (e :: rest) → (delivers e = true → settled (sh_trace sh) (se_seq e)) → remaining sh head rest.
Proof.
  intros [H1 H2 H3 H4] He. split; [by inversion H1| | |done].
  - intros e' He'. apply H2. by right.
  - intros e' Hin Hd Hb. destruct (H3 e' Hin Hd Hb) as [|Hin']; [by left|]. apply elem_of_cons in Hin' as [->|]; [|by right].
    left. by apply He.
Qed.

Lemma remaining_below sh head e rest e' :
  remaining sh head (e :: rest) → e' ∈ sh_log sh → delivers e' = true → (se_seq e' < se_seq e)%N →
  settled (sh_trace sh) (se_seq e').
Proof.
  intros [H1 H2 H3 H4] Hin Hd Hlt. assert (below head (se_seq e)) as Hb by (apply H2; by left).
  assert (below head (se_seq e')) as Hb' by (unfold below in *; destruct head; [lia|done]).
  destruct (H3 e' Hin Hd Hb') as [|Hin']; [done|].
  apply elem_of_cons in Hin' as [->|Hin']; [lia|]. inversion H1 as [|? ? _ Hall]; subst. rewrite Forall_forall in Hall.
  specialize (Hall e' Hin'). simpl in Hall. lia.
Qed.

Lemma remaining_upto sh head e rest :
  log_ok sh → remaining sh head (e :: rest) → settled (sh_trace sh) (se_seq e) → settled_upto sh (Some (se_seq e)).
Proof.
  intros Hlog Hr Hs e' Hin Hd Hb. simpl in Hb. destruct (decide (se_seq e' = se_seq e)) as [->|]; [done|].
  eapply remaining_below; [done|done|done|lia].
Qed.

Lemma remaining_nil sh head : remaining sh head [] → settled_upto sh head.
Proof. intros [_ _ H3 _] e Hin Hd Hb. destruct (H3 e Hin Hd Hb) as [|Hn]; [done|]. by apply not_elem_of_nil in Hn. Qed.

Lemma store_read_ok fault sh s :
  shared_ok sh → store_read path consumer_id fault sh = Ok s →
  settled_upto sh (checkpoint s) ∧ ∀ n, checkpoint s = Some n → (n < event_count sh)%N.
Proof.
  intros [_ (s' & (Hr & Ha & Hl) & Hup)]. unfold store_read, event_consumer_state. destruct fault as [[]|]; [done|].
  destruct (validate_event_consumer_id consumer_id); [|done]. simpl. rewrite Hr. injection 1 as <-. split; [done|].
  intros n Hn. unfold in_log in Hl. by rewrite Hn in Hl.
Qed.

(** The answer of an edit is the answer of its closure. *)
Lemma edit_answer {T} file cnt id bound (edit : EventConsumerState → N
    → result (EventConsumerState * ConsumerStateEdit T) StorageError) s v :
  holds path cnt file s → (edit_consumer_state path file cnt id bound edit).2 = Ok v →
  ∃ s', edit s cnt = Ok (s', Changed v) ∨ edit s cnt = Ok (s', Unchanged v).
Proof.
  intros (Hr & _ & _). unfold edit_consumer_state. rewrite Hr.
  destruct (match bound with Some (noun, seq) => _ | None => _ end) as [[]|]; [|done].
  destruct (validate_event_consumer_id id) as [[]|]; [|done]. simpl.
  destruct (edit s cnt) as [[s' [w|w]]|] eqn:He; [| |done]; simpl.
  - destruct (write_event_consumer_state s'); [|done]. intros [= <-]. exists s'. by left.
  - intros [= <-]. exists s'. by right.
Qed.

(** What the answer to a failure that is reported says. *)
Lemma write_failure_answer rev seq reason limit fault sh v :
  shared_ok sh → (write_failure path consumer_id rev seq reason limit fault sh).2 = Ok v →
  match v with
  | Failure_Quarantined _ => settled (sh_trace (write_failure path consumer_id rev seq reason limit fault sh).1) seq
  | Failure_AlreadyConsumed => settled_upto sh (Some seq)
  | Failure_Recorded n => (1 < limit)%N
  | Failure_StaleRevision => True
  end.
Proof.
  intros [_ (s & Hs & Hup)]. unfold write_failure.
  assert (∀ v, (record_event_consumer_failure path consumer_id (event_count sh) (sh_file sh) rev seq reason limit).2 = Ok v →
    match v with Failure_AlreadyConsumed => consumed s seq = true | Failure_Recorded n => (1 < limit)%N | _ => True end) as Hv.
  { intros w. unfold record_event_consumer_failure. case_bool_decide; [done|].
    intros (s' & He)%(edit_answer _ _ _ _ _ s); [|done]. unfold failure_edit in He. case_bool_decide; [by destruct He; simplify_eq|].
    destruct (consumed s seq) eqn:Hc; [by destruct He; simplify_eq|].
    destruct (checked_add _ _ _) as [n|] eqn:Hn; [|by destruct He]. apply checked_add_Some in Hn as [-> _]. simpl in He.
    case_bool_decide; [|destruct He; simplify_eq; lia]. by destruct (record_quarantine _ _ _ _); destruct He; simplify_eq. }
  destruct (record_event_consumer_failure _ _ _ _ _ _ _ _) as [file r]. simpl in Hv. unfold store_write.
  destruct fault as [[[] e]|]; [done|done|]. simpl. intros ->. specialize (Hv v eq_refl).
  destruct v; simpl; [done| |unfold settled_upto, below|done].
  - right. left. apply elem_of_app. right. by apply list_elem_of_singleton.
  - intros e He Hd Hb. apply Hup; [done|done|]. unfold consumed in Hv. destruct (checkpoint s); [|done].
    apply bool_decide_eq_true in Hv. simpl. lia.
Qed.

(** After an invocation the event is settled, or it is tried again. *)
Lemma after_ok sh i outcome :
  invocation_ok sh i →
  (outcome = Outcome_Consumed → match i with
                                | Inv_durable _ e _ _ => delivers e = true → settled (sh_trace sh) (se_seq e)
                                | Inv_live _ => True
                                end) →
  pc_ok sh (after_invocation i outcome).
Proof.
  destruct i as [round e rest delay|e]; [|done]. intros Hi Hs. destruct outcome; simpl; [|done..].
  eapply remaining_tail; [done|]. by apply Hs.
Qed.

(** The counters are no part of the store. *)
Lemma same_store_failure sh : same_store sh (record_failure sh).
Proof. split_and!; [done|done|]. exists []. by rewrite app_nil_r. Qed.
Lemma same_store_success sh : same_store sh (record_success sh).
Proof. split_and!; [done|done|]. exists []. by rewrite app_nil_r. Qed.
Lemma same_store_active n sh : same_store sh (set_active n sh).
Proof. split_and!; [done|done|]. exists []. by rewrite app_nil_r. Qed.

(** [sh'] comes after [sh] and is well formed. *)
Definition follows (sh sh' : Shared) : Prop := shared_ok sh' ∧ grows sh sh'.

Lemma follows_store sh sh1 sh2 : follows sh sh1 → same_store sh1 sh2 → follows sh sh2.
Proof.
  intros [Hok Hg] Hs. destruct (same_store_ok _ _ Hs Hok) as [Hok2 Hg2]. split; [done|]. by eapply grows_trans.
Qed.
Lemma follows_refl sh : shared_ok sh → follows sh sh.
Proof. intros. split; [done|apply grows_refl]. Qed.
Lemma follows_trans sh1 sh2 sh3 : follows sh1 sh2 → follows sh2 sh3 → follows sh1 sh3.
Proof. intros [_ H1] [H2 H3]. split; [done|]. by eapply grows_trans. Qed.

Lemma invocation_ok_follows sh sh' i : follows sh sh' → invocation_ok sh i → invocation_ok sh' i.
Proof. intros [[Hl _] Hg] Hi. by apply (pc_ok_grows sh sh' (Pc_look i)). Qed.

Lemma settled_follows sh sh' seq : follows sh sh' → settled (sh_trace sh) seq → settled (sh_trace sh') seq.
Proof. intros [_ [_ [k ->]]]. apply settled_grows. Qed.

(** The event of an invocation is settled. *)
Definition event_settled (sh : Shared) (i : Invocation) : Prop :=
  match i with
  | Inv_durable _ e _ _ => e ∈ sh_log sh → delivers e = true → settled (sh_trace sh) (se_seq e)
  | Inv_live _ => True
  end.

Lemma end_invocation_ok sh sh' i outcome :
  follows sh sh' → invocation_ok sh i → (outcome = Outcome_Consumed → event_settled sh' i) →
  follows sh (end_invocation i outcome sh').1 ∧ pc_ok (end_invocation i outcome sh').1 (end_invocation i outcome sh').2.
Proof.
  intros Hf Hi Hs. pose proof (same_store_active (pred (sh_active sh')) sh') as Ha.
  assert (follows sh (set_active (pred (sh_active sh')) sh')) as Hf' by (by eapply follows_store). split; [done|].
  pose proof (invocation_ok_follows _ _ _ Hf' Hi) as Hi'. apply after_ok; [done|]. intros Ho. destruct i as [round e rest delay|e]; [|done].
  intros Hd. apply Hs; [done| |done]. by apply (rm_log _ _ _ Hi' e); left.
Qed.

Lemma look_ok i fault sh :
  shared_ok sh → invocation_ok sh i →
  let r := look path consumer_id i fault sh in follows sh r.1 ∧ pc_ok r.1 r.2.
Proof.
  intros Hok Hi r. subst r. unfold look. destruct (store_read path consumer_id fault sh) as [state|e] eqn:Hread.
  - destruct (store_read_ok _ _ _ Hok Hread) as [Hup _].
    destruct (paused state); [apply end_invocation_ok; [by apply follows_refl|done|done]|].
    destruct (match inv_seq i with Some seq => consumed state seq | None => false end) eqn:Hc.
    + apply end_invocation_ok; [by apply follows_refl|done|]. intros _. destruct i as [round e rest delay|e]; [|done]. intros Hin Hd.
      simpl in Hc. unfold consumed in Hc. apply Hup; [done|done|]. destruct (checkpoint state); [|done].
      by apply bool_decide_eq_true in Hc.
    + assert (follows sh (add_fact (Fact_Called (inv_seq i)) sh)) as Hf.
      { eapply follows_store; [by apply follows_refl|apply same_store_fact]. }
      split; [done|]. by eapply invocation_ok_follows.
  - apply end_invocation_ok; [|done|done]. eapply follows_store; [by apply follows_refl|apply same_store_failure].
Qed.

Lemma handled_ok i state d sh :
  shared_ok sh → invocation_ok sh i → follows sh (handled i state d sh).1 ∧ pc_ok (handled i state d sh).1 (handled i state d sh).2.
Proof.
  intros Hok Hi. unfold handled. simpl.
  assert (follows sh (match d, inv_seq i with Disp_Ack, Some seq => add_fact (Fact_Acked seq) sh | _, _ => sh end)) as Hf.
  { destruct d, (inv_seq i); try by apply follows_refl. eapply follows_store; [by apply follows_refl|apply same_store_fact]. }
  split; [done|]. split; [by eapply invocation_ok_follows|]. intros seq -> ->. simpl. apply elem_of_app. right.
  by apply list_elem_of_singleton.
Qed.

Lemma report_failure_ok i state reason explicit fault sh :
  shared_ok sh → invocation_ok sh i →
  let r := report_failure path consumer_id i state reason explicit fault sh in
  follows sh r.1 ∧ (r.2 = Outcome_Consumed → event_settled r.1 i).
Proof.
  intros Hok Hi. unfold report_failure. set (limit := if explicit then 1%N else CUSTOM_EVENT_QUARANTINE_AFTER).
  assert (follows sh (record_failure sh)) as Hf by (eapply follows_store; [by apply follows_refl|apply same_store_failure]).
  destruct i as [round e rest delay|e]; simpl.
  2: { destruct explicit; simpl; (split; [|done]); [eapply follows_store; [done|apply same_store_success]|done]. }
  pose proof (invocation_ok_follows _ _ _ Hf Hi) as Hi1. simpl in Hi1.
  pose proof (write_failure_ok (revision state) (se_seq e) reason limit fault _ (proj1 Hf)
    (λ e' Hin Hd Hlt, remaining_below _ _ _ _ e' Hi1 Hin Hd Hlt)) as [Hok2 Hg2].
  pose proof (λ v, write_failure_answer (revision state) (se_seq e) reason limit fault (record_failure sh) v (proj1 Hf)) as Hans.
  assert (follows sh (write_failure path consumer_id (revision state) (se_seq e) reason limit fault (record_failure sh)).1) as Hf2.
  { split; [done|]. eapply grows_trans; [exact (proj2 Hf)|done]. }
  destruct (write_failure path consumer_id (revision state) (se_seq e) reason limit fault (record_failure sh)) as [sh2 r].
  simpl in *. assert (follows sh (record_success sh2)) as Hf3 by (eapply follows_store; [done|apply same_store_success]).
  destruct r as [[n|n| |]|err]; simpl; [|split; [done|]..].
  - specialize (Hans _ eq_refl). subst limit. destruct explicit; [simpl in Hans; lia|done].
  - intros _ Hin Hd. by apply (Hans _ eq_refl).
  - intros _ Hin Hd. apply (settled_follows sh sh2 _ Hf2), (Hans _ eq_refl e); [|done|simpl; lia].
    by apply (rm_log _ _ _ Hi1 e); left.
  - done.
  - done.
Qed.

Lemma report_ack_ok i state fault sh :
  shared_ok sh → invocation_ok sh i → (∀ seq, inv_seq i = Some seq → Fact_Acked seq ∈ sh_trace sh) →
  let r := report_ack path consumer_id i state fault sh in
  follows sh r.1 ∧ (r.2 = Outcome_Consumed → event_settled r.1 i).
Proof.
  intros Hok Hi Hack. unfold report_ack. destruct i as [round e rest delay|e]; simpl.
  2: { split; [|done]. eapply follows_store; [by apply follows_refl|apply same_store_success]. }
  assert (settled (sh_trace sh) (se_seq e)) as Hset by (left; by apply Hack).
  assert (follows sh (write_checkpoint path consumer_id (revision state) (se_seq e) fault sh).1) as Hf.
  { apply write_checkpoint_ok; [done|]. destruct Hok as [Hlog _]. by eapply remaining_upto. }
  destruct (write_checkpoint path consumer_id (revision state) (se_seq e) fault sh) as [sh1 r]. simpl in Hf.
  destruct r as [[]|err]; simpl.
  - split; [eapply follows_store; [done|apply same_store_success]|]. intros _ _ _. by eapply settled_follows in Hset.
  - by split.
  - split; [eapply follows_store; [done|apply same_store_failure]|done].
Qed.

Lemma report_ok i state d fault sh :
  shared_ok sh → invocation_ok sh i → (∀ seq, inv_seq i = Some seq → d = Disp_Ack → Fact_Acked seq ∈ sh_trace sh) →
  let r := report path consumer_id i state d fault sh in follows sh r.1 ∧ pc_ok r.1 r.2.
Proof.
  intros Hok Hi Hack. unfold report.
  pose proof (λ reason explicit, report_failure_ok i state reason explicit fault sh Hok Hi) as Hfail.
  assert (d = Disp_Ack → follows sh (report_ack path consumer_id i state fault sh).1
    ∧ ((report_ack path consumer_id i state fault sh).2 = Outcome_Consumed
       → event_settled (report_ack path consumer_id i state fault sh).1 i)) as Hackok.
  { intros ->. apply report_ack_ok; [done|done|]. intros seq Hseq. by apply Hack. }
  destruct d as [|reason|reason]; simpl.
  - specialize (Hackok eq_refl). destruct (report_ack _ _ _ _ _ _) as [sh1 o]. by apply end_invocation_ok; destruct Hackok.
  - specialize (Hfail reason false). destruct (report_failure _ _ _ _ _ _ _ _) as [sh1 o]. by apply end_invocation_ok; destruct Hfail.
  - specialize (Hfail reason true). destruct (report_failure _ _ _ _ _ _ _ _) as [sh1 o]. by apply end_invocation_ok; destruct Hfail.
Qed.

Lemma checkpoint_round_ok round fault sh :
  shared_ok sh → remaining sh (rd_head round) [] →
  let r := checkpoint_round path consumer_id round fault sh in follows sh r.1 ∧ pc_ok r.1 r.2.
Proof.
  intros Hok Hr. unfold checkpoint_round. apply remaining_nil in Hr. destruct (rd_head round) as [head|]; simpl.
  2: { split; [|done]. eapply follows_store; [by apply follows_refl|apply same_store_success]. }
  pose proof (write_checkpoint_ok (revision (rd_state round)) head fault sh Hok Hr) as Hf.
  destruct (write_checkpoint _ _ _ _ _ _) as [sh1 r]. simpl in Hf.
  destruct r as [[]|err]; simpl; (split; [|done]); [eapply follows_store; [done|apply same_store_success]|done|].
  eapply follows_store; [done|apply same_store_failure].
Qed.

Lemma pc_step_ok pc a sh r :
  shared_ok sh → pc_ok sh pc → pc_step path consumer_id subscription pc a sh = Some r → follows sh r.1 ∧ pc_ok r.1 r.2.
Proof.
  intros Hok Hpc Hstep. pose proof (follows_refl sh Hok) as Hrefl.
  destruct pc as [|t d|t d s|round l|i|i|i s|i s d|round e rest d|round|t d|]; destruct a as [|fault|hr| |]; simpl in Hstep; try done;
    try (by destruct l).
  all: try (injection Hstep as <-).
  - unfold start_round. destruct (store_read path consumer_id fault sh) as [s|] eqn:Hread; simpl.
    + split; [done|]. destruct (paused s); [done|]. by eapply store_read_ok.
    + split; [|done]. eapply follows_store; [done|apply same_store_failure].
  - unfold replay_round. destruct fault; simpl.
    + split; [|done]. eapply follows_store; [done|apply same_store_failure].
    + split; [done|]. destruct Hpc, Hok. by apply replay_remaining.
  - destruct l as [|e rest]; injection Hstep as <-; simpl; split; try done. simpl in Hpc. destruct (delivers e) eqn:Hd; [done|].
    eapply remaining_tail; [done|]. by rewrite Hd.
  - destruct l as [|e rest]; [done|]. destruct (delivers e); [|done]. injection Hstep as <-. by split.
  - assert (follows sh (set_active (S (sh_active sh)) sh)) as Hf by (eapply follows_store; [done|apply same_store_active]).
    split; [done|]. by eapply invocation_ok_follows.
  - split; [done|]. by destruct i.
  - split; [done|]. by destruct i.
  - by apply look_ok.
  - by apply handled_ok.
  - destruct Hpc. by apply report_ok.
  - by split.
  - by split.
  - by apply checkpoint_round_ok.
  - by split.
  - by split.
Qed.

Lemma lane_step_ok l a sh sh' l' :
  shared_ok sh → pc_ok sh (ln_pc l) → lane_step path consumer_id subscription l a sh = Some (sh', l') →
  follows sh sh' ∧ pc_ok sh' (ln_pc l').
Proof.
  intros Hok Hpc Hstep. pose proof (follows_refl sh Hok) as Hrefl. unfold lane_step in Hstep.
  destruct (ln_pc l) eqn:Hl; try (destruct (pc_step _ _ _ _ _ _) as [[sh1 pc1]|] eqn:Hs; [|done];
    injection Hstep as <- <-; exact (pc_step_ok _ _ _ _ Hok Hpc Hs)).
  destruct a; destruct (ln_mailbox l) as [|[event|t] m]; try done; injection Hstep as <- <-; simpl; try by split.
  split; [|done]. eapply follows_store; [done|apply same_store_active].
Qed.

(** ** The system *)

Lemma delivery_ok_shared d sh :
  delivery_ok d → follows (dv_shared d) sh →
  delivery_ok (with_shared sh d).
Proof.
  intros [Hs Hl] [Hok Hg]. split; [done|]. intros i l Hi. simpl. eapply pc_ok_grows; [apply Hok|done|]. by apply (Hl i).
Qed.

Lemma delivery_ok_lane d i l : delivery_ok d → pc_ok (dv_shared d) (ln_pc l) → delivery_ok (with_lane i l d).
Proof.
  intros [Hs Hl] Hpc. split; [done|]. simpl. intros j l' [[<- <-]|[_ Hj]]%lookup_insert_Some; [done|by apply (Hl j)].
Qed.

Lemma delivery_ok_control d n c : delivery_ok d → delivery_ok (with_control n c d).
Proof. intros [Hs Hl]. by split. Qed.

Lemma signal_pc t l : ln_pc (signal_durable_custom_events t l) = ln_pc l.
Proof. unfold signal_durable_custom_events. by destruct t, (ln_queued l), (is_stopped (ln_pc l)). Qed.

Lemma lane_at_ok d i : delivery_ok d → pc_ok (dv_shared d) (ln_pc (lane_at d i)).
Proof. intros [_ Hl]. unfold lane_at. destruct (dv_lanes d !! i) eqn:Hi; [by apply (Hl i)|done]. Qed.

Lemma control_step_ok c a sh sh' c' :
  shared_ok sh → control_step path consumer_id c a sh = Some (sh', c') → follows sh sh'.
Proof.
  intros Hok Hstep. pose proof (follows_refl sh Hok) as Hrefl.
  pose proof (λ p fault, write_paused_ok p fault sh Hok) as Hp. pose proof (λ r fault, write_reset_ok r fault sh Hok) as Hr.
  destruct c; destruct a as [|fault|r| |]; simpl in Hstep; try done;
    try (destruct (write_paused _ _ _ _ _) as [sh1 [|]] eqn:Hw; injection Hstep as <- <-;
         match type of Hw with write_paused _ _ ?p _ _ = _ => specialize (Hp p fault) end; by rewrite Hw in Hp).
  - by injection Hstep as <- <-.
  - destruct (Nat.eqb _ _); [|done]. by injection Hstep as <- <-.
  - by injection Hstep as <- <-.
  - specialize (Hr reset fault). destruct (write_reset _ _ _ _ _) as [sh1 r]. by injection Hstep as <- <-.
Qed.

Lemma shared_ok_append sh e :
  shared_ok sh → se_seq e = event_count sh → follows sh (set_log (sh_log sh ++ [e]) sh).
Proof.
  intros [Hlog (s & Hs & Hup)] He.
  assert (grows sh (set_log (sh_log sh ++ [e]) sh)) as Hg by (split; [by exists [e]|exists []; by rewrite app_nil_r]).
  assert (log_ok (set_log (sh_log sh ++ [e]) sh)) as Hlog'.
  { intros i x. simpl. intros [Hi|[Hi Hx]]%lookup_app_Some; [by apply Hlog|]. apply list_lookup_singleton_Some in Hx as [Hx <-].
    rewrite He. unfold event_count. f_equal. lia. }
  split; [|done]. split; [done|]. exists s. split.
  - eapply holds_weaken; [|done]. by apply event_count_grows.
  - eapply settled_upto_grows; [done|done| |done]. intros n Hn. destruct Hs as (_ & _ & Hl). unfold in_log in Hl. by rewrite Hn in Hl.
Qed.

Lemma delivery_step_ok ev d d' :
  delivery_ok d → delivery_step path consumer_id subscription ev d = Some d' → delivery_ok d'.
Proof.
  intros Hok Hstep. destruct ev as [e|i t|i event|i a|p fault|n reset|n a|n i|]; cbn [delivery_step] in Hstep.
  - case_bool_decide as He; [|done]. injection Hstep as <-. apply delivery_ok_shared; [done|]. apply shared_ok_append; [apply Hok|done].
  - injection Hstep as <-. apply delivery_ok_lane; [done|]. rewrite signal_pc. by apply lane_at_ok.
  - destruct (_ && _); [|done]. injection Hstep as <-. apply delivery_ok_lane; [done|]. by apply lane_at_ok.
  - destruct (dv_lanes d !! i) as [l|] eqn:Hi; [|done]. destruct (lane_step _ _ _ _ _ _) as [[sh l']|] eqn:Hl; [|done].
    injection Hstep as <-. destruct (lane_step_ok l a _ _ _ (do_shared _ Hok) (do_lanes _ Hok _ _ Hi) Hl) as [Hf Hpc].
    apply delivery_ok_lane; [by apply delivery_ok_shared|done].
  - injection Hstep as <-. apply delivery_ok_shared; [done|]. apply write_paused_ok, Hok.
  - destruct (dv_controls d !! n); [done|]. injection Hstep as <-. by apply delivery_ok_control.
  - destruct (dv_controls d !! n) as [c|]; [|done]. destruct (control_step _ _ _ _ _) as [[sh c']|] eqn:Hc; [|done].
    injection Hstep as <-. apply delivery_ok_control, delivery_ok_shared; [done|]. by eapply control_step_ok; [apply Hok|].
  - destruct (dv_controls d !! n) as [[]|]; try done; injection Hstep as <-; apply delivery_ok_control, delivery_ok_lane; try done;
      change (pc_ok (dv_shared d) (ln_pc (signal_durable_custom_events None (lane_at d i)))); rewrite signal_pc; by apply lane_at_ok.
  - injection Hstep as <-. split; [|done]. destruct Hok as [[Hlog Hfile] _]. by split.
Qed.

Lemma delivery_run_app evs1 evs2 d :
  delivery_run path consumer_id subscription (evs1 ++ evs2) d
  = delivery_run path consumer_id subscription evs1 d ≫= delivery_run path consumer_id subscription evs2.
Proof.
  unfold delivery_run. rewrite foldl_app. destruct (foldl _ (Some d) evs1); [done|]. simpl. induction evs2; [done|]. by simpl.
Qed.

Lemma delivery_run_ok evs d d' :
  delivery_ok d → delivery_run path consumer_id subscription evs d = Some d' → delivery_ok d'.
Proof.
  revert d'. induction evs as [|ev evs IH] using rev_ind; intros d' Hok Hr; [by injection Hr as <-|].
  rewrite delivery_run_app in Hr. destruct (delivery_run _ _ _ evs d) as [d1|] eqn:Hd; [|done].
  eapply delivery_step_ok; [by apply IH|exact Hr].
Qed.

Lemma delivery_open_ok log : log_ok (dv_shared (delivery_open log None)) → delivery_ok (delivery_open log None).
Proof.
  intros Hlog. split; [|done]. split; [done|]. exists consumer_default. split; [apply holds_default|].
  by intros e He Hd Hb.
Qed.

(** ** The order of what happens *)

(** A fact may follow a trace: an event is handed over when every earlier one is settled, and its outcome follows. *)
Definition fact_ok (log : list StoredEvent) (trace : list Fact) (f : Fact) : Prop :=
  match f with
  | Fact_Called (Some seq) =>
    (∃ e, e ∈ log ∧ se_seq e = seq ∧ delivers e = true)
    ∧ ∀ e, e ∈ log → delivers e = true → (se_seq e < seq)%N → settled trace (se_seq e)
  | Fact_Acked seq | Fact_Quarantined seq => Fact_Called (Some seq) ∈ trace
  | Fact_Called None | Fact_Skipped _ => True
  end.

Definition facts_ok (log : list StoredEvent) (trace : list Fact) : Prop :=
  ∀ before f after, trace = before ++ f :: after → fact_ok log before f.

Lemma facts_ok_snoc log trace f : facts_ok log trace → fact_ok log trace f → facts_ok log (trace ++ [f]).
Proof.
  intros Ht Hf before g after He. destruct after as [|x after _] using rev_ind.
  - apply app_inj_tail in He as [-> ->]. done.
  - rewrite app_comm_cons, app_assoc in He. apply app_inj_tail in He as [He _]. by eapply Ht.
Qed.

Lemma facts_ok_append log e trace :
  (∀ x, x ∈ log → se_seq x < se_seq e)%N → facts_ok log trace → facts_ok (log ++ [e]) trace.
Proof.
  intros He Ht before f after Hb. specialize (Ht before f after Hb). destruct f as [[seq|]| | |]; simpl in *; try done.
  destruct Ht as [(x & Hx & Hs & Hd) Hall]. split.
  - exists x. split_and!; [apply elem_of_app; by left|done|done].
  - intros y [Hy| ->%list_elem_of_singleton]%elem_of_app Hdy Hlt; [by apply Hall|]. specialize (He x Hx). lia.
Qed.

Definition inv_delivers (i : Invocation) : Prop := match i with Inv_durable _ e _ _ => delivers e = true | Inv_live _ => True end.

(** What the place of a lane says about the trace. *)
Definition pc_called (trace : list Fact) (pc : LanePc) : Prop :=
  match pc with
  | Pc_permit i | Pc_look i => inv_delivers i
  | Pc_handler i _ | Pc_report i _ _ => inv_delivers i ∧ Fact_Called (inv_seq i) ∈ trace
  | Pc_backoff _ e _ _ => delivers e = true
  | _ => True
  end.

Lemma pc_called_mono trace k pc : pc_called trace pc → pc_called (trace ++ k) pc.
Proof. destruct pc; simpl; rewrite ?elem_of_app; tauto. Qed.

(** A step adds at most one fact. *)
Definition adds (sh sh' : Shared) (P : Fact → Prop) : Prop :=
  sh_log sh' = sh_log sh ∧ (sh_trace sh' = sh_trace sh ∨ ∃ f, sh_trace sh' = sh_trace sh ++ [f] ∧ P f).

Lemma store_write_adds {T} (op : option PersistedEventConsumerState * result T StorageError) fact fault sh :
  adds sh (store_write op fact fault sh).1 (λ f, ∃ v, fact v = Some f).
Proof.
  destruct op as [file r]. unfold store_write, adds. destruct fault as [[[] e]|]; simpl; [|by split; [|left]|].
  all: destruct r as [v|e']; [destruct (fact v) as [f|] eqn:Hf|]; simpl; (split; [done|]); [right|by left|by left].
  all: exists f; eauto.
Qed.

Lemma adds_impl sh sh' (P Q : Fact → Prop) : adds sh sh' P → (∀ f, P f → Q f) → adds sh sh' Q.
Proof. intros [Hl [Ht|(f & Ht & Hf)]] HPQ; (split; [done|]); [by left|right]. exists f. auto. Qed.

Lemma adds_none sh sh' P : sh_log sh' = sh_log sh → sh_trace sh' = sh_trace sh → adds sh sh' P.
Proof. intros. split; [done|by left]. Qed.

Lemma write_checkpoint_adds rev seq fault sh : adds sh (write_checkpoint path consumer_id rev seq fault sh).1 (λ _, False).
Proof. eapply adds_impl; [apply store_write_adds|]. by intros f [v Hv]. Qed.

Lemma write_failure_adds rev seq reason limit fault sh :
  adds sh (write_failure path consumer_id rev seq reason limit fault sh).1 (λ f, f = Fact_Quarantined seq).
Proof. eapply adds_impl; [apply store_write_adds|]. intros f [v Hv]. by destruct v; simplify_eq. Qed.

(** What a step of a lane may add. *)
Definition pc_adds (pc : LanePc) (f : Fact) : Prop :=
  match pc with
  | Pc_look i => f = Fact_Called (inv_seq i)
  | Pc_handler i _ => match inv_seq i with Some seq => f = Fact_Acked seq | None => False end
  | Pc_report i _ _ => match inv_seq i with Some seq => f = Fact_Quarantined seq | None => False end
  | _ => False
  end.

Lemma report_adds i s d fault sh : adds sh (report path consumer_id i s d fault sh).1 (pc_adds (Pc_report i s d)).
Proof.
  unfold report. destruct (failure_of d) as [[reason explicit]|].
  - unfold report_failure. destruct (inv_seq i) as [seq|] eqn:Hi; [|by destruct explicit; apply adds_none].
    set (limit := if explicit then 1%N else CUSTOM_EVENT_QUARANTINE_AFTER).
    pose proof (write_failure_adds (revision s) seq reason limit fault (record_failure sh)) as Ha.
    destruct (write_failure _ _ _ _ _ _ _ _) as [sh1 r]. simpl in Ha.
    assert (adds sh sh1 (pc_adds (Pc_report i s d))) as Ha'.
    { destruct Ha as [Hl Ht]. split; [exact Hl|]. simpl. by rewrite Hi. }
    destruct r as [[]|]; try exact Ha'; destruct explicit; exact Ha'.
  - unfold report_ack. destruct (inv_seq i) as [seq|] eqn:Hi; [|by apply adds_none].
    pose proof (write_checkpoint_adds (revision s) seq fault sh) as Ha.
    destruct (write_checkpoint _ _ _ _ _ _) as [sh1 r]. simpl in Ha.
    assert (adds sh sh1 (pc_adds (Pc_report i s d))) as Ha' by (by eapply adds_impl).
    destruct r as [[]|]; exact Ha'.
Qed.

Lemma pc_step_adds pc a sh r : pc_step path consumer_id subscription pc a sh = Some r → adds sh r.1 (pc_adds pc).
Proof.
  intros Hstep.
  destruct pc as [|t d|t d s|round l|i|i|i s|i s d|round e rest d|round|t d|]; destruct a as [|fault|hr| |]; simpl in Hstep; try done;
    try (by destruct l); try (injection Hstep as <-); try (by apply adds_none).
  - unfold start_round. by destruct (store_read _ _ _ _); apply adds_none.
  - unfold replay_round. by destruct fault; apply adds_none.
  - by destruct l; injection Hstep as <-; apply adds_none.
  - destruct l; [done|]. destruct (delivers _); [|done]. injection Hstep as <-. by apply adds_none.
  - unfold look. destruct (store_read _ _ _ _) as [s|]; [|by apply adds_none]. destruct (paused s); [by apply adds_none|].
    destruct (match inv_seq i with Some seq => consumed s seq | None => false end); [by apply adds_none|].
    split; [done|right]. by exists (Fact_Called (inv_seq i)).
  - unfold handled, adds. simpl. destruct (disposition_of hr), (inv_seq i) as [seq|]; simpl; (split; [done|]); try (by left).
    right. by exists (Fact_Acked seq).
  - apply report_adds.
  - unfold checkpoint_round. destruct (rd_head round) as [head|]; [|by apply adds_none].
    pose proof (write_checkpoint_adds (revision (rd_state round)) head fault sh) as Ha.
    destruct (write_checkpoint _ _ _ _ _ _) as [sh1 r]. by destruct r as [[]|]; exact Ha.
Qed.

Lemma after_called trace i outcome : inv_delivers i → pc_called trace (after_invocation i outcome).
Proof. by destruct i, outcome. Qed.

Lemma pc_step_called pc a sh r :
  pc_called (sh_trace sh) pc → pc_step path consumer_id subscription pc a sh = Some r → pc_called (sh_trace r.1) r.2.
Proof.
  intros Hpc Hstep.
  destruct pc as [|t d|t d s|round l|i|i|i s|i s d|round e rest d|round|t d|]; destruct a as [|fault|hr| |]; simpl in Hstep; try done;
    try (by destruct l); try (injection Hstep as <-); try done.
  - unfold start_round. destruct (store_read _ _ _ _) as [s|]; [|done]. simpl. by destruct (paused s).
  - unfold replay_round. by destruct fault.
  - destruct l as [|e rest]; injection Hstep as <-; simpl; [done|]. by destruct (delivers e) eqn:Hd.
  - destruct l as [|e rest]; [done|]. destruct (delivers e); [|done]. by injection Hstep as <-.
  - by destruct i.
  - by destruct i.
  - unfold look. destruct (store_read _ _ _ _) as [s|]; [|by apply after_called]. destruct (paused s); [by apply after_called|].
    destruct (match inv_seq i with Some seq => consumed s seq | None => false end); [by apply after_called|].
    split; [done|]. simpl. apply elem_of_app. right. by apply list_elem_of_singleton.
  - destruct Hpc as [Hd Hc]. split; [done|]. unfold handled. simpl.
    destruct (disposition_of hr), (inv_seq i); simpl; rewrite ?elem_of_app; auto.
  - unfold report. destruct (match failure_of d with Some _ => _ | None => _ end) as [sh1 o]. by apply after_called, Hpc.
  - unfold checkpoint_round. destruct (rd_head round); [|done]. by destruct (write_checkpoint _ _ _ _ _ _) as [sh1 [[]|]].
Qed.

Lemma pc_step_facts pc a sh r :
  pc_ok sh pc → pc_called (sh_trace sh) pc → facts_ok (sh_log sh) (sh_trace sh) →
  pc_step path consumer_id subscription pc a sh = Some r → facts_ok (sh_log r.1) (sh_trace r.1).
Proof.
  intros Hpc Hcalled Hf Hstep. destruct (pc_step_adds _ _ _ _ Hstep) as [-> [->|(f & -> & Hadd)]]; [done|].
  apply facts_ok_snoc; [done|]. destruct pc; simpl in Hadd; try done.
  - subst f. simpl in Hpc, Hcalled. destruct invocation as [round e rest delay|e]; [|done]. simpl. split.
    + exists e. split_and!; [by apply (rm_log _ _ _ Hpc e); left|done|done].
    + intros e' Hin Hd Hlt. by eapply remaining_below.
  - simpl in Hcalled. destruct (inv_seq invocation); [|done]. subst f. apply Hcalled.
  - simpl in Hcalled. destruct (inv_seq invocation); [|done]. subst f. apply Hcalled.
Qed.

Record delivery_facts (d : Delivery) : Prop := {
  df_facts : facts_ok (sh_log (dv_shared d)) (sh_trace (dv_shared d));
  df_lanes : ∀ i l, dv_lanes d !! i = Some l → pc_called (sh_trace (dv_shared d)) (ln_pc l);
}.

Lemma delivery_facts_shared d sh :
  delivery_facts d → facts_ok (sh_log sh) (sh_trace sh) → (∃ k, sh_trace sh = sh_trace (dv_shared d) ++ k) →
  delivery_facts (with_shared sh d).
Proof. intros [Hf Hl] Hf' [k Hk]. split; [done|]. intros i l Hi. simpl. rewrite Hk. apply pc_called_mono. by apply (Hl i). Qed.

Lemma delivery_facts_lane d i l :
  delivery_facts d → pc_called (sh_trace (dv_shared d)) (ln_pc l) → delivery_facts (with_lane i l d).
Proof.
  intros [Hf Hl] Hpc. split; [done|]. simpl. intros j l' [[<- <-]|[_ Hj]]%lookup_insert_Some; [done|by apply (Hl j)].
Qed.

Lemma delivery_facts_control d n c : delivery_facts d → delivery_facts (with_control n c d).
Proof. intros [Hf Hl]. by split. Qed.

Lemma lane_at_called d i : delivery_facts d → pc_called (sh_trace (dv_shared d)) (ln_pc (lane_at d i)).
Proof. intros [_ Hl]. unfold lane_at. destruct (dv_lanes d !! i) eqn:Hi; [by apply (Hl i)|done]. Qed.

Lemma adds_facts sh sh' P :
  adds sh sh' P → (∀ f, P f → fact_ok (sh_log sh) (sh_trace sh) f) → facts_ok (sh_log sh) (sh_trace sh) →
  facts_ok (sh_log sh') (sh_trace sh') ∧ ∃ k, sh_trace sh' = sh_trace sh ++ k.
Proof.
  intros [-> [->|(f & -> & Hp)]] HP Hf; [split; [done|]; exists []; by rewrite app_nil_r|]. split; [|by exists [f]].
  apply facts_ok_snoc; auto.
Qed.

(** Controls only skip. *)
Lemma write_control_adds sh p reset fault :
  adds sh (write_paused path consumer_id p fault sh).1 (λ f, ∃ n, f = Fact_Skipped n)
  ∧ adds sh (write_reset path consumer_id reset fault sh).1 (λ f, ∃ n, f = Fact_Skipped n).
Proof.
  split; (eapply adds_impl; [apply store_write_adds|]); intros f [v Hv]; [done|]. destruct reset; simplify_eq. by eexists.
Qed.

Lemma control_step_adds c a sh sh' c' :
  control_step path consumer_id c a sh = Some (sh', c') → adds sh sh' (λ f, ∃ n, f = Fact_Skipped n).
Proof.
  intros Hstep. pose proof (λ p reset fault, write_control_adds sh p reset fault) as Ha.
  destruct c; destruct a as [|fault|r| |]; simpl in Hstep; try done;
    try (destruct (write_paused _ _ _ _ _) as [sh1 [|]] eqn:Hw; injection Hstep as <- <-;
         match type of Hw with write_paused _ _ ?p _ _ = _ => destruct (Ha p Reset_Beginning fault) as [Hp _] end; by rewrite Hw in Hp);
    try (by injection Hstep as <- <-; apply adds_none).
  - destruct (Nat.eqb _ _); [|done]. by injection Hstep as <- <-; apply adds_none.
  - destruct (Ha true reset fault) as [_ Hr]. destruct (write_reset _ _ _ _ _) as [sh1 r]. by injection Hstep as <- <-.
Qed.

Lemma skips_ok log trace f : (∃ n, f = Fact_Skipped n) → fact_ok log trace f.
Proof. by intros [n ->]. Qed.

Lemma delivery_step_facts ev d d' :
  delivery_ok d → delivery_facts d → delivery_step path consumer_id subscription ev d = Some d' → delivery_facts d'.
Proof.
  intros Hok Hf Hstep. destruct ev as [e|i t|i event|i a|p fault|n reset|n a|n i|]; cbn [delivery_step] in Hstep.
  - case_bool_decide as He; [|done]. injection Hstep as <-. apply delivery_facts_shared; [done| |exists []; by rewrite app_nil_r].
    apply facts_ok_append; [|apply Hf]. intros x [j Hj]%list_elem_of_lookup. destruct Hok as [[Hlog _] _]. rewrite (Hlog _ _ Hj), He.
    apply lookup_lt_Some in Hj. unfold event_count. lia.
  - injection Hstep as <-. apply delivery_facts_lane; [done|]. rewrite signal_pc. by apply lane_at_called.
  - destruct (_ && _); [|done]. injection Hstep as <-. apply delivery_facts_lane; [done|]. by apply lane_at_called.
  - destruct (dv_lanes d !! i) as [l|] eqn:Hi; [|done]. destruct (lane_step _ _ _ _ _ _) as [[sh l']|] eqn:Hl; [|done].
    injection Hstep as <-. pose proof (df_lanes _ Hf _ _ Hi) as Hc. pose proof (do_lanes _ Hok _ _ Hi) as Hpc. unfold lane_step in Hl.
    destruct (ln_pc l) eqn:Hlpc; try (destruct (pc_step _ _ _ _ _ _) as [[sh1 pc1]|] eqn:Hs; [|done]; injection Hl as <- <-;
      apply delivery_facts_lane; [apply delivery_facts_shared; [done|exact (pc_step_facts _ _ _ _ Hpc Hc (df_facts _ Hf) Hs)|]
        |exact (pc_step_called _ _ _ _ Hc Hs)];
      destruct (pc_step_adds _ _ _ _ Hs) as [_ [Ht|(f & Ht & _)]]; simpl in Ht; [exists []; by rewrite app_nil_r|by exists [f]]).
    assert (delivery_facts (with_shared (set_active (S (sh_active (dv_shared d))) (dv_shared d)) d)) as Hact.
    { apply delivery_facts_shared; [done|apply Hf|]. exists []. by rewrite app_nil_r. }
    assert (delivery_facts (with_shared (dv_shared d) d)) as Hsame.
    { apply delivery_facts_shared; [done|apply Hf|]. exists []. by rewrite app_nil_r. }
    destruct a; destruct (ln_mailbox l) as [|[event|t] m]; try done; injection Hl as <- <-; by apply delivery_facts_lane.
  - injection Hstep as <-. destruct (write_control_adds (dv_shared d) p Reset_Beginning fault) as [Ha _].
    destruct (adds_facts _ _ _ Ha (skips_ok _ _) (df_facts _ Hf)). by apply delivery_facts_shared.
  - destruct (dv_controls d !! n); [done|]. injection Hstep as <-. by apply delivery_facts_control.
  - destruct (dv_controls d !! n) as [c|]; [|done]. destruct (control_step _ _ _ _ _) as [[sh c']|] eqn:Hc; [|done].
    injection Hstep as <-. apply delivery_facts_control.
    destruct (adds_facts _ _ _ (control_step_adds _ _ _ _ _ Hc) (skips_ok _ _) (df_facts _ Hf)). by apply delivery_facts_shared.
  - destruct (dv_controls d !! n) as [[]|]; try done; injection Hstep as <-; apply delivery_facts_control, delivery_facts_lane; try done;
      change (pc_called (sh_trace (dv_shared d)) (ln_pc (signal_durable_custom_events None (lane_at d i)))); rewrite signal_pc;
      by apply lane_at_called.
  - injection Hstep as <-. split; [apply Hf|done].
Qed.

Lemma delivery_run_facts evs log d :
  log_ok (dv_shared (delivery_open log None)) →
  delivery_run path consumer_id subscription evs (delivery_open log None) = Some d → delivery_ok d ∧ delivery_facts d.
Proof.
  intros Hlog. revert d. induction evs as [|ev evs IH] using rev_ind; intros d Hr.
  - injection Hr as <-. split; [by apply delivery_open_ok|]. split; [|done]. intros before f after Hb. by destruct before.
  - rewrite delivery_run_app in Hr. destruct (delivery_run _ _ _ evs _) as [d1|] eqn:Hd; [|done].
    destruct (IH d1 eq_refl) as [Hok Hf]. change (delivery_step path consumer_id subscription ev d1 = Some d) in Hr.
    split; [by eapply delivery_step_ok|by eapply delivery_step_facts].
Qed.

End safety.

(** ** A lane left alone

    The storage works, the handler answers anything. *)

Definition lane_answer (answers : nat → result CustomEventDisposition ExtensionError) (sh : Shared) (pc : LanePc) : Answer :=
  match pc with
  | Pc_handler _ _ => A_handler (answers (length (sh_trace sh)))
  | Pc_reconcile _ _ | Pc_replay _ _ _ | Pc_look _ | Pc_report _ _ _ | Pc_checkpoint _ => A_store None
  | _ => A_go
  end.

Definition is_called (f : Fact) : Prop := match f with Fact_Called _ => True | _ => False end.
#[export] Instance is_called_dec f : Decision (is_called f).
Proof. destruct f; simpl; apply _. Defined.

Definition calls_made (sh : Shared) : nat := length (filter is_called (sh_trace sh)).

Lemma calls_add f sh : calls_made (add_fact f sh) = (calls_made sh + if decide (is_called f) then 1 else 0)%nat.
Proof.
  unfold calls_made. simpl. rewrite filter_app, length_app, filter_cons. by case_decide.
Qed.

Section progress.
Context (path consumer_id : string) (subscription : CustomEventSubscription).
Context (answers : nat → result CustomEventDisposition ExtensionError).
Context (Hid : is_empty consumer_id = false).

Abbreviation delivers := (delivers subscription).

Fixpoint drive (fuel : nat) (sh : Shared) (pc : LanePc) : Shared * LanePc :=
  match fuel with
  | O => (sh, pc)
  | S fuel =>
    match pc_step path consumer_id subscription pc (lane_answer answers sh pc) sh with
    | Some (sh, pc) => drive fuel sh pc
    | None => (sh, pc)
    end
  end.

Definition leads (sh : Shared) (pc : LanePc) (sh' : Shared) (pc' : LanePc) : Prop := ∃ fuel, drive fuel sh pc = (sh', pc').

Lemma leads_refl sh pc : leads sh pc sh pc.
Proof. by exists O. Qed.

Lemma leads_step sh pc r sh' pc' :
  pc_step path consumer_id subscription pc (lane_answer answers sh pc) sh = Some r → leads r.1 r.2 sh' pc' → leads sh pc sh' pc'.
Proof. intros Hs [fuel Hf]. exists (S fuel). simpl. rewrite Hs. by destruct r. Qed.

Lemma drive_add m n sh pc : drive (m + n) sh pc = drive n (drive m sh pc).1 (drive m sh pc).2.
Proof.
  revert sh pc. induction m as [|m IH]; intros sh pc; [done|]. simpl.
  destruct (pc_step path consumer_id subscription pc (lane_answer answers sh pc) sh) as [[sh1 pc1]|] eqn:Hs; [apply IH|].
  destruct n; simpl; [done|]. by rewrite Hs.
Qed.

Lemma leads_trans sh1 pc1 sh2 pc2 sh3 pc3 : leads sh1 pc1 sh2 pc2 → leads sh2 pc2 sh3 pc3 → leads sh1 pc1 sh3 pc3.
Proof. intros [m Hm] [n Hn]. exists (m + n)%nat. by rewrite drive_add, Hm. Qed.

(** The file reads as a state that lets events through. *)
Record unblocked (sh : Shared) (s : EventConsumerState) : Prop := {
  ub_file : holds path (event_count sh) (sh_file sh) s;
  ub_open : paused s = false;
  ub_failures : (consecutive_failures s < CUSTOM_EVENT_QUARANTINE_AFTER)%N;
}.

Lemma ready_ext sh sh' s : sh_log sh' = sh_log sh → sh_file sh' = sh_file sh → unblocked sh s → unblocked sh' s.
Proof. intros Hl Hf [H1 H2 H3]. split; [|done|done]. unfold event_count. by rewrite Hl, Hf. Qed.

Lemma store_read_ready sh s : unblocked sh s → store_read path consumer_id None sh = Ok s.
Proof. intros [(Hr & _) _ _]. unfold store_read, event_consumer_state, validate_event_consumer_id. rewrite Hid. simpl. by rewrite Hr. Qed.

Lemma write_checkpoint_ready sh s seq :
  unblocked sh s → (seq < event_count sh)%N →
  let s' := if consumed s seq then s else set_consecutive_failures 0 (set_checkpoint (Some seq) s) in
  let r := write_checkpoint path consumer_id (revision s) seq None sh in
  r.2 = Ok Checkpoint_Accepted ∧ unblocked r.1 s' ∧ sh_log r.1 = sh_log sh ∧ sh_trace r.1 = sh_trace sh.
Proof.
  intros [(Hr & Ha & Hl) Ho Hf] Hseq. unfold write_checkpoint, checkpoint_event_consumer, edit_consumer_state, validate_event_consumer_id.
  rewrite Hr, Hid. rewrite (bool_decide_false (event_count sh ≤ seq)%N) by lia. unfold checkpoint_edit.
  rewrite bool_decide_false by (intros Hn; by apply Hn). destruct (consumed s seq) eqn:Hc; simpl.
  - split_and!; [done| |done|done]. by split; [split_and!|..].
  - set (s' := set_consecutive_failures 0 (set_checkpoint (Some seq) s)). assert (audit_ok s') as Ha' by done.
    unfold write_event_consumer_state. rewrite (proj2 (validate_audit_bounds_iff s') Ha'). simpl.
    split_and!; [done| |done|done]. split; [|done|simpl; unfold CUSTOM_EVENT_QUARANTINE_AFTER; lia].
    split; [by apply read_persisted|]. split; [done|]. exact Hseq.
Qed.

(** A failure is recorded, or it is the last one. *)
Lemma write_failure_ready sh s seq reason limit :
  unblocked sh s → (seq < event_count sh)%N → consumed s seq = false → (quarantined_count s < u64_max)%N →
  (0 < limit ≤ CUSTOM_EVENT_QUARANTINE_AFTER)%N →
  let r := write_failure path consumer_id (revision s) seq reason limit None sh in
  sh_log r.1 = sh_log sh ∧ calls_made r.1 = calls_made sh ∧
  ((∃ n, r.2 = Ok (Failure_Recorded n)) ∧ (1 < limit)%N
     ∧ unblocked r.1 (set_consecutive_failures (consecutive_failures s + 1) s) ∧ (consecutive_failures s + 1 < CUSTOM_EVENT_QUARANTINE_AFTER)%N
   ∨ (∃ n, r.2 = Ok (Failure_Quarantined n)) ∧ ∃ s', unblocked r.1 s' ∧ checkpoint s' = Some seq ∧ revision s' = revision s
     ∧ (quarantined_count s' ≤ quarantined_count s + 1)%N).
Proof.
  intros [Hh Ho Hf] Hseq Hc Hq Hlim r. subst r. unfold write_failure.
  assert (consecutive_failures s + 1 ≤ u32_max)%N as Hmax by (unfold CUSTOM_EVENT_QUARANTINE_AFTER, u32_max in *; lia).
  destruct (decide (limit ≤ consecutive_failures s + 1)%N) as [Hle|Hlt].
  - destruct (record_failure_quarantines path consumer_id (event_count sh) (sh_file sh) s seq reason limit)
      as (Hr & s' & Hs' & Hck & Hcf & Hrev & Hp & Hqc); [done..|lia|done|].
    destruct (record_event_consumer_failure _ _ _ _ _ _ _ _) as [file r]. simpl in Hr, Hs'. subst r. simpl.
    split; [done|]. split.
    { rewrite calls_add, decide_False by (intros []). by rewrite Nat.add_0_r. }
    right. split; [by eexists|]. exists s'. split_and!; [|done|done|done]. split; [done|congruence|].
    unfold CUSTOM_EVENT_QUARANTINE_AFTER. lia.
  - destruct (record_failure_step path consumer_id (event_count sh) (sh_file sh) s seq reason limit)
      as (Hr & Hs'); [done..| |]; [unfold CUSTOM_EVENT_QUARANTINE_AFTER, u32_max in *; lia|].
    destruct (record_event_consumer_failure _ _ _ _ _ _ _ _) as [file r]. simpl in Hr, Hs'. subst r. simpl.
    split; [done|]. split; [done|]. left. split; [by eexists|]. split; [lia|]. split; [|lia]. split; [done|done|]. simpl. lia.
Qed.

(** One event, as often as it takes. *)
Lemma deliver_one round e rest k sh s delay :
  unblocked sh s → N.of_nat k = (CUSTOM_EVENT_QUARANTINE_AFTER - consecutive_failures s)%N →
  consumed s (se_seq e) = false → (se_seq e < event_count sh)%N → (quarantined_count s < u64_max)%N →
  ∃ sh' s', leads sh (Pc_permit (Inv_durable round e rest delay)) sh' (Pc_events round rest)
    ∧ unblocked sh' s' ∧ checkpoint s' = Some (se_seq e) ∧ revision s' = revision s
    ∧ (quarantined_count s' ≤ quarantined_count s + 1)%N ∧ sh_log sh' = sh_log sh ∧ (calls_made sh' ≤ calls_made sh + k)%nat.
Proof.
  revert sh s delay. induction k as [|k IH]; intros sh s delay Hready Hk Hc Hseq Hq.
  { destruct Hready. lia. }
  set (i := Inv_durable round e rest delay).
  set (sh1 := set_active (S (sh_active sh)) sh). assert (unblocked sh1 s) as Hready1 by (by apply (ready_ext sh)).
  set (sh2 := add_fact (Fact_Called (Some (se_seq e))) sh1). assert (unblocked sh2 s) as Hready2 by (by apply (ready_ext sh)).
  assert (calls_made sh2 = S (calls_made sh)) as Hcalls2.
  { subst sh2. rewrite calls_add, decide_True by done. change (calls_made sh1) with (calls_made sh). lia. }
  assert (∀ sh3 pc3, leads sh2 (Pc_handler i s) sh3 pc3 → leads sh (Pc_permit i) sh3 pc3) as Hto.
  { intros sh3 pc3 Hl. eapply leads_step; [done|]. simpl. fold sh1. eapply leads_step; [done|]. unfold look.
    rewrite (store_read_ready sh1 s Hready1), (ub_open _ _ Hready1). simpl. by rewrite Hc. }
  set (d := disposition_of (answers (length (sh_trace sh2)))).
  set (sh3 := (handled i s d sh2).1).
  assert (unblocked sh3 s ∧ sh_log sh3 = sh_log sh ∧ calls_made sh3 = calls_made sh2) as (Hready3 & Hlog3 & Hcalls3).
  { subst sh3. unfold handled. simpl. destruct d; try done. split_and!; [by apply (ready_ext sh2)|done|].
    rewrite calls_add, decide_False by (intros []). lia. }
  assert (∀ sh4 pc4, leads (report path consumer_id i s d None sh3).1 (report path consumer_id i s d None sh3).2 sh4 pc4 →
            leads sh2 (Pc_handler i s) sh4 pc4) as Hrep.
  { intros sh4 pc4 Hl. eapply leads_step; [done|]. simpl. fold d. eapply leads_step; [done|]. exact Hl. }
  assert (se_seq e < event_count sh3)%N as Hseq3 by (unfold event_count; by rewrite Hlog3).
  assert (∀ reason explicit, failure_of d = Some (reason, explicit) →
    let limit := if explicit then 1%N else CUSTOM_EVENT_QUARANTINE_AFTER in
    ∃ sh' s', leads (report path consumer_id i s d None sh3).1 (report path consumer_id i s d None sh3).2 sh' (Pc_events round rest)
      ∧ unblocked sh' s' ∧ checkpoint s' = Some (se_seq e) ∧ revision s' = revision s
      ∧ (quarantined_count s' ≤ quarantined_count s + 1)%N ∧ sh_log sh' = sh_log sh ∧ (calls_made sh' ≤ S (calls_made sh) + k)%nat) as Hfail.
  { intros reason explicit Hd limit. unfold report. rewrite Hd. unfold report_failure. fold limit. simpl inv_seq. cbv iota.
    destruct (write_failure_ready (record_failure sh3) s (se_seq e) reason limit) as (Hl4 & Hc4 & Hcase);
      [by apply (ready_ext sh3)|done|done|done|by subst limit; destruct explicit|].
    destruct (write_failure _ _ _ _ _ _ _ _) as [sh4 r]. simpl in Hl4, Hc4, Hcase.
    change (calls_made (record_failure sh3)) with (calls_made sh3) in Hc4.
    destruct Hcase as [([n ->] & Hlim & Hready4 & Hcf)|([n ->] & s' & Hready4 & Hck & Hrev & Hqc)].
    - destruct explicit; [simpl in Hlim; lia|]. simpl.
      set (sh5 := set_active (pred (sh_active sh4)) sh4).
      destruct (IH sh5 (set_consecutive_failures (consecutive_failures s + 1) s) (next_delay delay))
        as (sh' & s' & Hl & Hr & Hck & Hrev & Hqc & Hlog & Hcalls);
        [by apply (ready_ext sh4)|simpl; lia|done|unfold event_count; simpl; rewrite Hl4, Hlog3; exact Hseq|done|].
      exists sh', s'. split_and!; [eapply leads_step; [done|exact Hl]|done|done|done|done|by rewrite Hlog; simpl; rewrite Hl4, Hlog3|].
      change (calls_made sh5) with (calls_made sh4) in Hcalls. lia.
    - exists (set_active (pred (sh_active (record_success sh4))) (record_success sh4)), s'.
      split_and!; [apply leads_refl|by apply (ready_ext sh4)|done|done|done|simpl; by rewrite Hl4, Hlog3|].
      change (calls_made (set_active _ _)) with (calls_made sh4). lia. }
  destruct d as [|reason|reason] eqn:Hd.
  - destruct (write_checkpoint_ready sh3 s (se_seq e) Hready3 Hseq3) as (Hans & Hready4 & Hl4 & Ht4).
    rewrite Hc in Hready4.
    destruct (write_checkpoint path consumer_id (revision s) (se_seq e) None sh3) as [sh4 r] eqn:Hw. simpl in *. subst r.
    exists (set_active (pred (sh_active (record_success sh4))) (record_success sh4)),
      (set_consecutive_failures 0 (set_checkpoint (Some (se_seq e)) s)). split_and!; [|by apply (ready_ext sh4)|done|done|simpl; lia|simpl; congruence|].
    + apply Hto, Hrep. unfold report. simpl. unfold report_ack. simpl. rewrite Hw. apply leads_refl.
    + assert (calls_made sh4 = calls_made sh3) as Hc4 by (unfold calls_made; by rewrite Ht4).
      change (calls_made (set_active _ _)) with (calls_made sh4). lia.
  - destruct (Hfail reason false eq_refl) as (sh' & s' & Hl & Hrest). exists sh', s'. split; [by apply Hto, Hrep|].
    rewrite Nat.add_succ_r. exact Hrest.
  - destruct (Hfail reason true eq_refl) as (sh' & s' & Hl & Hrest). exists sh', s'. split; [by apply Hto, Hrep|].
    rewrite Nat.add_succ_r. exact Hrest.
Qed.

(** The numbers of a round that are still to come are beyond the checkpoint, in their order. *)
Definition ahead (sh : Shared) (s : EventConsumerState) (l : list StoredEvent) : Prop :=
  StronglySorted (λ a b, se_seq a < se_seq b)%N l
  ∧ Forall (λ e, consumed s (se_seq e) = false ∧ (se_seq e < event_count sh)%N) l.

Lemma ahead_tail sh s e l : ahead sh s (e :: l) → ahead sh s l.
Proof. intros [H1 H2]. split; [by inversion H1|by inversion H2]. Qed.

Lemma ahead_moved sh sh' s s' e l :
  ahead sh s (e :: l) → checkpoint s' = Some (se_seq e) → sh_log sh' = sh_log sh → ahead sh' s' l.
Proof.
  intros [H1 H2] Hc Hl. inversion H1 as [|? ? Hs Hlt]; subst. inversion H2 as [|? ? _ Hall]; subst. split; [done|].
  rewrite Forall_forall in *. intros x Hx. split.
  - unfold consumed. rewrite Hc. apply bool_decide_eq_false. specialize (Hlt x Hx). simpl in Hlt. lia.
  - unfold event_count. rewrite Hl. by apply (Hall x).
Qed.

Lemma deliver_pending round l sh s :
  unblocked sh s → ahead sh s l → (quarantined_count s + N.of_nat (length l) ≤ u64_max)%N →
  ∃ sh' s', leads sh (Pc_events round l) sh' (Pc_checkpoint round)
    ∧ unblocked sh' s' ∧ revision s' = revision s ∧ sh_log sh' = sh_log sh
    ∧ (checkpoint s' = checkpoint s ∨ ∃ e, e ∈ l ∧ checkpoint s' = Some (se_seq e))
    ∧ (calls_made sh' ≤ calls_made sh + 20 * length (filter (λ e, delivers e = true) l))%nat.
Proof.
  revert sh s. induction l as [|e l IH]; intros sh s Hready Hahead Hq.
  { exists sh, s. split_and!; [eapply leads_step; [done|apply leads_refl]|done|done|done|by left|lia]. }
  simpl in Hq. rewrite filter_cons. destruct (delivers e) eqn:Hd; [rewrite decide_True by done|rewrite decide_False by done].
  - destruct Hahead as [Hs Hall] eqn:Ha. inversion Hall as [|? ? [Hc Hseq] _]; subst.
    destruct (deliver_one round e l (N.to_nat (CUSTOM_EVENT_QUARANTINE_AFTER - consecutive_failures s)) sh s
                CUSTOM_EVENT_RETRY_INITIAL_DELAY) as (sh1 & s1 & Hl1 & Hr1 & Hc1 & Hrev1 & Hq1 & Hlog1 & Hcalls1);
      [done|lia|done|done|lia|].
    destruct (IH sh1 s1) as (sh2 & s2 & Hl2 & Hr2 & Hrev2 & Hlog2 & Hc2 & Hcalls2);
      [done|eapply ahead_moved; [by split|done|done]|lia|].
    exists sh2, s2. split_and!; [|done|congruence|congruence| |].
    + eapply leads_step; [done|]. simpl. rewrite Hd. by eapply leads_trans.
    + right. destruct Hc2 as [->|(x & Hx & Hcx)]; [exists e; split; [by left|done]|exists x; split; [by right|done]].
    + simpl. unfold CUSTOM_EVENT_QUARANTINE_AFTER in Hcalls1. lia.
  - destruct (IH sh s) as (sh2 & s2 & Hl2 & Hr2 & Hrev2 & Hlog2 & Hc2 & Hcalls2); [done|by eapply ahead_tail|lia|].
    exists sh2, s2. split_and!; [|done|done|done| |done].
    + eapply leads_step; [done|]. simpl. by rewrite Hd.
    + destruct Hc2 as [|(x & Hx & Hcx)]; [by left|right; exists x; split; [by right|done]].
Qed.

Lemma replay_ahead sh s through :
  log_ok sh → ahead sh s (take_through through (replay (checkpoint s) (sh_log sh))).
Proof.
  intros Hlog. destruct (take_through_prefix through (replay (checkpoint s) (sh_log sh))) as [k Hk].
  set (l := take_through through (replay (checkpoint s) (sh_log sh))) in *.
  assert (StronglySorted (λ a b, se_seq a < se_seq b)%N (l ++ k)) as Hs.
  { rewrite <-Hk. unfold replay. destruct (checkpoint s); [|by apply log_sorted]. by apply sorted_filter, log_sorted. }
  split; [by apply StronglySorted_app_1_l in Hs|]. apply Forall_forall. intros e He.
  assert (e ∈ replay (checkpoint s) (sh_log sh)) as Hin by (rewrite Hk; apply elem_of_app; by left).
  assert (e ∈ sh_log sh ∧ consumed s (se_seq e) = false) as [Hin' Hc].
  { unfold replay, consumed in *. destruct (checkpoint s) as [n|]; [|done]. apply list_elem_of_filter in Hin as [Hlt Hin].
    split; [done|]. apply bool_decide_eq_false. lia. }
  split; [done|]. apply list_elem_of_lookup in Hin' as [i Hi]. rewrite (Hlog _ _ Hi). apply lookup_lt_Some in Hi.
  unfold event_count. lia.
Qed.

Lemma round_ends sh s through delay :
  log_ok sh → unblocked sh s → (quarantined_count s + event_count sh ≤ u64_max)%N →
  let pending := take_through through (replay (checkpoint s) (sh_log sh)) in
  ∃ sh' s', leads sh (Pc_reconcile through delay) sh' Pc_idle
    ∧ unblocked sh' s' ∧ revision s' = revision s ∧ sh_log sh' = sh_log sh
    ∧ checkpoint s' = match last pending with Some e => Some (se_seq e) | None => checkpoint s end
    ∧ (calls_made sh' ≤ calls_made sh + 20 * length (filter (λ e, delivers e = true) pending))%nat.
Proof.
  intros Hlog Hready Hq pending. pose proof (replay_ahead sh s through Hlog) as Hahead. fold pending in Hahead.
  assert (length pending ≤ length (sh_log sh))%nat as Hlen.
  { subst pending. destruct (take_through_prefix through (replay (checkpoint s) (sh_log sh))) as [k Hk].
    apply (f_equal length) in Hk. rewrite length_app in Hk. unfold replay in *. destruct (checkpoint s) as [n|]; [|lia].
    pose proof (length_filter (λ e, n < se_seq e)%N (sh_log sh)). lia. }
  set (round := {| rd_through := through; rd_delay := delay; rd_state := s; rd_head := se_seq <$> last pending |}).
  destruct (deliver_pending round pending sh s) as (sh1 & s1 & Hl1 & Hr1 & Hrev1 & Hlog1 & Hc1 & Hcalls1);
    [done|done|unfold event_count in Hq; lia|].
  assert (∀ sh' pc', leads sh1 (Pc_checkpoint round) sh' pc' → leads sh (Pc_reconcile through delay) sh' pc') as Hto.
  { intros sh' pc' Hl. eapply leads_step; [done|]. unfold start_round. rewrite (store_read_ready sh s Hready). simpl.
    rewrite (ub_open _ _ Hready). eapply leads_step; [done|]. simpl. fold pending round. by eapply leads_trans. }
  destruct (last pending) as [z|] eqn:Hz.
  - assert (z ∈ pending) as Hzin by (apply last_Some in Hz as [l' ->]; set_solver).
    assert (se_seq z < event_count sh1)%N as Hseq.
    { destruct Hahead as [_ Hall]. rewrite Forall_forall in Hall. unfold event_count. rewrite Hlog1. by apply (Hall z). }
    destruct (write_checkpoint_ready sh1 s1 (se_seq z) Hr1 Hseq) as (Hans & Hr2 & Hlog2 & Ht2).
    destruct (write_checkpoint path consumer_id (revision s1) (se_seq z) None sh1) as [sh2 r] eqn:Hw. simpl in *. subst r.
    exists (record_success sh2), (if consumed s1 (se_seq z) then s1 else set_consecutive_failures 0 (set_checkpoint (Some (se_seq z)) s1)).
    split_and!; [|by apply (ready_ext sh2)|by destruct (consumed s1 (se_seq z))|simpl; congruence| |].
    + apply Hto. eapply leads_step; [done|]. simpl. unfold checkpoint_round. simpl. rewrite <-Hrev1, Hw. apply leads_refl.
    + destruct (consumed s1 (se_seq z)) eqn:Hc; [|done]. destruct Hc1 as [Heq|(x & Hx & Hcx)].
      * destruct Hahead as [_ Hall]. rewrite Forall_forall in Hall. destruct (Hall z Hzin) as [Hn _].
        unfold consumed in Hc, Hn. rewrite Heq in Hc. congruence.
      * rewrite Hcx. f_equal. unfold consumed in Hc. rewrite Hcx in Hc. apply bool_decide_eq_true in Hc.
        destruct Hahead as [Hs _]. apply last_Some in Hz as [l' Hz]. rewrite Hz in Hx, Hs.
        apply elem_of_app in Hx as [Hx| ->%list_elem_of_singleton]; [|done].
        apply (StronglySorted_app_1_elem_of _ _ _ x z) in Hs; [simpl in Hs; lia|done|set_solver].
    + change (calls_made (record_success sh2)) with (calls_made sh2). unfold calls_made at 1. rewrite Ht2. exact Hcalls1.
  - exists (record_success sh1), s1. split_and!; [|by apply (ready_ext sh1)|done|done| |done].
    + apply Hto. eapply leads_step; [done|]. apply leads_refl.
    + destruct Hc1 as [|(x & Hx & _)]; [done|]. apply last_None in Hz. rewrite Hz in Hx. by apply not_elem_of_nil in Hx.
Qed.

End progress.

(** ** Properties *)

(** C6. Nothing is passed over: whatever lanes, controls, handlers and the storage do, and however often the process is
    restarted, the state of a consumer reads back and every event its subscription is for that is not beyond the checkpoint
    was acknowledged by the handler, put into quarantine, or skipped by a control that asked for it.  An event is handed
    over only when every earlier one is settled so, and what is acknowledged or quarantined was handed over before. *)
Theorem nothing_is_passed_over path consumer_id subscription log evs d :
  (∀ i e, log !! i = Some e → se_seq e = N.of_nat i) →
  delivery_run path consumer_id subscription evs (delivery_open log None) = Some d →
  let sh := dv_shared d in
  (∃ s, read_event_consumer_state path (sh_file sh) = Ok s
     ∧ ∀ e, e ∈ sh_log sh → delivers subscription e = true → consumed s (se_seq e) = true →
         settled (sh_trace sh) (se_seq e))
  ∧ (∀ before seq after, sh_trace sh = before ++ Fact_Called (Some seq) :: after →
       (∃ e, e ∈ sh_log sh ∧ se_seq e = seq ∧ delivers subscription e = true)
       ∧ ∀ e, e ∈ sh_log sh → delivers subscription e = true → (se_seq e < seq)%N → settled before (se_seq e))
  ∧ (∀ before f after seq, sh_trace sh = before ++ f :: after → f = Fact_Acked seq ∨ f = Fact_Quarantined seq →
       Fact_Called (Some seq) ∈ before).
Proof.
  intros Hlog Hrun sh. destruct (delivery_run_facts path consumer_id subscription evs log d Hlog Hrun) as [[[_ (s & (Hr & _) & Hup)] _] [Hf _]].
  fold sh in Hr, Hup, Hf. split_and!.
  - exists s. split; [done|]. intros e He Hd Hc. apply Hup; [done|done|]. unfold consumed in Hc. unfold below.
    destruct (checkpoint s); [|done]. by apply bool_decide_eq_true in Hc.
  - intros before seq after Ht. exact (Hf before (Fact_Called (Some seq)) after Ht).
  - intros before f after seq Ht [-> | ->]; exact (Hf _ _ _ Ht).
Qed.

(** C21. A handler cannot hold up its consumer: while the storage works and nobody else touches the consumer, a round of a
    lane that starts from a consumer that is not paused and has fewer than twenty failures recorded ([unblocked]) ends
    whatever the handler answers, with the checkpoint at the last event it was to look at, such a consumer again, and at
    most twenty calls for each event that was pending. *)
Theorem handlers_cannot_block path consumer_id subscription answers sh s through delay :
  is_empty consumer_id = false → log_ok sh → unblocked path sh s → (quarantined_count s + event_count sh ≤ u64_max)%N →
  let pending := take_through through (replay (checkpoint s) (sh_log sh)) in
  ∃ fuel sh' s',
    drive path consumer_id subscription answers fuel sh (Pc_reconcile through delay) = (sh', Pc_idle)
    ∧ unblocked path sh' s' ∧ revision s' = revision s ∧ sh_log sh' = sh_log sh
    ∧ checkpoint s' = match last pending with Some e => Some (se_seq e) | None => checkpoint s end
    ∧ (calls_made sh' ≤ calls_made sh + 20 * length (filter (λ e, delivers subscription e = true) pending))%nat.
Proof.
  intros Hid Hlog Hready Hq pending.
  destruct (round_ends path consumer_id subscription answers Hid sh s through delay Hlog Hready Hq) as (sh' & s' & [fuel Hl] & Hrest).
  by exists fuel, sh', s'.
Qed.

Module DeliverySample.

Definition subscription : CustomEventSubscription :=
  {| cs_id := "notes"; cs_consumer_version := 1; cs_event_type := "tick"; cs_source := Source_Any |}.
Definition id : string := custom_event_consumer_id "journal" subscription.

Definition event (seq : N) (event_type : string) (depth : N) : StoredEvent :=
  StoredEvent_new seq
    {| ev_id := EventId_new "e"; ev_session_id := SessionId_new "s"; ev_turn_id := None; ev_timestamp := 0%Z;
       ev_payload := P_CustomEvent {| CoreEvent.ce_extension_id := "clock"; CoreEvent.ce_event_type := event_type;
         CoreEvent.ce_schema_version := 1; CoreEvent.ce_audience := Audience_Session; CoreEvent.ce_causation_id := None;
         CoreEvent.ce_cascade_depth := depth; CoreEvent.ce_payload := JNull |} |}.

Definition log : list StoredEvent := [event 0 "tick" 0; event 1 "other" 0; event 2 "tick" 9; event 3 "tick" 1].

Definition run (evs : list DeliveryEvent) : option Delivery := delivery_run "p" id subscription evs (delivery_open log None).

(** The steps of a lane, the storage being well. *)
Definition store : DeliveryEvent := Ev_lane 0 (A_store None).
Definition go : DeliveryEvent := Ev_lane 0 A_go.
Definition answer (d : CustomEventDisposition) : DeliveryEvent := Ev_lane 0 (A_handler (Ok d)).

(** The first event is acknowledged, the second is to be tried again, and the storage loses a write. *)
Definition first_round : list DeliveryEvent :=
  [Ev_signal 0 None; go; store; store; go; go; store; answer Disp_Ack; Ev_lane 0 (A_store (Some (false, InvalidId "full")));
   go; go; store; answer Disp_Ack; store; go; go; go; go; store; answer (Disp_Retry "later"); store].

Example first_round_trace :
  (λ d, (sh_trace (dv_shared d), ln_pc <$> dv_lanes d !! 0%nat)) <$> run first_round
  = Some ([Fact_Called (Some 0%N); Fact_Acked 0; Fact_Called (Some 0%N); Fact_Acked 0; Fact_Called (Some 3%N)],
          Some (Pc_backoff {| rd_through := None; rd_delay := 250; rd_state := consumer_default; rd_head := Some 3%N |}
                  (event 3 "tick" 1) [] 250)).
Proof. by vm_compute. Qed.

Lemma log_numbered i e : log !! i = Some e → se_seq e = N.of_nat i.
Proof. by do 4 (destruct i as [|i]; [by intros [= <-]|]). Qed.

Lemma nothing_is_passed_over_witness :
  ∃ d, run first_round = Some d ∧ Fact_Called (Some 0%N) ∈ take 1 (sh_trace (dv_shared d))
    ∧ settled (take 4 (sh_trace (dv_shared d))) 0.
Proof.
  destruct (run first_round) as [d|] eqn:Hd; [|by vm_compute in Hd]. exists d. split; [done|].
  destruct (nothing_is_passed_over "p" id subscription log first_round d log_numbered Hd) as (_ & Hcalls & Hends).
  assert (sh_trace (dv_shared d) = [Fact_Called (Some 0%N); Fact_Acked 0; Fact_Called (Some 0%N); Fact_Acked 0; Fact_Called (Some 3%N)]) as Ht.
  { vm_compute in Hd. injection Hd as <-. done. }
  rewrite Ht in *. split.
  - apply (Hends [Fact_Called (Some 0%N)] (Fact_Acked 0) [Fact_Called (Some 0%N); Fact_Acked 0; Fact_Called (Some 3%N)] 0%N); [done|by left].
  - destruct (Hcalls [Fact_Called (Some 0%N); Fact_Acked 0; Fact_Called (Some 0%N); Fact_Acked 0] 3%N [] eq_refl) as [_ Hs].
    apply (Hs (event 0 "tick" 0)); [|done|done]. vm_compute in Hd. injection Hd as <-. simpl. by left.
Defined.

Lemma handlers_cannot_block_witness :
  ∃ fuel sh' s',
    drive "p" id subscription (λ _, Ok (Disp_Retry "never")) fuel (dv_shared (delivery_open log None)) (Pc_reconcile None 250)
      = (sh', Pc_idle)
    ∧ unblocked "p" sh' s' ∧ checkpoint s' = Some 3%N ∧ (calls_made sh' ≤ 40)%nat.
Proof.
  destruct (handlers_cannot_block "p" id subscription (λ _, Ok (Disp_Retry "never")) (dv_shared (delivery_open log None))
              consumer_default None 250) as (fuel & sh' & s' & Hd & Hr & _ & _ & Hc & Hcalls).
  - by vm_compute.
  - exact log_numbered.
  - split; [apply holds_default|done|by vm_compute].
  - by vm_compute.
  - exists fuel, sh', s'. split_and!; [done|done|exact Hc|exact Hcalls].
Defined.

(** The lane waits to try the last event again, idle to [wait_until_idle], when a control asks for a replay from the
    beginning.  The lane goes on with its event, which the handler now acknowledges under the new revision. *)
Definition lost_replay : list DeliveryEvent :=
  first_round
  ++ [Ev_reset 0 Reset_Beginning; Ev_control 0 (A_store None); Ev_control 0 (A_store None); Ev_control 0 A_go;
      Ev_control 0 (A_store None); Ev_control 0 (A_store None); Ev_wake 0 0]
  ++ [go; go; store; answer Disp_Ack; store; go; store]
  ++ [go; store; store; go; store; go; store; store; go; store].

(** The control is done, the lane has nothing left to do, the checkpoint is at the end of the log, and the first event was
    not handed over again. *)
Lemma replay_from_beginning_is_lost :
  ∃ d, run lost_replay = Some d ∧ dv_controls d !! 0%nat = Some Ctl_done
    ∧ dv_lanes d !! 0%nat = Some lane_new
    ∧ (∃ s, read_event_consumer_state "p" (sh_file (dv_shared d)) = Ok s ∧ checkpoint s = Some 3%N ∧ revision s = 1%N)
    ∧ drop 5 (sh_trace (dv_shared d)) = [Fact_Called (Some 3%N); Fact_Acked 3].
Proof.
  destruct (run lost_replay) as [d|] eqn:Hd; [|by vm_compute in Hd]. exists d. vm_compute in Hd. injection Hd as <-.
  split_and!; [done|done|done| |done]. by eexists.
Qed.

End DeliverySample.
