(* ===== verification/SessLineage.v ===== *)
(** * The lineage of sessions
    ([astrcode-session-projection/src/session_lineage.rs], the access checks of
    [astrcode-server/src/child_session.rs], [session_state] of [session_operations.rs])

    A session may have a parent.  The walk along parents is shared by the server, which lets a session reach its
    descendants only, and by the list of the sessions an extension may see ([ExtHistory]).  Every id is asked for its
    parent at most once, so the answers of the store are a function of the id. *)

From stdpp Require Import relations.
From S2P Require Import Prelude CoreTypes CoreLlm CoreEvent ProjViews ProjContext ProjReducer StoreTypes StoreRepo.

(** ** The walk *)

(** The variants of [ParentChainWalkError]; a cycle carries the id that was met again. *)
Inductive ParentChainWalkError (E : Type) := Walk_Cycle (session_id : SessionId) | Walk_Resolve (e : E).
Arguments Walk_Cycle {E} session_id.
Arguments Walk_Resolve {E} e.

(** [ParentChainCycle::fmt]. *)
Definition ParentChainCycle_to_string (session_id : SessionId) : string :=
  "session parent chain contains a cycle at " +:+ SessionId_str session_id.

Section walk.
Context {E : Type} (parent_of : SessionId → result (option SessionId) E).

Fixpoint walk_loop (fuel : nat) (visited : gset SessionId) (chain : list SessionId) (current : SessionId)
    : option (result (list SessionId) (ParentChainWalkError E)) :=
  match fuel with
  | O => None
  | S fuel =>
    if bool_decide (current ∈ visited) then Some (Err (Walk_Cycle current))
    else
      let chain := chain ++ [current] in
      match parent_of current with
      | Err e => Some (Err (Walk_Resolve e))
      | Ok None => Some (Ok chain)
      | Ok (Some parent) => walk_loop fuel ({[current]} ∪ visited) chain parent
      end
  end.

Definition collect_parent_chain (fuel : nat) (start : SessionId)
    : option (result (list SessionId) (ParentChainWalkError E)) :=
  walk_loop fuel ∅ [] start.

(** ** What the walk finds *)

(** [x] has the parent [y]. *)
Definition parent_step (x y : SessionId) : Prop := parent_of x = Ok (Some y).

(** The sessions from [x] to its root. *)
Inductive lineage : SessionId → list SessionId → Prop :=
| lineage_root x : parent_of x = Ok None → lineage x [x]
| lineage_step x p l : parent_step x p → lineage p l → lineage x (x :: l).

Lemma parent_step_det x y z : parent_step x y → parent_step x z → y = z.
Proof. unfold parent_step. congruence. Qed.

Lemma lineage_rtc x l y : lineage x l → y ∈ l → rtc parent_step x y.
Proof.
  induction 1 as [x Hr|x p l Hp Hl IH]; intros Hy.
  - by apply list_elem_of_singleton in Hy as ->.
  - apply elem_of_cons in Hy as [->|Hy]; [done|]. eapply rtc_l; eauto.
Qed.

Lemma lineage_complete x l y : lineage x l → rtc parent_step x y → y ∈ l ∧ ∃ l', lineage y l'.
Proof.
  intros Hl. induction 1 as [x|x p y Hp Hrest IH] in l, Hl |- *.
  - split; [|by eexists]. destruct Hl; set_solver.
  - destruct Hl as [x Hr|x p' l Hp' Hl]; [unfold parent_step in *; congruence|].
    rewrite (parent_step_det _ _ _ Hp Hp') in *. destruct (IH _ Hl) as [? ?]. set_solver.
Qed.

(** The proper ancestors are the tail of the lineage. *)
Lemma lineage_ancestors x l y : lineage x l → y ∈ tail l ↔ tc parent_step x y.
Proof.
  intros Hl. destruct Hl as [x Hr|x p l Hp Hl]; simpl; split.
  - set_solver.
  - intros Ht. exfalso. inversion Ht; subst; unfold parent_step in *; congruence.
  - intros Hy. eapply tc_rtc_r; [by apply tc_once|]. by eapply lineage_rtc.
  - intros Ht. eapply (lineage_complete p l y Hl).
    inversion Ht as [? ? H1|? z ? H1 Hrest]; subst; rewrite (parent_step_det _ _ _ Hp H1); [done|by apply tc_rtc].
Qed.

(** A session whose lineage ends is on no cycle. *)
Lemma lineage_acyclic x l : lineage x l → ¬ tc parent_step x x.
Proof.
  induction 1 as [x Hr|x p l Hp Hl IH]; intros Ht.
  - inversion Ht; subst; unfold parent_step in *; congruence.
  - apply IH. inversion Ht as [? ? H1|? z ? H1 Hrest]; subst; rewrite (parent_step_det _ _ _ Hp H1) in *.
    + by apply tc_once.
    + by eapply tc_r.
Qed.

(** ** The outcomes of the loop *)

Lemma walk_Ok fuel visited chain current chain' :
  walk_loop fuel visited chain current = Some (Ok chain') →
  ∃ path, chain' = chain ++ path ∧ lineage current path.
Proof.
  induction fuel as [|fuel IH] in visited, chain, current |- *; [done|]. cbn.
  case_bool_decide; [done|]. destruct (parent_of current) as [[p|]|e] eqn:Hp; [|intros [= <-]|done].
  - intros (path & -> & Hl)%IH. exists (current :: path). rewrite <-app_assoc. split; [done|]. by econstructor.
  - exists [current]. by split; [|constructor].
Qed.

Lemma walk_Err fuel visited chain current e :
  (∀ v, v ∈ visited → tc parent_step v current) →
  walk_loop fuel visited chain current = Some (Err e) →
  match e with
  | Walk_Cycle y => tc parent_step y y
  | Walk_Resolve e => ∃ y, rtc parent_step current y ∧ parent_of y = Err e
  end.
Proof.
  induction fuel as [|fuel IH] in visited, chain, current |- *; intros Hv; [done|]. cbn.
  case_bool_decide as Hin; [intros [= <-]; eauto|].
  destruct (parent_of current) as [[p|]|e'] eqn:Hp; [|done|intros [= <-]; eauto using rtc_refl].
  intros Hw. apply IH in Hw.
  - destruct e; [done|]. destruct Hw as (y & Hy & He). exists y. split; [by eapply rtc_l|done].
  - intros v [->%elem_of_singleton|Hvv]%elem_of_union; [by apply tc_once|eapply tc_r; eauto].
Qed.

(** The ids that have a parent bound the rounds. *)
Lemma walk_total (X : gset SessionId) fuel visited chain current :
  (∀ x p, parent_step x p → x ∈ X) → size (X ∖ visited) < fuel → is_Some (walk_loop fuel visited chain current).
Proof.
  intros HX. induction fuel as [|fuel IH] in visited, chain, current |- *; intros Hf; [lia|]. cbn.
  case_bool_decide as Hin; [eauto|]. destruct (parent_of current) as [[p|]|e] eqn:Hp; [|eauto|eauto].
  apply IH. assert (size (X ∖ ({[current]} ∪ visited)) < size (X ∖ visited)); [|lia].
  apply subset_size. split; [set_solver|]. intros Hs. specialize (HX _ _ Hp). set_solver.
Qed.

(** With fuel for the ids that have a parent, the walk ends: at a root, at a session it met before, or at the first
    error of the store. *)
Lemma collect_parent_chain_outcome (X : gset SessionId) fuel start :
  (∀ x p, parent_step x p → x ∈ X) → size X < fuel →
  (∃ chain, collect_parent_chain fuel start = Some (Ok chain) ∧ lineage start chain)
  ∨ (∃ y, collect_parent_chain fuel start = Some (Err (Walk_Cycle y)) ∧ tc parent_step y y)
  ∨ (∃ y e, collect_parent_chain fuel start = Some (Err (Walk_Resolve e)) ∧ rtc parent_step start y ∧ parent_of y = Err e).
Proof.
  intros HX Hf. unfold collect_parent_chain.
  destruct (walk_total X fuel ∅ [] start HX) as [[chain|e] Hw].
  { by rewrite difference_empty_L. }
  - left. destruct (walk_Ok _ _ _ _ _ Hw) as (path & -> & Hl). eauto.
  - apply walk_Err in Hw as Hs; [|set_solver]. right. destruct e as [y|e]; [left; eauto|right].
    destruct Hs as (y & ? & ?). eauto.
Qed.

Lemma collect_parent_chain_lineage (X : gset SessionId) fuel start path :
  (∀ x p, parent_step x p → x ∈ X) → size X < fuel → lineage start path →
  collect_parent_chain fuel start = Some (Ok path).
Proof.
  intros HX Hf Hl.
  assert (∀ l l', lineage start l → lineage start l' → l = l') as Huniq.
  { clear. intros l l' Hl. revert l'. induction Hl as [x Hr|x p l Hp Hl IH]; intros l' Hl';
      destruct Hl' as [y Hr'|y p' l' Hp' Hl']; unfold parent_step in *; try congruence.
    rewrite Hp in Hp'. injection Hp' as ->. f_equal. by apply IH. }
  assert (size (X ∖ ∅) < fuel) as Hf' by (by rewrite difference_empty_L).
  destruct (walk_total X fuel ∅ [] start HX Hf') as [[chain|e] Hw].
  - destruct (walk_Ok _ _ _ _ _ Hw) as (path' & -> & Hl'). unfold collect_parent_chain. rewrite Hw. simpl.
    by rewrite (Huniq _ _ Hl Hl').
  - exfalso. revert Hw.
    assert (∀ visited chain current l, lineage current l → (∀ v, v ∈ visited → tc parent_step v current) →
      walk_loop fuel visited chain current ≠ Some (Err e)) as Hno.
    { clear -HX. induction fuel as [|fuel IH]; intros visited chain current l Hl Hv; [done|]. cbn.
      case_bool_decide as Hin.
      { exfalso. eapply lineage_acyclic; eauto. }
      destruct Hl as [x Hr|x p l Hp Hl]; [by rewrite Hr|]. rewrite Hp. eapply IH; [done|].
      intros v [->%elem_of_singleton|Hvv]%elem_of_union; [by apply tc_once|eapply tc_r; eauto]. }
    eapply Hno; [done|set_solver].
Qed.
End walk.

(** ** Errors of the session API ([astrcode-core/src/tool.rs]) *)

(** [Internal] keeps its source as the text it displays. *)
Inductive SessionApiError :=
| Api_NotFound (message : string)
| Api_InvalidInput (message : string)
| Api_PermissionDenied (message : string)
| Api_SessionBusy (message : string)
| Api_NoActiveTurn (message : string)
| Api_MaxDepthExceeded (current max : N)
| Api_Unsupported (message : string)
| Api_Internal (display : string).

Definition SessionApiError_to_string (e : SessionApiError) : string :=
  match e with
  | Api_NotFound m => "session not found: " +:+ m
  | Api_InvalidInput m => "invalid input: " +:+ m
  | Api_PermissionDenied m => "permission denied: " +:+ m
  | Api_SessionBusy m => "session busy: " +:+ m
  | Api_NoActiveTurn m => "no active turn in session: " +:+ m
  | Api_MaxDepthExceeded current max =>
    "max depth exceeded: current=" +:+ u64_to_string current +:+ ", max=" +:+ u64_to_string max
  | Api_Unsupported m => "unsupported session operation: " +:+ m
  | Api_Internal display => display
  end.

(** What the two reads of [SessionManager] fail with: [SessionManagerError::Storage], which displays its source. *)
Definition parent_chain_walk_api_error (e : ParentChainWalkError SessionApiError) : SessionApiError :=
  match e with
  | Walk_Cycle session_id => Api_Internal (ParentChainCycle_to_string session_id)
  | Walk_Resolve e => e
  end.

Definition map_recycled_access_error (e : StorageError) : SessionApiError :=
  match e with
  | NotFound _ => Api_NotFound (StorageError_to_string e)
  | Unsupported reason => Api_Unsupported reason
  | e => Api_Internal (StorageError_to_string e)
  end.

Definition map_restore_error (e : StorageError) : SessionApiError :=
  match e with
  | NotFound _ => Api_NotFound (StorageError_to_string e)
  | Unsupported reason => Api_Unsupported reason
  | e => Api_Internal (StorageError_to_string e)
  end.

(** ** Access of one session to another *)

Inductive SessionAccessScope := Scope_Active | Scope_ActiveOrRecycled.

(** [SessionReader] of the storage: the read models of active and of recycled sessions. *)
Record SessionReader := {
  sr_read_model : SessionId → result SessionReadModel StorageError;
  sr_recycled_read_model : SessionId → result SessionReadModel StorageError;
}.

Definition session_read_model_active_or_recycled (reader : SessionReader) (session_id : SessionId)
    : result SessionReadModel StorageError :=
  match sr_read_model reader session_id with
  | Err (NotFound _) => sr_recycled_read_model reader session_id
  | r => r
  end.

Definition parent_id (m : SessionReadModel) : option SessionId := parent_session_id <$> parent (identity m).

Inductive SessionLifecycleState := Lifecycle_Active | Lifecycle_Recycled.

Record SessionExecutionView := {
  xv_phase : Phase;
  xv_active_turn_id : option TurnId;
  xv_queued_inputs : nat;
  xv_message_count : nat;
}.

Record SessionState := {
  ss_lifecycle : SessionLifecycleState;
  ss_phase : Phase;
  ss_active_turn_id : option TurnId;
  ss_queued_inputs : nat;
  ss_message_count : nat;
}.

Section server.
Context (fuel : nat) (reader : SessionReader).

Definition read_access_model (session_id : SessionId) (scope : SessionAccessScope)
    : result SessionReadModel SessionApiError :=
  match sr_read_model reader session_id with
  | Ok model => Ok model
  | Err e =>
    match scope with
    | Scope_Active => Err (Api_NotFound (StorageError_to_string e))
    | Scope_ActiveOrRecycled =>
      match e with
      | NotFound _ => map_err map_recycled_access_error (sr_recycled_read_model reader session_id)
      | e => Err (Api_Internal (StorageError_to_string e))
      end
    end
  end.

(** The closure of [verify_access_in_scope] that resolves a parent. *)
Definition access_parent (scope : SessionAccessScope) (session_id : SessionId)
    : result (option SessionId) SessionApiError :=
  let? model := read_access_model session_id scope in Ok (parent_id model).

(** [chain] has the target at least. *)
Definition verify_access_in_scope (caller target : SessionId) (scope : SessionAccessScope)
    : option (result unit SessionApiError) :=
  if bool_decide (caller = target) then Some (Ok tt)
  else
    chain ← collect_parent_chain (access_parent scope) fuel target;
    Some (let? chain := map_err parent_chain_walk_api_error chain in
          if bool_decide (caller ∈ drop 1 chain) then Ok tt
          else Err (Api_PermissionDenied ("session " +:+ SessionId_str target +:+ " is not a descendant of "
                                          +:+ SessionId_str caller))).

Definition verify_access (caller target : SessionId) : option (result unit SessionApiError) :=
  verify_access_in_scope caller target Scope_Active.

Definition verify_restore_access (caller target : SessionId) : option (result unit SessionApiError) :=
  verify_access_in_scope caller target Scope_ActiveOrRecycled.

Definition depth_parent (session_id : SessionId) : result (option SessionId) SessionApiError :=
  let? model := map_err (Api_Internal ∘ StorageError_to_string) (sr_read_model reader session_id) in
  Ok (parent_id model).

Definition session_depth (session_id : SessionId) : option (result nat SessionApiError) :=
  chain ← collect_parent_chain depth_parent fuel session_id;
  Some (let? chain := map_err parent_chain_walk_api_error chain in Ok (length chain - 1)).

(** The check of [spawn_child] before it creates anything; [max_depth] is the configured limit. *)
Definition check_spawn_depth (max_depth : nat) (parent_session_id : SessionId) : option (result unit SessionApiError) :=
  depth ← session_depth parent_session_id;
  Some (let? depth := depth in
        if bool_decide (max_depth ≤ depth) then Err (Api_MaxDepthExceeded (N.of_nat depth) (N.of_nat max_depth))
        else Ok tt).

(** [execution_view] of the scheduler, with the display of its error. *)
Context (execution_view : SessionId → result SessionExecutionView string).

Definition session_state (caller target : SessionId) : option (result SessionState SessionApiError) :=
  match sr_read_model reader target with
  | Ok _ =>
    access ← verify_access caller target;
    Some (let? _ := access in
          let? view := map_err Api_Internal (execution_view target) in
          Ok {| ss_lifecycle := Lifecycle_Active; ss_phase := xv_phase view;
                ss_active_turn_id := xv_active_turn_id view; ss_queued_inputs := xv_queued_inputs view;
                ss_message_count := xv_message_count view |})
  | Err (NotFound _) =>
    access ← verify_restore_access caller target;
    Some (let? _ := access in
          let? model := map_err map_restore_error (sr_recycled_read_model reader target) in
          Ok {| ss_lifecycle := Lifecycle_Recycled; ss_phase := execution.phase (execution_ model);
                ss_active_turn_id := None;
                ss_queued_inputs := length (execution.pending_inputs (execution_ model));
                ss_message_count := length (model_context.messages (model_ctx model)) |})
  | Err e => Some (Err (Api_Internal (StorageError_to_string e)))
  end.
End server.

(** ** Who may reach a session *)

Section access.
Context (fuel : nat) (reader : SessionReader) (scope : SessionAccessScope) (X : gset SessionId).
Local Abbreviation parent_of := (access_parent reader scope).
Hypothesis HX : ∀ x p, parent_step parent_of x p → x ∈ X.
Hypothesis Hfuel : size X < fuel.

Lemma drop_tail {A} (l : list A) : drop 1 l = tail l.
Proof. by destruct l; simpl; rewrite ?drop_0. Qed.

(** When the lineage of the target is readable, it is open to itself and its ancestors, and to no one else. *)
Lemma access_decided caller target path :
  lineage parent_of target path →
  verify_access_in_scope fuel reader caller target scope
  = Some (if decide (caller ∈ path) then Ok tt
          else Err (Api_PermissionDenied ("session " +:+ SessionId_str target +:+ " is not a descendant of "
                                          +:+ SessionId_str caller))).
Proof using HX Hfuel.
  intros Hl. unfold verify_access_in_scope. case_bool_decide as Heq.
  { subst. rewrite decide_True; [done|]. destruct Hl; set_solver. }
  rewrite (collect_parent_chain_lineage _ X _ _ path) by done. simpl. rewrite drop_tail.
  destruct Hl as [x Hr|x p l Hp Hl]; simpl.
  all: repeat case_bool_decide; repeat case_decide; try done; set_solver.
Qed.

Lemma access_granted caller target :
  verify_access_in_scope fuel reader caller target scope = Some (Ok tt) ↔
  caller = target ∨ (∃ path, lineage parent_of target path) ∧ tc (parent_step parent_of) target caller.
Proof using HX Hfuel.
  split.
  - unfold verify_access_in_scope. case_bool_decide as Heq; [by left|].
    destruct (collect_parent_chain parent_of fuel target) as [[chain|e]|] eqn:Hw; simpl; [|by destruct e|done].
    apply walk_Ok in Hw as (path & -> & Hl). simpl. rewrite drop_tail. case_bool_decide as Hin; [|done].
    intros _. right. split; [by eexists|]. by apply (lineage_ancestors _ _ path).
  - intros [->|[[path Hl] Hs]].
    + unfold verify_access_in_scope. by rewrite bool_decide_true.
    + rewrite (access_decided _ _ path Hl). rewrite decide_True; [done|].
      apply (lineage_complete parent_of target path caller Hl). by apply tc_rtc.
Qed.

(** When it is not, the error is that of the store, or names a session on a cycle. *)
Lemma access_error caller target :
  caller ≠ target → (¬ ∃ path, lineage parent_of target path) →
  ∃ e, verify_access_in_scope fuel reader caller target scope = Some (Err e)
    ∧ ((∃ y, tc (parent_step parent_of) y y ∧ e = Api_Internal (ParentChainCycle_to_string y))
       ∨ ∃ y, rtc (parent_step parent_of) target y ∧ parent_of y = Err e).
Proof using HX Hfuel.
  intros Hne Hno. unfold verify_access_in_scope. rewrite bool_decide_false by done.
  destruct (collect_parent_chain_outcome parent_of X fuel target HX Hfuel)
    as [(chain & -> & Hl)|[(y & -> & Hy)|(y & e & -> & Hs & He)]]; simpl.
  - exfalso. eauto.
  - eexists; split; [done|]. left. eauto.
  - eexists; split; [done|]. right. eauto.
Qed.
End access.
