(* ===== verification/ExtHistory.v ===== *)
(** * The history of sessions, as an extension sees it
    ([astrcode-extensions/src/host_router/session.rs], [host_router/wire.rs])

    An extension that runs in a session may list the sessions below it, read their events page by page and add up
    their tokens.  The list walks the lineages of all sessions; the other operations ask the server.  The order in
    which a [HashMap] is visited ([order]) and the JSON of timestamps and payloads are arguments. *)

From stdpp Require Import relations sorting.
From S2P Require Import Prelude CoreTypes CoreLlm CoreEvent ProjViews ProjContext ProjReducer StoreTypes StoreScan StoreRepo AiRetry S5rWire SessLineage.

(** ** Errors on the wire ([wire.rs]) *)

Class WireError (E : Type) := {
  wire_code : E → WireErrorCode;
  is_retryable : E → bool;
  error_to_string : E → string;
}.

Definition SessionApiError_wire_code (e : SessionApiError) : WireErrorCode :=
  match e with
  | Api_NotFound _ => Code_SessionNotFound
  | Api_InvalidInput _ => Code_InvalidInput
  | Api_PermissionDenied _ => Code_PermissionDenied
  | Api_SessionBusy _ => Code_SessionBusy
  | Api_NoActiveTurn _ => Code_NoActiveTurn
  | Api_MaxDepthExceeded _ _ => Code_MaxDepthExceeded
  | Api_Unsupported _ => Code_Unsupported
  | Api_Internal _ => Code_InternalError
  end.

Definition StorageError_wire_code (e : StorageError) : WireErrorCode :=
  match e with
  | NotFound _ => Code_SessionNotFound
  | AlreadyExists _ => Code_SessionAlreadyExists
  | InvalidId _ => Code_InvalidInput
  | Unsupported _ => Code_Unsupported
  | Io _ | DurabilityUncertain _ _ _ => Code_StorageIoError
  | Serialization _ | InvalidEvent _ | CorruptLog _ => Code_CorruptSessionData
  | LockError _ => Code_StorageLockError
  end.

#[export] Instance SessionApiError_wire : WireError SessionApiError :=
  {| wire_code := SessionApiError_wire_code; is_retryable := λ _, false; error_to_string := SessionApiError_to_string |}.
#[export] Instance StorageError_wire : WireError StorageError :=
  {| wire_code := StorageError_wire_code; is_retryable := StorageError_is_retryable;
     error_to_string := StorageError_to_string |}.

(** [ErrorPayload::retryable]. *)
Definition set_retryable (retryable : bool) (e : ErrorPayload) : ErrorPayload :=
  {| ep_code := ep_code e; ep_message := ep_message e; ep_hint := ep_hint e; ep_retryable := retryable;
     ep_details := ep_details e |}.

Definition wire_payload `{WireError E} (e : E) : ErrorPayload :=
  set_retryable (is_retryable e) (ErrorPayload_new (wire_code e) (error_to_string e)).

Definition storage_read_error (e : StorageError) : ErrorPayload :=
  match e with
  | InvalidId message => ErrorPayload_new Code_InvalidInput message
  | NotFound session_id =>
    ErrorPayload_new Code_SessionNotFound ("session not found: " +:+ SessionId_str session_id)
  | Unsupported message => ErrorPayload_new Code_Unsupported message
  | e => set_retryable true (ErrorPayload_new Code_ReadFailed (StorageError_to_string e))
  end.

(** ** The sessions a session may see *)

Section visible.
Context (order : gmap SessionId (option SessionId) → list SessionId).
Implicit Types parents : gmap SessionId (option SessionId).

(** A session without an entry has no parent, nor has one whose lineage is resolved. *)
Definition unresolved_parent parents (resolved : gset SessionId) (current : SessionId)
    : result (option SessionId) Empty_set :=
  Ok (if bool_decide (current ∈ resolved) then None else mjoin (parents !! current)).

(** The first loop.  The walks have fuel for every entry. *)
Fixpoint resolve_loop parents (keys : list SessionId) (resolved : gset SessionId)
    : option (result (gset SessionId) ErrorPayload) :=
  match keys with
  | [] => Some (Ok resolved)
  | session_id :: keys =>
    if bool_decide (session_id ∈ resolved) then resolve_loop parents keys resolved
    else
      match collect_parent_chain (unresolved_parent parents resolved) (S (size parents)) session_id with
      | None => None
      | Some (Err (Walk_Cycle y)) => Some (Err (ErrorPayload_new Code_ReadFailed (ParentChainCycle_to_string y)))
      | Some (Err (Walk_Resolve e)) => match e with end
      | Some (Ok path) => resolve_loop parents keys (resolved ∪ list_to_set path)
      end
  end.

(** [children.entry(parent).or_default().push(id)] for every session with a parent. *)
Definition add_child parents (children : gmap SessionId (list SessionId)) (session_id : SessionId)
    : gmap SessionId (list SessionId) :=
  match parents !! session_id with
  | Some (Some parent) => <[parent := default [] (children !! parent) ++ [session_id]]> children
  | _ => children
  end.

Definition children_of parents (keys : list SessionId) : gmap SessionId (list SessionId) :=
  foldl (add_child parents) ∅ keys.

(** The second loop; the top of the stack is the head of [pending]. *)
Fixpoint visible_loop (fuel : nat) (children : gmap SessionId (list SessionId)) (visible : gset SessionId)
    (pending : list SessionId) : option (gset SessionId) :=
  match pending with
  | [] => Some visible
  | session_id :: pending =>
    match fuel with
    | O => None
    | S fuel =>
      if bool_decide (session_id ∈ visible) then visible_loop fuel children visible pending
      else visible_loop fuel children ({[session_id]} ∪ visible)
             (reverse (default [] (children !! session_id)) ++ pending)
    end
  end.

Definition visible_history_sessions (caller_session_id : SessionId) parents
    : option (result (gset SessionId) ErrorPayload) :=
  let keys := order parents in
  resolved ← resolve_loop parents keys ∅;
  match resolved with
  | Err e => Some (Err e)
  | Ok _ => Ok <$> visible_loop (S (size parents)) (children_of parents keys) ∅ [caller_session_id]
  end.
End visible.

(** ** The context of a call *)

Definition SessionStateCall : Type := SessionId → SessionId → option (result SessionState SessionApiError).

(** The fields of [InvokeContext] the history looks at; of the session operations, [session_state]. *)
Record HistoryContext := {
  hc_extension_id : string;
  hc_session_id : option string;
  hc_session_ops : option SessionStateCall;
}.

Definition required_extension_id (ctx : HistoryContext) : result string ErrorPayload :=
  if is_empty (hc_extension_id ctx)
  then Err (ErrorPayload_new Code_ContextUnavailable "host operation requires an attributed extension context")
  else Ok (hc_extension_id ctx).

Definition required_history_context (ctx : HistoryContext) : result string ErrorPayload :=
  let? _ := required_extension_id ctx in
  ok_or (hc_session_id ctx)
    (ErrorPayload_new Code_ContextUnavailable "session history requires a session-scoped invoke context").

Definition history_target_is_visible (ops : option SessionStateCall) (caller target : string)
    : option (result bool ErrorPayload) :=
  if bool_decide (caller = target) then Some (Ok true)
  else
    match ops with
    | None => Some (Ok false)
    | Some session_state =>
      state ← session_state (SessionId_new caller) (SessionId_new target);
      Some match state with
           | Ok _ => Ok true
           | Err (Api_PermissionDenied _) | Err (Api_NotFound _) => Ok false
           | Err e => Err (wire_payload e)
           end
    end.

Definition authorize_history_target (ops : option SessionStateCall) (caller target : string)
    : option (result unit ErrorPayload) :=
  visible ← history_target_is_visible ops caller target;
  Some (let? visible := visible in
        if (visible : bool) then Ok tt
        else Err (ErrorPayload_new Code_PermissionDenied "session history target is outside the caller session lineage")).

(** ** The list *)

Record HostSessionSummary := {
  hs_session_id : string;
  hs_parent_session_id : option string;
  hs_source_extension : option string;
  hs_working_dir : string;
  hs_model_id : string;
  hs_created_at : string;
  hs_updated_at : string;
  hs_latest_cursor : Cursor;
}.

Definition host_summary (s : SessionSummary) : HostSessionSummary :=
  {| hs_session_id := SessionId_str (sum_session_id s);
     hs_parent_session_id := SessionId_str <$> sum_parent_session_id s;
     hs_source_extension := sum_source_extension s; hs_working_dir := sum_working_dir s;
     hs_model_id := sum_model_id s; hs_created_at := sum_created_at s; hs_updated_at := sum_updated_at s;
     hs_latest_cursor := sum_latest_cursor s |}.

Definition add_parent (parents : gmap SessionId (option SessionId)) (s : SessionSummary)
    : result (gmap SessionId (option SessionId)) ErrorPayload :=
  match parents !! sum_session_id s with
  | Some _ =>
    Err (ErrorPayload_new Code_ReadFailed ("duplicate session summary for " +:+ SessionId_str (sum_session_id s)))
  | None => Ok (<[sum_session_id s := sum_parent_session_id s]> parents)
  end.

(** [summaries] is the answer of the reader, where there is one. *)
Definition history_list (order : gmap SessionId (option SessionId) → list SessionId)
    (summaries : option (result (list SessionSummary) StorageError)) (ctx : HistoryContext)
    : option (result (list HostSessionSummary) ErrorPayload) :=
  match (let? caller_session_id := required_history_context ctx in
         let? summaries := ok_or summaries (ErrorPayload_new Code_BackendUnavailable "session_read not configured") in
         let? summaries := map_err storage_read_error summaries in
         let? parents := try_fold add_parent ∅ summaries in
         Ok (caller_session_id, summaries, parents)) with
  | Err e => Some (Err e)
  | Ok (caller_session_id, summaries, parents) =>
    visible ← visible_history_sessions order (SessionId_new caller_session_id) parents;
    Some (let? visible := visible in
          Ok (host_summary <$> filter (λ s, sum_session_id s ∈ (visible : gset SessionId)) summaries))
  end.

(** ** Pages of events *)

Definition MAX_READ_EVENTS_LIMIT : N := 500.

(** [EventReader] on active or recycled sessions. *)
Record EventReader := {
  er_replay_from_start : SessionId → N → result (list StoredEvent) StorageError;
  er_replay_from : SessionId → Cursor → N → result (list StoredEvent) StorageError;
  er_replay_events : SessionId → result (list StoredEvent) StorageError;
}.

Record HostSessionEvent := {
  he_seq : N;
  he_id : string;
  he_session_id : string;
  he_turn_id : option string;
  he_timestamp : string;
  he_payload : Value;
}.

Record HostSessionEventsPageRequest := {
  pr_session_id : string;
  pr_cursor : option Cursor;
  pr_limit : N;
}.

Record HostSessionEventsPageOutput := {
  po_events : list HostSessionEvent;
  po_next_cursor : Cursor;
  po_has_more : bool;
}.

Section pages.
Context (timestamp_to_value : DateTime → result Value string).
Context (payload_to_value : DurableEventPayload → result Value string).

Definition host_session_event (stored : StoredEvent) : result HostSessionEvent ErrorPayload :=
  let failed what e :=
    ErrorPayload_new Code_SerializationFailed ("failed to serialize session event " +:+ what +:+ ": " +:+ e) in
  let? timestamp := map_err (failed "timestamp") (timestamp_to_value (se_timestamp stored)) in
  let? timestamp := ok_or (match timestamp with JString s => Some s | _ => None end)
    (ErrorPayload_new Code_SerializationFailed "session event timestamp did not serialize as a string") in
  let? payload := map_err (failed "payload") (payload_to_value (se_payload stored)) in
  Ok {| he_seq := se_seq stored; he_id := EventId_str (se_id stored);
        he_session_id := SessionId_str (se_session_id stored);
        he_turn_id := TurnId_str <$> se_turn_id stored; he_timestamp := timestamp; he_payload := payload |}.

Definition read_page (reader : EventReader) (request : HostSessionEventsPageRequest)
    : result HostSessionEventsPageOutput ErrorPayload :=
  let session_id := SessionId_new (pr_session_id request) in
  let limit := pr_limit request in
  let? events := map_err storage_read_error
    match pr_cursor request with
    | Some cursor => er_replay_from reader session_id cursor (limit + 1)
    | None => er_replay_from_start reader session_id (limit + 1)
    end in
  let has_more := bool_decide (limit < N.of_nat (length events))%N in
  let events := take (N.to_nat limit) events in
  let next_cursor := default "0"%string
    (option_or (u64_to_string ∘ se_seq <$> last events) (pr_cursor request)) in
  let? events := try_map host_session_event events in
  Ok {| po_events := events; po_next_cursor := next_cursor; po_has_more := has_more |}.

Definition read_events (reader : option EventReader) (request : HostSessionEventsPageRequest) (ctx : HistoryContext)
    : option (result HostSessionEventsPageOutput ErrorPayload) :=
  match (let? reader := ok_or reader (ErrorPayload_new Code_BackendUnavailable "session_read not configured") in
         if negb (bool_decide (1 ≤ pr_limit request ≤ MAX_READ_EVENTS_LIMIT)%N) then
           Err (ErrorPayload_new Code_InvalidInput
                  ("limit must be between 1 and " +:+ u64_to_string MAX_READ_EVENTS_LIMIT))
         else
           let? caller := required_history_context ctx in
           Ok (reader, caller)) with
  | Err e => Some (Err e)
  | Ok (reader, caller) =>
    authorized ← authorize_history_target (hc_session_ops ctx) caller (pr_session_id request);
    Some (let? _ := authorized in read_page reader request)
  end.
End pages.

(** ** The tokens of a session *)

Record TokenTotals := {
  tt_total_tokens : N;
  tt_saw_usage : bool;
  tt_model_context_window : option N;
}.

Definition add_usage (t : TokenTotals) (event : StoredEvent) : TokenTotals :=
  match se_payload event with
  | P_TokenUsageRecorded usage window =>
    match non_cached_tokens usage with
    | Some tokens =>
      {| tt_total_tokens := saturating_add u64_max (tt_total_tokens t) tokens; tt_saw_usage := true;
         tt_model_context_window := Some window |}
    | None =>
      {| tt_total_tokens := tt_total_tokens t; tt_saw_usage := tt_saw_usage t; tt_model_context_window := Some window |}
    end
  | _ => t
  end.

Definition token_totals (events : list StoredEvent) : TokenTotals :=
  foldl add_usage {| tt_total_tokens := 0; tt_saw_usage := false; tt_model_context_window := None |} events.

Definition history_token_usage (reader : option EventReader) (target_session_id : string) (ctx : HistoryContext)
    : option (result (option (N * option N)) ErrorPayload) :=
  match (let? caller := required_history_context ctx in
         let? reader := ok_or reader (ErrorPayload_new Code_BackendUnavailable "session event reader not configured") in
         Ok (caller, reader)) with
  | Err e => Some (Err e)
  | Ok (caller, reader) =>
    authorized ← authorize_history_target (hc_session_ops ctx) caller target_session_id;
    Some (let? _ := authorized in
          let? events := map_err storage_read_error (er_replay_events reader (SessionId_new target_session_id)) in
          let t := token_totals events in
          Ok (if tt_saw_usage t then Some (tt_total_tokens t, tt_model_context_window t) else None))
  end.

(** ** The first loop finds every cycle *)

(** The lineage of a session by the table of parents. *)
Definition table_parent (parents : gmap SessionId (option SessionId)) (x : SessionId)
    : result (option SessionId) Empty_set := Ok (mjoin (parents !! x)).

Abbreviation parent_of_table parents := (parent_step (table_parent parents)).

Section resolve.
Context (parents : gmap SessionId (option SessionId)).
Local Abbreviation grounded x := (∃ l, lineage (table_parent parents) x l).

Lemma table_step_key x p : parent_of_table parents x p → x ∈ (dom parents : gset SessionId).
Proof.
  unfold parent_step, table_parent. intros [= Hp]. apply elem_of_dom.
  destruct (parents !! x); [by eexists|done].
Qed.

Lemma unresolved_step resolved x p :
  parent_step (unresolved_parent parents resolved) x p → parent_of_table parents x p.
Proof. unfold parent_step, unresolved_parent, table_parent. by case_bool_decide. Qed.

Lemma unresolved_cycle resolved x :
  tc (parent_step (unresolved_parent parents resolved)) x x → tc (parent_of_table parents) x x.
Proof. apply (tc_congruence id). intros ??. apply unresolved_step. Qed.

Lemma unresolved_grounded resolved x path :
  (∀ y, y ∈ resolved → grounded y) → lineage (unresolved_parent parents resolved) x path →
  ∀ y, y ∈ path → grounded y.
Proof.
  intros Hres. induction 1 as [x Hr|x p l Hp Hl IH]; intros y Hy.
  - apply list_elem_of_singleton in Hy as ->. unfold unresolved_parent in Hr. case_bool_decide as Hin; [by apply Hres|].
    exists [x]. by constructor.
  - apply elem_of_cons in Hy as [->|Hy]; [|by apply IH].
    destruct (IH p) as [l' Hl']; [destruct Hl; set_solver|]. exists (x :: l').
    econstructor; [by eapply unresolved_step|done].
Qed.

(** It ends with all keys resolved, or with the error for a session on a cycle. *)
Lemma resolve_loop_outcome keys resolved :
  (∀ y, y ∈ resolved → grounded y) →
  (∃ resolved', resolve_loop parents keys resolved = Some (Ok resolved') ∧ ∀ y, y ∈ keys → grounded y)
  ∨ ∃ y, tc (parent_of_table parents) y y
      ∧ resolve_loop parents keys resolved = Some (Err (ErrorPayload_new Code_ReadFailed (ParentChainCycle_to_string y))).
Proof.
  induction keys as [|k keys IH] in resolved |- *; intros Hres; simpl.
  { left. eexists; split; [done|]. set_solver. }
  case_bool_decide as Hin.
  { destruct (IH resolved Hres) as [(r & Hr & Hk)|Hc]; [left|by right].
    exists r. split; [done|]. intros y [->|Hy]%elem_of_cons; [by apply Hres|by apply Hk]. }
  destruct (collect_parent_chain_outcome (unresolved_parent parents resolved) (dom parents) (S (size parents)) k)
    as [(chain & -> & Hl)|[(y & -> & Hy)|(y & e & _)]].
  - intros x p Hp. eapply table_step_key. by eapply unresolved_step.
  - rewrite size_dom. lia.
  - pose proof (unresolved_grounded _ _ _ Hres Hl) as Hg.
    destruct (IH (resolved ∪ list_to_set chain)) as [(r & Hr & Hk)|Hc]; [|left|by right].
    + intros y [Hy|Hy%elem_of_list_to_set]%elem_of_union; [by apply Hres|by apply Hg].
    + exists r. split; [done|]. intros y [->|Hy]%elem_of_cons; [|by apply Hk]. apply Hg. destruct Hl; set_solver.
  - right. exists y. split; [by eapply unresolved_cycle|done].
  - destruct e.
Qed.
End resolve.

(** ** The second loop finds the descendants *)

Section children.
Context (parents : gmap SessionId (option SessionId)) (keys : list SessionId).

(** The sessions whose parent is [p], in the order of the keys. *)
Definition children_list (p : SessionId) : list SessionId := filter (λ k, parents !! k = Some (Some p)) keys.

Lemma children_of_spec p : default [] (children_of parents keys !! p) = children_list p.
Proof.
  unfold children_of, children_list. induction keys as [|k l IH] using rev_ind; [by simpl; rewrite lookup_empty|].
  rewrite foldl_snoc, filter_app, <-IH. unfold add_child at 1.
  destruct (parents !! k) as [[q|]|] eqn:Hk; simpl.
  - destruct (decide (p = q)) as [->|Hne].
    + rewrite lookup_insert_eq. simpl. by rewrite filter_cons_True, filter_nil.
    + rewrite lookup_insert_ne by done. rewrite filter_cons_False, filter_nil, app_nil_r by congruence. done.
  - by rewrite filter_cons_False, filter_nil, app_nil_r by congruence.
  - by rewrite filter_cons_False, filter_nil, app_nil_r by congruence.
Qed.

(** The sessions whose parent is not visible yet. *)
Definition parent_unseen (visible : gset SessionId) (k : SessionId) : bool :=
  match parents !! k with Some (Some p) => bool_decide (p ∉ visible) | _ => false end.
Definition unseen (visible : gset SessionId) : list SessionId := filter (λ k, parent_unseen visible k) keys.

Lemma unseen_step visible x :
  x ∉ visible → length (unseen visible) = length (children_list x) + length (unseen ({[x]} ∪ visible)).
Proof.
  intros Hx.
  assert (∀ k, (parent_unseen visible k ↔ parents !! k = Some (Some x) ∨ parent_unseen ({[x]} ∪ visible) k)
    ∧ ¬ (parents !! k = Some (Some x) ∧ parent_unseen ({[x]} ∪ visible) k)) as Hsplit.
  { intros k. unfold parent_unseen. destruct (parents !! k) as [[p|]|]; [|naive_solver..].
    rewrite !bool_decide_spec. destruct (decide (p = x)); set_solver. }
  unfold unseen, children_list. clear Hx. induction keys as [|k l IH]; [done|].
  rewrite !filter_cons. specialize (Hsplit k) as [Hk Hnot].
  repeat case_decide; simpl; try lia; naive_solver.
Qed.

Lemma visible_loop_ends fuel visible pending :
  length pending + length (unseen visible) ≤ fuel →
  is_Some (visible_loop fuel (children_of parents keys) visible pending).
Proof.
  induction fuel as [|fuel IH] in visible, pending |- *; intros Hf.
  { destruct pending; [by eexists|simpl in Hf; lia]. }
  destruct pending as [|x pending]; [by eexists|]. simpl in *. case_bool_decide as Hin.
  - apply IH. lia.
  - apply IH. rewrite children_of_spec, length_app, length_reverse. rewrite (unseen_step visible x Hin) in Hf. lia.
Qed.

Hypothesis Hkeys : ∀ k, k ∈ keys ↔ k ∈ (dom parents : gset SessionId).

Lemma children_list_step x y : x ∈ children_list y ↔ parent_of_table parents x y.
Proof using Hkeys.
  unfold children_list, parent_step, table_parent. rewrite list_elem_of_filter, Hkeys, elem_of_dom. split.
  - intros [-> _]. done.
  - intros [= H]. destruct (parents !! x) as [o|]; [|done]. simpl in H. subst. split; [done|by eexists].
Qed.

Lemma visible_loop_descends (caller : SessionId) fuel visible pending visible' :
  (∀ x, x ∈ visible ∨ x ∈ pending → rtc (parent_of_table parents) x caller) →
  (caller ∈ visible ∨ caller ∈ pending) →
  (∀ x y, parent_of_table parents x y → y ∈ visible → x ∈ visible ∨ x ∈ pending) →
  visible_loop fuel (children_of parents keys) visible pending = Some visible' →
  ∀ x, x ∈ visible' ↔ rtc (parent_of_table parents) x caller.
Proof using Hkeys.
  induction fuel as [|fuel IH] in visible, pending |- *; intros Hsound Hcaller Hclosed;
    (destruct pending as [|z pending]; simpl;
     [intros [= <-] x; split; [by intros; apply Hsound; left|] |]).
  - intros Hr. induction Hr as [x|x y z Hxy Hyz IH']; [set_solver|].
    destruct (Hclosed x y Hxy) as [?|?]; [by apply IH'|done|set_solver].
  - done.
  - intros Hr. induction Hr as [x|x y z Hxy Hyz IH']; [set_solver|].
    destruct (Hclosed x y Hxy) as [?|?]; [by apply IH'|done|set_solver].
  - case_bool_decide as Hin; apply IH.
    + intros x Hx. apply Hsound. set_solver.
    + set_solver.
    + intros x y Hxy Hy. specialize (Hclosed x y Hxy Hy). set_solver.
    + rewrite children_of_spec. intros x [Hx|Hx].
      { apply Hsound. set_solver. }
      apply elem_of_app in Hx as [Hx|Hx]; [|apply Hsound; set_solver].
      rewrite elem_of_reverse, children_list_step in Hx. eapply rtc_l; [done|]. apply Hsound. set_solver.
    + set_solver.
    + rewrite children_of_spec. intros x y Hxy [->%elem_of_singleton|Hy]%elem_of_union.
      { right. apply elem_of_app. left. by rewrite elem_of_reverse, children_list_step. }
      specialize (Hclosed x y Hxy Hy). set_solver.
Qed.
End children.

(** ** The list *)

(** The table [history_list] builds from summaries with distinct ids. *)
Definition summary_parents (summaries : list SessionSummary) : gmap SessionId (option SessionId) :=
  list_to_map ((λ s, (sum_session_id s, sum_parent_session_id s)) <$> summaries).

Lemma summary_parents_lookup summaries s :
  NoDup (sum_session_id <$> summaries) → s ∈ summaries →
  summary_parents summaries !! sum_session_id s = Some (sum_parent_session_id s).
Proof.
  intros Hn Hs. apply elem_of_list_to_map.
  { by rewrite <-list_fmap_compose. }
  apply list_elem_of_fmap. eauto.
Qed.

Lemma add_parents_ok summaries parents :
  NoDup (sum_session_id <$> summaries) → (∀ s, s ∈ summaries → parents !! sum_session_id s = None) →
  try_fold add_parent parents summaries = Ok (summary_parents summaries ∪ parents).
Proof.
  induction summaries as [|s l IH] in parents |- *; simpl; intros Hn Hp.
  { unfold summary_parents. simpl. by rewrite (left_id_L ∅ (∪)). }
  apply NoDup_cons in Hn as [Hs Hn]. unfold add_parent. rewrite Hp by set_solver. rewrite IH.
  - f_equal. unfold summary_parents at 2. simpl. rewrite <-insert_union_r, insert_union_l; [done|].
    apply not_elem_of_list_to_map. by rewrite <-list_fmap_compose.
  - done.
  - intros s' Hs'. rewrite lookup_insert_ne; [apply Hp; set_solver|]. intros Heq. apply Hs. rewrite Heq.
    by apply list_elem_of_fmap_2.
Qed.

Section listing.
Context (order : gmap SessionId (option SessionId) → list SessionId).
Hypothesis Horder : ∀ m, order m ≡ₚ (map_to_list m).*1.

Lemma order_keys parents k : k ∈ order parents ↔ k ∈ (dom parents : gset SessionId).
Proof using Horder.
  rewrite Horder, elem_of_dom, list_elem_of_fmap. split.
  - intros ((? & ?) & -> & H%elem_of_map_to_list). eauto.
  - intros [o Ho]. exists (k, o). by rewrite elem_of_map_to_list.
Qed.

Lemma table_grounded parents :
  (∀ x, ¬ tc (parent_of_table parents) x x) → ∀ x, ∃ l, lineage (table_parent parents) x l.
Proof using Horder.
  intros Hac x. destruct (resolve_loop_outcome parents (order parents) ∅) as [(r & _ & Hg)|(y & Hy & _)].
  - set_solver.
  - destruct (parents !! x) as [o|] eqn:Hx.
    + apply Hg, order_keys, elem_of_dom. by eexists.
    + exists [x]. constructor. unfold table_parent. by rewrite Hx.
  - by destruct (Hac y).
Qed.

(** Whatever the order of the table: the sessions below the caller, or the error that names a session on a cycle. *)
Lemma visible_outcome caller parents :
  ((∀ x, ¬ tc (parent_of_table parents) x x) ∧
   ∃ visible, visible_history_sessions order caller parents = Some (Ok visible)
     ∧ ∀ x, x ∈ visible ↔ rtc (parent_of_table parents) x caller)
  ∨ ∃ y, tc (parent_of_table parents) y y
      ∧ visible_history_sessions order caller parents
        = Some (Err (ErrorPayload_new Code_ReadFailed (ParentChainCycle_to_string y))).
Proof using Horder.
  unfold visible_history_sessions.
  destruct (resolve_loop_outcome parents (order parents) ∅) as [(r & -> & Hg)|(y & Hy & ->)]; [set_solver| |right; eauto].
  left. split.
  { intros x Hx. destruct (Hg x) as [l Hl]; [|by eapply lineage_acyclic].
    assert (∃ z, parent_of_table parents x z) as [z Hz] by (inversion Hx; subst; eauto).
    apply order_keys. by eapply table_step_key. }
  destruct (visible_loop_ends parents (order parents) (S (size parents)) ∅ [caller]) as [visible Hv].
  { unfold unseen. etrans; [apply le_n_S, length_filter|]. rewrite Horder, length_fmap. simpl.
    by rewrite length_map_to_list. }
  exists visible. rewrite Hv. split; [done|].
  refine (visible_loop_descends parents (order parents) (order_keys parents) caller _ _ _ _ _ _ _ Hv).
  - intros x [Hx|Hx]; [set_solver|]. by apply list_elem_of_singleton in Hx as ->.
  - set_solver.
  - set_solver.
Qed.
End listing.

Lemma history_list_visible order summaries ctx caller :
  hc_extension_id ctx ≠ ""%string → hc_session_id ctx = Some caller → NoDup (sum_session_id <$> summaries) →
  history_list order (Some (Ok summaries)) ctx
  = visible ← visible_history_sessions order (SessionId_new caller) (summary_parents summaries);
    Some (let? visible := visible in
          Ok (host_summary <$> filter (λ s, sum_session_id s ∈ (visible : gset SessionId)) summaries)).
Proof.
  intros Hext Hcaller Hn. unfold history_list, required_history_context, required_extension_id.
  destruct (hc_extension_id ctx) as [|c e]; [done|]. rewrite Hcaller. simpl.
  rewrite add_parents_ok by (done || by intros; apply lookup_empty). by rewrite (right_id_L ∅ (∪)).
Qed.

(** C12. An extension in the session [caller] is shown that session and those below it, in the order of the storage, and
    nothing else; if any lineage of the storage has a cycle it is shown nothing. *)
Theorem history_is_the_subtree order summaries ctx caller :
  let parents := summary_parents summaries in
  let step := parent_of_table parents in
  (∀ m, order m ≡ₚ (map_to_list m).*1) →
  hc_extension_id ctx ≠ ""%string → hc_session_id ctx = Some caller → NoDup (sum_session_id <$> summaries) →
  ((∀ x, ¬ tc step x x) → ∃ visible : gset SessionId,
      (∀ x, x ∈ visible ↔ rtc step x (SessionId_new caller))
      ∧ history_list order (Some (Ok summaries)) ctx
        = Some (Ok (host_summary <$> filter (λ s, sum_session_id s ∈ visible) summaries)))
  ∧ ((∃ x, tc step x x) → ∃ y, tc step y y
      ∧ history_list order (Some (Ok summaries)) ctx
        = Some (Err (ErrorPayload_new Code_ReadFailed (ParentChainCycle_to_string y)))).
Proof.
  intros parents step Horder Hext Hcaller Hn. rewrite (history_list_visible _ _ _ caller) by done.
  destruct (visible_outcome order Horder (SessionId_new caller) parents) as [(Hac & visible & Hrun & Hv)|(y & Hy & Hrun)];
    unfold parents in Hrun; rewrite Hrun.
  - split; [eauto|]. intros [x Hx]. by destruct (Hac x).
  - split; [|eauto]. intros Hac. by destruct (Hac y).
Qed.

(** ** The list and the access check agree *)

Section agreement.
Context (reader : SessionReader) (summaries : list SessionSummary).
Local Abbreviation parents := (summary_parents summaries).
Local Abbreviation step := (parent_of_table parents).

(** A storage whose read models and summaries tell the same lineages, in which no session has lost its parent and
    the parent of an active session is active. *)
Record store_consistent : Prop := {
  sc_ids : NoDup (sum_session_id <$> summaries);
  sc_models x :
    match session_read_model_active_or_recycled reader x with
    | Ok m => parents !! x = Some (parent_id m)
    | Err (NotFound _) => parents !! x = None
    | Err _ => False
    end;
  sc_active x m p :
    sr_read_model reader x = Ok m → parent_id m = Some p → ∃ m', sr_read_model reader p = Ok m';
  sc_listed x p : parents !! x = Some (Some p) → is_Some (parents !! p);
}.

Hypothesis Hstore : store_consistent.

(** The scope in which [session_state] checks a session. *)
Definition scope_of (x : SessionId) : SessionAccessScope :=
  match sr_read_model reader x with Ok _ => Scope_Active | Err _ => Scope_ActiveOrRecycled end.

Lemma access_parent_table scope x o :
  access_parent reader scope x = Ok o → parents !! x = Some o.
Proof using Hstore.
  pose proof (sc_models Hstore x) as Hm. revert Hm. unfold access_parent, read_access_model, session_read_model_active_or_recycled.
  destruct (sr_read_model reader x) as [m|e]; [by intros -> [= <-]|].
  destruct scope; [done|]. destruct e; try done. by destruct (sr_recycled_read_model reader x); [intros -> [= <-]|].
Qed.

Lemma table_access_parent x o :
  parents !! x = Some o → access_parent reader (scope_of x) x = Ok o.
Proof using Hstore.
  pose proof (sc_models Hstore x) as Hm. revert Hm. unfold scope_of, access_parent, read_access_model, session_read_model_active_or_recycled.
  destruct (sr_read_model reader x) as [m|e]; [by intros -> [= <-]|].
  destruct e; try congruence; try done.
  destruct (sr_recycled_read_model reader x) as [m|e]; [by intros -> [= <-]|]. destruct e; congruence || done.
Qed.

(** The scope of a session serves for its ancestors. *)
Lemma access_parent_scope scope x o :
  parents !! x = Some o → scope = scope_of x ∨ scope = Scope_ActiveOrRecycled → access_parent reader scope x = Ok o.
Proof using Hstore.
  intros Hx%table_access_parent [->| ->]; [done|]. revert Hx. unfold scope_of, access_parent, read_access_model.
  by destruct (sr_read_model reader x).
Qed.

Lemma access_lineage x path scope :
  lineage (table_parent parents) x path → is_Some (parents !! x) →
  scope = scope_of x ∨ scope = Scope_ActiveOrRecycled → lineage (access_parent reader scope) x path.
Proof using Hstore.
  intros Hl. induction Hl as [x Hr|x p l Hp Hl IH]; intros [o Ho] Hs.
  - constructor. rewrite (access_parent_scope _ _ _ Ho Hs). unfold table_parent in Hr. rewrite Ho in Hr.
    injection Hr as Hr. simpl in Hr. by subst.
  - unfold parent_step, table_parent in Hp. rewrite Ho in Hp. injection Hp as Hp. simpl in Hp. subst o.
    apply lineage_step with p; [exact (access_parent_scope _ _ _ Ho Hs)|].
    apply IH; [by eapply (sc_listed Hstore)|]. destruct Hs as [->| ->]; [|by right].
    pose proof (table_access_parent _ _ Ho) as Hm. revert Hm. unfold scope_of, access_parent, read_access_model.
    destruct (sr_read_model reader x) as [m|] eqn:Hx; [intros [= Hm]|by right].
    destruct (sc_active Hstore x m p Hx Hm) as [m' Hm']. left. by rewrite Hm'.
Qed.

Context (fuel : nat) (execution_view : SessionId → result SessionExecutionView string).
Hypothesis Hfuel : size parents < fuel.
Hypothesis Hview : ∀ x m, sr_read_model reader x = Ok m → ∃ view, execution_view x = Ok view.

(** [session_state] answers for a listed session if its lineage has the caller, and refuses it otherwise. *)
Lemma session_state_decided caller target path :
  lineage (table_parent parents) target path → is_Some (parents !! target) →
  (SessionId_new caller ∈ path → ∃ state,
     session_state fuel reader execution_view (SessionId_new caller) target = Some (Ok state))
  ∧ (SessionId_new caller ∉ path → ∃ m,
     session_state fuel reader execution_view (SessionId_new caller) target = Some (Err (Api_PermissionDenied m))).
Proof using All.
  intros Hl Ht.
  assert (∀ scope x p, parent_step (access_parent reader scope) x p → x ∈ (dom parents : gset SessionId)) as HX.
  { intros scope x p Hx%access_parent_table. apply elem_of_dom. by eexists. }
  assert (size (dom parents : gset SessionId) < fuel) as Hsize by (by rewrite size_dom).
  pose proof (λ scope Hs, access_decided fuel reader scope _ (HX scope) Hsize (SessionId_new caller) target path
                            (access_lineage target path scope Hl Ht Hs)) as Haccess.
  destruct Ht as [o Ho]. pose proof (sc_models Hstore target) as Hm. revert Hm.
  unfold session_state, session_read_model_active_or_recycled, verify_access, verify_restore_access, scope_of in *.
  destruct (sr_read_model reader target) as [m|e] eqn:Hr.
  - intros _. rewrite Haccess by auto. destruct (Hview _ _ Hr) as [view Hv]. simpl. rewrite Hv.
    split; intros Hin; [rewrite decide_True by done|rewrite decide_False by done]; eauto.
  - destruct e; try congruence; try done. rewrite Haccess by auto. simpl.
    destruct (sr_recycled_read_model reader target) as [m|e]; [|destruct e; congruence || done].
    intros _. split; intros Hin; [rewrite decide_True by done|rewrite decide_False by done]; eauto.
Qed.
End agreement.

#[export] Instance HostSessionSummary_eq_dec : EqDecision HostSessionSummary.
Proof. solve_decision. Defined.

(** C11. A session of a consistent storage is in the list an extension gets if and only if the server lets the extension
    read it. *)
Theorem listed_iff_readable order reader summaries fuel execution_view ctx caller s :
  let parents := summary_parents summaries in
  (∀ m, order m ≡ₚ (map_to_list m).*1) →
  store_consistent reader summaries → (∀ x, ¬ tc (parent_of_table parents) x x) → size parents < fuel →
  (∀ x m, sr_read_model reader x = Ok m → ∃ view, execution_view x = Ok view) →
  hc_extension_id ctx ≠ ""%string → hc_session_id ctx = Some caller →
  hc_session_ops ctx = Some (session_state fuel reader execution_view) → s ∈ summaries →
  ∃ sessions, history_list order (Some (Ok summaries)) ctx = Some (Ok sessions)
    ∧ authorize_history_target (hc_session_ops ctx) caller (SessionId_str (sum_session_id s))
      = Some (if decide (host_summary s ∈ sessions) then Ok tt
              else Err (ErrorPayload_new Code_PermissionDenied
                          "session history target is outside the caller session lineage")).
Proof.
  intros parents Horder Hstore Hac Hfuel Hview Hext Hcaller Hops Hs.
  rewrite (history_list_visible _ _ _ caller), Hops by (done || apply Hstore).
  destruct (visible_outcome order Horder (SessionId_new caller) parents) as [(_ & visible & Hrun & Hv)|(y & Hy & _)];
    [|by destruct (Hac y)].
  unfold parents in Hrun. rewrite Hrun. eexists; split; [done|].
  pose proof (summary_parents_lookup summaries s (sc_ids _ _ Hstore) Hs) as Hlookup.
  assert (host_summary s ∈ host_summary <$> filter (λ s, sum_session_id s ∈ visible) summaries
    ↔ sum_session_id s ∈ visible) as Hlisted.
  { rewrite list_elem_of_fmap. setoid_rewrite list_elem_of_filter. split; [|by exists s].
    intros (s' & Heq & Hs' & _). unfold host_summary in Heq. injection Heq as Hid _.
    destruct (sum_session_id s), (sum_session_id s'); simpl in Hid. by subst. }
  destruct (table_grounded order Horder parents Hac (sum_session_id s)) as [path Hpath].
  assert (rtc (parent_of_table parents) (sum_session_id s) (SessionId_new caller) ↔ SessionId_new caller ∈ path) as Hpaths.
  { split; [intros; by eapply lineage_complete|by apply lineage_rtc]. }
  destruct (session_state_decided reader summaries Hstore fuel execution_view Hfuel Hview caller _ path Hpath)
    as [Hyes Hno]; [by eexists|].
  unfold authorize_history_target, history_target_is_visible.
  case_decide as Hin; rewrite Hlisted, Hv, Hpaths in Hin; case_bool_decide as Heq; try done.
  - destruct (Hyes Hin) as [state Hstate]. destruct (sum_session_id s). simpl in *. by rewrite Hstate.
  - exfalso. apply Hin, Hpaths. destruct (sum_session_id s). simpl in *. by subst.
  - destruct (Hno Hin) as [m Hm]. destruct (sum_session_id s). simpl in *. by rewrite Hm.
Qed.

(** ** Paging *)

(** What [EventReader] promises for a session whose events are [log]: the first events, and those behind a cursor. *)
Class LawfulEventReader (reader : EventReader) (session_id : SessionId) (log : list StoredEvent) : Prop := {
  law_start n : er_replay_from_start reader session_id n = Ok (after_limited log None (Some n));
  law_from seq n :
    (seq ≤ u64_max)%N →
    er_replay_from reader session_id (u64_to_string seq) n = Ok (after_limited log (Some seq) (Some n));
}.

(** The cursor of a client that has read [seen]. *)
Definition cursor_after (seen : list StoredEvent) : option Cursor := u64_to_string ∘ se_seq <$> last seen.

Definition increasing_seqs (log : list StoredEvent) : Prop :=
  StronglySorted (λ a b, se_seq a < se_seq b)%N log ∧ Forall (λ e, se_seq e ≤ u64_max)%N log.

Lemma after_seen seen rest n :
  increasing_seqs (seen ++ rest) →
  after_limited (seen ++ rest) (se_seq <$> last seen) (Some n) = take (N.to_nat n) rest.
Proof.
  intros [Hs _]. unfold after_limited. f_equal. destruct (last seen) as [e|] eqn:Hl; simpl.
  - apply last_Some in Hl as [seen' ->]. rewrite filter_app, filter_none, filter_all; [done|..].
    + intros x Hx. apply (StronglySorted_app_1_elem_of _ _ _ e x Hs); set_solver.
    + apply StronglySorted_app_1_l in Hs. intros x Hx. apply elem_of_app in Hx as [Hx|Hx].
      * apply (StronglySorted_app_1_elem_of _ _ _ x e) in Hs; [simpl in Hs; lia|done|set_solver].
      * apply list_elem_of_singleton in Hx as ->. lia.
  - by apply last_None in Hl as ->.
Qed.

Lemma cursor_after_app seen page :
  option_or (u64_to_string ∘ se_seq <$> last page) (cursor_after seen) = cursor_after (seen ++ page).
Proof.
  unfold cursor_after. destruct page as [|e l _] using rev_ind; [by rewrite app_nil_r|].
  by rewrite app_assoc, !last_snoc.
Qed.

Section paging.
Context (timestamp_to_value : DateTime → result Value string).
Context (payload_to_value : DurableEventPayload → result Value string).
Local Abbreviation convert := (host_session_event timestamp_to_value payload_to_value).
Context (reader : EventReader) (target caller : string) (ctx : HistoryContext).

(** A request for the events behind [cursor]. *)
Definition page_request (limit : N) (cursor : option Cursor) : HostSessionEventsPageRequest :=
  {| pr_session_id := target; pr_cursor := cursor; pr_limit := limit |}.

Lemma read_page_next log seen rest limit :
  LawfulEventReader reader (SessionId_new target) log → increasing_seqs log → log = seen ++ rest →
  read_page timestamp_to_value payload_to_value reader (page_request limit (cursor_after seen))
  = let? events := try_map convert (take (N.to_nat limit) rest) in
    Ok {| po_events := events;
          po_next_cursor := default "0"%string (cursor_after (seen ++ take (N.to_nat limit) rest));
          po_has_more := bool_decide (N.to_nat limit < length rest) |}.
Proof.
  intros Hlaw Hn Hlog. unfold read_page, page_request. cbn [pr_session_id pr_cursor pr_limit].
  assert (match cursor_after seen with
          | Some cursor => er_replay_from reader (SessionId_new target) cursor (limit + 1)
          | None => er_replay_from_start reader (SessionId_new target) (limit + 1)
          end = Ok (take (N.to_nat (limit + 1)) rest)) as ->.
  { rewrite <-(after_seen seen rest) by (by rewrite <-Hlog). rewrite <-Hlog. unfold cursor_after.
    destruct (last seen) as [e|] eqn:Hl; simpl; [|apply law_start]. apply law_from.
    apply last_Some in Hl as [seen' ->]. destruct Hn as [_ Hb]. rewrite Hlog, !Forall_app in Hb.
    destruct Hb as [[_ Hb] _]. by inversion Hb. }
  cbn [map_err]. rewrite take_take, (Nat.min_l (N.to_nat limit)) by lia. rewrite cursor_after_app.
  rewrite (bool_decide_ext (limit < _)%N (N.to_nat limit < length rest)); [done|].
  rewrite length_take. lia.
Qed.

(** A client that follows the cursors until there is no more. *)
Fixpoint read_all (fuel : nat) (limit : N) (cursor : option Cursor)
    : option (result (list HostSessionEvent) ErrorPayload) :=
  match fuel with
  | O => None
  | S fuel =>
    page ← read_events timestamp_to_value payload_to_value (Some reader) (page_request limit cursor) ctx;
    match page with
    | Err e => Some (Err e)
    | Ok page =>
      if po_has_more page then
        rest ← read_all fuel limit (Some (po_next_cursor page));
        Some (let? rest := rest in Ok (po_events page ++ rest))
      else Some (Ok (po_events page))
    end
  end.

Hypothesis Hext : hc_extension_id ctx ≠ ""%string.
Hypothesis Hcaller : hc_session_id ctx = Some caller.
Hypothesis Hauth : authorize_history_target (hc_session_ops ctx) caller target = Some (Ok tt).

Lemma read_events_page limit cursor :
  (1 ≤ limit ≤ MAX_READ_EVENTS_LIMIT)%N →
  read_events timestamp_to_value payload_to_value (Some reader) (page_request limit cursor) ctx
  = Some (read_page timestamp_to_value payload_to_value reader (page_request limit cursor)).
Proof using All.
  intros Hl. unfold read_events. cbn [ok_or page_request pr_limit]. rewrite bool_decide_true by done. simpl.
  unfold required_history_context, required_extension_id. destruct (hc_extension_id ctx); [done|].
  rewrite Hcaller. simpl. by rewrite Hauth.
Qed.

Lemma try_map_app {A B E} (f : A → result B E) l1 l2 l :
  try_map f (l1 ++ l2) = Ok l → ∃ k1 k2, try_map f l1 = Ok k1 ∧ try_map f l2 = Ok k2 ∧ l = k1 ++ k2.
Proof.
  induction l1 as [|a l1 IH] in l |- *; simpl; [intros; by exists [], l|].
  destruct (f a); [|done]. destruct (try_map f (l1 ++ l2)) as [k|] eqn:Hk; [|done]. intros [= <-].
  destruct (IH k eq_refl) as (k1 & k2 & -> & -> & ->). by eexists (_ :: k1), k2.
Qed.

Lemma read_all_rest log limit :
  LawfulEventReader reader (SessionId_new target) log → increasing_seqs log →
  (1 ≤ limit ≤ MAX_READ_EVENTS_LIMIT)%N →
  ∀ fuel seen rest events, log = seen ++ rest → length rest < fuel → try_map convert rest = Ok events →
  read_all fuel limit (cursor_after seen) = Some (Ok events).
Proof using All.
  intros Hlaw Hn Hlimit. induction fuel as [|fuel IH]; intros seen rest events Hlog Hf Hev; [lia|].
  cbn [read_all]. rewrite read_events_page by done. rewrite (read_page_next log seen rest) by done.
  rewrite <-(take_drop (N.to_nat limit) rest) in Hev.
  destruct (try_map_app _ _ _ _ Hev) as (k1 & k2 & H1 & H2 & ->). rewrite H1. cbn -[read_all].
  case_bool_decide as Hmore.
  - destruct rest as [|e rest0] eqn:Hrest; [simpl in Hmore; lia|]. rewrite <-Hrest in *.
    assert (∃ c, cursor_after (seen ++ take (N.to_nat limit) rest) = Some c) as [c Hc].
    { unfold cursor_after. destruct (last (seen ++ take (N.to_nat limit) rest)) eqn:Hlast; [by eexists|].
      apply last_None, app_nil in Hlast as [_ Htake]. rewrite Hrest in Htake.
      destruct (N.to_nat limit) eqn:Hz; [lia|done]. }
    rewrite Hc. simpl. rewrite <-Hc. rewrite (IH _ (drop (N.to_nat limit) rest) k2); [done|..|done].
    + by rewrite <-app_assoc, take_drop.
    + rewrite length_drop. lia.
  - rewrite drop_ge in H2 by lia. injection H2 as <-. by rewrite app_nil_r.
Qed.
End paging.

(** Following the cursors gives every event once and in order, and each page holds at most [limit] events and tells
    whether there are more. *)
Theorem pages_cover_the_log timestamp_to_value payload_to_value reader target caller ctx log limit events fuel :
  let convert := host_session_event timestamp_to_value payload_to_value in
  LawfulEventReader reader (SessionId_new target) log → increasing_seqs log → (1 ≤ limit ≤ MAX_READ_EVENTS_LIMIT)%N →
  hc_extension_id ctx ≠ ""%string → hc_session_id ctx = Some caller →
  authorize_history_target (hc_session_ops ctx) caller target = Some (Ok tt) →
  try_map convert log = Ok events → length log < fuel →
  read_all timestamp_to_value payload_to_value reader target ctx fuel limit None = Some (Ok events)
  ∧ ∀ seen rest, log = seen ++ rest → ∃ page,
      read_events timestamp_to_value payload_to_value (Some reader) (page_request target limit (cursor_after seen)) ctx
      = Some (Ok page)
      ∧ try_map convert (take (N.to_nat limit) rest) = Ok (po_events page)
      ∧ po_has_more page = bool_decide (N.to_nat limit < length rest).
Proof.
  intros convert Hlaw Hn Hlimit Hext Hcaller Hauth Hev Hfuel. split.
  - by apply (read_all_rest _ _ reader target caller ctx Hext Hcaller Hauth log limit Hlaw Hn Hlimit fuel [] log events).
  - intros seen rest Hlog. rewrite (read_events_page _ _ _ _ caller) by done.
    rewrite (read_page_next _ _ _ _ log seen rest) by done. rewrite Hlog, <-(take_drop (N.to_nat limit) rest) in Hev.
    apply try_map_app in Hev as (k1 & k2 & _ & Hev & ->). apply try_map_app in Hev as (k3 & k4 & Hev & _ & ->).
    fold convert. rewrite Hev. simpl. eexists; split; [done|]. by split.
Qed.

(** ** A reader of one log: the default methods of the trait *)

Lemma cursor_round_trip n : (n ≤ u64_max)%N → parse_u64 (u64_to_string n) = Some n.
Proof.
  intros Hn. unfold u64_to_string, pretty, pretty_N. destruct (decide (n = 0)%N) as [->|Hz]; [done|].
  rewrite parse_u64_digits; [by rewrite parse_go|by apply digits_go|by apply go_nonempty].
Qed.

Definition log_reader (log : list StoredEvent) : EventReader :=
  {| er_replay_from_start _ n := Ok (after_limited log None (Some n));
     er_replay_from _ cursor n :=
       let? seq := ok_or (parse_u64 cursor) (InvalidId ("Invalid cursor: " +:+ cursor)) in
       Ok (after_limited log (Some seq) (Some n));
     er_replay_events _ := Ok log |}.

#[export] Instance log_reader_lawful log session_id : LawfulEventReader (log_reader log) session_id log.
Proof. split; [done|]. intros seq n Hs. simpl. by rewrite cursor_round_trip. Qed.

(** ** A small storage *)

Module HistorySample.
Local Open Scope string_scope.
Definition id : string → SessionId := SessionId_new.

Definition model (name : string) (parent : option string) : SessionReadModel :=
  from_started (id name)
    {| st_working_dir := "/w"; st_model_id := "m";
       st_parent := (λ p, {| parent_session_id := id p |}) <$> parent;
       st_tool_selection := Selection_default; st_source_extension := None;
       st_initial_system_prompt := {| psp_text := "sys"; psp_fingerprint := "f"; psp_extra_system_prompt := None;
                                      psp_source := Prompt_Native |} |} 0%Z.

Definition active : list (string * option string) := [("root", None); ("child", Some "root"); ("other", None)].
Definition recycled : list (string * option string) := [("old", Some "child")].

Fixpoint find_model (l : list (string * option string)) (x : SessionId) : result SessionReadModel StorageError :=
  match l with
  | [] => Err (NotFound x)
  | (name, parent) :: l => if bool_decide (id name = x) then Ok (model name parent) else find_model l x
  end.

Definition reader : SessionReader := {| sr_read_model := find_model active; sr_recycled_read_model := find_model recycled |}.

Definition summary (s : string * option string) : SessionSummary :=
  {| sum_session_id := id s.1; sum_created_at := "t"; sum_updated_at := "t"; sum_working_dir := "/w";
     sum_model_id := "m"; sum_parent_session_id := id <$> s.2; sum_phase := Phase_Idle; sum_latest_cursor := "0";
     sum_first_user_message := None; sum_source_extension := None |}.
Definition summaries : list SessionSummary := summary <$> (active ++ recycled)%list.

Definition order (m : gmap SessionId (option SessionId)) : list SessionId := (map_to_list m).*1.
Definition view (_ : SessionId) : result SessionExecutionView string :=
  Ok {| xv_phase := Phase_Idle; xv_active_turn_id := None; xv_queued_inputs := 0; xv_message_count := 0 |}.
Definition ctx (caller : string) : HistoryContext :=
  {| hc_extension_id := "ext"; hc_session_id := Some caller; hc_session_ops := Some (session_state 10 reader view) |}.

Lemma order_ok m : order m ≡ₚ (map_to_list m).*1.
Proof. done. Qed.

Lemma storage_acyclic x : ¬ tc (parent_of_table (summary_parents summaries)) x x.
Proof.
  destruct (visible_outcome order order_ok (id "root") (summary_parents summaries)) as [[Hac _]|(y & _ & Hrun)]; [apply Hac|].
  vm_compute in Hrun. discriminate.
Qed.

Lemma storage_consistent : store_consistent reader summaries.
Proof.
  split.
  - apply (bool_decide_unpack _). vm_compute. exact I.
  - intros x. unfold session_read_model_active_or_recycled, summary_parents, reader. simpl.
    repeat (case_bool_decide; [subst; vm_compute; reflexivity|]). rewrite !lookup_insert_ne by done. apply lookup_empty.
  - intros x m p. simpl. repeat (case_bool_decide; [subst; intros [= <-] [= <-]; vm_compute; eauto|]). done.
  - intros x p. unfold summary_parents. simpl. rewrite !lookup_insert_Some, lookup_empty.
    intros Hp. repeat (destruct Hp as [[??]|[_ Hp]]; [simplify_eq/=; by eexists|]). done.
Qed.

(** The session [child] sees itself and the recycled [old]. *)
Lemma history_is_the_subtree_witness :
  ∃ visible : gset SessionId, id "old" ∈ visible
    ∧ history_list order (Some (Ok summaries)) (ctx "child")
      = Some (Ok (host_summary <$> filter (λ s, sum_session_id s ∈ visible) summaries))
    ∧ history_list order (Some (Ok summaries)) (ctx "child")
      = Some (Ok [host_summary (summary ("child", Some "root")); host_summary (summary ("old", Some "child"))]).
Proof.
  destruct (history_is_the_subtree order summaries (ctx "child") "child" order_ok) as [Htree _]; [done|done| |].
  { apply (bool_decide_unpack _). vm_compute. exact I. }
  destruct (Htree storage_acyclic) as (visible & Hv & Hlist). exists visible. split_and!; [|done|vm_compute; reflexivity].
  apply Hv. apply rtc_once. vm_compute. reflexivity.
Defined.

Lemma listed_iff_readable_witness :
  authorize_history_target (hc_session_ops (ctx "child")) "child" "old" = Some (Ok tt)
  ∧ authorize_history_target (hc_session_ops (ctx "child")) "child" "root"
    = Some (Err (ErrorPayload_new Code_PermissionDenied "session history target is outside the caller session lineage")).
Proof.
  assert (∀ s, s ∈ summaries → ∃ sessions,
    history_list order (Some (Ok summaries)) (ctx "child") = Some (Ok sessions)
    ∧ authorize_history_target (hc_session_ops (ctx "child")) "child" (SessionId_str (sum_session_id s))
      = Some (if decide (host_summary s ∈ sessions) then Ok tt
              else Err (ErrorPayload_new Code_PermissionDenied
                          "session history target is outside the caller session lineage"))) as H.
  { intros s Hs. apply (listed_iff_readable order reader summaries 10 view); try done.
    - exact storage_consistent.
    - exact storage_acyclic.
    - vm_compute. lia.
    - intros x m _. eexists. reflexivity. }
  split.
  - destruct (H (summary ("old", Some "child"))) as (sessions & Hl & Ha); [vm_compute; set_solver|].
    etrans; [exact Ha|]. vm_compute in Hl. injection Hl as <-. vm_compute. reflexivity.
  - destruct (H (summary ("root", None))) as (sessions & Hl & Ha); [vm_compute; set_solver|].
    etrans; [exact Ha|]. vm_compute in Hl. injection Hl as <-. vm_compute. reflexivity.
Defined.

(** Three events, two to a page. *)
Definition event (seq : N) : StoredEvent :=
  StoredEvent_new seq (Build_EventEnvelope (EventId_new "e") (id "child") None 0%Z P_TurnStarted).
Definition log : list StoredEvent := [event 0; event 1; event 2].
Definition host_event (seq : N) : HostSessionEvent :=
  {| he_seq := seq; he_id := "e"; he_session_id := "child"; he_turn_id := None; he_timestamp := "t"; he_payload := JNull |}.

Lemma pages_cover_the_log_witness :
  read_all (λ _, Ok (JString "t")) (λ _, Ok JNull) (log_reader log) "child" (ctx "child") 4 2 None
  = Some (Ok [host_event 0; host_event 1; host_event 2]).
Proof.
  apply (pages_cover_the_log _ _ (log_reader log) "child" "child" (ctx "child") log 2); try done.
  - apply log_reader_lawful.
  - split; [|repeat constructor; vm_compute; discriminate].
    repeat (constructor; [|repeat constructor; vm_compute; reflexivity]). constructor.
  - vm_compute. lia.
Defined.

(** A session whose grandparent is gone is listed below its parent, but the server does not let the parent read it. *)
Definition orphans : list (string * option string) := [("child", Some "gone"); ("old", Some "child")].
Definition orphan_reader : SessionReader :=
  {| sr_read_model := find_model orphans; sr_recycled_read_model := find_model [] |}.

Lemma orphan_is_listed_only :
  (∃ sessions, history_list order (Some (Ok (summary <$> orphans))) (ctx "child") = Some (Ok sessions)
     ∧ host_summary (summary ("old", Some "child")) ∈ sessions)
  ∧ authorize_history_target (Some (session_state 10 orphan_reader view)) "child" "old"
    = Some (Err (ErrorPayload_new Code_PermissionDenied "session history target is outside the caller session lineage")).
Proof.
  split; [|vm_compute; reflexivity]. eexists; split; [vm_compute; reflexivity|]. right. left.
Qed.

Lemma cycle_hides_everything :
  history_list order (Some (Ok (summary <$> [("a", Some "b"); ("b", Some "a"); ("other", None)]))) (ctx "other")
  = Some (Err (ErrorPayload_new Code_ReadFailed "session parent chain contains a cycle at b"))
  ∨ history_list order (Some (Ok (summary <$> [("a", Some "b"); ("b", Some "a"); ("other", None)]))) (ctx "other")
  = Some (Err (ErrorPayload_new Code_ReadFailed "session parent chain contains a cycle at a")).
Proof. vm_compute. auto. Qed.
End HistorySample.
